(* ===== verification/_CoqProject ===== *)
-Q . S2P
Prelude.v
PropertyModel.v
Metadata.v
Counts.v
Coverage.v
VerificationResult.v
Demotion.v
Artifact.v
CtrexClassify.v
TwoLane.v
HarnessRunner.v
Summary.v
AyExpr.v
Chc.v
DeadVars.v
DeadArgs.v
Taint.v
Text.v
Wire.v
Digest.v
NativeMetadata.v
EvidenceArtifact.v
Obligation.v
CacheKey.v
Binding.v
Evidence.v
EvidenceSpec.v
Bmc.v
FullVerifier.v
ChcApi.v
BvArith.v
AyBuild.v
ConstEval.v
ConstEvalSpec.v
ConstSubst.v
ConstArray.v
HeapLiveness.v
ConstProp.v
ConstPropSpec.v
AyBuildSample.v
ConstPropTheorems.v
Visits.v
AyTry.v
PathFacts.v
StraightlineSimplify.v
Straightline.v
StraightlineSpec.v
StraightlineSearch.v
StraightlineLoops.v
StraightlineTheorems.v
DeadScalars.v
FreeArrays.v
NormaliseTheorems.v
F64.v
TrustIr.v
AyEncode.v
BmcExpr.v
BmcOrder.v
BmcTranslate.v
BmcInvariant.v
BmcSound.v
BmcEdges.v
BmcBlocks.v
BmcPaths.v
BmcWalk.v
BmcFunction.v
BmcChecks.v
BmcArith.v
BmcTotal.v
BmcWitness.v
ChcCfg.v
CellInit.v
StackCells.v
Aggregates.v
ChcValues.v
ChcValuesSpec.v
CellPromotion.v
LiveValues.v
ChcSample.v
