(* ===== verification/Prelude.v ===== *)
(** * trust-mc: a verification of the verdict pipeline, its evidence and the CHC passes

    trust-mc compiles Rust proof harnesses to bounded or CHC queries, runs a
    solver on them and turns the answer into a verdict.  The solver only sees
    an encoding; every place where the encoding gave up, approximated or
    skipped something is counted in the crate metadata, and the driver decides
    from these counts whether an answer may be reported as it is.  A wrong
    decision there turns an unfinished encoding into a "proof" or a spurious
    model into a "bug".  This development models that decision procedure, from
    the metadata to the exit code; the bounded encoder of trust-mc-trust-bmc, which
    turns a function of the intermediate representation into a verification condition;
    the passes of trust-mc-core that rewrite a system of constrained Horn clauses
    between the encoder and the solver; and the typed evidence with which
    trust-mc-core answers a consumer's request for a proof; and proves what they
    promise.

    ** Parts and files

    - [Prelude] (this file): the [str] methods and the [BTreeMap] operations
      the sources call, generic list lemmas, tactics.
    - [PropertyModel]: [trust-mc-driver/src/property_model.rs], the rows of a
      property table and the identifiers they are read from.
    - [Metadata]: [trust-mc-metadata/src/{diagnostics,lib,harness}.rs], the
      registry of unsoundness categories with their classes, the counters a
      crate's metadata carries, the unified view [unsoundness], harnesses and
      their selection by name.
    - [Counts]: [trust-mc-driver/src/unsoundness_{counts,extract,
      extract_fail_closed}.rs], the extraction of the counters by crate, and
      the record a harness is checked with ([from_project], [get_for_crate]).
    - [Coverage]: [coverage/cov_results.rs].
    - [VerificationResult]: [verification_result*.rs] and
      [verification_provenance.rs], the verdict types, the vacuity predicates
      and the console text.
    - [Demotion]: [demotion.rs], the attribution of counts to a harness and the
      demotion of proofs.
    - [Artifact]: [trust-mc-core/src/{ident,violation,artifact}.rs] and
      [ay_parse/vc_artifact.rs], the side file of an encoding and what the
      driver reads from it.
    - [CtrexClassify]: [ctrex_classify.rs], [unknown_quality.rs] and the
      certification in [harness_runner.rs], the trust put in a counterexample.
    - [TwoLane]: [loop_two_lane.rs] and the retry of [harness_runner.rs].
    - [HarnessRunner]: [check_harness] and [check_all_harnesses] of
      [harness_runner.rs], [metadata.rs], [determine_failed_from_properties].
    - [Summary]: [proof_summary.rs], [result_summary.rs] and the count of
      [autoharness/mod.rs].

    The Horn clause side, which the pipeline above meets in the artifact:

    - [AyExpr]: the interface to the expressions of the external crate
      [ay_bindings] (type class [AyExpr]), their semantics (type class [AySem]),
      the traversals of [chc_optimize_collect.rs], and a concrete language that
      is an instance of both.
    - [Chc]: [trust-mc-core/src/{constraints,decl,chc}.rs], the data and
      operations of [ChcVc], the facts derived from a system of rules
      ([derivable]), orphan pruning.
    - [DeadVars]: [chc_optimize_dead_vars.rs].
    - [DeadArgs]: [chc_optimize.rs].
    - [DeadScalars]: [chc_optimize_dead_scalars.rs], the columns that every rule only
      hands on; [DeadScalarsSpec]: what their removal promises.
    - [FreeArrays]: [chc_normalize_free_arrays.rs], default arrays under chains of
      stores; [NormaliseTheorems]: the theorems on these two files.
    - [Taint]: [finalize_approximation_identity] of [chc.rs], which writes the
      evidence that [CtrexClassify] certifies counterexamples with.
    - [Bmc]: [trust-mc-core/src/bmc.rs], bounded problems, over the same
      expressions.

    Constant propagation, [trust-mc-core/src/chc_const_prop*.rs], which rewrites
    expressions and so needs the builders of [ay_bindings] too:

    - [BvArith]: the arithmetic of bit-vector constants, with the operators of
      SMT-LIB that it is compared with.
    - [AyBuild]: the interface to nodes and builders (classes [AyApi] and
      [AyEval]: what a node is, and what a built node means).
    - [ConstEval], [ConstSubst], [ConstArray], [HeapLiveness], [ConstProp]: the
      files [_eval], [_subst], [_array] with the equalities of the main file,
      [_heap_liveness], and the main file with [_identity].
    - [ConstEvalSpec], [ConstSubstSpec], [ConstArraySpec], [ConstPropSpec]: the
      lemmas that make each of these right, stated under the laws of [AyEval].
    - [AyBuildSample]: a small language of bit-vectors, booleans and arrays that
      is an instance of both classes; [ConstPropTheorems]: the theorems, each with
      a run in that language.

    The straight-line prover of the compiler,
    [trust-mc-compiler/src/codegen_ay/chc/straightline_proof.rs], which answers for
    a system of clauses without the solver:

    - [Visits]: the budget of node visits, as a monad; [AyTry]: the builders that can
      refuse, and quantifier-free expressions (classes [AyTry], [AyTryEval]).
    - [PathFacts]: bounds and disequalities of a path, and reading them from
      comparisons; [StraightlineSimplify]: substitution and simplification;
      [Straightline]: the application of constraints, the enumeration of frames, the
      guards on loops and vacuity, the discharge.
    - [StraightlineSimplifySpec], [StraightlineSpec], [StraightlineSearch],
      [StraightlineBudget], [StraightlineLoops]: what each of these promises.
    - [SampleSystems], [AyTrySample]: systems and the instances of the sample language;
      [StraightlineTheorems]: the theorems, each with a run.

    The bounded encoder, [trust-mc-trust-bmc/src/translate.rs]:

    - [F64]: doubles and singles as bit patterns, with the casts the encoder makes.
    - [TrustIr]: the interface to the external crate [trust_ir], its types, constants,
      instructions, blocks, functions and modules; [AyEncode]: the builders of
      [ay_bindings] that only the encoder calls, and what they mean (class
      [AyEncodeEval]); [AyEncodeSample]: the sample language as an instance of both.
    - [BmcExpr]: the functions without state, sorts, constants and the conditions of
      checks.
    - [BmcOrder]: [acyclic_topo_order], the blocks in topological order.
    - [BmcTranslate]: [FuncTranslator] as the state of a monad, one definition per
      method ([translate_node] with its arm per instruction, [define_block_guard],
      [bind_block_params], [record_edge] and so on), functions and modules.
    - [BmcInvariant], [BmcSound]: what every operation keeps (variables are declared
      once and before use, violations carry the guard of their block, counters only
      grow), by one lemma for each.
    - [BmcOrderSpec]: the order is right; [BmcEdges], [BmcBlocks], [BmcPaths]: the
      conditions of edges, the effect of entering a block, the blocks one after another
      against a walk along the recorded edges; [BmcWalk]: the execution of the function
      itself, by its branches, and that the recorded edges are its steps; [BmcFunction]:
      the theorems on whole
      functions; [BmcChecks]: what is not modelled fails; [BmcArith]: the checks of
      arithmetic against Rust's checked operations; [BmcTotal]: no panics.
    - [BmcWitness]: a function with two paths, one with a loop, and valuations of their
      encodings.

    What the Horn clause encoder, [trust-mc-trust-bmc/src/translate_chc.rs], decides
    about a function before it writes clauses, and the values it writes them with:

    - [ChcCfg]: the operands an instruction reads, the successors of a block,
      [cfg_reaches] and [site_can_precede_target].
    - [CellInit]: [promoted_cell_is_definitely_initialized], a data-flow analysis.
    - [StackCells]: [stack_alloca_escape_classification] and the block-local lane
      [block_local_alloca_reject] with its reasons and the boolean it replaced.
      With each, in a module of its own ([ChcCfgSpec], [CellInitSpec], [StackCellsSpec]),
      what it promises, against walks of the control-flow graph.
    - [Aggregates]: the types that are taken apart into fields
      ([aggregate_leaf_count_within]), the columns a relation has for a value
      ([declare_relation_binding_rec]), the newtypes of a pointer.
    - [ChcValues]: the part of [ChcFuncTranslator] that binds values, as the state of a
      monad with one definition per method; casts ([eval_cast_expr], the [Cast] arm of
      [translate_node], [proof_grade_cast_is_admissible]); the merge of the return paths
      of a call ([combine_call_summary_returns]).
    - [CellPromotion]: [compute_promotable_cells_of], the promoted lane and the
      admission of an allocation by either lane, with the reasons.
    - [LiveValues]: which values are carried between blocks
      ([cross_block_general_results], [compute_live_params]).
    - [ChcValuesSpec]: the modules [CastSpec], [NewtypeSpec] and [CallReturnsSpec] on
      [ChcValues]; [AggregatesSpec], [CellPromotionSpec] and [LiveValuesSpec] stand with
      what they are about.  [ChcSample]: a table of types and runs of all of them.

    The typed evidence library, [trust-mc-core/src/evidence.rs]:

    - [Text], [Wire]: the text helpers, [Result], and the bounded visitors that
      read collections from a wire.
    - [Digest]: [EvidenceHash]; the hash function is a parameter (class [Sha256]).
    - [NativeMetadata], [EvidenceArtifact], [Obligation], [CacheKey]: the records
      a proof is described by, with their validation.
    - [Binding]: [linked_proof_binding_id], the digest that ties the artifacts of
      one proof together.
    - [Evidence]: proof evidence, its constructors, the candidate check and the
      proof-grade admission; [EvidenceSpec]: what these promise.
    - [FullVerifier]: [full_verifier.rs], the boundary through which a consumer
      asks for a proof; the engine is a parameter (class [ChcPdrEngine]).
    - [ChcApi]: [chc_api.rs], obligations with their systems of clauses.

    A name above that is no file is a module in the file of what it is about:
    [BmcOrderSpec] in [BmcOrder], [DeadScalarsSpec] in [DeadScalars], the modules of
    [ConstSubst], [ConstArray], [StraightlineSimplify], [ChcCfg], [CellInit],
    [StackCells], [Aggregates], [CellPromotion] and [LiveValues] likewise;
    [StraightlineBudget] in [StraightlineSearch], and of the samples [SampleSystems] in
    [AyBuildSample], [AyTrySample] in [AyTry] and [AyEncodeSample] in [AyEncode].

    ** How the parts interact

    A run reads one [KaniMetadata] per crate.  [Counts.from_project] folds the
    list into maps by crate name and [get_for_crate] cuts out the record of one
    crate.  For each harness, in the order of [sort_harnesses_by_loc],
    [check_harness] asks the solver ([run_ay], a parameter) and pushes the
    answer through [gates]: demotion, classification of a counterexample with
    its certification against the artifact, the vacuity gates, the
    sound-fallback gate and the [should_panic] gate.  A result that is no
    effective success may be retried in two lanes.  The thread pool of
    [check_all_harnesses] is a step relation on the set of started closures and
    the results pushed, with any interleaving.  [Summary] turns the results
    into the counts of the summary artifact, the console lines and the ending
    of the process.

    The bounded encoder translates one function after another.  Where the blocks have a
    topological order ([acyclic_topo_order]) each block gets a guard, the disjunction of
    the conditions of the edges that lead to it; its parameters are bound to the
    arguments of these edges, and its checks, assumptions and stores only count under
    the guard.  Edges wait in a map by target until their block is reached.  Where there
    is no order the instructions are translated one after the other and every branch is
    a failing check.  The result is a [BmcVc] of [Bmc]: its violations are what the
    solver is asked for.

    The passes run on one [ChcVc] after another: constant propagation looks for
    relation arguments that are the same constant in every fact ([HeapLiveness]
    says where it must not), puts the constants into the rules ([ConstSubst], which
    folds with [ConstEval]) and removes the arguments; [DeadArgs] and [DeadVars]
    drop what is then unused.  Each pass maps the derivable facts of its input to
    those of its output, so their theorems compose.  [DeadScalars] removes by position,
    with its own liveness of names, what [DeadArgs] would have to keep because a rule
    hands it on; [FreeArrays] comes last and narrows the valuations.  The compiler offers the result
    to [Straightline.discharge_straightline_safety]: a frame is what a relation is
    reached with, its symbolic arguments and the facts of the path; every rule turns
    the frames of its body into frames of its head until none is new, and a system
    for which no error edge was feasible is replaced by one that is never derivable.

    A consumer of trust-mc-core hands a [FullVerificationRequest] to
    [FullVerifier.verify], which validates it, calls the engine and accepts its
    report only when the consistency check finds request, evidence and artifacts
    to agree.  Evidence is built by the constructors of [Evidence] from
    [EvidenceArtifact]s that retain their bytes and carry the [Binding] id of the
    [Obligation] and [CacheKey]; [NativeMetadata] says what the obligation was
    translated from.

    ** What the theorems show

    - Soundness of the verdict: [check_harness_sound], [gates_success_iff],
      [should_panic_success_iff], [demotion_end_to_end], [demotion_exact],
      [sound_fallback_gate], [fail_closed_dominates].
    - Trust in a counterexample: [classify_ctrex_genuine_iff],
      [classify_ctrex_over_approximation], [recertify_sound],
      [taint_total_entries], [classify_unknown_quality_spec].
    - The retry: [retry_only_upgrades], [merge_proved_iff], [lane_argv_spec].
    - The counters: [get_for_crate_refines] (the by-crate maps refine the
      registry when crate names are distinct), [category_lists_partition],
      [lookup_per_harness_spec].
    - The reports: [channels_agree], [exit_code_spec], [summary_partition],
      [property_counts_partition], [format_result_total],
      [classify_vacuity_spec], [parse_property_name],
      [collect_results_spec], [sort_harnesses_by_loc_spec].
    - The passes keep the meaning of a system: [prune_orphan_block_rules_exact],
      [prune_dead_vars_exact] with [prune_dead_vars_complete],
      [strip_dead_args_sound], [strip_dead_args_exact] with
      [dead_positions_spec] and [strip_dead_args_total]; [declared_once] and
      [collect_var_names_complete] are what they rely on.
    - The normalisations: [masked_columns_exact] (which columns go),
      [prune_scalars_sound] (no derivation is lost), [prune_scalars_exact] (none is
      invented where a rule keeps its dead slots apart), [normalize_exact] (the
      derivations that read a free array as its default are kept, and are those of the
      output where the array is read under its stores only).
    - The evidence is right: [certified_independent] (the violations of a check
      found independent do not come from the approximation, for rules that respect the
      state slots; [misread_slot] is one that does not) and
      [finalize_verdict_spec].
    - Constant propagation keeps the meaning of a system:
      [constant_positions_sound] (a position reported constant is), by
      [learned_constants_hold], [evaluators_sound] and [bv_fold_exact];
      [substitution_sound] and [cleanup_exact] (the rewriting is an equivalence);
      [propagation_preserves] (a whole round loses no derivation, under the two
      side conditions that [readings_needed] shows to be necessary);
      [propagation_ends] and [cycle_check_exact].
    - The straight-line prover is right when it answers: [straightline_sound] and
      [discharge_sound], by [walkers_keep_meaning] (the rewriting is an equivalence
      under the facts) and [constraints_keep_models] (only edges that no execution
      takes are pruned); [loop_relations_exact], [frames_well_typed];
      [straightline_ends] (the bounds of the model are enough).  The side condition,
      that no rule captures a variable a frame leaves free, is needed:
      [capture_unsound].
    - The bounded encoding is the program: [acyclic_topo_order_exact] (which functions
      get guards, and in which order), [guards_are_path] (the guards that hold are the
      blocks of the one execution, read off the branches of the function), [guards_always_exist] (no execution is excluded),
      [execution_completes] (none gets stuck), [arguments_passed];
      [violation_on_path] (a model is an execution with a failing check),
      [unmodelled_fails_closed] and [linear_fails_closed] (what leaves a result open
      fails where it is reached, with the exceptions named there), [checked_binop_exact]
      and [bounded_output_exact] with [exact_integer] (the checks are those of Rust's
      arithmetic, and which bounds are read as which numbers), [encoder_total] (none of
      the encoder's own panics).
    - The Horn clause encoder trusts a stack cell only where it may:
      [definitely_initialized_exact] (a cell is written before it is read in every
      execution), [escape_exact] (the uses of the pointers into a cell),
      [block_local_sound] (the lane of cells of one block, by both); and
      [narrowing_sound] (an instruction left out of a narrowed problem precedes nothing
      in it); [promotion_exact] (which cells are promoted, and why others are not) and
      [admitted_cells_exact] (what admission by either lane guarantees).
    - Its values are those of the program: [relation_columns] (declarations and
      arguments agree, leaf by leaf), [integer_cast_exact] (the bits of a cast, and when
      its obligation fails), [casts_in_lockstep] (a cast the gate admits is lowered
      exactly), [combined_returns_exact] (a merged result is that of the path taken),
      [live_params_exact] (what a block is handed is what may be read).
    - Evidence cannot be forged from its parts: [public_admission_closed] (nothing
      a producer can build or send is proof-grade), [candidate_check_exact] against
      an independent specification, [constructors_make_candidates],
      [candidates_not_spliced], [binding_id_identifies], [cache_key_spec],
      [obtained_artifact_ok] (by induction on the public operations),
      [validate_for_obligation_id_spec], [bounded_visitor], [digest_roundtrip].
    - The boundary adds no verdicts: [verify_proves], [obligation_checks].
    - Shortcomings, each with a concrete run: [same_name_crates_lose_counts],
      [readings_needed], [capture_unsound], [normalize_loses], [normalize_invents], [scalars_invent], [misread_slot],
      [late_assumption_hides], [sibling_proof_accepted], [coverage_channels_disagree],
      [iterator_survivor_is_genuine], [strict_vacuity_should_panic],
      [unreached_code_unsettles], [ordinary_instruction_reads_all],
      [twins_never_settle], [self_reference_never_ends].

    ** Conventions

    A [usize] counter is an [N]: sums of counters are taken not to overflow
    64 bits, and the one place where a counter is parsed back states the bound.
    A [BTreeMap] is a sorted association list ([BMap]), a [BTreeSet] a [gset].
    A [String] is a byte string.  A panic or an error is [None].  A file that
    the source reads is the decoded value the source works on, or [None] when
    it cannot be read.  A [HashSet] or [HashMap] is a [gset] or [gmap]; where the
    source iterates over one the order does not matter to the result, and the
    theorems show it by characterising the result as a set.

    Most recursions are structural.  The loops that run until nothing changes
    carry fuel: the number of rules for orphan pruning, of constraints for the
    strip loop and the closures of [DeadVars] and [Taint], of seeds and edges for
    the searches of [DeadArgs], and the size of an expression for a traversal.
    Every bound is proved to be enough ([orphan_loop_fixed], [strip_loop_done],
    [close_loop_closed], [saturate_closed], [bfs_spec], [fold_expr_fuel]): the
    loop ends with the round that changed nothing.  In constant propagation the
    two evaluators call each other, with twice the size of the expression as fuel;
    a [while changed] loop learns a variable in every round and so has as many
    rounds as there are constraints, doubled ([while_changed]); the outer loop
    removes a declared argument in every round ([propagation_ends]); the search for
    cycles visits an edge at most once ([dfs_fuel], [cycle_check_exact]).

    The straight-line prover has the budgets of the source (depth 512, visits,
    frames), and two bounds of the model: the nesting of conjunctions and testers, one
    more than the visits, and the rounds, two more than the frames
    ([straightline_ends]).  Its memo tables save visits and change no result; which
    visits are granted is an oracle ([grant]) over which the theorems quantify, and
    [node_budget] is the one without a table.  A set of frames is a list without
    duplicates.  Its theorems are about rules without quantifiers ([rule_qf]), for
    which substitution by name captures nothing, and about searches that leave no free
    variable of a frame to be captured ([capture_free], which is computed).

    The semantics of the solver's expressions is an interface ([AySem]): a
    variable is read from a valuation that respects its sort, an equality
    compares its sides and is well sorted, a conjunction implies its conjuncts,
    and an expression depends on its variables only.  A constraint is a formula
    over these; a relation applied inside a constraint is not given a meaning.
    [AyEval] adds what the operators that constant propagation folds mean; it says
    nothing of the others, nor of a division by zero.  The encoder leaves the
    next-state variable [x__out] of a value that does not change unconstrained; the
    pass relies on it being read as [x], and [propagation_preserves] is about the
    derivations that do ([framed]).

    In the bounded encoder a panic of the encoder is [None], and [encoder_total] says when
    there is none; the panics of the builders of [ay_bindings] on ill-sorted operands are
    those of that crate, and a built expression without a sort has no value.  The two
    [u32] counters are [N], taken not to overflow.  A [BTreeMap] is a [gmap]: none is
    iterated over.  Kahn's algorithm has the number of blocks as fuel, which
    [acyclic_topo_order_exact] shows to be enough.  The theorems on valuations ask that a
    variable is read at its declared sort ([sorts_agree]); names are not reused, by the
    invariant.  Texts that print a type or an operator are functions of the interface.

    The analyses of the Horn clause encoder search graphs: the search for a block pops
    what it pushed and so has one more step than the edges, [mark_reachable] as many as
    the blocks, [derive_loop] as many passes as there are results, each of which finds a
    new one; [narrowing_sound] and [escape_exact] show these bounds to be enough.  The
    rounds of [settle] are those of the source, which stops at them.  A round there
    updates the two vectors in place; here it maps the one to the other.  Identifiers of
    blocks and values are the numbers the source compares.

    The tables of types of a module are an interface ([Tables]) with a bound on how deep
    the fields of a type nest; with [TablesLaws] the recursions over types end within it,
    and the newtypes have the fuel of the source, 8.  The loop of [compute_live_params]
    has one round more than there are pairs of a block and a value, each round but the
    last adding one; [live_params_exact] shows it enough.  The switches the source reads
    from the environment are arguments.  Where a method returns [None] after it has
    changed the translator, the change is kept ([and_then]); [None] of the monad itself
    is a panic.  An [AggregateValue] is the list of its fields.

    Nothing is assumed about collisions of the hash function: where two inputs with
    one digest have to be the same, the theorem says "or these two inputs, which the
    program hashed, collide".

    ** What is not modelled

    The compiler but for its straight-line prover (it is driven by rustc, whose
    interface is not part of the repository), the clause generation of
    [translate_chc.rs] but for casts and aggregate updates, its interpreter of call
    summaries and the lanes of interior pointers (some two hundred functions of lowering
    rules), the solver process, the SARIF export,
    cargo and file handling, the printing of a system to the solver's program type, the
    warnings and markers printed on the way, and the proof-evidence payload of
    [harness_runner.rs].  Of the evidence library, the serde derivations are left
    out: an encoding that is digested is the text the source writes out itself, and
    a structure read from a wire is its decoded value. *)

From stdpp Require Export base tactics strings list gmap pretty.
From Stdlib Require Export Ascii Bool NArith ZArith Lia Sorted.

#[export] Set Default Goal Selector "!".

(** Proves a closed decidable proposition by evaluation. *)
Ltac decide_now :=
  match goal with |- ?P => refine (proj1 (bool_decide_eq_true P) _); vm_compute; reflexivity end.

(** ** Strings: the [str] methods the source calls *)

#[global] Arguments String.eqb : simpl never.
#[global] Arguments Ascii.eqb : simpl never.

(** The byte [b'\n']. *)
Definition nl : ascii := "010"%char.

Module Str.

(** [s.starts_with(p)] *)
Definition starts_with (s p : string) : bool := String.prefix p s.

(** [s.strip_suffix(suf)]: the part before the suffix. *)
Fixpoint strip_suffix (s suf : string) : option string :=
  if String.eqb s suf then Some EmptyString
  else match s with
       | EmptyString => None
       | String c s' => match strip_suffix s' suf with
                        | Some p => Some (String c p)
                        | None => None
                        end
       end.

(** [s.ends_with(suf)] *)
Definition ends_with (s suf : string) : bool :=
  match strip_suffix s suf with Some _ => true | None => false end.

(** [s.contains(pat)] *)
Fixpoint contains (s pat : string) : bool :=
  String.prefix pat s ||
  match s with EmptyString => false | String _ s' => contains s' pat end.

(** [s.split_once(pat)], [s.find(pat)]: what is before the first occurrence. *)
Fixpoint before (s pat : string) : option string :=
  if String.prefix pat s then Some EmptyString
  else match s with
       | EmptyString => None
       | String c s' => String c <$> before s' pat
       end.

(** [s.lines()]: the pieces before each line feed; a last empty piece is not a
    line.  A carriage return is kept: every caller trims its lines. *)
Fixpoint lines (s : string) : list string :=
  match s with
  | EmptyString => []
  | String c s' =>
      if Ascii.eqb c nl then EmptyString :: lines s'
      else match lines s' with
           | [] => [String c EmptyString]
           | l :: ls => String c l :: ls
           end
  end.

(** The white space of Unicode ([White_Space]), each as its bytes in UTF-8 *)
Definition bytes (ns : list nat) : string :=
  fold_right (fun n s => String (ascii_of_nat n) s) EmptyString ns.
Definition white_space : list string := map bytes
  (map (fun n => [n]) [9; 10; 11; 12; 13; 32] ++ [[194; 133]; [194; 160]; [225; 154; 128]] ++
   map (fun n => [226; 128; n]) (seq 128 11 ++ [168; 169; 175]) ++ [[226; 129; 159]; [227; 128; 128]]).
Definition is_white (t : string) : bool := existsb (String.eqb t) white_space.

(** Drops the leading white space: characters of one, two and three bytes. *)
Fixpoint trim_start (s : string) : string :=
  match s with
  | EmptyString => EmptyString
  | String a s1 =>
      if is_white (String a EmptyString) then trim_start s1
      else match s1 with
           | EmptyString => s
           | String b s2 =>
               if is_white (String a (String b EmptyString)) then trim_start s2
               else match s2 with
                    | EmptyString => s
                    | String c s3 =>
                        if is_white (String a (String b (String c EmptyString))) then trim_start s3 else s
                    end
           end
  end.

(** Drops the trailing white space: a character is white space and all that is left.  (No
    character of UTF-8 ends with the bytes of another.) *)
Fixpoint trim_end (s : string) : string :=
  match s with
  | EmptyString => EmptyString
  | String c s' =>
      let t := String c (trim_end s') in
      if is_white t then EmptyString else t
  end.

(** [s.trim()] *)
Definition trim (s : string) : string := trim_start (trim_end s).

Example trim_unicode :
  trim (bytes [194; 160; 32; 120; 32; 121; 227; 128; 128; 10]) = bytes [120; 32; 121] /\
  trim (bytes [226; 128; 138; 194; 133]) = EmptyString /\ trim (bytes [194; 161]) = bytes [194; 161].
Proof. by vm_compute. Qed.

(** [v.join(sep)] *)
Fixpoint join (sep : string) (v : list string) : string :=
  match v with
  | [] => EmptyString
  | [x] => x
  | x :: v' => x +:+ sep +:+ join sep v'
  end.

(** [s.rsplit_once(c)]: around the last occurrence of [c]. *)
Fixpoint rsplit_once (s : string) (c : ascii) : option (string * string) :=
  match s with
  | EmptyString => None
  | String d s' =>
      match rsplit_once s' c with
      | Some (a, b) => Some (String d a, b)
      | None => if Ascii.eqb d c then Some (EmptyString, s') else None
      end
  end.

(** [s.chars().all(f)] on ASCII strings. *)
Fixpoint chars_all (f : ascii -> bool) (s : string) : bool :=
  match s with
  | EmptyString => true
  | String c s' => f c && chars_all f s'
  end.

(** [c.is_ascii_digit()] *)
Definition is_digit (c : ascii) : bool :=
  match Ascii.is_nat c with Some _ => true | None => false end.

(** The digits of a decimal literal, most significant first. *)
Fixpoint digits (acc : N) (s : string) : option N :=
  match s with
  | EmptyString => Some acc
  | String c s' => match Ascii.is_nat c with
                   | Some d => digits (acc * 10 + N.of_nat d) s'
                   | None => None
                   end
  end.

(** [s.parse::<usize>()] on a 64-bit target: an optional plus sign, at least
    one digit, and a value below 2^64. *)
Definition parse_usize (s : string) : option N :=
  let body := match s with String "+" s' => s' | _ => s end in
  match body with
  | EmptyString => None
  | _ => match digits 0 body with
         | Some n => if N.ltb n (2 ^ 64) then Some n else None
         | None => None
         end
  end.

#[global] Arguments String.append !_ _ / : simpl nomatch.

Lemma app_assoc (a b c : string) : a +:+ (b +:+ c) = (a +:+ b) +:+ c.
Proof. induction a as [|x a IH]; [done|]. cbn. by f_equal. Qed.

Lemma app_nil_r (a : string) : a +:+ EmptyString = a.
Proof. induction a as [|x a IH]; [done|]. cbn. by f_equal. Qed.

Lemma length_app (a b : string) : String.length (a +:+ b) = String.length a + String.length b.
Proof. induction a as [|x a IH]; [done|]. cbn. by f_equal. Qed.

Lemma strip_suffix_app (p suf : string) : strip_suffix (p +:+ suf) suf = Some p.
Proof.
  induction p as [|c p IH]; simpl.
  - destruct suf; simpl; [done|]. by rewrite String.eqb_refl.
  - destruct (String.eqb_spec (String c (p +:+ suf)) suf) as [E|_]; [|by rewrite IH].
    apply (f_equal String.length) in E. simpl in E. rewrite length_app in E. lia.
Qed.

Lemma strip_suffix_Some (s suf p : string) : strip_suffix s suf = Some p -> s = p +:+ suf.
Proof.
  revert p. induction s as [|c s IH]; intros p; simpl.
  - destruct (String.eqb_spec EmptyString suf) as [<-|_]; [|done]. by intros [= <-].
  - destruct (String.eqb_spec (String c s) suf) as [<-|_]; [by intros [= <-]|].
    destruct (strip_suffix s suf) as [q|]; [|done].
    intros [= <-]. by rewrite (IH q).
Qed.

Lemma ends_with_iff (s suf : string) : ends_with s suf = true <-> exists p, s = p +:+ suf.
Proof.
  unfold ends_with. split.
  - destruct (strip_suffix s suf) eqn:E; [|done]. apply strip_suffix_Some in E. eauto.
  - intros [p ->]. by rewrite strip_suffix_app.
Qed.

Lemma prefix_iff (p s : string) : String.prefix p s = true <-> exists r, s = p +:+ r.
Proof.
  split.
  - revert s. induction p as [|c p IH]; intros s; [intros _; by exists s|].
    destruct s as [|d s]; [done|]. cbn [String.prefix].
    destruct (ascii_dec c d) as [->|]; [|discriminate].
    intros [r ->]%IH. exists r. reflexivity.
  - intros [r ->]. induction p as [|c p IH]; [by destruct r|].
    cbn. by destruct (ascii_dec c c).
Qed.

Lemma starts_with_app (p r : string) : starts_with (p +:+ r) p = true.
Proof. apply prefix_iff. eauto. Qed.

Lemma contains_iff (s pat : string) :
  contains s pat = true <-> exists a b, s = a +:+ pat +:+ b.
Proof.
  split.
  - induction s as [|c s IH]; cbn [contains]; rewrite orb_true_iff.
    + intros [[r E]%prefix_iff|]; [|done]. by exists EmptyString, r.
    + intros [[r E]%prefix_iff|(a & b & ->)%IH].
      * by exists EmptyString, r.
      * by exists (String c a), b.
  - intros (a & b & ->). induction a as [|c a IH].
    + assert (E : String.prefix pat (EmptyString +:+ pat +:+ b) = true)
        by (apply prefix_iff; by exists b).
      destruct (EmptyString +:+ pat +:+ b); cbn [contains]; by rewrite E.
    + change (contains (String c (a +:+ pat +:+ b)) pat = true).
      cbn [contains]. by rewrite IH, orb_true_r.
Qed.

(** *** Decimal numbers *)

Lemma is_nat_pretty (d : N) : (d < 10)%N -> Ascii.is_nat (pretty_N_char d) = Some (N.to_nat d).
Proof.
  intros H.
  assert (d = 0 \/ d = 1 \/ d = 2 \/ d = 3 \/ d = 4 \/ d = 5 \/ d = 6 \/ d = 7 \/ d = 8 \/ d = 9)%N
    as E by lia.
  naive_solver.
Qed.

Lemma pretty_N_go_ind (P : N -> string -> Prop) :
  (forall s, P 0%N s) ->
  (forall x s, (0 < x)%N -> P (x / 10)%N (String (pretty_N_char (x mod 10)) s) -> P x s) ->
  forall x s, P x s.
Proof.
  intros H0 HS x. induction (N.lt_wf_0 x) as [x _ IH]. intros s.
  destruct (N.eq_dec x 0) as [->|]; [apply H0|].
  apply HS; [lia|]. apply IH. apply N.div_lt; lia.
Qed.

Lemma digits_pretty_go (x : N) (s : string) : digits 0 (pretty_N_go x s) = digits x s.
Proof.
  revert x s. apply pretty_N_go_ind; [done|]. intros x s Hx IH.
  rewrite pretty_N_go_step by done. rewrite IH. cbn [digits].
  rewrite is_nat_pretty by (apply N.mod_lt; lia). rewrite N2Nat.id.
  f_equal. pose proof (N.div_mod x 10). lia.
Qed.

Lemma pretty_N_cases (n : N) :
  pretty n = if decide (n = 0%N) then "0" else pretty_N_go n "".
Proof. reflexivity. Qed.

Lemma digits_pretty (n : N) : digits 0 (pretty n) = Some n.
Proof.
  rewrite pretty_N_cases. case_decide as E; [by subst|]. by rewrite digits_pretty_go.
Qed.

Lemma pretty_go_digits (x : N) (s : string) :
  chars_all is_digit s = true -> chars_all is_digit (pretty_N_go x s) = true.
Proof.
  revert x s. apply (pretty_N_go_ind (fun x s =>
    chars_all is_digit s = true -> chars_all is_digit (pretty_N_go x s) = true)); [done|].
  intros x s Hx IH Hs. rewrite pretty_N_go_step by done. apply IH.
  cbn. rewrite Hs, andb_true_r. unfold is_digit.
  by rewrite is_nat_pretty by (apply N.mod_lt; lia).
Qed.

Lemma pretty_digits (n : N) : chars_all is_digit (pretty n) = true.
Proof. rewrite pretty_N_cases. case_decide; [done|]. by apply pretty_go_digits. Qed.

Lemma pretty_cons (n : N) : exists c s, pretty n = String c s /\ is_digit c = true.
Proof.
  pose proof (digits_pretty n) as D. pose proof (pretty_digits n) as A.
  destruct (pretty n) as [|c s] eqn:E.
  - assert (n = 0%N) as -> by (cbn in D; congruence). done.
  - cbn in A. apply andb_true_iff in A as [A _]. eauto.
Qed.

Lemma parse_usize_pretty (n : N) : (n < 2 ^ 64)%N -> parse_usize (pretty n) = Some n.
Proof.
  intros H. destruct (pretty_cons n) as (c & s & E & Hc).
  pose proof (digits_pretty n) as D. rewrite E in *. unfold parse_usize.
  assert (B : match String c s with String "+" s' => s' | _ => String c s end = String c s)
    by (destruct c as [[] [] [] [] [] [] [] []]; done).
  rewrite B, D. by apply N.ltb_lt in H as ->.
Qed.

Lemma chars_all_impl (f g : ascii -> bool) (s : string) :
  (forall c, f c = true -> g c = true) -> chars_all f s = true -> chars_all g s = true.
Proof.
  intros H. induction s as [|c s IH]; cbn; [done|].
  rewrite !andb_true_iff. intuition auto.
Qed.

Lemma rsplit_once_absent (s : string) (c : ascii) :
  chars_all (fun d => negb (Ascii.eqb d c)) s = true -> rsplit_once s c = None.
Proof.
  induction s as [|d s IH]; cbn; [done|]. rewrite andb_true_iff, negb_true_iff.
  intros [-> H]. by rewrite IH.
Qed.

(** Splitting at the last separator undoes joining with a part free of it. *)
Lemma rsplit_once_last (a b : string) (c : ascii) :
  chars_all (fun d => negb (Ascii.eqb d c)) b = true ->
  rsplit_once (a +:+ String c b) c = Some (a, b).
Proof.
  intros H. induction a as [|d a IH]; cbn.
  - by rewrite rsplit_once_absent, Ascii.eqb_refl.
  - by rewrite IH.
Qed.

End Str.

Create HintDb strs.
Create Rewrite HintDb str_norm.
#[export] Hint Resolve Str.starts_with_app Str.strip_suffix_app : strs.
#[export] Hint Rewrite Str.app_assoc Str.length_app : str_norm.

(** ** Ordered maps: [BTreeMap<String, A>]

    The entries in increasing key order, which is the order of [iter()]. *)

Abbreviation bmap A := (list (string * A)).

Module BMap.

(** [map.get(k)] *)
Fixpoint get {A} (k : string) (m : bmap A) : option A :=
  match m with
  | [] => None
  | (k', v) :: m' => if String.eqb k k' then Some v else get k m'
  end.

(** [*map.entry(k)] replaced by [f] of its former value. *)
Fixpoint upd {A} (k : string) (f : option A -> A) (m : bmap A) : bmap A :=
  match m with
  | [] => [(k, f None)]
  | (k', v) :: m' =>
      match String.compare k k' with
      | Eq => (k', f (Some v)) :: m'
      | Lt => (k, f None) :: m
      | Gt => (k', v) :: upd k f m'
      end
  end.

(** [map.insert(k, v)] *)
Definition insert {A} (k : string) (v : A) (m : bmap A) : bmap A := upd k (fun _ => v) m.

(** [iter.collect::<BTreeMap<_, _>>()]: a later entry replaces an earlier one. *)
Definition collect {A} (l : list (string * A)) : bmap A :=
  foldl (fun m kv => insert kv.1 kv.2 m) [] l.

Definition str_lt (a b : string) : Prop := String.compare a b = Lt.

(** The keys increase strictly: the representation invariant. *)
Definition wf {A} (m : bmap A) : Prop := StronglySorted str_lt (map fst m).

Lemma compare_refl (a : string) : String.compare a a = Eq.
Proof.
  induction a as [|c a IH]; [done|]. cbn [String.compare].
  unfold Ascii.compare. by rewrite N.compare_refl.
Qed.

Lemma compare_Gt (a b : string) : String.compare a b = Gt -> str_lt b a.
Proof. unfold str_lt. rewrite String.compare_antisym. by destruct (String.compare b a). Qed.

Lemma str_lt_trans : Transitive str_lt.
Proof.
  intros a b c. unfold str_lt. intros H1 H2.
  assert (L1 : String.le a b) by (unfold String.le, String.leb; by rewrite H1).
  assert (L2 : String.le b c) by (unfold String.le, String.leb; by rewrite H2).
  assert (L : String.le a c) by (by etransitivity).
  destruct (String.compare a c) eqn:E; [|done|].
  - apply String.compare_eq_iff in E as <-.
    assert (a = b) as <- by (by apply (anti_symm String.le)).
    pose proof (compare_refl a) as E.
    congruence.
  - by unfold String.le, String.leb in L; rewrite E in L.
Qed.

Lemma str_lt_irrefl (a : string) : ~ str_lt a a.
Proof.
  unfold str_lt. intros H.
  pose proof (compare_refl a) as E. congruence.
Qed.

Lemma keys_upd {A} (k : string) (f : option A -> A) (m : bmap A) x :
  x ∈ map fst (upd k f m) -> x = k \/ x ∈ map fst m.
Proof.
  induction m as [|[k' v] m IH]; cbn; [set_solver|].
  destruct (String.compare k k') eqn:E; cbn; set_solver.
Qed.

Lemma upd_wf {A} (k : string) (f : option A -> A) (m : bmap A) : wf m -> wf (upd k f m).
Proof.
  unfold wf. induction m as [|[k' v] m IH]; cbn; [repeat constructor|].
  intros [S F]%StronglySorted_inv.
  destruct (String.compare k k') eqn:E; cbn.
  - by constructor.
  - constructor; [by constructor|]. constructor; [done|].
    eapply Forall_impl; [exact F|]. intros x. by apply str_lt_trans.
  - constructor; [by apply IH|]. apply Forall_forall. intros x [->|Hx]%keys_upd.
    + by apply compare_Gt.
    + by eapply Forall_forall in F.
Qed.

Lemma get_not_key {A} (k : string) (m : bmap A) : k ∉ map fst m -> get k m = None.
Proof.
  induction m as [|[k' v] m IH]; cbn; [done|]. intros H.
  destruct (String.eqb_spec k k'); [set_solver|]. set_solver.
Qed.

Lemma get_upd {A} (k k' : string) (f : option A -> A) (m : bmap A) :
  wf m -> get k' (upd k f m) = if String.eqb k' k then Some (f (get k m)) else get k' m.
Proof.
  unfold wf. induction m as [|[a v] m IH]; cbn; [done|].
  intros [S F]%StronglySorted_inv.
  destruct (String.compare k a) eqn:E; cbn.
  - apply String.compare_eq_iff in E as ->. rewrite String.eqb_refl.
    by destruct (String.eqb k' a).
  - destruct (String.eqb_spec k' k) as [->|]; [|done].
    assert (N : get k ((a, v) :: m) = None).
    { apply get_not_key. cbn. intros [->|H]%elem_of_cons; [by eapply str_lt_irrefl|].
      rewrite Forall_forall in F. apply F in H.
      eapply str_lt_irrefl, str_lt_trans; [exact E|exact H]. }
    cbn in N. by rewrite N.
  - rewrite IH by done. destruct (String.eqb_spec k' a) as [->|].
    + destruct (String.eqb_spec a k) as [<-|]; [|done].
      pose proof (compare_refl a) as X. congruence.
    + destruct (String.eqb_spec k' k) as [->|]; [|done].
      by destruct (String.eqb_spec k a) as [->|].
Qed.

Lemma wf_nil {A} : wf ([] : bmap A).
Proof. constructor. Qed.

Lemma foldl_insert {A} (l : list (string * A)) (m : bmap A) (k : string) :
  wf m -> k ∉ map fst l ->
  wf (foldl (fun m kv => insert kv.1 kv.2 m) m l) /\
  get k (foldl (fun m kv => insert kv.1 kv.2 m) m l) = get k m.
Proof.
  revert m. induction l as [|[a v] l IH]; cbn; [done|]. intros m Hwf Hk.
  destruct (IH (insert a v m)) as [H1 H2]; [by apply upd_wf|set_solver|].
  split; [done|]. rewrite H2. unfold insert. rewrite get_upd by done.
  destruct (String.eqb_spec k a); set_solver.
Qed.

(** A key collected once is found with its value. *)
Lemma get_collect {A} (l : list (string * A)) (k : string) (v : A) :
  NoDup (map fst l) -> (k, v) ∈ l -> get k (collect l) = Some v.
Proof.
  unfold collect. generalize (wf_nil (A:=A)). generalize ([] : bmap A).
  induction l as [|[a w] l IH]; intros m Hwf ND; [set_solver|].
  cbn in ND. apply NoDup_cons in ND as [Ha ND]. cbn.
  intros [[= -> ->]|Hin]%elem_of_cons.
  - destruct (foldl_insert l (insert a w m) a) as [_ ->]; [by apply upd_wf|done|].
    unfold insert. rewrite get_upd by done. by rewrite String.eqb_refl.
  - apply IH; [by apply upd_wf|done|done].
Qed.

Lemma get_collect_None {A} (l : list (string * A)) (k : string) :
  k ∉ map fst l -> get k (collect l) = None.
Proof. intros H. unfold collect. by destruct (foldl_insert l [] k) as [_ ->]; [constructor| |]. Qed.

Lemma get_elem {A} (k : string) (v : A) (m : bmap A) : get k m = Some v -> (k, v) ∈ m.
Proof.
  induction m as [|[a w] m IH]; cbn; [done|].
  destruct (String.eqb_spec k a) as [->|]; [intros [= ->]|]; set_solver.
Qed.

End BMap.

(** ** Lists: the iterator methods [filter], [any] and [all] *)

Lemma filter_nil_iff {A} (f : A -> bool) (l : list A) :
  List.filter f l = [] <-> forall x, x ∈ l -> f x = false.
Proof.
  induction l as [|a l IH]; cbn; [set_solver|].
  destruct (f a) eqn:E; [|set_solver]. split; [done|].
  intros H. specialize (H a). rewrite E in H. discriminate H. left.
Qed.

Lemma existsb_elem {A} (f : A -> bool) (l : list A) :
  existsb f l = true <-> exists x, x ∈ l /\ f x = true.
Proof. rewrite existsb_exists. by setoid_rewrite list_elem_of_In. Qed.

Lemma existsb_false_elem {A} (f : A -> bool) (l : list A) :
  existsb f l = false <-> forall x, x ∈ l -> f x = false.
Proof.
  rewrite <- not_true_iff_false, existsb_elem. split.
  - intros H x Hx. destruct (f x) eqn:E; [|done]. destruct H. eauto.
  - intros H (x & Hx & E). rewrite H in E; done.
Qed.

Lemma filter_length_eq {A} (f : A -> bool) (l : list A) :
  length (List.filter f l) = length l -> List.filter f l = l.
Proof.
  induction l as [|a l IH]; cbn; [done|]. pose proof (List.filter_length_le f l).
  destruct (f a); cbn; intros E; [f_equal; apply IH; lia|lia].
Qed.

Lemma filter_same_length {A} (f g : A -> bool) (l : list A) :
  length (List.filter (fun x => f x && g x) l) = length (List.filter f l) <->
  forall x, x ∈ l -> f x = true -> g x = true.
Proof.
  assert (LE : forall l', length (List.filter (fun x => f x && g x) l') <= length (List.filter f l')).
  { intros l'. induction l' as [|a l' IH]; [done|].
    cbn. destruct (f a), (g a); cbn in *; lia. }
  induction l as [|a l IH]; [set_solver|]. cbn [List.filter].
  specialize (LE l). setoid_rewrite elem_of_cons.
  destruct (f a) eqn:Ef, (g a) eqn:Eg; cbn in *.
  - rewrite Nat.succ_inj_wd, IH. naive_solver.
  - split; [lia|]. intros H. specialize (H a). rewrite Ef, Eg in H. naive_solver.
  - rewrite IH. split; intros H x; [intros [->|]; [congruence|auto]|auto].
  - rewrite IH. split; intros H x; [intros [->|]; [congruence|auto]|auto].
Qed.

#[export] Instance filter_perm {A} (f : A -> bool) :
  Proper ((≡ₚ) ==> (≡ₚ)) (List.filter f).
Proof.
  intros l1 l2 H. induction H as [|x l1 l2 H IH|x y l|l1 l2 l3 H1 IH1 H2 IH2]; cbn.
  - done.
  - destruct (f x); [by rewrite IH|done].
  - destruct (f x), (f y); try done. apply Permutation_swap.
  - by rewrite IH1.
Qed.

Lemma size_list_to_set {A} `{Countable A} (l : list A) :
  size (list_to_set l : gset A) <= length l.
Proof.
  induction l as [|x l IH]; cbn; [by rewrite size_empty|].
  rewrite size_union_alt, size_singleton.
  assert (size (list_to_set l ∖ {[x]} : gset A) <= size (list_to_set l : gset A))
    by (apply subseteq_size; set_solver). lia.
Qed.

(** ** Breadth-first search

    The work-list loops of the sources: [queue] holds what was found and not
    yet expanded, [visited] what was found. *)

Section Bfs.
Context `{Countable A} (next : A -> list A).

(** Insert a neighbour, and queue it when it is new. *)
Definition visit (acc : list A * gset A) (x : A) : list A * gset A :=
  if decide (x ∈ acc.2) then acc else (acc.1 ++ [x], {[x]} ∪ acc.2).

Fixpoint bfs (fuel : nat) (queue : list A) (visited : gset A) : gset A :=
  match queue with
  | [] => visited
  | x :: queue' =>
      match fuel with
      | O => visited
      | S fuel' =>
          let '(queue'', visited') := foldl visit (queue', visited) (next x) in
          bfs fuel' queue'' visited'
      end
  end.

Definition edge (x y : A) : Prop := y ∈ next x.

Lemma visit_fold (l q : list A) (v U : gset A) :
  (forall x, x ∈ l -> x ∈ U) -> (forall x, x ∈ q -> x ∈ v) ->
  let r := foldl visit (q, v) l in
  (forall x, x ∈ r.2 <-> x ∈ v \/ x ∈ l) /\
  (forall x, x ∈ r.1 -> x ∈ r.2) /\
  (forall x, x ∈ q -> x ∈ r.1) /\
  (forall x, x ∈ r.2 -> x ∈ v \/ x ∈ r.1) /\
  length r.1 + size (U ∖ r.2) <= length q + size (U ∖ v).
Proof.
  cbn zeta. revert q v. induction l as [|x l IH]; intros q v Hl Hq; cbn [foldl].
  { cbn [fst snd]. repeat split; try done; set_solver. }
  assert (E : visit (q, v) x = if decide (x ∈ v) then (q, v) else (q ++ [x], {[x]} ∪ v)) by done.
  rewrite E. clear E. case_decide as D.
  - destruct (IH q v) as (A1 & A2 & A3 & A4 & A5); [set_solver|done|].
    split; [|done]. intros y. rewrite A1. set_solver.
  - destruct (IH (q ++ [x]) ({[x]} ∪ v)) as (A1 & A2 & A3 & A4 & A5); [set_solver|set_solver|].
    split; [|split; [done|]; split; [set_solver|]; split].
    + intros y. rewrite A1. set_solver.
    + intros y Hy. destruct (A4 y Hy) as [E|]; [|by right].
      apply elem_of_union in E as [E|]; [|by left]. right. apply A3. set_solver.
    + rewrite length_app in A5. cbn in A5.
      assert (E : U ∖ v ≡ {[x]} ∪ U ∖ ({[x]} ∪ v)).
      { intros y. destruct (decide (y = x)); set_solver. }
      assert (size (U ∖ v) = 1 + size (U ∖ ({[x]} ∪ v))); [|lia].
      rewrite E, size_union, size_singleton by set_solver. done.
Qed.

(** What the search maintains: everything found is reachable, and only what is
    queued may still have neighbours to find. *)
Lemma bfs_invariant (U : gset A) (R : A -> Prop) fuel queue visited :
  (forall x y, edge x y -> y ∈ U) ->
  (forall x y, R x -> edge x y -> R y) ->
  (forall x, x ∈ visited -> R x) ->
  (forall x, x ∈ queue -> x ∈ visited) ->
  (forall x y, x ∈ visited -> edge x y -> x ∈ queue \/ y ∈ visited) ->
  length queue + size (U ∖ visited) <= fuel ->
  let r := bfs fuel queue visited in
  (forall x, x ∈ r -> R x) /\ (forall x, x ∈ visited -> x ∈ r) /\
  (forall x y, x ∈ r -> edge x y -> y ∈ r).
Proof.
  intros HU HR. cbn zeta. revert queue visited. induction fuel as [|fuel IH];
    intros [|x queue] visited Rv Qv Cl F; cbn [bfs].
  1,3: split; [done|]; split; [done|]; intros a b Ha Hab; destruct (Cl a b Ha Hab) as [Hq|]; set_solver.
  { cbn in F. lia. }
  assert (Hnext : forall y, y ∈ next x -> y ∈ U) by (intros y Hy; by apply (HU x)).
  assert (Hq : forall y, y ∈ queue -> y ∈ visited) by set_solver.
  destruct (visit_fold (next x) queue visited U Hnext Hq) as (A1 & A2 & A3 & A4 & A5).
  destruct (foldl visit (queue, visited) (next x)) as [q' v']. cbn [fst snd] in *.
  assert (Hx : x ∈ visited) by set_solver.
  destruct (IH q' v') as (B1 & B2 & B3); try done.
  - intros y Hy. apply A1 in Hy as [Hy|Hy]; [by apply Rv|]. apply (HR x); [by apply Rv|done].
  - intros a b Ha Hab. destruct (decide (a ∈ q')) as [|Nq]; [by left|right]. apply A1.
    assert (Hav : a ∈ visited) by (destruct (A4 a Ha); [done|by destruct Nq]).
    destruct (Cl a b Hav Hab) as [Hin|Hb]; [|by left].
    apply elem_of_cons in Hin as [->|Hin]; [by right|]. by destruct Nq; apply A3.
  - cbn in F. lia.
  - split; [done|]. split; [|done]. intros y Hy. apply B2, A1. by left.
Qed.

(** The search finds exactly what is reachable from its seed. *)
Lemma bfs_spec (U : gset A) (seed : list A) fuel :
  (forall x y, edge x y -> y ∈ U) ->
  length seed + size U <= fuel ->
  forall y, y ∈ bfs fuel seed (list_to_set seed) <-> exists x, x ∈ seed /\ rtc edge x y.
Proof.
  intros HU F.
  assert (size (U ∖ list_to_set seed) <= size U) by (apply subseteq_size; set_solver).
  destruct (bfs_invariant U (fun y => exists x, x ∈ seed /\ rtc edge x y) fuel seed (list_to_set seed))
    as (B1 & B2 & B3); try done.
  - intros x y (s & Hs & P) E. exists s. split; [done|]. by eapply rtc_r.
  - intros x Hx. apply elem_of_list_to_set in Hx. by exists x.
  - intros x Hx. by apply elem_of_list_to_set.
  - intros x y Hx _. apply elem_of_list_to_set in Hx. by left.
  - lia.
  - intros y. split; [apply B1|]. intros (x & Hx & P).
    assert (Hr : x ∈ bfs fuel seed (list_to_set seed)) by (apply B2; by apply elem_of_list_to_set).
    clear Hx. induction P as [|x z y E _ IH]; [done|]. apply IH. by eapply B3.
Qed.

End Bfs.

(** ** Fixpoint loops

    The [while changed] loops of the sources: a round only adds to the set, and
    the loop ends with a round that adds nothing. *)

Section Saturate.
Context `{Countable A}.

Fixpoint saturate (fuel : nat) (round : gset A -> gset A) (s : gset A) : gset A :=
  let s' := round s in
  if decide (s' = s) then s'
  else match fuel with O => s' | S fuel' => saturate fuel' round s' end.

(** An invariant of the rounds is an invariant of the loop. *)
Lemma saturate_invariant (P : gset A -> Prop) fuel round s :
  (forall t, P t -> P (round t)) -> P s -> P (saturate fuel round s).
Proof.
  intros Hr. revert s. induction fuel as [|fuel IH]; intros s Hs; cbn; case_decide; auto.
Qed.

(** With a round for every element that can be added the loop ends closed. *)
Lemma saturate_closed (U : gset A) fuel round s :
  (forall t, t ⊆ round t) -> (forall t, round t ⊆ t ∪ U) ->
  size (U ∖ s) <= fuel -> round (saturate fuel round s) = saturate fuel round s.
Proof.
  intros Inc Bound. revert s. induction fuel as [|fuel IH]; intros s F; cbn; case_decide as D.
  1,3: by rewrite !D.
  - exfalso. apply D. apply set_eq. intros x. split; [|apply Inc]. intros Hx.
    apply Bound, elem_of_union in Hx as [|Hx]; [done|].
    destruct (decide (x ∈ s)) as [|N]; [done|].
    assert (E : U ∖ s ≡ ∅) by (apply size_empty_iff; lia). set_solver.
  - apply IH. assert (size (U ∖ round s) < size (U ∖ s)); [|lia].
    apply subset_size. split; [set_solver|]. intros Sub. apply D. apply set_eq. intros x.
    split; [|apply Inc]. intros Hx. destruct (decide (x ∈ s)) as [|N]; [done|].
    pose proof (Bound s x Hx). set_solver.
Qed.

(** A round that runs over a list of insertions. *)
Lemma fold_round_fixed {B} (f : gset A -> B -> gset A) (l : list B) (s : gset A) :
  (forall t b, t ⊆ f t b) -> foldl f s l = s -> forall b, b ∈ l -> f s b = s.
Proof.
  intros Inc. assert (Mono : forall l t, t ⊆ foldl f t l).
  { induction l0 as [|b l0 IH]; intros t; cbn; [done|]. etransitivity; [apply Inc|apply IH]. }
  induction l as [|b l IH]; cbn; intros E c Hc; [by apply elem_of_nil in Hc|].
  assert (Eb : f s b = s).
  { apply set_eq. intros x. split; [|apply Inc]. intros Hx. rewrite <- E. by apply Mono. }
  rewrite Eb in E. apply elem_of_cons in Hc as [->|Hc]; [done|by apply IH].
Qed.

End Saturate.
