(* ===== verification/PropertyModel.v ===== *)
(** * The property table of a verification run

    Models [trust-mc-driver/src/property_model.rs]: the checks a harness run
    reports, their statuses, their names, and the parser that reads a property
    name back from the solver's output. *)

From S2P Require Import Prelude.

Module PropertyModel.

(** [enum CheckStatus] *)
Inductive CheckStatus :=
  | Failure
  | Covered
  | Satisfied
  | Success
  | Undetermined
  | Unknown
  | Unreachable
  | Uncovered
  | Unsatisfiable.

#[export] Instance CheckStatus_eq_dec : EqDecision CheckStatus.
Proof. solve_decision. Defined.

(** [impl Display for CheckStatus], without the terminal colour. *)
Definition CheckStatus_fmt (s : CheckStatus) : string :=
  match s with
  | Satisfied => "SATISFIED"
  | Success => "SUCCESS"
  | Covered => "COVERED"
  | Uncovered => "UNCOVERED"
  | Failure => "FAILURE"
  | Unreachable => "UNREACHABLE"
  | Undetermined => "UNDETERMINED"
  | Unknown => "UNDETERMINED"
  | Unsatisfiable => "UNSATISFIABLE"
  end.

(** [struct RawSourceLocation] *)
Record RawSourceLocation := {
  column : option string;
  file : option string;
  function : option string;
  line : option string;
}.

(** [RawSourceLocation::is_missing] *)
Definition is_missing (l : RawSourceLocation) : bool :=
  match file l, function l with None, None => true | _, _ => false end.

(** [filepath]: the path relative to the working directory when that is shorter.
    The working directory is absent when it cannot be read; [diff_paths] is the
    path library's, [Some None] standing for a path that is not Unicode. *)
Definition filepath (cur_dir : option string)
    (diff_paths : string -> string -> option (option string)) (f : string) : string :=
  match cur_dir with
  | None => f
  | Some d => match diff_paths f d with
              | Some (Some relative) =>
                  if Nat.ltb (String.length relative) (String.length f) then relative else f
              | _ => f
              end
  end.

(** [impl Display for RawSourceLocation], over [filepath] and the demangler. *)
Definition RawSourceLocation_fmt (filepath demangle : string -> string)
    (l : RawSourceLocation) : string :=
  (match file l with
   | Some f =>
       filepath f +:+
       match line l with
       | Some n => ":" +:+ n +:+ match column l with Some c => ":" +:+ c | None => "" end
       | None => ""
       end
   | None => "Unknown file"
   end) +:+
  match function l with Some f => " in function " +:+ demangle f | None => "" end.

(** [enum TraceData] *)
Inductive TraceData := NonBool (s : string) | Bool (b : bool).

(** [impl Display for TraceData] *)
Definition TraceData_fmt (d : TraceData) : string :=
  match d with NonBool s => s | Bool true => "true" | Bool false => "false" end.

(** [struct TraceValue]; [struct TraceArrayValue] only wraps one. *)
Inductive TraceValue := {
  binary : option string;
  data : option TraceData;
  width : option N;
  elements : option (list TraceValue);
}.

(** [struct TraceItem] *)
Record TraceItem := {
  step_type : string;
  lhs : option string;
  trace_location : option RawSourceLocation;
  value : option TraceValue;
}.

(** [struct PropertyId] *)
Record PropertyId := {
  fn_name : option string;
  class : string;
  id : N;
}.

(** [struct Property] *)
Record Property := {
  description : string;
  property_id : PropertyId;
  source_location : RawSourceLocation;
  status : CheckStatus;
  trace : option (list TraceItem);
}.

Definition COVER_PROPERTY_CLASS : string := "cover".

(** [Property::property_class] *)
Definition property_class (p : Property) : string := class (property_id p).

(** [Property::is_cover_property] *)
Definition is_cover_property (p : Property) : bool :=
  String.eqb (class (property_id p)) COVER_PROPERTY_CLASS.

(** The name of a property identifier, as [Property::property_name] prints it. *)
Definition id_name (i : PropertyId) : string :=
  match fn_name i with
  | Some f => f +:+ "." +:+ class i +:+ "." +:+ pretty (id i)
  | None => class i +:+ "." +:+ pretty (id i)
  end.

(** [Property::property_name] *)
Definition property_name (p : Property) : string := id_name (property_id p).

(** [c.is_ascii_lowercase() || c == '_' || c == '-'] *)
Definition is_class_char (c : ascii) : bool :=
  let n := nat_of_ascii c in
  (Nat.leb 97 n && Nat.leb n 122) || Ascii.eqb c "_" || Ascii.eqb c "-".

(** [Property::has_property_class_format] *)
Definition has_property_class_format (s : string) : bool :=
  String.eqb s "NaN" || Str.chars_all is_class_char s.

(** [s.rsplitn(3, '.').collect()]: at most three pieces, the last first. *)
Definition rsplitn3 (s : string) : list string :=
  match Str.rsplit_once s "." with
  | None => [s]
  | Some (rest, last) =>
      match Str.rsplit_once rest "." with
      | None => [last; rest]
      | Some (rest', mid) => [last; mid; rest']
      end
  end.

(** What [PropertyId::deserialize] does with a string: a value, an error
    returned to the deserializer, or a panic ([unreachable!], [assert!]). *)
Inductive parse_outcome :=
  | Parsed (i : PropertyId)
  | DeError
  | Panicked.

(** [str::parse::<u32>] of a string of digits. *)
Definition parse_u32_digits (s : string) : option N :=
  match s with
  | EmptyString => None
  | _ => match Str.digits 0 s with
         | Some n => if N.ltb n (2 ^ 32) then Some n else None
         | None => None
         end
  end.

Section Deserialize.

(** [format!("{:#}", rustc_demangle::demangle(s))] *)
Variable demangle : string -> string.

(** The text before the first ['.'], as [id_str.splitn(2, '.')] gives it. *)
Fixpoint before_dot (s : string) : string :=
  match s with
  | EmptyString => EmptyString
  | String c s' => if Ascii.eqb c "." then EmptyString else String c (before_dot s')
  end.

(** [impl Deserialize for PropertyId] *)
Definition parse_property_id (id_str : string) : parse_outcome :=
  if Str.ends_with id_str ".recursion" then
    let first := before_dot id_str in
    Parsed {| fn_name := match first with
                         | EmptyString => None
                         | _ => Some (demangle first)
                         end;
              class := "recursion"; id := 1 |}
  else
    let attributes :=
      match rsplitn3 id_str with
      | [a0; a1; a2] =>
          if has_property_class_format a1 then Some (Some (demangle a2), a1, a0)
          else Some (Some (demangle (a2 +:+ "." +:+ a1)), "missing_definition", a0)
      | [a0; a1] =>
          if has_property_class_format a1 then Some (None, a1, a0)
          else Some (Some (demangle a1), "missing_definition", a0)
      | _ => None
      end in
    match attributes with
    | None => Panicked
    | Some (f, c, n) =>
        if negb (Str.chars_all Str.is_digit n) then Panicked
        else match parse_u32_digits n with
             | Some k => Parsed {| fn_name := f; class := c; id := k |}
             | None => DeError
             end
    end.

End Deserialize.

(** ** Lemmas *)

(** A string free of ['.']: neither a class nor a decimal counter has one. *)
Definition no_dot (s : string) : bool := Str.chars_all (fun c => negb (Ascii.eqb c ".")) s.

Lemma rsplit_once_no_dot (s : string) : no_dot s = true -> Str.rsplit_once s "." = None.
Proof.
  unfold no_dot. induction s as [|c s IH]; [done|]. cbn.
  rewrite andb_true_iff, negb_true_iff. intros [E H]. by rewrite IH, E.
Qed.

Lemma rsplit_once_app (a b : string) :
  no_dot b = true -> Str.rsplit_once (a +:+ "." +:+ b) "." = Some (a, b).
Proof.
  intros H. induction a as [|c a IH].
  - cbn. by rewrite rsplit_once_no_dot.
  - cbn. cbn in IH. by rewrite IH.
Qed.

Lemma class_format_no_dot (s : string) : has_property_class_format s = true -> no_dot s = true.
Proof.
  unfold has_property_class_format. rewrite orb_true_iff.
  intros [->%String.eqb_eq|H]; [reflexivity|]. revert H. apply Str.chars_all_impl.
  intros c. destruct (Ascii.eqb_spec c ".") as [->|]; [discriminate|reflexivity].
Qed.

Lemma pretty_no_dot (n : N) : no_dot (pretty n) = true.
Proof.
  generalize (Str.pretty_digits n). apply Str.chars_all_impl.
  intros c. destruct (Ascii.eqb_spec c ".") as [->|]; [discriminate|reflexivity].
Qed.

Lemma parse_u32_pretty (n : N) : (n < 2 ^ 32)%N -> parse_u32_digits (pretty n) = Some n.
Proof.
  intros H. destruct (Str.pretty_cons n) as (c & s & E & _).
  pose proof (Str.digits_pretty n) as D. rewrite E in *. unfold parse_u32_digits.
  rewrite D. by apply N.ltb_lt in H as ->.
Qed.

(** No printed name ends like the recursion check: its last piece is a number. *)
Lemma numbered_not_recursion (s : string) (n : N) :
  Str.ends_with (s +:+ "." +:+ pretty n) ".recursion" = false.
Proof.
  destruct (Str.ends_with _ _) eqn:E; [|done].
  apply Str.ends_with_iff in E as [p E].
  assert (H : Str.rsplit_once (s +:+ "." +:+ pretty n) "." = Some (s, pretty n))
    by apply rsplit_once_app, pretty_no_dot.
  rewrite E in H.
  assert (R : Str.rsplit_once (p +:+ "." +:+ "recursion") "." = Some (p, "recursion"))
    by by apply rsplit_once_app.
  change (p +:+ ".recursion") with (p +:+ "." +:+ "recursion") in H.
  rewrite R in H. injection H as _ Hn.
  pose proof (Str.pretty_digits n) as D. by rewrite <- Hn in D.
Qed.

(** The prefix of a printed name before its counter. *)
Definition name_stem (i : PropertyId) : string :=
  match fn_name i with Some f => f +:+ "." +:+ class i | None => class i end.

Lemma id_name_stem (i : PropertyId) : id_name i = name_stem i +:+ "." +:+ pretty (id i).
Proof.
  unfold id_name, name_stem. destruct (fn_name i) as [f|]; [|done].
  by rewrite <- !Str.app_assoc.
Qed.

Lemma rsplitn3_name (i : PropertyId) :
  has_property_class_format (class i) = true ->
  rsplitn3 (id_name i) =
    match fn_name i with
    | Some f => [pretty (id i); class i; f]
    | None => [pretty (id i); class i]
    end.
Proof.
  intros H%class_format_no_dot. unfold rsplitn3.
  rewrite id_name_stem, rsplit_once_app by apply pretty_no_dot. unfold name_stem.
  destruct (fn_name i); [by rewrite rsplit_once_app|by rewrite rsplit_once_no_dot].
Qed.

(** Reading back a property name gives the identifier that printed it:
    for a class in the class format and a 32-bit counter, the deserializer of
    property identifiers inverts [property_name], whenever demangling leaves
    the function name alone. *)
Theorem parse_property_name (demangle : string -> string) (i : PropertyId)
    (Hclass : has_property_class_format (class i) = true)
    (Hdemangle : forall f, fn_name i = Some f -> demangle f = f)
    (Hid : (id i < 2 ^ 32)%N) :
  parse_property_id demangle (id_name i) = Parsed i.
Proof.
  unfold parse_property_id. rewrite rsplitn3_name by done.
  rewrite id_name_stem, numbered_not_recursion.
  destruct i as [[f|] c n]; cbn [fn_name class id] in *;
    rewrite Hclass, Str.pretty_digits, parse_u32_pretty by done; cbn; [|done].
  by rewrite Hdemangle.
Qed.

Lemma parse_property_name_witness :
  let i := {| fn_name := Some "main"; class := "assertion"; id := 7 |} in
  id_name i = "main.assertion.7" /\ parse_property_id (fun s => s) (id_name i) = Parsed i.
Proof.
  split; [reflexivity|]. apply parse_property_name; [reflexivity|reflexivity|reflexivity].
Defined.

End PropertyModel.
