(* ===== verification/Metadata.v ===== *)
(** * Unsoundness diagnostics of a compiled crate

    Models [trust-mc-metadata/src/diagnostics.rs], the [KaniMetadata] record of
    [trust-mc-metadata/src/lib.rs] and the harness records and harness filter of
    [trust-mc-metadata/src/harness.rs].  A crate's metadata carries, per
    unsoundness category, how often the encoder fell back, in total and per
    harness; a category's class says what the driver must do about it. *)

From S2P Require Import Prelude.

Module Metadata.

(** [enum UnsoundnessCategory] *)
Inductive UnsoundnessCategory :=
  | ConstantZeroFallback
  | InternalWorkaround
  | ChcFallback
  | TypeSortFallback
  | SignednessFallback
  | UnsupportedConstructFallback
  | UnconstrainedAssignment
  | BmcStoreCoercionFallback
  | StoreDroppedTransition
  | DivergingCallDrop
  | KaniMemOverapprox
  | OffsetProvenanceUnresolved
  | InferablePredicate
  | FpBitvectorEncoding
  | RoundingAssertionBypass
  | AssertUntranslatable
  | HeapCheckUntranslatable
  | HeapCheckUnknownLayout
  | IteratorUnsoundness
  | BigIntUnsoundness
  | AssumeDroppedTransition
  | ChcCoerceEqDrop
  | ChcTranslationDrop
  | ChcSoundHavocDrop
  | IntoOptionDrop
  | AbstractedFallback
  | VecFieldFallback
  | PointeeSynthesisFallback
  | UnhandledCalls
  | SortHarmonizeFreshVar
  | PtrMetadataUnconstrained
  | StaticInitIncomplete
  | AggregateEncodingGap
  | StubApproximation.

#[export] Instance UnsoundnessCategory_eq_dec : EqDecision UnsoundnessCategory.
Proof. solve_decision. Defined.

(** [UnsoundnessCategory::iter()]: declaration order. *)
Definition all_categories : list UnsoundnessCategory :=
  [ConstantZeroFallback;
   InternalWorkaround;
   ChcFallback;
   TypeSortFallback;
   SignednessFallback;
   UnsupportedConstructFallback;
   UnconstrainedAssignment;
   BmcStoreCoercionFallback;
   StoreDroppedTransition;
   DivergingCallDrop;
   KaniMemOverapprox;
   OffsetProvenanceUnresolved;
   InferablePredicate;
   FpBitvectorEncoding;
   RoundingAssertionBypass;
   AssertUntranslatable;
   HeapCheckUntranslatable;
   HeapCheckUnknownLayout;
   IteratorUnsoundness;
   BigIntUnsoundness;
   AssumeDroppedTransition;
   ChcCoerceEqDrop;
   ChcTranslationDrop;
   ChcSoundHavocDrop;
   IntoOptionDrop;
   AbstractedFallback;
   VecFieldFallback;
   PointeeSynthesisFallback;
   UnhandledCalls;
   SortHarmonizeFreshVar;
   PtrMetadataUnconstrained;
   StaticInitIncomplete;
   AggregateEncodingGap;
   StubApproximation].

(** [enum UnsoundnessClass] *)
Inductive UnsoundnessClass := Demoted | FailClosed | SoundApproximation.

#[export] Instance UnsoundnessClass_eq_dec : EqDecision UnsoundnessClass.
Proof. solve_decision. Defined.

(** [UnsoundnessCategory::class] *)
Definition class (c : UnsoundnessCategory) : UnsoundnessClass :=
  match c with
  | ConstantZeroFallback
  | InternalWorkaround
  | ChcFallback
  | TypeSortFallback
  | SignednessFallback
  | UnsupportedConstructFallback
  | UnconstrainedAssignment
  | BmcStoreCoercionFallback
  | StoreDroppedTransition
  | DivergingCallDrop
  | KaniMemOverapprox
  | OffsetProvenanceUnresolved
  | InferablePredicate
  | FpBitvectorEncoding
  | RoundingAssertionBypass
  | VecFieldFallback
  | PointeeSynthesisFallback => Demoted
  | AssertUntranslatable
  | HeapCheckUntranslatable
  | HeapCheckUnknownLayout
  | IteratorUnsoundness
  | BigIntUnsoundness => FailClosed
  | AssumeDroppedTransition
  | ChcCoerceEqDrop
  | ChcTranslationDrop
  | ChcSoundHavocDrop
  | IntoOptionDrop
  | AbstractedFallback
  | UnhandledCalls
  | SortHarmonizeFreshVar
  | PtrMetadataUnconstrained
  | StaticInitIncomplete
  | AggregateEncodingGap
  | StubApproximation => SoundApproximation
  end.

(** [UnsoundnessCategory::json_key] *)
Definition json_key (c : UnsoundnessCategory) : string :=
  match c with
  | ConstantZeroFallback => "constant_zero_fallback"
  | InternalWorkaround => "internal_workaround"
  | ChcFallback => "chc_fallback"
  | TypeSortFallback => "type_sort_fallback"
  | SignednessFallback => "signedness_fallback"
  | UnsupportedConstructFallback => "unsupported_construct_fallback"
  | UnconstrainedAssignment => "unconstrained_assignment"
  | BmcStoreCoercionFallback => "bmc_store_coercion_fallback"
  | StoreDroppedTransition => "store_dropped_transition"
  | DivergingCallDrop => "diverging_call_drop"
  | KaniMemOverapprox => "kani_mem_overapprox"
  | OffsetProvenanceUnresolved => "offset_provenance_unresolved"
  | InferablePredicate => "inferable_predicate"
  | FpBitvectorEncoding => "fp_bitvector_encoding"
  | RoundingAssertionBypass => "rounding_assertion_bypass"
  | AssertUntranslatable => "assert_untranslatable"
  | HeapCheckUntranslatable => "heap_check_untranslatable"
  | HeapCheckUnknownLayout => "heap_check_unknown_layout"
  | IteratorUnsoundness => "iterator_unsoundness"
  | BigIntUnsoundness => "bigint_unsoundness"
  | AssumeDroppedTransition => "assume_dropped_transition"
  | ChcCoerceEqDrop => "chc_coerce_eq_drop"
  | ChcTranslationDrop => "chc_translation_drop"
  | ChcSoundHavocDrop => "chc_sound_havoc_drop"
  | IntoOptionDrop => "into_option_drop"
  | AbstractedFallback => "abstracted_fallback"
  | VecFieldFallback => "vec_field_fallback"
  | PointeeSynthesisFallback => "pointee_synthesis_fallback"
  | UnhandledCalls => "unhandled_calls"
  | SortHarmonizeFreshVar => "sort_harmonize_fresh_var"
  | PtrMetadataUnconstrained => "ptr_metadata_unconstrained"
  | StaticInitIncomplete => "static_init_incomplete"
  | AggregateEncodingGap => "aggregate_encoding_gap"
  | StubApproximation => "stub_approximation"
  end.

(** The shape most diagnostics have: a crate total and counts per harness. *)
Record PhInfo := { count : N; per_harness : bmap N }.

(** A diagnostic with a crate total only. *)
Record CountInfo := { only_count : N }.

Definition ConstantZeroFallbackInfo := PhInfo.
Definition UnhandledCallInfo := PhInfo.
Definition DivergingCallDropInfo := PhInfo.
Definition OffsetProvenanceUnresolvedInfo := PhInfo.
Definition AssumeDroppedTransitionInfo := PhInfo.
Definition StoreDroppedTransitionInfo := PhInfo.
Definition TypeSortFallbackInfo := PhInfo.
Definition SignednessFallbackInfo := PhInfo.
Definition IntoOptionDropInfo := PhInfo.
Definition InternalWorkaroundInfo := PhInfo.
Definition AbstractedFallbackInfo := PhInfo.
Definition VecFieldFallbackInfo := PhInfo.
Definition PointeeSynthesisFallbackInfo := PhInfo.
Definition UnsupportedConstructFallbackInfo := PhInfo.
Definition UnconstrainedAssignmentInfo := PhInfo.
Definition BmcStoreCoercionFallbackInfo := PhInfo.
Definition KaniMemOverapproxInfo := PhInfo.
Definition SortHarmonizeFreshVarInfo := PhInfo.
Definition PtrMetadataUnconstrainedInfo := PhInfo.
Definition StaticInitIncompleteInfo := PhInfo.
Definition FpBitvectorEncodingInfo := PhInfo.
Definition StubApproximationInfo := PhInfo.
Definition RoundingAssertionBypassInfo := PhInfo.
Definition ErrorBlockedFmtInfo := CountInfo.
Definition KnownStdlibUnconstrainedInfo := CountInfo.
Definition AssertUntranslatableInfo := CountInfo.
Definition HeapCheckUntranslatableInfo := CountInfo.
Definition HeapCheckUnknownLayoutInfo := CountInfo.

(** [struct IteratorUnsoundnessInfo] *)
Record IteratorUnsoundnessInfo := {
  iter_chc_skip_count : N;
  iter_bmc_skip_count : N;
  iter_per_harness : bmap N;
}.

(** [IteratorUnsoundnessInfo::total_skip_count] *)
Definition total_skip_count (i : IteratorUnsoundnessInfo) : N :=
  iter_chc_skip_count i + iter_bmc_skip_count i.

(** [struct BigIntUnsoundnessInfo] *)
Record BigIntUnsoundnessInfo := { big_chc_skip_count : N; big_per_harness : bmap N }.

(** [struct ChcFallbackInfo] *)
Record ChcFallbackInfo := { fb_total_count : N; fb_per_harness : bmap N }.

(** [struct ChcCoerceEqDropInfo] *)
Record ChcCoerceEqDropInfo := { ceq_total_count : N; ceq_per_harness : bmap N }.

(** [struct InferablePredicateInfo] *)
Record InferablePredicateInfo := {
  inf_count : N;
  inf_per_harness : bmap N;
  per_harness_summaries : bmap (bmap N);
}.

(** [struct AggregateEncodingGapInfo] *)
Record AggregateEncodingGapInfo := {
  agg_count : N;
  agg_per_harness : bmap N;
  agg_per_harness_reasons : bmap (bmap N);
}.

(** [struct ChcTranslationDropInfo] *)
Record ChcTranslationDropInfo := {
  place_count : N;
  constant_count : N;
  field_projection_count : N;
  drop_per_harness : bmap N;
  per_harness_reasons : bmap (bmap N);
  per_harness_translation_sites : bmap (bmap N);
  sound_havoc_count : N;
  sound_havoc_per_harness : bmap N;
}.

(** [impl DiagnosticCounters for ChcTranslationDropInfo]: the certified
    havocs are deliberately not part of the total. *)
Definition drop_total_count (i : ChcTranslationDropInfo) : N :=
  place_count i + constant_count i + field_projection_count i.

(** [enum HarnessKind] *)
Inductive HarnessKind :=
  | Proof_
  | ProofForContract (target_fn : string)
  | Test_.

(** [struct Stub] *)
Record Stub := { original : string; replacement : string }.

(** [struct HarnessAttributes]; the solver choice is kept as its name. *)
Record HarnessAttributes := {
  kind : HarnessKind;
  should_panic : bool;
  solver : option string;
  unwind_value : option N;
  stubs : list Stub;
  verified_stubs : list string;
}.

(** [HarnessAttributes::new] *)
Definition HarnessAttributes_new (k : HarnessKind) : HarnessAttributes :=
  {| kind := k; should_panic := false; solver := None; unwind_value := None;
     stubs := []; verified_stubs := [] |}.

(** [HarnessAttributes::is_proof_harness] *)
Definition is_proof_harness (a : HarnessAttributes) : bool :=
  match kind a with Proof_ | ProofForContract _ => true | Test_ => false end.

(** [struct AssignsContract] *)
Record AssignsContract := {
  contracted_function_name : string;
  recursion_tracker : option string;
}.

(** [struct HarnessMetadata] *)
Record HarnessMetadata := {
  pretty_name : string;
  mangled_name : string;
  h_crate_name : string;
  original_file : string;
  original_start_line : N;
  original_end_line : N;
  model_file : string;
  attributes : HarnessAttributes;
  contract : option AssignsContract;
  has_loop_contracts : bool;
  is_automatically_generated : bool;
}.

(** [s.rfind("::")] gives the text after the last separator, if any. *)
Fixpoint after_last_sep (s : string) : option string :=
  match s with
  | EmptyString => None
  | String c s' =>
      match after_last_sep s' with
      | Some r => Some r
      | None => match s with
                | String ":" (String ":" r) => Some r
                | _ => None
                end
      end
  end.

(** [HarnessMetadata::get_harness_name_unqualified] *)
Definition get_harness_name_unqualified (h : HarnessMetadata) : string :=
  match after_last_sep (pretty_name h) with Some r => r | None => pretty_name h end.

(** [find_proof_harnesses] *)
Definition find_proof_harnesses (targets : list string) (all : list HarnessMetadata)
    (exact_filter : bool) : list HarnessMetadata :=
  List.filter (fun md =>
    if is_automatically_generated md then false
    else if exact_filter then existsb (String.eqb (pretty_name md)) targets
    else existsb (String.eqb (pretty_name md)) targets
         || existsb (String.eqb (get_harness_name_unqualified md)) targets
         || existsb (fun t => Str.contains (pretty_name md) t) targets) all.

(** [struct KaniMetadata]: the fields the driver's verdict pipeline reads. *)
Record KaniMetadata := {
  crate_name : string;
  proof_harnesses : list HarnessMetadata;
  test_harnesses : list HarnessMetadata;
  iterator_unsoundness : option IteratorUnsoundnessInfo;
  bigint_unsoundness : option BigIntUnsoundnessInfo;
  chc_fallbacks : option ChcFallbackInfo;
  chc_translation_drops : option ChcTranslationDropInfo;
  chc_coerce_eq_drops : option ChcCoerceEqDropInfo;
  assume_dropped_transitions : option AssumeDroppedTransitionInfo;
  store_dropped_transitions : option StoreDroppedTransitionInfo;
  constant_zero_fallbacks : option ConstantZeroFallbackInfo;
  unhandled_calls : option UnhandledCallInfo;
  error_blocked_fmt : option ErrorBlockedFmtInfo;
  known_stdlib_unconstrained : option KnownStdlibUnconstrainedInfo;
  inferable_predicates : option InferablePredicateInfo;
  diverging_call_drops : option DivergingCallDropInfo;
  offset_provenance_unresolved : option OffsetProvenanceUnresolvedInfo;
  assert_untranslatable : option AssertUntranslatableInfo;
  heap_check_untranslatable : option HeapCheckUntranslatableInfo;
  heap_check_unknown_layout : option HeapCheckUnknownLayoutInfo;
  type_sort_fallbacks : option TypeSortFallbackInfo;
  signedness_fallbacks : option SignednessFallbackInfo;
  into_option_drops : option IntoOptionDropInfo;
  internal_workarounds : option InternalWorkaroundInfo;
  abstracted_fallbacks : option AbstractedFallbackInfo;
  vec_field_fallbacks : option VecFieldFallbackInfo;
  pointee_synthesis_fallbacks : option PointeeSynthesisFallbackInfo;
  unsupported_construct_fallbacks : option UnsupportedConstructFallbackInfo;
  unconstrained_assignments : option UnconstrainedAssignmentInfo;
  bmc_store_coercion_fallbacks : option BmcStoreCoercionFallbackInfo;
  kani_mem_overapprox : option KaniMemOverapproxInfo;
  sort_harmonize_fresh_var_fallbacks : option SortHarmonizeFreshVarInfo;
  ptr_metadata_unconstrained : option PtrMetadataUnconstrainedInfo;
  static_init_incomplete : option StaticInitIncompleteInfo;
  fp_bitvector_encoding : option FpBitvectorEncodingInfo;
  aggregate_encoding_gap : option AggregateEncodingGapInfo;
  stub_approximation : option StubApproximationInfo;
  rounding_assertion_bypass : option RoundingAssertionBypassInfo;
}.

(** [struct UnsoundnessRecord] *)
Record UnsoundnessRecord := {
  rec_category : UnsoundnessCategory;
  rec_class : UnsoundnessClass;
  rec_json_key : string;
  rec_total_count : N;
  rec_per_harness : option (bmap N);
}.

(** The macros [ph!] and [no_ph!] of [KaniMetadata::unsoundness]. *)
Definition ph (i : PhInfo) : N * option (bmap N) := (count i, Some (per_harness i)).
Definition no_ph (i : CountInfo) : N * option (bmap N) := (only_count i, None).

(** The [match] of [KaniMetadata::unsoundness]: total and per-harness counts. *)
Definition category_counts (md : KaniMetadata) (cat : UnsoundnessCategory)
    : option (N * option (bmap N)) :=
  match cat with
  | ConstantZeroFallback => ph <$> constant_zero_fallbacks md
  | InternalWorkaround => ph <$> internal_workarounds md
  | ChcFallback => (fun i => (fb_total_count i, Some (fb_per_harness i))) <$> chc_fallbacks md
  | TypeSortFallback => ph <$> type_sort_fallbacks md
  | SignednessFallback => ph <$> signedness_fallbacks md
  | UnsupportedConstructFallback => ph <$> unsupported_construct_fallbacks md
  | UnconstrainedAssignment => ph <$> unconstrained_assignments md
  | BmcStoreCoercionFallback => ph <$> bmc_store_coercion_fallbacks md
  | StoreDroppedTransition => ph <$> store_dropped_transitions md
  | DivergingCallDrop => ph <$> diverging_call_drops md
  | KaniMemOverapprox => ph <$> kani_mem_overapprox md
  | OffsetProvenanceUnresolved => ph <$> offset_provenance_unresolved md
  | InferablePredicate => (fun i => (inf_count i, Some (inf_per_harness i))) <$> inferable_predicates md
  | FpBitvectorEncoding => ph <$> fp_bitvector_encoding md
  | RoundingAssertionBypass => ph <$> rounding_assertion_bypass md
  | AssertUntranslatable => no_ph <$> assert_untranslatable md
  | HeapCheckUntranslatable => no_ph <$> heap_check_untranslatable md
  | HeapCheckUnknownLayout => no_ph <$> heap_check_unknown_layout md
  | IteratorUnsoundness => (fun i => (total_skip_count i, Some (iter_per_harness i))) <$> iterator_unsoundness md
  | BigIntUnsoundness => (fun i => (big_chc_skip_count i, Some (big_per_harness i))) <$> bigint_unsoundness md
  | AssumeDroppedTransition => ph <$> assume_dropped_transitions md
  | ChcCoerceEqDrop => (fun i => (ceq_total_count i, Some (ceq_per_harness i))) <$> chc_coerce_eq_drops md
  | ChcTranslationDrop => (fun i => (drop_total_count i, Some (drop_per_harness i))) <$> chc_translation_drops md
  | ChcSoundHavocDrop => (fun i => (sound_havoc_count i, Some (sound_havoc_per_harness i))) <$> chc_translation_drops md
  | IntoOptionDrop => ph <$> into_option_drops md
  | AbstractedFallback => ph <$> abstracted_fallbacks md
  | VecFieldFallback => ph <$> vec_field_fallbacks md
  | PointeeSynthesisFallback => ph <$> pointee_synthesis_fallbacks md
  | UnhandledCalls => ph <$> unhandled_calls md
  | SortHarmonizeFreshVar => ph <$> sort_harmonize_fresh_var_fallbacks md
  | PtrMetadataUnconstrained => ph <$> ptr_metadata_unconstrained md
  | StaticInitIncomplete => ph <$> static_init_incomplete md
  | AggregateEncodingGap => (fun i => (agg_count i, Some (agg_per_harness i))) <$> aggregate_encoding_gap md
  | StubApproximation => ph <$> stub_approximation md
  end.

(** [KaniMetadata::unsoundness] *)
Definition unsoundness (md : KaniMetadata) (cat : UnsoundnessCategory)
    : option UnsoundnessRecord :=
  '(total, phs) ← category_counts md cat;
  if N.ltb 0 total then
    Some {| rec_category := cat; rec_class := class cat; rec_json_key := json_key cat;
            rec_total_count := total; rec_per_harness := phs |}
  else None.

(** [KaniMetadata::unsoundness_diagnostics] *)
Definition unsoundness_diagnostics (md : KaniMetadata) : list UnsoundnessRecord :=
  omap (unsoundness md) all_categories.

(** ** Sample crates, for the closed instances of the theorems *)

Module Sample.

(** A proof harness of a crate. *)
Definition harness_of (crate name : string) : HarnessMetadata :=
  {| pretty_name := name; mangled_name := name; h_crate_name := crate;
     original_file := "src/lib.rs"; original_start_line := 1; original_end_line := 2;
     model_file := name +:+ ".symtab.out"; attributes := HarnessAttributes_new Proof_;
     contract := None; has_loop_contracts := false; is_automatically_generated := false |}.

(** A crate whose only diagnostics are the given CHC fallbacks, stub
    approximations and iterator skips. *)
Definition crate_of (name : string) (hs : list string) (fb : option ChcFallbackInfo)
    (stub : option StubApproximationInfo) (it : option IteratorUnsoundnessInfo) : KaniMetadata :=
  {| crate_name := name;
     proof_harnesses := map (harness_of name) hs;
     test_harnesses := [];
     iterator_unsoundness := it;
     bigint_unsoundness := None;
     chc_fallbacks := fb;
     chc_translation_drops := None;
     chc_coerce_eq_drops := None;
     assume_dropped_transitions := None;
     store_dropped_transitions := None;
     constant_zero_fallbacks := None;
     unhandled_calls := None;
     error_blocked_fmt := None;
     known_stdlib_unconstrained := None;
     inferable_predicates := None;
     diverging_call_drops := None;
     offset_provenance_unresolved := None;
     assert_untranslatable := None;
     heap_check_untranslatable := None;
     heap_check_unknown_layout := None;
     type_sort_fallbacks := None;
     signedness_fallbacks := None;
     into_option_drops := None;
     internal_workarounds := None;
     abstracted_fallbacks := None;
     vec_field_fallbacks := None;
     pointee_synthesis_fallbacks := None;
     unsupported_construct_fallbacks := None;
     unconstrained_assignments := None;
     bmc_store_coercion_fallbacks := None;
     kani_mem_overapprox := None;
     sort_harmonize_fresh_var_fallbacks := None;
     ptr_metadata_unconstrained := None;
     static_init_incomplete := None;
     fp_bitvector_encoding := None;
     aggregate_encoding_gap := None;
     stub_approximation := stub;
     rounding_assertion_bypass := None |}.

(** A crate [app] with two harnesses, three fallbacks of the first and two of a
    function that no harness names. *)
Definition app : KaniMetadata :=
  crate_of "app" ["app::h"; "app::g"]
    (Some {| fb_total_count := 5; fb_per_harness := [("app::h", 3%N); ("app::util", 2%N)] |})
    None None.

(** The binary of the same package, one fallback of its own harness. *)
Definition app_bin : KaniMetadata :=
  crate_of "app" ["main::k"]
    (Some {| fb_total_count := 1; fb_per_harness := [("main::k", 1%N)] |})
    None None.

(** A crate with no diagnostics. *)
Definition clean : KaniMetadata := crate_of "clean" ["clean::k"] None None None.

(** A crate with two stub approximations of its harness. *)
Definition stubbed : KaniMetadata :=
  crate_of "stubbed" ["stubbed::h"] None
    (Some {| count := 2; per_harness := [("stubbed::h", 2%N)] |}) None.

(** A crate whose iterator skips are keyed by a function. *)
Definition iterators : KaniMetadata :=
  crate_of "iterators" ["iterators::h"] None None
    (Some {| iter_chc_skip_count := 2; iter_bmc_skip_count := 0;
             iter_per_harness := [("iterators::walk", 2%N)] |}).

End Sample.

(** ** Lemmas *)

Lemma all_categories_complete (c : UnsoundnessCategory) : c ∈ all_categories.
Proof. destruct c; unfold all_categories; repeat constructor. Qed.

Lemma all_categories_nodup : NoDup all_categories.
Proof. by apply (bool_decide_eq_true_1 (NoDup all_categories)). Qed.

Lemma json_key_inj (c d : UnsoundnessCategory) : json_key c = json_key d -> c = d.
Proof. by destruct c, d. Qed.

End Metadata.
