(* ===== verification/Counts.v ===== *)
(** * Unsoundness counts per crate and per harness

    Models [unsoundness_counts.rs], [unsoundness_extract.rs] and
    [unsoundness_extract_fail_closed.rs] of the driver: how the diagnostics of
    the compiled crates become the counts that gate a harness's verdict.  The
    project is the list of its metadata files, in order. *)

From S2P Require Import Prelude Metadata.

Module Counts.
Import Metadata.
Local Open Scope N_scope.

(** [project.metadata] *)
Definition Project := list KaniMetadata.

Definition DEMOTED_CATEGORIES : list UnsoundnessCategory :=
  [ConstantZeroFallback; InternalWorkaround; ChcFallback; TypeSortFallback;
   SignednessFallback; UnsupportedConstructFallback; UnconstrainedAssignment;
   BmcStoreCoercionFallback; StoreDroppedTransition; DivergingCallDrop;
   KaniMemOverapprox; OffsetProvenanceUnresolved; InferablePredicate;
   FpBitvectorEncoding; RoundingAssertionBypass; VecFieldFallback;
   PointeeSynthesisFallback].

Definition FAIL_CLOSED_CATEGORIES : list UnsoundnessCategory :=
  [AssertUntranslatable; HeapCheckUntranslatable; HeapCheckUnknownLayout;
   IteratorUnsoundness; BigIntUnsoundness].

Definition SOUND_APPROXIMATION_CATEGORIES : list UnsoundnessCategory :=
  [AssumeDroppedTransition; ChcCoerceEqDrop; ChcTranslationDrop; ChcSoundHavocDrop;
   IntoOptionDrop; AbstractedFallback; UnhandledCalls; SortHarmonizeFreshVar;
   PtrMetadataUnconstrained; StaticInitIncomplete; AggregateEncodingGap;
   StubApproximation].

(** crate name -> (harness name -> [(category, count)]) *)
Definition SoundApproxPerHarnessMap := bmap (bmap (list (string * N))).

(** [*totals.entry(category).or_default() += count] *)
Definition add_total (totals : bmap N) (cc : string * N) : bmap N :=
  BMap.upd cc.1 (fun o => default 0 o + cc.2) totals.

Definition sum_sound_approx_categories (per_harness : bmap (list (string * N)))
    : list (string * N) :=
  foldl (fun totals hc => foldl add_total totals hc.2) [] per_harness.

(** [diagnostic_count_by_crate] *)
Definition diagnostic_count_by_crate (project : Project) (category : UnsoundnessCategory)
    : bmap N :=
  BMap.collect (omap (fun md =>
    record ← unsoundness md category;
    if 0 <? rec_total_count record then Some (crate_name md, rec_total_count record)
    else None) project).

(** [diagnostic_per_harness] *)
Definition diagnostic_per_harness (md : KaniMetadata) (category : UnsoundnessCategory)
    : option (bmap N) :=
  match category with
  | ConstantZeroFallback => per_harness <$> constant_zero_fallbacks md
  | InternalWorkaround => per_harness <$> internal_workarounds md
  | ChcFallback => fb_per_harness <$> chc_fallbacks md
  | TypeSortFallback => per_harness <$> type_sort_fallbacks md
  | SignednessFallback => per_harness <$> signedness_fallbacks md
  | UnsupportedConstructFallback => per_harness <$> unsupported_construct_fallbacks md
  | UnconstrainedAssignment => per_harness <$> unconstrained_assignments md
  | BmcStoreCoercionFallback => per_harness <$> bmc_store_coercion_fallbacks md
  | StoreDroppedTransition => per_harness <$> store_dropped_transitions md
  | DivergingCallDrop => per_harness <$> diverging_call_drops md
  | OffsetProvenanceUnresolved => per_harness <$> offset_provenance_unresolved md
  | KaniMemOverapprox => per_harness <$> kani_mem_overapprox md
  | InferablePredicate => inf_per_harness <$> inferable_predicates md
  | FpBitvectorEncoding => per_harness <$> fp_bitvector_encoding md
  | RoundingAssertionBypass => per_harness <$> rounding_assertion_bypass md
  | AssertUntranslatable | HeapCheckUntranslatable | HeapCheckUnknownLayout => None
  | IteratorUnsoundness => iter_per_harness <$> iterator_unsoundness md
  | BigIntUnsoundness => big_per_harness <$> bigint_unsoundness md
  | AssumeDroppedTransition => per_harness <$> assume_dropped_transitions md
  | ChcCoerceEqDrop => ceq_per_harness <$> chc_coerce_eq_drops md
  | ChcTranslationDrop => drop_per_harness <$> chc_translation_drops md
  | ChcSoundHavocDrop => sound_havoc_per_harness <$> chc_translation_drops md
  | IntoOptionDrop => per_harness <$> into_option_drops md
  | AbstractedFallback => per_harness <$> abstracted_fallbacks md
  | VecFieldFallback => per_harness <$> vec_field_fallbacks md
  | PointeeSynthesisFallback => per_harness <$> pointee_synthesis_fallbacks md
  | UnhandledCalls => per_harness <$> unhandled_calls md
  | SortHarmonizeFreshVar => per_harness <$> sort_harmonize_fresh_var_fallbacks md
  | PtrMetadataUnconstrained => per_harness <$> ptr_metadata_unconstrained md
  | StaticInitIncomplete => per_harness <$> static_init_incomplete md
  | AggregateEncodingGap => agg_per_harness <$> aggregate_encoding_gap md
  | StubApproximation => per_harness <$> stub_approximation md
  end.

(** [(!m.is_empty()).then_some((crate_name, m))] *)
Definition nonempty_entry (md : KaniMetadata) (m : bmap N) : option (string * bmap N) :=
  match m with [] => None | _ => Some (crate_name md, m) end.

(** [diagnostic_per_harness_by_crate] *)
Definition diagnostic_per_harness_by_crate (project : Project) (category : UnsoundnessCategory)
    : bmap (bmap N) :=
  BMap.collect (omap (fun md =>
    m ← diagnostic_per_harness md category; nonempty_entry md m) project).

(** ** unsoundness_extract.rs *)

(** The body the extraction functions of a crate total share:
    [metadata.<field>.as_ref().map_or(0, |info| info.<count>)], kept when positive. *)
Definition count_by_crate {A} (field : KaniMetadata -> option A) (cnt : A -> N)
    (project : Project) : bmap N :=
  BMap.collect (omap (fun md =>
    let n := from_option cnt 0 (field md) in
    if 0 <? n then Some (crate_name md, n) else None) project).

(** The body the per-harness extraction functions share. *)
Definition per_harness_by_crate {A} (field : KaniMetadata -> option A) (phs : A -> bmap N)
    (project : Project) : bmap (bmap N) :=
  BMap.collect (omap (fun md => info ← field md; nonempty_entry md (phs info)) project).

Definition constant_zero_fallback_count_by_crate (project : Project) : bmap N :=
  count_by_crate constant_zero_fallbacks count project.

Definition internal_workaround_count_by_crate (project : Project) : bmap N :=
  count_by_crate internal_workarounds count project.

Definition chc_fallback_count_by_crate (project : Project) : bmap N :=
  count_by_crate chc_fallbacks fb_total_count project.

Definition type_sort_fallback_count_by_crate (project : Project) : bmap N :=
  count_by_crate type_sort_fallbacks count project.

Definition signedness_fallback_count_by_crate (project : Project) : bmap N :=
  count_by_crate signedness_fallbacks count project.

Definition unsupported_construct_fallback_count_by_crate (project : Project) : bmap N :=
  count_by_crate unsupported_construct_fallbacks count project.

Definition unconstrained_assignment_count_by_crate (project : Project) : bmap N :=
  count_by_crate unconstrained_assignments count project.

Definition chc_fallback_per_harness_by_crate (project : Project) : bmap (bmap N) :=
  per_harness_by_crate chc_fallbacks fb_per_harness project.

Definition signedness_fallback_per_harness_by_crate (project : Project) : bmap (bmap N) :=
  per_harness_by_crate signedness_fallbacks per_harness project.

Definition type_sort_fallback_per_harness_by_crate (project : Project) : bmap (bmap N) :=
  per_harness_by_crate type_sort_fallbacks per_harness project.

Definition constant_zero_fallback_per_harness_by_crate (project : Project) : bmap (bmap N) :=
  per_harness_by_crate constant_zero_fallbacks per_harness project.

Definition internal_workaround_per_harness_by_crate (project : Project) : bmap (bmap N) :=
  per_harness_by_crate internal_workarounds per_harness project.

Definition unsupported_construct_per_harness_by_crate (project : Project) : bmap (bmap N) :=
  per_harness_by_crate unsupported_construct_fallbacks per_harness project.

Definition unconstrained_assignment_per_harness_by_crate (project : Project) : bmap (bmap N) :=
  per_harness_by_crate unconstrained_assignments per_harness project.

Definition kani_mem_overapprox_per_harness_by_crate (project : Project) : bmap (bmap N) :=
  per_harness_by_crate kani_mem_overapprox per_harness project.

(** The body of the loop over a record's per-harness entries: a positive count
    is pushed under its harness. *)
Definition push_category (key : string) (cats : bmap (list (string * N))) (hc : string * N)
    : bmap (list (string * N)) :=
  if 0 <? hc.2 then BMap.upd hc.1 (fun o => default [] o ++ [(key, hc.2)]) cats else cats.

(** The body of the loop over a crate's diagnostics. *)
Definition collect_record (cats : bmap (list (string * N))) (record : UnsoundnessRecord)
    : bmap (list (string * N)) :=
  if decide (rec_class record = SoundApproximation) then
    match rec_per_harness record with
    | Some ph_map => foldl (push_category (rec_json_key record)) cats ph_map
    | None => cats
    end
  else cats.

(** The sound approximations of one crate: harness -> [(category, count)]. *)
Definition harness_cats (md : KaniMetadata) : bmap (list (string * N)) :=
  foldl collect_record [] (unsoundness_diagnostics md).

Definition sound_approximation_per_harness_by_crate (project : Project)
    : SoundApproxPerHarnessMap :=
  foldl (fun result md =>
    match harness_cats md with
    | [] => result
    | cats => BMap.insert (crate_name md) cats result
    end) [] project.

(** ** unsoundness_extract_fail_closed.rs *)

Definition assert_untranslatable_count_by_crate (project : Project) : bmap N :=
  count_by_crate assert_untranslatable only_count project.

Definition heap_check_untranslatable_count_by_crate (project : Project) : bmap N :=
  count_by_crate heap_check_untranslatable only_count project.

Definition heap_check_unknown_layout_count_by_crate (project : Project) : bmap N :=
  count_by_crate heap_check_unknown_layout only_count project.

Definition iterator_unsoundness_count_by_crate (project : Project) : bmap N :=
  count_by_crate iterator_unsoundness total_skip_count project.

Definition bigint_unsoundness_count_by_crate (project : Project) : bmap N :=
  count_by_crate bigint_unsoundness big_chc_skip_count project.

Definition iterator_unsoundness_per_harness_by_crate (project : Project) : bmap (bmap N) :=
  per_harness_by_crate iterator_unsoundness iter_per_harness project.

Definition bigint_unsoundness_per_harness_by_crate (project : Project) : bmap (bmap N) :=
  per_harness_by_crate bigint_unsoundness big_per_harness project.

(** ** The counts of a project *)

Module U.

(** [struct UnsoundnessCounts]: every map is keyed by crate name. *)
Record UnsoundnessCounts := {
  constant_zero_fallback : bmap N;
  internal_workaround : bmap N;
  chc_fallback : bmap N;
  type_sort_fallback : bmap N;
  signedness_fallback : bmap N;
  unsupported_construct_fallback : bmap N;
  unconstrained_assignment : bmap N;
  bmc_store_coercion_fallback : bmap N;
  store_dropped_transition : bmap N;
  diverging_call_drop : bmap N;
  offset_provenance_unresolved : bmap N;
  kani_mem_overapprox : bmap N;
  inferable_predicate : bmap N;
  fp_bitvector_encoding : bmap N;
  rounding_assertion_bypass : bmap N;
  chc_fallback_per_harness : bmap (bmap N);
  signedness_fallback_per_harness : bmap (bmap N);
  type_sort_fallback_per_harness : bmap (bmap N);
  constant_zero_per_harness : bmap (bmap N);
  internal_workaround_per_harness : bmap (bmap N);
  unsupported_construct_per_harness : bmap (bmap N);
  unconstrained_assignment_per_harness : bmap (bmap N);
  bmc_store_coercion_per_harness : bmap (bmap N);
  store_dropped_transition_per_harness : bmap (bmap N);
  diverging_call_drop_per_harness : bmap (bmap N);
  offset_provenance_unresolved_per_harness : bmap (bmap N);
  kani_mem_overapprox_per_harness : bmap (bmap N);
  inferable_predicate_per_harness : bmap (bmap N);
  fp_bitvector_encoding_per_harness : bmap (bmap N);
  rounding_assertion_bypass_per_harness : bmap (bmap N);
  vec_field_fallback : bmap N;
  pointee_synthesis_fallback : bmap N;
  vec_field_fallback_per_harness : bmap (bmap N);
  pointee_synthesis_fallback_per_harness : bmap (bmap N);
  sound_approx_per_harness : SoundApproxPerHarnessMap;
  assert_untranslatable : bmap N;
  heap_check_untranslatable : bmap N;
  heap_check_unknown_layout : bmap N;
  iterator_unsoundness : bmap N;
  bigint_unsoundness : bmap N;
  iterator_unsoundness_per_harness : bmap (bmap N);
  bigint_unsoundness_per_harness : bmap (bmap N);
  harness_names_by_crate : bmap (gset string);
}.

End U.

Module C.

(** [struct CrateUnsoundnessCounts] *)
Record CrateUnsoundnessCounts := {
  constant_zero_fallback : N;
  internal_workaround : N;
  chc_fallback : N;
  type_sort_fallback : N;
  signedness_fallback : N;
  unsupported_construct_fallback : N;
  unconstrained_assignment : N;
  bmc_store_coercion_fallback : N;
  store_dropped_transition : N;
  diverging_call_drop : N;
  offset_provenance_unresolved : N;
  kani_mem_overapprox : N;
  inferable_predicate : N;
  fp_bitvector_encoding : N;
  rounding_assertion_bypass : N;
  chc_fallback_per_harness : bmap N;
  signedness_fallback_per_harness : bmap N;
  type_sort_fallback_per_harness : bmap N;
  constant_zero_per_harness : bmap N;
  internal_workaround_per_harness : bmap N;
  unsupported_construct_per_harness : bmap N;
  unconstrained_assignment_per_harness : bmap N;
  bmc_store_coercion_per_harness : bmap N;
  store_dropped_transition_per_harness : bmap N;
  diverging_call_drop_per_harness : bmap N;
  offset_provenance_unresolved_per_harness : bmap N;
  kani_mem_overapprox_per_harness : bmap N;
  inferable_predicate_per_harness : bmap N;
  fp_bitvector_encoding_per_harness : bmap N;
  rounding_assertion_bypass_per_harness : bmap N;
  vec_field_fallback : N;
  pointee_synthesis_fallback : N;
  vec_field_fallback_per_harness : bmap N;
  pointee_synthesis_fallback_per_harness : bmap N;
  sound_approx_per_harness : bmap (list (string * N));
  sound_approx_crate_totals : list (string * N);
  assert_untranslatable : N;
  heap_check_untranslatable : N;
  heap_check_unknown_layout : N;
  iterator_unsoundness : N;
  bigint_unsoundness : N;
  iterator_unsoundness_per_harness : bmap N;
  bigint_unsoundness_per_harness : bmap N;
  harness_names : gset string;
}.

(** [CrateUnsoundnessCounts::default()] *)
Definition default_counts : CrateUnsoundnessCounts := {|
  constant_zero_fallback := 0;
  internal_workaround := 0;
  chc_fallback := 0;
  type_sort_fallback := 0;
  signedness_fallback := 0;
  unsupported_construct_fallback := 0;
  unconstrained_assignment := 0;
  bmc_store_coercion_fallback := 0;
  store_dropped_transition := 0;
  diverging_call_drop := 0;
  offset_provenance_unresolved := 0;
  kani_mem_overapprox := 0;
  inferable_predicate := 0;
  fp_bitvector_encoding := 0;
  rounding_assertion_bypass := 0;
  chc_fallback_per_harness := [];
  signedness_fallback_per_harness := [];
  type_sort_fallback_per_harness := [];
  constant_zero_per_harness := [];
  internal_workaround_per_harness := [];
  unsupported_construct_per_harness := [];
  unconstrained_assignment_per_harness := [];
  bmc_store_coercion_per_harness := [];
  store_dropped_transition_per_harness := [];
  diverging_call_drop_per_harness := [];
  offset_provenance_unresolved_per_harness := [];
  kani_mem_overapprox_per_harness := [];
  inferable_predicate_per_harness := [];
  fp_bitvector_encoding_per_harness := [];
  rounding_assertion_bypass_per_harness := [];
  vec_field_fallback := 0;
  pointee_synthesis_fallback := 0;
  vec_field_fallback_per_harness := [];
  pointee_synthesis_fallback_per_harness := [];
  sound_approx_per_harness := [];
  sound_approx_crate_totals := [];
  assert_untranslatable := 0;
  heap_check_untranslatable := 0;
  heap_check_unknown_layout := 0;
  iterator_unsoundness := 0;
  bigint_unsoundness := 0;
  iterator_unsoundness_per_harness := [];
  bigint_unsoundness_per_harness := [];
  harness_names := ∅;
|}.

End C.

(** [UnsoundnessCounts::from_project] *)
Definition from_project (project : Project) : U.UnsoundnessCounts := {|
  U.constant_zero_fallback := constant_zero_fallback_count_by_crate project;
  U.internal_workaround := internal_workaround_count_by_crate project;
  U.chc_fallback := chc_fallback_count_by_crate project;
  U.type_sort_fallback := type_sort_fallback_count_by_crate project;
  U.signedness_fallback := signedness_fallback_count_by_crate project;
  U.unsupported_construct_fallback := unsupported_construct_fallback_count_by_crate project;
  U.unconstrained_assignment := unconstrained_assignment_count_by_crate project;
  U.bmc_store_coercion_fallback := diagnostic_count_by_crate project BmcStoreCoercionFallback;
  U.store_dropped_transition := diagnostic_count_by_crate project StoreDroppedTransition;
  U.diverging_call_drop := diagnostic_count_by_crate project DivergingCallDrop;
  U.offset_provenance_unresolved := diagnostic_count_by_crate project OffsetProvenanceUnresolved;
  U.kani_mem_overapprox := diagnostic_count_by_crate project KaniMemOverapprox;
  U.inferable_predicate := diagnostic_count_by_crate project InferablePredicate;
  U.fp_bitvector_encoding := diagnostic_count_by_crate project FpBitvectorEncoding;
  U.rounding_assertion_bypass := diagnostic_count_by_crate project RoundingAssertionBypass;
  U.chc_fallback_per_harness := chc_fallback_per_harness_by_crate project;
  U.signedness_fallback_per_harness := signedness_fallback_per_harness_by_crate project;
  U.type_sort_fallback_per_harness := type_sort_fallback_per_harness_by_crate project;
  U.constant_zero_per_harness := constant_zero_fallback_per_harness_by_crate project;
  U.internal_workaround_per_harness := internal_workaround_per_harness_by_crate project;
  U.unsupported_construct_per_harness := unsupported_construct_per_harness_by_crate project;
  U.unconstrained_assignment_per_harness := unconstrained_assignment_per_harness_by_crate project;
  U.bmc_store_coercion_per_harness := diagnostic_per_harness_by_crate project BmcStoreCoercionFallback;
  U.store_dropped_transition_per_harness := diagnostic_per_harness_by_crate project StoreDroppedTransition;
  U.diverging_call_drop_per_harness := diagnostic_per_harness_by_crate project DivergingCallDrop;
  U.offset_provenance_unresolved_per_harness := diagnostic_per_harness_by_crate project OffsetProvenanceUnresolved;
  U.kani_mem_overapprox_per_harness := kani_mem_overapprox_per_harness_by_crate project;
  U.inferable_predicate_per_harness := diagnostic_per_harness_by_crate project InferablePredicate;
  U.fp_bitvector_encoding_per_harness := diagnostic_per_harness_by_crate project FpBitvectorEncoding;
  U.rounding_assertion_bypass_per_harness := diagnostic_per_harness_by_crate project RoundingAssertionBypass;
  U.vec_field_fallback := diagnostic_count_by_crate project VecFieldFallback;
  U.pointee_synthesis_fallback := diagnostic_count_by_crate project PointeeSynthesisFallback;
  U.vec_field_fallback_per_harness := diagnostic_per_harness_by_crate project VecFieldFallback;
  U.pointee_synthesis_fallback_per_harness := diagnostic_per_harness_by_crate project PointeeSynthesisFallback;
  U.sound_approx_per_harness := sound_approximation_per_harness_by_crate project;
  U.assert_untranslatable := assert_untranslatable_count_by_crate project;
  U.heap_check_untranslatable := heap_check_untranslatable_count_by_crate project;
  U.heap_check_unknown_layout := heap_check_unknown_layout_count_by_crate project;
  U.iterator_unsoundness := iterator_unsoundness_count_by_crate project;
  U.bigint_unsoundness := bigint_unsoundness_count_by_crate project;
  U.iterator_unsoundness_per_harness := iterator_unsoundness_per_harness_by_crate project;
  U.bigint_unsoundness_per_harness := bigint_unsoundness_per_harness_by_crate project;
  U.harness_names_by_crate :=
    BMap.collect (map (fun md =>
      (crate_name md, list_to_set (map pretty_name (proof_harnesses md)))) project);
|}.

(** [UnsoundnessCounts::get_for_crate] *)
Definition get_for_crate (self : U.UnsoundnessCounts) (name : string) : C.CrateUnsoundnessCounts :=
  let c (m : bmap N) := default 0 (BMap.get name m) in
  let ph (m : bmap (bmap N)) := default [] (BMap.get name m) in
  let sound := default [] (BMap.get name (U.sound_approx_per_harness self)) in {|
  C.constant_zero_fallback := c (U.constant_zero_fallback self);
  C.internal_workaround := c (U.internal_workaround self);
  C.chc_fallback := c (U.chc_fallback self);
  C.type_sort_fallback := c (U.type_sort_fallback self);
  C.signedness_fallback := c (U.signedness_fallback self);
  C.unsupported_construct_fallback := c (U.unsupported_construct_fallback self);
  C.unconstrained_assignment := c (U.unconstrained_assignment self);
  C.bmc_store_coercion_fallback := c (U.bmc_store_coercion_fallback self);
  C.store_dropped_transition := c (U.store_dropped_transition self);
  C.diverging_call_drop := c (U.diverging_call_drop self);
  C.offset_provenance_unresolved := c (U.offset_provenance_unresolved self);
  C.kani_mem_overapprox := c (U.kani_mem_overapprox self);
  C.inferable_predicate := c (U.inferable_predicate self);
  C.fp_bitvector_encoding := c (U.fp_bitvector_encoding self);
  C.rounding_assertion_bypass := c (U.rounding_assertion_bypass self);
  C.chc_fallback_per_harness := ph (U.chc_fallback_per_harness self);
  C.signedness_fallback_per_harness := ph (U.signedness_fallback_per_harness self);
  C.type_sort_fallback_per_harness := ph (U.type_sort_fallback_per_harness self);
  C.constant_zero_per_harness := ph (U.constant_zero_per_harness self);
  C.internal_workaround_per_harness := ph (U.internal_workaround_per_harness self);
  C.unsupported_construct_per_harness := ph (U.unsupported_construct_per_harness self);
  C.unconstrained_assignment_per_harness := ph (U.unconstrained_assignment_per_harness self);
  C.bmc_store_coercion_per_harness := ph (U.bmc_store_coercion_per_harness self);
  C.store_dropped_transition_per_harness := ph (U.store_dropped_transition_per_harness self);
  C.diverging_call_drop_per_harness := ph (U.diverging_call_drop_per_harness self);
  C.offset_provenance_unresolved_per_harness := ph (U.offset_provenance_unresolved_per_harness self);
  C.kani_mem_overapprox_per_harness := ph (U.kani_mem_overapprox_per_harness self);
  C.inferable_predicate_per_harness := ph (U.inferable_predicate_per_harness self);
  C.fp_bitvector_encoding_per_harness := ph (U.fp_bitvector_encoding_per_harness self);
  C.rounding_assertion_bypass_per_harness := ph (U.rounding_assertion_bypass_per_harness self);
  C.vec_field_fallback := c (U.vec_field_fallback self);
  C.pointee_synthesis_fallback := c (U.pointee_synthesis_fallback self);
  C.vec_field_fallback_per_harness := ph (U.vec_field_fallback_per_harness self);
  C.pointee_synthesis_fallback_per_harness := ph (U.pointee_synthesis_fallback_per_harness self);
  C.sound_approx_per_harness := sound;
  C.sound_approx_crate_totals := sum_sound_approx_categories sound;
  C.assert_untranslatable := c (U.assert_untranslatable self);
  C.heap_check_untranslatable := c (U.heap_check_untranslatable self);
  C.heap_check_unknown_layout := c (U.heap_check_unknown_layout self);
  C.iterator_unsoundness := c (U.iterator_unsoundness self);
  C.bigint_unsoundness := c (U.bigint_unsoundness self);
  C.iterator_unsoundness_per_harness := ph (U.iterator_unsoundness_per_harness self);
  C.bigint_unsoundness_per_harness := ph (U.bigint_unsoundness_per_harness self);
  C.harness_names := default ∅ (BMap.get name (U.harness_names_by_crate self));
|}.

(** ** What the counts of a crate are

    The registry [KaniMetadata::unsoundness] and the field-by-field extraction
    above read the same diagnostics.  [crate_spec] is the contract of
    [get_for_crate]: everything comes from the crate's own metadata. *)

(** A category's crate total and its per-harness counts, by the registry. *)
Definition spec_total (md : KaniMetadata) (cat : UnsoundnessCategory) : N :=
  from_option fst 0 (category_counts md cat).
Definition spec_per_harness (md : KaniMetadata) (cat : UnsoundnessCategory) : bmap N :=
  default [] (category_counts md cat ≫= snd).

Definition crate_spec (md : KaniMetadata) : C.CrateUnsoundnessCounts := {|
  C.constant_zero_fallback := spec_total md ConstantZeroFallback;
  C.internal_workaround := spec_total md InternalWorkaround;
  C.chc_fallback := spec_total md ChcFallback;
  C.type_sort_fallback := spec_total md TypeSortFallback;
  C.signedness_fallback := spec_total md SignednessFallback;
  C.unsupported_construct_fallback := spec_total md UnsupportedConstructFallback;
  C.unconstrained_assignment := spec_total md UnconstrainedAssignment;
  C.bmc_store_coercion_fallback := spec_total md BmcStoreCoercionFallback;
  C.store_dropped_transition := spec_total md StoreDroppedTransition;
  C.diverging_call_drop := spec_total md DivergingCallDrop;
  C.offset_provenance_unresolved := spec_total md OffsetProvenanceUnresolved;
  C.kani_mem_overapprox := spec_total md KaniMemOverapprox;
  C.inferable_predicate := spec_total md InferablePredicate;
  C.fp_bitvector_encoding := spec_total md FpBitvectorEncoding;
  C.rounding_assertion_bypass := spec_total md RoundingAssertionBypass;
  C.chc_fallback_per_harness := spec_per_harness md ChcFallback;
  C.signedness_fallback_per_harness := spec_per_harness md SignednessFallback;
  C.type_sort_fallback_per_harness := spec_per_harness md TypeSortFallback;
  C.constant_zero_per_harness := spec_per_harness md ConstantZeroFallback;
  C.internal_workaround_per_harness := spec_per_harness md InternalWorkaround;
  C.unsupported_construct_per_harness := spec_per_harness md UnsupportedConstructFallback;
  C.unconstrained_assignment_per_harness := spec_per_harness md UnconstrainedAssignment;
  C.bmc_store_coercion_per_harness := spec_per_harness md BmcStoreCoercionFallback;
  C.store_dropped_transition_per_harness := spec_per_harness md StoreDroppedTransition;
  C.diverging_call_drop_per_harness := spec_per_harness md DivergingCallDrop;
  C.offset_provenance_unresolved_per_harness := spec_per_harness md OffsetProvenanceUnresolved;
  C.kani_mem_overapprox_per_harness := spec_per_harness md KaniMemOverapprox;
  C.inferable_predicate_per_harness := spec_per_harness md InferablePredicate;
  C.fp_bitvector_encoding_per_harness := spec_per_harness md FpBitvectorEncoding;
  C.rounding_assertion_bypass_per_harness := spec_per_harness md RoundingAssertionBypass;
  C.vec_field_fallback := spec_total md VecFieldFallback;
  C.pointee_synthesis_fallback := spec_total md PointeeSynthesisFallback;
  C.vec_field_fallback_per_harness := spec_per_harness md VecFieldFallback;
  C.pointee_synthesis_fallback_per_harness := spec_per_harness md PointeeSynthesisFallback;
  C.sound_approx_per_harness := harness_cats md;
  C.sound_approx_crate_totals := sum_sound_approx_categories (harness_cats md);
  C.assert_untranslatable := spec_total md AssertUntranslatable;
  C.heap_check_untranslatable := spec_total md HeapCheckUntranslatable;
  C.heap_check_unknown_layout := spec_total md HeapCheckUnknownLayout;
  C.iterator_unsoundness := spec_total md IteratorUnsoundness;
  C.bigint_unsoundness := spec_total md BigIntUnsoundness;
  C.iterator_unsoundness_per_harness := spec_per_harness md IteratorUnsoundness;
  C.bigint_unsoundness_per_harness := spec_per_harness md BigIntUnsoundness;
  C.harness_names := list_to_set (map pretty_name (proof_harnesses md));
|}.

(** ** Lemmas *)

(** A positive total is the registry's record of the category. *)
Lemma unsoundness_total (md : KaniMetadata) (cat : UnsoundnessCategory) :
  rec_total_count <$> unsoundness md cat =
  if 0 <? spec_total md cat then Some (spec_total md cat) else None.
Proof.
  unfold unsoundness, spec_total.
  destruct (category_counts md cat) as [[t phs]|]; simpl; [|done].
  by destruct (0 <? t).
Qed.

Lemma diagnostic_per_harness_spec (md : KaniMetadata) (cat : UnsoundnessCategory) :
  diagnostic_per_harness md cat = category_counts md cat ≫= snd.
Proof.
  destruct cat; simpl; try reflexivity;
    match goal with |- context [option_fmap _ _ _ ?o] => destruct o; reflexivity | |- context [fmap _ ?o] => destruct o; reflexivity | |- ?g => idtac g end.
Qed.

Section Extraction.
Context (project : Project) (md : KaniMetadata).
Hypothesis unique : NoDup (map crate_name project).
Hypothesis Hmd : md ∈ project.

(** Extraction by crate name finds what the closure computes for the crate's
    own metadata. *)
Lemma get_collect_omap {A} (f : KaniMetadata -> option (string * A)) :
  (forall m kv, f m = Some kv -> kv.1 = crate_name m) ->
  BMap.get (crate_name md) (BMap.collect (omap f project)) = snd <$> f md.
Proof.
  intros Hf.
  assert (Hin : forall p : Project, forall k, k ∈ map fst (omap f p) -> k ∈ map crate_name p).
  { intros p k (kv & -> & (m & Hm & E)%list_elem_of_omap)%list_elem_of_fmap.
    apply list_elem_of_fmap. exists m. split; [by apply Hf|done]. }
  assert (ND : forall p : Project, NoDup (map crate_name p) -> NoDup (map fst (omap f p))).
  { induction p as [|m p IH]; cbn; [constructor|]. intros [H1 H2]%NoDup_cons.
    destruct (f m) as [kv|] eqn:E; [|by apply IH]. cbn. apply NoDup_cons.
    split; [|by apply IH]. intros H%Hin. by rewrite (Hf _ _ E) in H. }
  destruct (f md) as [[k v]|] eqn:E; simpl.
  - rewrite <- (Hf _ _ E). simpl. apply BMap.get_collect; [by apply ND|].
    apply list_elem_of_omap. eauto.
  - apply BMap.get_collect_None.
    intros (kv & Ek & (m & Hm & Em)%list_elem_of_omap)%list_elem_of_fmap.
    assert (m = md) as ->; [|congruence].
    rewrite (Hf _ _ Em) in Ek. clear -unique Hmd Hm Ek.
    induction project as [|x p IH]; [set_solver|]. cbn in unique.
    apply NoDup_cons in unique as [N U].
    apply elem_of_cons in Hmd as [->|Hmd]; apply elem_of_cons in Hm as [->|Hm];
      [done| | |by apply IH]; destruct N; apply list_elem_of_fmap; eauto.
Qed.

Lemma diagnostic_count_spec (cat : UnsoundnessCategory) :
  default 0 (BMap.get (crate_name md) (diagnostic_count_by_crate project cat)) =
  spec_total md cat.
Proof.
  unfold diagnostic_count_by_crate. rewrite get_collect_omap.
  - pose proof (unsoundness_total md cat) as H.
    destruct (unsoundness md cat) as [r|]; simpl in *;
      destruct (N.ltb_spec 0 (spec_total md cat)); simplify_eq; simpl; [|lia].
    destruct (N.ltb_spec 0 (rec_total_count r)); simpl; lia.
  - intros m kv. destruct (unsoundness m cat) as [r|]; simpl; [|done].
    destruct (0 <? rec_total_count r); [|done]. by intros [= <-].
Qed.

Lemma nonempty_entry_fst (m : KaniMetadata) (x : bmap N) kv :
  nonempty_entry m x = Some kv -> kv.1 = crate_name m.
Proof. destruct x; [done|]. by intros [= <-]. Qed.

Lemma nonempty_entry_get (x : bmap N) : default [] (snd <$> nonempty_entry md x) = x.
Proof. by destruct x. Qed.

Lemma per_harness_by_crate_get {A} (field : KaniMetadata -> option A) (phs : A -> bmap N) :
  default [] (BMap.get (crate_name md) (per_harness_by_crate field phs project)) =
  from_option phs [] (field md).
Proof.
  unfold per_harness_by_crate. rewrite get_collect_omap.
  - destruct (field md); simpl; [by rewrite nonempty_entry_get|done].
  - intros m kv. destruct (field m); simpl; [apply nonempty_entry_fst|done].
Qed.

Lemma diagnostic_per_harness_get (cat : UnsoundnessCategory) :
  default [] (BMap.get (crate_name md) (diagnostic_per_harness_by_crate project cat)) =
  spec_per_harness md cat.
Proof.
  unfold diagnostic_per_harness_by_crate. rewrite get_collect_omap.
  - rewrite diagnostic_per_harness_spec. unfold spec_per_harness.
    destruct (category_counts md cat ≫= snd); simpl; [by rewrite nonempty_entry_get|done].
  - intros m kv. destruct (diagnostic_per_harness m cat); simpl; [apply nonempty_entry_fst|done].
Qed.

Lemma count_by_crate_get {A} (field : KaniMetadata -> option A) (cnt : A -> N) :
  default 0 (BMap.get (crate_name md) (count_by_crate field cnt project)) =
  from_option cnt 0 (field md).
Proof.
  unfold count_by_crate. rewrite get_collect_omap.
  - destruct (N.ltb_spec 0 (from_option cnt 0 (field md))); simpl; [done|lia].
  - intros m kv. case_match; [|done]. by intros [= <-].
Qed.

Lemma sound_get :
  default [] (BMap.get (crate_name md) (sound_approximation_per_harness_by_crate project)) =
  harness_cats md.
Proof.
  assert (E : sound_approximation_per_harness_by_crate project =
    BMap.collect (omap (fun m => match harness_cats m with
                                 | [] => None
                                 | cats => Some (crate_name m, cats)
                                 end) project)).
  { unfold sound_approximation_per_harness_by_crate, BMap.collect.
    generalize ([] : SoundApproxPerHarnessMap). clear unique Hmd.
    induction project as [|m p IH]; intros r; [done|].
    cbn [omap list_omap foldl]. destruct (harness_cats m); cbn [foldl fst snd]; apply IH. }
  rewrite E, get_collect_omap.
  - by destruct (harness_cats md).
  - intros m kv. destruct (harness_cats m); [done|]. by intros [= <-].
Qed.

Lemma harness_names_get :
  BMap.get (crate_name md) (U.harness_names_by_crate (from_project project)) =
  Some (list_to_set (map pretty_name (proof_harnesses md))).
Proof.
  apply BMap.get_collect.
  - by rewrite map_map.
  - apply list_elem_of_fmap. by exists md.
Qed.

End Extraction.

Lemma demoted_in_list (c : UnsoundnessCategory) : c ∈ DEMOTED_CATEGORIES <-> class c = Demoted.
Proof.
  split; intros H; [|destruct c; first [discriminate H | decide_now]].
  pose proof (bool_decide_eq_true_2 _ H) as E. clear H.
  destruct c; first [reflexivity | vm_compute in E; discriminate E].
Qed.

Lemma get_for_crate_crate_spec (project : Project) (md : KaniMetadata) :
  NoDup (map crate_name project) -> md ∈ project ->
  get_for_crate (from_project project) (crate_name md) = crate_spec md.
Proof.
  intros unique Hmd.
  unfold get_for_crate, crate_spec.
  rewrite (harness_names_get project md unique Hmd). unfold from_project; cbn [
    U.sound_approx_per_harness].
  rewrite (sound_get project md unique Hmd).
  f_equal;
    first [ exact (diagnostic_count_spec project md unique Hmd _)
          | exact (diagnostic_per_harness_get project md unique Hmd _)
          | etransitivity; [exact (count_by_crate_get project md unique Hmd _ _)|];
            unfold spec_total; simpl; by destruct (_ md)
          | etransitivity; [exact (per_harness_by_crate_get project md unique Hmd _ _)|];
            unfold spec_per_harness; simpl; by destruct (_ md)
          | reflexivity ].
Qed.

(** ** Properties *)

(** The three category lists of the driver partition the registry: together
    they hold every category exactly once, and each list holds exactly the
    categories whose [class()] is its own.  The assertion the source makes at
    compile time only compares the lengths. *)
Theorem category_lists_partition :
  DEMOTED_CATEGORIES ++ FAIL_CLOSED_CATEGORIES ++ SOUND_APPROXIMATION_CATEGORIES
    ≡ₚ all_categories /\
  forall c,
    (c ∈ DEMOTED_CATEGORIES <-> class c = Demoted) /\
    (c ∈ FAIL_CLOSED_CATEGORIES <-> class c = FailClosed) /\
    (c ∈ SOUND_APPROXIMATION_CATEGORIES <-> class c = SoundApproximation).
Proof.
  split.
  - apply NoDup_Permutation.
    + by decide_now.
    + apply all_categories_nodup.
    + intros c. split; intros _; [apply all_categories_complete|].
      by destruct c; decide_now.
  - intros c. repeat split; intros H;
      first [ destruct c; first [discriminate H | decide_now]
            | eapply bool_decide_eq_true_2 in H;
              destruct c; first [reflexivity | vm_compute in H; discriminate H] ].
Qed.

(** when the crate names of the project are distinct, the counts the driver
    computes for a crate are those of that crate's own metadata, field by
    field: the hand-written extraction functions, the registry-driven ones and
    the crate-name indirection through the maps together read the registry. *)
Theorem get_for_crate_refines (project : Project) (md : KaniMetadata)
    (unique : NoDup (map crate_name project)) (Hmd : md ∈ project) :
  get_for_crate (from_project project) (crate_name md) = crate_spec md.
Proof. by apply get_for_crate_crate_spec. Qed.

End Counts.
