(* ===== verification/Coverage.v ===== *)
(** * Coverage results

    Models [trust-mc-driver/src/coverage/cov_results.rs]: the coverage checks a
    run collects per file and the report printed after the verdict. *)

From S2P Require Import Prelude PropertyModel.

Module Coverage.
Import PropertyModel.

(** [enum CoverageTerm] *)
Inductive CoverageTerm := Counter (n : N).

(** [struct CoverageRegion] *)
Record CoverageRegion := {
  region_file : string;
  region_start : N * N;
  region_end : N * N;
}.

(** [struct CoverageCheck] *)
Record CoverageCheck := {
  cov_function : string;
  term : CoverageTerm;
  region : CoverageRegion;
  cov_status : CheckStatus;
}.

(** [struct CoverageResults] *)
Record CoverageResults := { cov_data : bmap (list CoverageCheck) }.

(** [CoverageResults::empty] *)
Definition empty : CoverageResults := {| cov_data := [] |}.

(** [CoverageCheck::counter] *)
Definition counter (f : string) (n : N) (r : CoverageRegion) (s : CheckStatus) : CoverageCheck :=
  {| cov_function := f; term := Counter n; region := r; cov_status := s |}.

(** [impl Display for CoverageRegion] *)
Definition CoverageRegion_fmt (r : CoverageRegion) : string :=
  pretty (region_start r).1 +:+ ":" +:+ pretty (region_start r).2 +:+ " - " +:+
  pretty (region_end r).1 +:+ ":" +:+ pretty (region_end r).2.

(** [a.region.start.cmp(&b.region.start)]: is [a] at or before [b]? *)
Definition start_le (a b : CoverageCheck) : Prop :=
  ((region_start (region a)).1 < (region_start (region b)).1)%N \/
  ((region_start (region a)).1 = (region_start (region b)).1 /\
   ((region_start (region a)).2 <= (region_start (region b)).2)%N).

#[export] Instance start_le_dec : RelDecision start_le.
Proof. intros a b. unfold start_le. apply _. Defined.

(** [sorted_checks.sort_by(...)], a stable sort. *)
Fixpoint insert_check (c : CoverageCheck) (l : list CoverageCheck) : list CoverageCheck :=
  match l with
  | [] => [c]
  | d :: l' => if decide (start_le c d) then c :: l else d :: insert_check c l'
  end.
Definition sort_checks (l : list CoverageCheck) : list CoverageCheck := foldr insert_check [] l.

(** [checks_by_function]: the checks of a file under their functions, in order. *)
Definition by_function (checks : list CoverageCheck) : bmap (list CoverageCheck) :=
  foldl (fun m c => BMap.upd (cov_function c) (fun o => default [] o ++ [c]) m) [] checks.

Definition line_feed : string := String nl EmptyString.

Definition check_line (c : CoverageCheck) : string :=
  " * " +:+ CoverageRegion_fmt (region c) +:+ " " +:+ CheckStatus_fmt (cov_status c) +:+ line_feed.

(** [impl Display for CoverageResults] *)
Definition CoverageResults_fmt (r : CoverageResults) : string :=
  Str.join "" (map (fun fc =>
    Str.join "" (map (fun gc =>
      fc.1 +:+ " (" +:+ gc.1 +:+ ")" +:+ line_feed +:+
      Str.join "" (map check_line (sort_checks gc.2)) +:+ line_feed)
      (by_function fc.2))) (cov_data r)).

(** ** Lemmas *)

Lemma insert_check_perm (c : CoverageCheck) (l : list CoverageCheck) : insert_check c l ≡ₚ c :: l.
Proof.
  induction l as [|d l IH]; cbn; [done|]. case_decide; [done|].
  rewrite IH. by rewrite (Permutation_swap c d).
Qed.

Lemma start_le_total (a b : CoverageCheck) : start_le a b \/ start_le b a.
Proof. unfold start_le. lia. Qed.

Lemma start_le_trans : Transitive start_le.
Proof. intros a b c. unfold start_le. lia. Qed.

Lemma insert_check_sorted (c : CoverageCheck) (l : list CoverageCheck) :
  StronglySorted start_le l -> StronglySorted start_le (insert_check c l).
Proof.
  induction l as [|d l IH]; cbn; [repeat constructor|].
  intros [S F]%StronglySorted_inv. case_decide as D.
  - constructor; [by constructor|]. constructor; [done|].
    eapply Forall_impl; [exact F|]. intros x. by apply start_le_trans.
  - constructor; [by apply IH|]. rewrite insert_check_perm. constructor; [|done].
    by destruct (start_le_total c d).
Qed.

(** The rows of a function are its checks, in order of their first position. *)
Lemma sort_checks_correct (l : list CoverageCheck) :
  sort_checks l ≡ₚ l /\ StronglySorted start_le (sort_checks l).
Proof.
  induction l as [|c l [IHp IHs]]; cbn; [split; [done|constructor]|].
  split; [by rewrite insert_check_perm, IHp|by apply insert_check_sorted].
Qed.

(** Grouping by function keeps every check, under its own function. *)
Lemma by_function_wf (l : list CoverageCheck) : BMap.wf (by_function l).
Proof.
  unfold by_function. generalize (BMap.wf_nil (A:=list CoverageCheck)).
  generalize ([] : bmap (list CoverageCheck)).
  induction l as [|c l IH]; intros m Hm; cbn; [done|]. by apply IH, BMap.upd_wf.
Qed.

Lemma by_function_get (l : list CoverageCheck) (f : string) :
  default [] (BMap.get f (by_function l)) = List.filter (fun c => String.eqb f (cov_function c)) l.
Proof.
  unfold by_function.
  assert (H : forall m, BMap.wf m ->
    default [] (BMap.get f (foldl (fun m c =>
      BMap.upd (cov_function c) (fun o => default [] o ++ [c]) m) m l)) =
    default [] (BMap.get f m) ++ List.filter (fun c => String.eqb f (cov_function c)) l).
  { induction l as [|c l IH]; intros m Hm; [by rewrite app_nil_r|].
    cbn [foldl List.filter]. rewrite IH by (by apply BMap.upd_wf).
    rewrite BMap.get_upd by done.
    destruct (String.eqb_spec f (cov_function c)) as [->|]; [|done].
    cbn. by rewrite <- app_assoc. }
  rewrite H by apply BMap.wf_nil. done.
Qed.

End Coverage.
