(* ===== verification/VerificationResult.v ===== *)
(** * Verification results and the console verdict

    Models [verification_result.rs], [verification_result_format_helpers.rs],
    [verification_result_proof_crosscheck.rs] and [verification_provenance.rs]
    of the driver: the result of one harness, the pure predicates on its
    property table, and the text the console prints.  Terminal colours are left
    out; a panic of [assert!] is [None]. *)

From S2P Require Import Prelude PropertyModel Coverage.

Module VerificationResult.
Import PropertyModel Coverage.

(** ** verification_provenance.rs *)

(** [enum SolverUnknownReason] *)
Inductive SolverUnknownReason :=
  | Timeout
  | PreSolveDeadline
  | UndecidedModel
  | ChcParseError
  | SmtParseError
  | Memout
  | FalseProofRejected
  | SolverError.

#[export] Instance SolverUnknownReason_eq_dec : EqDecision SolverUnknownReason.
Proof. solve_decision. Defined.

(** [SolverUnknownReason::label] *)
Definition SolverUnknownReason_label (r : SolverUnknownReason) : string :=
  match r with
  | Timeout => "Timeout"
  | PreSolveDeadline => "PreSolveDeadline"
  | UndecidedModel => "UndecidedModel"
  | ChcParseError => "ChcParseError"
  | SmtParseError => "SmtParseError"
  | Memout => "Memout"
  | FalseProofRejected => "FalseProofRejected"
  | SolverError => "SolverError"
  end.

(** [SolverUnknownReason::from_chc_error], on the error's text. *)
Definition from_chc_error (text : string) : SolverUnknownReason :=
  if Str.contains text "deadline exhausted before pre-solve phase" then PreSolveDeadline
  else if Str.contains text "Failed to parse CHC problem" || Str.contains text "parse error:"
  then ChcParseError
  else if Str.contains text "false proof detected" then FalseProofRejected
  else if Str.contains text "exceeded guard timeout" then Timeout
  else SolverError.

(** ** verification_result.rs: the data *)

(** [enum VerificationStatus] *)
Inductive VerificationStatus := VSuccess | VFailure.

#[export] Instance VerificationStatus_eq_dec : EqDecision VerificationStatus.
Proof. solve_decision. Defined.

(** [enum FailedProperties] *)
Inductive FailedProperties := FNone | PanicsOnly | Other.

#[export] Instance FailedProperties_eq_dec : EqDecision FailedProperties.
Proof. solve_decision. Defined.

(** [enum LogicTier] *)
Inductive LogicTier := TierA | TierB.

(** [enum ValidationStatus] *)
Inductive ValidationStatus := Validated | Unvalidated.

#[export] Instance ValidationStatus_eq_dec : EqDecision ValidationStatus.
Proof. solve_decision. Defined.

(** [LogicTier::validation_status] *)
Definition validation_status_of (t : LogicTier) : ValidationStatus :=
  match t with TierA => Validated | TierB => Unvalidated end.

(** [enum CtrexCategory] *)
Inductive CtrexCategory :=
  | EncodingGap (categories : list string)
  | OverApproximation (categories : list string)
  | Genuine
  | CUnknown.

#[export] Instance CtrexCategory_eq_dec : EqDecision CtrexCategory.
Proof. solve_decision. Defined.

(** [CtrexCategory::label] *)
Definition CtrexCategory_label (c : CtrexCategory) : string :=
  match c with
  | EncodingGap _ => "EncodingGap"
  | OverApproximation _ => "OverApproximation"
  | Genuine => "Genuine"
  | CUnknown => "Unknown"
  end.

(** [enum UnknownQuality] *)
Inductive UnknownQuality :=
  | QClean
  | QEncodingGap (reasons : list string)
  | QOverApproximation (reasons : list string)
  | QMixed (reasons : list string).

(** [UnknownQuality::label] *)
Definition UnknownQuality_label (q : UnknownQuality) : string :=
  match q with
  | QClean => "Clean"
  | QEncodingGap _ => "EncodingGap"
  | QOverApproximation _ => "OverApproximation"
  | QMixed _ => "Mixed"
  end.

(** [UnknownQuality::details] *)
Definition UnknownQuality_details (q : UnknownQuality) : option string :=
  match q with
  | QClean => None
  | QEncodingGap reasons | QOverApproximation reasons | QMixed reasons =>
      match reasons with [] => None | _ => Some (Str.join "," reasons) end
  end.

(** [enum ProofCrosscheck] *)
Inductive ProofCrosscheck := NotRun.

(** [ProofCrosscheck::label] *)
Definition ProofCrosscheck_label (p : ProofCrosscheck) : option string :=
  match p with NotRun => None end.

(** [enum HarnessFeasibility] *)
Inductive HarnessFeasibility := FUndetermined | Reachable | Infeasible.

#[export] Instance HarnessFeasibility_eq_dec : EqDecision HarnessFeasibility.
Proof. solve_decision. Defined.

(** [enum VacuityShape] *)
Inductive VacuityShape := NotVacuous | UnsatAssumption | DeadChecks.

#[export] Instance VacuityShape_eq_dec : EqDecision VacuityShape.
Proof. solve_decision. Defined.

(** [struct VerificationResult], less the proof transcript and the native
    verdict, which no decision modelled here reads. *)
Record VerificationResult := {
  r_status : VerificationStatus;
  failed_properties : FailedProperties;
  results : list Property;
  runtime : N;
  generated_concrete_test : bool;
  coverage_results : option CoverageResults;
  logic_tier : LogicTier;
  validation_status : ValidationStatus;
  demotion_reasons : list string;
  ctrex_category : option CtrexCategory;
  unknown_quality : option UnknownQuality;
  solver_unknown_reason : option SolverUnknownReason;
  kani_mem_overapprox_count : N;
  sound_fallback_count : N;
  proof_crosscheck : ProofCrosscheck;
  proof_qualifiers : list string;
  harness_feasibility : HarnessFeasibility;
}.

(** Assignments to the fields of a result, one per field the driver writes. *)
Definition set_verdict (s : VerificationStatus) (f : FailedProperties) (r : VerificationResult) :=
  {| r_status := s; failed_properties := f; results := results r; runtime := runtime r;
     generated_concrete_test := generated_concrete_test r; coverage_results := coverage_results r;
     logic_tier := logic_tier r; validation_status := validation_status r;
     demotion_reasons := demotion_reasons r; ctrex_category := ctrex_category r;
     unknown_quality := unknown_quality r; solver_unknown_reason := solver_unknown_reason r;
     kani_mem_overapprox_count := kani_mem_overapprox_count r;
     sound_fallback_count := sound_fallback_count r; proof_crosscheck := proof_crosscheck r;
     proof_qualifiers := proof_qualifiers r; harness_feasibility := harness_feasibility r |}.
Definition set_demotion_reasons (d : list string) (r : VerificationResult) :=
  {| r_status := r_status r; failed_properties := failed_properties r; results := results r;
     runtime := runtime r; generated_concrete_test := generated_concrete_test r;
     coverage_results := coverage_results r; logic_tier := logic_tier r;
     validation_status := validation_status r; demotion_reasons := d;
     ctrex_category := ctrex_category r; unknown_quality := unknown_quality r;
     solver_unknown_reason := solver_unknown_reason r;
     kani_mem_overapprox_count := kani_mem_overapprox_count r;
     sound_fallback_count := sound_fallback_count r; proof_crosscheck := proof_crosscheck r;
     proof_qualifiers := proof_qualifiers r; harness_feasibility := harness_feasibility r |}.
Definition set_ctrex_category (c : option CtrexCategory) (r : VerificationResult) :=
  {| r_status := r_status r; failed_properties := failed_properties r; results := results r;
     runtime := runtime r; generated_concrete_test := generated_concrete_test r;
     coverage_results := coverage_results r; logic_tier := logic_tier r;
     validation_status := validation_status r; demotion_reasons := demotion_reasons r;
     ctrex_category := c; unknown_quality := unknown_quality r;
     solver_unknown_reason := solver_unknown_reason r;
     kani_mem_overapprox_count := kani_mem_overapprox_count r;
     sound_fallback_count := sound_fallback_count r; proof_crosscheck := proof_crosscheck r;
     proof_qualifiers := proof_qualifiers r; harness_feasibility := harness_feasibility r |}.
Definition set_unknown_quality (q : option UnknownQuality) (r : VerificationResult) :=
  {| r_status := r_status r; failed_properties := failed_properties r; results := results r;
     runtime := runtime r; generated_concrete_test := generated_concrete_test r;
     coverage_results := coverage_results r; logic_tier := logic_tier r;
     validation_status := validation_status r; demotion_reasons := demotion_reasons r;
     ctrex_category := ctrex_category r; unknown_quality := q;
     solver_unknown_reason := solver_unknown_reason r;
     kani_mem_overapprox_count := kani_mem_overapprox_count r;
     sound_fallback_count := sound_fallback_count r; proof_crosscheck := proof_crosscheck r;
     proof_qualifiers := proof_qualifiers r; harness_feasibility := harness_feasibility r |}.
Definition set_kani_mem_overapprox_count (n : N) (r : VerificationResult) :=
  {| r_status := r_status r; failed_properties := failed_properties r; results := results r;
     runtime := runtime r; generated_concrete_test := generated_concrete_test r;
     coverage_results := coverage_results r; logic_tier := logic_tier r;
     validation_status := validation_status r; demotion_reasons := demotion_reasons r;
     ctrex_category := ctrex_category r; unknown_quality := unknown_quality r;
     solver_unknown_reason := solver_unknown_reason r; kani_mem_overapprox_count := n;
     sound_fallback_count := sound_fallback_count r; proof_crosscheck := proof_crosscheck r;
     proof_qualifiers := proof_qualifiers r; harness_feasibility := harness_feasibility r |}.
Definition set_sound_fallback_count (n : N) (r : VerificationResult) :=
  {| r_status := r_status r; failed_properties := failed_properties r; results := results r;
     runtime := runtime r; generated_concrete_test := generated_concrete_test r;
     coverage_results := coverage_results r; logic_tier := logic_tier r;
     validation_status := validation_status r; demotion_reasons := demotion_reasons r;
     ctrex_category := ctrex_category r; unknown_quality := unknown_quality r;
     solver_unknown_reason := solver_unknown_reason r;
     kani_mem_overapprox_count := kani_mem_overapprox_count r; sound_fallback_count := n;
     proof_crosscheck := proof_crosscheck r; proof_qualifiers := proof_qualifiers r;
     harness_feasibility := harness_feasibility r |}.
Definition set_results (ps : list Property) (r : VerificationResult) :=
  {| r_status := r_status r; failed_properties := failed_properties r; results := ps;
     runtime := runtime r; generated_concrete_test := generated_concrete_test r;
     coverage_results := coverage_results r; logic_tier := logic_tier r;
     validation_status := validation_status r; demotion_reasons := demotion_reasons r;
     ctrex_category := ctrex_category r; unknown_quality := unknown_quality r;
     solver_unknown_reason := solver_unknown_reason r;
     kani_mem_overapprox_count := kani_mem_overapprox_count r;
     sound_fallback_count := sound_fallback_count r; proof_crosscheck := proof_crosscheck r;
     proof_qualifiers := proof_qualifiers r; harness_feasibility := harness_feasibility r |}.

(** [is_effective_manual_success] of demotion.rs *)
Definition is_effective_manual_success (s : VerificationStatus) (should_panic : bool)
    (f : FailedProperties) : bool :=
  if should_panic then bool_decide (f = PanicsOnly) else bool_decide (s = VSuccess).

(** ** The predicates on a property table *)

Definition is_coverage_row (p : Property) : bool :=
  bool_decide (status p = Covered) || bool_decide (status p = Uncovered).

(** [is_unsat_assumption_vacuous]: the loop's two counters. *)
Definition vacuity_counts (properties : list Property) : N * N :=
  foldl (fun acc p =>
    if is_cover_property p then acc
    else if is_coverage_row p then acc
    else (acc.1 + 1, if decide (status p = Unreachable) then acc.2 + 1 else acc.2))%N
    (0, 0)%N properties.
Definition is_unsat_assumption_vacuous (properties : list Property) : bool :=
  let '(checks, unreachable) := vacuity_counts properties in
  N.ltb 0 checks && N.eqb unreachable checks.

(** [classify_vacuity] *)
Definition classify_vacuity (properties : list Property) (feasibility : HarnessFeasibility)
    : VacuityShape :=
  if negb (is_unsat_assumption_vacuous properties) then NotVacuous
  else match feasibility with
       | Reachable => DeadChecks
       | Infeasible | FUndetermined => UnsatAssumption
       end.

(** [has_decided_check] *)
Definition has_decided_check (properties : list Property) : bool :=
  existsb (fun p => negb (is_cover_property p) &&
    match status p with Success | Failure | Unreachable => true | _ => false end) properties.

(** [has_unsatisfiable_cover] *)
Definition has_unsatisfiable_cover (properties : list Property) : bool :=
  existsb (fun p => is_cover_property p &&
    match status p with Unsatisfiable | Unreachable => true | _ => false end) properties.

(** [has_satisfied_cover] *)
Definition has_satisfied_cover (properties : list Property) : bool :=
  existsb (fun p => is_cover_property p && bool_decide (status p = Satisfied)) properties.

(** ** verification_result_format_helpers.rs *)

Definition UNSUPPORTED_CONSTRUCT_DESC : string := "is not currently supported by trust_mc".
Definition UNWINDING_ASSERT_DESC : string := "unwinding assertion loop".
Definition UNWINDING_ASSERT_REC_DESC : string := "recursion unwinding assertion".

(** A double quote, and a string between two of them. *)
Definition dq : string := String "034" EmptyString.
Definition quoted (s : string) : string := dq +:+ s +:+ dq.

(** [build_failure_message] *)
Definition build_failure_message (description : string) (tr : option (list TraceItem)) : string :=
  let backup := "Failed Checks: " +:+ description +:+ line_feed in
  match (items ← tr; item ← last items; trace_location item) with
  | Some l =>
      match file l, function l, line l with
      | Some f, Some g, Some n =>
          "Failed Checks: " +:+ description +:+ line_feed +:+ " File: " +:+ quoted f +:+
          ", line " +:+ n +:+ ", in " +:+ g +:+ line_feed
      | _, _, _ => backup
      end
  | None => backup
  end.

(** [has_check_failure] *)
Definition has_check_failure (properties : list Property) (d : string) : bool :=
  existsb (fun p => bool_decide (status p = Failure) && Str.contains (description p) d) properties.

(** [has_unwinding_assertion_failures] *)
Definition has_unwinding_assertion_failures (properties : list Property) : bool :=
  has_check_failure properties UNWINDING_ASSERT_DESC ||
  has_check_failure properties UNWINDING_ASSERT_REC_DESC.

(** ** format_result *)

(** The counters of the loop over the checks. *)
Record Counters := {
  number_checks_failed : N;
  number_checks_unreachable : N;
  number_checks_undetermined : N;
  failed_tests : list Property;
  number_covers_satisfied : N;
  number_covers_undetermined : N;
  number_covers_unreachable : N;
  number_covers_unsatisfiable : N;
}.

Definition no_counts : Counters := {|
  number_checks_failed := 0; number_checks_unreachable := 0; number_checks_undetermined := 0;
  failed_tests := []; number_covers_satisfied := 0; number_covers_undetermined := 0;
  number_covers_unreachable := 0; number_covers_unsatisfiable := 0 |}.

(** The counts a check adds, per kind of check. *)
Definition add_check (failed unreachable undetermined : N) (tests : list Property) (c : Counters)
    : Counters := {|
  number_checks_failed := number_checks_failed c + failed;
  number_checks_unreachable := number_checks_unreachable c + unreachable;
  number_checks_undetermined := number_checks_undetermined c + undetermined;
  failed_tests := failed_tests c ++ tests;
  number_covers_satisfied := number_covers_satisfied c;
  number_covers_undetermined := number_covers_undetermined c;
  number_covers_unreachable := number_covers_unreachable c;
  number_covers_unsatisfiable := number_covers_unsatisfiable c |}.
Definition add_cover (satisfied undetermined unreachable unsatisfiable : N) (c : Counters)
    : Counters := {|
  number_checks_failed := number_checks_failed c;
  number_checks_unreachable := number_checks_unreachable c;
  number_checks_undetermined := number_checks_undetermined c;
  failed_tests := failed_tests c;
  number_covers_satisfied := number_covers_satisfied c + satisfied;
  number_covers_undetermined := number_covers_undetermined c + undetermined;
  number_covers_unreachable := number_covers_unreachable c + unreachable;
  number_covers_unsatisfiable := number_covers_unsatisfiable c + unsatisfiable |}.

(** The [match status] of the loop; [assert!] panics. *)
Definition count_property (c : Counters) (p : Property) : option Counters :=
  match status p with
  | Failure => Some (add_check 1 0 0 [p] c)
  | Undetermined => Some (if is_cover_property p then add_cover 0 1 0 0 c else add_check 0 0 1 [] c)
  | Unreachable => Some (if is_cover_property p then add_cover 0 0 1 0 c else add_check 0 1 0 [] c)
  | Satisfied => if is_cover_property p then Some (add_cover 1 0 0 0 c) else None
  | Unsatisfiable => if is_cover_property p then Some (add_cover 0 0 0 1 c) else None
  | Success | Covered | Uncovered | Unknown => Some c
  end.

Fixpoint count_properties (c : Counters) (properties : list Property) : option Counters :=
  match properties with
  | [] => Some c
  | p :: ps => c' ← count_property c p; count_properties c' ps
  end.

Definition number_cover_properties (c : Counters) : N :=
  number_covers_satisfied c + number_covers_unreachable c +
  number_covers_unsatisfiable c + number_covers_undetermined c.

Definition number_properties (properties : list Property) (c : Counters) : N :=
  N.of_nat (length properties) - number_cover_properties c.

(** The parenthesised counts after a summary line. *)
Definition other_status (undetermined unreachable : N) : string :=
  let parts :=
    (if N.ltb 0 undetermined then [pretty undetermined +:+ " undetermined"] else []) ++
    (if N.ltb 0 unreachable then [pretty unreachable +:+ " unreachable"] else []) in
  match parts with
  | [] => ""
  | _ => " (" +:+ Str.join "," parts +:+ ")"
  end.

(** The verdict line's text: the [if] chain of [format_result]. *)
Definition verdict_text (properties : list Property) (c : Counters)
    (st : VerificationStatus) (should_panic : bool) (failed : FailedProperties)
    (vs : ValidationStatus) (reason : option SolverUnknownReason)
    (feasibility : HarnessFeasibility) : string :=
  let effective_success := is_effective_manual_success st should_panic failed in
  if effective_success && bool_decide (vs = Unvalidated) then "SUCCESSFUL (UNVALIDATED)"
  else if effective_success then "SUCCESSFUL"
  else if negb should_panic &&
          bool_decide (classify_vacuity properties feasibility = UnsatAssumption) then
    "VACUOUS (proof discharged under unsatisfiable assumptions — nothing verified)"
  else if negb should_panic &&
          bool_decide (classify_vacuity properties feasibility = DeadChecks) then
    "INCONCLUSIVE (every check is unreachable — dead code, nothing exercised)"
  else if negb (has_decided_check properties) && bool_decide (reason = Some SmtParseError) then
    "INCONCLUSIVE (solver rejected the emitted query as ill-formed — encoder defect; see [AY:SMT_REJECTED])"
  else if negb (has_decided_check properties) && bool_decide (reason = Some Memout) then
    "INCONCLUSIVE (solver ran out of memory — bounded query too large; try a smaller unwind bound or --ay-chc)"
  else if negb (has_decided_check properties) &&
          (bool_decide (reason = Some UndecidedModel) || bool_decide (reason = Some Timeout)) then
    "INCONCLUSIVE (solver undecided — try --ay-chc for unbounded proofs)"
  else if N.eqb (number_properties properties c) 0 then "INCONCLUSIVE (no checks)"
  else if bool_decide (vs = Unvalidated) then "UNVALIDATED (DT+BV)"
  else "FAILED".

Definition should_panic_info (should_panic : bool) (failed : FailedProperties) : string :=
  if should_panic then
    match failed with
    | FNone => " (encountered no panics, but at least one was expected)"
    | PanicsOnly => " (encountered one or more panics as expected)"
    | Other => " (encountered failures other than panics, which were unexpected)"
    end
  else "".

(** [effective_success_reason] *)
Definition effective_success_reason (st : VerificationStatus) (should_panic : bool)
    (failed : FailedProperties) : option string :=
  if negb (bool_decide (st = VSuccess)) && should_panic && bool_decide (failed = PanicsOnly)
  then Some "should_panic_panics_only" else None.

Section Format.

(** [Display] of a source location, and whether the marker variable is set in
    the environment. *)
Context (fmt_location : RawSourceLocation -> string) (marker_env : bool).

Definition tab : string := String "009" EmptyString.

(** The lines of one check, when the checks are shown. *)
Definition check_lines (index : N) (p : Property) : string :=
  "Check " +:+ pretty index +:+ ": " +:+ property_name p +:+ line_feed +:+
  tab +:+ " - Status: " +:+ CheckStatus_fmt (status p) +:+ line_feed +:+
  tab +:+ " - Description: " +:+ quoted (description p) +:+ line_feed +:+
  (if is_missing (source_location p) then ""
   else tab +:+ " - Location: " +:+ fmt_location (source_location p) +:+ line_feed) +:+
  line_feed.

Fixpoint checks_text (index : N) (properties : list Property) : string :=
  match properties with
  | [] => ""
  | p :: ps => check_lines index p +:+ checks_text (index + 1) ps
  end.

(** [format_result] *)
Definition format_result (properties : list Property) (st : VerificationStatus)
    (should_panic : bool) (failed : FailedProperties) (show_checks : bool)
    (vs : ValidationStatus) (reason : option SolverUnknownReason)
    (feasibility : HarnessFeasibility) : option string :=
  c ← count_properties no_counts properties;
  Some (
    (if show_checks then line_feed +:+ "RESULTS:" +:+ line_feed +:+ checks_text 1 properties +:+
                         line_feed +:+ "SUMMARY:"
     else line_feed +:+ "VERIFICATION RESULT:") +:+
    line_feed +:+ " ** " +:+ pretty (number_checks_failed c) +:+ " of " +:+
    pretty (number_properties properties c) +:+ " failed" +:+
    other_status (number_checks_undetermined c) (number_checks_unreachable c) +:+ line_feed +:+
    (if N.ltb 0 (number_cover_properties c) then
       line_feed +:+ " ** " +:+ pretty (number_covers_satisfied c) +:+ " of " +:+
       pretty (number_cover_properties c) +:+ " cover properties satisfied" +:+
       other_status (number_covers_undetermined c) (number_covers_unreachable c) +:+
       line_feed +:+ line_feed
     else "") +:+
    Str.join "" (map (fun p => build_failure_message (description p) (trace p)) (failed_tests c)) +:+
    line_feed +:+ "VERIFICATION:- " +:+
    verdict_text properties c st should_panic failed vs reason feasibility +:+
    should_panic_info should_panic failed +:+ line_feed +:+
    (match effective_success_reason st should_panic failed with
     | Some why => if marker_env then "[AY:EFFECTIVE_SUCCESS:" +:+ why +:+ "]" +:+ line_feed else ""
     | None => ""
     end) +:+
    (if has_check_failure properties UNSUPPORTED_CONSTRUCT_DESC then
       "** WARNING: A Rust construct that is not currently supported by trust-mc was found to be reachable. Check the results for more details." +:+ line_feed
     else "") +:+
    (if has_unwinding_assertion_failures properties then
       "[trust_mc] info: Verification output shows one or more unwinding failures." +:+ line_feed +:+
       "[trust_mc] tip: Consider increasing the unwinding value or disabling `--unwinding-assertions`." +:+ line_feed
     else "")).

(** [format_coverage] *)
Definition format_coverage (properties : list Property) (cov : CoverageResults)
    (st : VerificationStatus) (should_panic : bool) (failed : FailedProperties)
    (show_checks : bool) (vs : ValidationStatus) (reason : option SolverUnknownReason)
    (feasibility : HarnessFeasibility) : option string :=
  let non_coverage_checks :=
    List.filter (fun p => negb (String.eqb (property_class p) "code_coverage")) properties in
  out ← format_result non_coverage_checks st should_panic failed show_checks vs reason feasibility;
  Some (out +:+ line_feed +:+ "Source-based code coverage results:" +:+ line_feed +:+ line_feed +:+
        CoverageResults_fmt cov).

(** [enum OutputFormat] of the command line. *)
Inductive OutputFormat := Regular | Terse | Old.

(** The one-line listing of [--output-format old]. *)
Definition old_listing (properties : list Property) : string :=
  Str.join "" (map (fun p =>
    "[" +:+ property_name p +:+ "] " +:+
    (match line (source_location p) with Some n => "line " +:+ n +:+ " " | None => "" end) +:+
    description p +:+ ": " +:+ CheckStatus_fmt (status p) +:+ line_feed) properties).

(** [VerificationResult::render]; [secs] prints the run time in seconds.  The
    [debug_assert!] of the debug build is left out. *)
Definition render (secs : N -> string) (r : VerificationResult) (fmt : OutputFormat)
    (should_panic : bool) : option string :=
  let show_checks := match fmt with Regular => true | _ => false end in
  body ← (match coverage_results r with
          | Some cov => format_coverage (results r) cov (r_status r) should_panic
                          (failed_properties r) show_checks (validation_status r)
                          (solver_unknown_reason r) (harness_feasibility r)
          | None => format_result (results r) (r_status r) should_panic (failed_properties r)
                      show_checks (validation_status r) (solver_unknown_reason r)
                      (harness_feasibility r)
          end);
  Some ((match fmt with Old => old_listing (results r) | _ => "" end) +:+ body +:+
    (if N.ltb 0 (sound_fallback_count r) && bool_decide (r_status r = VSuccess) then
       "** NOTE: PROOF with " +:+ pretty (sound_fallback_count r) +:+
       " sound fallback(s) — some constraints over-approximated" +:+ line_feed
     else "") +:+
    "Verification Time: " +:+ secs (runtime r) +:+ "s" +:+ line_feed).

End Format.

(** ** Lemmas on the predicates *)

(** A verification check: neither a cover property nor a coverage row. *)
Definition is_check (p : Property) : bool := negb (is_cover_property p) && negb (is_coverage_row p).

Lemma vacuity_counts_spec (ps : list Property) :
  vacuity_counts ps =
  (N.of_nat (length (List.filter is_check ps)),
   N.of_nat (length (List.filter (fun p => is_check p && bool_decide (status p = Unreachable)) ps))).
Proof.
  unfold vacuity_counts.
  enough (H : forall acc : N * N, foldl _ acc ps =
    (acc.1 + N.of_nat (length (List.filter is_check ps)),
     acc.2 + N.of_nat (length (List.filter
       (fun p => is_check p && bool_decide (status p = Unreachable)) ps)))%N)
    by (rewrite H; f_equal; simpl; lia).
  induction ps as [|p ps IH]; intros [a b]; cbn [foldl List.filter].
  - cbn. f_equal; lia.
  - rewrite IH. assert (is_check p = negb (is_cover_property p) && negb (is_coverage_row p)) as ->
      by done.
    destruct (is_cover_property p); [done|]. destruct (is_coverage_row p); [done|].
    cbn [negb andb]. case_decide; case_bool_decide; simplify_eq; cbn; f_equal; lia.
Qed.

Lemma is_unsat_assumption_vacuous_iff (ps : list Property) :
  is_unsat_assumption_vacuous ps = true <->
  (exists p, p ∈ ps /\ is_check p = true) /\
  forall p, p ∈ ps -> is_check p = true -> status p = Unreachable.
Proof.
  unfold is_unsat_assumption_vacuous. rewrite vacuity_counts_spec.
  rewrite andb_true_iff, N.ltb_lt, N.eqb_eq, Nat2N.inj_iff, filter_same_length.
  setoid_rewrite bool_decide_eq_true. apply and_iff_compat_r.
  destruct (List.filter is_check ps) as [|q qs] eqn:E.
  - rewrite filter_nil_iff in E. split; [cbn; lia|].
    intros (p & Hp & Hc). by rewrite E in Hc.
  - split; [intros _|cbn; lia]. exists q.
    assert (H : In q (List.filter is_check ps)) by (rewrite E; by left).
    apply filter_In in H as [H1 H2]. split; [by apply list_elem_of_In|done].
Qed.

(** A vacuous table has a decided check. *)
Lemma vacuous_decided (ps : list Property) :
  is_unsat_assumption_vacuous ps = true -> has_decided_check ps = true.
Proof.
  intros [(p & Hp & Hc) H]%is_unsat_assumption_vacuous_iff.
  apply existsb_elem. exists p. split; [done|]. rewrite (H p Hp Hc).
  unfold is_check in Hc. apply andb_true_iff in Hc as [-> _]. done.
Qed.

(** ** Lemmas on the counters *)

(** A cover property whose status the counters count as a cover. *)
Definition is_cover_row (p : Property) : bool :=
  is_cover_property p &&
  match status p with
  | Satisfied | Unsatisfiable | Undetermined | Unreachable => true
  | _ => false
  end.

Definition is_failure (p : Property) : bool :=
  match status p with Failure => true | _ => false end.

(** What [assert!] in the loop demands of a check. *)
Definition cover_status_ok (p : Property) : bool :=
  match status p with Satisfied | Unsatisfiable => is_cover_property p | _ => true end.

Lemma count_property_spec (c : Counters) (p : Property) :
  match count_property c p with
  | Some c' =>
      cover_status_ok p = true /\
      number_cover_properties c' = (number_cover_properties c + if is_cover_row p then 1 else 0)%N /\
      failed_tests c' = failed_tests c ++ (if is_failure p then [p] else []) /\
      number_checks_failed c' = (number_checks_failed c + if is_failure p then 1 else 0)%N
  | None => cover_status_ok p = false
  end.
Proof.
  unfold count_property, cover_status_ok, is_cover_row, is_failure, number_cover_properties.
  destruct (status p) eqn:E, (is_cover_property p); cbn;
    rewrite ?app_nil_r; repeat split; lia.
Qed.

(** The counters succeed exactly on tables where only covers carry a cover
    status; they count the covers and list the failures in order. *)
Lemma count_properties_spec (ps : list Property) (c : Counters) :
  match count_properties c ps with
  | Some c' =>
      forallb cover_status_ok ps = true /\
      number_cover_properties c' =
        (number_cover_properties c + N.of_nat (length (List.filter is_cover_row ps)))%N /\
      failed_tests c' = failed_tests c ++ List.filter is_failure ps /\
      number_checks_failed c' =
        (number_checks_failed c + N.of_nat (length (List.filter is_failure ps)))%N
  | None => forallb cover_status_ok ps = false
  end.
Proof.
  revert c. induction ps as [|p ps IH]; intros c; cbn [count_properties].
  - cbn. rewrite app_nil_r. repeat split; first [reflexivity | lia].
  - pose proof (count_property_spec c p) as H.
    destruct (count_property c p) as [c1|]; simpl; [|by rewrite H].
    destruct H as (H1 & H2 & H3 & H4). specialize (IH c1).
    destruct (count_properties c1 ps) as [c2|]; [|by rewrite H1].
    destruct IH as (I1 & I2 & I3 & I4). rewrite H1, I1, I2, H2, I3, H3, I4, H4.
    destruct (is_cover_row p), (is_failure p); cbn; rewrite <- ?app_assoc;
      repeat split; first [reflexivity | lia].
Qed.

Lemma count_properties_total (ps : list Property) :
  forallb cover_status_ok ps = true -> exists c, count_properties no_counts ps = Some c.
Proof.
  intros H. pose proof (count_properties_spec ps no_counts) as S.
  destruct (count_properties no_counts ps); [eauto|congruence].
Qed.

(** The number of checks of the summary line: the rows that are not covers. *)
Lemma number_properties_spec (ps : list Property) (c : Counters) :
  count_properties no_counts ps = Some c ->
  number_properties ps c = N.of_nat (length (List.filter (fun p => negb (is_cover_row p)) ps)).
Proof.
  intros H. pose proof (count_properties_spec ps no_counts) as S. rewrite H in S.
  destruct S as (_ & S & _). unfold number_properties. rewrite S. clear.
  change (number_cover_properties no_counts) with 0%N.
  assert (length ps = length (List.filter is_cover_row ps) +
    length (List.filter (fun p => negb (is_cover_row p)) ps)) as ->; [|lia].
  induction ps as [|p ps IH]; cbn; [done|]. destruct (is_cover_row p); cbn; lia.
Qed.

(** ** Properties *)

(** The vacuity gate.  [classify_vacuity] reports a shape exactly when the
    table has a verification check and all of them are unreachable; it blames
    the assumptions unless the solver decided that the harness runs. *)
Theorem classify_vacuity_spec (ps : list Property) (f : HarnessFeasibility) :
  let vacuous := (exists p, p ∈ ps /\ is_check p = true) /\
                 forall p, p ∈ ps -> is_check p = true -> status p = Unreachable in
  (classify_vacuity ps f = NotVacuous <-> ~ vacuous) /\
  (classify_vacuity ps f = DeadChecks <-> vacuous /\ f = Reachable) /\
  (classify_vacuity ps f = UnsatAssumption <-> vacuous /\ f <> Reachable).
Proof.
  cbv zeta. rewrite <- is_unsat_assumption_vacuous_iff. unfold classify_vacuity.
  destruct (is_unsat_assumption_vacuous ps), f; naive_solver.
Qed.

(** The console text is produced exactly for the tables where only cover
    properties carry a cover status (elsewhere the [assert!]s of the loop
    panic), whatever the verdict, and the rows it reports as failed checks are
    the failed rows in order. *)
Theorem format_result_total (fmt : RawSourceLocation -> string) (env : bool)
    (ps : list Property) (st : VerificationStatus) (sp : bool) (fp : FailedProperties)
    (show : bool) (vs : ValidationStatus) (why : option SolverUnknownReason)
    (f : HarnessFeasibility) :
  (is_Some (format_result fmt env ps st sp fp show vs why f) <->
   forall p, p ∈ ps -> status p = Satisfied \/ status p = Unsatisfiable ->
             is_cover_property p = true) /\
  forall c, count_properties no_counts ps = Some c ->
    failed_tests c = List.filter is_failure ps /\
    number_checks_failed c = N.of_nat (length (failed_tests c)).
Proof.
  pose proof (count_properties_spec ps no_counts) as S.
  assert (E : forallb cover_status_ok ps = true <->
    forall p, p ∈ ps -> status p = Satisfied \/ status p = Unsatisfiable ->
              is_cover_property p = true).
  { rewrite forallb_forall. unfold cover_status_ok. split; intros H p Hp.
    - apply list_elem_of_In in Hp. specialize (H p Hp). intros [Es|Es]; by rewrite Es in H.
    - apply list_elem_of_In in Hp. specialize (H p Hp).
      destruct (status p); naive_solver. }
  rewrite <- E. unfold format_result. destruct (count_properties no_counts ps) as [c|].
  - destruct S as (S1 & _ & S3 & S4). split; [by rewrite S1|].
    intros ? [= <-]. rewrite S4, S3. done.
  - rewrite S. split; [split; [by intros []|done]|done].
Qed.

(** ** Sample values *)

Module Sample.

Definition location : RawSourceLocation :=
  {| column := None; file := Some "src/lib.rs"; function := Some "app::h"; line := Some "3" |}.

(** A check of the given class with the given number and status. *)
Definition check (cls : string) (n : N) (s : CheckStatus) : Property :=
  {| description := "assertion"; property_id := {| fn_name := Some "app::h"; class := cls; id := n |};
     source_location := location; status := s; trace := None |}.

(** A solver result with the given verdict and property table. *)
Definition result (s : VerificationStatus) (f : FailedProperties) (ps : list Property)
    : VerificationResult :=
  {| r_status := s; failed_properties := f; results := ps; runtime := 0;
     generated_concrete_test := false; coverage_results := None; logic_tier := TierA;
     validation_status := Validated; demotion_reasons := []; ctrex_category := None;
     unknown_quality := None; solver_unknown_reason := None; kani_mem_overapprox_count := 0;
     sound_fallback_count := 0; proof_crosscheck := NotRun; proof_qualifiers := [];
     harness_feasibility := FUndetermined |}.

End Sample.

End VerificationResult.
