(* ===== verification/Demotion.v ===== *)
(** * Demotion of proofs by the unsoundness counts

    Models [trust-mc-driver/src/demotion.rs]: which entries of a per-harness
    map count against a harness, the counts of the demoting categories, and the
    two gates that turn a proof into a failure. *)

From S2P Require Import Prelude Metadata Counts PropertyModel Coverage VerificationResult.

Module Demotion.
Import Metadata Counts VerificationResult.
Local Open Scope N_scope.

(** [unique_harness_suffix_match] *)
Definition unique_harness_suffix_match (qualified suffix : string) : bool :=
  Nat.ltb (String.length suffix) (String.length qualified) &&
  match Str.strip_suffix qualified suffix with
  | Some prefix => Str.ends_with prefix "::"
  | None => false
  end.

(** [harness_names_match] *)
Definition harness_names_match (a b : string) : bool :=
  String.eqb a b || unique_harness_suffix_match a b || unique_harness_suffix_match b a.

(** The loop of [lookup_per_harness]: the longest suffix match so far with its
    length, and whether it is ambiguous. *)
Definition lookup_step {T} (harness_name : string) (acc : option (T * nat) * bool)
    (entry : string * T) : option (T * nat) * bool :=
  let suffix_len := Nat.min (String.length entry.1) (String.length harness_name) in
  match acc.1 with
  | None => (Some (entry.2, suffix_len), false)
  | Some (_, best_len) =>
      if Nat.ltb best_len suffix_len then (Some (entry.2, suffix_len), false)
      else if Nat.eqb suffix_len best_len then (acc.1, true)
      else acc
  end.

(** [lookup_per_harness] *)
Definition lookup_per_harness {T} (per_harness : bmap T) (harness_name : string) : option T :=
  match BMap.get harness_name per_harness with
  | Some value => Some value
  | None =>
      let '(best_match, best_is_ambiguous) :=
        foldl (lookup_step harness_name) (None, false)
          (List.filter (fun e => unique_harness_suffix_match e.1 harness_name
                                 || unique_harness_suffix_match harness_name e.1) per_harness) in
      if best_is_ambiguous then None else fst <$> best_match
  end.

(** [attributable_to_harness] *)
Definition attributable_to_harness (key harness_name : string) (harness_names : gset string)
    : bool :=
  harness_names_match key harness_name
  || negb (existsb (fun name => negb (String.eqb name harness_name) && harness_names_match key name)
             (elements harness_names)).

(** [resolve_per_harness_count] *)
Definition resolve_per_harness_count (crate_total : N) (per_harness : bmap N)
    (harness_name : string) : N :=
  match per_harness with
  | [] => crate_total
  | _ => default 0 (lookup_per_harness per_harness harness_name)
  end.

Definition sum (l : list N) : N := foldr N.add 0 l.

(** [resolve_per_harness_count_fail_closed] *)
Definition resolve_per_harness_count_fail_closed (crate_total : N) (per_harness : bmap N)
    (harness_name : string) (harness_names : gset string) : N :=
  match per_harness with
  | [] => crate_total
  | _ => sum (map snd (List.filter
           (fun e => attributable_to_harness e.1 harness_name harness_names) per_harness))
  end.

(** [resolve_demoting_categories] *)
Definition resolve_demoting_categories (harness : HarnessMetadata)
    (counts : C.CrateUnsoundnessCounts) : list (string * N) :=
  let resolve total phs :=
    resolve_per_harness_count_fail_closed total phs (pretty_name harness)
      (C.harness_names counts) in
  [(json_key ConstantZeroFallback,
    resolve (C.constant_zero_fallback counts) (C.constant_zero_per_harness counts));
   (json_key InternalWorkaround,
    resolve (C.internal_workaround counts) (C.internal_workaround_per_harness counts));
   (json_key ChcFallback,
    resolve (C.chc_fallback counts) (C.chc_fallback_per_harness counts));
   (json_key TypeSortFallback,
    resolve (C.type_sort_fallback counts) (C.type_sort_fallback_per_harness counts));
   (json_key SignednessFallback,
    resolve (C.signedness_fallback counts) (C.signedness_fallback_per_harness counts));
   (json_key UnsupportedConstructFallback,
    resolve (C.unsupported_construct_fallback counts)
      (C.unsupported_construct_per_harness counts));
   (json_key UnconstrainedAssignment,
    resolve (C.unconstrained_assignment counts) (C.unconstrained_assignment_per_harness counts));
   (json_key BmcStoreCoercionFallback,
    resolve (C.bmc_store_coercion_fallback counts) (C.bmc_store_coercion_per_harness counts));
   (json_key StoreDroppedTransition,
    resolve (C.store_dropped_transition counts) (C.store_dropped_transition_per_harness counts));
   (json_key DivergingCallDrop,
    resolve (C.diverging_call_drop counts) (C.diverging_call_drop_per_harness counts));
   (json_key OffsetProvenanceUnresolved,
    resolve (C.offset_provenance_unresolved counts)
      (C.offset_provenance_unresolved_per_harness counts));
   (json_key KaniMemOverapprox,
    resolve (C.kani_mem_overapprox counts) (C.kani_mem_overapprox_per_harness counts));
   (json_key InferablePredicate,
    resolve (C.inferable_predicate counts) (C.inferable_predicate_per_harness counts));
   (json_key FpBitvectorEncoding,
    resolve (C.fp_bitvector_encoding counts) (C.fp_bitvector_encoding_per_harness counts));
   (json_key RoundingAssertionBypass,
    resolve (C.rounding_assertion_bypass counts) (C.rounding_assertion_bypass_per_harness counts));
   (json_key VecFieldFallback,
    resolve (C.vec_field_fallback counts) (C.vec_field_fallback_per_harness counts));
   (json_key PointeeSynthesisFallback,
    resolve (C.pointee_synthesis_fallback counts)
      (C.pointee_synthesis_fallback_per_harness counts))].

(** [sound_approx_categories_fail_closed] *)
Definition sound_approx_categories_fail_closed (counts : C.CrateUnsoundnessCounts)
    (harness_name : string) : bmap N :=
  foldl (fun totals e =>
    if negb (attributable_to_harness e.1 harness_name (C.harness_names counts)) then totals
    else foldl add_total totals e.2) [] (C.sound_approx_per_harness counts).

(** [format!("{cat}={count}")] *)
Definition entry_text (e : string * N) : string := e.1 +:+ "=" +:+ pretty e.2.

(** [apply_sound_fallback_fail_close] *)
Definition apply_sound_fallback_fail_close (result : VerificationResult)
    (harness : HarnessMetadata) (counts : C.CrateUnsoundnessCounts) : VerificationResult :=
  let havoc_key := json_key ChcSoundHavocDrop in
  let approx := sound_approx_categories_fail_closed counts (pretty_name harness) in
  let kept := List.filter (fun e => negb (String.eqb e.1 havoc_key)) approx in
  let result := set_sound_fallback_count (sum (map snd kept)) result in
  if bool_decide (r_status result = VSuccess) && (0 <? sound_fallback_count result) then
    set_ctrex_category (Some (OverApproximation (map entry_text kept)))
      (set_verdict VFailure Other result)
  else result.

(** [demote_for_all_unsoundness]; the warning it prints is left out. *)
Definition demote_for_all_unsoundness (result : VerificationResult) (harness : HarnessMetadata)
    (counts : C.CrateUnsoundnessCounts) : VerificationResult :=
  if negb (bool_decide (r_status result = VSuccess)) then result
  else
    let categories := resolve_demoting_categories harness counts in
    let triggers := List.filter (fun e => 0 <? e.2) categories in
    match triggers with
    | [] => result
    | _ => set_demotion_reasons (map entry_text triggers) (set_verdict VFailure Other result)
    end.

(** ** Lemmas: attribution *)

Lemma attributable_iff (key name : string) (names : gset string) :
  attributable_to_harness key name names = true <->
  harness_names_match key name = true \/
  forall other, other ∈ names -> other <> name -> harness_names_match key other = false.
Proof.
  unfold attributable_to_harness.
  rewrite orb_true_iff, negb_true_iff, existsb_false_elem.
  setoid_rewrite elem_of_elements. apply or_iff_compat_l. split; intros H other Ho.
  - intros Hne. specialize (H other Ho). apply andb_false_iff in H as [H|H]; [|done].
    apply negb_false_iff, String.eqb_eq in H. done.
  - destruct (String.eqb_spec other name) as [->|Hne]; [done|]. cbn. by apply H.
Qed.

Lemma sum_cons (n : N) (l : list N) : sum (n :: l) = n + sum l.
Proof. done. Qed.

Lemma sum_in (n : N) (l : list N) : n ∈ l -> n <= sum l.
Proof. induction 1 as [|n m l H IH]; cbn; [lia|]. fold (sum l). lia. Qed.

Lemma sum_pos (l : list N) : 0 < sum l <-> exists n, n ∈ l /\ 0 < n.
Proof.
  split.
  - induction l as [|n l IH]; cbn; [lia|]. fold (sum l). intros H.
    destruct (decide (0 < n)) as [Hn|Hn].
    + exists n. split; [left|done].
    + destruct IH as (m & Hm & Hp); [lia|]. exists m. split; [by right|done].
  - intros (n & Hn%sum_in & Hp). lia.
Qed.

(** An attributable entry counts in the resolution. *)
Lemma resolve_ge_entry (total : N) (phs : bmap N) (name : string) (names : gset string)
    (key : string) (n : N) :
  (key, n) ∈ phs -> attributable_to_harness key name names = true ->
  n <= resolve_per_harness_count_fail_closed total phs name names.
Proof.
  intros Hin Hatt. unfold resolve_per_harness_count_fail_closed.
  destruct phs as [|e phs]; [set_solver|]. apply sum_in.
  apply list_elem_of_fmap. exists (key, n). split; [done|].
  apply list_elem_of_In, filter_In. split; [by apply list_elem_of_In|done].
Qed.

Lemma lookup_fold_elem {T} (name : string) (l : list (string * T)) acc v :
  fst <$> (foldl (lookup_step name) acc l).1 = Some v ->
  fst <$> acc.1 = Some v \/ exists k, (k, v) ∈ l.
Proof.
  revert acc. induction l as [|e l IH]; intros acc; cbn [foldl]; [by left|].
  intros [H|[k H]]%IH; [|right; exists k; by right].
  unfold lookup_step in H. destruct acc as [[[b len]|] amb]; cbn in *.
  - repeat case_match; cbn in H; simplify_eq; auto.
    right. exists e.1. destruct e. left.
  - simplify_eq. right. exists e.1. destruct e. left.
Qed.

(** What the lookup returns is the value of an entry that names the harness. *)
Lemma lookup_per_harness_sound {T} (phs : bmap T) (name : string) (v : T) :
  lookup_per_harness phs name = Some v ->
  exists key, (key, v) ∈ phs /\ harness_names_match key name = true.
Proof.
  unfold lookup_per_harness. destruct (BMap.get name phs) as [w|] eqn:E.
  - intros [= <-]. exists name. split; [by apply BMap.get_elem|].
    unfold harness_names_match. by rewrite String.eqb_refl.
  - destruct (foldl _ _ _) as [best amb] eqn:F. destruct amb; [done|]. intros H.
    destruct (lookup_fold_elem name (List.filter (fun e =>
      unique_harness_suffix_match e.1 name || unique_harness_suffix_match name e.1) phs)
      (None, false) v) as [?|[k Hk]]; [by rewrite F|done|].
    apply list_elem_of_In, filter_In in Hk as [Hk Hm]. exists k.
    split; [by apply list_elem_of_In|]. unfold harness_names_match. cbn in Hm.
    by rewrite <- orb_assoc, Hm, orb_true_r.
Qed.

(** The loop keeps the longest match, and knows whether it is the only one of
    its length. *)
Definition suffix_len {T} (name : string) (e : string * T) : nat :=
  Nat.min (String.length e.1) (String.length name).

Definition of_len {T} (name : string) (len : nat) (l : list (string * T)) : list (string * T) :=
  List.filter (fun e => Nat.eqb (suffix_len name e) len) l.

Definition longest {T} (name : string) (l : list (string * T)) (e : string * T) : Prop :=
  e ∈ l /\ forall e', e' ∈ l -> (suffix_len name e' <= suffix_len name e)%nat.

Lemma of_len_app {T} (name : string) (len : nat) (l1 l2 : list (string * T)) :
  of_len name len (l1 ++ l2) = of_len name len l1 ++ of_len name len l2.
Proof. apply List.filter_app. Qed.

Lemma of_len_nil {T} (name : string) (len : nat) (l : list (string * T)) :
  (forall e, e ∈ l -> (suffix_len name e < len)%nat) -> of_len name len l = [].
Proof.
  intros H. apply filter_nil_iff. intros e He. apply Nat.eqb_neq. specialize (H e He). lia.
Qed.

Lemma of_len_self {T} (name : string) (e : string * T) : of_len name (suffix_len name e) [e] = [e].
Proof. unfold of_len. cbn. by rewrite Nat.eqb_refl. Qed.

Lemma lookup_fold_spec {T} (name : string) (l : list (string * T)) :
  match foldl (lookup_step name) (None, false) l with
  | (None, _) => l = []
  | (Some (v, len), amb) =>
      exists e, longest name l e /\ suffix_len name e = len /\ e.2 = v /\
      if amb then (2 <= length (of_len name len l))%nat else of_len name len l = [e]
  end.
Proof.
  induction l as [|e l IH] using rev_ind; [done|]. rewrite foldl_app. cbn [foldl].
  destruct (foldl (lookup_step name) (None, false) l) as [[[v len]|] amb].
  - destruct IH as (b & [Hb Hmax] & <- & <- & Hamb). unfold lookup_step. cbn [fst snd].
    fold (suffix_len name e).
    destruct (Nat.ltb_spec (suffix_len name b) (suffix_len name e)) as [Hlt|Hge].
    + cbv beta iota. exists e. repeat split; [set_solver| |].
      * intros e' [He' | ->%list_elem_of_singleton]%elem_of_app; [|lia].
        specialize (Hmax e' He'). lia.
      * rewrite of_len_app, of_len_nil; [by apply of_len_self|].
        intros e' He'. specialize (Hmax e' He'). lia.
    + assert (Hl : longest name (l ++ [e]) b).
      { split; [set_solver|]. intros e' [He'| ->%list_elem_of_singleton]%elem_of_app; [auto|lia]. }
      destruct (Nat.eqb_spec (suffix_len name e) (suffix_len name b)) as [Heq|Hne]; cbv beta iota.
      * exists b. repeat split; [apply Hl..|]. rewrite of_len_app, <- Heq, of_len_self, length_app.
        rewrite <- Heq in Hamb. cbn. destruct amb; [lia|]. by rewrite Hamb.
      * exists b. repeat split; [apply Hl..|].
        rewrite of_len_app, (of_len_nil _ _ [e]), app_nil_r; [by destruct amb|].
        intros e' ->%list_elem_of_singleton. lia.
  - subst l. exists e. repeat split; [set_solver| |apply of_len_self].
    intros e' ->%list_elem_of_singleton. lia.
Qed.

(** ** Lemmas: the demoting categories against the registry *)

(** The count of a category that the registry holds against a harness. *)
Definition spec_count (md : KaniMetadata) (names : gset string) (name : string)
    (cat : UnsoundnessCategory) : N :=
  resolve_per_harness_count_fail_closed (spec_total md cat) (spec_per_harness md cat) name names.

Definition names_of (md : KaniMetadata) : gset string :=
  list_to_set (map pretty_name (proof_harnesses md)).

Lemma resolve_demoting_spec (md : KaniMetadata) (h : HarnessMetadata) :
  resolve_demoting_categories h (crate_spec md) ≡ₚ
  map (fun c => (json_key c, spec_count md (names_of md) (pretty_name h) c)) DEMOTED_CATEGORIES.
Proof.
  unfold resolve_demoting_categories, DEMOTED_CATEGORIES, spec_count. cbn [map crate_spec
    C.constant_zero_fallback C.constant_zero_per_harness C.harness_names].
  do 10 apply perm_skip. etransitivity; [apply perm_swap|]. do 2 apply perm_skip. reflexivity.
Qed.

Lemma elem_of_demoting (md : KaniMetadata) (h : HarnessMetadata) (e : string * N) :
  e ∈ resolve_demoting_categories h (crate_spec md) <->
  exists c, class c = Demoted /\ e = (json_key c, spec_count md (names_of md) (pretty_name h) c).
Proof.
  rewrite (elem_of_Permutation_proper _ _ _ (resolve_demoting_spec md h)).
  rewrite list_elem_of_fmap. setoid_rewrite demoted_in_list. naive_solver.
Qed.

(** ** Lemmas: the sound approximations *)

Definition entries_total (cat : string) (l : list (string * N)) : N :=
  sum (map snd (List.filter (fun e => String.eqb e.1 cat) l)).

Lemma sum_app (l1 l2 : list N) : sum (l1 ++ l2) = sum l1 + sum l2.
Proof. induction l1 as [|n l1 IH]; cbn; [done|]. fold (sum (l1 ++ l2)) (sum l1). lia. Qed.

Lemma add_total_fold (l : list (string * N)) (m : bmap N) :
  BMap.wf m ->
  BMap.wf (foldl add_total m l) /\
  forall cat, default 0 (BMap.get cat (foldl add_total m l)) =
              default 0 (BMap.get cat m) + entries_total cat l.
Proof.
  revert m. induction l as [|[k n] l IH]; intros m Hm; cbn [foldl].
  - split; [done|]. intros cat. unfold entries_total. cbn. lia.
  - destruct (IH (add_total m (k, n))) as [W G]; [by apply BMap.upd_wf|].
    split; [done|]. intros cat. rewrite G. unfold add_total. rewrite BMap.get_upd by done.
    unfold entries_total. cbn. rewrite (String.eqb_sym k cat).
    destruct (String.eqb_spec cat k) as [->|]; cbn; [|done].
    fold (sum (map snd (List.filter (fun e => String.eqb e.1 k) l))). lia.
Qed.

(** The entries of the sound approximations that count against a harness. *)
Definition attributed_entries (counts : C.CrateUnsoundnessCounts) (name : string)
    : list (string * N) :=
  List.concat (map snd (List.filter
    (fun e => attributable_to_harness e.1 name (C.harness_names counts))
    (C.sound_approx_per_harness counts))).

Lemma entries_total_app (cat : string) (l1 l2 : list (string * N)) :
  entries_total cat (l1 ++ l2) = entries_total cat l1 + entries_total cat l2.
Proof. unfold entries_total. by rewrite List.filter_app, map_app, sum_app. Qed.

Lemma sound_approx_spec (counts : C.CrateUnsoundnessCounts) (name : string) :
  BMap.wf (sound_approx_categories_fail_closed counts name) /\
  forall cat, default 0 (BMap.get cat (sound_approx_categories_fail_closed counts name)) =
              entries_total cat (attributed_entries counts name).
Proof.
  unfold sound_approx_categories_fail_closed, attributed_entries.
  generalize (C.harness_names counts) as names. intros names.
  enough (H : forall m, BMap.wf m ->
    let r := foldl (fun totals e =>
      if negb (attributable_to_harness e.1 name names) then totals
      else foldl add_total totals e.2) m (C.sound_approx_per_harness counts) in
    BMap.wf r /\ forall cat, default 0 (BMap.get cat r) = default 0 (BMap.get cat m) +
      entries_total cat (List.concat (map snd (List.filter
        (fun e => attributable_to_harness e.1 name names) (C.sound_approx_per_harness counts))))).
  { destruct (H [] BMap.wf_nil) as [W G]. split; [done|]. intros cat. by rewrite G. }
  induction (C.sound_approx_per_harness counts) as [|e l IH]; intros m Hm; cbn [foldl].
  - split; [done|]. intros cat. cbn. lia.
  - destruct (attributable_to_harness e.1 name names) eqn:A; cbn [negb]; cbn [List.filter];
      rewrite A; [|by apply IH].
    destruct (add_total_fold e.2 m Hm) as [W1 G1].
    destruct (IH (foldl add_total m e.2) W1) as [W2 G2]. split; [done|].
    intros cat. rewrite G2, G1. cbn [map List.concat]. rewrite entries_total_app. lia.
Qed.

Lemma get_in_wf (m : bmap N) (k : string) (n : N) :
  BMap.wf m -> (k, n) ∈ m -> BMap.get k m = Some n.
Proof.
  unfold BMap.wf. induction m as [|[a w] m IH]; cbn; [set_solver|].
  intros [S F]%StronglySorted_inv [[= -> ->]|Hin]%elem_of_cons.
  - by rewrite String.eqb_refl.
  - destruct (String.eqb_spec k a) as [->|]; [|by apply IH].
    rewrite Forall_forall in F. destruct (BMap.str_lt_irrefl a). apply F.
    apply list_elem_of_fmap. by exists (a, n).
Qed.

(** The fail-closed count is positive exactly when some category other than the
    certified havocs has a positive attributed entry. *)
Lemma sound_kept_pos (counts : C.CrateUnsoundnessCounts) (name : string) :
  0 < sum (map snd (List.filter (fun e => negb (String.eqb e.1 (json_key ChcSoundHavocDrop)))
    (sound_approx_categories_fail_closed counts name))) <->
  exists e, e ∈ attributed_entries counts name /\ e.1 <> json_key ChcSoundHavocDrop /\ 0 < e.2.
Proof.
  destruct (sound_approx_spec counts name) as [W G]. rewrite sum_pos. split.
  - intros (n & (e & -> & He)%list_elem_of_fmap & Hp).
    apply list_elem_of_In, filter_In in He as [He Hk].
    apply negb_true_iff, String.eqb_neq in Hk. apply list_elem_of_In in He.
    destruct e as [cat n]. cbn in *. specialize (G cat).
    rewrite (get_in_wf _ _ _ W He) in G. cbn in G. rewrite G in Hp.
    unfold entries_total in Hp. apply sum_pos in Hp as (k & (e & -> & Hf)%list_elem_of_fmap & Hp).
    apply list_elem_of_In, filter_In in Hf as [Hf <-%String.eqb_eq].
    exists e. split; [by apply list_elem_of_In|done].
  - intros (e & He & Hk & Hp). specialize (G e.1).
    assert (Hle : e.2 <= entries_total e.1 (attributed_entries counts name)).
    { apply sum_in, list_elem_of_fmap. exists e. split; [done|].
      apply list_elem_of_In, filter_In. split; [by apply list_elem_of_In|apply String.eqb_refl]. }
    destruct (BMap.get e.1 (sound_approx_categories_fail_closed counts name)) as [n|] eqn:E;
      cbn in G; [|lia].
    exists n. split; [|lia]. apply list_elem_of_fmap. exists (e.1, n). split; [done|].
    apply list_elem_of_In, filter_In. split; [by apply list_elem_of_In, BMap.get_elem|].
    by apply negb_true_iff, String.eqb_neq.
Qed.

(** ** Lemmas: the demotion step *)

Lemma elem_of_triggers (e : string * N) (l : list (string * N)) :
  e ∈ l -> 0 < e.2 -> entry_text e ∈ map entry_text (List.filter (fun e => 0 <? e.2) l).
Proof.
  intros He Hp. apply list_elem_of_fmap. exists e. split; [done|].
  apply list_elem_of_In, filter_In. split; [by apply list_elem_of_In|by apply N.ltb_lt].
Qed.

Lemma demote_cases (r : VerificationResult) (h : HarnessMetadata)
    (counts : C.CrateUnsoundnessCounts) :
  (r_status r = VSuccess /\
   (exists e, e ∈ resolve_demoting_categories h counts /\ 0 < e.2) /\
   demote_for_all_unsoundness r h counts =
     set_demotion_reasons (map entry_text
       (List.filter (fun e => 0 <? e.2) (resolve_demoting_categories h counts)))
       (set_verdict VFailure Other r)) \/
  ((r_status r = VSuccess -> forall e, e ∈ resolve_demoting_categories h counts -> e.2 = 0) /\
   demote_for_all_unsoundness r h counts = r).
Proof.
  unfold demote_for_all_unsoundness.
  destruct (bool_decide_reflect (r_status r = VSuccess)) as [Hs|Hs]; cbn [negb]; [|by right].
  destruct (List.filter (fun e => 0 <? e.2) (resolve_demoting_categories h counts)) as [|t ts] eqn:E.
  - right. split; [|done]. intros _ e He. rewrite filter_nil_iff in E.
    specialize (E e He). apply N.ltb_ge in E. lia.
  - left. split; [done|]. split; [|done]. exists t.
    assert (Ht : In t (t :: ts)) by (by left). rewrite <- E in Ht.
    apply filter_In in Ht as [Ht Hp%N.ltb_lt]. split; [by apply list_elem_of_In|done].
Qed.

Lemma sound_gate (r : VerificationResult) (h : HarnessMetadata)
    (counts : C.CrateUnsoundnessCounts) :
  let r' := apply_sound_fallback_fail_close r h counts in
  let suspect := exists e, e ∈ attributed_entries counts (pretty_name h) /\
                           e.1 <> json_key ChcSoundHavocDrop /\ 0 < e.2 in
  (0 < sound_fallback_count r' <-> suspect) /\
  (r_status r' = VSuccess <-> r_status r = VSuccess /\ ~ suspect) /\
  (r_status r = VSuccess -> suspect ->
     failed_properties r' = Other /\
     exists cats, cats <> [] /\ ctrex_category r' = Some (OverApproximation cats)) /\
  (r_status r = VFailure \/ ~ suspect ->
     failed_properties r' = failed_properties r /\ ctrex_category r' = ctrex_category r).
Proof.
  cbv zeta. pose proof (sound_kept_pos counts (pretty_name h)) as K.
  unfold apply_sound_fallback_fail_close. cbn [sound_fallback_count set_sound_fallback_count
    r_status]. set (kept := List.filter _ _) in *.
  rewrite <- K. clear K.
  assert (Hnot : ~ 0 < sum (map snd kept) <-> sum (map snd kept) <= 0) by lia. rewrite Hnot.
  destruct (bool_decide_reflect (r_status r = VSuccess)) as [Hs|Hs];
    destruct (N.ltb_spec 0 (sum (map snd kept))) as [Hp|Hp]; cbn [andb];
    cbn -[sum entry_text N.lt N.le]; (split; [done|]).
  - split; [split; [discriminate|intros [_ ?]; lia]|]. split.
    + intros _ _. split; [done|]. exists (map entry_text kept). split; [|done].
      destruct kept; [cbn in Hp; lia|done].
    + intros [?|?]; [congruence|lia].
  - split; [tauto|]. split; [lia|done].
  - split; [tauto|]. split; [done|done].
  - split; [tauto|]. split; [done|done].
Qed.

(** ** Properties *)

(** The fail-closed resolution never counts less against a harness than the
    name lookup it replaced, and no positive entry is lost: every entry of a
    per-harness map counts against at least one harness of the crate. *)
Theorem fail_closed_dominates (total : N) (phs : bmap N) (name : string) (names : gset string) :
  resolve_per_harness_count total phs name
    <= resolve_per_harness_count_fail_closed total phs name names /\
  forall key n, (key, n) ∈ phs -> name ∈ names ->
    exists h, h ∈ names /\ attributable_to_harness key h names = true /\
              n <= resolve_per_harness_count_fail_closed total phs h names.
Proof.
  split.
  - destruct phs as [|e phs']; [done|]. unfold resolve_per_harness_count.
    generalize (e :: phs') as phs. intros phs.
    destruct (lookup_per_harness phs name) as [v|] eqn:L; cbn; [|lia].
    apply lookup_per_harness_sound in L as (key & Hin & Hm).
    apply (resolve_ge_entry _ _ _ _ key); [done|]. apply attributable_iff. by left.
  - intros key n Hin Hname.
    destruct (existsb (harness_names_match key) (elements names)) eqn:X.
    + apply existsb_elem in X as (h & Hh%elem_of_elements & Hm). exists h.
      assert (A : attributable_to_harness key h names = true) by (apply attributable_iff; by left).
      split; [done|]. split; [done|]. by apply (resolve_ge_entry _ _ _ _ key).
    + exists name.
      assert (A : attributable_to_harness key name names = true).
      { apply attributable_iff. right. intros other Ho _.
        rewrite existsb_false_elem in X. by apply X, elem_of_elements. }
      split; [done|]. split; [done|]. by apply (resolve_ge_entry _ _ _ _ key).
Qed.

(** What the harness-name lookup returns.  An exact key wins; otherwise the
    value of the longest qualified/unqualified match, and only when no other
    match has that length. *)
Theorem lookup_per_harness_spec {T} (phs : bmap T) (name : string) (v : T) :
  lookup_per_harness phs name = Some v <->
  BMap.get name phs = Some v \/
  BMap.get name phs = None /\
  let matches := List.filter (fun e => unique_harness_suffix_match e.1 name
                                       || unique_harness_suffix_match name e.1) phs in
  exists e, longest name matches e /\ e.2 = v /\ of_len name (suffix_len name e) matches = [e].
Proof.
  unfold lookup_per_harness. destruct (BMap.get name phs) as [w|]; [naive_solver|].
  cbv zeta. pose proof (lookup_fold_spec name (List.filter (fun e =>
    unique_harness_suffix_match e.1 name || unique_harness_suffix_match name e.1) phs)) as S.
  destruct (foldl _ _ _) as [[[w len]|] amb].
  - destruct S as (e & [He Hmax] & <- & <- & Hamb). split.
    + destruct amb; [done|]. intros [= <-]. right. split; [done|]. exists e. done.
    + intros [?|(_ & e' & [He' Hmax'] & <- & H)]; [done|].
      assert (L : suffix_len name e = suffix_len name e').
      { specialize (Hmax e' He'). specialize (Hmax' e He). lia. }
      rewrite L in Hamb. destruct amb; [rewrite H in Hamb; cbn in Hamb; lia|].
      rewrite H in Hamb. by simplify_eq.
  - split; [by destruct amb|]. intros [?|(_ & e & [He _] & _)]; [done|].
    rewrite S in He. set_solver.
Qed.

(** C8: fail-closed demotion, end to end.  In a project with distinct crate
    names, when the registry holds a positive count of a demoting category
    against a harness, a proof of that harness becomes a failure whose recorded
    reasons name the category with its count. *)
Theorem demotion_end_to_end (project : Project) (md : KaniMetadata) (h : HarnessMetadata)
    (cat : UnsoundnessCategory) (r : VerificationResult)
    (unique : NoDup (map crate_name project)) (Hmd : md ∈ project)
    (Hcrate : h_crate_name h = crate_name md)
    (Hclass : class cat = Demoted)
    (Hcount : 0 < spec_count md (names_of md) (pretty_name h) cat)
    (Hr : r_status r = VSuccess) :
  let r' := demote_for_all_unsoundness r h
              (get_for_crate (from_project project) (h_crate_name h)) in
  r_status r' = VFailure /\ failed_properties r' = Other /\
  (json_key cat +:+ "=" +:+ pretty (spec_count md (names_of md) (pretty_name h) cat))
    ∈ demotion_reasons r'.
Proof.
  assert (Hin : (json_key cat, spec_count md (names_of md) (pretty_name h) cat) ∈
    resolve_demoting_categories h (get_for_crate (from_project project) (h_crate_name h))).
  { rewrite Hcrate, (get_for_crate_crate_spec project md unique Hmd).
    apply elem_of_demoting. by exists cat. }
  destruct (demote_cases r h (get_for_crate (from_project project) (h_crate_name h)))
    as [(_ & _ & ->)|[Hz _]].
  - split; [reflexivity|]. split; [reflexivity|]. exact (elem_of_triggers _ _ Hin Hcount).
  - specialize (Hz Hr _ Hin). cbn [snd] in Hz. lia.
Qed.

(** Demotion is exact and changes nothing else.  In a project with distinct
    crate names a proof survives exactly when no demoting category has a
    positive count against the harness, and a result that is not a proof, or a
    proof with no such count, is returned as it is. *)
Theorem demotion_exact (project : Project) (md : KaniMetadata) (h : HarnessMetadata)
    (r : VerificationResult)
    (unique : NoDup (map crate_name project)) (Hmd : md ∈ project)
    (Hcrate : h_crate_name h = crate_name md) :
  let counts := get_for_crate (from_project project) (h_crate_name h) in
  let clean := forall c, class c = Demoted -> spec_count md (names_of md) (pretty_name h) c = 0 in
  (r_status (demote_for_all_unsoundness r h counts) = VSuccess <->
     r_status r = VSuccess /\ clean) /\
  (r_status r = VFailure \/ clean -> demote_for_all_unsoundness r h counts = r).
Proof.
  cbv zeta. rewrite Hcrate, (get_for_crate_crate_spec project md unique Hmd).
  assert (Hiff : (forall e, e ∈ resolve_demoting_categories h (crate_spec md) -> e.2 = 0) <->
    forall c, class c = Demoted -> spec_count md (names_of md) (pretty_name h) c = 0).
  { split.
    - intros H c Hc. 
      refine (H (json_key c, spec_count md (names_of md) (pretty_name h) c)
                (proj2 (elem_of_demoting md h _) _)). by exists c.
    - intros H e (c & Hc & ->)%elem_of_demoting. by apply H. }
  destruct (demote_cases r h (crate_spec md)) as [(Hs & (e & He & Hp) & ->)|[Hz ->]].
  - assert (N : ~ forall c, class c = Demoted ->
      spec_count md (names_of md) (pretty_name h) c = 0).
    { intros H. rewrite <- Hiff in H. specialize (H e He). lia. }
    split.
    + split; [discriminate|]. by intros [_ ?].
    + intros [?|?]; [congruence|done].
  - split; [|done]. rewrite <- Hiff. split; [auto|]. by intros [? _].
Qed.

(** The sound-fallback gate.  A proof stays a proof exactly when every
    positive sound approximation attributed to the harness is a certified havoc;
    otherwise it becomes an over-approximation counterexample.  A failure keeps
    its verdict and its category. *)
Theorem sound_fallback_gate (r : VerificationResult) (h : HarnessMetadata)
    (counts : C.CrateUnsoundnessCounts) :
  let r' := apply_sound_fallback_fail_close r h counts in
  let suspect := exists e, e ∈ attributed_entries counts (pretty_name h) /\
                           e.1 <> json_key ChcSoundHavocDrop /\ 0 < e.2 in
  (0 < sound_fallback_count r' <-> suspect) /\
  (r_status r' = VSuccess <-> r_status r = VSuccess /\ ~ suspect) /\
  (r_status r = VSuccess -> suspect ->
     failed_properties r' = Other /\
     exists cats, cats <> [] /\ ctrex_category r' = Some (OverApproximation cats)) /\
  (r_status r = VFailure \/ ~ suspect ->
     failed_properties r' = failed_properties r /\ ctrex_category r' = ctrex_category r).
Proof. apply sound_gate. Qed.

(** a [should_panic] harness is decided by its failures alone, any other by
    the status alone. *)
Theorem effective_success_spec (st : VerificationStatus) (fp : FailedProperties) :
  (is_effective_manual_success st true fp = true <-> fp = PanicsOnly) /\
  (is_effective_manual_success st false fp = true <-> st = VSuccess).
Proof. unfold is_effective_manual_success. by rewrite !bool_decide_eq_true. Qed.

(** ** Closed instances *)

Lemma get_for_crate_refines_witness :
  get_for_crate (from_project [Metadata.Sample.app]) "app" = crate_spec Metadata.Sample.app.
Proof.
  refine (get_for_crate_refines [Metadata.Sample.app] Metadata.Sample.app _ _).
  - repeat constructor. set_solver.
  - left.
Defined.

Definition sample_names : gset string := {["app::h"; "app::g"]}.

Lemma fail_closed_dominates_witness :
  exists h, h ∈ sample_names /\ attributable_to_harness "app::util" h sample_names = true /\
    2 <= resolve_per_harness_count_fail_closed 5 [("app::h", 3); ("app::util", 2)] h sample_names.
Proof.
  apply (proj2 (fail_closed_dominates 5 [("app::h", 3); ("app::util", 2)] "app::g" sample_names)).
  - right. left.
  - unfold sample_names. set_solver.
Defined.

(** A function-keyed survivor demotes a harness with no entry of its own. *)
Lemma demotion_end_to_end_witness :
  let h := Metadata.Sample.harness_of "app" "app::g" in
  let r' := demote_for_all_unsoundness
              (VerificationResult.Sample.result VSuccess FNone []) h
              (get_for_crate (from_project [Metadata.Sample.app]) "app") in
  r_status r' = VFailure /\ failed_properties r' = Other /\ "chc_fallback=2" ∈ demotion_reasons r'.
Proof.
  refine (demotion_end_to_end [Metadata.Sample.app] Metadata.Sample.app
    (Metadata.Sample.harness_of "app" "app::g") ChcFallback
    (VerificationResult.Sample.result VSuccess FNone []) _ _ eq_refl eq_refl _ eq_refl).
  - repeat constructor. set_solver.
  - left.
  - by vm_compute.
Defined.

Lemma demotion_exact_witness :
  let r := VerificationResult.Sample.result VSuccess FNone [] in
  r_status (demote_for_all_unsoundness r (Metadata.Sample.harness_of "clean" "clean::k")
    (get_for_crate (from_project [Metadata.Sample.clean]) "clean")) = VSuccess.
Proof.
  refine (proj2 (proj1 (demotion_exact [Metadata.Sample.clean] Metadata.Sample.clean
    (Metadata.Sample.harness_of "clean" "clean::k")
    (VerificationResult.Sample.result VSuccess FNone []) _ _ eq_refl)) _).
  - repeat constructor. set_solver.
  - left.
  - split; [reflexivity|]. intros c _. destruct c; by vm_compute.
Defined.

Lemma sound_fallback_gate_witness :
  let counts := crate_spec Metadata.Sample.clean in
  let r := VerificationResult.Sample.result VSuccess FNone [] in
  ctrex_category (apply_sound_fallback_fail_close r
    (Metadata.Sample.harness_of "clean" "clean::k") counts) = None.
Proof.
  apply (proj2 (proj2 (proj2 (sound_fallback_gate
    (VerificationResult.Sample.result VSuccess FNone [])
    (Metadata.Sample.harness_of "clean" "clean::k") (crate_spec Metadata.Sample.clean))))).
  right. intros (e & He & _). vm_compute in He. by apply not_elem_of_nil in He.
Defined.

(** Two crates of one project with the same name, as the library and the binary
    of one package: the later one's counts replace the earlier one's, and a proof
    that its own metadata demotes stands. *)
Theorem same_name_crates_lose_counts :
  let project := [Metadata.Sample.app; Metadata.Sample.app_bin] in
  let h := Metadata.Sample.harness_of "app" "app::h" in
  let r := VerificationResult.Sample.result VSuccess FNone [] in
  r_status (demote_for_all_unsoundness r h (crate_spec Metadata.Sample.app)) = VFailure /\
  r_status (demote_for_all_unsoundness r h
    (get_for_crate (from_project project) (h_crate_name h))) = VSuccess.
Proof. split; by vm_compute. Qed.
End Demotion.
