(* ===== verification/Artifact.v ===== *)
(** * The verification-condition artifact

    Models [trust-mc-core/src/ident.rs], the property kinds of
    [trust-mc-core/src/violation.rs], [trust-mc-core/src/artifact.rs], and the
    driver's reader of the artifact, [ay_parse/vc_artifact.rs].  The file system
    and the JSON decoder are outside: the functions take the decoded artifact,
    [None] when the file is missing, unreadable or does not parse. *)

From S2P Require Import Prelude PropertyModel.

Module Artifact.

(** ** ident.rs *)

(** [struct HarnessId] *)
Record HarnessId := { hid_mangled_name : string; hid_pretty_name : string }.

(** [struct PropertyId] of the core crate *)
Record CorePropertyId := { pid : N; pid_description : option string }.

(** [impl Display for PropertyId] *)
Definition CorePropertyId_fmt (p : CorePropertyId) : string :=
  match pid_description p with
  | Some desc => pretty (pid p) +:+ ": " +:+ desc
  | None => pretty (pid p)
  end.

(** [struct SourceLocation] *)
Record SourceLocation := {
  sl_file : string;
  sl_line : N;
  sl_column : option N;
  sl_function : option string;
}.

(** [impl Display for SourceLocation] *)
Definition SourceLocation_fmt (l : SourceLocation) : string :=
  sl_file l +:+ ":" +:+ pretty (sl_line l) +:+
  match sl_column l with Some col => ":" +:+ pretty col | None => "" end.

(** ** violation.rs *)

(** [enum PropertyKind] *)
Inductive PropertyKind :=
  | Assertion
  | Assumption
  | Cover
  | ArithmeticOverflow
  | DivisionByZero
  | OutOfBounds
  | NullPointer
  | MemorySafety
  | PointerOverflow
  | KUnreachable
  | Panic
  | UndefinedBehavior
  | Precondition
  | Postcondition
  | LoopInvariant
  | LoopDecreases
  | KOther.

#[export] Instance PropertyKind_eq_dec : EqDecision PropertyKind.
Proof. solve_decision. Defined.

(** [PropertyKind::description], which [Display] prints. *)
Definition kind_description (k : PropertyKind) : string :=
  match k with
  | Assertion => "assertion"
  | Assumption => "assumption"
  | Cover => "cover"
  | ArithmeticOverflow => "arithmetic overflow"
  | DivisionByZero => "division by zero"
  | OutOfBounds => "out of bounds access"
  | NullPointer => "null pointer dereference"
  | MemorySafety => "memory safety"
  | PointerOverflow => "pointer overflow"
  | KUnreachable => "unreachable code"
  | Panic => "panic"
  | UndefinedBehavior => "undefined behavior"
  | Precondition => "precondition"
  | Postcondition => "postcondition"
  | LoopInvariant => "loop invariant"
  | LoopDecreases => "loop decreases ranking"
  | KOther => "check"
  end.

(** [PropertyKind::label] *)
Definition kind_label (k : PropertyKind) : string :=
  match k with
  | Assertion => "kani_assert"
  | Assumption => "kani_assume"
  | Cover => "kani_cover"
  | ArithmeticOverflow => "overflow_check"
  | DivisionByZero => "div_by_zero_check"
  | OutOfBounds => "bounds_check"
  | NullPointer => "null_pointer_check"
  | MemorySafety => "memory_safety_check"
  | PointerOverflow => "pointer_overflow_check"
  | KUnreachable => "unreachable"
  | Panic => "panic"
  | UndefinedBehavior => "undefined_behavior"
  | Precondition => "precondition"
  | Postcondition => "postcondition"
  | LoopInvariant => "loop_invariant"
  | LoopDecreases => "loop_decreases_check"
  | KOther => "assertion"
  end.

(** ** artifact.rs *)

(** [struct ArtifactVersion] *)
Record ArtifactVersion := { major : N; minor : N; patch : N }.

Definition CURRENT_VERSION : ArtifactVersion := {| major := 0; minor := 1; patch := 0 |}.

(** [ArtifactVersion::is_compatible_with] *)
Definition is_compatible_with (self other : ArtifactVersion) : bool :=
  N.eqb (major self) (major other) && N.leb (minor other) (minor self).

(** [impl Display for ArtifactVersion] *)
Definition ArtifactVersion_fmt (v : ArtifactVersion) : string :=
  pretty (major v) +:+ "." +:+ pretty (minor v) +:+ "." +:+ pretty (patch v).

(** [enum VerificationMode] *)
Inductive VerificationMode := Bmc | ChcMode.

(** [struct PropertyMetadata] *)
Record PropertyMetadata := {
  pm_id : CorePropertyId;
  pm_kind : PropertyKind;
  pm_location : option SourceLocation;
  pm_message : option string;
  violation_var : option string;
  smt_var : option string;
  reach_var : option string;
  approximation_dependent : option bool;
}.

(** [PropertyMetadata::new] *)
Definition PropertyMetadata_new (i : CorePropertyId) (k : PropertyKind) : PropertyMetadata :=
  {| pm_id := i; pm_kind := k; pm_location := None; pm_message := None; violation_var := None;
     smt_var := None; reach_var := None; approximation_dependent := None |}.

(** [struct UnsoundnessCounters] *)
Record UnsoundnessCounters := { chc_iterator_skips : N; bmc_iterator_skips : N }.

(** [UnsoundnessCounters::has_unsoundness] and [total] *)
Definition has_unsoundness (u : UnsoundnessCounters) : bool :=
  N.ltb 0 (chc_iterator_skips u) || N.ltb 0 (bmc_iterator_skips u).
Definition total (u : UnsoundnessCounters) : N := chc_iterator_skips u + bmc_iterator_skips u.

(** [struct LoopInvariantHint] *)
Record LoopInvariantHint := {
  relation_name : string;
  loop_head_bb : N;
  captured_vars : list N;
  captured_state_indices : option (list N);
  priority : N;
  formula_smt2 : option string;
}.

Definition default_hint_priority : N := 50.

(** [LoopInvariantHint::new] *)
Definition LoopInvariantHint_new (rel : string) (bb : N) : LoopInvariantHint :=
  {| relation_name := rel; loop_head_bb := bb; captured_vars := [];
     captured_state_indices := None; priority := default_hint_priority; formula_smt2 := None |}.

(** [struct ArtifactMetadata] *)
Record ArtifactMetadata := {
  compiler_version : option string;
  timestamp : option string;
  source_commit : option string;
  logic : option string;
  timeout_ms : option N;
  loop_hints : list LoopInvariantHint;
  unsoundness : option UnsoundnessCounters;
  obligation_free_body : option bool;
}.

(** [struct VcArtifact] *)
Record VcArtifact := {
  version : ArtifactVersion;
  mode : VerificationMode;
  harness : HarnessId;
  properties : list PropertyMetadata;
  smt_file : option string;
  metadata : option ArtifactMetadata;
  approximated_vars : list string;
  accounted_approximations : N;
  approximation_identity_complete : bool;
}.

(** [VcArtifact::new] *)
Definition VcArtifact_new (h : HarnessId) : VcArtifact :=
  {| version := CURRENT_VERSION; mode := Bmc; harness := h; properties := []; smt_file := None;
     metadata := None; approximated_vars := []; accounted_approximations := 0;
     approximation_identity_complete := false |}.

(** [VcArtifact::add_property] and [property_count] *)
Definition add_property (a : VcArtifact) (p : PropertyMetadata) : VcArtifact :=
  {| version := version a; mode := mode a; harness := harness a;
     properties := properties a ++ [p]; smt_file := smt_file a; metadata := metadata a;
     approximated_vars := approximated_vars a;
     accounted_approximations := accounted_approximations a;
     approximation_identity_complete := approximation_identity_complete a |}.
Definition property_count (a : VcArtifact) : nat := length (properties a).

(** ** ay_parse/vc_artifact.rs *)

(** [struct VcPropertyInfo] *)
Record VcPropertyInfo := {
  info_location : PropertyModel.RawSourceLocation;
  info_message : option string;
}.

(** [struct ChcArtifactProperty] *)
Record ChcArtifactProperty := {
  relation : string;
  cap_id : N;
  cap_kind : PropertyKind;
  cap_message : option string;
  cap_location : PropertyModel.RawSourceLocation;
}.

(** [struct ApproximationEvidence] *)
Record ApproximationEvidence := {
  complete : bool;
  accounted : N;
  ev_approximated_vars : list string;
  dependent_by_id : gmap N (option bool);
}.

Definition is_error_p (v : option string) : bool :=
  match v with Some s => Str.starts_with s "error_p" | None => false end.

(** [load_approximation_evidence] *)
Definition load_approximation_evidence (artifact : option VcArtifact)
    : option ApproximationEvidence :=
  a ← artifact;
  Some {| complete := approximation_identity_complete a;
          accounted := accounted_approximations a;
          ev_approximated_vars := approximated_vars a;
          dependent_by_id :=
            foldl (fun m p =>
              if is_error_p (smt_var p) then <[pid (pm_id p) := approximation_dependent p]> m
              else m) ∅ (properties a) |}.

(** [artifact_registers_no_obligations] *)
Definition artifact_registers_no_obligations (artifact : option VcArtifact) : bool :=
  match artifact with
  | Some a => match properties a with [] => true | _ => false end
  | None => false
  end.

Definition LOOP_CONTRACT_OBLIGATION_PREFIXES : list string :=
  ["loop invariant base case:"; "loop invariant inductive step:"; "loop decreases clause:"].

Definition LOOP_INVARIANT_BASE_CLASS : string := "loop_invariant_base".
Definition LOOP_INVARIANT_STEP_CLASS : string := "loop_invariant_step".
Definition LOOP_INVARIANT_BASE_REPORT_TEXT : string := "Check invariant before entry for loop ".
Definition LOOP_INVARIANT_STEP_REPORT_TEXT : string := "Check invariant after step for loop ".

Definition LOOP_CONTRACT_REPORT_MARKERS : list (string * string) :=
  [(LOOP_INVARIANT_BASE_REPORT_TEXT, "loop invariant base case:");
   (LOOP_INVARIANT_STEP_REPORT_TEXT, "loop invariant inductive step:");
   ("loop decreases clause:", "loop decreases clause:")].

(** [is_loop_contract_property] *)
Definition is_loop_contract_property (p : PropertyMetadata) : bool :=
  match pm_kind p with
  | LoopInvariant | LoopDecreases => true
  | _ => match pm_message p with
         | Some m => existsb (Str.starts_with m) LOOP_CONTRACT_OBLIGATION_PREFIXES
         | None => false
         end
  end.

(** [artifact_has_loop_contract_obligations] *)
Definition artifact_has_loop_contract_obligations (artifact : option VcArtifact) : bool :=
  match artifact with
  | Some a => existsb is_loop_contract_property (properties a)
  | None => false
  end.

(** [artifact_body_is_obligation_free] *)
Definition artifact_body_is_obligation_free (artifact : option VcArtifact) : bool :=
  default false (a ← artifact; m ← metadata a; obligation_free_body m).

(** [found.push(x)] unless it is already there. *)
Definition push_new (found : list string) (x : string) : list string :=
  if existsb (String.eqb x) found then found else found ++ [x].

(** [artifact_loop_obligation_kinds] *)
Definition artifact_loop_obligation_kinds (artifact : option VcArtifact) : list string :=
  match artifact with
  | None => []
  | Some a =>
      foldl (fun found p =>
        match pm_message p with
        | None => found
        | Some msg => foldl (fun found pre =>
            if Str.starts_with msg pre then push_new found pre else found)
            found LOOP_CONTRACT_OBLIGATION_PREFIXES
        end) [] (properties a)
  end.

(** The location of a property as the report prints it. *)
Definition raw_location (l : option SourceLocation) : PropertyModel.RawSourceLocation :=
  match l with
  | Some loc =>
      {| PropertyModel.file := Some (sl_file loc);
         PropertyModel.line := Some (pretty (sl_line loc));
         PropertyModel.column := pretty <$> sl_column loc;
         PropertyModel.function := sl_function loc |}
  | None =>
      {| PropertyModel.file := None; PropertyModel.line := None;
         PropertyModel.column := None; PropertyModel.function := None |}
  end.

(** [load_chc_property_table] *)
Definition load_chc_property_table (artifact : option VcArtifact) : list ChcArtifactProperty :=
  match artifact with
  | None => []
  | Some a =>
      omap (fun p =>
        var ← smt_var p;
        if Str.starts_with var "error_p" then
          Some {| relation := var; cap_id := pid (pm_id p); cap_kind := pm_kind p;
                  cap_message := pm_message p; cap_location := raw_location (pm_location p) |}
        else None) (properties a)
  end.

(** [load_vc_artifact] *)
Definition load_vc_artifact (artifact : option VcArtifact) : option (gmap string VcPropertyInfo) :=
  a ← artifact;
  Some (foldl (fun m p =>
    match (match smt_var p with Some v => Some v | None => violation_var p end) with
    | Some v => <[v := {| info_location := raw_location (pm_location p);
                          info_message := pm_message p |}]> m
    | None => m
    end) ∅ (properties a)).

(** [load_loop_hints] *)
Definition load_loop_hints (artifact : option VcArtifact) : list LoopInvariantHint :=
  match (a ← artifact; metadata a) with Some m => loop_hints m | None => [] end.

(** ** Lemmas *)

(** What the evidence says of a check is what its last property entry says. *)
Lemma dependent_by_id_sound (a : VcArtifact) (ev : ApproximationEvidence) (k : N) (d : option bool) :
  load_approximation_evidence (Some a) = Some ev -> dependent_by_id ev !! k = Some d ->
  exists p, p ∈ properties a /\ pid (pm_id p) = k /\ is_error_p (smt_var p) = true /\
            approximation_dependent p = d.
Proof.
  intros [= <-]. cbn. set (f := fun (m : gmap N (option bool)) p => _).
  assert (H : forall m, foldl f m (properties a) !! k = Some d -> m !! k = Some d \/
    exists p, p ∈ properties a /\ pid (pm_id p) = k /\ is_error_p (smt_var p) = true /\
              approximation_dependent p = d).
  { induction (properties a) as [|p l IH]; intros m; cbn; [by left|].
    intros [H|(q & Hq & R)]%IH; [|right; exists q; split; [by right|done]].
    unfold f in H. destruct (is_error_p (smt_var p)) eqn:E; [|by left].
    destruct (decide (pid (pm_id p) = k)) as [Ek|Ek].
    - subst k. rewrite lookup_insert_eq in H. simplify_eq. right. exists p. split; [left|done].
    - rewrite lookup_insert_ne in H by done. by left. }
  intros [?|?]%H; [by rewrite lookup_empty in *|done].
Qed.

(** Version compatibility is a partial order up to the patch number. *)
Lemma is_compatible_with_trans (a b c : ArtifactVersion) :
  is_compatible_with a b = true -> is_compatible_with b c = true -> is_compatible_with a c = true.
Proof.
  unfold is_compatible_with. rewrite !andb_true_iff, !N.eqb_eq, !N.leb_le.
  intros [? ?] [? ?]. split; [congruence|lia].
Qed.

End Artifact.
