(* ===== verification/CtrexClassify.v ===== *)
(** * Classification of counterexamples and of undecided runs

    Models [ctrex_classify.rs] and [unknown_quality.rs] of the driver, and the
    certification of a tainted counterexample in [harness_runner.rs]
    ([ctrex_certifiable_genuine], [recertify_overapprox_ctrex]). *)

From S2P Require Import Prelude Metadata Counts PropertyModel VerificationResult Demotion Artifact.

Module CtrexClassify.
Import PropertyModel Metadata Counts VerificationResult Demotion.
Local Open Scope N_scope.

(** [push_fail_closed_trigger] *)
Definition push_fail_closed_trigger (triggers : list string) (category : string)
    (crate_total : N) (per_harness : bmap N) (harness : HarnessMetadata) : list string :=
  let count := resolve_per_harness_count crate_total per_harness (pretty_name harness) in
  if 0 <? count then triggers ++ [entry_text (category, count)] else triggers.

(** [if count > 0 { push(format!("{category}={count}")) }] *)
Definition push_trigger (triggers : list string) (category : string) (count : N) : list string :=
  if 0 <? count then triggers ++ [entry_text (category, count)] else triggers.

(** The FAIL_CLOSED triggers, in the order both classifiers push them. *)
Definition fail_closed_triggers (triggers : list string) (harness : HarnessMetadata)
    (counts : C.CrateUnsoundnessCounts) : list string :=
  let t := push_trigger triggers "assert_untranslatable" (C.assert_untranslatable counts) in
  let t := push_trigger t "heap_check_untranslatable" (C.heap_check_untranslatable counts) in
  let t := push_trigger t "heap_check_unknown_layout" (C.heap_check_unknown_layout counts) in
  let t := push_fail_closed_trigger t "iterator_unsoundness" (C.iterator_unsoundness counts)
             (C.iterator_unsoundness_per_harness counts) harness in
  push_fail_closed_trigger t "bigint_unsoundness" (C.bigint_unsoundness counts)
    (C.bigint_unsoundness_per_harness counts) harness.

(** The triggered demoting categories, as [category=count]. *)
Definition demoted_triggers (harness : HarnessMetadata) (counts : C.CrateUnsoundnessCounts)
    : list string :=
  map entry_text (List.filter (fun e => 0 <? e.2) (resolve_demoting_categories harness counts)).

Definition OFFSET_PREFIX : string := "offset_provenance_unresolved=".

Definition is_nil {A} (l : list A) : bool := match l with [] => true | _ => false end.

(** The crate-level residual: the sound approximations that no other harness of
    the crate accounts for. *)
Definition residual (harness : HarnessMetadata) (counts : C.CrateUnsoundnessCounts)
    : list string :=
  let current := pretty_name harness in
  map entry_text (foldl (fun totals e =>
    let could_be_current := harness_names_match e.1 current in
    let attributed_to_other_harness :=
      negb could_be_current &&
      existsb (fun name => negb (String.eqb name current) && harness_names_match e.1 name)
        (base.elements (C.harness_names counts)) in
    if attributed_to_other_harness then totals
    else foldl add_total totals e.2) [] (C.sound_approx_per_harness counts)).

(** [classify_ctrex] *)
Definition classify_ctrex (harness : HarnessMetadata) (counts : C.CrateUnsoundnessCounts)
    : CtrexCategory :=
  let demoted := demoted_triggers harness counts in
  let offset_only_demotion :=
    negb (is_nil demoted) && forallb (fun t => Str.starts_with t OFFSET_PREFIX) demoted in
  let fail_closed := fail_closed_triggers [] harness counts in
  let approx := lookup_per_harness (C.sound_approx_per_harness counts) (pretty_name harness) in
  if negb (is_nil demoted) && negb offset_only_demotion then EncodingGap demoted
  else if negb (is_nil fail_closed) then
    if offset_only_demotion then EncodingGap (demoted ++ fail_closed) else EncodingGap fail_closed
  else if offset_only_demotion then
    OverApproximation (demoted ++ map entry_text (default [] approx))
  else if negb (is_nil (default [] approx)) then
    OverApproximation (map entry_text (default [] approx))
  else if negb (is_nil (C.sound_approx_crate_totals counts)) &&
          negb (is_nil (residual harness counts)) then
    OverApproximation (residual harness counts)
  else Genuine.

(** ** unknown_quality.rs *)

(** [collect_encoding_gap_reasons] *)
Definition collect_encoding_gap_reasons (harness : HarnessMetadata)
    (counts : C.CrateUnsoundnessCounts) : list string :=
  fail_closed_triggers (demoted_triggers harness counts) harness counts.

(** [collect_overapprox_reasons] *)
Definition collect_overapprox_reasons (harness : HarnessMetadata)
    (counts : C.CrateUnsoundnessCounts) : list string :=
  match lookup_per_harness (C.sound_approx_per_harness counts) (pretty_name harness) with
  | Some categories => map entry_text categories
  | None => []
  end.

(** [classify_unknown_quality] *)
Definition classify_unknown_quality (harness : HarnessMetadata)
    (counts : C.CrateUnsoundnessCounts) : UnknownQuality :=
  let gap := collect_encoding_gap_reasons harness counts in
  let over := collect_overapprox_reasons harness counts in
  match is_nil gap, is_nil over with
  | true, true => QClean
  | false, true => QEncodingGap gap
  | true, false => QOverApproximation over
  | false, false => QMixed (gap ++ over)
  end.

(** ** Certification of a tainted counterexample *)

(** The taint total and its [unhandled_calls] share, over the entries that parse. *)
Definition taint_step (acc : N * N) (entry : string) : N * N :=
  match Str.rsplit_once entry "=" with
  | Some (name, count) =>
      match Str.parse_usize count with
      | Some n => (acc.1 + n, if String.eqb name "unhandled_calls" then acc.2 + n else acc.2)
      | None => acc
      end
  | None => acc
  end.
Definition taint_total (categories : list string) : N * N := foldl taint_step (0, 0) categories.

(** The violated check that the evidence certifies: it reads no freed value. *)
Definition certified_violation (ev : Artifact.ApproximationEvidence) (p : PropertyModel.Property)
    : bool :=
  bool_decide (PropertyModel.status p = PropertyModel.Failure) &&
  match Artifact.dependent_by_id ev !! PropertyModel.id (PropertyModel.property_id p) with
  | Some (Some false) => true
  | _ => false
  end.

(** [ctrex_certifiable_genuine] *)
Definition ctrex_certifiable_genuine (categories : list string)
    (ev : Artifact.ApproximationEvidence) (ps : list PropertyModel.Property) : bool :=
  let '(taint, unhandled) := taint_total categories in
  let effective_total := taint - unhandled in
  if (effective_total =? 0) || negb (Artifact.complete ev)
     || negb (Artifact.accounted ev =? effective_total) then false
  else existsb (certified_violation ev) ps.

(** [recertify_overapprox_ctrex]; the marker it prints is left out. *)
Definition recertify_overapprox_ctrex (category : CtrexCategory)
    (artifact : option Artifact.VcArtifact) (ps : list PropertyModel.Property) : CtrexCategory :=
  let certify categories :=
    match Artifact.load_approximation_evidence artifact with
    | None => category
    | Some ev => if ctrex_certifiable_genuine categories ev ps then Genuine else category
    end in
  match category with
  | OverApproximation categories => certify categories
  | EncodingGap categories =>
      if negb (is_nil categories) && forallb (fun c => Str.starts_with c OFFSET_PREFIX) categories
      then certify categories else category
  | _ => category
  end.

(** ** Lemmas *)

Lemma is_nil_iff {A} (l : list A) : is_nil l = true <-> l = [].
Proof. by destruct l. Qed.

Lemma map_nil_iff {A B} (f : A -> B) (l : list A) : map f l = [] <-> l = [].
Proof. by destruct l. Qed.

(** The residual is the fail-closed attribution of the proof side. *)
Lemma residual_spec (harness : HarnessMetadata) (counts : C.CrateUnsoundnessCounts) :
  residual harness counts =
  map entry_text (sound_approx_categories_fail_closed counts (pretty_name harness)).
Proof.
  unfold residual, sound_approx_categories_fail_closed. f_equal.
  generalize ([] : bmap N) as m.
  induction (C.sound_approx_per_harness counts) as [|e l IH]; intros m; cbn [foldl]; [done|].
  rewrite IH. f_equal. unfold attributable_to_harness. rewrite negb_orb, negb_involutive. done.
Qed.

Lemma add_total_nonempty (m : bmap N) (e : string * N) : add_total m e <> [].
Proof.
  unfold add_total. destruct m as [|[k v] m]; cbn; [done|].
  by destruct (String.compare e.1 k).
Qed.

Lemma add_totals_nil (l : list (string * N)) (m : bmap N) :
  foldl add_total m l = [] <-> m = [] /\ l = [].
Proof.
  revert m. induction l as [|e l IH]; intros m; cbn; [naive_solver|].
  rewrite IH. pose proof (add_total_nonempty m e). naive_solver.
Qed.

(** The attributed categories are empty exactly when no entry is attributed. *)
Lemma sound_approx_nil (counts : C.CrateUnsoundnessCounts) (name : string) :
  sound_approx_categories_fail_closed counts name = [] <-> attributed_entries counts name = [].
Proof.
  unfold sound_approx_categories_fail_closed, attributed_entries.
  enough (H : forall m, foldl (fun totals e =>
      if negb (attributable_to_harness e.1 name (C.harness_names counts)) then totals
      else foldl add_total totals e.2) m (C.sound_approx_per_harness counts) = [] <->
    m = [] /\ List.concat (map snd (List.filter
      (fun e => attributable_to_harness e.1 name (C.harness_names counts))
      (C.sound_approx_per_harness counts))) = []) by (rewrite H; naive_solver).
  induction (C.sound_approx_per_harness counts) as [|e l IH]; intros m; cbn [foldl List.filter].
  - naive_solver.
  - rewrite IH. destruct (attributable_to_harness e.1 name _); cbn; [|done].
    rewrite add_totals_nil. split.
    + intros [[-> ->] ?]. done.
    + intros [-> [-> ?]%app_eq_nil]. done.
Qed.

Lemma sum_sound_nil (m : bmap (list (string * N))) :
  sum_sound_approx_categories m = [] <-> forall e, e ∈ m -> e.2 = [].
Proof.
  unfold sum_sound_approx_categories.
  enough (H : forall t, foldl (fun totals hc => foldl add_total totals hc.2) t m = [] <->
    t = [] /\ forall e, e ∈ m -> e.2 = []) by (rewrite H; naive_solver).
  induction m as [|e m IH]; intros t; cbn; [set_solver|].
  rewrite IH, add_totals_nil. set_solver.
Qed.

Lemma demoted_triggers_nil (h : HarnessMetadata) (counts : C.CrateUnsoundnessCounts) :
  demoted_triggers h counts = [] <->
  forall e, e ∈ resolve_demoting_categories h counts -> e.2 = 0.
Proof.
  unfold demoted_triggers. split.
  - intros H%map_eq_nil e He. rewrite filter_nil_iff in H. specialize (H e He).
    apply N.ltb_ge in H. lia.
  - intros H. assert (List.filter (fun e => 0 <? e.2) (resolve_demoting_categories h counts) = [])
      as ->; [|done].
    apply filter_nil_iff. intros e He. rewrite (H e He). done.
Qed.

Lemma push_trigger_nil (t : list string) (c : string) (n : N) :
  push_trigger t c n = [] <-> t = [] /\ n = 0.
Proof.
  unfold push_trigger. destruct (N.ltb_spec 0 n).
  - split; [intros H'; by apply app_eq_nil in H' as [_ ?]|lia].
  - split; [intros ->; split; [done|lia]|by intros [-> _]].
Qed.

(** The counts of the fail-closed categories that both classifiers read. *)
Definition fail_closed_counts (h : HarnessMetadata) (counts : C.CrateUnsoundnessCounts)
    : list (string * N) :=
  [("assert_untranslatable", C.assert_untranslatable counts);
   ("heap_check_untranslatable", C.heap_check_untranslatable counts);
   ("heap_check_unknown_layout", C.heap_check_unknown_layout counts);
   ("iterator_unsoundness",
    resolve_per_harness_count (C.iterator_unsoundness counts)
      (C.iterator_unsoundness_per_harness counts) (pretty_name h));
   ("bigint_unsoundness",
    resolve_per_harness_count (C.bigint_unsoundness counts)
      (C.bigint_unsoundness_per_harness counts) (pretty_name h))].

Lemma fail_closed_triggers_nil (t : list string) (h : HarnessMetadata)
    (counts : C.CrateUnsoundnessCounts) :
  fail_closed_triggers t h counts = [] <->
  t = [] /\ forall e, e ∈ fail_closed_counts h counts -> e.2 = 0.
Proof.
  unfold fail_closed_triggers.
  change push_fail_closed_trigger with (fun t c total phs h =>
    push_trigger t c (resolve_per_harness_count total phs (pretty_name h))).
  cbv beta zeta. rewrite !push_trigger_nil. unfold fail_closed_counts.
  rewrite <- Forall_forall, !Forall_cons, Forall_nil. cbn. tauto.
Qed.

Lemma fail_closed_triggers_app (t : list string) (h : HarnessMetadata)
    (counts : C.CrateUnsoundnessCounts) :
  fail_closed_triggers t h counts = t ++ fail_closed_triggers [] h counts.
Proof.
  unfold fail_closed_triggers, push_fail_closed_trigger, push_trigger. cbv zeta.
  repeat (case_match; rewrite ?app_assoc, ?app_nil_r; try done).
Qed.

Lemma pretty_no_equals (n : N) :
  Str.chars_all (fun d => negb (Ascii.eqb d "=")) (pretty n) = true.
Proof.
  eapply Str.chars_all_impl; [|apply Str.pretty_digits]. intros c H.
  destruct (Ascii.eqb_spec c "="%char) as [->|]; [by vm_compute in H|done].
Qed.

(** One entry parses back to its name and count. *)
Lemma taint_step_entry (acc : N * N) (e : string * N) :
  e.2 < 2 ^ 64 ->
  taint_step acc (entry_text e) =
  (acc.1 + e.2, if String.eqb e.1 "unhandled_calls" then acc.2 + e.2 else acc.2).
Proof.
  intros H. unfold taint_step, entry_text.
  change ("=" +:+ pretty e.2) with (String "=" (pretty e.2)).
  by rewrite (Str.rsplit_once_last _ _ _ (pretty_no_equals e.2)), Str.parse_usize_pretty.
Qed.

Lemma offset_prefix_iff (c : UnsoundnessCategory) (n : N) :
  Str.starts_with (entry_text (json_key c, n)) OFFSET_PREFIX = true <->
  c = OffsetProvenanceUnresolved.
Proof.
  split.
  - destruct c; first [reflexivity | intros H; vm_compute in H; discriminate H].
  - intros ->. unfold entry_text. cbn [fst snd].
    change (json_key OffsetProvenanceUnresolved) with "offset_provenance_unresolved".
    rewrite Str.app_assoc. apply Str.starts_with_app.
Qed.

(** The entries a harness looks up are attributed to it. *)
Lemma lookup_attributed (counts : C.CrateUnsoundnessCounts) (name : string)
    (cats : list (string * N)) (e : string * N) :
  lookup_per_harness (C.sound_approx_per_harness counts) name = Some cats -> e ∈ cats ->
  e ∈ attributed_entries counts name.
Proof.
  intros (key & Hin & Hm)%lookup_per_harness_sound He.
  apply list_elem_of_In, in_concat. exists cats. split; [|by apply list_elem_of_In].
  apply in_map_iff. exists (key, cats). split; [done|]. apply filter_In.
  split; [by apply list_elem_of_In|]. apply attributable_iff. by left.
Qed.

Lemma attributed_nil_totals (counts : C.CrateUnsoundnessCounts) (name : string) :
  C.sound_approx_crate_totals counts =
    sum_sound_approx_categories (C.sound_approx_per_harness counts) ->
  is_nil (C.sound_approx_crate_totals counts) = true -> attributed_entries counts name = [].
Proof.
  intros -> H%is_nil_iff. rewrite sum_sound_nil in H. unfold attributed_entries.
  induction (C.sound_approx_per_harness counts) as [|e l IH]; cbn; [done|].
  specialize (IH (fun e' He' => H e' (list_elem_of_further _ _ _ He'))).
  destruct (attributable_to_harness e.1 name _); cbn; [|done].
  rewrite IH, (H e) by left. done.
Qed.

(** ** Properties *)

(** The certification reads back exactly the counts that the classification
    printed: over entries of 64-bit counts, the parsed taint total is their sum
    and the parsed share of [unhandled_calls] is the sum of its entries. *)
Theorem taint_total_entries (es : list (string * N)) (H : forall e, e ∈ es -> e.2 < 2 ^ 64) :
  taint_total (map entry_text es) =
  (sum (map snd es), entries_total "unhandled_calls" es).
Proof.
  unfold taint_total, entries_total.
  enough (G : forall acc, foldl taint_step acc (map entry_text es) =
    (acc.1 + sum (map snd es),
     acc.2 + sum (map snd (List.filter (fun e => String.eqb e.1 "unhandled_calls") es)))).
  { rewrite G. f_equal; apply N.add_0_l. }
  induction es as [|e es IH]; intros acc; cbn [map foldl List.filter].
  - cbn. rewrite !N.add_0_r. by destruct acc.
  - rewrite taint_step_entry by (apply H; left).
    rewrite IH by (intros e' He'; apply H; by right). cbn [fst snd].
    destruct (String.eqb e.1 "unhandled_calls"); cbn [map]; rewrite !sum_cons; f_equal; lia.
Qed.

(** C30: what "genuine" means.  For the counts of a crate (whose crate totals are
    the sums of its per-harness entries), a counterexample is classified as
    genuine exactly when no demoting category and no fail-closed category has a
    positive count against the harness and no sound approximation is attributed
    to it. *)
Theorem classify_ctrex_genuine_iff (h : HarnessMetadata) (counts : C.CrateUnsoundnessCounts)
    (totals : C.sound_approx_crate_totals counts =
              sum_sound_approx_categories (C.sound_approx_per_harness counts)) :
  classify_ctrex h counts = Genuine <->
  (forall e, e ∈ resolve_demoting_categories h counts -> e.2 = 0) /\
  (forall e, e ∈ fail_closed_counts h counts -> e.2 = 0) /\
  attributed_entries counts (pretty_name h) = [].
Proof.
  rewrite <- demoted_triggers_nil.
  assert (F := fail_closed_triggers_nil [] h counts).
  assert (F' : fail_closed_triggers [] h counts = [] <->
    forall e, e ∈ fail_closed_counts h counts -> e.2 = 0) by (rewrite F; naive_solver).
  rewrite <- F'. clear F F'.
  rewrite <- sound_approx_nil, <- (map_nil_iff entry_text), <- residual_spec.
  assert (L : is_nil (default [] (lookup_per_harness (C.sound_approx_per_harness counts)
      (pretty_name h))) = false -> residual h counts <> []).
  { rewrite residual_spec, map_nil_iff, sound_approx_nil.
    destruct (lookup_per_harness _ _) as [[|e cats]|] eqn:E; [done| |done]. intros _ H.
    pose proof (lookup_attributed counts _ _ e E (list_elem_of_here _ _)) as H'.
    rewrite H in H'. set_solver. }
  assert (T : is_nil (C.sound_approx_crate_totals counts) = true -> residual h counts = []).
  { intros H. rewrite residual_spec, map_nil_iff, sound_approx_nil.
    by apply attributed_nil_totals. }
  unfold classify_ctrex.
  destruct (demoted_triggers h counts) as [|t ts]; cbn [is_nil negb andb].
  - destruct (fail_closed_triggers [] h counts); cbn [is_nil negb]; [|naive_solver].
    destruct (is_nil (default [] _)); cbn [negb]; [|naive_solver].
    destruct (is_nil (C.sound_approx_crate_totals counts)); cbn [negb andb]; [naive_solver|].
    destruct (residual h counts); cbn; naive_solver.
  - destruct (forallb _ _); cbn [negb]; [|naive_solver].
    destruct (fail_closed_triggers [] h counts); cbn [is_nil negb]; naive_solver.
Qed.

(** An over-approximation verdict, the only tainted verdict that may still be
    certified whatever its categories, is never given in the presence of an
    encoding gap: every demoting category with a positive count is the offset
    one, and no fail-closed category counts. *)
Theorem classify_ctrex_over_approximation (h : HarnessMetadata)
    (counts : C.CrateUnsoundnessCounts) (cats : list string)
    (Hc : classify_ctrex h counts = OverApproximation cats) :
  (forall c n, (json_key c, n) ∈ resolve_demoting_categories h counts -> 0 < n ->
     c = OffsetProvenanceUnresolved) /\
  (forall e, e ∈ fail_closed_counts h counts -> e.2 = 0) /\ cats <> [].
Proof.
  unfold classify_ctrex in Hc.
  set (off := negb (is_nil (demoted_triggers h counts)) &&
    forallb (fun t => Str.starts_with t OFFSET_PREFIX) (demoted_triggers h counts)) in *.
  destruct (negb (is_nil (demoted_triggers h counts)) && negb off) eqn:E1; [done|].
  destruct (is_nil (fail_closed_triggers [] h counts)) eqn:E2; cbn [negb] in Hc;
    [|by destruct off].
  apply is_nil_iff, fail_closed_triggers_nil in E2 as [_ E2].
  assert (Hoff : forall c n, (json_key c, n) ∈ resolve_demoting_categories h counts -> 0 < n ->
    c = OffsetProvenanceUnresolved).
  { intros c n Hin Hp. pose proof (elem_of_triggers _ _ Hin Hp) as Ht.
    fold (demoted_triggers h counts) in Ht.
    assert (D : is_nil (demoted_triggers h counts) = false).
    { destruct (demoted_triggers h counts); [set_solver|done]. }
    unfold off in E1. rewrite D in E1. cbn [negb andb] in E1.
    apply negb_false_iff in E1. rewrite forallb_forall in E1.
    apply list_elem_of_In, E1 in Ht. by apply offset_prefix_iff in Ht. }
  split; [done|]. split; [done|].
  destruct off eqn:Eo.
  - simplify_eq. apply andb_true_iff in Eo as [Eo _].
    by destruct (demoted_triggers h counts).
  - destruct (is_nil (default [] _)) eqn:E3; cbn [negb] in Hc.
    + destruct (negb (is_nil (C.sound_approx_crate_totals counts))); cbn [andb] in Hc; [|done].
      destruct (is_nil (residual h counts)) eqn:E4; cbn [negb] in Hc; [done|].
      simplify_eq. by destruct (residual h counts).
    + simplify_eq. by destruct (default [] _).
Qed.

(** certification is sound against its evidence.  A verdict becomes genuine
    only from an over-approximation or an offset-only gap, on a readable artifact
    that accounts for every approximation of the harness, when the artifact
    itself marks a violated check as independent of every freed value. *)
Theorem recertify_sound (cat : CtrexCategory) (artifact : option Artifact.VcArtifact)
    (ps : list PropertyModel.Property)
    (Hg : recertify_overapprox_ctrex cat artifact ps = Genuine) :
  cat = Genuine \/
  exists a categories p q,
    artifact = Some a /\
    (cat = OverApproximation categories \/
     cat = EncodingGap categories /\
     forall c, c ∈ categories -> Str.starts_with c OFFSET_PREFIX = true) /\
    Artifact.approximation_identity_complete a = true /\
    0 < (taint_total categories).1 - (taint_total categories).2 /\
    Artifact.accounted_approximations a =
      (taint_total categories).1 - (taint_total categories).2 /\
    p ∈ ps /\ PropertyModel.status p = PropertyModel.Failure /\
    q ∈ Artifact.properties a /\
    Artifact.pid (Artifact.pm_id q) = PropertyModel.id (PropertyModel.property_id p) /\
    Artifact.is_error_p (Artifact.smt_var q) = true /\
    Artifact.approximation_dependent q = Some false.
Proof.
  assert (K : forall categories ev, Artifact.load_approximation_evidence artifact = Some ev ->
    ctrex_certifiable_genuine categories ev ps = true ->
    exists a p q, artifact = Some a /\
    Artifact.approximation_identity_complete a = true /\
    0 < (taint_total categories).1 - (taint_total categories).2 /\
    Artifact.accounted_approximations a =
      (taint_total categories).1 - (taint_total categories).2 /\
    p ∈ ps /\ PropertyModel.status p = PropertyModel.Failure /\
    q ∈ Artifact.properties a /\
    Artifact.pid (Artifact.pm_id q) = PropertyModel.id (PropertyModel.property_id p) /\
    Artifact.is_error_p (Artifact.smt_var q) = true /\
    Artifact.approximation_dependent q = Some false).
  { intros categories ev Hev. unfold ctrex_certifiable_genuine.
    destruct artifact as [a|]; [|done].
    destruct (taint_total categories) as [taint unh]; cbn [fst snd].
    destruct (N.eqb_spec (taint - unh) 0); cbn [orb]; [done|].
    destruct (Artifact.complete ev) eqn:Ec; cbn [negb orb]; [|done].
    destruct (N.eqb_spec (Artifact.accounted ev) (taint - unh)) as [Ea|]; cbn [negb]; [|done].
    intros (p & Hp & Hc)%existsb_elem. unfold certified_violation in Hc.
    apply andb_true_iff in Hc as [Hf%bool_decide_eq_true Hd].
    destruct (Artifact.dependent_by_id ev !! _) as [[[]|]|] eqn:El; try done.
    destruct (Artifact.dependent_by_id_sound a ev _ _ Hev El) as (q & Hq & Hid & He & Hdep).
    injection Hev as <-. cbn in *. exists a, p, q. repeat split; try done. lia. }
  destruct cat as [cats|cats| |]; cbn in Hg; [| |by left|done]; right.
  - destruct (negb (is_nil cats) && _) eqn:E; [|done].
    destruct (Artifact.load_approximation_evidence artifact) as [ev|] eqn:Hev; [|done].
    destruct (ctrex_certifiable_genuine cats ev ps) eqn:Hc; [|done].
    apply andb_true_iff in E as [_ E]. rewrite forallb_forall in E.
    destruct (K cats ev eq_refl Hc) as (a & p & q & Ha & H). exists a, cats, p, q.
    split; [done|]. split; [|done]. right. split; [done|].
    intros c Hin. by apply E, list_elem_of_In.
  - destruct (Artifact.load_approximation_evidence artifact) as [ev|] eqn:Hev; [|done].
    destruct (ctrex_certifiable_genuine cats ev ps) eqn:Hc; [|done].
    destruct (K cats ev eq_refl Hc) as (a & p & q & Ha & H). exists a, cats, p, q.
    split; [done|]. split; [by left|done].
Qed.

(** An UNKNOWN verdict is labelled by exactly the families of reasons that
    are present, and lists all of them; it is clean when no demoting category,
    no fail-closed category and no looked-up sound approximation counts. *)
Theorem classify_unknown_quality_spec (h : HarnessMetadata) (counts : C.CrateUnsoundnessCounts) :
  let gap := demoted_triggers h counts ++ fail_closed_triggers [] h counts in
  let over := map entry_text (default []
    (lookup_per_harness (C.sound_approx_per_harness counts) (pretty_name h))) in
  (classify_unknown_quality h counts = QClean <->
     (forall e, e ∈ resolve_demoting_categories h counts -> e.2 = 0) /\
     (forall e, e ∈ fail_closed_counts h counts -> e.2 = 0) /\ over = []) /\
  (classify_unknown_quality h counts = QMixed (gap ++ over) <-> gap <> [] /\ over <> []) /\
  (classify_unknown_quality h counts = QEncodingGap gap <-> gap <> [] /\ over = []) /\
  (classify_unknown_quality h counts = QOverApproximation over <-> gap = [] /\ over <> []).
Proof.
  cbv zeta.
  assert (G : collect_encoding_gap_reasons h counts =
    demoted_triggers h counts ++ fail_closed_triggers [] h counts) by apply fail_closed_triggers_app.
  assert (O : collect_overapprox_reasons h counts = map entry_text (default []
    (lookup_per_harness (C.sound_approx_per_harness counts) (pretty_name h)))).
  { unfold collect_overapprox_reasons. by destruct (lookup_per_harness _ _). }
  assert (N : collect_encoding_gap_reasons h counts = [] <->
    (forall e, e ∈ resolve_demoting_categories h counts -> e.2 = 0) /\
    (forall e, e ∈ fail_closed_counts h counts -> e.2 = 0)).
  { unfold collect_encoding_gap_reasons. by rewrite fail_closed_triggers_nil, demoted_triggers_nil. }
  assert (N' : forall P, (forall e, e ∈ resolve_demoting_categories h counts -> e.2 = 0) /\
    (forall e, e ∈ fail_closed_counts h counts -> e.2 = 0) /\ P <->
    collect_encoding_gap_reasons h counts = [] /\ P) by (intros P; rewrite N; tauto).
  rewrite <- G, <- O, N'. clear N N' G O. unfold classify_unknown_quality.
  destruct (collect_encoding_gap_reasons h counts) as [|g gs],
    (collect_overapprox_reasons h counts) as [|o os]; cbn [is_nil]; naive_solver.
Qed.

(** ** Closed instances *)

Lemma taint_total_entries_witness :
  taint_total ["chc_translation_drop=3"; "unhandled_calls=1"] = (4, 1).
Proof.
  apply (taint_total_entries [("chc_translation_drop", 3); ("unhandled_calls", 1)]).
  intros e. rewrite !elem_of_cons. intros [->|[->|H]]; [done|done|set_solver].
Defined.

Lemma classify_ctrex_genuine_iff_witness :
  classify_ctrex (Metadata.Sample.harness_of "clean" "clean::k") (crate_spec Metadata.Sample.clean)
  = Genuine.
Proof.
  apply (classify_ctrex_genuine_iff (Metadata.Sample.harness_of "clean" "clean::k")
    (crate_spec Metadata.Sample.clean) eq_refl).
  split; [|split; [|by vm_compute]]; apply Forall_forall;
    repeat (apply List.Forall_cons; [by vm_compute|]); apply List.Forall_nil.
Defined.

Lemma classify_ctrex_over_approximation_witness :
  C.iterator_unsoundness (crate_spec Metadata.Sample.stubbed) = 0 /\
  ["stub_approximation=2"] <> [].
Proof.
  pose proof (classify_ctrex_over_approximation
    (Metadata.Sample.harness_of "stubbed" "stubbed::h") (crate_spec Metadata.Sample.stubbed)
    ["stub_approximation=2"] ltac:(by vm_compute)) as (_ & _ & H).
  split; [by vm_compute|exact H].
Defined.

Module Sample.

(** An artifact that accounts for two approximations and marks its check as
    independent of the freed values. *)
Definition independent : Artifact.VcArtifact :=
  {| Artifact.version := Artifact.CURRENT_VERSION; Artifact.mode := Artifact.ChcMode;
     Artifact.harness := {| Artifact.hid_mangled_name := "h"; Artifact.hid_pretty_name := "h" |};
     Artifact.properties :=
       [{| Artifact.pm_id := {| Artifact.pid := 3; Artifact.pid_description := None |};
           Artifact.pm_kind := Artifact.Assertion; Artifact.pm_location := None;
           Artifact.pm_message := None; Artifact.violation_var := None;
           Artifact.smt_var := Some "error_p3"; Artifact.reach_var := None;
           Artifact.approximation_dependent := Some false |}];
     Artifact.smt_file := None; Artifact.metadata := None;
     Artifact.approximated_vars := ["_4"]; Artifact.accounted_approximations := 2;
     Artifact.approximation_identity_complete := true |}.

Definition violated : list PropertyModel.Property :=
  [VerificationResult.Sample.check "assertion" 3 PropertyModel.Failure].

End Sample.

Lemma recertify_sound_witness :
  exists a categories p q,
    Some Sample.independent = Some a /\ p ∈ Sample.violated /\ q ∈ Artifact.properties a /\
    0 < (taint_total categories).1 - (taint_total categories).2 /\
    Artifact.approximation_dependent q = Some false.
Proof.
  destruct (recertify_sound (OverApproximation ["stub_approximation=2"])
    (Some Sample.independent) Sample.violated ltac:(by vm_compute)) as [?|H]; [discriminate|].
  destruct H as (a & c & p & q & Ha & _ & _ & Ht & _ & Hp & _ & Hq & _ & _ & Hd).
  exists a, c, p, q. repeat split; assumption.
Defined.

(** A counterexample of a harness whose crate holds a positive iterator count
    keyed by a function is classified as genuine: the fail-closed families are
    resolved by the harness-name lookup, which ignores such keys. *)
Theorem iterator_survivor_is_genuine :
  let counts := crate_spec Metadata.Sample.iterators in
  let h := Metadata.Sample.harness_of "iterators" "iterators::h" in
  C.iterator_unsoundness counts = 2 /\
  resolve_per_harness_count_fail_closed (C.iterator_unsoundness counts)
    (C.iterator_unsoundness_per_harness counts) (pretty_name h) (C.harness_names counts) = 2 /\
  classify_ctrex h counts = Genuine.
Proof. split; [done|]. split; by vm_compute. Qed.

End CtrexClassify.
