(* ===== verification/TwoLane.v ===== *)
(** * The two-lane retry of loop-contract harnesses

    Models [loop_two_lane.rs] of the driver and [maybe_two_lane_retry] of
    [harness_runner.rs].  A lane is a child process: running it is a parameter,
    a function of the command and its wall-clock budget that gives the child's
    standard output, [None] when the child could not be run.  Times are in
    nanoseconds. *)

From S2P Require Import Prelude Metadata PropertyModel Coverage VerificationResult Artifact.

Module TwoLane.
Import PropertyModel Coverage Metadata VerificationResult.

Definition LANE_P_DEPTHS : list N := [2; 3]%N.
Definition LANE_SOLVER_BUDGET_SECS : N := 60.

Definition REQUIRED_OBLIGATIONS : list string :=
  [Artifact.LOOP_INVARIANT_BASE_REPORT_TEXT; Artifact.LOOP_INVARIANT_STEP_REPORT_TEXT].

(** [enum TwoLaneOutcome] *)
Inductive TwoLaneOutcome := Proved | Inconclusive (why : string).

(** [harness_is_eligible]; [in_lane] when the lane variable is set in the
    environment. *)
Definition harness_is_eligible (in_lane : bool) (artifact : option Artifact.VcArtifact) : bool :=
  if in_lane then false else Artifact.artifact_has_loop_contract_obligations artifact.

(** [TAKES_A_VALUE] *)
Definition TAKES_A_VALUE : list string :=
  ["--harness-timeout"; "--harness"; "--unwind"; "--target-dir"].

Definition mem (s : string) (l : list string) : bool := existsb (String.eqb s) l.

(** [d=] starts the token for one of the dropped flags [d]. *)
Definition is_assignment (drop_flags : list string) (a : string) : bool :=
  existsb (fun d => Str.starts_with a (d +:+ "=")) drop_flags.

(** The loop of [lane_argv] over the arguments, with its [skip_value] flag. *)
Fixpoint keep_args (drop_flags : list string) (skip_value : bool) (argv : list string)
    : list string :=
  match argv with
  | [] => []
  | a :: argv' =>
      if skip_value then keep_args drop_flags false argv'
      else if mem a drop_flags then keep_args drop_flags (mem a TAKES_A_VALUE) argv'
      else if is_assignment drop_flags a then keep_args drop_flags false argv'
      else a :: keep_args drop_flags false argv'
  end.

(** [lane_argv], on this process's arguments, the executable first. *)
Definition lane_argv (args extra drop_flags : list string) : option (string * list string) :=
  match args with
  | [] => None
  | exe :: argv => Some (exe, keep_args drop_flags false argv ++ extra)
  end.

(** [child_proved] *)
Definition child_proved (stdout : string) : bool :=
  existsb (fun l => String.eqb (Str.trim l) "VERIFICATION:- SUCCESSFUL") (Str.lines stdout).

(** A child command: the executable, its arguments and the variables set. *)
Record Command := {
  cmd_exe : string;
  cmd_args : list string;
  cmd_env : list (string * string);
}.

(** [lane_target_dir]; [temp_join] joins a name to the temporary directory. *)
Definition lane_target_dir (temp_join : string -> string) (process_id : N) (tag : string)
    : string :=
  temp_join ("trust-mc-lane-" +:+ tag +:+ "-" +:+ pretty process_id).

Definition timeout_arg : string :=
  "--harness-timeout=" +:+ pretty LANE_SOLVER_BUDGET_SECS +:+ "s".

(** [lane_o_command] *)
Definition lane_o_command (args : list string) (target_dir : string -> string)
    (harness : string) : option Command :=
  let extra := ["--ay-chc"; "--prove-safety-only"; "--harness"; harness; timeout_arg;
                "--target-dir"; target_dir "o"] in
  '(exe, argv) ← lane_argv args extra
    ["--ay-chc-bounded-unroll"; "--unwind"; "--harness"; "--harness-timeout"; "--target-dir"];
  Some {| cmd_exe := exe; cmd_args := argv;
          cmd_env := [("TRUST_MC_LOOP_LANE", "obligations");
                      ("TRUST_MC_COMPOUND_DECREASES", "1")] |}.

(** [lane_p_command] *)
Definition lane_p_command (args : list string) (target_dir : string -> string)
    (harness : string) (depth : N) : option Command :=
  let extra := ["--ay-chc"; "--ay-chc-bounded-unroll"; "--unwind"; pretty depth; "--harness";
                harness; timeout_arg; "--target-dir"; target_dir "p"] in
  '(exe, argv) ← lane_argv args extra
    ["--prove-safety-only"; "--harness"; "--harness-timeout"; "--target-dir"];
  Some {| cmd_exe := exe; cmd_args := argv;
          cmd_env := [("TRUST_MC_LOOP_LANE", "properties"); ("TRUST_MC_NO_LOOP_RULE", "1");
                      ("TRUST_MC_COMPOUND_DECREASES", "1")] |}.

(** [obligations_present_in_report] *)
Definition obligations_present_in_report (stdout : string) : list string :=
  foldl (fun found m =>
    if (Str.contains stdout m.1 || Str.contains stdout m.2) && negb (mem m.1 found)
    then found ++ [m.1] else found) [] Artifact.LOOP_CONTRACT_REPORT_MARKERS.

(** [{missing:?}] of strings without characters to escape. *)
Definition debug_list (l : list string) : string := "[" +:+ Str.join ", " (map quoted l) +:+ "]".

(** [merge] *)
Definition merge (lane_o_proved : bool) (lane_o_stdout : string) (lane_p_proved : bool)
    : TwoLaneOutcome :=
  if negb lane_o_proved then
    Inconclusive "obligations lane did not discharge the loop contract"
  else
    let present := obligations_present_in_report lane_o_stdout in
    let missing := List.filter (fun r => negb (mem r present)) REQUIRED_OBLIGATIONS in
    match missing with
    | _ :: _ =>
        Inconclusive ("obligations lane is missing " +:+ debug_list missing +:+
                      " — refusing a vacuous pass")
    | [] =>
        if negb lane_p_proved then
          Inconclusive "properties lane did not prove the user properties at any tried depth"
        else Proved
    end.

Definition sec : N := 1000000000.
Definition RETRY_TOTAL_BUDGET : N := 70 * sec.

(** [lane_budget] *)
Definition lane_budget (elapsed : N) : option N :=
  if N.ltb RETRY_TOTAL_BUDGET elapsed then None
  else let remaining := (RETRY_TOTAL_BUDGET - elapsed)%N in
       if N.ltb remaining (10 * sec) then None else Some remaining.

(** The text a discharged check's description ends with. *)
Definition DISCHARGED : string := " [discharged in the two-lane loop-contract retry]".

(** The loop over the checks when the lanes prove the harness. *)
Definition discharge (p : Property) : Property :=
  match status p with
  | Failure =>
      {| description := description p +:+ DISCHARGED; property_id := property_id p;
         source_location := source_location p; status := Success; trace := trace p |}
  | _ => p
  end.

Section Retry.

(** Running a child: its standard output, if it ran to its end. *)
Context (run_piped_with_timeout : Command -> N -> option string).
(** The readings of the retry's clock, in order: one before the lanes start and
    one before each deeper attempt. *)
Context (clock : nat -> N).
(** This process's arguments, whether it is itself a lane, and the lanes' private
    target directories. *)
Context (args : list string) (in_lane : bool) (target_dir : string -> string).

Definition run (c : option Command) (budget : N) : option string :=
  cmd ← c; run_piped_with_timeout cmd budget.

(** The deeper attempts of the properties lane; [i] counts the clock readings. *)
Fixpoint deepen (harness_name : string) (i : nat) (depths : list N) : bool :=
  match depths with
  | [] => false
  | depth :: depths' =>
      match lane_budget (clock i) with
      | None => false
      | Some b =>
          match lane_p_command args target_dir harness_name depth with
          | None => false
          | Some cmd =>
              match run_piped_with_timeout cmd b with
              | None => deepen harness_name (S i) depths'
              | Some out => if child_proved out then true
                            else deepen harness_name (S i) depths'
              end
          end
      end
  end.

(** [maybe_two_lane_retry]; the messages it prints are left out. *)
Definition maybe_two_lane_retry (artifact : option Artifact.VcArtifact)
    (harness : HarnessMetadata) (result : VerificationResult) : VerificationResult :=
  if negb (harness_is_eligible in_lane artifact) then result
  else
    let harness_name := pretty_name harness in
    match lane_budget (clock 0) with
    | None => result
    | Some budget =>
        let o_res := run (lane_o_command args target_dir harness_name) budget in
        let p_res := run (lane_p_command args target_dir harness_name (hd 0%N LANE_P_DEPTHS)) budget in
        match o_res with
        | None => result
        | Some o_stdout =>
            if negb (child_proved o_stdout) then result
            else
              let p_first := match p_res with Some o => child_proved o | None => false end in
              let p_proved := p_first || deepen harness_name 1 (tl LANE_P_DEPTHS) in
              match merge true o_stdout p_proved with
              | Proved => set_verdict VSuccess FNone (set_results (map discharge (results result)) result)
              | Inconclusive _ => result
              end
        end
    end.

End Retry.

(** ** Lemmas *)

Lemma mem_iff (s : string) (l : list string) : mem s l = true <-> s ∈ l.
Proof.
  unfold mem. rewrite existsb_elem. split.
  - intros (x & Hx & ->%String.eqb_eq). done.
  - intros H. exists s. split; [done|apply String.eqb_refl].
Qed.

(** A report holds an obligation when it contains one of its two spellings. *)
Definition reports (stdout canonical also : string) : Prop :=
  Str.contains stdout canonical = true \/ Str.contains stdout also = true.

(** An argument as clap reads it: a token of its own, or a flag with its value. *)
Inductive arg := Tok (s : string) | Val (f v : string).

Definition tokens (a : arg) : list string := match a with Tok s => [s] | Val f v => [f; v] end.

(** What the lane takes out of the command line. *)
Definition dropped (drop_flags : list string) (a : arg) : bool :=
  match a with
  | Tok s => mem s drop_flags || is_assignment drop_flags s
  | Val f _ => mem f drop_flags
  end.

(** The command lines the flag table describes: a dropped flag is followed by
    its value when it takes one and by none otherwise, and no value looks like a
    dropped flag. *)
Definition arg_ok (drop_flags : list string) (a : arg) : bool :=
  match a with
  | Tok s => negb (mem s drop_flags && mem s TAKES_A_VALUE)
  | Val f v =>
      if mem f drop_flags then mem f TAKES_A_VALUE
      else negb (is_assignment drop_flags f) && negb (mem v drop_flags)
           && negb (is_assignment drop_flags v)
  end.

Lemma keep_args_units (drop_flags : list string) (us : list arg) :
  forallb (arg_ok drop_flags) us = true ->
  keep_args drop_flags false (List.concat (map tokens us)) =
  List.concat (map tokens (List.filter (fun a => negb (dropped drop_flags a)) us)).
Proof.
  induction us as [|u us IH]; [done|]. cbn [forallb]. rewrite andb_true_iff. intros [Hu Hus].
  specialize (IH Hus). destruct u as [s|f v]; cbn [map List.concat tokens app List.filter dropped].
  - cbn [keep_args]. cbn [arg_ok] in Hu. destruct (mem s drop_flags) eqn:E; cbn [orb negb].
    + destruct (mem s TAKES_A_VALUE); [done|]. exact IH.
    + destruct (is_assignment drop_flags s); cbn; [exact IH|by rewrite IH].
  - cbn [keep_args]. cbn [arg_ok] in Hu. destruct (mem f drop_flags) eqn:E; cbn [negb].
    + rewrite Hu. exact IH.
    + rewrite !andb_true_iff, !negb_true_iff in Hu. destruct Hu as [[-> ->] ->].
      cbn. by rewrite IH.
Qed.

Lemma lane_budget_Some (elapsed b : N) :
  lane_budget elapsed = Some b <-> (elapsed + b = RETRY_TOTAL_BUDGET /\ 10 * sec <= b)%N.
Proof.
  unfold lane_budget. destruct (N.ltb_spec RETRY_TOTAL_BUDGET elapsed).
  - split; [done|]. unfold sec. lia.
  - destruct (N.ltb_spec (RETRY_TOTAL_BUDGET - elapsed) (10 * sec)).
    + split; [done|]. lia.
    + split; [intros [= <-]; lia|]. intros [? ?]. f_equal. lia.
Qed.

Lemma merge_proved (o p : bool) (stdout : string) :
  merge o stdout p = Proved <->
  o = true /\ p = true /\
  reports stdout Artifact.LOOP_INVARIANT_BASE_REPORT_TEXT "loop invariant base case:" /\
  reports stdout Artifact.LOOP_INVARIANT_STEP_REPORT_TEXT "loop invariant inductive step:".
Proof.
  unfold merge, obligations_present_in_report, reports. rewrite <- !orb_true_iff.
  cbn [foldl Artifact.LOOP_CONTRACT_REPORT_MARKERS fst snd].
  generalize (Str.contains stdout Artifact.LOOP_INVARIANT_BASE_REPORT_TEXT
    || Str.contains stdout "loop invariant base case:") as b1.
  generalize (Str.contains stdout Artifact.LOOP_INVARIANT_STEP_REPORT_TEXT
    || Str.contains stdout "loop invariant inductive step:") as b2.
  generalize (Str.contains stdout "loop decreases clause:"
    || Str.contains stdout "loop decreases clause:") as b3.
  intros b3 b2 b1. destruct o, p, b1, b2, b3; vm_compute; naive_solver.
Qed.

(** The lanes that the retry ran and their clean reports. *)
Definition lanes_proved (run_piped : Command -> N -> option string) (args : list string)
    (target_dir : string -> string) (name : string) : Prop :=
  (exists cmd b out, lane_o_command args target_dir name = Some cmd /\
     (b <= RETRY_TOTAL_BUDGET)%N /\ run_piped cmd b = Some out /\ child_proved out = true /\
     reports out Artifact.LOOP_INVARIANT_BASE_REPORT_TEXT "loop invariant base case:" /\
     reports out Artifact.LOOP_INVARIANT_STEP_REPORT_TEXT "loop invariant inductive step:") /\
  (exists depth cmd b out, depth ∈ LANE_P_DEPTHS /\
     lane_p_command args target_dir name depth = Some cmd /\
     (b <= RETRY_TOTAL_BUDGET)%N /\ run_piped cmd b = Some out /\ child_proved out = true).

Lemma deepen_proved run_piped clock args target_dir name (i : nat) (depths : list N) :
  deepen run_piped clock args target_dir name i depths = true ->
  exists depth cmd b out, depth ∈ depths /\
    lane_p_command args target_dir name depth = Some cmd /\
    (b <= RETRY_TOTAL_BUDGET)%N /\ run_piped cmd b = Some out /\ child_proved out = true.
Proof.
  revert i. induction depths as [|d ds IH]; intros i; cbn [deepen]; [done|].
  destruct (lane_budget (clock i)) as [b|] eqn:Eb; [|done].
  apply lane_budget_Some in Eb as [Eb _].
  destruct (lane_p_command args target_dir name d) as [cmd|] eqn:Ec; [|done].
  assert (R : deepen run_piped clock args target_dir name (S i) ds = true ->
    exists depth cmd b out, depth ∈ d :: ds /\
    lane_p_command args target_dir name depth = Some cmd /\
    (b <= RETRY_TOTAL_BUDGET)%N /\ run_piped cmd b = Some out /\ child_proved out = true).
  { intros (depth & c & b' & out & Hd & H)%IH. exists depth, c, b', out.
    split; [by right|done]. }
  destruct (run_piped cmd b) as [out|] eqn:Er; [|exact R].
  destruct (child_proved out) eqn:Ep; [|exact R]. intros _.
  exists d, cmd, b, out. split; [left|]. split; [done|]. split; [lia|done].
Qed.

Lemma retry_cases run_piped clock args in_lane target_dir artifact h r :
  maybe_two_lane_retry run_piped clock args in_lane target_dir artifact h r = r \/
  (maybe_two_lane_retry run_piped clock args in_lane target_dir artifact h r =
     set_verdict VSuccess FNone (set_results (map discharge (results r)) r) /\
   in_lane = false /\ Artifact.artifact_has_loop_contract_obligations artifact = true /\
   lanes_proved run_piped args target_dir (pretty_name h)).
Proof.
  unfold maybe_two_lane_retry, harness_is_eligible.
  destruct in_lane; cbn [negb]; [by left|].
  destruct (Artifact.artifact_has_loop_contract_obligations artifact); cbn [negb]; [|by left].
  destruct (lane_budget (clock 0)) as [b|] eqn:Eb; [|by left].
  apply lane_budget_Some in Eb as [Eb _].
  destruct (run run_piped (lane_o_command args target_dir (pretty_name h)) b) as [o|] eqn:Eo;
    [|by left].
  destruct (child_proved o) eqn:Ep; cbn [negb]; [|by left].
  destruct (merge true o _) eqn:Em; [right|by left].
  apply merge_proved in Em as (_ & Hp & Hb & Hs).
  split; [done|]. split; [done|]. split; [done|]. split.
  - unfold run in Eo. destruct (lane_o_command args target_dir (pretty_name h)) as [cmd|];
      cbn in Eo; [|done].
    exists cmd, b, o. split; [done|]. split; [lia|]. done.
  - apply orb_true_iff in Hp as [Hp|Hp].
    + unfold run in Hp.
      destruct (lane_p_command args target_dir (pretty_name h) (hd 0%N LANE_P_DEPTHS))
        as [cmd|] eqn:Ec; cbn in Hp; [|done].
      destruct (run_piped cmd b) as [out|] eqn:Er; [|done].
      exists 2%N, cmd, b, out. split; [left|]. split; [done|]. split; [lia|done].
    + apply deepen_proved in Hp as (d & cmd & b' & out & Hd & H).
      exists d, cmd, b', out. split; [by right|done].
Qed.

Lemma discharge_no_failure (ps : list Property) (p : Property) :
  p ∈ map discharge ps -> status p <> Failure.
Proof.
  intros (q & -> & _)%list_elem_of_fmap. unfold discharge. destruct (status q) eqn:E; cbn; congruence.
Qed.

(** ** Properties *)

(** The merge rule.  The retry proves a harness exactly when the obligations
    lane is clean and its report holds both the base case and the inductive
    step, and the properties lane is clean. *)
Theorem merge_proved_iff (o p : bool) (stdout : string) :
  merge o stdout p = Proved <->
  o = true /\ p = true /\
  reports stdout Artifact.LOOP_INVARIANT_BASE_REPORT_TEXT "loop invariant base case:" /\
  reports stdout Artifact.LOOP_INVARIANT_STEP_REPORT_TEXT "loop invariant inductive step:".
Proof. apply merge_proved. Qed.

(** the retry only ever upgrades.  It returns the result as it is, or a
    success without a failed row; in the second case this process is not itself
    a lane, the harness carries loop-contract obligations, both lanes ran within
    the budget and reported a clean verification, and the obligations were
    present. *)
Theorem retry_only_upgrades (run_piped : Command -> N -> option string) (clock : nat -> N)
    (args : list string) (in_lane : bool) (target_dir : string -> string)
    (artifact : option Artifact.VcArtifact) (h : HarnessMetadata) (r : VerificationResult) :
  let r' := maybe_two_lane_retry run_piped clock args in_lane target_dir artifact h r in
  r' = r \/
  (r_status r' = VSuccess /\ failed_properties r' = FNone /\
   (forall p, p ∈ results r' -> status p <> Failure) /\
   length (results r') = length (results r) /\
   in_lane = false /\ Artifact.artifact_has_loop_contract_obligations artifact = true /\
   lanes_proved run_piped args target_dir (pretty_name h)).
Proof.
  cbv zeta. destruct (retry_cases run_piped clock args in_lane target_dir artifact h r)
    as [->|(-> & Hl & Ha & Hp)]; [by left|right].
  split; [done|]. split; [done|]. split; [apply discharge_no_failure|].
  split; [apply length_map|done].
Qed.

(** A lane's command line.  On a well-formed command line the lane keeps
    every argument it does not own, in order and with its value, drops the
    others in each of their spellings, and appends its own. *)
Theorem lane_argv_spec (exe : string) (us : list arg) (extra drop_flags : list string)
    (ok : forallb (arg_ok drop_flags) us = true) :
  lane_argv (exe :: List.concat (map tokens us)) extra drop_flags =
  Some (exe, List.concat (map tokens (List.filter (fun a => negb (dropped drop_flags a)) us))
             ++ extra).
Proof. unfold lane_argv. by rewrite keep_args_units. Qed.

(** a lane never gets more than what is left of the retry's total, and the
    retry stops when less than ten seconds are left. *)
Theorem lane_budget_bounds (elapsed : N) :
  match lane_budget elapsed with
  | Some b => (elapsed + b = RETRY_TOTAL_BUDGET /\ 10 * sec <= b)%N
  | None => (RETRY_TOTAL_BUDGET < elapsed + 10 * sec)%N
  end.
Proof.
  destruct (lane_budget elapsed) as [b|] eqn:E; [by apply lane_budget_Some|].
  unfold lane_budget in E. destruct (N.ltb_spec RETRY_TOTAL_BUDGET elapsed); [lia|].
  destruct (N.ltb_spec (RETRY_TOTAL_BUDGET - elapsed) (10 * sec)); [lia|done].
Qed.

(** ** Closed instances *)

Lemma lane_argv_spec_witness :
  lane_argv ["trust-mc"; "a.rs"; "--harness"; "h"; "--unwind=4"; "--quiet"] ["--ay-chc"]
    ["--harness"; "--unwind"] = Some ("trust-mc", ["a.rs"; "--quiet"; "--ay-chc"]).
Proof.
  apply (lane_argv_spec "trust-mc" [Tok "a.rs"; Val "--harness" "h"; Tok "--unwind=4"; Tok "--quiet"]
    ["--ay-chc"] ["--harness"; "--unwind"]). by vm_compute.
Defined.

(** A lane passes the retried harness's name to a substring filter and reads any
    positive verdict line of the child as its proof: a harness that fails in the
    child counts as proved when a sibling whose name contains its own is. *)
Theorem sibling_proof_accepted :
  let h := Metadata.Sample.harness_of "app" "app::step" in
  let sibling := Metadata.Sample.harness_of "app" "app::step_all" in
  find_proof_harnesses [pretty_name h] [h; sibling] false = [h; sibling] /\
  child_proved ("Checking harness app::step..." +:+ line_feed +:+
                "VERIFICATION:- FAILED" +:+ line_feed +:+
                "Checking harness app::step_all..." +:+ line_feed +:+
                "VERIFICATION:- SUCCESSFUL" +:+ line_feed) = true.
Proof. split; by vm_compute. Qed.

End TwoLane.
