(* ===== verification/HarnessRunner.v ===== *)
(** * Checking a harness

    Models [harness_runner.rs] and [metadata.rs] of the driver, and
    [determine_failed_from_properties] of [ay_parse/violation.rs]: the sequence
    of gates a solver result passes before it becomes a verdict, the collection
    of the results under [--fail-fast], and the selection and order of the
    harnesses.  The solver run and the decoded artifact are parameters; the
    messages printed on the way and the concrete playback that follows are left
    out. *)

From S2P Require Import Prelude Metadata Counts PropertyModel Coverage VerificationResult.
From S2P Require Import Demotion Artifact CtrexClassify TwoLane.

Module HarnessRunner.
Import PropertyModel Coverage Metadata Counts VerificationResult Demotion CtrexClassify TwoLane.

(** ** The helpers of harness_runner.rs *)

(** [unwind_bound_exhausted] *)
Definition unwind_bound_exhausted (ps : list Property) : bool :=
  existsb (fun p => bool_decide (status p = Failure) &&
                    String.eqb (PropertyModel.class (property_id p)) "unwind") ps.

(** [demotion_reasons_marker] *)
Definition demotion_reasons_marker (r : VerificationResult) : option string :=
  match demotion_reasons r with
  | [] => None
  | ds => Some ("[AY:DEMOTION_REASONS:" +:+ Str.join "," ds +:+ "]")
  end.

(** [proof_crosscheck_marker] *)
Definition proof_crosscheck_marker (p : ProofCrosscheck) : option string :=
  (fun label => "[AY:PROOF_CROSSCHECK:" +:+ label +:+ "]") <$> ProofCrosscheck_label p.

(** [proof_qualifiers_marker] *)
Definition proof_qualifiers_marker (r : VerificationResult) : option string :=
  if negb (bool_decide (r_status r = VSuccess)) then None
  else
    let quals := proof_qualifiers r ++
      (if N.ltb 0 (sound_fallback_count r)
       then ["sound_fallback=" +:+ pretty (sound_fallback_count r)] else []) in
    match quals with
    | [] => Some "[AY:PROOF_QUALIFIERS:clean]"
    | _ => Some ("[AY:PROOF_QUALIFIERS:" +:+ Str.join "," quals +:+ "]")
    end.

(** The digit of a half byte, [HEX[n]]. *)
Definition hex_digit (n : N) : ascii :=
  match String.get (N.to_nat n) "0123456789abcdef" with Some c => c | None => "0"%char end.

(** [hex_encode] *)
Fixpoint hex_encode (bytes : string) : string :=
  match bytes with
  | EmptyString => EmptyString
  | String b bytes' =>
      String (hex_digit (N.shiftr (N_of_ascii b) 4))
        (String (hex_digit (N.land (N_of_ascii b) 15)) (hex_encode bytes'))
  end.

(** [determine_failed_from_properties] of ay_parse/violation.rs *)
Definition is_panic_class (c : string) : bool :=
  String.eqb c "assertion" || String.eqb c "panic" || String.eqb c "unreachable".
Definition determine_failed_from_properties (ps : list Property) : FailedProperties :=
  let '(has_panic_failure, has_other_failure) :=
    foldl (fun acc p =>
      match status p with
      | Failure => if is_panic_class (PropertyModel.class (property_id p)) then (true, acc.2)
                   else (acc.1, true)
      | _ => acc
      end) (false, false) ps in
  if (has_other_failure : bool) then Other else if (has_panic_failure : bool) then PanicsOnly
  else FNone.

(** ** check_harness *)

(** The command-line arguments the gates read. *)
Record Args := {
  allow_vacuous : bool;
  strict_vacuity : bool;
  conformance_harnesses : list string;
}.

Definition is_success_status (r : VerificationResult) : bool :=
  negb (bool_decide (r_status r = VFailure)).

(** A gate that fails closed: the status and the kind of failure. *)
Definition fail_closed (r : VerificationResult) : VerificationResult := set_verdict VFailure Other r.

(** A gate that fails a result and keeps an existing kind of failure. *)
Definition fail_keeping (r : VerificationResult) : VerificationResult :=
  set_verdict VFailure (match failed_properties r with FNone => Other | f => f end) r.

(** The classification of a counterexample, after demotion. *)
Definition classify_stage (harness : HarnessMetadata) (counts : C.CrateUnsoundnessCounts)
    (artifact : option Artifact.VcArtifact) (r : VerificationResult) : VerificationResult :=
  let unwind_exhausted := unwind_bound_exhausted (results r) in
  if bool_decide (r_status r = VFailure) && is_nil (demotion_reasons r) then
    let has_non_chc_violation :=
      existsb (fun p => bool_decide (status p = Failure) &&
                        negb (String.eqb (PropertyModel.class (property_id p)) "chc")) (results r) in
    if unwind_exhausted then set_ctrex_category (Some CUnknown) r
    else if bool_decide (failed_properties r = Other) && negb has_non_chc_violation then
      set_ctrex_category (Some CUnknown) r
    else
      set_ctrex_category
        (Some (recertify_overapprox_ctrex (classify_ctrex harness counts) artifact (results r))) r
  else r.

(** V4: every check unreachable. *)
Definition vacuity_stage (args : Args) (should_panic : bool) (r : VerificationResult)
    : VerificationResult :=
  let vacuity_shape := classify_vacuity (results r) (harness_feasibility r) in
  if negb should_panic && is_success_status r && negb (bool_decide (vacuity_shape = NotVacuous)) then
    if allow_vacuous args then r else fail_closed r
  else r.

(** V4b: no checks at all. *)
Definition no_checks_stage (artifact : option Artifact.VcArtifact) (should_panic : bool)
    (r : VerificationResult) : VerificationResult :=
  if negb should_panic && is_success_status r && is_nil (results r) &&
     negb (Artifact.artifact_body_is_obligation_free artifact)
  then fail_closed r else r.

(** V5: a cover proved unsatisfiable, under [--strict-vacuity]. *)
Definition cover_stage (args : Args) (r : VerificationResult) : VerificationResult :=
  if has_unsatisfiable_cover (results r) && strict_vacuity args then fail_keeping r else r.

(** V5, conformance tier: no satisfied cover. *)
Definition conformance_stage (args : Args) (harness : HarnessMetadata) (r : VerificationResult)
    : VerificationResult :=
  if negb (should_panic (attributes harness)) &&
     mem (pretty_name harness) (conformance_harnesses args) &&
     negb (has_satisfied_cover (results r))
  then fail_keeping r else r.

(** V6: a [should_panic] harness whose panic is not certified. *)
Definition should_panic_stage (should_panic : bool) (r : VerificationResult) : VerificationResult :=
  if should_panic && bool_decide (failed_properties r = PanicsOnly) &&
     match ctrex_category r with
     | Some (EncodingGap _) | Some (OverApproximation _) => true
     | _ => false
     end
  then fail_closed r else r.

(** The counts recorded for the reports and the quality of an UNKNOWN. *)
Definition record_stage (harness : HarnessMetadata) (counts : C.CrateUnsoundnessCounts)
    (r : VerificationResult) : VerificationResult :=
  let r := set_kani_mem_overapprox_count
    (default 0%N (lookup_per_harness (C.kani_mem_overapprox_per_harness counts)
                    (pretty_name harness))) r in
  if bool_decide (ctrex_category r = Some CUnknown) then
    set_unknown_quality (Some (classify_unknown_quality harness counts)) r
  else r.

(** The gates of [check_harness] from the solver's result to the retry. *)
Definition gates (args : Args) (harness : HarnessMetadata) (counts : C.CrateUnsoundnessCounts)
    (artifact : option Artifact.VcArtifact) (r : VerificationResult) : VerificationResult :=
  let sp := should_panic (attributes harness) in
  let r := demote_for_all_unsoundness r harness counts in
  let r := classify_stage harness counts artifact r in
  let r := vacuity_stage args sp r in
  let r := no_checks_stage artifact sp r in
  let r := cover_stage args r in
  let r := conformance_stage args harness r in
  let r := apply_sound_fallback_fail_close r harness counts in
  let r := should_panic_stage sp r in
  record_stage harness counts r.

Definition effective (harness : HarnessMetadata) (r : VerificationResult) : bool :=
  is_effective_manual_success (r_status r) (should_panic (attributes harness)) (failed_properties r).

Section CheckHarness.

(** [run_ay]: the solver's result, given the demoted fallback count. *)
Context (run_ay : HarnessMetadata -> N -> option VerificationResult).
(** The lanes of the retry. *)
Context (run_piped : Command -> N -> option string) (clock : nat -> N) (argv : list string)
  (in_lane : bool) (target_dir : string -> string).

(** [check_harness], up to the printing of its output; [None] is an error. *)
Definition check_harness (args : Args) (harness : HarnessMetadata)
    (counts : C.CrateUnsoundnessCounts) (artifact : option Artifact.VcArtifact)
    : option VerificationResult :=
  let demoted_fallback_count :=
    resolve_per_harness_count_fail_closed (C.chc_fallback counts)
      (C.chc_fallback_per_harness counts) (pretty_name harness) (C.harness_names counts) in
  r ← run_ay harness demoted_fallback_count;
  let r := gates args harness counts artifact r in
  Some (if effective harness r then r
        else maybe_two_lane_retry run_piped clock argv in_lane target_dir artifact harness r).

End CheckHarness.

(** ** metadata.rs: selecting and ordering the harnesses *)

(** [is_config_free] *)
Definition is_config_free (h : HarnessMetadata) : bool :=
  let a := attributes h in
  match kind a with Proof_ => true | _ => false end
  && match solver a with None => true | _ => false end
  && match unwind_value a with None => true | _ => false end
  && is_nil (stubs a) && is_nil (verified_stubs a)
  && match contract h with None => true | _ => false end.

(** [describe_required_config] *)
Definition describe_required_config (a : HarnessAttributes) : string :=
  let parts :=
    (match unwind_value a with
     | Some u => ["#[kani::unwind(" +:+ pretty u +:+ ")]"] | None => [] end) ++
    (if is_nil (stubs a) then [] else [pretty (length (stubs a)) +:+ " stub(s)"]) ++
    (if is_nil (verified_stubs a) then []
     else [pretty (length (verified_stubs a)) +:+ " verified-stub(s)"]) ++
    (match solver a with Some _ => ["a #[kani::solver] choice"] | None => [] end) ++
    (match kind a with
     | ProofForContract target => ["a proof-for-contract on `" +:+ target +:+ "`"]
     | _ => [] end) in
  match parts with [] => "manual configuration" | _ => Str.join ", " parts end.

(** [determine_targets]: the release build's behaviour; the warnings are left
    out.  An error carries the names that no harness has. *)
Definition determine_targets (harnesses : list string) (exact config_free : bool)
    (compiler_filtered : list HarnessMetadata) : list HarnessMetadata + list string :=
  if exact && Nat.ltb (length compiler_filtered) (length harnesses) then
    inr (List.filter (fun f => negb (mem f (map pretty_name compiler_filtered)))
           (map fst (BMap.collect (map (fun f => (f, tt)) harnesses))))
  else if config_free then inl (List.filter is_config_free compiler_filtered)
  else inl compiler_filtered.

(** The order of [sort_harnesses_by_loc]: by file, the later harness first. *)
Definition loc_le (a b : HarnessMetadata) : Prop :=
  String.compare (original_file a) (original_file b) = Lt \/
  (original_file a = original_file b /\ (original_start_line b <= original_start_line a)%N).

#[export] Instance loc_le_dec : RelDecision loc_le.
Proof. intros a b. unfold loc_le. apply _. Defined.

Fixpoint insert_by_loc (h : HarnessMetadata) (l : list HarnessMetadata) : list HarnessMetadata :=
  match l with
  | [] => [h]
  | d :: l' => if decide (loc_le h d) then h :: l else d :: insert_by_loc h l'
  end.

(** [sort_harnesses_by_loc]; the source's sort leaves the order of harnesses at
    the same position open, and this is one of its outcomes. *)
Definition sort_harnesses_by_loc (l : list HarnessMetadata) : list HarnessMetadata :=
  foldr insert_by_loc [] l.

(** ** Lemmas: the gates one by one *)

(** The sound approximations that cannot stand under a proof. *)
Definition suspect (h : HarnessMetadata) (counts : C.CrateUnsoundnessCounts) : Prop :=
  exists e, e ∈ attributed_entries counts (pretty_name h) /\
            e.1 <> json_key ChcSoundHavocDrop /\ (0 < e.2)%N.

Ltac stage := repeat (case_match; cbn in *; try done); try tauto; try congruence.

Lemma demote_results r h counts : results (demote_for_all_unsoundness r h counts) = results r.
Proof. destruct (demote_cases r h counts) as [(_ & _ & ->)|[_ ->]]; done. Qed.

Lemma demote_feasibility r h counts :
  harness_feasibility (demote_for_all_unsoundness r h counts) = harness_feasibility r.
Proof. destruct (demote_cases r h counts) as [(_ & _ & ->)|[_ ->]]; done. Qed.

Lemma demote_status r h counts :
  r_status (demote_for_all_unsoundness r h counts) = VSuccess <->
  r_status r = VSuccess /\ forall e, e ∈ resolve_demoting_categories h counts -> e.2 = 0%N.
Proof.
  destruct (demote_cases r h counts) as [(Hs & (e & He & Hp) & ->)|[Hz ->]].
  - split; [discriminate|]. intros [_ H]. specialize (H e He). lia.
  - split; [auto|]. by intros [? _].
Qed.

Lemma demote_failure r h counts :
  r_status r = VFailure -> demote_for_all_unsoundness r h counts = r.
Proof. intros H. destruct (demote_cases r h counts) as [(Hs & _)|[_ ->]]; congruence. Qed.

Lemma classify_frame h counts artifact r :
  r_status (classify_stage h counts artifact r) = r_status r /\
  failed_properties (classify_stage h counts artifact r) = failed_properties r /\
  results (classify_stage h counts artifact r) = results r /\
  harness_feasibility (classify_stage h counts artifact r) = harness_feasibility r.
Proof. unfold classify_stage. stage. Qed.

Lemma vacuity_frame args sp r :
  results (vacuity_stage args sp r) = results r /\
  ctrex_category (vacuity_stage args sp r) = ctrex_category r.
Proof. unfold vacuity_stage. stage. Qed.

Lemma is_success_status_eq r :
  is_success_status r = match r_status r with VSuccess => true | VFailure => false end.
Proof. unfold is_success_status. by destruct (r_status r). Qed.

Lemma vacuity_status args r :
  r_status (vacuity_stage args false r) = VSuccess <->
  r_status r = VSuccess /\
  (allow_vacuous args = true \/ classify_vacuity (results r) (harness_feasibility r) = NotVacuous).
Proof.
  unfold vacuity_stage. rewrite is_success_status_eq.
  destruct (r_status r) eqn:E; cbn [negb andb].
  - destruct (bool_decide_reflect (classify_vacuity (results r) (harness_feasibility r) = NotVacuous));
      cbn; [naive_solver|].
    destruct (allow_vacuous args); cbn; naive_solver.
  - rewrite E. naive_solver.
Qed.

Lemma no_checks_frame artifact sp r :
  results (no_checks_stage artifact sp r) = results r /\
  ctrex_category (no_checks_stage artifact sp r) = ctrex_category r.
Proof. unfold no_checks_stage. stage. Qed.

Lemma no_checks_status artifact r :
  r_status (no_checks_stage artifact false r) = VSuccess <->
  r_status r = VSuccess /\
  (results r <> [] \/ Artifact.artifact_body_is_obligation_free artifact = true).
Proof.
  unfold no_checks_stage. rewrite is_success_status_eq.
  destruct (r_status r) eqn:E; cbn [negb andb].
  - destruct (results r), (Artifact.artifact_body_is_obligation_free artifact); cbn; naive_solver.
  - rewrite E. naive_solver.
Qed.

Lemma cover_frame args r :
  results (cover_stage args r) = results r /\
  ctrex_category (cover_stage args r) = ctrex_category r /\
  (failed_properties r = PanicsOnly -> failed_properties (cover_stage args r) = PanicsOnly) /\
  (failed_properties (cover_stage args r) = PanicsOnly -> failed_properties r = PanicsOnly) /\
  (r_status r = VFailure -> r_status (cover_stage args r) = VFailure).
Proof. unfold cover_stage. destruct (_ && _); cbn; [|tauto]. destruct (failed_properties r); naive_solver. Qed.

Lemma cover_status args r :
  r_status (cover_stage args r) = VSuccess <->
  r_status r = VSuccess /\
  (strict_vacuity args = true -> has_unsatisfiable_cover (results r) = false).
Proof.
  unfold cover_stage.
  destruct (has_unsatisfiable_cover (results r)), (strict_vacuity args); cbn; naive_solver.
Qed.

Lemma conformance_frame args h r :
  results (conformance_stage args h r) = results r.
Proof. unfold conformance_stage. stage. Qed.

Lemma conformance_should_panic args h r :
  should_panic (attributes h) = true -> conformance_stage args h r = r.
Proof. intros H. unfold conformance_stage. by rewrite H. Qed.

Lemma conformance_status args h r :
  should_panic (attributes h) = false ->
  r_status (conformance_stage args h r) = VSuccess <->
  r_status r = VSuccess /\
  (pretty_name h ∈ conformance_harnesses args -> has_satisfied_cover (results r) = true).
Proof.
  intros H. unfold conformance_stage. rewrite H. cbn [negb andb].
  rewrite <- mem_iff.
  destruct (mem (pretty_name h) (conformance_harnesses args)), (has_satisfied_cover (results r));
    cbn; naive_solver.
Qed.

Lemma should_panic_stage_false r : should_panic_stage false r = r.
Proof. done. Qed.

Lemma record_frame h counts r :
  r_status (record_stage h counts r) = r_status r /\
  failed_properties (record_stage h counts r) = failed_properties r /\
  results (record_stage h counts r) = results r /\
  ctrex_category (record_stage h counts r) = ctrex_category r.
Proof. unfold record_stage. stage. Qed.

(** What a solver result needs to stand as a proof of an ordinary harness. *)
Definition proof_stands (args : Args) (h : HarnessMetadata) (counts : C.CrateUnsoundnessCounts)
    (artifact : option Artifact.VcArtifact) (r : VerificationResult) : Prop :=
  r_status r = VSuccess /\
  (forall e, e ∈ resolve_demoting_categories h counts -> e.2 = 0%N) /\
  (allow_vacuous args = true \/ classify_vacuity (results r) (harness_feasibility r) = NotVacuous) /\
  (results r <> [] \/ Artifact.artifact_body_is_obligation_free artifact = true) /\
  (strict_vacuity args = true -> has_unsatisfiable_cover (results r) = false) /\
  (pretty_name h ∈ conformance_harnesses args -> has_satisfied_cover (results r) = true) /\
  ~ suspect h counts.

Lemma gates_status args h counts artifact r :
  should_panic (attributes h) = false ->
  r_status (gates args h counts artifact r) = VSuccess <-> proof_stands args h counts artifact r.
Proof.
  intros Hsp. unfold gates, proof_stands. rewrite Hsp. cbv zeta.
  rewrite should_panic_stage_false, (proj1 (record_frame _ _ _)).
  rewrite (proj1 (proj2 (sound_gate _ h counts))). fold (suspect h counts).
  rewrite conformance_status, cover_status, no_checks_status, vacuity_status by done.
  rewrite (proj1 (cover_frame _ _)), (proj1 (no_checks_frame _ _ _)),
    (proj1 (vacuity_frame _ _ _)).
  destruct (classify_frame h counts artifact (demote_for_all_unsoundness r h counts))
    as (-> & _ & -> & ->).
  rewrite demote_results, demote_feasibility, demote_status. tauto.
Qed.

Lemma classify_not_unknown h counts : classify_ctrex h counts <> CUnknown.
Proof.
  unfold classify_ctrex. cbv zeta.
  repeat match goal with |- context [if ?b then _ else _] => destruct b end; discriminate.
Qed.

Lemma recertify_not_unknown cat artifact ps :
  cat <> CUnknown -> recertify_overapprox_ctrex cat artifact ps <> CUnknown.
Proof. unfold recertify_overapprox_ctrex. destruct cat; stage. Qed.

Lemma determine_spec (ps : list Property) :
  determine_failed_from_properties ps =
  if existsb (fun p => bool_decide (status p = Failure) &&
                       negb (is_panic_class (PropertyModel.class (property_id p)))) ps then Other
  else if existsb (fun p => bool_decide (status p = Failure) &&
                            is_panic_class (PropertyModel.class (property_id p))) ps then PanicsOnly
  else FNone.
Proof.
  unfold determine_failed_from_properties.
  enough (H : forall acc : bool * bool, foldl (fun acc p =>
      match status p with
      | Failure => if is_panic_class (PropertyModel.class (property_id p)) then (true, acc.2)
                   else (acc.1, true)
      | _ => acc
      end) acc ps =
    (acc.1 || existsb (fun p => bool_decide (status p = Failure) &&
                       is_panic_class (PropertyModel.class (property_id p))) ps,
     acc.2 || existsb (fun p => bool_decide (status p = Failure) &&
                       negb (is_panic_class (PropertyModel.class (property_id p)))) ps))
    by (rewrite H; done).
  induction ps as [|p ps IH]; intros [a b]; cbn [foldl existsb fst snd].
  - by rewrite !orb_false_r.
  - rewrite IH. destruct (status p); cbn [bool_decide decide_rel andb orb];
      try (rewrite !bool_decide_eq_false_2 by discriminate); cbn [andb orb]; try done.
    rewrite !bool_decide_eq_true_2 by done.
    destruct (is_panic_class _); cbn; by rewrite ?orb_true_r.
Qed.

(** A table of panics only has no exhausted unwind bound. *)
Lemma panics_only_not_unwind (ps : list Property) :
  determine_failed_from_properties ps = PanicsOnly -> unwind_bound_exhausted ps = false.
Proof.
  rewrite determine_spec. destruct (existsb _ ps) eqn:E; [done|]. intros _.
  unfold unwind_bound_exhausted. rewrite existsb_false_elem in *. intros p Hp.
  specialize (E p Hp). destruct (bool_decide (status p = Failure)); cbn in *; [|done].
  destruct (String.eqb_spec (PropertyModel.class (property_id p)) "unwind") as [Eu|]; [|done].
  by rewrite Eu in E.
Qed.

Lemma gates_should_panic args h counts artifact r :
  should_panic (attributes h) = true ->
  r_status r = VFailure -> demotion_reasons r = [] ->
  failed_properties r = determine_failed_from_properties (results r) ->
  failed_properties (gates args h counts artifact r) = PanicsOnly <->
  failed_properties r = PanicsOnly /\
  recertify_overapprox_ctrex (classify_ctrex h counts) artifact (results r) = Genuine.
Proof.
  intros Hsp Hst Hd Hdet. unfold gates. rewrite Hsp. cbv zeta.
  rewrite (proj1 (proj2 (record_frame _ _ _))).
  rewrite conformance_should_panic by done. rewrite demote_failure by done.
  set (r1 := classify_stage h counts artifact r).
  destruct (classify_frame h counts artifact r) as (S1 & F1 & R1 & _). fold r1 in S1, F1, R1.
  assert (V : vacuity_stage args true r1 = r1) by done. rewrite V.
  assert (Nc : no_checks_stage artifact true r1 = r1) by done. rewrite Nc.
  destruct (cover_frame args r1) as (_ & C2 & P2 & P2' & St2).
  set (r2 := cover_stage args r1) in *.
  destruct (proj2 (proj2 (proj2 (sound_gate r2 h counts)))) as [F3 C3];
    [left; apply St2; congruence|].
  set (r3 := apply_sound_fallback_fail_close r2 h counts) in *.
  unfold should_panic_stage. cbn [andb].
  assert (Hc1 : failed_properties r = PanicsOnly ->
    ctrex_category r1 =
      Some (recertify_overapprox_ctrex (classify_ctrex h counts) artifact (results r))).
  { intros Hp. unfold r1, classify_stage. rewrite Hst, Hd. cbn [is_nil andb].
    rewrite bool_decide_eq_true_2 by done. cbn [andb].
    rewrite panics_only_not_unwind by congruence.
    rewrite bool_decide_eq_false_2 by congruence. done. }
  destruct (bool_decide_reflect (failed_properties r3 = PanicsOnly)) as [Hp|Hp]; cbn [andb].
  - assert (Hr : failed_properties r = PanicsOnly) by (rewrite <- F1; apply P2'; congruence).
    rewrite C3, C2, (Hc1 Hr).
    pose proof (recertify_not_unknown (classify_ctrex h counts) artifact (results r)
      (classify_not_unknown h counts)) as Hu.
    destruct (recertify_overapprox_ctrex _ _ _); cbn; naive_solver.
  - split; [done|]. intros [Hr _]. destruct Hp. rewrite F3. apply P2. congruence.
Qed.

(** ** check_all_harnesses: collecting the results of the thread pool

    The closures of [try_for_each] run in any order on the pool; each takes the
    lock once to push its result.  A run is a sequence of steps, one per closure
    that ends; the ones that had started when another failed may still end. *)

(** What the closure of a harness returns: [Ok], the fail-fast error or another
    error. *)
Inductive Closure := Completed (r : VerificationResult) | FailFast (r : VerificationResult) | Errored.

Definition run_closure (fail_fast : bool) (o : option VerificationResult) : Closure :=
  match o with
  | None => Errored
  | Some r => if fail_fast && bool_decide (r_status r = VFailure) then FailFast r else Completed r
  end.

(** The closures that started, what they pushed, and those that returned [Err]. *)
Record Pool := {
  started : list nat;
  completed : list (nat * VerificationResult);
  stopped : list nat;
}.

Definition new_pool : Pool := {| started := []; completed := []; stopped := [] |}.

(** [results.sort_by_key(|(idx, _)| *idx)] *)
Fixpoint insert_by_key (e : nat * VerificationResult) (l : list (nat * VerificationResult))
    : list (nat * VerificationResult) :=
  match l with
  | [] => [e]
  | d :: l' => if Nat.leb e.1 d.1 then e :: l else d :: insert_by_key e l'
  end.
Definition sort_by_key (l : list (nat * VerificationResult)) : list (nat * VerificationResult) :=
  foldr insert_by_key [] l.

Section Collect.

(** The number of harnesses, [--fail-fast], and the outcome of each check. *)
Context (n : nat) (fail_fast : bool) (outcome : nat -> option VerificationResult).

Inductive pool_step (s : Pool) : Pool -> Prop :=
  | step_completed i r :
      i < n -> i ∉ started s -> run_closure fail_fast (outcome i) = Completed r ->
      pool_step s {| started := i :: started s; completed := completed s ++ [(i, r)];
                     stopped := stopped s |}
  | step_stopped i :
      i < n -> i ∉ started s -> (forall r, run_closure fail_fast (outcome i) <> Completed r) ->
      pool_step s {| started := i :: started s; completed := completed s;
                     stopped := stopped s ++ [i] |}.

(** What [pool.install] returns: [Ok] when every closure ran and none failed,
    otherwise the error of one that did. *)
Inductive installed (s : Pool) : option nat -> Prop :=
  | installed_ok : stopped s = [] -> (forall i, i < n -> i ∈ started s) -> installed s None
  | installed_err i : i ∈ stopped s -> installed s (Some i).

(** The end of [check_all_harnesses]. *)
Definition collect_results (s : Pool) (o : option nat) : option (list (nat * VerificationResult)) :=
  match o with
  | None => Some (sort_by_key (completed s))
  | Some i => match run_closure fail_fast (outcome i) with
              | FailFast r => Some (sort_by_key (completed s ++ [(i, r)]))
              | _ => None
              end
  end.

Record pool_inv (s : Pool) : Prop := {
  inv_nodup : NoDup (map fst (completed s) ++ stopped s);
  inv_started : forall i, i ∈ map fst (completed s) ++ stopped s <-> i ∈ started s;
  inv_bound : forall i, i ∈ started s -> i < n;
  inv_completed : forall i r, (i, r) ∈ completed s -> run_closure fail_fast (outcome i) = Completed r;
}.

Lemma pool_inv_new : pool_inv new_pool.
Proof. split; cbn; [constructor|done|set_solver|set_solver]. Qed.

Lemma pool_inv_step (s s' : Pool) : pool_inv s -> pool_step s s' -> pool_inv s'.
Proof.
  intros [N St B Co] [i r Hi Hs Hr|i Hi Hs Hr]; split; cbn.
  - rewrite map_app, <- app_assoc. cbn.
    rewrite <- (Permutation_middle (map fst (completed s)) (stopped s) i).
    apply NoDup_cons. split; [by rewrite St|done].
  - intros j. specialize (St j). rewrite map_app. cbn [map fst]. set_solver.
  - intros j. rewrite elem_of_cons. intros [->|?]; auto.
  - intros j q. rewrite elem_of_app, list_elem_of_singleton. intros [?|[= -> ->]]; auto.
  - rewrite app_assoc, (Permutation_app_comm _ [i]). cbn. apply NoDup_cons.
    split; [by rewrite St|done].
  - intros j. specialize (St j). set_solver.
  - intros j. rewrite elem_of_cons. intros [->|?]; auto.
  - auto.
Qed.

Lemma pool_inv_reachable (s : Pool) : rtc pool_step new_pool s -> pool_inv s.
Proof.
  intros H. assert (G : forall a b, rtc pool_step a b -> pool_inv a -> pool_inv b).
  { induction 1; eauto using pool_inv_step. }
  eauto using pool_inv_new.
Qed.

End Collect.

Lemma insert_by_key_perm e l : insert_by_key e l ≡ₚ e :: l.
Proof.
  induction l as [|d l IH]; cbn; [done|]. destruct (Nat.leb e.1 d.1); [done|].
  rewrite IH. apply Permutation_swap.
Qed.

Lemma sort_by_key_perm l : sort_by_key l ≡ₚ l.
Proof. induction l as [|e l IH]; cbn; [done|]. by rewrite insert_by_key_perm, IH. Qed.

Lemma insert_by_key_sorted e l :
  e.1 ∉ map fst l -> StronglySorted lt (map fst l) -> StronglySorted lt (map fst (insert_by_key e l)).
Proof.
  induction l as [|d l IH]; cbn; [repeat constructor|].
  intros Hn [S F]%StronglySorted_inv. destruct (Nat.leb_spec e.1 d.1); cbn.
  - constructor; [by constructor|]. apply not_elem_of_cons in Hn as [Hn _].
    constructor; [lia|]. eapply Forall_impl; [exact F|]. intros x Hx. lia.
  - apply not_elem_of_cons in Hn as [Hd Hn]. constructor; [by apply IH|].
    apply Forall_forall. intros x (y & -> & Hy)%list_elem_of_fmap.
    rewrite insert_by_key_perm in Hy. apply elem_of_cons in Hy as [->|Hy]; [lia|].
    rewrite Forall_forall in F. apply F, list_elem_of_fmap. eauto.
Qed.

Lemma sort_by_key_sorted l : NoDup (map fst l) -> StronglySorted lt (map fst (sort_by_key l)).
Proof.
  induction l as [|e l IH]; cbn; [constructor|]. intros [Hn N]%NoDup_cons.
  apply insert_by_key_sorted; [|by apply IH].
  intros (y & Ey & Hy)%list_elem_of_fmap. rewrite sort_by_key_perm in Hy.
  apply Hn, list_elem_of_fmap. eauto.
Qed.

(** ** Lemmas: the order of the harnesses *)

Lemma loc_le_total (a b : HarnessMetadata) : loc_le a b \/ loc_le b a.
Proof.
  unfold loc_le. destruct (String.compare (original_file a) (original_file b)) eqn:E.
  - apply String.compare_eq_iff in E.
    destruct (N.le_ge_cases (original_start_line b) (original_start_line a)); [left|right];
      right; done.
  - by left; left.
  - right; left. by apply BMap.compare_Gt.
Qed.

Lemma loc_le_trans : Transitive loc_le.
Proof.
  intros a b c. unfold loc_le. intros [H1|[H1 H1']] [H2|[H2 H2']].
  - left. by eapply BMap.str_lt_trans.
  - left. by rewrite <- H2.
  - left. by rewrite H1.
  - right. split; [congruence|lia].
Qed.

Lemma insert_by_loc_perm h l : insert_by_loc h l ≡ₚ h :: l.
Proof.
  induction l as [|d l IH]; cbn; [done|]. case_decide; [done|].
  rewrite IH. apply Permutation_swap.
Qed.

Lemma insert_by_loc_sorted h l :
  StronglySorted loc_le l -> StronglySorted loc_le (insert_by_loc h l).
Proof.
  induction l as [|d l IH]; cbn; [repeat constructor|].
  intros [S F]%StronglySorted_inv. case_decide as D.
  - constructor; [by constructor|]. constructor; [done|].
    eapply Forall_impl; [exact F|]. intros x. by apply loc_le_trans.
  - constructor; [by apply IH|]. rewrite insert_by_loc_perm. constructor; [|done].
    by destruct (loc_le_total h d).
Qed.

(** ** Properties *)

(** C6: the gates are exact.  For an ordinary harness the solver's result leaves
    the gates as a proof exactly when the solver proved it, no demoting category
    counts against the harness, the table is not vacuous (or that is allowed),
    there is something to verify, no cover is refuted under strict vacuity, a
    conformance harness reached a cover, and no suspect sound approximation is
    attributed to the harness. *)
Theorem gates_success_iff (args : Args) (h : HarnessMetadata) (counts : C.CrateUnsoundnessCounts)
    (artifact : option Artifact.VcArtifact) (r : VerificationResult)
    (ordinary : should_panic (attributes h) = false) :
  effective h (gates args h counts artifact r) = true <-> proof_stands args h counts artifact r.
Proof.
  rewrite <- gates_status by done. unfold effective, is_effective_manual_success.
  rewrite ordinary. apply bool_decide_eq_true.
Qed.

(** a [should_panic] harness is verified exactly by a certified panic.  On a
    failure whose kind is the one its table determines, the gates leave an
    effective success exactly when only panics failed and the counterexample is
    classified, or certified, as genuine. *)
Theorem should_panic_success_iff (args : Args) (h : HarnessMetadata)
    (counts : C.CrateUnsoundnessCounts) (artifact : option Artifact.VcArtifact)
    (r : VerificationResult)
    (panics : should_panic (attributes h) = true)
    (refuted : r_status r = VFailure) (fresh : demotion_reasons r = [])
    (kind : failed_properties r = determine_failed_from_properties (results r)) :
  effective h (gates args h counts artifact r) = true <->
  failed_properties r = PanicsOnly /\
  recertify_overapprox_ctrex (classify_ctrex h counts) artifact (results r) = Genuine.
Proof.
  unfold effective, is_effective_manual_success. rewrite panics, bool_decide_eq_true.
  by apply gates_should_panic.
Qed.

(** C1: the soundness of [check_harness] at its own level.  A harness that is
    reported as verified was verified by the solver run behind all the gates, or
    its two loop-contract lanes proved it; and the retry never verifies a
    [should_panic] harness. *)
Theorem check_harness_sound (run_ay : HarnessMetadata -> N -> option VerificationResult)
    (run_piped : Command -> N -> option string) (clock : nat -> N) (argv : list string)
    (in_lane : bool) (target_dir : string -> string) (args : Args) (h : HarnessMetadata)
    (counts : C.CrateUnsoundnessCounts) (artifact : option Artifact.VcArtifact)
    (r' : VerificationResult)
    (checked : check_harness run_ay run_piped clock argv in_lane target_dir args h counts artifact
               = Some r')
    (verified : effective h r' = true) :
  exists k r, run_ay h k = Some r /\
  if should_panic (attributes h)
  then effective h (gates args h counts artifact r) = true /\ r' = gates args h counts artifact r
  else proof_stands args h counts artifact r \/ lanes_proved run_piped argv target_dir (pretty_name h).
Proof.
  unfold check_harness in checked. set (k := resolve_per_harness_count_fail_closed _ _ _ _) in *.
  destruct (run_ay h k) as [r|] eqn:Er; cbn in checked; [|done]. injection checked as <-.
  exists k, r. split; [done|].
  destruct (effective h (gates args h counts artifact r)) eqn:E.
  - destruct (should_panic (attributes h)) eqn:Sp; [done|]. left.
    rewrite <- gates_status by done. unfold effective, is_effective_manual_success in E.
    rewrite Sp in E. by apply bool_decide_eq_true in E.
  - destruct (retry_cases run_piped clock argv in_lane target_dir artifact h
      (gates args h counts artifact r)) as [Eq|(Eq & _ & _ & Hp)].
    + rewrite Eq in verified. congruence.
    + destruct (should_panic (attributes h)) eqn:Sp; [|by right].
      rewrite Eq in verified. unfold effective in verified. rewrite Sp in verified.
      discriminate verified.
Qed.

(** C39: nothing is lost or invented by the thread pool.  However the closures
    interleave, the results reported are in harness order, each is what its
    harness's check returned, every result pushed is among them; without an
    error all harnesses are reported, and when a closure failed fast exactly one
    failure is reported. *)
Theorem collect_results_spec (n : nat) (fail_fast : bool)
    (outcome : nat -> option VerificationResult) (s : Pool) (o : option nat)
    (l : list (nat * VerificationResult))
    (run : rtc (pool_step n fail_fast outcome) new_pool s)
    (fin : installed n s o)
    (collected : collect_results fail_fast outcome s o = Some l) :
  StronglySorted lt (map fst l) /\
  (forall i r, (i, r) ∈ l -> i < n /\ outcome i = Some r) /\
  (forall e, e ∈ completed s -> e ∈ l) /\
  (o = None -> map fst l ≡ₚ seq 0 n) /\
  (fail_fast = true ->
   length (List.filter (fun e => bool_decide (r_status e.2 = VFailure)) l) =
   match o with Some _ => 1 | None => 0 end).
Proof.
  pose proof (pool_inv_reachable n fail_fast outcome s run) as [N St B Co].
  assert (Out : forall i r, run_closure fail_fast (outcome i) = Completed r ->
    outcome i = Some r /\ (fail_fast = true -> r_status r <> VFailure)).
  { intros i r. unfold run_closure. destruct (outcome i) as [q|]; [|done].
    destruct fail_fast; cbn; [|by intros [= <-]].
    case_bool_decide; [done|]. by intros [= <-]. }
  assert (Nf : fail_fast = true ->
    List.filter (fun e => bool_decide (r_status e.2 = VFailure)) (completed s) = []).
  { intros Hf. apply filter_nil_iff. intros [i r] He. cbn.
    apply bool_decide_eq_false_2, (Out i r (Co i r He)), Hf. }
  destruct fin as [Hs Hall|i Hi]; cbn in collected.
  - injection collected as <-. rewrite Hs, app_nil_r in N, St. split; [by apply sort_by_key_sorted|].
    split; [|split; [|split]].
    + intros i r He. rewrite sort_by_key_perm in He. split; [|by apply Out, Co].
      apply B, St, list_elem_of_fmap. by exists (i, r).
    + intros e He. by rewrite sort_by_key_perm.
    + intros _. rewrite sort_by_key_perm. apply NoDup_Permutation; [done|apply NoDup_seq|].
      intros i. rewrite St, elem_of_seq. split; [intros Hi; specialize (B i Hi); lia|].
      intros ?. apply Hall. lia.
    + intros Hf. rewrite sort_by_key_perm, (Nf Hf). done.
  - destruct (run_closure fail_fast (outcome i)) as [r|r|] eqn:Er; try done.
    injection collected as <-.
    assert (Hr : outcome i = Some r /\ fail_fast = true /\ r_status r = VFailure).
    { unfold run_closure in Er. destruct (outcome i) as [q|]; [|done].
      destruct fail_fast; cbn in Er; [|done]. case_bool_decide; [|done]. by simplify_eq. }
    destruct Hr as (Ho & _ & Hst).
    assert (Hn : i ∉ map fst (completed s)).
    { apply NoDup_app in N as (_ & N & _). intros H. by apply (N i). }
    split; [|split; [|split; [|split]]].
    + apply sort_by_key_sorted. rewrite map_app. apply NoDup_app in N as (N & _ & _).
      apply NoDup_app. split; [done|]. split; [|apply NoDup_singleton].
      intros j Hj ->%list_elem_of_singleton. done.
    + intros j q He. rewrite sort_by_key_perm in He.
      apply elem_of_app in He as [He|[= -> ->]%list_elem_of_singleton].
      * split; [|by apply Out, Co]. apply B, St, elem_of_app. left.
        apply list_elem_of_fmap. by exists (j, q).
      * split; [|done]. apply B, St, elem_of_app. by right.
    + intros e He. rewrite sort_by_key_perm. apply elem_of_app. by left.
    + done.
    + intros Hf. rewrite sort_by_key_perm, List.filter_app, (Nf Hf). cbn.
      by rewrite bool_decide_eq_true_2.
Qed.

(** The order in which harnesses are checked: the same harnesses, grouped by
    file, the later ones of a file first. *)
Theorem sort_harnesses_by_loc_spec (l : list HarnessMetadata) :
  sort_harnesses_by_loc l ≡ₚ l /\ StronglySorted loc_le (sort_harnesses_by_loc l).
Proof.
  induction l as [|h l [IHp IHs]]; cbn; [split; [done|constructor]|].
  split; [by rewrite insert_by_loc_perm, IHp|by apply insert_by_loc_sorted].
Qed.

(** ** Closed instances *)

Module Sample.

Definition args : Args :=
  {| allow_vacuous := false; strict_vacuity := false; conformance_harnesses := [] |}.
Definition strict : Args :=
  {| allow_vacuous := false; strict_vacuity := true; conformance_harnesses := [] |}.

Definition counts : C.CrateUnsoundnessCounts := crate_spec Metadata.Sample.clean.
Definition ordinary : HarnessMetadata := Metadata.Sample.harness_of "clean" "clean::k".

(** The same harness with [#[kani::should_panic]]. *)
Definition panicking : HarnessMetadata :=
  {| pretty_name := "clean::k"; mangled_name := "clean::k"; h_crate_name := "clean";
     original_file := "src/lib.rs"; original_start_line := 1; original_end_line := 2;
     model_file := "clean.symtab.out";
     attributes := {| kind := Proof_; should_panic := true; solver := None; unwind_value := None;
                      stubs := []; verified_stubs := [] |};
     contract := None; has_loop_contracts := false; is_automatically_generated := false |}.

Definition proved : VerificationResult :=
  VerificationResult.Sample.result VSuccess FNone
    [VerificationResult.Sample.check "assertion" 1 Success].
Definition panicked : VerificationResult :=
  VerificationResult.Sample.result VFailure PanicsOnly
    [VerificationResult.Sample.check "assertion" 1 Failure;
     VerificationResult.Sample.check "cover" 2 Unsatisfiable].

End Sample.

Lemma sample_proof_stands : proof_stands Sample.args Sample.ordinary Sample.counts None Sample.proved.
Proof.
  split; [done|]. split; [apply Forall_forall; repeat (apply List.Forall_cons; [by vm_compute|]);
    apply List.Forall_nil|].
  split; [right; by vm_compute|]. split; [by left|]. split; [done|].
  split; [intros H; by apply not_elem_of_nil in H|].
  intros (e & He & _). vm_compute in He. by apply not_elem_of_nil in He.
Qed.

Lemma gates_success_iff_witness :
  effective Sample.ordinary
    (gates Sample.args Sample.ordinary Sample.counts None Sample.proved) = true.
Proof. apply gates_success_iff; [reflexivity|apply sample_proof_stands]. Defined.

Lemma should_panic_success_iff_witness :
  effective Sample.panicking
    (gates Sample.args Sample.panicking Sample.counts None Sample.panicked) = true.
Proof.
  apply should_panic_success_iff; [reflexivity|reflexivity|reflexivity|by vm_compute|].
  split; [reflexivity|by vm_compute].
Defined.

Lemma check_harness_sound_witness :
  proof_stands Sample.args Sample.ordinary Sample.counts None Sample.proved \/
  lanes_proved (fun _ _ => None) [] (fun t => t) "clean::k".
Proof.
  destruct (check_harness_sound (fun _ _ => Some Sample.proved) (fun _ _ => None) (fun _ => 0%N) []
    false (fun t => t) Sample.args Sample.ordinary Sample.counts None
    (gates Sample.args Sample.ordinary Sample.counts None Sample.proved)
    ltac:(by vm_compute) ltac:(by vm_compute)) as (k & r & Hr & H).
  injection Hr as <-. exact H.
Defined.

Lemma collect_results_spec_witness :
  map fst [(0, Sample.panicked)] = [0] /\
  length (List.filter (fun e => bool_decide (r_status e.2 = VFailure)) [(0, Sample.panicked)]) = 1.
Proof.
  set (out := fun _ : nat => Some Sample.panicked).
  set (s := {| started := [0]; completed := []; stopped := [0] |}).
  assert (run : rtc (pool_step 2 true out) new_pool s).
  { apply rtc_once. apply (step_stopped 2 true out new_pool 0); [lia|apply not_elem_of_nil|].
    intros r. by vm_compute. }
  destruct (collect_results_spec 2 true out s (Some 0) [(0, Sample.panicked)] run
    (installed_err 2 s 0 ltac:(left)) ltac:(by vm_compute)) as (_ & _ & _ & _ & H).
  split; [reflexivity|]. exact (H eq_refl).
Defined.

(** [--strict-vacuity] marks a refuted cover of a [should_panic] harness as a
    failure of the status only, and the status does not decide such a harness:
    it is still verified. *)
Theorem strict_vacuity_should_panic :
  has_unsatisfiable_cover (results Sample.panicked) = true /\
  effective Sample.panicking
    (gates Sample.strict Sample.panicking Sample.counts None Sample.panicked) = true.
Proof. split; by vm_compute. Qed.

End HarnessRunner.
