(* ===== verification/Summary.v ===== *)
(** * Reporting: the summary artifact, the final summary and the exit code

    Models [proof_summary.rs] and the final summary of [result_summary.rs] of the
    driver, with the failure count of [autoharness/mod.rs].  Printing, the JSON
    writer and the fields that come from the native verdict are left out. *)

From S2P Require Import Prelude Metadata PropertyModel Coverage VerificationResult.

Module Summary.
Import PropertyModel Coverage Metadata VerificationResult.
Local Open Scope N_scope.

(** [struct HarnessResult] *)
Record HarnessResult := { hr_harness : HarnessMetadata; hr_result : VerificationResult }.

Definition hr_effective (r : HarnessResult) : bool :=
  is_effective_manual_success (r_status (hr_result r)) (should_panic (attributes (hr_harness r)))
    (failed_properties (hr_result r)).

(** ** proof_summary.rs *)

(** [enum HarnessVerdict] *)
Inductive HarnessVerdict :=
  | Successful
  | SuccessfulUnvalidated
  | Vacuous
  | InconclusiveDeadChecks
  | InconclusiveUndecided
  | InconclusiveNoChecks
  | UncertifiedCounterexample
  | VUnvalidated
  | Failed.

#[export] Instance HarnessVerdict_eq_dec : EqDecision HarnessVerdict.
Proof. solve_decision. Defined.

(** [HarnessVerdict::label] *)
Definition label (v : HarnessVerdict) : string :=
  match v with
  | Successful => "successful"
  | SuccessfulUnvalidated => "successful_unvalidated"
  | Vacuous => "vacuous"
  | InconclusiveDeadChecks => "inconclusive_dead_checks"
  | InconclusiveUndecided => "inconclusive_undecided"
  | InconclusiveNoChecks => "inconclusive_no_checks"
  | UncertifiedCounterexample => "uncertified_counterexample"
  | VUnvalidated => "unvalidated"
  | Failed => "failed"
  end.

(** [HarnessVerdict::description] *)
Definition verdict_description (v : HarnessVerdict) : string :=
  match v with
  | Successful => "every check was proved"
  | SuccessfulUnvalidated =>
      "every check was proved, but on an unvalidated solver tier -- treat the proof as provisional"
  | Vacuous =>
      "every check is provably UNREACHABLE -- the proof is vacuous (contradictory assumptions; nothing was verified)"
  | InconclusiveDeadChecks =>
      "the harness is reachable, but every check it emitted is provably UNREACHABLE -- the checks sit on dead code, so no obligation was exercised and this is not a proof"
  | InconclusiveUndecided =>
      "the solver could not decide this harness within its budget -- it is not proved and not refuted; try --ay-chc or a longer --timeout"
  | InconclusiveNoChecks =>
      "the harness produced no verification conditions -- there was nothing to prove, so this is not a proof"
  | UncertifiedCounterexample =>
      "a counterexample was found but NOT certified as a genuine bug -- the encoding approximated something, so the failing values may be ones your program cannot produce"
  | VUnvalidated => "verification did not succeed, and the solver tier is unvalidated (DT+BV)"
  | Failed => "verification did not succeed for this harness"
  end.

(** [HarnessVerdict::is_success] *)
Definition is_success (v : HarnessVerdict) : bool :=
  match v with Successful | SuccessfulUnvalidated => true | _ => false end.

(** [HarnessVerdict::is_inconclusive] *)
Definition is_inconclusive (v : HarnessVerdict) : bool :=
  match v with
  | InconclusiveUndecided | InconclusiveNoChecks | InconclusiveDeadChecks => true
  | _ => false
  end.

(** [console_check_count] *)
Definition console_check_count (properties : list Property) : N :=
  let covers := length (List.filter (fun p => is_cover_property p &&
    match status p with
    | Satisfied | Unsatisfiable | Undetermined | Unreachable => true
    | _ => false
    end) properties) in
  N.of_nat (length properties) - N.of_nat covers.

(** [classify_harness_verdict] *)
Definition classify_harness_verdict (r : VerificationResult) (should_panic : bool)
    : HarnessVerdict :=
  let effective_success :=
    is_effective_manual_success (r_status r) should_panic (failed_properties r) in
  let unvalidated := bool_decide (validation_status r = Unvalidated) in
  if effective_success then (if unvalidated then SuccessfulUnvalidated else Successful)
  else
    let vacuity := if should_panic then NotVacuous
                   else classify_vacuity (results r) (harness_feasibility r) in
    match vacuity with
    | UnsatAssumption => Vacuous
    | DeadChecks => InconclusiveDeadChecks
    | NotVacuous =>
        if negb (has_decided_check (results r)) &&
           match solver_unknown_reason r with
           | Some UndecidedModel | Some Timeout | Some SmtParseError | Some Memout => true
           | _ => false
           end
        then InconclusiveUndecided
        else if console_check_count (results r) =? 0 then InconclusiveNoChecks
        else if match ctrex_category r with
                | Some (EncodingGap _) | Some (OverApproximation _) => true
                | _ => false
                end
        then UncertifiedCounterexample
        else if unvalidated then VUnvalidated else Failed
    end.

(** [struct ProofSummaryCounts], without the counts of native evidence. *)
Record ProofSummaryCounts := {
  total_harnesses : N;
  manual_harnesses : N;
  automatic_harnesses : N;
  effective_successes : N;
  failures : N;
  vacuous_harnesses : N;
  inconclusive_harnesses : N;
  uncertified_harnesses : N;
  refuted_harnesses : N;
  validated_results : N;
  unvalidated_results : N;
}.

Definition bit (b : bool) : N := if b then 1 else 0.

(** The counting of [ProofSummaryArtifact::from_results] for one harness. *)
Definition count_result (s : ProofSummaryCounts) (r : HarnessResult) : ProofSummaryCounts :=
  let auto := is_automatically_generated (hr_harness r) in
  let valid := bool_decide (validation_status (hr_result r) = Validated) in
  let ok := hr_effective r in
  let verdict := classify_harness_verdict (hr_result r) (should_panic (attributes (hr_harness r))) in
  let '(vac, unc, inc, ref) :=
    if ok then (0, 0, 0, 0)
    else match verdict with
         | Vacuous => (1, 0, 0, 0)
         | UncertifiedCounterexample => (0, 1, 0, 0)
         | v => if is_inconclusive v then (0, 0, 1, 0) else (0, 0, 0, 1)
         end in
  {| total_harnesses := total_harnesses s;
     manual_harnesses := manual_harnesses s + bit (negb auto);
     automatic_harnesses := automatic_harnesses s + bit auto;
     effective_successes := effective_successes s + bit ok;
     failures := failures s + bit (negb ok);
     vacuous_harnesses := vacuous_harnesses s + vac;
     inconclusive_harnesses := inconclusive_harnesses s + inc;
     uncertified_harnesses := uncertified_harnesses s + unc;
     refuted_harnesses := refuted_harnesses s + ref;
     validated_results := validated_results s + bit valid;
     unvalidated_results := unvalidated_results s + bit (negb valid) |}.

(** The summary of [ProofSummaryArtifact::from_results]. *)
Definition summarize (rs : list HarnessResult) : ProofSummaryCounts :=
  foldl count_result
    {| total_harnesses := N.of_nat (length rs); manual_harnesses := 0; automatic_harnesses := 0;
       effective_successes := 0; failures := 0; vacuous_harnesses := 0;
       inconclusive_harnesses := 0; uncertified_harnesses := 0; refuted_harnesses := 0;
       validated_results := 0; unvalidated_results := 0 |} rs.

(** [struct FailedCheck] and [failed_checks] *)
Record FailedCheck := {
  fc_description : string;
  fc_file : option string;
  fc_line : option string;
  fc_column : option string;
  fc_function : option string;
}.
Definition failed_checks (r : VerificationResult) : list FailedCheck :=
  map (fun p => {| fc_description := description p; fc_file := file (source_location p);
                   fc_line := line (source_location p); fc_column := column (source_location p);
                   fc_function := function (source_location p) |})
    (List.filter (fun p => bool_decide (status p = Failure)) (results r)).

(** [struct PropertyCounts] *)
Record PropertyCounts := {
  pc_total : N; pc_failed : N; pc_undetermined : N; pc_unknown : N; pc_successful : N;
  cover_satisfied : N; cover_unsatisfied : N; coverage_covered : N; coverage_uncovered : N;
}.

(** The increments of one row, in the order of the fields after [total]. *)
Definition bump (failed undetermined unknown successful satisfied unsatisfied covered uncovered : N)
    (c : PropertyCounts) : PropertyCounts :=
  {| pc_total := pc_total c; pc_failed := pc_failed c + failed;
     pc_undetermined := pc_undetermined c + undetermined; pc_unknown := pc_unknown c + unknown;
     pc_successful := pc_successful c + successful; cover_satisfied := cover_satisfied c + satisfied;
     cover_unsatisfied := cover_unsatisfied c + unsatisfied;
     coverage_covered := coverage_covered c + covered;
     coverage_uncovered := coverage_uncovered c + uncovered |}.

(** The body of the loop of [property_counts]. *)
Definition count_row (c : PropertyCounts) (p : Property) : PropertyCounts :=
  match status p with
  | Failure => bump 1 0 0 0 0 0 0 0 c
  | Undetermined => bump 0 1 0 0 0 0 0 0 c
  | Unknown => bump 0 0 1 0 0 0 0 0 c
  | Unreachable => if is_cover_property p then bump 0 0 0 0 0 1 0 0 c else bump 0 0 0 1 0 0 0 0 c
  | Success => bump 0 0 0 1 0 0 0 0 c
  | Satisfied => bump 0 0 0 0 1 0 0 0 c
  | Unsatisfiable => bump 0 0 0 0 0 1 0 0 c
  | Covered => bump 0 0 0 0 0 0 1 0 c
  | Uncovered => bump 0 0 0 0 0 0 0 1 c
  end.

(** [property_counts] *)
Definition property_counts (r : VerificationResult) : PropertyCounts :=
  foldl count_row
    {| pc_total := N.of_nat (length (results r)); pc_failed := 0; pc_undetermined := 0;
       pc_unknown := 0; pc_successful := 0; cover_satisfied := 0; cover_unsatisfied := 0;
       coverage_covered := 0; coverage_uncovered := 0 |} (results r).

(** The labels of the artifact. *)
Definition verification_status_label (s : VerificationStatus) : string :=
  match s with VSuccess => "success" | VFailure => "failure" end.
Definition failed_properties_label (f : FailedProperties) : string :=
  match f with FNone => "none" | PanicsOnly => "panics_only" | Other => "other" end.
Definition validation_status_label (v : ValidationStatus) : string :=
  match v with Validated => "validated" | Unvalidated => "unvalidated" end.

(** ** result_summary.rs *)

(** The arguments the summary reads. *)
Record SummaryArgs := {
  quiet : bool;
  harness_filters : list string;
  fail_on_unvalidated_success : bool;
  autoharness : bool;
}.

(** How the process ends: normally, with exit code 1, or with an error. *)
Inductive Ending := Finished | ExitOne | Bail.

(** [should_fail_final_summary] *)
Definition should_fail_final_summary (failing autoharness_failing unvalidated_count
    unvalidated_success_count : N) (fail_on_unvalidated_success : bool) : bool :=
  (0 <? failing + autoharness_failing + unvalidated_count)
  || (fail_on_unvalidated_success && (0 <? unvalidated_success_count)).

Definition manual (r : HarnessResult) : bool := negb (is_automatically_generated (hr_harness r)).
Definition validated (r : HarnessResult) : bool :=
  bool_decide (validation_status (hr_result r) = Validated).
Definition unvalidated (r : HarnessResult) : bool :=
  bool_decide (validation_status (hr_result r) = Unvalidated).

Definition count_of (f : HarnessResult -> bool) (rs : list HarnessResult) : N :=
  N.of_nat (length (List.filter f rs)).

(** [print_autoharness_summary]: the number of failing automatic harnesses. *)
Definition print_autoharness_summary (automatic : list HarnessResult) : N :=
  count_of (fun r => negb (bool_decide (r_status (hr_result r) = VSuccess))) automatic.

(** The counters of the CTREX breakdown line. *)
Definition ctrex_count (f : CtrexCategory -> bool) (rs : list HarnessResult) : N :=
  count_of (fun r => match ctrex_category (hr_result r) with Some c => f c | None => false end) rs.

(** The quiet arm of [print_final_summary]. *)
Definition quiet_summary (args : SummaryArgs) (rs : list HarnessResult) : Ending :=
  let manual_failures := count_of (fun r => manual r && negb (hr_effective r)) rs in
  let autoharness_failures :=
    if autoharness args then
      count_of (fun r => is_automatically_generated (hr_harness r)
                         && negb (bool_decide (r_status (hr_result r) = VSuccess))) rs
    else 0 in
  let unvalidated_success_count :=
    count_of (fun r => manual r && hr_effective r && unvalidated r) rs in
  if should_fail_final_summary manual_failures autoharness_failures 0 unvalidated_success_count
       (fail_on_unvalidated_success args) then ExitOne
  else if (count_of manual rs =? 0) && negb (match harness_filters args with [] => true | _ => false end)
  then ExitOne
  else Finished.

(** The other arm: its partitions, its lines' counts and its ending. *)
Definition verbose_summary (args : SummaryArgs) (rs : list HarnessResult) : Ending :=
  let '(automatic, manuals) :=
    (List.filter (fun r => is_automatically_generated (hr_harness r)) rs, List.filter manual rs) in
  let '(successes, non_successes) :=
    (List.filter hr_effective manuals, List.filter (fun r => negb (hr_effective r)) manuals) in
  let '(validated_successes, unvalidated_successes) :=
    (List.filter validated successes, List.filter (fun r => negb (validated r)) successes) in
  let '(fails, unval) :=
    (List.filter validated non_successes, List.filter (fun r => negb (validated r)) non_successes) in
  let succeeding := N.of_nat (length validated_successes) in
  let unvalidated_success_count := N.of_nat (length unvalidated_successes) in
  let failing := N.of_nat (length fails) in
  let unvalidated_count := N.of_nat (length unval) in
  let total := succeeding + unvalidated_success_count + failing + unvalidated_count in
  if (total =? 0) && negb (match harness_filters args with [] => true | _ => false end) then Bail
  else
    let autoharness_failing := if autoharness args then print_autoharness_summary automatic else 0 in
    if should_fail_final_summary failing autoharness_failing unvalidated_count
         unvalidated_success_count (fail_on_unvalidated_success args) then ExitOne
    else Finished.

(** [print_final_summary] *)
Definition print_final_summary (args : SummaryArgs) (rs : list HarnessResult) : Ending :=
  if quiet args then quiet_summary args rs else verbose_summary args rs.

(** ** Lemmas *)

Lemma count_of_zero (f : HarnessResult -> bool) (rs : list HarnessResult) :
  count_of f rs = 0 <-> forall r, r ∈ rs -> f r = false.
Proof.
  unfold count_of. rewrite <- filter_nil_iff.
  destruct (List.filter f rs); cbn; split; intros H; (done || lia).
Qed.

Lemma count_of_pos (f : HarnessResult -> bool) (rs : list HarnessResult) :
  0 < count_of f rs <-> exists r, r ∈ rs /\ f r = true.
Proof.
  rewrite <- existsb_elem. destruct (existsb f rs) eqn:E.
  - split; [done|]. intros _. apply existsb_elem in E as (r & Hr & Hf).
    destruct (N.eq_0_gt_0_cases (count_of f rs)) as [H|H]; [|done].
    rewrite count_of_zero in H. rewrite (H r Hr) in Hf. discriminate Hf.
  - rewrite existsb_false_elem, <- count_of_zero in E. rewrite E. split; [lia|done].
Qed.

Lemma filter_filter {A} (f g : A -> bool) (l : list A) :
  List.filter f (List.filter g l) = List.filter (fun x => g x && f x) l.
Proof.
  induction l as [|x l IH]; cbn; [done|].
  destruct (g x); cbn; [|done]. destruct (f x); by rewrite IH.
Qed.

Lemma count_of_split (f g : HarnessResult -> bool) (rs : list HarnessResult) :
  count_of f rs = count_of (fun r => f r && g r) rs + count_of (fun r => f r && negb (g r)) rs.
Proof.
  unfold count_of. induction rs as [|r rs IH]; cbn; [done|].
  destruct (f r), (g r); cbn; lia.
Qed.

Lemma count_of_split3 (f g h : HarnessResult -> bool) (rs : list HarnessResult) :
  count_of (fun r => f r && g r) rs =
  count_of (fun r => f r && (g r && h r)) rs + count_of (fun r => f r && (g r && negb (h r))) rs.
Proof.
  unfold count_of. induction rs as [|r rs IH]; cbn; [done|].
  destruct (f r), (g r), (h r); cbn; lia.
Qed.

Lemma unvalidated_eq (r : HarnessResult) : unvalidated r = negb (validated r).
Proof. unfold validated, unvalidated. by destruct (validation_status (hr_result r)). Qed.

(** When the final summary ends normally. *)
Definition all_good (args : SummaryArgs) (rs : list HarnessResult) : Prop :=
  (forall r, r ∈ rs -> manual r = true -> hr_effective r = true) /\
  (autoharness args = true -> forall r, r ∈ rs -> manual r = false ->
     r_status (hr_result r) = VSuccess) /\
  (fail_on_unvalidated_success args = true -> forall r, r ∈ rs -> manual r = true ->
     hr_effective r = true -> validation_status (hr_result r) = Validated) /\
  (harness_filters args = [] \/ exists r, r ∈ rs /\ manual r = true).

Lemma should_fail_false (a b c d : N) (f : bool) :
  should_fail_final_summary a b c d f = false <->
  a = 0 /\ b = 0 /\ c = 0 /\ (f = true -> d = 0).
Proof.
  unfold should_fail_final_summary. rewrite orb_false_iff, andb_false_iff, !N.ltb_ge.
  destruct f; split; [intros [? [?|?]]; [done|lia]|intros (? & ? & ? & H); specialize (H eq_refl)
    |intros [? ?]|intros (? & ? & ? & _)]; repeat split; try lia; try (right; lia); try done; by left.
Qed.

Lemma auto_failures_zero (rs : list HarnessResult) :
  count_of (fun r => is_automatically_generated (hr_harness r)
                     && negb (bool_decide (r_status (hr_result r) = VSuccess))) rs = 0 <->
  forall r, r ∈ rs -> manual r = false -> r_status (hr_result r) = VSuccess.
Proof.
  rewrite count_of_zero. apply forall_proper. intros r. unfold manual.
  destruct (is_automatically_generated (hr_harness r)); cbn; [|naive_solver].
  rewrite negb_false_iff, bool_decide_eq_true. naive_solver.
Qed.

Lemma quiet_finished (args : SummaryArgs) (rs : list HarnessResult) :
  quiet_summary args rs = Finished <-> all_good args rs.
Proof.
  unfold quiet_summary, all_good. cbv zeta.
  assert (E1 : count_of (fun r => manual r && negb (hr_effective r)) rs = 0 <->
    forall r, r ∈ rs -> manual r = true -> hr_effective r = true).
  { rewrite count_of_zero. apply forall_proper. intros r.
    destruct (manual r), (hr_effective r); cbn; naive_solver. }
  assert (E3 : count_of (fun r => manual r && hr_effective r && unvalidated r) rs = 0 <->
    forall r, r ∈ rs -> manual r = true -> hr_effective r = true ->
    validation_status (hr_result r) = Validated).
  { rewrite count_of_zero. apply forall_proper. intros r. unfold unvalidated.
    destruct (manual r), (hr_effective r), (validation_status (hr_result r)); cbn; naive_solver. }
  assert (E2 : (if autoharness args then
      count_of (fun r => is_automatically_generated (hr_harness r)
                         && negb (bool_decide (r_status (hr_result r) = VSuccess))) rs else 0) = 0 <->
    (autoharness args = true -> forall r, r ∈ rs -> manual r = false ->
     r_status (hr_result r) = VSuccess)).
  { rewrite <- auto_failures_zero. destruct (autoharness args); naive_solver. }
  rewrite <- E1, <- E2, <- E3.
  destruct (should_fail_final_summary _ _ _ _ _) eqn:Ef.
  - split; [done|]. intros (H1 & H2 & H3 & _).
    assert (X := proj2 (should_fail_false _ _ 0 _ (fail_on_unvalidated_success args))
      (conj H1 (conj H2 (conj eq_refl H3)))). congruence.
  - apply should_fail_false in Ef as (H1 & H2 & _ & H3).
    assert (Hm : count_of manual rs = 0 <-> ~ exists r, r ∈ rs /\ manual r = true).
    { rewrite <- count_of_pos. lia. }
    destruct (N.eqb_spec (count_of manual rs) 0) as [Ez|Ez]; cbn [andb].
    + destruct (harness_filters args); cbn; [tauto|]. split; [done|].
      intros (_ & _ & _ & [?|?]); [done|]. tauto.
    + split; [|done]. intros _. repeat split; try done. right.
      apply count_of_pos. lia.
Qed.

(** The counters of the verbose arm add up to those of the quiet one. *)
Lemma verbose_finished (args : SummaryArgs) (rs : list HarnessResult) :
  verbose_summary args rs = Finished <-> quiet_summary args rs = Finished.
Proof.
  unfold verbose_summary, quiet_summary, print_autoharness_summary. cbv zeta.
  rewrite !filter_filter. cbv beta.
  fold (count_of (fun r => manual r && (hr_effective r && validated r)) rs)
       (count_of (fun r => manual r && (hr_effective r && negb (validated r))) rs)
       (count_of (fun r => manual r && (negb (hr_effective r) && validated r)) rs)
       (count_of (fun r => manual r && (negb (hr_effective r) && negb (validated r))) rs).
  assert (A : count_of (fun r => negb (bool_decide (r_status (hr_result r) = VSuccess)))
      (List.filter (fun r => is_automatically_generated (hr_harness r)) rs) =
    count_of (fun r => is_automatically_generated (hr_harness r)
      && negb (bool_decide (r_status (hr_result r) = VSuccess))) rs).
  { unfold count_of. by rewrite filter_filter. }
  rewrite A. clear A.
  pose proof (count_of_split manual hr_effective rs) as M.
  pose proof (count_of_split3 manual hr_effective validated rs) as M1.
  pose proof (count_of_split3 manual (fun r => negb (hr_effective r)) validated rs) as M2.
  assert (U : count_of (fun r => manual r && hr_effective r && unvalidated r) rs =
    count_of (fun r => manual r && (hr_effective r && negb (validated r))) rs).
  { unfold count_of. do 2 f_equal. apply List.filter_ext. intros r.
    by rewrite unvalidated_eq, andb_assoc. }
  rewrite U. clear U. cbv beta in M1, M2.
  set (a := count_of (fun r => manual r && (hr_effective r && validated r)) rs) in *.
  set (b := count_of (fun r => manual r && (hr_effective r && negb (validated r))) rs) in *.
  set (c := count_of (fun r => manual r && (negb (hr_effective r) && validated r)) rs) in *.
  set (d := count_of (fun r => manual r && (negb (hr_effective r) && negb (validated r))) rs) in *.
  set (x := if autoharness args then _ else 0).
  assert (S : should_fail_final_summary c x d b (fail_on_unvalidated_success args) =
    should_fail_final_summary (count_of (fun r => manual r && negb (hr_effective r)) rs) x 0 b
      (fail_on_unvalidated_success args)).
  { unfold should_fail_final_summary. do 2 f_equal. lia. }
  rewrite <- S. assert (T : a + b + c + d = count_of manual rs) by lia. rewrite T.
  destruct (should_fail_final_summary c x d b _), (_ && _); done.
Qed.

Lemma console_check_count_spec (ps : list Property) (c : Counters) :
  count_properties no_counts ps = Some c -> console_check_count ps = number_properties ps c.
Proof.
  intros H. rewrite (number_properties_spec ps c H). unfold console_check_count.
  fold is_cover_row. clear H.
  enough (length ps = length (List.filter is_cover_row ps) +
    length (List.filter (fun p => negb (is_cover_row p)) ps))%nat by (unfold is_cover_row in *; lia).
  induction ps as [|p ps IH]; cbn; [done|]. destruct (is_cover_row p); cbn; lia.
Qed.

(** The console's words for a verdict. *)
Definition console_text (v : HarnessVerdict) (why : option SolverUnknownReason)
    (vs : ValidationStatus) : string :=
  match v with
  | Successful => "SUCCESSFUL"
  | SuccessfulUnvalidated => "SUCCESSFUL (UNVALIDATED)"
  | Vacuous => "VACUOUS (proof discharged under unsatisfiable assumptions — nothing verified)"
  | InconclusiveDeadChecks =>
      "INCONCLUSIVE (every check is unreachable — dead code, nothing exercised)"
  | InconclusiveUndecided =>
      match why with
      | Some SmtParseError => "INCONCLUSIVE (solver rejected the emitted query as ill-formed — encoder defect; see [AY:SMT_REJECTED])"
      | Some Memout => "INCONCLUSIVE (solver ran out of memory — bounded query too large; try a smaller unwind bound or --ay-chc)"
      | _ => "INCONCLUSIVE (solver undecided — try --ay-chc for unbounded proofs)"
      end
  | InconclusiveNoChecks => "INCONCLUSIVE (no checks)"
  | UncertifiedCounterexample | VUnvalidated | Failed =>
      match vs with Unvalidated => "UNVALIDATED (DT+BV)" | Validated => "FAILED" end
  end.

(** ** Properties *)

(** the console and the summary artifact cannot disagree on a run without
    coverage: the verdict line is the console's wording of the verdict that
    [classify_harness_verdict] writes, for every result and table the console
    can print. *)
Theorem channels_agree (r : VerificationResult) (sp : bool) (c : Counters)
    (printable : count_properties no_counts (results r) = Some c) :
  verdict_text (results r) c (r_status r) sp (failed_properties r) (validation_status r)
    (solver_unknown_reason r) (harness_feasibility r) =
  console_text (classify_harness_verdict r sp) (solver_unknown_reason r) (validation_status r).
Proof.
  unfold verdict_text, classify_harness_verdict.
  rewrite (console_check_count_spec _ _ printable).
  destruct (is_effective_manual_success _ _ _); cbn [andb].
  - by destruct (validation_status r).
  - destruct sp; cbn [negb andb].
    + destruct (has_decided_check (results r)); cbn [negb andb];
        [|destruct (solver_unknown_reason r) as [[]|]; cbn];
        try done; destruct (number_properties (results r) c =? 0); try done;
        destruct (ctrex_category r) as [[]|], (validation_status r); done.
    + destruct (classify_vacuity (results r) (harness_feasibility r)); cbn; try done.
      destruct (has_decided_check (results r)); cbn [negb andb];
        [|destruct (solver_unknown_reason r) as [[]|]; cbn];
        try done; destruct (number_properties (results r) c =? 0); try done;
        destruct (ctrex_category r) as [[]|], (validation_status r); done.
Qed.

(** The exit code.  With and without [--quiet] the process ends normally in
    exactly the same situations: every ordinary harness is effectively
    successful, every automatic one proved when they are summarised, no
    unvalidated proof when those are to fail, and a filter, if any, matched. *)
Theorem exit_code_spec (args : SummaryArgs) (rs : list HarnessResult) :
  (print_final_summary args rs = Finished <-> all_good args rs) /\
  (quiet_summary args rs = Finished <-> verbose_summary args rs = Finished).
Proof.
  unfold print_final_summary. rewrite verbose_finished.
  destruct (quiet args); rewrite ?verbose_finished, quiet_finished; done.
Qed.

(** The counts of the summary artifact partition the harnesses: by origin, by
    success, by validation, and the failures by what went wrong. *)
Theorem summary_partition (rs : list HarnessResult) :
  let s := summarize rs in
  total_harnesses s = N.of_nat (length rs) /\
  manual_harnesses s + automatic_harnesses s = total_harnesses s /\
  effective_successes s + failures s = total_harnesses s /\
  validated_results s + unvalidated_results s = total_harnesses s /\
  vacuous_harnesses s + inconclusive_harnesses s + uncertified_harnesses s + refuted_harnesses s
    = failures s.
Proof.
  cbv zeta. unfold summarize.
  set (z := {| total_harnesses := _ |}).
  assert (H : forall s, let s' := foldl count_result s rs in
    total_harnesses s' = total_harnesses s /\
    manual_harnesses s' + automatic_harnesses s' =
      manual_harnesses s + automatic_harnesses s + N.of_nat (length rs) /\
    effective_successes s' + failures s' =
      effective_successes s + failures s + N.of_nat (length rs) /\
    validated_results s' + unvalidated_results s' =
      validated_results s + unvalidated_results s + N.of_nat (length rs) /\
    vacuous_harnesses s' + inconclusive_harnesses s' + uncertified_harnesses s' +
      refuted_harnesses s' + failures s =
    vacuous_harnesses s + inconclusive_harnesses s + uncertified_harnesses s +
      refuted_harnesses s + failures s').
  { induction rs as [|r rs' IH]; intros s; cbn [foldl length].
    - cbn. repeat split; lia.
    - destruct (IH (count_result s r)) as (I1 & I2 & I3 & I4 & I5). cbv zeta.
      set (F := foldl count_result (count_result s r) rs') in *. clearbody F.
      rewrite I1, I2, I3, I4. clear I1 I2 I3 I4 IH.
      revert I5. unfold count_result. cbv zeta. generalize (classify_harness_verdict (hr_result r) (should_panic (attributes (hr_harness r)))).
      intros v. generalize (is_automatically_generated (hr_harness r)) (hr_effective r)
        (bool_decide (validation_status (hr_result r) = Validated)). intros b1 b2 b3.
      destruct b1, b2, b3, v; cbn; intros I5; repeat split; lia. }
  destruct (H z) as (H1 & H2 & H3 & H4 & H5). cbn in *. repeat split; lia.
Qed.

(** The row counts of the artifact partition the property table. *)
Theorem property_counts_partition (r : VerificationResult) :
  let c := property_counts r in
  pc_total c = N.of_nat (length (results r)) /\
  pc_failed c + pc_undetermined c + pc_unknown c + pc_successful c + cover_satisfied c +
    cover_unsatisfied c + coverage_covered c + coverage_uncovered c = pc_total c /\
  pc_failed c = N.of_nat (length (failed_checks r)).
Proof.
  cbv zeta. unfold property_counts, failed_checks. rewrite length_map.
  set (z := {| pc_total := _ |}).
  assert (H : forall c, let c' := foldl count_row c (results r) in
    pc_total c' = pc_total c /\
    pc_failed c' + pc_undetermined c' + pc_unknown c' + pc_successful c' + cover_satisfied c' +
      cover_unsatisfied c' + coverage_covered c' + coverage_uncovered c' =
    pc_failed c + pc_undetermined c + pc_unknown c + pc_successful c + cover_satisfied c +
      cover_unsatisfied c + coverage_covered c + coverage_uncovered c +
      N.of_nat (length (results r)) /\
    pc_failed c' = pc_failed c +
      N.of_nat (length (List.filter (fun p => bool_decide (status p = Failure)) (results r)))).
  { induction (results r) as [|p ps IH]; intros c; cbn [foldl length List.filter].
    - cbn. repeat split; lia.
    - destruct (IH (count_row c p)) as (I1 & I2 & I3). cbv zeta.
      set (F := foldl count_row (count_row c p) ps) in *. clearbody F. rewrite I1, I2, I3.
      assert (bool_decide (status p = Failure) = is_failure p) as ->
        by (unfold is_failure; by destruct (status p)).
      unfold count_row, is_failure. destruct (status p), (is_cover_property p); cbn; repeat split; lia. }
  destruct (H z) as (H1 & H2 & H3). cbn in *. repeat split; lia.
Qed.

(** ** Closed instances *)

Lemma channels_agree_witness :
  console_text (classify_harness_verdict
    (VerificationResult.Sample.result VFailure Other
       [VerificationResult.Sample.check "assertion" 1 Unreachable]) false) None Validated =
  "VACUOUS (proof discharged under unsatisfiable assumptions — nothing verified)".
Proof.
  symmetry.
  refine (eq_trans _ (channels_agree (VerificationResult.Sample.result VFailure Other
    [VerificationResult.Sample.check "assertion" 1 Unreachable]) false _ eq_refl)).
  by vm_compute.
Defined.

(** Under coverage the channels can disagree: the console drops the coverage rows
    before it decides that there is no check, the artifact does not. *)
Theorem coverage_channels_disagree :
  let r := VerificationResult.Sample.result VFailure Other
             [VerificationResult.Sample.check "code_coverage" 1 Covered] in
  classify_harness_verdict r false = Failed /\
  forall fmt env cov,
    is_Some (format_coverage fmt env (results r) cov (r_status r) false (failed_properties r) false
      Validated None FUndetermined) /\
    verdict_text [] no_counts (r_status r) false (failed_properties r) Validated None FUndetermined =
      console_text InconclusiveNoChecks None Validated.
Proof. split; [by vm_compute|]. intros fmt env cov. split; [by eexists|by vm_compute]. Qed.

End Summary.
