(* ===== verification/AyExpr.v ===== *)
(** * The expressions of the solver bindings

    The CHC passes of trust-mc-core work on the expressions of the external
    crate [ay_bindings].  They only look at an expression through [value()],
    the enum [ExprValue], and through its sub-expressions.  [AyExpr] is that
    interface; [AySem] adds the semantics the correctness of the passes relies
    on: variables are read from a valuation, an equality compares its sides, a
    conjunction is a conjunction, and nothing but the variables occurring in an
    expression decides its value.  [collect_var_names] is the traversal of
    [chc_optimize_collect.rs].  A small concrete language is an instance. *)

From S2P Require Import Prelude.

(** ** ExprValue, as the passes see it *)

(** The operators with one operand, with the fields the passes read; the rounding
    modes and the formats of the floating-point operators are left out.  [S] are the
    sorts. *)
Inductive unary (S : Type) :=
  | Not | BvNeg | BvNot | IntNeg | RealNeg | BvNegNoOverflow | IntToReal | RealToInt | IsInt
  | Bv2Int | Int2Bv (width : N) | BvZeroExtend (extra_bits : N) | BvSignExtend (extra_bits : N)
  | BvExtract (high low : N) | ConstArray (index_sort : S)
  | DatatypeSelector (datatype_name selector_name : string)
  | DatatypeTester (datatype_name constructor_name : string)
  | FpAbs | FpNeg | FpIsNaN | FpIsInfinite | FpIsZero | FpIsNormal | FpIsSubnormal
  | FpIsPositive | FpIsNegative | FpToReal | FpSqrt | FpRoundToIntegral | FpToSbv | FpToUbv.

Arguments Not {S}. Arguments BvNeg {S}. Arguments BvNot {S}. Arguments IntNeg {S}.
Arguments RealNeg {S}. Arguments BvNegNoOverflow {S}. Arguments IntToReal {S}.
Arguments RealToInt {S}. Arguments IsInt {S}. Arguments Bv2Int {S}. Arguments Int2Bv {S} width.
Arguments BvZeroExtend {S} extra_bits. Arguments BvSignExtend {S} extra_bits.
Arguments BvExtract {S} high low. Arguments ConstArray {S} index_sort.
Arguments DatatypeSelector {S} datatype_name selector_name.
Arguments DatatypeTester {S} datatype_name constructor_name.

(** The operators with two operands, [Eq] apart. *)
Inductive binary :=
  | BvAdd | BvSub | BvMul | BvUDiv | BvSDiv | BvURem | BvSRem | BvAnd | BvOr | BvXor | BvShl
  | BvLShr | BvAShr | BvULt | BvULe | BvUGt | BvUGe | BvSLt | BvSLe | BvSGt | BvSGe | BvConcat
  | BvAddNoOverflowUnsigned | BvAddNoOverflowSigned | BvSubNoUnderflowUnsigned
  | BvSubNoOverflowSigned | BvMulNoOverflowUnsigned | BvMulNoOverflowSigned | BvSdivNoOverflow
  | IntAdd | IntSub | IntMul | IntDiv | IntMod | IntLt | IntLe | IntGt | IntGe
  | RealAdd | RealSub | RealMul | RealDiv | RealLt | RealLe | RealGt | RealGe
  | Xor | Implies | Select
  | FpRem | FpMin | FpMax | FpEq | FpLt | FpLe | FpGt | FpGe | FpAdd | FpSub | FpMul | FpDiv.

(** The constants; the payload of reals is left out. *)
Inductive constant := BitVecConst (value : Z) (width : N) | IntConst (value : Z) | RealConst
  | FpPlusInfinity | FpMinusInfinity | FpNaN | FpPlusZero | FpMinusZero.

(** [ExprValue]; the enum is [#[non_exhaustive]], [Unknown] is a variant the
    source does not name, with its sub-expressions. *)
Inductive ExprValue (S E : Type) :=
  | Var (name : string)
  | BoolConst (b : bool)
  | Const (c : constant)
  | Unary (op : unary S) (e : E)
  | Binary (op : binary) (a b : E)
  | Eq (a b : E)
  | And (es : list E)
  | Or (es : list E)
  | Distinct (es : list E)
  | Ite (cond then_expr else_expr : E)
  | Store (array index value : E)
  | FpFma (a b c : E)
  | DatatypeConstructor (datatype_name constructor_name : string) (args : list E)
  | FuncApp (name : string) (args : list E)
  | Forall (vars : list (string * S)) (body : E) (triggers : list (list E))
  | Exists (vars : list (string * S)) (body : E) (triggers : list (list E))
  | Unknown (es : list E).
Arguments Var {S E} name. Arguments BoolConst {S E} b. Arguments Const {S E} c.
Arguments Unary {S E} op e. Arguments Binary {S E} op a b. Arguments Eq {S E} a b.
Arguments And {S E} es. Arguments Or {S E} es. Arguments Distinct {S E} es.
Arguments Ite {S E} cond then_expr else_expr. Arguments Store {S E} array index value.
Arguments FpFma {S E} a b c. Arguments DatatypeConstructor {S E} datatype_name constructor_name args.
Arguments FuncApp {S E} name args. Arguments Forall {S E} vars body triggers.
Arguments Exists {S E} vars body triggers. Arguments Unknown {S E} es.

(** [children()]: the direct sub-expressions. *)
Definition subexprs {S E} (v : ExprValue S E) : list E :=
  match v with
  | Var _ | BoolConst _ | Const _ => []
  | Unary _ e => [e]
  | Binary _ a b | Eq a b => [a; b]
  | And es | Or es | Distinct es | DatatypeConstructor _ _ es | FuncApp _ es | Unknown es => es
  | Ite a b c | Store a b c | FpFma a b c => [a; b; c]
  | Forall _ body ts | Exists _ body ts => body :: concat ts
  end.

(** ** The interface *)

(** Expressions are finite trees, compared structurally; [expr_var] is
    [Expr::var(name, sort)]. *)
Class AyExpr := {
  Sort : Type;
  Sort_eq_dec :: EqDecision Sort;
  DatatypeSort : Type;
  datatype_name : DatatypeSort -> string;
  Expr : Type;
  Expr_eq_dec :: EqDecision Expr;
  value : Expr -> ExprValue Sort Expr;
  expr_var : string -> Sort -> Expr;
  value_expr_var : forall n s, value (expr_var n s) = Var n;
  size : Expr -> nat;
  sub_size : forall e c, c ∈ subexprs (value e) -> (size c < size e)%nat;
}.

Definition children `{AyExpr} (e : Expr) : list Expr := subexprs (value e).

(** A variable occurs in an expression. *)
Inductive occurs `{AyExpr} (n : string) : Expr -> Prop :=
  | occurs_var e : value e = Var n -> occurs n e
  | occurs_sub e c : c ∈ children e -> occurs n c -> occurs n e.

(** The semantics.  Every variable name has one sort; a valuation is
    [admissible] when it respects the sorts. *)
Class AySem `{AyExpr} := {
  val : Type;
  var_sort : string -> Sort;
  has_sort : val -> Sort -> Prop;
  inhabitant : Sort -> val;
  inhabitant_sort : forall s, has_sort (inhabitant s) s;
  eval : (string -> val) -> Expr -> val;
  is_true : val -> Prop;
  eval_var : forall r e n, value e = Var n -> eval r e = r n;
  eval_ext : forall r r' e, (forall n, occurs n e -> r n = r' n) -> eval r e = eval r' e;
  eval_false : forall r e, value e = BoolConst false -> ~ is_true (eval r e);
  eval_and : forall r e es, value e = And es ->
    is_true (eval r e) -> forall c, c ∈ es -> is_true (eval r c);
  eval_eq : forall r e a b, value e = Eq a b -> (is_true (eval r e) <-> eval r a = eval r b);
  (** an equality is well sorted: a value of one side is a value of the other *)
  eq_sorted : forall r e a b n, value e = Eq a b ->
    (forall m, has_sort (r m) (var_sort m)) ->
    (value a = Var n -> has_sort (eval r b) (var_sort n)) /\
    (value b = Var n -> has_sort (eval r a) (var_sort n));
  eq_vars_sorted : forall e a b n m, value e = Eq a b -> value a = Var n -> value b = Var m ->
    var_sort n = var_sort m;
}.

Definition admissible `{AySem} (r : string -> val) : Prop := forall n, has_sort (r n) (var_sort n).

(** The valuation [r] with the variables of [d] read from [r']. *)
Definition override {A} (d : string -> bool) (r' r : string -> A) (n : string) : A :=
  if d n then r' n else r n.

Lemma override_admissible `{AySem} d r' r :
  admissible r' -> admissible r -> admissible (override d r' r).
Proof. intros Hr' Hr n. unfold override. destruct (d n); [apply Hr'|apply Hr]. Qed.

(** ** The traversals *)

Section Collect.
Context `{AyExpr}.

(** Every traversal of the passes: a function of the node, applied to the
    results of the sub-expressions, with the size as fuel. *)
Fixpoint fold_expr {A} (f : ExprValue Sort Expr -> (Expr -> A) -> A) (stop : A) (fuel : nat) (e : Expr)
    : A :=
  match fuel with
  | O => stop
  | S fuel' => f (value e) (fold_expr f stop fuel')
  end.

(** One level of [collect_expr_vars] of chc_optimize_dead_vars.rs, and of the
    stack traversals of chc.rs that read every sub-expression. *)
Definition vars_node (v : ExprValue Sort Expr) (rec : Expr -> list string) : list string :=
  match v with
  | Var n => [n]
  | _ => flat_map rec (subexprs v)
  end.

(** [collect_expr_vars] *)
Definition collect_expr_vars (e : Expr) : list string := fold_expr vars_node [] (S (size e)) e.

(** [collect_var_names] of chc_optimize_collect.rs: the variant by variant
    match; the last arm drops what it does not know. *)
Definition names_node (v : ExprValue Sort Expr) (rec : Expr -> list string) : list string :=
  match v with
  | Var n => [n]
  | BoolConst _ | Const _ => []
  | Unary _ e => rec e
  | Binary _ a b | Eq a b => rec a ++ rec b
  | And es | Or es | Distinct es => flat_map rec es
  | Ite c t e => rec c ++ rec t ++ rec e
  | Store a i x => rec a ++ rec i ++ rec x
  | DatatypeConstructor _ _ args | FuncApp _ args => flat_map rec args
  | Forall _ body ts | Exists _ body ts => rec body ++ flat_map (flat_map rec) ts
  | FpFma a b c => rec a ++ rec b ++ rec c
  | Unknown _ => []
  end.
Definition collect_var_names (e : Expr) : list string := fold_expr names_node [] (S (size e)) e.

(** The variants are all known. *)
Inductive known : Expr -> Prop :=
  | known_node e : (forall es, value e <> Unknown es) -> (forall c, c ∈ children e -> known c) ->
      known e.

(** ** Lemmas *)

Lemma size_ind (P : Expr -> Prop) :
  (forall e, (forall c, c ∈ children e -> P c) -> P e) -> forall e, P e.
Proof.
  intros IH e. remember (size e) as k eqn:E. revert e E.
  induction (lt_wf k) as [k _ IHk]. intros e ->. apply IH. intros c Hc.
  eapply IHk; [|reflexivity]. by apply sub_size.
Qed.

(** More fuel than the size does not change a traversal that only calls itself
    on sub-expressions. *)
Lemma fold_expr_fuel {A} (f : ExprValue Sort Expr -> (Expr -> A) -> A) (stop : A) :
  (forall v g h, (forall c, c ∈ subexprs v -> g c = h c) -> f v g = f v h) ->
  forall e k k', (size e < k)%nat -> (size e < k')%nat ->
  fold_expr f stop k e = fold_expr f stop k' e.
Proof.
  intros Hf. induction e as [e IH] using size_ind. intros k k' Hk Hk'.
  destruct k as [|k], k' as [|k']; [lia..|]. cbn. apply Hf. intros c Hc.
  pose proof (sub_size e c Hc). apply IH; [done|lia..].
Qed.

Lemma flat_map_cong {A B} (g h : A -> list B) l :
  (forall c, c ∈ l -> g c = h c) -> flat_map g l = flat_map h l.
Proof.
  intros E. induction l as [|c l IH]; cbn; [done|].
  rewrite E, IH by set_solver. done.
Qed.

Lemma vars_node_cong v g h :
  (forall c, c ∈ subexprs v -> g c = h c) -> vars_node v g = vars_node v h.
Proof. intros E. destruct v; try reflexivity; cbn [vars_node]; by apply flat_map_cong. Qed.

Lemma flat_map_concat_cong {A B} (g h : A -> list B) ts :
  (forall c, c ∈ concat ts -> g c = h c) -> flat_map (flat_map g) ts = flat_map (flat_map h) ts.
Proof.
  intros E. induction ts as [|t ts IH]; cbn in *; [done|].
  rewrite (flat_map_cong g h t), IH; [done| |]; intros c Hc; apply E, elem_of_app; auto.
Qed.

Lemma flat_map_concat_eq {A B} (g : A -> list B) ts :
  flat_map g (concat ts) = flat_map (flat_map g) ts.
Proof. induction ts as [|t ts IH]; cbn; [done|]. by rewrite flat_map_app, IH. Qed.

Lemma names_node_cong v g h :
  (forall c, c ∈ subexprs v -> g c = h c) -> names_node v g = names_node v h.
Proof.
  intros E. destruct v; cbn [names_node subexprs] in *; try reflexivity;
    try (by apply flat_map_cong); try (rewrite !E by set_solver; reflexivity).
  all: rewrite E by set_solver; f_equal; apply flat_map_concat_cong; intros c Hc; apply E; set_solver.
Qed.

Lemma collect_expr_vars_eq e :
  collect_expr_vars e = vars_node (value e) collect_expr_vars.
Proof.
  unfold collect_expr_vars at 1. cbn [fold_expr]. apply vars_node_cong. intros c Hc.
  pose proof (sub_size e c Hc). unfold collect_expr_vars.
  apply fold_expr_fuel; [apply vars_node_cong|lia..].
Qed.

Lemma collect_var_names_eq e :
  collect_var_names e = names_node (value e) collect_var_names.
Proof.
  unfold collect_var_names at 1. cbn [fold_expr]. apply names_node_cong. intros c Hc.
  pose proof (sub_size e c Hc). unfold collect_var_names.
  apply fold_expr_fuel; [apply names_node_cong|lia..].
Qed.

Lemma elem_of_flat_map {A B} (f : A -> list B) l x :
  x ∈ flat_map f l <-> exists c, c ∈ l /\ x ∈ f c.
Proof.
  rewrite list_elem_of_In, in_flat_map. split; intros (c & Hc & Hx); exists c;
    by rewrite ?list_elem_of_In, <- ?list_elem_of_In in *.
Qed.

(** The generic traversal collects the variables that occur. *)
Lemma collect_expr_vars_occurs n e : n ∈ collect_expr_vars e <-> occurs n e.
Proof.
  induction e as [e IH] using size_ind. rewrite collect_expr_vars_eq.
  assert (G : (forall m, value e <> Var m) ->
    n ∈ flat_map collect_expr_vars (subexprs (value e)) <-> occurs n e).
  { intros Nv. rewrite elem_of_flat_map. split.
    - intros (c & Hc & Hn). apply (occurs_sub n e c); [done|]. by apply IH.
    - intros O. inversion O as [e' V|e' c Hc Hn]; subst; [by apply Nv in V|].
      exists c. split; [done|]. by apply IH. }
  destruct (value e) eqn:V; try (by apply G). cbn [vars_node]. rewrite list_elem_of_singleton.
  split; [intros ->; by apply occurs_var|]. intros O.
  inversion O as [e' V'|e' c Hc Hn]; subst; [congruence|].
  unfold children in Hc. rewrite V in Hc. by apply elem_of_nil in Hc.
Qed.

End Collect.

(** ** A concrete language *)

(** Integer terms, with a truth value read as "not zero". *)
Module Sample.

Inductive Term :=
  | TVar (n : string) | TInt (z : Z) | TTrue | TFalse
  | TEq (a b : Term) | TLt (a b : Term) | TAdd (a b : Term) | TAnd (a b : Term)
  | TSelect (a i : Term) | TOpaque (a : Term).

#[export] Instance Term_eq_dec : EqDecision Term.
Proof. solve_decision. Defined.

Definition term_value (t : Term) : ExprValue unit Term :=
  match t with
  | TVar n => Var n
  | TInt z => Const (IntConst z)
  | TTrue => BoolConst true
  | TFalse => BoolConst false
  | TEq a b => Eq a b
  | TLt a b => Binary IntLt a b
  | TAdd a b => Binary IntAdd a b
  | TAnd a b => And [a; b]
  | TSelect a i => Binary Select a i
  | TOpaque a => Unknown [a]
  end.

Fixpoint term_size (t : Term) : nat :=
  match t with
  | TVar _ | TInt _ | TTrue | TFalse => 1
  | TEq a b | TLt a b | TAdd a b | TAnd a b | TSelect a b => S (term_size a + term_size b)
  | TOpaque a => S (term_size a)
  end.

#[export, program] Instance terms : AyExpr := {|
  Sort := unit; DatatypeSort := string; datatype_name := fun d => d;
  Expr := Term; value := term_value; expr_var := fun n _ => TVar n; size := term_size |}.
Next Obligation. done. Qed.
Next Obligation.
  intros e c. destruct e; cbn; rewrite ?elem_of_cons, ?elem_of_nil; intros Hc; intuition subst; lia.
Qed.

Definition of_bool (b : bool) : Z := if b then 1 else 0.

Fixpoint term_eval (r : string -> Z) (t : Term) : Z :=
  match t with
  | TVar n => r n
  | TInt z => z
  | TTrue => 1
  | TFalse => 0
  | TEq a b => of_bool (Z.eqb (term_eval r a) (term_eval r b))
  | TLt a b => of_bool (Z.ltb (term_eval r a) (term_eval r b))
  | TAdd a b => term_eval r a + term_eval r b
  | TAnd a b => of_bool (negb (Z.eqb (term_eval r a) 0) && negb (Z.eqb (term_eval r b) 0))
  | TSelect a b => 2 * term_eval r a + term_eval r b
  | TOpaque a => - term_eval r a
  end%Z.

Lemma term_eval_ext r r' e : (forall n, occurs n e -> r n = r' n) -> term_eval r e = term_eval r' e.
Proof.
  induction e as [n| | | |a IHa b IHb|a IHa b IHb|a IHa b IHb|a IHa b IHb|a IHa b IHb|a IHa];
    intros E; cbn; try done.
  1: apply E; by apply occurs_var.
  6: f_equal; apply IHa; intros m Hm; apply E; eapply occurs_sub; [|exact Hm]; cbn; set_solver.
  all: assert (Ea : term_eval r a = term_eval r' a)
    by (apply IHa; intros m Hm; apply E; eapply occurs_sub; [|exact Hm]; cbn; set_solver).
  all: assert (Eb : term_eval r b = term_eval r' b)
    by (apply IHb; intros m Hm; apply E; eapply occurs_sub; [|exact Hm]; cbn; set_solver).
  all: by rewrite Ea, Eb.
Qed.

#[export, program] Instance term_sem : AySem := {|
  val := Z; var_sort := fun _ => tt; has_sort := fun _ _ => True;
  inhabitant := fun _ => 0%Z; eval := term_eval; is_true := fun z => z <> 0%Z |}.
Next Obligation. done. Qed.
Next Obligation. intros r e n V. destruct e; cbn in V; try discriminate. by injection V as ->. Qed.
Next Obligation. intros. by apply term_eval_ext. Qed.
Next Obligation. intros r e V. destruct e; cbn in *; try discriminate; lia. Qed.
Next Obligation.
  intros r e es V T c Hc. destruct e; cbn in *; try discriminate. injection V as <-.
  destruct (Z.eqb_spec (term_eval r e1) 0), (Z.eqb_spec (term_eval r e2) 0); cbn in T; try lia.
  set_solver.
Qed.
Next Obligation.
  intros r e a b V. destruct e; cbn in *; try discriminate. injection V as <- <-.
  destruct (Z.eqb_spec (term_eval r e1) (term_eval r e2)); cbn; lia.
Qed.
Next Obligation. done. Qed.
Next Obligation. done. Qed.

End Sample.

(** On known variants the two traversals collect the same variables. *)
Lemma collect_var_names_occurs `{AyExpr} (n : string) (e : Expr) :
  known e -> n ∈ collect_var_names e <-> occurs n e.
Proof.
  intros K. induction K as [e N K IH]. rewrite <- collect_expr_vars_occurs, collect_expr_vars_eq.
  assert (I : forall c, c ∈ children e -> n ∈ collect_var_names c <-> n ∈ collect_expr_vars c).
  { intros c Hc. rewrite collect_expr_vars_occurs. by apply IH. }
  rewrite collect_var_names_eq. unfold children in I.
  assert (F : forall l, (forall c, c ∈ l -> c ∈ subexprs (value e)) ->
    n ∈ flat_map collect_var_names l <-> n ∈ flat_map collect_expr_vars l).
  { intros l Hl. rewrite !elem_of_flat_map. split; intros (c & Hc & Hn); exists c;
      (split; [done|]); by apply I; auto. }
  destruct (value e) as [| | | | | | | | | | | |d k args|m args|vs b ts|vs b ts|es] eqn:V;
    cbn [names_node vars_node subexprs] in *; try done; try (by apply F);
    try (cbn [flat_map]; rewrite ?app_nil_r, ?elem_of_app, !I by set_solver; done).
  - cbn [flat_map]. rewrite !elem_of_app, I, <- (F (concat ts)), flat_map_concat_eq by set_solver. done.
  - cbn [flat_map]. rewrite !elem_of_app, I, <- (F (concat ts)), flat_map_concat_eq by set_solver. done.
  - by destruct (N es).
Qed.

(** ** Property *)

(** No variable is dropped.  On expressions built from the variants the
    source names, the variant by variant match collects exactly the variables
    that occur, as the generic traversal does. *)
Theorem collect_var_names_complete `{AyExpr} (n : string) (e : Expr) (K : known e) :
  (n ∈ collect_var_names e <-> occurs n e) /\
  (n ∈ collect_var_names e <-> n ∈ collect_expr_vars e).
Proof.
  split; [by apply collect_var_names_occurs|].
  rewrite collect_expr_vars_occurs. by apply collect_var_names_occurs.
Qed.

Section Witness.
Import Sample.

Lemma collect_var_names_complete_witness :
  let e : @Expr terms := TEq (TVar "x") (TAdd (TVar "y") (TInt 1)) in
  known e /\ ("y" ∈ collect_var_names e <-> occurs "y" e).
Proof.
  assert (K : @known terms (TEq (TVar "x") (TAdd (TVar "y") (TInt 1)))).
  { repeat (constructor; [intros; cbn; discriminate|];
      intros ? Hc; cbn in Hc; repeat (apply elem_of_cons in Hc as [->|Hc]);
      try by apply elem_of_nil in Hc). }
  split; [exact K|]. exact (proj1 (collect_var_names_complete "y" _ K)).
Defined.

End Witness.
