(* ===== verification/Chc.v ===== *)
(** * Constrained Horn clauses

    Models [constraints.rs], [decl.rs] and [chc.rs] of trust-mc-core: the
    storage of the constraints of a rule, declarations, rules and the
    verification condition [ChcVc] with its operations, and the pruning of
    orphan blocks.  [derivable] is the meaning of a system of rules: the facts
    derived from them under well-sorted valuations.  A constraint is a formula
    over the variables of its rule; the printing to the solver's own program
    type is left out. *)

From S2P Require Import Prelude PropertyModel Artifact AyExpr.

Module Chc.

(** ** constraints.rs *)

Section Constraints.
Context `{AyExpr}.

Inductive Constraints :=
  | Owned (v : list Expr)
  | Shared (base extra : list Expr).

Definition len (c : Constraints) : nat :=
  match c with
  | Owned v => length v
  | Shared base extra => length base + length extra
  end.

Definition is_empty (c : Constraints) : bool := Nat.eqb (len c) 0.

Definition is_shared (c : Constraints) : bool :=
  match c with Shared _ _ => true | Owned _ => false end.

Definition first (c : Constraints) : option Expr :=
  match c with
  | Owned v => head v
  | Shared base extra => match head base with Some e => Some e | None => head extra end
  end.

Definition last (c : Constraints) : option Expr :=
  match c with
  | Owned v => list.last v
  | Shared base extra => match list.last extra with Some e => Some e | None => list.last base end
  end.

(** [iter()], by the sequence it yields. *)
Definition iter (c : Constraints) : list Expr :=
  match c with
  | Owned v => v
  | Shared base extra => base ++ extra
  end.

(** [PartialEq::eq] *)
Definition Constraints_eqb (a b : Constraints) : bool :=
  Nat.eqb (len a) (len b) &&
  forallb (fun xy => bool_decide (xy.1 = xy.2)) (combine (iter a) (iter b)).

(** Equality of constraint sets, coarser than equality of their storage. *)
#[export] Instance Constraints_equiv : Equiv Constraints := fun a b => iter a = iter b.

#[export] Instance Constraints_equivalence : Equivalence (≡@{Constraints}).
Proof.
  split; unfold equiv, Constraints_equiv; [by intros x|by intros x y ->|by intros x y z -> ->].
Qed.

#[export] Instance iter_proper : Proper ((≡) ==> (=)) iter.
Proof. by intros a b E. Qed.

Lemma len_iter c : len c = length (iter c).
Proof. destruct c; cbn; [done|by rewrite length_app]. Qed.

#[export] Instance len_proper : Proper ((≡) ==> (=)) len.
Proof. intros a b E. rewrite !len_iter. by rewrite E. Qed.

Lemma first_iter c : first c = head (iter c).
Proof. destruct c as [v|[|e base] extra]; done. Qed.

Lemma last_iter c : last c = list.last (iter c).
Proof. destruct c as [v|base extra]; cbn; [done|]. by rewrite last_app. Qed.

#[export] Instance first_proper : Proper ((≡) ==> (=)) first.
Proof. intros a b E. rewrite !first_iter. by rewrite E. Qed.

#[export] Instance last_proper : Proper ((≡) ==> (=)) last.
Proof. intros a b E. rewrite !last_iter. by rewrite E. Qed.

Lemma combine_all_eq (l l' : list Expr) :
  length l = length l' ->
  forallb (fun xy => bool_decide (xy.1 = xy.2)) (combine l l') = true <-> l = l'.
Proof.
  revert l'. induction l as [|x l IH]; intros [|y l'] E; cbn in *; try discriminate; [done|].
  rewrite andb_true_iff, bool_decide_eq_true, IH by lia.
  split; [by intros [-> ->]|by intros [= -> ->]].
Qed.

Lemma Constraints_eqb_iff a b : Constraints_eqb a b = true <-> a ≡ b.
Proof.
  unfold Constraints_eqb, equiv, Constraints_equiv. rewrite andb_true_iff, Nat.eqb_eq, !len_iter.
  split; [intros [E F]; by apply combine_all_eq|intros E]. rewrite E. split; [done|].
  by apply combine_all_eq.
Qed.

End Constraints.

(** ** decl.rs *)

Section Decl.
Context `{AyExpr}.

Inductive Decl :=
  | DConst (name : string) (sort : Sort)
  | DFun (name : string) (arg_sorts : list Sort) (ret_sort : Sort)
  | DDatatype (datatype : DatatypeSort).

Definition decl_name (d : Decl) : string :=
  match d with
  | DConst n _ => n
  | DFun n _ _ => n
  | DDatatype dt => datatype_name dt
  end.

Definition datatype_sort (d : Decl) : option DatatypeSort :=
  match d with DDatatype dt => Some dt | _ => None end.

(** ** chc.rs: the data *)

Record RelationApp := { app_name : string; args : list Expr }.

Record RuleBody := { relation : option RelationApp; constraints : Constraints }.

Record Rule := { body : RuleBody; head : RelationApp }.

Record RelationDecl := { rel_name : string; arg_sorts : list Sort }.

Record ChcQuery := { target : option string; timeout_ms : option N }.

Record VarDecl := { var_name : string; vsort : Sort }.

Record ChcProperty := {
  prop_id : N;
  prop_kind : Artifact.PropertyKind;
  prop_bb : N;
  prop_relation : string;
  prop_message : option string;
  prop_location : option Artifact.SourceLocation;
  approximation_dependent : option bool;
}.

Record ChcVc := {
  decls : list Decl;
  vars : list VarDecl;
  declared_var_names : gset string;
  relations : list RelationDecl;
  rules : list Rule;
  query : ChcQuery;
  cover_assertions : list (string * Expr);
  properties : list ChcProperty;
  trivially_safe_discharged : bool;
  vacuous_all_checks_unreachable : bool;
  approximated_vars : list string;
  accounted_approximations : N;
  approximation_identity_complete : bool;
}.

(** ** Constructors *)

Definition RelationDecl_nullary (n : string) : RelationDecl := {| rel_name := n; arg_sorts := [] |}.
Definition arity (r : RelationDecl) : nat := length (arg_sorts r).

Definition RelationApp_nullary (n : string) : RelationApp := {| app_name := n; args := [] |}.

Definition RuleBody_new (r : option RelationApp) (cs : list Expr) : RuleBody :=
  {| relation := r; constraints := Owned cs |}.
Definition from_shared_base (r : option RelationApp) (base extra : list Expr) : RuleBody :=
  {| relation := r; constraints := Shared base extra |}.
Definition from_base_and_extra (r : option RelationApp) (base extra : list Expr) : RuleBody :=
  {| relation := r; constraints := Owned (base ++ extra) |}.
Definition RuleBody_empty : RuleBody := {| relation := None; constraints := Owned [] |}.

Definition Rule_init (c : Expr) (h : RelationApp) : Rule :=
  {| body := RuleBody_new None [c]; head := h |}.
Definition Rule_transition (from : RelationApp) (guard : option Expr) (transition : Expr)
    (to : RelationApp) : Rule :=
  {| body := RuleBody_new (Some from)
       ([transition] ++ match guard with Some g => [g] | None => [] end);
     head := to |}.

Definition ChcVc_new : ChcVc := {|
  decls := []; vars := []; declared_var_names := ∅; relations := []; rules := [];
  query := {| target := None; timeout_ms := None |}; cover_assertions := []; properties := [];
  trivially_safe_discharged := false; vacuous_all_checks_unreachable := false;
  approximated_vars := []; accounted_approximations := 0;
  approximation_identity_complete := false |}.

(** ** Operations *)

(** The assignments to the fields of a VC. *)
Definition set_vars (vs : list VarDecl) (ns : gset string) (vc : ChcVc) : ChcVc := {|
  decls := decls vc; vars := vs; declared_var_names := ns; relations := relations vc;
  rules := rules vc; query := query vc; cover_assertions := cover_assertions vc;
  properties := properties vc; trivially_safe_discharged := trivially_safe_discharged vc;
  vacuous_all_checks_unreachable := vacuous_all_checks_unreachable vc;
  approximated_vars := approximated_vars vc;
  accounted_approximations := accounted_approximations vc;
  approximation_identity_complete := approximation_identity_complete vc |}.
Definition set_rules (rls : list RelationDecl) (rs : list Rule) (vc : ChcVc) : ChcVc := {|
  decls := decls vc; vars := vars vc; declared_var_names := declared_var_names vc;
  relations := rls; rules := rs; query := query vc; cover_assertions := cover_assertions vc;
  properties := properties vc; trivially_safe_discharged := trivially_safe_discharged vc;
  vacuous_all_checks_unreachable := vacuous_all_checks_unreachable vc;
  approximated_vars := approximated_vars vc;
  accounted_approximations := accounted_approximations vc;
  approximation_identity_complete := approximation_identity_complete vc |}.
Definition set_metadata (ds : list Decl) (cs : list (string * Expr)) (ps : list ChcProperty)
    (vc : ChcVc) : ChcVc := {|
  decls := ds; vars := vars vc; declared_var_names := declared_var_names vc;
  relations := relations vc; rules := rules vc; query := query vc; cover_assertions := cs;
  properties := ps; trivially_safe_discharged := trivially_safe_discharged vc;
  vacuous_all_checks_unreachable := vacuous_all_checks_unreachable vc;
  approximated_vars := approximated_vars vc;
  accounted_approximations := accounted_approximations vc;
  approximation_identity_complete := approximation_identity_complete vc |}.
Definition set_approximation (avs : list string) (k : N) (complete : bool) (vc : ChcVc) : ChcVc := {|
  decls := decls vc; vars := vars vc; declared_var_names := declared_var_names vc;
  relations := relations vc; rules := rules vc; query := query vc;
  cover_assertions := cover_assertions vc; properties := properties vc;
  trivially_safe_discharged := trivially_safe_discharged vc;
  vacuous_all_checks_unreachable := vacuous_all_checks_unreachable vc;
  approximated_vars := avs; accounted_approximations := k;
  approximation_identity_complete := complete |}.

(** [add_var]: [declared_var_names.insert(..)] returns whether the name is new. *)
Definition add_var (vc : ChcVc) (v : VarDecl) : ChcVc :=
  if decide (var_name v ∈ declared_var_names vc) then vc
  else set_vars (vars vc ++ [v]) ({[var_name v]} ∪ declared_var_names vc) vc.

Definition retain_vars (vc : ChcVc) (keep : gset string) : ChcVc :=
  set_vars (filter (fun v => var_name v ∈ keep) (vars vc))
    (filter (fun n => n ∈ keep) (declared_var_names vc)) vc.

Definition declare_var (vc : ChcVc) (n : string) (s : Sort) : ChcVc * Expr :=
  (add_var vc {| var_name := n; vsort := s |}, expr_var n s).

Definition add_decl (vc : ChcVc) (d : Decl) : ChcVc :=
  set_metadata (decls vc ++ [d]) (cover_assertions vc) (properties vc) vc.
Definition add_relation (vc : ChcVc) (r : RelationDecl) : ChcVc :=
  set_rules (relations vc ++ [r]) (rules vc) vc.
Definition add_rule (vc : ChcVc) (r : Rule) : ChcVc :=
  set_rules (relations vc) (rules vc ++ [r]) vc.
Definition add_cover_assertion (vc : ChcVc) (n : string) (condition : Expr) : ChcVc :=
  set_metadata (decls vc) (cover_assertions vc ++ [(n, condition)]) (properties vc) vc.
Definition add_property (vc : ChcVc) (p : ChcProperty) : ChcVc :=
  set_metadata (decls vc) (cover_assertions vc) (properties vc ++ [p]) vc.
Definition property_count (vc : ChcVc) : nat := length (properties vc).
Definition vc_is_empty (vc : ChcVc) : bool := match rules vc with [] => true | _ => false end.

(** [normalize_approx_var] *)
Definition normalize_approx_var (n : string) : string :=
  default n (Str.strip_suffix n "__out").

Definition note_additional_freed_var (vc : ChcVc) (freed_var : string) : ChcVc :=
  let normalized := normalize_approx_var freed_var in
  if decide (normalized ∈ approximated_vars vc) then vc
  else set_approximation (approximated_vars vc ++ [normalized]) (accounted_approximations vc)
         (approximation_identity_complete vc) vc.

Definition record_approximation_identity (vc : ChcVc) (freed_var : option string) : ChcVc :=
  let vc' := match freed_var with Some n => note_additional_freed_var vc n | None => vc end in
  set_approximation (approximated_vars vc') (accounted_approximations vc' + 1)
    (approximation_identity_complete vc') vc'.

(** ** prune_orphan_block_rules *)

Definition head_name (r : Rule) : string := app_name (head r).
Definition body_name (r : Rule) : option string := app_name <$> relation (body r).

(** The constraints of a system, in the order the passes visit them. *)
Definition all_constraints (rs : list Rule) : list Expr :=
  flat_map (fun r => iter (constraints (body r))) rs.

(** The relation applications of a rule. *)
Definition rule_apps (r : Rule) : list RelationApp :=
  head r :: match relation (body r) with Some app => [app] | None => [] end.

(** The argument of an application is a variable. *)
Definition arg_is (app : RelationApp) (i : nat) (n : string) : Prop :=
  exists e, args app !! i = Some e /\ value e = Var n.

(** One round of the loop: drop the rules whose body relation no rule derives. *)
Definition orphan_round (rs : list Rule) : list Rule :=
  let targeted : gset string := list_to_set (map head_name rs) in
  List.filter (fun r => match body_name r with Some b => bool_decide (b ∈ targeted) | None => true end)
    rs.

Fixpoint orphan_loop (fuel : nat) (rs : list Rule) : list Rule :=
  let rs' := orphan_round rs in
  if Nat.eqb (length rs - length rs') 0 then rs'
  else match fuel with O => rs' | S fuel' => orphan_loop fuel' rs' end.

(** [collect_relation_refs_in_expr] *)
Definition refs_node (relation_names : gset string) (v : ExprValue Sort Expr) (rec : Expr -> list string)
    : list string :=
  match v with
  | FuncApp n _ => if decide (n ∈ relation_names) then [n] else []
  | _ => []
  end ++ flat_map rec (subexprs v).
Definition collect_relation_refs (relation_names : gset string) (e : Expr) : list string :=
  fold_expr (refs_node relation_names) [] (S (size e)) e.

Definition query_target (vc : ChcVc) : string := default "error" (target (query vc)).

(** The relations a system of rules refers to. *)
Definition rule_refs (relation_names : gset string) (r : Rule) : list string :=
  head_name r :: match body_name r with Some b => [b] | None => [] end ++
  flat_map (collect_relation_refs relation_names) (iter (constraints (body r))).

Definition prune_orphan_block_rules (vc : ChcVc) : ChcVc :=
  let rs := orphan_loop (length (rules vc)) (rules vc) in
  let relation_names : gset string := list_to_set (map rel_name (relations vc)) in
  let referenced : gset string :=
    list_to_set (query_target vc :: flat_map (rule_refs relation_names) rs) in
  set_rules (filter (fun rel => rel_name rel ∈ referenced) (relations vc)) rs vc.

End Decl.

(** ** The meaning of a system of rules *)

Section Semantics.
Context `{AySem}.

(** The facts derived by the rules: a rule fires under an admissible valuation
    of its variables that satisfies its constraints, from a derived fact for its
    body relation if it has one. *)
Inductive derivable (rs : list Rule) : string -> list val -> Prop :=
  | derive r rho :
      r ∈ rs -> admissible rho ->
      (forall c, c ∈ iter (constraints (body r)) -> is_true (eval rho c)) ->
      (forall app, relation (body r) = Some app ->
        derivable rs (app_name app) (map (eval rho) (args app))) ->
      derivable rs (head_name r) (map (eval rho) (args (head r))).

(** The query is satisfiable: the target relation has a fact. *)
Definition reachable (vc : ChcVc) : Prop := exists vs, derivable (rules vc) (query_target vc) vs.

(** Two systems with the same meaning. *)
#[export] Instance rules_equiv : Equiv (list Rule) :=
  fun rs rs' => forall n vs, derivable rs n vs <-> derivable rs' n vs.

#[export] Instance rules_equivalence : Equivalence (≡@{list Rule}).
Proof.
  split; unfold equiv, rules_equiv.
  - done.
  - intros x y E n vs. by rewrite E.
  - intros x y z E E' n vs. by rewrite E, E'.
Qed.

Lemma derivable_head rs n vs : derivable rs n vs -> n ∈ map head_name rs.
Proof. intros D. destruct D as [r rho Hr _ _ _]. apply list_elem_of_fmap. by exists r. Qed.

Lemma derivable_mono rs rs' n vs :
  (forall r, r ∈ rs -> r ∈ rs') -> derivable rs n vs -> derivable rs' n vs.
Proof.
  intros Sub D. induction D as [r rho Hr Ha Hc Hb IH]. apply derive; auto.
Qed.

(** Rules that differ in the storage of their constraints only. *)
Lemma derivable_storage rs rs' n vs :
  (forall r, r ∈ rs -> exists r', r' ∈ rs' /\ head r' = head r /\
     relation (body r') = relation (body r) /\ constraints (body r') ≡ constraints (body r)) ->
  derivable rs n vs -> derivable rs' n vs.
Proof.
  intros Sub D. induction D as [r rho Hr Ha Hc Hb IH].
  destruct (Sub r Hr) as (r' & Hr' & Eh & Eb & Ec). unfold head_name. rewrite <- Eh.
  apply (derive rs' r' rho); [done|done| |].
  - intros c. rewrite Ec. apply Hc.
  - intros app. rewrite Eb. apply IH.
Qed.

(** ** Orphan blocks *)

Lemma orphan_round_elem r rs :
  r ∈ orphan_round rs <->
  r ∈ rs /\ forall b, body_name r = Some b -> b ∈ map head_name rs.
Proof.
  unfold orphan_round. rewrite list_elem_of_In, filter_In, <- list_elem_of_In.
  destruct (body_name r) as [b|]; [|naive_solver].
  rewrite bool_decide_eq_true, elem_of_list_to_set. naive_solver.
Qed.

Lemma orphan_round_equiv rs : orphan_round rs ≡ rs.
Proof.
  intros n vs. split.
  - apply derivable_mono. intros r Hr. by destruct (proj1 (orphan_round_elem r rs) Hr).
  - intros D. induction D as [r rho Hr Ha Hc Hb IH]. apply derive; [|done..].
    apply orphan_round_elem. split; [done|]. intros b Eb. unfold body_name in Eb.
    destruct (relation (body r)) as [app|] eqn:Er; [|done]. injection Eb as <-.
    by eapply derivable_head, Hb.
Qed.

Lemma orphan_loop_equiv fuel rs : orphan_loop fuel rs ≡ rs.
Proof.
  revert rs. induction fuel as [|fuel IH]; intros rs; cbn; destruct (Nat.eqb _ 0);
    try apply orphan_round_equiv.
  transitivity (orphan_round rs); [apply IH|apply orphan_round_equiv].
Qed.

Lemma orphan_round_length rs : (length (orphan_round rs) <= length rs)%nat.
Proof. apply List.filter_length_le. Qed.

Lemma orphan_round_fixed rs :
  (length rs - length (orphan_round rs) = 0)%nat -> orphan_round rs = rs.
Proof.
  intros E. pose proof (orphan_round_length rs). apply filter_length_eq. fold (orphan_round rs). lia.
Qed.

(** The fuel is enough: the loop ends with a round that dropped nothing. *)
Lemma orphan_loop_fixed fuel rs :
  (length rs <= fuel)%nat -> orphan_round (orphan_loop fuel rs) = orphan_loop fuel rs.
Proof.
  revert rs. induction fuel as [|fuel IH]; intros rs Hf; cbn;
    pose proof (orphan_round_length rs);
    destruct (Nat.eqb_spec (length rs - length (orphan_round rs)) 0) as [E|E].
  1,3: apply orphan_round_fixed in E; by rewrite !E.
  - destruct rs; cbn in *; lia.
  - apply IH. lia.
Qed.

Lemma orphan_loop_sub fuel rs r : r ∈ orphan_loop fuel rs -> r ∈ rs.
Proof.
  revert rs. induction fuel as [|fuel IH]; intros rs Hr; cbn in Hr;
    destruct (Nat.eqb _ 0); try (by destruct (proj1 (orphan_round_elem r rs) Hr)).
  by destruct (proj1 (orphan_round_elem r rs) (IH _ Hr)).
Qed.

End Semantics.

(** ** References *)

Section References.
Context `{AyExpr}.

(** A relation is applied somewhere in an expression. *)
Inductive mentions (n : string) : Expr -> Prop :=
  | mentions_app e es : value e = FuncApp n es -> mentions n e
  | mentions_sub e c : c ∈ children e -> mentions n c -> mentions n e.

Definition refers (r : Rule) (n : string) : Prop :=
  head_name r = n \/ body_name r = Some n \/
  exists c, c ∈ iter (constraints (body r)) /\ mentions n c.

Lemma refs_node_cong ns v g h :
  (forall c, c ∈ subexprs v -> g c = h c) -> refs_node ns v g = refs_node ns v h.
Proof. intros E. unfold refs_node. f_equal. by apply flat_map_cong. Qed.

Lemma collect_relation_refs_eq ns e :
  collect_relation_refs ns e = refs_node ns (value e) (collect_relation_refs ns).
Proof.
  unfold collect_relation_refs at 1. cbn [fold_expr]. apply refs_node_cong. intros c Hc.
  pose proof (sub_size e c Hc). unfold collect_relation_refs.
  apply fold_expr_fuel; [apply refs_node_cong|lia..].
Qed.

Lemma collect_relation_refs_spec ns n e :
  n ∈ collect_relation_refs ns e <-> n ∈ ns /\ mentions n e.
Proof.
  induction e as [e IH] using size_ind. rewrite collect_relation_refs_eq. unfold refs_node.
  rewrite elem_of_app, elem_of_flat_map. split.
  - intros [Hn|(c & Hc & Hn)].
    + destruct (value e) eqn:V; try by apply elem_of_nil in Hn.
      case_decide; [|by apply elem_of_nil in Hn]. apply list_elem_of_singleton in Hn as ->.
      split; [done|]. by eapply mentions_app.
    + apply (IH c Hc) in Hn as [? ?]. split; [done|]. by eapply mentions_sub.
  - intros [Hn M]. destruct M as [e es V|e c Hc M].
    + left. rewrite V, decide_True by done. by apply list_elem_of_singleton.
    + right. exists c. split; [done|]. by apply IH.
Qed.

Lemma rule_refs_spec ns r n :
  n ∈ ns -> n ∈ rule_refs ns r <-> refers r n.
Proof.
  intros Hn. unfold rule_refs, refers. rewrite elem_of_cons, elem_of_app, elem_of_flat_map.
  setoid_rewrite collect_relation_refs_spec.
  assert (E : n ∈ (match body_name r with Some b => [b] | None => [] end) <-> body_name r = Some n).
  { destruct (body_name r) as [b|]; [rewrite list_elem_of_singleton|rewrite elem_of_nil];
      naive_solver. }
  rewrite E. naive_solver.
Qed.

End References.

(** ** The declared variables *)

Section Vars.
Context `{AyExpr}.

(** No name is declared twice, and the set of names is the set of the list. *)
Record vars_wf (vc : ChcVc) : Prop := {
  wf_nodup : NoDup (map var_name (vars vc));
  wf_names : forall n, n ∈ declared_var_names vc <-> n ∈ map var_name (vars vc);
}.

(** The edits of a VC: the two fields are private, every other operation and
    every direct assignment leaves them alone. *)
Inductive edit (vc : ChcVc) : ChcVc -> Prop :=
  | edit_add_var v : edit vc (add_var vc v)
  | edit_declare_var n s : edit vc (declare_var vc n s).1
  | edit_retain_vars keep : edit vc (retain_vars vc keep)
  | edit_other vc' : vars vc' = vars vc -> declared_var_names vc' = declared_var_names vc ->
      edit vc vc'.

Lemma vars_wf_new : vars_wf ChcVc_new.
Proof. split; cbn; [constructor|set_solver]. Qed.

Lemma vars_wf_add_var vc v : vars_wf vc -> vars_wf (add_var vc v).
Proof.
  intros [N E]. unfold add_var. case_decide as D; [done|]. split; cbn; rewrite map_app; cbn.
  - apply NoDup_app. split; [done|]. split; [|apply NoDup_singleton].
    intros n Hn. rewrite list_elem_of_singleton. intros ->. by apply D, E.
  - intros n. rewrite elem_of_union, elem_of_app, elem_of_singleton, list_elem_of_singleton, E.
    naive_solver.
Qed.

Lemma map_filter_names (keep : gset string) (vs : list VarDecl) :
  map var_name (filter (fun v => var_name v ∈ keep) vs) = filter (fun n => n ∈ keep) (map var_name vs).
Proof.
  induction vs as [|v vs IH]; [done|]. rewrite filter_cons. cbn [map]. rewrite filter_cons.
  case_decide; cbn [map]; by rewrite IH.
Qed.

Lemma vars_wf_retain vc keep : vars_wf vc -> vars_wf (retain_vars vc keep).
Proof.
  intros [N E]. split; cbn; rewrite map_filter_names.
  - by apply NoDup_filter.
  - intros n. rewrite elem_of_filter, list_elem_of_filter, E. done.
Qed.

Lemma vars_wf_edit vc vc' : vars_wf vc -> edit vc vc' -> vars_wf vc'.
Proof.
  intros W [v|n s|keep|vc0 Ev En].
  - by apply vars_wf_add_var.
  - by apply vars_wf_add_var.
  - by apply vars_wf_retain.
  - destruct W as [N E]. split; rewrite Ev; [done|]. intros n. by rewrite En.
Qed.

End Vars.

(** ** Properties *)

(** Every name is declared at most once.  Along any sequence of edits of a
    new verification condition the declared variables have distinct names and
    the set used to skip duplicates holds exactly these names; declaring a name
    makes it declared, and keeps the declaration a declared name had. *)
Theorem declared_once `{AyExpr} (vc : ChcVc) (edits : rtc edit ChcVc_new vc) :
  vars_wf vc /\
  (forall v, var_name v ∈ map var_name (vars (add_var vc v))) /\
  (forall v w, w ∈ vars vc -> var_name v = var_name w -> vars (add_var vc v) = vars vc).
Proof.
  assert (W : vars_wf vc).
  { assert (G : forall a b, rtc edit a b -> vars_wf a -> vars_wf b).
    { intros a b R. induction R as [|a c b S _ IH]; [done|]. intros Wa. by eapply IH, vars_wf_edit. }
    by eapply G, vars_wf_new. }
  split; [done|]. split.
  - intros v. unfold add_var. case_decide as D; [by apply (wf_names _ W)|]. cbn.
    rewrite map_app, elem_of_app. right. by apply list_elem_of_singleton.
  - intros v w Hw E. unfold add_var. rewrite decide_True; [done|].
    apply (wf_names _ W). rewrite E. apply list_elem_of_fmap. by exists w.
Qed.

(** pruning orphan blocks is exact.  The pruned system derives the same
    facts, so the query has the same answer; no rule is left whose body relation
    nothing derives; and a relation stays declared exactly when it is the query
    target or a remaining rule refers to it. *)
Theorem prune_orphan_block_rules_exact `{AySem} (vc : ChcVc) :
  let vc' := prune_orphan_block_rules vc in
  rules vc' ≡ rules vc /\
  (reachable vc' <-> reachable vc) /\
  (forall r b, r ∈ rules vc' -> body_name r = Some b -> b ∈ map head_name (rules vc')) /\
  (forall rel, rel ∈ relations vc' <-> rel ∈ relations vc /\
     (rel_name rel = query_target vc \/ exists r, r ∈ rules vc' /\ refers r (rel_name rel))).
Proof.
  cbn zeta.
  assert (E : rules (prune_orphan_block_rules vc) ≡ rules vc) by apply orphan_loop_equiv.
  split; [done|]. split; [|split].
  - unfold reachable. split; intros [vs D]; exists vs; by apply E.
  - cbn. intros r b Hr Hb. pose proof (orphan_loop_fixed (length (rules vc)) (rules vc) (le_n _)) as F.
    rewrite <- F in Hr. apply orphan_round_elem in Hr. by apply (proj2 Hr).
  - intros rel. unfold prune_orphan_block_rules. cbn [relations rules set_rules].
    rewrite list_elem_of_filter, elem_of_list_to_set, elem_of_cons, elem_of_flat_map.
    assert (N : rel ∈ relations vc ->
      rel_name rel ∈ (list_to_set (map rel_name (relations vc)) : gset string)).
    { intros Hrel. apply elem_of_list_to_set, list_elem_of_fmap. by exists rel. }
    split.
    + intros [[T|(r & Hr & Hn)] Hrel]; (split; [done|]); [by left|right].
      exists r. split; [done|]. by apply rule_refs_spec in Hn; [|apply N].
    + intros [Hrel [T|(r & Hr & Hn)]]; (split; [|done]); [by left|right].
      exists r. split; [done|]. by apply rule_refs_spec; [apply N|].
Qed.

(** ** Witness *)

Section Witness.
Import AyExpr.Sample.

Lemma declared_once_witness :
  let vc := add_var (add_var (@ChcVc_new terms) (@Build_VarDecl terms "x" tt)) (@Build_VarDecl terms "x" tt) in
  length (vars vc) = 1%nat /\ vars_wf vc.
Proof.
  split; [vm_compute; reflexivity|].
  refine (proj1 (declared_once _ _)).
  eapply rtc_l; [apply (edit_add_var _ (@Build_VarDecl terms "x" tt))|].
  eapply rtc_l; [apply (edit_add_var _ (@Build_VarDecl terms "x" tt))|apply rtc_refl].
Defined.

End Witness.

End Chc.
