(* ===== verification/DeadVars.v ===== *)
(** * Dead constraints and variables

    Models [chc_optimize_dead_vars.rs] of trust-mc-core (and
    [rule_body_is_literal_false] of [chc_const_prop.rs]): the pass that drops
    rules with a false conjunct, definitions of variables nothing reads,
    declarations of variables nothing mentions, and duplicate rules.  The pass
    is exact: the system it returns derives the same facts. *)

From S2P Require Import Prelude AyExpr Artifact Chc.

Module DeadVars.
Import Chc.

Section Pass.
Context `{AyExpr}.

(** The variables of an expression, as a [HashSet]. *)
Definition expr_vars (e : Expr) : gset string := list_to_set (collect_expr_vars e).

(** [collect_relation_app_vars] *)
Definition relation_app_vars (app : RelationApp) : gset string := ⋃ map expr_vars (args app).

(** The variables of the relation applications of a rule. *)
Definition rule_app_vars (r : Rule) : gset string :=
  relation_app_vars (head r) ∪
  match relation (body r) with Some app => relation_app_vars app | None => ∅ end.

(** [constraint_contains_false_conjunct] *)
Definition false_node (v : ExprValue Sort Expr) (rec : Expr -> bool) : bool :=
  match v with
  | BoolConst false => true
  | And es => existsb rec es
  | _ => false
  end.
Definition constraint_contains_false_conjunct (e : Expr) : bool :=
  fold_expr false_node false (S (size e)) e.

(** [rule_body_is_literal_false] *)
Definition is_literal_false (e : Expr) : bool :=
  match value e with BoolConst false => true | _ => false end.
Definition rule_body_is_literal_false (r : Rule) : bool :=
  match relation (body r) with None => true | Some _ => false end &&
  negb (is_empty (constraints (body r))) &&
  forallb is_literal_false (iter (constraints (body r))).

(** [prune_trivially_false_rules]: the rules retained, and the constraints counted. *)
Definition keep_rule (r : Rule) : bool :=
  if (String.eqb (head_name r) "error" || Str.starts_with (head_name r) "error_p") &&
     rule_body_is_literal_false r
  then true
  else negb (existsb constraint_contains_false_conjunct (iter (constraints (body r)))).
Definition prune_trivially_false_rules (rs : list Rule) : list Rule * nat :=
  (List.filter keep_rule rs,
   list_sum (map (fun r => len (constraints (body r))) (List.filter (fun r => negb (keep_rule r)) rs))).

(** [collect_protected_heads] *)
Definition is_bridge (query_target : string) (r : Rule) : option string :=
  if String.eqb (head_name r) query_target && is_empty (constraints (body r)) then
    app ← relation (body r);
    match args app with [] => Some (app_name app) | _ => None end
  else None.
Definition collect_protected_heads (vc : ChcVc) (rs : list Rule) : gset string :=
  {[query_target vc]} ∪ list_to_set (map prop_relation (properties vc)) ∪
  list_to_set (omap (is_bridge (query_target vc)) rs).

(** The closure of [close_essential_transitively]: one pass of [retain] over
    the worklist; the set grows while the list is traversed. *)
Fixpoint retain_disjoint (worklist : list (gset string)) (essential : gset string) (changed : bool)
    : list (gset string) * gset string * bool :=
  match worklist with
  | [] => ([], essential, changed)
  | vs :: rest =>
      if decide (vs ## essential) then
        let '(kept, essential', changed') := retain_disjoint rest essential changed in
        (vs :: kept, essential', changed')
      else
        retain_disjoint rest (vs ∪ essential) (changed || negb (bool_decide (vs ⊆ essential)))
  end.
Fixpoint close_loop (fuel : nat) (worklist : list (gset string)) (essential : gset string)
    : gset string :=
  let '(kept, essential', changed) := retain_disjoint worklist essential false in
  if changed then match fuel with O => essential' | S fuel' => close_loop fuel' kept essential' end
  else essential'.
Definition constraint_vars (rs : list Rule) : list (gset string) :=
  List.filter (fun vs => negb (bool_decide (vs = ∅)))
    (flat_map (fun r => map expr_vars (iter (constraints (body r)))) rs).
Definition close_essential_transitively (rs : list Rule) (essential : gset string) : gset string :=
  close_loop (length (constraint_vars rs)) (constraint_vars rs) essential.

(** The number of constraints of a rule that mention a variable. *)
Definition occurs_in (cs : list Expr) (x : string) : nat :=
  length (List.filter (fun c => bool_decide (x ∈ expr_vars c)) cs).

(** [is_strippable]: a definition [x = e], in either orientation. *)
Definition defines (occ : string -> nat) (var_side expr_side : Expr) : option string :=
  match value var_side with
  | Var n => if negb (bool_decide (n ∈ expr_vars expr_side)) && Nat.eqb (occ n) 1 then Some n else None
  | _ => None
  end.
Definition defined_var (occ : string -> nat) (c : Expr) : option string :=
  match value c with
  | Eq lhs rhs => match defines occ lhs rhs with Some n => Some n | None => defines occ rhs lhs end
  | _ => None
  end.
Definition is_strippable (essential : gset string) (occ : string -> nat) (c : Expr) : bool :=
  negb (bool_decide (expr_vars c = ∅)) && bool_decide (expr_vars c ## essential) &&
  match defined_var occ c with Some _ => true | None => false end.

(** One round over a rule: the rule, and the number of constraints dropped. *)
Definition strip_rule (essential protected : gset string) (r : Rule) : Rule * nat :=
  if decide (head_name r ∈ protected) then (r, O)
  else
    let old := iter (constraints (body r)) in
    let keep c := negb (is_strippable essential (occurs_in old) c) in
    if forallb keep old then (r, O)
    else
      let new := List.filter keep old in
      ({| body := {| relation := relation (body r); constraints := Owned new |}; head := head r |},
       (length old - length new)%nat).
Definition strip_round (essential protected : gset string) (rs : list Rule) : list Rule * nat :=
  (map (fun r => (strip_rule essential protected r).1) rs,
   list_sum (map (fun r => (strip_rule essential protected r).2) rs)).
Fixpoint strip_loop (fuel : nat) (essential protected : gset string) (rs : list Rule)
    : list Rule * nat :=
  let '(rs', k) := strip_round essential protected rs in
  if Nat.eqb k 0 then (rs', k)
  else match fuel with
       | O => (rs', k)
       | S fuel' => let '(rs'', k') := strip_loop fuel' essential protected rs' in (rs'', (k + k')%nat)
       end.

(** [dedupe_rules]: rules are compared by value, the constraints as sequences. *)
Definition rule_eqb (r r' : Rule) : bool :=
  bool_decide (app_name (head r) = app_name (head r')) && bool_decide (args (head r) = args (head r')) &&
  match relation (body r), relation (body r') with
  | None, None => true
  | Some a, Some a' => bool_decide (app_name a = app_name a') && bool_decide (args a = args a')
  | _, _ => false
  end && Constraints_eqb (constraints (body r)) (constraints (body r')).
Fixpoint dedupe (seen rs : list Rule) : list Rule * nat :=
  match rs with
  | [] => ([], O)
  | r :: rs' =>
      if existsb (rule_eqb r) seen then
        let '(kept, k) := dedupe seen rs' in (kept, (len (constraints (body r)) + k)%nat)
      else
        let '(kept, k) := dedupe (r :: seen) rs' in (r :: kept, k)
  end.

(** The seed of the liveness closure. *)
Definition essential_seed (vc : ChcVc) (rs : list Rule) : gset string :=
  ⋃ map rule_app_vars rs ∪
  ⋃ (map (fun r => ⋃ map expr_vars (iter (constraints (body r))))
       (List.filter (fun r => bool_decide (head_name r ∈ collect_protected_heads vc rs)) rs)) ∪
  ⋃ map (fun c => expr_vars c.2) (cover_assertions vc).

(** [total_constraints] bounds the rounds of the loop. *)
Definition total_constraints (rs : list Rule) : nat :=
  list_sum (map (fun r => len (constraints (body r))) rs).

(** [prune_dead_vars_and_constraints] *)
Definition prune_dead_vars_and_constraints (vc : ChcVc) : ChcVc * nat :=
  let '(rs, k0) := prune_trivially_false_rules (rules vc) in
  let seed := essential_seed vc rs in
  if decide (seed = ∅) then (set_rules (relations vc) rs vc, k0)
  else
    let protected := collect_protected_heads vc rs in
    let essential := close_essential_transitively rs seed in
    let '(rs', k1) := strip_loop (total_constraints rs) essential protected rs in
    let referenced := essential ∪
      ⋃ map (fun r => ⋃ map expr_vars (iter (constraints (body r)))) rs' ∪
      ⋃ map (fun c => expr_vars c.2) (cover_assertions vc) in
    let '(rs'', k2) := dedupe [] rs' in
    (set_rules (relations vc) rs'' (retain_vars vc referenced), (k0 + k1 + k2)%nat).

(** ** Lemmas *)

Lemma expr_vars_occurs n e : n ∈ expr_vars e <-> occurs n e.
Proof. unfold expr_vars. rewrite elem_of_list_to_set. apply collect_expr_vars_occurs. Qed.

Lemma false_node_cong v g h :
  (forall c, c ∈ subexprs v -> g c = h c) -> false_node v g = false_node v h.
Proof.
  destruct v as [|[]| | | | |es| | | | | | | | | |]; cbn; try done.
  induction es as [|e es IH]; intros E; cbn; [done|].
  rewrite E, IH by set_solver. done.
Qed.

Lemma constraint_contains_false_conjunct_eq e :
  constraint_contains_false_conjunct e = false_node (value e) constraint_contains_false_conjunct.
Proof.
  unfold constraint_contains_false_conjunct at 1. cbn [fold_expr]. apply false_node_cong. intros c Hc.
  pose proof (sub_size e c Hc). unfold constraint_contains_false_conjunct.
  apply fold_expr_fuel; [apply false_node_cong|lia..].
Qed.

Lemma filter_all_true {A} (f : A -> bool) (l : list A) : forallb f l = true -> List.filter f l = l.
Proof. induction l as [|a l IH]; cbn; [done|]. destruct (f a); cbn; [|done]. intros E. by rewrite IH. Qed.

(** A round drops exactly the strippable constraints of the unprotected rules. *)
Lemma strip_rule_spec es ps r :
  head (strip_rule es ps r).1 = head r /\
  relation (body (strip_rule es ps r).1) = relation (body r) /\
  iter (constraints (body (strip_rule es ps r).1)) =
    (if decide (head_name r ∈ ps) then iter (constraints (body r))
     else List.filter (fun c => negb (is_strippable es (occurs_in (iter (constraints (body r)))) c))
            (iter (constraints (body r)))).
Proof.
  unfold strip_rule. case_decide; [done|]. destruct (forallb _ _) eqn:F; cbn; [|done].
  by rewrite filter_all_true.
Qed.

Lemma strip_rule_count es ps r :
  (len (constraints (body (strip_rule es ps r).1)) + (strip_rule es ps r).2 =
   len (constraints (body r)))%nat.
Proof.
  unfold strip_rule. case_decide; [cbn [fst snd]; lia|].
  destruct (forallb _ _); cbn [fst snd body constraints len]; [lia|].
  rewrite (len_iter (constraints (body r))).
  pose proof (List.filter_length_le
    (fun c => negb (is_strippable es (occurs_in (iter (constraints (body r)))) c))
    (iter (constraints (body r)))). lia.
Qed.

Lemma strip_round_count es ps rs :
  (total_constraints (strip_round es ps rs).1 + (strip_round es ps rs).2 = total_constraints rs)%nat.
Proof.
  unfold total_constraints, strip_round. cbn [fst snd].
  induction rs as [|r rs IH]; [done|]. cbn [map list_sum fold_right].
  pose proof (strip_rule_count es ps r). unfold list_sum in *. lia.
Qed.

Lemma strip_rule_zero es ps r : (strip_rule es ps r).2 = O -> (strip_rule es ps r).1 = r.
Proof.
  unfold strip_rule. case_decide; [done|]. destruct (forallb _ _) eqn:F; [done|]. cbn. intros Z.
  exfalso. set (keep := fun c => negb (is_strippable es (occurs_in (iter (constraints (body r)))) c)) in *.
  pose proof (List.filter_length_le keep (iter (constraints (body r)))).
  enough (forallb keep (iter (constraints (body r))) = true) by congruence.
  apply forallb_forall. intros c Hc.
  rewrite <- (filter_length_eq keep (iter (constraints (body r)))) in Hc by lia.
  by apply filter_In in Hc as [_ ?].
Qed.

Lemma strip_round_zero es ps rs : (strip_round es ps rs).2 = O -> (strip_round es ps rs).1 = rs.
Proof.
  unfold strip_round. cbn [fst snd]. induction rs as [|r rs IH]; [done|].
  cbn [map list_sum fold_right]. unfold list_sum in *. intros Z.
  rewrite strip_rule_zero, IH by lia. done.
Qed.

(** The fuel is enough: the loop ends with a round that dropped nothing. *)
Lemma strip_loop_done fuel es ps rs :
  (total_constraints rs <= fuel)%nat ->
  (strip_round es ps (strip_loop fuel es ps rs).1).2 = O.
Proof.
  revert rs. induction fuel as [|fuel IH]; intros rs Hf; cbn [strip_loop];
    pose proof (strip_round_count es ps rs) as Cnt; pose proof (strip_round_zero es ps rs) as Zero;
    destruct (strip_round es ps rs) as [rs' k] eqn:E; cbn [fst snd] in *;
    destruct (Nat.eqb_spec k 0) as [->|Hk].
  - cbn [fst]. rewrite (Zero eq_refl), E. done.
  - lia.
  - cbn [fst]. rewrite (Zero eq_refl), E. done.
  - destruct (strip_loop fuel es ps rs') as [rs'' k'] eqn:E'. cbn [fst].
    specialize (IH rs' ltac:(lia)). by rewrite E' in IH.
Qed.

(** ** The closure *)

(** The closure contains its seed. *)
Lemma retain_disjoint_grows wl es b :
  es ⊆ (retain_disjoint wl es b).1.2.
Proof.
  revert es b. induction wl as [|vs wl IH]; intros es b; cbn [retain_disjoint]; [done|].
  case_decide.
  - specialize (IH es b). by destruct (retain_disjoint wl es b) as [[kept e'] b'].
  - etransitivity; [|apply IH]. set_solver.
Qed.

Lemma close_loop_grows fuel wl es : es ⊆ close_loop fuel wl es.
Proof.
  revert wl es. induction fuel as [|fuel IH]; intros wl es; cbn [close_loop];
    pose proof (retain_disjoint_grows wl es false);
    destruct (retain_disjoint wl es false) as [[kept e'] b]; cbn in *; destruct b; try done.
  etransitivity; [done|apply IH].
Qed.

(** A round that changed nothing found every constraint inside or outside. *)
Lemma retain_disjoint_unchanged wl es b :
  (retain_disjoint wl es b).2 = false ->
  b = false /\ (retain_disjoint wl es b).1.2 = es /\
  forall vs, vs ∈ wl -> vs ## es \/ vs ⊆ es.
Proof.
  revert es b. induction wl as [|vs wl IH]; intros es b; cbn [retain_disjoint].
  { cbn. intros ->. split; [done|]. split; [done|]. intros vs Hvs. by apply elem_of_nil in Hvs. }
  case_decide as D.
  - specialize (IH es b). destruct (retain_disjoint wl es b) as [[kept e'] b']; cbn in *.
    intros ->. destruct (IH eq_refl) as (-> & -> & R). split; [done|]. split; [done|].
    intros v Hv. apply elem_of_cons in Hv as [->|Hv]; [by left|auto].
  - intros E. destruct (IH _ _ E) as (B & Es & R). apply orb_false_iff in B as [-> B].
    apply negb_false_iff, bool_decide_eq_true in B.
    assert (U : vs ∪ es = es) by (apply leibniz_equiv; set_solver). rewrite U in *.
    split; [done|]. split; [done|].
    intros v Hv. apply elem_of_cons in Hv as [->|Hv]; [by right|auto].
Qed.

(** What leaves the worklist is inside the set, and stays there. *)
Lemma retain_disjoint_kept wl es b vs :
  vs ∈ wl -> vs ∈ (retain_disjoint wl es b).1.1 \/ vs ⊆ (retain_disjoint wl es b).1.2.
Proof.
  revert es b. induction wl as [|v wl IH]; intros es b Hv; [by apply elem_of_nil in Hv|].
  cbn [retain_disjoint]. case_decide as D.
  - specialize (IH es b). destruct (retain_disjoint wl es b) as [[kept e'] b']; cbn in *.
    apply elem_of_cons in Hv as [->|Hv]; [left; set_solver|].
    destruct (IH Hv); [left; set_solver|by right].
  - apply elem_of_cons in Hv as [->|Hv]; [|by apply IH]. right.
    etransitivity; [|apply retain_disjoint_grows]. set_solver.
Qed.

Lemma retain_disjoint_length wl es b :
  (length (retain_disjoint wl es b).1.1 <= length wl)%nat /\
  ((retain_disjoint wl es b).2 = true -> b = true \/
   (length (retain_disjoint wl es b).1.1 < length wl)%nat).
Proof.
  revert es b. induction wl as [|v wl IH]; intros es b; cbn [retain_disjoint]; [cbn; by auto|].
  case_decide as D.
  - specialize (IH es b). destruct (retain_disjoint wl es b) as [[kept e'] b']; cbn in *.
    destruct IH as [L G]. split; [lia|]. intros T. destruct (G T); [by left|right; lia].
  - specialize (IH (v ∪ es) (b || negb (bool_decide (v ⊆ es)))).
    destruct (retain_disjoint wl _ _) as [[kept e'] b']; cbn in *. split; [lia|]. intros _. right. lia.
Qed.

(** The loop ends in a set every constraint is inside or outside of. *)
Lemma close_loop_closed fuel wl es vs :
  (length wl <= fuel)%nat -> vs ∈ wl ->
  vs ## close_loop fuel wl es \/ vs ⊆ close_loop fuel wl es.
Proof.
  revert wl es. induction fuel as [|fuel IH]; intros wl es Hf Hv; cbn [close_loop];
    pose proof (retain_disjoint_unchanged wl es false) as Un;
    pose proof (retain_disjoint_kept wl es false vs Hv) as Ke;
    pose proof (retain_disjoint_length wl es false) as [Le Lt];
    destruct (retain_disjoint wl es false) as [[kept e'] b]; cbn [fst snd] in *; destruct b.
  - destruct wl; [by apply elem_of_nil in Hv|cbn in Hf; lia].
  - destruct (Un eq_refl) as (_ & -> & R). auto.
  - destruct Ke as [Hk|Hk].
    + apply IH; [|done]. destruct (Lt eq_refl); [done|lia].
    + right. etransitivity; [done|apply close_loop_grows].
  - destruct (Un eq_refl) as (_ & -> & R). auto.
Qed.

(** The seed is the least the closure holds; a constraint of the system is inside it
    or shares no variable with it. *)
Lemma close_essential_closed rs seed r c :
  r ∈ rs -> c ∈ iter (constraints (body r)) ->
  expr_vars c ## close_essential_transitively rs seed \/
  expr_vars c ⊆ close_essential_transitively rs seed.
Proof.
  intros Hr Hc. destruct (decide (expr_vars c = ∅)) as [E|E]; [left; rewrite E; set_solver|].
  apply close_loop_closed; [done|]. unfold constraint_vars.
  apply list_elem_of_In, filter_In. split.
  - apply in_flat_map. exists r. split; [by apply list_elem_of_In|].
    apply in_map. by apply list_elem_of_In.
  - by rewrite bool_decide_eq_false_2.
Qed.

End Pass.

(** ** The meaning of the pass *)

Section Exact.
Context `{AySem}.

Lemma false_conjunct_unsat rho e :
  constraint_contains_false_conjunct e = true -> ~ is_true (eval rho e).
Proof.
  induction e as [e IH] using size_ind. rewrite constraint_contains_false_conjunct_eq.
  unfold children in IH.
  destruct (value e) as [|[]| | | | |es| | | | | | | | | |] eqn:V; cbn [false_node]; try done.
  - intros _. by apply eval_false.
  - intros E T. apply existsb_elem in E as (c & Hc & Ec).
    apply (IH c Hc Ec). by eapply eval_and.
Qed.

Lemma prune_trivially_false_equiv rs : (prune_trivially_false_rules rs).1 ≡ rs.
Proof.
  intros n vs. cbn. split.
  - apply derivable_mono. intros r Hr. apply list_elem_of_In, filter_In in Hr as [Hr _].
    by apply list_elem_of_In.
  - intros D. induction D as [r rho Hr Ha Hc Hb IH]. apply derive; [|done..].
    apply list_elem_of_In, filter_In. split; [by apply list_elem_of_In|].
    unfold keep_rule. destruct (_ && rule_body_is_literal_false r); [done|].
    apply negb_true_iff, not_true_iff_false. intros E. apply existsb_elem in E as (c & Hin & Ec).
    by apply (false_conjunct_unsat rho c Ec), Hc.
Qed.

Lemma occurs_in_cons c l x :
  occurs_in (c :: l) x = ((if bool_decide (x ∈ expr_vars c) then 1 else 0) + occurs_in l x)%nat.
Proof. unfold occurs_in. cbn [List.filter]. by destruct (bool_decide (x ∈ expr_vars c)). Qed.

Lemma occurs_in_pos l x c : c ∈ l -> x ∈ expr_vars c -> (1 <= occurs_in l x)%nat.
Proof.
  intros Hc Hx. induction l as [|d l IH]; [by apply elem_of_nil in Hc|]. rewrite occurs_in_cons.
  apply elem_of_cons in Hc as [<-|Hc]; [by rewrite bool_decide_eq_true_2; [lia|]|].
  specialize (IH Hc). lia.
Qed.

(** A definition holds for a value of its variable. *)
Lemma strippable_solvable es occ c rho :
  admissible rho -> is_strippable es occ c = true ->
  exists x v, x ∈ expr_vars c /\ occ x = 1%nat /\ x ∉ es /\ has_sort v (var_sort x) /\
    is_true (eval (override (fun n => bool_decide (n = x)) (fun _ => v) rho) c).
Proof.
  intros Ad S. unfold is_strippable in S. apply andb_true_iff in S as [S D].
  apply andb_true_iff in S as [_ Dis]. apply bool_decide_eq_true in Dis.
  destruct (defined_var occ c) as [x|] eqn:Dx; [|done]. exists x. clear D.
  unfold defined_var in Dx. destruct (value c) as [| | | | |lhs rhs| | | | | | | | | | |] eqn:V; try done.
  assert (G : forall a b, (a = lhs /\ b = rhs) \/ (a = rhs /\ b = lhs) -> defines occ a b = Some x ->
    value a = Var x /\ x ∉ expr_vars b /\ occ x = 1%nat).
  { intros a b _ E. unfold defines in E. destruct (value a) eqn:Va; try done.
    destruct (bool_decide _) eqn:B, (Nat.eqb_spec (occ name) 1); try done. cbn in E.
    injection E as ->. apply bool_decide_eq_false in B. done. }
  assert (T : exists a b, ((a = lhs /\ b = rhs) \/ (a = rhs /\ b = lhs)) /\ defines occ a b = Some x).
  { destruct (defines occ lhs rhs) eqn:E; [exists lhs, rhs|exists rhs, lhs]; split; auto; congruence. }
  clear Dx. destruct T as (a & b & Side & E). destruct (G a b Side E) as (Va & Nb & Occ).
  exists (eval rho b).
  assert (Ina : x ∈ expr_vars c).
  { apply expr_vars_occurs. eapply occurs_sub; [|by apply occurs_var, Va].
    unfold children. rewrite V. cbn. destruct Side as [[-> _]|[-> _]]; set_solver. }
  split; [done|]. split; [done|]. split; [set_solver|].
  destruct (eq_sorted rho c lhs rhs x V Ad) as [Sl Sr].
  split; [destruct Side as [[-> ->]|[-> ->]]; auto|].
  set (rho' := override _ _ rho).
  assert (Ea : eval rho' a = eval rho b).
  { rewrite (eval_var rho' a x Va). unfold rho', override. by rewrite bool_decide_eq_true_2. }
  assert (Eb : eval rho' b = eval rho b).
  { apply eval_ext. intros n Hn. unfold rho', override. rewrite bool_decide_eq_false_2; [done|].
    intros ->. by apply Nb, expr_vars_occurs. }
  apply (eval_eq rho' c lhs rhs V). destruct Side as [[-> ->]|[-> ->]]; congruence.
Qed.

(** The stripped definitions of a rule can be solved one after the other. *)
Lemma stripped_solvable es occ l rho :
  (forall x, (occurs_in l x <= occ x)%nat) -> admissible rho ->
  (forall c, c ∈ l -> is_strippable es occ c = false -> is_true (eval rho c)) ->
  exists rho', admissible rho' /\ (forall c, c ∈ l -> is_true (eval rho' c)) /\
    forall n, rho' n = rho n \/ (n ∉ es /\ occ n = 1%nat /\ (1 <= occurs_in l n)%nat).
Proof.
  induction l as [|c l IH]; intros Occ Ad K.
  { exists rho. split; [done|]. split; [|by left]. intros c Hc. by apply elem_of_nil in Hc. }
  destruct IH as (rho1 & Ad1 & T1 & Ch1); [|done|intros; apply K; [set_solver|done]|].
  { intros x. specialize (Occ x). rewrite occurs_in_cons in Occ. lia. }
  assert (Same : forall n, n ∈ expr_vars c -> rho1 n = rho n).
  { intros n Hn. destruct (Ch1 n) as [|(_ & One & Pos)]; [done|]. specialize (Occ n).
    rewrite occurs_in_cons, bool_decide_eq_true_2 in Occ by done. lia. }
  destruct (is_strippable es occ c) eqn:S.
  - destruct (strippable_solvable es occ c rho1 Ad1 S) as (x & v & Hx & One & Nx & Sv & T).
    set (rho2 := override _ _ rho1) in T. exists rho2. split; [|split].
    + intros n. unfold rho2, override. case_bool_decide; [by subst|apply Ad1].
    + intros d Hd. apply elem_of_cons in Hd as [->|Hd]; [done|].
      assert (E : eval rho2 d = eval rho1 d); [|rewrite E; by apply T1].
      apply eval_ext. intros n Hn. unfold rho2, override. rewrite bool_decide_eq_false_2; [done|].
      intros ->. apply expr_vars_occurs in Hn. pose proof (occurs_in_pos l x d Hd Hn).
      specialize (Occ x). rewrite occurs_in_cons, bool_decide_eq_true_2 in Occ by done. lia.
    + intros n. rewrite occurs_in_cons. unfold rho2, override. case_bool_decide as B.
      * subst. right. rewrite bool_decide_eq_true_2 by done. split; [done|]. split; [done|lia].
      * destruct (Ch1 n) as [E|(N & One' & Pos)]; [by left|]. right. split; [done|]. split; [done|lia].
  - exists rho1. split; [done|]. split.
    + intros d Hd. apply elem_of_cons in Hd as [->|Hd]; [|by apply T1].
      rewrite (eval_ext rho1 rho); [apply K; [set_solver|done]|].
      intros n Hn. apply Same. by apply expr_vars_occurs.
    + intros n. rewrite occurs_in_cons. destruct (Ch1 n) as [E|(N & One & Pos)]; [by left|].
      right. split; [done|]. split; [done|lia].
Qed.

(** A valuation changed outside the variables of a relation application. *)
Lemma app_args_same (rho rho' : string -> val) (app : RelationApp) (es : gset string) :
  relation_app_vars app ⊆ es -> (forall n, n ∈ es -> rho' n = rho n) ->
  map (eval rho') (args app) = map (eval rho) (args app).
Proof.
  intros Sub Same. apply map_ext_in. intros e He. apply eval_ext. intros n Hn. apply Same, Sub.
  unfold relation_app_vars. apply elem_of_union_list. exists (expr_vars e).
  split; [|by apply expr_vars_occurs]. apply list_elem_of_fmap. exists e.
  split; [done|]. by apply list_elem_of_In.
Qed.

Lemma strip_round_equiv es ps rs :
  (forall r, r ∈ rs -> rule_app_vars r ⊆ es) -> (strip_round es ps rs).1 ≡ rs.
Proof.
  intros Es n vs. cbn [strip_round fst]. split; intros D.
  - induction D as [r' rho Hr Ad Tc Hb IH]. apply list_elem_of_fmap in Hr as (r & -> & Hr).
    destruct (strip_rule_spec es ps r) as (Eh & Eb & Ec).
    set (l := iter (constraints (body r))) in *. specialize (Es r Hr). unfold rule_app_vars in Es.
    destruct (stripped_solvable es (occurs_in l) l rho) as (rho' & Ad' & T' & Ch); [done|done| |].
    { intros c Hc S. case_decide; apply Tc; rewrite Ec; [done|].
      apply list_elem_of_In, filter_In. rewrite S. split; [by apply list_elem_of_In|done]. }
    assert (Same : forall m, m ∈ es -> rho' m = rho m).
    { intros m Hm. by destruct (Ch m) as [|(? & _)]. }
    unfold head_name. rewrite Eh in *. rewrite <- (app_args_same rho rho' (head r) es) by set_solver.
    apply derive; [done|done|done|]. intros app Eapp. rewrite Eb in IH.
    rewrite (app_args_same rho rho' app es); [by apply IH|rewrite Eapp in Es; set_solver|done].
  - induction D as [r rho Hr Ad Tc Hb IH].
    destruct (strip_rule_spec es ps r) as (Eh & Eb & Ec).
    unfold head_name. rewrite <- Eh. apply (derive _ (strip_rule es ps r).1); [|done| |].
    + apply list_elem_of_fmap. by exists r.
    + intros c Hc. apply Tc. rewrite Ec in Hc. case_decide; [done|].
      apply list_elem_of_In, filter_In in Hc as [Hc _]. by apply list_elem_of_In.
    + intros app. rewrite Eb. apply IH.
Qed.

Lemma strip_round_app_vars es ps rs :
  (forall r, r ∈ rs -> rule_app_vars r ⊆ es) ->
  forall r, r ∈ (strip_round es ps rs).1 -> rule_app_vars r ⊆ es.
Proof.
  intros Es r' Hr. cbn in Hr. apply list_elem_of_fmap in Hr as (r & -> & Hr).
  destruct (strip_rule_spec es ps r) as (Eh & Eb & _). unfold rule_app_vars. rewrite Eh, Eb.
  by apply Es.
Qed.

Lemma strip_loop_equiv fuel es ps rs :
  (forall r, r ∈ rs -> rule_app_vars r ⊆ es) -> (strip_loop fuel es ps rs).1 ≡ rs.
Proof.
  revert rs. induction fuel as [|fuel IH]; intros rs Es; cbn [strip_loop];
    pose proof (strip_round_equiv es ps rs Es) as E; pose proof (strip_round_app_vars es ps rs Es) as Es';
    destruct (strip_round es ps rs) as [rs' k]; cbn [fst] in *; destruct (Nat.eqb k 0); try done.
  specialize (IH rs' Es'). destruct (strip_loop fuel es ps rs') as [rs'' k']. cbn [fst] in *.
  by transitivity rs'.
Qed.

Lemma strip_loop_app_vars fuel es ps rs :
  (forall r, r ∈ rs -> rule_app_vars r ⊆ es) ->
  forall r, r ∈ (strip_loop fuel es ps rs).1 -> rule_app_vars r ⊆ es.
Proof.
  revert rs. induction fuel as [|fuel IH]; intros rs Es; cbn [strip_loop];
    pose proof (strip_round_app_vars es ps rs Es) as Es';
    destruct (strip_round es ps rs) as [rs' k]; cbn [fst] in *; destruct (Nat.eqb k 0); try done.
  specialize (IH rs' Es'). by destruct (strip_loop fuel es ps rs') as [rs'' k'].
Qed.

(** A protected rule is not touched. *)
Lemma strip_loop_protected fuel es ps rs r :
  head_name r ∈ ps -> r ∈ (strip_loop fuel es ps rs).1 -> r ∈ rs.
Proof.
  intros Hp. assert (G : forall l, r ∈ (strip_round es ps l).1 -> r ∈ l).
  { intros l Hr. cbn in Hr. apply list_elem_of_fmap in Hr as (r0 & -> & Hr0).
    destruct (strip_rule_spec es ps r0) as (Eh & _). unfold head_name in Hp. rewrite Eh in Hp.
    unfold strip_rule, head_name. by rewrite decide_True. }
  revert rs. induction fuel as [|fuel IH]; intros rs; cbn [strip_loop];
    specialize (G rs); destruct (strip_round es ps rs) as [rs' k]; cbn [fst] in *;
    destruct (Nat.eqb k 0); try done.
  specialize (IH rs'). destruct (strip_loop fuel es ps rs') as [rs'' k']. cbn [fst] in *. auto.
Qed.

Lemma rule_eqb_true r r' :
  rule_eqb r r' = true ->
  head r = head r' /\ relation (body r) = relation (body r') /\
  constraints (body r) ≡ constraints (body r').
Proof.
  unfold rule_eqb. rewrite !andb_true_iff, !bool_decide_eq_true, Constraints_eqb_iff.
  destruct r as [[rel cs] [hn ha]], r' as [[rel' cs'] [hn' ha']]; cbn.
  intros [[[-> ->] R] E]. split; [done|]. split; [|done].
  destruct rel as [[n a]|], rel' as [[n' a']|]; try done. cbn in R.
  apply andb_true_iff in R as [Rn Ra]. apply bool_decide_eq_true in Rn, Ra. by subst.
Qed.

Lemma dedupe_sub seen rs r : r ∈ (dedupe seen rs).1 -> r ∈ rs.
Proof.
  revert seen. induction rs as [|x rs IH]; intros seen; cbn [dedupe]; [done|].
  destruct (existsb _ _).
  - specialize (IH seen). destruct (dedupe seen rs). cbn in *. set_solver.
  - specialize (IH (x :: seen)). destruct (dedupe (x :: seen) rs). cbn in *. set_solver.
Qed.

Lemma dedupe_covers seen rs r :
  r ∈ rs -> exists r', r' ∈ seen ++ (dedupe seen rs).1 /\ (r' = r \/ rule_eqb r r' = true).
Proof.
  revert seen. induction rs as [|x rs IH]; intros seen Hr; [by apply elem_of_nil in Hr|].
  cbn [dedupe]. destruct (existsb (rule_eqb x) seen) eqn:X.
  - specialize (IH seen). destruct (dedupe seen rs) as [kept k]. cbn [fst] in *.
    apply elem_of_cons in Hr as [->|Hr]; [|auto].
    apply existsb_elem in X as (y & Hy & Ey). exists y. split; [set_solver|auto].
  - specialize (IH (x :: seen)). destruct (dedupe (x :: seen) rs) as [kept k]. cbn [fst] in *.
    apply elem_of_cons in Hr as [->|Hr]; [exists x; split; [set_solver|auto]|].
    destruct (IH Hr) as (y & Hy & Ey). exists y. split; [set_solver|done].
Qed.

Lemma dedupe_equiv rs : (dedupe [] rs).1 ≡ rs.
Proof.
  intros n vs. split.
  - apply derivable_mono. apply dedupe_sub.
  - apply derivable_storage. intros r Hr. destruct (dedupe_covers [] rs r Hr) as (y & Hy & [->|E]).
    + by exists r.
    + apply rule_eqb_true in E as (E1 & E2 & E3). by exists y.
Qed.

Lemma essential_seed_apps vc rs r : r ∈ rs -> rule_app_vars r ⊆ essential_seed vc rs.
Proof.
  intros Hr. unfold essential_seed. intros n Hn. rewrite !elem_of_union. left; left.
  apply elem_of_union_list. exists (rule_app_vars r). split; [|done].
  apply list_elem_of_fmap. by exists r.
Qed.

(** A variable of the rules or of a cover property. *)
Definition mentioned (vc : ChcVc) (n : string) : Prop :=
  (exists r, r ∈ rules vc /\ (n ∈ rule_app_vars r \/
     exists c, c ∈ iter (constraints (body r)) /\ occurs n c)) \/
  (exists m c, (m, c) ∈ cover_assertions vc /\ occurs n c).

Lemma elem_of_union_map {A} (f : A -> gset string) (l : list A) n :
  n ∈ ⋃ map f l <-> exists x, x ∈ l /\ n ∈ f x.
Proof.
  rewrite elem_of_union_list. split.
  - intros (X & HX & Hn). apply list_elem_of_fmap in HX as (x & -> & Hx). by exists x.
  - intros (x & Hx & Hn). exists (f x). split; [|done]. apply list_elem_of_fmap. by exists x.
Qed.

End Exact.

(** ** Properties *)

(** C35: pruning dead constraints, variables and rules is exact.  The pruned
    system derives the same facts, so the query has the same answer; a rule for
    an error relation is kept as it is; and every declared variable that the
    pruned system still mentions stays declared. *)
Theorem prune_dead_vars_exact `{AySem} (vc : ChcVc) :
  let vc' := (prune_dead_vars_and_constraints vc).1 in
  rules vc' ≡ rules vc /\
  (reachable vc' <-> reachable vc) /\
  (forall r, r ∈ rules vc' -> head_name r = query_target vc \/ head_name r ∈ map prop_relation (properties vc) ->
     r ∈ rules vc) /\
  (forall v, v ∈ vars vc -> mentioned vc' (var_name v) -> v ∈ vars vc').
Proof.
  cbn zeta. unfold prune_dead_vars_and_constraints.
  pose proof (prune_trivially_false_equiv (rules vc)) as E0.
  assert (Sub0 : forall r, r ∈ (prune_trivially_false_rules (rules vc)).1 -> r ∈ rules vc).
  { intros r Hr. apply list_elem_of_In, filter_In in Hr as [Hr _]. by apply list_elem_of_In. }
  destruct (prune_trivially_false_rules (rules vc)) as [rs k0]. cbn [fst] in *.
  case_decide as S.
  { cbn [fst rules vars set_rules]. split; [done|]. split; [|auto].
    unfold reachable. split; intros [vs D]; exists vs; by apply E0. }
  set (ps := collect_protected_heads vc rs).
  set (es := close_essential_transitively rs (essential_seed vc rs)).
  assert (Es : forall r, r ∈ rs -> rule_app_vars r ⊆ es).
  { intros r Hr. etransitivity; [by apply essential_seed_apps|apply close_loop_grows]. }
  pose proof (strip_loop_equiv (total_constraints rs) es ps rs Es) as E1.
  pose proof (strip_loop_protected (total_constraints rs) es ps rs) as P1.
  assert (Es' : forall r, r ∈ (strip_loop (total_constraints rs) es ps rs).1 -> rule_app_vars r ⊆ es)
    by by apply strip_loop_app_vars.
  destruct (strip_loop (total_constraints rs) es ps rs) as [rs' k1]. cbn [fst] in *.
  pose proof (dedupe_equiv rs') as E2. pose proof (dedupe_sub [] rs') as P2.
  destruct (dedupe [] rs') as [rs'' k2]. cbn [fst rules vars set_rules set_vars retain_vars] in *.
  assert (E : rs'' ≡ rules vc) by (transitivity rs'; [done|by transitivity rs]).
  split; [done|]. split; [|split].
  - unfold reachable. split; intros [vs D]; exists vs; by apply E.
  - intros r Hr Hh. apply Sub0, P1; [|by apply P2]. unfold ps, collect_protected_heads.
    rewrite !elem_of_union, elem_of_singleton, elem_of_list_to_set. naive_solver.
  - intros v Hv M. apply list_elem_of_filter. split; [|done]. rewrite !elem_of_union, !elem_of_union_map.
    destruct M as [(r & Hr & [Hn|(c & Hc & Hn)])|(m & c & Hc & Hn)]; cbn in Hr || cbn in Hc.
    + left; left. by apply (Es' r (P2 r Hr)).
    + left; right. exists r. split; [by apply P2|]. apply elem_of_union_map. exists c.
      split; [done|by apply expr_vars_occurs].
    + right. exists (m, c). split; [done|by apply expr_vars_occurs].
Qed.

(** the pass runs to completion.  Unless no rule, error guard or cover
    property mentions a variable, the liveness set it computes contains the
    variables of every relation application, contains each constraint's variables
    or none of them, and no definition outside of it is left to strip in an
    unprotected rule: the bounds on both loops are never what stops them. *)
Theorem prune_dead_vars_complete `{AyExpr} (vc : ChcVc) :
  let rs := (prune_trivially_false_rules (rules vc)).1 in
  let es := close_essential_transitively rs (essential_seed vc rs) in
  let vc' := (prune_dead_vars_and_constraints vc).1 in
  essential_seed vc rs = ∅ \/
  ((forall r, r ∈ rs -> rule_app_vars r ⊆ es) /\
   (forall r c, r ∈ rs -> c ∈ iter (constraints (body r)) ->
      (forall n, occurs n c -> n ∈ es) \/ (forall n, occurs n c -> n ∉ es)) /\
   (forall r c, r ∈ rules vc' -> head_name r ∉ collect_protected_heads vc rs ->
      c ∈ iter (constraints (body r)) ->
      is_strippable es (occurs_in (iter (constraints (body r)))) c = false)).
Proof.
  cbn zeta. unfold prune_dead_vars_and_constraints.
  destruct (prune_trivially_false_rules (rules vc)) as [rs k0]. cbn [fst].
  case_decide as S; [by left|right]. split; [|split].
  - intros r Hr. etransitivity; [by apply essential_seed_apps|apply close_loop_grows].
  - intros r c Hr Hc. setoid_rewrite <- expr_vars_occurs.
    destruct (close_essential_closed rs (essential_seed vc rs) r c Hr Hc); [right|left]; set_solver.
  - intros r c Hr Hp Hc. set (ps := collect_protected_heads vc rs) in *.
    set (es := close_essential_transitively rs (essential_seed vc rs)) in *.
    pose proof (strip_loop_done (total_constraints rs) es ps rs (le_n _)) as Z.
    destruct (strip_loop (total_constraints rs) es ps rs) as [rs' k1]. cbn [fst] in Z.
    pose proof (dedupe_sub [] rs' r) as P. destruct (dedupe [] rs') as [rs'' k2].
    cbn [fst rules set_rules] in *. specialize (P Hr).
    destruct (strip_rule_spec es ps r) as (_ & _ & Ec).
    assert (Zr : (strip_rule es ps r).2 = O).
    { clear -Z P. cbn [strip_round snd] in Z. induction rs' as [|x rs' IH]; [by apply elem_of_nil in P|].
      cbn [map] in Z. change (list_sum (?a :: ?l)) with (a + list_sum l)%nat in Z.
      apply elem_of_cons in P as [->|P]; [lia|]. apply IH; [lia|done]. }
    rewrite (strip_rule_zero es ps r Zr), decide_False in Ec by done.
    rewrite Ec in Hc. apply list_elem_of_In, filter_In in Hc as [_ Hc].
    by apply negb_true_iff in Hc.
Qed.

End DeadVars.
