(* ===== verification/DeadArgs.v ===== *)
(** * Dead-argument elimination

    Models [chc_optimize.rs] of trust-mc-core: the liveness analysis of the
    argument positions of the relations of a verification condition, and the
    stripping of the dead ones.  Stripping only ever adds facts, so a proof of
    the stripped system is a proof of the system; and it adds none when the
    values of dead positions only flow between dead positions. *)

From S2P Require Import Prelude AyExpr Artifact Chc.

Module DeadArgs.
Import Chc.

Section Pass.
Context `{AyExpr}.

(** ** Constrained variables *)

(** The test of [classify_constraint] for a transfer edge [(= Var1 Var2)]. *)
Definition transfer_of (e : Expr) : option (string * string) :=
  match value e with
  | Eq lhs rhs =>
      match value lhs, value rhs with
      | Var a, Var b => Some (a, b)
      | _, _ => None
      end
  | _ => None
  end.

(** [classify_constraint]: what a constraint adds to the anchored variables and
    to the transfer edges. *)
Definition classify_constraint (acc : gset string * list (string * string)) (e : Expr)
    : gset string * list (string * string) :=
  match transfer_of e with
  | Some ab => (acc.1, acc.2 ++ [ab])
  | None => (acc.1 ∪ list_to_set (collect_var_names e), acc.2)
  end.

(** The adjacency list of undirected edges. *)
Definition neighbours {A} `{EqDecision A} (edges : list (A * A)) (x : A) : list A :=
  flat_map (fun ab => (if decide (ab.1 = x) then [ab.2] else []) ++
                      (if decide (ab.2 = x) then [ab.1] else [])) edges.

(** [collect_constrained_vars] *)
Definition collect_constrained_vars (rs : list Rule) : gset string :=
  let '(anchored, transfers) := foldl classify_constraint (∅, []) (all_constraints rs) in
  bfs (neighbours transfers) (base.size anchored + 2 * length transfers) (elements anchored) anchored.

(** ** Names at positions *)

Fixpoint add_names (entry : list (gset string)) (l : list Expr) : list (gset string) :=
  match entry, l with
  | ns :: entry', e :: l' =>
      match value e with Var n => {[n]} ∪ ns | _ => ns end :: add_names entry' l'
  | _, _ => entry
  end.

(** [update_position_names] *)
Definition update_position_names (m : gmap string (list (gset string))) (app : RelationApp)
    : gmap string (list (gset string)) :=
  let entry := default (replicate (length (args app)) ∅) (m !! app_name app) in
  let entry := entry ++ replicate (length (args app) - length entry) ∅ in
  <[app_name app := add_names entry (args app)]> m.

(** [collect_position_names] *)
Definition collect_position_names (rs : list Rule) : gmap string (list (gset string)) :=
  foldl update_position_names ∅ (flat_map rule_apps rs).

(** ** Liveness of positions *)

(** The initial liveness of the declared relations. *)
Definition live_row (constrained : gset string) (entry : list (gset string)) : list bool :=
  map (fun ns => negb (bool_decide (ns ## constrained))) entry.
Definition live_step (names : gmap string (list (gset string))) (constrained : gset string)
    (m : gmap string (list bool)) (rel : RelationDecl) : gmap string (list bool) :=
  match names !! rel_name rel with
  | None => m
  | Some at_positions =>
      if Nat.eqb (length at_positions) (length (arg_sorts rel)) then
        <[rel_name rel := live_row constrained at_positions]> m
      else m
  end.
Definition initial_live (relations : list RelationDecl) (names : gmap string (list (gset string)))
    (constrained : gset string) : gmap string (list bool) :=
  foldl (live_step names constrained) ∅ relations.

(** The positions of a variable in a relation application. *)
Fixpoint positions_from (name : string) (i : nat) (l : list Expr) (x : string) : list (string * nat) :=
  match l with
  | [] => []
  | e :: l' =>
      match value e with
      | Var n => if decide (n = x) then [(name, i)] else []
      | _ => []
      end ++ positions_from name (S i) l' x
  end.
Definition var_positions (r : Rule) (x : string) : list (string * nat) :=
  match relation (body r) with
  | Some app => positions_from (app_name app) 0 (args app) x
  | None => []
  end ++ positions_from (app_name (head r)) 0 (args (head r)) x.

(** [build_cross_relation_links] *)
Definition rule_links (r : Rule) : list ((string * nat) * (string * nat)) :=
  flat_map (fun ab =>
    flat_map (fun ap =>
      flat_map (fun bp => if decide (ap = bp) then [] else [(ap, bp)]) (var_positions r ab.2))
      (var_positions r ab.1))
    (omap transfer_of (iter (constraints (body r)))).
Definition build_cross_relation_links (rs : list Rule) : list ((string * nat) * (string * nat)) :=
  flat_map rule_links rs.

(** [propagate_liveness]; the positions found are marked after the search. *)
Fixpoint true_positions (rel : string) (i : nat) (live : list bool) : list (string * nat) :=
  match live with
  | [] => []
  | b :: live' => (if b then [(rel, i)] else []) ++ true_positions rel (S i) live'
  end.
Definition live_positions (live_map : gmap string (list bool)) : list (string * nat) :=
  flat_map (fun rl => true_positions rl.1 0 rl.2) (map_to_list live_map).
Definition mark (visited : gset (string * nat)) (rel : string) (live : list bool) : list bool :=
  imap (fun i b => b || bool_decide ((rel, i) ∈ visited)) live.
Definition propagate_liveness (live_map : gmap string (list bool))
    (links : list ((string * nat) * (string * nat))) : gmap string (list bool) :=
  let seed := live_positions live_map in
  let visited := bfs (neighbours links) (length seed + 2 * length links) seed (list_to_set seed) in
  map_imap (fun rel live => Some (mark visited rel live)) live_map.

(** [identify_dead_positions] *)
Definition identify_dead_positions (vc : ChcVc) (constrained : gset string) : gmap string (list bool) :=
  let names := collect_position_names (rules vc) in
  let live_map := initial_live (relations vc) names constrained in
  let links := build_cross_relation_links (rules vc) in
  let live_map := match links with [] => live_map | _ => propagate_liveness live_map links end in
  omap (fun live => let dead := map negb live in if existsb id dead then Some dead else None) live_map.

(** ** Stripping *)

(** Keep what a mask does not mark dead. *)
Fixpoint keep {A} (dead : list bool) (l : list A) : list A :=
  match dead, l with
  | d :: dead', x :: l' => if d then keep dead' l' else x :: keep dead' l'
  | _, _ => []
  end.

Definition project {A} (dead_positions : gmap string (list bool)) (name : string) (l : list A) : list A :=
  match dead_positions !! name with Some dead => keep dead l | None => l end.

(** [strip_relation_app] *)
Definition strip_relation_app (dead_positions : gmap string (list bool)) (app : RelationApp)
    : RelationApp :=
  {| app_name := app_name app; args := project dead_positions (app_name app) (args app) |}.

(** The declaration; [dead\[i\]] panics beyond the mask. *)
Definition strip_decl (dead_positions : gmap string (list bool)) (rel : RelationDecl)
    : option RelationDecl :=
  match dead_positions !! rel_name rel with
  | Some dead =>
      if Nat.leb (length (arg_sorts rel)) (length dead) then
        Some {| rel_name := rel_name rel; arg_sorts := keep dead (arg_sorts rel) |}
      else None
  | None => Some rel
  end.

Definition strip_rule (dead_positions : gmap string (list bool)) (r : Rule) : Rule := {|
  body := {| relation := strip_relation_app dead_positions <$> relation (body r);
             constraints := constraints (body r) |};
  head := strip_relation_app dead_positions (head r) |}.

(** [apply_stripping] *)
Definition apply_stripping (vc : ChcVc) (dead_positions : gmap string (list bool))
    : option (ChcVc * nat) :=
  rels ← mapM (strip_decl dead_positions) (relations vc);
  Some (set_rules rels (map (strip_rule dead_positions) (rules vc)) vc,
        (list_sum (map arity (relations vc)) - list_sum (map arity rels))%nat).

(** [strip_dead_args] *)
Definition strip_dead_args (vc : ChcVc) : option (ChcVc * nat) :=
  let constrained := collect_constrained_vars (rules vc) in
  let dead_positions := identify_dead_positions vc constrained in
  apply_stripping vc dead_positions.

(** ** Lemmas: constrained variables *)

Lemma neighbours_elem {A} `{EqDecision A} (edges : list (A * A)) x y :
  y ∈ neighbours edges x <-> (x, y) ∈ edges \/ (y, x) ∈ edges.
Proof.
  unfold neighbours. rewrite elem_of_flat_map. split.
  - intros ([a b] & He & Hy). cbn in Hy. apply elem_of_app in Hy as [Hy|Hy];
      case_decide; try (by apply elem_of_nil in Hy); apply list_elem_of_singleton in Hy; subst; auto.
  - intros [E|E]; eexists; (split; [exact E|]); cbn [fst snd]; rewrite elem_of_app, (decide_True (P := x = x)) by done;
      [left|right]; by apply list_elem_of_singleton.
Qed.

Definition endpoints {A} `{Countable A} (edges : list (A * A)) : gset A :=
  list_to_set (map fst edges) ∪ list_to_set (map snd edges).

Lemma endpoints_next {A} `{Countable A} (edges : list (A * A)) x y :
  y ∈ neighbours edges x -> y ∈ endpoints edges.
Proof.
  rewrite neighbours_elem. unfold endpoints. rewrite elem_of_union, !elem_of_list_to_set.
  intros [E|E]; [right|left]; apply list_elem_of_fmap; by eexists (_, _).
Qed.

Lemma endpoints_size {A} `{Countable A} (edges : list (A * A)) :
  (base.size (endpoints edges) <= 2 * length edges)%nat.
Proof.
  unfold endpoints. pose proof (size_list_to_set (map fst edges)) as F.
  pose proof (size_list_to_set (map snd edges)) as S. rewrite length_map in F, S.
  rewrite size_union_alt.
  assert (base.size (list_to_set (map snd edges) ∖ list_to_set (map fst edges) : gset A) <=
          base.size (list_to_set (map snd edges) : gset A))%nat by (apply subseteq_size; set_solver).
  lia.
Qed.

Lemma classify_fold l acc :
  foldl classify_constraint acc l =
  (acc.1 ∪ list_to_set (flat_map (fun e => match transfer_of e with
     Some _ => [] | None => collect_var_names e end) l), acc.2 ++ omap transfer_of l).
Proof.
  revert acc. induction l as [|e l IH]; intros [s t]; cbn.
  - rewrite app_nil_r. f_equal. set_solver.
  - rewrite IH. unfold classify_constraint. destruct (transfer_of e); cbn.
    + by rewrite <- app_assoc.
    + f_equal. rewrite list_to_set_app_L. set_solver.
Qed.

(** A variable takes part in a real constraint, or is equated with one that does. *)
Inductive constrained (rs : list Rule) : string -> Prop :=
  | constrained_anchor e n : e ∈ all_constraints rs -> transfer_of e = None ->
      n ∈ collect_var_names e -> constrained rs n
  | constrained_forward e a b : e ∈ all_constraints rs -> transfer_of e = Some (a, b) ->
      constrained rs a -> constrained rs b
  | constrained_backward e a b : e ∈ all_constraints rs -> transfer_of e = Some (a, b) ->
      constrained rs b -> constrained rs a.

Lemma elem_of_omap {A B} (f : A -> option B) (l : list A) y :
  y ∈ omap f l <-> exists x, x ∈ l /\ f x = Some y.
Proof. apply list_elem_of_omap. Qed.

Lemma collect_constrained_spec rs n : n ∈ collect_constrained_vars rs <-> constrained rs n.
Proof.
  unfold collect_constrained_vars. rewrite classify_fold. cbn [fst snd app].
  rewrite (union_empty_l_L (list_to_set _)).
  set (names := flat_map _ (all_constraints rs)). set (edges := omap transfer_of (all_constraints rs)).
  set (anchored := list_to_set names : gset string).
  rewrite <- (list_to_set_elements_L anchored) at 3.
  rewrite (bfs_spec (neighbours edges) (endpoints edges));
    [|apply endpoints_next|pose proof (endpoints_size edges); change (length (elements anchored)) with (base.size anchored); lia].
  assert (An : forall x, x ∈ elements anchored <->
    exists e, e ∈ all_constraints rs /\ transfer_of e = None /\ x ∈ collect_var_names e).
  { intros x. unfold anchored, names. rewrite elem_of_elements, elem_of_list_to_set, elem_of_flat_map.
    split; intros (e & He & Hx).
    - destruct (transfer_of e) eqn:T; [by apply elem_of_nil in Hx|]. by exists e.
    - exists e. destruct Hx as [T Hx]. by rewrite T. }
  split.
  - intros (x & Hx & P). apply An in Hx as (e & He & T & Hx).
    assert (C : constrained rs x) by by eapply constrained_anchor.
    clear -P C. induction P as [|x y z E _ IH]; [done|]. apply IH.
    apply neighbours_elem in E as [E|E]; apply elem_of_omap in E as (e & He & T).
    + by eapply constrained_forward.
    + by eapply constrained_backward.
  - intros C. induction C as [e n He T Hn|e a b He T _ (x & Hx & P)|e a b He T _ (x & Hx & P)].
    + exists n. split; [apply An; by exists e|done].
    + exists x. split; [done|]. eapply rtc_r; [done|]. apply neighbours_elem. left.
      apply elem_of_omap. by exists e.
    + exists x. split; [done|]. eapply rtc_r; [done|]. apply neighbours_elem. right.
      apply elem_of_omap. by exists e.
Qed.

(** ** Lemmas: names at positions *)

Definition names_at (entry : list (gset string)) (i : nat) (n : string) : Prop :=
  exists ns, entry !! i = Some ns /\ n ∈ ns.

Lemma add_names_spec entry l i n :
  (length l <= length entry)%nat ->
  names_at (add_names entry l) i n <->
  names_at entry i n \/ exists e, l !! i = Some e /\ value e = Var n.
Proof.
  revert l i. induction entry as [|ns entry IH]; intros [|e l] i L; cbn in L; try lia; cbn [add_names].
  - split; [by left|]. intros [|(e & He & _)]; [done|]. by rewrite lookup_nil in He.
  - split; [by left|]. intros [|(e & He & _)]; [done|]. by rewrite lookup_nil in He.
  - destruct i as [|i].
    + unfold names_at. cbn. split.
      * intros (ns' & E & Hn). injection E as <-. destruct (value e) eqn:V; try (left; by exists ns).
        apply elem_of_union in Hn as [Hn|Hn]; [|left; by exists ns].
        apply elem_of_singleton in Hn as ->. right. by exists e.
      * intros [(ns' & E & Hn)|(e' & E & V)]; injection E as <-.
        -- eexists. split; [done|]. destruct (value e); set_solver.
        -- rewrite V. eexists. split; [done|]. set_solver.
    + unfold names_at in *. cbn. apply IH. lia.
Qed.

Lemma add_names_length entry l : length (add_names entry l) = length entry.
Proof.
  revert l. induction entry as [|ns entry IH]; intros [|e l]; cbn; [done..|]. by rewrite IH.
Qed.

Lemma names_at_replicate entry k i n :
  names_at (entry ++ replicate k ∅) i n <-> names_at entry i n.
Proof.
  unfold names_at. split.
  - intros (ns & E & Hn). apply lookup_app_Some in E as [E|(_ & E)]; [by exists ns|].
    apply lookup_replicate in E as [-> _]. set_solver.
  - intros (ns & E & Hn). exists ns. split; [|done]. by apply lookup_app_l_Some.
Qed.

Lemma update_position_names_spec m app R i n :
  (exists entry, update_position_names m app !! R = Some entry /\ names_at entry i n) <->
  (exists entry, m !! R = Some entry /\ names_at entry i n) \/ (app_name app = R /\ arg_is app i n).
Proof.
  unfold update_position_names. set (old := default _ _).
  set (ext := old ++ _).
  assert (L : (length (args app) <= length ext)%nat)
    by (unfold ext; rewrite length_app, length_replicate; lia).
  assert (B : names_at old i n <-> exists entry, m !! app_name app = Some entry /\ names_at entry i n).
  { unfold old. destruct (m !! app_name app) as [entry|]; cbn.
    - split; [intros; by exists entry|]. by intros (e & [= <-] & ?).
    - split; [|by intros (e & [=] & _)]. intros (ns & E & Hn).
      apply lookup_replicate in E as [-> _]. set_solver. }
  destruct (decide (app_name app = R)) as [<-|N].
  - rewrite lookup_insert_eq. rewrite <- B. unfold arg_is.
    split.
    + intros (entry & [= <-] & Hn). apply add_names_spec in Hn; [|done].
      destruct Hn as [Hn|Hn]; [left; by apply names_at_replicate in Hn|by right].
    + intros Hn. eexists. split; [done|]. apply add_names_spec; [done|].
      destruct Hn as [Hn|[_ Hn]]; [left; by apply names_at_replicate|by right].
  - rewrite lookup_insert_ne by done. naive_solver.
Qed.

Definition at_pos (rs : list Rule) (R : string) (i : nat) (n : string) : Prop :=
  exists app, app ∈ flat_map rule_apps rs /\ app_name app = R /\ arg_is app i n.

Lemma collect_position_names_spec rs R i n :
  (exists entry, collect_position_names rs !! R = Some entry /\ names_at entry i n) <->
  at_pos rs R i n.
Proof.
  unfold collect_position_names, at_pos.
  assert (G : forall l m, (exists entry, foldl update_position_names m l !! R = Some entry /\
      names_at entry i n) <->
    (exists entry, m !! R = Some entry /\ names_at entry i n) \/
    exists app, app ∈ l /\ app_name app = R /\ arg_is app i n).
  { induction l as [|app l IH]; intros m; cbn [foldl].
    - split; [by left|]. intros [|(app & Happ & _)]; [done|]. by apply elem_of_nil in Happ.
    - rewrite IH, update_position_names_spec. setoid_rewrite elem_of_cons. naive_solver. }
  rewrite G. split; [|by right]. intros [(e & E & _)|]; [by rewrite lookup_empty in E|done].
Qed.

(** ** Lemmas: liveness *)

(** A relation is declared with the arity of its applications. *)
Definition analysed (vc : ChcVc) (R : string) (k : nat) : Prop :=
  exists rel entry, rel ∈ relations vc /\ rel_name rel = R /\
    collect_position_names (rules vc) !! R = Some entry /\
    length entry = k /\ length (arg_sorts rel) = k.

(** The positions whose variables are constrained, and the links between
    positions of one rule that a transfer edge connects. *)
Definition live_seed (vc : ChcVc) (p : string * nat) : Prop :=
  (exists k, analysed vc p.1 k) /\ exists n, at_pos (rules vc) p.1 p.2 n /\ constrained (rules vc) n.
Definition live (vc : ChcVc) (p : string * nat) : Prop :=
  exists s, live_seed vc s /\ rtc (edge (neighbours (build_cross_relation_links (rules vc)))) s p.

(** The declarations that give a relation its liveness. *)
Definition declares (names : gmap string (list (gset string))) (R : string)
    (entry : list (gset string)) (rel : RelationDecl) : Prop :=
  rel_name rel = R /\ names !! R = Some entry /\ length entry = length (arg_sorts rel).

Lemma live_step_cases names con m rel R :
  live_step names con m rel !! R = m !! R \/
  exists entry, declares names R entry rel /\
    live_step names con m rel !! R = Some (live_row con entry).
Proof.
  unfold live_step, declares. destruct (names !! rel_name rel) as [entry|] eqn:N; [|by left].
  destruct (Nat.eqb_spec (length entry) (length (arg_sorts rel))); [|by left].
  destruct (decide (rel_name rel = R)) as [<-|D]; [right|left; by rewrite lookup_insert_ne].
  exists entry. by rewrite lookup_insert_eq.
Qed.

Lemma live_step_declares names con m rel R entry :
  declares names R entry rel -> live_step names con m rel !! R = Some (live_row con entry).
Proof.
  intros (<- & N & L). unfold live_step. rewrite N, (proj2 (Nat.eqb_eq _ _)) by done.
  by rewrite lookup_insert_eq.
Qed.

Lemma initial_live_spec rels names con R row :
  initial_live rels names con !! R = Some row <->
  exists rel entry, rel ∈ rels /\ declares names R entry rel /\ row = live_row con entry.
Proof.
  unfold initial_live. split.
  - assert (G : forall l (m : gmap string (list bool)),
      foldl (live_step names con) m l !! R = Some row -> m !! R = Some row \/
      exists rel entry, rel ∈ l /\ declares names R entry rel /\ row = live_row con entry).
    { induction l as [|rel l IH]; intros m; cbn [foldl]; [by left|]. intros E. apply IH in E.
      destruct E as [E|(r & e & Hr & X)]; [|right; exists r, e; set_solver].
      destruct (live_step_cases names con m rel R) as [C|(e & D & C)]; [left; congruence|].
      right. exists rel, e. split; [set_solver|]. split; [done|congruence]. }
    intros E. apply G in E as [E|]; [by rewrite lookup_empty in E|done].
  - intros (rel & entry & Hrel & D & ->).
    assert (S : forall l (m : gmap string (list bool)), m !! R = Some (live_row con entry) ->
      foldl (live_step names con) m l !! R = Some (live_row con entry)).
    { induction l as [|r l IH]; intros m E; cbn [foldl]; [done|]. apply IH.
      destruct (live_step_cases names con m r R) as [C|(e & (_ & N & _) & C)]; [congruence|].
      rewrite C. destruct D as (_ & N' & _). congruence. }
    generalize (∅ : gmap string (list bool)).
    induction rels as [|r l IH]; intros m; [by apply elem_of_nil in Hrel|]. cbn [foldl].
    apply elem_of_cons in Hrel as [->|Hrel]; [|by apply IH]. apply S. by apply live_step_declares.
Qed.

Lemma live_row_lookup con entry i b :
  live_row con entry !! i = Some b <->
  (i < length entry)%nat /\ (b = true <-> exists n, names_at entry i n /\ n ∈ con).
Proof.
  unfold live_row, names_at. rewrite list_lookup_fmap, fmap_Some.
  assert (G : forall ns : gset string, negb (bool_decide (ns ## con)) = true <->
    exists n, n ∈ ns /\ n ∈ con).
  { intros ns. rewrite negb_true_iff, bool_decide_eq_false. split.
    - intros N. destruct (decide (ns ∩ con = ∅)) as [E|E]; [destruct N; set_solver|].
      apply set_choose_L in E as (n & Hn). exists n. set_solver.
    - intros (n & ? & ?) D. set_solver. }
  split.
  - intros (ns & E & ->). split; [by eapply lookup_lt_Some|]. rewrite G. split.
    + intros (n & ? & ?). exists n. split; [by exists ns|done].
    + intros (n & (ns' & E' & ?) & ?). exists n. by simplify_eq.
  - intros [L Hb]. apply lookup_lt_is_Some_2 in L as [ns E]. exists ns. split; [done|].
    apply eq_true_iff_eq. rewrite Hb, G. split.
    + intros (n & (ns' & E' & ?) & ?). exists n. by simplify_eq.
    + intros (n & ? & ?). exists n. split; [by exists ns|done].
Qed.

Lemma true_positions_spec rel k row p :
  p ∈ true_positions rel k row <-> p.1 = rel /\ exists i, p.2 = (k + i)%nat /\ row !! i = Some true.
Proof.
  revert k. induction row as [|b row IH]; intros k; cbn [true_positions].
  - split; [by intros ?%elem_of_nil|]. intros (_ & i & _ & E). by rewrite lookup_nil in E.
  - rewrite elem_of_app, IH. split.
    + intros [E|(-> & i & -> & E)].
      * destruct b; [|by apply elem_of_nil in E]. apply list_elem_of_singleton in E as ->.
        split; [done|]. exists 0%nat. cbn. split; [lia|done].
      * split; [done|]. exists (S i). split; [lia|done].
    + intros (E1 & [|i] & E2 & E).
      * cbn in E. injection E as ->. left. apply list_elem_of_singleton. destruct p; cbn in *.
        f_equal; [done|lia].
      * right. split; [done|]. exists i. split; [lia|done].
Qed.

Lemma live_positions_spec m p :
  p ∈ live_positions m <-> exists row, m !! p.1 = Some row /\ row !! p.2 = Some true.
Proof.
  unfold live_positions. rewrite elem_of_flat_map. split.
  - intros ([R row] & HR & Hp). apply elem_of_map_to_list in HR. cbn in *.
    apply true_positions_spec in Hp as (-> & i & -> & E). by exists row.
  - intros (row & HR & E). exists (p.1, row). split; [by apply elem_of_map_to_list|].
    apply true_positions_spec. split; [done|]. by exists p.2.
Qed.

Lemma live_positions_seed vc p :
  p ∈ live_positions (initial_live (relations vc) (collect_position_names (rules vc))
                        (collect_constrained_vars (rules vc))) <-> live_seed vc p.
Proof.
  rewrite live_positions_spec. unfold live_seed, analysed. split.
  - intros (row & E & Hp). apply initial_live_spec in E as (rel & entry & Hrel & (En & Ee & L) & ->).
    apply live_row_lookup in Hp as [Lt Hb]. destruct (proj1 Hb eq_refl) as (n & Hn & Hc).
    split; [exists (length entry), rel, entry; done|]. exists n.
    split; [|by apply collect_constrained_spec]. apply collect_position_names_spec. by exists entry.
  - intros ((k & rel & entry & Hrel & En & Ee & L & L') & n & Hn & Hc).
    exists (live_row (collect_constrained_vars (rules vc)) entry). split.
    + apply initial_live_spec. exists rel, entry. split; [done|]. split; [|done].
      split; [done|]. split; [done|]. congruence.
    + apply collect_position_names_spec in Hn as (entry' & E' & Hn). simplify_eq.
      apply live_row_lookup. split.
      * destruct Hn as (ns & E & _). by eapply lookup_lt_Some.
      * split; [|done]. intros _. exists n. split; [done|]. by apply collect_constrained_spec.
Qed.

Definition final_live (vc : ChcVc) : gmap string (list bool) :=
  let live_map := initial_live (relations vc) (collect_position_names (rules vc))
                    (collect_constrained_vars (rules vc)) in
  match build_cross_relation_links (rules vc) with
  | [] => live_map
  | _ => propagate_liveness live_map (build_cross_relation_links (rules vc))
  end.

Lemma visited_spec vc links p :
  links = build_cross_relation_links (rules vc) ->
  let seed := live_positions (initial_live (relations vc) (collect_position_names (rules vc))
                 (collect_constrained_vars (rules vc))) in
  p ∈ bfs (neighbours links) (length seed + 2 * length links) seed (list_to_set seed) <-> live vc p.
Proof.
  intros -> seed. set (links := build_cross_relation_links (rules vc)).
  rewrite (bfs_spec (neighbours links) (endpoints links));
    [|apply endpoints_next|pose proof (endpoints_size links); lia].
  unfold live. split; intros (s & Hs & P); exists s; (split; [|done]); by apply live_positions_seed.
Qed.

Lemma mark_lookup visited rel row i :
  mark visited rel row !! i = Some true <->
  (i < length row)%nat /\ (row !! i = Some true \/ (rel, i) ∈ visited).
Proof.
  unfold mark. rewrite list_lookup_imap. destruct (row !! i) as [b|] eqn:E; cbn.
  - pose proof (lookup_lt_Some _ _ _ E). split.
    + intros [= T]. split; [done|]. apply orb_true_iff in T as [->|T]; [by left|right].
      by apply bool_decide_eq_true in T.
    + intros [_ [[= ->]|V]]; [done|]. f_equal. apply orb_true_iff. right.
      by apply bool_decide_eq_true.
  - apply lookup_ge_None in E. split; [done|]. intros [? _]. lia.
Qed.

Lemma final_live_spec vc R row :
  final_live vc !! R = Some row ->
  exists k, analysed vc R k /\ length row = k /\
    forall i, row !! i = Some true <-> (i < k)%nat /\ live vc (R, i).
Proof.
  set (init := initial_live (relations vc) (collect_position_names (rules vc))
                 (collect_constrained_vars (rules vc))).
  assert (I : forall row0, init !! R = Some row0 -> analysed vc R (length row0)).
  { intros row0 E. apply initial_live_spec in E as (rel & entry & Hrel & (En & Ee & L) & ->).
    exists rel, entry. unfold live_row. rewrite length_map. done. }
  assert (S : forall row0 i, init !! R = Some row0 -> row0 !! i = Some true <-> live_seed vc (R, i)).
  { intros row0 i E. rewrite <- live_positions_seed, live_positions_spec. fold init. cbn. rewrite E.
    split; [intros; by exists row0|]. by intros (r & [= <-] & ?). }
  unfold final_live. fold init. intros E.
  destruct (build_cross_relation_links (rules vc)) as [|l links] eqn:Li.
  - exists (length row). split; [by apply I|]. split; [done|]. intros i. rewrite (S row i E).
    split.
    + intros Hs. split; [|by exists (R, i)]. apply (S row i E) in Hs. by eapply lookup_lt_Some.
    + intros [_ (s & Hs & P)]. rewrite Li in P. inversion P as [|? q ? X]; subst; [done|].
      by apply elem_of_nil in X.
  - rewrite <- Li in E. unfold propagate_liveness in E. fold init in E.
    set (visited := bfs _ _ _ _) in E. rewrite map_lookup_imap in E.
    destruct (init !! R) as [row0|] eqn:E0; [|done]. cbn in E. injection E as <-.
    assert (V : forall p, p ∈ visited <-> live vc p).
    { intros p. apply (visited_spec vc (build_cross_relation_links (rules vc)) p eq_refl). }
    exists (length row0). split; [by apply I|]. split; [unfold mark; by rewrite length_imap|].
    intros i. rewrite mark_lookup, V, (S row0 i eq_refl).
    split; intros [Lt Hs]; (split; [done|]); [|by right].
    destruct Hs as [Hs|Hs]; [by exists (R, i)|done].
Qed.

Lemma final_live_analysed vc R k :
  analysed vc R k -> exists row, final_live vc !! R = Some row /\ length row = k.
Proof.
  intros (rel & entry & Hrel & En & Ee & L & L').
  set (init := initial_live (relations vc) (collect_position_names (rules vc))
                 (collect_constrained_vars (rules vc))).
  assert (E : init !! R = Some (live_row (collect_constrained_vars (rules vc)) entry)).
  { apply initial_live_spec. exists rel, entry. split; [done|]. split; [|done].
    split; [done|]. split; [done|congruence]. }
  unfold final_live. fold init. destruct (build_cross_relation_links (rules vc)).
  - eexists. split; [done|]. unfold live_row. by rewrite length_map.
  - unfold propagate_liveness. rewrite map_lookup_imap, E. cbn. eexists. split; [done|].
    unfold mark, live_row. by rewrite length_imap, length_map.
Qed.

Definition dead_map (vc : ChcVc) : gmap string (list bool) :=
  identify_dead_positions vc (collect_constrained_vars (rules vc)).

(** A position is marked dead exactly when it is analysed and not live. *)
Definition dead (vc : ChcVc) (R : string) (i : nat) : Prop :=
  exists k, analysed vc R k /\ (i < k)%nat /\ ~ live vc (R, i).

Lemma analysed_unique vc R k k' : analysed vc R k -> analysed vc R k' -> k = k'.
Proof. intros (? & ? & _ & _ & E & L & _) (? & ? & _ & _ & E' & L' & _). simplify_eq. done. Qed.

Lemma dead_map_lookup vc R :
  dead_map vc !! R =
    match final_live vc !! R with
    | Some row => if existsb id (map negb row) then Some (map negb row) else None
    | None => None
    end.
Proof.
  unfold dead_map, identify_dead_positions. rewrite lookup_omap. fold (final_live vc).
  by destruct (final_live vc !! R).
Qed.

Lemma dead_mask_spec vc R mask i :
  dead_map vc !! R = Some mask ->
  analysed vc R (length mask) /\ (mask !! i = Some true <-> dead vc R i).
Proof.
  rewrite dead_map_lookup. destruct (final_live vc !! R) as [row|] eqn:E; [|done].
  destruct (existsb id (map negb row)); [|done]. intros [= <-]. rewrite length_map.
  destruct (final_live_spec vc R row E) as (k & A & L & Sp). subst k. split; [done|].
  rewrite list_lookup_fmap, fmap_Some. split.
  - intros (b & Eb & Nb). destruct b; [done|]. exists (length row). split; [done|].
    split; [by eapply lookup_lt_Some|]. intros Hl.
    pose proof (lookup_lt_Some _ _ _ Eb). assert (row !! i = Some true) by (by apply Sp). congruence.
  - intros (k & A' & Lt & Nl). rewrite (analysed_unique _ _ _ _ A' A) in Lt.
    apply lookup_lt_is_Some_2 in Lt as [b Eb]. exists b. split; [done|]. destruct b; [|done].
    apply Sp in Eb as [_ Hl]. done.
Qed.

Lemma dead_unmasked vc R i : dead_map vc !! R = None -> ~ dead vc R i.
Proof.
  rewrite dead_map_lookup. intros E (k & A & Lt & Nl).
  destruct (final_live_analysed vc R k A) as (row & F & L). rewrite F in E.
  destruct (existsb id (map negb row)) eqn:X; [done|].
  destruct (final_live_spec vc R row F) as (k' & A' & L' & Sp).
  destruct (row !! i) as [b|] eqn:Eb; [|apply lookup_ge_None in Eb; lia].
  destruct b; [by apply Sp in Eb as [_ Hl]|].
  rewrite existsb_false_elem in X. enough (id true = false) by done. apply X.
  apply list_elem_of_fmap. exists false. split; [done|]. by eapply list_elem_of_lookup_2.
Qed.

(** ** Lemmas: stripping *)

Lemma map_keep {A B} (f : A -> B) mask l : map f (keep mask l) = keep mask (map f l).
Proof.
  revert l. induction mask as [|d mask IH]; intros [|x l]; cbn; try done.
  destruct d; cbn; by rewrite IH.
Qed.

Lemma map_project {A B} (f : A -> B) dm R l : map f (project dm R l) = project dm R (map f l).
Proof. unfold project. destruct (dm !! R); [apply map_keep|done]. Qed.

Lemma keep_length {A B} mask (l : list A) (l' : list B) :
  length l = length l' -> length (keep mask l) = length (keep mask l').
Proof.
  revert l l'. induction mask as [|d mask IH]; intros [|x l] [|y l'] E; cbn in *; try done.
  destruct d; cbn; [|f_equal]; apply IH; lia.
Qed.

Lemma keep_length_le {A} mask (l : list A) : (length (keep mask l) <= length l)%nat.
Proof.
  revert l. induction mask as [|d mask IH]; intros [|x l]; cbn; try lia.
  specialize (IH l). destruct d; cbn; lia.
Qed.

Lemma project_length {A B} dm R (l : list A) (l' : list B) :
  length l = length l' -> length (project dm R l) = length (project dm R l').
Proof. unfold project. destruct (dm !! R); [apply keep_length|done]. Qed.

Lemma keep_eq {A} mask (l l' : list A) :
  length l = length mask -> length l' = length mask ->
  keep mask l = keep mask l' <-> forall i, mask !! i = Some false -> l !! i = l' !! i.
Proof.
  revert l l'. induction mask as [|d mask IH]; intros [|x l] [|y l'] L L'; cbn in L, L'; try lia.
  { split; [|done]. intros _ i E. by rewrite lookup_nil in E. }
  cbn [keep]. destruct d.
  - rewrite IH by lia. split; intros G.
    + intros [|i]; [done|]. apply G.
    + intros i. apply (G (S i)).
  - split.
    + intros [= -> E] [|i] Hi; [done|]. cbn in *. apply IH; [lia|lia|done|done].
    + intros G. f_equal; [by injection (G 0%nat eq_refl)|]. apply IH; [lia|lia|].
      intros i. apply (G (S i)).
Qed.

Lemma project_eq {A} vc R k (l l' : list A) :
  analysed vc R k -> length l = k -> length l' = k ->
  project (dead_map vc) R l = project (dead_map vc) R l' <->
  forall i, (i < k)%nat -> ~ dead vc R i -> l !! i = l' !! i.
Proof.
  intros An L L'. unfold project. destruct (dead_map vc !! R) as [mask|] eqn:M.
  - destruct (dead_mask_spec vc R mask 0 M) as [An' _].
    rewrite (analysed_unique _ _ _ _ An An') in *. rewrite keep_eq by done.
    split; intros G i.
    + intros Lt Nd. apply G. apply lookup_lt_is_Some_2 in Lt as [b Eb].
      destruct b; [|done]. by apply (dead_mask_spec vc R mask i M) in Eb.
    + intros E. apply G; [by eapply lookup_lt_Some|]. intros D.
      apply (dead_mask_spec vc R mask i M) in D. congruence.
  - pose proof (fun i => dead_unmasked vc R i M) as Nd. split; [by intros ->|]. intros G.
    apply list_eq. intros i. destruct (decide (i < k)%nat) as [Lt|Ge]; [by apply G|].
    rewrite !lookup_ge_None_2 by lia. done.
Qed.

(** The entry of a relation applied with a fixed arity. *)
Lemma collect_position_names_length rs R k entry :
  (forall app, app ∈ flat_map rule_apps rs -> app_name app = R -> length (args app) = k) ->
  collect_position_names rs !! R = Some entry -> length entry = k.
Proof.
  unfold collect_position_names.
  assert (G : forall l (m : gmap string (list (gset string))),
    (forall app, app ∈ l -> app_name app = R -> length (args app) = k) ->
    (forall e, m !! R = Some e -> length e = k) ->
    forall e, foldl update_position_names m l !! R = Some e -> length e = k).
  { induction l as [|app l IH]; intros m Hl Hm e; cbn [foldl]; [apply Hm|].
    apply IH; [set_solver|]. intros e'. unfold update_position_names.
    destruct (decide (app_name app = R)) as [E|N].
    - rewrite E, lookup_insert_eq. intros [= <-]. rewrite add_names_length, length_app, length_replicate.
      specialize (Hl app (proj2 (elem_of_cons l app app) (or_introl eq_refl)) E).
      destruct (m !! R) as [e0|] eqn:E0; cbn; [specialize (Hm e0 eq_refl); lia|].
      rewrite length_replicate. lia.
    - rewrite lookup_insert_ne by done. apply Hm. }
  intros Hl. apply G; [done|]. intros e E. by rewrite lookup_empty in E.
Qed.

Lemma collect_position_names_some rs app :
  app ∈ flat_map rule_apps rs -> is_Some (collect_position_names rs !! app_name app).
Proof.
  unfold collect_position_names. generalize (∅ : gmap string (list (gset string))).
  induction (flat_map rule_apps rs) as [|a l IH]; intros m Hin; [by apply elem_of_nil in Hin|].
  cbn [foldl]. apply elem_of_cons in Hin as [->|Hin]; [|by apply IH].
  assert (S : is_Some (update_position_names m a !! app_name a))
    by (unfold update_position_names; rewrite lookup_insert_eq; by eexists).
  clear IH. revert S. generalize (update_position_names m a). induction l as [|b l IH]; intros m' S; [done|].
  cbn [foldl]. apply IH. unfold update_position_names.
  destruct (decide (app_name b = app_name a)) as [E|N]; [rewrite E, lookup_insert_eq; by eexists|].
  by rewrite lookup_insert_ne.
Qed.

Lemma elem_of_rule_apps rs r app : r ∈ rs -> app ∈ rule_apps r -> app ∈ flat_map rule_apps rs.
Proof. intros. apply elem_of_flat_map. by exists r. Qed.

(** Every application has a declared relation of its arity, and names are distinct. *)
Record arities_ok (vc : ChcVc) : Prop := {
  ok_names : NoDup (map rel_name (relations vc));
  ok_apps : forall app, app ∈ flat_map rule_apps (rules vc) ->
    exists rel, rel ∈ relations vc /\ rel_name rel = app_name app /\ length (args app) = arity rel;
}.

Lemma same_decl vc rel rel' :
  NoDup (map rel_name (relations vc)) -> rel ∈ relations vc -> rel' ∈ relations vc ->
  rel_name rel = rel_name rel' -> rel = rel'.
Proof.
  intros N H1 H2 E. induction (relations vc) as [|r l IH]; [by apply elem_of_nil in H1|].
  cbn in N. apply NoDup_cons in N as [Nin N].
  assert (G : forall x, x ∈ l -> rel_name x ∈ map rel_name l)
    by (intros x Hx; apply list_elem_of_fmap; by exists x).
  apply elem_of_cons in H1 as [->|H1], H2 as [->|H2]; [done| | |by apply IH].
  - destruct Nin. rewrite E. by apply G.
  - destruct Nin. rewrite <- E. by apply G.
Qed.

Lemma app_analysed vc app :
  arities_ok vc -> app ∈ flat_map rule_apps (rules vc) ->
  analysed vc (app_name app) (length (args app)).
Proof.
  intros [N Ap] Hin. destruct (Ap app Hin) as (rel & Hrel & En & L).
  destruct (collect_position_names_some _ _ Hin) as [entry E].
  exists rel, entry. split; [done|]. split; [done|]. split; [done|]. split; [|done].
  apply (collect_position_names_length (rules vc) (app_name app)); [|done].
  intros a Ha Ea. destruct (Ap a Ha) as (rel' & Hrel' & En' & L').
  rewrite (same_decl vc rel rel') in L by (done || congruence). congruence.
Qed.

End Pass.

(** ** Soundness *)

Section Sound.
Context `{AySem}.

Lemma strip_rules_derivable dm rs n vs :
  derivable rs n vs -> derivable (map (strip_rule dm) rs) n (project dm n vs).
Proof.
  intros D. induction D as [r rho Hr Ad Tc Hb IH]. unfold head_name. rewrite <- map_project.
  apply (derive _ (strip_rule dm r) rho); [|done|done|].
  - apply list_elem_of_fmap. by exists r.
  - intros app E. cbn in E. destruct (relation (body r)) as [app0|] eqn:R; [|done].
    injection E as <-. cbn. rewrite map_project. by apply IH.
Qed.

(** ** Exactness *)

(** Every argument is a variable of the declared sort, and every variant of the
    constraints is known to the traversal. *)
Record sorted_vars (vc : ChcVc) : Prop := {
  sv_args : forall app, app ∈ flat_map rule_apps (rules vc) ->
    exists rel, rel ∈ relations vc /\ rel_name rel = app_name app /\
      Forall2 (fun e s => exists n, value e = Var n /\ var_sort n = s) (args app) (arg_sorts rel);
  sv_known : forall c, c ∈ all_constraints (rules vc) -> known c;
}.

(** A variable of a dead position stays at dead positions within a rule: it
    is not also the argument of a live one, and what a transfer edge equates it
    with is an argument too. *)
Record dead_flow (vc : ChcVc) : Prop := {
  df_positions : forall r x p q, r ∈ rules vc -> p ∈ var_positions r x -> q ∈ var_positions r x ->
    dead vc p.1 p.2 -> dead vc q.1 q.2;
  df_transfers : forall r e a b, r ∈ rules vc -> e ∈ iter (constraints (body r)) ->
    transfer_of e = Some (a, b) -> (var_positions r a <> [] <-> var_positions r b <> []);
}.

Lemma positions_from_spec name k l x p :
  p ∈ positions_from name k l x <->
  p.1 = name /\ exists i e, p.2 = (k + i)%nat /\ l !! i = Some e /\ value e = Var x.
Proof.
  revert k. induction l as [|e l IH]; intros k; cbn [positions_from].
  - split; [by intros ?%elem_of_nil|]. intros (_ & i & e & _ & E & _). by rewrite lookup_nil in E.
  - rewrite elem_of_app, IH. split.
    + intros [E|(-> & i & e' & -> & E & V)].
      * destruct (value e) as [n| | | | | | | | | | | | | | | |] eqn:V; try (by apply elem_of_nil in E).
        destruct (decide (n = x)) as [->|]; [|by apply elem_of_nil in E].
        apply list_elem_of_singleton in E as ->.
        split; [done|]. exists 0%nat, e. cbn. split; [lia|done].
      * split; [done|]. exists (S i), e'. split; [lia|done].
    + intros (E1 & [|i] & e' & E2 & E & V).
      * cbn in E. injection E as ->. left. rewrite V, decide_True by done.
        apply list_elem_of_singleton. destruct p; cbn in *. f_equal; [done|lia].
      * right. split; [done|]. exists i, e'. split; [lia|done].
Qed.

Lemma var_positions_spec r x p :
  p ∈ var_positions r x <-> exists app, app ∈ rule_apps r /\ p.1 = app_name app /\ arg_is app p.2 x.
Proof.
  unfold var_positions, rule_apps, arg_is. rewrite elem_of_app.
  assert (G : forall name l, p ∈ positions_from name 0 l x <->
    p.1 = name /\ exists e, l !! p.2 = Some e /\ value e = Var x).
  { intros name l. rewrite positions_from_spec. split.
    - intros (-> & i & e & E & X). split; [done|]. exists e. cbn in E. by subst.
    - intros (-> & e & X). split; [done|]. by exists p.2, e. }
  destruct (relation (body r)) as [app|]; rewrite !G; setoid_rewrite elem_of_cons;
    [setoid_rewrite list_elem_of_singleton|setoid_rewrite elem_of_nil]; split.
  - intros [X|X]; [exists app|exists (head r)]; auto.
  - intros (a & [E|E] & X); subst; auto.
  - intros [X|X]; [done|]. exists (head r). auto.
  - intros (a & [E|E] & X); [subst; auto|done].
Qed.

(** A transfer edge of a rule links the positions of its two variables. *)
Lemma transfer_links vc r e a b p q :
  r ∈ rules vc -> e ∈ iter (constraints (body r)) -> transfer_of e = Some (a, b) ->
  p ∈ var_positions r a -> q ∈ var_positions r b -> live vc p <-> live vc q.
Proof.
  intros Hr He T Hp Hq.
  assert (L : p = q \/ (p, q) ∈ build_cross_relation_links (rules vc)).
  { destruct (decide (p = q)); [by left|right]. apply elem_of_flat_map. exists r. split; [done|].
    unfold rule_links. apply elem_of_flat_map. exists (a, b). split; [apply elem_of_omap; by exists e|].
    apply elem_of_flat_map. exists p. split; [done|]. apply elem_of_flat_map. exists q.
    split; [done|]. rewrite decide_False by done. by apply list_elem_of_singleton. }
  destruct L as [->|L]; [done|]. unfold live.
  split; intros (s & Hs & P); exists s; (split; [done|]); eapply rtc_r; try exact P;
    apply neighbours_elem; auto.
Qed.

(** The variables of a rule that stand at a dead position. *)
Definition dead_at (dm : gmap string (list bool)) (p : string * nat) : bool :=
  match dm !! p.1 with Some mask => default false (mask !! p.2) | None => false end.
Definition dead_in (dm : gmap string (list bool)) (r : Rule) (x : string) : bool :=
  existsb (dead_at dm) (var_positions r x).

Lemma dead_at_iff vc p : dead_at (dead_map vc) p = true <-> dead vc p.1 p.2.
Proof.
  unfold dead_at. destruct (dead_map vc !! p.1) as [mask|] eqn:M.
  - rewrite <- (proj2 (dead_mask_spec vc p.1 mask p.2 M)).
    destruct (mask !! p.2); cbn; [split; [by intros ->|by intros [= ->]]|done].
  - split; [done|]. intros D. by apply dead_unmasked in D.
Qed.

Lemma dead_in_iff vc r x :
  dead_in (dead_map vc) r x = true <-> exists p, p ∈ var_positions r x /\ dead vc p.1 p.2.
Proof. unfold dead_in. rewrite existsb_elem. by setoid_rewrite dead_at_iff. Qed.

(** A constrained variable is at no dead position. *)
Lemma constrained_not_dead vc r x :
  r ∈ rules vc -> constrained (rules vc) x -> dead_in (dead_map vc) r x = false.
Proof.
  intros Hr C. apply not_true_iff_false. rewrite dead_in_iff. intros (p & Hp & k & A & Lt & Nl).
  apply Nl. apply var_positions_spec in Hp as (app & Happ & E & Is). exists (p.1, p.2).
  split; [|done]. split; [by exists k|]. exists x. split; [|done]. exists app.
  split; [by eapply elem_of_rule_apps|done].
Qed.

(** Both ends of a transfer edge are dead, or none is. *)
Lemma transfer_dead vc r e a b :
  arities_ok vc -> dead_flow vc ->
  r ∈ rules vc -> e ∈ iter (constraints (body r)) -> transfer_of e = Some (a, b) ->
  dead_in (dead_map vc) r a = dead_in (dead_map vc) r b.
Proof.
  intros Ok Fl Hr He T. pose proof (df_transfers vc Fl r e a b Hr He T) as Ne.
  assert (K : forall x p, p ∈ var_positions r x -> exists k, analysed vc p.1 k /\ (p.2 < k)%nat).
  { intros x p Hp. apply var_positions_spec in Hp as (app & Happ & -> & e' & E & _).
    exists (length (args app)). split; [apply app_analysed; [done|by eapply elem_of_rule_apps]|].
    by eapply lookup_lt_Some. }
  apply eq_true_iff_eq. rewrite !dead_in_iff.
  split; intros (p & Hp & D).
  - assert (N : var_positions r b <> []) by (apply Ne; intros X; rewrite X in Hp; by apply elem_of_nil in Hp).
    destruct (var_positions r b) as [|q l] eqn:Q; [done|].
    assert (Hq : q ∈ var_positions r b) by (rewrite Q; set_solver). rewrite <- Q. exists q. split; [done|].
    destruct (K b q Hq) as (k & A & Lt). exists k. split; [done|]. split; [done|].
    destruct D as (_ & _ & _ & Nl). intros L. apply Nl. destruct p, q.
    by apply (transfer_links vc r e a b _ _ Hr He T Hp Hq).
  - assert (N : var_positions r a <> []) by (apply Ne; intros X; rewrite X in Hp; by apply elem_of_nil in Hp).
    destruct (var_positions r a) as [|q l] eqn:Q; [done|].
    assert (Hq : q ∈ var_positions r a) by (rewrite Q; set_solver). rewrite <- Q. exists q. split; [done|].
    destruct (K a q Hq) as (k & A & Lt). exists k. split; [done|]. split; [done|].
    destruct D as (_ & _ & _ & Nl). intros L. apply Nl. destruct p, q.
    by apply (transfer_links vc r e a b _ _ Hr He T Hq Hp).
Qed.

(** The valuation that gives the variables at dead positions the default of
    their sort. *)
Definition defaulted (dm : gmap string (list bool)) (r : Rule) (rho : string -> val) : string -> val :=
  override (dead_in dm r) (fun x => inhabitant (var_sort x)) rho.

Lemma defaulted_admissible dm r rho : admissible rho -> admissible (defaulted dm r rho).
Proof. apply override_admissible. intros n. apply inhabitant_sort. Qed.

Lemma sorted_arities vc : sorted_vars vc -> NoDup (map rel_name (relations vc)) -> arities_ok vc.
Proof.
  intros S N. split; [done|]. intros app Happ.
  destruct (sv_args vc S app Happ) as (rel & Hrel & En & F). exists rel. split; [done|].
  split; [done|]. by apply Forall2_length in F.
Qed.

(** The constraints of a rule do not see the change. *)
Lemma defaulted_constraints vc r rho c :
  sorted_vars vc -> arities_ok vc -> dead_flow vc ->
  r ∈ rules vc -> c ∈ iter (constraints (body r)) ->
  is_true (eval rho c) -> is_true (eval (defaulted (dead_map vc) r rho) c).
Proof.
  intros S Ok Fl Hr Hc T.
  assert (Hall : c ∈ all_constraints (rules vc)) by (apply elem_of_flat_map; by exists r).
  destruct (transfer_of c) as [[a b]|] eqn:Tr.
  - pose proof (transfer_dead vc r c a b Ok Fl Hr Hc Tr) as D. unfold transfer_of in Tr.
    destruct (value c) as [| | | | |lhs rhs| | | | | | | | | | |] eqn:V; try done.
    destruct (value lhs) eqn:Va; try done. destruct (value rhs) eqn:Vb; try done.
    injection Tr as -> ->. apply (eval_eq _ _ _ _ V) in T. apply (eval_eq _ _ _ _ V).
    rewrite (eval_var rho _ _ Va), (eval_var rho _ _ Vb) in T.
    rewrite (eval_var _ _ _ Va), (eval_var _ _ _ Vb). unfold defaulted, override.
    rewrite D. destruct (dead_in (dead_map vc) r b); [|done].
    by rewrite (eq_vars_sorted c lhs rhs a b V Va Vb).
  - rewrite (eval_ext _ rho); [done|]. intros n Hn. unfold defaulted, override.
    rewrite (constrained_not_dead vc r n); [done..|].
    apply (constrained_anchor _ c); [done|done|].
    by apply (proj2 (collect_var_names_occurs n c (sv_known vc S c Hall))).
Qed.

(** The arguments of an application under the changed valuation: unchanged at
    live positions, the default at dead ones. *)
Lemma defaulted_args vc r rho app i e :
  sorted_vars vc -> dead_flow vc -> r ∈ rules vc -> app ∈ rule_apps r -> args app !! i = Some e ->
  (dead vc (app_name app) i ->
   exists rel s, rel ∈ relations vc /\ rel_name rel = app_name app /\ arg_sorts rel !! i = Some s /\
     eval (defaulted (dead_map vc) r rho) e = inhabitant s) /\
  (~ dead vc (app_name app) i -> eval (defaulted (dead_map vc) r rho) e = eval rho e).
Proof.
  intros S Fl Hr Happ E.
  destruct (sv_args vc S app (elem_of_rule_apps _ _ _ Hr Happ)) as (rel & Hrel & En & F).
  destruct (Forall2_lookup_l _ _ _ _ _ F E) as (s & Es & n & V & Vs).
  assert (P : (app_name app, i) ∈ var_positions r n)
    by (apply var_positions_spec; exists app; split; [done|]; split; [done|]; by exists e).
  rewrite !(eval_var _ _ _ V). unfold defaulted, override. split.
  - intros D. exists rel, s. split; [done|]. split; [done|]. split; [done|].
    rewrite (proj2 (dead_in_iff vc r n)) by (by exists (app_name app, i)). by rewrite Vs.
  - intros Nd. destruct (dead_in (dead_map vc) r n) eqn:D; [|done]. exfalso.
    apply dead_in_iff in D as (q & Hq & D). apply Nd.
    exact (df_positions vc Fl r n q (app_name app, i) Hr Hq P D).
Qed.

(** A fact of the stripped system comes from one that holds the defaults at the
    dead positions. *)
Definition lifts (vc : ChcVc) (R : string) (vs' vs : list val) : Prop :=
  derivable (rules vc) R vs /\ project (dead_map vc) R vs = vs' /\
  (exists rel, rel ∈ relations vc /\ rel_name rel = R /\ length vs = arity rel) /\
  forall i rel s, dead vc R i -> rel ∈ relations vc -> rel_name rel = R ->
    arg_sorts rel !! i = Some s -> vs !! i = Some (inhabitant s).

Lemma lifts_app vc r rho app vs :
  sorted_vars vc -> arities_ok vc -> dead_flow vc -> r ∈ rules vc -> app ∈ rule_apps r ->
  lifts vc (app_name app) (map (eval rho) (project (dead_map vc) (app_name app) (args app))) vs ->
  map (eval (defaulted (dead_map vc) r rho)) (args app) = vs.
Proof.
  intros S Ok Fl Hr Happ (_ & Pr & (rel & Hrel & En & L) & Df).
  pose proof (app_analysed vc app Ok (elem_of_rule_apps _ _ _ Hr Happ)) as An.
  destruct (ok_apps vc Ok app (elem_of_rule_apps _ _ _ Hr Happ)) as (rel' & Hrel' & En' & L').
  rewrite (same_decl vc rel' rel (ok_names vc Ok) Hrel' Hrel) in L' by congruence.
  rewrite map_project in Pr. assert (Lv : length vs = length (args app)) by congruence.
  assert (Le : length (map (eval rho) (args app)) = length (args app)) by by rewrite length_map.
  pose proof (proj1 (project_eq vc _ _ vs _ An Lv Le) Pr) as Same. clear Pr.
  apply list_eq. intros i. rewrite list_lookup_fmap. destruct (args app !! i) as [e|] eqn:E; cbn.
  - destruct (defaulted_args vc r rho app i e S Fl Hr Happ E) as [Gd Gn].
    assert (Lt : (i < length (args app))%nat) by by eapply lookup_lt_Some.
    assert (Dec : dead vc (app_name app) i \/ ~ dead vc (app_name app) i).
    { destruct (dead_at (dead_map vc) (app_name app, i)) eqn:D.
      - left. by apply dead_at_iff in D.
      - right. intros X. apply (dead_at_iff vc (app_name app, i)) in X. congruence. }
    destruct Dec as [D|Nd].
    + destruct (Gd D) as (rel0 & s & Hrel0 & En0 & Es & ->). symmetry. by apply (Df i rel0 s).
    + rewrite (Gn Nd), (Same i Lt Nd), list_lookup_fmap, E. done.
  - apply lookup_ge_None in E. symmetry. apply lookup_ge_None. lia.
Qed.

Lemma lift_derivable vc R vs' :
  sorted_vars vc -> arities_ok vc -> dead_flow vc ->
  derivable (map (strip_rule (dead_map vc)) (rules vc)) R vs' -> exists vs, lifts vc R vs' vs.
Proof.
  intros S Ok Fl D. induction D as [r' rho Hr' Ad Tc Hb IH].
  apply list_elem_of_fmap in Hr' as (r & -> & Hr). set (rho' := defaulted (dead_map vc) r rho).
  assert (Hh : head r ∈ rule_apps r) by (unfold rule_apps; set_solver).
  pose proof (elem_of_rule_apps _ _ _ Hr Hh) as Hh'.
  assert (Db : forall app, relation (body r) = Some app ->
    derivable (rules vc) (app_name app) (map (eval rho') (args app))).
  { intros app E. destruct (IH (strip_relation_app (dead_map vc) app)) as (vs & Lf);
      [cbn; by rewrite E|]. cbn [app_name args strip_relation_app] in Lf.
    assert (Happ : app ∈ rule_apps r) by (unfold rule_apps; rewrite E; set_solver).
    unfold rho'. rewrite (lifts_app vc r rho app vs S Ok Fl Hr Happ Lf). by destruct Lf. }
  exists (map (eval rho') (args (head r))).
  change (head_name (strip_rule (dead_map vc) r)) with (app_name (head r)). split; [|split; [|split]].
  - apply (derive _ r rho'); [done|by apply defaulted_admissible| |done].
    intros c Hc. apply (defaulted_constraints vc r rho c S Ok Fl Hr Hc). by apply Tc.
  - cbn. rewrite map_project. apply (project_eq vc _ (length (args (head r))));
      [by apply app_analysed|by rewrite length_map|by rewrite length_map|].
    intros i Lt Nd. rewrite !list_lookup_fmap. apply lookup_lt_is_Some_2 in Lt as [e E]. rewrite E. cbn.
    f_equal. by apply (defaulted_args vc r rho (head r) i e S Fl Hr Hh E).
  - destruct (ok_apps vc Ok (head r) Hh') as (rel & Hrel & En & L). exists rel. rewrite length_map. done.
  - intros i rel s D Hrel En Es. rewrite list_lookup_fmap.
    destruct (args (head r) !! i) as [e|] eqn:E; cbn.
    + destruct (proj1 (defaulted_args vc r rho (head r) i e S Fl Hr Hh E) D)
        as (rel' & s' & Hrel' & En' & Es' & Ev).
      f_equal. unfold rho'. rewrite Ev.
      rewrite (same_decl vc rel' rel (ok_names vc Ok) Hrel' Hrel) in Es' by congruence. congruence.
    + destruct (ok_apps vc Ok (head r) Hh') as (rel' & Hrel' & En' & L).
      rewrite (same_decl vc rel' rel (ok_names vc Ok) Hrel' Hrel) in L by congruence.
      apply lookup_ge_None in E. apply lookup_lt_Some in Es. unfold arity in L. lia.
Qed.

(** The flow condition can be checked on a concrete system. *)
Definition app_vars (app : RelationApp) : list string :=
  omap (fun e => match value e with Var n => Some n | _ => None end) (args app).
Definition dead_flow_b (vc : ChcVc) : bool :=
  let dm := dead_map vc in
  forallb (fun r =>
    forallb (fun x => let ds := map (dead_at dm) (var_positions r x) in
                      forallb id ds || forallb negb ds) (flat_map app_vars (rule_apps r)) &&
    forallb (fun ab => Bool.eqb (Nat.eqb (length (var_positions r ab.1)) 0)
                         (Nat.eqb (length (var_positions r ab.2)) 0))
      (omap transfer_of (iter (constraints (body r))))) (rules vc).

Lemma dead_flow_checked vc : dead_flow_b vc = true -> dead_flow vc.
Proof.
  unfold dead_flow_b. intros B. rewrite forallb_forall in B. split.
  - intros r x p q Hr Hp Hq Dp. apply dead_at_iff. apply dead_at_iff in Dp.
    specialize (B r (proj1 (list_elem_of_In _ _) Hr)). apply andb_true_iff in B as [B _].
    rewrite forallb_forall in B. specialize (B x). cbn zeta in B. rewrite orb_true_iff, !forallb_forall in B.
    assert (In x (flat_map app_vars (rule_apps r))) as Hx.
    { apply var_positions_spec in Hp as (app & Happ & _ & e & E & V). apply list_elem_of_In.
      apply elem_of_flat_map. exists app. split; [done|]. apply elem_of_omap. exists e.
      rewrite V. split; [by eapply list_elem_of_lookup_2|done]. }
    destruct (B Hx) as [G|G]; [apply (G (dead_at (dead_map vc) q))|].
    + by apply in_map, list_elem_of_In.
    + specialize (G (dead_at (dead_map vc) p)). rewrite Dp in G.
      discriminate G. rewrite <- Dp. by apply in_map, list_elem_of_In.
  - intros r e a b Hr He T. specialize (B r (proj1 (list_elem_of_In _ _) Hr)).
    apply andb_true_iff in B as [_ B]. rewrite forallb_forall in B. specialize (B (a, b)). cbn in B.
    assert (In (a, b) (omap transfer_of (iter (constraints (body r))))) as Hin
      by (apply list_elem_of_In, elem_of_omap; by exists e).
    specialize (B Hin). apply Bool.eqb_prop in B.
    destruct (var_positions r a), (var_positions r b); cbn in B; done.
Qed.

End Sound.

(** ** A concrete system *)

Module Sample.
Import AyExpr.Sample.

Definition v (n : string) : Term := TVar n.
Definition at_bb (bb : string) (l : list Term) : @RelationApp terms := @Build_RelationApp terms bb l.

(** [x] is compared, [y] is only carried from block to block. *)
Definition vc : @ChcVc terms :=
  set_rules
    [Build_RelationDecl "bb0" [tt; tt]; Build_RelationDecl "bb1" [tt; tt]; RelationDecl_nullary "error"]
    [Rule_init (TEq (v "x") (TInt 5)) (at_bb "bb0" [v "x"; v "y"]);
     Build_Rule (RuleBody_new (Some (at_bb "bb0" [v "x"; v "y"])) [TEq (v "y__out") (v "y")])
       (at_bb "bb1" [v "x"; v "y__out"]);
     Rule_transition (at_bb "bb1" [v "x"; v "y"]) None (TLt (v "x") (TInt 3))
       (RelationApp_nullary "error")]
    ChcVc_new.

End Sample.

(** ** Properties *)

(** The liveness analysis computes what it documents.  A position of a
    relation is marked dead exactly when the relation is declared with the arity
    it is applied with and no path of transfer edges links the position to one
    whose variables take part in a real constraint, directly or through
    equalities; the searches run to completion. *)
Theorem dead_positions_spec `{AyExpr} (vc : ChcVc) :
  let dead_positions := identify_dead_positions vc (collect_constrained_vars (rules vc)) in
  (forall n, n ∈ collect_constrained_vars (rules vc) <-> constrained (rules vc) n) /\
  (forall R mask, dead_positions !! R = Some mask ->
     analysed vc R (length mask) /\ forall i, mask !! i = Some true <-> dead vc R i) /\
  (forall R i, dead_positions !! R = None -> ~ dead vc R i).
Proof.
  split; [intros n; apply collect_constrained_spec|]. split.
  - intros R mask M. split; [by destruct (dead_mask_spec vc R mask 0 M)|]. intros i.
    by destruct (dead_mask_spec vc R mask i M).
  - intros R i. apply dead_unmasked.
Qed.

(** stripping succeeds and keeps the system well formed.  When relation names
    are distinct and every application has the arity of its declaration, the
    pass returns a system with the same relation names and the same property,
    and the count it returns is the number of positions removed. *)
Theorem strip_dead_args_total `{AyExpr} (vc : ChcVc) (ok : arities_ok vc) :
  exists vc' k, strip_dead_args vc = Some (vc', k) /\
    arities_ok vc' /\ map rel_name (relations vc') = map rel_name (relations vc) /\
    (list_sum (map arity (relations vc')) + k = list_sum (map arity (relations vc)))%nat.
Proof.
  unfold strip_dead_args, apply_stripping. fold (dead_map vc).
  assert (G : forall l, (forall rel, rel ∈ l -> rel ∈ relations vc) ->
    exists l', mapM (strip_decl (dead_map vc)) l = Some l' /\ map rel_name l' = map rel_name l /\
      (list_sum (map arity l') <= list_sum (map arity l))%nat /\
      forall rel, rel ∈ l -> exists rel', rel' ∈ l' /\ rel_name rel' = rel_name rel /\
        arg_sorts rel' = project (dead_map vc) (rel_name rel) (arg_sorts rel)).
  { induction l as [|rel l IH]; intros Hl.
    { exists []. split; [done|]. split; [done|]. split; [done|]. intros rel Hr.
      by apply elem_of_nil in Hr. }
    destruct IH as (l' & E & En & Le & Ex); [set_solver|].
    assert (S : exists rel', strip_decl (dead_map vc) rel = Some rel' /\ rel_name rel' = rel_name rel /\
      (arity rel' <= arity rel)%nat /\
      arg_sorts rel' = project (dead_map vc) (rel_name rel) (arg_sorts rel)).
    { unfold strip_decl, project. destruct (dead_map vc !! rel_name rel) as [mask|] eqn:M; [|by exists rel].
      destruct (dead_mask_spec vc _ mask 0 M) as [(rel0 & entry & Hrel0 & En0 & _ & _ & L0) _].
      rewrite (same_decl vc rel0 rel (ok_names vc ok) Hrel0 (Hl rel ltac:(set_solver)) En0) in L0.
      rewrite (proj2 (Nat.leb_le _ _)) by lia. eexists. split; [done|]. split; [done|]. split; [|done].
      unfold arity. cbn. apply keep_length_le. }
    destruct S as (rel' & S & En' & Le' & Es'). exists (rel' :: l'). cbn [mapM]. rewrite S. cbn. rewrite E. cbn.
    split; [done|]. split; [by rewrite En', En|].
    split; [unfold list_sum in *; cbn [map fold_right]; lia|].
    intros r Hr. apply elem_of_cons in Hr as [->|Hr]; [exists rel'; set_solver|].
    destruct (Ex r Hr) as (r' & Hr' & X). exists r'. set_solver. }
  destruct (G (relations vc) ltac:(done)) as (rels & E & En & Le & Ex). rewrite E. cbn.
  eexists _, _. split; [done|]. cbn [relations rules set_rules]. split; [|split; [done|lia]].
  split; cbn [relations rules set_rules]; [by rewrite En; apply ok|].
  intros app Happ. apply elem_of_flat_map in Happ as (r' & Hr' & Happ).
  apply list_elem_of_fmap in Hr' as (r & -> & Hr).
  assert (A : exists app0, app0 ∈ rule_apps r /\ app = strip_relation_app (dead_map vc) app0).
  { unfold rule_apps in *. cbn in Happ. destruct (relation (body r)) as [a|]; cbn in Happ; set_solver. }
  destruct A as (app0 & Happ0 & ->).
  destruct (ok_apps vc ok app0 (elem_of_rule_apps _ _ _ Hr Happ0)) as (rel & Hrel & Er & L).
  destruct (Ex rel Hrel) as (rel' & Hrel' & Er' & Es'). exists rel'. split; [done|].
  split; [cbn; congruence|]. cbn. unfold arity. rewrite Es', Er. by apply project_length.
Qed.

(** stripping is sound.  Every fact of the system is, with its dead positions
    removed, a fact of the stripped system; in particular an error that the
    stripped system cannot derive is not derivable, whatever the masks. *)
Theorem strip_dead_args_sound `{AySem} (vc vc' : ChcVc) (k : nat)
    (stripped : strip_dead_args vc = Some (vc', k)) :
  (forall R vs, derivable (rules vc) R vs -> derivable (rules vc') R (project (dead_map vc) R vs)) /\
  (~ reachable vc' -> ~ reachable vc).
Proof.
  unfold strip_dead_args, apply_stripping in stripped. fold (dead_map vc) in stripped.
  destruct (mapM _ _) as [rels|]; [|done]. cbn in stripped. injection stripped as <- <-.
  cbn [rules set_rules]. split; [intros R vs; apply strip_rules_derivable|].
  intros N (vs & D). apply N. exists (project (dead_map vc) (query_target vc) vs).
  by apply strip_rules_derivable.
Qed.

(** stripping is exact.  When the arguments are variables of the declared
    sorts and the variables at dead positions of a rule only meet variables at
    dead positions, every fact of the stripped system comes from a fact of the
    system, so no counterexample is invented and the query has the same answer. *)
Theorem strip_dead_args_exact `{AySem} (vc vc' : ChcVc) (k : nat)
    (stripped : strip_dead_args vc = Some (vc', k))
    (sorted : sorted_vars vc) (names : NoDup (map rel_name (relations vc))) (flow : dead_flow vc) :
  (forall R vs', derivable (rules vc') R vs' ->
     exists vs, derivable (rules vc) R vs /\ project (dead_map vc) R vs = vs') /\
  (reachable vc' <-> reachable vc).
Proof.
  pose proof (sorted_arities vc sorted names) as Ok.
  unfold strip_dead_args, apply_stripping in stripped. fold (dead_map vc) in stripped.
  destruct (mapM _ _) as [rels|]; [|done]. cbn in stripped. injection stripped as <- <-.
  cbn [rules set_rules].
  assert (L : forall R vs', derivable (map (strip_rule (dead_map vc)) (rules vc)) R vs' ->
    exists vs, derivable (rules vc) R vs /\ project (dead_map vc) R vs = vs').
  { intros R vs' D. destruct (lift_derivable vc R vs' sorted Ok flow D) as (vs & Hd & Hp & _).
    by exists vs. }
  split; [done|]. split; intros (vs & D).
  - destruct (L _ _ D) as (vs0 & D0 & _). by exists vs0.
  - exists (project (dead_map vc) (query_target vc) vs). by apply strip_rules_derivable.
Qed.

(** ** Witnesses *)

Section Witnesses.
Import AyExpr.Sample.

(** What the pass makes of the concrete system. *)
Definition stripped_sample : @ChcVc terms * nat := default (Sample.vc, 0%nat) (strip_dead_args Sample.vc).

Ltac pick_relation rel :=
  exists rel; split; [cbn; set_solver|split; [reflexivity|repeat constructor; by eexists]].

Lemma sample_sorted : sorted_vars Sample.vc.
Proof.
  split.
  - intros app Happ. cbn in Happ.
    repeat (apply elem_of_cons in Happ as [->|Happ]; [first
      [ pick_relation (Build_RelationDecl "bb0" [tt; tt])
      | pick_relation (Build_RelationDecl "bb1" [tt; tt])
      | pick_relation (RelationDecl_nullary "error") ]|]).
    by apply elem_of_nil in Happ.
  - intros c Hc. cbn in Hc. repeat (apply elem_of_cons in Hc as [->|Hc]);
      [| | |by apply elem_of_nil in Hc];
      repeat (constructor; [intros; cbn; discriminate|];
        intros ? Hc'; cbn in Hc'; repeat (apply elem_of_cons in Hc' as [->|Hc']);
        try by apply elem_of_nil in Hc').
Qed.

Lemma sample_names : NoDup (map rel_name (relations Sample.vc)).
Proof. decide_now. Qed.

Lemma strip_dead_args_total_witness :
  exists vc' k, strip_dead_args Sample.vc = Some (vc', k) /\ arities_ok vc'.
Proof.
  destruct (strip_dead_args_total Sample.vc (sorted_arities _ sample_sorted sample_names))
    as (vc' & k & E & Ok & _). exists vc', k. split; [exact E|exact Ok].
Defined.

Lemma strip_dead_args_sound_witness :
  stripped_sample.2 = 2%nat /\ (~ reachable stripped_sample.1 -> ~ reachable Sample.vc).
Proof.
  split; [vm_compute; reflexivity|].
  refine (proj2 (strip_dead_args_sound Sample.vc stripped_sample.1 stripped_sample.2 _)).
  vm_compute. reflexivity.
Defined.

Lemma strip_dead_args_exact_witness : reachable stripped_sample.1 <-> reachable Sample.vc.
Proof.
  refine (proj2 (strip_dead_args_exact Sample.vc stripped_sample.1 stripped_sample.2 _
    sample_sorted sample_names _)).
  - vm_compute. reflexivity.
  - apply dead_flow_checked. vm_compute. reflexivity.
Defined.

End Witnesses.

End DeadArgs.
