(* ===== verification/Taint.v ===== *)
(** * Independence of a check from approximated values

    Models [finalize_approximation_identity] of [chc.rs] and its helpers.  An
    approximation deletes the definition of a variable and leaves its value
    free.  The analysis marks what the free values can flow into and asks
    whether a guard on a path to a check reads any of it.  When none does, the
    check is violated in the encoding exactly when it is violated with the
    deleted definitions put back, whatever they are: this is what lets the
    driver certify a counterexample of an approximated harness. *)

From S2P Require Import Prelude AyExpr Artifact Chc.

Module Taint.
Import Chc.

Section Analysis.
Context `{AyExpr}.

(** [definition_lhs_and_rhs_vars], and the full name of the variable defined. *)
Definition definition_of (c : Expr) : option (string * Expr) :=
  match value c with
  | Eq a b =>
      match value a with
      | Var n => if Str.ends_with n "__out" then Some (n, b) else None
      | _ => None
      end
  | _ => None
  end.
Definition normalized_vars (e : Expr) : list string := map normalize_approx_var (collect_expr_vars e).
Definition definition_lhs_and_rhs_vars (c : Expr) : option (string * list string) :=
  '(n, b) ← definition_of c; Some (normalize_approx_var n, normalized_vars b).

(** [is_definition_constraint] *)
Definition is_definition_constraint (c : Expr) : bool :=
  match definition_of c with Some _ => true | None => false end.

(** [expr_reads_tainted] *)
Definition expr_reads_tainted (e : Expr) (tainted : gset string) : bool :=
  existsb (fun n => bool_decide (n ∈ tainted)) (normalized_vars e).

(** The forward flow: one round of the loop over all constraints. *)
Definition taint_step (t : gset string) (c : Expr) : gset string :=
  match definition_lhs_and_rhs_vars c with
  | Some (lhs, rhs) => if existsb (fun n => bool_decide (n ∈ t)) rhs then {[lhs]} ∪ t else t
  | None => t
  end.
Definition taint_round (rs : list Rule) (t : gset string) : gset string :=
  foldl taint_step t (all_constraints rs).
Definition tainted_vars (vc : ChcVc) : gset string :=
  let seed : gset string := list_to_set (approximated_vars vc) in
  if decide (seed = ∅) then seed
  else saturate (length (all_constraints (rules vc))) (taint_round (rules vc)) seed.

(** The relations that can contribute to deriving a target. *)
Definition back_step (s : gset string) (r : Rule) : gset string :=
  if decide (head_name r ∈ s) then
    match body_name r with Some b => {[b]} ∪ s | None => s end
  else s.
Definition back_round (rs : list Rule) (s : gset string) : gset string := foldl back_step s rs.
Definition backward_reachable (rs : list Rule) (target : string) : gset string :=
  saturate (length rs) (back_round rs) {[target]}.

(** [property_reads_tainted] *)
Definition property_reads_tainted (vc : ChcVc) (target : string) (tainted : gset string) : bool :=
  if decide (tainted = ∅) then false
  else
    let reachable := backward_reachable (rules vc) target in
    existsb (fun r =>
      bool_decide (head_name r ∈ reachable) &&
      existsb (fun c => negb (is_definition_constraint c) && expr_reads_tainted c tainted)
        (iter (constraints (body r)))) (rules vc).

(** [finalize_approximation_identity] *)
Definition set_dependent (d : bool) (p : ChcProperty) : ChcProperty := {|
  prop_id := prop_id p; prop_kind := prop_kind p; prop_bb := prop_bb p;
  prop_relation := prop_relation p; prop_message := prop_message p;
  prop_location := prop_location p; approximation_dependent := Some d |}.
Definition finalize_approximation_identity (vc : ChcVc) (total_sound_approximations : N) : ChcVc :=
  let vc := set_approximation (approximated_vars vc) (accounted_approximations vc)
    (N.leb total_sound_approximations (accounted_approximations vc)) vc in
  let tainted := tainted_vars vc in
  set_metadata (decls vc) (cover_assertions vc)
    (map (fun p => set_dependent (property_reads_tainted vc (prop_relation p) tainted) p)
       (properties vc)) vc.

(** ** Lemmas: the two closures *)

Lemma taint_step_inc t c : t ⊆ taint_step t c.
Proof. unfold taint_step. destruct (definition_lhs_and_rhs_vars c) as [[]|]; [case_match|]; set_solver. Qed.

Definition lhs_of (c : Expr) : list string :=
  match definition_lhs_and_rhs_vars c with Some (lhs, _) => [lhs] | None => [] end.

Lemma lhs_count l : (length (flat_map lhs_of l) <= length l)%nat.
Proof.
  induction l as [|c l IH]; cbn; [done|]. rewrite length_app. unfold lhs_of at 1.
  destruct (definition_lhs_and_rhs_vars c) as [[]|]; cbn; lia.
Qed.

Lemma taint_round_bound rs t :
  taint_round rs t ⊆ t ∪ list_to_set (flat_map lhs_of (all_constraints rs)).
Proof.
  unfold taint_round. generalize (all_constraints rs) as l. intros l. revert t.
  induction l as [|c l IH]; intros t; cbn [foldl flat_map]; [set_solver|].
  etransitivity; [apply IH|]. rewrite list_to_set_app. unfold taint_step, lhs_of at 2.
  destruct (definition_lhs_and_rhs_vars c) as [[]|]; [case_match|]; set_solver.
Qed.

Lemma foldl_inc {A B} `{Countable A} (f : gset A -> B -> gset A) l t :
  (forall s b, s ⊆ f s b) -> t ⊆ foldl f t l.
Proof.
  intros Inc. revert t. induction l as [|b l IH]; intros t; cbn; [done|].
  etransitivity; [apply Inc|apply IH].
Qed.

(** The tainted set holds the freed variables and is closed under definitions. *)
Lemma tainted_closed vc :
  (forall n, n ∈ approximated_vars vc -> n ∈ tainted_vars vc) /\
  (forall c lhs rhs n, c ∈ all_constraints (rules vc) ->
     definition_lhs_and_rhs_vars c = Some (lhs, rhs) -> n ∈ rhs -> n ∈ tainted_vars vc ->
     lhs ∈ tainted_vars vc).
Proof.
  unfold tainted_vars. set (seed := list_to_set (approximated_vars vc) : gset string).
  case_decide as S.
  { split; [intros n Hn; by apply elem_of_list_to_set|]. intros c lhs rhs n _ _ _ Hn. set_solver. }
  set (k := length (all_constraints (rules vc))). split.
  - intros n Hn. apply (saturate_invariant (fun s => n ∈ s)); [|by apply elem_of_list_to_set].
    intros t Ht. by apply (foldl_inc taint_step _ t taint_step_inc).
  - intros c lhs rhs n Hc E Hn Hin.
    assert (F : taint_round (rules vc) (saturate k (taint_round (rules vc)) seed) =
                saturate k (taint_round (rules vc)) seed).
    { apply (saturate_closed (list_to_set (flat_map lhs_of (all_constraints (rules vc))))).
      - intros t. apply foldl_inc, taint_step_inc.
      - apply taint_round_bound.
      - transitivity (base.size (list_to_set (flat_map lhs_of (all_constraints (rules vc))) : gset string)).
        + apply subseteq_size. set_solver.
        + etransitivity; [apply size_list_to_set|apply lhs_count]. }
    pose proof (fold_round_fixed taint_step _ _ taint_step_inc F c Hc) as G.
    rewrite <- G. unfold taint_step. rewrite E.
    assert (X : existsb (fun n => bool_decide (n ∈ saturate k (taint_round (rules vc)) seed)) rhs = true).
    { apply existsb_elem. exists n. split; [done|]. by apply bool_decide_eq_true. }
    rewrite X. set_solver.
Qed.

Lemma back_step_inc s r : s ⊆ back_step s r.
Proof. unfold back_step. case_decide; [case_match|]; set_solver. Qed.

(** The reachable set holds the target and the body relation of each rule it
    holds the head of. *)
Lemma backward_closed rs target :
  target ∈ backward_reachable rs target /\
  (forall r b, r ∈ rs -> head_name r ∈ backward_reachable rs target -> body_name r = Some b ->
     b ∈ backward_reachable rs target).
Proof.
  unfold backward_reachable. split.
  - apply (saturate_invariant (fun s => target ∈ s)); [|set_solver].
    intros t Ht. by apply (foldl_inc back_step _ t back_step_inc).
  - intros r b Hr Hh Hb.
    assert (F : back_round rs (saturate (length rs) (back_round rs) {[target]}) =
                saturate (length rs) (back_round rs) {[target]}).
    { apply (saturate_closed (list_to_set (omap body_name rs))).
      - intros t. apply foldl_inc, back_step_inc.
      - intros t. unfold back_round. clear. revert t. induction rs as [|r rs IH]; intros t; [set_solver|].
        cbn [foldl]. etransitivity; [apply IH|]. cbn [omap list_omap]. unfold back_step.
        destruct (body_name r); case_decide; set_solver.
      - transitivity (base.size (list_to_set (omap body_name rs) : gset string)).
        + apply subseteq_size. set_solver.
        + etransitivity; [apply size_list_to_set|]. clear.
          induction rs as [|r rs IH]; cbn; [done|]. destruct (body_name r); cbn; lia. }
    pose proof (fold_round_fixed back_step _ _ back_step_inc F r Hr) as G.
    rewrite <- G. unfold back_step. rewrite decide_True, Hb by done. set_solver.
Qed.

End Analysis.

(** ** The meaning of the verdict *)

Section Meaning.
Context `{AySem}.

(** A variable of the constraints of a rule, or of its head. *)
Definition mentioned (n : string) (r : Rule) : Prop :=
  (exists c, c ∈ iter (constraints (body r)) /\ occurs n c) \/
  (exists e, e ∈ args (head r) /\ occurs n e).

(** Every argument position of a relation stands for one state slot, and the
    slots are respected: an argument at a slot that is not tainted reads no
    tainted variable, whatever expression it is; a head puts a value of the
    slot's sort at a tainted slot; and a body reads a tainted slot by a variable
    of that sort alone, which is tainted too, or a filler ([__pad_*]) that
    nothing else in the rule reads. *)
Record slotted (t : gset string) (rs : list Rule) (slot : string -> nat -> string) : Prop := {
  sl_clean : forall r app i e n, r ∈ rs -> app ∈ rule_apps r -> args app !! i = Some e ->
    slot (app_name app) i ∉ t -> occurs n e -> normalize_approx_var n ∉ t;
  sl_head : forall r i e rho, r ∈ rs -> args (head r) !! i = Some e ->
    slot (head_name r) i ∈ t -> admissible rho -> has_sort (eval rho e) (var_sort (slot (head_name r) i));
  sl_body : forall r app i e, r ∈ rs -> relation (body r) = Some app -> args app !! i = Some e ->
    slot (app_name app) i ∈ t ->
    exists n, value e = Var n /\ var_sort n = var_sort (slot (app_name app) i) /\
      Str.ends_with n "__out" = false /\
      (forall j e', args app !! j = Some e' -> occurs n e' -> j = i) /\
      (normalize_approx_var n ∈ t \/ ~ mentioned n r);
}.

(** Definitions can be evaluated in the order of the list: none defines a
    variable that itself or an earlier one reads, or an earlier one defines. *)
Fixpoint ordered (cs : list Expr) : Prop :=
  match cs with
  | [] => True
  | c :: cs' =>
      (forall n b, definition_of c = Some (n, b) ->
         ~ occurs n b /\
         forall c' n' b', c' ∈ cs' -> definition_of c' = Some (n', b') -> n' <> n /\ ~ occurs n' b) /\
      ordered cs'
  end.

(** A rule with deleted definitions of freed variables put back. *)
Record completes (freed : list string) (r r2 : Rule) : Prop := {
  co_head : head r2 = head r;
  co_body : relation (body r2) = relation (body r);
  co_sub : forall c, c ∈ iter (constraints (body r)) -> c ∈ iter (constraints (body r2));
  co_new : forall c, c ∈ iter (constraints (body r2)) ->
    c ∈ iter (constraints (body r)) \/
    exists n b, definition_of c = Some (n, b) /\ normalize_approx_var n ∈ freed;
  co_order : exists cs, cs ≡ₚ iter (constraints (body r2)) /\ ordered cs;
}.

Lemma definition_eq c n b :
  definition_of c = Some (n, b) ->
  exists a, value c = Eq a b /\ value a = Var n /\ Str.ends_with n "__out" = true.
Proof.
  unfold definition_of. destruct (value c) eqn:V; try done. destruct (value a) eqn:Va; try done.
  destruct (Str.ends_with name "__out") eqn:E; [|done]. intros [= <- <-]. by exists a.
Qed.

(** The tainted definitions of an ordered list can be made true by changing the
    variables they define, and nothing else. *)
Lemma recompute (t : gset string) cs rho :
  ordered cs -> admissible rho ->
  exists rho', admissible rho' /\
    (forall c n b, c ∈ cs -> definition_of c = Some (n, b) -> normalize_approx_var n ∈ t ->
       is_true (eval rho' c)) /\
    (forall m, rho' m = rho m \/
       (normalize_approx_var m ∈ t /\ exists c b, c ∈ cs /\ definition_of c = Some (m, b))).
Proof.
  revert rho. induction cs as [|c cs IH]; intros rho Or Ad.
  { exists rho. split; [done|]. split; [|by left]. intros c n b Hc. by apply elem_of_nil in Hc. }
  destruct Or as [Oc Or].
  assert (Skip : (forall n b, definition_of c = Some (n, b) -> normalize_approx_var n ∉ t) ->
    exists rho', admissible rho' /\
    (forall d n b, d ∈ c :: cs -> definition_of d = Some (n, b) -> normalize_approx_var n ∈ t ->
       is_true (eval rho' d)) /\
    (forall m, rho' m = rho m \/
       (normalize_approx_var m ∈ t /\ exists d b, d ∈ c :: cs /\ definition_of d = Some (m, b)))).
  { intros Nt. destruct (IH rho Or Ad) as (rho' & Ad' & T & Ch). exists rho'. split; [done|]. split.
    - intros d n b Hd E Hn. apply elem_of_cons in Hd as [->|Hd]; [by destruct (Nt n b E)|by eapply T].
    - intros m. destruct (Ch m) as [|(Ht & d & b & Hd & E)]; [by left|right]. split; [done|].
      exists d, b. split; [set_solver|done]. }
  destruct (definition_of c) as [[n b]|] eqn:D; [|by apply Skip].
  destruct (decide (normalize_approx_var n ∈ t)) as [Tn|Nt]; [|by apply Skip; intros ? ? [= <- <-]].
  clear Skip. destruct (Oc n b eq_refl) as [Nb Later].
  destruct (definition_eq c n b D) as (a & V & Va & _).
  set (rho1 := override (fun m => bool_decide (m = n)) (fun _ => eval rho b) rho).
  assert (Ad1 : admissible rho1).
  { intros m. unfold rho1, override. case_bool_decide; [subst|apply Ad].
    by apply (proj1 (eq_sorted rho c a b n V Ad)). }
  destruct (IH rho1 Or Ad1) as (rho' & Ad' & T & Ch). exists rho'. split; [done|].
  assert (Keep : forall m, m = n \/ occurs m b -> rho' m = rho1 m).
  { intros m Hm. destruct (Ch m) as [|(_ & d & b' & Hd & E)]; [done|].
    destruct (Later d m b' Hd E) as [Ne No]. by destruct Hm. }
  split.
  - intros d n0 b0 Hd E Hn. apply elem_of_cons in Hd as [->|Hd]; [|by eapply T].
    apply (eval_eq rho' c a b V). rewrite (eval_var rho' a n Va), Keep by by left.
    transitivity (eval rho1 b).
    + unfold rho1 at 1, override. rewrite bool_decide_eq_true_2 by done. apply eval_ext.
      intros m Hm. unfold rho1, override. rewrite bool_decide_eq_false_2; [done|]. by intros ->.
    + apply eval_ext. intros m Hm. symmetry. apply Keep. by right.
  - intros m. destruct (Ch m) as [E|(Ht & d & b' & Hd & E)].
    + rewrite E. unfold rho1, override. case_bool_decide; [subst; right|by left].
      split; [done|]. exists c, b. split; [set_solver|done].
    + right. split; [done|]. exists d, b'. split; [set_solver|done].
Qed.

(** The tainted position of an application that a variable stands at. *)
Definition is_var (n : string) (e : Expr) : bool :=
  match value e with Var m => bool_decide (m = n) | _ => false end.
Definition carrier (slot : string -> nat -> string) (t : gset string) (app : RelationApp) (n : string)
    : option nat :=
  List.head (filter (fun i => slot (app_name app) i ∈ t /\ existsb (is_var n) (option_list (args app !! i)) = true)
          (seq 0 (length (args app)))).

Lemma occurs_in_var e n m : value e = Var n -> occurs m e -> m = n.
Proof.
  intros V Hm. inversion Hm as [e' V'|e' x Hx _]; subst; [congruence|].
  unfold children in Hx. rewrite V in Hx. by apply elem_of_nil in Hx.
Qed.

Lemma is_var_spec n e : is_var n e = true <-> value e = Var n.
Proof.
  unfold is_var. split.
  - destruct (value e); try done. intros ->%bool_decide_eq_true. done.
  - intros ->. by apply bool_decide_eq_true.
Qed.

Lemma carrier_some slot t app n i :
  carrier slot t app n = Some i ->
  slot (app_name app) i ∈ t /\ exists e, args app !! i = Some e /\ value e = Var n.
Proof.
  unfold carrier. intros E. apply head_Some_elem_of, list_elem_of_filter in E as [[T V] _].
  split; [done|]. destruct (args app !! i) as [e|]; [|done]. exists e. split; [done|].
  apply is_var_spec. cbn in V. by destruct (is_var n e).
Qed.

Lemma carrier_at slot t app n i e :
  slot (app_name app) i ∈ t -> args app !! i = Some e -> value e = Var n ->
  exists j, carrier slot t app n = Some j.
Proof.
  intros T E V. unfold carrier. destruct (filter _ _) as [|j l] eqn:F; [|by exists j].
  exfalso. apply (filter_nil_not_elem_of _ _ i F).
  - split; [done|]. rewrite E. cbn. apply is_var_spec in V. by rewrite V.
  - apply elem_of_seq. apply lookup_lt_Some in E. lia.
Qed.

(** Two facts of a relation agree on the slots that are not tainted. *)
Definition agree (slot : string -> nat -> string) (t : gset string) (R : string) (vs vs' : list val)
    : Prop :=
  length vs = length vs' /\ (forall i, slot R i ∉ t -> vs !! i = vs' !! i) /\
  (forall i v, slot R i ∈ t -> vs' !! i = Some v -> has_sort v (var_sort (slot R i))).

(** The valuation that reads the tainted arguments of a body from another fact. *)
Definition replay (slot : string -> nat -> string) (t : gset string) (app : RelationApp)
    (vs : list val) (rho : string -> val) (n : string) : val :=
  match carrier slot t app n with Some i => default (rho n) (vs !! i) | None => rho n end.

Lemma replay_body rs slot t r app rho vs :
  slotted t rs slot -> r ∈ rs -> relation (body r) = Some app -> admissible rho ->
  agree slot t (app_name app) (map (eval rho) (args app)) vs ->
  admissible (replay slot t app vs rho) /\
  map (eval (replay slot t app vs rho)) (args app) = vs /\
  (forall m, normalize_approx_var m ∉ t -> mentioned m r -> replay slot t app vs rho m = rho m).
Proof.
  intros Sl Hr Hb Ad (L & Ag & So). rewrite length_map in L.
  assert (At : forall n i, carrier slot t app n = Some i -> slot (app_name app) i ∈ t /\
    var_sort n = var_sort (slot (app_name app) i) /\
    (forall j e, args app !! j = Some e -> occurs n e -> j = i) /\
    (normalize_approx_var n ∈ t \/ ~ mentioned n r)).
  { intros n i E. apply carrier_some in E as (T & e & Ee & V).
    destruct (sl_body t rs slot Sl r app i e Hr Hb Ee T) as (m & V' & Es & _ & Un & Pr).
    assert (m = n) as -> by congruence. done. }
  split; [|split].
  - intros n. unfold replay. destruct (carrier slot t app n) as [i|] eqn:E; [|apply Ad].
    destruct (At n i E) as (T & Es & _). destruct (vs !! i) as [v|] eqn:Ev; cbn; [|apply Ad].
    rewrite Es. by apply So.
  - apply list_eq. intros i. rewrite list_lookup_fmap. destruct (args app !! i) as [e|] eqn:E; cbn.
    + destruct (decide (slot (app_name app) i ∈ t)) as [T|T].
      * destruct (sl_body t rs slot Sl r app i e Hr Hb E T) as (n & V & _).
        rewrite (eval_var _ _ _ V). unfold replay.
        destruct (carrier_at slot t app n i e T E V) as [j Ej]. rewrite Ej.
        destruct (At n j Ej) as (_ & _ & Un & _). assert (i = j) as <- by by eapply Un; [|by constructor].
        assert (Lt : (i < length vs)%nat) by (rewrite <- L; by eapply lookup_lt_Some).
        apply lookup_lt_is_Some_2 in Lt as [v Ev]. by rewrite Ev.
      * rewrite <- (Ag i T). rewrite list_lookup_fmap, E. cbn. f_equal. apply eval_ext. intros m Hm.
        unfold replay. destruct (carrier slot t app m) as [j|] eqn:Ej; [|done]. exfalso.
        destruct (At m j Ej) as (Tj & _ & Un & _). assert (i = j) as <- by by eapply Un. done.
    + apply lookup_ge_None in E. symmetry. apply lookup_ge_None. lia.
  - intros m Nt Mm. unfold replay. destruct (carrier slot t app m) as [j|] eqn:Ej; [|done]. exfalso.
    destruct (At m j Ej) as (_ & _ & _ & [|Pr]); done.
Qed.

(** The verdict [false]: no guard on a path to the target reads a tainted name. *)
Lemma guard_untainted vc target r c n :
  property_reads_tainted vc target (tainted_vars vc) = false ->
  r ∈ rules vc -> head_name r ∈ backward_reachable (rules vc) target ->
  c ∈ iter (constraints (body r)) -> definition_of c = None -> occurs n c ->
  normalize_approx_var n ∉ tainted_vars vc.
Proof.
  unfold property_reads_tainted. case_decide as T; [rewrite T; set_solver|].
  intros E Hr Hh Hc D Hn Hin. rewrite existsb_false_elem in E. specialize (E r Hr).
  rewrite bool_decide_eq_true_2 in E by done. cbn in E. rewrite existsb_false_elem in E.
  specialize (E c Hc). unfold is_definition_constraint in E. rewrite D in E. cbn in E.
  unfold expr_reads_tainted in E. rewrite existsb_false_elem in E.
  assert (X : normalize_approx_var n ∈ normalized_vars c).
  { unfold normalized_vars. apply list_elem_of_fmap. exists n. split; [done|].
    by apply collect_expr_vars_occurs. }
  specialize (E _ X). by apply bool_decide_eq_false in E.
Qed.

Lemma taint_flows vc c n b m :
  c ∈ all_constraints (rules vc) -> definition_of c = Some (n, b) -> occurs m b ->
  normalize_approx_var m ∈ tainted_vars vc -> normalize_approx_var n ∈ tainted_vars vc.
Proof.
  intros Hc D Hm Hin. apply (proj2 (tainted_closed vc) c _ (normalized_vars b) (normalize_approx_var m) Hc); [| |exact Hin].
  - unfold definition_lhs_and_rhs_vars. by rewrite D.
  - unfold normalized_vars. apply list_elem_of_fmap. exists m. split; [done|].
    by apply collect_expr_vars_occurs.
Qed.

(** A constraint that is kept true: one of the encoding that defines no tainted
    variable only reads variables that are not tainted. *)
Lemma untainted_reads vc target r c m :
  property_reads_tainted vc target (tainted_vars vc) = false ->
  r ∈ rules vc -> head_name r ∈ backward_reachable (rules vc) target ->
  c ∈ iter (constraints (body r)) ->
  (forall n b, definition_of c = Some (n, b) -> normalize_approx_var n ∉ tainted_vars vc) ->
  occurs m c -> normalize_approx_var m ∉ tainted_vars vc.
Proof.
  intros Ind Hr Hh Hc D Hm. destruct (definition_of c) as [[n b]|] eqn:E;
    [|by eapply guard_untainted].
  specialize (D n b eq_refl).
  assert (Hall : c ∈ all_constraints (rules vc)) by (apply elem_of_flat_map; by exists r).
  destruct (definition_eq c n b E) as (a & V & Va & _).
  inversion Hm as [e' V'|e' x Hx Om]; subst; [congruence|].
  unfold children in Hx. rewrite V in Hx. cbn in Hx.
  apply elem_of_cons in Hx as [->|Hx]; [|apply list_elem_of_singleton in Hx as ->].
  - by rewrite (occurs_in_var a n m Va Om).
  - intros Tm. apply D. by eapply taint_flows.
Qed.

(** A derivation is replayed under the completed rules with other values in the
    tainted slots. *)
Lemma replay_derivable vc slot rs2 target R vs :
  slotted (tainted_vars vc) (rules vc) slot ->
  (forall r, r ∈ rules vc -> exists r2, r2 ∈ rs2 /\ completes (approximated_vars vc) r r2) ->
  property_reads_tainted vc target (tainted_vars vc) = false ->
  derivable (rules vc) R vs -> R ∈ backward_reachable (rules vc) target ->
  exists vs', derivable rs2 R vs' /\ agree slot (tainted_vars vc) R vs vs'.
Proof.
  intros Sl Co Ind D. set (t := tainted_vars vc) in *.
  induction D as [r rho Hr Ad Tc Hb IH]. intros Hh. destruct (Co r Hr) as (r2 & Hr2 & C).
  destruct (co_order _ r r2 C) as (cs & Pm & Or).
  assert (P : exists rho0, admissible rho0 /\
    (forall m, normalize_approx_var m ∉ t -> mentioned m r -> rho0 m = rho m) /\
    forall app, relation (body r) = Some app ->
      derivable rs2 (app_name app) (map (eval rho0) (args app))).
  { destruct (relation (body r)) as [app|] eqn:B; [|by exists rho].
    destruct (IH app eq_refl) as (vs' & D' & Ag).
    { apply (proj2 (backward_closed (rules vc) target) r); [done|done|]. unfold body_name. by rewrite B. }
    destruct (replay_body (rules vc) slot t r app rho vs' Sl Hr B Ad Ag) as (Ad0 & Eq & Sm).
    exists (replay slot t app vs' rho). split; [done|]. split; [done|].
    intros app' [= <-]. by rewrite Eq. }
  destruct P as (rho0 & Ad0 & Same0 & Db).
  destruct (recompute t cs rho0 Or Ad0) as (rho' & Ad' & Td & Ch).
  assert (Same : forall m, normalize_approx_var m ∉ t -> mentioned m r -> rho' m = rho m).
  { intros m Hm Mm. destruct (Ch m) as [E|[? _]]; [|done]. rewrite E. by apply Same0. }
  exists (map (eval rho') (args (head r))). split.
  - unfold head_name. rewrite <- (co_head _ r r2 C). apply (derive rs2 r2 rho'); [done|done| |].
    + intros c Hc.
      assert (Dec : (exists n b, definition_of c = Some (n, b) /\ normalize_approx_var n ∈ t) \/
        ~ exists n b, definition_of c = Some (n, b) /\ normalize_approx_var n ∈ t).
      { destruct (definition_of c) as [[n b]|]; [|by right; intros (? & ? & ? & _)].
        destruct (decide (normalize_approx_var n ∈ t)); [left; by exists n, b|right].
        by intros (? & ? & [= <- <-] & ?). }
      destruct Dec as [(n & b & E & Tn)|Nt]; [eapply Td; [by rewrite Pm|done|done]|].
      assert (Hc0 : c ∈ iter (constraints (body r))).
      { destruct (co_new _ r r2 C c Hc) as [|(n & b & E & Hf)]; [done|]. exfalso. apply Nt.
        exists n, b. split; [done|]. by apply tainted_closed. }
      rewrite (eval_ext rho' rho); [by apply Tc|]. intros m Hm. apply Same.
      * eapply untainted_reads; [done..| |done]. intros n b E Tn. apply Nt. by exists n, b.
      * left. by exists c.
    + intros app Eb. rewrite (co_body _ r r2 C) in Eb.
      assert (E : map (eval rho') (args app) = map (eval rho0) (args app)); [|rewrite E; by apply Db].
      apply map_ext_in. intros e He. apply list_elem_of_In, list_elem_of_lookup in He as [i Ei].
      assert (Happ : app ∈ rule_apps r) by (unfold rule_apps; rewrite Eb; set_solver).
      apply eval_ext. intros m Hm. destruct (Ch m) as [|(Tm & d & b & _ & Ed)]; [done|]. exfalso.
      destruct (decide (slot (app_name app) i ∈ t)) as [T|T];
        [|by apply (sl_clean _ _ slot Sl r app i e m Hr Happ Ei T Hm)].
      destruct (sl_body _ _ slot Sl r app i e Hr Eb Ei T) as (n & V & _ & Out & _).
      rewrite (occurs_in_var e n m V Hm) in Ed. apply definition_eq in Ed as (_ & _ & _ & Ed). congruence.
  - assert (Hin : head r ∈ rule_apps r) by (unfold rule_apps; set_solver).
    split; [by rewrite !length_map|]. split.
    + intros i Hi. rewrite !list_lookup_fmap. destruct (args (head r) !! i) as [e|] eqn:E; [|done]. cbn.
      f_equal. symmetry. apply eval_ext. intros m Hm. apply Same.
      * by apply (sl_clean _ _ slot Sl r (head r) i e m Hr Hin E Hi Hm).
      * right. exists e. split; [by eapply list_elem_of_lookup_2|done].
    + intros i v Ti. rewrite list_lookup_fmap. destruct (args (head r) !! i) as [e|] eqn:E; [|done]. cbn.
      intros [= <-]. by apply (sl_head _ _ slot Sl r i e rho' Hr E Ti).
Qed.

End Meaning.

(** ** The verdict, by its closures *)

Section Verdict.
Context `{AyExpr}.

(** A name is freed, or defined from one that is tainted. *)
Inductive tainted (vc : ChcVc) : string -> Prop :=
  | tainted_freed n : n ∈ approximated_vars vc -> tainted vc n
  | tainted_flow c n b m : c ∈ all_constraints (rules vc) -> definition_of c = Some (n, b) ->
      occurs m b -> tainted vc (normalize_approx_var m) -> tainted vc (normalize_approx_var n).

(** A relation is the target, or the body of a rule for one that contributes. *)
Inductive contributes (rs : list Rule) (target : string) : string -> Prop :=
  | contributes_target : contributes rs target target
  | contributes_body r b : r ∈ rs -> contributes rs target (head_name r) -> body_name r = Some b ->
      contributes rs target b.

Lemma normalized_vars_spec e x :
  x ∈ normalized_vars e <-> exists m, occurs m e /\ normalize_approx_var m = x.
Proof.
  unfold normalized_vars. rewrite list_elem_of_fmap. setoid_rewrite collect_expr_vars_occurs.
  split; intros (m & ? & ?); by exists m.
Qed.

Lemma taint_step_sound vc s c :
  c ∈ all_constraints (rules vc) -> (forall x, x ∈ s -> tainted vc x) ->
  forall x, x ∈ taint_step s c -> tainted vc x.
Proof.
  intros Hc Hs x. unfold taint_step, definition_lhs_and_rhs_vars.
  destruct (definition_of c) as [[n b]|] eqn:D; cbn; [|by apply Hs].
  destruct (existsb _ _) eqn:E; [|by apply Hs].
  intros Hx. apply elem_of_union in Hx as [Hx|Hx]; [|by apply Hs].
  apply elem_of_singleton in Hx as ->. apply existsb_elem in E as (y & Hy & E).
  apply bool_decide_eq_true in E. apply normalized_vars_spec in Hy as (m & Hm & <-).
  eapply tainted_flow; [done|done|done|by apply Hs].
Qed.

Lemma tainted_vars_spec vc n : n ∈ tainted_vars vc <-> tainted vc n.
Proof.
  split.
  - assert (Seed : forall x, x ∈ (list_to_set (approximated_vars vc) : gset string) -> tainted vc x)
      by (intros x Hx; apply elem_of_list_to_set in Hx; by apply tainted_freed).
    unfold tainted_vars. case_decide; [by apply Seed|]. revert n.
    apply (saturate_invariant (fun s => forall n, n ∈ s -> tainted vc n)); [|done].
    intros s Hs. unfold taint_round.
    assert (G : forall l, (forall c, c ∈ l -> c ∈ all_constraints (rules vc)) -> forall s,
      (forall n, n ∈ s -> tainted vc n) -> forall n, n ∈ foldl taint_step s l -> tainted vc n).
    { induction l as [|c l IH]; intros Hl s0 Hs0; cbn [foldl]; [done|]. apply IH; [set_solver|].
      apply taint_step_sound; [set_solver|done]. }
    by apply G.
  - intros T. induction T as [n Hn|c n b m Hc D Hm _ IH]; [by apply tainted_closed|].
    apply (proj2 (tainted_closed vc) c _ (normalized_vars b) (normalize_approx_var m) Hc); [| |done].
    + unfold definition_lhs_and_rhs_vars. by rewrite D.
    + apply normalized_vars_spec. by exists m.
Qed.

Lemma backward_reachable_spec rs target R :
  R ∈ backward_reachable rs target <-> contributes rs target R.
Proof.
  split.
  - unfold backward_reachable. revert R.
    apply (saturate_invariant (fun s => forall R, R ∈ s -> contributes rs target R)).
    + intros s Hs. unfold back_round.
      assert (G : forall l, (forall r, r ∈ l -> r ∈ rs) -> forall s,
        (forall n, n ∈ s -> contributes rs target n) ->
        forall n, n ∈ foldl back_step s l -> contributes rs target n).
      { induction l as [|r l IH]; intros Hl s0 Hs0; cbn [foldl]; [done|]. apply IH; [set_solver|].
        unfold back_step. case_decide as D; [|done]. destruct (body_name r) as [b|] eqn:B; [|done].
        intros n Hn. apply elem_of_union in Hn as [Hn|Hn]; [|by apply Hs0].
        apply elem_of_singleton in Hn as ->. apply (contributes_body rs target r b); [apply Hl; set_solver|by apply Hs0|done]. }
      by apply G.
    + intros R HR. apply elem_of_singleton in HR as ->. constructor.
  - intros C. induction C as [|r b Hr _ IH Hb]; [by apply backward_closed|].
    by apply (proj2 (backward_closed rs target) r).
Qed.

Lemma property_reads_tainted_spec vc target :
  property_reads_tainted vc target (tainted_vars vc) = true <->
  exists r c n, r ∈ rules vc /\ contributes (rules vc) target (head_name r) /\
    c ∈ iter (constraints (body r)) /\ definition_of c = None /\ occurs n c /\
    tainted vc (normalize_approx_var n).
Proof.
  unfold property_reads_tainted. case_decide as T.
  - split; [done|]. intros (_ & _ & n & _ & _ & _ & _ & _ & Tn). apply tainted_vars_spec in Tn.
    rewrite T in Tn. by apply elem_of_empty in Tn.
  - rewrite existsb_elem. split.
    + intros (r & Hr & E). apply andb_true_iff in E as [Hh E]. apply bool_decide_eq_true in Hh.
      apply backward_reachable_spec in Hh. apply existsb_elem in E as (c & Hc & E).
      apply andb_true_iff in E as [Nd E]. unfold is_definition_constraint in Nd.
      apply existsb_elem in E as (x & Hx & E). apply bool_decide_eq_true, tainted_vars_spec in E.
      apply normalized_vars_spec in Hx as (m & Hm & <-). exists r, c, m.
      destruct (definition_of c); [done|]. done.
    + intros (r & c & n & Hr & Hh & Hc & Nd & Hn & Tn). exists r. split; [done|].
      apply andb_true_iff. split; [by apply bool_decide_eq_true, backward_reachable_spec|].
      apply existsb_elem. exists c. split; [done|]. unfold is_definition_constraint. rewrite Nd. cbn.
      apply existsb_elem. exists (normalize_approx_var n). split; [apply normalized_vars_spec; by exists n|].
      by apply bool_decide_eq_true, tainted_vars_spec.
Qed.

End Verdict.

(** ** A concrete system *)

Module Sample.
Import AyExpr.Sample.

(** [f] is freed in the step to [bb1], whose check only reads [x] and has a
    filler at the slot of [f]. *)
Definition app (R : string) (l : list string) : @RelationApp terms :=
  @Build_RelationApp terms R (map TVar l).
Definition check : ChcProperty := {|
  prop_id := 3; prop_kind := Artifact.Assertion; prop_bb := 1; prop_relation := "error_p3";
  prop_message := None; prop_location := None; approximation_dependent := None |}.
Definition rules_with (dropped : list Term) : list (@Rule terms) :=
  [Rule_init (TEq (TVar "x") (TInt 2)) (app "bb0" ["x"; "f"]);
   Build_Rule (RuleBody_new (Some (app "bb0" ["x"; "f"])) ([TEq (TVar "x__out") (TVar "x")] ++ dropped))
     (app "bb1" ["x__out"; "f__out"]);
   Rule_transition (app "bb1" ["x"; "__pad_bb1_1"]) None (TLt (TVar "x") (TInt 3)) (RelationApp_nullary "error_p3")].
Definition vc : @ChcVc terms :=
  record_approximation_identity
    (add_property (set_rules [] (rules_with []) ChcVc_new) check) (Some "f__out").

(** The definition the encoder dropped. *)
Definition dropped : Term := TEq (TVar "f__out") (TAdd (TVar "f") (TVar "x")).
Definition slot (R : string) (i : nat) : string := match i with 0%nat => "x" | _ => "f" end.

(** The freed [f] is handed to [bb0], which the check reads as [x]. *)
Definition hand_over (dropped : list Term) : @Rule terms :=
  Build_Rule (RuleBody_new None dropped) (app "bb0" ["f__out"]).
Definition misread_check : @Rule terms :=
  Rule_transition (app "bb0" ["x"]) None (TLt (TVar "x") (TInt 3)) (RelationApp_nullary "error_p3").
Definition misread_with (dropped : list Term) : list (@Rule terms) := [hand_over dropped; misread_check].
Definition misread : @ChcVc terms :=
  record_approximation_identity (set_rules [] (misread_with []) ChcVc_new) (Some "f__out").

End Sample.

(** ** Properties *)

(** C31: certification is sound for rules that respect the slots.  Let each
    relation position stand for one state slot as [slotted] says: an argument at
    an untainted slot reads no tainted variable, and a rule reads a tainted slot
    by a tainted variable of its sort or by a filler that nothing else reads.
    When the analysis finds a check independent of every freed value, the check
    can be violated in the encoding exactly when it can be violated with the
    dropped definitions of freed variables put back, for any definitions that
    can be evaluated in some order together with those that are there
    ([completes]): its counterexamples are not made by the approximation.
    [misread_slot] shows what happens without the first condition. *)
Theorem certified_independent `{AySem} (vc : ChcVc) (total : N) (p : ChcProperty)
    (slot : string -> nat -> string) (rs2 : list Rule)
    (finalized : p ∈ properties (finalize_approximation_identity vc total))
    (independent : approximation_dependent p = Some false)
    (slots : slotted (tainted_vars vc) (rules vc) slot)
    (completed : Forall2 (completes (approximated_vars vc)) (rules vc) rs2) :
  (exists vs, derivable (rules vc) (prop_relation p) vs) <->
  (exists vs, derivable rs2 (prop_relation p) vs).
Proof.
  unfold finalize_approximation_identity in finalized. cbn [properties set_metadata] in finalized.
  apply list_elem_of_fmap in finalized as (p0 & -> & _). cbn in independent.
  injection independent as Ind. cbn [set_dependent prop_relation]. split; intros (vs & D).
  - destruct (replay_derivable vc slot rs2 (prop_relation p0) (prop_relation p0) vs slots)
      as (vs' & D' & _); [|exact Ind|done|by apply backward_closed|by exists vs'].
    intros r Hr. apply list_elem_of_lookup in Hr as [i Hi].
    destruct (Forall2_lookup_l _ _ _ _ _ completed Hi) as (r2 & Hr2 & C). exists r2.
    split; [by eapply list_elem_of_lookup_2|done].
  - exists vs. clear -D completed. induction D as [r2 rho Hr2 Ad Tc Hb IH].
    apply list_elem_of_lookup in Hr2 as [i Hi].
    destruct (Forall2_lookup_r _ _ _ _ _ completed Hi) as (r & Hr & C).
    unfold head_name. rewrite (co_head _ r r2 C). apply (derive _ r rho).
    + by eapply list_elem_of_lookup_2.
    + done.
    + intros c Hc. apply Tc. by apply (co_sub _ r r2 C).
    + intros app Eb. apply IH. by rewrite (co_body _ r r2 C).
Qed.

(** The verdict is the documented dependence.  Every property gets a verdict;
    it is "dependent" exactly when a guard on a rule that can contribute to the
    check reads a name that a freed value flows into; and the identity is
    complete exactly when every approximation was accounted for. *)
Theorem finalize_verdict_spec `{AyExpr} (vc : ChcVc) (total : N) :
  let vc' := finalize_approximation_identity vc total in
  (approximation_identity_complete vc' = true <-> (total <= accounted_approximations vc)%N) /\
  map prop_relation (properties vc') = map prop_relation (properties vc) /\
  forall p, p ∈ properties vc' -> exists d, approximation_dependent p = Some d /\
    (d = true <->
     exists r c n, r ∈ rules vc /\ contributes (rules vc) (prop_relation p) (head_name r) /\
       c ∈ iter (constraints (body r)) /\ definition_of c = None /\ occurs n c /\
       tainted vc (normalize_approx_var n)).
Proof.
  cbn zeta. split; [apply N.leb_le|]. split.
  - cbn. rewrite map_map. by apply map_ext.
  - intros p Hp. cbn [properties set_metadata finalize_approximation_identity] in Hp.
    apply list_elem_of_fmap in Hp as (p0 & -> & _). eexists. split; [done|].
    cbn [prop_relation set_dependent]. exact (property_reads_tainted_spec vc (prop_relation p0)).
Qed.

(** ** Witness *)

Section Witness.
Import AyExpr.Sample.

Lemma sample_tainted : tainted_vars Sample.vc = {["f"]}.
Proof. vm_compute. reflexivity. Qed.

Lemma occurs_TVar n m : occurs m (TVar n) -> m = n.
Proof. by apply occurs_in_var. Qed.

Lemma sample_slotted : slotted (tainted_vars Sample.vc) (rules Sample.vc) Sample.slot.
Proof.
  rewrite sample_tainted. split.
  - intros r app i e n Hr Ha E T Hn. cbn in Hr.
    repeat (apply elem_of_cons in Hr as [->|Hr]); [| | |by apply elem_of_nil in Hr]; cbn in Ha;
      repeat (apply elem_of_cons in Ha as [->|Ha]); try (by apply elem_of_nil in Ha);
      destruct i as [|[|i]]; cbn in E, T; try discriminate; try (by destruct T; apply elem_of_singleton);
      injection E as <-; rewrite (occurs_TVar _ _ Hn); apply not_elem_of_singleton; discriminate.
  - intros r i e rho Hr E T Ad. cbn in Hr.
    repeat (apply elem_of_cons in Hr as [->|Hr]); [| | |by apply elem_of_nil in Hr];
      destruct i as [|[|i]]; cbn in E; try discriminate; injection E as <-; exact I.
  - intros r app i e Hr Hb E T. cbn in Hr.
    repeat (apply elem_of_cons in Hr as [->|Hr]); [| | |by apply elem_of_nil in Hr]; cbn in Hb;
      try discriminate; injection Hb as <-;
      destruct i as [|[|i]]; cbn in E, T; try discriminate; try (by apply elem_of_singleton in T);
      injection E as <-; eexists; (split; [reflexivity|]); (split; [reflexivity|]); (split; [reflexivity|]).
    all: split; [intros [|[|j]] e' E' Hn; cbn in E'; try discriminate; injection E' as <-;
      apply occurs_TVar in Hn; congruence|].
    + left. by apply elem_of_singleton.
    + right. intros [(c & Hc & Hn)|(e & He & _)]; [|by apply elem_of_nil in He].
      cbn in Hc. apply list_elem_of_singleton in Hc as ->. apply collect_expr_vars_occurs in Hn.
      revert Hn. decide_now.
Qed.

(** Without [slotted] the verdict can be wrong: the flow of a value through the
    arguments of relations is seen by the names of the arguments alone. *)
Lemma misread_slot :
  let fixed := Sample.misread_with [TEq (TVar "f__out") (TInt 5)] in
  property_reads_tainted Sample.misread "error_p3" (tainted_vars Sample.misread) = false /\
  Forall2 (completes (approximated_vars Sample.misread)) (rules Sample.misread) fixed /\
  derivable (rules Sample.misread) "error_p3" [] /\
  ~ exists vs, derivable fixed "error_p3" vs.
Proof.
  cbn zeta. split; [by vm_compute|]. split; [|split].
  - apply List.Forall2_cons; [|apply List.Forall2_cons; [|constructor]].
    + split; [done|done|intros c Hc; by apply elem_of_nil in Hc| |].
      * intros c Hc. apply list_elem_of_singleton in Hc as ->. right. eexists _, _. split; [done|].
        apply list_elem_of_here.
      * eexists. split; [reflexivity|]. split; [|done]. intros n b [= <- <-]. split.
        -- rewrite <- collect_expr_vars_occurs. decide_now.
        -- intros c' n' b' Hc'. by apply elem_of_nil in Hc'.
    + split; [done|done|done|by left|]. eexists. split; [reflexivity|]. split; [|done]. by intros n b E.
  - apply (derive _ Sample.misread_check (fun _ : string => 0%Z : @val _ term_sem)); [apply list_elem_of_further, list_elem_of_here|done| |].
    + intros c Hc. apply list_elem_of_singleton in Hc as ->. cbn. lia.
    + intros a [= <-]. apply (derive _ (Sample.hand_over []) (fun _ : string => 0%Z : @val _ term_sem));
        [apply list_elem_of_here|done|intros c Hc; by apply elem_of_nil in Hc|done].
  - intros (vs & D). inversion D as [r rho Hr _ T B]; subst.
    apply elem_of_cons in Hr as [->|Hr]; [done|]. apply list_elem_of_singleton in Hr as ->.
    specialize (T _ (list_elem_of_here _ _)). specialize (B _ eq_refl). cbn in T, B.
    inversion B as [r' rho' Hr' _ T' _ E1 E2]; subst.
    apply elem_of_cons in Hr' as [->|Hr']; [|by apply list_elem_of_singleton in Hr' as ->].
    specialize (T' _ (list_elem_of_here _ _)). cbn in T', E2. injection E2 as E2. rewrite <- E2 in T.
    assert (G : forall v : Z, of_bool (v <? 3)%Z <> 0%Z -> of_bool (v =? 5)%Z <> 0%Z -> False)
      by (intros v; destruct (Z.eqb_spec v 5) as [->|]; done).
    exact (G _ T T').
Qed.

Lemma sample_completed :
  Forall2 (completes (approximated_vars Sample.vc)) (rules Sample.vc) (Sample.rules_with [Sample.dropped]).
Proof.
  assert (Same : forall r : @Rule terms, ordered (iter (constraints (body r))) ->
    completes (approximated_vars Sample.vc) r r).
  { intros r Or. split; [done..| |].
    - intros c Hc. by left.
    - by eexists. }
  apply List.Forall2_cons; [|apply List.Forall2_cons; [|apply List.Forall2_cons; [|constructor]]].
  - apply Same. cbn. split; [intros n b E; cbn in E; discriminate|done].
  - split; [reflexivity|reflexivity| | |].
    + intros c Hc. cbn in *. apply list_elem_of_singleton in Hc as ->. by apply list_elem_of_here.
    + intros c Hc. cbn in Hc. apply elem_of_cons in Hc as [->|Hc]; [left; by apply list_elem_of_here|].
      apply list_elem_of_singleton in Hc as ->. right. eexists _, _. split; [reflexivity|].
      cbn. by apply list_elem_of_here.
    + eexists. split; [reflexivity|]. cbn. split; [|split; [|done]].
      * intros n b [= <- <-]. split.
        -- rewrite <- collect_expr_vars_occurs. decide_now.
        -- intros c' n' b' Hc' E. apply list_elem_of_singleton in Hc' as ->. cbn in E.
           injection E as <- <-. split; [discriminate|].
           rewrite <- collect_expr_vars_occurs. decide_now.
      * intros n b [= <- <-]. split; [|intros c' n' b' Hc'; by apply elem_of_nil in Hc'].
        rewrite <- collect_expr_vars_occurs. decide_now.
  - apply Same. cbn. split; [intros n b E; cbn in E; discriminate|done].
Qed.

Lemma certified_independent_witness :
  (exists vs, derivable (rules Sample.vc) "error_p3" vs) <->
  (exists vs, derivable (Sample.rules_with [Sample.dropped]) "error_p3" vs).
Proof.
  refine (certified_independent Sample.vc 1 (set_dependent false Sample.check) Sample.slot
    (Sample.rules_with [Sample.dropped]) _ _ sample_slotted sample_completed).
  - vm_compute. apply list_elem_of_here.
  - reflexivity.
Defined.

End Witness.
End Taint.
