(* ===== verification/Text.v ===== *)
(** * Text helpers of the evidence library

    Sorting and deduplicating vectors of strings, replacing a character,
    printing lists of numbers, and blank strings. *)

From stdpp Require Import sorting.
From S2P Require Import Prelude.

(** [v.sort()] and [v.sort_unstable()] on strings, which agree: equal strings are
    indistinguishable. *)
Definition sort_strings (v : list string) : list string := merge_sort String.le v.

(** [v.dedup()]: drops an element equal to the one kept before it. *)
Fixpoint dedup (v : list string) : list string :=
  match v with
  | x :: (y :: _) as v' => if String.eqb x y then dedup v' else x :: dedup v'
  | _ => v
  end.

(** [s.replace(from, to)] for characters. *)
Fixpoint replace_char (from to : ascii) (s : string) : string :=
  match s with
  | EmptyString => EmptyString
  | String c s' => String (if Ascii.eqb c from then to else c) (replace_char from to s')
  end.

(** [s.strip_prefix(p)] *)
Fixpoint strip_prefix (p s : string) : option string :=
  match p, s with
  | EmptyString, _ => Some s
  | String a p', String b s' => if Ascii.eqb a b then strip_prefix p' s' else None
  | String _ _, EmptyString => None
  end.

(** [{:?}] of a [Vec<u32>]. *)
Definition debug_u32s (v : list N) : string := "[" +:+ Str.join ", " (map pretty v) +:+ "]".

(** [s.trim().is_empty()] *)
Definition is_blank (s : string) : bool := String.eqb (Str.trim s) "".

(** ** Lemmas *)

Lemma sort_strings_perm v : sort_strings v ≡ₚ v.
Proof. apply merge_sort_Permutation. Qed.

Lemma elem_of_sort_strings x v : x ∈ sort_strings v <-> x ∈ v.
Proof. by rewrite sort_strings_perm. Qed.

Lemma sort_strings_sorted v : StronglySorted String.le (sort_strings v).
Proof. apply StronglySorted_merge_sort; apply _. Qed.

Lemma sort_strings_nil v : sort_strings v = [] <-> v = [].
Proof.
  split; [|by intros ->]. intros E. pose proof (sort_strings_perm v) as P. rewrite E in P.
  by apply Permutation_nil_l in P.
Qed.

Lemma dedup_eq x y v :
  dedup (x :: y :: v) = if String.eqb x y then dedup (y :: v) else x :: dedup (y :: v).
Proof. reflexivity. Qed.

Lemma elem_of_dedup x v : x ∈ dedup v <-> x ∈ v.
Proof.
  induction v as [|y [|z v] IH]; [done..|]. rewrite dedup_eq.
  destruct (String.eqb_spec y z) as [->|Ne].
  - rewrite IH. set_solver.
  - rewrite !elem_of_cons in *. naive_solver.
Qed.

Lemma dedup_nil v : dedup v = [] <-> v = [].
Proof.
  split; [|by intros ->]. intros E. destruct v as [|x v]; [done|].
  assert (H : x ∈ dedup (x :: v)) by (apply elem_of_dedup; left).
  rewrite E in H. by apply elem_of_nil in H.
Qed.

(** A sorted vector is strictly sorted once deduplicated. *)
Lemma dedup_sorted v :
  StronglySorted String.le v -> StronglySorted (strict String.le) (dedup v).
Proof.
  induction v as [|x [|y v] IH]; intros S; [constructor|repeat constructor|].
  apply StronglySorted_inv in S as [S F]. rewrite dedup_eq.
  destruct (String.eqb_spec x y) as [->|Ne]; [by apply IH|].
  constructor; [by apply IH|]. apply Forall_forall. intros z Hz. rewrite elem_of_dedup in Hz.
  rewrite Forall_forall in F. split; [by apply F|]. intros Hzx.
  apply elem_of_cons in Hz as [->|Hz].
  - apply Ne. apply (anti_symm String.le); [|done]. apply F. left.
  - apply StronglySorted_inv in S as [_ G]. rewrite Forall_forall in G.
    apply Ne. apply (anti_symm String.le); [apply F; left|].
    transitivity z; [by apply G|done].
Qed.

(** A strictly sorted vector is determined by its elements. *)
Lemma strictly_sorted_unique (v w : list string) :
  StronglySorted (strict String.le) v -> StronglySorted (strict String.le) w ->
  (forall x, x ∈ v <-> x ∈ w) -> v = w.
Proof.
  assert (Hd : forall v x, StronglySorted (strict String.le) (x :: v) -> forall y, y ∈ v -> y <> x).
  { intros u x [_ F]%StronglySorted_inv y Hy ->. rewrite Forall_forall in F.
    destruct (F x Hy) as [? N]. by apply N. }
  revert w. induction v as [|x v IH]; intros [|y w] Sv Sw E.
  - done.
  - assert (H : y ∈ []) by (apply E; left). by apply elem_of_nil in H.
  - assert (H : x ∈ []) by (apply E; left). by apply elem_of_nil in H.
  - pose proof (Hd v x Sv) as Dv. pose proof (Hd w y Sw) as Dw.
    pose proof (StronglySorted_inv Sv) as [Sv' Fv]. pose proof (StronglySorted_inv Sw) as [Sw' Fw].
    rewrite Forall_forall in Fv, Fw.
    assert (x = y) as <-.
    { assert (Hx : x ∈ y :: w) by (apply E; left). assert (Hy : y ∈ x :: v) by (apply E; left).
      apply elem_of_cons in Hx as [|Hx]; [done|]. apply elem_of_cons in Hy as [|Hy]; [done|].
      destruct (Fv y Hy) as [? N]. destruct (Fw x Hx) as [? _]. by destruct N. }
    f_equal. apply IH; [done..|]. intros z. specialize (E z). rewrite !elem_of_cons in E.
    split; intros Hz; [destruct (proj1 E) as [->|]|destruct (proj2 E) as [->|]]; auto.
    + by destruct (Dv x Hz).
    + by destruct (Dw x Hz).
Qed.

(** Sorting and deduplicating forgets the order and the repetitions. *)
Lemma sort_dedup_canonical v w :
  (forall x, x ∈ v <-> x ∈ w) -> dedup (sort_strings v) = dedup (sort_strings w).
Proof.
  intros E. apply strictly_sorted_unique.
  1,2: apply dedup_sorted, sort_strings_sorted.
  intros x. by rewrite !elem_of_dedup, !elem_of_sort_strings.
Qed.

Lemma strip_prefix_Some p s r : strip_prefix p s = Some r <-> s = p +:+ r.
Proof.
  revert s. induction p as [|a p IH]; intros s; cbn; [naive_solver|].
  destruct s as [|b s]; [naive_solver|]. destruct (Ascii.eqb_spec a b) as [->|Ne].
  - rewrite IH. naive_solver.
  - naive_solver.
Qed.

Lemma replace_char_app from to a b :
  replace_char from to (a +:+ b) = replace_char from to a +:+ replace_char from to b.
Proof. induction a as [|c a IH]; cbn; [done|by f_equal]. Qed.

Lemma replace_char_absent from to s :
  Str.chars_all (fun c => negb (Ascii.eqb c from)) s = true -> replace_char from to s = s.
Proof.
  induction s as [|c s IH]; cbn; [done|]. rewrite andb_true_iff, negb_true_iff.
  intros [-> A]. f_equal. by apply IH.
Qed.

(** A decimal number holds none but digits. *)
Lemma pretty_no_char (n : N) (x : ascii) :
  Str.is_digit x = false -> Str.chars_all (fun c => negb (Ascii.eqb c x)) (pretty n) = true.
Proof.
  intros D. eapply Str.chars_all_impl; [|apply Str.pretty_digits]. cbn. intros c Hc.
  destruct (Ascii.eqb_spec c x); [subst; congruence|done].
Qed.

Lemma pretty_N_inj (m n : N) : pretty m = pretty n -> m = n.
Proof.
  intros E. pose proof (Str.digits_pretty m) as D. rewrite E, Str.digits_pretty in D. congruence.
Qed.
