(* ===== verification/Wire.v ===== *)
(** * Results and bounded collections read from a wire

    [result] is [Result<A, E>], with the monad instances that write [?] as a
    bind.  The visitors are those of trust-mc-core/src/evidence.rs: a sequence
    announces a size it may get wrong and hands out its elements one by one, and
    the visitor stops before it holds more than its limit. *)

From S2P Require Import Prelude.

(** ** Results *)

Inductive result (E A : Type) := Ok (a : A) | Err (e : E).
Arguments Ok {E A} a. Arguments Err {E A} e.

#[export] Instance result_ret {E} : MRet (result E) := fun _ a => Ok a.
#[export] Instance result_bind {E} : MBind (result E) := fun _ _ k r =>
  match r with Ok a => k a | Err e => Err e end.
#[export] Instance result_fmap {E} : FMap (result E) := fun _ _ f r =>
  match r with Ok a => Ok (f a) | Err e => Err e end.

Definition is_ok {E A} (r : result E A) : bool := match r with Ok _ => true | Err _ => false end.

(** [result.ok()] *)
Definition ok {E A} (r : result E A) : option A := match r with Ok a => Some a | Err _ => None end.

(** [option.ok_or(e)] *)
Definition ok_or {E A} (o : option A) (e : E) : result E A :=
  match o with Some a => Ok a | None => Err e end.

(** [option.map(f).transpose()] *)
Definition map_transpose {E A B} (f : A -> result E B) (o : option A) : result E (option B) :=
  match o with Some a => b ← f a; Ok (Some b) | None => Ok None end.

Lemma bind_Ok {E A B} (r : result E A) (k : A -> result E B) (b : B) :
  (r ≫= k) = Ok b <-> exists a, r = Ok a /\ k a = Ok b.
Proof. destruct r; cbn; naive_solver. Qed.

(** [for x in l { f(x)?; }] *)
Fixpoint try_for_each {E A} (f : A -> result E unit) (l : list A) : result E unit :=
  match l with [] => Ok tt | x :: l' => _ ← f x; try_for_each f l' end.

Lemma try_for_each_Ok {E A} (f : A -> result E unit) l :
  try_for_each f l = Ok tt <-> forall x, x ∈ l -> f x = Ok tt.
Proof.
  induction l as [|x l IH]; cbn.
  - split; [|done]. intros _ x Hx. by apply elem_of_nil in Hx.
  - rewrite bind_Ok. setoid_rewrite elem_of_cons. split.
    + intros ([] & Fx & Fl). intros y [->|Hy]; [done|]. by apply IH.
    + intros F. exists tt. split; [apply F; by left|]. apply IH. auto.
Qed.

(** [if b { return Err(e) }] *)
Definition refuse {E} (b : bool) (e : E) : result E unit := if b then Err e else Ok tt.

Lemma refuse_Ok {E} b (e : E) : refuse b e = Ok tt <-> b = false.
Proof. by destruct b. Qed.

(** Collects the facts behind a successful chain of binds. *)
Ltac invert_ok :=
  repeat match goal with
  | H : (_ ≫= _) = Ok _ |- _ => apply bind_Ok in H as (? & ? & ?)
  | H : Ok _ = Ok _ |- _ => injection H as H; try subst
  | H : Err _ = Ok _ |- _ => discriminate H
  | H : Ok _ = Err _ |- _ => discriminate H
  end.

(** ** Bounded sequences *)

Section Visitor.
Context {E T : Type} (custom : string -> E) (limit : string) (MAX : N).

(** The loop of [visit_seq]: an element is read, then refused when the limit is
    already held. *)
Fixpoint visit_elements (values : list T) (sequence : list (result E T)) : result E (list T) :=
  match sequence with
  | [] => Ok values
  | Err e :: _ => Err e
  | Ok value :: rest =>
      if N.eqb (N.of_nat (length values)) MAX then Err (custom limit)
      else visit_elements (values ++ [value]) rest
  end.

(** [visit_seq]: a size hint beyond the limit is refused before any element is
    read. *)
Definition visit_seq (size_hint : option N) (sequence : list (result E T)) : result E (list T) :=
  match size_hint with
  | Some size => if N.ltb MAX size then Err (custom limit) else visit_elements [] sequence
  | None => visit_elements [] sequence
  end.

(** [Vec::with_capacity(size_hint.unwrap_or(0).min(MAX))]: the elements that are
    allocated in advance. *)
Definition initial_capacity (size_hint : option N) : N := N.min (default 0%N size_hint) MAX.

Lemma visit_elements_Ok values sequence l :
  (N.of_nat (length values) <= MAX)%N ->
  visit_elements values sequence = Ok l <->
  exists ts, sequence = map Ok ts /\ l = values ++ ts /\ (N.of_nat (length l) <= MAX)%N.
Proof.
  revert values. induction sequence as [|[t|e] sequence IH]; intros values B; cbn [visit_elements].
  - split.
    + intros [= <-]. exists []. by rewrite app_nil_r.
    + intros (ts & E1 & -> & _). destruct ts; [by rewrite app_nil_r|discriminate].
  - destruct (N.eqb_spec (N.of_nat (length values)) MAX) as [Eq|Ne].
    + split; [discriminate|]. intros (ts & E1 & -> & B'). destruct ts; [discriminate|].
      rewrite length_app in B'. cbn in B'. lia.
    + rewrite IH by (rewrite length_app; cbn; lia). split.
      * intros (ts & -> & -> & B'). exists (t :: ts). by rewrite <- app_assoc in *.
      * intros (ts & E1 & -> & B'). destruct ts as [|t' ts]; [discriminate|].
        injection E1 as <- ->. exists ts. by rewrite <- app_assoc.
  - split; [discriminate|]. intros (ts & E1 & _). by destruct ts.
Qed.

(** What is accepted is the sequence, within the limit. *)
Lemma visit_seq_Ok size_hint sequence l :
  visit_seq size_hint sequence = Ok l <->
  sequence = map Ok l /\ (N.of_nat (length l) <= MAX)%N /\ (default 0%N size_hint <= MAX)%N.
Proof.
  assert (G : visit_elements [] sequence = Ok l <-> sequence = map Ok l /\ (N.of_nat (length l) <= MAX)%N).
  { rewrite visit_elements_Ok by (cbn; lia). split.
    - intros (ts & -> & -> & B). done.
    - intros [-> B]. by exists l. }
  unfold visit_seq. destruct size_hint as [size|]; cbn.
  - destruct (N.ltb_spec MAX size); [split; [discriminate|lia]|]. rewrite G. tauto.
  - rewrite G. assert (0 <= MAX)%N by lia. tauto.
Qed.

(** However long the input is, nothing after the element that crosses the limit
    is read. *)
Lemma visit_elements_reads ts rest values :
  N.of_nat (length values + length ts) = (MAX + 1)%N -> (N.of_nat (length values) <= MAX)%N ->
  visit_elements values (map Ok ts ++ rest) = Err (custom limit).
Proof.
  revert values. induction ts as [|t ts IH]; intros values L B; cbn in *; [lia|].
  destruct (N.eqb_spec (N.of_nat (length values)) MAX) as [Eq|Ne]; [done|].
  apply IH; rewrite length_app; cbn; lia.
Qed.

End Visitor.

(** ** Property *)

(** a hostile wire cannot make the reader hold more than its limit.  The
    visitor accepts exactly the error-free sequences that fit in the limit and
    announce no more than it; a sequence with one element too many is refused
    whatever follows that element, so nothing behind it is read; and what is
    allocated in advance is within the limit whatever size is announced. *)
Theorem bounded_visitor {E T} (custom : string -> E) limit MAX size_hint
    (sequence rest : list (result E T)) l :
  (visit_seq custom limit MAX size_hint sequence = Ok l <->
     sequence = map Ok l /\ (N.of_nat (length l) <= MAX)%N /\ (default 0%N size_hint <= MAX)%N) /\
  (N.of_nat (length l) = (MAX + 1)%N ->
     visit_seq custom limit MAX size_hint (map Ok l ++ rest) = Err (custom limit)) /\
  (initial_capacity MAX size_hint <= MAX)%N.
Proof.
  split; [apply visit_seq_Ok|]. split; [|unfold initial_capacity; lia].
  intros L. unfold visit_seq. destruct size_hint as [size|]; [case_match; [done|]|];
    by apply visit_elements_reads; cbn; lia.
Qed.
