(* ===== verification/Digest.v ===== *)
(** * Digests

    [EvidenceHash] of trust-mc-core/src/evidence.rs.  The hash function is the
    external crate [sha2]: the class [Sha256] is its lowercase hexadecimal digest
    of a byte string, of which only the documented format is assumed.  Nothing is
    assumed about collisions; where two inputs have to be the same the theorems say
    "or these two, which the program hashed, collide". *)

From S2P Require Import Prelude Wire.

(** ** Hexadecimal text *)

Definition SHA256_HEX_LEN : N := 64.

Definition len (s : string) : N := N.of_nat (String.length s).

Definition between (lo hi : ascii) (c : ascii) : bool :=
  Nat.leb (nat_of_ascii lo) (nat_of_ascii c) && Nat.leb (nat_of_ascii c) (nat_of_ascii hi).

(** [byte.is_ascii_hexdigit()] *)
Definition is_ascii_hexdigit (c : ascii) : bool :=
  between "0" "9" c || between "a" "f" c || between "A" "F" c.

(** [byte.is_ascii_uppercase()] *)
Definition is_ascii_uppercase (c : ascii) : bool := between "A" "Z" c.

(** [s.to_ascii_lowercase()] *)
Definition lower (c : ascii) : ascii :=
  if is_ascii_uppercase c then ascii_of_nat (nat_of_ascii c + 32) else c.
Fixpoint to_ascii_lowercase (s : string) : string :=
  match s with EmptyString => EmptyString | String c s' => String (lower c) (to_ascii_lowercase s') end.

(** [is_canonical_sha256_hex] *)
Definition is_canonical_sha256_hex (value : string) : bool :=
  N.eqb (len value) SHA256_HEX_LEN &&
  Str.chars_all (fun byte => is_ascii_hexdigit byte && negb (is_ascii_uppercase byte)) value.

(** [format!("{:x}", Sha256::digest(bytes))] *)
Class Sha256 := {
  digest_hex : string -> string;
  digest_hex_canonical : forall bytes, is_canonical_sha256_hex (digest_hex bytes) = true;
}.

(** A collision between two given inputs.  (That there is one between some inputs is true of
    every function with digests of one length.) *)
Definition collides `{Sha256} (x y : string) : Prop := x <> y /\ digest_hex x = digest_hex y.

(** ** EvidenceHash *)

(** [struct EvidenceHash] *)
Record EvidenceHash := { algorithm : string; hash_value : string }.

#[export] Instance EvidenceHash_eq_dec : EqDecision EvidenceHash.
Proof. solve_decision. Defined.
#[export] Instance EvidenceHash_countable : Countable EvidenceHash.
Proof.
  refine (inj_countable' (fun h => (algorithm h, hash_value h))
            (fun p => {| algorithm := p.1; hash_value := p.2 |}) _).
  by intros [].
Defined.

(** [enum EvidenceHashError] *)
Inductive EvidenceHashError :=
  | InvalidLength (expected actual : N)
  | InvalidHex.

(** [EvidenceHash::sha256_bytes] *)
Definition sha256_bytes `{Sha256} (bytes : string) : EvidenceHash :=
  {| algorithm := "sha256"; hash_value := digest_hex bytes |}.

(** [EvidenceHash::sha256_hex] *)
Definition sha256_hex (hex : string) : result EvidenceHashError EvidenceHash :=
  let value := to_ascii_lowercase hex in
  if negb (N.eqb (len value) SHA256_HEX_LEN) then Err (InvalidLength SHA256_HEX_LEN (len value))
  else if negb (Str.chars_all is_ascii_hexdigit value) then Err InvalidHex
  else Ok {| algorithm := "sha256"; hash_value := value |}.

(** [EvidenceHash::is_canonical_sha256] *)
Definition is_canonical_sha256 (h : EvidenceHash) : bool :=
  String.eqb (algorithm h) "sha256" && is_canonical_sha256_hex (hash_value h).

(** [Sha256AlgorithmVisitor::visit_str] *)
Definition deserialize_sha256_algorithm (value : string) : result string string :=
  if negb (String.eqb value "sha256") then Err "evidence digest algorithm must be exactly `sha256`"
  else Ok "sha256".

(** [CanonicalSha256HexVisitor::visit_str] *)
Definition deserialize_canonical_sha256_hex (value : string) : result string string :=
  if negb (is_canonical_sha256_hex value)
  then Err "evidence digest must be exactly 64 lowercase hexadecimal characters"
  else Ok value.

(** [EvidenceHashWire] and [impl Deserialize for EvidenceHash]: the two fields of
    the wire form, in this order. *)
Definition deserialize_EvidenceHash (wire_algorithm wire_value : string)
    : result string EvidenceHash :=
  a ← deserialize_sha256_algorithm wire_algorithm;
  v ← deserialize_canonical_sha256_hex wire_value;
  Ok {| algorithm := a; hash_value := v |}.

(** ** Lemmas *)

Lemma sha256_bytes_canonical `{Sha256} bytes : is_canonical_sha256 (sha256_bytes bytes) = true.
Proof. unfold is_canonical_sha256. cbn. apply digest_hex_canonical. Qed.

Lemma sha256_bytes_inj `{Sha256} x y : sha256_bytes x = sha256_bytes y -> x = y \/ collides x y.
Proof.
  intros [= E]. destruct (decide (x = y)) as [|Ne]; [by left|right]. by split.
Qed.

Lemma lower_hexdigit c :
  is_ascii_hexdigit (lower c) = is_ascii_hexdigit c /\ is_ascii_uppercase (lower c) = false.
Proof. destruct c as [[] [] [] [] [] [] [] []]; vm_compute; done. Qed.

Lemma lower_id c : is_ascii_uppercase c = false -> lower c = c.
Proof. unfold lower. by intros ->. Qed.

Lemma length_lowercase s : String.length (to_ascii_lowercase s) = String.length s.
Proof. induction s as [|c s IH]; cbn; [done|by f_equal]. Qed.

Lemma lowercase_hex s :
  Str.chars_all is_ascii_hexdigit (to_ascii_lowercase s) = Str.chars_all is_ascii_hexdigit s /\
  Str.chars_all (fun c => is_ascii_hexdigit c && negb (is_ascii_uppercase c)) (to_ascii_lowercase s)
    = Str.chars_all is_ascii_hexdigit s.
Proof.
  induction s as [|c s [IH1 IH2]]; cbn [to_ascii_lowercase Str.chars_all]; [done|].
  destruct (lower_hexdigit c) as [-> ->]. by rewrite IH1, IH2, andb_true_r.
Qed.

Lemma lowercase_canonical s : is_canonical_sha256_hex s = true -> to_ascii_lowercase s = s.
Proof.
  unfold is_canonical_sha256_hex. intros [_ A]%andb_true_iff.
  induction s as [|c s IH]; cbn in *; [done|].
  apply andb_true_iff in A as [[_ U%negb_true_iff]%andb_true_iff A].
  rewrite lower_id by done. f_equal. by apply IH.
Qed.

Lemma deserialize_EvidenceHash_Ok a v h :
  deserialize_EvidenceHash a v = Ok h <->
  h = {| algorithm := a; hash_value := v |} /\ is_canonical_sha256 h = true.
Proof.
  unfold deserialize_EvidenceHash, deserialize_sha256_algorithm, deserialize_canonical_sha256_hex,
    is_canonical_sha256. cbn [mbind result_bind].
  destruct (String.eqb_spec a "sha256") as [->|Ne]; cbn.
  - destruct (is_canonical_sha256_hex v) eqn:C; cbn.
    + split; [by intros [= <-]|]. by intros [-> _].
    + split; [discriminate|]. intros [-> A]. cbn in A. rewrite C in A. discriminate.
  - split; [discriminate|]. intros [-> A]. cbn in A.
    destruct (String.eqb_spec a "sha256"); [contradiction|discriminate].
Qed.

Lemma sha256_hex_Ok hex h :
  sha256_hex hex = Ok h <->
  len hex = SHA256_HEX_LEN /\ Str.chars_all is_ascii_hexdigit hex = true /\
  h = {| algorithm := "sha256"; hash_value := to_ascii_lowercase hex |}.
Proof.
  unfold sha256_hex, len. rewrite length_lowercase. destruct (lowercase_hex hex) as [-> _].
  destruct (N.eqb_spec (N.of_nat (String.length hex)) SHA256_HEX_LEN) as [L|L]; cbn [negb].
  - destruct (Str.chars_all is_ascii_hexdigit hex); cbn [negb]; naive_solver.
  - naive_solver.
Qed.

(** ** Property *)

(** a digest has one written form.  Reading a digest from the wire accepts
    exactly the canonical form (the algorithm [sha256] and 64 lowercase
    hexadecimal characters) and returns it unchanged, so writing and reading is
    the identity on the digests that exist.  Building one from text accepts
    either case and always yields a canonical digest, the same one as reading
    when the text is canonical. *)
Theorem digest_roundtrip (a v : string) (h : EvidenceHash) :
  (deserialize_EvidenceHash a v = Ok h <->
     h = {| algorithm := a; hash_value := v |} /\ is_canonical_sha256 h = true) /\
  (sha256_hex v = Ok h -> is_canonical_sha256 h = true /\
     deserialize_EvidenceHash (algorithm h) (hash_value h) = Ok h /\
     (is_canonical_sha256_hex v = true -> hash_value h = v)) /\
  (is_ok (sha256_hex v) = true <->
     len v = SHA256_HEX_LEN /\ Str.chars_all is_ascii_hexdigit v = true).
Proof.
  split; [apply deserialize_EvidenceHash_Ok|]. split.
  - intros (L & A & ->)%sha256_hex_Ok.
    assert (C : is_canonical_sha256 {| algorithm := "sha256"; hash_value := to_ascii_lowercase v |} = true).
    { unfold is_canonical_sha256, is_canonical_sha256_hex, len in *. cbn [algorithm hash_value].
      rewrite length_lowercase, L. destruct (lowercase_hex v) as [_ ->]. by rewrite A. }
    split; [exact C|]. split; [by apply deserialize_EvidenceHash_Ok|]. apply lowercase_canonical.
  - split.
    + destruct (sha256_hex v) as [h'|] eqn:E; [|discriminate]. by apply sha256_hex_Ok in E as (? & ? & _).
    + intros [L A]. assert (sha256_hex v = Ok {| algorithm := "sha256"; hash_value := to_ascii_lowercase v |})
        as -> by (by apply sha256_hex_Ok). done.
Qed.

(** ** A concrete digest function *)

(** A stand-in with the format of SHA-256 and many collisions. *)
Module Sample.

Fixpoint rep (n : nat) (c : ascii) : string :=
  match n with O => EmptyString | S n' => String c (rep n' c) end.

Definition toy_digest (bytes : string) : string :=
  match bytes with
  | EmptyString => rep 64 "0"
  | String c s => rep 62 "a" +:+ String (if Nat.even (nat_of_ascii c) then "b" else "c")
                                   (String (if Nat.even (String.length s) then "d" else "e") "")
  end.

#[export, program] Instance toy : Sha256 := {| digest_hex := toy_digest |}.
Next Obligation.
  intros bytes. destruct bytes as [|c s]; [done|]. unfold toy_digest.
  destruct (Nat.even (nat_of_ascii c)), (Nat.even (String.length s)); vm_compute; done.
Qed.

End Sample.
