(* ===== verification/NativeMetadata.v ===== *)
(** * Native obligation metadata

    [NativeTypedChcObligationMetadata] of trust-mc-core/src/evidence.rs and its
    validation against the obligation id it is submitted with.  A [u32] or
    [usize] is an [N].  A function that pushes on [errors] returns what it pushes. *)

From S2P Require Import Prelude Text Wire Digest.

(** ** Data *)

(** [struct NativeArtifactDigest]; the algorithm need not be SHA-256. *)
Record NativeArtifactDigest := { nd_algorithm : string; nd_value : string }.

(** [enum NativeCompilerFactKind] *)
Inductive NativeCompilerFactKind :=
  | AdtLayout | FatPointer | TraitObjectMetadata | PointerOffset | Cast | Monomorphization.

(** [struct NativeCompilerFactReference] *)
Record NativeCompilerFactReference := { ref_kind : NativeCompilerFactKind; ref_id : N }.

(** [struct NativeCompilerFactCounts] *)
Record NativeCompilerFactCounts := {
  adt_layouts : N; fat_pointers : N; trait_object_metadata : N; pointer_offsets : N;
  casts : N; monomorphizations : N; obligation_sources : N }.

(** [NativeCompilerFactCounts::count_for] *)
Definition count_for (self : NativeCompilerFactCounts) (kind : NativeCompilerFactKind) : N :=
  match kind with
  | AdtLayout => adt_layouts self
  | FatPointer => fat_pointers self
  | TraitObjectMetadata => trait_object_metadata self
  | PointerOffset => pointer_offsets self
  | Cast => casts self
  | Monomorphization => monomorphizations self
  end.

(** [struct NativeSourceSpanMetadata] *)
Record NativeSourceSpanMetadata := { span_file : N; span_line : N; span_col : N }.

(** [enum NativeObligationCauseMetadata] *)
Inductive NativeObligationCauseMetadata :=
  | Precondition | Postcondition | Assert | BoundsCheck | OverflowCheck | LayoutCheck
  | CastCheck | CausePointerOffset | BorrowCheck | Translation | Panic | OtherCause.

(** [struct NativeObligationCompilerFacts] *)
Record NativeObligationCompilerFacts := {
  src_proof_obligation_id : N;
  src_function_id : option N;
  src_span : option NativeSourceSpanMetadata;
  src_cause : NativeObligationCauseMetadata;
  src_monomorphization_id : option N;
  fact_refs : list NativeCompilerFactReference }.

(** [struct NativeReplayIdentityMetadata] *)
Record NativeReplayIdentityMetadata := {
  engine : string; invocation : string; transcript_digest : NativeArtifactDigest }.

(** [enum NativeReplayAtomKindMetadata] *)
Inductive NativeReplayAtomKindMetadata := Assumption | Assertion.

(** [struct NativeReplayAtomMetadata] *)
Record NativeReplayAtomMetadata := {
  atom_id : N;
  atom_kind : NativeReplayAtomKindMetadata;
  formula_schema : string;
  payload_digest : NativeArtifactDigest;
  atom_proof_obligation_id : option N;
  assertion_id : option N;
  atom_span : option NativeSourceSpanMetadata }.

(** [struct NativeUnsupportedModeMetadata] *)
Record NativeUnsupportedModeMetadata := { um_reason : string; um_detail : string }.

(** [struct NativeReplayContextMetadata] *)
Record NativeReplayContextMetadata := {
  atoms : list NativeReplayAtomMetadata;
  unsupported_modes : list NativeUnsupportedModeMetadata }.

(** [struct NativeTypedChcObligationMetadata] *)
Record NativeTypedChcObligationMetadata := {
  schema_version : N;
  producer : string;
  adapter_input : string;
  source_digest : option NativeArtifactDigest;
  trust_ir_module_digest : NativeArtifactDigest;
  lineage_manifest_digest : NativeArtifactDigest;
  native_request_id : N;
  verification_mode : string;
  function_id : N;
  proof_obligation_ids : list N;
  lineage_root_ids : list N;
  compiler_facts_digest : option NativeArtifactDigest;
  compiler_fact_counts : NativeCompilerFactCounts;
  compiler_fact_sources : list NativeObligationCompilerFacts;
  replay_identity : option NativeReplayIdentityMetadata;
  replay_context : NativeReplayContextMetadata;
  structural_reachability_complete : bool;
  fail_closed_lowering_site_count : N;
  fail_closed_lowering_reasons : list string }.

#[export] Instance NativeArtifactDigest_eq_dec : EqDecision NativeArtifactDigest.
Proof. solve_decision. Defined.
#[export] Instance NativeCompilerFactKind_eq_dec : EqDecision NativeCompilerFactKind.
Proof. solve_decision. Defined.
#[export] Instance NativeReplayAtomKindMetadata_eq_dec : EqDecision NativeReplayAtomKindMetadata.
Proof. solve_decision. Defined.
#[export] Instance NativeCompilerFactReference_eq_dec : EqDecision NativeCompilerFactReference.
Proof. solve_decision. Defined.

Definition kind_code (k : NativeCompilerFactKind) : N :=
  match k with
  | AdtLayout => 0 | FatPointer => 1 | TraitObjectMetadata => 2 | PointerOffset => 3
  | Cast => 4 | Monomorphization => 5
  end.
Definition kind_of_code (n : N) : NativeCompilerFactKind :=
  match n with
  | 0 => AdtLayout | 1 => FatPointer | 2 => TraitObjectMetadata | 3 => PointerOffset
  | 4 => Cast | _ => Monomorphization
  end%N.

#[export] Instance NativeCompilerFactReference_countable : Countable NativeCompilerFactReference.
Proof.
  refine (inj_countable' (fun r => (kind_code (ref_kind r), ref_id r))
            (fun p => {| ref_kind := kind_of_code p.1; ref_id := p.2 |}) _).
  by intros [[] ?].
Defined.

(** ** Construction *)

Definition SCHEMA_VERSION : N := 3.

Definition default_counts : NativeCompilerFactCounts :=
  {| adt_layouts := 0; fat_pointers := 0; trait_object_metadata := 0; pointer_offsets := 0;
     casts := 0; monomorphizations := 0; obligation_sources := 0 |}.

(** [NativeTypedChcObligationMetadata::new] *)
Definition new (producer adapter_input : string) (source_digest : option NativeArtifactDigest)
    (trust_ir_module_digest lineage_manifest_digest : NativeArtifactDigest) (native_request_id : N)
    (verification_mode : string) (function_id : N) (proof_obligation_ids lineage_root_ids : list N)
    : NativeTypedChcObligationMetadata :=
  {| schema_version := SCHEMA_VERSION; producer := producer; adapter_input := adapter_input;
     source_digest := source_digest; trust_ir_module_digest := trust_ir_module_digest;
     lineage_manifest_digest := lineage_manifest_digest; native_request_id := native_request_id;
     verification_mode := verification_mode; function_id := function_id;
     proof_obligation_ids := proof_obligation_ids; lineage_root_ids := lineage_root_ids;
     compiler_facts_digest := None; compiler_fact_counts := default_counts;
     compiler_fact_sources := []; replay_identity := None;
     replay_context := {| atoms := []; unsupported_modes := [] |};
     structural_reachability_complete := false; fail_closed_lowering_site_count := 0;
     fail_closed_lowering_reasons := [] |}.

(** [with_compiler_facts] *)
Definition with_compiler_facts (digest : NativeArtifactDigest) (counts : NativeCompilerFactCounts)
    (sources : list NativeObligationCompilerFacts) (m : NativeTypedChcObligationMetadata)
    : NativeTypedChcObligationMetadata :=
  {| schema_version := schema_version m; producer := producer m; adapter_input := adapter_input m;
     source_digest := source_digest m; trust_ir_module_digest := trust_ir_module_digest m;
     lineage_manifest_digest := lineage_manifest_digest m; native_request_id := native_request_id m;
     verification_mode := verification_mode m; function_id := function_id m;
     proof_obligation_ids := proof_obligation_ids m; lineage_root_ids := lineage_root_ids m;
     compiler_facts_digest := Some digest; compiler_fact_counts := counts;
     compiler_fact_sources := sources; replay_identity := replay_identity m;
     replay_context := replay_context m;
     structural_reachability_complete := structural_reachability_complete m;
     fail_closed_lowering_site_count := fail_closed_lowering_site_count m;
     fail_closed_lowering_reasons := fail_closed_lowering_reasons m |}.

(** [with_replay_metadata] *)
Definition with_replay_metadata (identity : NativeReplayIdentityMetadata)
    (context : NativeReplayContextMetadata) (m : NativeTypedChcObligationMetadata)
    : NativeTypedChcObligationMetadata :=
  {| schema_version := schema_version m; producer := producer m; adapter_input := adapter_input m;
     source_digest := source_digest m; trust_ir_module_digest := trust_ir_module_digest m;
     lineage_manifest_digest := lineage_manifest_digest m; native_request_id := native_request_id m;
     verification_mode := verification_mode m; function_id := function_id m;
     proof_obligation_ids := proof_obligation_ids m; lineage_root_ids := lineage_root_ids m;
     compiler_facts_digest := compiler_facts_digest m;
     compiler_fact_counts := compiler_fact_counts m;
     compiler_fact_sources := compiler_fact_sources m; replay_identity := Some identity;
     replay_context := context;
     structural_reachability_complete := structural_reachability_complete m;
     fail_closed_lowering_site_count := fail_closed_lowering_site_count m;
     fail_closed_lowering_reasons := fail_closed_lowering_reasons m |}.

(** The diagnostic claims: [with_structural_reachability_complete],
    [with_fail_closed_lowering_site_count], [with_fail_closed_lowering_reasons]. *)
Definition with_diagnostics (complete : bool) (count : N) (reasons : list string)
    (m : NativeTypedChcObligationMetadata) : NativeTypedChcObligationMetadata :=
  {| schema_version := schema_version m; producer := producer m; adapter_input := adapter_input m;
     source_digest := source_digest m; trust_ir_module_digest := trust_ir_module_digest m;
     lineage_manifest_digest := lineage_manifest_digest m; native_request_id := native_request_id m;
     verification_mode := verification_mode m; function_id := function_id m;
     proof_obligation_ids := proof_obligation_ids m; lineage_root_ids := lineage_root_ids m;
     compiler_facts_digest := compiler_facts_digest m;
     compiler_fact_counts := compiler_fact_counts m;
     compiler_fact_sources := compiler_fact_sources m; replay_identity := replay_identity m;
     replay_context := replay_context m;
     structural_reachability_complete := complete; fail_closed_lowering_site_count := count;
     fail_closed_lowering_reasons := reasons |}.

Definition with_structural_reachability_complete (complete : bool)
    (m : NativeTypedChcObligationMetadata) : NativeTypedChcObligationMetadata :=
  with_diagnostics complete (fail_closed_lowering_site_count m) (fail_closed_lowering_reasons m) m.
Definition with_fail_closed_lowering_site_count (count : N)
    (m : NativeTypedChcObligationMetadata) : NativeTypedChcObligationMetadata :=
  with_diagnostics (structural_reachability_complete m) count (fail_closed_lowering_reasons m) m.
Definition with_fail_closed_lowering_reasons (reasons : list string)
    (m : NativeTypedChcObligationMetadata) : NativeTypedChcObligationMetadata :=
  with_diagnostics (structural_reachability_complete m) (fail_closed_lowering_site_count m)
    (dedup (sort_strings reasons)) m.

(** [expected_obligation_id] *)
Definition expected_obligation_id (self : NativeTypedChcObligationMetadata) : string :=
  match proof_obligation_ids self with
  | [only] => "trust_ir-native-trust_mc-request-" +:+ pretty (native_request_id self)
              +:+ "-proof-" +:+ pretty only
  | _ => "trust_ir-native-trust_mc-request-" +:+ pretty (native_request_id self)
  end.

(** ** Validation *)

(** [if b { errors.push(msg) }] *)
Definition push_if (b : bool) (msg : string) : list string := if b then [msg] else [].

(** [validate_native_artifact_digest] *)
Definition validate_native_artifact_digest (role : string) (digest : NativeArtifactDigest)
    : list string :=
  push_if (is_blank (nd_algorithm digest))
    ("native typed CHC metadata " +:+ role +:+ " is missing a digest algorithm") ++
  (if is_blank (nd_value digest)
   then ["native typed CHC metadata " +:+ role +:+ " is missing a digest value"]
   else if negb (Str.chars_all is_ascii_hexdigit (nd_value digest))
   then ["native typed CHC metadata " +:+ role +:+ " digest must be hexadecimal"]
   else if negb (Str.chars_all (fun byte => negb (is_ascii_uppercase byte)) (nd_value digest))
   then ["native typed CHC metadata " +:+ role +:+ " digest must be lowercase"]
   else []).

(** One atom of [validate_native_replay_metadata]; [seen] is [atom_ids]. *)
Definition validate_atom (m : NativeTypedChcObligationMetadata) (seen : gset N)
    (atom : NativeReplayAtomMetadata) : list string :=
  let id := pretty (atom_id atom) in
  let is_none {A} (o : option A) := match o with None => true | Some _ => false end in
  push_if (bool_decide (atom_id atom ∈ seen))
    ("native typed CHC metadata has duplicate replay atom " +:+ id) ++
  push_if (is_blank (formula_schema atom))
    ("native typed CHC metadata replay atom " +:+ id +:+ " is missing formula schema") ++
  validate_native_artifact_digest "replay_context.atom.payload_digest" (payload_digest atom) ++
  push_if (bool_decide (atom_kind atom = Assertion) && is_none (atom_proof_obligation_id atom)
           && is_none (assertion_id atom))
    ("native typed CHC metadata replay assertion atom " +:+ id +:+ " is missing assertion binding") ++
  push_if (negb (is_none (assertion_id atom)) && is_none (atom_proof_obligation_id atom))
    ("native typed CHC metadata replay atom " +:+ id +:+
     " has assertion id without proof obligation") ++
  push_if (negb (is_none (atom_span atom)) && is_none (atom_proof_obligation_id atom))
    ("native typed CHC metadata replay atom " +:+ id +:+
     " has source span without proof obligation") ++
  match atom_proof_obligation_id atom with
  | Some obligation =>
      push_if (negb (bool_decide (obligation ∈ proof_obligation_ids m)))
        ("native typed CHC metadata replay atom " +:+ id +:+ " references proof obligation "
         +:+ pretty obligation +:+ ", which is outside proof_obligation_ids "
         +:+ debug_u32s (proof_obligation_ids m))
  | None => []
  end.

Fixpoint validate_atoms (m : NativeTypedChcObligationMetadata) (seen : gset N)
    (l : list NativeReplayAtomMetadata) : list string :=
  match l with
  | [] => []
  | atom :: l' => validate_atom m seen atom ++ validate_atoms m ({[atom_id atom]} ∪ seen) l'
  end.

(** [validate_native_replay_metadata] *)
Definition validate_native_replay_metadata (m : NativeTypedChcObligationMetadata) : list string :=
  match replay_identity m with
  | Some identity =>
      push_if (is_blank (engine identity))
        "native typed CHC metadata replay identity is missing engine" ++
      push_if (is_blank (invocation identity))
        "native typed CHC metadata replay identity is missing invocation" ++
      validate_native_artifact_digest "replay_identity.transcript_digest" (transcript_digest identity)
  | None => ["native typed CHC metadata is missing replay identity"]
  end ++
  map (fun u => "native typed CHC metadata contains unsupported replay mode `" +:+ um_reason u
                +:+ "`: " +:+ um_detail u) (unsupported_modes (replay_context m)) ++
  validate_atoms m ∅ (atoms (replay_context m)).

(** [{:?}] *)
Definition debug_kind (k : NativeCompilerFactKind) : string :=
  match k with
  | AdtLayout => "AdtLayout" | FatPointer => "FatPointer"
  | TraitObjectMetadata => "TraitObjectMetadata" | PointerOffset => "PointerOffset"
  | Cast => "Cast" | Monomorphization => "Monomorphization"
  end.
Definition debug_ref (r : NativeCompilerFactReference) : string :=
  "NativeCompilerFactReference { kind: " +:+ debug_kind (ref_kind r) +:+ ", id: "
  +:+ pretty (ref_id r) +:+ " }".

(** The inner loop of [validate_native_compiler_fact_sources]: one reference;
    [seen] is [source_refs]. *)
Definition validate_ref (m : NativeTypedChcObligationMetadata) (obligation : N)
    (seen : gset NativeCompilerFactReference) (r : NativeCompilerFactReference) : list string :=
  let available := count_for (compiler_fact_counts m) (ref_kind r) in
  push_if (bool_decide (r ∈ seen))
    ("native typed CHC metadata has duplicate compiler_facts reference " +:+ debug_ref r
     +:+ " for proof obligation " +:+ pretty obligation) ++
  (if N.eqb available 0
   then ["native typed CHC metadata references " +:+ debug_kind (ref_kind r) +:+ " compiler fact "
         +:+ pretty (ref_id r) +:+ ", but compiler_fact_counts reports none for that kind"]
   else push_if (N.leb available (ref_id r))
          ("native typed CHC metadata references " +:+ debug_kind (ref_kind r) +:+ " compiler fact "
           +:+ pretty (ref_id r) +:+ ", but compiler_fact_counts reports only ids 0.."
           +:+ pretty (available - 1)%N +:+ " for that kind")).

Fixpoint validate_refs (m : NativeTypedChcObligationMetadata) (obligation : N)
    (seen : gset NativeCompilerFactReference) (l : list NativeCompilerFactReference) : list string :=
  match l with
  | [] => []
  | r :: l' => validate_ref m obligation seen r ++ validate_refs m obligation ({[r]} ∪ seen) l'
  end.

(** The loop over the sources; [seen] is [source_obligations]. *)
Fixpoint validate_sources (m : NativeTypedChcObligationMetadata) (seen : gset N)
    (l : list NativeObligationCompilerFacts) : list string :=
  match l with
  | [] => []
  | source :: l' =>
      let id := src_proof_obligation_id source in
      push_if (negb (bool_decide (id ∈ proof_obligation_ids m)))
        ("native typed CHC metadata compiler_facts source references proof obligation "
         +:+ pretty id +:+ ", which is outside proof_obligation_ids "
         +:+ debug_u32s (proof_obligation_ids m)) ++
      push_if (bool_decide (id ∈ seen))
        ("native typed CHC metadata has duplicate compiler_facts source for proof obligation "
         +:+ pretty id) ++
      validate_refs m id ∅ (fact_refs source) ++
      validate_sources m ({[id]} ∪ seen) l'
  end.

Definition fact_kinds : list NativeCompilerFactKind :=
  [AdtLayout; FatPointer; TraitObjectMetadata; PointerOffset; Cast; Monomorphization].

(** [refs_by_kind.iter().filter(|r| r.kind == kind).count()] *)
Definition referenced (m : NativeTypedChcObligationMetadata) (kind : NativeCompilerFactKind) : N :=
  N.of_nat (size (filter (fun r => ref_kind r = kind)
    (list_to_set (flat_map fact_refs (compiler_fact_sources m)) : gset NativeCompilerFactReference))).

Definition source_ids (m : NativeTypedChcObligationMetadata) : list N :=
  map src_proof_obligation_id (compiler_fact_sources m).

(** [validate_native_compiler_fact_sources] *)
Definition validate_native_compiler_fact_sources (m : NativeTypedChcObligationMetadata)
    : list string :=
  let sources := N.of_nat (length (compiler_fact_sources m)) in
  push_if (N.ltb (obligation_sources (compiler_fact_counts m)) sources)
    ("native typed CHC metadata carries " +:+ pretty sources
     +:+ " compiler_facts obligation sources, but counts report only "
     +:+ pretty (obligation_sources (compiler_fact_counts m))) ++
  validate_sources m ∅ (compiler_fact_sources m) ++
  flat_map (fun obligation =>
    push_if (negb (bool_decide (obligation ∈ source_ids m)))
      ("native typed CHC metadata is missing compiler_facts source for proof obligation "
       +:+ pretty obligation)) (proof_obligation_ids m) ++
  flat_map (fun kind =>
    push_if (N.ltb (count_for (compiler_fact_counts m) kind) (referenced m kind))
      ("native typed CHC metadata references " +:+ pretty (referenced m kind) +:+ " distinct "
       +:+ debug_kind kind +:+ " compiler facts, but compiler_fact_counts reports only "
       +:+ pretty (count_for (compiler_fact_counts m) kind))) fact_kinds.

(** The errors of [validate_for_obligation_id], in order. *)
Definition obligation_errors (self : NativeTypedChcObligationMetadata) (obligation_id : string)
    : list string :=
  push_if (negb (N.eqb (schema_version self) SCHEMA_VERSION))
    ("unsupported native typed CHC metadata schema version: expected " +:+ pretty SCHEMA_VERSION
     +:+ ", got " +:+ pretty (schema_version self)) ++
  push_if (is_blank (producer self))
    "native typed CHC metadata is missing producer identity" ++
  push_if (is_blank (adapter_input self))
    "native typed CHC metadata is missing adapter input identity" ++
  push_if (negb (String.eqb (verification_mode self) "chc" || String.eqb (verification_mode self) "pdr"))
    ("native typed CHC/PDR metadata verification mode must be `chc` or `pdr`, got `"
     +:+ verification_mode self +:+ "`") ++
  validate_native_artifact_digest "trust_ir_module_digest" (trust_ir_module_digest self) ++
  validate_native_artifact_digest "lineage_manifest_digest" (lineage_manifest_digest self) ++
  match source_digest self with
  | Some d => validate_native_artifact_digest "source_digest" d
  | None => []
  end ++
  push_if (bool_decide (proof_obligation_ids self = []))
    "native typed CHC metadata must bind at least one proof obligation id" ++
  push_if (bool_decide (lineage_root_ids self = []))
    "native typed CHC metadata must bind at least one lineage root id" ++
  match compiler_facts_digest self with
  | Some d => validate_native_artifact_digest "compiler_facts_digest" d
  | None => ["native typed CHC metadata is missing compiler_facts digest"]
  end ++
  validate_native_compiler_fact_sources self ++
  validate_native_replay_metadata self ++
  push_if (negb (String.eqb (replace_char "-" "_" obligation_id)
                            (replace_char "-" "_" (expected_obligation_id self))))
    ("native obligation id `" +:+ obligation_id +:+ "` does not match metadata identity `"
     +:+ expected_obligation_id self +:+ "`").

(** [validate_for_obligation_id] *)
Definition validate_for_obligation_id (self : NativeTypedChcObligationMetadata)
    (obligation_id : string) : result (list string) unit :=
  match obligation_errors self obligation_id with
  | [] => Ok tt
  | errors => Err errors
  end.

(** ** What a valid record is *)

Definition digest_ok (d : NativeArtifactDigest) : Prop :=
  is_blank (nd_algorithm d) = false /\ is_blank (nd_value d) = false /\
  Str.chars_all is_ascii_hexdigit (nd_value d) = true /\
  Str.chars_all (fun c => negb (is_ascii_uppercase c)) (nd_value d) = true.

Definition atom_ok (m : NativeTypedChcObligationMetadata) (a : NativeReplayAtomMetadata) : Prop :=
  is_blank (formula_schema a) = false /\ digest_ok (payload_digest a) /\
  match atom_proof_obligation_id a with
  | Some o => o ∈ proof_obligation_ids m
  | None => assertion_id a = None /\ atom_span a = None /\ atom_kind a = Assumption
  end.

(** A reference names a compiler fact the bundle has. *)
Definition ref_ok (m : NativeTypedChcObligationMetadata) (r : NativeCompilerFactReference) : Prop :=
  (ref_id r < count_for (compiler_fact_counts m) (ref_kind r))%N.

(** Each proof obligation has one source, each source one proof obligation, and
    the references of a source are distinct facts of the bundle. *)
Definition sources_ok (m : NativeTypedChcObligationMetadata) : Prop :=
  (N.of_nat (length (compiler_fact_sources m)) <= obligation_sources (compiler_fact_counts m))%N /\
  NoDup (source_ids m) /\ (forall o, o ∈ source_ids m <-> o ∈ proof_obligation_ids m) /\
  forall s, s ∈ compiler_fact_sources m -> NoDup (fact_refs s) /\ forall r, r ∈ fact_refs s -> ref_ok m r.

Definition replay_ok (m : NativeTypedChcObligationMetadata) : Prop :=
  (exists i, replay_identity m = Some i /\ is_blank (engine i) = false /\
     is_blank (invocation i) = false /\ digest_ok (transcript_digest i)) /\
  unsupported_modes (replay_context m) = [] /\
  NoDup (map atom_id (atoms (replay_context m))) /\
  forall a, a ∈ atoms (replay_context m) -> atom_ok m a.

Definition metadata_ok (m : NativeTypedChcObligationMetadata) : Prop :=
  schema_version m = SCHEMA_VERSION /\ is_blank (producer m) = false /\
  is_blank (adapter_input m) = false /\
  (verification_mode m = "chc" \/ verification_mode m = "pdr") /\
  digest_ok (trust_ir_module_digest m) /\ digest_ok (lineage_manifest_digest m) /\
  (forall d, source_digest m = Some d -> digest_ok d) /\
  proof_obligation_ids m <> [] /\ lineage_root_ids m <> [] /\
  (exists d, compiler_facts_digest m = Some d /\ digest_ok d) /\
  sources_ok m /\ replay_ok m.

(** The spelling of an id does not distinguish hyphen and underscore. *)
Definition same_spelling (a b : string) : Prop := replace_char "-" "_" a = replace_char "-" "_" b.

(** ** Lemmas *)

Lemma push_if_nil b msg : push_if b msg = [] <-> b = false.
Proof. destruct b; naive_solver. Qed.

Lemma app_nil_iff {A} (l k : list A) : l ++ k = [] <-> l = [] /\ k = [].
Proof. destruct l, k; naive_solver. Qed.

Lemma flat_map_nil {A B} (f : A -> list B) (l : list A) :
  flat_map f l = [] <-> forall x, x ∈ l -> f x = [].
Proof.
  induction l as [|x l IH]; cbn; [set_solver|]. rewrite app_nil_iff, IH. set_solver.
Qed.

Lemma validate_digest_nil role d : validate_native_artifact_digest role d = [] <-> digest_ok d.
Proof.
  unfold validate_native_artifact_digest, digest_ok. rewrite app_nil_iff, push_if_nil.
  destruct (is_blank (nd_value d)), (Str.chars_all is_ascii_hexdigit (nd_value d)),
    (Str.chars_all (fun c => negb (is_ascii_uppercase c)) (nd_value d)); cbn; naive_solver.
Qed.

Lemma bool_decide_negb_false (P : Prop) `{Decision P} : negb (bool_decide P) = false <-> P.
Proof. rewrite negb_false_iff. apply bool_decide_eq_true. Qed.

#[local] Hint Rewrite @app_nil_iff push_if_nil validate_digest_nil @bool_decide_negb_false
  @bool_decide_eq_false @flat_map_nil : errs.

Lemma validate_atom_nil m seen a :
  validate_atom m seen a = [] <-> atom_id a ∉ seen /\ atom_ok m a.
Proof.
  unfold validate_atom, atom_ok. cbv zeta. autorewrite with errs.
  destruct (atom_proof_obligation_id a) as [o|].
  - rewrite ?andb_false_r. cbn. autorewrite with errs. tauto.
  - destruct (assertion_id a), (atom_span a); rewrite ?andb_true_r, ?andb_false_r; cbn;
      try (split; [intros (? & ? & ? & ? & ? & ? & ?); discriminate|naive_solver]).
    rewrite bool_decide_eq_false. destruct (atom_kind a); naive_solver.
Qed.

Lemma validate_atoms_nil m seen l :
  validate_atoms m seen l = [] <->
  NoDup (map atom_id l) /\ (forall a, a ∈ l -> atom_id a ∉ seen) /\ forall a, a ∈ l -> atom_ok m a.
Proof.
  revert seen. induction l as [|a l IH]; intros seen; cbn [validate_atoms map].
  { split; [|done]. intros _. split; [constructor|set_solver]. }
  rewrite app_nil_iff, validate_atom_nil, IH, NoDup_cons. setoid_rewrite elem_of_union.
  setoid_rewrite elem_of_singleton. setoid_rewrite elem_of_cons. split.
  - intros ((S & O) & N & D & F). split; [split; [|done]|].
    + intros (b & E & Hb)%list_elem_of_fmap. destruct (D b Hb). by left.
    + split; [intros b [->|Hb]; [done|]|naive_solver]. intros Hs. destruct (D b Hb). by right.
  - intros ((N & ND) & D & F). split; [split; [apply D; by left|apply F; by left]|].
    split; [done|]. split; [|naive_solver]. intros b Hb [E|E]; [|by destruct (D b (or_intror Hb))].
    apply N. rewrite <- E. by apply list_elem_of_fmap_2.
Qed.

Lemma validate_replay_nil m : validate_native_replay_metadata m = [] <-> replay_ok m.
Proof.
  unfold validate_native_replay_metadata, replay_ok. rewrite !app_nil_iff.
  rewrite validate_atoms_nil.
  assert (M : forall {B} (f : NativeUnsupportedModeMetadata -> B) l, map f l = [] <-> l = [])
    by (intros B f [|]; naive_solver).
  rewrite M. destruct (replay_identity m) as [i|]; autorewrite with errs.
  - split; [intros ((? & ? & ?) & ? & ? & ? & ?); naive_solver|].
    intros ((i' & [= <-] & ? & ? & ?) & ? & ? & ?). set_solver.
  - naive_solver.
Qed.

Lemma validate_ref_nil m o seen r : validate_ref m o seen r = [] <-> r ∉ seen /\ ref_ok m r.
Proof.
  unfold validate_ref, ref_ok. cbv zeta. autorewrite with errs.
  destruct (N.eqb_spec (count_for (compiler_fact_counts m) (ref_kind r)) 0) as [->|Ne].
  - split; [naive_solver|]. intros [_ L]. lia.
  - rewrite push_if_nil, N.leb_gt. done.
Qed.

Lemma validate_refs_nil m o seen l :
  validate_refs m o seen l = [] <->
  NoDup l /\ (forall r, r ∈ l -> r ∉ seen) /\ forall r, r ∈ l -> ref_ok m r.
Proof.
  revert seen. induction l as [|r l IH]; intros seen; cbn [validate_refs].
  { split; [|done]. intros _. split; [constructor|set_solver]. }
  rewrite app_nil_iff, validate_ref_nil, IH, NoDup_cons. set_solver.
Qed.

Lemma validate_sources_nil m seen l :
  validate_sources m seen l = [] <->
  NoDup (map src_proof_obligation_id l) /\
  forall s, s ∈ l -> src_proof_obligation_id s ∉ seen /\
    src_proof_obligation_id s ∈ proof_obligation_ids m /\ NoDup (fact_refs s) /\
    forall r, r ∈ fact_refs s -> ref_ok m r.
Proof.
  revert seen. induction l as [|s l IH]; intros seen; cbn [validate_sources map].
  { split; [|done]. intros _. split; [constructor|set_solver]. }
  cbv zeta. autorewrite with errs. rewrite validate_refs_nil, IH, NoDup_cons. split.
  - intros (I & S & (N & _ & F) & ND & G). split.
    + split; [|done]. intros (t & E & Ht)%list_elem_of_fmap. destruct (G t Ht) as [D _]. set_solver.
    + intros t [->|Ht]%elem_of_cons; [done|]. destruct (G t Ht) as [D ?]. set_solver.
  - intros ((Nin & ND) & G). destruct (G s ltac:(left)) as (? & ? & ? & ?).
    split; [done|]. split; [done|]. split; [set_solver|]. split; [done|]. intros t Ht.
    destruct (G t ltac:(by right)) as (Hs & ?). split; [|done].
    intros [E%elem_of_singleton|]%elem_of_union; [|done]. apply Nin. rewrite <- E.
    by apply list_elem_of_fmap_2.
Qed.

(** Distinct numbers below a bound are no more than the bound. *)
Lemma bounded_ids (l : list N) (n : N) :
  NoDup l -> (forall x, x ∈ l -> (x < n)%N) -> (N.of_nat (length l) <= n)%N.
Proof.
  intros ND B. assert (L : length (map N.to_nat l) <= length (seq 0 (N.to_nat n))).
  { apply NoDup_incl_length.
    - apply NoDup_ListNoDup, NoDup_fmap_2; [|done]. intros x y E. lia.
    - intros x Hx. apply in_map_iff in Hx as (y & <- & Hy). apply list_elem_of_In in Hy.
      apply in_seq. specialize (B y Hy). lia. }
  rewrite length_map, length_seq in L. lia.
Qed.

(** The last loop of the source check finds nothing: references that all name an
    existing fact are never more than there are facts. *)
Lemma referenced_bound m kind :
  (forall s, s ∈ compiler_fact_sources m -> forall r, r ∈ fact_refs s -> ref_ok m r) ->
  (referenced m kind <= count_for (compiler_fact_counts m) kind)%N.
Proof.
  intros O. unfold referenced.
  set (S := filter (fun r => ref_kind r = kind) _).
  assert (HS : forall r, r ∈ elements S -> ref_kind r = kind /\ ref_ok m r).
  { intros r Hr%elem_of_elements. apply elem_of_filter in Hr as [K Hr]. split; [done|].
    apply elem_of_list_to_set, list_elem_of_In, in_flat_map in Hr as (s & Hs & Hr).
    apply (O s); by apply list_elem_of_In. }
  replace (size S) with (length (map ref_id (elements S))) by (by rewrite length_map).
  apply bounded_ids.
  - pose proof (NoDup_elements S) as ND. induction ND as [|r l Hr ND IH]; cbn; [constructor|].
    constructor; [|apply IH; intros; apply HS; by right].
    intros (r' & Er & Hr')%list_elem_of_fmap. apply Hr.
    destruct (HS r ltac:(left)) as [K _]. destruct (HS r' ltac:(by right)) as [K' _].
    destruct r, r'; cbn in *; by subst.
  - intros x (r & -> & Hr)%list_elem_of_fmap. destruct (HS r Hr) as [<- B]. exact B.
Qed.

Lemma validate_fact_sources_nil m : validate_native_compiler_fact_sources m = [] <-> sources_ok m.
Proof.
  unfold validate_native_compiler_fact_sources, sources_ok. cbv zeta. autorewrite with errs.
  rewrite validate_sources_nil, N.ltb_ge.
  assert (I : forall o, o ∈ source_ids m <->
    exists s, o = src_proof_obligation_id s /\ s ∈ compiler_fact_sources m)
    by (intros o; apply list_elem_of_fmap).
  split.
  - intros (L & (ND & G) & Cov & _). split; [done|]. split; [done|]. split.
    + intros o. split; [|intros Ho; apply Cov in Ho; by autorewrite with errs in Ho].
      intros (s & -> & Hs)%I. by apply G.
    + intros s Hs. by apply G.
  - intros (L & ND & Cov & G). split; [done|]. split; [split; [done|]|split].
    + intros s Hs. split; [set_solver|]. split; [|by apply G]. apply Cov, I. by exists s.
    + intros o Ho. autorewrite with errs. by apply Cov.
    + intros kind _. rewrite push_if_nil, N.ltb_ge. apply referenced_bound.
      intros s Hs. by apply G.
Qed.

Lemma obligation_errors_nil m oid :
  obligation_errors m oid = [] <-> metadata_ok m /\ same_spelling oid (expected_obligation_id m).
Proof.
  unfold obligation_errors, metadata_ok, same_spelling. autorewrite with errs.
  rewrite validate_fact_sources_nil, validate_replay_nil, !negb_false_iff, N.eqb_eq, orb_true_iff,
    !String.eqb_eq.
  destruct (source_digest m) as [d|], (compiler_facts_digest m) as [f|]; autorewrite with errs;
    naive_solver.
Qed.

Lemma validate_Ok m oid :
  validate_for_obligation_id m oid = Ok tt <->
  metadata_ok m /\ same_spelling oid (expected_obligation_id m).
Proof.
  rewrite <- obligation_errors_nil. unfold validate_for_obligation_id.
  destruct (obligation_errors m oid); naive_solver.
Qed.

(** *** The canonical id *)

Lemma append_eq (p a b : string) : p +:+ a = p +:+ b -> a = b.
Proof. induction p as [|c p IH]; cbn; [done|]. intros [= E]. by apply IH. Qed.

(** Digits and what follows them: the number ends at the first other byte. *)
Lemma digits_then (a b x y : string) :
  Str.chars_all Str.is_digit a = true -> Str.chars_all Str.is_digit b = true ->
  match x with EmptyString => true | String c _ => negb (Str.is_digit c) end = true ->
  match y with EmptyString => true | String c _ => negb (Str.is_digit c) end = true ->
  a +:+ x = b +:+ y -> a = b /\ x = y.
Proof.
  revert b. induction a as [|c a IH]; intros [|d b] Ha Hb Hx Hy E; cbn in *; [done|..].
  - subst x. apply andb_true_iff in Hb as [Hb _]. by rewrite Hb in Hx.
  - subst y. apply andb_true_iff in Ha as [Ha _]. by rewrite Ha in Hy.
  - apply andb_true_iff in Ha as [_ Ha]. apply andb_true_iff in Hb as [_ Hb].
    injection E as -> E. destruct (IH b Ha Hb Hx Hy E) as [-> ->]. done.
Qed.

(** The sole proof obligation of a request, if it is the only one. *)
Definition sole (l : list N) : option N := match l with [only] => Some only | _ => None end.

Definition id_suffix (o : option N) : string :=
  match o with Some only => "-proof-" +:+ pretty only | None => "" end.

Lemma expected_obligation_id_eq m :
  expected_obligation_id m =
    "trust_ir-native-trust_mc-request-" +:+ pretty (native_request_id m)
    +:+ id_suffix (sole (proof_obligation_ids m)).
Proof.
  unfold expected_obligation_id. destruct (proof_obligation_ids m) as [|o [|]]; cbn [sole id_suffix];
    by rewrite ?Str.app_nil_r.
Qed.

Lemma pretty_unspelled (n : N) : replace_char "-" "_" (pretty n) = pretty n.
Proof. apply replace_char_absent, pretty_no_char. reflexivity. Qed.

Lemma expected_id_inj m m' :
  same_spelling (expected_obligation_id m) (expected_obligation_id m') ->
  native_request_id m = native_request_id m' /\
  sole (proof_obligation_ids m) = sole (proof_obligation_ids m').
Proof.
  unfold same_spelling. rewrite !expected_obligation_id_eq, !replace_char_app.
  intros E%append_eq. rewrite !pretty_unspelled in E.
  assert (S : forall o, replace_char "-" "_" (id_suffix o) =
    match o with Some only => "_proof_" +:+ pretty only | None => "" end).
  { intros [o|]; [|done]. cbn [id_suffix]. by rewrite replace_char_app, pretty_unspelled. }
  rewrite !S in E. apply digits_then in E as [E1 E2].
  - split; [by apply pretty_N_inj|].
    destruct (sole (proof_obligation_ids m)) as [o|], (sole (proof_obligation_ids m')) as [o'|];
      [|discriminate..|done].
    apply append_eq, pretty_N_inj in E2. by subst.
  - apply Str.pretty_digits.
  - apply Str.pretty_digits.
  - by destruct (sole (proof_obligation_ids m)).
  - by destruct (sole (proof_obligation_ids m')).
Qed.

(** *** The diagnostic claims *)

Section Diagnostics.
Context (complete : bool) (count : N) (reasons : list string) (m : NativeTypedChcObligationMetadata).

Notation m' := (with_diagnostics complete count reasons m).

Lemma validate_atoms_diag seen l : validate_atoms m' seen l = validate_atoms m seen l.
Proof. revert seen. induction l as [|a l IH]; intros seen; [done|]. cbn. by rewrite IH. Qed.

Lemma validate_refs_diag o seen l : validate_refs m' o seen l = validate_refs m o seen l.
Proof. revert seen. induction l as [|r l IH]; intros seen; [done|]. cbn. by rewrite IH. Qed.

Lemma validate_sources_diag seen l : validate_sources m' seen l = validate_sources m seen l.
Proof.
  revert seen. induction l as [|s l IH]; intros seen; [done|]. cbn.
  by rewrite IH, validate_refs_diag.
Qed.

Lemma validate_diag oid : validate_for_obligation_id m' oid = validate_for_obligation_id m oid.
Proof.
  unfold validate_for_obligation_id, obligation_errors, validate_native_compiler_fact_sources,
    validate_native_replay_metadata.
  cbv zeta. rewrite validate_sources_diag, validate_atoms_diag. reflexivity.
Qed.

End Diagnostics.

(** ** Properties *)

(** the metadata check is exact.  A record is accepted for an obligation id
    exactly when it is well formed and the id is its canonical id up to the
    spelling of the separator: every proof obligation has exactly one source,
    every reference of a source names a compiler fact the bundle has (which makes
    the closing count check redundant), replay atoms are unique and bound.  The
    diagnostic claims (completeness, lowering sites and reasons) never change the
    answer, and the recorded reasons do not depend on the order they came in. *)
Theorem validate_for_obligation_id_spec (m : NativeTypedChcObligationMetadata) (oid : string)
    (complete : bool) (count : N) (reasons reasons' : list string) :
  (validate_for_obligation_id m oid = Ok tt <->
     metadata_ok m /\ same_spelling oid (expected_obligation_id m)) /\
  validate_for_obligation_id (with_diagnostics complete count reasons m) oid =
    validate_for_obligation_id m oid /\
  (reasons ≡ₚ reasons' -> with_fail_closed_lowering_reasons reasons m =
     with_fail_closed_lowering_reasons reasons' m).
Proof.
  split; [apply validate_Ok|]. split; [apply validate_diag|]. intros P. unfold with_fail_closed_lowering_reasons.
  by rewrite (sort_dedup_canonical reasons reasons') by (intros x; by rewrite P).
Qed.

(** An obligation id identifies its request.  Two records accepted for ids
    with the same spelling were made for the same native request, and for the
    same proof obligation when they carry only one: the hyphen and underscore
    spellings are confused, no two obligations are. *)
Theorem obligation_id_identifies (m m' : NativeTypedChcObligationMetadata) (oid oid' : string)
    (V : validate_for_obligation_id m oid = Ok tt)
    (V' : validate_for_obligation_id m' oid' = Ok tt)
    (S : same_spelling oid oid') :
  native_request_id m = native_request_id m' /\
  sole (proof_obligation_ids m) = sole (proof_obligation_ids m').
Proof.
  apply validate_Ok in V as [_ V], V' as [_ V']. apply expected_id_inj.
  unfold same_spelling in *. congruence.
Qed.

(** ** Samples *)

Module Sample.

Definition digest : NativeArtifactDigest := {| nd_algorithm := "fnv"; nd_value := "00ff" |}.

Definition metadata : NativeTypedChcObligationMetadata :=
  with_replay_metadata
    {| engine := "pdr"; invocation := "solve"; transcript_digest := digest |}
    {| atoms := [{| atom_id := 0; atom_kind := Assertion; formula_schema := "smt";
                    payload_digest := digest; atom_proof_obligation_id := Some 7%N;
                    assertion_id := Some 1%N; atom_span := None |}];
       unsupported_modes := [] |}
    (with_compiler_facts digest
      {| adt_layouts := 0; fat_pointers := 0; trait_object_metadata := 0; pointer_offsets := 0;
         casts := 2; monomorphizations := 0; obligation_sources := 1 |}
      [{| src_proof_obligation_id := 7; src_function_id := None; src_span := None;
          src_cause := CastCheck; src_monomorphization_id := None;
          fact_refs := [{| ref_kind := Cast; ref_id := 1 |}; {| ref_kind := Cast; ref_id := 0 |}] |}]
      (new "trust-bmc" "module.trust_ir" None digest digest 3 "chc" 5 [7%N] [1%N])).

End Sample.

Lemma obligation_id_identifies_witness :
  sole (proof_obligation_ids Sample.metadata) = Some 7%N /\
  native_request_id Sample.metadata = native_request_id Sample.metadata.
Proof.
  split; [reflexivity|].
  exact (proj1 (obligation_id_identifies Sample.metadata Sample.metadata
    "trust_ir-native-trust-mc-request-3-proof-7" "trust_ir-native-trust_mc-request-3-proof-7"
    ltac:(vm_compute; reflexivity) ltac:(vm_compute; reflexivity) ltac:(vm_compute; reflexivity))).
Defined.
