(* ===== verification/EvidenceArtifact.v ===== *)
(** * Evidence artifacts

    [FullVerificationArtifact] of trust-mc-core/src/evidence.rs: a descriptor
    (kind, label, digest, length) that may retain the exact bytes it describes,
    with the artifacts they were made from.  A byte string is a [string]; a length
    is an [N]. *)

From S2P Require Import Prelude Text Wire Digest.

(** ** Data *)

(** [enum FullVerificationArtifactKind] *)
Inductive FullVerificationArtifactKind :=
  | CompilerInput | ObligationSet | TypedBmcProblem | TypedChcProblem | SmtRendering | SolverBinary
  | VerificationOptions | ResourceLimits | NormalizedInput | SolverTranscript | PdrInvariantModel
  | ReplayLog | CheckedProofReport | CounterexampleTrace | DiagnosticTrace | EvidenceManifest.

#[export] Instance FullVerificationArtifactKind_eq_dec : EqDecision FullVerificationArtifactKind.
Proof. solve_decision. Defined.

(** The position of a variant: [derive(Ord)] orders them by it. *)
Definition kind_ord (k : FullVerificationArtifactKind) : N :=
  match k with
  | CompilerInput => 0 | ObligationSet => 1 | TypedBmcProblem => 2 | TypedChcProblem => 3
  | SmtRendering => 4 | SolverBinary => 5 | VerificationOptions => 6 | ResourceLimits => 7
  | NormalizedInput => 8 | SolverTranscript => 9 | PdrInvariantModel => 10 | ReplayLog => 11
  | CheckedProofReport => 12 | CounterexampleTrace => 13 | DiagnosticTrace => 14
  | EvidenceManifest => 15
  end.

(** [struct FullVerificationArtifactReference] *)
Record FullVerificationArtifactReference := {
  ar_kind : FullVerificationArtifactKind; ar_digest : EvidenceHash }.

#[export] Instance FullVerificationArtifactReference_eq_dec :
  EqDecision FullVerificationArtifactReference.
Proof. solve_decision. Defined.

(** [struct ProofArtifactBindingId] *)
Record ProofArtifactBindingId := { as_str : string }.

#[export] Instance ProofArtifactBindingId_eq_dec : EqDecision ProofArtifactBindingId.
Proof. solve_decision. Defined.

(** [struct FullVerificationArtifactMaterialization] *)
Record FullVerificationArtifactMaterialization := {
  bytes : string;
  mat_byte_len : N;
  mat_proof_binding_id : option ProofArtifactBindingId;
  mat_referenced_artifacts : list FullVerificationArtifactReference }.

(** [enum FullVerificationArtifactMaterializationError] *)
Inductive FullVerificationArtifactMaterializationError :=
  | PayloadTooLarge (max actual : N)
  | ByteLengthMismatch (declared actual : N)
  | MissingDigest
  | DigestMismatch
  | DescriptorLengthMismatch
  | EmptyProofPayload (kind : FullVerificationArtifactKind)
  | NormalizedInputDigestMismatch
  | EmptyNormalizedInput
  | NonMirDerivedObligation
  | InvalidProofStatistics
  | PdrInvariantCandidateRequired
  | InvalidPdrInvariantCount
  | InvalidProofBindingId
  | ReferencesWithoutProofBinding
  | InvalidReferencedDigest
  | DuplicateReferencedDigest
  | TooManyArtifactReferences (max actual : N)
  | NonCanonicalArtifactReferenceOrder
  | MaterializationUnavailable.

(** [struct FullVerificationArtifact] *)
Record FullVerificationArtifact := {
  kind : FullVerificationArtifactKind;
  label : string;
  digest : option EvidenceHash;
  byte_len : option N;
  materialization_field : option FullVerificationArtifactMaterialization }.

Abbreviation MatErr := FullVerificationArtifactMaterializationError.

Definition MAX_FULL_VERIFICATION_ARTIFACT_MATERIALIZATION_BYTES : N := 16 * 1024 * 1024.
Definition MAX_LINKED_ARTIFACT_REFERENCES : N := 8.
Definition MAX_PROOF_EVIDENCE_HASHES : N := 8.
Definition MAX_PROOF_EVIDENCE_ARTIFACTS : N := 16.
Definition MAX_MANIFEST_ARTIFACTS : N := 64.

(** ** Binding ids *)

(** [ProofArtifactBindingId::PREFIX], [from_sha256] and [parse] *)
Definition PREFIX : string := "trust_mc-proof-set-sha256:".
Definition from_sha256 (hash : EvidenceHash) : ProofArtifactBindingId :=
  {| as_str := PREFIX +:+ hash_value hash |}.
Definition parse (value : string) : result MatErr ProofArtifactBindingId :=
  match strip_prefix PREFIX value with
  | None => Err InvalidProofBindingId
  | Some hex =>
      if negb (is_canonical_sha256_hex hex) then Err InvalidProofBindingId
      else Ok {| as_str := value |}
  end.

(** ** Materializations *)

Definition compare_then (c d : comparison) : comparison := match c with Eq => d | _ => c end.

(** The comparison of two [artifact_reference_sort_key]s, tuples of the kind, the
    algorithm and the value. *)
Definition artifact_reference_compare (a b : FullVerificationArtifactReference) : comparison :=
  compare_then (N.compare (kind_ord (ar_kind a)) (kind_ord (ar_kind b)))
    (compare_then (String.compare (algorithm (ar_digest a)) (algorithm (ar_digest b)))
       (String.compare (hash_value (ar_digest a)) (hash_value (ar_digest b)))).

(** [references.windows(2).all(|pair| key(pair[0]) < key(pair[1]))] *)
Fixpoint in_order (l : list FullVerificationArtifactReference) : bool :=
  match l with
  | a :: (b :: _) as l' =>
      match artifact_reference_compare a b with Lt => in_order l' | _ => false end
  | _ => true
  end.

(** The loop of [validate] over the references; [seen] holds the earlier ones. *)
Fixpoint check_references (seen l : list FullVerificationArtifactReference) : result MatErr unit :=
  match l with
  | [] => Ok tt
  | r :: l' =>
      if negb (is_canonical_sha256 (ar_digest r)) then Err InvalidReferencedDigest
      else if bool_decide (r ∈ seen) then Err DuplicateReferencedDigest
      else check_references (r :: seen) l'
  end.

(** [FullVerificationArtifactMaterialization::validate] *)
Definition validate (self : FullVerificationArtifactMaterialization) : result MatErr unit :=
  if N.ltb MAX_FULL_VERIFICATION_ARTIFACT_MATERIALIZATION_BYTES (len (bytes self))
  then Err (PayloadTooLarge MAX_FULL_VERIFICATION_ARTIFACT_MATERIALIZATION_BYTES (len (bytes self)))
  else if negb (N.eqb (mat_byte_len self) (len (bytes self)))
  then Err (ByteLengthMismatch (mat_byte_len self) (len (bytes self)))
  else if N.ltb MAX_LINKED_ARTIFACT_REFERENCES (N.of_nat (length (mat_referenced_artifacts self)))
  then Err (TooManyArtifactReferences MAX_LINKED_ARTIFACT_REFERENCES
              (N.of_nat (length (mat_referenced_artifacts self))))
  else if negb (bool_decide (mat_referenced_artifacts self = [])) &&
          bool_decide (mat_proof_binding_id self = None)
  then Err ReferencesWithoutProofBinding
  else
    _ ← check_references [] (mat_referenced_artifacts self);
    if negb (in_order (mat_referenced_artifacts self)) then Err NonCanonicalArtifactReferenceOrder
    else Ok tt.

(** [FullVerificationArtifactMaterialization::from_bytes] *)
Definition mat_from_bytes (b : string) : result MatErr FullVerificationArtifactMaterialization :=
  if N.ltb MAX_FULL_VERIFICATION_ARTIFACT_MATERIALIZATION_BYTES (len b)
  then Err (PayloadTooLarge MAX_FULL_VERIFICATION_ARTIFACT_MATERIALIZATION_BYTES (len b))
  else Ok {| bytes := b; mat_byte_len := len b; mat_proof_binding_id := None;
             mat_referenced_artifacts := [] |}.

(** [FullVerificationArtifactMaterialization::with_proof_linkage] *)
Definition mat_with_proof_linkage (id : ProofArtifactBindingId)
    (refs : list FullVerificationArtifactReference) (self : FullVerificationArtifactMaterialization)
    : result MatErr FullVerificationArtifactMaterialization :=
  let self := {| bytes := bytes self; mat_byte_len := mat_byte_len self;
                 mat_proof_binding_id := Some id; mat_referenced_artifacts := refs |} in
  _ ← validate self; Ok self.

(** ** The wire form of a materialization *)

(** The bytes come in one piece ([visit_bytes], [visit_byte_buf]) or one by one
    ([visit_seq]). *)
Inductive wire_bytes :=
  | WireBytes (b : string)
  | WireSeq (size_hint : option N) (sequence : list (result string ascii)).

Definition too_many_bytes : string :=
  "artifact payload exceeds the " +:+ pretty MAX_FULL_VERIFICATION_ARTIFACT_MATERIALIZATION_BYTES
  +:+ "-byte materialization limit".

(** [deserialize_bounded_artifact_bytes] *)
Definition deserialize_bounded_artifact_bytes (w : wire_bytes) : result string string :=
  match w with
  | WireBytes b =>
      if N.ltb MAX_FULL_VERIFICATION_ARTIFACT_MATERIALIZATION_BYTES (len b) then Err too_many_bytes
      else Ok b
  | WireSeq size_hint sequence =>
      l ← visit_seq id too_many_bytes MAX_FULL_VERIFICATION_ARTIFACT_MATERIALIZATION_BYTES
            size_hint sequence;
      Ok (String.string_of_list_ascii l)
  end.

(** [deserialize_bounded_vec] *)
Definition deserialize_bounded_vec {T} (MAX : N) (description : string) (size_hint : option N)
    (sequence : list (result string T)) : result string (list T) :=
  visit_seq id (description +:+ " exceeds the " +:+ pretty MAX +:+ "-entry limit") MAX
    size_hint sequence.

Definition deserialize_bounded_artifact_references :=
  deserialize_bounded_vec (T:=FullVerificationArtifactReference) MAX_LINKED_ARTIFACT_REFERENCES
    "artifact references".
Definition deserialize_bounded_evidence_hashes :=
  deserialize_bounded_vec (T:=EvidenceHash) MAX_PROOF_EVIDENCE_HASHES "proof evidence hashes".
Definition deserialize_bounded_proof_artifacts :=
  deserialize_bounded_vec (T:=FullVerificationArtifact) MAX_PROOF_EVIDENCE_ARTIFACTS
    "proof evidence artifacts".
Definition deserialize_bounded_manifest_artifacts :=
  deserialize_bounded_vec (T:=FullVerificationArtifact) MAX_MANIFEST_ARTIFACTS
    "verification artifacts".

(** [FullVerificationArtifactMaterializationWire]: the fields before they are read. *)
Record MaterializationWire := {
  w_bytes : wire_bytes;
  w_byte_len : N;
  w_binding : option string;
  w_refs_hint : option N;
  w_refs : list (result string FullVerificationArtifactReference) }.

(** The error a wire error or a failed conversion is reported as. *)
Inductive ReadError := WireError (msg : string) | Invalid (e : MatErr).

Definition wire {A} (r : result string A) : result ReadError A :=
  match r with Ok a => Ok a | Err m => Err (WireError m) end.
Definition convert {A} (r : result MatErr A) : result ReadError A :=
  match r with Ok a => Ok a | Err e => Err (Invalid e) end.

(** [impl Deserialize for FullVerificationArtifactMaterialization]: the wire form,
    then [TryFrom] *)
Definition deserialize_materialization (w : MaterializationWire)
    : result ReadError FullVerificationArtifactMaterialization :=
  b ← wire (deserialize_bounded_artifact_bytes (w_bytes w));
  id ← convert (map_transpose parse (w_binding w));
  refs ← wire (deserialize_bounded_artifact_references (w_refs_hint w) (w_refs w));
  let m := {| bytes := b; mat_byte_len := w_byte_len w; mat_proof_binding_id := id;
              mat_referenced_artifacts := refs |} in
  _ ← convert (validate m); Ok m.

(** ** Artifacts *)

Section Artifact.
Context `{Sha256}.

(** [FullVerificationArtifact::new] *)
Definition new (k : FullVerificationArtifactKind) (l : string) : FullVerificationArtifact :=
  {| kind := k; label := l; digest := None; byte_len := None; materialization_field := None |}.

(** [validate_materialization] *)
Definition validate_materialization (self : FullVerificationArtifact) : result MatErr unit :=
  match materialization_field self with
  | None => Ok tt
  | Some m =>
      _ ← validate m;
      match digest self with
      | None => Err MissingDigest
      | Some d =>
          if negb (bool_decide (d = sha256_bytes (bytes m))) then Err DigestMismatch
          else if negb (bool_decide (byte_len self = Some (mat_byte_len m)))
          then Err DescriptorLengthMismatch
          else Ok tt
      end
  end.

(** [validated] *)
Definition validated (self : FullVerificationArtifact) : result MatErr FullVerificationArtifact :=
  _ ← validate_materialization self; Ok self.

(** [try_from_bytes] *)
Definition try_from_bytes (k : FullVerificationArtifactKind) (l b : string)
    : result MatErr FullVerificationArtifact :=
  m ← mat_from_bytes b;
  validated {| kind := k; label := l; digest := Some (sha256_bytes b); byte_len := Some (len b);
               materialization_field := Some m |}.

(** [from_bytes]; both error arms of the source build the same descriptor, the
    second after a debug assertion. *)
Definition from_bytes (k : FullVerificationArtifactKind) (l b : string) : FullVerificationArtifact :=
  match try_from_bytes k l b with
  | Ok artifact => artifact
  | Err _ => {| kind := k; label := l; digest := Some (sha256_bytes b); byte_len := Some (len b);
                materialization_field := None |}
  end.

Definition set_materialization (m : option FullVerificationArtifactMaterialization)
    (self : FullVerificationArtifact) : FullVerificationArtifact :=
  {| kind := kind self; label := label self; digest := digest self; byte_len := byte_len self;
     materialization_field := m |}.

(** The materialization is dropped when the descriptor no longer describes it. *)
Definition drop_invalid (self : FullVerificationArtifact) : FullVerificationArtifact :=
  match validate_materialization self with Ok _ => self | Err _ => set_materialization None self end.

(** [with_digest], [with_byte_len] *)
Definition with_digest (d : EvidenceHash) (self : FullVerificationArtifact) : FullVerificationArtifact :=
  drop_invalid {| kind := kind self; label := label self; digest := Some d;
                  byte_len := byte_len self; materialization_field := materialization_field self |}.
Definition with_byte_len (n : N) (self : FullVerificationArtifact) : FullVerificationArtifact :=
  drop_invalid {| kind := kind self; label := label self; digest := digest self;
                  byte_len := Some n; materialization_field := materialization_field self |}.

(** The accessors: [materialization], [materialized_bytes], [proof_binding_id],
    [referenced_artifacts] *)
Definition materialization (self : FullVerificationArtifact)
    : option FullVerificationArtifactMaterialization :=
  match validate_materialization self with Ok _ => materialization_field self | Err _ => None end.
Definition materialized_bytes (self : FullVerificationArtifact) : option string :=
  bytes <$> materialization self.
Definition materialized_byte_len (self : FullVerificationArtifact) : option N :=
  mat_byte_len <$> materialization self.
Definition proof_binding_id (self : FullVerificationArtifact) : option ProofArtifactBindingId :=
  m ← materialization self; mat_proof_binding_id m.
Definition referenced_artifacts (self : FullVerificationArtifact)
    : list FullVerificationArtifactReference :=
  match materialization self with Some m => mat_referenced_artifacts m | None => [] end.

(** [FullVerificationArtifact::with_proof_linkage] *)
Definition with_proof_linkage (id : ProofArtifactBindingId)
    (refs : list FullVerificationArtifactReference) (self : FullVerificationArtifact)
    : result MatErr FullVerificationArtifact :=
  m ← ok_or (materialization_field self) MaterializationUnavailable;
  m' ← mat_with_proof_linkage id refs m;
  validated (set_materialization (Some m') self).

(** [FullVerificationArtifactWire] and [impl Deserialize for FullVerificationArtifact] *)
Definition deserialize_FullVerificationArtifact (k : FullVerificationArtifactKind) (l : string)
    (d : option (string * string)) (n : option N) (w : option MaterializationWire)
    : result ReadError FullVerificationArtifact :=
  d ← wire (map_transpose (fun p => deserialize_EvidenceHash p.1 p.2) d);
  m ← map_transpose deserialize_materialization w;
  convert (validated {| kind := k; label := l; digest := d; byte_len := n;
                        materialization_field := m |}).

End Artifact.

(** ** What validation establishes *)

Definition reference_lt (a b : FullVerificationArtifactReference) : Prop :=
  artifact_reference_compare a b = Lt.

Definition links_ok (binding : option ProofArtifactBindingId)
    (refs : list FullVerificationArtifactReference) : Prop :=
  (N.of_nat (length refs) <= MAX_LINKED_ARTIFACT_REFERENCES)%N /\
  (binding = None -> refs = []) /\
  (forall r, r ∈ refs -> is_canonical_sha256 (ar_digest r) = true) /\
  NoDup refs /\ Sorted reference_lt refs.

Definition mat_ok (m : FullVerificationArtifactMaterialization) : Prop :=
  (len (bytes m) <= MAX_FULL_VERIFICATION_ARTIFACT_MATERIALIZATION_BYTES)%N /\
  mat_byte_len m = len (bytes m) /\
  links_ok (mat_proof_binding_id m) (mat_referenced_artifacts m).

(** A descriptor describes the bytes it retains. *)
Definition describes `{Sha256} (a : FullVerificationArtifact)
    (m : FullVerificationArtifactMaterialization) : Prop :=
  mat_ok m /\ digest a = Some (sha256_bytes (bytes m)) /\ byte_len a = Some (len (bytes m)).

Definition artifact_ok `{Sha256} (a : FullVerificationArtifact) : Prop :=
  forall m, materialization_field a = Some m -> describes a m.

Lemma check_references_Ok seen l :
  check_references seen l = Ok tt <->
  (forall r, r ∈ l -> is_canonical_sha256 (ar_digest r) = true) /\ NoDup l /\
  forall r, r ∈ l -> r ∉ seen.
Proof.
  revert seen. induction l as [|r l IH]; intros seen; cbn [check_references].
  { split; [|done]. intros _. split; [set_solver|]. split; [constructor|set_solver]. }
  rewrite NoDup_cons. destruct (is_canonical_sha256 (ar_digest r)) eqn:C; cbn [negb].
  - case_bool_decide as D.
    + split; [discriminate|]. intros (_ & _ & N). by destruct (N r ltac:(left)).
    + rewrite IH. setoid_rewrite elem_of_cons. split.
      * intros (Cl & ND & N). split; [naive_solver|]. split; [split; [|done]|].
        -- intros Hr. destruct (N r Hr). by left.
        -- intros x [->|Hx] Hs; [done|]. destruct (N x Hx). by right.
      * intros (Cl & (Nr & ND) & N). split; [naive_solver|]. split; [done|].
        intros x Hx [->|Hs]; [done|]. by destruct (N x (or_intror Hx)).
  - split; [discriminate|]. intros (Cl & _). rewrite Cl in C by left. discriminate.
Qed.

Lemma in_order_Sorted l : in_order l = true <-> Sorted reference_lt l.
Proof.
  induction l as [|a [|b l] IH]; [split; [constructor|done]|split; [repeat constructor|done]|].
  change (in_order (a :: b :: l)) with
    (match artifact_reference_compare a b with Lt => in_order (b :: l) | _ => false end).
  split.
  - destruct (artifact_reference_compare a b) eqn:E; [discriminate| |discriminate].
    intros O%IH. constructor; [done|]. by constructor.
  - intros S. apply Sorted_inv in S as [S O%HdRel_inv]. unfold reference_lt in O.
    rewrite O. by apply IH.
Qed.

Lemma materialization_validate_Ok m : validate m = Ok tt <-> mat_ok m.
Proof.
  unfold validate, mat_ok, links_ok. rewrite <- !N.ltb_ge, <- in_order_Sorted.
  destruct (N.ltb MAX_FULL_VERIFICATION_ARTIFACT_MATERIALIZATION_BYTES (len (bytes m)));
    [naive_solver|].
  destruct (N.eqb_spec (mat_byte_len m) (len (bytes m))) as [E|Ne]; cbn [negb]; [|naive_solver].
  destruct (N.ltb MAX_LINKED_ARTIFACT_REFERENCES _); [naive_solver|].
  destruct (negb (bool_decide (mat_referenced_artifacts m = [])) &&
            bool_decide (mat_proof_binding_id m = None)) eqn:B.
  - apply andb_true_iff in B as [B1%negb_true_iff%bool_decide_eq_false B2%bool_decide_eq_true].
    naive_solver.
  - assert (L : mat_proof_binding_id m = None -> mat_referenced_artifacts m = []).
    { intros Hn. apply andb_false_iff in B as [B%negb_false_iff%bool_decide_eq_true|B]; [done|].
      by apply bool_decide_eq_false in B. }
    rewrite bind_Ok. split.
    + intros ([] & (C & ND & _)%check_references_Ok & O).
      destruct (in_order (mat_referenced_artifacts m)); [|discriminate]. done.
    + intros (_ & _ & _ & _ & C & ND & ->). exists tt. split; [|done].
      apply check_references_Ok. split; [done|]. split; [done|]. set_solver.
Qed.

Section ArtifactLemmas.
Context `{Sha256}.

Lemma validate_materialization_Ok a : validate_materialization a = Ok tt <-> artifact_ok a.
Proof.
  unfold validate_materialization, artifact_ok, describes.
  destruct (materialization_field a) as [m|]; [|split; [naive_solver|done]].
  rewrite bind_Ok. split.
  - intros ([] & V%materialization_validate_Ok & E) m' [= <-]. split; [done|].
    destruct (digest a) as [d|]; [|discriminate].
    case_bool_decide as D; [subst d|discriminate]. cbn [negb] in E.
    case_bool_decide as B; [|discriminate]. split; [done|]. rewrite B. f_equal. apply V.
  - intros A. destruct (A m eq_refl) as (V & -> & ->). exists tt. split; [by apply materialization_validate_Ok|].
    rewrite bool_decide_eq_true_2 by done. cbn [negb].
    rewrite bool_decide_eq_true_2; [done|]. f_equal. symmetry. apply V.
Qed.

Lemma validated_Ok a b : validated a = Ok b <-> b = a /\ artifact_ok a.
Proof.
  unfold validated. rewrite bind_Ok. setoid_rewrite <- validate_materialization_Ok.
  split; [intros ([] & V & [= <-])|intros [-> V]; exists tt]; done.
Qed.

Lemma try_from_bytes_Ok k l b a :
  try_from_bytes k l b = Ok a <->
  (len b <= MAX_FULL_VERIFICATION_ARTIFACT_MATERIALIZATION_BYTES)%N /\
  a = {| kind := k; label := l; digest := Some (sha256_bytes b); byte_len := Some (len b);
         materialization_field := Some {| bytes := b; mat_byte_len := len b;
           mat_proof_binding_id := None; mat_referenced_artifacts := [] |} |}.
Proof.
  unfold try_from_bytes, mat_from_bytes. rewrite <- N.ltb_ge.
  destruct (N.ltb_spec MAX_FULL_VERIFICATION_ARTIFACT_MATERIALIZATION_BYTES (len b)) as [L|L];
    cbn [mbind result_bind]; [naive_solver|].
  rewrite validated_Ok. split; [naive_solver|]. intros [_ ->]. split; [done|].
  intros m [= <-]. split; [|done]. split; [done|]. split; [done|]. cbn. split; [done|].
  split; [done|]. split; [set_solver|]. split; constructor.
Qed.

Lemma try_from_bytes_small k l b :
  (len b <= MAX_FULL_VERIFICATION_ARTIFACT_MATERIALIZATION_BYTES)%N ->
  exists a, try_from_bytes k l b = Ok a.
Proof. intros L. eexists. by apply try_from_bytes_Ok. Qed.

Lemma drop_invalid_ok a : artifact_ok (drop_invalid a).
Proof.
  unfold drop_invalid. destruct (validate_materialization a) as [[]|] eqn:E.
  - by apply validate_materialization_Ok.
  - intros m M. discriminate M.
Qed.

Lemma from_bytes_ok k l b : artifact_ok (from_bytes k l b).
Proof.
  unfold from_bytes. destruct (try_from_bytes k l b) as [a|] eqn:E; [|intros m M; discriminate M].
  unfold try_from_bytes in E. apply bind_Ok in E as (m & _ & E%validated_Ok). by destruct E as [-> V].
Qed.

Lemma convert_Ok {A} (r : result MatErr A) a : convert r = Ok a <-> r = Ok a.
Proof. destruct r; cbn; naive_solver. Qed.

Lemma materialization_spec a m :
  materialization a = Some m <-> materialization_field a = Some m /\ artifact_ok a.
Proof.
  unfold materialization. rewrite <- validate_materialization_Ok.
  destruct (validate_materialization a) as [[]|]; naive_solver.
Qed.

Lemma with_proof_linkage_Ok id refs a b :
  with_proof_linkage id refs a = Ok b <->
  exists m, materialization_field a = Some m /\
    b = set_materialization (Some {| bytes := bytes m; mat_byte_len := mat_byte_len m;
          mat_proof_binding_id := Some id; mat_referenced_artifacts := refs |}) a /\
    artifact_ok b.
Proof.
  unfold with_proof_linkage, mat_with_proof_linkage. rewrite bind_Ok.
  setoid_rewrite bind_Ok. setoid_rewrite validated_Ok. split.
  - intros (m & Hm & m' & E & -> & V). exists m.
    destruct (materialization_field a) as [m0|]; [|discriminate]. cbn in Hm. injection Hm as ->.
    apply bind_Ok in E as (_ & _ & [= <-]). done.
  - intros (m & E & -> & V). rewrite E. exists m. split; [done|]. eexists. split; [|done].
    apply bind_Ok. exists tt. split; [|done]. apply materialization_validate_Ok.
    by destruct (V _ eq_refl) as (? & _).
Qed.

End ArtifactLemmas.

(** ** The artifacts a program can hold *)

(** Every way to obtain an artifact through the public operations. *)
Inductive obtained `{Sha256} : FullVerificationArtifact -> Prop :=
  | obtained_new k l : obtained (new k l)
  | obtained_from_bytes k l b : obtained (from_bytes k l b)
  | obtained_try_from_bytes k l b a : try_from_bytes k l b = Ok a -> obtained a
  | obtained_with_digest d a : obtained a -> obtained (with_digest d a)
  | obtained_with_byte_len n a : obtained a -> obtained (with_byte_len n a)
  | obtained_linked id refs a b : obtained a -> with_proof_linkage id refs a = Ok b -> obtained b
  | obtained_read k l d n w a :
      deserialize_FullVerificationArtifact k l d n w = Ok a -> obtained a.

(** ** Properties *)

(** C38: an artifact never misdescribes the bytes it carries.  Whatever public
    operations it went through (construction from bytes, attaching a digest or a
    length, linking it into a proof set, reading it from a file), the bytes it
    retains are at most 16 MiB, have the recorded digest and length, and their
    references are canonical, distinct, in order, at most eight and under a
    binding id. *)
Theorem obtained_artifact_ok `{Sha256} (a : FullVerificationArtifact) (O : obtained a) :
  artifact_ok a.
Proof.
  induction O as [k l|k l b|k l b a E|d a _ _|n a _ _|id refs a b _ _ E|k l d n w a E].
  - intros m M. discriminate M.
  - apply from_bytes_ok.
  - apply bind_Ok in E as (m & _ & E%validated_Ok). by destruct E as [-> V].
  - apply drop_invalid_ok.
  - apply drop_invalid_ok.
  - by apply with_proof_linkage_Ok in E as (m & _ & _ & V).
  - unfold deserialize_FullVerificationArtifact in E.
    apply bind_Ok in E as (d' & _ & E). apply bind_Ok in E as (m & _ & E).
    apply convert_Ok, validated_Ok in E as [-> V]. exact V.
Qed.

(** The accessors do not trust the fields.  The fields of a descriptor can be
    overwritten at will; still, the bytes an artifact hands out always match the
    digest and the length it states, and equal digests mean equal bytes, unless
    the two collide.  Building an artifact from bytes retains them exactly
    when they are within the limit, and describes them in any case. *)
Theorem accessor_spec `{Sha256} (a a' : FullVerificationArtifact) (b b' : string)
    (k : FullVerificationArtifactKind) (l : string) :
  (materialized_bytes a = Some b ->
     digest a = Some (sha256_bytes b) /\ byte_len a = Some (len b) /\
     materialized_byte_len a = Some (len b) /\
     (len b <= MAX_FULL_VERIFICATION_ARTIFACT_MATERIALIZATION_BYTES)%N) /\
  (materialized_bytes a = Some b -> materialized_bytes a' = Some b' -> digest a = digest a' ->
     b = b' \/ collides b b') /\
  (materialized_bytes (from_bytes k l b) =
     if N.leb (len b) MAX_FULL_VERIFICATION_ARTIFACT_MATERIALIZATION_BYTES then Some b else None) /\
  digest (from_bytes k l b) = Some (sha256_bytes b) /\ byte_len (from_bytes k l b) = Some (len b).
Proof.
  assert (D : forall a b, materialized_bytes a = Some b ->
    digest a = Some (sha256_bytes b) /\ byte_len a = Some (len b) /\
    materialized_byte_len a = Some (len b) /\
    (len b <= MAX_FULL_VERIFICATION_ARTIFACT_MATERIALIZATION_BYTES)%N).
  { intros x y. unfold materialized_bytes, materialized_byte_len. intros (m & M & ->)%fmap_Some.
    rewrite M. apply materialization_spec in M as [F V]. destruct (V m F) as ((L & E & _) & Dg & Bl).
    cbn. by rewrite E. }
  split; [apply D|]. split.
  - intros B B' E. destruct (D _ _ B) as (E1 & _), (D _ _ B') as (E2 & _).
    apply sha256_bytes_inj. congruence.
  - unfold materialized_bytes, materialization. pose proof (from_bytes_ok k l b) as V.
    apply validate_materialization_Ok in V as ->. unfold from_bytes.
    destruct (N.leb_spec (len b) MAX_FULL_VERIFICATION_ARTIFACT_MATERIALIZATION_BYTES) as [L|L].
    + destruct (try_from_bytes_small k l b L) as [x E]. rewrite E.
      apply try_from_bytes_Ok in E as [_ ->]. done.
    + destruct (try_from_bytes k l b) as [x|] eqn:E; [|done].
      apply try_from_bytes_Ok in E as [? _]. lia.
Qed.

Section Witness.
Import Digest.Sample.

Lemma obtained_artifact_ok_witness :
  artifact_ok (with_byte_len 3 (from_bytes ReplayLog "log" "abc")) /\
  materialized_bytes (with_byte_len 3 (from_bytes ReplayLog "log" "abc")) = Some "abc".
Proof.
  split; [|vm_compute; reflexivity].
  apply obtained_artifact_ok. apply obtained_with_byte_len, obtained_from_bytes.
Defined.

End Witness.
