(* ===== verification/Obligation.v ===== *)
(** * MIR-derived obligations

    [MirDerivedChcPdrObligation] of trust-mc-core/src/evidence.rs, with the
    normalization of the solver input that its digest is taken of, and the small
    enums the evidence types share. *)

From S2P Require Import Prelude Text Wire Digest NativeMetadata.

(** ** Data *)

(** [enum MirObligationKind] *)
Inductive MirObligationKind :=
  | KAssertion | ArithmeticSafety | Invariant | LoopInvariant | Termination | UnreachableCode
  | Protocol.

(** [enum ObligationOrigin] *)
Inductive ObligationOrigin := MirDerived | RouterPlaceholder.

#[export] Instance ObligationOrigin_eq_dec : EqDecision ObligationOrigin.
Proof. solve_decision. Defined.

(** [struct MirDerivedChcPdrObligation] *)
Record MirDerivedChcPdrObligation := {
  obligation_id : string;
  obl_kind : MirObligationKind;
  origin : ObligationOrigin;
  native_metadata : option NativeTypedChcObligationMetadata;
  normalized_input : string;
  normalized_input_hash : EvidenceHash }.

(** [enum FullVerificationProblemKind] *)
Inductive FullVerificationProblemKind := ChcPdr | DiagnosticBmc.

(** [enum ChcPdrProofKind] *)
Inductive ChcPdrProofKind := ChcValidity | PdrInvariant.

#[export] Instance FullVerificationProblemKind_eq_dec : EqDecision FullVerificationProblemKind.
Proof. solve_decision. Defined.
#[export] Instance ChcPdrProofKind_eq_dec : EqDecision ChcPdrProofKind.
Proof. solve_decision. Defined.

(** [struct ChcPdrStats] *)
Record ChcPdrStats := { relation_count : N; clause_count : N }.

#[export] Instance ChcPdrStats_eq_dec : EqDecision ChcPdrStats.
Proof. solve_decision. Defined.

(** ** Normalization *)

(** The byte [b'\r']. *)
Definition cr : ascii := "013"%char.

(** [input.replace("\r\n", "\n")] *)
Fixpoint replace_crlf (s : string) : string :=
  match s with
  | String c s' =>
      match s' with
      | String d s'' =>
          if Ascii.eqb c cr && Ascii.eqb d nl then String nl (replace_crlf s'')
          else String c (replace_crlf s')
      | EmptyString => s
      end
  | EmptyString => EmptyString
  end.

(** [while lines.last().is_some_and(|line| line.trim().is_empty()) { lines.pop() }] *)
Fixpoint pop_blank (lines : list string) : list string :=
  match lines with
  | [] => []
  | line :: rest =>
      match pop_blank rest with
      | [] => if is_blank line then [] else [line]
      | kept => line :: kept
      end
  end.

(** [normalize_chc_pdr_input] *)
Definition normalize_chc_pdr_input (input : string) : string :=
  let normalized := replace_char cr nl (replace_crlf input) in
  let lines := pop_blank (Str.lines normalized) in
  Str.join (String nl "") (map Str.trim_end lines) +:+ String nl "".

(** [MirDerivedChcPdrObligation::with_origin] *)
Definition with_origin `{Sha256} (obligation_id : string) (kind : MirObligationKind)
    (origin : ObligationOrigin) (input : string) : MirDerivedChcPdrObligation :=
  let normalized_input := normalize_chc_pdr_input input in
  {| obligation_id := obligation_id; obl_kind := kind; origin := origin; native_metadata := None;
     normalized_input := normalized_input;
     normalized_input_hash := sha256_bytes normalized_input |}.

(** [MirDerivedChcPdrObligation::new] and [router_placeholder] *)
Definition new `{Sha256} (obligation_id : string) (kind : MirObligationKind) (input : string)
    : MirDerivedChcPdrObligation := with_origin obligation_id kind MirDerived input.
Definition router_placeholder `{Sha256} (obligation_id : string) (kind : MirObligationKind)
    (input : string) : MirDerivedChcPdrObligation :=
  with_origin obligation_id kind RouterPlaceholder input.

(** [with_native_metadata] *)
Definition with_native_metadata (metadata : NativeTypedChcObligationMetadata)
    (self : MirDerivedChcPdrObligation) : MirDerivedChcPdrObligation :=
  {| obligation_id := obligation_id self; obl_kind := obl_kind self; origin := origin self;
     native_metadata := Some metadata; normalized_input := normalized_input self;
     normalized_input_hash := normalized_input_hash self |}.

(** ** Lemmas *)

Definition no_char (x : ascii) (s : string) : bool :=
  Str.chars_all (fun c => negb (Ascii.eqb c x)) s.

Lemma chars_all_app f a b : Str.chars_all f (a +:+ b) = Str.chars_all f a && Str.chars_all f b.
Proof. induction a as [|c a IH]; cbn; [done|]. by rewrite IH, andb_assoc. Qed.

Lemma replace_char_no (x y : ascii) s : Ascii.eqb y x = false -> no_char x (replace_char x y s) = true.
Proof.
  intros N. induction s as [|c s IH]; cbn; [done|]. unfold no_char in *. rewrite IH, andb_true_r.
  destruct (Ascii.eqb c x) eqn:E; [by rewrite N|by rewrite E].
Qed.

Lemma replace_crlf_absent s : no_char cr s = true -> replace_crlf s = s.
Proof.
  induction s as [|c s IH]; [done|]. unfold no_char. cbn [Str.chars_all].
  intros [C A]%andb_true_iff. apply negb_true_iff in C.
  assert (E : replace_crlf (String c s) = String c (replace_crlf s)).
  { destruct s as [|d s]; [done|]. change (replace_crlf (String c (String d s))) with
      (if Ascii.eqb c cr && Ascii.eqb d nl then String nl (replace_crlf s)
       else String c (replace_crlf (String d s))). by rewrite C. }
  rewrite E. f_equal. by apply IH.
Qed.

Lemma trim_end_unfold c s : Str.trim_end (String c s) =
  if Str.is_white (String c (Str.trim_end s)) then "" else String c (Str.trim_end s).
Proof. reflexivity. Qed.

Lemma trim_end_idem s : Str.trim_end (Str.trim_end s) = Str.trim_end s.
Proof.
  induction s as [|c s IH]; [done|]. rewrite trim_end_unfold.
  destruct (Str.is_white (String c (Str.trim_end s))) eqn:W; [done|]. by rewrite trim_end_unfold, IH, W.
Qed.

Lemma is_blank_trim_end s : is_blank (Str.trim_end s) = is_blank s.
Proof. unfold is_blank, Str.trim. by rewrite trim_end_idem. Qed.

Lemma trim_end_chars f s : Str.chars_all f s = true -> Str.chars_all f (Str.trim_end s) = true.
Proof.
  induction s as [|c s IH]; [done|]. cbn [Str.chars_all]. intros [C A]%andb_true_iff. specialize (IH A).
  rewrite trim_end_unfold. destruct (Str.is_white _); [done|]. cbn [Str.chars_all]. by rewrite C, IH.
Qed.

Lemma pop_blank_sub lines line : line ∈ pop_blank lines -> line ∈ lines.
Proof.
  induction lines as [|l lines IH]; cbn; [done|].
  destruct (pop_blank lines) as [|k kept] eqn:E.
  - destruct (is_blank l); set_solver.
  - rewrite elem_of_cons. intros [->|H]; [by left|right]. by apply IH.
Qed.

Lemma pop_blank_idem lines : pop_blank (pop_blank lines) = pop_blank lines.
Proof.
  induction lines as [|l lines IH]; [done|]. cbn.
  destruct (pop_blank lines) as [|k kept] eqn:E.
  - destruct (is_blank l) eqn:B; [done|]. cbn. by rewrite B.
  - change (pop_blank (l :: k :: kept)) with
      (match pop_blank (k :: kept) with [] => if is_blank l then [] else [l] | r => l :: r end).
    by rewrite IH.
Qed.

Lemma pop_blank_map lines :
  pop_blank (map Str.trim_end lines) = map Str.trim_end (pop_blank lines).
Proof.
  induction lines as [|l lines IH]; [done|]. cbn. rewrite IH, is_blank_trim_end.
  destruct (pop_blank lines) as [|k kept]; cbn; [by destruct (is_blank l)|done].
Qed.

Lemma lines_no_nl s line : line ∈ Str.lines s -> no_char nl line = true.
Proof.
  revert line. induction s as [|c s IH]; intros line; cbn; [by intros ?%elem_of_nil|].
  destruct (Ascii.eqb c nl) eqn:E.
  - rewrite elem_of_cons. intros [->|H]; [done|by apply IH].
  - destruct (Str.lines s) as [|l ls] eqn:L; rewrite ?elem_of_cons.
    + intros [->|H%elem_of_nil]; [|done]. unfold no_char. cbn. by rewrite E.
    + intros [->|H]; [|by apply IH; right]. unfold no_char. cbn. rewrite E. apply (IH l). left.
Qed.

Lemma lines_no_char x s line : no_char x s = true -> line ∈ Str.lines s -> no_char x line = true.
Proof.
  revert line. induction s as [|c s IH]; intros line; cbn; [by intros _ ?%elem_of_nil|].
  intros [C A]%andb_true_iff. destruct (Ascii.eqb c nl).
  - rewrite elem_of_cons. intros [->|H]; [done|by apply IH].
  - destruct (Str.lines s) as [|l ls] eqn:L; rewrite ?elem_of_cons.
    + intros [->|H%elem_of_nil]; [|done]. unfold no_char. cbn. by rewrite C.
    + intros [->|H]; [|apply IH; [done|by right]]. unfold no_char. cbn. rewrite C.
      apply (IH l); [done|left].
Qed.

(** Splitting undoes joining. *)
Lemma lines_app line rest :
  no_char nl line = true -> Str.lines (line +:+ String nl rest) = line :: Str.lines rest.
Proof.
  induction line as [|c line IH]; cbn.
  - intros _. by rewrite Ascii.eqb_refl.
  - intros [C%negb_true_iff A]%andb_true_iff. by rewrite C, IH.
Qed.

Lemma lines_join ls :
  ls <> [] -> (forall line, line ∈ ls -> no_char nl line = true) ->
  Str.lines (Str.join (String nl "") ls +:+ String nl "") = ls.
Proof.
  induction ls as [|l ls IH]; intros Ne A; [done|]. destruct ls as [|l' ls].
  - cbn [Str.join]. rewrite lines_app by (apply A; left). done.
  - change (Str.join (String nl "") (l :: l' :: ls)) with
      (l +:+ String nl "" +:+ Str.join (String nl "") (l' :: ls)).
    rewrite <- Str.app_assoc. cbn [String.append]. rewrite lines_app by (apply A; left).
    f_equal. apply IH; [done|]. intros line H. apply A. by right.
Qed.

Lemma no_char_join x ls :
  Ascii.eqb nl x = false -> (forall line, line ∈ ls -> no_char x line = true) ->
  no_char x (Str.join (String nl "") ls +:+ String nl "") = true.
Proof.
  intros N A. unfold no_char in *. rewrite chars_all_app. cbn. rewrite N, andb_true_r.
  induction ls as [|l ls IH]; [done|]. destruct ls as [|l' ls].
  - apply A. left.
  - cbn [Str.join]. rewrite !chars_all_app. cbn. rewrite N, A by left. apply IH.
    intros line H. apply A. by right.
Qed.

(** The lines the normal form consists of. *)
Definition normal_lines (input : string) : list string :=
  map Str.trim_end (pop_blank (Str.lines (replace_char cr nl (replace_crlf input)))).

Lemma normal_lines_no input x line :
  x = nl \/ x = cr -> line ∈ normal_lines input -> no_char x line = true.
Proof.
  intros X (l & -> & Hl)%list_elem_of_fmap. apply trim_end_chars.
  apply pop_blank_sub in Hl. destruct X as [->| ->]; [by eapply lines_no_nl|].
  eapply lines_no_char; [|done]. by apply replace_char_no.
Qed.

Lemma normalize_no_cr input : no_char cr (normalize_chc_pdr_input input) = true.
Proof.
  apply no_char_join; [done|]. intros line H. eapply normal_lines_no; [by right|exact H].
Qed.

Lemma normal_lines_fixed input :
  normal_lines (normalize_chc_pdr_input input) = normal_lines input.
Proof.
  unfold normal_lines at 1. rewrite replace_crlf_absent by apply normalize_no_cr.
  rewrite replace_char_absent by apply normalize_no_cr.
  change (normalize_chc_pdr_input input) with
    (Str.join (String nl "") (normal_lines input) +:+ String nl "").
  destruct (decide (normal_lines input = [])) as [->|Ne]; [done|].
  rewrite lines_join; [|done|intros line; apply normal_lines_no; by left].
  unfold normal_lines. rewrite pop_blank_map, pop_blank_idem, map_map.
  apply map_ext. intros l. apply trim_end_idem.
Qed.

(** *** The other spellings of a line end *)

Fixpoint to_crlf (s : string) : string :=
  match s with
  | EmptyString => EmptyString
  | String c s' => if Ascii.eqb c nl then String cr (String nl (to_crlf s')) else String c (to_crlf s')
  end.

Lemma replace_crlf_cons c s :
  Ascii.eqb c cr = false -> replace_crlf (String c s) = String c (replace_crlf s).
Proof.
  intros C. destruct s as [|d s]; [done|].
  change (replace_crlf (String c (String d s))) with
    (if Ascii.eqb c cr && Ascii.eqb d nl then String nl (replace_crlf s)
     else String c (replace_crlf (String d s))). by rewrite C.
Qed.

Lemma replace_to_crlf s : no_char cr s = true -> replace_crlf (to_crlf s) = s.
Proof.
  induction s as [|c s IH]; [done|]. unfold no_char. cbn [Str.chars_all to_crlf].
  intros [C%negb_true_iff A]%andb_true_iff. destruct (Ascii.eqb_spec c nl) as [->|Ne].
  - cbn. f_equal. by apply IH.
  - rewrite replace_crlf_cons by done. f_equal. by apply IH.
Qed.

Lemma replace_crlf_no_nl s : no_char nl s = true -> replace_crlf s = s.
Proof.
  induction s as [|c s IH]; [done|]. unfold no_char. cbn [Str.chars_all].
  intros [C A]%andb_true_iff. destruct s as [|d s]; [done|].
  change (replace_crlf (String c (String d s))) with
    (if Ascii.eqb c cr && Ascii.eqb d nl then String nl (replace_crlf s)
     else String c (replace_crlf (String d s))).
  assert (Ascii.eqb d nl = false) as ->
    by (cbn [Str.chars_all] in A; by apply andb_true_iff in A as [?%negb_true_iff _]).
  rewrite andb_false_r. f_equal. by apply IH.
Qed.

Lemma replace_char_back x y s : no_char y s = true -> replace_char y x (replace_char x y s) = s.
Proof.
  induction s as [|c s IH]; [done|]. unfold no_char. cbn. intros [C%negb_true_iff A]%andb_true_iff.
  rewrite IH by done. destruct (Ascii.eqb_spec c x) as [->|]; [by rewrite Ascii.eqb_refl|by rewrite C].
Qed.

(** ** Property *)

(** The digest is taken of a normal form.  Normalizing twice is normalizing
    once, so an obligation built from already normalized text keeps its digest;
    the normal form holds no carriage return, its lines are those of the input
    without trailing white space and without the blank lines at the end, and
    ending the lines of a text with a carriage return, or with both, gives the
    same normal form. *)
Theorem normalize_spec `{Sha256} (id : string) (kind : MirObligationKind) (input : string) :
  normalize_chc_pdr_input (normalize_chc_pdr_input input) = normalize_chc_pdr_input input /\
  no_char cr (normalize_chc_pdr_input input) = true /\
  (normal_lines input <> [] ->
     Str.lines (normalize_chc_pdr_input input) = normal_lines input) /\
  (no_char cr input = true ->
     normalize_chc_pdr_input (to_crlf input) = normalize_chc_pdr_input input /\
     normalize_chc_pdr_input (replace_char nl cr input) = normalize_chc_pdr_input input) /\
  new id kind (normalized_input (new id kind input)) = new id kind input.
Proof.
  assert (I : normalize_chc_pdr_input (normalize_chc_pdr_input input) = normalize_chc_pdr_input input).
  { change (Str.join (String nl "") (normal_lines (normalize_chc_pdr_input input)) +:+ String nl ""
      = normalize_chc_pdr_input input). by rewrite normal_lines_fixed. }
  split; [exact I|]. split; [apply normalize_no_cr|]. split.
  - intros Ne. apply lines_join; [done|]. intros line. apply normal_lines_no. by left.
  - split; [|unfold new, with_origin; cbn [normalized_input]; by rewrite I].
    intros N. unfold normalize_chc_pdr_input.
    rewrite replace_to_crlf, (replace_crlf_no_nl (replace_char nl cr input)), replace_char_back by (done || by apply replace_char_no).
    by rewrite (replace_crlf_absent input), (replace_char_absent cr nl input).
Qed.
