(* ===== verification/CacheKey.v ===== *)
(** * Cache keys and evidence manifests

    [FullVerificationCacheKey] and [ContentAddressedEvidenceManifest] of
    trust-mc-core/src/evidence.rs.  A key is the digest of a text of
    length-prefixed key and value pairs. *)

From S2P Require Import Prelude Text Wire Digest NativeMetadata EvidenceArtifact.

(** ** The text that is hashed *)

(** [push_cache_component] *)
Definition push_cache_component (payload key value : string) : string :=
  payload +:+ pretty (len key) +:+ ":" +:+ key +:+ "=" +:+ pretty (len value) +:+ ":" +:+ value +:+ ";".

(** [artifact_kind_cache_name] *)
Definition artifact_kind_cache_name (k : FullVerificationArtifactKind) : string :=
  match k with
  | CompilerInput => "compiler_input"
  | ObligationSet => "obligation_set"
  | TypedBmcProblem => "typed_bmc_problem"
  | TypedChcProblem => "typed_chc_problem"
  | SmtRendering => "smt_rendering"
  | SolverBinary => "solver_binary"
  | VerificationOptions => "verification_options"
  | ResourceLimits => "resource_limits"
  | NormalizedInput => "normalized_input"
  | SolverTranscript => "solver_transcript"
  | PdrInvariantModel => "pdr_invariant_model"
  | ReplayLog => "replay_log"
  | CheckedProofReport => "checked_proof_report"
  | CounterexampleTrace => "counterexample_trace"
  | DiagnosticTrace => "diagnostic_trace"
  | EvidenceManifest => "evidence_manifest"
  end.

(** [push_artifact_component] *)
Definition push_artifact_component (payload role : string) (a : FullVerificationArtifact) : string :=
  let p := push_cache_component payload role "present" in
  let p := push_cache_component p (role +:+ ".kind") (artifact_kind_cache_name (kind a)) in
  let p := push_cache_component p (role +:+ ".label") (label a) in
  let p := match digest a with
           | Some d =>
               let p := push_cache_component p (role +:+ ".digest.algorithm") (algorithm d) in
               push_cache_component p (role +:+ ".digest.value") (hash_value d)
           | None => push_cache_component p (role +:+ ".digest") "missing"
           end in
  match byte_len a with
  | Some n => push_cache_component p (role +:+ ".byte_len") (pretty n)
  | None => push_cache_component p (role +:+ ".byte_len") "missing"
  end.

(** [push_optional_artifact_component] *)
Definition push_optional_artifact_component (payload role : string)
    (a : option FullVerificationArtifact) : string :=
  match a with
  | Some a => push_artifact_component payload role a
  | None => push_cache_component payload role "absent"
  end.

(** [push_artifact_vec_component]: the length, then every artifact under its index. *)
Fixpoint push_artifacts_from (idx : nat) (payload role : string)
    (artifacts : list FullVerificationArtifact) : string :=
  match artifacts with
  | [] => payload
  | a :: rest =>
      push_artifacts_from (S idx)
        (push_artifact_component payload (role +:+ "." +:+ pretty (N.of_nat idx)) a) role rest
  end.
Definition push_artifact_vec_component (payload role : string)
    (artifacts : list FullVerificationArtifact) : string :=
  push_artifacts_from 0
    (push_cache_component payload (role +:+ ".len") (pretty (N.of_nat (length artifacts))))
    role artifacts.

(** ** Cache keys *)

(** [struct FullVerificationCacheKeyParts] *)
Record FullVerificationCacheKeyParts := {
  trust_mc_version : string;
  trust_mc_commit : string;
  trust_mc_dirty : bool;
  ay_solver : FullVerificationArtifact;
  trust_ir_snapshot : option FullVerificationArtifact;
  proof_mode : string;
  key_options : FullVerificationArtifact;
  key_resource_limits : FullVerificationArtifact;
  key_normalized_input_hash : EvidenceHash;
  obligation_set_hash : EvidenceHash }.

(** [struct FullVerificationCacheKey] *)
Record FullVerificationCacheKey := {
  key_schema_version : N; key : EvidenceHash; parts : FullVerificationCacheKeyParts }.

Definition KEY_SCHEMA_VERSION : N := 1.

Section CacheKey.
Context `{Sha256}.

(** [full_verification_cache_key] *)
Definition cache_key_payload (p : FullVerificationCacheKeyParts) : string :=
  let t := push_cache_component "" "schema_version" (pretty KEY_SCHEMA_VERSION) in
  let t := push_cache_component t "trust_mc_version" (trust_mc_version p) in
  let t := push_cache_component t "trust_mc_commit" (trust_mc_commit p) in
  let t := push_cache_component t "trust_mc_dirty" (if trust_mc_dirty p then "1" else "0") in
  let t := push_artifact_component t "ay_solver" (ay_solver p) in
  let t := push_optional_artifact_component t "trust_ir_snapshot" (trust_ir_snapshot p) in
  let t := push_cache_component t "proof_mode" (proof_mode p) in
  let t := push_artifact_component t "options" (key_options p) in
  let t := push_artifact_component t "resource_limits" (key_resource_limits p) in
  let t := push_cache_component t "normalized_input_hash.algorithm"
             (algorithm (key_normalized_input_hash p)) in
  let t := push_cache_component t "normalized_input_hash.value"
             (hash_value (key_normalized_input_hash p)) in
  let t := push_cache_component t "obligation_set_hash.algorithm" (algorithm (obligation_set_hash p)) in
  push_cache_component t "obligation_set_hash.value" (hash_value (obligation_set_hash p)).
Definition full_verification_cache_key (p : FullVerificationCacheKeyParts) : EvidenceHash :=
  sha256_bytes (cache_key_payload p).

(** [FullVerificationCacheKey::from_parts] and [recompute_key] *)
Definition key_from_parts (p : FullVerificationCacheKeyParts) : FullVerificationCacheKey :=
  {| key_schema_version := KEY_SCHEMA_VERSION; key := full_verification_cache_key p; parts := p |}.
Definition recompute_key (self : FullVerificationCacheKey) : EvidenceHash :=
  full_verification_cache_key (parts self).

(** [require_artifact_digest], [optional_artifact_digest] *)
Definition require_artifact_digest (role : string) (a : FullVerificationArtifact) : list string :=
  match digest a with
  | Some d => if is_canonical_sha256 d then []
              else [role +:+ " digest metadata is not canonical SHA-256"]
  | None => [role +:+ " artifact is missing digest metadata"]
  end.
Definition optional_artifact_digest (role : string) (a : option FullVerificationArtifact)
    : list string :=
  match a with Some a => require_artifact_digest role a | None => [] end.

(** [FullVerificationCacheKey::validate] *)
Definition key_errors (self : FullVerificationCacheKey) : list string :=
  let p := parts self in
  push_if (negb (N.eqb (key_schema_version self) KEY_SCHEMA_VERSION))
    ("unsupported full-verification cache-key schema version: expected "
     +:+ pretty KEY_SCHEMA_VERSION +:+ ", got " +:+ pretty (key_schema_version self)) ++
  push_if (is_blank (trust_mc_version p)) "cache key is missing trust_mc version identity" ++
  push_if (is_blank (trust_mc_commit p)) "cache key is missing trust_mc commit identity" ++
  push_if (is_blank (proof_mode p)) "cache key is missing proof mode" ++
  require_artifact_digest "ay_solver" (ay_solver p) ++
  optional_artifact_digest "trust_ir_snapshot" (trust_ir_snapshot p) ++
  require_artifact_digest "options" (key_options p) ++
  require_artifact_digest "resource_limits" (key_resource_limits p) ++
  push_if (negb (is_canonical_sha256 (key_normalized_input_hash p)))
    "cache key normalized input hash is not canonical SHA-256" ++
  push_if (negb (is_canonical_sha256 (obligation_set_hash p)))
    "cache key obligation-set hash is not canonical SHA-256" ++
  (if negb (is_canonical_sha256 (key self)) then ["cache key digest is not canonical SHA-256"]
   else push_if (negb (bool_decide (key self = recompute_key self)))
          "cache key digest does not match cache-key parts").
Definition key_validate (self : FullVerificationCacheKey) : result (list string) unit :=
  match key_errors self with [] => Ok tt | errors => Err errors end.

(** ** Manifests *)

(** [struct ContentAddressedEvidenceManifestParts] *)
Record ContentAddressedEvidenceManifestParts := {
  input : FullVerificationArtifact;
  obligation_set : FullVerificationArtifact;
  typed_problem : option FullVerificationArtifact;
  smt_rendering : option FullVerificationArtifact;
  solver_binary : option FullVerificationArtifact;
  solver_transcript : option FullVerificationArtifact;
  replay_log : option FullVerificationArtifact;
  checked_report : option FullVerificationArtifact;
  invariants : list FullVerificationArtifact;
  counterexamples : list FullVerificationArtifact;
  options : FullVerificationArtifact;
  resource_limits : FullVerificationArtifact }.

(** [struct ContentAddressedEvidenceManifest]: a version, a key and the parts,
    which [ContentAddressedEvidenceManifest::parts] reads back. *)
Record ContentAddressedEvidenceManifest := {
  manifest_schema_version : N;
  cache_key : EvidenceHash;
  manifest_parts : ContentAddressedEvidenceManifestParts }.

Definition MANIFEST_SCHEMA_VERSION : N := 1.

(** [manifest_cache_key] *)
Definition manifest_payload (p : ContentAddressedEvidenceManifestParts) : string :=
  let t := push_cache_component "" "schema_version" (pretty MANIFEST_SCHEMA_VERSION) in
  let t := push_artifact_component t "input" (input p) in
  let t := push_artifact_component t "obligation_set" (obligation_set p) in
  let t := push_optional_artifact_component t "typed_problem" (typed_problem p) in
  let t := push_optional_artifact_component t "smt_rendering" (smt_rendering p) in
  let t := push_optional_artifact_component t "solver_binary" (solver_binary p) in
  let t := push_optional_artifact_component t "solver_transcript" (solver_transcript p) in
  let t := push_optional_artifact_component t "replay_log" (replay_log p) in
  let t := push_optional_artifact_component t "checked_report" (checked_report p) in
  let t := push_artifact_vec_component t "invariants" (invariants p) in
  let t := push_artifact_vec_component t "counterexamples" (counterexamples p) in
  let t := push_artifact_component t "options" (options p) in
  push_artifact_component t "resource_limits" (resource_limits p).
Definition manifest_cache_key (p : ContentAddressedEvidenceManifestParts) : EvidenceHash :=
  sha256_bytes (manifest_payload p).

(** [ContentAddressedEvidenceManifest::from_parts], [recompute_cache_key] *)
Definition manifest_from_parts (p : ContentAddressedEvidenceManifestParts)
    : ContentAddressedEvidenceManifest :=
  {| manifest_schema_version := MANIFEST_SCHEMA_VERSION; cache_key := manifest_cache_key p;
     manifest_parts := p |}.
Definition recompute_cache_key (self : ContentAddressedEvidenceManifest) : EvidenceHash :=
  manifest_cache_key (manifest_parts self).

(** [ContentAddressedEvidenceManifest::validate] *)
Definition manifest_errors (self : ContentAddressedEvidenceManifest) : list string :=
  let p := manifest_parts self in
  push_if (negb (N.eqb (manifest_schema_version self) MANIFEST_SCHEMA_VERSION))
    ("unsupported manifest schema version: expected " +:+ pretty MANIFEST_SCHEMA_VERSION
     +:+ ", got " +:+ pretty (manifest_schema_version self)) ++
  require_artifact_digest "input" (input p) ++
  require_artifact_digest "obligation_set" (obligation_set p) ++
  require_artifact_digest "options" (options p) ++
  require_artifact_digest "resource_limits" (resource_limits p) ++
  optional_artifact_digest "typed_problem" (typed_problem p) ++
  optional_artifact_digest "smt_rendering" (smt_rendering p) ++
  optional_artifact_digest "solver_binary" (solver_binary p) ++
  optional_artifact_digest "solver_transcript" (solver_transcript p) ++
  optional_artifact_digest "replay_log" (replay_log p) ++
  optional_artifact_digest "checked_report" (checked_report p) ++
  flat_map (require_artifact_digest "invariant") (invariants p) ++
  flat_map (require_artifact_digest "counterexample") (counterexamples p) ++
  (if negb (is_canonical_sha256 (cache_key self)) then ["manifest cache key is not canonical SHA-256"]
   else push_if (negb (bool_decide (cache_key self = recompute_cache_key self)))
          "manifest cache key does not match manifest contents").
Definition manifest_validate (self : ContentAddressedEvidenceManifest) : result (list string) unit :=
  match manifest_errors self with [] => Ok tt | errors => Err errors end.

End CacheKey.

(** ** The text as a list of pairs *)

Definition component (kv : string * string) : string :=
  pretty (len kv.1) +:+ ":" +:+ kv.1 +:+ "=" +:+ pretty (len kv.2) +:+ ":" +:+ kv.2 +:+ ";".

Fixpoint encode (l : list (string * string)) : string :=
  match l with [] => "" | kv :: l' => component kv +:+ encode l' end.

Definition artifact_components (role : string) (a : FullVerificationArtifact)
    : list (string * string) :=
  [(role, "present"); (role +:+ ".kind", artifact_kind_cache_name (kind a));
   (role +:+ ".label", label a)] ++
  match digest a with
  | Some d => [(role +:+ ".digest.algorithm", algorithm d); (role +:+ ".digest.value", hash_value d)]
  | None => [(role +:+ ".digest", "missing")]
  end ++
  [(role +:+ ".byte_len", match byte_len a with Some n => pretty n | None => "missing" end)].

Definition optional_components (role : string) (a : option FullVerificationArtifact)
    : list (string * string) :=
  match a with Some a => artifact_components role a | None => [(role, "absent")] end.

Fixpoint vec_components_from (idx : nat) (role : string) (l : list FullVerificationArtifact)
    : list (string * string) :=
  match l with
  | [] => []
  | a :: l' => artifact_components (role +:+ "." +:+ pretty (N.of_nat idx)) a
               ++ vec_components_from (S idx) role l'
  end.
Definition vec_components (role : string) (l : list FullVerificationArtifact) :=
  (role +:+ ".len", pretty (N.of_nat (length l))) :: vec_components_from 0 role l.

(** What a key says of an artifact: everything but the retained bytes. *)
Definition identity (a : FullVerificationArtifact)
    : FullVerificationArtifactKind * string * option EvidenceHash * option N :=
  (kind a, label a, digest a, byte_len a).

Lemma encode_app l k : encode (l ++ k) = encode l +:+ encode k.
Proof. induction l as [|kv l IH]; cbn [encode app]; [done|]. by rewrite IH, Str.app_assoc. Qed.

Lemma push_component p k v : push_cache_component p k v = p +:+ encode [(k, v)].
Proof. unfold push_cache_component. cbn [encode]. by rewrite Str.app_nil_r. Qed.

Lemma push_artifact p role a :
  push_artifact_component p role a = p +:+ encode (artifact_components role a).
Proof.
  unfold push_artifact_component, artifact_components. cbv zeta.
  destruct (digest a), (byte_len a); rewrite !push_component, !encode_app; cbn [encode app];
    by rewrite ?Str.app_nil_r, ?Str.app_assoc.
Qed.

Lemma push_optional p role a :
  push_optional_artifact_component p role a = p +:+ encode (optional_components role a).
Proof. destruct a; [apply push_artifact|apply push_component]. Qed.

Lemma push_vec p role l :
  push_artifact_vec_component p role l = p +:+ encode (vec_components role l).
Proof.
  unfold push_artifact_vec_component, vec_components.
  change (encode (?kv :: ?l)) with (component kv +:+ encode l). rewrite push_component.
  cbn [encode]. rewrite Str.app_nil_r, Str.app_assoc.
  generalize (p +:+ component (role +:+ ".len", pretty (N.of_nat (length l)))).
  generalize 0. induction l as [|a l IH]; intros idx q; cbn [push_artifacts_from vec_components_from encode].
  - by rewrite Str.app_nil_r.
  - by rewrite IH, push_artifact, encode_app, (Str.app_assoc q).
Qed.

(** *** Reading the pairs back *)

Lemma append_same_length (a b x y : string) :
  String.length a = String.length b -> a +:+ x = b +:+ y -> a = b /\ x = y.
Proof.
  revert b. induction a as [|c a IH]; intros [|d b] L E; cbn in *; [done|discriminate..|].
  injection L as L. injection E as -> E. destruct (IH b L E) as [-> ->]. done.
Qed.

(** A length, its separator and that many bytes. *)
Lemma prefixed_inj (sep : ascii) (a b x y : string) :
  Str.is_digit sep = false ->
  pretty (len a) +:+ String sep (a +:+ x) = pretty (len b) +:+ String sep (b +:+ y) ->
  a = b /\ x = y.
Proof.
  intros S E. apply digits_then in E as [L E].
  2,3: apply Str.pretty_digits.
  2,3: cbn; by rewrite S.
  apply pretty_N_inj in L. injection E as E. apply append_same_length in E; [done|].
  unfold len in L. lia.
Qed.

Lemma component_inj kv kv' x y :
  component kv +:+ x = component kv' +:+ y -> kv = kv' /\ x = y.
Proof.
  destruct kv as [k v], kv' as [k' v']. unfold component. cbn [fst snd].
  rewrite <- !Str.app_assoc. cbn [String.append]. intros E.
  apply prefixed_inj in E as [-> E]; [|done]. injection E as E.
  apply prefixed_inj in E as [-> E]; [|done]. by injection E as ->.
Qed.

Lemma component_not_empty kv x : component kv +:+ x <> "".
Proof.
  unfold component. destruct (Str.pretty_cons (len kv.1)) as (c & s & -> & _). done.
Qed.

Lemma encode_inj l k : encode l = encode k -> l = k.
Proof.
  revert k. induction l as [|kv l IH]; intros [|kv' k] E; cbn [encode] in E; [done|..].
  - symmetry in E. by apply component_not_empty in E.
  - by apply component_not_empty in E.
  - apply component_inj in E as [-> E]. f_equal. by apply IH.
Qed.

Lemma kind_name_inj k k' : artifact_kind_cache_name k = artifact_kind_cache_name k' -> k = k'.
Proof. by destruct k, k'. Qed.

Lemma byte_len_text_inj (n n' : option N) :
  match n with Some n => pretty n | None => "missing" end =
  match n' with Some n => pretty n | None => "missing" end -> n = n'.
Proof.
  destruct n as [n|], n' as [n'|]; intros E; [by apply pretty_N_inj in E as ->|..|done].
  - destruct (Str.pretty_cons n) as (c & s & P & D). rewrite P in E. by injection E as -> _.
  - destruct (Str.pretty_cons n') as (c & s & P & D). rewrite P in E. by injection E as <- _.
Qed.

Lemma artifact_components_inj role a b x y :
  artifact_components role a ++ x = artifact_components role b ++ y ->
  identity a = identity b /\ x = y.
Proof.
  unfold artifact_components, identity. cbn [app].
  intros [= K L E]. apply kind_name_inj in K.
  destruct (digest a) as [[da va]|] eqn:Da, (digest b) as [[db vb]|] eqn:Db; cbn in E.
  - injection E as -> -> B ->. apply byte_len_text_inj in B. by rewrite K, L, B.
  - injection E as E _ _. by apply append_eq in E.
  - injection E as E _ _. by apply append_eq in E.
  - injection E as B ->. apply byte_len_text_inj in B. by rewrite K, L, B.
Qed.

Lemma optional_components_inj role a b x y :
  optional_components role a ++ x = optional_components role b ++ y ->
  identity <$> a = identity <$> b /\ x = y.
Proof.
  destruct a as [a|], b as [b|]; cbn [optional_components fmap option_fmap option_map].
  - intros (-> & ->)%artifact_components_inj. done.
  - intros [= E _].
  - intros [= E _].
  - by intros [= ->].
Qed.

Lemma vec_components_inj role l k x y :
  vec_components role l ++ x = vec_components role k ++ y -> map identity l = map identity k /\ x = y.
Proof.
  unfold vec_components. cbn [app]. intros [= L E].
  apply pretty_N_inj in L. assert (Len : length l = length k) by lia. clear L.
  revert E. generalize 0. revert k Len. induction l as [|a l IH]; intros [|b k] Len idx E;
    cbn in Len; try discriminate; cbn [vec_components_from app] in E; [done|].
  rewrite <- !app_assoc in E. apply artifact_components_inj in E as [Ea E].
  apply IH in E as [El ->]; [|lia]. cbn. by rewrite Ea, El.
Qed.

Lemma pair_cons_inj (k k' v v' : string) (x y : list (string * string)) :
  (k, v) :: x = (k', v') :: y -> v = v' /\ x = y.
Proof. intros E. by simplify_eq. Qed.

(** *** The payloads *)

Definition key_components (p : FullVerificationCacheKeyParts) : list (string * string) :=
  [("schema_version", pretty KEY_SCHEMA_VERSION); ("trust_mc_version", trust_mc_version p);
   ("trust_mc_commit", trust_mc_commit p); ("trust_mc_dirty", if trust_mc_dirty p then "1" else "0")] ++
  artifact_components "ay_solver" (ay_solver p) ++
  optional_components "trust_ir_snapshot" (trust_ir_snapshot p) ++
  [("proof_mode", proof_mode p)] ++
  artifact_components "options" (key_options p) ++
  artifact_components "resource_limits" (key_resource_limits p) ++
  [("normalized_input_hash.algorithm", algorithm (key_normalized_input_hash p));
   ("normalized_input_hash.value", hash_value (key_normalized_input_hash p));
   ("obligation_set_hash.algorithm", algorithm (obligation_set_hash p));
   ("obligation_set_hash.value", hash_value (obligation_set_hash p))].

Definition manifest_components (p : ContentAddressedEvidenceManifestParts) : list (string * string) :=
  [("schema_version", pretty MANIFEST_SCHEMA_VERSION)] ++
  artifact_components "input" (input p) ++
  artifact_components "obligation_set" (obligation_set p) ++
  optional_components "typed_problem" (typed_problem p) ++
  optional_components "smt_rendering" (smt_rendering p) ++
  optional_components "solver_binary" (solver_binary p) ++
  optional_components "solver_transcript" (solver_transcript p) ++
  optional_components "replay_log" (replay_log p) ++
  optional_components "checked_report" (checked_report p) ++
  vec_components "invariants" (invariants p) ++
  vec_components "counterexamples" (counterexamples p) ++
  artifact_components "options" (options p) ++
  artifact_components "resource_limits" (resource_limits p).

Ltac collect_pushes :=
  rewrite ?push_component, ?push_artifact, ?push_optional, ?push_vec;
  rewrite <- ?Str.app_assoc; cbn [String.append]; rewrite <- ?encode_app;
  rewrite <- ?app_assoc; reflexivity.

Lemma cache_key_payload_eq p : cache_key_payload p = encode (key_components p).
Proof. unfold cache_key_payload, key_components. cbv zeta. collect_pushes. Qed.

Lemma manifest_payload_eq p : manifest_payload p = encode (manifest_components p).
Proof. unfold manifest_payload, manifest_components. cbv zeta. collect_pushes. Qed.

(** What a cache key covers. *)
Definition key_identity (p : FullVerificationCacheKeyParts) :=
  (trust_mc_version p, trust_mc_commit p, trust_mc_dirty p, identity (ay_solver p),
   identity <$> trust_ir_snapshot p, proof_mode p, identity (key_options p),
   identity (key_resource_limits p), key_normalized_input_hash p, obligation_set_hash p).

(** What a manifest key covers. *)
Definition manifest_identity (p : ContentAddressedEvidenceManifestParts) :=
  (identity (input p), identity (obligation_set p), identity <$> typed_problem p,
   identity <$> smt_rendering p, identity <$> solver_binary p, identity <$> solver_transcript p,
   identity <$> replay_log p, identity <$> checked_report p, map identity (invariants p),
   map identity (counterexamples p), identity (options p), identity (resource_limits p)).

Lemma key_components_inj p q : key_components p = key_components q -> key_identity p = key_identity q.
Proof.
  unfold key_components, key_identity. cbn [app]. intros E.
  do 4 apply pair_cons_inj in E as [? E].
  apply artifact_components_inj in E as [-> E].
  apply optional_components_inj in E as [-> E].
  apply pair_cons_inj in E as [-> E].
  apply artifact_components_inj in E as [-> E].
  apply artifact_components_inj in E as [-> E].
  injection E as N1 N2 O1 O2. simplify_eq.
  assert (trust_mc_dirty p = trust_mc_dirty q) as -> by (by destruct (trust_mc_dirty p), (trust_mc_dirty q)).
  destruct (key_normalized_input_hash p), (key_normalized_input_hash q), (obligation_set_hash p),
    (obligation_set_hash q); cbn in *; congruence.
Qed.

Lemma manifest_components_inj p q :
  manifest_components p = manifest_components q -> manifest_identity p = manifest_identity q.
Proof.
  unfold manifest_components, manifest_identity. cbn [app]. intros E. apply pair_cons_inj in E as [_ E].
  apply artifact_components_inj in E as [-> E].
  apply artifact_components_inj in E as [-> E].
  do 6 apply optional_components_inj in E as [-> E].
  do 2 apply vec_components_inj in E as [-> E].
  apply artifact_components_inj in E as [-> E].
  rewrite <- (app_nil_r (artifact_components "resource_limits" (resource_limits p))),
    <- (app_nil_r (artifact_components "resource_limits" (resource_limits q))) in E.
  by apply artifact_components_inj in E as [-> _].
Qed.

Section KeyLemmas.
Context `{Sha256}.

Lemma hashed_inj x y : sha256_bytes (encode x) = sha256_bytes (encode y) -> x = y \/ collides (encode x) (encode y).
Proof. intros [E|]%sha256_bytes_inj; [left; by apply encode_inj|by right]. Qed.

Lemma cache_key_binds p q :
  full_verification_cache_key p = full_verification_cache_key q ->
  key_identity p = key_identity q \/ collides (cache_key_payload p) (cache_key_payload q).
Proof.
  unfold full_verification_cache_key. rewrite !cache_key_payload_eq.
  intros [E|]%hashed_inj; [left; by apply key_components_inj|by right].
Qed.

Lemma manifest_key_binds p q :
  manifest_cache_key p = manifest_cache_key q ->
  manifest_identity p = manifest_identity q \/ collides (manifest_payload p) (manifest_payload q).
Proof.
  unfold manifest_cache_key. rewrite !manifest_payload_eq.
  intros [E|]%hashed_inj; [left; by apply manifest_components_inj|by right].
Qed.

Definition digest_stated (a : FullVerificationArtifact) : Prop :=
  exists d, digest a = Some d /\ is_canonical_sha256 d = true.

Lemma require_nil role a : require_artifact_digest role a = [] <-> digest_stated a.
Proof.
  unfold require_artifact_digest, digest_stated. destruct (digest a) as [d|].
  - destruct (is_canonical_sha256 d) eqn:E; [split; [by exists d|done]|].
    split; [discriminate|]. intros (d' & [= <-] & E'). congruence.
  - split; [discriminate|]. by intros (d & E & _).
Qed.

Lemma optional_nil role a :
  optional_artifact_digest role a = [] <-> forall x, a = Some x -> digest_stated x.
Proof. destruct a; cbn; [rewrite require_nil|]; naive_solver. Qed.

Lemma final_check_nil k r a b :
  (if negb (is_canonical_sha256 k) then [a] else push_if (negb (bool_decide (k = sha256_bytes r))) b)
    = [] <-> k = sha256_bytes r.
Proof.
  pose proof (sha256_bytes_canonical r) as C. destruct (is_canonical_sha256 k) eqn:E; cbn [negb].
  - rewrite push_if_nil, negb_false_iff. apply bool_decide_eq_true.
  - split; [discriminate|]. intros ->. congruence.
Qed.

(** The artifacts a manifest declares. *)
Definition optional_list (a : option FullVerificationArtifact) : list FullVerificationArtifact :=
  match a with Some a => [a] | None => [] end.
Definition declared (p : ContentAddressedEvidenceManifestParts) : list FullVerificationArtifact :=
  [input p; obligation_set p; options p; resource_limits p] ++
  concat (map optional_list [typed_problem p; smt_rendering p; solver_binary p; solver_transcript p;
                             replay_log p; checked_report p]) ++
  invariants p ++ counterexamples p.

Lemma Forall_optional (P : FullVerificationArtifact -> Prop) a :
  Forall P (optional_list a) <-> forall x, a = Some x -> P x.
Proof.
  destruct a; cbn; [rewrite Forall_singleton; naive_solver|].
  split; [intros _ x; discriminate|intros; constructor].
Qed.

End KeyLemmas.

(** ** Properties *)

(** a cache entry cannot be replayed for another attempt.  A key validates
    exactly when its identity fields are present, its artifacts and hashes state
    canonical digests and it is the key of its parts; two keys that validate with
    the same digest agree on everything they cover (build, commit, dirty flag,
    solver, snapshot, mode, options, limits, input, obligations), unless the bytes
    hashed for the two keys collide. *)
Theorem cache_key_spec `{Sha256} (k k' : FullVerificationCacheKey) :
  (key_validate k = Ok tt <->
     key_schema_version k = KEY_SCHEMA_VERSION /\
     is_blank (trust_mc_version (parts k)) = false /\ is_blank (trust_mc_commit (parts k)) = false /\
     is_blank (proof_mode (parts k)) = false /\ digest_stated (ay_solver (parts k)) /\
     (forall x, trust_ir_snapshot (parts k) = Some x -> digest_stated x) /\
     digest_stated (key_options (parts k)) /\ digest_stated (key_resource_limits (parts k)) /\
     is_canonical_sha256 (key_normalized_input_hash (parts k)) = true /\
     is_canonical_sha256 (obligation_set_hash (parts k)) = true /\
     key k = full_verification_cache_key (parts k)) /\
  (key_validate k = Ok tt -> key_validate k' = Ok tt -> key k = key k' ->
     key_identity (parts k) = key_identity (parts k') \/
     collides (cache_key_payload (parts k)) (cache_key_payload (parts k'))).
Proof.
  assert (V : forall k, key_validate k = Ok tt <-> key_errors k = []).
  { intros x. unfold key_validate. destruct (key_errors x); naive_solver. }
  assert (F : forall k, key_errors k = [] -> key k = full_verification_cache_key (parts k)).
  { intros x. unfold key_errors. cbv zeta. rewrite !app_nil_iff.
    unfold recompute_key, full_verification_cache_key. rewrite final_check_nil. tauto. }
  split.
  - rewrite V. unfold key_errors. cbv zeta. rewrite !app_nil_iff, !push_if_nil, !require_nil,
      optional_nil, !negb_false_iff, N.eqb_eq.
    unfold recompute_key, full_verification_cache_key. by rewrite final_check_nil.
  - rewrite !V. intros A%F B%F E. apply cache_key_binds. congruence.
Qed.

(** A manifest is bound to its contents.  The manifest built from its parts
    validates exactly when every declared artifact states a canonical digest; two
    manifests that validate with the same key list the same artifacts, in the same
    roles and order and with the same digests, unless the bytes hashed for the two
    keys collide. *)
Theorem manifest_spec `{Sha256} (m m' : ContentAddressedEvidenceManifest)
    (p : ContentAddressedEvidenceManifestParts) :
  (manifest_validate (manifest_from_parts p) = Ok tt <->
     Forall digest_stated (declared p)) /\
  (manifest_validate m = Ok tt -> manifest_validate m' = Ok tt -> cache_key m = cache_key m' ->
     manifest_identity (manifest_parts m) = manifest_identity (manifest_parts m') \/
     collides (manifest_payload (manifest_parts m)) (manifest_payload (manifest_parts m'))).
Proof.
  assert (V : forall m, manifest_validate m = Ok tt <-> manifest_errors m = []).
  { intros x. unfold manifest_validate. destruct (manifest_errors x); naive_solver. }
  assert (F : forall m, manifest_errors m = [] -> cache_key m = manifest_cache_key (manifest_parts m)).
  { intros x. unfold manifest_errors. cbv zeta. rewrite !app_nil_iff.
    unfold recompute_cache_key, manifest_cache_key. rewrite final_check_nil. tauto. }
  split; [|rewrite !V; intros A%F B%F E; apply manifest_key_binds; congruence].
  rewrite V. unfold manifest_errors. cbv zeta. rewrite !app_nil_iff, push_if_nil, !require_nil,
    !optional_nil, !flat_map_nil.
  unfold recompute_cache_key, manifest_cache_key. rewrite final_check_nil. cbn [manifest_from_parts
    manifest_schema_version manifest_parts cache_key].
  unfold declared. cbn [map concat].
  rewrite !Forall_app, !Forall_optional, !Forall_cons, Forall_nil, !Forall_forall.
  setoid_rewrite require_nil. tauto.
Qed.
