(* ===== verification/Binding.v ===== *)
(** * Proof-set binding ids

    [linked_proof_binding_id] of trust-mc-core/src/evidence.rs: the digest of the
    components of a proof set, each written with the lengths of its label and of
    its value in eight bytes.  The hasher is the bytes it has been fed. *)

From S2P Require Import Prelude Text Wire Digest NativeMetadata EvidenceArtifact CacheKey Obligation.

(** ** Machine integers as bytes *)

(** [x.to_be_bytes()] of an integer of [n] bytes *)
Fixpoint to_be_bytes (n : nat) (x : N) : string :=
  match n with
  | O => EmptyString
  | S n' => to_be_bytes n' (x / 256) +:+ String (ascii_of_N (x mod 256)) EmptyString
  end.

(** ** The hasher *)

(** [push_proof_binding_component] *)
Definition push_proof_binding_component (hasher label value : string) : string :=
  let h := hasher +:+ to_be_bytes 8 (len label) in
  let h := h +:+ label in
  let h := h +:+ to_be_bytes 8 (len value) in
  h +:+ value.

(** [push_proof_binding_hash], [push_proof_binding_native_hash] *)
Definition push_proof_binding_hash (hasher label : string) (hash : EvidenceHash) : string :=
  let h := push_proof_binding_component hasher (label +:+ ".algorithm") (algorithm hash) in
  push_proof_binding_component h (label +:+ ".value") (hash_value hash).
Definition push_proof_binding_native_hash (hasher label : string) (hash : NativeArtifactDigest)
    : string :=
  let h := push_proof_binding_component hasher (label +:+ ".algorithm") (nd_algorithm hash) in
  push_proof_binding_component h (label +:+ ".value") (nd_value hash).

(** [for id in ids { push(hasher, label, id.to_be_bytes()) }] *)
Definition push_ids (hasher label : string) (ids : list N) : string :=
  foldl (fun h i => push_proof_binding_component h label (to_be_bytes 4 i)) hasher ids.

(** The part of [linked_proof_binding_id] that reads the native metadata. *)
Definition push_native (hasher : string) (native : option NativeTypedChcObligationMetadata) : string :=
  match native with
  | Some m =>
      let h := push_proof_binding_component hasher "native.present" "1" in
      let h := push_proof_binding_component h "native.schema_version" (to_be_bytes 4 (schema_version m)) in
      let h := push_proof_binding_component h "native.producer" (producer m) in
      let h := push_proof_binding_component h "native.adapter_input" (adapter_input m) in
      let h := push_proof_binding_component h "native.request_id" (to_be_bytes 4 (native_request_id m)) in
      let h := push_proof_binding_component h "native.function_id" (to_be_bytes 4 (function_id m)) in
      let h := push_proof_binding_component h "native.verification_mode" (verification_mode m) in
      let h := push_proof_binding_native_hash h "native.trust_ir_module" (trust_ir_module_digest m) in
      let h := push_proof_binding_native_hash h "native.lineage_manifest" (lineage_manifest_digest m) in
      let h := match source_digest m with
               | Some d => push_proof_binding_native_hash h "native.source" d
               | None => h
               end in
      let h := match compiler_facts_digest m with
               | Some d => push_proof_binding_native_hash h "native.compiler_facts" d
               | None => h
               end in
      let h := push_ids h "native.proof_obligation_id" (proof_obligation_ids m) in
      let h := push_ids h "native.lineage_root_id" (lineage_root_ids m) in
      match replay_identity m with
      | Some i =>
          let h := push_proof_binding_component h "native.replay.engine" (engine i) in
          let h := push_proof_binding_component h "native.replay.invocation" (invocation i) in
          push_proof_binding_native_hash h "native.replay.transcript" (transcript_digest i)
      | None => h
      end
  | None => push_proof_binding_component hasher "native.present" "0"
  end.

(** The bytes the hasher of [linked_proof_binding_id] is fed. *)
Definition binding_payload (kind : ChcPdrProofKind) (obligation : MirDerivedChcPdrObligation)
    (transcript_hash replay_hash checked_report_hash : EvidenceHash)
    (invariant_model_hash : option EvidenceHash) (stats : ChcPdrStats) (invariant_count : N) : string :=
  let h := push_proof_binding_component "" "domain"
    (match invariant_model_hash with
     | Some _ => "trust_mc.linked-proof-set/v2"
     | None => "trust_mc.linked-proof-set/v1"
     end) in
  let h := push_proof_binding_component h "proof_kind"
    (match kind with ChcValidity => "chc-validity" | PdrInvariant => "pdr-invariant" end) in
  let h := push_proof_binding_component h "obligation_id" (obligation_id obligation) in
  let h := push_proof_binding_hash h "normalized_input" (normalized_input_hash obligation) in
  let h := push_proof_binding_hash h "solver_transcript" transcript_hash in
  let h := push_proof_binding_hash h "replay_log" replay_hash in
  let h := push_proof_binding_hash h "checked_report" checked_report_hash in
  let h := match invariant_model_hash with
           | Some i =>
               let h := push_proof_binding_hash h "pdr_invariant_model" i in
               let h := push_proof_binding_component h "stats.relation_count"
                          (to_be_bytes 8 (relation_count stats)) in
               let h := push_proof_binding_component h "stats.clause_count"
                          (to_be_bytes 8 (clause_count stats)) in
               push_proof_binding_component h "invariant_count" (to_be_bytes 8 invariant_count)
           | None => h
           end in
  push_native h (native_metadata obligation).

(** [linked_proof_binding_id] *)
Definition linked_proof_binding_id `{Sha256} (kind : ChcPdrProofKind)
    (obligation : MirDerivedChcPdrObligation)
    (transcript_hash replay_hash checked_report_hash : EvidenceHash)
    (invariant_model_hash : option EvidenceHash) (stats : ChcPdrStats) (invariant_count : N)
    : ProofArtifactBindingId :=
  from_sha256 (sha256_bytes (binding_payload kind obligation transcript_hash replay_hash
    checked_report_hash invariant_model_hash stats invariant_count)).

(** ** The bytes as a list of pairs *)

Definition fits (s : string) : Prop := (len s < 2 ^ 64)%N.

Definition framed (kv : string * string) : string :=
  to_be_bytes 8 (len kv.1) +:+ kv.1 +:+ to_be_bytes 8 (len kv.2) +:+ kv.2.
Fixpoint frames (l : list (string * string)) : string :=
  match l with [] => "" | kv :: l' => framed kv +:+ frames l' end.

Definition hash_pairs (label : string) (h : EvidenceHash) : list (string * string) :=
  [(label +:+ ".algorithm", algorithm h); (label +:+ ".value", hash_value h)].
Definition native_pairs (label : string) (h : NativeArtifactDigest) : list (string * string) :=
  [(label +:+ ".algorithm", nd_algorithm h); (label +:+ ".value", nd_value h)].
Definition optional_pairs (label : string) (h : option NativeArtifactDigest) :=
  match h with Some h => native_pairs label h | None => [] end.
Definition id_pairs (label : string) (ids : list N) : list (string * string) :=
  map (fun i => (label, to_be_bytes 4 i)) ids.

Definition metadata_pairs (native : option NativeTypedChcObligationMetadata)
    : list (string * string) :=
  match native with
  | None => [("native.present", "0")]
  | Some m =>
      [("native.present", "1"); ("native.schema_version", to_be_bytes 4 (schema_version m));
       ("native.producer", producer m); ("native.adapter_input", adapter_input m);
       ("native.request_id", to_be_bytes 4 (native_request_id m));
       ("native.function_id", to_be_bytes 4 (function_id m));
       ("native.verification_mode", verification_mode m)] ++
      native_pairs "native.trust_ir_module" (trust_ir_module_digest m) ++
      native_pairs "native.lineage_manifest" (lineage_manifest_digest m) ++
      optional_pairs "native.source" (source_digest m) ++
      optional_pairs "native.compiler_facts" (compiler_facts_digest m) ++
      id_pairs "native.proof_obligation_id" (proof_obligation_ids m) ++
      id_pairs "native.lineage_root_id" (lineage_root_ids m) ++
      match replay_identity m with
      | Some i => [("native.replay.engine", engine i); ("native.replay.invocation", invocation i)] ++
                  native_pairs "native.replay.transcript" (transcript_digest i)
      | None => []
      end
  end.

Definition binding_pairs (kind : ChcPdrProofKind) (obligation : MirDerivedChcPdrObligation)
    (transcript_hash replay_hash checked_report_hash : EvidenceHash)
    (invariant_model_hash : option EvidenceHash) (stats : ChcPdrStats) (invariant_count : N)
    : list (string * string) :=
  [("domain", match invariant_model_hash with
              | Some _ => "trust_mc.linked-proof-set/v2"
              | None => "trust_mc.linked-proof-set/v1"
              end);
   ("proof_kind", match kind with ChcValidity => "chc-validity" | PdrInvariant => "pdr-invariant" end);
   ("obligation_id", obligation_id obligation)] ++
  hash_pairs "normalized_input" (normalized_input_hash obligation) ++
  hash_pairs "solver_transcript" transcript_hash ++
  hash_pairs "replay_log" replay_hash ++
  hash_pairs "checked_report" checked_report_hash ++
  match invariant_model_hash with
  | Some i => hash_pairs "pdr_invariant_model" i ++
      [("stats.relation_count", to_be_bytes 8 (relation_count stats));
       ("stats.clause_count", to_be_bytes 8 (clause_count stats));
       ("invariant_count", to_be_bytes 8 invariant_count)]
  | None => []
  end ++
  metadata_pairs (native_metadata obligation).

(** ** Lemmas *)

Lemma length_be n x : String.length (to_be_bytes n x) = n.
Proof.
  revert x. induction n as [|n IH]; intros x; cbn; [done|]. rewrite Str.length_app, IH. cbn. lia.
Qed.

Lemma append_tail_inj (a b : string) (c d : ascii) :
  String.length a = String.length b ->
  a +:+ String c "" = b +:+ String d "" -> a = b /\ c = d.
Proof. intros L E. apply append_same_length in E as [-> [= ->]]; done. Qed.

Lemma be_inj n x y :
  (x < 256 ^ N.of_nat n)%N -> (y < 256 ^ N.of_nat n)%N ->
  to_be_bytes n x = to_be_bytes n y -> x = y.
Proof.
  revert x y. induction n as [|n IH]; intros x y Hx Hy E; cbn [to_be_bytes] in E.
  { cbn in *. lia. }
  rewrite Nat2N.inj_succ, N.pow_succ_r' in Hx, Hy.
  apply append_tail_inj in E as [E D]; [|by rewrite !length_be].
  apply IH in E; [|apply N.div_lt_upper_bound; lia..].
  apply (f_equal N_of_ascii) in D.
  pose proof (N.mod_lt x 256 ltac:(lia)). pose proof (N.mod_lt y 256 ltac:(lia)).
  rewrite !N_ascii_embedding in D by lia.
  rewrite (N.div_mod x 256), (N.div_mod y 256), E, D by lia. done.
Qed.

Lemma be8_inj x y : (x < 2 ^ 64)%N -> (y < 2 ^ 64)%N -> to_be_bytes 8 x = to_be_bytes 8 y -> x = y.
Proof. intros. by apply (be_inj 8). Qed.
Lemma be4_inj x y : (x < 2 ^ 32)%N -> (y < 2 ^ 32)%N -> to_be_bytes 4 x = to_be_bytes 4 y -> x = y.
Proof. intros. by apply (be_inj 4). Qed.

Lemma frame_inj a b x y :
  fits a -> fits b -> to_be_bytes 8 (len a) +:+ a +:+ x = to_be_bytes 8 (len b) +:+ b +:+ y ->
  a = b /\ x = y.
Proof.
  intros Fa Fb E. apply append_same_length in E as [L E]; [|by rewrite !length_be].
  apply be8_inj in L; [|done..]. apply append_same_length in E; [done|]. unfold len in L. lia.
Qed.

Lemma framed_inj kv kv' x y :
  fits kv.1 -> fits kv.2 -> fits kv'.1 -> fits kv'.2 ->
  framed kv +:+ x = framed kv' +:+ y -> kv = kv' /\ x = y.
Proof.
  destruct kv as [k v], kv' as [k' v']. unfold framed. cbn [fst snd]. intros Fk Fv Fk' Fv'.
  rewrite <- !Str.app_assoc. intros E. apply frame_inj in E as [-> E]; [|done..].
  apply frame_inj in E as [-> ->]; done.
Qed.

Definition all_fit (l : list (string * string)) : Prop := Forall (fun kv => fits kv.1 /\ fits kv.2) l.

Lemma frames_inj l k : all_fit l -> all_fit k -> frames l = frames k -> l = k.
Proof.
  intros Fl. revert k. induction Fl as [|kv l [F1 F2] _ IH]; intros [|kv' k] Fk E.
  - done.
  - apply (f_equal String.length) in E. cbn [frames] in E. unfold framed in E.
    rewrite !Str.length_app, !length_be in E. cbn in E. lia.
  - apply (f_equal String.length) in E. cbn [frames] in E. unfold framed in E.
    rewrite !Str.length_app, !length_be in E. cbn in E. lia.
  - apply Forall_cons in Fk as [[G1 G2] Fk]. cbn [frames] in E.
    apply framed_inj in E as [-> E]; [|done..]. f_equal. by apply IH.
Qed.

Lemma frames_app l k : frames (l ++ k) = frames l +:+ frames k.
Proof. induction l as [|kv l IH]; cbn [frames app]; [done|]. by rewrite IH, Str.app_assoc. Qed.

Lemma push_pair h k v : push_proof_binding_component h k v = h +:+ frames [(k, v)].
Proof.
  unfold push_proof_binding_component. cbn [frames]. unfold framed. cbn [fst snd].
  by rewrite Str.app_nil_r, !Str.app_assoc.
Qed.

Lemma push_hash h l d : push_proof_binding_hash h l d = h +:+ frames (hash_pairs l d).
Proof.
  unfold push_proof_binding_hash, hash_pairs. cbv zeta. rewrite !push_pair, <- Str.app_assoc.
  by rewrite <- frames_app.
Qed.

Lemma push_native_hash h l d : push_proof_binding_native_hash h l d = h +:+ frames (native_pairs l d).
Proof.
  unfold push_proof_binding_native_hash, native_pairs. cbv zeta. rewrite !push_pair, <- Str.app_assoc.
  by rewrite <- frames_app.
Qed.

Lemma push_optional_hash h l d :
  match d with Some d => push_proof_binding_native_hash h l d | None => h end =
  h +:+ frames (optional_pairs l d).
Proof. destruct d; [apply push_native_hash|by rewrite Str.app_nil_r]. Qed.

Lemma push_ids_eq h l ids : push_ids h l ids = h +:+ frames (id_pairs l ids).
Proof.
  unfold push_ids. revert h. induction ids as [|i ids IH]; intros h; cbn [foldl id_pairs map].
  - by rewrite Str.app_nil_r.
  - rewrite IH, push_pair, <- Str.app_assoc. f_equal. by rewrite <- frames_app.
Qed.

Lemma push_native_eq h n : push_native h n = h +:+ frames (metadata_pairs n).
Proof.
  destruct n as [m|]; cbn [push_native metadata_pairs]; [|apply push_pair]. cbv zeta.
  rewrite !push_optional_hash, !push_ids_eq. destruct (replay_identity m) as [i|];
    rewrite ?push_native_hash, ?push_ids_eq, ?push_optional_hash, ?push_native_hash, ?push_pair,
      <- ?Str.app_assoc, <- ?frames_app; rewrite <- ?app_assoc, ?app_nil_r; done.
Qed.

Lemma binding_payload_eq kind o t r c i s n :
  binding_payload kind o t r c i s n = frames (binding_pairs kind o t r c i s n).
Proof.
  unfold binding_payload, binding_pairs. cbv zeta. rewrite push_native_eq.
  destruct i as [i|]; rewrite ?push_pair, ?push_hash, ?push_pair, <- ?Str.app_assoc;
    cbn [String.append]; rewrite <- ?frames_app, <- ?app_assoc; done.
Qed.

(** *** The fields behind the pairs *)

(** The next pair, if any, has another label. *)
Definition head_not (l : string) (x : list (string * string)) : Prop :=
  match x with (k, _) :: _ => k <> l | [] => True end.

Lemma head_not_optional l l' o x :
  l' +:+ ".algorithm" <> l -> head_not l x -> head_not l (optional_pairs l' o ++ x).
Proof. by destruct o. Qed.

Lemma head_not_ids l l' ids x : l' <> l -> head_not l x -> head_not l (id_pairs l' ids ++ x).
Proof. by destruct ids. Qed.

Lemma hash_pairs_inj l a b x y : hash_pairs l a ++ x = hash_pairs l b ++ y -> a = b /\ x = y.
Proof. destruct a, b. unfold hash_pairs. cbn. intros E. by simplify_eq. Qed.

Lemma native_pairs_inj l a b x y : native_pairs l a ++ x = native_pairs l b ++ y -> a = b /\ x = y.
Proof. destruct a, b. unfold native_pairs. cbn. intros E. by simplify_eq. Qed.

Lemma optional_pairs_inj l a b x y :
  head_not (l +:+ ".algorithm") x -> head_not (l +:+ ".algorithm") y ->
  optional_pairs l a ++ x = optional_pairs l b ++ y -> a = b /\ x = y.
Proof.
  intros Hx Hy. destruct a as [a|], b as [b|]; cbn [optional_pairs].
  - by intros [-> ->]%native_pairs_inj.
  - cbn. intros <-. by destruct Hy.
  - cbn. intros ->. by destruct Hx.
  - done.
Qed.

Definition u32 (n : N) : Prop := (n < 2 ^ 32)%N.
Definition u64 (n : N) : Prop := (n < 2 ^ 64)%N.

Lemma id_pairs_inj l a b x y :
  Forall u32 a -> Forall u32 b -> head_not l x -> head_not l y ->
  id_pairs l a ++ x = id_pairs l b ++ y -> a = b /\ x = y.
Proof.
  intros Fa Fb Hx Hy. revert b Fb. induction Fa as [|i a Hi Fa IH]; intros [|j b] Fb E;
    unfold id_pairs in E; cbn [map app] in E.
  - done.
  - subst x. by destruct Hx.
  - subst y. by destruct Hy.
  - apply Forall_cons in Fb as [Hj Fb]. apply pair_cons_inj in E as [E1 E2].
    apply be4_inj in E1 as ->; [|done..]. destruct (IH b Fb E2) as [-> ->]. done.
Qed.

(** What the binding id covers of the native metadata. *)
Definition native_identity (m : NativeTypedChcObligationMetadata) :=
  (schema_version m, producer m, adapter_input m, native_request_id m, function_id m,
   verification_mode m, trust_ir_module_digest m, lineage_manifest_digest m, source_digest m,
   compiler_facts_digest m, proof_obligation_ids m, lineage_root_ids m, replay_identity m).

Definition native_sized (m : NativeTypedChcObligationMetadata) : Prop :=
  u32 (schema_version m) /\ u32 (native_request_id m) /\ u32 (function_id m) /\
  Forall u32 (proof_obligation_ids m) /\ Forall u32 (lineage_root_ids m).

Lemma metadata_pairs_inj n n' :
  (forall m, n = Some m -> native_sized m) -> (forall m, n' = Some m -> native_sized m) ->
  metadata_pairs n = metadata_pairs n' -> native_identity <$> n = native_identity <$> n'.
Proof.
  destruct n as [m|], n' as [m'|]; intros S S' E; cbn [metadata_pairs app] in E; [|discriminate..|done].
  destruct (S m eq_refl) as (S1 & S2 & S3 & S4 & S5).
  destruct (S' m' eq_refl) as (T1 & T2 & T3 & T4 & T5).
  do 7 (let H := fresh in apply pair_cons_inj in E as [H E]; revert H).
  apply native_pairs_inj in E as [E1 E]. apply native_pairs_inj in E as [E2 E].
  assert (R : forall l i, l <> "native.replay.engine" -> head_not l (match i with
      | Some i => [("native.replay.engine", engine i); ("native.replay.invocation", invocation i)] ++
                  native_pairs "native.replay.transcript" (transcript_digest i)
      | None => [] end)) by (intros l [i|] Ne; [by apply not_eq_sym|done]).
  apply optional_pairs_inj in E as [E3 E].
  2,3: repeat first [apply head_not_optional|apply head_not_ids|apply R]; discriminate.
  apply optional_pairs_inj in E as [E4 E].
  2,3: repeat first [apply head_not_ids|apply R]; discriminate.
  apply id_pairs_inj in E as [E5 E]; [|done|done|..].
  2,3: repeat first [apply head_not_ids|apply R]; discriminate.
  apply id_pairs_inj in E as [E6 E]; [|done|done|apply R; discriminate..].
  intros M6 M5%be4_inj M4%be4_inj M3 M2 M1%be4_inj _; [|done..].
  assert (E7 : replay_identity m = replay_identity m').
  { destruct (replay_identity m) as [[? ? [? ?]]|], (replay_identity m') as [[? ? [? ?]]|];
      cbn in E; by simplify_eq. }
  unfold native_identity. cbn. rewrite M1, M2, M3, M4, M5, M6, E1, E2, E3, E4, E5, E6, E7. done.
Qed.

(** ** Proof sets *)

(** The arguments of [linked_proof_binding_id]. *)
Record ProofSet := {
  ps_kind : ChcPdrProofKind; ps_obligation : MirDerivedChcPdrObligation;
  ps_transcript : EvidenceHash; ps_replay : EvidenceHash; ps_report : EvidenceHash;
  ps_invariant : option EvidenceHash; ps_stats : ChcPdrStats; ps_count : N }.

Definition set_pairs (s : ProofSet) : list (string * string) :=
  binding_pairs (ps_kind s) (ps_obligation s) (ps_transcript s) (ps_replay s) (ps_report s)
    (ps_invariant s) (ps_stats s) (ps_count s).
Definition set_id `{Sha256} (s : ProofSet) : ProofArtifactBindingId :=
  linked_proof_binding_id (ps_kind s) (ps_obligation s) (ps_transcript s) (ps_replay s) (ps_report s)
    (ps_invariant s) (ps_stats s) (ps_count s).

(** The bytes that are hashed for the id *)
Definition set_payload (s : ProofSet) : string :=
  binding_payload (ps_kind s) (ps_obligation s) (ps_transcript s) (ps_replay s) (ps_report s)
    (ps_invariant s) (ps_stats s) (ps_count s).

(** What the id covers: the statistics and the invariant count only with a model. *)
Definition set_identity (s : ProofSet) :=
  (ps_kind s, obligation_id (ps_obligation s), normalized_input_hash (ps_obligation s),
   ps_transcript s, ps_replay s, ps_report s,
   (fun i => (i, relation_count (ps_stats s), clause_count (ps_stats s), ps_count s)) <$> ps_invariant s,
   native_identity <$> native_metadata (ps_obligation s)).

(** The values are values of the program: strings that fit in memory, integers of
    their width. *)
Definition set_sized (s : ProofSet) : Prop :=
  all_fit (set_pairs s) /\
  (forall m, native_metadata (ps_obligation s) = Some m -> native_sized m) /\
  u64 (relation_count (ps_stats s)) /\ u64 (clause_count (ps_stats s)) /\ u64 (ps_count s).

Lemma set_pairs_inj s s' :
  set_sized s -> set_sized s' -> set_pairs s = set_pairs s' -> set_identity s = set_identity s'.
Proof.
  intros (_ & N & U1 & U2 & U3) (_ & N' & V1 & V2 & V3).
  unfold set_pairs, binding_pairs, set_identity. cbn [app]. intros E.
  apply pair_cons_inj in E as [D E]. apply pair_cons_inj in E as [K E].
  apply pair_cons_inj in E as [O E].
  apply hash_pairs_inj in E as [H1 E]. apply hash_pairs_inj in E as [H2 E].
  apply hash_pairs_inj in E as [H3 E]. apply hash_pairs_inj in E as [H4 E].
  assert (Kd : ps_kind s = ps_kind s') by (by destruct (ps_kind s), (ps_kind s')).
  rewrite Kd, O, H1, H2, H3, H4.
  destruct (ps_invariant s) as [i|], (ps_invariant s') as [i'|]; [|discriminate..|].
  - rewrite <- !app_assoc in E. apply hash_pairs_inj in E as [-> E]. cbn [app] in E.
    apply pair_cons_inj in E as [E1%be8_inj E]; [|done..].
    apply pair_cons_inj in E as [E2%be8_inj E]; [|done..].
    apply pair_cons_inj in E as [E3%be8_inj E]; [|done..].
    apply metadata_pairs_inj in E as ->; [|done..]. cbn. by rewrite E1, E2, E3.
  - cbn [app] in E. by apply metadata_pairs_inj in E as ->.
Qed.

Lemma set_id_inj `{Sha256} s s' :
  set_sized s -> set_sized s' -> set_id s = set_id s' ->
  set_identity s = set_identity s' \/ collides (set_payload s) (set_payload s').
Proof.
  intros S S'. unfold set_id, linked_proof_binding_id, from_sha256, collides, set_payload. intros [= E].
  rewrite !binding_payload_eq in *.
  destruct (decide (frames (set_pairs s) = frames (set_pairs s'))) as [F|F].
  - left. apply set_pairs_inj; [done..|]. apply frames_inj; [apply S|apply S'|exact F].
  - by right.
Qed.

(** ** Property *)

(** C37: a binding id names one proof set.  Two proof sets with the same id agree
    on the kind, the obligation and its input, the digests of transcript, replay
    log, report and model, the statistics when there is a model, and every native
    field the id covers, unless the two payloads hashed for them ([set_payload]) are
    different and have one digest: the length prefixes leave no way to shift bytes
    between fields.  Every id made this way is read
    back by [parse], which accepts nothing but a prefixed canonical digest. *)
Theorem binding_id_identifies `{Sha256} (s s' : ProofSet) (v : string)
    (S : set_sized s) (S' : set_sized s') :
  (set_id s = set_id s' -> set_identity s = set_identity s' \/ collides (set_payload s) (set_payload s')) /\
  parse (as_str (set_id s)) = Ok (set_id s) /\
  (is_ok (parse v) = true <-> exists hex, v = PREFIX +:+ hex /\ is_canonical_sha256_hex hex = true).
Proof.
  split; [|split].
  - by apply set_id_inj.
  - unfold set_id, linked_proof_binding_id, from_sha256, parse. cbn [as_str].
    set (d := hash_value _). assert (strip_prefix PREFIX (PREFIX +:+ d) = Some d) as ->
      by (by apply strip_prefix_Some). subst d. cbn [hash_value sha256_bytes].
    by rewrite digest_hex_canonical.
  - unfold parse. destruct (strip_prefix PREFIX v) as [hex|] eqn:E.
    + apply strip_prefix_Some in E as ->. destruct (is_canonical_sha256_hex hex) eqn:C; cbn [negb is_ok].
      * split; [|done]. intros _. by exists hex.
      * split; [discriminate|]. intros (h & P & Ch). apply append_eq in P as ->. congruence.
    + split; [discriminate|]. intros (h & P & Ch). apply strip_prefix_Some in P. congruence.
Qed.

Section Witness.
Import Digest.Sample.

Definition sample_set : ProofSet := {|
  ps_kind := ChcValidity;
  ps_obligation := with_native_metadata NativeMetadata.Sample.metadata (new "obl" KAssertion "(check-sat)");
  ps_transcript := sha256_bytes "t"; ps_replay := sha256_bytes "r"; ps_report := sha256_bytes "c";
  ps_invariant := None; ps_stats := {| relation_count := 1; clause_count := 2 |}; ps_count := 0 |}.

Lemma sample_sized : set_sized sample_set.
Proof.
  unfold set_sized. split; [|split].
  - unfold all_fit. apply Forall_forall. intros [k v] Hkv. unfold fits. cbn [fst snd].
    vm_compute in Hkv.
    repeat (apply elem_of_cons in Hkv as [Hkv|Hkv]; [injection Hkv as -> ->; split; decide_now|]).
    by apply elem_of_nil in Hkv.
  - intros m [= <-]. unfold native_sized. repeat split; try decide_now.
    all: repeat constructor; decide_now.
  - repeat split; decide_now.
Qed.

Lemma binding_id_identifies_witness :
  set_sized sample_set /\ parse (as_str (set_id sample_set)) = Ok (set_id sample_set).
Proof.
  split; [exact sample_sized|].
  exact (proj1 (proj2 (binding_id_identifies sample_set sample_set "" sample_sized sample_sized))).
Defined.

End Witness.
