(* ===== verification/Evidence.v ===== *)
(** * Proof evidence and its admission

    [ChcPdrProofEvidence], its candidate constructors, the candidate check and the
    proof-grade classification of trust-mc-core/src/evidence.rs. *)

From S2P Require Import Prelude Text Wire Digest NativeMetadata EvidenceArtifact Obligation CacheKey Binding.

Abbreviation validate_metadata := NativeMetadata.validate_for_obligation_id.

(** ** Data *)

(** [enum ProofReplayStatus], [enum ProofCheckStatus] *)
Inductive ProofReplayStatus := Replayed | ReplayFailed | ReplayUnknown.
Inductive ProofCheckStatus := Accepted | Rejected | CheckUnknown.

(** [struct ProofReplayCheckStatus] *)
Record ProofReplayCheckStatus := { replay : ProofReplayStatus; check : ProofCheckStatus }.

(** [ProofReplayCheckStatus::accepted] *)
Definition accepted : ProofReplayCheckStatus := {| replay := Replayed; check := Accepted |}.

(** [struct FullProofEvidenceMetadata] *)
Record FullProofEvidenceMetadata := {
  md_producer : option string;
  md_cache_key : option EvidenceHash;
  md_normalized_input_hash : option EvidenceHash;
  transcript_hashes : list EvidenceHash;
  replay_log_hashes : list EvidenceHash;
  checked_report_hashes : list EvidenceHash;
  replay_check_status : option ProofReplayCheckStatus }.

Definition default_metadata : FullProofEvidenceMetadata :=
  {| md_producer := None; md_cache_key := None; md_normalized_input_hash := None;
     transcript_hashes := []; replay_log_hashes := []; checked_report_hashes := [];
     replay_check_status := None |}.

(** [struct ChcPdrProofEvidence] *)
Record ChcPdrProofEvidence := {
  ev_kind : ChcPdrProofKind;
  obligation : MirDerivedChcPdrObligation;
  stats : ChcPdrStats;
  metadata : FullProofEvidenceMetadata;
  invariant_count : N;
  artifacts : list FullVerificationArtifact }.

(** [enum FullProofEvidence] *)
Inductive FullProofEvidence := EvChcPdr (proof : ChcPdrProofEvidence).

(** [struct DiagnosticOnlyEvidence] *)
Record DiagnosticOnlyEvidence := {
  problem_kind : FullVerificationProblemKind;
  summary : string;
  diagnostic_artifacts : list FullVerificationArtifact }.

(** [enum FullVerificationVerdict] *)
Inductive FullVerificationVerdict :=
  | Proved (evidence : FullProofEvidence)
  | Failed (counterexample_artifacts : list FullVerificationArtifact)
  | Unknown (reason : string)
  | DiagnosticOnly (evidence : DiagnosticOnlyEvidence).

(** [enum ProofGradeVerdict] *)
Inductive ProofGradeVerdict :=
  | ProofGrade (proof_kind : ChcPdrProofKind) (input_hash : EvidenceHash)
  | NotProofGrade (problem : option FullVerificationProblemKind) (reasons : list string).

(** [struct AcceptedChcPdrProofEvidence] and [struct ValidatedChcPdrCandidateEvidence]:
    the same four borrowed fields. *)
Record AcceptedChcPdrProofEvidence := {
  ac_proof : ChcPdrProofEvidence; ac_proof_kind : ChcPdrProofKind;
  ac_normalized_input_hash : EvidenceHash;
  ac_native_metadata : option NativeTypedChcObligationMetadata }.
Record ValidatedChcPdrCandidateEvidence := {
  cd_proof : ChcPdrProofEvidence; cd_proof_kind : ChcPdrProofKind;
  cd_normalized_input_hash : EvidenceHash;
  cd_native_metadata : option NativeTypedChcObligationMetadata }.

(** [struct ProofEvidenceRejection] *)
Record ProofEvidenceRejection := {
  rej_problem_kind : option FullVerificationProblemKind; rej_reasons : list string }.

(** [impl Display for ProofEvidenceRejection] *)
Definition ProofEvidenceRejection_fmt (r : ProofEvidenceRejection) : string :=
  "proof evidence rejected" +:+
  match rej_problem_kind r with
  | Some ChcPdr => " for ChcPdr" | Some DiagnosticBmc => " for DiagnosticBmc" | None => ""
  end +:+
  match rej_reasons r with [] => "" | reasons => ": " +:+ Str.join "; " reasons end.

Definition PRODUCER : string := "trust_mc-core".
Definition PDR_INVARIANT_FRESH_CONSUMER_REPLAY_REQUIRED : string :=
  "PDR invariant candidates require fresh private consumer replay before proof-grade admission".
Definition CHC_VALIDITY_FRESH_CONSUMER_REPLAY_REQUIRED : string :=
  "CHC validity candidates require fresh private consumer replay before proof-grade admission".

(** ** Construction *)

(** [ChcPdrProofEvidence::new], [with_artifact], [with_metadata] *)
Definition new_evidence (k : ChcPdrProofKind) (o : MirDerivedChcPdrObligation) (s : ChcPdrStats)
    : ChcPdrProofEvidence :=
  {| ev_kind := k; obligation := o; stats := s; metadata := default_metadata; invariant_count := 0;
     artifacts := [] |}.
Definition with_artifact (a : FullVerificationArtifact) (p : ChcPdrProofEvidence)
    : ChcPdrProofEvidence :=
  {| ev_kind := ev_kind p; obligation := obligation p; stats := stats p; metadata := metadata p;
     invariant_count := invariant_count p; artifacts := artifacts p ++ [a] |}.
Definition with_metadata (m : FullProofEvidenceMetadata) (p : ChcPdrProofEvidence)
    : ChcPdrProofEvidence :=
  {| ev_kind := ev_kind p; obligation := obligation p; stats := stats p; metadata := m;
     invariant_count := invariant_count p; artifacts := artifacts p |}.

(** [artifact_digest_vec] *)
Definition artifact_digest_vec (a : FullVerificationArtifact) : list EvidenceHash :=
  match digest a with Some d => [d] | None => [] end.

(** The statuses a producer may claim. *)
Definition unknown_status : ProofReplayCheckStatus :=
  {| replay := ReplayUnknown; check := CheckUnknown |}.

Definition input_label (o : MirDerivedChcPdrObligation) : string :=
  "trust_mc://full-verifier/" +:+ obligation_id o +:+ "/normalized-input".

Section Evidence.
Context `{Sha256}.

(** [proof_grade_from_bytes]; a payload is its label and its bytes. *)
Definition proof_grade_from_bytes (k : ChcPdrProofKind) (o : MirDerivedChcPdrObligation)
    (s : ChcPdrStats) (solver_transcript replay_log checked_report : string * string)
    : ChcPdrProofEvidence :=
  let transcript := from_bytes SolverTranscript solver_transcript.1 solver_transcript.2 in
  let replay := from_bytes ReplayLog replay_log.1 replay_log.2 in
  let report := from_bytes CheckedProofReport checked_report.1 checked_report.2 in
  let input := from_bytes NormalizedInput (input_label o) (normalized_input o) in
  {| ev_kind := k; obligation := o; stats := s;
     metadata := {| md_producer := Some PRODUCER; md_cache_key := None;
                    md_normalized_input_hash := Some (normalized_input_hash o);
                    transcript_hashes := artifact_digest_vec transcript;
                    replay_log_hashes := artifact_digest_vec replay;
                    checked_report_hashes := artifact_digest_vec report;
                    replay_check_status := Some unknown_status |};
     invariant_count := 0;
     artifacts := [input; transcript; replay; report] |}.

Definition fail_if (b : bool) (e : MatErr) : result MatErr unit := if b then Err e else Ok tt.

(** The checks of [try_proof_grade_from_linked_bytes_inner] before any artifact is
    built, in order. *)
Definition linked_preconditions (o : MirDerivedChcPdrObligation) (s : ChcPdrStats)
    (transcript replay report : string) (model : option string) (count : N) : result MatErr unit :=
  _ ← fail_if (negb (bool_decide (origin o = MirDerived))) NonMirDerivedObligation;
  _ ← fail_if (is_blank (normalized_input o)) EmptyNormalizedInput;
  _ ← fail_if (N.eqb (relation_count s) 0 || N.eqb (clause_count s) 0) InvalidProofStatistics;
  _ ← fail_if (bool_decide (model <> None) && N.eqb count 0) InvalidPdrInvariantCount;
  _ ← fail_if (String.eqb transcript "") (EmptyProofPayload SolverTranscript);
  _ ← fail_if (String.eqb replay "") (EmptyProofPayload ReplayLog);
  _ ← fail_if (String.eqb report "") (EmptyProofPayload CheckedProofReport);
  _ ← fail_if (bool_decide (model = Some "")) (EmptyProofPayload PdrInvariantModel);
  fail_if (negb (bool_decide (sha256_bytes (normalized_input o) = normalized_input_hash o)))
    NormalizedInputDigestMismatch.

(** The references each artifact of a set carries. *)
Definition input_reference (h : EvidenceHash) : list FullVerificationArtifactReference :=
  [{| ar_kind := NormalizedInput; ar_digest := h |}].
Definition model_reference (model : option EvidenceHash) : list FullVerificationArtifactReference :=
  match model with Some h => [{| ar_kind := PdrInvariantModel; ar_digest := h |}] | None => [] end.
Definition replay_references (transcript : EvidenceHash) (model : option EvidenceHash) :=
  {| ar_kind := SolverTranscript; ar_digest := transcript |} :: model_reference model.
Definition report_references (transcript replay : EvidenceHash) (model : option EvidenceHash) :=
  ({| ar_kind := SolverTranscript; ar_digest := transcript |} :: model_reference model) ++
  [{| ar_kind := ReplayLog; ar_digest := replay |}].

(** The end of [try_proof_grade_from_linked_bytes_inner]: the artifacts are linked
    under the binding id of their digests. *)
Definition link_artifacts (k : ChcPdrProofKind) (o : MirDerivedChcPdrObligation) (s : ChcPdrStats)
    (count : N) (input transcript replay report : FullVerificationArtifact)
    (model : option FullVerificationArtifact) (input_hash th rh ch : EvidenceHash)
    (mh : option EvidenceHash) : result MatErr ChcPdrProofEvidence :=
  let id := linked_proof_binding_id k o th rh ch mh s count in
  input ← with_proof_linkage id [] input;
  transcript ← with_proof_linkage id (input_reference input_hash) transcript;
  model ← map_transpose (with_proof_linkage id (input_reference input_hash)) model;
  replay ← with_proof_linkage id (replay_references th mh) replay;
  report ← with_proof_linkage id (report_references th rh mh) report;
  Ok {| ev_kind := k; obligation := o; stats := s;
        metadata := {| md_producer := Some PRODUCER; md_cache_key := None;
                       md_normalized_input_hash := Some input_hash;
                       transcript_hashes := [th]; replay_log_hashes := [rh];
                       checked_report_hashes := [ch];
                       replay_check_status := Some unknown_status |};
        invariant_count := count;
        artifacts := [input; transcript; replay; report] ++
                     match model with Some m => [m] | None => [] end |}.

(** [required_artifact_digest]: panics ([None]) without a digest. *)
Definition required_artifact_digest (a : FullVerificationArtifact) : option EvidenceHash := digest a.

(** The middle of [try_proof_grade_from_linked_bytes_inner]: the checks, then the
    artifacts before they are linked (transcript, replay log, report, model, input). *)
Definition build_artifacts (o : MirDerivedChcPdrObligation) (s : ChcPdrStats)
    (solver_transcript replay_log checked_report : string * string)
    (invariant_model : option (string * string)) (count : N)
    : result MatErr (FullVerificationArtifact * FullVerificationArtifact * FullVerificationArtifact *
                     option FullVerificationArtifact * FullVerificationArtifact) :=
  _ ← linked_preconditions o s solver_transcript.2 replay_log.2 checked_report.2
        (snd <$> invariant_model) count;
  transcript ← try_from_bytes SolverTranscript solver_transcript.1 solver_transcript.2;
  replay ← try_from_bytes ReplayLog replay_log.1 replay_log.2;
  report ← try_from_bytes CheckedProofReport checked_report.1 checked_report.2;
  model ← map_transpose (fun p => try_from_bytes PdrInvariantModel p.1 p.2) invariant_model;
  input ← try_from_bytes NormalizedInput (input_label o) (normalized_input o);
  Ok (transcript, replay, report, model, input).

(** [try_proof_grade_from_linked_bytes_inner]; [None] is a panic. *)
Definition try_proof_grade_from_linked_bytes_inner (k : ChcPdrProofKind)
    (o : MirDerivedChcPdrObligation) (s : ChcPdrStats)
    (solver_transcript replay_log checked_report : string * string)
    (invariant_model : option (string * string)) (count : N)
    : option (result MatErr ChcPdrProofEvidence) :=
  match build_artifacts o s solver_transcript replay_log checked_report invariant_model count with
  | Err e => Some (Err e)
  | Ok (transcript, replay, report, model, input) =>
      match required_artifact_digest transcript, required_artifact_digest replay,
            required_artifact_digest report, required_artifact_digest <$> model with
      | Some th, Some rh, Some ch, None =>
          Some (link_artifacts k o s count input transcript replay report model
                  (sha256_bytes (normalized_input o)) th rh ch None)
      | Some th, Some rh, Some ch, Some (Some mh) =>
          Some (link_artifacts k o s count input transcript replay report model
                  (sha256_bytes (normalized_input o)) th rh ch (Some mh))
      | _, _, _, _ => None
      end
  end.

(** [try_chc_validity_candidate_from_linked_bytes] *)
Definition try_chc_validity_candidate_from_linked_bytes (o : MirDerivedChcPdrObligation)
    (s : ChcPdrStats) (solver_transcript replay_log checked_report : string * string) :=
  try_proof_grade_from_linked_bytes_inner ChcValidity o s solver_transcript replay_log
    checked_report None 0.

(** [try_pdr_invariant_candidate_from_linked_bytes] *)
Definition try_pdr_invariant_candidate_from_linked_bytes (o : MirDerivedChcPdrObligation)
    (s : ChcPdrStats) (count : N)
    (solver_transcript replay_log checked_report invariant_model : string * string) :=
  try_proof_grade_from_linked_bytes_inner PdrInvariant o s solver_transcript replay_log
    checked_report (Some invariant_model) count.

(** [try_proof_grade_from_linked_bytes] *)
Definition try_proof_grade_from_linked_bytes (k : ChcPdrProofKind) (o : MirDerivedChcPdrObligation)
    (s : ChcPdrStats) (solver_transcript replay_log checked_report : string * string)
    : option (result MatErr ChcPdrProofEvidence) :=
  match k with
  | PdrInvariant => Some (Err PdrInvariantCandidateRequired)
  | ChcValidity =>
      try_chc_validity_candidate_from_linked_bytes o s solver_transcript replay_log checked_report
  end.

(** ** The candidate check *)

(** [proof.artifacts.iter().filter(|a| a.kind == kind)] *)
Definition of_kind (p : ChcPdrProofEvidence) (k : FullVerificationArtifactKind)
    : list FullVerificationArtifact :=
  List.filter (fun a => bool_decide (kind a = k)) (artifacts p).

(** [matching_artifacts] *)
Definition matching_artifacts (p : ChcPdrProofEvidence) (k : FullVerificationArtifactKind)
    (d : EvidenceHash) : list FullVerificationArtifact :=
  List.filter (fun a => bool_decide (kind a = k) && bool_decide (digest a = Some d)) (artifacts p).

(** [has_matching_artifact] *)
Definition has_matching_artifact (p : ChcPdrProofEvidence) (k : FullVerificationArtifactKind)
    (hashes : list EvidenceHash) : bool :=
  match hashes with [h] => Nat.eqb (length (matching_artifacts p k h)) 1 | _ => false end.

(** [require_hashes] *)
Definition require_hashes (label : string) (hashes : list EvidenceHash) : list string :=
  match hashes with
  | [] => ["missing " +:+ label +:+ " digest metadata"]
  | [h] => push_if (negb (is_canonical_sha256 h))
             (label +:+ " digest metadata is not canonical SHA-256")
  | _ => [label +:+ " digest metadata must identify exactly one artifact, got "
          +:+ pretty (N.of_nat (length hashes))]
  end.

(** [exactly_one_materialized_artifact] *)
Definition exactly_one_materialized_artifact (p : ChcPdrProofEvidence)
    (k : FullVerificationArtifactKind) (d : EvidenceHash) : option FullVerificationArtifact :=
  match List.filter (fun a => bool_decide (materialized_bytes a <> None)) (matching_artifacts p k d) with
  | [a] => Some a
  | _ => None
  end.

(** [require_exact_artifact_references] *)
Definition same_references (actual expected : list FullVerificationArtifactReference) : bool :=
  Nat.eqb (length actual) (length expected) &&
  forallb (fun r => bool_decide (r ∈ actual)) expected.
Definition require_exact_artifact_references (label : string) (a : FullVerificationArtifact)
    (expected : list FullVerificationArtifactReference) : list string :=
  push_if (negb (same_references (referenced_artifacts a) expected))
    (label +:+ " artifact references do not match the exact typed proof relationship").

(** [has_digest_artifact] *)
Definition has_digest_artifact (p : ChcPdrProofEvidence) (k : FullVerificationArtifactKind) : bool :=
  existsb (fun a => bool_decide (kind a = k) && bool_decide (digest a <> None)) (artifacts p).

(** The roles of [validate_linked_proof_artifacts], with their labels. *)
Definition required_roles : list (string * FullVerificationArtifactKind) :=
  [("normalized input", NormalizedInput); ("solver transcript", SolverTranscript);
   ("replay log", ReplayLog); ("checked proof report", CheckedProofReport)].

(** The occurrences of every role, and of the model for an invariant proof. *)
Definition role_errors (p : ChcPdrProofEvidence) : list string :=
  flat_map (fun role =>
    let count := N.of_nat (length (of_kind p role.2)) in
    push_if (negb (N.eqb count 1))
      ("proof artifact role " +:+ role.1 +:+ " must occur exactly once, got " +:+ pretty count))
    required_roles ++
  match ev_kind p with
  | PdrInvariant =>
      let count := N.of_nat (length (of_kind p PdrInvariantModel)) in
      push_if (negb (N.eqb count 1))
        ("proof artifact role PDR invariant model must occur exactly once, got " +:+ pretty count)
  | ChcValidity => []
  end.

Definition is_empty_materialization (a : FullVerificationArtifact) : bool :=
  bool_decide (materialized_bytes a = Some "").

(** The end of [validate_linked_proof_artifacts], on the artifacts it selected. *)
Definition linked_errors (p : ChcPdrProofEvidence)
    (input transcript replay checked : FullVerificationArtifact)
    (invariant : option FullVerificationArtifact) (th rh ch : EvidenceHash) : list string :=
  let input_hash := normalized_input_hash (obligation p) in
  let invariant_hash := a ← invariant; digest a in
  let expected_binding := linked_proof_binding_id (ev_kind p) (obligation p) th rh ch invariant_hash
                            (stats p) (invariant_count p) in
  let labelled := [("normalized input", input); ("solver transcript", transcript);
                   ("replay log", replay); ("checked proof report", checked)] in
  push_if (is_empty_materialization input) "normalized input artifact materialization is empty" ++
  flat_map (fun e => push_if (is_empty_materialization e.2)
                       (e.1 +:+ " artifact materialization is empty")) (tail labelled) ++
  match invariant with
  | Some a => push_if (is_empty_materialization a)
                "PDR invariant model artifact materialization is empty"
  | None => []
  end ++
  flat_map (fun e => push_if (negb (bool_decide (proof_binding_id e.2 = Some expected_binding)))
                       (e.1 +:+ " artifact is missing the content-addressed proof-set binding"))
    labelled ++
  match invariant with
  | Some a => push_if (negb (bool_decide (proof_binding_id a = Some expected_binding)))
                "PDR invariant model artifact is missing the content-addressed proof-set binding"
  | None => []
  end ++
  require_exact_artifact_references "normalized input" input [] ++
  require_exact_artifact_references "solver transcript" transcript (input_reference input_hash) ++
  match invariant with
  | Some a => require_exact_artifact_references "PDR invariant model" a (input_reference input_hash)
  | None => []
  end ++
  require_exact_artifact_references "replay log" replay (replay_references th invariant_hash) ++
  require_exact_artifact_references "checked proof report" checked
    ([{| ar_kind := SolverTranscript; ar_digest := th |}; {| ar_kind := ReplayLog; ar_digest := rh |}]
     ++ model_reference invariant_hash).

(** [validate_linked_proof_artifacts]: an early return is a match that stops. *)
Definition validate_linked_proof_artifacts (p : ChcPdrProofEvidence) : list string :=
  match role_errors p with
  | [] =>
      match exactly_one_materialized_artifact p NormalizedInput
              (normalized_input_hash (obligation p)) with
      | None => ["normalized input artifact lacks unique exact retained bytes"]
      | Some input =>
          match transcript_hashes (metadata p), replay_log_hashes (metadata p),
                checked_report_hashes (metadata p) with
          | [th], [rh], [ch] =>
              match exactly_one_materialized_artifact p SolverTranscript th,
                    exactly_one_materialized_artifact p ReplayLog rh,
                    exactly_one_materialized_artifact p CheckedProofReport ch with
              | None, _, _ => ["solver transcript lacks unique nonempty exact retained bytes"]
              | Some _, None, _ => ["replay log lacks unique nonempty exact retained bytes"]
              | Some _, Some _, None =>
                  ["checked proof report lacks unique nonempty exact retained bytes"]
              | Some transcript, Some replay, Some checked =>
                  match ev_kind p with
                  | PdrInvariant =>
                      match of_kind p PdrInvariantModel with
                      | [] => []
                      | model :: _ =>
                          if bool_decide (materialized_bytes model = None) ||
                             bool_decide (digest model = None)
                          then ["PDR invariant model lacks unique nonempty exact retained bytes"]
                          else linked_errors p input transcript replay checked (Some model) th rh ch
                      end
                  | ChcValidity => linked_errors p input transcript replay checked None th rh ch
                  end
              end
          | _, _, _ => []
          end
      end
  | errors => errors
  end.

Definition debug_replay (r : ProofReplayStatus) : string :=
  match r with Replayed => "Replayed" | ReplayFailed => "Failed" | ReplayUnknown => "Unknown" end.
Definition debug_check (c : ProofCheckStatus) : string :=
  match c with Accepted => "Accepted" | Rejected => "Rejected" | CheckUnknown => "Unknown" end.

(** The status arm of [missing_chc_pdr_candidate_metadata]. *)
Definition status_errors (s : option ProofReplayCheckStatus) : list string :=
  match s with
  | Some {| replay := ReplayUnknown; check := CheckUnknown |} => []
  | Some s => ["public candidate replay/check status must be Unknown/Unknown, got "
               +:+ debug_replay (replay s) +:+ "/" +:+ debug_check (check s)]
  | None => ["missing replay/check status metadata"]
  end.

(** The last lines of [missing_chc_pdr_candidate_metadata]: the model. *)
Definition model_errors (p : ChcPdrProofEvidence) : list string :=
  match ev_kind p with
  | PdrInvariant =>
      push_if (N.eqb (invariant_count p) 0)
        "PDR invariant proof declares zero predicate interpretations" ++
      push_if (negb (has_digest_artifact p PdrInvariantModel))
        "PDR invariant proof is missing invariant evidence"
  | ChcValidity =>
      push_if (existsb (fun a => bool_decide (kind a = PdrInvariantModel)) (artifacts p))
        "CHC validity proof must not carry a PDR invariant model"
  end.

(** [missing_chc_pdr_candidate_metadata] *)
Definition missing_chc_pdr_candidate_metadata (p : ChcPdrProofEvidence) : list string :=
  let o := obligation p in
  let m := metadata p in
  push_if (negb (bool_decide (origin o = MirDerived)))
    "obligation is a router placeholder, not MIR-derived" ++
  push_if (is_blank (normalized_input o)) "normalized MIR-derived CHC/PDR input is empty" ++
  push_if (N.eqb (relation_count (stats p)) 0 || N.eqb (clause_count (stats p)) 0)
    "CHC/PDR proof stats must include nonzero relation and clause counts" ++
  push_if (negb (bool_decide (sha256_bytes (normalized_input o) = normalized_input_hash o)))
    "normalized input hash does not match normalized input payload" ++
  push_if (negb (bool_decide (md_normalized_input_hash m = Some (normalized_input_hash o))))
    "missing normalized input hash bound to the MIR-derived obligation" ++
  push_if (match md_producer m with Some producer => is_blank producer | None => true end)
    "missing proof evidence producer identity" ++
  push_if (negb (has_matching_artifact p NormalizedInput [normalized_input_hash o]))
    "missing normalized input artifact matching obligation hash" ++
  require_hashes "solver transcript" (transcript_hashes m) ++
  require_hashes "replay log" (replay_log_hashes m) ++
  require_hashes "checked proof report" (checked_report_hashes m) ++
  status_errors (replay_check_status m) ++
  push_if (negb (has_matching_artifact p SolverTranscript (transcript_hashes m)))
    "missing solver transcript artifact matching transcript metadata" ++
  push_if (negb (has_matching_artifact p ReplayLog (replay_log_hashes m)))
    "missing replay log artifact matching replay metadata" ++
  push_if (negb (has_matching_artifact p CheckedProofReport (checked_report_hashes m)))
    "missing checked proof report artifact matching report metadata" ++
  validate_linked_proof_artifacts p ++
  model_errors p.

(** [missing_chc_pdr_proof_grade_metadata] *)
Definition missing_chc_pdr_proof_grade_metadata (p : ChcPdrProofEvidence) : list string :=
  missing_chc_pdr_candidate_metadata p ++
  [match ev_kind p with
   | ChcValidity => CHC_VALIDITY_FRESH_CONSUMER_REPLAY_REQUIRED
   | PdrInvariant => PDR_INVARIANT_FRESH_CONSUMER_REPLAY_REQUIRED
   end].

(** ** Classification and admission *)

(** [classify_chc_pdr_proof] *)
Definition classify_chc_pdr_proof (p : ChcPdrProofEvidence) : ProofGradeVerdict :=
  match missing_chc_pdr_proof_grade_metadata p with
  | [] => ProofGrade (ev_kind p) (normalized_input_hash (obligation p))
  | reasons => NotProofGrade (Some ChcPdr) (sort_strings reasons)
  end.

(** [classify_proof_grade_verdict] *)
Definition classify_proof_grade_verdict (v : FullVerificationVerdict) : ProofGradeVerdict :=
  match v with
  | Proved (EvChcPdr proof) => classify_chc_pdr_proof proof
  | Failed _ => NotProofGrade (Some ChcPdr) ["counterexample evidence is not a proof"]
  | Unknown reason =>
      NotProofGrade (Some ChcPdr) ["solver did not prove the obligation: " +:+ reason]
  | DiagnosticOnly evidence =>
      NotProofGrade (Some (problem_kind evidence))
        ("diagnostic-only evidence is not proof-grade" ::
         push_if (bool_decide (problem_kind evidence = DiagnosticBmc))
           "diagnostic BMC is bounded evidence and must not claim proof")
  end.

(** [proof_grade_rejection] *)
Definition proof_grade_rejection (v : ProofGradeVerdict) : ProofEvidenceRejection :=
  match v with
  | ProofGrade _ _ =>
      {| rej_problem_kind := Some ChcPdr;
         rej_reasons := ["proof-grade verdict did not contain CHC/PDR proof evidence"] |}
  | NotProofGrade problem reasons => {| rej_problem_kind := problem; rej_reasons := reasons |}
  end.

(** [accepted_chc_pdr_proof] *)
Definition accepted_chc_pdr_proof (v : FullVerificationVerdict)
    : result ProofEvidenceRejection AcceptedChcPdrProofEvidence :=
  match v with
  | Proved (EvChcPdr proof) =>
      match classify_chc_pdr_proof proof with
      | ProofGrade k _ =>
          Ok {| ac_proof := proof; ac_proof_kind := k;
                ac_normalized_input_hash := normalized_input_hash (obligation proof);
                ac_native_metadata := native_metadata (obligation proof) |}
      | rejected => Err (proof_grade_rejection rejected)
      end
  | _ => Err (proof_grade_rejection (classify_proof_grade_verdict v))
  end.

Definition missing_native : ProofEvidenceRejection :=
  {| rej_problem_kind := Some ChcPdr; rej_reasons := ["missing native typed CHC obligation metadata"] |}.

(** The native half of the two [native_typed] functions: the metadata is there and
    valid for the obligation. *)
Definition check_native (native : option NativeTypedChcObligationMetadata) (id : string)
    : result ProofEvidenceRejection unit :=
  m ← ok_or native missing_native;
  match validate_metadata m id with
  | Ok _ => Ok tt
  | Err reasons => Err {| rej_problem_kind := Some ChcPdr; rej_reasons := reasons |}
  end.

(** [accepted_native_typed_chc_pdr_proof] *)
Definition accepted_native_typed_chc_pdr_proof (v : FullVerificationVerdict)
    : result ProofEvidenceRejection AcceptedChcPdrProofEvidence :=
  a ← accepted_chc_pdr_proof v;
  _ ← check_native (ac_native_metadata a) (obligation_id (obligation (ac_proof a)));
  Ok a.

(** [validated_chc_pdr_candidate] *)
Definition validated_chc_pdr_candidate (v : FullVerificationVerdict)
    : result ProofEvidenceRejection ValidatedChcPdrCandidateEvidence :=
  match v with
  | Proved (EvChcPdr proof) =>
      match missing_chc_pdr_candidate_metadata proof with
      | [] => Ok {| cd_proof := proof; cd_proof_kind := ev_kind proof;
                    cd_normalized_input_hash := normalized_input_hash (obligation proof);
                    cd_native_metadata := native_metadata (obligation proof) |}
      | reasons => Err {| rej_problem_kind := Some ChcPdr;
                          rej_reasons := dedup (sort_strings reasons) |}
      end
  | _ => Err (proof_grade_rejection (classify_proof_grade_verdict v))
  end.

(** [validated_native_typed_chc_pdr_candidate] *)
Definition validated_native_typed_chc_pdr_candidate (v : FullVerificationVerdict)
    : result ProofEvidenceRejection ValidatedChcPdrCandidateEvidence :=
  c ← validated_chc_pdr_candidate v;
  _ ← check_native (cd_native_metadata c) (obligation_id (obligation (cd_proof c)));
  Ok c.

End Evidence.
