(* ===== verification/EvidenceSpec.v ===== *)
(** * What the admission of evidence promises

    The candidate check of [Evidence] is exact, its constructors produce what it
    accepts, two candidates cannot share artifacts, and nothing that comes through
    the public interface is proof-grade. *)

From S2P Require Import Prelude Text Wire Digest NativeMetadata EvidenceArtifact Obligation CacheKey Binding Evidence.

(** ** Candidates *)

Definition same_refs (actual expected : list FullVerificationArtifactReference) : Prop :=
  length actual = length expected /\ forall r, r ∈ expected -> r ∈ actual.

(** An artifact in its role: its bytes are there and not empty, its digest is the
    one of the set, it is bound to the set and refers to what it was made from. *)
Definition linked_role `{Sha256} (id : ProofArtifactBindingId) (d : EvidenceHash)
    (refs : list FullVerificationArtifactReference) (a : FullVerificationArtifact) : Prop :=
  (exists b, materialized_bytes a = Some b /\ b <> "") /\ digest a = Some d /\
  proof_binding_id a = Some id /\ same_refs (referenced_artifacts a) refs.

(** The artifacts of a candidate and their digests. *)
Record Roles := {
  r_input : FullVerificationArtifact; r_transcript : FullVerificationArtifact;
  r_replay : FullVerificationArtifact; r_report : FullVerificationArtifact;
  r_model : option FullVerificationArtifact;
  r_th : EvidenceHash; r_rh : EvidenceHash; r_ch : EvidenceHash; r_mh : option EvidenceHash }.

Definition roles_set (p : ChcPdrProofEvidence) (r : Roles) : ProofSet := {|
  ps_kind := ev_kind p; ps_obligation := obligation p; ps_transcript := r_th r; ps_replay := r_rh r;
  ps_report := r_ch r; ps_invariant := r_mh r; ps_stats := stats p; ps_count := invariant_count p |}.

Definition model_ok `{Sha256} (p : ChcPdrProofEvidence) (r : Roles) : Prop :=
  match ev_kind p with
  | ChcValidity => of_kind p PdrInvariantModel = [] /\ r_model r = None /\ r_mh r = None
  | PdrInvariant => invariant_count p <> 0%N /\ exists m d,
      of_kind p PdrInvariantModel = [m] /\ r_model r = Some m /\ r_mh r = Some d /\
      linked_role (set_id (roles_set p r)) d (input_reference (normalized_input_hash (obligation p))) m
  end.

(** The artifacts of a candidate are the only ones of their kinds and are linked as
    the set they form prescribes. *)
Definition roles_ok `{Sha256} (p : ChcPdrProofEvidence) (r : Roles) : Prop :=
  let h := normalized_input_hash (obligation p) in
  let id := set_id (roles_set p r) in
  of_kind p NormalizedInput = [r_input r] /\ of_kind p SolverTranscript = [r_transcript r] /\
  of_kind p ReplayLog = [r_replay r] /\ of_kind p CheckedProofReport = [r_report r] /\
  transcript_hashes (metadata p) = [r_th r] /\ replay_log_hashes (metadata p) = [r_rh r] /\
  checked_report_hashes (metadata p) = [r_ch r] /\
  model_ok p r /\
  linked_role id h [] (r_input r) /\
  linked_role id (r_th r) (input_reference h) (r_transcript r) /\
  linked_role id (r_rh r) (replay_references (r_th r) (r_mh r)) (r_replay r) /\
  linked_role id (r_ch r) (report_references (r_th r) (r_rh r) (r_mh r)) (r_report r).

Definition header_ok `{Sha256} (p : ChcPdrProofEvidence) : Prop :=
  origin (obligation p) = MirDerived /\ is_blank (normalized_input (obligation p)) = false /\
  relation_count (stats p) <> 0%N /\ clause_count (stats p) <> 0%N /\
  sha256_bytes (normalized_input (obligation p)) = normalized_input_hash (obligation p) /\
  md_normalized_input_hash (metadata p) = Some (normalized_input_hash (obligation p)) /\
  (exists producer, md_producer (metadata p) = Some producer /\ is_blank producer = false) /\
  replay_check_status (metadata p) = Some unknown_status.

Definition candidate_ok `{Sha256} (p : ChcPdrProofEvidence) : Prop :=
  header_ok p /\ exists r, roles_ok p r.

(** ** Lemmas *)

Section Spec.
Context `{Sha256}.
Implicit Types p : ChcPdrProofEvidence.

Lemma matching_of_kind p k d :
  matching_artifacts p k d = List.filter (fun a => bool_decide (digest a = Some d)) (of_kind p k).
Proof.
  unfold matching_artifacts, of_kind. induction (artifacts p) as [|a l IH]; cbn; [done|].
  destruct (bool_decide (kind a = k)); cbn; [|done].
  destruct (bool_decide (digest a = Some d)); cbn; by rewrite IH.
Qed.

Lemma exactly_one_sole p k d a x :
  of_kind p k = [a] ->
  exactly_one_materialized_artifact p k d = Some x <->
  x = a /\ digest a = Some d /\ materialized_bytes a <> None.
Proof.
  intros E. unfold exactly_one_materialized_artifact. rewrite matching_of_kind, E. cbn.
  case_bool_decide as D; cbn; [case_bool_decide as M; cbn|]; naive_solver.
Qed.

Lemma has_matching_sole p k d a :
  of_kind p k = [a] -> has_matching_artifact p k [d] = true <-> digest a = Some d.
Proof.
  intros E. unfold has_matching_artifact. rewrite matching_of_kind, E. cbn.
  case_bool_decide; cbn; naive_solver.
Qed.

(** A digest of retained bytes is canonical. *)
Lemma materialized_canonical a d :
  digest a = Some d -> materialized_bytes a <> None -> is_canonical_sha256 d = true.
Proof.
  unfold materialized_bytes. intros D M. destruct (materialization a) as [m|] eqn:E; [|done].
  apply materialization_spec in E as [F V]. destruct (V m F) as (_ & D' & _).
  rewrite D in D'. injection D' as ->. apply sha256_bytes_canonical.
Qed.

Lemma length_one {A} (l : list A) : length l = 1 <-> exists a, l = [a].
Proof. destruct l as [|a [|b l]]; cbn; naive_solver lia. Qed.

Lemma role_errors_nil p :
  role_errors p = [] <->
  (exists a, of_kind p NormalizedInput = [a]) /\ (exists a, of_kind p SolverTranscript = [a]) /\
  (exists a, of_kind p ReplayLog = [a]) /\ (exists a, of_kind p CheckedProofReport = [a]) /\
  (ev_kind p = PdrInvariant -> exists a, of_kind p PdrInvariantModel = [a]).
Proof.
  unfold role_errors. cbn [required_roles flat_map fst snd app]. cbv zeta.
  rewrite !app_nil_iff, !push_if_nil, !negb_false_iff, !N.eqb_eq.
  assert (L : forall k, N.of_nat (length (of_kind p k)) = 1%N <-> exists a, of_kind p k = [a]).
  { intros k. rewrite <- length_one. lia. }
  rewrite !L. destruct (ev_kind p); [naive_solver|].
  rewrite push_if_nil, negb_false_iff, N.eqb_eq, L. naive_solver.
Qed.

Lemma same_references_true l k : same_references l k = true <-> same_refs l k.
Proof.
  unfold same_references, same_refs. rewrite andb_true_iff, Nat.eqb_eq, forallb_forall.
  setoid_rewrite bool_decide_eq_true.
  split; intros [? F]; (split; [done|]); intros r Hr; apply F; by apply list_elem_of_In.
Qed.

Lemma require_references_nil label a refs :
  require_exact_artifact_references label a refs = [] <-> same_refs (referenced_artifacts a) refs.
Proof.
  unfold require_exact_artifact_references. by rewrite push_if_nil, negb_false_iff, same_references_true.
Qed.

(** The order the check lists the references of a report in does not matter. *)
Lemma report_references_order l th rh mh :
  same_refs l ([{| ar_kind := SolverTranscript; ar_digest := th |};
                {| ar_kind := ReplayLog; ar_digest := rh |}] ++ model_reference mh) <->
  same_refs l (report_references th rh mh).
Proof.
  unfold same_refs, report_references. destruct mh; cbn; setoid_rewrite elem_of_cons;
    setoid_rewrite elem_of_cons; set_solver.
Qed.

(** A role read off the errors it did not cause. *)
Lemma linked_role_iff id d refs a :
  linked_role id d refs a <->
  digest a = Some d /\ materialized_bytes a <> None /\ is_empty_materialization a = false /\
  proof_binding_id a = Some id /\ same_refs (referenced_artifacts a) refs.
Proof.
  unfold linked_role, is_empty_materialization. rewrite bool_decide_eq_false.
  destruct (materialized_bytes a) as [b|]; naive_solver.
Qed.

Lemma linked_errors_nil p input transcript replay checked model th rh ch :
  linked_errors p input transcript replay checked model th rh ch = [] <->
  let h := normalized_input_hash (obligation p) in
  let mh := a ← model; digest a in
  let id := linked_proof_binding_id (ev_kind p) (obligation p) th rh ch mh (stats p) (invariant_count p) in
  let fine a refs := is_empty_materialization a = false /\ proof_binding_id a = Some id /\
                     same_refs (referenced_artifacts a) refs in
  fine input [] /\ fine transcript (input_reference h) /\ fine replay (replay_references th mh) /\
  fine checked (report_references th rh mh) /\
  forall m, model = Some m -> fine m (input_reference h).
Proof.
  unfold linked_errors. cbv zeta. cbn [tail flat_map fst snd].
  rewrite !app_nil_iff, !push_if_nil, !require_references_nil, !negb_false_iff, !bool_decide_eq_true,
    report_references_order.
  destruct model as [m|]; cbn [mbind option_bind].
  - rewrite !push_if_nil, require_references_nil, negb_false_iff, bool_decide_eq_true. naive_solver.
  - naive_solver.
Qed.

Lemma validate_linked_nil p a t r c th rh ch :
  of_kind p NormalizedInput = [a] -> of_kind p SolverTranscript = [t] -> of_kind p ReplayLog = [r] ->
  of_kind p CheckedProofReport = [c] ->
  transcript_hashes (metadata p) = [th] -> replay_log_hashes (metadata p) = [rh] ->
  checked_report_hashes (metadata p) = [ch] ->
  validate_linked_proof_artifacts p = [] <->
  (digest a = Some (normalized_input_hash (obligation p)) /\ materialized_bytes a <> None) /\
  (digest t = Some th /\ materialized_bytes t <> None) /\
  (digest r = Some rh /\ materialized_bytes r <> None) /\
  (digest c = Some ch /\ materialized_bytes c <> None) /\
  match ev_kind p with
  | ChcValidity => linked_errors p a t r c None th rh ch = []
  | PdrInvariant => exists m, of_kind p PdrInvariantModel = [m] /\ digest m <> None /\
      materialized_bytes m <> None /\ linked_errors p a t r c (Some m) th rh ch = []
  end.
Proof.
  intros Ea Et Er Ec Eth Erh Ech. unfold validate_linked_proof_artifacts.
  assert (X : forall k d x, of_kind p k = [x] ->
    exactly_one_materialized_artifact p k d =
      if decide (digest x = Some d /\ materialized_bytes x <> None) then Some x else None).
  { intros k d x E. case_decide as D; [by apply (exactly_one_sole p k d x x)|].
    destruct (exactly_one_materialized_artifact p k d) as [y|] eqn:Y; [|done].
    apply (exactly_one_sole p k d x y E) in Y. naive_solver. }
  rewrite Eth, Erh, Ech, (X _ _ _ Ea), (X _ _ _ Et), (X _ _ _ Er), (X _ _ _ Ec).
  pose proof (role_errors_nil p) as R. destruct (role_errors p) as [|e es].
  - destruct (proj1 R eq_refl) as (_ & _ & _ & _ & M).
    do 4 (case_decide; [|naive_solver]).
    destruct (ev_kind p); [naive_solver|]. destruct (M eq_refl) as [m ->].
    case_bool_decide; [naive_solver|]. cbn [orb]. case_bool_decide; naive_solver.
  - split; [done|]. intros (_ & _ & _ & _ & M). exfalso.
    assert (F : e :: es = []); [|done]. apply R. rewrite Ea, Et, Er, Ec.
    repeat split; try (eexists; reflexivity). intros K. rewrite K in M. naive_solver.
Qed.

Lemma require_hashes_nil label l :
  require_hashes label l = [] <-> exists h, l = [h] /\ is_canonical_sha256 h = true.
Proof.
  unfold require_hashes. destruct l as [|h [|h' l]]; [naive_solver| |naive_solver].
  rewrite push_if_nil, negb_false_iff. naive_solver.
Qed.

Lemma status_errors_nil s : status_errors s = [] <-> s = Some unknown_status.
Proof. destruct s as [[[] []]|]; unfold unknown_status; cbn; naive_solver. Qed.

Lemma no_model p :
  existsb (fun a => bool_decide (kind a = PdrInvariantModel)) (artifacts p) = false <->
  of_kind p PdrInvariantModel = [].
Proof.
  unfold of_kind. rewrite existsb_false_elem, filter_nil_iff. done.
Qed.

Lemma has_digest_sole p k a :
  of_kind p k = [a] -> has_digest_artifact p k = bool_decide (digest a <> None).
Proof.
  intros E. apply eq_true_iff_eq. unfold has_digest_artifact.
  rewrite existsb_elem. setoid_rewrite andb_true_iff. setoid_rewrite bool_decide_eq_true.
  assert (M : forall x, x ∈ of_kind p k <-> x ∈ artifacts p /\ kind x = k).
  { intros x. unfold of_kind. rewrite !list_elem_of_In, filter_In, bool_decide_eq_true. done. }
  rewrite E in M. setoid_rewrite list_elem_of_singleton in M. naive_solver.
Qed.

Lemma validate_linked_roles p : validate_linked_proof_artifacts p = [] -> role_errors p = [].
Proof. unfold validate_linked_proof_artifacts. by destruct (role_errors p). Qed.

(** The header half of the check. *)
Lemma header_nil p :
  (push_if (negb (bool_decide (origin (obligation p) = MirDerived)))
     "obligation is a router placeholder, not MIR-derived" = [] /\
   push_if (is_blank (normalized_input (obligation p)))
     "normalized MIR-derived CHC/PDR input is empty" = [] /\
   push_if (N.eqb (relation_count (stats p)) 0 || N.eqb (clause_count (stats p)) 0)
     "CHC/PDR proof stats must include nonzero relation and clause counts" = [] /\
   push_if (negb (bool_decide (sha256_bytes (normalized_input (obligation p)) =
                               normalized_input_hash (obligation p))))
     "normalized input hash does not match normalized input payload" = [] /\
   push_if (negb (bool_decide (md_normalized_input_hash (metadata p) =
                               Some (normalized_input_hash (obligation p)))))
     "missing normalized input hash bound to the MIR-derived obligation" = [] /\
   push_if (match md_producer (metadata p) with Some producer => is_blank producer | None => true end)
     "missing proof evidence producer identity" = [] /\
   status_errors (replay_check_status (metadata p)) = []) <-> header_ok p.
Proof.
  unfold header_ok. rewrite !push_if_nil, !negb_false_iff, !bool_decide_eq_true, orb_false_iff,
    !N.eqb_neq, status_errors_nil.
  destruct (md_producer (metadata p)); naive_solver.
Qed.

(** The artifacts of a candidate, as the check establishes them. *)
Lemma roles_found p :
  has_matching_artifact p NormalizedInput [normalized_input_hash (obligation p)] = true ->
  require_hashes "solver transcript" (transcript_hashes (metadata p)) = [] ->
  require_hashes "replay log" (replay_log_hashes (metadata p)) = [] ->
  require_hashes "checked proof report" (checked_report_hashes (metadata p)) = [] ->
  validate_linked_proof_artifacts p = [] -> model_errors p = [] ->
  exists r, roles_ok p r.
Proof.
  intros _ (th & Eth & _)%require_hashes_nil (rh & Erh & _)%require_hashes_nil
    (ch & Ech & _)%require_hashes_nil V M.
  pose proof V as R. apply validate_linked_roles, role_errors_nil in R
    as ([a Ea] & [t Et] & [r Er] & [c Ec] & _).
  apply (validate_linked_nil p a t r c th rh ch) in V as (Da & Dt & Dr & Dc & L); [|done..].
  unfold model_errors in M. destruct (ev_kind p) eqn:K.
  - apply linked_errors_nil in L. cbv zeta in L. cbn [mbind option_bind] in L. rewrite K in L.
    destruct L as (La & Lt & Lr & Lc & _).
    exists {| r_input := a; r_transcript := t; r_replay := r; r_report := c; r_model := None;
              r_th := th; r_rh := rh; r_ch := ch; r_mh := None |}.
    unfold roles_ok, model_ok, set_id, roles_set. cbn. rewrite K, !linked_role_iff.
    rewrite push_if_nil, no_model in M. destruct_and?. split_and!; done.
  - destruct L as (m & Em & Dm & Bm & L). apply linked_errors_nil in L. cbv zeta in L.
    cbn [mbind option_bind] in L. destruct (digest m) as [d|] eqn:D; [|done].
    rewrite K in L. destruct L as (La & Lt & Lr & Lc & Lm). specialize (Lm m eq_refl).
    exists {| r_input := a; r_transcript := t; r_replay := r; r_report := c; r_model := Some m;
              r_th := th; r_rh := rh; r_ch := ch; r_mh := Some d |}.
    unfold roles_ok, model_ok, set_id, roles_set. cbn. rewrite K, !linked_role_iff.
    apply app_nil_iff in M as [M _]. rewrite push_if_nil, N.eqb_neq in M.
    destruct_and?. split_and!; try done.
    exists m, d. rewrite linked_role_iff. split_and!; done.
Qed.

Lemma linked_role_fine id d refs a :
  linked_role id d refs a ->
  (digest a = Some d /\ materialized_bytes a <> None) /\
  (is_empty_materialization a = false /\ proof_binding_id a = Some id /\
   same_refs (referenced_artifacts a) refs).
Proof. rewrite linked_role_iff. tauto. Qed.

(** And they pass it. *)
Lemma roles_pass p r :
  roles_ok p r ->
  has_matching_artifact p NormalizedInput [normalized_input_hash (obligation p)] = true /\
  require_hashes "solver transcript" (transcript_hashes (metadata p)) = [] /\
  require_hashes "replay log" (replay_log_hashes (metadata p)) = [] /\
  require_hashes "checked proof report" (checked_report_hashes (metadata p)) = [] /\
  has_matching_artifact p SolverTranscript (transcript_hashes (metadata p)) = true /\
  has_matching_artifact p ReplayLog (replay_log_hashes (metadata p)) = true /\
  has_matching_artifact p CheckedProofReport (checked_report_hashes (metadata p)) = true /\
  validate_linked_proof_artifacts p = [] /\ model_errors p = [].
Proof.
  intros (Ea & Et & Er & Ec & Eth & Erh & Ech & M & La & Lt & Lr & Lc).
  apply linked_role_fine in La as [Da La], Lt as [Dt Lt], Lr as [Dr Lr], Lc as [Dc Lc].
  assert (Q : forall label l a, l = [a] -> forall x, digest x = Some a /\ materialized_bytes x <> None ->
    require_hashes label l = []).
  { intros label l a -> x [D B]. apply require_hashes_nil. exists a. split; [done|].
    by apply (materialized_canonical x). }
  destruct_and?.
  split; [by apply (has_matching_sole _ _ _ _ Ea)|].
  split; [by apply (Q _ _ _ Eth (r_transcript r))|]. split; [by apply (Q _ _ _ Erh (r_replay r))|].
  split; [by apply (Q _ _ _ Ech (r_report r))|].
  rewrite Eth, Erh, Ech. split; [by apply (has_matching_sole _ _ _ _ Et)|].
  split; [by apply (has_matching_sole _ _ _ _ Er)|]. split; [by apply (has_matching_sole _ _ _ _ Ec)|].
  unfold model_ok in M. unfold model_errors. unfold set_id, roles_set in *. cbn in *.
  rewrite (validate_linked_nil p _ _ _ _ _ _ _ Ea Et Er Ec Eth Erh Ech).
  destruct (ev_kind p) eqn:K.
  - destruct M as (M & _ & Em). rewrite Em in *. split.
    + repeat (split; [done|]). apply linked_errors_nil. cbv zeta. cbn [mbind option_bind].
      rewrite K. by split_and!.
    + apply push_if_nil, no_model. exact M.
  - destruct M as (N & m & d & M & Em & Ed & Lm). rewrite Ed in *.
    apply linked_role_fine in Lm as [[Dm Bm] Lm]. split.
    + repeat (split; [done|]). exists m. split; [done|]. rewrite Dm. split; [done|].
      split; [done|]. apply linked_errors_nil. cbv zeta. cbn [mbind option_bind].
      rewrite K, Dm. split_and!; [done..|]. by intros ? [= <-].
    + apply app_nil_iff. rewrite !push_if_nil, (has_digest_sole _ _ _ M), Dm. split; [|done].
      by apply N.eqb_neq.
Qed.

Lemma missing_nil p : missing_chc_pdr_candidate_metadata p = [] <-> candidate_ok p.
Proof.
  unfold missing_chc_pdr_candidate_metadata, candidate_ok. cbv zeta. rewrite !app_nil_iff.
  rewrite <- header_nil. split.
  - intros (H1 & H2 & H3 & H4 & H5 & H6 & A & B1 & B2 & B3 & H7 & _ & _ & _ & V & M).
    split; [tauto|]. apply roles_found; try done. by apply push_if_nil, negb_false_iff in A.
  - intros ((H1 & H2 & H3 & H4 & H5 & H6 & H7) & r & R).
    apply roles_pass in R as (-> & B1 & B2 & B3 & -> & -> & -> & V & M). done.
Qed.

Lemma validated_candidate_Ok v c :
  validated_chc_pdr_candidate v = Ok c <->
  exists p, v = Proved (EvChcPdr p) /\ candidate_ok p /\
    c = {| cd_proof := p; cd_proof_kind := ev_kind p;
           cd_normalized_input_hash := normalized_input_hash (obligation p);
           cd_native_metadata := native_metadata (obligation p) |}.
Proof.
  unfold validated_chc_pdr_candidate. destruct v as [[p]| | |]; try naive_solver.
  pose proof (missing_nil p) as M. destruct (missing_chc_pdr_candidate_metadata p) as [|e es].
  - split; [intros [= <-]|intros (q & [= <-] & _ & ->); done]. exists p. split; [done|].
    split; [by apply M|done].
  - split; [discriminate|]. intros (q & [= <-] & O & _). by apply M in O.
Qed.

End Spec.

(** ** The constructors *)

Section Constructors.
Context `{Sha256}.

Definition small (b : string) : Prop :=
  (len b <= MAX_FULL_VERIFICATION_ARTIFACT_MATERIALIZATION_BYTES)%N.

(** A linked artifact, as the constructors leave it. *)
Definition linked (k : FullVerificationArtifactKind) (payload : string * string)
    (id : ProofArtifactBindingId) (refs : list FullVerificationArtifactReference)
    : FullVerificationArtifact :=
  {| kind := k; label := payload.1; digest := Some (sha256_bytes payload.2);
     byte_len := Some (len payload.2);
     materialization_field := Some {| bytes := payload.2; mat_byte_len := len payload.2;
       mat_proof_binding_id := Some id; mat_referenced_artifacts := refs |} |}.

Lemma link_fresh k payload a id refs :
  try_from_bytes k payload.1 payload.2 = Ok a -> links_ok (Some id) refs ->
  with_proof_linkage id refs a = Ok (linked k payload id refs).
Proof.
  intros (L & ->)%try_from_bytes_Ok K. apply with_proof_linkage_Ok. eexists. split; [done|].
  split; [done|]. intros m [= <-]. split; [|done]. split; [exact L|]. split; [done|exact K].
Qed.

Lemma linked_is_role k payload id refs :
  small payload.2 -> payload.2 <> "" -> links_ok (Some id) refs ->
  linked_role id (sha256_bytes payload.2) refs (linked k payload id refs).
Proof.
  intros L Ne K.
  assert (M : materialization (linked k payload id refs) = materialization_field (linked k payload id refs)).
  { assert (V : artifact_ok (linked k payload id refs)).
    { intros m [= <-]. split; [|done]. split; [exact L|]. split; [done|exact K]. }
    apply validate_materialization_Ok in V. unfold materialization. by rewrite V. }
  unfold linked_role, materialized_bytes, proof_binding_id, referenced_artifacts. rewrite M.
  cbn. split; [by exists payload.2|]. split; [done|]. split; [done|]. split; [done|]. done.
Qed.

Lemma links_nil id : links_ok id [].
Proof.
  split; [done|]. split; [done|]. split; [by intros r ?%elem_of_nil|]. split; constructor.
Qed.

(** A list of references to digests of distinct kinds in increasing order. *)
Lemma links_increasing id refs :
  (N.of_nat (length refs) <= MAX_LINKED_ARTIFACT_REFERENCES)%N ->
  Forall (fun r => exists b, ar_digest r = sha256_bytes b) refs ->
  StronglySorted (fun a b => (kind_ord (ar_kind a) < kind_ord (ar_kind b))%N) refs ->
  links_ok (Some id) refs.
Proof.
  intros L F S. split; [exact L|]. split; [done|]. split.
  { intros r Hr. rewrite Forall_forall in F. destruct (F r Hr) as [b ->].
    apply sha256_bytes_canonical. }
  clear L F. split.
  - induction S as [|r l _ IH F]; constructor; [|done]. intros Hr.
    rewrite Forall_forall in F. specialize (F r Hr). lia.
  - apply StronglySorted_Sorted. induction S as [|r l _ IH F]; constructor; [done|].
    eapply Forall_impl; [exact F|]. cbn. intros b C.
    unfold reference_lt, artifact_reference_compare. apply N.compare_lt_iff in C as ->. done.
Qed.

Ltac solve_links :=
  apply links_increasing;
    [decide_now|repeat constructor; by eexists|repeat constructor].

Lemma links_input id b : links_ok (Some id) (input_reference (sha256_bytes b)).
Proof. solve_links. Qed.
Lemma links_replay id t m :
  links_ok (Some id) (replay_references (sha256_bytes t) (sha256_bytes <$> m)).
Proof. destruct m; solve_links. Qed.
Lemma links_report id t r m :
  links_ok (Some id) (report_references (sha256_bytes t) (sha256_bytes r) (sha256_bytes <$> m)).
Proof. destruct m; solve_links. Qed.

(** When a constructor succeeds. *)
Definition payloads_ok (o : MirDerivedChcPdrObligation) (s : ChcPdrStats)
    (T R C : string * string) (M : option (string * string)) (n : N) : Prop :=
  (origin o = MirDerived /\ is_blank (normalized_input o) = false /\
   relation_count s <> 0%N /\ clause_count s <> 0%N /\ (M <> None -> n <> 0%N) /\
   T.2 <> "" /\ R.2 <> "" /\ C.2 <> "" /\ snd <$> M <> Some "" /\
   sha256_bytes (normalized_input o) = normalized_input_hash o) /\
  small T.2 /\ small R.2 /\ small C.2 /\ (forall m, M = Some m -> small m.2) /\
  small (normalized_input o).

(** What it returns. *)
Definition linked_evidence (k : ChcPdrProofKind) (o : MirDerivedChcPdrObligation) (s : ChcPdrStats)
    (T R C : string * string) (M : option (string * string)) (n : N) : ChcPdrProofEvidence :=
  let d := fun p : string * string => sha256_bytes p.2 in
  let I := (input_label o, normalized_input o) in
  let id := linked_proof_binding_id k o (d T) (d R) (d C) (d <$> M) s n in
  {| ev_kind := k; obligation := o; stats := s;
     metadata := {| md_producer := Some PRODUCER; md_cache_key := None;
                    md_normalized_input_hash := Some (d I); transcript_hashes := [d T];
                    replay_log_hashes := [d R]; checked_report_hashes := [d C];
                    replay_check_status := Some unknown_status |};
     invariant_count := n;
     artifacts :=
       [linked NormalizedInput I id []; linked SolverTranscript T id (input_reference (d I));
        linked ReplayLog R id (replay_references (d T) (d <$> M));
        linked CheckedProofReport C id (report_references (d T) (d R) (d <$> M))] ++
       match M with
       | Some m => [linked PdrInvariantModel m id (input_reference (d I))]
       | None => []
       end |}.

Lemma fail_if_Ok b e u : fail_if b e = Ok u <-> b = false.
Proof. destruct b, u; cbn; naive_solver. Qed.

Lemma fail_bind {B} b e (k : unit -> result MatErr B) (x : B) :
  (fail_if b e ≫= k) = Ok x <-> b = false /\ k tt = Ok x.
Proof. destruct b; cbn; naive_solver. Qed.

Lemma preconditions_Ok o s T R C (M : option (string * string)) n u :
  linked_preconditions o s T R C (snd <$> M) n = Ok u <->
  origin o = MirDerived /\ is_blank (normalized_input o) = false /\
  relation_count s <> 0%N /\ clause_count s <> 0%N /\ (M <> None -> n <> 0%N) /\
  T <> "" /\ R <> "" /\ C <> "" /\ snd <$> M <> Some "" /\
  sha256_bytes (normalized_input o) = normalized_input_hash o.
Proof.
  unfold linked_preconditions. rewrite !fail_bind, fail_if_Ok.
  rewrite !negb_false_iff, !bool_decide_eq_true, orb_false_iff, !N.eqb_neq, !String.eqb_neq,
    bool_decide_eq_false, andb_false_iff, bool_decide_eq_false, N.eqb_neq.
  assert (S : (~ (snd <$> M <> None) \/ n <> 0%N) <-> (M <> None -> n <> 0%N)).
  { destruct M; cbn; [|naive_solver]. destruct (decide (n = 0%N)); naive_solver. }
  rewrite S. tauto.
Qed.

(** An artifact before it is linked. *)
Definition fresh (k : FullVerificationArtifactKind) (payload : string * string)
    : FullVerificationArtifact :=
  {| kind := k; label := payload.1; digest := Some (sha256_bytes payload.2);
     byte_len := Some (len payload.2);
     materialization_field := Some {| bytes := payload.2; mat_byte_len := len payload.2;
       mat_proof_binding_id := None; mat_referenced_artifacts := [] |} |}.

Lemma try_fresh k (p : string * string) a :
  try_from_bytes k p.1 p.2 = Ok a <-> small p.2 /\ a = fresh k p.
Proof. apply try_from_bytes_Ok. Qed.

Lemma build_Ok o s T R C M n x :
  build_artifacts o s T R C M n = Ok x <->
  payloads_ok o s T R C M n /\
  x = (fresh SolverTranscript T, fresh ReplayLog R, fresh CheckedProofReport C,
       fresh PdrInvariantModel <$> M, fresh NormalizedInput (input_label o, normalized_input o)).
Proof.
  unfold build_artifacts, payloads_ok.
  assert (Hm : forall y, map_transpose (fun p : string * string => try_from_bytes PdrInvariantModel p.1 p.2) M = Ok y <->
    (forall m, M = Some m -> small m.2) /\ y = fresh PdrInvariantModel <$> M).
  { intros y. destruct M as [m|]; cbn; [|naive_solver]. rewrite bind_Ok. setoid_rewrite try_fresh.
    naive_solver. }
  split.
  - intros E. invert_ok.
    repeat match goal with
    | H : linked_preconditions _ _ _ _ _ _ _ = Ok _ |- _ => apply preconditions_Ok in H
    | H : map_transpose _ _ = Ok _ |- _ => apply Hm in H as [? ->]
    | H : try_from_bytes _ (input_label _) _ = Ok _ |- _ =>
        apply (try_fresh NormalizedInput (input_label o, normalized_input o)) in H as [? ->]
    | H : try_from_bytes _ _ _ = Ok _ |- _ => apply try_fresh in H as [? ->]
    end.
    done.
  - intros [(P & LT & LR & LC & LM & LI) ->].
    assert (linked_preconditions o s T.2 R.2 C.2 (snd <$> M) n = Ok tt) as -> by (by apply preconditions_Ok).
    cbn [mbind result_bind].
    rewrite (proj2 (try_fresh SolverTranscript T _)) by done. cbn [mbind result_bind].
    rewrite (proj2 (try_fresh ReplayLog R _)) by done. cbn [mbind result_bind].
    rewrite (proj2 (try_fresh CheckedProofReport C _)) by done. cbn [mbind result_bind].
    rewrite (proj2 (Hm _)) by done. cbn [mbind result_bind].
    assert (try_from_bytes NormalizedInput (input_label o) (normalized_input o) =
      Ok (fresh NormalizedInput (input_label o, normalized_input o))) as ->
      by (by apply (try_fresh NormalizedInput (input_label o, normalized_input o))).
    done.
Qed.

(** Linking cannot fail, and a digest is always there: no panic. *)
Lemma link_Ok k o s n T R C M :
  payloads_ok o s T R C M n ->
  link_artifacts k o s n (fresh NormalizedInput (input_label o, normalized_input o))
    (fresh SolverTranscript T) (fresh ReplayLog R) (fresh CheckedProofReport C)
    (fresh PdrInvariantModel <$> M) (sha256_bytes (normalized_input o))
    (sha256_bytes T.2) (sha256_bytes R.2) (sha256_bytes C.2) ((fun p => sha256_bytes p.2) <$> M) =
  Ok (linked_evidence k o s T R C M n).
Proof.
  intros (_ & LT & LR & LC & LM & LI). unfold link_artifacts, linked_evidence. cbv zeta.
  set (id := linked_proof_binding_id _ _ _ _ _ _ _ _).
  assert (Lk : forall kd p refs, small p.2 -> links_ok (Some id) refs ->
    with_proof_linkage id refs (fresh kd p) = Ok (linked kd p id refs)).
  { intros kd p refs L K. apply link_fresh; [by apply try_fresh|done]. }
  assert (Em : (fun p : string * string => sha256_bytes p.2) <$> M = sha256_bytes <$> (snd <$> M))
    by (by destruct M).
  rewrite Em.
  rewrite (Lk NormalizedInput) by (apply links_nil || done). cbn [mbind result_bind].
  rewrite (Lk SolverTranscript) by (apply links_input || done). cbn [mbind result_bind].
  assert (map_transpose (with_proof_linkage id (input_reference (sha256_bytes (normalized_input o))))
    (fresh PdrInvariantModel <$> M) = Ok ((fun m => linked PdrInvariantModel m id
      (input_reference (sha256_bytes (normalized_input o)))) <$> M)) as ->.
  { destruct M as [m|]; [|done]. cbn [map_transpose fmap option_fmap option_map].
    by rewrite (Lk PdrInvariantModel m) by (apply links_input || by apply LM). }
  cbn [mbind result_bind].
  rewrite (Lk ReplayLog) by (apply links_replay || done). cbn [mbind result_bind].
  rewrite (Lk CheckedProofReport) by (apply links_report || done). cbn [mbind result_bind].
  by destruct M.
Qed.

Lemma inner_spec k o s T R C M n :
  let r := try_proof_grade_from_linked_bytes_inner k o s T R C M n in
  (payloads_ok o s T R C M n -> r = Some (Ok (linked_evidence k o s T R C M n))) /\
  (~ payloads_ok o s T R C M n -> exists e, r = Some (Err e)).
Proof.
  cbv zeta. unfold try_proof_grade_from_linked_bytes_inner.
  destruct (build_artifacts o s T R C M n) as [x|e] eqn:E.
  - apply build_Ok in E as [P ->]. split; [|done]. intros _.
    rewrite <- (link_Ok k o s n T R C M) by done. by destruct M.
  - split; [|by exists e]. intros P. exfalso.
    rewrite (proj2 (build_Ok o s T R C M n _)) in E by done. discriminate.
Qed.

End Constructors.

Section Candidates.
Context `{Sha256}.

(** What the constructors return passes the check. *)
Lemma linked_candidate k o s T R C M n :
  payloads_ok o s T R C M n ->
  match k, M with ChcValidity, None | PdrInvariant, Some _ => True | _, _ => False end ->
  candidate_ok (linked_evidence k o s T R C M n).
Proof.
  intros ((Or & Bl & S1 & S2 & Ct & NT & NR & NC & NM & Hh) & LT & LR & LC & LM & LI) K. split.
  - unfold header_ok, linked_evidence. cbn. rewrite <- Hh. by split_and!; [..|exists PRODUCER|].
  - assert (NI : normalized_input o <> "") by (intros E; rewrite E in Bl; discriminate).
    set (p := linked_evidence k o s T R C M n).
    set (id := linked_proof_binding_id k o (sha256_bytes T.2) (sha256_bytes R.2) (sha256_bytes C.2)
                 ((fun p : string * string => sha256_bytes p.2) <$> M) s n).
    assert (Em : (fun p : string * string => sha256_bytes p.2) <$> M = sha256_bytes <$> (snd <$> M))
      by (by destruct M).
    set (I := (input_label o, normalized_input o)).
    exists {| r_input := linked NormalizedInput I id [];
              r_transcript := linked SolverTranscript T id (input_reference (sha256_bytes I.2));
              r_replay := linked ReplayLog R id (replay_references (sha256_bytes T.2) (sha256_bytes <$> (snd <$> M)));
              r_report := linked CheckedProofReport C id
                (report_references (sha256_bytes T.2) (sha256_bytes R.2) (sha256_bytes <$> (snd <$> M)));
              r_model := (fun m => linked PdrInvariantModel m id (input_reference (sha256_bytes I.2))) <$> M;
              r_th := sha256_bytes T.2; r_rh := sha256_bytes R.2; r_ch := sha256_bytes C.2;
              r_mh := sha256_bytes <$> (snd <$> M) |}.
    assert (Hid : forall r, r_th r = sha256_bytes T.2 -> r_rh r = sha256_bytes R.2 ->
      r_ch r = sha256_bytes C.2 -> r_mh r = sha256_bytes <$> (snd <$> M) -> set_id (roles_set p r) = id).
    { intros r E1 E2 E3 E4. unfold set_id, roles_set. cbn [ps_kind ps_obligation ps_transcript
        ps_replay ps_report ps_invariant ps_stats ps_count]. rewrite E1, E2, E3, E4. subst id.
      by rewrite Em. }
    unfold roles_ok. rewrite Hid by done. cbn [r_input r_transcript r_replay r_report r_th r_rh r_ch r_mh].
    replace (normalized_input_hash (obligation p)) with (sha256_bytes I.2) by exact Hh.
    split_and!.
    1-4: subst p; unfold linked_evidence, of_kind; cbn [artifacts]; rewrite ?Em; by destruct M.
    1-3: done.
    2: apply linked_is_role; [done|done|apply links_nil].
    2: apply linked_is_role; [done|done|apply links_input].
    2: apply linked_is_role; [done|done|apply links_replay].
    2: apply linked_is_role; [done|done|apply links_report].
    unfold model_ok. change (ev_kind p) with k. destruct k, M as [m|]; try done.
    split; [by apply Ct|]. exists (linked PdrInvariantModel m id (input_reference (sha256_bytes I.2))),
      (sha256_bytes m.2). split; [done|]. split; [done|]. split; [done|].
    rewrite Hid by done. replace (normalized_input_hash (obligation p)) with (sha256_bytes I.2) by exact Hh.
    apply linked_is_role; [by apply LM| |apply links_input].
    intros E. apply NM. cbn. by rewrite E.
Qed.

Lemma of_kind_elem p k a : a ∈ of_kind p k <-> a ∈ artifacts p /\ kind a = k.
Proof. unfold of_kind. rewrite !list_elem_of_In, filter_In, bool_decide_eq_true. done. Qed.

(** Evidence built without linkage has no binding to be accepted under. *)
Lemma legacy_unbound k o s T R C : ~ candidate_ok (proof_grade_from_bytes k o s T R C).
Proof.
  intros [_ [r (Ea & _ & _ & _ & _ & _ & _ & _ & La & _)]].
  apply linked_role_fine in La as [_ (_ & B & _)].
  assert (U : forall kd l b, proof_binding_id (from_bytes kd l b) = None).
  { intros kd l b. unfold proof_binding_id, materialization, from_bytes.
    destruct (try_from_bytes kd l b) as [a|] eqn:E; [|done].
    apply try_from_bytes_Ok in E as [_ ->]. by destruct (validate_materialization _). }
  assert (X : r_input r ∈ artifacts (proof_grade_from_bytes k o s T R C)).
  { apply (of_kind_elem _ NormalizedInput). rewrite Ea. left. }
  unfold proof_grade_from_bytes in X. cbn [artifacts] in X.
  rewrite !elem_of_cons, elem_of_nil in X.
  destruct X as [X|[X|[X|[X|[]]]]]; rewrite X, U in B; discriminate.
Qed.

End Candidates.

(** ** Proof sets of candidates *)

Section Sets.
Context `{Sha256}.

Definition hd_hash (l : list EvidenceHash) : EvidenceHash :=
  match l with h :: _ => h | [] => {| algorithm := ""; hash_value := "" |} end.

(** The proof set the evidence declares. *)
Definition evidence_set (p : ChcPdrProofEvidence) : ProofSet := {|
  ps_kind := ev_kind p; ps_obligation := obligation p;
  ps_transcript := hd_hash (transcript_hashes (metadata p));
  ps_replay := hd_hash (replay_log_hashes (metadata p));
  ps_report := hd_hash (checked_report_hashes (metadata p));
  ps_invariant := match ev_kind p with
                  | ChcValidity => None
                  | PdrInvariant => a ← head (of_kind p PdrInvariantModel); digest a
                  end;
  ps_stats := stats p; ps_count := invariant_count p |}.

Definition role_kinds : list FullVerificationArtifactKind :=
  [NormalizedInput; SolverTranscript; ReplayLog; CheckedProofReport; PdrInvariantModel].

Lemma roles_evidence_set p r : roles_ok p r -> roles_set p r = evidence_set p.
Proof.
  intros (_ & _ & _ & _ & Et & Er & Ec & M & _). unfold evidence_set, roles_set.
  rewrite Et, Er, Ec. cbn. unfold model_ok in M. f_equal. destruct (ev_kind p).
  - by destruct M as (_ & _ & ->).
  - destruct M as (_ & m & d & -> & _ & -> & _ & D & _). cbn. by rewrite D.
Qed.

(** What each role's artifact is: one per kind, bound to the set, with the digest
    the set has for that kind. *)
Definition set_digest (s : ProofSet) (k : FullVerificationArtifactKind) : option EvidenceHash :=
  match k with
  | NormalizedInput => Some (normalized_input_hash (ps_obligation s))
  | SolverTranscript => Some (ps_transcript s)
  | ReplayLog => Some (ps_replay s)
  | CheckedProofReport => Some (ps_report s)
  | PdrInvariantModel => ps_invariant s
  | _ => None
  end.

Lemma candidate_role p k :
  candidate_ok p -> k ∈ role_kinds ->
  match set_digest (evidence_set p) k with
  | Some d => exists a refs, of_kind p k = [a] /\ linked_role (set_id (evidence_set p)) d refs a
  | None => of_kind p k = []
  end.
Proof.
  intros [_ [r R]] K. rewrite <- (roles_evidence_set p r R).
  destruct R as (Ea & Et & Er & Ec & _ & _ & _ & M & La & Lt & Lr & Lc).
  unfold role_kinds in K. rewrite !elem_of_cons, elem_of_nil in K.
  destruct K as [->|[->|[->|[->|[->|[]]]]]]; cbn; try (by eexists _, _).
  unfold model_ok in M. destruct (ev_kind p).
  - destruct M as (M & _ & ->). exact M.
  - destruct M as (_ & m & d & M & _ & -> & L). by eexists _, _.
Qed.

(** The digests of a set are determined by its identity. *)
Lemma set_digest_identity s s' k :
  set_identity s = set_identity s' -> set_digest s k = set_digest s' k.
Proof.
  unfold set_identity. intros E. injection E as _ _ E1 E2 E3 E4 E5 _.
  destruct k; cbn; try congruence.
  destruct (ps_invariant s), (ps_invariant s'); cbn in E5; congruence.
Qed.

Lemma bound_id p a :
  candidate_ok p -> a ∈ artifacts p -> kind a ∈ role_kinds ->
  proof_binding_id a = Some (set_id (evidence_set p)).
Proof.
  intros O A K. pose proof (candidate_role p (kind a) O K) as R.
  assert (X : a ∈ of_kind p (kind a)) by (by apply of_kind_elem).
  destruct (set_digest (evidence_set p) (kind a)) as [d|].
  - destruct R as (b & refs & Eb & L). rewrite Eb, list_elem_of_singleton in X. subst b.
    apply linked_role_fine in L. tauto.
  - rewrite R in X. by apply elem_of_nil in X.
Qed.

Lemma materialized_digest a b : materialized_bytes a = Some b -> digest a = Some (sha256_bytes b).
Proof.
  unfold materialized_bytes. intros (m & M & ->)%fmap_Some.
  apply materialization_spec in M as [F V]. by destruct (V m F) as (_ & D & _).
Qed.

(** Two different artifacts of one role, of which the digests are the same *)
Definition role_collides (p p' : ChcPdrProofEvidence) : Prop :=
  exists kd a a' b b', kd ∈ role_kinds /\ a ∈ of_kind p kd /\ a' ∈ of_kind p' kd /\
    materialized_bytes a = Some b /\ materialized_bytes a' = Some b' /\ collides b b'.

Lemma same_bytes p p' :
  candidate_ok p -> candidate_ok p' -> set_identity (evidence_set p) = set_identity (evidence_set p') ->
  (set_identity (evidence_set p) = set_identity (evidence_set p') /\ forall kd, kd ∈ role_kinds ->
     map materialized_bytes (of_kind p kd) = map materialized_bytes (of_kind p' kd)) \/ role_collides p p'.
Proof.
  intros O O' J.
  assert (G : forall kd, kd ∈ role_kinds ->
    map materialized_bytes (of_kind p kd) = map materialized_bytes (of_kind p' kd) \/ role_collides p p').
  { intros kd K. pose proof (candidate_role p kd O K) as R. pose proof (candidate_role p' kd O' K) as R'.
    rewrite <- (set_digest_identity _ _ kd J) in R'.
    destruct (set_digest (evidence_set p) kd) as [d|]; [|left; by rewrite R, R'].
    destruct R as (a & ? & Ra & (b & B & _) & D & _), R' as (a' & ? & Ra' & (b' & B' & _) & D' & _).
    destruct (sha256_bytes_inj b b') as [->|].
    { apply materialized_digest in B, B'. congruence. }
    - left. rewrite Ra, Ra'. cbn. by rewrite B, B'.
    - right. exists kd, a, a', b, b'. rewrite Ra, Ra', !list_elem_of_singleton. by split_and!. }
  unfold role_kinds in *. repeat setoid_rewrite elem_of_cons in G. repeat setoid_rewrite elem_of_cons.
  destruct (G NormalizedInput) as [G1|]; [tauto| |by right].
  destruct (G SolverTranscript) as [G2|]; [tauto| |by right].
  destruct (G ReplayLog) as [G3|]; [tauto| |by right].
  destruct (G CheckedProofReport) as [G4|]; [tauto| |by right].
  destruct (G PdrInvariantModel) as [G5|]; [tauto| |by right].
  left. split; [done|]. intros kd K. rewrite elem_of_nil in K.
  destruct K as [->|[->|[->|[->|[->|[]]]]]]; done.
Qed.

End Sets.

(** ** Properties *)

Section Properties.
Context `{Sha256}.

(** C2: the public interface grants no proof.  No verdict that a producer can
    build or transport is classified as proof-grade, and both admission functions
    refuse every verdict; a candidate that has everything right is refused with
    exactly one reason, the missing private replay. *)
Theorem public_admission_closed (v : FullVerificationVerdict) :
  (forall k h, classify_proof_grade_verdict v <> ProofGrade k h) /\
  is_ok (accepted_chc_pdr_proof v) = false /\ is_ok (accepted_native_typed_chc_pdr_proof v) = false /\
  (forall c, validated_chc_pdr_candidate v = Ok c ->
     classify_proof_grade_verdict v = NotProofGrade (Some ChcPdr)
       [match cd_proof_kind c with
        | ChcValidity => CHC_VALIDITY_FRESH_CONSUMER_REPLAY_REQUIRED
        | PdrInvariant => PDR_INVARIANT_FRESH_CONSUMER_REPLAY_REQUIRED
        end]).
Proof.
  assert (N : forall p, exists reasons, classify_chc_pdr_proof p = NotProofGrade (Some ChcPdr) reasons).
  { intros p. unfold classify_chc_pdr_proof, missing_chc_pdr_proof_grade_metadata.
    destruct (missing_chc_pdr_candidate_metadata p); cbn; by eexists. }
  assert (A : is_ok (accepted_chc_pdr_proof v) = false).
  { destruct v as [[p]| | |]; cbn; try done. by destruct (N p) as [? ->]. }
  split; [|split; [exact A|split]].
  - intros k h. destruct v as [[p]| | |]; cbn; try done. by destruct (N p) as [? ->].
  - unfold accepted_native_typed_chc_pdr_proof. by destruct (accepted_chc_pdr_proof v).
  - intros c (p & -> & O%missing_nil & ->)%validated_candidate_Ok. cbn.
    unfold classify_chc_pdr_proof, missing_chc_pdr_proof_grade_metadata. rewrite O. done.
Qed.

(** C12: the candidate check is exact.  A verdict passes as a candidate exactly
    when it is a proof whose header is in order (MIR-derived, not empty, hashed,
    no claim that replay or check has run) and whose artifacts are one per role,
    retain non-empty bytes with the declared digests, carry the binding id of the
    set they form and refer to exactly the artifacts they were made from; the
    native check adds exactly the metadata being there and valid. *)
Theorem candidate_check_exact (v : FullVerificationVerdict) (c : ValidatedChcPdrCandidateEvidence) :
  (validated_chc_pdr_candidate v = Ok c <->
   exists p, v = Proved (EvChcPdr p) /\ candidate_ok p /\
     c = {| cd_proof := p; cd_proof_kind := ev_kind p;
            cd_normalized_input_hash := normalized_input_hash (obligation p);
            cd_native_metadata := native_metadata (obligation p) |}) /\
  (validated_native_typed_chc_pdr_candidate v = Ok c <->
   validated_chc_pdr_candidate v = Ok c /\
   exists m, cd_native_metadata c = Some m /\ metadata_ok m /\
     same_spelling (obligation_id (obligation (cd_proof c))) (expected_obligation_id m)).
Proof.
  split; [apply validated_candidate_Ok|].
  unfold validated_native_typed_chc_pdr_candidate. rewrite bind_Ok.
  assert (C : forall c u, check_native (cd_native_metadata c) (obligation_id (obligation (cd_proof c))) = Ok u <->
    exists m, cd_native_metadata c = Some m /\ metadata_ok m /\
      same_spelling (obligation_id (obligation (cd_proof c))) (expected_obligation_id m)).
  { intros x []. unfold check_native. destruct (cd_native_metadata x) as [m|]; cbn; [|naive_solver].
    pose proof (NativeMetadata.validate_Ok m (obligation_id (obligation (cd_proof x)))) as V.
    destruct (validate_metadata m _) as [[]|].
    - split; [|done]. intros _. exists m. split; [done|]. by apply V.
    - split; [discriminate|]. intros (m' & [= <-] & Q). by apply V in Q. }
  split.
  - intros (c' & V & E). apply bind_Ok in E as (u & E & [= <-]). split; [done|]. by apply C in E.
  - intros [V E]. exists c. split; [done|]. apply bind_Ok. exists tt. split; [by apply C|done].
Qed.

(** the constructors make candidates.  Building linked evidence never
    panics; it succeeds exactly when the obligation is MIR-derived, hashed and not
    blank, the statistics and the payloads are not empty and every payload fits
    the limit; and then what it returns passes the candidate check.  The general
    constructor refuses invariant proofs, which need their model. *)
Theorem constructors_make_candidates (o : MirDerivedChcPdrObligation) (s : ChcPdrStats)
    (T R C M : string * string) (n : N) :
  (try_chc_validity_candidate_from_linked_bytes o s T R C =
     try_proof_grade_from_linked_bytes ChcValidity o s T R C) /\
  (try_proof_grade_from_linked_bytes PdrInvariant o s T R C = Some (Err PdrInvariantCandidateRequired)) /\
  (payloads_ok o s T R C None 0 -> exists p,
     try_chc_validity_candidate_from_linked_bytes o s T R C = Some (Ok p) /\ candidate_ok p) /\
  (~ payloads_ok o s T R C None 0 -> exists e,
     try_chc_validity_candidate_from_linked_bytes o s T R C = Some (Err e)) /\
  (payloads_ok o s T R C (Some M) n -> exists p,
     try_pdr_invariant_candidate_from_linked_bytes o s n T R C M = Some (Ok p) /\ candidate_ok p) /\
  (~ payloads_ok o s T R C (Some M) n -> exists e,
     try_pdr_invariant_candidate_from_linked_bytes o s n T R C M = Some (Err e)).
Proof.
  split; [done|]. split; [done|].
  destruct (inner_spec ChcValidity o s T R C None 0) as [V1 V2].
  destruct (inner_spec PdrInvariant o s T R C (Some M) n) as [P1 P2].
  split; [|split; [exact V2|split; [|exact P2]]].
  - intros P. eexists. split; [by apply V1|]. by apply linked_candidate.
  - intros P. eexists. split; [by apply P1|]. by apply linked_candidate.
Qed.

(** candidates cannot be spliced.  If an artifact of one candidate carries
    the binding id of an artifact of another, the two candidates state the same
    kind, obligation, input and digests, and in every role the same bytes, unless
    the bytes hashed for the two ids collide or those of two artifacts of one role.  Evidence built by hashing unlinked bytes is never
    a candidate. *)
Theorem candidates_not_spliced (p p' : ChcPdrProofEvidence) (a a' : FullVerificationArtifact)
    (k : ChcPdrProofKind) (o : MirDerivedChcPdrObligation) (s : ChcPdrStats) (T R C : string * string)
    (V : is_ok (validated_chc_pdr_candidate (Proved (EvChcPdr p))) = true)
    (V' : is_ok (validated_chc_pdr_candidate (Proved (EvChcPdr p'))) = true)
    (S : set_sized (evidence_set p)) (S' : set_sized (evidence_set p'))
    (A : a ∈ artifacts p) (A' : a' ∈ artifacts p')
    (K : kind a ∈ role_kinds) (K' : kind a' ∈ role_kinds)
    (E : proof_binding_id a = proof_binding_id a') :
  (collides (set_payload (evidence_set p)) (set_payload (evidence_set p')) \/ role_collides p p' \/
   set_identity (evidence_set p) = set_identity (evidence_set p') /\
     forall kd, kd ∈ role_kinds ->
       map materialized_bytes (of_kind p kd) = map materialized_bytes (of_kind p' kd)) /\
  is_ok (validated_chc_pdr_candidate (Proved (EvChcPdr (proof_grade_from_bytes k o s T R C)))) = false.
Proof.
  assert (W : forall q, is_ok (validated_chc_pdr_candidate (Proved (EvChcPdr q))) = true -> candidate_ok q).
  { intros q Q. destruct (validated_chc_pdr_candidate (Proved (EvChcPdr q))) as [c|] eqn:X; [|discriminate].
    apply validated_candidate_Ok in X as (q' & [= <-] & O & _). exact O. }
  split.
  - assert (I : set_id (evidence_set p) = set_id (evidence_set p')).
    { rewrite (bound_id p a (W _ V) A K), (bound_id p' a' (W _ V') A' K') in E. exact (inj Some _ _ E). }
    destruct (set_id_inj _ _ S S' I) as [J|]; [|by left].
    right. destruct (same_bytes p p' (W _ V) (W _ V') J) as [B|]; [by right|by left].
  - destruct (validated_chc_pdr_candidate (Proved (EvChcPdr (proof_grade_from_bytes k o s T R C))))
      as [c|] eqn:X; [|done].
    apply validated_candidate_Ok in X as (q & [= Eq] & O & _). rewrite <- Eq in O.
    destruct (legacy_unbound _ _ _ _ _ _ O).
Qed.

End Properties.

(** ** Samples *)

Section Witness.
Import Digest.Sample.

Definition sample_evidence : ChcPdrProofEvidence :=
  match try_chc_validity_candidate_from_linked_bytes
          (with_native_metadata NativeMetadata.Sample.metadata (new "obl" KAssertion "(check-sat)"))
          {| relation_count := 1; clause_count := 2 |} ("t.log", "t") ("r.log", "r") ("c.txt", "c") with
  | Some (Ok p) => p
  | _ => proof_grade_from_bytes ChcValidity (new "" KAssertion "") {| relation_count := 0; clause_count := 0 |}
           ("", "") ("", "") ("", "")
  end.

Definition sample_artifact : FullVerificationArtifact :=
  default (from_bytes ReplayLog "" "") (head (of_kind sample_evidence ReplayLog)).

Lemma sample_evidence_set : evidence_set sample_evidence = sample_set.
Proof. vm_compute. reflexivity. Qed.

Lemma sample_artifact_in : sample_artifact ∈ artifacts sample_evidence.
Proof.
  apply (of_kind_elem sample_evidence ReplayLog).
  assert (of_kind sample_evidence ReplayLog = [sample_artifact]) as -> by (vm_compute; reflexivity).
  by apply list_elem_of_singleton.
Qed.

Lemma candidates_not_spliced_witness :
  length (artifacts sample_evidence) = 4 /\ proof_binding_id sample_artifact <> None /\
  (collides (set_payload (evidence_set sample_evidence)) (set_payload (evidence_set sample_evidence)) \/
   role_collides sample_evidence sample_evidence \/ set_identity (evidence_set sample_evidence) = set_identity (evidence_set sample_evidence) /\
     forall kd, kd ∈ role_kinds -> map materialized_bytes (of_kind sample_evidence kd) =
       map materialized_bytes (of_kind sample_evidence kd)).
Proof.
  assert (S : set_sized (evidence_set sample_evidence)).
  { rewrite sample_evidence_set. exact sample_sized. }
  split; [vm_compute; reflexivity|]. split; [vm_compute; discriminate|].
  refine (proj1 (candidates_not_spliced sample_evidence sample_evidence sample_artifact sample_artifact
    ChcValidity (new "" KAssertion "") {| relation_count := 0; clause_count := 0 |} ("", "") ("", "") ("", "")
    _ _ S S sample_artifact_in sample_artifact_in _ _ eq_refl)).
  1-2: vm_compute; reflexivity.
  all: vm_compute; right; right; left.
Defined.

End Witness.
