(* ===== verification/Bmc.v ===== *)
(** * Bounded verification conditions

    [Violation] and [BmcVc] of trust-mc-core/src/violation.rs and bmc.rs, and what
    the query they describe asks: an assignment that satisfies every path
    constraint and one of the violations. *)

From S2P Require Import Prelude AyExpr Artifact Chc.

Module Bmc.

Section Bmc.
Context `{AyExpr}.

(** ** Violations *)

(** [struct Violation] *)
Record Violation := {
  property_id : Artifact.CorePropertyId;
  v_kind : Artifact.PropertyKind;
  condition : Expr;
  v_location : option Artifact.SourceLocation;
  v_message : option string;
  smt_var : option string;
  reach_var : option string }.

(** [Violation::new] *)
Definition Violation_new (property_id : Artifact.CorePropertyId) (kind : Artifact.PropertyKind)
    (condition : Expr) : Violation :=
  {| property_id := property_id; v_kind := kind; condition := condition; v_location := None;
     v_message := None; smt_var := None; reach_var := None |}.

(** [with_location], [with_message], [with_smt_var], [with_reach_var] *)
Definition with_location (location : Artifact.SourceLocation) (v : Violation) : Violation :=
  {| property_id := property_id v; v_kind := v_kind v; condition := condition v;
     v_location := Some location; v_message := v_message v; smt_var := smt_var v;
     reach_var := reach_var v |}.
Definition with_message (message : string) (v : Violation) : Violation :=
  {| property_id := property_id v; v_kind := v_kind v; condition := condition v;
     v_location := v_location v; v_message := Some message; smt_var := smt_var v;
     reach_var := reach_var v |}.
Definition with_smt_var (var : string) (v : Violation) : Violation :=
  {| property_id := property_id v; v_kind := v_kind v; condition := condition v;
     v_location := v_location v; v_message := v_message v; smt_var := Some var;
     reach_var := reach_var v |}.
Definition with_reach_var (var : string) (v : Violation) : Violation :=
  {| property_id := property_id v; v_kind := v_kind v; condition := condition v;
     v_location := v_location v; v_message := v_message v; smt_var := smt_var v;
     reach_var := Some var |}.

(** ** The verification condition *)

(** [struct BmcQuery] *)
Record BmcQuery := {
  produce_model : bool;
  produce_unsat_core : bool;
  q_timeout_ms : option N;
  logic : option string }.

(** [BmcQuery::default] and its builders *)
Definition BmcQuery_new : BmcQuery :=
  {| produce_model := false; produce_unsat_core := false; q_timeout_ms := None; logic := None |}.
Definition with_model (q : BmcQuery) : BmcQuery :=
  {| produce_model := true; produce_unsat_core := produce_unsat_core q;
     q_timeout_ms := q_timeout_ms q; logic := logic q |}.
Definition with_unsat_core (q : BmcQuery) : BmcQuery :=
  {| produce_model := produce_model q; produce_unsat_core := true;
     q_timeout_ms := q_timeout_ms q; logic := logic q |}.
Definition with_timeout (ms : N) (q : BmcQuery) : BmcQuery :=
  {| produce_model := produce_model q; produce_unsat_core := produce_unsat_core q;
     q_timeout_ms := Some ms; logic := logic q |}.
Definition with_logic (l : string) (q : BmcQuery) : BmcQuery :=
  {| produce_model := produce_model q; produce_unsat_core := produce_unsat_core q;
     q_timeout_ms := q_timeout_ms q; logic := Some l |}.

(** [struct BmcVc] *)
Record BmcVc := {
  b_decls : list Chc.Decl;
  b_constraints : list Expr;
  violations : list Violation;
  b_query : BmcQuery;
  model_queries : list Expr }.

(** [BmcVc::new] *)
Definition BmcVc_new : BmcVc :=
  {| b_decls := []; b_constraints := []; violations := []; b_query := BmcQuery_new;
     model_queries := [] |}.

(** [add_decl], [add_constraint], [add_violation], [add_model_query],
    [add_model_queries] *)
Definition add_decl (decl : Chc.Decl) (vc : BmcVc) : BmcVc :=
  {| b_decls := b_decls vc ++ [decl]; b_constraints := b_constraints vc;
     violations := violations vc; b_query := b_query vc; model_queries := model_queries vc |}.
Definition add_constraint (c : Expr) (vc : BmcVc) : BmcVc :=
  {| b_decls := b_decls vc; b_constraints := b_constraints vc ++ [c];
     violations := violations vc; b_query := b_query vc; model_queries := model_queries vc |}.
Definition add_violation (v : Violation) (vc : BmcVc) : BmcVc :=
  {| b_decls := b_decls vc; b_constraints := b_constraints vc;
     violations := violations vc ++ [v]; b_query := b_query vc; model_queries := model_queries vc |}.
Definition add_model_queries (es : list Expr) (vc : BmcVc) : BmcVc :=
  {| b_decls := b_decls vc; b_constraints := b_constraints vc;
     violations := violations vc; b_query := b_query vc; model_queries := model_queries vc ++ es |}.
Definition add_model_query (e : Expr) (vc : BmcVc) : BmcVc := add_model_queries [e] vc.

(** [is_trivial], [property_count] *)
Definition is_trivial (vc : BmcVc) : bool :=
  match violations vc with [] => true | _ => false end.
Definition property_count (vc : BmcVc) : nat := length (violations vc).

End Bmc.

(** ** The query *)

Section Query.
Context `{AySem}.

(** [SAT(path_constraints ∧ (violation₁ ∨ violation₂ ∨ ...))], by its models. *)
Definition violated (vc : BmcVc) (rho : string -> val) : Prop :=
  admissible rho /\ (forall c, c ∈ b_constraints vc -> is_true (eval rho c)) /\
  exists v, v ∈ violations vc /\ is_true (eval rho (condition v)).

(** Adding a violation adds its models, adding a constraint filters them. *)
Lemma violated_add vc v c rho :
  (violated (add_violation v vc) rho <->
   violated vc rho \/
   admissible rho /\ (forall c, c ∈ b_constraints vc -> is_true (eval rho c)) /\
     is_true (eval rho (condition v))) /\
  (violated (add_constraint c vc) rho <-> violated vc rho /\ is_true (eval rho c)).
Proof.
  unfold violated. cbn. split.
  - setoid_rewrite elem_of_app. setoid_rewrite list_elem_of_singleton. naive_solver.
  - setoid_rewrite elem_of_app. setoid_rewrite list_elem_of_singleton. naive_solver.
Qed.

Lemma trivial_unviolated vc rho : is_trivial vc = true -> ~ violated vc rho.
Proof.
  unfold is_trivial, violated. destruct (violations vc); [|done].
  intros _ (_ & _ & v & V & _). by apply elem_of_nil in V.
Qed.

End Query.

End Bmc.
