(* ===== verification/FullVerifier.v ===== *)
(** * The full-verifier boundary

    trust-mc-core/src/full_verifier.rs: requests, reports, the consistency check of
    a proof report and [NativeFullVerifier::verify].  An engine is injected; it may
    have effects, so a call threads the engine's state. *)

From S2P Require Import Prelude Text Wire Digest AyExpr Chc Bmc.

Module FullVerifier.

(** ** Evidence digests *)

(** [enum EvidenceHashAlgorithm] and its [Display] *)
Inductive EvidenceHashAlgorithm := Sha256.
Definition algorithm_fmt (a : EvidenceHashAlgorithm) : string := match a with Sha256 => "SHA-256" end.

(** [struct EvidenceHash] *)
Record EvidenceHash := { algorithm : EvidenceHashAlgorithm; hex : string }.

#[export] Instance EvidenceHashAlgorithm_eq_dec : EqDecision EvidenceHashAlgorithm.
Proof. solve_decision. Defined.
#[export] Instance EvidenceHash_eq_dec : EqDecision EvidenceHash.
Proof. solve_decision. Defined.

(** [enum EvidenceHashError] and its [Display] *)
Inductive EvidenceHashError :=
  | InvalidLength (algorithm : EvidenceHashAlgorithm) (expected actual : N)
  | InvalidHex (algorithm : EvidenceHashAlgorithm).
Definition EvidenceHashError_fmt (e : EvidenceHashError) : string :=
  match e with
  | InvalidLength a expected actual =>
      "invalid " +:+ algorithm_fmt a +:+ " evidence hash length: expected " +:+ pretty expected +:+
      ", got " +:+ pretty actual
  | InvalidHex a => "invalid " +:+ algorithm_fmt a +:+ " evidence hash: digest must be hexadecimal"
  end.

(** [EvidenceHash::sha256] *)
Definition sha256 (h : string) : result EvidenceHashError EvidenceHash :=
  let hex := Digest.to_ascii_lowercase h in
  if negb (N.eqb (Digest.len hex) 64) then Err (InvalidLength Sha256 64 (Digest.len hex))
  else if negb (Str.chars_all Digest.is_ascii_hexdigit hex) then Err (InvalidHex Sha256)
  else Ok {| algorithm := Sha256; hex := hex |}.

(** [algorithm:hex], as the reasons print a hash. *)
Definition hash_fmt (h : EvidenceHash) : string := algorithm_fmt (algorithm h) +:+ ":" +:+ hex h.

(** ** Artifacts *)

(** [enum FullVerificationArtifactKind] and its [Debug] *)
Inductive FullVerificationArtifactKind :=
  | NormalizedInput | SolverTranscript | PdrInvariantModel | ReplayLog | CounterexampleTrace
  | DiagnosticTrace.
Definition artifact_kind_debug (k : FullVerificationArtifactKind) : string :=
  match k with
  | NormalizedInput => "NormalizedInput"
  | SolverTranscript => "SolverTranscript"
  | PdrInvariantModel => "PdrInvariantModel"
  | ReplayLog => "ReplayLog"
  | CounterexampleTrace => "CounterexampleTrace"
  | DiagnosticTrace => "DiagnosticTrace"
  end.

#[export] Instance FullVerificationArtifactKind_eq_dec : EqDecision FullVerificationArtifactKind.
Proof. solve_decision. Defined.

(** [struct FullVerificationArtifact] and its constructors *)
Record FullVerificationArtifact := {
  kind : FullVerificationArtifactKind;
  label : string;
  digest : option EvidenceHash }.

Definition artifact_new (kind : FullVerificationArtifactKind) (label : string)
    : FullVerificationArtifact := {| kind := kind; label := label; digest := None |}.
Definition solver_transcript (label : string) (digest : EvidenceHash) : FullVerificationArtifact :=
  {| kind := SolverTranscript; label := label; digest := Some digest |}.
Definition replay_log (label : string) (digest : EvidenceHash) : FullVerificationArtifact :=
  {| kind := ReplayLog; label := label; digest := Some digest |}.
Definition with_digest (digest : EvidenceHash) (a : FullVerificationArtifact)
    : FullVerificationArtifact := {| kind := kind a; label := label a; digest := Some digest |}.

(** ** Reports of engines *)

(** [struct ChcPdrStats] and its [Debug] *)
Record ChcPdrStats := { relation_count : N; clause_count : N }.
#[export] Instance ChcPdrStats_eq_dec : EqDecision ChcPdrStats.
Proof. solve_decision. Defined.
Definition stats_debug (s : ChcPdrStats) : string :=
  "ChcPdrStats { relation_count: " +:+ pretty (relation_count s) +:+ ", clause_count: " +:+
  pretty (clause_count s) +:+ " }".

(** [ChcPdrStats::from_vc] *)
Definition from_vc `{AyExpr} (vc : Chc.ChcVc) : ChcPdrStats :=
  {| relation_count := N.of_nat (length (Chc.relations vc));
     clause_count := N.of_nat (length (Chc.rules vc)) |}.

(** [enum ChcPdrProofKind] *)
Inductive ChcPdrProofKind := ChcValidity | PdrInvariant.

(** [struct FullProofEvidenceMetadata] and its builders *)
Record FullProofEvidenceMetadata := {
  producer : option string;
  normalized_input_hash : option EvidenceHash;
  transcript_hashes : list EvidenceHash;
  replay_hashes : list EvidenceHash }.
Definition default_metadata : FullProofEvidenceMetadata :=
  {| producer := None; normalized_input_hash := None; transcript_hashes := []; replay_hashes := [] |}.
Definition with_producer (p : string) (m : FullProofEvidenceMetadata) : FullProofEvidenceMetadata :=
  {| producer := Some p; normalized_input_hash := normalized_input_hash m;
     transcript_hashes := transcript_hashes m; replay_hashes := replay_hashes m |}.
Definition with_normalized_input_hash (h : EvidenceHash) (m : FullProofEvidenceMetadata)
    : FullProofEvidenceMetadata :=
  {| producer := producer m; normalized_input_hash := Some h;
     transcript_hashes := transcript_hashes m; replay_hashes := replay_hashes m |}.
Definition md_with_transcript_hash (h : EvidenceHash) (m : FullProofEvidenceMetadata)
    : FullProofEvidenceMetadata :=
  {| producer := producer m; normalized_input_hash := normalized_input_hash m;
     transcript_hashes := transcript_hashes m ++ [h]; replay_hashes := replay_hashes m |}.
Definition md_with_replay_hash (h : EvidenceHash) (m : FullProofEvidenceMetadata)
    : FullProofEvidenceMetadata :=
  {| producer := producer m; normalized_input_hash := normalized_input_hash m;
     transcript_hashes := transcript_hashes m; replay_hashes := replay_hashes m ++ [h] |}.

(** [struct ChcPdrProofEvidence] and its constructors *)
Record ChcPdrProofEvidence := {
  ev_kind : ChcPdrProofKind;
  ev_stats : ChcPdrStats;
  metadata : FullProofEvidenceMetadata;
  invariant_count : N;
  artifacts : list FullVerificationArtifact }.
Definition chc_validity (stats : ChcPdrStats) : ChcPdrProofEvidence :=
  {| ev_kind := ChcValidity; ev_stats := stats; metadata := default_metadata; invariant_count := 0;
     artifacts := [] |}.
Definition pdr_invariant (stats : ChcPdrStats) (invariant_count : N) : ChcPdrProofEvidence :=
  {| ev_kind := PdrInvariant; ev_stats := stats; metadata := default_metadata;
     invariant_count := invariant_count; artifacts := [] |}.
Definition with_metadata (m : FullProofEvidenceMetadata) (e : ChcPdrProofEvidence)
    : ChcPdrProofEvidence :=
  {| ev_kind := ev_kind e; ev_stats := ev_stats e; metadata := m;
     invariant_count := invariant_count e; artifacts := artifacts e |}.
Definition with_transcript_hash (h : EvidenceHash) (e : ChcPdrProofEvidence) : ChcPdrProofEvidence :=
  with_metadata (md_with_transcript_hash h (metadata e)) e.
Definition with_replay_hash (h : EvidenceHash) (e : ChcPdrProofEvidence) : ChcPdrProofEvidence :=
  with_metadata (md_with_replay_hash h (metadata e)) e.
Definition with_artifact (a : FullVerificationArtifact) (e : ChcPdrProofEvidence)
    : ChcPdrProofEvidence :=
  {| ev_kind := ev_kind e; ev_stats := ev_stats e; metadata := metadata e;
     invariant_count := invariant_count e; artifacts := artifacts e ++ [a] |}.

(** [struct ChcPdrCounterexampleEvidence] and its constructors *)
Record ChcPdrCounterexampleEvidence := {
  step_count : N;
  cex_summary : option string;
  cex_artifacts : list FullVerificationArtifact }.
Definition cex_new (step_count : N) : ChcPdrCounterexampleEvidence :=
  {| step_count := step_count; cex_summary := None; cex_artifacts := [] |}.
Definition with_summary (s : string) (e : ChcPdrCounterexampleEvidence)
    : ChcPdrCounterexampleEvidence :=
  {| step_count := step_count e; cex_summary := Some s; cex_artifacts := cex_artifacts e |}.
Definition cex_with_artifact (a : FullVerificationArtifact) (e : ChcPdrCounterexampleEvidence)
    : ChcPdrCounterexampleEvidence :=
  {| step_count := step_count e; cex_summary := cex_summary e;
     cex_artifacts := cex_artifacts e ++ [a] |}.

(** [enum UnknownReason] *)
Inductive UnknownReason := SolverReturnedUnknown | Timeout | Demoted (reason : string).

(** [enum ChcPdrVerdict], [struct ChcPdrReport] and its constructors *)
Inductive ChcPdrVerdict :=
  | EngineProved (evidence : ChcPdrProofEvidence)
  | EngineCounterexample (evidence : ChcPdrCounterexampleEvidence)
  | EngineUnknown (reason : UnknownReason).
Record ChcPdrReport := { verdict : ChcPdrVerdict; stats : ChcPdrStats }.
Definition proved (evidence : ChcPdrProofEvidence) : ChcPdrReport :=
  {| verdict := EngineProved evidence; stats := ev_stats evidence |}.
Definition counterexample (stats : ChcPdrStats) (evidence : ChcPdrCounterexampleEvidence)
    : ChcPdrReport := {| verdict := EngineCounterexample evidence; stats := stats |}.
Definition unknown (stats : ChcPdrStats) (reason : UnknownReason) : ChcPdrReport :=
  {| verdict := EngineUnknown reason; stats := stats |}.

(** ** Errors *)

(** [enum FullVerificationProblemKind] and its [Display] *)
Inductive FullVerificationProblemKind := KChc | KBmc.
Definition problem_kind_fmt (k : FullVerificationProblemKind) : string :=
  match k with KChc => "CHC" | KBmc => "BMC" end.

(** [enum ChcPdrAdapterGap] and its [Display] *)
Inductive ChcPdrAdapterGap := CoreVisibleChcEmitter | SessionFreeNativeSolver | CoreAYChcFacade.
Definition gap_fmt (g : ChcPdrAdapterGap) : string :=
  match g with
  | CoreVisibleChcEmitter => "trust_mc_core-visible ChcVc -> HORN SMT/native lowering"
  | SessionFreeNativeSolver => "session-free ay::chc native solver adapter"
  | CoreAYChcFacade => "trust_mc_core access to the ay::chc facade or injected solver"
  end.

(** [enum FullVerificationError] and its [Display] *)
Inductive FullVerificationError :=
  | UnsupportedProblem (problem : FullVerificationProblemKind) (reason : string)
  | NotYetWired (component reason : string) (gaps : list ChcPdrAdapterGap)
  | InvalidProofEvidence (reason : string).
Definition FullVerificationError_fmt (e : FullVerificationError) : string :=
  match e with
  | UnsupportedProblem problem reason =>
      "unsupported full-verification problem " +:+ problem_kind_fmt problem +:+ ": " +:+ reason
  | NotYetWired component reason gaps =>
      component +:+ " is not yet wired: " +:+ reason +:+
      match gaps with
      | [] => ""
      | _ => " (missing: " +:+ Str.join "; " (map gap_fmt gaps) +:+ ")"
      end
  | InvalidProofEvidence reason => "invalid CHC/PDR proof evidence: " +:+ reason
  end.

(** ** The consistency check *)

(** [artifact_digests] *)
Definition artifact_digests (artifacts : list FullVerificationArtifact)
    (k : FullVerificationArtifactKind) : list EvidenceHash :=
  omap digest (filter (fun a => kind a = k) artifacts).

Definition contains (h : EvidenceHash) (l : list EvidenceHash) : bool := bool_decide (h ∈ l).

(** [check_transcript_digest_consistency] *)
Definition check_transcript_digest_consistency (metadata : FullProofEvidenceMetadata)
    (artifacts : list FullVerificationArtifact) : result FullVerificationError unit :=
  let transcript_artifact_digests := artifact_digests artifacts SolverTranscript in
  _ ← try_for_each (fun hash => refuse (negb (contains hash transcript_artifact_digests))
        (InvalidProofEvidence ("metadata transcript hash " +:+ hash_fmt hash +:+
           " has no matching solver transcript artifact"))) (transcript_hashes metadata);
  try_for_each (fun digest => refuse (negb (contains digest (transcript_hashes metadata)))
    (InvalidProofEvidence ("solver transcript artifact digest " +:+ hash_fmt digest +:+
       " is absent from proof metadata"))) transcript_artifact_digests.

(** [check_replay_log_digest_consistency] *)
Definition check_replay_log_digest_consistency (metadata : FullProofEvidenceMetadata)
    (artifacts : list FullVerificationArtifact) : result FullVerificationError unit :=
  let replay_artifact_digests := artifact_digests artifacts ReplayLog in
  _ ← try_for_each (fun hash => refuse (negb (contains hash replay_artifact_digests))
        (InvalidProofEvidence ("metadata replay hash " +:+ hash_fmt hash +:+
           " has no matching replay log artifact"))) (replay_hashes metadata);
  try_for_each (fun digest => refuse (negb (contains digest (replay_hashes metadata)))
    (InvalidProofEvidence ("replay log artifact digest " +:+ hash_fmt digest +:+
       " is absent from proof metadata"))) replay_artifact_digests.

(** [check_normalized_input_digest_consistency] *)
Definition check_normalized_input_digest_consistency (metadata : FullProofEvidenceMetadata)
    (artifacts : list FullVerificationArtifact) : result FullVerificationError unit :=
  let normalized_input_digests := artifact_digests artifacts NormalizedInput in
  match normalized_input_hash metadata with
  | Some hash =>
      refuse (negb (match normalized_input_digests with [] => true | _ => false end) &&
              negb (contains hash normalized_input_digests))
        (InvalidProofEvidence ("metadata normalized input hash " +:+ hash_fmt hash +:+
           " does not match a normalized input artifact"))
  | None =>
      match normalized_input_digests with
      | digest :: _ =>
          Err (InvalidProofEvidence ("normalized input artifact digest " +:+ hash_fmt digest +:+
                 " is absent from proof metadata"))
      | [] => Ok tt
      end
  end.

(** [ChcPdrProofEvidence::check_consistency] *)
Definition evidence_check_consistency (self : ChcPdrProofEvidence) (report_stats : ChcPdrStats)
    : result FullVerificationError unit :=
  _ ← refuse (negb (bool_decide (ev_stats self = report_stats)))
        (InvalidProofEvidence ("proof evidence stats " +:+ stats_debug (ev_stats self) +:+
           " do not match CHC/PDR report stats " +:+ stats_debug report_stats));
  _ ← match ev_kind self with
      | ChcValidity =>
          refuse (negb (N.eqb (invariant_count self) 0))
            (InvalidProofEvidence ("CHC validity proof reported " +:+ pretty (invariant_count self) +:+
               " invariant formula(s)"))
      | PdrInvariant =>
          refuse (N.eqb (invariant_count self) 0)
            (InvalidProofEvidence "PDR invariant proof reported zero invariant formulas")
      end;
  _ ← try_for_each (fun artifact => refuse (is_blank (label artifact))
        (InvalidProofEvidence (artifact_kind_debug (kind artifact) +:+ " artifact has an empty label")))
        (artifacts self);
  _ ← check_transcript_digest_consistency (metadata self) (artifacts self);
  _ ← check_replay_log_digest_consistency (metadata self) (artifacts self);
  check_normalized_input_digest_consistency (metadata self) (artifacts self).

(** [ChcPdrReport::check_consistency] *)
Definition check_consistency (self : ChcPdrReport) : result FullVerificationError unit :=
  match verdict self with
  | EngineProved evidence => evidence_check_consistency evidence (stats self)
  | _ => Ok tt
  end.

(** ** Reports of the verifier *)

(** [enum FullVerificationEngine], [struct FullVerificationOptions] *)
Inductive FullVerificationEngine := ChcPdr | EngineDiagnosticOnly.
Record FullVerificationOptions := { opt_engine : FullVerificationEngine; timeout_ms : option N }.
Definition options_new : FullVerificationOptions := {| opt_engine := ChcPdr; timeout_ms := None |}.
Definition with_timeout (ms : N) (o : FullVerificationOptions) : FullVerificationOptions :=
  {| opt_engine := opt_engine o; timeout_ms := Some ms |}.

(** [enum FullVerificationDiagnosticKind], [struct FullVerificationDiagnostic] *)
Inductive FullVerificationDiagnosticKind := BmcSuccessDemoted.
Record FullVerificationDiagnostic := {
  diag_kind : FullVerificationDiagnosticKind;
  diag_problem : FullVerificationProblemKind;
  diag_summary : string;
  diag_artifacts : list FullVerificationArtifact }.
Definition diagnostic_new (kind : FullVerificationDiagnosticKind)
    (problem : FullVerificationProblemKind) (summary : string) : FullVerificationDiagnostic :=
  {| diag_kind := kind; diag_problem := problem; diag_summary := summary; diag_artifacts := [] |}.
Definition diag_with_artifact (a : FullVerificationArtifact) (d : FullVerificationDiagnostic)
    : FullVerificationDiagnostic :=
  {| diag_kind := diag_kind d; diag_problem := diag_problem d; diag_summary := diag_summary d;
     diag_artifacts := diag_artifacts d ++ [a] |}.

(** [enum FullProofEvidence], [enum FullVerificationVerdict] *)
Inductive FullProofEvidence := EvChcPdr (evidence : ChcPdrProofEvidence).
Inductive FullVerificationVerdict :=
  | Proved (evidence : FullProofEvidence)
  | Counterexample (summary : option string)
  | Unknown (reason : UnknownReason)
  | DiagnosticOnly (diagnostic : FullVerificationDiagnostic).

(** [struct FullVerificationReport] *)
Record FullVerificationReport := {
  r_engine : FullVerificationEngine;
  r_verdict : FullVerificationVerdict }.
Definition diagnostic_only (d : FullVerificationDiagnostic) : FullVerificationReport :=
  {| r_engine := EngineDiagnosticOnly; r_verdict := DiagnosticOnly d |}.

(** [impl From<ChcPdrReport> for FullVerificationReport] *)
Definition report_from (report : ChcPdrReport) : FullVerificationReport :=
  {| r_engine := ChcPdr;
     r_verdict :=
       match verdict report with
       | EngineProved evidence => Proved (EvChcPdr evidence)
       | EngineCounterexample evidence =>
           Counterexample
             (match cex_summary evidence with
              | Some s => Some s
              | None => Some ("CHC/PDR counterexample with " +:+ pretty (step_count evidence) +:+
                              " step(s)")
              end)
       | EngineUnknown reason => Unknown reason
       end |}.

(** ** The verifier *)

Section Verifier.
Context `{AyExpr}.

(** [enum FullVerificationProblem], [struct FullVerificationRequest] *)
Inductive FullVerificationProblem := PChc (vc : Chc.ChcVc) | PBmc (vc : Bmc.BmcVc).
Record FullVerificationRequest := {
  problem : FullVerificationProblem;
  options : FullVerificationOptions }.
Definition problem_kind (p : FullVerificationProblem) : FullVerificationProblemKind :=
  match p with PChc _ => KChc | PBmc _ => KBmc end.
Definition request_chc (vc : Chc.ChcVc) : FullVerificationRequest :=
  {| problem := PChc vc; options := options_new |}.
Definition request_bmc (vc : Bmc.BmcVc) : FullVerificationRequest :=
  {| problem := PBmc vc; options := options_new |}.
Definition with_options (o : FullVerificationOptions) (r : FullVerificationRequest)
    : FullVerificationRequest := {| problem := problem r; options := o |}.

(** [trait ChcPdrEngine], with what a call does to the state [S] of the world *)
Class ChcPdrEngine (E S : Type) :=
  solve_chc_pdr : E -> Chc.ChcVc -> FullVerificationOptions -> S ->
    result FullVerificationError ChcPdrReport * S.

(** The engines behind a reference, a box and an [Arc] *)
Inductive Pointer (E : Type) := Ref (e : E) | Boxed (e : E) | Arc (e : E).
Definition deref {E} (p : Pointer E) : E :=
  match p with Ref _ e => e | Boxed _ e => e | Arc _ e => e end.
#[export] Instance pointer_engine {E S} `{ChcPdrEngine E S} : ChcPdrEngine (Pointer E) S :=
  fun p => solve_chc_pdr (deref p).

(** [NativeFullVerifier::verify] *)
Definition verify {E S} `{ChcPdrEngine E S} (engine : E) (request : FullVerificationRequest) (s : S)
    : result FullVerificationError FullVerificationReport * S :=
  match problem request with
  | PChc vc =>
      let '(solved, s') := solve_chc_pdr engine vc (options request) s in
      (report ← solved; _ ← check_consistency report; Ok (report_from report), s')
  | PBmc _ =>
      (Ok (diagnostic_only (diagnostic_new BmcSuccessDemoted KBmc
         ("bounded model-checking success is diagnostic-only and cannot establish an " +:+
          "unbounded full proof"))), s)
  end.

(** [MissingChcPdrEngine] *)
Inductive MissingChcPdrEngine := Missing.
Definition ADAPTER_GAPS : list ChcPdrAdapterGap :=
  [CoreVisibleChcEmitter; SessionFreeNativeSolver; CoreAYChcFacade].
#[export] Instance missing_engine {S} : ChcPdrEngine MissingChcPdrEngine S :=
  fun _ _ _ s =>
    (Err (NotYetWired "native CHC/PDR engine"
       ("native ay::chc solving exists in trust_mc-driver behind KaniSession/SMT-file " +:+
        "plumbing, while trust_mc_core only owns ChcVc and ay_bindings; TODO wire a " +:+
        "ChcVc lowering layer and a session-free ay::chc adapter before reporting " +:+
        "proof-producing full verification") ADAPTER_GAPS), s).

End Verifier.

(** ** What the check accepts *)

(** An artifact of kind [k] carries the digest [h]. *)
Definition carried (e : ChcPdrProofEvidence) (k : FullVerificationArtifactKind) (h : EvidenceHash)
    : Prop := exists a, a ∈ artifacts e /\ kind a = k /\ digest a = Some h.

Definition consistent (e : ChcPdrProofEvidence) : Prop :=
  (invariant_count e = 0%N <-> ev_kind e = ChcValidity) /\
  (forall a, a ∈ artifacts e -> is_blank (label a) = false) /\
  (forall h, h ∈ transcript_hashes (metadata e) <-> carried e SolverTranscript h) /\
  (forall h, h ∈ replay_hashes (metadata e) <-> carried e ReplayLog h) /\
  (forall h, carried e NormalizedInput h ->
     exists h', normalized_input_hash (metadata e) = Some h' /\ carried e NormalizedInput h').

Lemma elem_of_artifact_digests e k h : h ∈ artifact_digests (artifacts e) k <-> carried e k h.
Proof.
  unfold artifact_digests, carried. rewrite list_elem_of_omap.
  setoid_rewrite list_elem_of_filter. naive_solver.
Qed.

Lemma both_ways (l l' : list EvidenceHash) (e e' : EvidenceHash -> FullVerificationError) :
  (_ ← try_for_each (fun h => refuse (negb (contains h l')) (e h)) l;
   try_for_each (fun h => refuse (negb (contains h l)) (e' h)) l') = Ok tt <->
  (forall h, h ∈ l <-> h ∈ l').
Proof.
  rewrite bind_Ok. unfold contains. split.
  - intros ([] & A & B) h. rewrite try_for_each_Ok in A. rewrite try_for_each_Ok in B.
    split; intros Hh; [apply A in Hh|apply B in Hh];
      by rewrite refuse_Ok, negb_false_iff, bool_decide_eq_true in Hh.
  - intros F. exists tt. rewrite !try_for_each_Ok.
    split; intros h Hh; by rewrite refuse_Ok, negb_false_iff, bool_decide_eq_true; apply F.
Qed.

Lemma normalized_Ok e :
  check_normalized_input_digest_consistency (metadata e) (artifacts e) = Ok tt <->
  (forall h, carried e NormalizedInput h ->
     exists h', normalized_input_hash (metadata e) = Some h' /\ carried e NormalizedInput h').
Proof.
  setoid_rewrite <- elem_of_artifact_digests. unfold check_normalized_input_digest_consistency.
  destruct (normalized_input_hash (metadata e)) as [h|],
    (artifact_digests (artifacts e) NormalizedInput) as [|d ds]; cbn [negb andb refuse].
  - split; [|done]. intros _ h' Hh'. by apply elem_of_nil in Hh'.
  - rewrite refuse_Ok, negb_false_iff. unfold contains. rewrite bool_decide_eq_true. split.
    + intros Hh h' _. by exists h.
    + intros F. destruct (F d) as (h' & [= <-] & Hh); [left|done].
  - split; [|done]. intros _ h' Hh'. by apply elem_of_nil in Hh'.
  - split; [done|]. intros F. destruct (F d) as (h' & E & _); [left|done].
Qed.

Lemma evidence_check_Ok e s : evidence_check_consistency e s = Ok tt <-> ev_stats e = s /\ consistent e.
Proof.
  unfold evidence_check_consistency, consistent, check_transcript_digest_consistency,
    check_replay_log_digest_consistency.
  rewrite <- normalized_Ok. setoid_rewrite <- elem_of_artifact_digests.
  split.
  - intros ([] & S & ([] & K & ([] & L & ([] & T & ([] & R & N)%bind_Ok)%bind_Ok)%bind_Ok)%bind_Ok)%bind_Ok.
    rewrite refuse_Ok, negb_false_iff, bool_decide_eq_true in S. rewrite try_for_each_Ok in L.
    split; [done|]. split; [|split; [|split; [|split]]].
    + destruct (ev_kind e); rewrite refuse_Ok in K.
      * by rewrite negb_false_iff, N.eqb_eq in K.
      * rewrite N.eqb_neq in K. by split.
    + intros a Ha. by apply L, refuse_Ok in Ha.
    + exact (proj1 (both_ways _ _ _ _) T).
    + exact (proj1 (both_ways _ _ _ _) R).
    + exact N.
  - intros (S & K & L & T & R & N). apply bind_Ok. exists tt. split.
    { by rewrite refuse_Ok, negb_false_iff, bool_decide_eq_true. }
    apply bind_Ok. exists tt. split.
    { destruct (ev_kind e); apply refuse_Ok.
      - rewrite negb_false_iff, N.eqb_eq. by apply K.
      - apply N.eqb_neq. intros Z. by apply K in Z. }
    apply bind_Ok. exists tt. split.
    { apply try_for_each_Ok. intros a Ha. by apply refuse_Ok, L. }
    apply bind_Ok. exists tt. split; [exact (proj2 (both_ways _ _ _ _) T)|].
    apply bind_Ok. exists tt. split; [exact (proj2 (both_ways _ _ _ _) R)|exact N].
Qed.

(** The check only fails with [InvalidProofEvidence]. *)
Definition invalid_only {A} (r : result FullVerificationError A) : Prop :=
  forall err, r = Err err -> exists reason, err = InvalidProofEvidence reason.

Lemma invalid_bind {A B} (r : result FullVerificationError A) (k : A -> result FullVerificationError B) :
  invalid_only r -> (forall a, invalid_only (k a)) -> invalid_only (r ≫= k).
Proof. intros R K err. destruct r as [a|e]; cbn; [apply K|]. intros [= <-]. by apply R. Qed.

Lemma invalid_refuse b reason : invalid_only (refuse b (InvalidProofEvidence reason)).
Proof. intros err. destruct b; cbn; [|done]. intros [= <-]. by exists reason. Qed.

Lemma invalid_for_each {A} (b : A -> bool) (reason : A -> string) l :
  invalid_only (try_for_each (fun a => refuse (b a) (InvalidProofEvidence (reason a))) l).
Proof.
  induction l as [|a l IH]; cbn; [by intros err|].
  apply invalid_bind; [apply invalid_refuse|done].
Qed.

Lemma evidence_check_errors e st : invalid_only (evidence_check_consistency e st).
Proof.
  unfold evidence_check_consistency, check_transcript_digest_consistency,
    check_replay_log_digest_consistency, check_normalized_input_digest_consistency.
  repeat (apply invalid_bind; [|intros _]);
    try apply invalid_refuse; try apply invalid_for_each.
  - destruct (ev_kind e); apply invalid_refuse.
  - destruct (normalized_input_hash (metadata e)); [apply invalid_refuse|].
    destruct (artifact_digests _ _); [by intros err|]. intros err [= <-]. by eexists.
Qed.

(** The digests of this boundary are the canonical digests of the evidence
    library. *)
Lemma sha256_canonical h x :
  sha256 h = Ok x <->
  hex x = Digest.to_ascii_lowercase h /\ Digest.is_canonical_sha256_hex (hex x) = true.
Proof.
  unfold sha256, Digest.is_canonical_sha256_hex, Digest.SHA256_HEX_LEN.
  destruct (Digest.lowercase_hex h) as [A B]. destruct x as [[] v]. cbn [hex]. rewrite A.
  destruct (N.eqb_spec (Digest.len (Digest.to_ascii_lowercase h)) 64) as [L|L]; cbn [negb].
  - destruct (Str.chars_all Digest.is_ascii_hexdigit h) eqn:C; cbn [negb].
    + split; [intros [= <-]|intros [-> _]; done]. split; [done|].
      apply andb_true_iff. split; [by apply N.eqb_eq|]. by rewrite B.
    + split; [done|]. intros [-> X]. rewrite B, andb_false_r in X. done.
  - split; [done|]. intros [-> X]. apply andb_true_iff in X as [X _]. by apply N.eqb_eq in X.
Qed.

(** ** Property *)

(** C7: the boundary proves what an unbounded engine proves, and nothing else.  A
    report says proved exactly when the request is a CHC problem and the engine
    returned a proof that passes the consistency check: statistics as reported,
    invariants counted when and only when the proof is by invariants, no blank
    label, and the transcript and replay digests of the metadata exactly those the
    artifacts carry (a normalized input only has to have its digest among them).
    An inconsistent proof and an engine error are errors.  A bounded problem is
    answered with a diagnostic, without calling the engine.  With no engine wired
    a CHC problem is an error, and a bounded problem gets the same diagnostic. *)
Theorem verify_proves `{AyExpr} {E S} `{ChcPdrEngine E S} (engine : E)
    (request : FullVerificationRequest) (s : S) :
  (forall e, (exists rep, (verify engine request s).1 = Ok rep /\ r_verdict rep = Proved (EvChcPdr e)) <->
     exists vc, problem request = PChc vc /\
       (solve_chc_pdr engine vc (options request) s).1 = Ok (proved e) /\ consistent e) /\
  (forall vc, problem request = PChc vc ->
     (verify engine request s).2 = (solve_chc_pdr engine vc (options request) s).2 /\
     (forall err, (solve_chc_pdr engine vc (options request) s).1 = Err err ->
        (verify engine request s).1 = Err err) /\
     (forall e st, (solve_chc_pdr engine vc (options request) s).1 =
                     Ok {| verdict := EngineProved e; stats := st |} ->
        ~ (ev_stats e = st /\ consistent e) ->
        exists reason, (verify engine request s).1 = Err (InvalidProofEvidence reason)) /\
     is_ok (verify Missing request s).1 = false) /\
  (forall vc, problem request = PBmc vc ->
     (verify engine request s).2 = s /\
     exists d, diag_problem d = KBmc /\ (verify engine request s).1 = Ok (diagnostic_only d) /\
       (verify Missing request s).1 = Ok (diagnostic_only d)).
Proof.
  unfold verify. destruct (problem request) as [vc|vc]; cbn [fst snd].
  - destruct (solve_chc_pdr engine vc (options request) s) as [r s'] eqn:R. split; [|split].
    + intros e. split.
      * intros (rep & V & P). cbn [fst] in V. invert_ok. destruct x0 as [].
        destruct x as [[p|c|u] st]; cbn in P; try discriminate. injection P as ->.
        exists vc. rewrite R. cbn. unfold check_consistency in *. cbn in *.
        match goal with X : evidence_check_consistency _ _ = _ |- _ => apply evidence_check_Ok in X as [<- C] end.
        by split.
      * intros (vc' & [= <-] & V & C). rewrite R in V. cbn in V. subst r. cbn.
        exists (report_from (proved e)). split; [|done].
        unfold check_consistency. cbn. by rewrite (proj2 (evidence_check_Ok e (ev_stats e))).
    + intros vc' [= <-]. rewrite R. cbn. split; [done|]. split; [by intros err ->|].
      split; [|done]. intros e st -> N. cbn. unfold check_consistency. cbn.
      destruct (evidence_check_consistency e st) as [[]|err] eqn:K; [by apply evidence_check_Ok in K|].
      destruct (evidence_check_errors e st err K) as [reason ->]. by exists reason.
    + done.
  - split; [|split]; [|done|].
    + intros e. split; [intros (rep & [= <-] & P); discriminate|by intros (? & ? & _)].
    + intros vc' _. split; [done|]. eexists. split; cycle 1; [by split|done].
Qed.

End FullVerifier.
