(* ===== verification/ChcApi.v ===== *)
(** * The typed interface for obligations

    trust-mc-core/src/chc_api.rs: obligations with a native system of clauses, their
    validation, solve requests and outcomes, and the witnesses of refutations. *)

From S2P Require Import Prelude Text Wire Digest NativeMetadata Obligation AyExpr Chc.

Module ChcApi.

(** ** Requests *)

(** [enum MirChcPdrObligationError] and its [Display] *)
Inductive MirChcPdrObligationError :=
  | EmptyObligationId | EmptyFunctionName | NotMirDerived | NoRelations | NoRules
  | MissingQueryTarget | UndeclaredQueryTarget (target : string).
Definition error_fmt (e : MirChcPdrObligationError) : string :=
  match e with
  | EmptyObligationId => "obligation id must not be empty"
  | EmptyFunctionName => "function name must not be empty"
  | NotMirDerived => "obligation is not MIR-derived"
  | NoRelations => "CHC obligation has no relation declarations"
  | NoRules => "CHC obligation has no Horn rules"
  | MissingQueryTarget => "CHC obligation has no query target"
  | UndeclaredQueryTarget target => "query target `" +:+ target +:+ "` has no relation declaration"
  end.

(** [enum ChcPdrEngine], [struct ChcPdrSolveOptions] and its builders; a timeout is
    a [Duration] in nanoseconds. *)
Inductive ChcPdrEngine := Auto | Pdr | AdaptivePortfolio.
Record ChcPdrSolveOptions := {
  engine : ChcPdrEngine;
  timeout : option N;
  produce_proof_certificate : bool }.
Definition default_options : ChcPdrSolveOptions :=
  {| engine := Auto; timeout := None; produce_proof_certificate := false |}.
Definition with_engine (e : ChcPdrEngine) (o : ChcPdrSolveOptions) : ChcPdrSolveOptions :=
  {| engine := e; timeout := timeout o; produce_proof_certificate := produce_proof_certificate o |}.
Definition with_timeout (t : N) (o : ChcPdrSolveOptions) : ChcPdrSolveOptions :=
  {| engine := engine o; timeout := Some t;
     produce_proof_certificate := produce_proof_certificate o |}.
Definition with_proof_certificate (produce : bool) (o : ChcPdrSolveOptions) : ChcPdrSolveOptions :=
  {| engine := engine o; timeout := timeout o; produce_proof_certificate := produce |}.

(** ** Outcomes *)

(** [enum ChcPdrCexVerification] *)
Inductive ChcPdrCexVerification :=
  | AyChcReplayVerified (step_count : N)
  | DirectSmtModel
  | BoundedUnrollDirectSmtModel (k : N).

(** [enum ChcPdrEncodingConcreteness] *)
Inductive ChcPdrEncodingConcreteness :=
  ExactEncoding (translation_drops havocs undef_diagnostic_havocs : N).

(** [is_exact_with_zero_counts] *)
Definition is_exact_with_zero_counts (c : ChcPdrEncodingConcreteness) : bool :=
  match c with ExactEncoding 0 0 0 => true | _ => false end.

(** [struct ChcPdrRefutationWitness] *)
Record ChcPdrRefutationWitness := {
  w_obligation_id : string;
  encoded_formula_sha256 : string;
  semantic_config_sha256 : string;
  counterexample_json : string;
  verification : ChcPdrCexVerification;
  concreteness : ChcPdrEncodingConcreteness }.

(** [enum ChcPdrSolveStatus], [struct ChcPdrSolveOutcome] *)
Inductive ChcPdrSolveStatus :=
  | Proved (proof_kind : ChcPdrProofKind)
  | Refuted (witness : option ChcPdrRefutationWitness)
  | Unknown (reason : string).
Record ChcPdrSolveOutcome := {
  o_obligation_id : string;
  status : ChcPdrSolveStatus;
  o_stats : ChcPdrStats;
  diagnostics : list string }.

(** [proved], [refuted], [refuted_with_witness], [unknown], [with_diagnostic] *)
Definition proved (id : string) (k : ChcPdrProofKind) (s : ChcPdrStats) : ChcPdrSolveOutcome :=
  {| o_obligation_id := id; status := Proved k; o_stats := s; diagnostics := [] |}.
Definition refuted (id : string) (s : ChcPdrStats) : ChcPdrSolveOutcome :=
  {| o_obligation_id := id; status := Refuted None; o_stats := s; diagnostics := [] |}.
Definition refuted_with_witness (id : string) (w : ChcPdrRefutationWitness) (s : ChcPdrStats)
    : ChcPdrSolveOutcome :=
  {| o_obligation_id := id; status := Refuted (Some w); o_stats := s; diagnostics := [] |}.
Definition unknown (id reason : string) (s : ChcPdrStats) : ChcPdrSolveOutcome :=
  {| o_obligation_id := id; status := Unknown reason; o_stats := s; diagnostics := [] |}.
Definition with_diagnostic (d : string) (o : ChcPdrSolveOutcome) : ChcPdrSolveOutcome :=
  {| o_obligation_id := o_obligation_id o; status := status o; o_stats := o_stats o;
     diagnostics := diagnostics o ++ [d] |}.

(** ** Obligations *)

Section Obligations.
Context `{AyExpr}.

(** [struct MirChcPdrObligation] *)
Record MirChcPdrObligation := {
  obligation_id : string;
  function_name : string;
  kind : MirObligationKind;
  origin : ObligationOrigin;
  native_metadata : option NativeTypedChcObligationMetadata;
  vc : Chc.ChcVc }.

(** [new], [router_placeholder], [with_native_metadata] *)
Definition new (id name : string) (k : MirObligationKind) (v : Chc.ChcVc) : MirChcPdrObligation :=
  {| obligation_id := id; function_name := name; kind := k; origin := MirDerived;
     native_metadata := None; vc := v |}.
Definition router_placeholder (id name : string) (k : MirObligationKind) (v : Chc.ChcVc)
    : MirChcPdrObligation :=
  {| obligation_id := id; function_name := name; kind := k; origin := RouterPlaceholder;
     native_metadata := None; vc := v |}.
Definition with_native_metadata (m : NativeTypedChcObligationMetadata) (o : MirChcPdrObligation)
    : MirChcPdrObligation :=
  {| obligation_id := obligation_id o; function_name := function_name o; kind := kind o;
     origin := origin o; native_metadata := Some m; vc := vc o |}.

(** [validate] *)
Definition validate (self : MirChcPdrObligation) : result MirChcPdrObligationError unit :=
  _ ← refuse (is_blank (obligation_id self)) EmptyObligationId;
  _ ← refuse (is_blank (function_name self)) EmptyFunctionName;
  _ ← refuse (negb (bool_decide (origin self = MirDerived))) NotMirDerived;
  _ ← refuse (match Chc.relations (vc self) with [] => true | _ => false end) NoRelations;
  _ ← refuse (match Chc.rules (vc self) with [] => true | _ => false end) NoRules;
  target ← ok_or (Chc.target (Chc.query (vc self))) MissingQueryTarget;
  refuse (negb (existsb (fun rel => String.eqb (Chc.rel_name rel) target) (Chc.relations (vc self))))
    (UndeclaredQueryTarget target).

(** [query_target] *)
Definition query_target (self : MirChcPdrObligation) : string :=
  default "error" (Chc.target (Chc.query (vc self))).

(** [stats] *)
Definition stats (self : MirChcPdrObligation) : ChcPdrStats :=
  {| relation_count := N.of_nat (length (Chc.relations (vc self)));
     clause_count := N.of_nat (length (Chc.rules (vc self))) |}.

(** [is_trivially_safe] *)
Definition is_trivially_safe (self : MirChcPdrObligation) : bool :=
  negb (existsb (fun rule => String.eqb (Chc.head_name rule) (query_target self))
          (Chc.rules (vc self))).

(** [struct ChcPdrSolveRequest] *)
Record ChcPdrSolveRequest := { obligation : MirChcPdrObligation; options : ChcPdrSolveOptions }.
Definition request_new (o : MirChcPdrObligation) : ChcPdrSolveRequest :=
  {| obligation := o; options := default_options |}.
Definition with_options (opts : ChcPdrSolveOptions) (r : ChcPdrSolveRequest) : ChcPdrSolveRequest :=
  {| obligation := obligation r; options := opts |}.

(** What a valid obligation is. *)
Definition well_formed (o : MirChcPdrObligation) : Prop :=
  is_blank (obligation_id o) = false /\ is_blank (function_name o) = false /\
  origin o = MirDerived /\ Chc.rules (vc o) <> [] /\
  exists t rel, Chc.target (Chc.query (vc o)) = Some t /\ rel ∈ Chc.relations (vc o) /\
    Chc.rel_name rel = t.

Lemma is_nil {A} (l : list A) : (match l with [] => true | _ => false end) = false <-> l <> [].
Proof. by destruct l. Qed.

Lemma obligation_validate_Ok o : validate o = Ok tt <-> well_formed o.
Proof.
  unfold validate, well_formed. split.
  - intros ([] & A & ([] & B & ([] & C & ([] & D & ([] & E & (t & F & G)%bind_Ok)%bind_Ok)%bind_Ok)%bind_Ok)
      %bind_Ok)%bind_Ok.
    rewrite refuse_Ok in *. rewrite is_nil in *. rewrite negb_false_iff in *.
    apply bool_decide_eq_true in C. apply existsb_exists in G as (rel & R & T%String.eqb_eq).
    destruct (Chc.target (Chc.query (vc o))) as [t'|]; cbn in F; [|discriminate]. injection F as ->.
    split_and!; try done. exists t, rel. split_and!; [done|by apply list_elem_of_In|done].
  - intros (A & B & C & D & t & rel & T & R & N).
    apply bind_Ok. exists tt. split; [by apply refuse_Ok|].
    apply bind_Ok. exists tt. split; [by apply refuse_Ok|].
    apply bind_Ok. exists tt. split; [by apply refuse_Ok, negb_false_iff, bool_decide_eq_true|].
    apply bind_Ok. exists tt. split.
    { apply refuse_Ok, is_nil. intros E. rewrite E in R. by apply elem_of_nil in R. }
    apply bind_Ok. exists tt. split; [by apply refuse_Ok, is_nil|].
    rewrite T. cbn. apply refuse_Ok, negb_false_iff, existsb_exists. exists rel.
    split; [by apply list_elem_of_In|by apply String.eqb_eq].
Qed.

End Obligations.

(** ** Property *)

(** the shape check and the shortcut for obligations.  [validate] accepts
    exactly the MIR-derived obligations with a name and an id, at least one rule
    and a declared query target, and the placeholders never; when no rule has the
    queried relation as its head the target is unreachable under every
    interpretation, so calling the obligation trivially safe is sound; and an
    obligation whose target some rule derives is not shortcut. *)
Theorem obligation_checks `{AySem} (o : MirChcPdrObligation) :
  (is_ok (validate o) = true <-> well_formed o) /\
  (forall id name k v m,
     is_ok (validate (router_placeholder id name k v)) = false /\
     is_ok (validate (with_native_metadata m (router_placeholder id name k v))) = false) /\
  (is_trivially_safe o = true -> ~ Chc.reachable (vc o)) /\
  (is_trivially_safe o = false <->
     exists r, r ∈ Chc.rules (vc o) /\ Chc.head_name r = query_target o).
Proof.
  assert (V : forall o, is_ok (validate o) = true <-> well_formed o).
  { intros x. rewrite <- obligation_validate_Ok. by destruct (validate x) as [[]|]. }
  assert (P : forall x, origin x = RouterPlaceholder -> is_ok (validate x) = false).
  { intros x E. apply not_true_is_false. rewrite V. intros (_ & _ & C & _). congruence. }
  assert (S : is_trivially_safe o = false <->
     exists r, r ∈ Chc.rules (vc o) /\ Chc.head_name r = query_target o).
  { unfold is_trivially_safe. rewrite negb_false_iff, existsb_exists.
    by setoid_rewrite list_elem_of_In; setoid_rewrite String.eqb_eq. }
  split; [apply V|]. split; [by intros; split; apply P|]. split; [|exact S].
  intros T [vs D]. apply Chc.derivable_head in D. apply list_elem_of_fmap in D as (r & E & R).
  rewrite (proj2 S) in T; [discriminate|]. by exists r.
Qed.

End ChcApi.
