(* ===== verification/BvArith.v ===== *)
(** * Bit-vector arithmetic

    The arithmetic helpers of trust-mc-core/src/chc_const_prop_eval.rs, on the
    unsigned values of bit-vectors as unbounded integers, and the operators of the
    SMT-LIB theory FixedSizeBitVectors they are meant to compute, which define the
    signed operators from the unsigned ones and the sign bit. *)

From S2P Require Import Prelude.

Module BvArith.
Open Scope Z_scope.

(** ** The helpers of the source *)

(** [bitvec_modulus] *)
Definition bitvec_modulus (width : N) : Z := Z.shiftl 1 (Z.of_N width).

(** [bitvec_to_signed]; a bit-vector has at least one bit. *)
Definition bitvec_to_signed (value : Z) (width : N) : Z :=
  let sign_bit := Z.shiftl 1 (Z.of_N width - 1) in
  if sign_bit <=? value then value - bitvec_modulus width else value.

(** [signed_trunc_div] *)
Definition signed_trunc_div (dividend divisor : Z) : Z :=
  let dividend_abs := if dividend <? 0 then - dividend else dividend in
  let divisor_abs := if divisor <? 0 then - divisor else divisor in
  let quotient := Z.quot dividend_abs divisor_abs in
  if xorb (dividend <? 0) (divisor <? 0) then - quotient else quotient.

(** [signed_ashr] *)
Definition signed_ashr (value : Z) (shift width : N) : Z :=
  if (width <=? shift)%N then (if value <? 0 then - 1 else 0)
  else
    let divisor := Z.shiftl 1 (Z.of_N shift) in
    if 0 <=? value then Z.quot value divisor
    else - Z.quot (- value + divisor - 1) divisor.

(** [u64::try_from(vb).unwrap_or(u64::from(wa))], on a non-negative [vb]. *)
Definition shift_amount (vb : Z) (wa : N) : N := if vb <? 2 ^ 64 then Z.to_N vb else wa.

(** ** FixedSizeBitVectors *)

Section Reference.
Context (w : N).

Definition card : Z := 2 ^ Z.of_N w.
Definition in_range (x : Z) : Prop := 0 <= x < card.
Definition msb (x : Z) : bool := Z.testbit x (Z.of_N w - 1).

Definition bvneg (x : Z) : Z := (card - x) mod card.
Definition bvnot (x : Z) : Z := card - 1 - x.
Definition bvadd (x y : Z) : Z := (x + y) mod card.
Definition bvsub (x y : Z) : Z := bvadd x (bvneg y).
Definition bvmul (x y : Z) : Z := (x * y) mod card.
Definition bvudiv (x y : Z) : Z := if y =? 0 then card - 1 else x / y.
Definition bvurem (x y : Z) : Z := if y =? 0 then x else x mod y.
Definition bvshl (x y : Z) : Z := (x * 2 ^ y) mod card.
Definition bvlshr (x y : Z) : Z := x / 2 ^ y.
Definition bvsdiv (x y : Z) : Z :=
  match msb x, msb y with
  | false, false => bvudiv x y
  | true, false => bvneg (bvudiv (bvneg x) y)
  | false, true => bvneg (bvudiv x (bvneg y))
  | true, true => bvudiv (bvneg x) (bvneg y)
  end.
Definition bvsrem (x y : Z) : Z :=
  match msb x, msb y with
  | false, false => bvurem x y
  | true, false => bvneg (bvurem (bvneg x) y)
  | false, true => bvurem x (bvneg y)
  | true, true => bvneg (bvurem (bvneg x) (bvneg y))
  end.
Definition bvashr (x y : Z) : Z := if msb x then bvnot (bvlshr (bvnot x) y) else bvlshr x y.
Definition bvult (x y : Z) : bool := x <? y.
Definition bvule (x y : Z) : bool := x <=? y.
Definition bvslt (x y : Z) : bool :=
  (msb x && negb (msb y)) || (Bool.eqb (msb x) (msb y) && bvult x y).
Definition bvsle (x y : Z) : bool :=
  (msb x && negb (msb y)) || (Bool.eqb (msb x) (msb y) && bvule x y).
Definition sign_extend (k : N) (x : Z) : Z := if msb x then x + (2 ^ Z.of_N (w + k) - card) else x.

End Reference.

(** Bits [low] to [high]. *)
Definition bvextract (high low : N) (x : Z) : Z :=
  (x / 2 ^ Z.of_N low) mod 2 ^ Z.of_N (high - low + 1).
(** [y] is the low half, of [w] bits. *)
Definition bvconcat (w : N) (x y : Z) : Z := x * 2 ^ Z.of_N w + y.

(** ** Lemmas *)

Lemma modulus_card w : bitvec_modulus w = card w.
Proof. unfold bitvec_modulus, card. rewrite Z.shiftl_1_l. done. Qed.

Lemma card_pos w : 0 < card w.
Proof. unfold card. apply Z.pow_pos_nonneg; lia. Qed.

Lemma card_double w : (0 < w)%N -> card w = 2 * 2 ^ (Z.of_N w - 1).
Proof. intros W. unfold card. rewrite <- Z.pow_succ_r by lia. f_equal. lia. Qed.

Lemma msb_spec w x : (0 < w)%N -> in_range w x -> msb w x = (2 ^ (Z.of_N w - 1) <=? x).
Proof.
  unfold in_range, msb. intros W R. rewrite card_double in R by done.
  set (h := 2 ^ (Z.of_N w - 1)) in *. assert (P : 0 < h) by (apply Z.pow_pos_nonneg; lia).
  rewrite Z.testbit_odd, Z.shiftr_div_pow2 by lia. fold h.
  destruct (Z.leb_spec h x).
  - replace (x / h) with 1; [done|]. apply Z.div_unique with (x - h); lia.
  - by rewrite Z.div_small by lia.
Qed.

(** The signed value of a bit-vector. *)
Lemma to_signed_spec w x :
  (0 < w)%N -> in_range w x ->
  bitvec_to_signed x w = if msb w x then x - card w else x.
Proof.
  intros W R. unfold bitvec_to_signed. rewrite msb_spec, modulus_card by done.
  rewrite Z.shiftl_1_l. done.
Qed.

Lemma to_signed_bounds w x :
  (0 < w)%N -> in_range w x ->
  - 2 ^ (Z.of_N w - 1) <= bitvec_to_signed x w < 2 ^ (Z.of_N w - 1) /\
  (bitvec_to_signed x w) mod card w = x /\
  (msb w x = true <-> bitvec_to_signed x w < 0).
Proof.
  intros W R. rewrite to_signed_spec, msb_spec by done. unfold in_range in R.
  rewrite card_double in * by done. set (h := 2 ^ (Z.of_N w - 1)) in *.
  destruct (Z.leb_spec h x); (split; [lia|split; [|split; [lia|done || lia]]]).
  - replace (x - 2 * h) with (x + (-1) * (2 * h)) by lia. rewrite Z.mod_add by lia.
    by apply Z.mod_small.
  - by apply Z.mod_small.
Qed.

Lemma bvneg_small w x : in_range w x -> 0 < x -> bvneg w x = card w - x.
Proof. unfold bvneg, in_range. intros R P. apply Z.mod_small. lia. Qed.

(** The magnitude of a bit-vector, as the reference takes it. *)
Lemma magnitude w x :
  (0 < w)%N -> in_range w x ->
  (if bitvec_to_signed x w <? 0 then - bitvec_to_signed x w else bitvec_to_signed x w) =
  (if msb w x then bvneg w x else x) /\
  (bitvec_to_signed x w <? 0) = msb w x /\
  0 <= (if msb w x then bvneg w x else x) < card w.
Proof.
  intros W R. destruct (to_signed_bounds w x W R) as (B & _ & S).
  rewrite to_signed_spec in * by done. unfold in_range in R.
  destruct (msb w x) eqn:M.
  - pose proof (card_double w W). assert (0 < 2 ^ (Z.of_N w - 1)) by (apply Z.pow_pos_nonneg; lia).
    assert (x - card w < 0) by (by apply S). rewrite (proj2 (Z.ltb_lt _ _)) by lia.
    rewrite bvneg_small by (done || lia). split_and!; lia || done.
  - rewrite (proj2 (Z.ltb_ge _ _)); [split_and!; lia || done|].
    destruct (Z.lt_ge_cases x 0); [lia|done].
Qed.

Lemma neg_mod w x : (- x) mod card w = bvneg w (x mod card w).
Proof.
  pose proof (card_pos w). unfold bvneg.
  rewrite <- (Z.mod_add (- x) 1 (card w)) by lia.
  replace (- x + 1 * card w) with (card w - x) by lia.
  by rewrite Zminus_mod_idemp_r.
Qed.

Lemma sdiv_spec w x y :
  (0 < w)%N -> in_range w x -> in_range w y -> y <> 0 ->
  (signed_trunc_div (bitvec_to_signed x w) (bitvec_to_signed y w)) mod card w = bvsdiv w x y.
Proof.
  intros W Rx Ry Ny. unfold signed_trunc_div, bvsdiv.
  destruct (magnitude w x W Rx) as (-> & -> & Bx), (magnitude w y W Ry) as (-> & -> & By).
  assert (P : 0 < (if msb w y then bvneg w y else y)).
  { unfold in_range in Ry. destruct (msb w y); [|lia]. rewrite bvneg_small by (done || lia). lia. }
  rewrite Z.quot_div_nonneg by lia.
  set (ax := if msb w x then _ else _) in *. set (ay := if msb w y then _ else _) in *.
  assert (Q : 0 <= ax / ay < card w).
  { split; [apply Z.div_pos; lia|]. apply Z.div_lt_upper_bound; [lia|]. nia. }
  assert (U : bvudiv w ax ay = ax / ay) by (unfold bvudiv; by rewrite (proj2 (Z.eqb_neq ay 0)) by lia).
  destruct (msb w x), (msb w y); cbn [xorb]; subst ax ay;
    rewrite ?neg_mod, ?(Z.mod_small (_ / _)) by done; by rewrite U.
Qed.

Lemma srem_spec w x y :
  (0 < w)%N -> in_range w x -> in_range w y -> y <> 0 ->
  (bitvec_to_signed x w -
   signed_trunc_div (bitvec_to_signed x w) (bitvec_to_signed y w) * bitvec_to_signed y w) mod card w
  = bvsrem w x y.
Proof.
  intros W Rx Ry Ny. unfold signed_trunc_div, bvsrem.
  destruct (magnitude w x W Rx) as (Mx & Sx & Bx), (magnitude w y W Ry) as (My & Sy & By).
  rewrite Mx, My, Sx, Sy.
  assert (P : 0 < (if msb w y then bvneg w y else y)).
  { unfold in_range in Ry. destruct (msb w y); [|lia]. rewrite bvneg_small by (done || lia). lia. }
  rewrite Z.quot_div_nonneg by lia. rewrite Sx in Mx. rewrite Sy in My.
  set (ax := if msb w x then bvneg w x else x) in *. set (ay := if msb w y then bvneg w y else y) in *.
  set (sx := bitvec_to_signed x w) in *. set (sy := bitvec_to_signed y w) in *.
  assert (M : 0 <= ax mod ay < ay) by (apply Z.mod_pos_bound; lia).
  assert (U : bvurem ax ay = ax mod ay) by (unfold bvurem; by rewrite (proj2 (Z.eqb_neq ay 0)) by lia).
  assert (D : ax - ax / ay * ay = ax mod ay) by (rewrite Z.mod_eq by lia; lia).
  assert (E : sx - (if xorb (msb w x) (msb w y) then - (ax / ay) else ax / ay) * sy =
              if msb w x then - (ax mod ay) else ax mod ay).
  { destruct (msb w x), (msb w y); cbn [xorb]; nia. }
  rewrite E. destruct (msb w x), (msb w y); subst ax ay;
    rewrite ?neg_mod, Z.mod_small by lia; by rewrite U.
Qed.

Lemma lnot_range w x : in_range w x -> in_range w (bvnot w x).
Proof. unfold in_range, bvnot. lia. Qed.

Lemma ashr_spec w x s :
  (0 < w)%N -> in_range w x -> (s < w)%N ->
  (signed_ashr (bitvec_to_signed x w) s w) mod card w = bvashr w x (Z.of_N s).
Proof.
  intros W R L. destruct (to_signed_bounds w x W R) as (B & _ & S).
  unfold signed_ashr, bvashr, bvlshr, bvnot. rewrite (proj2 (N.leb_gt _ _) L).
  rewrite Z.shiftl_1_l. set (d := 2 ^ Z.of_N s). assert (P : 0 < d) by (apply Z.pow_pos_nonneg; lia).
  rewrite to_signed_spec in * by done. unfold in_range in R.
  destruct (msb w x).
  - assert (Neg : x - card w < 0) by (by apply S). rewrite (proj2 (Z.leb_gt _ _)) by lia.
    rewrite Z.quot_div_nonneg by lia.
    replace (- (x - card w) + d - 1) with (card w - 1 - x + 1 * d) by lia.
    rewrite Z.div_add by lia. set (q := (card w - 1 - x) / d).
    assert (Q : 0 <= q <= card w - 1 - x).
    { split; [apply Z.div_pos; lia|]. apply Z.div_le_upper_bound; [lia|]. nia. }
    replace (- (q + 1)) with (card w - 1 - q + (-1) * card w) by lia.
    rewrite Z.mod_add by lia. apply Z.mod_small. lia.
  - rewrite (proj2 (Z.leb_le _ _)) by lia. rewrite Z.quot_div_nonneg by lia.
    apply Z.mod_small. split; [apply Z.div_pos; lia|].
    apply Z.div_lt_upper_bound; [lia|]. nia.
Qed.

(** A shift by the width or more leaves the sign. *)
Lemma ashr_big w x s y :
  (0 < w)%N -> in_range w x -> (w <= s)%N -> Z.of_N w <= y ->
  (signed_ashr (bitvec_to_signed x w) s w) mod card w = bvashr w x y.
Proof.
  intros W R L Ly. destruct (to_signed_bounds w x W R) as (_ & _ & S).
  unfold signed_ashr, bvashr, bvlshr, bvnot. rewrite (proj2 (N.leb_le _ _) L).
  assert (P : card w <= 2 ^ y) by (apply Z.pow_le_mono_r; lia). unfold in_range in R.
  destruct (msb w x).
  - rewrite (proj2 (Z.ltb_lt _ _)) by (by apply S). rewrite Z.div_small by lia.
    replace (-1) with (card w - 1 + (-1) * card w) by lia. rewrite Z.mod_add, Z.mod_small by lia. lia.
  - rewrite (proj2 (Z.ltb_ge _ _)). 
    + rewrite (Z.div_small x) by lia. apply Z.mod_0_l. lia.
    + destruct (Z.lt_ge_cases (bitvec_to_signed x w) 0); [|done].
      assert (false = true) by (by apply S). done.
Qed.

Lemma slt_spec w x y :
  (0 < w)%N -> in_range w x -> in_range w y ->
  (bitvec_to_signed x w <? bitvec_to_signed y w) = bvslt w x y /\
  (bitvec_to_signed x w <=? bitvec_to_signed y w) = bvsle w x y.
Proof.
  intros W Rx Ry. unfold bvslt, bvsle, bvult, bvule. rewrite !to_signed_spec, !msb_spec by done.
  unfold in_range in *. rewrite card_double in * by done. set (h := 2 ^ (Z.of_N w - 1)) in *.
  destruct (Z.leb_spec h x), (Z.leb_spec h y); cbn [andb orb negb Bool.eqb];
    (split; [destruct (Z.ltb_spec x y)|destruct (Z.leb_spec x y)];
     first [reflexivity|apply Z.ltb_lt|apply Z.ltb_ge|apply Z.leb_le|apply Z.leb_gt]; lia).
Qed.

(** The halves of a concatenation do not overlap. *)
Lemma concat_spec wa wb x y :
  in_range wa x -> in_range wb y ->
  Z.lor (Z.shiftl x (Z.of_N wb)) y = bvconcat wb x y /\ in_range (wa + wb) (bvconcat wb x y).
Proof.
  unfold in_range, bvconcat, card. intros Rx Ry. split.
  - rewrite Z.shiftl_mul_pow2 by lia.
    assert (L : Z.land (x * 2 ^ Z.of_N wb) y = 0).
    { apply Z.bits_inj'. intros n Hn. rewrite Z.land_spec, Z.bits_0.
      destruct (Z.lt_ge_cases n (Z.of_N wb)); [by rewrite Z.mul_pow2_bits_low|].
      apply andb_false_iff. right. destruct (Z.eq_dec y 0) as [->|]; [apply Z.bits_0|].
      apply Z.bits_above_log2; [lia|]. assert (Z.log2 y < Z.of_N wb) by (apply Z.log2_lt_pow2; lia). lia. }
    rewrite <- Z.lxor_lor by done. symmetry. by apply Z.add_nocarry_lxor.
  - rewrite N2Z.inj_add, Z.pow_add_r by lia. nia.
Qed.

End BvArith.
