(* ===== verification/AyBuild.v ===== *)
(** * Building and evaluating expressions

    The constant-propagation passes also build expressions.  [AyApi] is what they
    call of the crate [ay_bindings]: the sort of an expression, the views of sorts
    and the builders, [rebuild_with_children] among them.  The builders refuse
    ill-sorted operands by panicking, and the passes guard the calls that could;
    in the interface they are total.  [AyEval] is the meaning the passes rely on:
    the operators are those of the SMT-LIB theories, a rebuilt node means what the
    node meant when its operands do, and the expressions there are are well
    sorted.  [smt_binary] and [smt_unary] are the bit-vector operators. *)

From S2P Require Import Prelude AyExpr BvArith.

Module AyBuild.
Import BvArith.

(** The widths of bit-vectors: positive, and a [u32]. *)
Definition width_ok (w : N) : Prop := (0 < w < 2 ^ 32)%N.

(** ** The builders *)

Class AyApi `{AyExpr} := {
  sort_of : Expr -> Sort;
  bitvec_width : Sort -> option N;
  array_sort : Sort -> option (Sort * Sort);
  (** [SortInner::Datatype]: the constructors with their fields *)
  constructors : Sort -> option (list (string * list (string * Sort)));
  is_known_variant : Expr -> bool;
  bool_const : bool -> Expr;
  bitvec_const : Z -> N -> Expr;
  mk_unary : unary Sort -> Expr -> Expr;
  mk_eq : Expr -> Expr -> Expr;
  and_many : list Expr -> Expr;
  or_many : list Expr -> Expr;
  distinct : list Expr -> Expr;
  ite : Expr -> Expr -> Expr -> Expr;
  mk_select : Expr -> Expr -> Expr;
  mk_store : Expr -> Expr -> Expr -> Expr;
  datatype_constructor : string -> string -> list Expr -> Sort -> Expr;
  try_field_select : Expr -> string -> string -> Sort -> option Expr;
  try_is_constructor : Expr -> string -> string -> option Expr;
  func_app_with_sort : string -> list Expr -> Sort -> Expr;
  forall_with_triggers : list (string * Sort) -> Expr -> list (list Expr) -> Expr;
  exists_with_triggers : list (string * Sort) -> Expr -> list (list Expr) -> Expr;
  rebuild_with_children : Expr -> list Expr -> Expr;
  value_bool_const : forall b, value (bool_const b) = BoolConst b;
  value_bitvec_const : forall z w, width_ok w ->
    value (bitvec_const z w) = Const (BitVecConst (z mod card w) w);
  sort_of_bitvec : forall e x w, value e = Const (BitVecConst x w) -> bitvec_width (sort_of e) = Some w;
}.

(** ** The bit-vector operators *)

Inductive bv_result := RBool (b : bool) | RBits (w : N) (x : Z).

Definition smt_binary (op : binary) (wa : N) (x : Z) (wb : N) (y : Z) : option bv_result :=
  match op with
  | BvAdd => Some (RBits wa (bvadd wa x y))
  | BvSub => Some (RBits wa (bvsub wa x y))
  | BvMul => Some (RBits wa (bvmul wa x y))
  | BvUDiv => Some (RBits wa (bvudiv wa x y))
  | BvURem => Some (RBits wa (bvurem x y))
  | BvSDiv => Some (RBits wa (bvsdiv wa x y))
  | BvSRem => Some (RBits wa (bvsrem wa x y))
  | BvAnd => Some (RBits wa (Z.land x y))
  | BvOr => Some (RBits wa (Z.lor x y))
  | BvXor => Some (RBits wa (Z.lxor x y))
  | BvShl => Some (RBits wa (bvshl wa x y))
  | BvLShr => Some (RBits wa (bvlshr x y))
  | BvAShr => Some (RBits wa (bvashr wa x y))
  | BvULt => Some (RBool (bvult x y))
  | BvULe => Some (RBool (bvule x y))
  | BvUGt => Some (RBool (bvult y x))
  | BvUGe => Some (RBool (bvule y x))
  | BvSLt => Some (RBool (bvslt wa x y))
  | BvSLe => Some (RBool (bvsle wa x y))
  | BvSGt => Some (RBool (bvslt wa y x))
  | BvSGe => Some (RBool (bvsle wa y x))
  | BvConcat => Some (RBits (wa + wb) (bvconcat wb x y))
  | BvAddNoOverflowUnsigned => Some (RBool (x + y <? card wa)%Z)
  | BvSubNoUnderflowUnsigned => Some (RBool (y <=? x)%Z)
  | _ => None
  end.

Definition smt_unary {S} (op : unary S) (w : N) (x : Z) : option (N * Z) :=
  match op with
  | BvNeg => Some (w, bvneg w x)
  | BvNot => Some (w, bvnot w x)
  | BvZeroExtend k => Some ((w + k)%N, x)
  | BvSignExtend k => Some ((w + k)%N, sign_extend w k x)
  | BvExtract high low =>
      if ((low <=? high) && (high <? w))%N then Some ((high - low + 1)%N, bvextract high low x) else None
  | _ => None
  end.

(** The overflow predicates with a sign, and the product's: the exact result fits. *)
Definition fits (signed : bool) (w : N) (z : Z) : bool :=
  if signed then ((- 2 ^ (Z.of_N w - 1) <=? z) && (z <? 2 ^ (Z.of_N w - 1)))%Z
  else ((0 <=? z) && (z <? card w))%Z.

Definition number (signed : bool) (w : N) (x : Z) : Z := if signed then bitvec_to_signed x w else x.

Definition smt_overflow (op : binary) (w : N) (x y : Z) : option bool :=
  let s x := number true w x in
  match op with
  | BvAddNoOverflowSigned => Some (fits true w (s x + s y))
  | BvSubNoOverflowSigned => Some (fits true w (s x - s y))
  | BvMulNoOverflowSigned => Some (fits true w (s x * s y))
  | BvMulNoOverflowUnsigned => Some (fits false w (x * y))
  | BvSdivNoOverflow => Some (negb ((s x =? - 2 ^ (Z.of_N w - 1)) && (s y =? -1)))
  | _ => None
  end%Z.

(** ** The meaning *)

Definition is_scalar_value {S E} (v : ExprValue S E) : bool :=
  match v with
  | BoolConst _ | Const (BitVecConst _ _) | Const (IntConst _) | Const RealConst => true
  | _ => false
  end.

Definition is_quantifier {S E} (v : ExprValue S E) : bool :=
  match v with Forall _ _ _ | Exists _ _ _ => true | _ => false end.

Class AyEval `{AyApi} `{!AySem} := {
  vbool : bool -> val;
  bv : N -> Z -> val;
  vselect : val -> val -> val;
  is_true_vbool : forall b, is_true (vbool b) <-> b = true;
  bv_inj : forall w x w' x', in_range w x -> in_range w' x' -> bv w x = bv w' x' -> w = w' /\ x = x';
  (** constants; equal scalar constants are the same expression *)
  eval_bool_const : forall r e b, value e = BoolConst b -> eval r e = vbool b;
  eval_bitvec_const : forall r e x w, value e = Const (BitVecConst x w) ->
    width_ok w /\ in_range w x /\ eval r e = bv w x;
  scalar_const_eq : forall r e e', is_scalar_value (value e) = true ->
    is_scalar_value (value e') = true -> eval r e = eval r e' -> e = e';
  (** the Boolean connectives *)
  eval_not : forall r e a, admissible r -> value e = Unary Not a ->
    exists b, eval r a = vbool b /\ eval r e = vbool (negb b);
  eval_mk_not : forall r a b, eval r a = vbool b -> eval r (mk_unary Not a) = vbool (negb b);
  eval_and_bool : forall r e es, admissible r -> value e = And es ->
    exists bs, map (eval r) es = map vbool bs /\ eval r e = vbool (forallb id bs);
  eval_or_bool : forall r e es, admissible r -> value e = Or es ->
    exists bs, map (eval r) es = map vbool bs /\ eval r e = vbool (existsb id bs);
  eval_and_many : forall r es bs, map (eval r) es = map vbool bs ->
    eval r (and_many es) = vbool (forallb id bs);
  eval_or_many : forall r es bs, map (eval r) es = map vbool bs ->
    eval r (or_many es) = vbool (existsb id bs);
  eval_eq_bool : forall r e a b, value e = Eq a b -> exists t, eval r e = vbool t;
  eval_mk_eq : forall r a b, exists t, eval r (mk_eq a b) = vbool t /\ (t = true <-> eval r a = eval r b);
  eval_ite : forall r e c t f, admissible r -> value e = Ite c t f ->
    exists b, eval r c = vbool b /\ eval r e = if b then eval r t else eval r f;
  (** bit-vectors *)
  eval_binary : forall r e op a b wa x wb y res, admissible r -> value e = Binary op a b ->
    in_range wa x -> in_range wb y -> eval r a = bv wa x -> eval r b = bv wb y ->
    smt_binary op wa x wb y = Some res ->
    (op <> BvConcat -> wa = wb) /\
    match res with
    | RBool t => eval r e = vbool t
    | RBits w z => eval r e = bv w z /\ width_ok w
    end;
  eval_unary : forall r e op a w x w' x', admissible r -> value e = Unary op a ->
    in_range w x -> eval r a = bv w x -> smt_unary op w x = Some (w', x') ->
    eval r e = bv w' x' /\ width_ok w';
  (** arrays *)
  eval_select : forall r e a i, value e = Binary Select a i -> eval r e = vselect (eval r a) (eval r i);
  vselect_const : forall r e s v k, admissible r -> value e = Unary (ConstArray s) v ->
    vselect (eval r e) k = eval r v;
  vselect_store : forall r e a i x k, admissible r -> value e = Store a i x ->
    (k = eval r i -> vselect (eval r e) k = eval r x) /\
    (k <> eval r i -> vselect (eval r e) k = vselect (eval r a) k);
  store_same : forall r e a i x, admissible r -> value e = Store a i x ->
    vselect (eval r a) (eval r i) = eval r x -> eval r e = eval r a;
  store_twice : forall r e a i x c b j y i' x', admissible r -> value e = Store a i x ->
    value c = Store b j y -> eval r a = eval r c -> eval r i = eval r j -> eval r i' = eval r i ->
    eval r x' = eval r x -> eval r (mk_store b i' x') = eval r e;
  (** both sides of an equality have one sort *)
  eq_const_store : forall r e a b c s s' i v w, value e = Eq a b \/ value e = Eq b a ->
    value a = Unary (ConstArray s) v -> value b = Store c i w -> value c = Unary (ConstArray s') v ->
    eval r a = eval r c;
  (** a selector of a constructor term reads the field it names *)
  eval_field : forall r e d n a c d' k args cs fs i s x, admissible r ->
    value e = Unary (DatatypeSelector d n) a -> eval r a = eval r c ->
    value c = DatatypeConstructor d' k args -> constructors (sort_of c) = Some cs ->
    (k, fs) ∈ cs -> fs !! i = Some (n, s) -> args !! i = Some x -> eval r e = eval r x;
  (** a builder makes what the node it replaces is, of operands that mean the same *)
  mk_unary_same : forall r e op a a', value e = Unary op a -> eval r a' = eval r a ->
    eval r (mk_unary op a') = eval r e;
  distinct_same : forall r e es es', value e = Distinct es -> map (eval r) es' = map (eval r) es ->
    eval r (distinct es') = eval r e;
  ite_same : forall r e c t f c' t' f', value e = Ite c t f -> eval r c' = eval r c ->
    eval r t' = eval r t -> eval r f' = eval r f -> eval r (ite c' t' f') = eval r e;
  eval_mk_select : forall r a i, eval r (mk_select a i) = vselect (eval r a) (eval r i);
  mk_store_same : forall r e a i x a' i' x', value e = Store a i x -> eval r a' = eval r a ->
    eval r i' = eval r i -> eval r x' = eval r x -> eval r (mk_store a' i' x') = eval r e;
  datatype_constructor_same : forall r e d k args args', value e = DatatypeConstructor d k args ->
    map (eval r) args' = map (eval r) args ->
    eval r (datatype_constructor d k args' (sort_of e)) = eval r e;
  try_field_select_same : forall r e d n a a' e', value e = Unary (DatatypeSelector d n) a ->
    eval r a' = eval r a -> try_field_select a' d n (sort_of e) = Some e' -> eval r e' = eval r e;
  try_is_constructor_same : forall r e d k a a' e', value e = Unary (DatatypeTester d k) a ->
    eval r a' = eval r a -> try_is_constructor a' d k = Some e' -> eval r e' = eval r e;
  func_app_same : forall r e n args args', value e = FuncApp n args ->
    map (eval r) args' = map (eval r) args -> eval r (func_app_with_sort n args' (sort_of e)) = eval r e;
  forall_same : forall r e vs b ts b' ts', value e = Forall vs b ts ->
    (forall r', admissible r' -> (forall n, n ∉ map fst vs -> r' n = r n) -> eval r' b' = eval r' b) ->
    eval r (forall_with_triggers vs b' ts') = eval r e;
  exists_same : forall r e vs b ts b' ts', value e = Exists vs b ts ->
    (forall r', admissible r' -> (forall n, n ∉ map fst vs -> r' n = r n) -> eval r' b' = eval r' b) ->
    eval r (exists_with_triggers vs b' ts') = eval r e;
  rebuild_same : forall r e cs, is_quantifier (value e) = false ->
    map (eval r) cs = map (eval r) (children e) -> eval r (rebuild_with_children e cs) = eval r e;
}.

Section Facts.
Context `{AyEval}.

Lemma vbool_inj b b' : vbool b = vbool b' -> b = b'.
Proof.
  intros E. pose proof (is_true_vbool b) as A. pose proof (is_true_vbool b') as B.
  rewrite <- E in B. destruct b, b'; naive_solver.
Qed.

Lemma vbool_list_inj bs bs' : map vbool bs = map vbool bs' -> bs = bs'.
Proof.
  revert bs'. induction bs as [|b bs IH]; intros [|b' bs'] E; try discriminate; [done|].
  injection E as E1%vbool_inj E2. f_equal; [done|by apply IH].
Qed.

Lemma eval_eq_iff r e a b t : value e = Eq a b -> eval r e = vbool t -> t = true <-> eval r a = eval r b.
Proof.
  intros V E. rewrite <- (eval_eq r e a b V), E. by rewrite is_true_vbool.
Qed.

Lemma eval_built_bool r b : eval r (bool_const b) = vbool b.
Proof. apply eval_bool_const, value_bool_const. Qed.

Lemma mod_in_range w z : in_range w (z mod card w).
Proof. apply Z.mod_pos_bound, card_pos. Qed.

Lemma eval_built_bits r z w : width_ok w -> eval r (bitvec_const z w) = bv w (z mod card w).
Proof. intros W. eapply eval_bitvec_const, value_bitvec_const, W. Qed.

(** A scalar constant means the same under every valuation. *)
Lemma scalar_no_vars e n : is_scalar_value (value e) = true -> ~ occurs n e.
Proof.
  intros S O. inversion O as [e' V|e' c C _]; subst.
  - rewrite V in S. discriminate.
  - unfold children in C. destruct (value e) as [| |[]| | | | | | | | | | | | | |]; cbn in *; try discriminate;
      by apply elem_of_nil in C.
Qed.

End Facts.

End AyBuild.
