(* ===== verification/ConstEval.v ===== *)
(** * Evaluating constant expressions

    trust-mc-core/src/chc_const_prop_eval.rs: folding of bit-vector operators on
    constants, reads of stores, the evaluators [try_eval_to_bool] and
    [try_eval_to_const], flattening of conjunctions and the stripping of true and
    false constraints. *)

From S2P Require Import Prelude Text AyExpr BvArith AyBuild Chc.

Module ConstEval.
Import BvArith AyBuild.

Section Eval.
Context `{AyApi}.

(** ** Constants (chc_const_prop.rs) *)

(** [is_scalar_constant] *)
Definition is_scalar_constant (e : Expr) : bool := is_scalar_value (value e).

(** [is_constant] *)
Definition constant_node (v : ExprValue Sort Expr) (rec : Expr -> bool) : bool :=
  is_scalar_value v ||
  match v with
  | Unary (ConstArray _) x => rec x
  | Store array index x => rec array && rec index && rec x
  | _ => false
  end.
Definition is_constant (e : Expr) : bool := fold_expr constant_node false (S (size e)) e.

(** ** Bit-vector operators *)

Definition bitvec_view (e : Expr) : option (Z * N) :=
  match value e with Const (BitVecConst v w) => Some (v, w) | _ => None end.

(** [eval_bv_binary_const] *)
Definition eval_bv_binary_const (op : binary) (a b : Expr) : option Expr :=
  '(va, wa) ← bitvec_view a;
  '(vb, wb) ← bitvec_view b;
  match op with
  | BvAdd => Some (bitvec_const (va + vb) wa)
  | BvSub => Some (bitvec_const (va - vb) wa)
  | BvMul => Some (bitvec_const (va * vb) wa)
  | BvURem => if (vb =? 0)%Z then None else Some (bitvec_const (Z.rem va vb) wa)
  | BvUDiv => if (vb =? 0)%Z then None else Some (bitvec_const (Z.quot va vb) wa)
  | BvSDiv =>
      if (vb =? 0)%Z then None
      else
        let signed_a := bitvec_to_signed va wa in
        let signed_b := bitvec_to_signed vb wb in
        Some (bitvec_const (signed_trunc_div signed_a signed_b) wa)
  | BvSRem =>
      if (vb =? 0)%Z then None
      else
        let signed_a := bitvec_to_signed va wa in
        let signed_b := bitvec_to_signed vb wb in
        let quotient := signed_trunc_div signed_a signed_b in
        Some (bitvec_const (signed_a - quotient * signed_b) wa)
  | BvAnd => Some (bitvec_const (Z.land va vb) wa)
  | BvOr => Some (bitvec_const (Z.lor va vb) wa)
  | BvXor => Some (bitvec_const (Z.lxor va vb) wa)
  | BvShl =>
      let shift := shift_amount vb wa in
      if (wa <=? shift)%N then Some (bitvec_const 0 wa)
      else Some (bitvec_const (Z.shiftl va (Z.of_N shift)) wa)
  | BvLShr =>
      let shift := shift_amount vb wa in
      if (wa <=? shift)%N then Some (bitvec_const 0 wa)
      else Some (bitvec_const (Z.shiftr va (Z.of_N shift)) wa)
  | BvAShr =>
      let shift := shift_amount vb wa in
      let signed_a := bitvec_to_signed va wa in
      Some (bitvec_const (signed_ashr signed_a shift wa) wa)
  | BvULt => Some (bool_const (va <? vb)%Z)
  | BvULe => Some (bool_const (va <=? vb)%Z)
  | BvUGt => Some (bool_const (vb <? va)%Z)
  | BvUGe => Some (bool_const (vb <=? va)%Z)
  | BvSLt => Some (bool_const (bitvec_to_signed va wa <? bitvec_to_signed vb wb)%Z)
  | BvSLe => Some (bool_const (bitvec_to_signed va wa <=? bitvec_to_signed vb wb)%Z)
  | BvSGt => Some (bool_const (bitvec_to_signed vb wb <? bitvec_to_signed va wa)%Z)
  | BvSGe => Some (bool_const (bitvec_to_signed vb wb <=? bitvec_to_signed va wa)%Z)
  | BvConcat =>
      let shifted := Z.shiftl va (Z.of_N wb) in
      Some (bitvec_const (Z.lor shifted vb) (wa + wb))
  | BvAddNoOverflowUnsigned =>
      let sum := (va + vb)%Z in
      Some (bool_const (sum <? bitvec_modulus wa)%Z)
  | BvSubNoUnderflowUnsigned => Some (bool_const (vb <=? va)%Z)
  | _ => None
  end.

(** ** Arrays *)

(** [eval_select_store_const] *)
Fixpoint select_store (fuel : nat) (array sel_index : Expr) : option Expr :=
  match fuel with
  | O => None
  | S fuel' =>
      match value array with
      | Store inner_arr store_idx store_val =>
          if decide (sel_index = store_idx) then Some store_val
          else if is_constant sel_index && is_constant store_idx
          then select_store fuel' inner_arr sel_index
          else None
      | _ => None
      end
  end.
Definition eval_select_store_const (array sel_index : Expr) : option Expr :=
  select_store (S (size array)) array sel_index.

(** ** The evaluators *)

(** The loops of [try_eval_to_bool] over conjuncts and disjuncts: [stop] decides at
    once, a child without a value leaves the whole without one. *)
Fixpoint eval_children (rec : Expr -> option bool) (stop all : bool) (children : list Expr)
    : option bool :=
  match children with
  | [] => if all then Some (negb stop) else None
  | child :: rest =>
      match rec child with
      | Some b => if Bool.eqb b stop then Some stop else eval_children rec stop all rest
      | None => eval_children rec stop false rest
      end
  end.

(** [eval_const_array_store_eq_ordered] and [eval_const_array_store_eq] *)
Definition const_array_store_eq_ordered (rec_const : Expr -> option Expr) (const_side store_side : Expr)
    : option bool :=
  match value const_side, value store_side with
  | Unary (ConstArray _) const_value, Store array _ stored_value =>
      match value array with
      | Unary (ConstArray _) base_value =>
          if decide (base_value = const_value) then
            if decide (stored_value = const_value) then Some true
            else
              const_eval ← rec_const const_value;
              stored_eval ← rec_const stored_value;
              Some (bool_decide (const_eval = stored_eval))
          else None
      | _ => None
      end
  | _, _ => None
  end.
Definition const_array_store_eq (rec_const : Expr -> option Expr) (a b : Expr) : option bool :=
  match const_array_store_eq_ordered rec_const a b with
  | Some v => Some v
  | None => const_array_store_eq_ordered rec_const b a
  end.

(** The operators [try_eval_to_bool] and [try_eval_to_const] fold. *)
Definition is_bool_op (op : binary) : bool :=
  match op with
  | BvULt | BvULe | BvUGt | BvUGe | BvSLt | BvSLe | BvSGt | BvSGe
  | BvAddNoOverflowUnsigned | BvSubNoUnderflowUnsigned => true
  | _ => false
  end.
Definition is_bits_op (op : binary) : bool :=
  match op with
  | BvAdd | BvSub | BvMul | BvUDiv | BvSDiv | BvURem | BvSRem | BvAnd | BvOr | BvXor | BvShl
  | BvLShr | BvAShr | BvConcat => true
  | _ => false
  end.

(** The body of [try_eval_to_bool] *)
Definition bool_node (rec_bool : Expr -> option bool) (rec_const : Expr -> option Expr) (e : Expr)
    : option bool :=
  match value e with
  | BoolConst b => Some b
  | And children => eval_children rec_bool false true children
  | Or children => eval_children rec_bool true true children
  | Unary Not inner => negb <$> rec_bool inner
  | Eq a b =>
      if decide (a = b) then Some true
      else
        match rec_bool a, rec_bool b with
        | Some lhs, Some rhs => Some (Bool.eqb lhs rhs)
        | _, _ =>
            match const_array_store_eq rec_const a b with
            | Some v => Some v
            | None =>
                ca ← rec_const a;
                cb ← rec_const b;
                Some (bool_decide (ca = cb))
            end
        end
  | Binary op a b =>
      if is_bool_op op then
        ca ← rec_const a;
        cb ← rec_const b;
        result ← eval_bv_binary_const op ca cb;
        match value result with BoolConst t => Some t | _ => None end
      else None
  | _ => None
  end.

(** The operand of a bit-vector operator with one operand, once evaluated. *)
Definition unary_const (op : unary Sort) (ci : Expr) : option Expr :=
  '(v, width) ← bitvec_view ci;
  match op with
  | BvExtract high low =>
      if ((low <=? high) && (high <? width))%N then
        let result_width := (high - low + 1)%N in
        let mask := (Z.shiftl 1 (Z.of_N result_width) - 1)%Z in
        Some (bitvec_const (Z.land (Z.shiftr v (Z.of_N low)) mask) result_width)
      else None
  | BvZeroExtend extra_bits => Some (bitvec_const v (width + extra_bits))
  | BvSignExtend extra_bits =>
      let new_width := (width + extra_bits)%N in
      Some (bitvec_const (bitvec_to_signed v width) new_width)
  | BvNot =>
      let mask := (Z.shiftl 1 (Z.of_N width) - 1)%Z in
      Some (bitvec_const (Z.lxor v mask) width)
  | BvNeg =>
      let modulus := bitvec_modulus width in
      Some (bitvec_const (Z.rem (modulus - v) (bitvec_modulus width)) width)
  | _ => None
  end.

(** The body of [try_eval_to_const]; [self_bool] is [try_eval_to_bool(expr)]. *)
Definition const_node (rec_bool : Expr -> option bool) (rec_const : Expr -> option Expr)
    (self_bool : option bool) (e : Expr) : option Expr :=
  match value e with
  | Const (BitVecConst _ _) | BoolConst _ => Some e
  | Binary op a b =>
      if is_bits_op op then
        ca ← rec_const a;
        cb ← rec_const b;
        eval_bv_binary_const op ca cb
      else if is_bool_op op then bool_const <$> self_bool
      else None
  | Unary (DatatypeSelector dt selector_name) inner =>
      match value inner with
      | DatatypeConstructor ctor_dt _ args =>
          if String.eqb ctor_dt dt then
            digits ← strip_prefix "fld_" selector_name;
            idx ← Str.parse_usize digits;
            arg ← args !! N.to_nat idx;
            rec_const arg
          else None
      | _ => None
      end
  | Unary ((BvExtract _ _ | BvZeroExtend _ | BvSignExtend _ | BvNot | BvNeg) as op) inner =>
      ci ← rec_const inner;
      unary_const op ci
  | And _ | Or _ | Unary Not _ | Eq _ _ => bool_const <$> self_bool
  | Ite cond then_expr else_expr =>
      c ← rec_bool cond;
      if (c : bool) then rec_const then_expr else rec_const else_expr
  | _ => None
  end.

(** The two evaluators call each other; an evaluation to a constant may first ask
    for the truth value of the same expression. *)
Fixpoint eval_bool_fuel (fuel : nat) (e : Expr) : option bool :=
  match fuel with
  | O => None
  | S fuel' => bool_node (eval_bool_fuel fuel') (eval_const_fuel fuel') e
  end
with eval_const_fuel (fuel : nat) (e : Expr) : option Expr :=
  match fuel with
  | O => None
  | S fuel' => const_node (eval_bool_fuel fuel') (eval_const_fuel fuel') (eval_bool_fuel fuel' e) e
  end.

(** [try_eval_to_bool], [try_eval_to_const] *)
Definition try_eval_to_bool (e : Expr) : option bool := eval_bool_fuel (S (2 * AyExpr.size e)) e.
Definition try_eval_to_const (e : Expr) : option Expr := eval_const_fuel (S (S (2 * AyExpr.size e))) e.

(** ** Constraints *)

(** [flatten_conjunctions] *)
Definition flatten_node (e : Expr) (rec : Expr -> list Expr) : list Expr :=
  match value e with And children => flat_map rec children | _ => [e] end.
Fixpoint flatten_and (fuel : nat) (e : Expr) : list Expr :=
  match fuel with O => [] | S fuel' => flatten_node e (flatten_and fuel') end.
Definition flatten (e : Expr) : list Expr := flatten_and (S (AyExpr.size e)) e.
Definition flatten_conjunctions (constraints : Chc.Constraints) : list Expr :=
  flat_map flatten (Chc.iter constraints).

(** [is_trivially_false], [is_trivially_true], [has_false_conjunct] *)
Definition is_trivially_false (e : Expr) : bool :=
  match try_eval_to_bool e with Some false => true | _ => false end.
Definition is_trivially_true (e : Expr) : bool :=
  match try_eval_to_bool e with Some true => true | _ => false end.
Definition has_false_conjunct (constraints : Chc.Constraints) : bool :=
  existsb is_trivially_false (Chc.iter constraints).

(** [strip_trivially_true_constraints] *)
Definition strip_rule (rule : Chc.Rule) : nat * Chc.Rule :=
  let old := Chc.iter (Chc.constraints (Chc.body rule)) in
  let new := List.filter (fun c => negb (is_trivially_true c)) old in
  ((length old - length new)%nat,
   {| Chc.body := {| Chc.relation := Chc.relation (Chc.body rule); Chc.constraints := Chc.Owned new |};
      Chc.head := Chc.head rule |}).
Definition strip_trivially_true_constraints (vc : Chc.ChcVc) : nat * Chc.ChcVc :=
  let stripped := map strip_rule (Chc.rules vc) in
  (sum_list (map fst stripped), Chc.set_rules (Chc.relations vc) (map snd stripped) vc).

(** [collect_constraint_vars]: the collected names, or [None] on a variant that is
    not known *)
Fixpoint concat_all (l : list (option (list string))) : option (list string) :=
  match l with
  | [] => Some []
  | o :: l' => names ← o; rest ← concat_all l'; Some (names ++ rest)
  end.
Fixpoint constraint_vars (fuel : nat) (in_dt : bool) (e : Expr) : option (list string) :=
  match fuel with
  | O => None
  | S fuel' =>
      match value e with
      | Var name => Some (if in_dt then [] else [name])
      | DatatypeConstructor _ _ args | FuncApp _ args =>
          concat_all (map (constraint_vars fuel' true) args)
      | _ =>
          if is_known_variant e then concat_all (map (constraint_vars fuel' in_dt) (children e))
          else None
      end
  end.
Definition collect_constraint_vars (e : Expr) : option (list string) :=
  constraint_vars (S (AyExpr.size e)) false e.

(** [propagate_to_unconstrained_out_vars] *)
Definition out_var_step (constrained : gset string) (known : gmap string Expr) (arg : Expr)
    : gmap string Expr :=
  match value arg with
  | Var name =>
      match Str.strip_suffix name "__out" with
      | Some base =>
          if decide (name ∉ constrained /\ known !! name = None) then
            match known !! base with Some c => <[name := c]> known | None => known end
          else known
      | None => known
      end
  | _ => known
  end.
Definition propagate_to_unconstrained_out_vars (head_args : list Expr) (constraints : Chc.Constraints)
    (known : gmap string Expr) : gmap string Expr :=
  match concat_all (map collect_constraint_vars (flatten_conjunctions constraints)) with
  | None => known
  | Some names => foldl (out_var_step (list_to_set names)) known head_args
  end.

End Eval.

End ConstEval.
