(* ===== verification/ConstEvalSpec.v ===== *)
(** * Correctness of constant evaluation

    The folding of bit-vector operators computes the operators of SMT-LIB, and what
    the evaluators of chc_const_prop_eval.rs return is what the expression means
    under every admissible valuation. *)

From S2P Require Import Prelude Text AyExpr BvArith AyBuild Chc ConstEval.

Module ConstEvalSpec.
Import BvArith AyBuild ConstEval.

(** ** Folding *)

Section Fold.
Context `{AyApi}.

Definition of_result (res : bv_result) : ExprValue Sort Expr :=
  match res with RBool b => BoolConst b | RBits w x => Const (BitVecConst x w) end.

Definition is_division (op : binary) : bool :=
  match op with BvUDiv | BvURem | BvSDiv | BvSRem => true | _ => false end.

Lemma lor_range w x y : in_range w x -> in_range w y -> in_range w (Z.lor x y).
Proof.
  unfold in_range, card. intros Rx Ry. split; [apply Z.lor_nonneg; lia|].
  destruct (Z.eq_dec (Z.lor x y) 0) as [->|N]; [apply Z.pow_pos_nonneg; lia|].
  assert (P : (0 <= Z.lor x y)%Z) by (apply Z.lor_nonneg; lia).
  apply Z.log2_lt_pow2; [lia|]. rewrite Z.log2_lor by lia.
  assert (L : forall z, (0 <= z < 2 ^ Z.of_N w)%Z -> z = 0%Z \/ (Z.log2 z < Z.of_N w)%Z).
  { intros z Rz. destruct (Z.eq_dec z 0); [by left|right]. apply Z.log2_lt_pow2; lia. }
  pose proof (Z.log2_nonneg x). pose proof (Z.log2_nonneg y).
  destruct (L x Rx) as [->|], (L y Ry) as [->|]; [done|change (Z.log2 0) with 0%Z in *; lia..].
Qed.

Lemma land_range w x y : in_range w x -> in_range w y -> in_range w (Z.land x y).
Proof.
  unfold in_range. intros Rx Ry. split; [apply Z.land_nonneg; lia|].
  assert (E : Z.lor (Z.land x y) (Z.ldiff x y) = x).
  { apply Z.bits_inj'. intros n _. rewrite Z.lor_spec, Z.land_spec, Z.ldiff_spec.
    by destruct (Z.testbit x n), (Z.testbit y n). }
  assert (D : Z.land (Z.land x y) (Z.ldiff x y) = 0%Z).
  { apply Z.bits_inj'. intros n _. rewrite !Z.land_spec, Z.ldiff_spec, Z.bits_0.
    by destruct (Z.testbit x n), (Z.testbit y n). }
  assert (0 <= Z.ldiff x y)%Z by (apply Z.ldiff_nonneg; lia).
  rewrite <- Z.lxor_lor, <- Z.add_nocarry_lxor in E by done. lia.
Qed.

Lemma lxor_range w x y : in_range w x -> in_range w y -> in_range w (Z.lxor x y).
Proof.
  intros Rx Ry. pose proof (lor_range w x y Rx Ry) as [_ L]. unfold in_range in *.
  assert (P : (0 <= Z.lxor x y)%Z) by (apply Z.lxor_nonneg; lia). split; [done|].
  assert (E : Z.lor (Z.lxor x y) (Z.land x y) = Z.lor x y).
  { apply Z.bits_inj'. intros n _. rewrite !Z.lor_spec, Z.lxor_spec, Z.land_spec.
    by destruct (Z.testbit x n), (Z.testbit y n). }
  assert (D : Z.land (Z.lxor x y) (Z.land x y) = 0%Z).
  { apply Z.bits_inj'. intros n _. rewrite !Z.land_spec, Z.lxor_spec, Z.bits_0.
    by destruct (Z.testbit x n), (Z.testbit y n). }
  assert (0 <= Z.land x y)%Z by (apply Z.land_nonneg; lia).
  rewrite <- E, <- Z.lxor_lor, <- Z.add_nocarry_lxor in L by done. lia.
Qed.

(** A constant built from a value in range is that value. *)
Lemma built_bits z w x : width_ok w -> (z mod card w)%Z = x -> value (bitvec_const z w) = Const (BitVecConst x w).
Proof. intros W <-. by apply value_bitvec_const. Qed.

Lemma small_mod w x : in_range w x -> (x mod card w)%Z = x.
Proof. apply Z.mod_small. Qed.

Lemma width_pos w : width_ok w -> (0 < w)%N.
Proof. by intros []. Qed.

Lemma width_card w : width_ok w -> (Z.of_N w < card w)%Z /\ (Z.of_N w < 2 ^ 64)%Z.
Proof.
  intros [P L]. unfold card. split.
  - apply Z.pow_gt_lin_r; lia.
  - assert (2 ^ 32 < 2 ^ 64)%Z by reflexivity. lia.
Qed.

Lemma shift_cases w y :
  width_ok w -> (0 <= y)%Z ->
  if (w <=? shift_amount y w)%N then (Z.of_N w <= y)%Z
  else (y < Z.of_N w)%Z /\ Z.of_N (shift_amount y w) = y.
Proof.
  intros W P. destruct (width_card w W) as [_ L]. unfold shift_amount.
  destruct (Z.ltb_spec y (2 ^ 64)).
  - destruct (N.leb_spec w (Z.to_N y)); lia.
  - rewrite N.leb_refl. lia.
Qed.

Lemma div_range w x y : in_range w x -> (0 < y)%Z -> in_range w (x / y).
Proof.
  unfold in_range. intros R P. split; [apply Z.div_pos; lia|].
  apply Z.div_lt_upper_bound; nia.
Qed.

Lemma fold_sub w x y : in_range w x -> in_range w y -> ((x - y) mod card w)%Z = bvsub w x y.
Proof.
  intros Rx Ry. unfold bvsub, bvadd, bvneg. rewrite Zplus_mod_idemp_r.
  replace (x + (card w - y))%Z with (x - y + 1 * card w)%Z by lia. by rewrite Z.mod_add by (pose proof (card_pos w); lia).
Qed.

Lemma bvlshr_big w x y : in_range w x -> (Z.of_N w <= y)%Z -> bvlshr x y = 0%Z.
Proof.
  unfold in_range, bvlshr. intros R L. apply Z.div_small.
  assert (card w <= 2 ^ y)%Z by (apply Z.pow_le_mono_r; lia). lia.
Qed.

Lemma bvshl_big w x y : in_range w x -> (Z.of_N w <= y)%Z -> bvshl w x y = 0%Z.
Proof.
  unfold in_range, bvshl, card. intros R L.
  replace y with (Z.of_N w + (y - Z.of_N w))%Z by lia. rewrite Z.pow_add_r by lia.
  rewrite Z.mul_assoc, (Z.mul_comm x), <- Z.mul_assoc, Z.mul_comm. apply Z.mod_mul.
  assert (0 < 2 ^ Z.of_N w)%Z by (apply Z.pow_pos_nonneg; lia). lia.
Qed.

Lemma fold_exact op a b va wa vb wb :
  value a = Const (BitVecConst va wa) -> value b = Const (BitVecConst vb wb) ->
  width_ok wa -> in_range wa va -> in_range wb vb ->
  match op with BvConcat => width_ok (wa + wb) | _ => wa = wb end ->
  match smt_binary op wa va wb vb with
  | Some res =>
      if is_division op && (vb =? 0)%Z then eval_bv_binary_const op a b = None
      else exists x, eval_bv_binary_const op a b = Some x /\ value x = of_result res
  | None => eval_bv_binary_const op a b = None
  end.
Proof.
  intros Va Vb W Ra Rb T. unfold eval_bv_binary_const, bitvec_view. rewrite Va, Vb. cbn [mbind option_bind].
  assert (Pw := width_pos wa W). pose proof (card_pos wa) as Pc.
  destruct op; cbn [smt_binary is_division andb]; try reflexivity; try (subst wb);
    try (destruct (Z.eqb_spec vb 0) as [->|Nz]; [done|]);
    try (eexists; split; [reflexivity|]; cbn [of_result]; by apply value_bool_const).
  all: try (eexists; split; [reflexivity|]; apply built_bits; [exact W|]; reflexivity).
  - eexists; split; [reflexivity|]. apply built_bits; [done|]. by apply fold_sub.
  - eexists; split; [reflexivity|]. apply built_bits; [done|]. unfold in_range in *.
    unfold bvudiv. rewrite (proj2 (Z.eqb_neq vb 0)) by done. rewrite Z.quot_div_nonneg by lia.
    apply small_mod, div_range; [done|lia].
  - eexists; split; [reflexivity|]. apply built_bits; [done|]. by apply sdiv_spec.
  - eexists; split; [reflexivity|]. apply built_bits; [done|]. unfold in_range in *.
    unfold bvurem. rewrite (proj2 (Z.eqb_neq vb 0)) by done. rewrite Z.rem_mod_nonneg by lia.
    apply Z.mod_small. pose proof (Z.mod_pos_bound va vb). lia.
  - eexists; split; [reflexivity|]. apply built_bits; [done|]. by apply srem_spec.
  - eexists; split; [reflexivity|]. apply built_bits; [done|]. by apply small_mod, land_range.
  - eexists; split; [reflexivity|]. apply built_bits; [done|]. by apply small_mod, lor_range.
  - eexists; split; [reflexivity|]. apply built_bits; [done|]. by apply small_mod, lxor_range.
  - pose proof (shift_cases wa vb W (proj1 Rb)) as S. destruct (wa <=? _)%N.
    + eexists; split; [reflexivity|]. apply built_bits; [done|]. rewrite (bvshl_big wa) by done.
      apply Z.mod_0_l. lia.
    + destruct S as [_ S]. eexists; split; [reflexivity|]. apply built_bits; [done|].
      rewrite S, Z.shiftl_mul_pow2 by apply Rb. done.
  - pose proof (shift_cases wa vb W (proj1 Rb)) as S. destruct (wa <=? _)%N.
    + eexists; split; [reflexivity|]. apply built_bits; [done|]. rewrite (bvlshr_big wa) by done.
      apply Z.mod_0_l. lia.
    + destruct S as [_ S]. eexists; split; [reflexivity|]. apply built_bits; [done|].
      rewrite S, Z.shiftr_div_pow2 by apply Rb. apply small_mod, div_range; [done|].
      apply Z.pow_pos_nonneg; [lia|apply Rb].
  - pose proof (shift_cases wa vb W (proj1 Rb)) as S.
    eexists; split; [reflexivity|]. apply built_bits; [done|].
    destruct (N.leb_spec wa (shift_amount vb wa)).
    + by apply ashr_big.
    + destruct S as [_ S]. rewrite <- S at 2. by apply ashr_spec.
  - eexists; split; [reflexivity|]. rewrite value_bool_const. cbn. f_equal. by apply slt_spec.
  - eexists; split; [reflexivity|]. rewrite value_bool_const. cbn. f_equal. by apply slt_spec.
  - eexists; split; [reflexivity|]. rewrite value_bool_const. cbn. f_equal. by apply slt_spec.
  - eexists; split; [reflexivity|]. rewrite value_bool_const. cbn. f_equal. by apply slt_spec.
  - destruct (concat_spec wa wb va vb Ra Rb) as [E R]. eexists; split; [reflexivity|].
    apply built_bits; [done|]. rewrite E. by apply small_mod.
  - eexists; split; [reflexivity|]. rewrite value_bool_const. cbn. by rewrite modulus_card.
Qed.

End Fold.

(** ** The evaluators, unfolded *)

Section Unfold.
Context `{AyApi}.
Notation esize := AyExpr.size.

(** Two pairs of evaluators agree below an expression. *)
Definition agree (e : Expr) (rb rb' : Expr -> option bool) (rc rc' : Expr -> option Expr) : Prop :=
  forall c, (esize c < esize e)%nat -> rb c = rb' c /\ rc c = rc' c.

Lemma child_size e c : c ∈ subexprs (value e) -> (esize c < esize e)%nat.
Proof. apply sub_size. Qed.

Lemma eval_children_cong rb rb' stop all l :
  (forall c, c ∈ l -> rb c = rb' c) -> eval_children rb stop all l = eval_children rb' stop all l.
Proof.
  revert all. induction l as [|c l IH]; intros all E; cbn; [done|]. rewrite E by left.
  destruct (rb' c) as [b|]; [destruct (Bool.eqb b stop); [done|]|]; apply IH; intros; apply E; by right.
Qed.

Lemma const_array_cong e a b rb rb' rc rc' :
  agree e rb rb' rc rc' -> a ∈ subexprs (value e) -> b ∈ subexprs (value e) ->
  const_array_store_eq_ordered rc a b = const_array_store_eq_ordered rc' a b.
Proof.
  intros A Ha Hb. unfold const_array_store_eq_ordered. apply child_size in Ha, Hb.
  destruct (value a) as [| | |[] v| | | | | | | | | | | | |] eqn:Va; try done.
  destruct (value b) as [| | | | | | | | | |arr i w| | | | | |] eqn:Vb; try done.
  destruct (value arr) as [| | |[] base| | | | | | | | | | | | |] eqn:Vr; try done.
  assert (esize v < esize a)%nat by (apply child_size; rewrite Va; left).
  assert (esize w < esize b)%nat by (apply child_size; rewrite Vb; set_solver).
  destruct (A v) as [_ ->]; [lia|]. destruct (A w) as [_ ->]; [lia|]. done.
Qed.

Lemma bool_node_cong e rb rb' rc rc' :
  agree e rb rb' rc rc' -> bool_node rb rc e = bool_node rb' rc' e.
Proof.
  intros A. assert (C : forall c, c ∈ subexprs (value e) -> rb c = rb' c /\ rc c = rc' c)
    by (intros c Hc; apply A, child_size, Hc).
  unfold bool_node, const_array_store_eq.
  destruct (value e) as [| | |[] a|op a b|a b|l|l| | | | | | | | |] eqn:V; try done; cbn [subexprs] in C.
  - pose proof (C a ltac:(set_solver)) as [-> _]. done.
  - pose proof (C a ltac:(set_solver)) as [_ ->]. pose proof (C b ltac:(set_solver)) as [_ ->]. done.
  - pose proof (C a ltac:(set_solver)) as [-> ->]. pose proof (C b ltac:(set_solver)) as [-> ->].
    rewrite (const_array_cong e a b rb rb' rc rc'), (const_array_cong e b a rb rb' rc rc')
      by (rewrite ?V; cbn; done || set_solver). done.
  - apply eval_children_cong. intros c Hc. by apply C.
  - apply eval_children_cong. intros c Hc. by apply C.
Qed.

Lemma const_node_cong e rb rb' rc rc' sb :
  agree e rb rb' rc rc' -> const_node rb rc sb e = const_node rb' rc' sb e.
Proof.
  intros A. assert (C : forall c, c ∈ subexprs (value e) -> rb c = rb' c /\ rc c = rc' c)
    by (intros c Hc; apply A, child_size, Hc).
  unfold const_node.
  destruct (value e) as [| | |op a|op a b| | | | |c t f| | | | | | |] eqn:V; try done; cbn [subexprs] in C.
  - assert (Ra : rc a = rc' a) by (apply C; left). rewrite Ra.
    destruct op; try done. destruct (value a) as [| | | | | | | | | | | |d k args| | | |] eqn:Va; try done.
    destruct (String.eqb d _); [|done]. destruct (strip_prefix _ _) as [ds|]; [|done]. cbn.
    destruct (Str.parse_usize ds) as [i|]; [|done]. cbn.
    destruct (args !! N.to_nat i) as [x|] eqn:L; [|done]. cbn. apply A.
    apply list_elem_of_lookup_2 in L.
    assert (esize x < esize a)%nat by (apply child_size; by rewrite Va).
    assert (esize a < esize e)%nat by (apply child_size; rewrite V; left). lia.
  - pose proof (C a ltac:(set_solver)) as [_ ->]. pose proof (C b ltac:(set_solver)) as [_ ->]. done.
  - pose proof (C c ltac:(set_solver)) as [-> _]. pose proof (C t ltac:(set_solver)) as [_ ->]. pose proof (C f ltac:(set_solver)) as [_ ->]. done.
Qed.

Lemma eval_bool_S k e : eval_bool_fuel (S k) e = bool_node (eval_bool_fuel k) (eval_const_fuel k) e.
Proof. reflexivity. Qed.
Lemma eval_const_S k e :
  eval_const_fuel (S k) e = const_node (eval_bool_fuel k) (eval_const_fuel k) (eval_bool_fuel k e) e.
Proof. reflexivity. Qed.

Lemma eval_fuel e :
  (forall k k', (2 * esize e < k)%nat -> (2 * esize e < k')%nat ->
     eval_bool_fuel k e = eval_bool_fuel k' e) /\
  (forall k k', (2 * esize e + 1 < k)%nat -> (2 * esize e + 1 < k')%nat ->
     eval_const_fuel k e = eval_const_fuel k' e).
Proof.
  remember (esize e) as n eqn:E. revert e E. induction (lt_wf n) as [n _ IH]. intros e ->.
  assert (A : forall k k', (2 * esize e <= k)%nat -> (2 * esize e <= k')%nat ->
    agree e (eval_bool_fuel k) (eval_bool_fuel k') (eval_const_fuel k) (eval_const_fuel k')).
  { intros k k' Hk Hk' c Hc. destruct (IH (esize c) Hc c eq_refl) as [B C].
    split; [apply B|apply C]; lia. }
  assert (B : forall k k', (2 * esize e < k)%nat -> (2 * esize e < k')%nat ->
    eval_bool_fuel k e = eval_bool_fuel k' e).
  { intros [|k] [|k'] Hk Hk'; [lia..|]. rewrite !eval_bool_S. apply bool_node_cong, A; lia. }
  split; [exact B|]. intros [|k] [|k'] Hk Hk'; [lia..|]. rewrite !eval_const_S.
  rewrite (B k k') by lia. apply const_node_cong, A; lia.
Qed.

Lemma agree_fuel k e :
  (2 * esize e <= k)%nat ->
  agree e (eval_bool_fuel k) try_eval_to_bool (eval_const_fuel k) try_eval_to_const.
Proof.
  intros Hk c Hc. unfold try_eval_to_bool, try_eval_to_const.
  split; apply eval_fuel; lia.
Qed.

Lemma try_eval_to_bool_eq e : try_eval_to_bool e = bool_node try_eval_to_bool try_eval_to_const e.
Proof.
  unfold try_eval_to_bool at 1. rewrite eval_bool_S. apply bool_node_cong, agree_fuel. lia.
Qed.

Lemma try_eval_to_const_eq e :
  try_eval_to_const e = const_node try_eval_to_bool try_eval_to_const (try_eval_to_bool e) e.
Proof.
  unfold try_eval_to_const at 1. rewrite eval_const_S.
  rewrite (const_node_cong e _ try_eval_to_bool _ try_eval_to_const) by (apply agree_fuel; lia).
  reflexivity.
Qed.

End Unfold.

(** ** Soundness *)

(** What the encoder promises: a selector named [fld_N] on a constructor term names
    the field at position [N], and indices are not arrays, so that equal constant
    indices are the same expression. *)
Class Encoder `{AyEval} := {
  fld_positional : forall e d n a d' k args digits i x,
    value e = Unary (DatatypeSelector d n) a -> value a = DatatypeConstructor d' k args ->
    d' = d -> strip_prefix "fld_" n = Some digits -> Str.parse_usize digits = Some i ->
    args !! N.to_nat i = Some x ->
    exists cs fs s, constructors (sort_of a) = Some cs /\ (k, fs) ∈ cs /\ fs !! N.to_nat i = Some (n, s);
  index_const_eq : forall r e a j x i, value e = Store a j x -> is_constant i = true ->
    is_constant j = true -> eval r i = eval r j -> i = j;
}.

Section Sound.
Context `{Encoder}.

(** The constants the evaluators return. *)
Definition is_value (e : Expr) : Prop :=
  match value e with BoolConst _ | Const (BitVecConst _ _) => True | _ => False end.

Lemma is_value_scalar e : is_value e -> is_scalar_value (value e) = true.
Proof. unfold is_value. by destruct (value e) as [| |[]| | | | | | | | | | | | | |]. Qed.

Lemma bitvec_view_spec r e v w :
  bitvec_view e = Some (v, w) ->
  value e = Const (BitVecConst v w) /\ width_ok w /\ in_range w v /\ eval r e = bv w v.
Proof.
  unfold bitvec_view. intros V.
  destruct (value e) as [| |[]| | | | | | | | | | | | | |] eqn:E; try discriminate. injection V as -> ->.
  split; [done|]. by eapply eval_bitvec_const.
Qed.

Lemma fold_sound r e op a b ca cb x :
  admissible r -> value e = Binary op a b -> eval r ca = eval r a -> eval r cb = eval r b ->
  eval_bv_binary_const op ca cb = Some x -> eval r x = eval r e /\ is_value x.
Proof.
  intros Hr Ve Ea Eb F.
  destruct (bitvec_view ca) as [[va wa]|] eqn:Va; [|unfold eval_bv_binary_const in F; by rewrite Va in F].
  destruct (bitvec_view cb) as [[vb wb]|] eqn:Vb;
    [|unfold eval_bv_binary_const in F; rewrite Va in F; cbn in F; by rewrite Vb in F].
  apply (bitvec_view_spec r) in Va as (Va & Wa & Ra & Da), Vb as (Vb & Wb & Rb & Db).
  rewrite Da in Ea. rewrite Db in Eb. symmetry in Ea, Eb.
  pose proof (eval_binary r e op a b wa va wb vb) as Sem.
  assert (D : match smt_binary op wa va wb vb with
              | Some res => (op <> BvConcat -> wa = wb) /\
                  match res with RBool t => eval r e = vbool t | RBits w z => eval r e = bv w z /\ width_ok w end
              | None => True end).
  { destruct (smt_binary op wa va wb vb) as [res|]; [by apply Sem|done]. }
  assert (T : smt_binary op wa va wb vb <> None ->
    match op with BvConcat => width_ok (wa + wb) | _ => wa = wb end).
  { destruct (smt_binary op wa va wb vb) as [res|] eqn:Sm; [|done]. intros _. destruct D as [S D].
    destruct op; try (by apply S). cbn in Sm. injection Sm as <-. apply D. }
  destruct (smt_binary op wa va wb vb) as [res|] eqn:Sm.
  - pose proof (fold_exact op ca cb va wa vb wb Va Vb Wa Ra Rb (T ltac:(done))) as X. rewrite Sm in X.
    destruct (_ && _); [congruence|]. destruct X as (x' & Fx & Vx). rewrite F in Fx. injection Fx as <-.
    destruct D as [_ D]. unfold is_value. rewrite Vx. destruct res as [t|w z]; cbn in Vx |- *.
    + split; [|done]. rewrite D. by apply eval_bool_const.
    + split; [|done]. destruct D as [-> _]. by eapply eval_bitvec_const.
  - exfalso. unfold eval_bv_binary_const, bitvec_view in F. rewrite Va, Vb in F.
    by destruct op; cbn in F, Sm.
Qed.

Lemma lxor_ones w x : in_range w x -> Z.lxor x (Z.shiftl 1 (Z.of_N w) - 1) = bvnot w x.
Proof.
  unfold in_range, bvnot, card. intros R. rewrite Z.shiftl_1_l.
  replace (2 ^ Z.of_N w - 1)%Z with (Z.ones (Z.of_N w)) by (rewrite Z.ones_equiv; lia).
  assert (E : (Z.lxor x (Z.ones (Z.of_N w)) + x = Z.ones (Z.of_N w))%Z).
  { rewrite Z.add_nocarry_lxor.
    - by rewrite Z.lxor_comm, <- Z.lxor_assoc, Z.lxor_nilpotent, Z.lxor_0_l.
    - apply Z.bits_inj'. intros n Hn. rewrite Z.land_spec, Z.lxor_spec, Z.bits_0.
      destruct (Z.lt_ge_cases n (Z.of_N w)).
      + rewrite Z.ones_spec_low by lia. by destruct (Z.testbit x n).
      + rewrite Z.ones_spec_high by lia. destruct (Z.eq_dec x 0) as [->|]; [by rewrite Z.bits_0|].
        rewrite (Z.bits_above_log2 x); [done|lia|].
        assert (Z.log2 x < Z.of_N w)%Z by (apply Z.log2_lt_pow2; lia). lia. }
  lia.
Qed.

Lemma extract_spec high low x :
  (0 <= x)%Z ->
  Z.land (Z.shiftr x (Z.of_N low)) (Z.shiftl 1 (Z.of_N (high - low + 1)) - 1) = bvextract high low x.
Proof.
  intros P. unfold bvextract. rewrite Z.shiftl_1_l, Z.shiftr_div_pow2 by lia.
  replace (2 ^ Z.of_N (high - low + 1) - 1)%Z with (Z.ones (Z.of_N (high - low + 1)))
    by (rewrite Z.ones_equiv; lia).
  apply Z.land_ones. lia.
Qed.

Lemma bvnot_range w x : in_range w x -> in_range w (bvnot w x).
Proof. unfold in_range, bvnot. lia. Qed.

Lemma sign_extend_spec w k x :
  (0 < w)%N -> in_range w x -> (bitvec_to_signed x w mod card (w + k))%Z = sign_extend w k x.
Proof.
  intros W R. rewrite to_signed_spec by done. unfold sign_extend, in_range in *.
  assert (L : (card w <= card (w + k))%Z) by (apply Z.pow_le_mono_r; lia).
  fold (card (w + k)). destruct (msb w x).
  - replace (x - card w)%Z with (x + (card (w + k) - card w) + (-1) * card (w + k))%Z by lia.
    rewrite Z.mod_add by lia. apply Z.mod_small. lia.
  - apply Z.mod_small. lia.
Qed.

(** The operators with one operand. *)
Lemma unary_sound r e op a ci x :
  admissible r -> value e = Unary op a -> eval r ci = eval r a -> unary_const op ci = Some x ->
  eval r x = eval r e /\ is_value x.
Proof.
  intros Hr Ve Ea F. unfold unary_const in F.
  destruct (bitvec_view ci) as [[v w]|] eqn:Vc; [|discriminate]. cbn in F.
  apply (bitvec_view_spec r) in Vc as (Vc & W & R & D). rewrite D in Ea. symmetry in Ea.
  assert (Sem : forall w' x', smt_unary op w v = Some (w', x') -> eval r e = bv w' x' /\ width_ok w')
    by (intros w' x'; by apply (eval_unary r e op a w v)).
  assert (Fin : forall w' z x', smt_unary op w v = Some (w', x') -> x = bitvec_const z w' ->
    (z mod card w')%Z = x' -> eval r x = eval r e /\ is_value x).
  { intros w' z x' S -> M. destruct (Sem w' x' S) as [-> Wk].
    split; [by rewrite eval_built_bits, M|]. unfold is_value. by rewrite value_bitvec_const. }
  pose proof (width_pos w W).
  destruct op; try discriminate.
  - injection F as <-. eapply Fin; [reflexivity..|]. rewrite modulus_card. unfold in_range in R.
    rewrite Z.rem_mod_nonneg by lia. unfold bvneg. apply Z.mod_mod. lia.
  - injection F as <-. eapply Fin; [reflexivity..|]. rewrite lxor_ones by done.
    by apply small_mod, bvnot_range.
  - injection F as <-. eapply Fin; [reflexivity..|]. apply Z.mod_small. unfold in_range in R.
    assert (card w <= card (w + extra_bits))%Z by (apply Z.pow_le_mono_r; lia). lia.
  - injection F as <-. eapply Fin; [reflexivity..|]. by apply sign_extend_spec.
  - destruct (_ && _) eqn:B; [|discriminate]. injection F as <-.
    eapply Fin; [cbn; rewrite B; reflexivity|reflexivity|]. rewrite extract_spec by apply R.
    unfold bvextract. apply Z.mod_mod. unfold card.
    assert (0 < 2 ^ Z.of_N (high - low + 1))%Z by (apply Z.pow_pos_nonneg; lia). lia.
Qed.

(** An evaluator of truth values, and one of constants, that are right on [e]. *)
Definition bool_sound (r : string -> val) (rb : Expr -> option bool) (e : Expr) : Prop :=
  forall b, rb e = Some b -> eval r e = vbool b.
Definition const_sound (r : string -> val) (rc : Expr -> option Expr) (e : Expr) : Prop :=
  forall c, rc e = Some c -> eval r c = eval r e /\ is_value c.

Lemma eval_children_sound r rb stop all l bs t :
  (forall c, c ∈ l -> bool_sound r rb c) -> map (eval r) l = map vbool bs ->
  eval_children rb stop all l = Some t ->
  (t = stop /\ stop ∈ bs) \/ (t = negb stop /\ all = true /\ forall b, b ∈ bs -> b = negb stop).
Proof.
  revert all bs. induction l as [|c l IH]; intros all [|b bs] S M E; try discriminate; cbn in E.
  - destruct all; [|discriminate]. injection E as <-. right. split_and!; [done..|].
    intros b Hb. by apply elem_of_nil in Hb.
  - injection M as Mc M.
    assert (S' : forall c, c ∈ l -> bool_sound r rb c) by (intros; apply S; by right).
    destruct (rb c) as [b'|] eqn:Rc.
    + pose proof (S c ltac:(left) b' Rc) as Ec. rewrite Mc in Ec. apply vbool_inj in Ec as <-.
      destruct (Bool.eqb_spec b stop) as [->|Ne].
      * injection E as <-. left. split; [done|left].
      * destruct (IH all bs S' M E) as [[-> Hs]|(-> & -> & F)]; [left; split; [done|by right]|right].
        split_and!; [done..|]. intros b' [->|Hb]%elem_of_cons; [by destruct b, stop|by apply F].
    + destruct (IH false bs S' M E) as [[-> Hs]|(_ & ? & _)]; [left; split; [done|by right]|discriminate].
Qed.

Lemma eq_sound r e a b t v :
  value e = Eq a b -> (eval r a = eval r b <-> v = true) -> eval r e = vbool t -> t = v.
Proof.
  intros V I E. pose proof (eval_eq_iff r e a b t V E) as X. rewrite I in X.
  destruct t, v; naive_solver.
Qed.

Lemma const_array_sound r rc e a b v :
  admissible r -> value e = Eq a b \/ value e = Eq b a ->
  (forall c, (AyExpr.size c < AyExpr.size e)%nat -> const_sound r rc c) ->
  const_array_store_eq_ordered rc a b = Some v -> (eval r a = eval r b <-> v = true).
Proof.
  intros Hr Ve S F. unfold const_array_store_eq_ordered in F.
  destruct (value a) as [| | |[] x| | | | | | | | | | | | |] eqn:Va; try discriminate.
  destruct (value b) as [| | | | | | | | | |arr i w| | | | | |] eqn:Vb; try discriminate.
  destruct (value arr) as [| | |[] base| | | | | | | | | | | | |] eqn:Vr; try discriminate.
  destruct (decide (base = x)) as [->|]; [|discriminate].
  pose proof (eq_const_store r e a b arr _ _ i x w Ve Va Vb Vr) as Ea.
  pose proof (vselect_const r a _ x (eval r i) Hr Va) as Sa.
  destruct (vselect_store r b arr i w (eval r i) Hr Vb) as [Sb _]. specialize (Sb eq_refl).
  assert (I : eval r a = eval r b <-> eval r x = eval r w).
  { split; intros E.
    - by rewrite <- Sa, <- Sb, E.
    - rewrite (store_same r b arr i w Hr Vb); [done|]. by rewrite <- E, <- Sa, Ea. }
  rewrite I. destruct (decide (w = x)) as [->|]; [by injection F as <-|].
  assert (Sz : (AyExpr.size x < AyExpr.size e)%nat /\ (AyExpr.size w < AyExpr.size e)%nat).
  { assert (AyExpr.size x < AyExpr.size a)%nat by (apply child_size; rewrite Va; left).
    assert (AyExpr.size w < AyExpr.size b)%nat by (apply child_size; rewrite Vb; set_solver).
    assert (AyExpr.size a < AyExpr.size e)%nat by (apply child_size; destruct Ve as [-> | ->]; set_solver).
    assert (AyExpr.size b < AyExpr.size e)%nat by (apply child_size; destruct Ve as [-> | ->]; set_solver).
    lia. }
  destruct (rc x) as [cx|] eqn:Cx; [|discriminate]. destruct (rc w) as [cw|] eqn:Cw; [|discriminate].
  injection F as <-. destruct (S x (proj1 Sz) cx Cx) as [<- Kx], (S w (proj2 Sz) cw Cw) as [<- Kw].
  rewrite bool_decide_eq_true. split; [|by intros ->].
  apply scalar_const_eq; by apply is_value_scalar.
Qed.

Lemma bool_node_sound r rb rc e :
  admissible r ->
  (forall c, (AyExpr.size c < AyExpr.size e)%nat -> bool_sound r rb c /\ const_sound r rc c) ->
  forall b, bool_node rb rc e = Some b -> eval r e = vbool b.
Proof.
  intros Hr S b F. unfold bool_node in F.
  assert (C : forall c, c ∈ subexprs (value e) -> bool_sound r rb c /\ const_sound r rc c)
    by (intros c Hc; apply S, child_size, Hc).
  destruct (value e) as [|bc| |[] a|op a c|a c|l|l| | | | | | | | |] eqn:V; try discriminate;
    cbn [subexprs] in C.
  - injection F as <-. by apply eval_bool_const.
  - destruct (rb a) as [b'|] eqn:Ra; [|discriminate]. injection F as <-.
    destruct (eval_not r e a Hr V) as (t & Ea & ->).
    destruct (C a ltac:(set_solver)) as [Sa _]. rewrite (Sa b' Ra) in Ea.
    by apply vbool_inj in Ea as ->.
  - destruct (is_bool_op op) eqn:Op; [|discriminate].
    destruct (rc a) as [ca|] eqn:Ca; [|discriminate]. destruct (rc c) as [cc|] eqn:Cc; [|discriminate].
    cbn in F. destruct (eval_bv_binary_const op ca cc) as [x|] eqn:Fx; [|discriminate]. cbn in F.
    destruct (C a ltac:(set_solver)) as [_ Sa], (C c ltac:(set_solver)) as [_ Sc].
    destruct (fold_sound r e op a c ca cc x Hr V) as [<- _]; [by apply Sa|by apply Sc|done|].
    destruct (value x) eqn:Vx; try discriminate. injection F as <-. by apply eval_bool_const.
  - destruct (eval_eq_bool r e a c V) as [t Et]. rewrite Et. f_equal.
    apply (eq_sound r e a c t b V); [|done]. clear t Et.
    destruct (decide (a = c)) as [->|]; [by injection F as <-|].
    destruct (C a ltac:(set_solver)) as [Ba Sa], (C c ltac:(set_solver)) as [Bc Sc].
    assert (G : (match const_array_store_eq rc a c with
                 | Some v => Some v
                 | None => ca ← rc a; cb ← rc c; Some (bool_decide (ca = cb)) end) = Some b ->
                (eval r a = eval r c <-> b = true)).
    { unfold const_array_store_eq. intros G.
      destruct (const_array_store_eq_ordered rc a c) as [v|] eqn:O1.
      { injection G as <-. eapply const_array_sound; [done|by left| |done]. intros; by apply S. }
      destruct (const_array_store_eq_ordered rc c a) as [v|] eqn:O2.
      { injection G as <-. rewrite (symmetry_iff (=)).
        eapply const_array_sound; [done|by right| |done]. intros; by apply S. }
      destruct (rc a) as [ca|] eqn:Ca; [|discriminate]. destruct (rc c) as [cc|] eqn:Cc; [|discriminate].
      injection G as <-. destruct (Sa ca Ca) as [<- Ka], (Sc cc Cc) as [<- Kc].
      rewrite bool_decide_eq_true. split; [|by intros ->].
      apply scalar_const_eq; by apply is_value_scalar. }
    destruct (rb a) as [x|] eqn:Ra; [|by apply G]. destruct (rb c) as [y|] eqn:Rc; [|by apply G].
    injection F as <-. rewrite (Ba x Ra), (Bc y Rc). rewrite Bool.eqb_true_iff.
    split; [apply vbool_inj|by intros ->].
  - destruct (eval_and_bool r e l Hr V) as (bs & M & ->). f_equal.
    destruct (eval_children_sound r rb false true l bs b) as [[-> I]|(-> & _ & A)];
      [intros c Hc; by apply C|done..| |].
    + apply not_true_is_false. rewrite forallb_forall. intros X.
      specialize (X false ltac:(by apply list_elem_of_In)). discriminate.
    + apply forallb_forall. intros x Hx. by apply A, list_elem_of_In.
  - destruct (eval_or_bool r e l Hr V) as (bs & M & ->). f_equal.
    destruct (eval_children_sound r rb true true l bs b) as [[-> I]|(-> & _ & A)];
      [intros c Hc; by apply C|done..| |].
    + apply existsb_exists. exists true. by rewrite <- list_elem_of_In.
    + apply not_true_is_false. rewrite existsb_exists. intros (x & Hx & T).
      by rewrite (A x) in T by by apply list_elem_of_In.
Qed.

Lemma const_node_sound r rb rc sb e :
  admissible r -> (forall b, sb = Some b -> eval r e = vbool b) ->
  (forall c, (AyExpr.size c < AyExpr.size e)%nat -> bool_sound r rb c /\ const_sound r rc c) ->
  forall x, const_node rb rc sb e = Some x -> eval r x = eval r e /\ is_value x.
Proof.
  intros Hr Sb S x F. unfold const_node in F.
  assert (C : forall c, c ∈ subexprs (value e) -> bool_sound r rb c /\ const_sound r rc c)
    by (intros c Hc; apply S, child_size, Hc).
  assert (G : bool_const <$> sb = Some x -> eval r x = eval r e /\ is_value x).
  { destruct sb as [b|]; [|done]. intros [= <-]. rewrite (Sb b eq_refl). split; [apply eval_built_bool|].
    unfold is_value. by rewrite value_bool_const. }
  destruct (value e) as [|bc|k|op a|op a c| | | | |c t f| | | | | | |] eqn:V; try discriminate;
    try (by apply G); cbn [subexprs] in C.
  - injection F as <-. split; [done|]. unfold is_value. by rewrite V.
  - destruct k; try discriminate. injection F as <-. split; [done|]. unfold is_value. by rewrite V.
  - destruct (C a ltac:(set_solver)) as [_ Sa].
    assert (U : (ci ← rc a; unary_const op ci) = Some x -> eval r x = eval r e /\ is_value x).
    { destruct (rc a) as [ca|] eqn:Ca; [|discriminate]. cbn. apply unary_sound with a; [done..|].
      by apply Sa. }
    destruct op; try discriminate; try (by apply G); try (by apply U).
    destruct (value a) as [| | | | | | | | | | | |d k args| | | |] eqn:Va; try discriminate.
    destruct (String.eqb_spec d datatype_name) as [->|]; [|discriminate].
    destruct (strip_prefix "fld_" selector_name) as [ds|] eqn:Sp; [|discriminate]. cbn in F.
    destruct (Str.parse_usize ds) as [i|] eqn:Pi; [|discriminate]. cbn in F.
    destruct (args !! N.to_nat i) as [y|] eqn:L; [|discriminate]. cbn in F.
    destruct (fld_positional e _ _ a _ k args ds i y V Va eq_refl Sp Pi L) as (cs & fs & s & Hc & Hk & Hf).
    rewrite (eval_field r e _ _ a a _ k args cs fs (N.to_nat i) s y Hr V eq_refl Va Hc Hk Hf L).
    assert (Sz : (AyExpr.size y < AyExpr.size e)%nat).
    { assert (AyExpr.size y < AyExpr.size a)%nat
        by (apply child_size; rewrite Va; cbn; by eapply list_elem_of_lookup_2).
      assert (AyExpr.size a < AyExpr.size e)%nat by (apply child_size; rewrite V; left). lia. }
    by apply (S y Sz).
  - destruct (is_bits_op op) eqn:Op.
    + destruct (rc a) as [ca|] eqn:Ca; [|discriminate]. destruct (rc c) as [cc|] eqn:Cc; [|discriminate].
      cbn in F. destruct (C a ltac:(set_solver)) as [_ Sa], (C c ltac:(set_solver)) as [_ Sc].
      apply (fold_sound r e op a c ca cc x Hr V); [by apply Sa|by apply Sc|done].
    + destruct (is_bool_op op); [by apply G|discriminate].
  - destruct (eval_ite r e c t f Hr V) as (b & Ec & Ee).
    destruct (rb c) as [b'|] eqn:Rc; [|discriminate]. cbn in F.
    destruct (C c ltac:(set_solver)) as [Bc _]. rewrite (Bc b' Rc) in Ec. apply vbool_inj in Ec as ->.
    rewrite Ee. destruct b; [apply (C t)|apply (C f)]; set_solver.
Qed.

Lemma eval_sound e : forall r, admissible r ->
  bool_sound r try_eval_to_bool e /\ const_sound r try_eval_to_const e.
Proof.
  remember (AyExpr.size e) as n eqn:E. revert e E. induction (lt_wf n) as [n _ IH]. intros e -> r Hr.
  assert (S : forall c, (AyExpr.size c < AyExpr.size e)%nat ->
    bool_sound r try_eval_to_bool c /\ const_sound r try_eval_to_const c).
  { intros c Hc. by apply (IH (AyExpr.size c) Hc c eq_refl). }
  assert (B : bool_sound r try_eval_to_bool e).
  { intros b. rewrite try_eval_to_bool_eq. by apply bool_node_sound. }
  split; [exact B|]. intros x. rewrite try_eval_to_const_eq. by apply const_node_sound.
Qed.

End Sound.

End ConstEvalSpec.
