(* ===== verification/ConstSubst.v ===== *)
(** * Substitution of constants

    trust-mc-core/src/chc_const_prop_subst.rs: [substitute_vars] replaces variables
    by the constants they are known to have and folds what that makes constant.
    It never changes what an expression means under a valuation that gives the
    variables those constants. *)

From S2P Require Import Prelude AyExpr Chc Text BvArith AyBuild ConstEval ConstEvalSpec.

Module ConstSubst.
Import BvArith AyBuild ConstEval ConstEvalSpec.

Section Subst.
Context `{AyApi}.

Abbreviation known_map := (gmap string Expr).

(** The operators of [substitute_vars_bv_binary] *)
Definition is_bv_binary (op : binary) : bool :=
  is_bits_op op || is_bool_op op ||
  match op with
  | BvAddNoOverflowSigned | BvSubNoOverflowSigned | BvMulNoOverflowUnsigned | BvMulNoOverflowSigned
  | BvSdivNoOverflow => true
  | _ => false
  end.

(** The operators with one operand that are rebuilt without folding *)
Definition is_plain_unary (op : unary Sort) : bool :=
  match op with
  | BvNeg | BvNot | IntNeg | RealNeg | BvNegNoOverflow | IntToReal | RealToInt | IsInt | Bv2Int
  | Int2Bv _ | BvZeroExtend _ | BvSignExtend _ | ConstArray _ => true
  | _ => false
  end.

(** The [Not] arm *)
Definition fold_not (inner : Expr) : Expr :=
  match value inner with
  | BoolConst b => bool_const (negb b)
  | _ => match try_eval_to_bool inner with
         | Some b => bool_const (negb b)
         | None => mk_unary Not inner
         end
  end.

(** The [BvExtract] arm *)
Definition fold_extract (e : Expr) (high low : N) (inner : Expr) : Expr :=
  match value inner with
  | Const (BitVecConst v _) =>
      match bitvec_width (sort_of inner) with
      | Some width =>
          if ((low <=? high) && (high <? width))%N then
            let result_width := (high - low + 1)%N in
            let mask := (Z.shiftl 1 (Z.of_N result_width) - 1)%Z in
            bitvec_const (Z.land (Z.shiftr v (Z.of_N low)) mask) result_width
          else e
      | None => e
      end
  | _ =>
      match bitvec_width (sort_of inner) with
      | Some width =>
          if ((high <? low) || (width <=? high))%N then e else mk_unary (BvExtract high low) inner
      | None => e
      end
  end.

(** The [Eq] and [Ite] arms *)
Definition fold_eq (new_a new_b : Expr) : Expr :=
  if is_scalar_constant new_a && is_scalar_constant new_b then bool_const (bool_decide (new_a = new_b))
  else if decide (new_a = new_b) then bool_const true
  else mk_eq new_a new_b.
Definition fold_ite (new_cond new_then new_else : Expr) : Expr :=
  match value new_cond with
  | BoolConst true => new_then
  | BoolConst false => new_else
  | _ =>
      if decide (new_then = new_else) then new_then
      else
        match try_eval_to_bool new_cond with
        | Some true => new_then
        | Some false => new_else
        | None => ite new_cond new_then new_else
        end
  end.

(** The loops of [fold_and] and [fold_or] over substituted operands: [None] when
    [stop] decides, the operands that are left otherwise. *)
Fixpoint fold_many (stop : bool) (subs : list Expr) : option (list Expr) :=
  match subs with
  | [] => Some []
  | sub :: rest =>
      match value sub with
      | BoolConst b => if Bool.eqb b stop then None else fold_many stop rest
      | _ =>
          match try_eval_to_bool sub with
          | Some b => if Bool.eqb b stop then None else fold_many stop rest
          | None => filtered ← fold_many stop rest; Some (sub :: filtered)
          end
      end
  end.
Definition fold_and (subs : list Expr) : Expr :=
  match fold_many false subs with
  | None => bool_const false
  | Some [] => bool_const true
  | Some [e] => e
  | Some filtered => and_many filtered
  end.
Definition fold_or (subs : list Expr) : Expr :=
  match fold_many true subs with
  | None => bool_const true
  | Some [] => bool_const false
  | Some [e] => e
  | Some filtered => or_many filtered
  end.

(** [fold_select]; [array] and [index] are the operands before substitution. *)
Definition fold_select (array index new_array new_index : Expr) : Expr :=
  if decide (sort_of new_array = sort_of array /\ sort_of new_index = sort_of index) then
    match value new_array with
    | Unary (ConstArray _) v => v
    | _ =>
        match eval_select_store_const new_array new_index with
        | Some result => result
        | None => mk_select new_array new_index
        end
    end
  else mk_select array index.

(** [fold_store]; [v] is the value before substitution. *)
Definition store_noop (new_array new_index new_value : Expr) : bool :=
  match value new_array with
  | Unary (ConstArray _) arr_val => bool_decide (arr_val = new_value)
  | _ => false
  end ||
  match value new_value with
  | Binary Select selected_array selected_index =>
      bool_decide (selected_array = new_array) && bool_decide (selected_index = new_index)
  | _ => false
  end.
Definition fold_store (v new_array new_index new_value : Expr) : Expr :=
  if store_noop new_array new_index new_value then new_array
  else
    let ill_sorted :=
      match array_sort (sort_of new_array) with
      | Some (_, element_sort) => negb (bool_decide (element_sort = sort_of new_value))
      | None => false
      end in
    if ill_sorted then mk_store new_array new_index v
    else
      match value new_array with
      | Store inner_array inner_index _ =>
          if decide (inner_index = new_index) then mk_store inner_array new_index new_value
          else mk_store new_array new_index new_value
      | _ => mk_store new_array new_index new_value
      end.

(** The constructor [constructor_name] of a datatype sort *)
Definition find_constructor (s : Sort) (constructor_name : string)
    : option (string * list (string * Sort)) :=
  cs ← constructors s; List.find (fun ctor => String.eqb ctor.1 constructor_name) cs.

(** [fold_dt_constructor] *)
Definition adjust (original_new : Expr * Expr) (field : string * Sort) : Expr :=
  if decide (sort_of original_new.2 = field.2) then original_new.2 else original_new.1.
Definition fold_dt_constructor (e : Expr) (datatype_name constructor_name : string)
    (args new_args : list Expr) : Expr :=
  match find_constructor (sort_of e) constructor_name with
  | Some (_, fields) =>
      if negb (Nat.eqb (length fields) (length args)) then e
      else
        let adjusted_args := zip_with adjust (zip args new_args) fields in
        if decide (adjusted_args = args) then e
        else datatype_constructor datatype_name constructor_name adjusted_args (sort_of e)
  | None => e
  end.

(** [fold_dt_selector] *)
Fixpoint position (n : string) (fields : list (string * Sort)) : option nat :=
  match fields with
  | [] => None
  | f :: rest => if String.eqb f.1 n then Some O else S <$> position n rest
  end.
Definition fold_dt_selector (e : Expr) (datatype_name selector_name : string) (inner : Expr) : Expr :=
  let reduced :=
    match value inner with
    | DatatypeConstructor _ ctor_name args =>
        ctor ← find_constructor (sort_of inner) ctor_name;
        idx ← position selector_name ctor.2;
        args !! idx
    | _ => None
    end in
  match reduced with
  | Some arg => arg
  | None => default e (try_field_select inner datatype_name selector_name (sort_of e))
  end.

(** [filter_bound_vars] *)
Definition filter_bound_vars (known : known_map) (vars : list (string * Sort)) : known_map :=
  foldl (fun k v => delete v.1 k) known vars.

(** One level of [substitute_vars_inner] *)
Definition subst_node (rec : known_map -> Expr -> Expr) (known : known_map) (e : Expr) : Expr :=
  let generic :=
    if is_known_variant e then rebuild_with_children e (map (rec known) (children e)) else e in
  match value e with
  | Var name => default e (known !! name)
  | BoolConst _ | Const (BitVecConst _ _) | Const (IntConst _) | Const RealConst => e
  | Unary Not a => fold_not (rec known a)
  | Unary (BvExtract high low) a => fold_extract e high low (rec known a)
  | Unary (DatatypeSelector d n) a => fold_dt_selector e d n (rec known a)
  | Unary (DatatypeTester d k) a => default e (try_is_constructor (rec known a) d k)
  | Unary op a => if is_plain_unary op then mk_unary op (rec known a) else generic
  | Binary Select array index => fold_select array index (rec known array) (rec known index)
  | Binary op a b =>
      if is_bv_binary op then
        let new_a := rec known a in
        let new_b := rec known b in
        match eval_bv_binary_const op new_a new_b with
        | Some folded => folded
        | None => rebuild_with_children e [new_a; new_b]
        end
      else generic
  | Eq a b => fold_eq (rec known a) (rec known b)
  | And es => fold_and (map (rec known) es)
  | Or es => fold_or (map (rec known) es)
  | Distinct es => distinct (map (rec known) es)
  | Ite c t f => fold_ite (rec known c) (rec known t) (rec known f)
  | Store array index v => fold_store v (rec known array) (rec known index) (rec known v)
  | DatatypeConstructor d k args => fold_dt_constructor e d k args (map (rec known) args)
  | FuncApp n args => func_app_with_sort n (map (rec known) args) (sort_of e)
  | Forall vars body triggers =>
      let filtered := filter_bound_vars known vars in
      forall_with_triggers vars (rec filtered body) (map (map (rec filtered)) triggers)
  | Exists vars body triggers =>
      let filtered := filter_bound_vars known vars in
      exists_with_triggers vars (rec filtered body) (map (map (rec filtered)) triggers)
  | _ => generic
  end.

Fixpoint subst_fuel (fuel : nat) (known : known_map) (e : Expr) : Expr :=
  match fuel with O => e | S fuel' => subst_node (subst_fuel fuel') known e end.

(** [substitute_vars_inner], [substitute_vars] *)
Definition substitute_vars_inner (known : known_map) (e : Expr) : Expr :=
  subst_fuel (S (AyExpr.size e)) known e.
Definition substitute_vars (e : Expr) (known : known_map) : Expr :=
  if decide (known = ∅) then e else substitute_vars_inner known e.

End Subst.

End ConstSubst.

(** * Correctness of the substitution

    Under an admissible valuation that gives the known variables their constants,
    an expression and its substitution have the same value. *)

Module ConstSubstSpec.
Import BvArith AyBuild ConstEval ConstEvalSpec ConstSubst.

(** ** Constants *)

Section Constants.
Context `{AyApi}.

Lemma constant_node_cong v (g h : Expr -> bool) :
  (forall c, c ∈ subexprs v -> g c = h c) -> constant_node v g = constant_node v h.
Proof.
  intros E. unfold constant_node. destruct v as [| | |[] x| | | | | | |a i x| | | | | |]; try done; cbn in *.
  - by rewrite E by set_solver.
  - by rewrite !E by set_solver.
Qed.

Lemma is_constant_eq e : is_constant e = constant_node (value e) is_constant.
Proof.
  unfold is_constant at 1. cbn [fold_expr]. apply constant_node_cong. intros c Hc.
  pose proof (sub_size e c Hc). apply fold_expr_fuel; [apply constant_node_cong|lia..].
Qed.

(** A constant has no variables. *)
Lemma constant_closed e n : is_constant e = true -> ~ occurs n e.
Proof.
  induction e as [e IH] using size_ind. rewrite is_constant_eq. unfold constant_node.
  intros [S|C]%orb_true_iff; [by apply scalar_no_vars|]. unfold children in IH.
  intros O. inversion O as [e' V|e' c Hc Oc]; subst; [by rewrite V in C|]. unfold children in Hc.
  destruct (value e) as [| | |[] x| | | | | | |a i x| | | | | |]; try discriminate; cbn in *.
  - apply list_elem_of_singleton in Hc as ->. apply (IH x); [left|done..].
  - rewrite !andb_true_iff in C. destruct C as [[Ca Ci] Cx]. apply (IH c Hc); [|done].
    repeat (apply elem_of_cons in Hc as [->|Hc]; [done|]). by apply elem_of_nil in Hc.
Qed.

End Constants.

Section Sound.
Context `{Encoder}.

Lemma constant_eval r r' e : is_constant e = true -> eval r e = eval r' e.
Proof. intros C. apply eval_ext. intros n O. by apply constant_closed with (n := n) in C. Qed.

(** The map holds constants, which the valuation gives to its variables. *)
Definition known_ok (r : string -> val) (known : gmap string Expr) : Prop :=
  forall n c, known !! n = Some c -> is_constant c = true /\ r n = eval r c.

Lemma select_store_sound r fuel : forall a i x,
  admissible r -> select_store fuel a i = Some x -> vselect (eval r a) (eval r i) = eval r x.
Proof.
  induction fuel as [|fuel IH]; intros a i x Hr F; [discriminate|]. cbn [select_store] in F.
  destruct (value a) as [| | | | | | | | | |b j y| | | | | |] eqn:V; try discriminate.
  destruct (vselect_store r a b j y (eval r i) Hr V) as [Same Diff].
  destruct (decide (i = j)) as [->|N]; [injection F as <-; by apply Same|].
  destruct (is_constant i && is_constant j) eqn:C; [|discriminate].
  apply andb_true_iff in C as [Ci Cj]. rewrite Diff; [by apply IH|].
  intros E. apply N. by eapply index_const_eq.
Qed.

Lemma scalar_eval_inj r a b :
  is_scalar_constant a = true -> is_scalar_constant b = true -> eval r a = eval r b <-> a = b.
Proof. intros A B. split; [by apply scalar_const_eq|by intros ->]. Qed.

(** ** The folds *)

Lemma fold_not_sound r e a inner :
  admissible r -> value e = Unary Not a -> eval r inner = eval r a -> eval r (fold_not inner) = eval r e.
Proof.
  intros Hr V E. destruct (eval_not r e a Hr V) as (b & Ea & ->). rewrite <- E in Ea. unfold fold_not.
  assert (D : eval r (match try_eval_to_bool inner with
                      | Some b => bool_const (negb b) | None => mk_unary Not inner end) = vbool (negb b)).
  { destruct (try_eval_to_bool inner) as [t|] eqn:T; [|by apply eval_mk_not].
    destruct (eval_sound inner r Hr) as [Bs _]. rewrite (Bs t T) in Ea. apply vbool_inj in Ea as ->.
    apply eval_built_bool. }
  destruct (value inner) eqn:Vi; try exact D.
  rewrite (eval_bool_const r inner _ Vi) in Ea. apply vbool_inj in Ea as ->. apply eval_built_bool.
Qed.

Lemma fold_extract_sound r e high low a inner :
  admissible r -> value e = Unary (BvExtract high low) a -> eval r inner = eval r a ->
  eval r (fold_extract e high low inner) = eval r e.
Proof.
  intros Hr V E. unfold fold_extract.
  assert (D : eval r (match bitvec_width (sort_of inner) with
      | Some width => if ((high <? low) || (width <=? high))%N then e else mk_unary (BvExtract high low) inner
      | None => e end) = eval r e).
  { destruct (bitvec_width (sort_of inner)); [|done]. destruct (_ || _); [done|].
    by apply mk_unary_same with a. }
  destruct (value inner) as [| |[v w| | | | | | |]| | | | | | | | | | | | | |] eqn:Vi; try exact D.
  rewrite (sort_of_bitvec inner v w Vi).
  destruct ((low <=? high) && (high <? w))%N eqn:B; [|done].
  assert (U : unary_const (BvExtract high low) inner =
    Some (bitvec_const (Z.land (Z.shiftr v (Z.of_N low)) (Z.shiftl 1 (Z.of_N (high - low + 1)) - 1))
            (high - low + 1))).
  { unfold unary_const, bitvec_view. rewrite Vi. cbn. by rewrite B. }
  by apply (unary_sound r e _ a inner) in U as [U _].
Qed.

Lemma fold_eq_sound r e a b a' b' :
  value e = Eq a b -> eval r a' = eval r a -> eval r b' = eval r b -> eval r (fold_eq a' b') = eval r e.
Proof.
  intros V Ea Eb. destruct (eval_eq_bool r e a b V) as [t Et]. rewrite Et.
  pose proof (eval_eq_iff r e a b t V Et) as I. rewrite <- Ea, <- Eb in I.
  assert (X : forall x, (x = true <-> eval r a' = eval r b') -> x = t)
    by (intros x Hx; rewrite <- I in Hx; destruct x, t; naive_solver).
  unfold fold_eq. destruct (_ && _) eqn:S.
  - apply andb_true_iff in S as [Sa Sb]. rewrite eval_built_bool. f_equal. apply X.
    rewrite bool_decide_eq_true. symmetry. by apply scalar_eval_inj.
  - destruct (decide (a' = b')) as [->|].
    + rewrite eval_built_bool. f_equal. by apply X.
    + destruct (eval_mk_eq r a' b') as (x & -> & Hx). f_equal. by apply X.
Qed.

Lemma fold_ite_sound r e c t f c' t' f' :
  admissible r -> value e = Ite c t f -> eval r c' = eval r c -> eval r t' = eval r t ->
  eval r f' = eval r f -> eval r (fold_ite c' t' f') = eval r e.
Proof.
  intros Hr V Ec Et Ef. destruct (eval_ite r e c t f Hr V) as (b & Eb & Ee). rewrite <- Ec in Eb.
  assert (D : eval r (if decide (t' = f') then t' else match try_eval_to_bool c' with
      | Some true => t' | Some false => f' | None => ite c' t' f' end) = eval r e).
  { destruct (decide (t' = f')) as [->|]; [rewrite Ee; destruct b; congruence|].
    destruct (try_eval_to_bool c') as [x|] eqn:T.
    - destruct (eval_sound c' r Hr) as [Bs _]. rewrite (Bs x T) in Eb. apply vbool_inj in Eb as ->.
      rewrite Ee. by destruct b.
    - by eapply ite_same. }
  unfold fold_ite. destruct (value c') as [|x| | | | | | | | | | | | | | |] eqn:Vc; try exact D.
  rewrite (eval_bool_const r c' x Vc) in Eb. apply vbool_inj in Eb as ->. rewrite Ee. by destruct b.
Qed.

(** What the loops keep of the truth values of the operands. *)
Lemma fold_many_sound r stop l bs :
  admissible r -> map (eval r) l = map vbool bs ->
  match fold_many stop l with
  | None => stop ∈ bs
  | Some fs => exists bs', map (eval r) fs = map vbool bs' /\ (stop ∈ bs <-> stop ∈ bs')
  end.
Proof.
  intros Hr. revert bs. induction l as [|c l IH]; intros [|b bs] M; try discriminate.
  { by exists []. }
  injection M as Mc M. specialize (IH bs M). cbn [fold_many].
  assert (K : forall t, eval r c = vbool t ->
    match (if Bool.eqb t stop then None else fold_many stop l) with
    | None => stop ∈ b :: bs
    | Some fs => exists bs', map (eval r) fs = map vbool bs' /\ (stop ∈ b :: bs <-> stop ∈ bs')
    end).
  { intros t Ec. rewrite Mc in Ec. apply vbool_inj in Ec as ->.
    destruct (Bool.eqb_spec t stop) as [->|N]; [left|].
    destruct (fold_many stop l) as [fs|]; [|by right]. destruct IH as (bs' & Mf & I). exists bs'.
    split; [done|]. rewrite elem_of_cons, <- I. naive_solver. }
  assert (D : match (match try_eval_to_bool c with
      | Some b => if Bool.eqb b stop then None else fold_many stop l
      | None => filtered ← fold_many stop l; Some (c :: filtered) end) with
    | None => stop ∈ b :: bs
    | Some fs => exists bs', map (eval r) fs = map vbool bs' /\ (stop ∈ b :: bs <-> stop ∈ bs')
    end).
  { destruct (try_eval_to_bool c) as [t|] eqn:T.
    - apply K. by apply (eval_sound c r Hr).
    - destruct (fold_many stop l) as [fs|]; cbn; [|by right]. destruct IH as (bs' & Mf & I).
      exists (b :: bs'). cbn. rewrite Mc, Mf. split; [done|]. by rewrite !elem_of_cons, I. }
  destruct (value c) as [|t| | | | | | | | | | | | | | |] eqn:Vc; try exact D.
  by apply K, eval_bool_const.
Qed.

Lemma forallb_id_elem bs : forallb id bs = negb (bool_decide (false ∈ bs)).
Proof.
  induction bs as [|[] bs IH]; cbn; [by rewrite bool_decide_eq_false_2 by apply not_elem_of_nil| |].
  - rewrite IH. f_equal. apply bool_decide_ext. rewrite elem_of_cons. naive_solver.
  - by rewrite bool_decide_eq_true_2 by left.
Qed.

Lemma existsb_id_elem bs : existsb id bs = bool_decide (true ∈ bs).
Proof.
  induction bs as [|[] bs IH]; cbn; [by rewrite bool_decide_eq_false_2 by apply not_elem_of_nil| |].
  - by rewrite bool_decide_eq_true_2 by left.
  - rewrite IH. apply bool_decide_ext. rewrite elem_of_cons. naive_solver.
Qed.

Lemma fold_and_sound r e es l :
  admissible r -> value e = And es -> map (eval r) l = map (eval r) es -> eval r (fold_and l) = eval r e.
Proof.
  intros Hr V M. destruct (eval_and_bool r e es Hr V) as (bs & Mb & ->). rewrite <- M in Mb.
  pose proof (fold_many_sound r false l bs Hr Mb) as F. unfold fold_and.
  rewrite forallb_id_elem. destruct (fold_many false l) as [fs|].
  - destruct F as (bs' & Mf & I). assert (E : bool_decide (false ∈ bs) = bool_decide (false ∈ bs'))
      by (by apply bool_decide_ext). rewrite E, <- forallb_id_elem.
    destruct fs as [|f [|g fs]].
    + destruct bs'; [|discriminate]. apply eval_built_bool.
    + destruct bs' as [|b [|]]; try discriminate. injection Mf as ->. by destruct b.
    + by apply eval_and_many.
  - rewrite bool_decide_eq_true_2 by done. apply eval_built_bool.
Qed.

Lemma fold_or_sound r e es l :
  admissible r -> value e = Or es -> map (eval r) l = map (eval r) es -> eval r (fold_or l) = eval r e.
Proof.
  intros Hr V M. destruct (eval_or_bool r e es Hr V) as (bs & Mb & ->). rewrite <- M in Mb.
  pose proof (fold_many_sound r true l bs Hr Mb) as F. unfold fold_or.
  rewrite existsb_id_elem. destruct (fold_many true l) as [fs|].
  - destruct F as (bs' & Mf & I). assert (E : bool_decide (true ∈ bs) = bool_decide (true ∈ bs'))
      by (by apply bool_decide_ext). rewrite E, <- existsb_id_elem.
    destruct fs as [|f [|g fs]].
    + destruct bs'; [|discriminate]. apply eval_built_bool.
    + destruct bs' as [|b [|]]; try discriminate. injection Mf as ->. by destruct b.
    + by apply eval_or_many.
  - rewrite bool_decide_eq_true_2 by done. apply eval_built_bool.
Qed.

Lemma fold_select_sound r e a i a' i' :
  admissible r -> value e = Binary Select a i -> eval r a' = eval r a -> eval r i' = eval r i ->
  eval r (fold_select a i a' i') = eval r e.
Proof.
  intros Hr V Ea Ei. rewrite (eval_select r e a i V). unfold fold_select.
  destruct (decide _); [|by rewrite eval_mk_select].
  assert (D : eval r (match eval_select_store_const a' i' with
      | Some result => result | None => mk_select a' i' end) = vselect (eval r a) (eval r i)).
  { rewrite <- Ea, <- Ei. destruct (eval_select_store_const a' i') as [x|] eqn:F.
    - symmetry. by eapply select_store_sound.
    - apply eval_mk_select. }
  destruct (value a') as [| | |[] x| | | | | | | | | | | | |] eqn:Va; try exact D.
  rewrite <- Ea. symmetry. by eapply vselect_const.
Qed.

Lemma store_noop_sound r e a i x a' i' x' :
  admissible r -> value e = Store a i x -> eval r a' = eval r a -> eval r i' = eval r i ->
  eval r x' = eval r x -> store_noop a' i' x' = true -> eval r a' = eval r e.
Proof.
  intros Hr V Ea Ei Ex N. rewrite Ea. symmetry. apply (store_same r e a i x Hr V).
  rewrite <- Ea, <- Ei, <- Ex. unfold store_noop in N. apply orb_true_iff in N as [N|N].
  - destruct (value a') as [| | |[] y| | | | | | | | | | | | |] eqn:Va; try discriminate.
    apply bool_decide_eq_true in N as ->. by eapply vselect_const.
  - destruct (value x') as [| | | |[] b j| | | | | | | | | | | |] eqn:Vx; try discriminate.
    apply andb_true_iff in N as [->%bool_decide_eq_true ->%bool_decide_eq_true].
    symmetry. by apply eval_select.
Qed.

Lemma fold_store_sound r e a i x a' i' x' :
  admissible r -> value e = Store a i x -> eval r a' = eval r a -> eval r i' = eval r i ->
  eval r x' = eval r x -> eval r (fold_store x a' i' x') = eval r e.
Proof.
  intros Hr V Ea Ei Ex. unfold fold_store.
  destruct (store_noop a' i' x') eqn:N; [by eapply store_noop_sound|].
  destruct (match array_sort (sort_of a') with Some (_, s) => _ | None => false end);
    [by eapply mk_store_same|].
  destruct (value a') as [| | | | | | | | | |b j y| | | | | |] eqn:Va; try (by eapply mk_store_same).
  destruct (decide (j = i')) as [->|]; [|by eapply mk_store_same].
  by eapply store_twice.
Qed.

Lemma adjusted_eval r args new_args fields :
  length fields = length args -> map (eval r) new_args = map (eval r) args ->
  map (eval r) (zip_with adjust (zip args new_args) fields) = map (eval r) args.
Proof.
  revert new_args fields. induction args as [|a args IH]; intros [|x new_args] [|f fields] L M;
    try discriminate; [done|]. injection M as Ma M. injection L as L. cbn. f_equal; [|by apply IH].
  unfold adjust. cbn. by destruct (decide _).
Qed.

Lemma fold_constructor_sound r e d k args new_args :
  value e = DatatypeConstructor d k args -> map (eval r) new_args = map (eval r) args ->
  eval r (fold_dt_constructor e d k args new_args) = eval r e.
Proof.
  intros V M. unfold fold_dt_constructor.
  destruct (find_constructor (sort_of e) k) as [[? fields]|]; [|done].
  destruct (Nat.eqb_spec (length fields) (length args)) as [L|]; [|done]. cbn [negb].
  destruct (decide _); [done|]. eapply datatype_constructor_same; [done|]. by apply adjusted_eval.
Qed.

Lemma position_spec n fs i : position n fs = Some i -> exists s, fs !! i = Some (n, s).
Proof.
  revert i. induction fs as [|[m s] fs IH]; intros i E; [discriminate|]. cbn in E.
  destruct (String.eqb_spec m n) as [->|]; [injection E as <-; by exists s|].
  destruct (position n fs) as [j|]; [|discriminate]. injection E as <-. by apply IH.
Qed.

Lemma fold_selector_sound r e d n a inner :
  admissible r -> value e = Unary (DatatypeSelector d n) a -> eval r inner = eval r a ->
  eval r (fold_dt_selector e d n inner) = eval r e.
Proof.
  intros Hr V E. unfold fold_dt_selector.
  assert (D : eval r (default e (try_field_select inner d n (sort_of e))) = eval r e).
  { destruct (try_field_select inner d n (sort_of e)) as [x|] eqn:T; [|done].
    by eapply try_field_select_same. }
  destruct (value inner) as [| | | | | | | | | | | |d' k args| | | |] eqn:Vi; try exact D.
  unfold find_constructor. destruct (constructors (sort_of inner)) as [cs|] eqn:Hc; [|exact D].
  cbn [mbind option_bind]. destruct (List.find _ cs) as [[k' fs]|] eqn:Hf; [|exact D]. cbn.
  destruct (position n fs) as [i|] eqn:Hp; [|exact D]. cbn.
  destruct (args !! i) as [x|] eqn:L; [|exact D].
  apply find_some in Hf as [Hin Hk%String.eqb_eq]. cbn in Hk. subst k'.
  apply position_spec in Hp as [s Hs]. symmetry.
  eapply (eval_field r e d n a inner); try done. by apply list_elem_of_In.
Qed.

(** ** The substitution *)

Lemma filter_bound_lookup known vars n c :
  filter_bound_vars known vars !! n = Some c -> known !! n = Some c /\ n ∉ map fst vars.
Proof.
  unfold filter_bound_vars. revert known. induction vars as [|[m s] vars IH]; intros known L; cbn in *.
  - split; [done|apply not_elem_of_nil].
  - apply IH in L as [L N]. apply lookup_delete_Some in L as [Ne L]. split; [done|].
    rewrite not_elem_of_cons. by split.
Qed.

(** Constants do not depend on the bound variables. *)
Lemma filter_bound_ok r r' known vars :
  known_ok r known -> (forall n, n ∉ map fst vars -> r' n = r n) ->
  known_ok r' (filter_bound_vars known vars).
Proof.
  intros K E n c L. apply filter_bound_lookup in L as [L N]. destruct (K n c L) as [C V].
  split; [done|]. rewrite E by done. rewrite V. by apply constant_eval.
Qed.

Lemma map_eval_rec r (rec : Expr -> Expr) l :
  (forall c, eval r (rec c) = eval r c) -> map (eval r) (map rec l) = map (eval r) l.
Proof. intros E. rewrite map_map. by apply map_ext. Qed.

Lemma subst_node_sound r rec known e :
  admissible r -> known_ok r known ->
  (forall r' known' c, admissible r' -> known_ok r' known' -> eval r' (rec known' c) = eval r' c) ->
  eval r (subst_node rec known e) = eval r e.
Proof.
  intros Hr K R. assert (Rk : forall c, eval r (rec known c) = eval r c) by (intros; by apply R).
  assert (G : is_quantifier (value e) = false ->
    eval r (if is_known_variant e then rebuild_with_children e (map (rec known) (children e)) else e)
    = eval r e).
  { intros Q. destruct (is_known_variant e); [|done]. apply rebuild_same; [done|]. by apply map_eval_rec. }
  assert (B : forall vars body,
    forall r', admissible r' -> (forall n, n ∉ map fst vars -> r' n = r n) ->
      eval r' (rec (filter_bound_vars known vars) body) = eval r' body).
  { intros vars body r' Hr' E. apply R; [done|]. by eapply filter_bound_ok. }
  unfold subst_node. destruct (value e) as [n|b|k|op a|op a b|a b|es|es|es|c t f|a i x|a b c|d k args
    |n args|vars body ts|vars body ts|es] eqn:V; try done; try (by apply G).
  - destruct (known !! n) as [c|] eqn:L; cbn; [|done]. rewrite (eval_var r e n V).
    symmetry. by apply K.
  - destruct k; try done; by apply G.
  - destruct op; cbn [is_plain_unary]; try (by apply G); try (eapply mk_unary_same; eauto).
    + eapply fold_not_sound; eauto.
    + eapply fold_extract_sound; eauto.
    + eapply fold_selector_sound; eauto.
    + destruct (try_is_constructor _ _ _) as [x|] eqn:T; [|done]. eapply try_is_constructor_same; eauto.
  - assert (D : eval r (if is_bv_binary op then
        match eval_bv_binary_const op (rec known a) (rec known b) with
        | Some folded => folded
        | None => rebuild_with_children e [rec known a; rec known b] end
      else if is_known_variant e then rebuild_with_children e (map (rec known) (children e)) else e)
      = eval r e).
    { destruct (is_bv_binary op); [|by apply G].
      destruct (eval_bv_binary_const op _ _) as [x|] eqn:F.
      - by apply (fold_sound r e op a b (rec known a) (rec known b)).
      - apply rebuild_same; [by rewrite V|]. unfold children. rewrite V. cbn. by rewrite !Rk. }
    destruct op; try exact D. eapply fold_select_sound; eauto.
  - eapply fold_eq_sound; eauto.
  - eapply fold_and_sound; [done|done|]. by apply map_eval_rec.
  - eapply fold_or_sound; [done|done|]. by apply map_eval_rec.
  - eapply distinct_same; [done|]. by apply map_eval_rec.
  - eapply fold_ite_sound; eauto.
  - eapply fold_store_sound; eauto.
  - apply fold_constructor_sound; [done|]. by apply map_eval_rec.
  - eapply func_app_same; [done|]. by apply map_eval_rec.
  - eapply forall_same; [done|]. by apply B.
  - eapply exists_same; [done|]. by apply B.
Qed.

Lemma subst_fuel_sound k : forall r known e,
  admissible r -> known_ok r known -> eval r (subst_fuel k known e) = eval r e.
Proof. induction k as [|k IH]; intros r known e Hr K; [done|]. by apply subst_node_sound. Qed.

Lemma substitute_sound r known e :
  admissible r -> known_ok r known -> eval r (substitute_vars e known) = eval r e.
Proof.
  intros Hr K. unfold substitute_vars. destruct (decide _); [done|]. by apply subst_fuel_sound.
Qed.

End Sound.

End ConstSubstSpec.
