(* ===== verification/ConstArray.v ===== *)
(** * Constants that flow through arrays, and through equalities

    [propagate_through_equalities] of chc_const_prop.rs and
    chc_const_prop_array.rs: the constants that the conjuncts of a rule body force
    upon its variables.  The [while changed] loops insert a new variable each time
    around, so there are at most as many rounds as variables; [while_changed] runs
    them with that as fuel. *)

From S2P Require Import Prelude AyExpr Chc Text BvArith AyBuild ConstEval ConstEvalSpec ConstSubst.

Module ConstArray.
Import BvArith AyBuild ConstEval ConstEvalSpec ConstSubst ConstSubstSpec.

(** ** Loops *)

(** [changed = true; while changed { changed = false; .. }] *)
Fixpoint while_changed {A} (fuel : nat) (round : A -> bool * A) (s : A) : A :=
  let '(changed, s') := round s in
  if changed then match fuel with O => s' | S fuel' => while_changed fuel' round s' end else s'.

(** A round: a step per element, that either leaves the state or changes it. *)
Definition for_all {A B} (step : A -> B -> option A) (l : list B) (s : A) : bool * A :=
  foldl (fun '(changed, s) b => match step s b with Some s' => (true, s') | None => (changed, s) end)
    (false, s) l.

Lemma while_changed_inv {A} (P : A -> Prop) fuel round s :
  (forall s, P s -> P (round s).2) -> P s -> P (while_changed fuel round s).
Proof.
  intros Step. revert s. induction fuel as [|fuel IH]; intros s Ps; cbn;
    specialize (Step s Ps); destruct (round s) as [[] s']; cbn in *; auto.
Qed.

(** With a measure that every change decreases, the loop ends with a round that
    changes nothing. *)
Lemma while_changed_stops {A} (P : A -> Prop) (m : A -> nat) fuel round s :
  (forall s, P s -> P (round s).2) ->
  (forall s, P s -> (round s).1 = true -> (m (round s).2 < m s)%nat) ->
  P s -> (m s <= fuel)%nat ->
  exists s', P s' /\ (round s').1 = false /\ while_changed fuel round s = (round s').2.
Proof.
  intros Step Dec. revert s. induction fuel as [|fuel IH]; intros s Ps Le; cbn;
    pose proof (Step s Ps) as Ps'; pose proof (Dec s Ps) as D;
    destruct (round s) as [[] s'] eqn:R; cbn in *.
  - specialize (D eq_refl). lia.
  - exists s. by rewrite R.
  - specialize (D eq_refl). apply IH; [done|lia].
  - exists s. by rewrite R.
Qed.

Lemma for_all_snoc {A B} (step : A -> B -> option A) l b s :
  for_all step (l ++ [b]) s =
  let '(changed, s') := for_all step l s in
  match step s' b with Some s'' => (true, s'') | None => (changed, s') end.
Proof. unfold for_all. rewrite foldl_snoc. by destruct (foldl _ _ l). Qed.

Lemma for_all_inv {A B} (P : A -> Prop) (step : A -> B -> option A) l s :
  (forall s b s', b ∈ l -> P s -> step s b = Some s' -> P s') -> P s -> P (for_all step l s).2.
Proof.
  intros Step Ps. induction l as [|b l IH] using rev_ind; [done|]. rewrite for_all_snoc.
  assert (Q : P (for_all step l s).2) by (apply IH; intros s0 b0 s' Hb; apply Step; set_solver).
  destruct (for_all step l s) as [c s']; cbn in *.
  destruct (step s' b) as [s''|] eqn:E; cbn; [|done]. eapply Step; [|exact Q|exact E]. set_solver.
Qed.

Lemma for_all_mono {A B} (m : A -> nat) (P : A -> Prop) (step : A -> B -> option A) l s :
  (forall s b s', b ∈ l -> P s -> step s b = Some s' -> P s' /\ (m s' < m s)%nat) -> P s ->
  ((for_all step l s).1 = true -> (m (for_all step l s).2 < m s)%nat) /\
  ((for_all step l s).1 = false -> (for_all step l s).2 = s).
Proof.
  intros Step Ps. induction l as [|b l IH] using rev_ind; [by split|]. rewrite for_all_snoc.
  assert (Q : P (for_all step l s).2)
    by (apply for_all_inv; [|done]; intros s0 b0 s' Hb Ps0 E; eapply Step; [|exact Ps0|exact E]; set_solver).
  destruct IH as [I1 I2]; [intros s0 b0 s' Hb; apply Step; set_solver|].
  destruct (for_all step l s) as [c s']; cbn in *.
  destruct (step s' b) as [s''|] eqn:E; cbn; [|done]. split; [|done]. intros _.
  destruct (Step s' b s'' ltac:(set_solver) Q E) as [_ D].
  destruct c; [specialize (I1 eq_refl); lia|by rewrite (I2 eq_refl) in D].
Qed.

(** ** Arrays *)

Section Arrays.
Context `{AyApi}.

Abbreviation known_map := (gmap string Expr).

Definition var_name (e : Expr) : option string := match value e with Var n => Some n | _ => None end.
Definition is_store (e : Expr) : bool := match value e with Store _ _ _ => true | _ => false end.

(** Phase 2: the store definitions and the aliases of a conjunct. *)
Definition track_side (known : known_map) (var_side other : Expr) (stores : known_map) : known_map :=
  match var_name var_side with
  | Some name =>
      let sub := substitute_vars other known in
      if is_store sub then <[name := sub]> stores else stores
  | None => stores
  end.
Definition track_stores (known : known_map) (stores : known_map) (e : Expr) : known_map :=
  match value e with
  | Eq lhs rhs => track_side known rhs lhs (track_side known lhs rhs stores)
  | _ => stores
  end.
Definition alias_of (e : Expr) : list (string * string) :=
  match value e with
  | Eq lhs rhs =>
      match var_name lhs, var_name rhs with
      | Some lhs_name, Some rhs_name =>
          if bool_decide (is_Some (array_sort (sort_of lhs)))
             && bool_decide (sort_of lhs = sort_of rhs)
          then [(lhs_name, rhs_name)] else []
      | _, _ => []
      end
  | _ => []
  end.

(** [propagate_store_aliases] *)
Definition alias_step (stores : known_map) (alias : string * string) : option known_map :=
  match stores !! alias.1, stores !! alias.2 with
  | Some store, None => Some (<[alias.2 := store]> stores)
  | None, Some store => Some (<[alias.1 := store]> stores)
  | _, _ => None
  end.
Definition propagate_store_aliases (stores : known_map) (aliases : list (string * string)) : known_map :=
  while_changed (2 * length aliases) (for_all alias_step aliases) stores.

(** [expand_array_stores_bounded] and [expand_array_stores] *)
Fixpoint expand_array_stores_bounded (stores known : known_map) (depth : nat) (e : Expr) : Expr :=
  match depth with
  | O => e
  | S depth' =>
      match value e with
      | Store array index v =>
          match (name ← var_name array; stores !! name) with
          | Some inner_store =>
              let inner_subst := substitute_vars inner_store known in
              let expanded_inner := expand_array_stores_bounded stores known depth' inner_subst in
              mk_store expanded_inner index v
          | None =>
              let expanded_inner := expand_array_stores_bounded stores known depth' array in
              mk_store expanded_inner index v
          end
      | _ => e
      end
  end.
Definition expand_array_stores (stores known : known_map) (e : Expr) : Expr :=
  expand_array_stores_bounded stores known 8 e.

(** [resolve_select_from_store] *)
Definition resolve_select_from_store (known stores : known_map) (var_side select_side : Expr)
    : option (string * Expr) :=
  name ← var_name var_side;
  if bool_decide (is_Some (known !! name)) then None
  else
    let sub := substitute_vars select_side known in
    match value sub with
    | Binary Select array index =>
        arr_name ← var_name array;
        store_expr ← stores !! arr_name;
        let store_subst := substitute_vars store_expr known in
        let expanded := expand_array_stores stores known store_subst in
        v ← eval_select_store_const expanded index;
        if is_constant v then Some (name, v) else None
    | _ => None
    end.

(** Phase 3: one conjunct. *)
Definition resolve_step (stores known : known_map) (e : Expr) : option known_map :=
  match value e with
  | Eq lhs rhs =>
      match
        match resolve_select_from_store known stores lhs rhs with
        | Some nv => Some nv
        | None => resolve_select_from_store known stores rhs lhs
        end
      with
      | Some (name, v) => Some (<[name := v]> known)
      | None => None
      end
  | _ => None
  end.

(** [resolve_array_store_selects] *)
Definition resolve_array_store_selects (flat : list Expr) (known : known_map) : known_map :=
  let array_stores := foldl (track_stores known) ∅ flat in
  if decide (array_stores = ∅) then known
  else
    let array_aliases := flat_map alias_of flat in
    let array_stores := propagate_store_aliases array_stores array_aliases in
    while_changed (2 * length flat) (for_all (resolve_step array_stores) flat) known.

(** ** Equalities *)

(** The last two arms of the match: the other side, substituted and folded. *)
Definition learn (known : known_map) (name : string) (other : Expr) : option known_map :=
  let evaluated := substitute_vars other known in
  if is_constant evaluated then Some (<[name := evaluated]> known)
  else folded ← try_eval_to_const evaluated; Some (<[name := folded]> known).

(** One conjunct of the loop of [propagate_through_equalities] *)
Definition insert_new (known : known_map) (name : string) (v : Expr) : option known_map :=
  if bool_decide (is_Some (known !! name)) then None else Some (<[name := v]> known).
Definition learn_new (known : known_map) (name : string) (other : Expr) : option known_map :=
  if bool_decide (is_Some (known !! name)) then None else learn known name other.
Definition equality_step (known : known_map) (e : Expr) : option known_map :=
  match value e with
  | Eq lhs rhs =>
      match var_name lhs, var_name rhs with
      | Some name, None => if is_constant rhs then insert_new known name rhs else learn_new known name rhs
      | None, Some name => if is_constant lhs then insert_new known name lhs else learn_new known name lhs
      | Some a, Some b =>
          match known !! b with
          | Some c => insert_new known a c
          | None => c ← known !! a; insert_new known b c
          end
      | None, None => None
      end
  | _ => None
  end.

(** [propagate_through_equalities] *)
Definition propagate_through_equalities (constraints : Chc.Constraints) (known : known_map)
    : known_map :=
  let flat := flatten_conjunctions constraints in
  let known := while_changed (2 * length flat) (for_all equality_step flat) known in
  resolve_array_store_selects flat known.

End Arrays.

End ConstArray.

(** * Correctness of the learned constants

    A valuation that satisfies the constraints of a rule gives every variable the
    constant the propagation learned for it, and the loops end on their own. *)

Module ConstArraySpec.
Import BvArith AyBuild ConstEval ConstEvalSpec ConstSubst ConstSubstSpec ConstArray.

(** ** The loops end *)

Section Measure.
Context `{AyApi}.

(** The names of [D] that are not known yet. *)
Definition unknown (D : gset string) (known : gmap string Expr) : nat := stdpp.base.size (D ∖ dom known).

Lemma unknown_insert D known n v :
  n ∈ D -> known !! n = None -> (unknown D (<[n := v]> known) < unknown D known)%nat.
Proof.
  intros Hn L. unfold unknown. apply subset_size. split; [set_solver|].
  intros S. assert (n ∈ D ∖ dom known) by (apply elem_of_difference; split; [done|by apply not_elem_of_dom]).
  set_solver.
Qed.

Lemma unknown_bound D known k : (stdpp.base.size D <= k)%nat -> (unknown D known <= k)%nat.
Proof. intros L. unfold unknown. etransitivity; [|exact L]. apply subseteq_size. set_solver. Qed.

Lemma list_to_set_size (l : list string) : (stdpp.base.size (list_to_set l : gset string) <= length l)%nat.
Proof.
  induction l as [|x l IH]; cbn; [by rewrite size_empty|].
  rewrite size_union_alt, size_singleton. etransitivity; [|apply le_n_S, IH].
  apply le_n_S, subseteq_size. set_solver.
Qed.

(** A step that inserts a new name of [D] ends within as many rounds as [D] has
    names. *)
Definition inserts {B} (D : gset string) (step : gmap string Expr -> B -> option (gmap string Expr))
    (l : list B) : Prop :=
  forall known b known', b ∈ l -> step known b = Some known' ->
    exists n v, n ∈ D /\ known !! n = None /\ known' = <[n := v]> known.

Lemma inserts_stops {B} D step (l : list B) fuel known :
  inserts D step l -> (stdpp.base.size D <= fuel)%nat ->
  for_all step l (while_changed fuel (for_all step l) known) =
    (false, while_changed fuel (for_all step l) known).
Proof.
  intros I F. pose proof (fun s => for_all_mono (unknown D) (fun _ => True) step l s) as M.
  assert (St : forall s b s', b ∈ l -> True -> step s b = Some s' -> True /\ (unknown D s' < unknown D s)%nat).
  { intros s b s' Hb _ E. split; [done|]. destruct (I s b s' Hb E) as (n & v & Hn & L & ->).
    by apply unknown_insert. }
  destruct (while_changed_stops (fun _ => True) (unknown D) fuel (for_all step l) known)
    as (s & _ & R1 & R2); [done| |done|by apply unknown_bound|].
  - intros s _ R. by apply (M s St Logic.I).
  - rewrite R2. destruct (M s St Logic.I) as [_ R3]. specialize (R3 R1). rewrite R3.
    destruct (for_all step l s) as [c s']; cbn in *. by subst.
Qed.

(** The variables of an equality. *)
Definition eq_names (e : Expr) : list string :=
  match value e with
  | Eq a b => option_list (var_name a) ++ option_list (var_name b)
  | _ => []
  end.

Lemma eq_names_length l : (length (flat_map eq_names l) <= 2 * length l)%nat.
Proof.
  induction l as [|e l IH]; cbn; [done|]. rewrite length_app. unfold eq_names at 1.
  destruct (value e) as [| | | | |a b| | | | | | | | | | |]; cbn; try lia.
  rewrite length_app. destruct (var_name a), (var_name b); cbn; lia.
Qed.

Lemma eq_names_elem e a b l n :
  e ∈ l -> value e = Eq a b -> var_name a = Some n \/ var_name b = Some n ->
  n ∈ (list_to_set (flat_map eq_names l) : gset string).
Proof.
  intros He V N. apply elem_of_list_to_set, elem_of_flat_map. exists e. split; [done|].
  unfold eq_names. rewrite V. destruct N as [-> | ->]; set_solver.
Qed.

Lemma is_Some_new (known : gmap string Expr) n : bool_decide (is_Some (known !! n)) = false -> known !! n = None.
Proof. rewrite bool_decide_eq_false. by destruct (known !! n); [intros []|]. Qed.

Lemma equality_inserts l : inserts (list_to_set (flat_map eq_names l)) equality_step l.
Proof.
  intros known e known' He E. unfold equality_step in E.
  destruct (value e) as [| | | | |a b| | | | | | | | | | |] eqn:V; try discriminate.
  pose proof (fun n => eq_names_elem e a b l n He V) as N.
  assert (Ins : forall n v, var_name a = Some n \/ var_name b = Some n ->
    insert_new known n v = Some known' ->
    exists n v, n ∈ (list_to_set (flat_map eq_names l) : gset string) /\ known !! n = None /\
      known' = <[n := v]> known).
  { intros n v Hn I. unfold insert_new in I.
    destruct (bool_decide _) eqn:B; [discriminate|]. injection I as <-.
    exists n, v. split; [by apply N|]. by apply is_Some_new in B. }
  assert (Lrn : forall n o, var_name a = Some n \/ var_name b = Some n ->
    learn_new known n o = Some known' ->
    exists n v, n ∈ (list_to_set (flat_map eq_names l) : gset string) /\ known !! n = None /\
      known' = <[n := v]> known).
  { intros n o Hn I. unfold learn_new, learn in I. cbv zeta in I.
    destruct (bool_decide _) eqn:B; [discriminate|]. apply is_Some_new in B.
    destruct (is_constant (substitute_vars o known)); [injection I as <-; eexists _, _; split; [by apply N|done]|].
    destruct (try_eval_to_const (substitute_vars o known)) as [c|]; [|discriminate]. injection I as <-.
    eexists _, _. split; [by apply N|done]. }
  destruct (var_name a) as [n|], (var_name b) as [m|]; try discriminate.
  - destruct (known !! m) as [c|]; [apply (Ins n c); [by left|done]|].
    destruct (known !! n) as [c|]; [|discriminate]. apply (Ins m c); [by right|done].
  - destruct (is_constant b); [apply (Ins n b)|apply (Lrn n b)]; first [by left|done].
  - destruct (is_constant a); [apply (Ins m a)|apply (Lrn m a)]; first [by right|done].
Qed.

Lemma resolve_new known stores a b n v :
  resolve_select_from_store known stores a b = Some (n, v) -> var_name a = Some n /\ known !! n = None.
Proof.
  unfold resolve_select_from_store. destruct (var_name a) as [m|]; [|discriminate]. cbn [mbind option_bind].
  destruct (bool_decide _) eqn:B; [discriminate|]. apply is_Some_new in B.
  destruct (value (substitute_vars b known)) as [| | | |[] x i| | | | | | | | | | | |]; try discriminate.
  destruct (var_name x) as [y|]; [|discriminate]. cbn [mbind option_bind].
  destruct (stores !! y); [|discriminate]. cbn [mbind option_bind]. destruct (eval_select_store_const _ _); [|discriminate].
  cbn [mbind option_bind]. destruct (is_constant _); [|discriminate]. intros [= <- _]. done.
Qed.

Lemma resolve_inserts stores l : inserts (list_to_set (flat_map eq_names l)) (resolve_step stores) l.
Proof.
  intros known e known' He E. unfold resolve_step in E.
  destruct (value e) as [| | | | |a b| | | | | | | | | | |] eqn:V; try discriminate.
  pose proof (fun n => eq_names_elem e a b l n He V) as N.
  destruct (resolve_select_from_store known stores a b) as [[n v]|] eqn:R1.
  - injection E as <-. apply resolve_new in R1 as [A B]. exists n, v. split; [apply N; by left|done].
  - destruct (resolve_select_from_store known stores b a) as [[n v]|] eqn:R2; [|discriminate].
    injection E as <-. apply resolve_new in R2 as [A B]. exists n, v. split; [apply N; by right|done].
Qed.

Lemma alias_inserts l : inserts (list_to_set (flat_map (fun a => [a.1; a.2]) l)) alias_step l.
Proof.
  intros stores [a b] stores' Hal E. unfold alias_step in E. cbn in E.
  assert (N : forall n, n = a \/ n = b ->
    n ∈ (list_to_set (flat_map (fun a : string * string => [a.1; a.2]) l) : gset string)).
  { intros n Hn. apply elem_of_list_to_set, elem_of_flat_map. exists (a, b). split; [done|]. cbn. set_solver. }
  destruct (stores !! a) as [s|] eqn:La, (stores !! b) as [t|] eqn:Lb; try discriminate;
    injection E as <-; [exists b, s|exists a, t]; (split; [apply N; auto|done]).
Qed.

(** All three loops have run until a round changed nothing. *)
Lemma loops_stop (stores known : gmap string Expr) flat aliases :
  let known' := while_changed (2 * length flat) (for_all equality_step flat) known in
  let stores' := propagate_store_aliases stores aliases in
  let resolved := while_changed (2 * length flat) (for_all (resolve_step stores) flat) known in
  for_all equality_step flat known' = (false, known') /\
  for_all alias_step aliases stores' = (false, stores') /\
  for_all (resolve_step stores) flat resolved = (false, resolved).
Proof.
  assert (A : (length (flat_map (fun a : string * string => [a.1; a.2]) aliases) <= 2 * length aliases)%nat).
  { induction aliases as [|x l IH]; cbn; lia. }
  pose proof (eq_names_length flat). cbv zeta.
  split; [|split].
  - eapply inserts_stops; [apply equality_inserts|]. etransitivity; [apply list_to_set_size|done].
  - eapply inserts_stops; [apply alias_inserts|]. etransitivity; [apply list_to_set_size|done].
  - eapply inserts_stops; [apply resolve_inserts|]. etransitivity; [apply list_to_set_size|done].
Qed.

End Measure.

(** ** What is learned holds *)

Section Sound.
Context `{Encoder}.

Definition holds (r : string -> val) (c : Expr) : Prop := is_true (eval r c).

Lemma flatten_holds r fuel e : holds r e -> forall c, c ∈ flatten_and fuel e -> holds r c.
Proof.
  revert e. induction fuel as [|fuel IH]; intros e He c Hc; cbn in Hc; [by apply elem_of_nil in Hc|].
  unfold flatten_node in Hc.
  assert (D : c ∈ [e] -> holds r c) by (by intros ->%list_elem_of_singleton).
  destruct (value e) as [| | | | | |es| | | | | | | | | |] eqn:V; try (by apply D).
  apply elem_of_flat_map in Hc as (d & Hd & Hc). eapply IH; [|exact Hc]. by eapply eval_and.
Qed.

Lemma flatten_constraints r cs :
  (forall c, c ∈ Chc.iter cs -> holds r c) -> forall c, c ∈ flatten_conjunctions cs -> holds r c.
Proof.
  intros Hc c Hin. apply elem_of_flat_map in Hin as (e & He & Hin). eapply flatten_holds; [|exact Hin]. auto.
Qed.

Lemma known_insert r known n v :
  known_ok r known -> is_constant v = true -> r n = eval r v -> known_ok r (<[n := v]> known).
Proof.
  intros K C E m w L. apply lookup_insert_Some in L as [[<- <-]|[_ L]]; [done|by apply K].
Qed.

Lemma var_name_eval r e n : var_name e = Some n -> eval r e = r n.
Proof.
  unfold var_name. destruct (value e) eqn:V; try discriminate. intros [= <-]. by apply eval_var.
Qed.

Lemma is_value_constant e : is_value e -> is_constant e = true.
Proof. intros V. rewrite is_constant_eq. unfold constant_node. by rewrite is_value_scalar. Qed.

Lemma learn_ok r known n o known' :
  admissible r -> known_ok r known -> r n = eval r o -> learn known n o = Some known' -> known_ok r known'.
Proof.
  intros Hr K E L. unfold learn in L. cbv zeta in L. rewrite <- (substitute_sound r known o Hr K) in E.
  destruct (is_constant (substitute_vars o known)) eqn:C; [injection L as <-; by apply known_insert|].
  destruct (try_eval_to_const (substitute_vars o known)) as [c|] eqn:T; [|discriminate]. injection L as <-.
  destruct (eval_sound (substitute_vars o known) r Hr) as [_ S]. destruct (S c T) as [Ec Vc].
  apply known_insert; [done|by apply is_value_constant|congruence].
Qed.

Lemma equality_step_ok r known e known' :
  admissible r -> known_ok r known -> holds r e -> equality_step known e = Some known' -> known_ok r known'.
Proof.
  intros Hr K Ht E. unfold equality_step in E.
  destruct (value e) as [| | | | |a b| | | | | | | | | | |] eqn:V; try discriminate.
  apply (eval_eq r e a b V) in Ht.
  assert (Ins : forall n v, insert_new known n v = Some known' -> is_constant v = true ->
    r n = eval r v -> known_ok r known').
  { intros n v I C En. unfold insert_new in I. destruct (bool_decide _); [discriminate|].
    injection I as <-. by apply known_insert. }
  assert (Lrn : forall n o, learn_new known n o = Some known' -> r n = eval r o -> known_ok r known').
  { intros n o I En. unfold learn_new in I. destruct (bool_decide _); [discriminate|]. by eapply learn_ok. }
  destruct (var_name a) as [n|] eqn:Na, (var_name b) as [m|] eqn:Nb; try discriminate;
    try (apply var_name_eval with (r := r) in Na); try (apply var_name_eval with (r := r) in Nb).
  - destruct (known !! m) as [c|] eqn:L.
    + destruct (K m c L) as [C Ec]. eapply Ins; [done..|congruence].
    + destruct (known !! n) as [c|] eqn:L'; [|discriminate]. destruct (K n c L') as [C Ec].
      eapply Ins; [done..|congruence].
  - destruct (is_constant b) eqn:C; [eapply Ins|eapply Lrn]; try done; congruence.
  - destruct (is_constant a) eqn:C; [eapply Ins|eapply Lrn]; try done; congruence.
Qed.

(** ** Arrays *)

(** The valuation gives the arrays their store expressions. *)
Definition stores_ok (r : string -> val) (stores : gmap string Expr) : Prop :=
  forall n e, stores !! n = Some e -> r n = eval r e.

Lemma stores_insert r stores n e : stores_ok r stores -> r n = eval r e -> stores_ok r (<[n := e]> stores).
Proof. intros S E m d L. apply lookup_insert_Some in L as [[<- <-]|[_ L]]; [done|by apply S]. Qed.

Lemma track_side_ok r known a b stores :
  admissible r -> known_ok r known -> eval r a = eval r b -> stores_ok r stores ->
  stores_ok r (track_side known a b stores).
Proof.
  intros Hr K E S. unfold track_side. destruct (var_name a) as [n|] eqn:N; [|done].
  destruct (is_store _); [|done]. apply stores_insert; [done|].
  rewrite substitute_sound by done. rewrite <- E. symmetry. by apply var_name_eval.
Qed.

Lemma track_stores_ok r known flat stores :
  admissible r -> known_ok r known -> (forall c, c ∈ flat -> holds r c) -> stores_ok r stores ->
  stores_ok r (foldl (track_stores known) stores flat).
Proof.
  intros Hr K Hf. revert stores. induction flat as [|e flat IH]; intros stores S; cbn; [done|].
  apply IH; [intros; apply Hf; by right|]. unfold track_stores.
  destruct (value e) as [| | | | |a b| | | | | | | | | | |] eqn:V; try done.
  assert (E : eval r a = eval r b) by (apply (eval_eq r e a b V), Hf; left).
  by apply track_side_ok; [..|apply track_side_ok].
Qed.

Lemma aliases_ok r flat stores :
  (forall c, c ∈ flat -> holds r c) -> stores_ok r stores ->
  stores_ok r (propagate_store_aliases stores (flat_map alias_of flat)).
Proof.
  intros Hf S. unfold propagate_store_aliases.
  apply (while_changed_inv (stores_ok r)); [|done]. intros s Hs. apply (for_all_inv (stores_ok r)); [|done].
  intros s0 [n m] s' Hin S0 E.
  assert (Enm : r n = r m).
  { apply elem_of_flat_map in Hin as (e & He & Hin). unfold alias_of in Hin.
    destruct (value e) as [| | | | |a b| | | | | | | | | | |] eqn:V; try (by apply elem_of_nil in Hin).
    destruct (var_name a) as [x|] eqn:Na; [|by apply elem_of_nil in Hin].
    destruct (var_name b) as [y|] eqn:Nb; [|by apply elem_of_nil in Hin].
    destruct (_ && _); [|by apply elem_of_nil in Hin]. apply list_elem_of_singleton in Hin as [= -> ->].
    rewrite <- (var_name_eval r a x Na), <- (var_name_eval r b y Nb).
    apply (eval_eq r e a b V). by apply Hf. }
  unfold alias_step in E. cbn in E.
  destruct (s0 !! n) as [x|] eqn:Ln, (s0 !! m) as [y|] eqn:Lm; try discriminate; injection E as <-;
    (apply stores_insert; [done|]); [rewrite <- Enm|rewrite Enm]; by apply S0.
Qed.

Lemma expand_ok r stores known depth : forall e,
  admissible r -> known_ok r known -> stores_ok r stores ->
  eval r (expand_array_stores_bounded stores known depth e) = eval r e.
Proof.
  induction depth as [|depth IH]; intros e Hr K S; [done|]. cbn [expand_array_stores_bounded].
  destruct (value e) as [| | | | | | | | | |a i x| | | | | |] eqn:V; try done.
  destruct (var_name a) as [n|] eqn:N; cbn [mbind option_bind].
  - destruct (stores !! n) as [d|] eqn:L.
    + eapply mk_store_same; [done| |done..]. rewrite IH by done. rewrite substitute_sound by done.
      rewrite (var_name_eval r a n N). symmetry. by apply S.
    + eapply mk_store_same; [done| |done..]. by apply IH.
  - eapply mk_store_same; [done| |done..]. by apply IH.
Qed.

Lemma resolve_ok r known stores a b n v :
  admissible r -> known_ok r known -> stores_ok r stores -> eval r a = eval r b ->
  resolve_select_from_store known stores a b = Some (n, v) -> is_constant v = true /\ r n = eval r v.
Proof.
  intros Hr K S E F. unfold resolve_select_from_store in F.
  destruct (var_name a) as [m|] eqn:N; [|discriminate]. cbn [mbind option_bind] in F.
  destruct (bool_decide _); [discriminate|].
  destruct (value (substitute_vars b known)) as [| | | |[] x i| | | | | | | | | | | |] eqn:Vb; try discriminate.
  destruct (var_name x) as [y|] eqn:Ny; [|discriminate]. cbn [mbind option_bind] in F.
  destruct (stores !! y) as [d|] eqn:L; [|discriminate]. cbn [mbind option_bind] in F.
  destruct (eval_select_store_const _ i) as [w|] eqn:Sel; [|discriminate]. cbn [mbind option_bind] in F.
  destruct (is_constant w) eqn:C; [|discriminate]. injection F as <- <-. split; [done|].
  unfold eval_select_store_const in Sel. apply (select_store_sound r) in Sel; [|done].
  unfold expand_array_stores in Sel. rewrite expand_ok in Sel by done.
  rewrite substitute_sound in Sel by done. rewrite <- (S y d L) in Sel.
  rewrite <- (var_name_eval r a m N), E, <- (substitute_sound r known b Hr K).
  rewrite (eval_select r _ x i Vb), (var_name_eval r x y Ny). exact Sel.
Qed.

Lemma resolve_step_ok r stores known e known' :
  admissible r -> stores_ok r stores -> known_ok r known -> holds r e ->
  resolve_step stores known e = Some known' -> known_ok r known'.
Proof.
  intros Hr S K Ht E. unfold resolve_step in E.
  destruct (value e) as [| | | | |a b| | | | | | | | | | |] eqn:V; try discriminate.
  apply (eval_eq r e a b V) in Ht.
  destruct (resolve_select_from_store known stores a b) as [[n v]|] eqn:R1.
  - injection E as <-. apply (resolve_ok r) in R1 as [C En]; [|done..]. by apply known_insert.
  - destruct (resolve_select_from_store known stores b a) as [[n v]|] eqn:R2; [|discriminate].
    injection E as <-. apply (resolve_ok r) in R2 as [C En]; [|done..]. by apply known_insert.
Qed.

Lemma propagate_ok r cs known :
  admissible r -> (forall c, c ∈ Chc.iter cs -> holds r c) -> known_ok r known ->
  known_ok r (propagate_through_equalities cs known).
Proof.
  intros Hr Hc K. pose proof (flatten_constraints r cs Hc) as Hf.
  unfold propagate_through_equalities. set (flat := flatten_conjunctions cs) in *.
  assert (K' : known_ok r (while_changed (2 * length flat) (for_all equality_step flat) known)).
  { apply while_changed_inv; [|done]. intros s Ks. apply for_all_inv; [|done].
    intros s0 e s' He Ks0 E. by eapply equality_step_ok; [..|exact E]; auto. }
  set (known' := while_changed _ _ known) in *. unfold resolve_array_store_selects.
  assert (S : stores_ok r (foldl (track_stores known') ∅ flat)) by by apply track_stores_ok.
  destruct (decide _); [done|]. apply while_changed_inv; [|done]. intros s Ks. apply for_all_inv; [|done].
  intros s0 e s' He Ks0 E. eapply resolve_step_ok; [done| |exact Ks0|by apply Hf|exact E].
  by apply aliases_ok.
Qed.

End Sound.

End ConstArraySpec.
