(* ===== verification/HeapLiveness.v ===== *)
(** * The guards of constant propagation

    trust-mc-core/src/chc_const_prop_heap_liveness.rs: the shapes of a system that
    the passes must treat with care, and the cycle check over the graph of block
    relations, which is exact. *)

From S2P Require Import Prelude AyExpr AyBuild Chc.

Module HeapLiveness.
Import AyBuild.

Section Guards.
Context `{AyApi}.

(** [is_scalarized_obj_valid_name] *)
Definition is_scalarized_obj_valid_name (name : string) : bool := Str.starts_with name "obj_valid_at_".

(** [expr_mentions_scalarized_obj_valid] *)
Definition obj_valid_node (v : ExprValue Sort Expr) (rec : Expr -> bool) : bool :=
  match v with
  | Var name => is_scalarized_obj_valid_name name
  | _ => existsb rec (subexprs v)
  end.
Definition expr_mentions_scalarized_obj_valid (e : Expr) : bool :=
  fold_expr obj_valid_node false (S (AyExpr.size e)) e.

(** [has_scalarized_obj_valid_liveness] *)
Definition app_mentions (app : Chc.RelationApp) : bool :=
  existsb expr_mentions_scalarized_obj_valid (Chc.args app).
Definition has_scalarized_obj_valid_liveness (vc : Chc.ChcVc) : bool :=
  existsb (fun v => is_scalarized_obj_valid_name (Chc.var_name v)) (Chc.vars vc) ||
  existsb (fun rule =>
    app_mentions (Chc.head rule) ||
    match Chc.relation (Chc.body rule) with Some relation => app_mentions relation | None => false end ||
    existsb expr_mentions_scalarized_obj_valid (Chc.iter (Chc.constraints (Chc.body rule))))
    (Chc.rules vc).

(** [var.sort.is_array()] *)
Definition is_array (s : Sort) : bool := bool_decide (is_Some (array_sort s)).

(** [is_heap_metadata_array], [is_scalarized_const_address_cell],
    [vc_mentions_heap_metadata], [has_scalarized_obj_size_bounds] *)
Definition is_heap_metadata_array (name : string) (array : bool) : bool :=
  array && (String.eqb name "obj_valid" || String.eqb name "obj_size" ||
            Str.starts_with name "obj_valid" || Str.starts_with name "obj_size").
Definition is_scalarized_const_address_cell (name : string) (array : bool) : bool :=
  negb array && Str.contains name "_mem_" && Str.contains name "_at_0x".
Definition vc_mentions_heap_metadata (vc : Chc.ChcVc) : bool :=
  existsb (fun v => is_heap_metadata_array (Chc.var_name v) (is_array (Chc.vsort v))) (Chc.vars vc).
Definition has_scalarized_obj_size_bounds (vc : Chc.ChcVc) : bool :=
  if negb (vc_mentions_heap_metadata vc) then false
  else existsb (fun v => is_scalarized_const_address_cell (Chc.var_name v) (is_array (Chc.vsort v)))
         (Chc.vars vc).

(** [is_error_reachable_head] *)
Definition is_error_reachable_head (name : string) : bool :=
  String.eqb name "error" || Str.starts_with name "error_p".

(** [expr_has_sdiv_over_mul], [has_signed_overflow_error_edge] *)
Definition sdiv_node (v : ExprValue Sort Expr) (rec : Expr -> bool) : bool :=
  match v with
  | Binary BvSDiv numerator _ => match value numerator with Binary BvMul _ _ => true | _ => false end
  | _ => false
  end || existsb rec (subexprs v).
Definition expr_has_sdiv_over_mul (e : Expr) : bool := fold_expr sdiv_node false (S (AyExpr.size e)) e.
Definition has_signed_overflow_error_edge (vc : Chc.ChcVc) : bool :=
  existsb (fun rule => is_error_reachable_head (Chc.head_name rule) &&
    existsb expr_has_sdiv_over_mul (Chc.iter (Chc.constraints (Chc.body rule)))) (Chc.rules vc).

(** [heap_liveness_positions]: the argument positions of a relation, by name. *)
Definition mark_heap_liveness_args (positions : gmap string (gset nat)) (app : Chc.RelationApp)
    : gmap string (gset nat) :=
  foldl (fun positions '(idx, arg) =>
    if expr_mentions_scalarized_obj_valid arg
    then <[Chc.app_name app := {[idx]} ∪ default ∅ (positions !! Chc.app_name app)]> positions
    else positions) positions (imap pair (Chc.args app)).
Definition heap_liveness_positions (vc : Chc.ChcVc) : gmap string (gset nat) :=
  foldl (fun positions rule => foldl mark_heap_liveness_args positions (Chc.rule_apps rule))
    ∅ (Chc.rules vc).

End Guards.

(** ** The graph of block relations *)

Abbreviation graph := (gmap string (gset string)).

(** The colours of the search; a node without one is unseen. *)
Inductive colour := OnStack | Done.
#[export] Instance colour_eq_dec : EqDecision colour.
Proof. solve_decision. Defined.

(** One entry per edge, and per unseen successor. *)
Definition succs (edges : graph) (node : string) : list string := elements (default ∅ (edges !! node)).

Definition push_succs (state : gmap string colour) (l : list string) (stack : list (string * bool))
    : list (string * bool) :=
  foldl (fun stack s => match state !! s with None => (s, false) :: stack | Some _ => stack end) stack l.

(** The loop of the search from a start: [None] when it returns [true], the colours
    when it ends. *)
Fixpoint dfs (edges : graph) (fuel : nat) (stack : list (string * bool)) (state : gmap string colour)
    : option (gmap string colour) :=
  match fuel with
  | O => Some state
  | S fuel' =>
      match stack with
      | [] => Some state
      | (node, true) :: stack => dfs edges fuel' stack (<[node := Done]> state)
      | (node, false) :: stack =>
          match state !! node with
          | Some _ => dfs edges fuel' stack state
          | None =>
              let state := <[node := OnStack]> state in
              let stack := (node, true) :: stack in
              if existsb (fun s => bool_decide (state !! s = Some OnStack)) (succs edges node)
              then None
              else dfs edges fuel' (push_succs state (succs edges node) stack) state
          end
      end
  end.

(** Every pop either drops an entry or colours a node. *)
Definition nodes (edges : graph) : gset string := dom edges ∪ ⋃ (map snd (map_to_list edges)).
Definition weight (edges : graph) (state : gmap string colour) : nat :=
  sum_list (map (fun n => S (S (length (succs edges n)))) (elements (nodes edges ∖ dom state))).
Definition dfs_fuel (edges : graph) : nat := S (S (weight edges ∅)).

(** [has_block_relation_cycle] *)
Definition block_edges `{AyExpr} (rules : list Chc.Rule) : graph :=
  foldl (fun edges rule =>
    let head := Chc.head_name rule in
    if is_error_reachable_head head then edges
    else
      match Chc.body_name rule with
      | Some body =>
          if is_error_reachable_head body then edges
          else <[body := {[head]} ∪ default ∅ (edges !! body)]> edges
      | None => edges
      end) ∅ rules.
Fixpoint search (edges : graph) (starts : list string) (state : gmap string colour) : bool :=
  match starts with
  | [] => false
  | start :: starts =>
      match state !! start with
      | Some _ => search edges starts state
      | None =>
          match dfs edges (dfs_fuel edges) [(start, false)] state with
          | None => true
          | Some state => search edges starts state
          end
      end
  end.
Definition has_block_relation_cycle `{AyExpr} (vc : Chc.ChcVc) : bool :=
  let edges := block_edges (Chc.rules vc) in
  search edges (map fst (map_to_list edges)) ∅.

(** ** The search *)

Section Search.
Context (edges : graph).

Definition edge (n m : string) : Prop := m ∈ succs edges n.

(** The nodes on the path of the search, the last first. *)
Fixpoint path (stack : list (string * bool)) : list string :=
  match stack with
  | [] => []
  | (n, true) :: stack => n :: path stack
  | (_, false) :: stack => path stack
  end.

(** Every entry is a successor of the node on the path below it. *)
Fixpoint linked (stack : list (string * bool)) : Prop :=
  match stack with
  | [] => True
  | (n, _) :: stack =>
      match path stack with p :: _ => edge p n | [] => True end /\ linked stack
  end.

(** The successors of a node on the path are coloured or pending above it. *)
Fixpoint pending (state : gmap string colour) (above : list string) (stack : list (string * bool)) : Prop :=
  match stack with
  | [] => True
  | (n, false) :: stack => pending state (n :: above) stack
  | (n, true) :: stack =>
      (forall s, edge n s -> state !! s = Some Done \/ s ∈ above) /\ pending state (n :: above) stack
  end.

(** A pending node is not on the path below it. *)
Fixpoint fresh (stack : list (string * bool)) : Prop :=
  match stack with
  | [] => True
  | (n, post) :: stack => n ∉ path stack /\ fresh stack
  end.

Record search_inv (stack : list (string * bool)) (state : gmap string colour) : Prop := {
  si_linked : linked stack;
  si_fresh : fresh stack;
  si_grey : forall n, state !! n = Some OnStack <-> n ∈ path stack;
  si_pending : pending state [] stack;
  si_closed : forall n s, state !! n = Some Done -> edge n s -> state !! s = Some Done;
  si_acyclic : forall n, state !! n = Some Done -> ~ tc edge n n;
}.

Lemma closed_tc (P : string -> Prop) n m :
  (forall a b, P a -> edge a b -> P b) -> P n -> tc edge n m -> P m.
Proof. intros C Pn T. induction T as [x y E|x y z E T IH]; [by eapply C|]. apply IH. by eapply C. Qed.

(** The path leads from each of its nodes to the last. *)
Lemma path_reaches stack n rest m :
  linked stack -> path stack = n :: rest -> m ∈ n :: rest -> m = n \/ tc edge m n.
Proof.
  revert n rest. induction stack as [|[k []] stack IH]; intros n rest L P Hm; [discriminate| |].
  - cbn in P, L. injection P as -> P. destruct L as [E L]. apply elem_of_cons in Hm as [->|Hm]; [by left|].
    right. rewrite P in E. destruct rest as [|p rest]; [by apply elem_of_nil in Hm|].
    destruct (IH p rest L P Hm) as [->|T]; [by constructor|].
    eapply tc_transitive; [exact T|by constructor].
  - cbn in P, L. destruct L as [_ L]. by apply (IH n rest).
Qed.

Lemma pending_mono state state' above above' stack :
  (forall s, state !! s = Some Done -> state' !! s = Some Done) ->
  (forall s, s ∈ above -> state' !! s = Some Done \/ s ∈ above') ->
  pending state above stack -> pending state' above' stack.
Proof.
  intros S. revert above above'. induction stack as [|[n []] stack IH]; intros above above' A P; cbn in *; [done| |].
  - destruct P as [P1 P2]. split.
    + intros s E. destruct (P1 s E) as [D|D]; [left; by apply S|by apply A].
    + eapply IH; [|exact P2]. intros s. rewrite !elem_of_cons. intros [->|Hs]; [by right; left|].
      destruct (A s Hs); [by left|by right; right].
  - eapply IH; [|exact P]. intros s. rewrite !elem_of_cons. intros [->|Hs]; [by right; left|].
    destruct (A s Hs); [by left|by right; right].
Qed.

(** Entries without a mark, pushed together. *)
Definition unmarked (l : list string) : list (string * bool) := map (fun s => (s, false)) l.

Lemma push_succs_eq state l stack :
  push_succs state l stack =
  unmarked (rev (List.filter (fun s => bool_decide (state !! s = None)) l)) ++ stack.
Proof.
  unfold push_succs, unmarked. revert stack. induction l as [|x l IH]; intros stack; cbn; [done|].
  rewrite IH. destruct (state !! x); cbn; [done|]. rewrite map_app, <- app_assoc. done.
Qed.

Lemma path_unmarked l stack : path (unmarked l ++ stack) = path stack.
Proof. by induction l. Qed.

Lemma linked_unmarked l p rest stack :
  linked stack -> path stack = p :: rest -> (forall s, s ∈ l -> edge p s) -> linked (unmarked l ++ stack).
Proof.
  intros L P. induction l as [|x l IH]; intros E; cbn; [done|]. split; [|apply IH; set_solver].
  fold (unmarked l). rewrite path_unmarked, P. apply E. left.
Qed.

Lemma fresh_unmarked l stack :
  fresh stack -> (forall s, s ∈ l -> s ∉ path stack) -> fresh (unmarked l ++ stack).
Proof.
  intros F. induction l as [|x l IH]; intros N; cbn; [done|]. split; [|apply IH; set_solver].
  fold (unmarked l). rewrite path_unmarked. apply N. left.
Qed.

Lemma pending_unmarked state above l stack :
  pending state above (unmarked l ++ stack) = pending state (rev l ++ above) stack.
Proof.
  revert above. induction l as [|x l IH]; intros above; cbn; [done|]. rewrite <- app_assoc. apply IH.
Qed.

(** ** One step of the search *)

Lemma inv_post n stack state :
  search_inv ((n, true) :: stack) state -> search_inv stack (<[n := Done]> state).
Proof.
  intros [L F G [P0 P] C A]. cbn in *. destruct L as [_ L], F as [Fn F].
  assert (Gn : state !! n = Some OnStack) by (apply G; left).
  assert (S : forall s, edge n s -> state !! s = Some Done).
  { intros s E. destruct (P0 s E) as [D|D]; [done|by apply elem_of_nil in D]. }
  split; [done|done| | | |].
  - intros m. destruct (decide (n = m)) as [->|Ne].
    + rewrite lookup_insert_eq. split; [discriminate|done].
    + rewrite lookup_insert_ne, G, elem_of_cons by done. naive_solver.
  - eapply pending_mono; [| |exact P].
    + intros s Hs. destruct (decide (n = s)) as [->|]; [by rewrite lookup_insert_eq|by rewrite lookup_insert_ne].
    + intros s ->%list_elem_of_singleton. left. by rewrite lookup_insert_eq.
  - intros m s Hm E. destruct (decide (n = s)) as [->|Ns]; [by rewrite lookup_insert_eq|].
    rewrite lookup_insert_ne by done. destruct (decide (n = m)) as [->|Nm]; [by apply S|].
    rewrite lookup_insert_ne in Hm by done. by apply (C m).
  - intros m Hm T. destruct (decide (n = m)) as [->|Nm].
    + inversion T as [x y E|x y z E T']; subst; [rewrite (S m E) in Gn; discriminate|].
      assert (D : state !! m = Some Done) by (eapply (closed_tc (fun x => state !! x = Some Done)); [|by apply S|done]; done).
      congruence.
    + rewrite lookup_insert_ne in Hm by done. by apply (A m).
Qed.

Lemma inv_skip n c stack state :
  state !! n = Some c -> search_inv ((n, false) :: stack) state -> search_inv stack state.
Proof.
  intros Sn [L F G P C A]. cbn in *. destruct L as [_ L], F as [Fn F].
  split; [done..| |done|done]. eapply pending_mono; [| |exact P]; [done|].
  intros s ->%list_elem_of_singleton. left. destruct c; [|done]. by apply G in Sn.
Qed.

Lemma inv_visit n stack state :
  state !! n = None -> (forall s, s ∈ succs edges n -> <[n := OnStack]> state !! s <> Some OnStack) ->
  search_inv ((n, false) :: stack) state ->
  search_inv (push_succs (<[n := OnStack]> state) (succs edges n) ((n, true) :: stack))
    (<[n := OnStack]> state).
Proof.
  intros Sn B [L F G P C A]. cbn in L, F, G, P. destruct L as [E L], F as [Fn F].
  set (state' := <[n := OnStack]> state) in *. rewrite push_succs_eq.
  set (l := rev _).
  assert (Hl : forall s, s ∈ l <-> s ∈ succs edges n /\ state' !! s = None).
  { intros s. subst l. rewrite list_elem_of_In, <- in_rev, filter_In, <- list_elem_of_In.
    by rewrite bool_decide_eq_true. }
  assert (Do : forall s, state' !! s = Some Done <-> state !! s = Some Done).
  { intros s. subst state'. destruct (decide (n = s)) as [->|]; [|by rewrite lookup_insert_ne].
    rewrite lookup_insert_eq. split; [discriminate|congruence]. }
  assert (Gr : forall m, state' !! m = Some OnStack <-> m ∈ n :: path stack).
  { intros m. subst state'. rewrite elem_of_cons, <- G. destruct (decide (n = m)) as [->|].
    - rewrite lookup_insert_eq. naive_solver.
    - rewrite lookup_insert_ne by done. naive_solver. }
  assert (L' : linked ((n, true) :: stack)) by done.
  split.
  - eapply linked_unmarked; [done|done|]. intros s Hs. by apply Hl in Hs as [Hs _].
  - apply fresh_unmarked; [done|]. intros s [_ Hs]%Hl Hp. apply Gr in Hp. congruence.
  - intros m. rewrite path_unmarked. apply Gr.
  - rewrite pending_unmarked. cbn. split.
    + intros s Hs. rewrite elem_of_app, list_elem_of_In, <- in_rev, <- list_elem_of_In, Hl.
      destruct (state' !! s) as [[]|] eqn:D; [|by left|right; by left]. by apply B in Hs.
    + eapply pending_mono; [| |exact P]; [by intros s; rewrite Do|].
      intros s ->%list_elem_of_singleton. right. left.
  - intros m s. rewrite !Do. apply C.
  - intros m. rewrite Do. apply A.
Qed.

(** ** The search ends, and finds a cycle exactly when there is one *)

Lemma sum_list_perm (l l' : list nat) : l ≡ₚ l' -> sum_list l = sum_list l'.
Proof. induction 1; cbn; lia. Qed.

Lemma sum_list_app (l l' : list nat) : sum_list (l ++ l') = (sum_list l + sum_list l')%nat.
Proof. induction l; cbn; lia. Qed.

Lemma weight_visit n state :
  n ∈ nodes edges -> state !! n = None ->
  (weight edges (<[n := OnStack]> state) + S (S (length (succs edges n))) = weight edges state)%nat.
Proof.
  intros Hn Sn. unfold weight.
  assert (E : nodes edges ∖ dom state = {[n]} ∪ (nodes edges ∖ dom (<[n := OnStack]> state))).
  { apply set_eq. intros m. rewrite dom_insert_L. assert (n ∉ dom state) by by apply not_elem_of_dom.
    destruct (decide (m = n)) as [->|]; set_solver. }
  rewrite E. erewrite (sum_list_perm (map _ (elements ({[n]} ∪ _)))); [|apply Permutation_map, elements_union_singleton; set_solver].
  cbn. lia.
Qed.

Lemma weight_done n c state : state !! n = Some c -> weight edges (<[n := Done]> state) = weight edges state.
Proof. intros Sn. unfold weight. by rewrite dom_insert_lookup_L by (by eexists). Qed.

Lemma succs_nodes n m : edge n m -> n ∈ nodes edges /\ m ∈ nodes edges.
Proof.
  unfold edge, succs, nodes. intros E. rewrite elem_of_elements in E.
  destruct (edges !! n) as [X|] eqn:L; cbn in E; [|set_solver].
  split; [apply elem_of_union_l, elem_of_dom; by eexists|]. apply elem_of_union_r, elem_of_union_list.
  exists X. split; [|done]. apply list_elem_of_fmap. exists (n, X). split; [done|].
  by apply elem_of_map_to_list.
Qed.

Lemma push_length state l stack : (length (push_succs state l stack) <= length l + length stack)%nat.
Proof.
  rewrite push_succs_eq, length_app. unfold unmarked. rewrite length_map, length_rev.
  pose proof (List.filter_length_le (fun s => bool_decide (state !! s = None)) l). lia.
Qed.

(** A coloured successor on the path closes a cycle. *)
Lemma back_edge_cycle n stack state s :
  search_inv ((n, false) :: stack) state -> edge n s -> <[n := OnStack]> state !! s = Some OnStack ->
  tc edge n n.
Proof.
  intros [L F G _ _ _] E Ss. cbn in L, G. destruct L as [En L].
  destruct (decide (n = s)) as [->|Ne]; [by constructor|]. rewrite lookup_insert_ne in Ss by done.
  apply G in Ss. destruct (path stack) as [|p rest] eqn:P; [by apply elem_of_nil in Ss|].
  destruct (path_reaches stack p rest s L P Ss) as [->|T].
  - eapply tc_l; [exact E|by constructor].
  - eapply tc_l; [exact E|]. eapply tc_transitive; [exact T|by constructor].
Qed.

Lemma dfs_spec fuel : forall stack state,
  search_inv stack state -> (forall e, e ∈ stack -> e.1 ∈ nodes edges) ->
  (weight edges state + length stack < fuel)%nat ->
  match dfs edges fuel stack state with
  | None => exists n, tc edge n n
  | Some state' =>
      search_inv [] state' /\ (forall n, is_Some (state !! n) -> is_Some (state' !! n)) /\
      (forall e, e ∈ stack -> is_Some (state' !! e.1))
  end.
Proof.
  induction fuel as [|fuel IH]; intros stack state I N W; [lia|]. cbn [dfs].
  destruct stack as [|[n []] stack].
  - split_and!; [done|done|]. intros e He. by apply elem_of_nil in He.
  - assert (Gn : state !! n = Some OnStack) by (apply I; left).
    specialize (IH stack (<[n := Done]> state) (inv_post n stack state I)).
    rewrite (weight_done n OnStack) in IH by done.
    destruct (dfs edges fuel stack _) as [state'|]; [|apply IH; [intros; apply N; by right|cbn in W; lia]].
    destruct IH as (I' & M & Vs); [intros; apply N; by right|cbn in W; lia|].
    assert (M' : forall m, is_Some (state !! m) -> is_Some (state' !! m)).
    { intros m Hm. apply M. destruct (decide (n = m)) as [->|]; [by rewrite lookup_insert_eq|by rewrite lookup_insert_ne]. }
    split_and!; [done|done|]. intros e [->|He]%elem_of_cons; [|by apply Vs]. apply M'. by eexists.
  - destruct (state !! n) as [c|] eqn:Sn.
    + specialize (IH stack state (inv_skip n c stack state Sn I)).
      destruct (dfs edges fuel stack _) as [state'|]; [|apply IH; [intros; apply N; by right|cbn in W; lia]].
      destruct IH as (I' & M & Vs); [intros; apply N; by right|cbn in W; lia|].
      split_and!; [done|done|]. intros e [->|He]%elem_of_cons; [|by apply Vs]. apply M. by eexists.
    + destruct (existsb _ _) eqn:B.
      * apply existsb_exists in B as (s & Hs & Ss%bool_decide_eq_true). exists n.
        eapply back_edge_cycle; [exact I| |exact Ss]. by apply list_elem_of_In.
      * assert (B' : forall s, s ∈ succs edges n -> <[n := OnStack]> state !! s <> Some OnStack).
        { intros s Hs Ss. assert (X : existsb (fun s => bool_decide (<[n := OnStack]> state !! s = Some OnStack))
            (succs edges n) = true); [|congruence].
          apply existsb_exists. exists s. split; [by apply list_elem_of_In|by apply bool_decide_eq_true]. }
        assert (Nn : n ∈ nodes edges) by (apply (N (n, false)); left).
        pose proof (weight_visit n state Nn Sn) as Wv.
        pose proof (push_length (<[n := OnStack]> state) (succs edges n) ((n, true) :: stack)) as Pl.
        specialize (IH _ _ (inv_visit n stack state Sn B' I)).
        set (stack' := push_succs _ _ _) in *.
        assert (N' : forall e, e ∈ stack' -> e.1 ∈ nodes edges).
        { subst stack'. rewrite push_succs_eq. intros e [He|[->|He]%elem_of_cons]%elem_of_app; [|done|apply N; by right].
          apply list_elem_of_fmap in He as (s & -> & Hs). cbn.
          rewrite list_elem_of_In, <- in_rev, filter_In, <- list_elem_of_In in Hs.
          apply (succs_nodes n s), Hs. }
        destruct (dfs edges fuel stack' _) as [state'|]; [|apply IH; [done|cbn in *; lia]].
        destruct IH as (I' & M & Vs); [done|cbn in *; lia|].
        assert (M' : forall m, is_Some (state !! m) -> is_Some (state' !! m)).
        { intros m Hm. apply M. destruct (decide (n = m)) as [->|]; [by rewrite lookup_insert_eq|by rewrite lookup_insert_ne]. }
        split_and!; [done|done|]. intros e [->|He]%elem_of_cons.
        -- apply M. cbn. by rewrite lookup_insert_eq.
        -- apply Vs. subst stack'. rewrite push_succs_eq. apply elem_of_app. right. by right.
Qed.

(** With nothing on the path every coloured node is done. *)
Lemma all_done state n : search_inv [] state -> is_Some (state !! n) -> state !! n = Some Done.
Proof. intros I [[] Hn]; [|done]. apply I in Hn. by apply elem_of_nil in Hn. Qed.

Lemma inv_start n state :
  search_inv [] state -> state !! n = None -> search_inv [(n, false)] state.
Proof.
  intros I Sn. pose proof I as [L F G P C A]. split; [by split|by split; [apply not_elem_of_nil|]| |done..].
  intros m. cbn. apply G.
Qed.

Lemma weight_empty state : (weight edges state <= weight edges ∅)%nat.
Proof.
  unfold weight.
  assert (S : nodes edges ∖ dom state ⊆ nodes edges ∖ dom (∅ : gmap string colour)) by set_solver.
  apply elements_submseteq, submseteq_Permutation in S as [l P].
  rewrite (sum_list_perm _ _ (Permutation_map _ P)), map_app, sum_list_app. lia.
Qed.

Lemma search_spec starts : forall state,
  search_inv [] state -> (forall n, n ∈ starts -> n ∈ nodes edges) ->
  if search edges starts state then exists n, tc edge n n
  else exists state', search_inv [] state' /\ (forall n, n ∈ starts -> state' !! n = Some Done) /\
    (forall n, is_Some (state !! n) -> is_Some (state' !! n)).
Proof.
  induction starts as [|n starts IH]; intros state I N; cbn [search].
  { exists state. split_and!; [done| |done]. intros n Hn. by apply elem_of_nil in Hn. }
  assert (N' : forall n, n ∈ starts -> n ∈ nodes edges) by (intros; apply N; by right).
  destruct (state !! n) as [c|] eqn:Sn.
  - specialize (IH state I N'). destruct (search edges starts state); [done|].
    destruct IH as (state' & I' & D & M). exists state'. split_and!; [done| |done].
    intros m [->|Hm]%elem_of_cons; [|by apply D]. apply all_done; [done|]. apply M. by eexists.
  - pose proof (dfs_spec (dfs_fuel edges) [(n, false)] state (inv_start n state I Sn)) as Ds.
    assert (W : (weight edges state + length [(n, false)] < dfs_fuel edges)%nat).
    { pose proof (weight_empty state). unfold dfs_fuel. cbn. lia. }
    assert (N1 : forall e, e ∈ [(n, false)] -> e.1 ∈ nodes edges).
    { intros e ->%list_elem_of_singleton. apply N. left. }
    specialize (Ds N1 W). destruct (dfs edges _ _ state) as [state1|]; [|done].
    destruct Ds as (I1 & M1 & V1). specialize (IH state1 I1 N'). destruct (search edges starts state1); [done|].
    destruct IH as (state' & I' & D & M). exists state'. split_and!; [done| |].
    + intros m [->|Hm]%elem_of_cons; [|by apply D]. apply all_done; [done|]. apply M.
      by apply (V1 (n, false)); left.
    + intros m Hm. by apply M, M1.
Qed.

Lemma search_exact :
  search edges (map fst (map_to_list edges)) ∅ = true <-> exists n, tc edge n n.
Proof.
  assert (I : search_inv [] ∅).
  { split; [done|done| |done| |]; intros n; rewrite lookup_empty; [|done..].
    split; [done|]. intros H. by apply elem_of_nil in H. }
  assert (K : forall n, n ∈ map fst (map_to_list edges) <-> n ∈ dom edges).
  { intros n. rewrite elem_of_dom, list_elem_of_fmap. split.
    - intros ([? X] & -> & Hx%elem_of_map_to_list). by eexists.
    - intros [X L]. exists (n, X). split; [done|]. by apply elem_of_map_to_list. }
  pose proof (search_spec (map fst (map_to_list edges)) ∅ I) as S.
  assert (N : forall n, n ∈ map fst (map_to_list edges) -> n ∈ nodes edges)
    by (intros n Hn; apply elem_of_union_l; by apply K).
  specialize (S N). destruct (search edges _ ∅); [done|]. split; [done|]. intros [n T].
  destruct S as (state & I' & D & _). exfalso.
  assert (Hn : n ∈ dom edges).
  { assert (exists m, edge n m) as [m E] by (inversion T; eauto). unfold edge, succs in E.
    apply elem_of_dom. destruct (edges !! n); [by eexists|set_solver]. }
  apply K, D in Hn. by apply (si_acyclic _ _ I' n).
Qed.

End Search.

(** ** The cycle check *)

(** A rule steps from the relation of its body to that of its head; the error
    relations are left out. *)
Definition block_edge `{AyExpr} (rules : list Chc.Rule) (n m : string) : Prop :=
  is_error_reachable_head n = false /\ is_error_reachable_head m = false /\
  exists r, r ∈ rules /\ Chc.body_name r = Some n /\ Chc.head_name r = m.

Lemma edge_insert edges n m x y :
  edge (<[n := {[m]} ∪ default ∅ (edges !! n)]> edges) x y <-> edge edges x y \/ (x = n /\ y = m).
Proof.
  unfold edge, succs. rewrite !elem_of_elements. destruct (decide (n = x)) as [->|Ne].
  - rewrite lookup_insert_eq. cbn. set_solver.
  - rewrite lookup_insert_ne by done. naive_solver.
Qed.

Lemma block_edges_spec `{AyExpr} rules n m : edge (block_edges rules) n m <-> block_edge rules n m.
Proof.
  unfold block_edges, block_edge. induction rules as [|r rules IH] using rev_ind.
  { cbn. unfold edge, succs. rewrite elem_of_elements, lookup_empty. set_solver. }
  rewrite foldl_snoc. setoid_rewrite elem_of_app. setoid_rewrite list_elem_of_singleton.
  destruct (is_error_reachable_head (Chc.head_name r)) eqn:Eh; [naive_solver congruence|].
  destruct (Chc.body_name r) as [b|] eqn:Eb; [|naive_solver].
  destruct (is_error_reachable_head b) eqn:Ee; [naive_solver congruence|].
  rewrite edge_insert, IH. naive_solver.
Qed.

(** the cycle check is exact and ends.  [has_block_relation_cycle] returns true
    exactly when some relation reaches itself through the rules between relations
    that are not error relations, whatever the order in which the search visits
    them; the fuel of the search always suffices. *)
Theorem cycle_check_exact `{AyExpr} (vc : Chc.ChcVc) :
  has_block_relation_cycle vc = true <-> exists n, tc (block_edge (Chc.rules vc)) n n.
Proof.
  unfold has_block_relation_cycle. rewrite search_exact.
  assert (T : forall n m, tc (edge (block_edges (Chc.rules vc))) n m <-> tc (block_edge (Chc.rules vc)) n m).
  { intros n m. split; intros X; induction X as [x y E|x y z E X IH];
      [constructor|econstructor|constructor|econstructor]; try done; by apply block_edges_spec. }
  by setoid_rewrite T.
Qed.

End HeapLiveness.
