(* ===== verification/ConstProp.v ===== *)
(** * Constant propagation

    chc_const_prop.rs and chc_const_prop_identity.rs of trust-mc-core: relation
    arguments that are the same constant in every fact are found, put into the
    rules and removed from the relations, until there are none left; then the rules
    with a false body are dropped and true constraints stripped. *)

From S2P Require Import Prelude Text AyExpr BvArith AyBuild Chc ConstEval ConstSubst ConstArray DeadVars HeapLiveness.

Module ConstProp.
Import AyBuild ConstEval ConstSubst ConstArray HeapLiveness.

Section Pass.
Context `{AyApi}.

Abbreviation known_map := (gmap string Expr).

(** ** Identity positions *)

(** The equivalences of [detect_identity_positions] *)
Definition equiv_step (var_equiv : gmap string string) (e : Expr) : gmap string string :=
  match value e with
  | Eq lhs rhs =>
      match var_name lhs, var_name rhs with
      | Some a, Some b => <[b := a]> (<[a := b]> var_equiv)
      | _, _ => var_equiv
      end
  | _ => var_equiv
  end.

(** [detect_identity_positions] *)
Definition is_identity (var_equiv : gmap string string) (head_arg body_arg : Expr) : bool :=
  match var_name head_arg, var_name body_arg with
  | Some head_name, Some body_name =>
      String.eqb head_name body_name || bool_decide (var_equiv !! head_name = Some body_name)
  | _, _ => false
  end.
Definition detect_identity_positions (rule : Chc.Rule) : list nat :=
  match Chc.relation (Chc.body rule) with
  | None => []
  | Some body_rel =>
      if negb (String.eqb (Chc.app_name body_rel) (Chc.head_name rule)) then []
      else
        let var_equiv := foldl equiv_step ∅ (Chc.iter (Chc.constraints (Chc.body rule))) in
        map fst (List.filter (fun p => is_identity var_equiv p.2.1 p.2.2)
          (imap pair (zip (Chc.args (Chc.head rule)) (Chc.args body_rel))))
  end.

(** ** The constant positions *)

(** The arguments with the known variables replaced. *)
Definition resolve_arg (known : known_map) (arg : Expr) : Expr :=
  match var_name arg with Some name => default arg (known !! name) | None => arg end.

(** [resolve_head_args] *)
Definition resolve_head_args (rule : Chc.Rule) : list Expr :=
  let known := propagate_through_equalities (Chc.constraints (Chc.body rule)) ∅ in
  map (resolve_arg known) (Chc.args (Chc.head rule)).

(** [unique_constant] *)
Definition unique_constant (values : list Expr) : option Expr :=
  match values with
  | [] => None
  | first :: rest =>
      if negb (is_constant first) then None
      else if forallb (fun v => bool_decide (v = first)) rest then Some first else None
  end.

(** The values of a relation's positions with those of one more rule. *)
Definition push_values (identity : list nat) (resolved : list Expr) (entry : list (list Expr))
    : list (list Expr) :=
  let entry := entry ++ replicate (length resolved - length entry) [] in
  imap (fun i values =>
    if bool_decide (i ∈ identity) then values
    else match resolved !! i with Some arg => values ++ [arg] | None => values end) entry.
Definition collect_step (position_values : gmap string (list (list Expr))) (rule : Chc.Rule)
    : gmap string (list (list Expr)) :=
  let name := Chc.head_name rule in
  <[name := push_values (detect_identity_positions rule) (resolve_head_args rule)
              (default [] (position_values !! name))]> position_values.
Definition position_values (vc : Chc.ChcVc) : gmap string (list (list Expr)) :=
  foldl collect_step ∅ (Chc.rules vc).

(** [identify_constant_positions]; a relation without a constant has no entry. *)
Definition constant_positions (protected_positions : gmap string (gset nat)) (name : string)
    (positions : list (list Expr)) : list (option Expr) :=
  imap (fun pos values =>
    if bool_decide (pos ∈ default ∅ (protected_positions !! name)) then None
    else unique_constant values) positions.
Definition has_any (constants : list (option Expr)) : bool :=
  existsb (fun c => bool_decide (is_Some c)) constants.
Definition identify_constant_positions (vc : Chc.ChcVc) : gmap string (list (option Expr)) :=
  let protected_positions := heap_liveness_positions vc in
  map_imap (fun name positions =>
    let constants := constant_positions protected_positions name positions in
    if has_any constants then Some constants else None) (position_values vc).

(** ** Applying them *)

(** The known constants of the body arguments. *)
Definition body_known (rel_constants : list (option Expr)) (args : list Expr) : known_map :=
  foldl (fun known '(maybe_const, arg) =>
    match maybe_const, var_name arg with
    | Some c, Some name => <[name := c]> known
    | _, _ => known
    end) ∅ (zip rel_constants args).

(** The arguments at positions without a constant. *)
Definition strip_args {A} (rel_consts : list (option Expr)) (args : list A) : list A :=
  map snd (List.filter (fun p => match rel_consts !! p.1 with Some (Some _) => false | _ => true end)
    (imap pair args)).

Definition strip_app (constants : gmap string (list (option Expr))) (app : Chc.RelationApp)
    : Chc.RelationApp :=
  match constants !! Chc.app_name app with
  | Some rel_consts => {| Chc.app_name := Chc.app_name app; Chc.args := strip_args rel_consts (Chc.args app) |}
  | None => app
  end.

(** What a rule body knows once the body arguments have their constants. *)
Definition rule_known (rel_constants : list (option Expr)) (body_rel : Chc.RelationApp)
    (rule : Chc.Rule) : known_map :=
  propagate_to_unconstrained_out_vars (Chc.args (Chc.head rule)) (Chc.constraints (Chc.body rule))
    (propagate_through_equalities (Chc.constraints (Chc.body rule))
      (body_known rel_constants (Chc.args body_rel))).

(** The equalities that are added back for the variables of the body arguments *)
Definition readded (body_rel : Chc.RelationApp) (known : known_map) : list Expr :=
  let body_rel_var_names : gset string := list_to_set (omap var_name (Chc.args body_rel)) in
  flat_map (fun '(name, c) =>
    if decide (name ∈ body_rel_var_names) then [mk_eq (expr_var name (sort_of c)) c] else [])
    (map_to_list known).

(** Phase 1 of [apply_constant_propagation], for one rule *)
Definition propagate_rule (constants : gmap string (list (option Expr))) (rule : Chc.Rule) : Chc.Rule :=
  match Chc.relation (Chc.body rule) with
  | None => rule
  | Some body_rel =>
      match constants !! Chc.app_name body_rel with
      | None => rule
      | Some rel_constants =>
          if decide (body_known rel_constants (Chc.args body_rel) = ∅) then rule
          else
            let known := rule_known rel_constants body_rel rule in
            let substituted :=
              map (fun c => substitute_vars c known) (Chc.iter (Chc.constraints (Chc.body rule))) in
            {| Chc.body :=
                 {| Chc.relation := Some (strip_app constants body_rel);
                    Chc.constraints := Chc.Owned (substituted ++ readded body_rel known) |};
               Chc.head :=
                 {| Chc.app_name := Chc.app_name (Chc.head rule);
                    Chc.args := map (resolve_arg known) (Chc.args (Chc.head rule)) |} |}
      end
  end.

(** Phase 2 of [apply_constant_propagation] *)
Definition strip_head (constants : gmap string (list (option Expr))) (rule : Chc.Rule) : Chc.Rule :=
  {| Chc.body := Chc.body rule; Chc.head := strip_app constants (Chc.head rule) |}.
Definition strip_decl (constants : gmap string (list (option Expr))) (rel : Chc.RelationDecl)
    : nat * Chc.RelationDecl :=
  match constants !! Chc.rel_name rel with
  | Some rel_consts =>
      let arg_sorts := strip_args rel_consts (Chc.arg_sorts rel) in
      ((length (Chc.arg_sorts rel) - length arg_sorts)%nat,
       {| Chc.rel_name := Chc.rel_name rel; Chc.arg_sorts := arg_sorts |})
  | None => (0%nat, rel)
  end.

(** [apply_constant_propagation] *)
Definition apply_constant_propagation (vc : Chc.ChcVc) (constants : gmap string (list (option Expr)))
    : nat * Chc.ChcVc :=
  let decls := map (strip_decl constants) (Chc.relations vc) in
  (sum_list (map fst decls),
   Chc.set_rules (map snd decls)
     (map (strip_head constants) (map (propagate_rule constants) (Chc.rules vc))) vc).

(** ** The pass *)

(** [eliminate_trivially_false_rules] *)
Definition retain_rule (rule : Chc.Rule) : bool :=
  let head := Chc.head_name rule in
  if (String.eqb head "error" || Str.starts_with head "error_p") && DeadVars.rule_body_is_literal_false rule
  then true
  else negb (has_false_conjunct (Chc.constraints (Chc.body rule))).
Definition eliminate_trivially_false_rules (vc : Chc.ChcVc) : nat * Chc.ChcVc :=
  let rules := List.filter retain_rule (Chc.rules vc) in
  ((length (Chc.rules vc) - length rules)%nat, Chc.set_rules (Chc.relations vc) rules vc).

(** The loop of [propagate_constants]: every round but the last strips an argument
    from a declaration, so there are at most as many rounds as arguments. *)
Fixpoint propagate_loop (fuel : nat) (vc : Chc.ChcVc) : nat * Chc.ChcVc :=
  let constants := identify_constant_positions vc in
  if decide (constants = ∅) then (0%nat, vc)
  else
    let '(propagated, vc) := apply_constant_propagation vc constants in
    if Nat.eqb propagated 0 then (0%nat, vc)
    else
      match fuel with
      | O => (propagated, vc)
      | S fuel' => let '(total, vc) := propagate_loop fuel' vc in ((propagated + total)%nat, vc)
      end.
Definition declared_args (vc : Chc.ChcVc) : nat := sum_list (map Chc.arity (Chc.relations vc)).

(** [propagate_constants] *)
Definition propagate_constants (vc : Chc.ChcVc) : nat * Chc.ChcVc :=
  let '(total_propagated, vc) := propagate_loop (declared_args vc) vc in
  let '(_, vc) := eliminate_trivially_false_rules vc in
  let '(_, vc) := strip_trivially_true_constraints vc in
  (total_propagated, vc).

End Pass.

End ConstProp.
