(* ===== verification/ConstPropSpec.v ===== *)
(** * Correctness of constant propagation

    The positions found constant hold the constant in every derivable fact;
    removing them loses no derivation that reads an unconstrained [__out] variable
    as unchanged; dropping false rules and true constraints changes nothing; the
    loop of the pass ends on its own. *)

From S2P Require Import Prelude AyExpr Chc DeadVars Text BvArith AyBuild ConstEval ConstEvalSpec ConstSubst ConstArray HeapLiveness ConstProp.

Module ConstPropSpec.
Import AyBuild ConstEval ConstEvalSpec ConstSubst ConstSubstSpec ConstArray ConstArraySpec ConstProp.

(** ** Arguments *)

Section Args.
Context `{AyApi}.

(** The elements at the positions that [g] keeps. *)
Definition keep {A} (g : nat -> bool) (l : list A) : list A :=
  map snd (List.filter (fun p => g p.1) (imap pair l)).

Lemma keep_cons {A} g (x : A) l :
  keep g (x :: l) = (if g 0%nat then [x] else []) ++ keep (fun i => g (S i)) l.
Proof.
  unfold keep. cbn.
  assert (E : imap (pair ∘ S) l = map (fun p => (S p.1, p.2)) (imap pair l)).
  { apply list_eq. intros i. change (map ?f ?m) with (f <$> m).
    rewrite list_lookup_fmap, !list_lookup_imap. by destruct (l !! i). }
  rewrite E.
  assert (K : forall m : list (nat * A), map snd (List.filter (fun p => g p.1) (map (fun p => (S p.1, p.2)) m)) =
    map snd (List.filter (fun p => g (S p.1)) m)).
  { induction m as [|[j y] m IH]; cbn; [done|]. destruct (g (S j)); cbn; by rewrite IH. }
  destruct (g 0%nat); cbn; by rewrite K.
Qed.

Lemma keep_map {A B} (f : A -> B) g l : keep g (map f l) = map f (keep g l).
Proof.
  revert g. induction l as [|x l IH]; intros g; [done|]. cbn [map]. rewrite !keep_cons, map_app, IH.
  by destruct (g 0%nat).
Qed.

Lemma keep_same_length {A B} g (l : list A) (l' : list B) :
  length l = length l' -> length (keep g l) = length (keep g l').
Proof.
  revert g l'. induction l as [|x l IH]; intros g [|y l'] L; try discriminate; [done|].
  injection L as L. rewrite !keep_cons, !length_app, (IH _ l') by done. by destruct (g 0%nat).
Qed.

Lemma keep_le {A} g (l : list A) : (length (keep g l) <= length l)%nat.
Proof.
  revert g. induction l as [|x l IH]; intros g; [done|]. rewrite keep_cons, length_app.
  specialize (IH (fun i => g (S i))). destruct (g 0%nat); cbn; lia.
Qed.

Lemma strip_args_map {A B} (f : A -> B) cs l : strip_args cs (map f l) = map f (strip_args cs l).
Proof. apply (keep_map f (fun i => match cs !! i with Some (Some _) => false | _ => true end)). Qed.

End Args.

(** ** The constant positions *)

Section Positions.
Context `{Encoder}.

Lemma equiv_ok r cs : forall ve,
  (forall c, c ∈ cs -> holds r c) -> (forall x y, ve !! x = Some y -> r x = r y) ->
  forall x y, foldl equiv_step ve cs !! x = Some y -> r x = r y.
Proof.
  induction cs as [|e cs IH]; intros ve Hc V x y L; cbn in L; [by apply V|].
  eapply IH; [intros; apply Hc; by right| |exact L]. clear x y L. intros x y L. unfold equiv_step in L.
  destruct (value e) as [| | | | |a b| | | | | | | | | | |] eqn:Ve; try (by apply V).
  destruct (var_name a) as [n|] eqn:Na; [|by apply V]. destruct (var_name b) as [m|] eqn:Nb; [|by apply V].
  assert (E : r n = r m).
  { rewrite <- (var_name_eval r a n Na), <- (var_name_eval r b m Nb). apply (eval_eq r e a b Ve), Hc. left. }
  apply lookup_insert_Some in L as [[<- <-]|[_ L]]; [done|].
  apply lookup_insert_Some in L as [[<- <-]|[_ L]]; [done|by apply V].
Qed.

(** At an identity position the head argument is the body argument. *)
Lemma identity_ok r rule i h :
  (forall c, c ∈ Chc.iter (Chc.constraints (Chc.body rule)) -> holds r c) ->
  i ∈ detect_identity_positions rule -> Chc.args (Chc.head rule) !! i = Some h ->
  exists app b, Chc.relation (Chc.body rule) = Some app /\ Chc.app_name app = Chc.head_name rule /\
    Chc.args app !! i = Some b /\ eval r h = eval r b.
Proof.
  intros Hc Hi Lh. unfold detect_identity_positions in Hi.
  destruct (Chc.relation (Chc.body rule)) as [app|]; [|by apply elem_of_nil in Hi].
  destruct (String.eqb_spec (Chc.app_name app) (Chc.head_name rule)) as [E|]; [|by apply elem_of_nil in Hi].
  cbn [negb] in Hi. apply list_elem_of_fmap in Hi as ([j [h' b]] & -> & Hin).
  apply list_elem_of_In, filter_In in Hin as [Hin Id]. cbn in *.
  apply list_elem_of_In, elem_of_lookup_imap in Hin as (k & [h'' b''] & [= -> -> ->] & L).
  apply lookup_zip_Some in L as [L1 L2]. rewrite Lh in L1. injection L1 as <-.
  exists app, b''. split_and!; [done..|]. unfold is_identity in Id.
  destruct (var_name h) as [n|] eqn:N; [|discriminate]. destruct (var_name b'') as [m|] eqn:M; [|discriminate].
  rewrite (var_name_eval r h n N), (var_name_eval r b'' m M).
  apply orb_true_iff in Id as [->%String.eqb_eq|Id]; [done|]. apply bool_decide_eq_true in Id.
  eapply equiv_ok; [exact Hc| |exact Id]. intros x y L. by rewrite lookup_empty in L.
Qed.

Lemma resolve_arg_ok r known arg : known_ok r known -> eval r (resolve_arg known arg) = eval r arg.
Proof.
  intros K. unfold resolve_arg. destruct (var_name arg) as [n|] eqn:N; [|done].
  destruct (known !! n) as [c|] eqn:L; [|done]. cbn. rewrite (var_name_eval r arg n N). symmetry. by apply K.
Qed.

(** Every resolved head argument is among the values of its position. *)
Definition covers (pv : gmap string (list (list Expr))) (name : string) (i : nat) (a : Expr) : Prop :=
  exists ps vs, pv !! name = Some ps /\ ps !! i = Some vs /\ a ∈ vs.

Lemma push_values_lookup identity resolved entry i :
  push_values identity resolved entry !! i =
  (fun values => if bool_decide (i ∈ identity) then values
    else match resolved !! i with Some arg => values ++ [arg] | None => values end)
  <$> (entry ++ replicate (length resolved - length entry) []) !! i.
Proof. unfold push_values. by rewrite list_lookup_imap. Qed.

Lemma collect_keeps pv rule name i a : covers pv name i a -> covers (collect_step pv rule) name i a.
Proof.
  intros (ps & vs & P & L & A). unfold covers, collect_step.
  destruct (decide (Chc.head_name rule = name)) as [<-|N];
    [|rewrite lookup_insert_ne by done; by exists ps, vs].
  rewrite lookup_insert_eq, P. cbn [default].
  exists (push_values (detect_identity_positions rule) (resolve_head_args rule) ps).
  rewrite push_values_lookup, lookup_app_l by (by eapply lookup_lt_Some). rewrite L. cbn.
  eexists. split_and!; [done..|]. destruct (bool_decide _); [done|].
  destruct (resolve_head_args rule !! i); [set_solver|done].
Qed.

Lemma collect_adds pv rule i a :
  i ∉ detect_identity_positions rule -> resolve_head_args rule !! i = Some a ->
  covers (collect_step pv rule) (Chc.head_name rule) i a.
Proof.
  intros Hi L. unfold covers, collect_step. rewrite lookup_insert_eq.
  set (entry := default [] (pv !! Chc.head_name rule)).
  exists (push_values (detect_identity_positions rule) (resolve_head_args rule) entry).
  assert (Hl : (i < length (entry ++ replicate (length (resolve_head_args rule) - length entry) []))%nat).
  { rewrite length_app, length_replicate. apply lookup_lt_Some in L. lia. }
  apply lookup_lt_is_Some in Hl as [vs Hvs].
  exists (vs ++ [a]). rewrite push_values_lookup, Hvs. cbn. rewrite bool_decide_eq_false_2, L by done.
  split_and!; [done..|]. set_solver.
Qed.

Lemma covers_all rules rule i a :
  rule ∈ rules -> i ∉ detect_identity_positions rule -> resolve_head_args rule !! i = Some a ->
  covers (foldl collect_step ∅ rules) (Chc.head_name rule) i a.
Proof.
  intros Hr Hi L. induction rules as [|x rules IH] using rev_ind; [by apply elem_of_nil in Hr|].
  rewrite foldl_snoc. apply elem_of_app in Hr as [Hr|Hr]; [|apply list_elem_of_singleton in Hr as ->].
  - by apply collect_keeps, IH.
  - by apply collect_adds.
Qed.

Lemma unique_constant_ok vs c :
  unique_constant vs = Some c -> is_constant c = true /\ forall a, a ∈ vs -> a = c.
Proof.
  unfold unique_constant. destruct vs as [|x vs]; [discriminate|].
  destruct (is_constant x) eqn:C; [|discriminate]. cbn [negb].
  destruct (forallb _ vs) eqn:F; [|discriminate]. intros [= <-]. split; [done|].
  intros a [->|Ha]%elem_of_cons; [done|]. rewrite forallb_forall in F.
  by apply list_elem_of_In, F, bool_decide_eq_true in Ha.
Qed.

Lemma identify_lookup vc name consts i c :
  identify_constant_positions vc !! name = Some consts -> consts !! i = Some (Some c) ->
  exists ps vs, position_values vc !! name = Some ps /\ ps !! i = Some vs /\ unique_constant vs = Some c.
Proof.
  unfold identify_constant_positions. rewrite map_lookup_imap.
  destruct (position_values vc !! name) as [ps|]; [|discriminate]. cbn.
  destruct (has_any _); [|discriminate]. intros [= <-]. unfold constant_positions.
  rewrite list_lookup_imap. destruct (ps !! i) as [vs|] eqn:L; [|discriminate]. cbn.
  destruct (bool_decide _); [discriminate|]. intros [= U]. by exists ps, vs.
Qed.

(** A position found constant holds the constant in every derivable fact. *)
Lemma identify_holds vc name vs :
  Chc.derivable (Chc.rules vc) name vs ->
  forall consts i c v, identify_constant_positions vc !! name = Some consts ->
    consts !! i = Some (Some c) -> vs !! i = Some v ->
    is_constant c = true /\ forall r, v = eval r c.
Proof.
  intros D. induction D as [rule rho Hr Ha Hc Hb IH]. intros consts i c v L Lc Lv.
  destruct (identify_lookup vc _ consts i c L Lc) as (ps & values & P & Lp & U).
  apply unique_constant_ok in U as [C U].
  change (map ?f ?l) with (f <$> l) in Lv. rewrite list_lookup_fmap in Lv.
  destruct (Chc.args (Chc.head rule) !! i) as [h|] eqn:Lh; [|discriminate]. injection Lv as <-.
  destruct (decide (i ∈ detect_identity_positions rule)) as [Id|Id].
  - destruct (identity_ok rho rule i h Hc Id Lh) as (app & b & Eb & En & Lb & ->).
    apply (IH app Eb consts i c); [by rewrite En|done|].
    change (map ?f ?l) with (f <$> l). by rewrite list_lookup_fmap, Lb.
  - split; [done|]. intros r.
    set (known := propagate_through_equalities (Chc.constraints (Chc.body rule)) ∅).
    assert (K : known_ok rho known).
    { apply propagate_ok; [done|done|]. intros n x Ln. by rewrite lookup_empty in Ln. }
    assert (R : resolve_head_args rule !! i = Some (resolve_arg known h)).
    { unfold resolve_head_args. change (map ?f ?l) with (f <$> l). by rewrite list_lookup_fmap, Lh. }
    destruct (covers_all (Chc.rules vc) rule i _ Hr Id R) as (ps' & vs' & P' & Lp' & Hin).
    unfold position_values in P. rewrite P in P'. injection P' as <-. rewrite Lp in Lp'. injection Lp' as <-.
    apply U in Hin. rewrite <- (resolve_arg_ok rho known h K), Hin. by apply constant_eval.
Qed.

End Positions.

(** ** Removing the positions *)

Section Apply.
Context `{Encoder}.

(** The reading of the encoder: an [__out] variable of the head that no constraint
    mentions is the variable it is the next value of. *)
Definition constrained_names (rule : Chc.Rule) : option (list string) :=
  concat_all (map collect_constraint_vars (flatten_conjunctions (Chc.constraints (Chc.body rule)))).
Definition frames (rule : Chc.Rule) (rho : string -> val) : Prop :=
  forall names arg n base, constrained_names rule = Some names -> arg ∈ Chc.args (Chc.head rule) ->
    value arg = Var n -> Str.strip_suffix n "__out" = Some base -> n ∉ names -> rho n = rho base.

(** Derivations by valuations that read the rules that way. *)
Inductive framed (rs : list Chc.Rule) : string -> list val -> Prop :=
  | framed_rule r rho :
      r ∈ rs -> admissible rho -> frames r rho ->
      (forall c, c ∈ Chc.iter (Chc.constraints (Chc.body r)) -> is_true (eval rho c)) ->
      (forall app, Chc.relation (Chc.body r) = Some app ->
        framed rs (Chc.app_name app) (map (eval rho) (Chc.args app))) ->
      framed rs (Chc.head_name r) (map (eval rho) (Chc.args (Chc.head r))).

Lemma framed_derivable rs n vs : framed rs n vs -> Chc.derivable rs n vs.
Proof. intros F. induction F as [r rho Hr Ha Hf Hc Hb IH]. by apply Chc.derive. Qed.

Lemma body_known_ok r consts args :
  (forall i c a, consts !! i = Some (Some c) -> args !! i = Some a -> is_constant c = true /\ eval r a = eval r c) ->
  known_ok r (body_known consts args).
Proof.
  intros Hc. unfold body_known.
  assert (G : forall l known, known_ok r known ->
    (forall c a, (Some c, a) ∈ l -> is_constant c = true /\ eval r a = eval r c) ->
    known_ok r (foldl (fun known '(maybe_const, arg) =>
      match maybe_const, var_name arg with
      | Some c, Some name => <[name := c]> known | _, _ => known end) known l)).
  { induction l as [|[[c|] a] l IH]; intros known K P; cbn; [done| |].
    - apply IH; [|intros; apply P; by right]. destruct (var_name a) as [n|] eqn:N; [|done].
      destruct (P c a ltac:(left)) as [C E]. apply known_insert; [done..|].
      by rewrite <- E, (var_name_eval r a n N).
    - apply IH; [done|]. intros; apply P; by right. }
  apply G.
  - intros n c L. by rewrite lookup_empty in L.
  - intros c a Hin. apply list_elem_of_lookup in Hin as [i L]. apply lookup_zip_Some in L as [L1 L2].
    by apply (Hc i).
Qed.

Lemma out_vars_ok r args cs known :
  (forall names arg n base, concat_all (map collect_constraint_vars (flatten_conjunctions cs)) = Some names ->
     arg ∈ args -> value arg = Var n -> Str.strip_suffix n "__out" = Some base -> n ∉ names -> r n = r base) ->
  known_ok r known -> known_ok r (propagate_to_unconstrained_out_vars args cs known).
Proof.
  unfold propagate_to_unconstrained_out_vars. intros F K.
  destruct (concat_all _) as [names|]; [|done].
  assert (G : forall l known, known_ok r known -> (forall a, a ∈ l -> a ∈ args) ->
    known_ok r (foldl (out_var_step (list_to_set names)) known l)).
  { clear known K. induction l as [|a l IH]; intros known K Hl; cbn; [done|].
    apply IH; [|intros; apply Hl; by right]. unfold out_var_step.
    destruct (value a) as [n| | | | | | | | | | | | | | | |] eqn:V; try done.
    destruct (Str.strip_suffix n "__out") as [base|] eqn:S; [|done].
    destruct (decide _) as [[Nn _]|]; [|done]. destruct (known !! base) as [c|] eqn:L; [|done].
    destruct (K base c L) as [C E]. apply known_insert; [done..|]. rewrite <- E.
    eapply F; [done|apply Hl; left|done|done|]. by rewrite elem_of_list_to_set in Nn. }
  by apply G.
Qed.

Lemma readded_ok r app known c : known_ok r known -> c ∈ readded app known -> is_true (eval r c).
Proof.
  intros K Hc. unfold readded in Hc. apply elem_of_flat_map in Hc as ([n v] & Hin & Hc).
  destruct (decide _); [|by apply elem_of_nil in Hc]. apply list_elem_of_singleton in Hc as ->.
  apply elem_of_map_to_list in Hin. destruct (K n v Hin) as [_ E].
  destruct (eval_mk_eq r (expr_var n (sort_of v)) v) as (t & -> & Ht). apply is_true_vbool, Ht.
  by rewrite (eval_var r _ n (value_expr_var n _)).
Qed.

(** A rule whose body arguments at the constant positions are all other terms is
    left as it is, arguments included. *)
Definition has_variable (constants : gmap string (list (option Expr))) (rule : Chc.Rule) : Prop :=
  forall app consts, Chc.relation (Chc.body rule) = Some app -> constants !! Chc.app_name app = Some consts ->
    body_known consts (Chc.args app) <> ∅.

Definition strip_values (constants : gmap string (list (option Expr))) (name : string) (vs : list val)
    : list val :=
  match constants !! name with Some consts => strip_args consts vs | None => vs end.

Lemma strip_app_eval constants rho app :
  map (eval rho) (Chc.args (strip_app constants app)) =
  strip_values constants (Chc.app_name app) (map (eval rho) (Chc.args app)) /\
  Chc.app_name (strip_app constants app) = Chc.app_name app.
Proof.
  unfold strip_app, strip_values. destruct (constants !! Chc.app_name app); [|done]. cbn.
  by rewrite strip_args_map.
Qed.

(** The rules after the pass. *)
Definition applied_rules (vc : Chc.ChcVc) : list Chc.Rule :=
  let constants := identify_constant_positions vc in
  map (strip_head constants) (map (propagate_rule constants) (Chc.rules vc)).

Lemma apply_derives vc :
  (forall r, r ∈ Chc.rules vc -> has_variable (identify_constant_positions vc) r) ->
  forall name vs, framed (Chc.rules vc) name vs ->
    Chc.derivable (applied_rules vc) name (strip_values (identify_constant_positions vc) name vs).
Proof.
  intros Hv name vs F. set (constants := identify_constant_positions vc) in *.
  induction F as [rule rho Hr Ha Hf Hc Hb IH].
  assert (Hr' : strip_head constants (propagate_rule constants rule) ∈ applied_rules vc).
  { unfold applied_rules. fold constants. apply list_elem_of_fmap. exists (propagate_rule constants rule).
    split; [done|]. apply list_elem_of_fmap. by exists rule. }
  assert (Plain : propagate_rule constants rule = rule ->
    (forall app, Chc.relation (Chc.body rule) = Some app -> constants !! Chc.app_name app = None) ->
    Chc.derivable (applied_rules vc) (Chc.head_name rule)
      (strip_values constants (Chc.head_name rule) (map (eval rho) (Chc.args (Chc.head rule))))).
  { intros E N. unfold Chc.head_name. destruct (strip_app_eval constants rho (Chc.head rule)) as [<- Nh].
    rewrite <- Nh. rewrite E in Hr'. apply (Chc.derive _ _ rho Hr'); [done..|].
    intros app Eb. specialize (IH app Eb). unfold strip_values in IH. by rewrite (N app Eb) in IH. }
  unfold propagate_rule in Plain, Hr'.
  destruct (Chc.relation (Chc.body rule)) as [app|] eqn:Eb; [|by apply Plain].
  destruct (constants !! Chc.app_name app) as [consts|] eqn:Ec; [|by apply Plain; [|intros ? [= <-]]].
  destruct (decide _) as [E|_]; [by apply (Hv rule Hr app consts) in E|].
  set (known := rule_known consts app rule) in *.
  assert (K : known_ok rho known).
  { apply out_vars_ok; [exact Hf|]. apply propagate_ok; [done..|]. apply body_known_ok.
    intros i c a Li La. pose proof (framed_derivable _ _ _ (Hb app eq_refl)) as D.
    destruct (identify_holds vc _ _ D consts i c (eval rho a)) as [C E]; [done|done| |by split].
    change (map ?f ?l) with (f <$> l). by rewrite list_lookup_fmap, La. }
  assert (Eh : map (eval rho) (map (resolve_arg known) (Chc.args (Chc.head rule))) =
               map (eval rho) (Chc.args (Chc.head rule))).
  { rewrite map_map. apply map_ext. intros a. by apply resolve_arg_ok. }
  rewrite <- Eh. unfold Chc.head_name. pose proof (strip_app_eval constants rho
    {| Chc.app_name := Chc.app_name (Chc.head rule); Chc.args := map (resolve_arg known) (Chc.args (Chc.head rule)) |})
    as [Es Nh]. cbn [Chc.app_name Chc.args] in Es, Nh. rewrite <- Es. rewrite <- Nh at 1. apply (Chc.derive _ _ rho Hr'); [done| |].
  - cbn. intros c [Hin|Hin]%elem_of_app; [|by eapply readded_ok].
    apply list_elem_of_fmap in Hin as (d & -> & Hd). rewrite substitute_sound by done. by apply Hc.
  - cbn. intros app' [= <-]. destruct (strip_app_eval constants rho app) as [-> ->]. by apply IH.
Qed.

End Apply.

End ConstPropSpec.
