(* ===== verification/AyBuildSample.v ===== *)
(** * A language for the builders

    Terms over Booleans, bit-vectors and arrays of bit-vectors with the meaning of
    SMT-LIB: an instance of [AyApi], [AyEval] and [Encoder].  A term that is not
    well sorted has no operator for its view, so that what the interface says of
    the expressions there are holds of all of them. *)

From S2P Require Import Prelude AyExpr Chc BvArith AyBuild ConstEval ConstEvalSpec.

Module AyBuildSample.
Import BvArith AyBuild.

(** ** Sorts and values *)

Inductive ssort := SBool | SBv (w : N) | SArr (iw ew : N) | SErr.
#[export] Instance ssort_eq_dec : EqDecision ssort.
Proof. solve_decision. Defined.

Inductive sval := VBool (b : bool) | VBv (w : N) (x : Z) | VArr (iw ew : N) (d : Z) (m : gmap Z Z) | VErr.
#[export] Instance sval_eq_dec : EqDecision sval.
Proof. solve_decision. Defined.

Definition typed (v : sval) (s : ssort) : Prop :=
  match s, v with
  | SBool, VBool _ => True
  | SBv w, VBv w' x => w' = w /\ in_range w x
  | SArr iw ew, VArr iw' ew' d m =>
      iw' = iw /\ ew' = ew /\ in_range ew d /\ forall i x, m !! i = Some x -> in_range ew x /\ x <> d
  | SErr, _ => True
  | _, _ => False
  end.

Definition sselect (a i : sval) : sval :=
  match a with
  | VArr iw ew d m =>
      match i with
      | VBv w k => if N.eqb w iw then VBv ew (default d (m !! k)) else VBv ew d
      | _ => VBv ew d
      end
  | _ => VErr
  end.
Definition sstore (a i x : sval) : sval :=
  match a, i, x with
  | VArr iw ew d m, VBv w k, VBv w' y =>
      if N.eqb w iw && N.eqb w' ew then VArr iw ew d (if Z.eqb y d then delete k m else <[k := y]> m)
      else VErr
  | _, _, _ => VErr
  end.

(** ** Terms *)

#[export] Instance unary_eq_dec : EqDecision (unary ssort).
Proof. solve_decision. Defined.
#[export] Instance binary_eq_dec : EqDecision binary.
Proof. solve_decision. Defined.

Inductive term :=
  | TVar (n : string) | TBool (b : bool) | TBv (w : N) (z : Z)
  | TUn (op : unary ssort) (t : term) | TBin (op : binary) (a b : term)
  | TEq (a b : term) | TAnd (a b : term) | TOr (a b : term) | TIte (c t f : term)
  | TStore (a i x : term).
#[export] Instance term_eq_dec : EqDecision term.
Proof. solve_decision. Defined.

Definition svar_sort (n : string) : ssort :=
  if Str.starts_with n "b_" || Str.contains n "_guard_" then SBool else if Str.starts_with n "a_" then SArr 8 8 else SBv 8.

Definition width_okb (w : N) : bool := ((0 <? w) && (w <? 2 ^ 32))%N.

Definition un_sort (op : unary ssort) (s : ssort) : ssort :=
  match op, s with
  | Not, SBool => SBool
  | (BvNeg | BvNot), SBv w => SBv w
  | (BvZeroExtend k | BvSignExtend k), SBv w => if width_okb (w + k) then SBv (w + k) else SErr
  | BvExtract high low, SBv w =>
      if ((low <=? high) && (high <? w))%N then SBv (high - low + 1) else SErr
  | ConstArray (SBv iw), SBv ew => SArr iw ew
  | _, _ => SErr
  end.
Definition bv_binary (op : binary) (wa : N) (x : Z) (wb : N) (y : Z) : option bv_result :=
  match smt_binary op wa x wb y with Some res => Some res | None => RBool <$> smt_overflow op wa x y end.
Definition bin_sort (op : binary) (s s' : ssort) : ssort :=
  match s, s' with
  | SArr iw ew, SBv w => match op with Select => if N.eqb w iw then SBv ew else SErr | _ => SErr end
  | SBv w, SBv w' =>
      match op with
      | BvConcat => if width_okb (w + w') then SBv (w + w') else SErr
      | _ =>
          if N.eqb w w' then
            match bv_binary op w 0 w' 0 with
            | Some (RBool _) => SBool
            | Some (RBits _ _) => SBv w
            | None => SErr
            end
          else SErr
      end
  | _, _ => SErr
  end.
Definition same_sort (s s' r : ssort) : ssort :=
  if decide (s = s' /\ s <> SErr) then r else SErr.

Fixpoint ssort_of (t : term) : ssort :=
  match t with
  | TVar n => svar_sort n
  | TBool _ => SBool
  | TBv w z => if width_okb w && ((0 <=? z) && (z <? card w))%Z then SBv w else SErr
  | TUn op t => un_sort op (ssort_of t)
  | TBin op a b => bin_sort op (ssort_of a) (ssort_of b)
  | TEq a b => same_sort (ssort_of a) (ssort_of b) SBool
  | TAnd a b | TOr a b =>
      match ssort_of a, ssort_of b with SBool, SBool => SBool | _, _ => SErr end
  | TIte c t f =>
      match ssort_of c with SBool => same_sort (ssort_of t) (ssort_of f) (ssort_of t) | _ => SErr end
  | TStore a i x =>
      match ssort_of a, ssort_of i, ssort_of x with
      | SArr iw ew, SBv w, SBv w' => if N.eqb w iw && N.eqb w' ew then SArr iw ew else SErr
      | _, _, _ => SErr
      end
  end.

Definition view (t : term) : ExprValue ssort term :=
  match t with
  | TVar n => Var n
  | TBool b => BoolConst b
  | TBv w z => Const (BitVecConst z w)
  | TUn op t => Unary op t
  | TBin op a b => Binary op a b
  | TEq a b => Eq a b
  | TAnd a b => And [a; b]
  | TOr a b => Or [a; b]
  | TIte c t f => Ite c t f
  | TStore a i x => Store a i x
  end.
Definition svalue (t : term) : ExprValue ssort term :=
  match ssort_of t with SErr => Unknown (subexprs (view t)) | _ => view t end.

Fixpoint ssize (t : term) : nat :=
  match t with
  | TVar _ | TBool _ | TBv _ _ => 1
  | TUn _ t => S (ssize t)
  | TBin _ a b | TEq a b | TAnd a b | TOr a b => S (ssize a + ssize b)
  | TIte a b c | TStore a b c => S (ssize a + ssize b + ssize c)
  end.

Lemma subexprs_svalue t : subexprs (svalue t) = subexprs (view t).
Proof. unfold svalue. by destruct (ssort_of t). Qed.

#[export, program] Instance terms : AyExpr := {|
  Sort := ssort; DatatypeSort := string; datatype_name := fun d => d;
  Expr := term; value := svalue; expr_var := fun n _ => TVar n; AyExpr.size := ssize |}.
Next Obligation.
  intros n s. unfold svalue. cbn. unfold svar_sort. destruct (_ || _); [done|].
  by destruct (Str.starts_with n "a_").
Qed.
Next Obligation.
  intros e c. rewrite subexprs_svalue. destruct e; cbn; rewrite ?elem_of_cons, ?elem_of_nil;
    intros Hc; intuition subst; lia.
Qed.

(** ** Evaluation *)

Definition un_val (op : unary ssort) (v : sval) : sval :=
  match op, v with
  | Not, VBool b => VBool (negb b)
  | ConstArray (SBv iw), VBv ew x => VArr iw ew x ∅
  | _, VBv w x => match smt_unary op w x with Some (w', x') => VBv w' x' | None => VErr end
  | _, _ => VErr
  end.
Definition bin_val (op : binary) (v v' : sval) : sval :=
  match op with
  | Select => sselect v v'
  | _ =>
      match v, v' with
      | VBv w x, VBv w' y =>
          match bv_binary op w x w' y with
          | Some (RBool b) => VBool b
          | Some (RBits w z) => VBv w z
          | None => VErr
          end
      | _, _ => VErr
      end
  end.

Fixpoint seval (r : string -> sval) (t : term) : sval :=
  match t with
  | TVar n => r n
  | TBool b => VBool b
  | TBv w z => VBv w z
  | TUn op t => un_val op (seval r t)
  | TBin op a b => bin_val op (seval r a) (seval r b)
  | TEq a b => VBool (bool_decide (seval r a = seval r b))
  | TAnd a b => match seval r a, seval r b with VBool x, VBool y => VBool (x && y) | _, _ => VErr end
  | TOr a b => match seval r a, seval r b with VBool x, VBool y => VBool (x || y) | _, _ => VErr end
  | TIte c t f => match seval r c with VBool b => if b then seval r t else seval r f | _ => VErr end
  | TStore a i x => sstore (seval r a) (seval r i) (seval r x)
  end.

Lemma seval_ext r r' (t : term) :
  (forall n, @occurs terms n t -> r n = r' n) -> seval r t = seval r' t.
Proof.
  assert (Sub : forall (t c : term) n, c ∈ subexprs (view t) -> @occurs terms n c -> @occurs terms n t).
  { intros t' c n Hc O. apply (@occurs_sub terms n t' c); [|done]. unfold children. cbn. by rewrite subexprs_svalue. }
  induction t as [n| | |op t IH|op a IHa b IHb|a IHa b IHb|a IHa b IHb|a IHa b IHb|c IHc t IHt f IHf|a IHa i IHi x IHx];
    intros E; cbn; try done.
  - apply E, (@occurs_var terms). apply (@value_expr_var terms n SErr).
  - by rewrite IH by (intros m O; apply E; eapply Sub; [|exact O]; set_solver).
  - by rewrite IHa, IHb by (intros m O; apply E; eapply Sub; [|exact O]; set_solver).
  - by rewrite IHa, IHb by (intros m O; apply E; eapply Sub; [|exact O]; set_solver).
  - by rewrite IHa, IHb by (intros m O; apply E; eapply Sub; [|exact O]; set_solver).
  - by rewrite IHa, IHb by (intros m O; apply E; eapply Sub; [|exact O]; set_solver).
  - by rewrite IHc, IHt, IHf by (intros m O; apply E; eapply Sub; [|exact O]; set_solver).
  - by rewrite IHa, IHi, IHx by (intros m O; apply E; eapply Sub; [|exact O]; set_solver).
Qed.

(** ** Typing *)

Definition sort_ok (s : ssort) : Prop :=
  match s with SBv w => width_ok w | SArr iw ew => width_ok ew | _ => True end.

Lemma width_okb_iff w : width_okb w = true <-> width_ok w.
Proof. unfold width_okb, width_ok. rewrite andb_true_iff, N.ltb_lt, N.ltb_lt. done. Qed.

Lemma sorts_ok t : sort_ok (ssort_of t).
Proof.
  induction t as [n| |w z|op t IH|op a IHa b IHb|a IHa b IHb|a IHa b IHb|a IHa b IHb|c IHc t IHt f IHf|a IHa i IHi x IHx];
    cbn [ssort_of]; try done.
  - unfold svar_sort. destruct (_ || _); [done|]. by destruct (Str.starts_with n "a_").
  - destruct (width_okb w) eqn:W; [|done]. apply width_okb_iff in W. cbn. by destruct (_ && _).
  - destruct op; cbn; try done; destruct (ssort_of t); cbn in *; try done.
    + destruct (width_okb _) eqn:W; [by apply width_okb_iff|done].
    + destruct (width_okb _) eqn:W; [by apply width_okb_iff|done].
    + destruct ((low <=? high) && (high <? w))%N eqn:B; [|done]. cbn. unfold width_ok in *.
      apply andb_true_iff in B as [B1%N.leb_le B2%N.ltb_lt]. lia.
    + by destruct index_sort.
    + by destruct index_sort.
    + by destruct index_sort.
    + by destruct index_sort.
  - unfold bin_sort. destruct (ssort_of a); try done; destruct (ssort_of b); try done.
    + destruct op; try (by destruct (N.eqb w w0); [destruct (bv_binary _ _ _ _ _) as [[]|]|]).
      destruct (width_okb _) eqn:W; [by apply width_okb_iff|done].
    + destruct op; try done. by destruct (N.eqb w iw).
  - unfold same_sort. by destruct (decide _).
  - by destruct (ssort_of a), (ssort_of b).
  - by destruct (ssort_of a), (ssort_of b).
  - destruct (ssort_of c); try done. unfold same_sort. by destruct (decide _).
  - destruct (ssort_of a); try done. destruct (ssort_of i); try done. destruct (ssort_of x); try done.
    by destruct (_ && _).
Qed.

(** The operators stay in range. *)
Lemma bvneg_range w x : in_range w (bvneg w x).
Proof. apply mod_in_range. Qed.

Lemma bvudiv_range w x y : in_range w x -> (0 <= y)%Z -> in_range w (bvudiv w x y).
Proof.
  intros R P. unfold bvudiv. destruct (Z.eqb_spec y 0); [|apply ConstEvalSpec.div_range; [done|lia]].
  pose proof (card_pos w). unfold in_range. lia.
Qed.

Lemma bvurem_range w x y : in_range w x -> in_range w y -> in_range w (bvurem x y).
Proof.
  unfold in_range, bvurem. intros Rx Ry. destruct (Z.eqb_spec y 0); [done|].
  pose proof (Z.mod_pos_bound x y). lia.
Qed.

Lemma bvlshr_range w x y : in_range w x -> (0 <= y)%Z -> in_range w (bvlshr x y).
Proof. intros R P. apply ConstEvalSpec.div_range; [done|]. by apply Z.pow_pos_nonneg. Qed.

Lemma smt_binary_range op wa x wb y w z :
  in_range wa x -> in_range wb y -> (op <> BvConcat -> wa = wb) ->
  smt_binary op wa x wb y = Some (RBits w z) -> in_range w z.
Proof.
  intros Rx Ry E S.
  assert (N := bvneg_range wa). assert (Py : (0 <= y)%Z) by apply Ry.
  assert (Pn : forall z, (0 <= bvneg wa z)%Z) by (intros; apply N).
  destruct op; cbn in S; try discriminate; injection S as <- <-;
    try (specialize (E ltac:(discriminate)); subst wb);
    try apply mod_in_range; try (by apply bvudiv_range); try (by apply bvurem_range);
    try (by apply bvlshr_range).
  - unfold bvsdiv. destruct (msb wa x), (msb wa y); first [apply bvneg_range|by apply bvudiv_range].
  - unfold bvsrem. destruct (msb wa x), (msb wa y); first [apply bvneg_range|by apply bvurem_range].
  - by apply ConstEvalSpec.land_range.
  - by apply ConstEvalSpec.lor_range.
  - by apply ConstEvalSpec.lxor_range.
  - unfold bvashr. destruct (msb wa x); [|by apply bvlshr_range].
    by apply ConstEvalSpec.bvnot_range, bvlshr_range; [apply ConstEvalSpec.bvnot_range|].
  - by apply concat_spec.
Qed.

Lemma smt_unary_range op w x w' x' :
  (0 < w)%N -> in_range w x -> smt_unary (op : unary ssort) w x = Some (w', x') -> in_range w' x'.
Proof.
  intros W R S. destruct op; cbn in S; try discriminate.
  - injection S as <- <-. apply bvneg_range.
  - injection S as <- <-. by apply ConstEvalSpec.bvnot_range.
  - injection S as <- <-. unfold in_range in *.
    assert (card w <= card (w + extra_bits))%Z by (apply Z.pow_le_mono_r; lia). lia.
  - injection S as <- <-. rewrite <- ConstEvalSpec.sign_extend_spec by done. apply mod_in_range.
  - destruct (_ && _); [|discriminate]. injection S as <- <-. apply mod_in_range.
Qed.

Lemma un_typed op v s : sort_ok s -> typed v s -> typed (un_val op v) (un_sort op s).
Proof.
  intros W T. destruct s as [|w|iw ew|].
  - destruct op; cbn; try done; [by destruct v|by destruct index_sort].
  - destruct v as [b|w0 x|iw0 ew0 d m|]; cbn in T; try done. destruct T as [-> R].
    assert (U : forall w' x', smt_unary op w x = Some (w', x') -> in_range w' x')
      by (intros w' x'; apply smt_unary_range; [apply W|done]).
    destruct op; cbn [un_sort un_val]; try done.
    + split; [done|]. apply bvneg_range.
    + split; [done|]. by apply ConstEvalSpec.bvnot_range.
    + destruct (width_okb _); [|done]. cbn. split; [done|]. by eapply U.
    + destruct (width_okb _); [|done]. cbn. split; [done|]. by eapply U.
    + destruct ((low <=? high) && (high <? w))%N eqn:B; [|done]. cbn [smt_unary] in *. rewrite B in *.
      split; [done|]. by eapply U.
    + by destruct index_sort.
  - destruct op; cbn; try done. by destruct index_sort.
  - destruct op; cbn; try done. by destruct index_sort.
Qed.

Lemma select_typed v v' iw ew :
  typed v (SArr iw ew) -> typed (sselect v v') (SBv ew).
Proof.
  destruct v as [|w x|iw0 ew0 d m|]; try done. intros (-> & -> & Rd & Rm).
  assert (D : typed (VBv ew d) (SBv ew)) by done. unfold sselect.
  destruct v' as [|w k| |]; try exact D. destruct (N.eqb w iw); [|exact D]. split; [done|].
  destruct (m !! k) as [y|] eqn:L; [by apply (Rm k)|done].
Qed.

Lemma bin_typed op v v' s s' : typed v s -> typed v' s' -> typed (bin_val op v v') (bin_sort op s s').
Proof.
  intros T T'. destruct s as [|w|iw ew|], s' as [|w'|iw' ew'|]; try (by destruct op); cbn [bin_sort].
  - destruct v as [|w0 x| |], v' as [|w1 y| |]; cbn in T, T'; try done.
    destruct T as [-> R], T' as [-> R'].
    assert (G : op <> BvConcat -> op <> Select -> typed (bin_val op (VBv w x) (VBv w' y))
      (if N.eqb w w' then match bv_binary op w 0 w' 0 with
         | Some (RBool _) => SBool | Some (RBits _ _) => SBv w | None => SErr end else SErr)).
    { intros N1 N2. destruct (N.eqb_spec w w') as [<-|]; [|done].
      destruct (smt_binary op w x w y) as [res|] eqn:S.
      - pose proof (fun z z' => smt_binary_range op w x w y z z' R R' ltac:(done)) as Rg.
        destruct op; try done; cbn in S; injection S as <-; cbn; try done;
          (split; [done|]); by eapply (Rg w).
      - by destruct op. }
    destruct op; try (by apply G).
    + destruct (width_okb _); [|done]. cbn. split; [done|].
      by apply (smt_binary_range BvConcat w x w' y).
    + by destruct (N.eqb w w').
  - destruct op; try done. destruct (N.eqb_spec w' iw); [|done]. by apply select_typed with iw.
Qed.

Lemma store_typed v vi vx iw ew :
  typed v (SArr iw ew) -> typed vi (SBv iw) -> typed vx (SBv ew) -> typed (sstore v vi vx) (SArr iw ew).
Proof.
  destruct v as [| |iw0 ew0 d m|], vi as [|wi k| |], vx as [|w' y| |]; try done.
  intros (-> & -> & Rd & Rm) [-> Rk] [-> Ry]. cbn. rewrite !N.eqb_refl. cbn. split_and!; [done..|].
  intros i z L. destruct (Z.eqb_spec y d) as [->|N].
  - apply lookup_delete_Some in L as [_ L]. by apply (Rm i).
  - apply lookup_insert_Some in L as [[<- <-]|[_ L]]; [done|by apply (Rm i)].
Qed.

Lemma seval_typed r t : (forall n, typed (r n) (svar_sort n)) -> typed (seval r t) (ssort_of t).
Proof.
  intros Hr. induction t as [n| |w z|op t IH|op a IHa b IHb|a IHa b IHb|a IHa b IHb|a IHa b IHb
    |c IHc t IHt f IHf|a IHa i IHi x IHx]; cbn [ssort_of seval]; try done.
  - destruct (width_okb w); [|done]. cbn [andb]. destruct (_ && _) eqn:B; [|done].
    apply andb_true_iff in B as [B1%Z.leb_le B2%Z.ltb_lt]. by split; [|split].
  - apply un_typed; [apply sorts_ok|done].
  - by apply bin_typed.
  - unfold same_sort. by destruct (decide _).
  - destruct (ssort_of a), (ssort_of b); try done. by destruct (seval r a), (seval r b).
  - destruct (ssort_of a), (ssort_of b); try done. by destruct (seval r a), (seval r b).
  - destruct (ssort_of c); try done. unfold same_sort. destruct (decide _) as [[E _]|]; [|done].
    destruct (seval r c) as [[]| | |]; try done. by rewrite E.
  - destruct (ssort_of a); try done. destruct (ssort_of i); try done. destruct (ssort_of x); try done.
    destruct (N.eqb_spec w iw) as [->|]; [|done]. destruct (N.eqb_spec w0 ew) as [->|]; [|done].
    by apply store_typed.
Qed.

(** ** The instances *)

Lemma svalue_view t v : svalue t = v -> (forall es, v <> Unknown es) -> view t = v /\ ssort_of t <> SErr.
Proof. unfold svalue. destruct (ssort_of t); intros <- N; try done. by destruct (N (subexprs (view t))). Qed.

(** A view names the term, and the term is well sorted. *)
Ltac inv_view H :=
  let V := fresh "V" in let W := fresh "W" in
  apply svalue_view in H as [V W]; [|done];
  match type of V with view ?t = _ => destruct t; cbn in V; try discriminate V end;
  injection V as; subst; cbn [ssort_of] in W.

Definition sinhabitant (s : ssort) : sval :=
  match s with SBool => VBool false | SBv w => VBv w 0 | SArr iw ew => VArr iw ew 0 ∅ | SErr => VErr end.

#[export, program] Instance term_sem : AySem := {|
  val := sval; var_sort := svar_sort; has_sort := typed; inhabitant := sinhabitant;
  eval := seval; is_true := fun v => v = VBool true |}.
Next Obligation.
  intros [|w|iw ew|]; cbn; try done; unfold in_range.
  - pose proof (card_pos w). split; [done|lia].
  - pose proof (card_pos ew). split_and!; [done..|lia|lia|].
    intros i x L. by rewrite lookup_empty in L.
Qed.
Next Obligation. intros r e n V. by inv_view V. Qed.
Next Obligation. intros r r' e E. by apply seval_ext. Qed.
Next Obligation. intros r e V. by inv_view V. Qed.
Next Obligation.
  intros r e es V T c Hc. inv_view V. cbn in T.
  destruct (seval r e1) as [b1| | |] eqn:E1; try discriminate.
  destruct (seval r e2) as [b2| | |] eqn:E2; try discriminate. injection T as T%andb_true_iff.
  destruct T as [-> ->]. apply elem_of_cons in Hc as [->|Hc]; [done|].
  by apply list_elem_of_singleton in Hc as ->.
Qed.
Next Obligation.
  intros r e a b V. inv_view V. cbn. split; [intros [= E]; by apply bool_decide_eq_true in E|].
  intros E. by rewrite bool_decide_eq_true_2.
Qed.
Next Obligation.
  intros r e a b n V Hr. inv_view V. unfold same_sort in W. destruct (decide _) as [[E _]|]; [|done].
  split; intros Vn; inv_view Vn; cbn in E; [rewrite E|rewrite <- E]; by apply seval_typed.
Qed.
Next Obligation.
  intros e a b n m V Va Vb. inv_view V. unfold same_sort in W. destruct (decide _) as [[E _]|]; [|done].
  inv_view Va. inv_view Vb. exact E.
Qed.

Definition srebuild (t : term) (cs : list term) : term :=
  match t, cs with
  | TUn op _, [a] => TUn op a
  | TBin op _ _, [a; b] => TBin op a b
  | TEq _ _, [a; b] => TEq a b
  | TAnd _ _, [a; b] => TAnd a b
  | TOr _ _, [a; b] => TOr a b
  | TIte _ _ _, [a; b; c] => TIte a b c
  | TStore _ _ _, [a; b; c] => TStore a b c
  | _, _ => t
  end.

Definition sbitvec_width (s : ssort) : option N := match s with SBv w => if width_okb w then Some w else None | _ => None end.
Definition sarray_sort (s : ssort) : option (ssort * ssort) :=
  match s with SArr iw ew => Some (SBv iw, SBv ew) | _ => None end.
Definition sknown (t : term) : bool := match svalue t with Unknown _ => false | _ => true end.

#[export, program] Instance term_api : AyApi := {|
  sort_of := ssort_of;
  bitvec_width := sbitvec_width;
  array_sort := sarray_sort;
  constructors := fun _ => None;
  is_known_variant := sknown;
  bool_const := TBool;
  bitvec_const := fun z w => TBv w (z mod card w);
  mk_unary := TUn; mk_eq := TEq;
  and_many := foldr TAnd (TBool true); or_many := foldr TOr (TBool false);
  distinct := fun _ => TBool true; ite := TIte; mk_select := TBin Select; mk_store := TStore;
  datatype_constructor := fun _ _ _ _ => TBool true;
  try_field_select := fun _ _ _ _ => None; try_is_constructor := fun _ _ _ => None;
  func_app_with_sort := fun _ _ _ => TBool true;
  forall_with_triggers := fun _ t _ => t; exists_with_triggers := fun _ t _ => t;
  rebuild_with_children := srebuild |}.
Next Obligation. done. Qed.
Next Obligation.
  intros z w W. apply width_okb_iff in W. pose proof (Z.mod_pos_bound z (card w) (card_pos w)).
  cbn. unfold svalue. cbn. rewrite W. cbn [andb].
  by rewrite (proj2 (Z.leb_le _ _)), (proj2 (Z.ltb_lt _ _)) by lia.
Qed.
Next Obligation.
  intros e x w V. inv_view V. cbn [ssort_of]. destruct (width_okb w) eqn:O; [|by destruct W].
  cbn [andb] in W |- *. destruct (_ && _); [|by destruct W]. cbn. by rewrite O.
Qed.

(** The values of well-sorted terms have their sorts. *)
Lemma sort_value r t : (forall n, typed (r n) (svar_sort n)) -> typed (seval r t) (ssort_of t).
Proof. apply seval_typed. Qed.

Lemma eval_and_many_ok r es bs :
  map (seval r) es = map VBool bs -> seval r (foldr TAnd (TBool true) es) = VBool (forallb id bs).
Proof.
  revert bs. induction es as [|e es IH]; intros [|b bs] E; try discriminate; [done|].
  injection E as E1 E2. cbn. by rewrite E1, (IH bs E2).
Qed.

Lemma eval_or_many_ok r es bs :
  map (seval r) es = map VBool bs -> seval r (foldr TOr (TBool false) es) = VBool (existsb id bs).
Proof.
  revert bs. induction es as [|e es IH]; intros [|b bs] E; try discriminate; [done|].
  injection E as E1 E2. cbn. by rewrite E1, (IH bs E2).
Qed.

Lemma typed_bool v : typed v SBool -> exists b, v = VBool b.
Proof. destruct v; try done. by eexists. Qed.
Lemma typed_bv v w : typed v (SBv w) -> exists x, v = VBv w x /\ in_range w x.
Proof. destruct v; try done. intros [-> R]. by eexists. Qed.
Lemma typed_arr v iw ew : typed v (SArr iw ew) -> exists d m, v = VArr iw ew d m /\ in_range ew d /\
  forall i x, m !! i = Some x -> in_range ew x /\ x <> d.
Proof. destruct v; try done. intros (-> & -> & R). by eexists _, _. Qed.

(** The sorts of the operands of a store. *)
Lemma store_sorts a i x : ssort_of (TStore a i x) <> SErr ->
  exists iw ew, ssort_of a = SArr iw ew /\ ssort_of i = SBv iw /\ ssort_of x = SBv ew.
Proof.
  cbn. destruct (ssort_of a); try done. destruct (ssort_of i); try done. destruct (ssort_of x); try done.
  destruct (N.eqb_spec w iw) as [->|]; [|done]. destruct (N.eqb_spec w0 ew) as [->|]; [|done]. by eexists _, _.
Qed.

Lemma const_sorts s x : ssort_of (TUn (ConstArray s) x) <> SErr ->
  exists iw ew, s = SBv iw /\ ssort_of x = SBv ew.
Proof. cbn. destruct s; try done; destruct (ssort_of x); try done. by eexists _, _. Qed.

(** What a bit-vector operator is applied to. *)
Lemma bin_sorts op a b wa wb :
  bin_sort op (SBv wa) (SBv wb) <> SErr -> ssort_of a = SBv wa -> ssort_of b = SBv wb ->
  (op <> BvConcat -> wa = wb) /\
  match bin_sort op (SBv wa) (SBv wb) with
  | SBv w => width_ok w
  | _ => True
  end.
Proof.
  intros N Ea Eb. pose proof (sorts_ok (TBin op a b)) as W. cbn [ssort_of] in W. rewrite Ea, Eb in W.
  split; [|by destruct (bin_sort op _ _)].
  intros Nc. cbn in N. destruct op; try done; by destruct (N.eqb_spec wa wb).
Qed.

(** A store of a store at the same index. *)
Lemma store_store d (m : gmap Z Z) k y x :
  (if Z.eqb x d then delete k (if Z.eqb y d then delete k m else <[k := y]> m)
   else <[k := x]> (if Z.eqb y d then delete k m else <[k := y]> m))
  = if Z.eqb x d then delete k m else <[k := x]> m.
Proof.
  apply map_eq. intros j.
  destruct (Z.eqb x d), (Z.eqb y d), (decide (k = j)) as [->|]; by simplify_map_eq.
Qed.

(** The meaning of an operator applied to values of its sorts. *)
Lemma bin_value op wa x wb y res :
  op <> Select -> smt_binary op wa x wb y = Some res ->
  bin_val op (VBv wa x) (VBv wb y) = match res with RBool t => VBool t | RBits w z => VBv w z end.
Proof. intros N S. destruct op; try done; cbn in S |- *; injection S as <-; reflexivity. Qed.

Lemma bin_ok op a b wa x wb y res (r : string -> sval) :
  (forall n, typed (r n) (svar_sort n)) -> ssort_of (TBin op a b) <> SErr ->
  seval r a = VBv wa x -> seval r b = VBv wb y -> smt_binary op wa x wb y = Some res ->
  (op <> BvConcat -> wa = wb) /\
  match res with
  | RBool t => seval r (TBin op a b) = VBool t
  | RBits w z => seval r (TBin op a b) = VBv w z /\ width_ok w
  end.
Proof.
  intros Hr W Ea Eb S. assert (Ns : op <> Select) by (by intros ->).
  pose proof (seval_typed r a Hr) as Ta. pose proof (seval_typed r b Hr) as Tb.
  pose proof (seval_typed r (TBin op a b) Hr) as Te. pose proof (sorts_ok (TBin op a b)) as Ok.
  cbn [ssort_of] in *. rewrite Ea in Ta. rewrite Eb in Tb. cbn [seval] in *. rewrite Ea, Eb in *.
  rewrite (bin_value op wa x wb y res Ns S) in *.
  destruct (ssort_of a) as [|wa'| |] eqn:Sa; try done.
  destruct (ssort_of b) as [|wb'| |] eqn:Sb; try done.
  destruct Ta as [-> Ra], Tb as [-> Rb].
  split; [by eapply bin_sorts|]. destruct res as [t|w z]; [done|]. split; [done|].
  destruct (bin_sort op _ _); try done. by destruct Te as [-> _].
Qed.

Lemma un_ok op a w x w' x' (r : string -> sval) :
  (forall n, typed (r n) (svar_sort n)) -> ssort_of (TUn op a) <> SErr ->
  seval r a = VBv w x -> smt_unary op w x = Some (w', x') ->
  seval r (TUn op a) = VBv w' x' /\ width_ok w'.
Proof.
  intros Hr W Ea S. pose proof (seval_typed r (TUn op a) Hr) as Te.
  pose proof (sorts_ok (TUn op a)) as Ok. cbn [ssort_of seval] in *. rewrite Ea in *.
  assert (V : un_val op (VBv w x) = VBv w' x').
  { destruct op; cbn [un_val] in *; try (by rewrite S); try done. }
  rewrite V in *. split; [done|]. destruct (un_sort op (ssort_of a)); try done. by destruct Te as [-> _].
Qed.

Lemma typed_and t r : (forall n, typed (r n) (svar_sort n)) -> ssort_of t = SBool ->
  exists b, seval r t = VBool b.
Proof. intros Hr S. apply typed_bool. rewrite <- S. by apply seval_typed. Qed.

Lemma bool_sorts (s s' : ssort) :
  match s, s' with SBool, SBool => SBool | _, _ => SErr end <> SErr -> s = SBool /\ s' = SBool.
Proof. by destruct s, s'. Qed.

Lemma same_sort_inv s s' r : same_sort s s' r <> SErr -> s = s' /\ s <> SErr.
Proof. unfold same_sort. by destruct (decide _) as [[? ?]|]. Qed.

Lemma const_array_sort s v : ssort_of (TUn (ConstArray s) v) <> SErr ->
  exists iw ew, s = SBv iw /\ ssort_of v = SBv ew /\ ssort_of (TUn (ConstArray s) v) = SArr iw ew.
Proof. intros W. destruct (const_sorts s v W) as (iw & ew & -> & E). exists iw, ew. cbn. by rewrite E. Qed.

(** Reading and writing arrays. *)
Lemma sselect_store a i x k (r : string -> sval) :
  (forall n, typed (r n) (svar_sort n)) -> ssort_of (TStore a i x) <> SErr ->
  (k = seval r i -> sselect (seval r (TStore a i x)) k = seval r x) /\
  (k <> seval r i -> sselect (seval r (TStore a i x)) k = sselect (seval r a) k).
Proof.
  intros Hr W. destruct (store_sorts a i x W) as (iw & ew & Sa & Si & Sx).
  pose proof (seval_typed r a Hr) as Ta. pose proof (seval_typed r i Hr) as Ti.
  pose proof (seval_typed r x Hr) as Tx. rewrite Sa in Ta. rewrite Si in Ti. rewrite Sx in Tx.
  apply typed_arr in Ta as (d & m & Ea & Rd & Rm). apply typed_bv in Ti as (ki & Ei & Ri).
  apply typed_bv in Tx as (y & Ex & Ry). cbn [seval]. rewrite Ea, Ei, Ex. cbn. rewrite !N.eqb_refl. cbn.
  split.
  - intros ->. rewrite N.eqb_refl. destruct (Z.eqb_spec y d) as [->|]; by simplify_map_eq.
  - intros N. destruct k as [|w k| |]; try done. destruct (N.eqb_spec w iw) as [->|]; [|done].
    assert (k <> ki) by congruence. destruct (Z.eqb_spec y d) as [->|]; by simplify_map_eq.
Qed.

Lemma sstore_same a i x (r : string -> sval) :
  (forall n, typed (r n) (svar_sort n)) -> ssort_of (TStore a i x) <> SErr ->
  sselect (seval r a) (seval r i) = seval r x -> seval r (TStore a i x) = seval r a.
Proof.
  intros Hr W. destruct (store_sorts a i x W) as (iw & ew & Sa & Si & Sx).
  pose proof (seval_typed r a Hr) as Ta. pose proof (seval_typed r i Hr) as Ti.
  rewrite Sa in Ta. rewrite Si in Ti.
  apply typed_arr in Ta as (d & m & Ea & Rd & Rm). apply typed_bv in Ti as (ki & Ei & Ri).
  cbn [seval]. rewrite Ea, Ei. cbn. rewrite N.eqb_refl. intros <-. cbn. rewrite !N.eqb_refl. cbn.
  f_equal. destruct (m !! ki) as [y|] eqn:L; cbn.
  - destruct (Rm ki y L) as [_ Ny]. rewrite (proj2 (Z.eqb_neq _ _) Ny). by apply insert_id.
  - rewrite Z.eqb_refl. by apply delete_id.
Qed.

Lemma sstore_twice va vi vx vy :
  sstore va vi vy <> VErr -> sstore (sstore va vi vy) vi vx = sstore va vi vx.
Proof.
  destruct va as [| |iw ew d m|], vi as [|wi k| |], vy as [|wy y| |]; try done. cbn.
  destruct (N.eqb wi iw) eqn:E1; [|done]. destruct (N.eqb wy ew) eqn:E2; [|done]. intros _. cbn.
  destruct vx as [|wx x| |]; try done. rewrite E1. cbn. destruct (N.eqb wx ew); [|done].
  f_equal. apply store_store.
Qed.

Lemma srebuild_same r (e : term) (cs : list term) :
  map (seval r) cs = map (seval r) (subexprs (view e)) -> seval r (srebuild e cs) = seval r e.
Proof.
  intros M.
  destruct e; cbn in M |- *; repeat (destruct cs as [|? cs]; cbn in M; try discriminate); cbn;
    repeat match goal with
      | H : _ :: _ = _ :: _ |- _ => apply (f_equal (fun l => (default VErr (head l), tail l))) in H;
          cbn in H; apply pair_equal_spec in H as [?E H]
      end; by rewrite ?E, ?E0, ?E1.
Qed.

#[export, program] Instance term_eval : AyEval := {| vbool := VBool; bv := VBv; vselect := sselect |}.
Next Obligation. intros b. cbn. split; [by intros [=]|by intros ->]. Qed.
Next Obligation. intros w x w' x' _ _ [=]. done. Qed.
Next Obligation. intros r e b V. by inv_view V. Qed.
Next Obligation.
  intros r e x w V. inv_view V. destruct (width_okb w) eqn:O; [|done]. cbn [andb] in W.
  destruct (_ && _) eqn:B; [|done]. apply andb_true_iff in B as [B1%Z.leb_le B2%Z.ltb_lt].
  by apply width_okb_iff in O.
Qed.
Next Obligation.
  intros r e e' S S' E. cbn in S, S'.
  assert (C : forall t, is_scalar_value (svalue t) = true ->
    (exists b, t = TBool b) \/ exists w z, t = TBv w z).
  { intros t. unfold svalue. destruct (ssort_of t), t; try done; by eauto. }
  destruct (C e S) as [[b ->]|(w & z & ->)], (C e' S') as [[b' ->]|(w' & z' & ->)]; cbn in E; by simplify_eq.
Qed.
Next Obligation.
  intros r e a Hr V. inv_view V. destruct (ssort_of a) eqn:Sa; try done.
  destruct (typed_and a r Hr Sa) as [b E]. exists b. cbn. by rewrite E.
Qed.
Next Obligation. intros r a b E. cbn in *. by rewrite E. Qed.
Next Obligation.
  intros r e es Hr V. inv_view V. apply bool_sorts in W as [S1 S2].
  destruct (typed_and _ r Hr S1) as [x E1], (typed_and _ r Hr S2) as [y E2]. exists [x; y]. cbn.
  rewrite E1, E2. by rewrite andb_true_r.
Qed.
Next Obligation.
  intros r e es Hr V. inv_view V. apply bool_sorts in W as [S1 S2].
  destruct (typed_and _ r Hr S1) as [x E1], (typed_and _ r Hr S2) as [y E2]. exists [x; y]. cbn.
  rewrite E1, E2. by rewrite orb_false_r.
Qed.
Next Obligation. intros r es bs. apply eval_and_many_ok. Qed.
Next Obligation. intros r es bs. apply eval_or_many_ok. Qed.
Next Obligation. intros r e a b V. inv_view V. by eexists. Qed.
Next Obligation.
  intros r a b. eexists. split; [reflexivity|]. cbn. apply bool_decide_eq_true.
Qed.
Next Obligation.
  intros r e c t f Hr V. inv_view V. destruct (ssort_of c) eqn:Sc; try done.
  destruct (typed_and c r Hr Sc) as [b E]. exists b. cbn. by rewrite E.
Qed.
Next Obligation.
  intros r e op a b wa x wb y res Hr V Ra Rb Ea Eb S. inv_view V. by eapply bin_ok.
Qed.
Next Obligation.
  intros r e op a w x w' x' Hr V R E S. inv_view V. by apply un_ok with w x.
Qed.
Next Obligation. intros r e a i V. by inv_view V. Qed.
Next Obligation.
  intros r e s v k Hr V. inv_view V. destruct (const_sorts s v W) as (iw & ew & -> & Sv).
  pose proof (seval_typed r v Hr) as Tv. rewrite Sv in Tv. apply typed_bv in Tv as (x & Ex & Rx). cbn.
  rewrite Ex. cbn. destruct k as [|w k| |]; try done. destruct (N.eqb w iw); [|done].
  by rewrite lookup_empty.
Qed.
Next Obligation. intros r e a i x k Hr V. inv_view V. by apply sselect_store. Qed.
Next Obligation. intros r e a i x Hr V. inv_view V. by apply sstore_same. Qed.
Next Obligation.
  intros r e a i x c b j y i' x' Hr V Vc Ea Ei Ei' Ex. inv_view V. inv_view Vc.
  pose proof (seval_typed r (TStore b j y) Hr) as Tc.
  destruct (store_sorts b j y W0) as (iw & ew & Sb & Sj & Sy). cbn [ssort_of] in Tc.
  rewrite Sb, Sj, Sy, !N.eqb_refl in Tc. cbn [andb] in Tc. cbn in *.
  rewrite Ei', Ex, Ea, Ei. symmetry. apply sstore_twice. intros E. by rewrite E in Tc.
Qed.
Next Obligation.
  intros r e a b c s s' i v w Ve Va Vb Vc. inv_view Va. inv_view Vb. inv_view Vc.
  destruct (const_array_sort s v W) as (iw & ew & -> & Sv & Sa).
  destruct (const_array_sort s' v W1) as (iw' & ew' & -> & Sv' & Sc).
  destruct (store_sorts (TUn (ConstArray (SBv iw')) v) i w W0) as (iw2 & ew2 & S1 & S2 & S3).
  assert (Sb : ssort_of (TStore (TUn (ConstArray (SBv iw')) v) i w) = SArr iw2 ew2)
    by (cbn [ssort_of]; cbn [ssort_of] in S1; by rewrite S1, S2, S3, !N.eqb_refl).
  cbn [eval term_sem seval]. f_equal.
  assert (E : ssort_of (TUn (ConstArray (SBv iw)) v) =
              ssort_of (TStore (TUn (ConstArray (SBv iw')) v) i w)).
  { destruct Ve as [V|V]; inv_view V; apply same_sort_inv in W2 as [E _]; [exact E|symmetry; exact E]. }
  rewrite Sa, Sb in E. rewrite Sc in S1. by simplify_eq.
Qed.
Next Obligation. intros r e d n a c d' k args cs fs i s x Hr V. inv_view V. cbn in W. by destruct (ssort_of a). Qed.
Next Obligation. intros r e op a a' V E. inv_view V. cbn in *. by rewrite E. Qed.
Next Obligation. intros r e es es' V. inv_view V. Qed.
Next Obligation.
  intros r e c t f c' t' f' V Ec Et Ef. inv_view V. cbn in *. by rewrite Ec, Et, Ef.
Qed.
Next Obligation. done. Qed.
Next Obligation.
  intros r e a i x a' i' x' V Ea Ei Ex. inv_view V. cbn in *. by rewrite Ea, Ei, Ex.
Qed.
Next Obligation. intros r e d k args args' V. inv_view V. Qed.
Next Obligation. done. Qed.
Next Obligation. done. Qed.
Next Obligation. intros r e n args args' V. inv_view V. Qed.
Next Obligation. intros r e vs b ts b' ts' V. inv_view V. Qed.
Next Obligation. intros r e vs b ts b' ts' V. inv_view V. Qed.
Next Obligation.
  intros r e cs _ M. apply srebuild_same. rewrite <- subexprs_svalue. exact M.
Qed.

#[export, program] Instance term_encoder : ConstEvalSpec.Encoder := {|
  ConstEvalSpec.fld_positional := _; ConstEvalSpec.index_const_eq := _ |}.
Next Obligation. intros e d n a d' k args ds i x V. inv_view V. cbn in W. by destruct (ssort_of a). Qed.
Next Obligation.
  intros r e a j x i V Ci Cj E.
  inv_view V. destruct (store_sorts a j x W) as (iw & ew & _ & Sj & _).
  assert (C : forall t, ConstEval.is_constant t = true -> ssort_of t <> SErr /\
    ((exists b, t = TBool b) \/ (exists w z, t = TBv w z) \/ (exists s t', t = TUn (ConstArray s) t') \/
     exists t1 t2 t3, t = TStore t1 t2 t3)).
  { intros t. unfold ConstEval.is_constant. cbn [fold_expr value terms]. unfold svalue.
    destruct (ssort_of t), t; cbn; try done; try destruct op; try done; intros _; split; eauto 7. }
  destruct (C i Ci) as [Wi Ki], (C j Cj) as [_ [[b ->]|[(w & z & ->)|[(s & t' & ->)|(t1 & t2 & t3 & ->)]]]].
  - done.
  - destruct Ki as [[b ->]|[(w' & z' & ->)|[(s & t' & ->)|(t1 & t2 & t3 & ->)]]]; cbn in E; simplify_eq;
      [done| |].
    + destruct (const_sorts s t' Wi) as (iw' & ew' & -> & _). cbn in E. by destruct (seval r t').
    + by destruct (seval r t1), (seval r t2), (seval r t3); try done; cbn in E; destruct (_ && _).
  - destruct (const_sorts s t') as (iw' & ew' & -> & S); [by rewrite Sj|]. cbn in Sj. by rewrite S in Sj.
  - destruct (store_sorts t1 t2 t3) as (iw' & ew' & S1 & S2 & S3); [by rewrite Sj|]. cbn in Sj.
    rewrite S1, S2, S3, !N.eqb_refl in Sj. done.
Qed.

End AyBuildSample.

(** * Systems in the sample language

    Clauses over eight-bit variables of the language of [AyBuildSample], valuations
    that are given by a list, and the rules that fire under them: what the examples
    of the passes are made of. *)

Module SampleSystems.
Import BvArith AyBuild AyBuildSample.

Definition sym (n : string) : @Expr terms := TVar n.
Definition num (z : Z) : @Expr terms := TBv 8 z.
Definition succ (e : @Expr terms) : @Expr terms := TBin BvAdd e (TBv 8 1).
Definition call (n : string) (l : list (@Expr terms)) : @Chc.RelationApp terms :=
  {| Chc.app_name := n; Chc.args := l |}.
Definition clause b (cs : list (@Expr terms)) h : @Chc.Rule terms :=
  {| Chc.body := Chc.RuleBody_new b cs; Chc.head := h |}.
Definition system (ds : list (string * nat)) (rs : list Chc.Rule) : @Chc.ChcVc terms :=
  Chc.set_rules (map (fun d => {| Chc.rel_name := d.1; Chc.arg_sorts := replicate d.2 (SBv 8) |}) ds) rs
    (@Chc.ChcVc_new terms).

(** A valuation of the names in [l]; the other names have their default. *)
Definition valuation (l : list (string * Z)) (n : string) : @val terms term_sem :=
  match list_find (fun p => p.1 = n) l with
  | Some (_, p) => VBv 8 p.2
  | None => sinhabitant (svar_sort n)
  end.

Definition good (p : string * Z) : bool :=
  bool_decide (svar_sort p.1 = SBv 8) && ((0 <=? p.2) && (p.2 <? 256))%Z.

Lemma valuation_ok l : forallb good l = true -> @admissible terms term_sem (valuation l).
Proof.
  intros G n. unfold valuation. destruct (list_find _ l) as [[i p]|] eqn:F.
  - apply list_find_Some in F as (L & E & _). rewrite forallb_forall in G.
    apply list_elem_of_lookup_2, list_elem_of_In, G, andb_true_iff in L as [S B].
    apply bool_decide_eq_true in S. apply andb_true_iff in B as [B1%Z.leb_le B2%Z.ltb_lt].
    cbn in *. rewrite <- E, S. cbn. unfold in_range, card. split; [done|]. change (2 ^ Z.of_N 8)%Z with 256%Z. lia.
  - apply (@inhabitant_sort terms term_sem).
Qed.

(** The rule fires under the valuation. *)
Definition fires (l : list (string * Z)) (r : @Chc.Rule terms) : bool :=
  forallb good l &&
  forallb (fun c => bool_decide (seval (valuation l) c = VBool true)) (Chc.iter (Chc.constraints (Chc.body r))).
Lemma fires_ok l r : fires l r = true ->
  @admissible terms term_sem (valuation l) /\
  forall c, c ∈ Chc.iter (Chc.constraints (Chc.body r)) -> seval (valuation l) c = VBool true.
Proof.
  intros [G C]%andb_true_iff. split; [by apply valuation_ok|]. intros c Hc.
  rewrite forallb_forall in C. by apply list_elem_of_In, C, bool_decide_eq_true in Hc.
Qed.

Lemma fire_derivable (l : list (string * Z)) rs r n (vs : list sval) :
  r ∈ rs -> fires l r = true -> Chc.head_name r = n ->
  map (seval (valuation l)) (Chc.args (Chc.head r)) = vs ->
  (forall a, Chc.relation (Chc.body r) = Some a ->
    @Chc.derivable terms term_sem rs (Chc.app_name a) (map (seval (valuation l)) (Chc.args a))) ->
  @Chc.derivable terms term_sem rs n vs.
Proof.
  intros Hr F <- <- B. destruct (fires_ok l r F). by apply (@Chc.derive terms term_sem rs r (valuation l)).
Qed.

Lemma nth_in {A} (k : nat) (x : A) (l : list A) : l !! k = Some x -> x ∈ l.
Proof. apply list_elem_of_lookup_2. Qed.

(** Rule [k] of the system fires under [l], with the facts of its body to show. *)
Ltac fire step l k :=
  eapply (step l); [eapply (nth_in k); reflexivity|by vm_compute|reflexivity|reflexivity|];
  intros ? [= <-].

End SampleSystems.
