(* ===== verification/ConstPropTheorems.v ===== *)
(** * Constant propagation is right

    What the passes of chc_const_prop.rs promise, from the folding of one operator
    to a round of the whole pass, each with an instance in the sample language. *)

From S2P Require Import Prelude AyExpr Chc DeadVars Text BvArith AyBuild ConstEval ConstEvalSpec ConstSubst ConstArray HeapLiveness ConstProp ConstPropSpec AyBuildSample.

Module ConstPropTheorems.
Import BvArith AyBuild ConstEval ConstEvalSpec ConstSubst ConstSubstSpec ConstArray ConstArraySpec
  ConstProp ConstPropSpec.

#[local] Existing Instance Chc.rules_equiv.
#[local] Existing Instance Chc.rules_equivalence.

(** ** Cleaning up *)

Section Cleanup.
Context `{Encoder}.

Lemma is_true_decided rho e b :
  admissible rho -> try_eval_to_bool e = Some b -> is_true (eval rho e) <-> b = true.
Proof.
  intros Hr E. destruct (eval_sound e rho Hr) as [S _]. rewrite (S b E). apply is_true_vbool.
Qed.

Lemma eliminate_equiv vc : Chc.rules (eliminate_trivially_false_rules vc).2 ≡ Chc.rules vc.
Proof.
  intros n vs. cbn. split.
  - apply Chc.derivable_mono. intros r Hr. apply list_elem_of_In, filter_In in Hr as [Hr _].
    by apply list_elem_of_In.
  - intros D. induction D as [r rho Hr Ha Hc Hb IH]. apply Chc.derive; [|done..].
    apply list_elem_of_In, filter_In. split; [by apply list_elem_of_In|].
    unfold retain_rule. destruct (_ && DeadVars.rule_body_is_literal_false r); [done|].
    apply negb_true_iff, not_true_iff_false. intros E. apply existsb_exists in E as (c & Hin%list_elem_of_In & Ec).
    unfold is_trivially_false in Ec. destruct (try_eval_to_bool c) as [[]|] eqn:Ev; try discriminate.
    pose proof (proj1 (is_true_decided rho c false Ha Ev) (Hc c Hin)). discriminate.
Qed.

Lemma strip_equiv vc : Chc.rules (strip_trivially_true_constraints vc).2 ≡ Chc.rules vc.
Proof.
  intros n vs. cbn. rewrite map_map. split; intros D; induction D as [r rho Hr Ha Hc Hb IH].
  - apply list_elem_of_fmap in Hr as (q & -> & Hq). cbn in *. apply (Chc.derive _ q rho); [done..| |done].
    intros c Hin. destruct (is_trivially_true c) eqn:T.
    + unfold is_trivially_true in T. destruct (try_eval_to_bool c) as [[]|] eqn:Ev; try discriminate.
      by apply (is_true_decided rho c true Ha Ev).
    + apply Hc, list_elem_of_In, filter_In. rewrite T. by rewrite list_elem_of_In in Hin.
  - apply (Chc.derive _ (strip_rule r).2 rho); [|done| |done].
    + apply list_elem_of_fmap. by exists r.
    + cbn. intros c Hin%list_elem_of_In. apply filter_In in Hin as [Hin _].
      by apply Hc, list_elem_of_In.
Qed.

End Cleanup.

(** ** The rounds *)

Section Rounds.
Context `{AyApi}.

(** The [loop] of [propagate_constants]: [rounds vc n vc'] when it ends with [vc']
    after stripping [n] arguments. *)
Inductive rounds : Chc.ChcVc -> nat -> Chc.ChcVc -> Prop :=
  | rounds_none vc : identify_constant_positions vc = ∅ -> rounds vc 0 vc
  | rounds_idle vc vc' : identify_constant_positions vc <> ∅ ->
      apply_constant_propagation vc (identify_constant_positions vc) = (0%nat, vc') -> rounds vc 0 vc'
  | rounds_more vc k vc' n vc'' : identify_constant_positions vc <> ∅ -> (0 < k)%nat ->
      apply_constant_propagation vc (identify_constant_positions vc) = (k, vc') ->
      rounds vc' n vc'' -> rounds vc (k + n) vc''.

Lemma strip_args_length {A} cs (l : list A) : (length (strip_args cs l) <= length l)%nat.
Proof. apply (keep_le (fun i => match cs !! i with Some (Some _) => false | _ => true end)). Qed.

Lemma strip_decl_arity constants d :
  ((strip_decl constants d).1 + Chc.arity (strip_decl constants d).2 = Chc.arity d)%nat.
Proof.
  unfold strip_decl, Chc.arity. destruct (constants !! Chc.rel_name d) as [cs|]; [|done]. cbn.
  pose proof (strip_args_length cs (Chc.arg_sorts d)). lia.
Qed.

Lemma apply_declared constants vc :
  let '(k, vc') := apply_constant_propagation vc constants in (k + declared_args vc' = declared_args vc)%nat.
Proof.
  unfold apply_constant_propagation, declared_args. cbn. induction (Chc.relations vc) as [|d l IH]; cbn; [done|].
  pose proof (strip_decl_arity constants d). lia.
Qed.

Lemma loop_rounds fuel : forall vc, (declared_args vc <= fuel)%nat ->
  rounds vc (propagate_loop fuel vc).1 (propagate_loop fuel vc).2.
Proof.
  induction fuel as [|fuel IH]; intros vc L; cbn [propagate_loop].
  - destruct (decide _) as [E|E]; [by constructor|].
    pose proof (apply_declared (identify_constant_positions vc) vc) as D.
    destruct (apply_constant_propagation _ _) as [k vc'] eqn:A.
    replace k with 0%nat in * by lia. cbn. by apply rounds_idle.
  - destruct (decide _) as [E|E]; [by constructor|].
    pose proof (apply_declared (identify_constant_positions vc) vc) as D.
    destruct (apply_constant_propagation _ _) as [k vc'] eqn:A.
    destruct (Nat.eqb_spec k 0) as [->|N]; [by apply rounds_idle|].
    specialize (IH vc' ltac:(lia)). destruct (propagate_loop fuel vc') as [n vc''].
    eapply rounds_more; [done|lia|done|exact IH].
Qed.

Lemma rounds_declared vc n vc' : rounds vc n vc' -> (n + declared_args vc' = declared_args vc)%nat.
Proof.
  intros R. induction R as [vc E|vc vc' E A|vc k vc' n vc'' E P A R IH]; [done| |];
    pose proof (apply_declared (identify_constant_positions vc) vc) as D; rewrite A in D; lia.
Qed.

Lemma rounds_det vc n vc1 : rounds vc n vc1 -> forall m vc2, rounds vc m vc2 -> n = m /\ vc1 = vc2.
Proof.
  intros R. induction R as [vc E|vc vc' E A|vc k vc' n vc'' E P A R IH]; intros m vc2 R2;
    inversion R2 as [? E2|? ? E2 A2|? k2 ? n2 ? E2 P2 A2 R2']; subst; try done; try (rewrite A in A2; simplify_eq).
  - done.
  - lia.
  - lia.
  - by destruct (IH _ _ R2') as [-> ->].
Qed.

End Rounds.

(** ** Properties *)

(** C36: constant folding computes the SMT-LIB operators.  On constants of legal
    widths, [eval_bv_binary_const] returns exactly the value the theory of
    bit-vectors defines, wrap-around, signedness, over-long shifts and
    concatenation included; a division by zero, which the theory defines, and an
    operator that is not one of the theory are left unfolded. *)
Theorem bv_fold_exact `{AyApi} (op : binary) (a b : Expr) (va : Z) (wa : N) (vb : Z) (wb : N)
    (Va : value a = Const (BitVecConst va wa)) (Vb : value b = Const (BitVecConst vb wb))
    (W : width_ok wa) (Ra : in_range wa va) (Rb : in_range wb vb)
    (T : match op with BvConcat => width_ok (wa + wb) | _ => wa = wb end) :
  match smt_binary op wa va wb vb with
  | Some res =>
      if is_division op && (vb =? 0)%Z then eval_bv_binary_const op a b = None
      else exists x, eval_bv_binary_const op a b = Some x /\ value x = of_result res
  | None => eval_bv_binary_const op a b = None
  end.
Proof. by apply fold_exact. Qed.

(** the evaluators are sound.  What [try_eval_to_bool] and
    [try_eval_to_const] return is what the expression means under every valuation
    that respects the sorts, and the constant is a scalar. *)
Theorem evaluators_sound `{Encoder} (r : string -> val) (e : Expr) (Hr : admissible r) :
  (forall b, try_eval_to_bool e = Some b -> eval r e = vbool b) /\
  (forall c, try_eval_to_const e = Some c -> eval r c = eval r e /\ is_value c).
Proof. by apply eval_sound. Qed.

(** C32: substitution with folding keeps the meaning.  Under a valuation that gives
    the known variables their constants, [substitute_vars], which rebuilds,
    short-circuits, folds selects over stores, collapses stores and conditionals
    and stops at binders, returns an expression with the value of the original. *)
Theorem substitution_sound `{Encoder} (r : string -> val) (known : gmap string Expr) (e : Expr)
    (Hr : admissible r) (K : known_ok r known) :
  eval r (substitute_vars e known) = eval r e.
Proof. by apply substitute_sound. Qed.

(** what is learned from the equalities is true.  In every model of the
    constraints, the variables [propagate_through_equalities] adds, through
    equality chains, equalities over arithmetic and reads of stored arrays, have
    the constants it gives them. *)
Theorem learned_constants_hold `{Encoder} (r : string -> val) (cs : Chc.Constraints)
    (known : gmap string Expr) (Hr : admissible r)
    (Hc : forall c, c ∈ Chc.iter cs -> is_true (eval r c)) (K : known_ok r known) :
  known_ok r (propagate_through_equalities cs known).
Proof. by apply propagate_ok. Qed.

(** The fixpoint loops end.  Each of the three [while changed] loops behind
    [propagate_through_equalities] is stable after as many rounds as there are
    names to learn: one more pass over the constraints changes nothing. *)
Theorem learning_loops_end `{AyApi} (stores known : gmap string Expr) (flat : list Expr)
    (aliases : list (string * string)) :
  let known' := while_changed (2 * length flat) (for_all equality_step flat) known in
  let stores' := propagate_store_aliases stores aliases in
  let resolved := while_changed (2 * length flat) (for_all (resolve_step stores) flat) known in
  for_all equality_step flat known' = (false, known') /\
  for_all alias_step aliases stores' = (false, stores') /\
  for_all (resolve_step stores) flat resolved = (false, resolved).
Proof. apply loops_stop. Qed.

(** a constant position is constant.  A position that
    [identify_constant_positions] reports, having looked at the resolved head
    arguments of all the rules but the identity ones, holds that constant in every
    fact the rules derive. *)
Theorem constant_positions_sound `{Encoder} (vc : Chc.ChcVc) (name : string) (vs : list val)
    (D : Chc.derivable (Chc.rules vc) name vs) (consts : list (option Expr)) (i : nat) (c : Expr) (v : val)
    (L : identify_constant_positions vc !! name = Some consts) (Lc : consts !! i = Some (Some c))
    (Lv : vs !! i = Some v) :
  is_constant c = true /\ forall r, v = eval r c.
Proof. by eapply identify_holds. Qed.

(** C9: a round loses no violation of a system in which every body that reads a
    relation with constant positions has a variable at one of them ([has_variable]; a
    rule without one is skipped, and [readings_needed] shows what that loses).  Every
    fact derived by valuations that read an unconstrained [__out] variable of a head as
    unchanged ([framed]) is derived after [apply_constant_propagation] too, less its
    constant positions. *)
Theorem propagation_preserves `{Encoder} (vc : Chc.ChcVc)
    (Hv : forall r, r ∈ Chc.rules vc -> has_variable (identify_constant_positions vc) r)
    (name : string) (vs : list val) (F : framed (Chc.rules vc) name vs) :
  let vc' := (apply_constant_propagation vc (identify_constant_positions vc)).2 in
  Chc.derivable (Chc.rules vc') name (strip_values (identify_constant_positions vc) name vs).
Proof. exact (apply_derives vc Hv name vs F). Qed.

(** the clean-up is exact.  Dropping the rules with a conjunct that evaluates
    to false and the constraints that evaluate to true changes no derivable fact,
    alone and together. *)
Theorem cleanup_exact `{Encoder} (vc : Chc.ChcVc) :
  Chc.rules (eliminate_trivially_false_rules vc).2 ≡ Chc.rules vc /\
  Chc.rules (strip_trivially_true_constraints vc).2 ≡ Chc.rules vc /\
  Chc.rules (strip_trivially_true_constraints (eliminate_trivially_false_rules vc).2).2 ≡ Chc.rules vc.
Proof.
  split_and!; [apply eliminate_equiv|apply strip_equiv|]. by rewrite strip_equiv, eliminate_equiv.
Qed.

(** the pass ends, and counts.  The [loop] of [propagate_constants] has
    exactly one outcome and reaches it within as many rounds as the relations
    declare arguments; the number returned is the number of arguments removed. *)
Theorem propagation_ends `{AyApi} (vc : Chc.ChcVc) :
  let '(n, vc') := propagate_loop (declared_args vc) vc in
  rounds vc n vc' /\ (forall m vc2, rounds vc m vc2 -> m = n /\ vc2 = vc') /\
  ((propagate_constants vc).1 + declared_args (propagate_constants vc).2 = declared_args vc)%nat.
Proof.
  pose proof (loop_rounds (declared_args vc) vc ltac:(done)) as R.
  unfold propagate_constants. destruct (propagate_loop _ vc) as [n vc'].
  split_and!; [exact R| |exact (rounds_declared _ _ _ R)].
  intros m vc2 R2. by destruct (rounds_det _ _ _ R2 _ _ R) as [-> ->].
Qed.

(** ** Instances *)

Section Sample.
Import AyBuildSample SampleSystems.

(** [P(5, y)]; [Q(u__out, v)] from [P(u, v)] with [v = u + 1]; an error from
    [Q(s, t)] with [t = s + 1]. *)
Definition chain : @Chc.ChcVc terms := system [("P", 2%nat); ("Q", 2%nat); ("error", 0%nat)]
  [clause None [] (call "P" [num 5; sym "y"]);
   clause (Some (call "P" [sym "u"; sym "v"])) [TEq (sym "v") (succ (sym "u"))] (call "Q" [sym "u__out"; sym "v"]);
   clause (Some (call "Q" [sym "s"; sym "t"])) [TEq (sym "t") (succ (sym "s"))] (call "error" [])].

(** [P(5, y)]; an error from [P(5, v)]. *)
Definition literal_argument : @Chc.ChcVc terms := system [("P", 2%nat); ("error", 0%nat)]
  [clause None [] (call "P" [num 5; sym "y"]); clause (Some (call "P" [num 5; sym "v"])) [] (call "error" [])].

(** [P(3)]; [Q(x__out)] from [P(x)]; an error from [Q(7)]. *)
Definition free_output : @Chc.ChcVc terms := system [("P", 1%nat); ("Q", 1%nat); ("error", 0%nat)]
  [clause None [] (call "P" [num 3]);
   clause (Some (call "P" [sym "x"])) [] (call "Q" [sym "x__out"]);
   clause (Some (call "Q" [sym "w"])) [TEq (sym "w") (num 7)] (call "error" [])].

(** ... and reads the free outputs as unchanged. *)
Definition reads (l : list (string * Z)) (r : @Chc.Rule terms) : bool :=
  match constrained_names r with
  | None => true
  | Some names =>
      forallb (fun arg : @Expr terms =>
        match value arg with
        | Var n =>
            match Str.strip_suffix n "__out" with
            | Some base => bool_decide (n ∈ names) || bool_decide (valuation l n = valuation l base)
            | None => true
            end
        | _ => true
        end) (Chc.args (Chc.head r))
  end.

Lemma reads_ok l r : reads l r = true -> @frames terms term_api term_sem r (valuation l).
Proof.
  unfold reads, frames. intros R names arg n base E Ha V S Hn. rewrite E, forallb_forall in R.
  apply list_elem_of_In, R in Ha. rewrite V, S in Ha. apply orb_true_iff in Ha as [Ha|Ha].
  - by apply bool_decide_eq_true in Ha.
  - by apply bool_decide_eq_true in Ha.
Qed.

Lemma fire_framed (l : list (string * Z)) rs r n (vs : list sval) :
  r ∈ rs -> fires l r && reads l r = true -> Chc.head_name r = n ->
  map (seval (valuation l)) (Chc.args (Chc.head r)) = vs ->
  (forall a, Chc.relation (Chc.body r) = Some a ->
    @framed terms term_api term_sem rs (Chc.app_name a) (map (seval (valuation l)) (Chc.args a))) ->
  @framed terms term_api term_sem rs n vs.
Proof.
  intros Hr [F R]%andb_true_iff <- <- B. destruct (fires_ok l r F).
  apply (@framed_rule terms term_api term_sem rs r (valuation l)); [done..|by apply reads_ok|done|done].
Qed.

Lemma chain_framed : @framed terms term_api term_sem (Chc.rules chain) "error" [].
Proof.
  fire fire_framed [("s", 5%Z); ("t", 6%Z)] 2%nat.
  fire fire_framed [("u", 5%Z); ("v", 6%Z); ("u__out", 5%Z)] 1%nat.
  fire fire_framed [("y", 6%Z)] 0%nat.
Qed.

(** [has_variable], decided *)
Definition has_variableb (constants : gmap string (list (option (@Expr terms)))) (rule : @Chc.Rule terms) : bool :=
  match Chc.relation (Chc.body rule) with
  | None => true
  | Some a =>
      match constants !! Chc.app_name a with
      | None => true
      | Some consts => bool_decide (body_known consts (Chc.args a) <> ∅)
      end
  end.
Lemma has_variableb_ok constants rules :
  forallb (has_variableb constants) rules = true ->
  forall r, r ∈ rules -> @has_variable terms constants r.
Proof.
  intros F r Hr a consts E C. rewrite forallb_forall in F. apply list_elem_of_In, F in Hr.
  unfold has_variableb in Hr. rewrite E, C in Hr. by apply bool_decide_eq_true in Hr.
Qed.

Lemma literal_argument_error : @Chc.reachable terms term_sem literal_argument.
Proof.
  exists []. fire fire_derivable [("v", 6%Z)] 1%nat. fire fire_derivable [("y", 6%Z)] 0%nat.
Qed.

Lemma free_output_error : @Chc.reachable terms term_sem free_output.
Proof.
  exists []. fire fire_derivable [("w", 7%Z)] 2%nat.
  fire fire_derivable [("x", 3%Z); ("x__out", 7%Z)] 1%nat. fire fire_derivable (@nil (string * Z)) 0%nat.
Qed.

(** The rules of a relation give facts of one arity. *)
Definition arity_ok (rs : list (@Chc.Rule terms)) (n : string) (k : nat) : Prop :=
  forall r, r ∈ rs -> Chc.head_name r = n -> length (Chc.args (Chc.head r)) = k.
Lemma arity_okb_ok rs n k :
  forallb (fun r => negb (String.eqb (Chc.head_name r) n) || Nat.eqb (length (Chc.args (Chc.head r))) k) rs = true ->
  arity_ok rs n k.
Proof.
  intros F r Hr E. rewrite forallb_forall in F. apply list_elem_of_In, F in Hr.
  rewrite E, String.eqb_refl in Hr. by apply Nat.eqb_eq.
Qed.
Lemma arity_derivable rs n k vs : arity_ok rs n k -> @Chc.derivable terms term_sem rs n vs -> length vs = k.
Proof. intros A D. destruct D as [r rho Hr _ _ _]. rewrite length_map. by apply A. Qed.

Lemma calls_okb_ok (rs : list (@Chc.Rule terms)) n m k :
  forallb (fun r => negb (String.eqb (Chc.head_name r) n) ||
    match Chc.relation (Chc.body r) with
    | Some a => String.eqb (Chc.app_name a) m && Nat.eqb (length (Chc.args a)) k
    | None => false
    end) rs = true ->
  forall r, r ∈ rs -> Chc.head_name r = n ->
    exists a, Chc.relation (Chc.body r) = Some a /\ Chc.app_name a = m /\ length (Chc.args a) = k.
Proof.
  intros F r Hr E. rewrite forallb_forall in F. apply list_elem_of_In, F in Hr.
  rewrite E, String.eqb_refl in Hr. destruct (Chc.relation (Chc.body r)) as [a|]; [|done].
  exists a. apply andb_true_iff in Hr as [N%String.eqb_eq L%Nat.eqb_eq]. done.
Qed.

Lemma arity_mismatch (rs : list (@Chc.Rule terms)) n m k k' vs :
  arity_ok rs m k -> k <> k' ->
  (forall r, r ∈ rs -> Chc.head_name r = n ->
    exists a, Chc.relation (Chc.body r) = Some a /\ Chc.app_name a = m /\ length (Chc.args a) = k') ->
  ~ @Chc.derivable terms term_sem rs n vs.
Proof.
  intros A N E D. inversion D as [r rho Hr Ha Hc Hb En]. destruct (E r Hr En) as (a & Ea & Na & La).
  specialize (Hb a Ea). rewrite Na in Hb. apply (arity_derivable _ _ _ _ A) in Hb.
  rewrite length_map in Hb. congruence.
Qed.

(** the two readings of C7 are needed.  A rule that calls a relation with the
    constant itself keeps the argument that the declaration and the heads lose, so
    it no longer fires; and where an unconstrained [__out] variable could be any
    value, the pass makes it the old one.  Each loses a reachable error. *)
Theorem readings_needed :
  (@Chc.reachable terms term_sem literal_argument /\
   ~ @Chc.reachable terms term_sem (propagate_constants literal_argument).2) /\
  (@Chc.reachable terms term_sem free_output /\
   ~ @Chc.reachable terms term_sem (propagate_constants free_output).2).
Proof.
  split; split; [apply literal_argument_error| |apply free_output_error|].
  - intros [vs D]. eapply (arity_mismatch _ "error" "P" 1 2); [|done| |exact D].
    + apply arity_okb_ok. by vm_compute.
    + apply calls_okb_ok. by vm_compute.
  - intros [vs D]. apply Chc.derivable_head in D.
    assert (N : bool_decide ("error" ∈ map Chc.head_name (Chc.rules (propagate_constants free_output).2)) = false)
      by by vm_compute.
    by apply bool_decide_eq_false in N.
Qed.

Lemma chain_has_variable :
  forallb (has_variableb (identify_constant_positions chain)) (Chc.rules chain) = true.
Proof. by vm_compute. Qed.

(** The witnesses *)

Lemma bv_fold_exact_witness :
  width_ok 8 /\
  exists x, eval_bv_binary_const BvAdd (num 250) (num 10) = Some x /\ value x = Const (BitVecConst 4 8).
Proof.
  split; [by vm_compute|].
  refine (bv_fold_exact BvAdd (num 250) (num 10) 250 8 10 8 eq_refl eq_refl _ _ _ _);
    [by vm_compute|split; [done|by vm_compute]|split; [done|by vm_compute]|done].
Defined.

Lemma evaluators_sound_witness :
  try_eval_to_bool (TEq (succ (num 255)) (num 0)) = Some true /\
  seval (valuation []) (TEq (succ (num 255)) (num 0)) = VBool true.
Proof.
  split; [by vm_compute|].
  refine (proj1 (evaluators_sound (valuation []) (TEq (succ (num 255)) (num 0)) (valuation_ok [] eq_refl)) true _).
  by vm_compute.
Defined.

Lemma known_single (r : string -> sval) n c : ConstEval.is_constant c = true -> r n = seval r c ->
  @known_ok terms term_sem r {[ n := c ]}.
Proof. intros C E m d L. apply lookup_singleton_Some in L as [<- <-]. done. Qed.

Lemma substitution_sound_witness :
  seval (valuation [("u", 5%Z)]) (substitute_vars (succ (sym "u")) {[ "u" := num 5 ]}) =
  seval (valuation [("u", 5%Z)]) (succ (sym "u")) /\
  substitute_vars (succ (sym "u")) {[ "u" := num 5 ]} = num 6.
Proof.
  split; [|by vm_compute].
  apply (substitution_sound (valuation [("u", 5%Z)])); [by apply valuation_ok|by apply known_single].
Defined.

Lemma learned_constants_hold_witness :
  let cs := Chc.Owned [TEq (sym "u") (num 5); TEq (sym "v") (sym "u")] in
  propagate_through_equalities cs ∅ !! "v" = Some (num 5) /\
  @known_ok terms term_sem (valuation [("u", 5%Z); ("v", 5%Z)]) (propagate_through_equalities cs ∅).
Proof.
  split; [by vm_compute|]. apply learned_constants_hold; [by apply valuation_ok| |done].
  intros c Hc. cbn in Hc. by repeat (apply elem_of_cons in Hc as [->|Hc]; [by vm_compute|]); apply elem_of_nil in Hc.
Defined.

Lemma constant_positions_sound_witness :
  identify_constant_positions chain !! "P" = Some [Some (num 5); None] /\
  forall r, VBv 8 5 = seval r (num 5).
Proof.
  split; [by vm_compute|].
  assert (D : @Chc.derivable terms term_sem (Chc.rules chain) "P" [VBv 8 5; VBv 8 6])
    by fire fire_derivable [("y", 6%Z)] 0%nat.
  refine (proj2 (constant_positions_sound chain "P" [VBv 8 5; VBv 8 6] D [Some (num 5); None] 0 (num 5) (VBv 8 5) _ _ _));
    by vm_compute.
Defined.

Lemma propagation_preserves_witness :
  @framed terms term_api term_sem (Chc.rules chain) "error" [] /\
  @strip_values terms term_sem (identify_constant_positions chain) "error" [] = [] /\
  @Chc.derivable terms term_sem
    (Chc.rules (apply_constant_propagation chain (identify_constant_positions chain)).2) "error"
    (strip_values (identify_constant_positions chain) "error" []).
Proof.
  split; [apply chain_framed|]. split; [by vm_compute|].
  exact (propagation_preserves chain (has_variableb_ok _ _ chain_has_variable) "error" [] chain_framed).
Defined.

Lemma cleanup_exact_witness :
  let vc := system [("P", 1%nat)] [clause None [TEq (num 1) (num 1)] (call "P" [num 3]);
                                   clause None [TEq (num 1) (num 2)] (call "P" [num 4])] in
  map (fun r => (Chc.args (Chc.head r), Chc.iter (Chc.constraints (Chc.body r))))
    (Chc.rules (strip_trivially_true_constraints (eliminate_trivially_false_rules vc).2).2) = [([num 3], [])] /\
  forall n vs, @Chc.derivable terms term_sem
    (Chc.rules (strip_trivially_true_constraints (eliminate_trivially_false_rules vc).2).2) n vs <->
  Chc.derivable (Chc.rules vc) n vs.
Proof. intros vc. split; [by vm_compute|]. apply (proj2 (proj2 (cleanup_exact vc))). Defined.

End Sample.

End ConstPropTheorems.
