(* ===== verification/Visits.v ===== *)
(** * Counted visits

    The walkers of the straight-line prover (straightline_proof.rs of
    trust-mc-compiler) ask [StraightlineDepthGuard::enter] for permission at every
    node they visit and return [None] when it is refused, or when they do not
    support what they see.  A computation here takes the number of visits so far and
    returns its result with the new number; which visits are granted is a parameter.
    [ensures] is what holds of a result, [grows] that the number of visits never
    goes down. *)

From S2P Require Import Prelude.

Module Visits.

Definition M (A : Type) : Type := N -> option A * N.

#[export] Instance M_ret : MRet M := fun A a n => (Some a, n).
#[export] Instance M_bind : MBind M := fun A B k m n =>
  match m n with (Some a, n') => k a n' | (None, n') => (None, n') end.

(** [return None], a value of type [Option], and [if let Some(x) = m] *)
Definition bail {A} : M A := fun n => (None, n).
Definition of_option {A} (o : option A) : M A := fun n => (o, n).
Definition attempt {A} (m : M A) : M (option A) := fun n => let '(o, n') := m n in (Some o, n').

(** [for x in l { out.push(f(x)?) }] *)
Fixpoint map_m {A B} (f : A -> M B) (l : list A) : M (list B) :=
  match l with
  | [] => mret []
  | x :: l => y ← f x; ys ← map_m f l; mret (y :: ys)
  end.

(** The budget of [StraightlineDepthGuard::enter] *)
Definition visit (grant : N -> bool) : M unit := fun n => (if grant n then Some tt else None, N.succ n).

(** ** What holds of a result *)

Definition ensures {A} (m : M A) (P : A -> Prop) : Prop := forall n a n', m n = (Some a, n') -> P a.

Lemma ensures_ret {A} (a : A) (P : A -> Prop) : P a -> ensures (mret a) P.
Proof. by intros Pa n a' n' [= <- <-]. Qed.

Lemma ensures_bind {A B} (m : M A) (k : A -> M B) Q P :
  ensures m Q -> (forall a, Q a -> ensures (k a) P) -> ensures (m ≫= k) P.
Proof.
  intros Hm Hk n b n' E. unfold mbind, M_bind in E. destruct (m n) as [[a|] n1] eqn:Em; [|done].
  by eapply Hk, E; eapply Hm.
Qed.

Lemma ensures_bail {A} (P : A -> Prop) : ensures bail P.
Proof. by intros n a n' E. Qed.

Lemma ensures_option {A} (o : option A) (P : A -> Prop) :
  (forall a, o = Some a -> P a) -> ensures (of_option o) P.
Proof. intros Ho n a n' [= Ea <-]. by apply Ho. Qed.

Lemma ensures_option_bind {A B} (o : option A) (k : A -> M B) P :
  (forall a, o = Some a -> ensures (k a) P) -> ensures (of_option o ≫= k) P.
Proof. intros Hk. apply (ensures_bind _ _ (fun a => o = Some a)); [by apply ensures_option|done]. Qed.

Lemma ensures_attempt {A} (m : M A) (P : option A -> Prop) :
  ensures m (fun a => P (Some a)) -> P None -> ensures (attempt m) P.
Proof.
  intros Hm Hn n o n' E. unfold attempt in E. destruct (m n) as [[a|] n1] eqn:Em; injection E as <- <-; [|done].
  by eapply Hm.
Qed.

Lemma ensures_map {A B} (f : A -> M B) (l : list A) (P : A -> B -> Prop) :
  (forall x, x ∈ l -> ensures (f x) (P x)) -> ensures (map_m f l) (List.Forall2 P l).
Proof.
  induction l as [|x l IH]; intros Hf; cbn; [by apply ensures_ret|].
  eapply ensures_bind; [apply Hf; left|]. intros y Py.
  eapply ensures_bind; [apply IH; intros z Hz; apply Hf; by right|]. intros ys Pys.
  apply ensures_ret. by constructor.
Qed.

Lemma ensures_visit grant (P : unit -> Prop) : P tt -> ensures (visit grant) P.
Proof. intros Pt n [] n' _. done. Qed.

Lemma ensures_true {A} (m : M A) : ensures m (fun _ => True).
Proof. done. Qed.

Lemma ensures_weaken {A} (m : M A) (P Q : A -> Prop) :
  ensures m P -> (forall a, P a -> Q a) -> ensures m Q.
Proof. intros Hm PQ n a n' E. by eapply PQ, Hm. Qed.

End Visits.
