(* ===== verification/AyTry.v ===== *)
(** * Builders that may refuse

    The straight-line prover builds with the [try_] functions of the crate
    [ay_bindings], which return an error on ill-sorted operands instead of
    panicking, and asks for the sorts of expressions.  [AyTry] is what it calls
    beyond [AyApi]; [AyTryEval] is the meaning its correctness relies on: an
    expression of a sort has a value of the sort, a builder that does not refuse
    makes what it says, and no builder makes a quantifier. *)

From S2P Require Import Prelude AyExpr BvArith AyBuild AyBuildSample.

Module AyTry.
Import BvArith AyBuild.

Class AyTry `{AyApi} := {
  is_bool_sort : Sort -> bool;
  try_unary : unary Sort -> Expr -> option Expr;
  try_binary : binary -> Expr -> Expr -> option Expr;
  try_eq : Expr -> Expr -> option Expr;
  try_ite : Expr -> Expr -> Expr -> option Expr;
  try_and_many : list Expr -> option Expr;
  try_or_many : list Expr -> option Expr;
}.

(** [sort().is_bitvec()] *)
Definition is_bitvec `{AyApi} (s : Sort) : bool := bool_decide (is_Some (bitvec_width s)).

(** An expression without a quantifier *)
Inductive quantifier_free `{AyExpr} : Expr -> Prop :=
  | qf_node e : is_quantifier (value e) = false -> (forall c, c ∈ children e -> quantifier_free c) ->
      quantifier_free e.

(** [e] is made by a builder from the operands [es]. *)
Inductive built `{AyTry} : Expr -> list Expr -> Prop :=
  | built_unary op a : built (mk_unary op a) [a]
  | built_eq a b : built (mk_eq a b) [a; b]
  | built_select a i : built (mk_select a i) [a; i]
  | built_store a i x : built (mk_store a i x) [a; i; x]
  | built_try_unary op a e : try_unary op a = Some e -> built e [a]
  | built_try_binary op a b e : try_binary op a b = Some e -> built e [a; b]
  | built_try_eq a b e : try_eq a b = Some e -> built e [a; b]
  | built_try_ite c t f e : try_ite c t f = Some e -> built e [c; t; f]
  | built_try_and es e : try_and_many es = Some e -> built e es
  | built_try_or es e : try_or_many es = Some e -> built e es
  | built_try_field a d n s e : try_field_select a d n s = Some e -> built e [a]
  | built_try_tester a d k e : try_is_constructor a d k = Some e -> built e [a]
  | built_rebuild e cs : is_quantifier (value e) = false -> length cs = length (children e) ->
      built (rebuild_with_children e cs) cs.

Class AyTryEval `{AyEval} `{!AyTry} := {
  (** an expression of a sort has a value of the sort *)
  bool_of_sort : forall r e, admissible r -> is_bool_sort (sort_of e) = true -> exists b, eval r e = vbool b;
  bits_of_sort : forall r e w, admissible r -> bitvec_width (sort_of e) = Some w ->
    width_ok w /\ exists x, in_range w x /\ eval r e = bv w x;
  (** [bvumulo], negated *)
  eval_mul_no_overflow : forall r e a b w x y, admissible r ->
    value e = Binary BvMulNoOverflowUnsigned a b -> in_range w x -> in_range w y ->
    eval r a = bv w x -> eval r b = bv w y -> eval r e = vbool (x * y <? card w)%Z;
  (** the integer of a bit-vector tells it from the others of its width *)
  bv2int_inj : forall r e e' a a', admissible r -> value e = Unary Bv2Int a ->
    value e' = Unary Bv2Int a' -> sort_of a = sort_of a' -> is_bitvec (sort_of a) = true ->
    eval r e = eval r e' -> eval r a = eval r a';
  (** a tester of a constructor term compares the constructors *)
  eval_tester : forall r e d n a c k args, admissible r -> value e = Unary (DatatypeTester d n) a ->
    eval r a = eval r c -> value c = DatatypeConstructor d k args ->
    eval r e = vbool (bool_decide (k = n));
  (** the builders *)
  try_unary_same : forall r e op a a' e', value e = Unary op a -> eval r a' = eval r a ->
    try_unary op a' = Some e' -> eval r e' = eval r e;
  try_binary_same : forall r e op a b a' b' e', value e = Binary op a b -> eval r a' = eval r a ->
    eval r b' = eval r b -> try_binary op a' b' = Some e' -> eval r e' = eval r e;
  eval_try_eq : forall r a b e, try_eq a b = Some e ->
    exists t, eval r e = vbool t /\ (t = true <-> eval r a = eval r b);
  eval_try_ite : forall r c t f e, admissible r -> try_ite c t f = Some e ->
    exists b, eval r c = vbool b /\ eval r e = if b then eval r t else eval r f;
  eval_try_and_many : forall r es bs e, try_and_many es = Some e -> map (eval r) es = map vbool bs ->
    eval r e = vbool (forallb id bs);
  eval_try_or_many : forall r es bs e, try_or_many es = Some e -> map (eval r) es = map vbool bs ->
    eval r e = vbool (existsb id bs);
  built_qf : forall e es, built e es -> List.Forall quantifier_free es -> quantifier_free e;
}.

Section Facts.
Context `{AyTryEval}.

Lemma qf_children e : quantifier_free e -> List.Forall quantifier_free (children e).
Proof. intros Q. destruct Q as [e _ Q]. by apply Forall_forall. Qed.

Lemma qf_child e c : quantifier_free e -> c ∈ children e -> quantifier_free c.
Proof. intros Q Hc. by eapply Forall_forall in Hc; [|by apply qf_children]. Qed.

Lemma qf_quantifier e : quantifier_free e -> is_quantifier (value e) = false.
Proof. by intros [e' ? _]. Qed.

Lemma qf_leaf e : is_quantifier (value e) = false -> children e = [] -> quantifier_free e.
Proof. intros Q C. constructor; [done|]. rewrite C. intros c Hc. by apply elem_of_nil in Hc. Qed.

Lemma qf_bool b : quantifier_free (bool_const b).
Proof. apply qf_leaf; unfold children; by rewrite value_bool_const. Qed.

Lemma qf_bits z w : width_ok w -> quantifier_free (bitvec_const z w).
Proof. intros W. apply qf_leaf; unfold children; by rewrite value_bitvec_const. Qed.

Lemma qf_built e es : built e es -> List.Forall quantifier_free es -> quantifier_free e.
Proof. apply built_qf. Qed.

End Facts.

End AyTry.

(** * The sample language with builders that may refuse

    [AyTry] and [AyTryEval] for the terms of [AyBuildSample]: a builder refuses when
    the term it would make is not well sorted. *)

Module AyTrySample.
Import BvArith AyBuild AyBuildSample AyTry.

Definition well_sorted (t : term) : option term := if decide (ssort_of t = SErr) then None else Some t.

#[export] Instance term_try : AyTry := {|
  is_bool_sort := fun s : @Sort terms => bool_decide (s = SBool);
  try_unary := fun op t => well_sorted (TUn op t);
  try_binary := fun op a b => well_sorted (TBin op a b);
  try_eq := fun a b => well_sorted (TEq a b);
  try_ite := fun c t f => well_sorted (TIte c t f);
  try_and_many := fun es => well_sorted (foldr TAnd (TBool true) es);
  try_or_many := fun es => well_sorted (foldr TOr (TBool false) es) |}.

Lemma well_sorted_Some t t' : well_sorted t = Some t' -> t' = t /\ ssort_of t <> SErr.
Proof. unfold well_sorted. destruct (decide _); [done|]. by intros [= <-]. Qed.

(** There are no quantifiers. *)
Lemma all_quantifier_free (t : @Expr terms) : @quantifier_free terms t.
Proof.
  induction t as [t IH] using (@size_ind terms). constructor; [|exact IH].
  cbn. unfold svalue. destruct (ssort_of t), t; done.
Qed.

#[export, program] Instance term_try_eval : AyTryEval := {| bool_of_sort := _ |}.
Next Obligation.
  intros r e Hr S. apply bool_decide_eq_true in S. apply typed_bool. rewrite <- S. by apply seval_typed.
Qed.
Next Obligation.
  intros r e w Hr W. cbn in W. pose proof (sorts_ok e) as Ok. pose proof (seval_typed r e Hr) as T.
  destruct (ssort_of e) as [|w'| |]; try done. cbn in W. destruct (width_okb w'); [|done].
  injection W as ->. split; [exact Ok|].
  apply typed_bv in T as (x & E & R). by exists x.
Qed.
Next Obligation.
  intros r e a b w x y Hr V. inv_view V. intros [Rx _] [Ry _] Ea Eb. cbn in Ea, Eb |- *. rewrite Ea, Eb. cbn.
  by rewrite (proj2 (Z.leb_le 0 (x * y))) by lia.
Qed.
Next Obligation. intros r e e' a a' Hr V. inv_view V. exfalso. apply W. cbn. by destruct (ssort_of a). Qed.
Next Obligation. intros r e d n a c k args Hr V. inv_view V. exfalso. apply W. cbn. by destruct (ssort_of a). Qed.
Next Obligation. intros r e op a a' e' V E [-> _]%well_sorted_Some. inv_view V. cbn in *. by rewrite E. Qed.
Next Obligation.
  intros r e op a b a' b' e' V Ea Eb [-> _]%well_sorted_Some. inv_view V. cbn in *. by rewrite Ea, Eb.
Qed.
Next Obligation.
  intros r a b e [-> _]%well_sorted_Some. eexists. split; [reflexivity|]. cbn. apply bool_decide_eq_true.
Qed.
Next Obligation.
  intros r c t f e Hr [-> W]%well_sorted_Some. cbn [ssort_of] in W. destruct (ssort_of c) eqn:Sc; try done.
  destruct (typed_and c r Hr Sc) as [b E]. exists b. cbn. by rewrite E.
Qed.
Next Obligation. intros r es bs e [-> _]%well_sorted_Some. apply eval_and_many_ok. Qed.
Next Obligation. intros r es bs e [-> _]%well_sorted_Some. apply eval_or_many_ok. Qed.
Next Obligation. intros. apply all_quantifier_free. Qed.

End AyTrySample.
