(* ===== verification/PathFacts.v ===== *)
(** * Facts of a path

    [PathFacts] of straightline_proof.rs and the reading of unsigned bounds out of
    comparisons: what the straight-line prover remembers of the guards on a path.
    A [u128] is a [Z] between 0 and [2 ^ 128], a [u32] is an [N]. *)

From S2P Require Import Prelude AyExpr BvArith AyBuild AyTry.

Module PathFacts.
Import BvArith AyBuild AyTry.
Open Scope Z_scope.

(** ** u128 *)

Definition u128_max : Z := 2 ^ 128 - 1.
Definition wrapping_add (l r : Z) : Z := (l + r) mod 2 ^ 128.
Definition wrapping_sub (l r : Z) : Z := (l - r) mod 2 ^ 128.
Definition wrapping_shl (l : Z) (k : N) : Z := Z.shiftl l (Z.of_N k) mod 2 ^ 128.
Definition checked_mul (l r : Z) : option Z := if l * r <=? u128_max then Some (l * r) else None.
Definition checked_add (l r : Z) : option Z := if l + r <=? u128_max then Some (l + r) else None.
Definition checked_sub (l r : Z) : option Z := if r <=? l then Some (l - r) else None.
Definition saturating_sub (l r : Z) : Z := Z.max 0 (l - r).

(** [bv_mask] *)
Definition bv_mask (width : N) : Z :=
  if (width =? 0)%N then 0
  else if (128 <=? width)%N then u128_max
  else Z.shiftl 1 (Z.of_N width) - 1.

(** [signed_bv_order] *)
Definition signed_bv_order (lhs rhs : Z) (width : N) : Z :=
  let sign_bit := wrapping_shl 1 (width - 1) in
  let lhs_negative := negb (Z.land lhs sign_bit =? 0) in
  let rhs_negative := negb (Z.land rhs sign_bit =? 0) in
  match lhs_negative, rhs_negative with
  | true, false => -1
  | false, true => 1
  | _, _ => if lhs <? rhs then -1 else if rhs <? lhs then 1 else 0
  end.

(** [unsigned_mul_fits_width] *)
Definition unsigned_mul_fits_width (lhs rhs : Z) (width : N) : bool :=
  match checked_mul lhs rhs with Some product => product <=? bv_mask width | None => false end.

(** ** The facts *)

Section Facts.
Context `{AyTry}.

(** [bv_const_u128] *)
Definition bv_const_u128 (e : Expr) : option (Z * N) :=
  match value e with
  | Const (BitVecConst v width) =>
      if (128 <? width)%N then None
      else if (0 <=? v) && (v <=? u128_max) then Some (Z.land v (bv_mask width), width)
      else None
  | _ => None
  end.

Record PathFacts := {
  disequalities : list (Expr * Expr);
  unsigned_upper_bounds : list (Expr * Z * N);
  unsigned_lower_bounds : list (Expr * Z * N);
}.

#[export] Instance PathFacts_eq_dec : EqDecision PathFacts.
Proof. solve_decision. Defined.

(** [PathFacts::default()] *)
Definition no_facts : PathFacts :=
  {| disequalities := []; unsigned_upper_bounds := []; unsigned_lower_bounds := [] |}.

(** [are_disequal]; the recursion goes through [Bv2Int] nodes of both sides. *)
Fixpoint disequal_fuel (fuel : nat) (facts : PathFacts) (lhs rhs : Expr) : bool :=
  existsb (fun '(a, b) => (bool_decide (a = lhs) && bool_decide (b = rhs)) ||
                          (bool_decide (a = rhs) && bool_decide (b = lhs))) (disequalities facts) ||
  match fuel with
  | O => false
  | S fuel =>
      match value lhs, value rhs with
      | Unary Bv2Int lhs_inner, Unary Bv2Int rhs_inner =>
          bool_decide (sort_of lhs_inner = sort_of rhs_inner) && is_bitvec (sort_of lhs_inner) &&
          disequal_fuel fuel facts lhs_inner rhs_inner
      | _, _ => false
      end
  end.
Definition are_disequal (facts : PathFacts) (lhs rhs : Expr) : bool :=
  disequal_fuel (AyExpr.size lhs) facts lhs rhs.

(** [add_disequality] *)
Definition add_disequality (facts : PathFacts) (lhs rhs : Expr) : PathFacts :=
  if bool_decide (lhs = rhs) || are_disequal facts lhs rhs then facts
  else {| disequalities := disequalities facts ++ [(lhs, rhs)];
          unsigned_upper_bounds := unsigned_upper_bounds facts;
          unsigned_lower_bounds := unsigned_lower_bounds facts |}.

(** The first bound of the expression at the width is combined with the new one, or
    the new one is added. *)
Fixpoint tighten (f : Z -> Z -> Z) (e : Expr) (bound : Z) (width : N) (l : list (Expr * Z * N))
    : list (Expr * Z * N) :=
  match l with
  | [] => [(e, bound, width)]
  | (e', bound', width') :: l =>
      if decide (e' = e /\ width' = width) then (e', f bound' bound, width') :: l
      else (e', bound', width') :: tighten f e bound width l
  end.

(** [add_unsigned_upper_bound], [add_unsigned_lower_bound] *)
Definition add_unsigned_upper_bound (facts : PathFacts) (e : Expr) (bound : Z) (width : N) : PathFacts :=
  {| disequalities := disequalities facts;
     unsigned_upper_bounds := tighten Z.min e bound width (unsigned_upper_bounds facts);
     unsigned_lower_bounds := unsigned_lower_bounds facts |}.
Definition add_unsigned_lower_bound (facts : PathFacts) (e : Expr) (bound : Z) (width : N) : PathFacts :=
  {| disequalities := disequalities facts;
     unsigned_upper_bounds := unsigned_upper_bounds facts;
     unsigned_lower_bounds := tighten Z.max e bound width (unsigned_lower_bounds facts) |}.

(** [bounds_contradict] *)
Definition bounds_contradict (facts : PathFacts) : bool :=
  existsb (fun '(e, lower, width) =>
    existsb (fun '(other, upper, other_width) =>
      bool_decide (other = e) && (other_width =? width)%N && (upper <=? lower))
      (unsigned_upper_bounds facts)) (unsigned_lower_bounds facts).

(** [unsigned_upper_bound]: the first of the least bounds. *)
Fixpoint min_by_bound (l : list (Z * N)) : option (Z * N) :=
  match l with
  | [] => None
  | (b, w) :: l =>
      match min_by_bound l with
      | Some (b', w') => if b <=? b' then Some (b, w) else Some (b', w')
      | None => Some (b, w)
      end
  end.
Definition unsigned_upper_bound (facts : PathFacts) (e : Expr) : option (Z * N) :=
  min_by_bound (map (fun '(_, bound, width) => (bound, width))
    (List.filter (fun '(candidate, _, _) => bool_decide (candidate = e)) (unsigned_upper_bounds facts))).

(** ** Bounds in comparisons *)

Inductive UnsignedCmp := Lt | Le | Gt | Ge.

Definition negated (kind : UnsignedCmp) : UnsignedCmp :=
  match kind with Lt => Ge | Le => Gt | Gt => Le | Ge => Lt end.
Definition swapped (kind : UnsignedCmp) : UnsignedCmp :=
  match kind with Lt => Gt | Le => Ge | Gt => Lt | Ge => Le end.

(** The operands and the kind of an unsigned comparison *)
Definition unsigned_cmp (e : Expr) : option (Expr * Expr * UnsignedCmp) :=
  match value e with
  | Binary BvULt lhs rhs => Some (lhs, rhs, Lt)
  | Binary BvULe lhs rhs => Some (lhs, rhs, Le)
  | Binary BvUGt lhs rhs => Some (lhs, rhs, Gt)
  | Binary BvUGe lhs rhs => Some (lhs, rhs, Ge)
  | _ => None
  end.

(** The comparison turned so that the constant is on the right *)
Definition orient (lhs rhs : Expr) (kind : UnsignedCmp) : option (Expr * Z * UnsignedCmp) :=
  match bv_const_u128 lhs, bv_const_u128 rhs with
  | None, Some (constant, _) => Some (lhs, constant, kind)
  | Some (constant, _), None => Some (rhs, constant, swapped kind)
  | _, _ => None
  end.

(** The part the two readers share: the bounded operand, the constant and the kind
    of comparison that holds between them, with the width. *)
Definition read_cmp (e : Expr) (is_negated : bool) : option (Expr * Z * UnsignedCmp * N) :=
  '(lhs, rhs, kind) ← unsigned_cmp e;
  if negb (bool_decide (sort_of lhs = sort_of rhs)) || negb (is_bitvec (sort_of lhs)) then None
  else
    width ← bitvec_width (sort_of lhs);
    '(bounded, constant, kind) ← orient lhs rhs (if is_negated then negated kind else kind);
    Some (bounded, constant, kind, width).

(** [unsigned_upper_bound_from_cmp], [unsigned_lower_bound_from_cmp] *)
Definition unsigned_upper_bound_from_cmp (e : Expr) (is_negated : bool) : option (Expr * Z * N) :=
  '(bounded, constant, kind, width) ← read_cmp e is_negated;
  match kind with
  | Lt => Some (bounded, constant, width)
  | Le =>
      if bv_mask width <=? constant then None
      else bound ← checked_add constant 1; Some (bounded, bound, width)
  | Gt | Ge => None
  end.
Definition unsigned_lower_bound_from_cmp (e : Expr) (is_negated : bool) : option (Expr * Z * N) :=
  '(bounded, constant, kind, width) ← read_cmp e is_negated;
  match kind with
  | Gt => bound ← checked_add constant 1; Some (bounded, bound, width)
  | Ge => Some (bounded, constant, width)
  | Lt | Le => None
  end.

Inductive ConstraintStatus := Feasible | Infeasible | Unsupported.
#[export] Instance ConstraintStatus_eq_dec : EqDecision ConstraintStatus.
Proof. solve_decision. Defined.

(** [record_unsigned_lower_bound_from_cmp], [record_unsigned_upper_bound_from_cmp],
    [record_unsigned_upper_bound]: the status, with the facts afterwards. *)
Definition contradiction_status (facts : PathFacts) : ConstraintStatus * PathFacts :=
  (if bounds_contradict facts then Infeasible else Feasible, facts).
Definition record_unsigned_lower_bound_from_cmp (e : Expr) (is_negated : bool) (facts : PathFacts)
    : option (ConstraintStatus * PathFacts) :=
  '(bounded, bound, width) ← unsigned_lower_bound_from_cmp e is_negated;
  Some (if bv_mask width <? bound then (Infeasible, facts)
        else contradiction_status (add_unsigned_lower_bound facts bounded bound width)).
Definition record_unsigned_upper_bound_from_cmp (e : Expr) (is_negated : bool) (facts : PathFacts)
    : option (ConstraintStatus * PathFacts) :=
  '(bounded, bound, width) ← unsigned_upper_bound_from_cmp e is_negated;
  Some (if bound =? 0 then (Infeasible, facts)
        else contradiction_status (add_unsigned_upper_bound facts bounded bound width)).
Definition record_unsigned_upper_bound (lhs rhs : Expr) (facts : PathFacts)
    : option (ConstraintStatus * PathFacts) :=
  if negb (bool_decide (sort_of lhs = sort_of rhs)) || negb (is_bitvec (sort_of lhs))
  then Some (Unsupported, facts)
  else
    '(bound, width) ← bv_const_u128 rhs;
    Some (if bound =? 0 then (Infeasible, facts)
          else contradiction_status (add_unsigned_upper_bound facts lhs bound width)).

(** [unsigned_bound_decides_cmp] *)
Definition unsigned_bound_decides_cmp (lhs rhs : Expr) (kind : UnsignedCmp) (facts : PathFacts)
    : option bool :=
  width ← bitvec_width (sort_of lhs);
  '(e, constant, kind) ← orient lhs rhs kind;
  '(bound, bound_width) ← unsigned_upper_bound facts e;
  if negb (bound_width =? width)%N then None
  else
    max ← checked_sub bound 1;
    match kind with
    | Lt => if max <? constant then Some true else None
    | Le => if max <=? constant then Some true else None
    | Gt => if max <=? constant then Some false else None
    | Ge => if max <? constant then Some false else None
    end.

(** [one_const_one_expr], [unsigned_bound_proves_mul_no_overflow] *)
Definition one_const_one_expr (lhs rhs : Expr) : option (Z * Expr) :=
  match bv_const_u128 lhs, bv_const_u128 rhs with
  | Some (v, _), _ => Some (v, rhs)
  | None, Some (v, _) => Some (v, lhs)
  | None, None => None
  end.
Definition unsigned_bound_proves_mul_no_overflow (variable : Expr) (constant : Z) (width : N)
    (facts : PathFacts) : bool :=
  if constant =? 0 then true
  else
    match unsigned_upper_bound facts variable with
    | None => false
    | Some (exclusive_bound, bound_width) =>
        if negb (bound_width =? width)%N then false
        else unsigned_mul_fits_width (saturating_sub exclusive_bound 1) constant width
    end.

End Facts.

(** ** What the facts say *)

Definition cmp_holds (kind : UnsignedCmp) (x y : Z) : bool :=
  match kind with Lt => x <? y | Le => x <=? y | Gt => y <? x | Ge => y <=? x end.

Section Sound.
Context `{AyTryEval}.

(** An expression has a value of the width with a property. *)
Definition has_bits (r : string -> val) (e : Expr) (w : N) (P : Z -> Prop) : Prop :=
  exists x, in_range w x /\ eval r e = bv w x /\ P x.

Record holds (r : string -> val) (facts : PathFacts) : Prop := {
  disequalities_hold : forall a b, (a, b) ∈ disequalities facts -> eval r a <> eval r b;
  upper_bounds_hold : forall e bound w, (e, bound, w) ∈ unsigned_upper_bounds facts ->
    has_bits r e w (fun x => x < bound);
  lower_bounds_hold : forall e bound w, (e, bound, w) ∈ unsigned_lower_bounds facts ->
    has_bits r e w (fun x => bound <= x);
}.

Lemma no_facts_hold r : holds r no_facts.
Proof. split; intros *; cbn; by intros ?%elem_of_nil. Qed.

Lemma bv_mask_card w : (0 < w <= 128)%N -> bv_mask w = card w - 1.
Proof.
  intros W. unfold bv_mask. destruct (N.eqb_spec w 0); [lia|].
  destruct (N.leb_spec 128 w).
  - assert (w = 128%N) as -> by lia. done.
  - unfold card. rewrite Z.shiftl_1_l. done.
Qed.

Lemma land_mask w x : (0 < w <= 128)%N -> in_range w x -> Z.land x (bv_mask w) = x.
Proof.
  intros W R. rewrite bv_mask_card by done. replace (card w - 1) with (Z.ones (Z.of_N w)) by (rewrite Z.ones_equiv; unfold card; lia).
  rewrite Z.land_ones by lia.
  apply Z.mod_small, R.
Qed.

Lemma bv_const_spec e v w : bv_const_u128 e = Some (v, w) ->
  (0 < w <= 128)%N /\ width_ok w /\ in_range w v /\ value e = Const (BitVecConst v w) /\
  forall r, eval r e = bv w v.
Proof.
  unfold bv_const_u128. destruct (value e) as [| |[v' w'| | | | | | |]| | | | | | | | | | | | | |] eqn:V;
    try discriminate.
  destruct (N.ltb_spec 128 w'); [discriminate|]. destruct (_ && _); [|discriminate]. intros [= <- ->].
  destruct (eval_bitvec_const (fun n => inhabitant (var_sort n)) e v' w V) as (W & R & _).
  assert (W' : (0 < w <= 128)%N) by (destruct W; lia). rewrite land_mask by done.
  repeat split; try done; try (apply R); try (apply W). intros r'. by eapply eval_bitvec_const.
Qed.

(** The arithmetic of the folded operators *)
Lemma two_bits r e w x w' x' : in_range w x -> in_range w' x' -> eval r e = bv w x ->
  eval r e = bv w' x' -> w' = w /\ x' = x.
Proof. intros R R' E E'. rewrite E in E'. by apply bv_inj in E' as [-> ->]. Qed.

Lemma has_bits_at r e w w' x P : has_bits r e w P -> in_range w' x -> eval r e = bv w' x -> P x /\ w' = w.
Proof. intros (x' & R & E & Px) R' E'. by destruct (two_bits r e w x' w' x) as [-> ->]. Qed.

(** ** Disequalities *)

Section Valuation.
Context (r : string -> val) (Hr : admissible r).

Lemma recorded_disequal facts lhs rhs : holds r facts ->
  existsb (fun '(a, b) => (bool_decide (a = lhs) && bool_decide (b = rhs)) ||
                          (bool_decide (a = rhs) && bool_decide (b = lhs))) (disequalities facts) = true ->
  eval r lhs <> eval r rhs.
Proof.
  intros F [[a b] [Hab%list_elem_of_In E]]%existsb_exists. apply (disequalities_hold _ _ F) in Hab.
  apply orb_true_iff in E as [E|E]; apply andb_true_iff in E as [->%bool_decide_eq_true ->%bool_decide_eq_true];
    congruence.
Qed.

Lemma disequal_fuel_sound fuel facts lhs rhs : holds r facts ->
  disequal_fuel fuel facts lhs rhs = true -> eval r lhs <> eval r rhs.
Proof.
  intros F. revert lhs rhs. induction fuel as [|fuel IH]; intros lhs rhs; cbn [disequal_fuel];
    intros [E|E]%orb_true_iff; try (by eapply recorded_disequal); try done.
  destruct (value lhs) as [| | |[] a| | | | | | | | | | | | |] eqn:V1; try discriminate.
  destruct (value rhs) as [| | |[] b| | | | | | | | | | | | |] eqn:V2; try discriminate.
  apply andb_true_iff in E as [[S%bool_decide_eq_true B]%andb_true_iff E].
  intros Eq. apply (IH a b E). by eapply bv2int_inj.
Qed.

Lemma disequal_sound facts lhs rhs : holds r facts ->
  are_disequal facts lhs rhs = true -> eval r lhs <> eval r rhs.
Proof. intros F. by apply disequal_fuel_sound. Qed.

Lemma add_disequality_holds facts lhs rhs : holds r facts -> eval r lhs <> eval r rhs ->
  holds r (add_disequality facts lhs rhs).
Proof.
  intros F N. unfold add_disequality. destruct (_ || _); [done|]. split; cbn; try apply F.
  intros a b [Hab|[= -> ->]%list_elem_of_singleton]%elem_of_app; [by apply F|done].
Qed.

(** ** Bounds *)

Lemma tighten_elem f e bound w l x : x ∈ tighten f e bound w l ->
  x ∈ l \/ x = (e, bound, w) \/ exists b', (e, b', w) ∈ l /\ x = (e, f b' bound, w).
Proof.
  induction l as [|[[e' b'] w'] l IH]; cbn.
  - intros ->%list_elem_of_singleton. auto.
  - destruct (decide _) as [[-> ->]|_]; intros [->|Hx]%elem_of_cons.
    + right. right. exists b'. split; [left|done].
    + left. by right.
    + left. left.
    + destruct (IH Hx) as [?|[?|(b & Hb & ->)]]; [left; by right|auto|].
      right. right. exists b. split; [by right|done].
Qed.

Lemma has_bits_both e w P Q : has_bits r e w P -> has_bits r e w Q -> has_bits r e w (fun x => P x /\ Q x).
Proof.
  intros (x & R & E & Px) HQ. exists x. repeat split; try done; try apply R.
  by destruct (has_bits_at r e w w x Q HQ R E).
Qed.

Lemma has_bits_weaken e w P Q : (forall x, P x -> Q x) -> has_bits r e w P -> has_bits r e w Q.
Proof. intros PQ (x & R & E & Px). exists x. auto. Qed.

Lemma add_upper_holds facts e bound w : holds r facts -> has_bits r e w (fun x => x < bound) ->
  holds r (add_unsigned_upper_bound facts e bound w).
Proof.
  intros F B. split; cbn; try apply F. intros e' bound' w'
    [Hx|[[= -> -> ->]|(b & Hb & [= -> -> ->])]]%tighten_elem; [by apply F|done|].
  apply F in Hb. eapply has_bits_weaken; [|exact (has_bits_both _ _ _ _ Hb B)]. cbn. lia.
Qed.

Lemma add_lower_holds facts e bound w : holds r facts -> has_bits r e w (fun x => bound <= x) ->
  holds r (add_unsigned_lower_bound facts e bound w).
Proof.
  intros F B. split; cbn; try apply F. intros e' bound' w'
    [Hx|[[= -> -> ->]|(b & Hb & [= -> -> ->])]]%tighten_elem; [by apply F|done|].
  apply F in Hb. eapply has_bits_weaken; [|exact (has_bits_both _ _ _ _ Hb B)]. cbn. lia.
Qed.

(** Facts that hold do not contradict each other. *)
Lemma bounds_consistent facts : holds r facts -> bounds_contradict facts = false.
Proof.
  intros F. apply not_true_is_false.
  intros ([[e lower] w] & Hl%list_elem_of_In & E)%existsb_exists.
  apply existsb_exists in E as ([[e' upper] w'] & Hu%list_elem_of_In & E).
  apply andb_true_iff in E as [[->%bool_decide_eq_true ->%N.eqb_eq]%andb_true_iff E%Z.leb_le].
  destruct (has_bits_both e w _ _ (upper_bounds_hold _ _ F _ _ _ Hu) (lower_bounds_hold _ _ F _ _ _ Hl))
    as (x & _ & _ & ?). lia.
Qed.

Lemma min_by_bound_elem l b : min_by_bound l = Some b -> b ∈ l.
Proof.
  revert b. induction l as [|[b w] l IH]; intros [b0 w0]; cbn; [done|].
  destruct (min_by_bound l) as [[b' w']|].
  - destruct (b <=? b'); intros [= <- <-]; [left|right; by apply IH].
  - intros [= <- <-]. left.
Qed.

Lemma upper_bound_sound facts e bound w : holds r facts -> unsigned_upper_bound facts e = Some (bound, w) ->
  has_bits r e w (fun x => x < bound).
Proof.
  intros F E%min_by_bound_elem. apply list_elem_of_fmap in E as ([[e' b] w'] & [= -> ->] & Hb).
  apply list_elem_of_In, filter_In in Hb as [Hb%list_elem_of_In ->%bool_decide_eq_true]. by apply F.
Qed.

(** ** Comparisons *)

Lemma negated_holds kind x y : cmp_holds (negated kind) x y = negb (cmp_holds kind x y).
Proof. destruct kind; cbn; lia. Qed.

Lemma swapped_holds kind x y : cmp_holds (swapped kind) y x = cmp_holds kind x y.
Proof. by destruct kind. Qed.

(** The sides of a comparison have values of one width, and it compares them. *)
Lemma cmp_sides a b w : sort_of a = sort_of b -> bitvec_width (sort_of a) = Some w ->
  width_ok w /\ exists x y, in_range w x /\ in_range w y /\ eval r a = bv w x /\ eval r b = bv w y.
Proof.
  intros S W. destruct (bits_of_sort r a w Hr W) as (Wk & x & Rx & Ex). rewrite S in W.
  destruct (bits_of_sort r b w Hr W) as (_ & y & Ry & Ey). eauto 8.
Qed.

Lemma unsigned_cmp_sound e lhs rhs kind w x y : unsigned_cmp e = Some (lhs, rhs, kind) ->
  in_range w x -> in_range w y -> eval r lhs = bv w x -> eval r rhs = bv w y ->
  eval r e = vbool (cmp_holds kind x y).
Proof.
  intros U Rx Ry Ex Ey. unfold unsigned_cmp in U.
  destruct (value e) as [| | | |op a b| | | | | | | | | | | |] eqn:V; try discriminate.
  assert (B : forall res, smt_binary op w x w y = Some (RBool res) -> a = lhs -> b = rhs ->
    eval r e = vbool res).
  { intros res S -> ->. exact (proj2 (eval_binary r e op lhs rhs w x w y _ Hr V Rx Ry Ex Ey S)). }
  destruct op; try discriminate; injection U as -> -> <-; by apply B.
Qed.

(** Turning the comparison keeps its meaning, and the constant is the value. *)
Lemma orient_sound lhs rhs kind e c kind' w x y : orient lhs rhs kind = Some (e, c, kind') ->
  in_range w x -> in_range w y -> eval r lhs = bv w x -> eval r rhs = bv w y ->
  (0 < w <= 128)%N /\ in_range w c /\
  exists z, in_range w z /\ eval r e = bv w z /\ cmp_holds kind' z c = cmp_holds kind x y.
Proof.
  unfold orient. intros O Rx Ry Ex Ey.
  destruct (bv_const_u128 lhs) as [[cl wl]|] eqn:Cl, (bv_const_u128 rhs) as [[cr wr]|] eqn:Cr;
    try discriminate; injection O as <- <- <-.
  - apply bv_const_spec in Cl as (Wl & _ & Rl & _ & El).
    destruct (two_bits r lhs w x wl cl) as [-> ->]; try done.
    split; [done|]. split; [done|]. exists y. by rewrite swapped_holds.
  - apply bv_const_spec in Cr as (Wr & _ & Rr & _ & Er).
    destruct (two_bits r rhs w y wr cr) as [-> ->]; try done.
    split; [done|]. split; [done|]. by exists x.
Qed.

(** A comparison that can be read has a truth value. *)
Lemma read_cmp_bool e is_negated res : read_cmp e is_negated = Some res -> exists t, eval r e = vbool t.
Proof.
  unfold read_cmp. destruct (unsigned_cmp e) as [[[lhs rhs] k]|] eqn:U; [|done]. cbn [mbind option_bind].
  destruct (bool_decide_reflect (sort_of lhs = sort_of rhs)) as [S|]; [|done]. cbn [negb orb].
  destruct (is_bitvec _) eqn:B; [|done]. intros _. apply bool_decide_eq_true in B as [w W].
  destruct (cmp_sides lhs rhs w S W) as (_ & x & y & Rx & Ry & Ex & Ey).
  exists (cmp_holds k x y). by apply (unsigned_cmp_sound e lhs rhs k w).
Qed.

Lemma read_cmp_sound e is_negated b c kind w : read_cmp e is_negated = Some (b, c, kind, w) ->
  eval r e = vbool (negb is_negated) ->
  (0 < w <= 128)%N /\ in_range w c /\ has_bits r b w (fun z => cmp_holds kind z c = true).
Proof.
  unfold read_cmp. destruct (unsigned_cmp e) as [[[lhs rhs] k]|] eqn:U; [|done]. cbn [mbind option_bind].
  destruct (bool_decide_reflect (sort_of lhs = sort_of rhs)) as [S|]; [|done]. cbn [negb orb].
  destruct (is_bitvec _); [|done]. cbn [negb].
  destruct (bitvec_width (sort_of lhs)) as [w'|] eqn:W; [|done]. cbn [mbind option_bind].
  destruct (orient _ _ _) as [[[b' c'] kind']|] eqn:O; [|done]. cbn. intros [= -> -> -> ->] E.
  destruct (cmp_sides lhs rhs w S W) as (_ & x & y & Rx & Ry & Ex & Ey).
  rewrite (unsigned_cmp_sound e lhs rhs k w x y) in E by done. apply vbool_inj in E.
  destruct (orient_sound _ _ _ _ _ _ _ _ _ O Rx Ry Ex Ey) as (Wr & Rc & z & Rz & Ez & Cz).
  split; [done|]. split; [done|]. exists z. repeat split; try done; try apply Rz. rewrite Cz.
  destruct is_negated; [rewrite negated_holds|]; by rewrite E.
Qed.

(** ** Recording *)

(** What a status says of a valuation: infeasible means it cannot be. *)
Definition recorded (result : ConstraintStatus * PathFacts) : Prop :=
  match result with (Infeasible, _) => False | (_, facts) => holds r facts end.

Lemma contradiction_recorded facts : holds r facts -> recorded (contradiction_status facts).
Proof. intros F. unfold contradiction_status. by rewrite bounds_consistent. Qed.

Lemma upper_recorded facts e bound w : holds r facts -> has_bits r e w (fun x => x < bound) ->
  recorded (if bound =? 0 then (Infeasible, facts)
            else contradiction_status (add_unsigned_upper_bound facts e bound w)).
Proof.
  intros F B. destruct (Z.eqb_spec bound 0) as [->|].
  - destruct B as (x & [P _] & _ & L). cbn. lia.
  - by apply contradiction_recorded, add_upper_holds.
Qed.

Lemma record_upper_cmp_sound e is_negated facts result : holds r facts ->
  record_unsigned_upper_bound_from_cmp e is_negated facts = Some result ->
  eval r e = vbool (negb is_negated) -> recorded result.
Proof.
  unfold record_unsigned_upper_bound_from_cmp, unsigned_upper_bound_from_cmp. intros F R E.
  destruct (read_cmp e is_negated) as [[[[b c] kind] w]|] eqn:Rd; [|done]. cbn [mbind option_bind] in R.
  destruct (read_cmp_sound e is_negated b c kind w Rd E) as (W & Rc & B).
  destruct kind; try discriminate.
  - injection R as <-. apply upper_recorded; [done|]. eapply has_bits_weaken; [|exact B]. cbn. lia.
  - destruct (_ <=? c); [discriminate|]. unfold checked_add in R. destruct (_ <=? u128_max); [|discriminate].
    injection R as <-. apply upper_recorded; [done|]. eapply has_bits_weaken; [|exact B]. cbn. lia.
Qed.

Lemma record_lower_cmp_sound e is_negated facts result : holds r facts ->
  record_unsigned_lower_bound_from_cmp e is_negated facts = Some result ->
  eval r e = vbool (negb is_negated) -> recorded result.
Proof.
  unfold record_unsigned_lower_bound_from_cmp, unsigned_lower_bound_from_cmp. intros F R E.
  destruct (read_cmp e is_negated) as [[[[b c] kind] w]|] eqn:Rd; [|done]. cbn [mbind option_bind] in R.
  destruct (read_cmp_sound e is_negated b c kind w Rd E) as (W & Rc & B).
  assert (L : forall bound, has_bits r b w (fun x => bound <= x) ->
    recorded (if bv_mask w <? bound then (Infeasible, facts)
              else contradiction_status (add_unsigned_lower_bound facts b bound w))).
  { intros bound Bd. destruct (Z.ltb_spec (bv_mask w) bound).
    - rewrite bv_mask_card in * by done. destruct Bd as (x & [_ P] & _ & Lx). cbn. lia.
    - by apply contradiction_recorded, add_lower_holds. }
  destruct kind; try discriminate.
  - unfold checked_add in R. destruct (_ <=? u128_max); [|discriminate].
    injection R as <-. apply L. eapply has_bits_weaken; [|exact B]. cbn. lia.
  - injection R as <-. apply L. eapply has_bits_weaken; [|exact B]. cbn. lia.
Qed.

Lemma record_upper_sound e lhs rhs facts result : holds r facts -> value e = Binary BvULt lhs rhs ->
  record_unsigned_upper_bound lhs rhs facts = Some result -> is_true (eval r e) -> recorded result.
Proof.
  unfold record_unsigned_upper_bound. intros F V R T.
  destruct (bool_decide_reflect (sort_of lhs = sort_of rhs)) as [S|]; [|by injection R as <-].
  cbn [negb orb] in R. destruct (is_bitvec _) eqn:B; [|by injection R as <-]. cbn [negb] in R.
  apply bool_decide_eq_true in B as [w W].
  destruct (bv_const_u128 rhs) as [[c w']|] eqn:C; [|done]. injection R as <-.
  destruct (cmp_sides lhs rhs w S W) as (_ & x & y & Rx & Ry & Ex & Ey).
  apply bv_const_spec in C as (_ & _ & Rc & _ & Ec).
  destruct (two_bits r rhs w y w' c) as [-> ->]; try done.
  apply upper_recorded; [done|]. exists x. repeat split; try done; try apply Rx.
  assert (U : unsigned_cmp e = Some (lhs, rhs, Lt)) by (unfold unsigned_cmp; by rewrite V).
  rewrite (unsigned_cmp_sound e lhs rhs Lt w x y) in T by done. apply is_true_vbool in T. cbn in T. lia.
Qed.

(** ** Deciding *)

Lemma bound_decides_sound lhs rhs kind facts t w x y : holds r facts ->
  unsigned_bound_decides_cmp lhs rhs kind facts = Some t ->
  in_range w x -> in_range w y -> eval r lhs = bv w x -> eval r rhs = bv w y -> cmp_holds kind x y = t.
Proof.
  unfold unsigned_bound_decides_cmp. intros F D Rx Ry Ex Ey.
  destruct (bitvec_width _) as [width|]; [|done]. cbn [mbind option_bind] in D.
  destruct (orient lhs rhs kind) as [[[e c] kind']|] eqn:O; [|done]. cbn [mbind option_bind] in D.
  destruct (unsigned_upper_bound facts e) as [[bound bw]|] eqn:U; [|done]. cbn [mbind option_bind] in D.
  destruct (negb _); [done|]. unfold checked_sub in D.
  destruct (Z.leb_spec 1 bound); [|done]. cbn [mbind option_bind] in D.
  destruct (orient_sound _ _ _ _ _ _ _ _ _ O Rx Ry Ex Ey) as (_ & _ & z & Rz & Ez & <-).
  destruct (has_bits_at r e bw w z _ (upper_bound_sound facts e bound bw F U) Rz Ez) as [Lz _].
  cbn in Lz. destruct kind'; cbn [cmp_holds].
  - destruct (Z.ltb_spec (bound - 1) c); [|done]. injection D as <-. lia.
  - destruct (Z.leb_spec (bound - 1) c); [|done]. injection D as <-. lia.
  - destruct (Z.leb_spec (bound - 1) c); [|done]. injection D as <-. lia.
  - destruct (Z.ltb_spec (bound - 1) c); [|done]. injection D as <-. lia.
Qed.

Lemma mul_fits_sound x y w : (0 < w <= 128)%N -> 0 <= x -> 0 <= y ->
  unsigned_mul_fits_width x y w = (x * y <? card w).
Proof.
  intros W Px Py. unfold unsigned_mul_fits_width, checked_mul. rewrite bv_mask_card by done.
  assert (card w <= 2 ^ 128) by (apply Z.pow_le_mono_r; lia). unfold u128_max.
  destruct (Z.leb_spec (x * y) (2 ^ 128 - 1)); lia.
Qed.

(** A recorded bound shows that a product with a constant does not overflow. *)
Lemma bound_proves_mul variable c w facts x : holds r facts -> (0 < w <= 128)%N -> 0 <= c ->
  unsigned_bound_proves_mul_no_overflow variable c w facts = true ->
  in_range w x -> eval r variable = bv w x -> x * c < card w.
Proof.
  unfold unsigned_bound_proves_mul_no_overflow. intros F W Pc D Rx Ex.
  destruct (Z.eqb_spec c 0) as [->|]; [pose proof (card_pos w); lia|].
  destruct (unsigned_upper_bound facts variable) as [[bound bw]|] eqn:U; [|done].
  destruct (negb _); [done|].
  destruct (has_bits_at r variable bw w x _ (upper_bound_sound facts variable bound bw F U) Rx Ex) as [Lx _].
  cbn in Lx. destruct Rx as [P _]. rewrite mul_fits_sound in D by (unfold saturating_sub; lia).
  unfold saturating_sub in D. nia.
Qed.

End Valuation.

(** What holds under one valuation holds under another that agrees on the facts. *)
Lemma holds_ext r r' facts : (forall n, (exists a b, (a, b) ∈ disequalities facts /\ (occurs n a \/ occurs n b)) \/
    (exists e b w, (e, b, w) ∈ unsigned_upper_bounds facts ++ unsigned_lower_bounds facts /\ occurs n e) ->
    r n = r' n) -> holds r facts -> holds r' facts.
Proof.
  intros Ag F. split.
  - intros a b Hab. rewrite <- !(eval_ext r r'); [by apply F| |]; intros n Hn; apply Ag; left; eauto.
  - intros e b w He. destruct (upper_bounds_hold _ _ F _ _ _ He) as (x & R & E & P). exists x.
    repeat split; try done; try apply R. rewrite <- E. symmetry. apply eval_ext. intros n Hn. apply Ag. right.
    exists e, b, w. split; [|done]. apply elem_of_app. auto.
  - intros e b w He. destruct (lower_bounds_hold _ _ F _ _ _ He) as (x & R & E & P). exists x.
    repeat split; try done; try apply R. rewrite <- E. symmetry. apply eval_ext. intros n Hn. apply Ag. right.
    exists e, b, w. split; [|done]. apply elem_of_app. auto.
Qed.

End Sound.

End PathFacts.
