(* ===== verification/StraightlineSimplify.v ===== *)
(** * The expression walkers of the straight-line prover

    [substitute_inner] and [simplify_with_facts] of straightline_proof.rs.  The depth
    budget is the fuel of the walkers: they give up at depth
    [MAX_STRAIGHTLINE_RECURSION_DEPTH].  The memo tables, which are keyed by the
    addresses of nodes, are left out: a walker returns what a table would have
    returned, and a run that is spared visits by a table is one whose visits are
    granted here.  [simplify_datatype_tester] calls itself without asking for a
    visit; it carries [nesting]. *)

From S2P Require Import Prelude AyExpr BvArith AyBuild ConstEvalSpec Visits AyTry PathFacts.

Module StraightlineSimplify.
Import AyBuild AyTry Visits PathFacts.
Open Scope Z_scope.

Definition MAX_STRAIGHTLINE_RECURSION_DEPTH : nat := 512.
Definition MAX_STRAIGHTLINE_NODE_VISITS : N := 2000000.

(** The budget of [reset_straightline_node_budget] *)
Definition node_budget (n : N) : bool := (n <? MAX_STRAIGHTLINE_NODE_VISITS)%N.

(** ** Substitution *)

Section Substitute.
Context `{AyTry} (grant : N -> bool).

Abbreviation Env := (gmap string Expr).

Fixpoint substitute_inner (depth : nat) (env : Env) (resolving : gset string) (e : Expr) {struct depth}
    : M Expr :=
  _ ← visit grant;
  match depth with
  | O => bail
  | S depth =>
      match value e with
      | Var name =>
          match env !! name with
          | None => mret e
          | Some replacement =>
              if decide (name ∈ resolving) then mret e
              else
                resolved ← substitute_inner depth env ({[name]} ∪ resolving) replacement;
                if decide (sort_of resolved = sort_of e) then mret resolved else bail
          end
      | _ =>
          new_children ← map_m (substitute_inner depth env resolving) (children e);
          mret (rebuild_with_children e new_children)
      end
  end.

Definition substitute (depth : nat) (e : Expr) (env : Env) : M Expr := substitute_inner depth env ∅ e.

(** [expr_mentions_var] *)
Definition expr_mentions_var (e : Expr) (target : string) : bool :=
  existsb (String.eqb target) (collect_expr_vars e).

End Substitute.

(** ** Simplification *)

Section Arms.
Context `{AyTry} (grant : N -> bool) (nesting : nat).
(** The walkers one level down *)
Context (simplify : Expr -> M Expr) (select_simplified : Expr -> Expr -> M Expr) (facts : PathFacts).

Definition simplify_not (inner : Expr) : M Expr :=
  inner ← simplify inner;
  match value inner with
  | BoolConst b => mret (bool_const (negb b))
  | Unary Not double => simplify double
  | _ => of_option (try_unary Not inner)
  end.

Definition simplify_bool_const_eq (e constant : Expr) : M Expr :=
  match value constant with
  | BoolConst b =>
      if negb (is_bool_sort (sort_of e)) then bail
      else if b then mret e else simplify (mk_unary Not e)
  | _ => bail
  end.

Definition simplify_bool_bit_ite_eq (ite_expr rhs : Expr) : M Expr :=
  match value ite_expr with
  | Ite cond then_expr else_expr =>
      '(then_value, then_width) ← of_option (bv_const_u128 then_expr);
      '(else_value, else_width) ← of_option (bv_const_u128 else_expr);
      '(rhs_value, rhs_width) ← of_option (bv_const_u128 rhs);
      if negb (then_width =? else_width)%N || negb (then_width =? rhs_width)%N then bail
      else
        cond ← simplify cond;
        match then_value, else_value, rhs_value with
        | 1, 0, 1 | 0, 1, 0 => mret cond
        | 1, 0, 0 | 0, 1, 1 => simplify (mk_unary Not cond)
        | 1, 0, _ | 0, 1, _ => mret (bool_const false)
        | _, _, _ => bail
        end
  | _ => bail
  end.

(** The last [match] of [simplify_eq_with_facts] *)
Definition fold_eq_consts (lhs rhs : Expr) : M Expr :=
  match value lhs, value rhs with
  | BoolConst a, BoolConst b => mret (bool_const (Bool.eqb a b))
  | Const (BitVecConst lhs_value lhs_width), Const (BitVecConst rhs_value rhs_width) =>
      if negb (lhs_width =? rhs_width)%N then bail else mret (bool_const (lhs_value =? rhs_value))
  | _, _ => of_option (try_eq lhs rhs)
  end.

(** [if let Some(simplified) = m { return Some(simplified); } k] *)
Definition or_else (m k : M Expr) : M Expr :=
  o ← attempt m;
  match o with Some e => mret e | None => k end.

Definition simplify_eq_with_facts (lhs rhs : Expr) : M Expr :=
  lhs ← simplify lhs;
  rhs ← simplify rhs;
  if decide (lhs = rhs) then mret (bool_const true)
  else if are_disequal facts lhs rhs then mret (bool_const false)
  else
    or_else (simplify_bool_const_eq lhs rhs)
    (or_else (simplify_bool_const_eq rhs lhs)
    (or_else (simplify_bool_bit_ite_eq lhs rhs)
    (or_else (simplify_bool_bit_ite_eq rhs lhs)
    (fold_eq_consts lhs rhs)))).

Definition simplify_bool_ite (cond then_expr else_expr : Expr) : M Expr :=
  match value then_expr, value else_expr with
  | BoolConst true, BoolConst false => mret cond
  | BoolConst false, BoolConst true => simplify (mk_unary Not cond)
  | BoolConst false, _ =>
      e ← of_option (try_and_many [mk_unary Not cond; else_expr]); simplify e
  | BoolConst true, _ =>
      e ← of_option (try_or_many [cond; else_expr]); simplify e
  | _, BoolConst false =>
      e ← of_option (try_and_many [cond; then_expr]); simplify e
  | _, BoolConst true =>
      e ← of_option (try_or_many [mk_unary Not cond; then_expr]); simplify e
  | _, _ => of_option (try_ite cond then_expr else_expr)
  end.

Definition simplify_ite_with_facts (cond then_expr else_expr : Expr) : M Expr :=
  then_expr ← simplify then_expr;
  else_expr ← simplify else_expr;
  if decide (then_expr = else_expr) then mret then_expr
  else if is_bool_sort (sort_of then_expr) && is_bool_sort (sort_of else_expr)
  then simplify_bool_ite cond then_expr else_expr
  else of_option (try_ite cond then_expr else_expr).

Definition simplify_ite (cond then_expr else_expr : Expr) : M Expr :=
  cond ← simplify cond;
  match value cond with
  | BoolConst true => simplify then_expr
  | BoolConst false => simplify else_expr
  | _ => simplify_ite_with_facts cond then_expr else_expr
  end.

(** The loop of [simplify_bool_nary]: [None] when a child decides, what is kept
    otherwise. *)
Fixpoint nary_kept (es : list Expr) (is_and : bool) (kept : list Expr) : M (option (list Expr)) :=
  match es with
  | [] => mret (Some kept)
  | child :: es =>
      child ← simplify child;
      match value child with
      | BoolConst b => if Bool.eqb b is_and then nary_kept es is_and kept else mret None
      | And nested => nary_kept es is_and (kept ++ if is_and then nested else [child])
      | Or nested => nary_kept es is_and (kept ++ if is_and then [child] else nested)
      | _ => nary_kept es is_and (kept ++ [child])
      end
  end.
Definition simplify_bool_nary (es : list Expr) (is_and : bool) : M Expr :=
  kept ← nary_kept es is_and [];
  match kept with
  | None => mret (bool_const (negb is_and))
  | Some [] => mret (bool_const is_and)
  | Some [e] => mret e
  | Some kept => of_option (if is_and then try_and_many kept else try_or_many kept)
  end.

Definition simplify_select (array index : Expr) : M Expr :=
  array ← simplify array;
  index ← simplify index;
  select_simplified array index.

(** [e.value() == &ExprValue::BoolConst(b)] *)
Definition is_bool_const (e : Expr) (b : bool) : bool :=
  match value e with BoolConst b' => Bool.eqb b' b | _ => false end.

(** The body of [select_from_simplified] *)
Definition select_node (array index : Expr) : M Expr :=
  match value array with
  | Unary (ConstArray _) v => mret v
  | Store base store_index v =>
      same ← simplify_eq_with_facts store_index index;
      if is_bool_const same true then mret v
      else
        differ ← (if are_disequal facts store_index index then mret true
                  else
                    same ← simplify_eq_with_facts store_index index;
                    mret (is_bool_const same false));
        if (differ : bool) then select_simplified base index else mret (mk_select array index)
  | _ => mret (mk_select array index)
  end.

Definition simplify_store (array index v : Expr) : M Expr :=
  array ← simplify array;
  index ← simplify index;
  v ← simplify v;
  mret (mk_store array index v).

Definition simplify_const_array (index_sort : Sort) (v : Expr) : M Expr :=
  v ← simplify v;
  mret (mk_unary (ConstArray index_sort) v).

(** ** Bit-vectors *)

Definition same_bitvec_sort (lhs rhs : Expr) : bool :=
  bool_decide (sort_of lhs = sort_of rhs) && is_bitvec (sort_of lhs).

Definition simplify_bv_binop (lhs rhs : Expr) (op : Z -> Z -> N -> option Z)
    (rebuild : Expr -> Expr -> option Expr) : M Expr :=
  lhs ← simplify lhs;
  rhs ← simplify rhs;
  if negb (same_bitvec_sort lhs rhs) then bail
  else
    match bv_const_u128 lhs, bv_const_u128 rhs with
    | Some (lhs_value, lhs_width), Some (rhs_value, rhs_width) =>
        if negb (lhs_width =? rhs_width)%N then bail
        else
          match op lhs_value rhs_value lhs_width with
          | Some v => mret (bitvec_const v lhs_width)
          | None => of_option (rebuild lhs rhs)
          end
    | _, _ => of_option (rebuild lhs rhs)
    end.

Definition simplify_bv_cmp (lhs rhs : Expr) (kind : UnsignedCmp) (op : Z -> Z -> bool)
    (rebuild : Expr -> Expr -> option Expr) : M Expr :=
  lhs ← simplify lhs;
  rhs ← simplify rhs;
  if negb (same_bitvec_sort lhs rhs) then bail
  else
    match bv_const_u128 lhs, bv_const_u128 rhs with
    | Some (lhs_value, lhs_width), Some (rhs_value, rhs_width) =>
        if negb (lhs_width =? rhs_width)%N then bail
        else mret (bool_const (op lhs_value rhs_value))
    | _, _ =>
        match unsigned_bound_decides_cmp lhs rhs kind facts with
        | Some decided => mret (bool_const decided)
        | None => of_option (rebuild lhs rhs)
        end
    end.

Definition simplify_bv_signed_cmp (lhs rhs : Expr) (op : Z -> bool)
    (rebuild : Expr -> Expr -> option Expr) : M Expr :=
  lhs ← simplify lhs;
  rhs ← simplify rhs;
  if negb (same_bitvec_sort lhs rhs) then bail
  else
    match bv_const_u128 lhs, bv_const_u128 rhs with
    | Some (lhs_value, lhs_width), Some (rhs_value, rhs_width) =>
        if negb (lhs_width =? rhs_width)%N || (lhs_width =? 0)%N then bail
        else mret (bool_const (op (signed_bv_order lhs_value rhs_value lhs_width)))
    | _, _ => of_option (rebuild lhs rhs)
    end.

Definition simplify_bv_concat (lhs rhs : Expr) : M Expr :=
  lhs ← simplify lhs;
  rhs ← simplify rhs;
  match bv_const_u128 lhs, bv_const_u128 rhs with
  | Some (lhs_value, lhs_width), Some (rhs_value, rhs_width) =>
      let width := (lhs_width + rhs_width)%N in
      if (128 <? width)%N then bail
      else mret (bitvec_const (Z.lor (wrapping_shl lhs_value rhs_width) rhs_value) width)
  | _, _ => of_option (try_binary BvConcat lhs rhs)
  end.

Definition simplify_bv_zero_extend (e : Expr) (extra_bits : N) : M Expr :=
  e ← simplify e;
  input_width ← of_option (bitvec_width (sort_of e));
  let output_width := (input_width + extra_bits)%N in
  if (2 ^ 32 <=? output_width)%N then bail
  else if (128 <? output_width)%N then of_option (try_unary (BvZeroExtend extra_bits) e)
  else
    match bv_const_u128 e with
    | Some (v, _) => mret (bitvec_const v output_width)
    | None => of_option (try_unary (BvZeroExtend extra_bits) e)
    end.

Definition simplify_bv_extract (e : Expr) (high low : N) : M Expr :=
  e ← simplify e;
  width ← of_option (bitvec_width (sort_of e));
  if ((high <? low) || (width <=? high) || (128 <=? high))%N then bail
  else
    match bv_const_u128 e with
    | None => of_option (try_unary (BvExtract high low) e)
    | Some (v, _) =>
        let out_width := (high - low + 1)%N in
        mret (bitvec_const (Z.land (Z.shiftr v (Z.of_N low)) (bv_mask out_width)) out_width)
    end.

Definition simplify_bv_mul_no_overflow_unsigned (lhs rhs : Expr) : M Expr :=
  lhs ← simplify lhs;
  rhs ← simplify rhs;
  if negb (same_bitvec_sort lhs rhs) then bail
  else
    width ← of_option (bitvec_width (sort_of lhs));
    let rebuilt := of_option (try_binary BvMulNoOverflowUnsigned lhs rhs) in
    if ((width =? 0) || (128 <? width))%N then rebuilt
    else
      match bv_const_u128 lhs, bv_const_u128 rhs with
      | Some (lhs_value, lhs_width), Some (rhs_value, rhs_width) =>
          if negb (lhs_width =? rhs_width)%N then bail
          else mret (bool_const (unsigned_mul_fits_width lhs_value rhs_value width))
      | _, _ =>
          match one_const_one_expr lhs rhs with
          | Some (constant, variable) =>
              if unsigned_bound_proves_mul_no_overflow variable constant width facts
              then mret (bool_const true)
              else rebuilt
          | None => rebuilt
          end
      end.

(** [simplify_bv_expr] with [simplify_bv_cmp_expr]; [None] when the operator is not
    one of those of [is_bv_simplifiable]. *)
Definition simplify_bv_binary (op : binary) (lhs rhs : Expr) : option (M Expr) :=
  match op with
  | BvAdd => Some (simplify_bv_binop lhs rhs
      (fun l r width => Some (Z.land (wrapping_add l r) (bv_mask width))) (try_binary BvAdd))
  | BvSub => Some (simplify_bv_binop lhs rhs
      (fun l r width => Some (Z.land (wrapping_sub l r) (bv_mask width))) (try_binary BvSub))
  | BvAnd => Some (simplify_bv_binop lhs rhs (fun l r _ => Some (Z.land l r)) (try_binary BvAnd))
  | BvOr => Some (simplify_bv_binop lhs rhs (fun l r _ => Some (Z.lor l r)) (try_binary BvOr))
  | BvXor => Some (simplify_bv_binop lhs rhs (fun l r _ => Some (Z.lxor l r)) (try_binary BvXor))
  | BvURem => Some (simplify_bv_binop lhs rhs
      (fun l r _ => if r =? 0 then None else Some (l mod r)) (try_binary BvURem))
  | BvMul => Some (simplify_bv_binop lhs rhs
      (fun l r width => v ← checked_mul l r; Some (Z.land v (bv_mask width))) (try_binary BvMul))
  | BvConcat => Some (simplify_bv_concat lhs rhs)
  | BvMulNoOverflowUnsigned => Some (simplify_bv_mul_no_overflow_unsigned lhs rhs)
  | BvUGe => Some (simplify_bv_cmp lhs rhs Ge (fun l r => r <=? l) (try_binary BvUGe))
  | BvUGt => Some (simplify_bv_cmp lhs rhs Gt (fun l r => r <? l) (try_binary BvUGt))
  | BvULe => Some (simplify_bv_cmp lhs rhs Le (fun l r => l <=? r) (try_binary BvULe))
  | BvULt => Some (simplify_bv_cmp lhs rhs Lt (fun l r => l <? r) (try_binary BvULt))
  | BvSGe => Some (simplify_bv_signed_cmp lhs rhs (fun ord => 0 <=? ord) (try_binary BvSGe))
  | BvSGt => Some (simplify_bv_signed_cmp lhs rhs (fun ord => 0 <? ord) (try_binary BvSGt))
  | BvSLe => Some (simplify_bv_signed_cmp lhs rhs (fun ord => ord <=? 0) (try_binary BvSLe))
  | BvSLt => Some (simplify_bv_signed_cmp lhs rhs (fun ord => ord <? 0) (try_binary BvSLt))
  | _ => None
  end.

(** ** Datatypes *)

(** [constructors.iter().find(..)], [fields.iter().position(..)] *)
Definition field_position (sort : Sort) (constructor_name selector_name : string) : option nat :=
  cs ← constructors sort;
  '(_, fields) ← list_find (fun c => c.1 = constructor_name) cs;
  '(i, _) ← list_find (fun f => f.1 = selector_name) fields.2;
  Some i.

Definition simplify_datatype_selector (e : Expr) (dt selector_name : string) (target : Expr) : M Expr :=
  selected_from ← simplify target;
  let rebuilt := mret (rebuild_with_children e [selected_from]) in
  match value selected_from with
  | DatatypeConstructor ctor_dt_name constructor_name args =>
      if negb (String.eqb ctor_dt_name dt) then bail
      else
        match constructors (sort_of selected_from) with
        | None => bail
        | Some _ =>
            match i ← field_position (sort_of selected_from) constructor_name selector_name; args !! i with
            | Some arg => mret arg
            | None => rebuilt
            end
        end
  | Ite cond then_expr else_expr =>
      match try_field_select then_expr dt selector_name (sort_of e),
            try_field_select else_expr dt selector_name (sort_of e) with
      | Some then_selected, Some else_selected =>
          cond ← simplify cond;
          then_selected ← simplify then_selected;
          else_selected ← simplify else_selected;
          selected ← of_option (try_ite cond then_selected else_selected);
          simplify selected
      | _, _ => rebuilt
      end
  | _ => rebuilt
  end.

Fixpoint tester_nested (nesting : nat) (dt constructor_name : string) (target : Expr) : M Expr :=
  match nesting with
  | O => bail
  | S nesting =>
      tested ← simplify target;
      match value tested with
      | DatatypeConstructor ctor_dt_name ctor_name _ =>
          if negb (String.eqb ctor_dt_name dt) then bail
          else mret (bool_const (String.eqb ctor_name constructor_name))
      | Ite cond then_expr else_expr =>
          cond ← simplify cond;
          then_tested ← tester_nested nesting dt constructor_name then_expr;
          else_tested ← tester_nested nesting dt constructor_name else_expr;
          tested ← of_option (try_ite cond then_tested else_tested);
          simplify tested
      | _ => of_option (try_is_constructor tested dt constructor_name)
      end
  end.
Definition simplify_datatype_tester (dt constructor_name : string) (target : Expr) : M Expr :=
  tester_nested nesting dt constructor_name target.

Definition simplify_rebuilt_children (e : Expr) : M Expr :=
  new_children ← map_m simplify (children e);
  mret (rebuild_with_children e new_children).

(** The [match] of [simplify_with_facts_uncached] *)
Definition simplify_node (e : Expr) : M Expr :=
  match value e with
  | Unary Not inner => simplify_not inner
  | Eq lhs rhs => simplify_eq_with_facts lhs rhs
  | And es => simplify_bool_nary es true
  | Or es => simplify_bool_nary es false
  | Ite cond then_expr else_expr => simplify_ite cond then_expr else_expr
  | Binary Select array index => simplify_select array index
  | Binary op lhs rhs => default (simplify_rebuilt_children e) (simplify_bv_binary op lhs rhs)
  | Unary (BvZeroExtend extra_bits) inner => simplify_bv_zero_extend inner extra_bits
  | Unary (BvExtract high low) inner => simplify_bv_extract inner high low
  | Store array index v => simplify_store array index v
  | Unary (ConstArray index_sort) v => simplify_const_array index_sort v
  | Unary (DatatypeSelector dt selector_name) target => simplify_datatype_selector e dt selector_name target
  | Unary (DatatypeTester dt constructor_name) target => simplify_datatype_tester dt constructor_name target
  | _ => simplify_rebuilt_children e
  end.

End Arms.

Section Simplify.
Context `{AyTry} (grant : N -> bool) (nesting : nat).

Fixpoint simplify_with_facts (depth : nat) (facts : PathFacts) (e : Expr) {struct depth} : M Expr :=
  _ ← visit grant;
  match depth with
  | O => bail
  | S depth =>
      simplify_node nesting (simplify_with_facts depth facts) (select_from_simplified depth facts) facts e
  end
with select_from_simplified (depth : nat) (facts : PathFacts) (array index : Expr) {struct depth} : M Expr :=
  _ ← visit grant;
  match depth with
  | O => bail
  | S depth =>
      select_node (simplify_with_facts depth facts) (select_from_simplified depth facts) facts array index
  end.

(** [simplify] *)
Definition simplify_alone (depth : nat) (e : Expr) : M Expr := simplify_with_facts depth no_facts e.

End Simplify.

End StraightlineSimplify.

(** * The walkers keep the meaning

    Under an admissible valuation in which the facts hold, the walkers of
    [StraightlineSimplify] return expressions that mean what they were given, and
    have no quantifier when they were given none.  This is for every grant of visits
    and every depth: a refusal ends a walk with no result. *)

Module StraightlineSimplifySpec.
Import BvArith AyBuild ConstEvalSpec AyTry Visits PathFacts StraightlineSimplify.
Open Scope Z_scope.

Section Spec.
Context `{AyTryEval}.
Context (r : string -> val) (Hr : admissible r).

(** An expression without quantifiers that has the value [v] *)
Definition means (v : val) (e : Expr) : Prop := quantifier_free e /\ eval r e = v.

Lemma means_self e : quantifier_free e -> means (eval r e) e.
Proof. done. Qed.

Lemma means_bool b : means (vbool b) (bool_const b).
Proof. split; [apply qf_bool|apply eval_built_bool]. Qed.

Lemma means_bool_value b b' e : means (vbool b) e -> value e = BoolConst b' -> b' = b.
Proof. intros [_ E] V. rewrite (eval_bool_const r e b' V) in E. by apply vbool_inj. Qed.

Lemma means_bits z w x : width_ok w -> z mod card w = x -> means (bv w x) (bitvec_const z w).
Proof. intros W <-. split; [by apply qf_bits|by apply eval_built_bits]. Qed.

Lemma means_built v e es : built e es -> (forall c, c ∈ es -> quantifier_free c) -> eval r e = v -> means v e.
Proof. intros B Q E. split; [|done]. eapply qf_built; [exact B|]. by apply Forall_forall. Qed.

Lemma means_not b e : means (vbool b) e -> means (vbool (negb b)) (mk_unary Not e).
Proof.
  intros [Q E]. eapply means_built; [apply built_unary| |by apply eval_mk_not].
  intros c ->%list_elem_of_singleton. done.
Qed.

(** The builders that may refuse *)
Lemma option_means v o : (forall e, o = Some e -> means v e) -> ensures (of_option o) (means v).
Proof. apply ensures_option. Qed.

Lemma try_unary_means e op a a' : value e = Unary op a -> means (eval r a) a' ->
  ensures (of_option (try_unary op a')) (means (eval r e)).
Proof.
  intros V [Q E]. apply option_means. intros e' T. eapply means_built; [by eapply built_try_unary| |].
  - by intros c ->%list_elem_of_singleton.
  - by eapply try_unary_same.
Qed.

Lemma try_binary_means e op a b a' b' : value e = Binary op a b -> means (eval r a) a' ->
  means (eval r b) b' -> ensures (of_option (try_binary op a' b')) (means (eval r e)).
Proof.
  intros V [Qa Ea] [Qb Eb]. apply option_means. intros e' T. eapply means_built; [by eapply built_try_binary| |].
  - intros c [->| ->%list_elem_of_singleton]%elem_of_cons; done.
  - by eapply try_binary_same.
Qed.

Lemma try_ite_means c t f b v : means (vbool b) c -> quantifier_free t -> quantifier_free f ->
  (if b then eval r t = v else eval r f = v) -> ensures (of_option (try_ite c t f)) (means v).
Proof.
  intros [Qc Ec] Qt Qf E. apply option_means. intros e' T. eapply means_built; [by eapply built_try_ite| |].
  - intros x [->|[->| ->%list_elem_of_singleton]%elem_of_cons]%elem_of_cons; done.
  - destruct (eval_try_ite r c t f e' Hr T) as (b' & E' & ->). rewrite Ec in E'. apply vbool_inj in E' as <-.
    by destruct b.
Qed.

Definition fold_bools (is_and : bool) (bs : list bool) : bool :=
  if is_and then forallb id bs else existsb id bs.

Lemma try_nary_means (is_and : bool) es bs : (forall c, c ∈ es -> quantifier_free c) ->
  map (eval r) es = map vbool bs ->
  ensures (of_option (if is_and then try_and_many es else try_or_many es)) (means (vbool (fold_bools is_and bs))).
Proof.
  intros Q E. apply option_means. intros e' T. destruct is_and.
  - eapply means_built; [by eapply built_try_and|done|by eapply eval_try_and_many].
  - eapply means_built; [by eapply built_try_or|done|by eapply eval_try_or_many].
Qed.

(** Booleans of nodes *)
Lemma means_cases_bool b e : means (vbool b) e -> is_true (eval r e) <-> b = true.
Proof. intros [_ ->]. apply is_true_vbool. Qed.

(** ** The arms *)

Section Arms.
Context (simplify : Expr -> M Expr) (select_simplified : Expr -> Expr -> M Expr) (facts : PathFacts).
Context (Hf : holds r facts).
Context (simplify_ok : forall e, quantifier_free e -> ensures (simplify e) (means (eval r e))).
Context (select_ok : forall a i, quantifier_free a -> quantifier_free i ->
  ensures (select_simplified a i) (means (vselect (eval r a) (eval r i)))).

Lemma simplify_means e v : means v e -> ensures (simplify e) (means v).
Proof. intros [Q <-]. by apply simplify_ok. Qed.

(** A bind on a simplified operand *)
Lemma bind_simplify {B} e (k : Expr -> M B) P : quantifier_free e ->
  (forall e', means (eval r e) e' -> ensures (k e') P) -> ensures (simplify e ≫= k) P.
Proof. intros Q. apply ensures_bind. by apply simplify_ok. Qed.

Lemma child_qf e c : quantifier_free e -> c ∈ subexprs (value e) -> quantifier_free c.
Proof. apply qf_child. Qed.

Ltac operand := match goal with
  | Q : quantifier_free ?e, V : value ?e = _ |- quantifier_free _ =>
      apply (child_qf e _ Q); rewrite V; cbn [subexprs]; rewrite ?elem_of_cons; auto
  end.

Lemma simplify_not_ok e inner : quantifier_free e -> value e = Unary Not inner ->
  ensures (simplify_not simplify inner) (means (eval r e)).
Proof.
  intros Q V. destruct (eval_not r e inner Hr V) as (b & Eb & Ee).
  apply bind_simplify; [operand|]. intros inner' I.
  assert (D : ensures (of_option (try_unary Not inner')) (means (eval r e))) by (by eapply try_unary_means).
  rewrite Ee, Eb in *.
  destruct (value inner') as [|b'| |op double| | | | | | | | | | | | |] eqn:V'; try exact D.
  - apply ensures_ret. rewrite (means_bool_value _ _ _ I V'). apply means_bool.
  - destruct op; try exact D. destruct I as [Q' E'].
    destruct (eval_not r inner' double Hr V') as (b2 & E2 & E2').
    rewrite E2' in E'. apply vbool_inj in E' as <-. rewrite negb_involutive. apply simplify_means.
    split; [operand|done].
Qed.

Lemma bool_const_eq_ok e c t : quantifier_free e -> (t = true <-> eval r e = eval r c) ->
  ensures (simplify_bool_const_eq simplify e c) (means (vbool t)).
Proof.
  intros Q T. unfold simplify_bool_const_eq.
  destruct (value c) as [|b| | | | | | | | | | | | | | |] eqn:V; try apply ensures_bail.
  destruct (is_bool_sort (sort_of e)) eqn:S; [|apply ensures_bail]. cbn [negb].
  destruct (bool_of_sort r e Hr S) as [b' E]. rewrite (eval_bool_const r c b V), E in T.
  assert (t = Bool.eqb b' b) as ->.
  { destruct (Bool.eqb_spec b' b) as [->|N]; [by apply T|].
    destruct t; [|done]. by destruct N; apply vbool_inj, T. }
  destruct b.
  - apply ensures_ret. split; [done|]. rewrite E. by destruct b'.
  - apply simplify_means. replace (Bool.eqb b' false) with (negb b') by (by destruct b').
    by apply means_not.
Qed.

Lemma bits_eq_iff w x y : in_range w x -> in_range w y -> bv w x = bv w y <-> x = y.
Proof. intros Rx Ry. split; [|by intros ->]. intros E. by apply bv_inj in E as [_ ->]. Qed.

Lemma bool_bit_ite_eq_ok e rhs t : quantifier_free e -> (t = true <-> eval r e = eval r rhs) ->
  ensures (simplify_bool_bit_ite_eq simplify e rhs) (means (vbool t)).
Proof.
  intros Q T. unfold simplify_bool_bit_ite_eq.
  destruct (value e) as [| | | | | | | | |c a b| | | | | | |] eqn:V; try apply ensures_bail.
  apply ensures_option_bind. intros [va wa] Ca.
  apply ensures_option_bind. intros [vb wb] Cb.
  apply ensures_option_bind. intros [vr wr] Cr.
  destruct (_ || _) eqn:W; [apply ensures_bail|].
  apply orb_false_iff in W as [<-%negb_false_iff%N.eqb_eq <-%negb_false_iff%N.eqb_eq].
  apply bv_const_spec in Ca as (_ & _ & Ra & _ & Ea). apply bv_const_spec in Cb as (_ & _ & Rb & _ & Eb).
  apply bv_const_spec in Cr as (_ & _ & Rr & _ & Er).
  destruct (eval_ite r e c a b Hr V) as (bc & Ec & Ee).
  assert (T' : t = true <-> (if bc then va else vb) = vr).
  { rewrite T, Ee, Er. destruct bc; [rewrite Ea|rewrite Eb]; by apply bits_eq_iff. }
  apply bind_simplify; [operand|]. intros c' Mc. rewrite Ec in Mc.
  assert (Pos : t = bc -> ensures (mret c') (means (vbool t))) by (intros ->; by apply ensures_ret).
  assert (Neg : t = negb bc -> ensures (simplify (mk_unary Not c')) (means (vbool t)))
    by (intros ->; by apply simplify_means, means_not).
  assert (Fls : t = false -> ensures (mret (bool_const false)) (means (vbool t)))
    by (intros ->; apply ensures_ret, means_bool).
  clear - T' Pos Neg Fls.
  destruct va as [|[]|], vb as [|[]|]; try apply ensures_bail; destruct vr as [|[]|];
    try apply ensures_bail; first [apply Pos|apply Neg|apply Fls]; destruct t, bc; try done;
    destruct T'; intuition lia.
Qed.

Lemma fold_eq_consts_ok lhs rhs t : quantifier_free lhs -> quantifier_free rhs ->
  (t = true <-> eval r lhs = eval r rhs) -> ensures (fold_eq_consts lhs rhs) (means (vbool t)).
Proof.
  intros Ql Qr T. unfold fold_eq_consts.
  assert (D : ensures (of_option (try_eq lhs rhs)) (means (vbool t))).
  { apply option_means. intros e E. eapply means_built; [by eapply built_try_eq| |].
    - intros c [->| ->%list_elem_of_singleton]%elem_of_cons; done.
    - destruct (eval_try_eq r lhs rhs e E) as (t' & -> & T'). f_equal. destruct t, t'; intuition. }
  destruct (value lhs) as [|a|[x w| | | | | | |]| | | | | | | | | | | | | |] eqn:V1; try exact D;
    destruct (value rhs) as [|b|[y w'| | | | | | |]| | | | | | | | | | | | | |] eqn:V2; try exact D.
  - apply ensures_ret. rewrite (eval_bool_const r lhs a V1), (eval_bool_const r rhs b V2) in T.
    replace (Bool.eqb a b) with t; [apply means_bool|].
    destruct (Bool.eqb_spec a b) as [->|N]; [by apply T|]. destruct t; [|done]. by destruct N; apply vbool_inj, T.
  - destruct (N.eqb_spec w w') as [<-|]; [|apply ensures_bail]. apply ensures_ret.
    destruct (eval_bitvec_const r lhs x w V1) as (_ & Rx & E1), (eval_bitvec_const r rhs y w V2) as (_ & Ry & E2).
    rewrite E1, E2, bits_eq_iff in T by done. replace (x =? y) with t; [apply means_bool|].
    destruct t, (Z.eqb_spec x y); intuition.
Qed.

Lemma or_else_ok m k P : ensures m P -> ensures k P -> ensures (or_else m k) P.
Proof.
  intros Hm Hk. unfold or_else. eapply ensures_bind.
  - apply (ensures_attempt m (fun o => match o with Some e => P e | None => True end)); [exact Hm|done].
  - intros [e|] Pe; [by apply ensures_ret|exact Hk].
Qed.

Lemma simplify_eq_ok lhs rhs t : quantifier_free lhs -> quantifier_free rhs ->
  (t = true <-> eval r lhs = eval r rhs) ->
  ensures (simplify_eq_with_facts simplify facts lhs rhs) (means (vbool t)).
Proof.
  intros Ql Qr T. unfold simplify_eq_with_facts.
  apply bind_simplify; [done|]. intros lhs' [Ql' El]. apply bind_simplify; [done|]. intros rhs' [Qr' Er].
  rewrite <- El, <- Er in T. destruct (decide _) as [->|_].
  { apply ensures_ret. rewrite (proj2 T) by done. apply means_bool. }
  destruct (are_disequal facts lhs' rhs') eqn:D.
  { apply ensures_ret. apply (disequal_sound r Hr) in D; [|done].
    replace t with false by (destruct t; [by destruct D; apply T|done]). apply means_bool. }
  assert (T' : t = true <-> eval r rhs' = eval r lhs') by (rewrite T; split; congruence).
  apply or_else_ok; [by apply bool_const_eq_ok|]. apply or_else_ok; [by apply bool_const_eq_ok|].
  apply or_else_ok; [by apply bool_bit_ite_eq_ok|]. apply or_else_ok; [by apply bool_bit_ite_eq_ok|].
  by apply fold_eq_consts_ok.
Qed.

(** ** Conjunctions, disjunctions, conditionals *)

Lemma fold_bools_app is_and bs bs' :
  fold_bools is_and (bs ++ bs') = fold_bools is_and [fold_bools is_and bs; fold_bools is_and bs'].
Proof.
  destruct is_and; cbn; rewrite ?forallb_app, ?existsb_app, ?andb_true_r, ?orb_false_r; done.
Qed.

Lemma fold_bools_cons is_and b bs : fold_bools is_and (b :: bs) = if is_and then b && fold_bools is_and bs
  else b || fold_bools is_and bs.
Proof. by destruct is_and. Qed.

(** The Booleans of a list of operands *)
Definition operands (es : list Expr) (bs : list bool) : Prop :=
  (forall c, c ∈ es -> quantifier_free c) /\ map (eval r) es = map vbool bs.

Lemma operands_app es bs es' bs' : operands es bs -> operands es' bs' -> operands (es ++ es') (bs ++ bs').
Proof.
  intros [Q E] [Q' E']. split; [|by rewrite !map_app, E, E'].
  intros c [Hc|Hc]%elem_of_app; auto.
Qed.

Lemma operands_one e b : means (vbool b) e -> operands [e] [b].
Proof. intros [Q E]. split; [|cbn; by rewrite E]. by intros c ->%list_elem_of_singleton. Qed.

Lemma operands_and e b es : means (vbool b) e -> value e = And es ->
  exists bs, operands es bs /\ forallb id bs = b.
Proof.
  intros [Q E] V. destruct (eval_and_bool r e es Hr V) as (bs & M & E'). exists bs. split.
  - split; [|done]. intros c Hc. apply (child_qf e); [done|]. by rewrite V.
  - rewrite E in E'. by apply vbool_inj in E'.
Qed.

Lemma operands_or e b es : means (vbool b) e -> value e = Or es ->
  exists bs, operands es bs /\ existsb id bs = b.
Proof.
  intros [Q E] V. destruct (eval_or_bool r e es Hr V) as (bs & M & E'). exists bs. split.
  - split; [|done]. intros c Hc. apply (child_qf e); [done|]. by rewrite V.
  - rewrite E in E'. by apply vbool_inj in E'.
Qed.

Lemma nary_kept_ok is_and es bs kept ks : operands es bs -> operands kept ks ->
  ensures (nary_kept simplify es is_and kept) (fun o => match o with
    | None => fold_bools is_and (ks ++ bs) = negb is_and
    | Some kept' => exists ks', operands kept' ks' /\ fold_bools is_and ks' = fold_bools is_and (ks ++ bs)
    end).
Proof.
  revert bs kept ks. induction es as [|e es IH]; intros [|b bs] kept ks [Q E] K; cbn in E; try discriminate.
  { apply ensures_ret. exists ks. by rewrite app_nil_r. }
  injection E as E Es. assert (Os : operands es bs) by (split; [|done]; intros c Hc; apply Q; by right).
  cbn [nary_kept]. apply bind_simplify; [apply Q; left|]. intros e' M. rewrite E in M.
  assert (Add : forall extra xs, operands extra xs -> fold_bools is_and xs = b ->
    ensures (nary_kept simplify es is_and (kept ++ extra)) (fun o => match o with
      | None => fold_bools is_and (ks ++ b :: bs) = negb is_and
      | Some kept' => exists ks', operands kept' ks' /\ fold_bools is_and ks' = fold_bools is_and (ks ++ b :: bs)
      end)).
  { intros extra xs X Ex. eapply ensures_weaken; [by apply (IH bs _ (ks ++ xs)); [|apply operands_app]|].
    replace (fold_bools is_and ((ks ++ xs) ++ bs)) with (fold_bools is_and (ks ++ b :: bs)); [done|].
    rewrite <- app_assoc, !(fold_bools_app _ ks), (fold_bools_app _ xs), Ex, (fold_bools_cons _ b bs).
    destruct is_and; cbn; by rewrite ?andb_true_r, ?orb_false_r. }
  assert (One : ensures (nary_kept simplify es is_and (kept ++ [e'])) (fun o => match o with
      | None => fold_bools is_and (ks ++ b :: bs) = negb is_and
      | Some kept' => exists ks', operands kept' ks' /\ fold_bools is_and ks' = fold_bools is_and (ks ++ b :: bs)
      end)).
  { apply (Add [e'] [b]); [by apply operands_one|]. destruct is_and; cbn; by rewrite ?andb_true_r, ?orb_false_r. }
  destruct (value e') as [|b'| | | | |nested|nested| | | | | | | | |] eqn:V; try exact One.
  - pose proof (means_bool_value _ _ _ M V) as ->. destruct (Bool.eqb_spec b is_and) as [->|N].
    + eapply ensures_weaken; [by apply IH|]. replace (fold_bools is_and (ks ++ is_and :: bs))
        with (fold_bools is_and (ks ++ bs)); [done|].
      rewrite !fold_bools_app, (fold_bools_cons _ is_and). by destruct is_and.
    + apply ensures_ret. rewrite fold_bools_app, fold_bools_cons.
      destruct is_and, b; try done; cbn; by rewrite ?andb_false_r, ?orb_true_r.
  - destruct is_and; [|exact One]. destruct (operands_and e' b nested M V) as (xs & X & Ex). by apply (Add _ xs).
  - destruct is_and; [exact One|]. destruct (operands_or e' b nested M V) as (xs & X & Ex). by apply (Add _ xs).
Qed.

Lemma simplify_nary_ok is_and es bs : operands es bs ->
  ensures (simplify_bool_nary simplify es is_and) (means (vbool (fold_bools is_and bs))).
Proof.
  intros Os. unfold simplify_bool_nary. eapply ensures_bind.
  { apply (nary_kept_ok is_and es bs [] []); [done|]. split; [|done]. intros c Hc. by apply elem_of_nil in Hc. }
  cbn [app]. intros [kept|]; [intros (ks & [Q E] & <-)|intros ->; apply ensures_ret, means_bool].
  destruct kept as [|e [|e2 kept]].
  - destruct ks; [|discriminate E]. apply ensures_ret. destruct is_and; apply means_bool.
  - destruct ks as [|b [|? ?]]; try discriminate E. apply ensures_ret. split; [apply Q; left|]. injection E as ->.
    destruct is_and; cbn; by rewrite ?andb_true_r, ?orb_false_r.
  - by apply try_nary_means.
Qed.

Lemma simplify_and_many e b e' b' : means (vbool b) e -> means (vbool b') e' ->
  ensures (x ← of_option (try_and_many [e; e']); simplify x) (means (vbool (b && b'))).
Proof.
  intros M M'. eapply ensures_bind; [|intros x; apply simplify_means].
  pose proof (operands_app _ _ _ _ (operands_one e b M) (operands_one e' b' M')) as [Q E].
  replace (b && b') with (fold_bools true [b; b']) by (cbn; by rewrite andb_true_r).
  by apply (try_nary_means true).
Qed.

Lemma simplify_or_many e b e' b' : means (vbool b) e -> means (vbool b') e' ->
  ensures (x ← of_option (try_or_many [e; e']); simplify x) (means (vbool (b || b'))).
Proof.
  intros M M'. eapply ensures_bind; [|intros x; apply simplify_means].
  pose proof (operands_app _ _ _ _ (operands_one e b M) (operands_one e' b' M')) as [Q E].
  replace (b || b') with (fold_bools false [b; b']) by (cbn; by rewrite orb_false_r).
  by apply (try_nary_means false).
Qed.

Lemma simplify_bool_ite_ok c t f bc bt bf : means (vbool bc) c -> means (vbool bt) t -> means (vbool bf) f ->
  ensures (simplify_bool_ite simplify c t f) (means (vbool (if bc then bt else bf))).
Proof.
  intros Mc Mt Mf. unfold simplify_bool_ite. pose proof (means_not bc c Mc) as Mn.
  assert (D : ensures (of_option (try_ite c t f)) (means (vbool (if bc then bt else bf)))).
  { destruct Mt, Mf. eapply try_ite_means; [exact Mc|done|done|]. by destruct bc. }
  assert (Dt : forall x, value t = BoolConst x -> bt = x) by (intros x V; symmetry; by apply (means_bool_value bt x t)).
  assert (Df : forall x, value f = BoolConst x -> bf = x) by (intros x V; symmetry; by apply (means_bool_value bf x f)).
  assert (Ft : (bt = false) -> ensures (x ← of_option (try_and_many [mk_unary Not c; f]); simplify x)
    (means (vbool (if bc then bt else bf)))).
  { intros ->. replace (if bc then false else bf) with (negb bc && bf) by (by destruct bc).
    by apply simplify_and_many. }
  assert (Tt : (bt = true) -> ensures (x ← of_option (try_or_many [c; f]); simplify x)
    (means (vbool (if bc then bt else bf)))).
  { intros ->. replace (if bc then true else bf) with (bc || bf) by (by destruct bc). by apply simplify_or_many. }
  assert (Ff : (bf = false) -> ensures (x ← of_option (try_and_many [c; t]); simplify x)
    (means (vbool (if bc then bt else bf)))).
  { intros ->. replace (if bc then bt else false) with (bc && bt) by (by destruct bc). by apply simplify_and_many. }
  assert (Tf : (bf = true) -> ensures (x ← of_option (try_or_many [mk_unary Not c; t]); simplify x)
    (means (vbool (if bc then bt else bf)))).
  { intros ->. replace (if bc then bt else true) with (negb bc || bt) by (by destruct bc, bt).
    by apply simplify_or_many. }
  assert (TF : bt = true -> bf = false -> ensures (mret c) (means (vbool (if bc then bt else bf)))).
  { intros -> ->. apply ensures_ret. by destruct bc. }
  assert (FT : bt = false -> bf = true ->
    ensures (simplify (mk_unary Not c)) (means (vbool (if bc then bt else bf)))).
  { intros -> ->. replace (if bc then false else true) with (negb bc) by (by destruct bc).
    by apply simplify_means. }
  clear Mc Mt Mf Mn. destruct (value t) as [|[]| | | | | | | | | | | | | | |] eqn:Vt.
  all: try (specialize (Dt _ eq_refl)).
  all: destruct (AyExpr.value f) as [|[]| | | | | | | | | | | | | | |] eqn:Vf; try (specialize (Df _ eq_refl)); auto.
Qed.

(** A conditional of simplified operands *)
Lemma simplify_ite_with_facts_ok c t f b v : means (vbool b) c -> quantifier_free t -> quantifier_free f ->
  (if b then eval r t = v else eval r f = v) ->
  ensures (simplify_ite_with_facts simplify c t f) (means v).
Proof.
  intros Mc Qt Qf E. unfold simplify_ite_with_facts.
  apply bind_simplify; [done|]. intros t' Mt. apply bind_simplify; [done|]. intros f' Mf.
  destruct (decide (t' = f')) as [->|_].
  { apply ensures_ret. destruct Mt as [_ Et], Mf as [Qf' Ef]. split; [done|]. destruct b; congruence. }
  destruct (_ && _) eqn:S.
  - apply andb_true_iff in S as [S1 S2].
    destruct (bool_of_sort r t' Hr S1) as [bt Et], (bool_of_sort r f' Hr S2) as [bf Ef].
    replace v with (vbool (if b then bt else bf)).
    + apply simplify_bool_ite_ok; [done|split; [apply Mt|done]|split; [apply Mf|done]].
    + destruct Mt as [_ Mt], Mf as [_ Mf]. destruct b; congruence.
  - destruct Mt as [Qt' Et], Mf as [Qf' Ef]. eapply try_ite_means; [exact Mc|done|done|]. destruct b; congruence.
Qed.

Lemma simplify_ite_ok e c t f : quantifier_free e -> value e = Ite c t f ->
  ensures (simplify_ite simplify c t f) (means (eval r e)).
Proof.
  intros Q V. destruct (eval_ite r e c t f Hr V) as (b & Ec & Ee). unfold simplify_ite.
  assert (Qt : quantifier_free t) by operand. assert (Qf : quantifier_free f) by operand.
  apply bind_simplify; [operand|]. intros c' Mc. rewrite Ec in Mc.
  assert (D : ensures (simplify_ite_with_facts simplify c' t f) (means (eval r e)))
    by (eapply simplify_ite_with_facts_ok; [exact Mc|done|done|by destruct b]).
  destruct (value c') as [|b'| | | | | | | | | | | | | | |] eqn:V'; try exact D.
  pose proof (means_bool_value _ _ _ Mc V') as ->. rewrite Ee. destruct b; by apply simplify_ok.
Qed.

(** ** Arrays *)

Lemma select_means a i : quantifier_free a -> quantifier_free i ->
  means (vselect (eval r a) (eval r i)) (mk_select a i).
Proof.
  intros Qa Qi. eapply means_built; [apply built_select| |apply eval_mk_select].
  intros c [->| ->%list_elem_of_singleton]%elem_of_cons; done.
Qed.

Lemma is_bool_const_value e b b' : is_bool_const e b = true -> means (vbool b') e -> b' = b.
Proof.
  unfold is_bool_const. intros B M. destruct (AyExpr.value e) as [|b0| | | | | | | | | | | | | | |] eqn:V; try done.
  apply Bool.eqb_prop in B as ->. symmetry. by eapply means_bool_value.
Qed.

Lemma select_node_ok a i : quantifier_free a -> quantifier_free i ->
  ensures (select_node simplify select_simplified facts a i) (means (vselect (eval r a) (eval r i))).
Proof.
  intros Qa Qi. unfold select_node.
  pose proof (ensures_ret _ _ (select_means a i Qa Qi)) as D.
  destruct (AyExpr.value a) as [| | |op v| | | | | | |base j v| | | | | |] eqn:V; try exact D.
  - destruct op; try exact D. apply ensures_ret. split; [operand|]. symmetry. by eapply vselect_const.
  - destruct (vselect_store r a base j v (eval r i) Hr V) as [Same Other].
    assert (Qj : quantifier_free j) by operand.
    destruct (eval_mk_eq r j i) as (t & _ & T).
    pose proof (simplify_eq_ok j i t Qj Qi T) as Eq.
    eapply ensures_bind; [exact Eq|]. intros same Ms. destruct (is_bool_const same true) eqn:B.
    { apply ensures_ret. split; [operand|]. rewrite Same; [done|]. symmetry. apply T.
      by apply (is_bool_const_value same true). }
    apply (ensures_bind _ _ (fun differ => differ = true -> eval r i <> eval r j)).
    + destruct (are_disequal facts j i) eqn:Dq.
      * apply ensures_ret. intros _. apply not_eq_sym. by apply (disequal_sound r Hr) in Dq.
      * eapply ensures_bind; [exact Eq|]. intros same' Ms'. apply ensures_ret. intros B' E.
        apply (is_bool_const_value _ _ t) in B'; [|done]. by rewrite (proj2 T) in B'.
    + intros [] Df; [|exact D]. rewrite Other by auto. apply select_ok; [operand|done].
Qed.

Lemma simplify_select_ok e a i : quantifier_free e -> value e = Binary Select a i ->
  ensures (simplify_select simplify select_simplified a i) (means (eval r e)).
Proof.
  intros Q V. rewrite (eval_select r e a i V). unfold simplify_select.
  apply bind_simplify; [operand|]. intros a' [Qa <-]. apply bind_simplify; [operand|]. intros i' [Qi <-].
  by apply select_ok.
Qed.

Lemma simplify_store_ok e a i x : quantifier_free e -> value e = Store a i x ->
  ensures (simplify_store simplify a i x) (means (eval r e)).
Proof.
  intros Q V. unfold simplify_store.
  apply bind_simplify; [operand|]. intros a' [Qa Ea]. apply bind_simplify; [operand|]. intros i' [Qi Ei].
  apply bind_simplify; [operand|]. intros x' [Qx Ex]. apply ensures_ret.
  eapply means_built; [apply built_store| |by eapply mk_store_same].
  intros c [->|[->| ->%list_elem_of_singleton]%elem_of_cons]%elem_of_cons; done.
Qed.

Lemma simplify_const_array_ok e s v : quantifier_free e -> value e = Unary (ConstArray s) v ->
  ensures (simplify_const_array simplify s v) (means (eval r e)).
Proof.
  intros Q V. unfold simplify_const_array. apply bind_simplify; [operand|]. intros v' [Qv Ev].
  apply ensures_ret. eapply means_built; [apply built_unary| |by eapply mk_unary_same].
  by intros c ->%list_elem_of_singleton.
Qed.

(** ** Rebuilt nodes *)

Lemma rebuild_means e cs : quantifier_free e -> List.Forall2 (fun c c' => means (eval r c) c') (children e) cs ->
  means (eval r e) (rebuild_with_children e cs).
Proof.
  intros Q F. assert (E : map (eval r) cs = map (eval r) (children e)).
  { induction F as [|c c' l l' [_ E] _ IH]; cbn; [done|]. by rewrite E, IH. }
  eapply means_built; [apply built_rebuild| |apply rebuild_same; [by apply qf_quantifier|exact E]].
  - by apply qf_quantifier.
  - symmetry. by eapply Forall2_length.
  - intros c Hc. apply list_elem_of_lookup_1 in Hc as [k Hk].
    destruct (Forall2_lookup_r _ _ _ _ _ F Hk) as (x & _ & Mx). apply Mx.
Qed.

Lemma simplify_rebuilt_ok e : quantifier_free e ->
  ensures (simplify_rebuilt_children simplify e) (means (eval r e)).
Proof.
  intros Q. unfold simplify_rebuilt_children. eapply ensures_bind.
  - apply (ensures_map _ _ (fun c c' => means (eval r c) c')). intros c Hc. apply simplify_ok.
    by apply (child_qf e).
  - intros cs F. apply ensures_ret. by apply rebuild_means.
Qed.

(** ** Datatypes *)

Lemma field_position_spec s k n i : field_position s k n = Some i ->
  exists cs fs so, constructors s = Some cs /\ (k, fs) ∈ cs /\ fs !! i = Some (n, so).
Proof.
  unfold field_position. destruct (constructors s) as [cs|]; [|done]. cbn [mbind option_bind].
  destruct (list_find _ cs) as [[j [k' fs]]|] eqn:F1; [|done]. cbn [mbind option_bind snd].
  destruct (list_find _ fs) as [[i' [n' so]]|] eqn:F2; [|done]. intros [= <-].
  apply list_find_Some in F1 as (L1 & K & _), F2 as (L2 & N & _). cbn in K, N. subst k' n'.
  exists cs, fs, so. split; [done|]. split; [by eapply list_elem_of_lookup_2|done].
Qed.

Lemma rebuild_one e x a op : quantifier_free e -> value e = Unary op a -> means (eval r a) x ->
  means (eval r e) (rebuild_with_children e [x]).
Proof.
  intros Q V M. apply rebuild_means; [done|]. unfold children. rewrite V. cbn [subexprs]. constructor; [exact M|constructor].
Qed.

Lemma try_field_means e d n a x y : value e = Unary (DatatypeSelector d n) a -> quantifier_free x ->
  try_field_select x d n (sort_of e) = Some y -> quantifier_free y /\ (eval r x = eval r a -> eval r y = eval r e).
Proof.
  intros V Q T. split; [|intros E; by eapply try_field_select_same].
  eapply qf_built; [by eapply built_try_field|]. by constructor.
Qed.

Lemma simplify_selector_ok e d n a : quantifier_free e -> value e = Unary (DatatypeSelector d n) a ->
  ensures (simplify_datatype_selector simplify e d n a) (means (eval r e)).
Proof.
  intros Q V. unfold simplify_datatype_selector. apply bind_simplify; [operand|]. intros c M.
  pose proof (ensures_ret _ _ (rebuild_one e c a _ Q V M)) as D. destruct M as [Qc Ec].
  destruct (AyExpr.value c) as [| | | | | | | | |cond t f| | |d' k args| | | |] eqn:Vc; try exact D.
  - destruct (try_field_select t d n (sort_of e)) as [t'|] eqn:Tt; [|exact D].
    destruct (try_field_select f d n (sort_of e)) as [f'|] eqn:Tf; [|exact D].
    destruct (eval_ite r c cond t f Hr Vc) as (b & Ecd & Eb).
    destruct (try_field_means e d n a t t' V) as [Qt Et]; [operand|done|].
    destruct (try_field_means e d n a f f' V) as [Qf Ef]; [operand|done|].
    apply bind_simplify; [operand|]. intros cond' Mc. rewrite Ecd in Mc.
    apply bind_simplify; [done|]. intros t'' [Qt' Et']. apply bind_simplify; [done|]. intros f'' [Qf' Ef'].
    eapply ensures_bind; [|intros x; apply simplify_means]. eapply try_ite_means; [exact Mc|done|done|].
    destruct b; [rewrite Et', Et|rewrite Ef', Ef]; congruence.
  - destruct (String.eqb d' d); [|apply ensures_bail]. cbn [negb].
    destruct (constructors (sort_of c)); [|apply ensures_bail].
    destruct (field_position (sort_of c) k n) as [i|] eqn:Fp; [|exact D]. cbn [mbind option_bind].
    destruct (args !! i) as [x|] eqn:Ai; [|exact D]. apply ensures_ret.
    apply field_position_spec in Fp as (cs & fs & so & Cs & Hk & Hi). split.
    + apply (child_qf c); [done|]. rewrite Vc. cbn. by eapply list_elem_of_lookup_2.
    + symmetry. by eapply eval_field.
Qed.

(** The tester of an expression that means what the tested one does *)
Lemma tester_ok nesting e d n a : value e = Unary (DatatypeTester d n) a -> forall x, quantifier_free x ->
  ensures (tester_nested simplify nesting d n x) (fun y => quantifier_free y /\ (eval r x = eval r a -> eval r y = eval r e)).
Proof.
  intros V. induction nesting as [|nesting IH]; intros x Q; cbn [tester_nested]; [apply ensures_bail|].
  apply bind_simplify; [done|]. intros x' [Qx' Ex'].
  assert (D : ensures (of_option (try_is_constructor x' d n))
    (fun y => quantifier_free y /\ (eval r x = eval r a -> eval r y = eval r e))).
  { apply ensures_option. intros y T. split.
    - eapply qf_built; [by eapply built_try_tester|]. by constructor.
    - intros E. eapply try_is_constructor_same; [exact V| |exact T]. congruence. }
  destruct (AyExpr.value x') as [| | | | | | | | |c t f| | |d' k args| | | |] eqn:Vx; try exact D.
  - destruct (eval_ite r x' c t f Hr Vx) as (b & Ec & Eb).
    apply bind_simplify; [operand|]. intros c' Mc. rewrite Ec in Mc.
    eapply ensures_bind; [apply IH; operand|]. intros t' [Qt Et].
    eapply ensures_bind; [apply IH; operand|]. intros f' [Qf Ef].
    eapply (ensures_bind _ _ (means (if b then eval r t' else eval r f'))).
    + eapply try_ite_means; [exact Mc|done|done|by destruct b].
    + intros y M. eapply ensures_weaken; [by apply simplify_means|]. intros z [Qz ->]. split; [done|].
      intros E. destruct b; [apply Et|apply Ef]; congruence.
  - destruct (String.eqb_spec d' d) as [->|]; [|apply ensures_bail]. cbn [negb]. apply ensures_ret.
    split; [apply qf_bool|]. intros E. rewrite eval_built_bool.
    rewrite (eval_tester r e d n a x' k args Hr V) by congruence. f_equal.
    destruct (String.eqb_spec k n); [by rewrite bool_decide_eq_true_2|by rewrite bool_decide_eq_false_2].
Qed.

Lemma simplify_tester_ok nesting e d n a : quantifier_free e -> value e = Unary (DatatypeTester d n) a ->
  ensures (simplify_datatype_tester nesting simplify d n a) (means (eval r e)).
Proof.
  intros Q V. eapply ensures_weaken; [apply (tester_ok nesting e d n a V); operand|].
  intros y [Qy Ey]. split; [done|by apply Ey].
Qed.

(** ** Bit-vectors *)

Lemma const_bits e e' v w : means (eval r e) e' -> bv_const_u128 e' = Some (v, w) ->
  (0 < w <= 128)%N /\ width_ok w /\ in_range w v /\ eval r e = bv w v.
Proof. intros [_ <-] C. apply bv_const_spec in C as (? & ? & ? & _ & E). auto. Qed.

(** The operands of a node have bits when they simplify to operands of one sort. *)
Lemma sides_bits a b a' b' : means (eval r a) a' -> means (eval r b) b' -> same_bitvec_sort a' b' = true ->
  exists w x y, width_ok w /\ in_range w x /\ in_range w y /\ eval r a = bv w x /\ eval r b = bv w y /\
    bitvec_width (sort_of a') = Some w.
Proof.
  intros [_ <-] [_ <-] [S%bool_decide_eq_true B%bool_decide_eq_true]%andb_true_iff. destruct B as [w W].
  destruct (cmp_sides r Hr a' b' w S W) as (? & x & y & ? & ? & ? & ?). exists w, x, y. auto 10.
Qed.

Lemma binop_ok e op lhs rhs fold : quantifier_free e -> value e = Binary op lhs rhs ->
  (forall w x y z, (0 < w <= 128)%N -> in_range w x -> in_range w y -> fold x y w = Some z ->
     smt_binary op w x w y = Some (RBits w (z mod card w))) ->
  ensures (simplify_bv_binop simplify lhs rhs fold (try_binary op)) (means (eval r e)).
Proof.
  intros Q V Fo. unfold simplify_bv_binop.
  apply bind_simplify; [operand|]. intros a' Ma. apply bind_simplify; [operand|]. intros b' Mb.
  destruct (same_bitvec_sort a' b'); [|apply ensures_bail]. cbn [negb].
  pose proof (try_binary_means e op lhs rhs a' b' V Ma Mb) as D.
  destruct (bv_const_u128 a') as [[x w]|] eqn:Ca; [|exact D].
  destruct (bv_const_u128 b') as [[y w']|] eqn:Cb; [|exact D].
  destruct (N.eqb_spec w w') as [<-|]; [|apply ensures_bail]. cbn [negb].
  destruct (fold x y w) as [z|] eqn:F; [|exact D]. apply ensures_ret.
  destruct (const_bits _ _ _ _ Ma Ca) as (W & Wk & Rx & Ex), (const_bits _ _ _ _ Mb Cb) as (_ & _ & Ry & Ey).
  destruct (eval_binary r e op lhs rhs w x w y _ Hr V Rx Ry Ex Ey (Fo w x y z W Rx Ry F)) as [_ [-> _]].
  by apply means_bits.
Qed.

Lemma cmp_ok e op lhs rhs kind f : quantifier_free e -> value e = Binary op lhs rhs ->
  unsigned_cmp e = Some (lhs, rhs, kind) -> (forall x y, f x y = cmp_holds kind x y) ->
  ensures (simplify_bv_cmp simplify facts lhs rhs kind f (try_binary op)) (means (eval r e)).
Proof.
  intros Q V U Fo. unfold simplify_bv_cmp.
  apply bind_simplify; [operand|]. intros a' Ma. apply bind_simplify; [operand|]. intros b' Mb.
  destruct (same_bitvec_sort a' b') eqn:S; [|apply ensures_bail]. cbn [negb].
  destruct (sides_bits lhs rhs a' b' Ma Mb S) as (w & x & y & _ & Rx & Ry & Ex & Ey & _).
  pose proof (unsigned_cmp_sound r Hr e lhs rhs kind w x y U Rx Ry Ex Ey) as Ee.
  assert (D : ensures (match unsigned_bound_decides_cmp a' b' kind facts with
    | Some decided => mret (bool_const decided)
    | None => of_option (try_binary op a' b') end) (means (eval r e))).
  { destruct (unsigned_bound_decides_cmp a' b' kind facts) as [t|] eqn:B; [|by eapply try_binary_means].
    apply ensures_ret. rewrite Ee. destruct Ma as [_ Ea], Mb as [_ Eb].
    rewrite (bound_decides_sound r a' b' kind facts t w x y Hf B Rx Ry) by congruence. apply means_bool. }
  destruct (bv_const_u128 a') as [[x' wx]|] eqn:Ca; [|exact D].
  destruct (bv_const_u128 b') as [[y' wy]|] eqn:Cb; [|exact D].
  destruct (N.eqb_spec wx wy) as [<-|]; [|apply ensures_bail]. cbn [negb]. apply ensures_ret.
  destruct (const_bits _ _ _ _ Ma Ca) as (_ & _ & Rx' & Ex'), (const_bits _ _ _ _ Mb Cb) as (_ & _ & Ry' & Ey').
  destruct (two_bits r lhs w x wx x' Rx Rx' Ex Ex') as [-> ->].
  destruct (two_bits r rhs w y w y' Ry Ry' Ey Ey') as [_ ->]. rewrite Fo, Ee. apply means_bool.
Qed.

Lemma signed_order_spec w x y : (0 < w <= 128)%N -> in_range w x -> in_range w y ->
  (signed_bv_order x y w <? 0) = bvslt w x y /\ (signed_bv_order x y w <=? 0) = bvsle w x y /\
  (0 <? signed_bv_order x y w) = bvslt w y x /\ (0 <=? signed_bv_order x y w) = bvsle w y x.
Proof.
  intros W Rx Ry. assert (B : forall z, in_range w z -> negb (Z.land z (wrapping_shl 1 (w - 1)) =? 0) = msb w z).
  { intros z Rz. unfold wrapping_shl, msb. rewrite Z.shiftl_1_l, Z.mod_small.
    - replace (Z.of_N (w - 1)) with (Z.of_N w - 1) by lia. destruct (Z.testbit z (Z.of_N w - 1)) eqn:T.
      + destruct (Z.eqb_spec (Z.land z (2 ^ (Z.of_N w - 1))) 0) as [E|]; [|done].
        apply (f_equal (fun n => Z.testbit n (Z.of_N w - 1))) in E.
        rewrite Z.land_spec, T, Z.pow2_bits_true, Z.testbit_0_l in E by lia. done.
      + replace (Z.land z (2 ^ (Z.of_N w - 1))) with 0; [done|]. symmetry. apply Z.bits_inj'. intros n Pn.
        rewrite Z.land_spec, Z.testbit_0_l, Z.pow2_bits_eqb by lia.
        destruct (Z.eqb_spec (Z.of_N w - 1) n) as [<-|]; [by rewrite T|by rewrite andb_false_r].
    - split; [apply Z.pow_nonneg; lia|apply Z.pow_lt_mono_r; lia]. }
  unfold signed_bv_order. rewrite !B by done. unfold bvslt, bvsle, bvult, bvule.
  destruct (msb w x), (msb w y); cbn; repeat split; try done;
    destruct (Z.ltb_spec x y), (Z.ltb_spec y x); cbn; lia.
Qed.

Lemma signed_cmp_ok e op lhs rhs f : quantifier_free e -> value e = Binary op lhs rhs ->
  (forall w x y, (0 < w <= 128)%N -> in_range w x -> in_range w y ->
     smt_binary op w x w y = Some (RBool (f (signed_bv_order x y w)))) ->
  ensures (simplify_bv_signed_cmp simplify lhs rhs f (try_binary op)) (means (eval r e)).
Proof.
  intros Q V Fo. unfold simplify_bv_signed_cmp.
  apply bind_simplify; [operand|]. intros a' Ma. apply bind_simplify; [operand|]. intros b' Mb.
  destruct (same_bitvec_sort a' b'); [|apply ensures_bail]. cbn [negb].
  pose proof (try_binary_means e op lhs rhs a' b' V Ma Mb) as D.
  destruct (bv_const_u128 a') as [[x w]|] eqn:Ca; [|exact D].
  destruct (bv_const_u128 b') as [[y w']|] eqn:Cb; [|exact D].
  destruct (N.eqb_spec w w') as [<-|]; [|apply ensures_bail]. cbn [negb orb].
  destruct (w =? 0)%N; [apply ensures_bail|]. apply ensures_ret.
  destruct (const_bits _ _ _ _ Ma Ca) as (W & Wk & Rx & Ex), (const_bits _ _ _ _ Mb Cb) as (_ & _ & Ry & Ey).
  destruct (eval_binary r e op lhs rhs w x w y _ Hr V Rx Ry Ex Ey (Fo w x y W Rx Ry)) as [_ ->].
  apply means_bool.
Qed.

Lemma concat_ok e lhs rhs : quantifier_free e -> value e = Binary BvConcat lhs rhs ->
  ensures (simplify_bv_concat simplify lhs rhs) (means (eval r e)).
Proof.
  intros Q V. unfold simplify_bv_concat.
  apply bind_simplify; [operand|]. intros a' Ma. apply bind_simplify; [operand|]. intros b' Mb.
  pose proof (try_binary_means e _ lhs rhs a' b' V Ma Mb) as D.
  destruct (bv_const_u128 a') as [[x w]|] eqn:Ca; [|exact D].
  destruct (bv_const_u128 b') as [[y w']|] eqn:Cb; [|exact D]. cbv zeta.
  destruct (N.ltb_spec 128 (w + w')); [apply ensures_bail|]. apply ensures_ret.
  destruct (const_bits _ _ _ _ Ma Ca) as (W & Wk & Rx & Ex), (const_bits _ _ _ _ Mb Cb) as (W' & _ & Ry & Ey).
  destruct (eval_binary r e BvConcat lhs rhs w x w' y _ Hr V Rx Ry Ex Ey eq_refl) as [_ [-> Wo]].
  destruct (concat_spec w w' x y Rx Ry) as [E R]. apply means_bits; [done|].
  unfold wrapping_shl. rewrite (Z.mod_small (Z.shiftl x (Z.of_N w'))).
  - rewrite E. by apply Z.mod_small.
  - unfold in_range in *. rewrite Z.shiftl_mul_pow2 by lia.
    assert (P : 0 < 2 ^ Z.of_N w') by (apply Z.pow_pos_nonneg; lia). split; [nia|].
    apply Z.lt_le_trans with (2 ^ Z.of_N w * 2 ^ Z.of_N w'); [unfold card in Rx; nia|].
    rewrite <- Z.pow_add_r by lia. apply Z.pow_le_mono_r; lia.
Qed.

Lemma unary_bits e op a a' v w w' x' : value e = Unary op a -> means (eval r a) a' ->
  bv_const_u128 a' = Some (v, w) -> smt_unary op w v = Some (w', x') ->
  eval r e = bv w' x' /\ width_ok w'.
Proof.
  intros V M C S. destruct (const_bits _ _ _ _ M C) as (_ & _ & R & E). by eapply eval_unary.
Qed.

Lemma sort_width a a' v w w' : means (eval r a) a' -> bv_const_u128 a' = Some (v, w) ->
  bitvec_width (sort_of a') = Some w' -> w' = w.
Proof.
  intros M C S. apply bv_const_spec in C as (_ & _ & _ & V & _). rewrite (sort_of_bitvec _ _ _ V) in S.
  by injection S.
Qed.

Lemma zero_extend_ok e a k : quantifier_free e -> value e = Unary (BvZeroExtend k) a ->
  ensures (simplify_bv_zero_extend simplify a k) (means (eval r e)).
Proof.
  intros Q V. unfold simplify_bv_zero_extend. apply bind_simplify; [operand|]. intros a' M.
  apply ensures_option_bind. intros w' S. cbv zeta. destruct (_ <=? _)%N; [apply ensures_bail|].
  pose proof (try_unary_means e _ a a' V M) as D. destruct (_ <? _)%N; [exact D|].
  destruct (bv_const_u128 a') as [[v w]|] eqn:C; [|exact D]. apply ensures_ret.
  rewrite (sort_width a a' v w w' M C S) in *.
  destruct (unary_bits e _ a a' v w _ _ V M C eq_refl) as [-> Wo]. apply means_bits; [done|].
  destruct (const_bits _ _ _ _ M C) as (_ & _ & R & _). apply Z.mod_small. unfold in_range, card in *.
  pose proof (Z.pow_le_mono_r 2 (Z.of_N w) (Z.of_N (w + k))). lia.
Qed.

Lemma land_mask_mod w z : (0 < w <= 128)%N -> Z.land z (bv_mask w) = z mod card w.
Proof.
  intros W. rewrite bv_mask_card by done.
  replace (card w - 1) with (Z.ones (Z.of_N w)) by (rewrite Z.ones_equiv; unfold card; lia).
  by rewrite Z.land_ones by lia.
Qed.

Lemma extract_ok e a high low : quantifier_free e -> value e = Unary (BvExtract high low) a ->
  ensures (simplify_bv_extract simplify a high low) (means (eval r e)).
Proof.
  intros Q V. unfold simplify_bv_extract. apply bind_simplify; [operand|]. intros a' M.
  apply ensures_option_bind. intros w' S. destruct (_ || _) eqn:B; [apply ensures_bail|].
  destruct (bv_const_u128 a') as [[v w]|] eqn:C; [|by eapply try_unary_means]. apply ensures_ret.
  rewrite (sort_width a a' v w w' M C S) in *.
  apply orb_false_iff in B as [[B1%N.ltb_ge B2%N.leb_gt]%orb_false_iff B3%N.leb_gt].
  destruct (unary_bits e _ a a' v w (high - low + 1) (bvextract high low v) V M C) as [-> Wo].
  { cbn. by rewrite (proj2 (N.leb_le _ _) B1), (proj2 (N.ltb_lt _ _) B2). }
  apply means_bits; [done|]. rewrite land_mask_mod by lia. rewrite Z.mod_mod by (pose proof (card_pos (high - low + 1)); lia).
  unfold bvextract. by rewrite Z.shiftr_div_pow2 by lia.
Qed.

Lemma mul_no_overflow_ok e lhs rhs : quantifier_free e -> value e = Binary BvMulNoOverflowUnsigned lhs rhs ->
  ensures (simplify_bv_mul_no_overflow_unsigned simplify facts lhs rhs) (means (eval r e)).
Proof.
  intros Q V. unfold simplify_bv_mul_no_overflow_unsigned.
  apply bind_simplify; [operand|]. intros a' Ma. apply bind_simplify; [operand|]. intros b' Mb.
  destruct (same_bitvec_sort a' b') eqn:S; [|apply ensures_bail]. cbn [negb].
  destruct (sides_bits lhs rhs a' b' Ma Mb S) as (w & x & y & Wk & Rx & Ry & Ex & Ey & Sw).
  apply ensures_option_bind. intros w' Sw'. rewrite Sw in Sw'. injection Sw' as <-. cbv zeta.
  pose proof (eval_mul_no_overflow r e lhs rhs w x y Hr V Rx Ry Ex Ey) as Ee.
  pose proof (try_binary_means e _ lhs rhs a' b' V Ma Mb) as D.
  destruct (_ || _) eqn:B; [exact D|].
  apply orb_false_iff in B as [B1%N.eqb_neq B2%N.ltb_ge].
  assert (W : (0 < w <= 128)%N) by lia. clear B1 B2.
  assert (One : ensures (match one_const_one_expr a' b' with
    | Some (constant, variable) =>
        if unsigned_bound_proves_mul_no_overflow variable constant w facts
        then mret (bool_const true) else of_option (try_binary BvMulNoOverflowUnsigned a' b')
    | None => of_option (try_binary BvMulNoOverflowUnsigned a' b') end) (means (eval r e))).
  { unfold one_const_one_expr. destruct Ma as [Qa Ea], Mb as [Qb Eb]. rewrite <- Ea in Ex. rewrite <- Eb in Ey.
    destruct (bv_const_u128 a') as [[c wc]|] eqn:Ca; [|destruct (bv_const_u128 b') as [[c wc]|] eqn:Cb; [|exact D]];
      (destruct (unsigned_bound_proves_mul_no_overflow _ c w facts) eqn:P; [|exact D]); apply ensures_ret;
      rewrite Ee.
    - apply bv_const_spec in Ca as (_ & _ & Rc & _ & Ec). specialize (Ec r).
      destruct (two_bits r a' w x wc c Rx Rc Ex Ec) as [-> ->].
      pose proof (bound_proves_mul r b' x w facts y Hf W (proj1 Rx) P Ry Ey).
      rewrite (proj2 (Z.ltb_lt _ _)) by lia. apply means_bool.
    - apply bv_const_spec in Cb as (_ & _ & Rc & _ & Ec). specialize (Ec r).
      destruct (two_bits r b' w y wc c Ry Rc Ey Ec) as [-> ->].
      pose proof (bound_proves_mul r a' y w facts x Hf W (proj1 Ry) P Rx Ex).
      rewrite (proj2 (Z.ltb_lt _ _)) by lia. apply means_bool. }
  destruct (bv_const_u128 a') as [[x' wx]|] eqn:Ca; [|exact One].
  destruct (bv_const_u128 b') as [[y' wy]|] eqn:Cb; [|exact One].
  destruct (N.eqb_spec wx wy) as [<-|]; [|apply ensures_bail]. cbn [negb]. apply ensures_ret.
  destruct (const_bits _ _ _ _ Ma Ca) as (_ & _ & Rx' & Ex'), (const_bits _ _ _ _ Mb Cb) as (_ & _ & Ry' & Ey').
  destruct (two_bits r lhs w x wx x' Rx Rx' Ex Ex') as [-> ->].
  destruct (two_bits r rhs w y w y' Ry Ry' Ey Ey') as [_ ->].
  rewrite mul_fits_sound, Ee by (done || apply Rx || apply Ry). apply means_bool.
Qed.

Lemma mod_128_mod w z : (0 < w <= 128)%N -> (z mod 2 ^ 128) mod card w = z mod card w.
Proof.
  intros W. apply Z.mod_mod_divide. unfold card. exists (2 ^ (128 - Z.of_N w)).
  rewrite <- Z.pow_add_r by lia. f_equal. lia.
Qed.

Lemma small_range w z : in_range w z -> z mod card w = z.
Proof. apply Z.mod_small. Qed.

Lemma bv_binary_ok e op lhs rhs m : quantifier_free e -> value e = Binary op lhs rhs ->
  simplify_bv_binary simplify facts op lhs rhs = Some m -> ensures m (means (eval r e)).
Proof.
  intros Q V S.
  assert (U : forall kind, unsigned_cmp e = Some (lhs, rhs, kind) -> forall f,
    (forall x y, f x y = cmp_holds kind x y) ->
    ensures (simplify_bv_cmp simplify facts lhs rhs kind f (try_binary op)) (means (eval r e)))
    by (intros; by eapply cmp_ok).
  unfold unsigned_cmp in U. rewrite V in U.
  destruct op; cbn [simplify_bv_binary] in S; try discriminate S; injection S as <-;
    try (apply U; [reflexivity|intros x y; cbn; lia]).
  all: try (by apply concat_ok). all: try (by apply mul_no_overflow_ok).
  all: try (apply signed_cmp_ok; [done|done|]; intros w x y W Rx Ry;
    destruct (signed_order_spec w x y W Rx Ry) as (S1 & S2 & S3 & S4); cbn [smt_binary]; by rewrite ?S1, ?S2, ?S3, ?S4).
  all: apply binop_ok; [done|done|]; intros w x y z W Rx Ry F; cbn [smt_binary]; f_equal; f_equal;
    pose proof (card_pos w) as P.
  - injection F as <-. unfold wrapping_add, bvadd. by rewrite land_mask_mod, Z.mod_mod, mod_128_mod by lia.
  - injection F as <-. unfold wrapping_sub, bvsub, bvadd, bvneg.
    rewrite land_mask_mod, Z.mod_mod, mod_128_mod by lia. rewrite Z.add_mod_idemp_r by lia.
    replace (x + (card w - y)) with (x - y + 1 * card w) by lia. by rewrite Z.mod_add by lia.
  - unfold checked_mul in F. destruct (_ <=? _); [|done]. injection F as <-. unfold bvmul.
    by rewrite land_mask_mod, Z.mod_mod by lia.
  - unfold bvurem. destruct (y =? 0) eqn:Y; [done|]. injection F as <-. apply Z.eqb_neq in Y.
    unfold in_range in *. rewrite (Z.mod_small (x mod y)); [done|]. pose proof (Z.mod_pos_bound x y). lia.
  - injection F as <-. by rewrite small_range by (by apply land_range).
  - injection F as <-. by rewrite small_range by (by apply lor_range).
  - injection F as <-. by rewrite small_range by (by apply lxor_range).
Qed.

(** ** The walker one level up *)

Lemma simplify_node_ok nesting e : quantifier_free e ->
  ensures (simplify_node nesting simplify select_simplified facts e) (means (eval r e)).
Proof.
  intros Q. unfold simplify_node. pose proof (simplify_rebuilt_ok e Q) as D.
  destruct (AyExpr.value e) as [| | |op a|op a b|a b|es|es|es|c t f|a i x| | | | | |] eqn:V; try exact D.
  - destruct op; try exact D.
    + by apply simplify_not_ok.
    + by apply zero_extend_ok.
    + by apply extract_ok.
    + by apply simplify_const_array_ok.
    + by apply simplify_selector_ok.
    + by apply simplify_tester_ok.
  - assert (B : ensures (default (simplify_rebuilt_children simplify e) (simplify_bv_binary simplify facts op a b))
      (means (eval r e))).
    { destruct (simplify_bv_binary simplify facts op a b) as [m|] eqn:S; [|exact D]. by eapply bv_binary_ok. }
    destruct op; try exact B. by apply simplify_select_ok.
  - destruct (eval_eq_bool r e a b V) as [t E]. rewrite E. apply simplify_eq_ok; [operand|operand|].
    by apply (eval_eq_iff r e a b t V).
  - destruct (eval_and_bool r e es Hr V) as (bs & M & ->). apply (simplify_nary_ok true). split; [|done].
    intros x Hx. apply (child_qf e); [done|]. by rewrite V.
  - destruct (eval_or_bool r e es Hr V) as (bs & M & ->). apply (simplify_nary_ok false). split; [|done].
    intros x Hx. apply (child_qf e); [done|]. by rewrite V.
  - by apply simplify_ite_ok.
  - by apply simplify_store_ok.
Qed.

End Arms.

(** ** The walkers *)

Context (grant : N -> bool).

Lemma ensures_visit_bind {B} (k : unit -> M B) P : ensures (k tt) P -> ensures (visit grant ≫= k) P.
Proof. intros Hk. apply (ensures_bind _ _ (fun _ => True)); [done|by intros []]. Qed.

Lemma walkers_ok nesting depth facts : holds r facts ->
  (forall e, quantifier_free e -> ensures (simplify_with_facts grant nesting depth facts e) (means (eval r e))) /\
  (forall a i, quantifier_free a -> quantifier_free i ->
     ensures (select_from_simplified grant nesting depth facts a i) (means (vselect (eval r a) (eval r i)))).
Proof.
  intros Hf. induction depth as [|depth [IHs IHl]]; split.
  - intros e _. apply ensures_visit_bind, ensures_bail.
  - intros a i _ _. apply ensures_visit_bind, ensures_bail.
  - intros e Q. apply ensures_visit_bind. by apply simplify_node_ok.
  - intros a i Qa Qi. apply ensures_visit_bind. by apply select_node_ok.
Qed.

Lemma simplify_ok nesting depth facts e : holds r facts -> quantifier_free e ->
  ensures (simplify_with_facts grant nesting depth facts e) (means (eval r e)).
Proof. intros Hf. by apply walkers_ok. Qed.

(** The valuation gives the bound variables the values of their bindings. *)
Definition env_ok (env : gmap string Expr) : Prop := forall n e, env !! n = Some e -> means (r n) e.

Lemma substitute_inner_ok depth env resolving e : env_ok env -> quantifier_free e ->
  ensures (substitute_inner grant depth env resolving e) (means (eval r e)).
Proof.
  intros He. revert resolving e. induction depth as [|depth IH]; intros resolving e Q;
    apply ensures_visit_bind; [apply ensures_bail|].
  assert (D : ensures (cs ← map_m (substitute_inner grant depth env resolving) (children e);
    mret (rebuild_with_children e cs)) (means (eval r e))).
  { eapply ensures_bind.
    - apply (ensures_map _ _ (fun c c' => means (eval r c) c')). intros c Hc. apply IH. by apply (child_qf e).
    - intros cs F. apply ensures_ret. by apply rebuild_means. }
  fold (substitute_inner grant depth). destruct (AyExpr.value e) as [n| | | | | | | | | | | | | | | |] eqn:V; try exact D.
  destruct (env !! n) as [x|] eqn:L; [|apply ensures_ret; by apply means_self].
  destruct (decide (n ∈ resolving)); [apply ensures_ret; by apply means_self|].
  destruct (He n x L) as [Qx Ex]. eapply ensures_bind; [by apply IH|]. intros y My.
  destruct (decide _); [|apply ensures_bail]. apply ensures_ret. rewrite (eval_var r e n V), <- Ex. exact My.
Qed.

Lemma substitute_ok depth env e : env_ok env -> quantifier_free e ->
  ensures (substitute grant depth e env) (means (eval r e)).
Proof. apply substitute_inner_ok. Qed.

End Spec.

End StraightlineSimplifySpec.
