(* ===== verification/Straightline.v ===== *)
(** * The straight-line prover

    [prove_straightline_safety_detailed] and [discharge_straightline_safety] of
    straightline_proof.rs.  The prover enumerates frames, the symbolic arguments a
    relation is reached with together with the facts of the path, until no rule adds
    one; when no error edge was feasible it answers for the system, and the
    discharge replaces it by an unsatisfiable one.  A set of frames is a list without
    duplicates in the order of insertion, which is one of the orders a [HashSet] may
    have; no result depends on it but through the number of visits.  [nesting] bounds
    the recursion of [apply_constraint] into the children of a conjunction, for which
    the source asks no visit of its own, and [rounds] the outer loop. *)

From S2P Require Import Prelude AyExpr AyBuild Chc HeapLiveness AyTry Visits PathFacts StraightlineSimplify.

Module Straightline.
Import AyBuild AyTry Visits PathFacts StraightlineSimplify.

Definition MAX_RULES : nat := 256.
Definition MAX_FRAMES_PER_RELATION : nat := 64.
Definition MAX_TOTAL_FRAMES : nat := 512.

Inductive StraightlineOutcome := NotProven | Safe | VacuousUnreachableChecks.
#[export] Instance StraightlineOutcome_eq_dec : EqDecision StraightlineOutcome.
Proof. solve_decision. Defined.

(** ** Constraints *)

Section Constraints.
Context `{AyTry} (grant : N -> bool) (nesting depth : nat).

Abbreviation Env := (gmap string Expr).
Abbreviation State := (Env * PathFacts)%type.
Abbreviation Step := (M (ConstraintStatus * State)).

Definition is_tautological_self_binding (env : Env) (name : string) (v : Expr) : bool :=
  match env !! name with
  | Some existing =>
      match value existing with
      | Var bound_name =>
          String.eqb bound_name name && bool_decide (sort_of existing = sort_of v) &&
          negb (expr_mentions_var v name)
      | _ => false
      end
  | None => false
  end.

Definition bind_env_var (env : Env) (facts : PathFacts) (name : string) (v : Expr) : Step :=
  if is_tautological_self_binding env name v then mret (Feasible, (<[name := v]> env, facts))
  else
    match env !! name with
    | Some existing =>
        eq ← attempt (simplify_alone grant nesting depth (mk_eq existing v));
        mret (match eq with
              | None => Unsupported
              | Some eq =>
                  match value eq with
                  | BoolConst true => Feasible
                  | BoolConst false => Infeasible
                  | _ => Unsupported
                  end
              end, (env, facts))
    | None => mret (Feasible, (<[name := v]> env, facts))
    end.

(** The [Eq] arm *)
Definition bind_sorted (lhs rhs : Expr) (st : State) (name : string) (v : Expr) : Step :=
  if bool_decide (sort_of lhs = sort_of rhs) then bind_env_var st.1 st.2 name v
  else mret (Unsupported, st).
Definition apply_eq (lhs rhs : Expr) (st : State) : Step :=
  let right :=
    match value rhs with
    | Var name => if negb (expr_mentions_var lhs name) then bind_sorted lhs rhs st name lhs
                  else mret (Feasible, st)
    | _ => mret (Feasible, st)
    end in
  match value lhs with
  | Var name => if negb (expr_mentions_var rhs name) then bind_sorted lhs rhs st name rhs else right
  | _ => right
  end.

(** [if let Some(status) = record_..(..) { return status; } k] *)
Definition recorded_or (st : State) (o : option (ConstraintStatus * PathFacts)) (k : Step) : Step :=
  match o with
  | Some (status, facts) => mret (status, (st.1, facts))
  | None => k
  end.

(** A comparison, or the negation of one *)
Definition apply_cmp (e : Expr) (is_negated : bool) (st : State) : Step :=
  recorded_or st (record_unsigned_upper_bound_from_cmp e is_negated st.2)
    (recorded_or st (record_unsigned_lower_bound_from_cmp e is_negated st.2)
       (mret (Feasible, st))).

Definition apply_not (inner : Expr) (st : State) : Step :=
  match value inner with
  | Eq lhs rhs => mret (Feasible, (st.1, add_disequality st.2 lhs rhs))
  | Var name =>
      if is_bool_sort (sort_of inner) then bind_env_var st.1 st.2 name (bool_const false)
      else apply_cmp inner true st
  | _ => apply_cmp inner true st
  end.

(** One pass of [apply_constraint_fixpoint]: whether something was unsupported, [None]
    when a constraint is infeasible. *)
Fixpoint apply_pass (apply : Expr -> State -> Step) (cs : list Expr) (saw_unsupported : bool) (st : State)
    : M (option bool * State) :=
  match cs with
  | [] => mret (Some saw_unsupported, st)
  | c :: cs =>
      '(status, st) ← apply c st;
      match (status : ConstraintStatus) with
      | Feasible => apply_pass apply cs saw_unsupported st
      | Infeasible => mret (None, st)
      | Unsupported => apply_pass apply cs true st
      end
  end.
Fixpoint apply_passes (apply : Expr -> State -> Step) (passes : nat) (cs : list Expr) (st : State) : Step :=
  match passes with
  | O => mret (Unsupported, st)
  | S passes =>
      '(o, st') ← apply_pass apply cs false st;
      match (o : option bool) with
      | None => mret (Infeasible, st')
      | Some saw_unsupported =>
          if decide (st' = st) then mret (if saw_unsupported then Unsupported else Feasible, st')
          else apply_passes apply passes cs st'
      end
  end.
Definition apply_constraint_fixpoint (apply : Expr -> State -> Step) (cs : list Expr) (st : State) : Step :=
  apply_passes apply (Nat.max (length cs * 4 + 8) 16) cs st.

(** [apply_constraint] after its [substitute] and [simplify_with_facts] *)
Definition apply_simplified (apply : Expr -> State -> Step) (simplified : Expr) (st : State) : Step :=
  match value simplified with
  | BoolConst false => mret (Infeasible, st)
  | Var name =>
      if is_bool_sort (sort_of simplified) then bind_env_var st.1 st.2 name (bool_const true)
      else mret (Feasible, st)
  | And es => apply_constraint_fixpoint apply es st
  | Eq lhs rhs => apply_eq lhs rhs st
  | Binary BvULt lhs rhs => recorded_or st (record_unsigned_upper_bound lhs rhs st.2) (mret (Feasible, st))
  | Binary (BvULe | BvUGt | BvUGe) _ _ => apply_cmp simplified false st
  | Unary Not inner => apply_not inner st
  | _ => mret (Feasible, st)
  end.

Fixpoint apply_constraint (nest : nat) (c : Expr) (st : State) : Step :=
  match nest with
  | O => mret (Unsupported, st)
  | S nest =>
      o ← attempt (substituted ← substitute grant depth c st.1;
                   simplify_with_facts grant nesting depth st.2 substituted);
      match o with
      | None => mret (Unsupported, st)
      | Some simplified => apply_simplified (apply_constraint nest) simplified st
      end
  end.

Definition apply_constraints (cs : Chc.Constraints) (st : State) : Step :=
  apply_constraint_fixpoint (apply_constraint nesting) (Chc.iter cs) st.

(** ** Frames *)

Record Frame := { frame_args : list Expr; frame_facts : PathFacts }.
#[export] Instance Frame_eq_dec : EqDecision Frame.
Proof. solve_decision. Defined.

Definition no_frame : Frame := {| frame_args := []; frame_facts := no_facts |}.

Fixpoint bind_args (args vals : list Expr) (env : Env) : option Env :=
  match args, vals with
  | arg :: args, v :: vals =>
      match value arg with
      | Var name => if decide (sort_of arg = sort_of v) then bind_args args vals (<[name := v]> env) else None
      | _ => None
      end
  | _, _ => Some env
  end.
Definition initial_env (body : option Chc.RelationApp) (frame : Frame) : option Env :=
  match body with
  | None => Some ∅
  | Some body =>
      if Nat.eqb (length (Chc.args body)) (length (frame_args frame))
      then bind_args (Chc.args body) (frame_args frame) ∅
      else None
  end.

Definition relation_sorts (vc : Chc.ChcVc) : gmap string (list Sort) :=
  foldl (fun sorts rel => <[Chc.rel_name rel := Chc.arg_sorts rel]> sorts) ∅ (Chc.relations vc).
Definition relation_args_match_decl (name : string) (args : list Expr) (sorts : gmap string (list Sort)) : bool :=
  match sorts !! name with
  | None => false
  | Some decl_sorts => bool_decide (map sort_of args = decl_sorts)
  end.

(** The body of the loop over the frames: [None] when the edge is pruned, the frame
    it reaches otherwise; the prover gives up with [bail]. *)
Definition walk_edge (sorts : gmap string (list Sort)) (rule : Chc.Rule) (frame : Frame) : M (option Frame) :=
  env ← of_option (initial_env (Chc.relation (Chc.body rule)) frame);
  '(status, (env, facts)) ← apply_constraints (Chc.constraints (Chc.body rule)) (env, frame_facts frame);
  match (status : ConstraintStatus) with
  | Infeasible => mret None
  | Unsupported => bail
  | Feasible =>
      if String.eqb (Chc.head_name rule) "error" then bail
      else
        head_args ← map_m (fun arg =>
          substituted ← substitute grant depth arg env;
          simplify_with_facts grant nesting depth facts substituted) (Chc.args (Chc.head rule));
        if relation_args_match_decl (Chc.head_name rule) head_args sorts
        then mret (Some {| frame_args := head_args; frame_facts := facts |})
        else bail
  end.

(** ** The enumeration *)

Abbreviation Frames := (gmap string (list Frame)).

Record Search := {
  reachable : Frames;
  worklist : list string;
  total_frames : nat;
  changed : bool;
}.

Definition search_start : Search := {| reachable := ∅; worklist := []; total_frames := 0; changed := false |}.

Definition frames_of (fs : Frames) (name : string) : list Frame := default [] (fs !! name).

(** [frames.insert(head_frame)] with the checks of the budgets *)
Definition insert_frame (name : string) (f : Frame) (s : Search) : M Search :=
  let frames := frames_of (reachable s) name in
  if decide (f ∈ frames) then mret s
  else if Nat.ltb MAX_FRAMES_PER_RELATION (S (length frames)) then bail
  else if Nat.ltb MAX_TOTAL_FRAMES (S (total_frames s)) then bail
  else mret {| reachable := <[name := frames ++ [f]]> (reachable s);
               worklist := worklist s ++ [name];
               total_frames := S (total_frames s);
               changed := true |}.

Definition body_frames (fs : Frames) (rule : Chc.Rule) : list Frame :=
  match Chc.relation (Chc.body rule) with
  | Some body => frames_of fs (Chc.app_name body)
  | None => [no_frame]
  end.

(** [for x in l { s = f(x, s)? }] *)
Fixpoint fold_m {A S} (f : A -> S -> M S) (l : list A) (s : S) : M S :=
  match l with
  | [] => mret s
  | x :: l => s ← f x s; fold_m f l s
  end.

Definition walk_frame (sorts : gmap string (list Sort)) (rule : Chc.Rule) (frame : Frame) (s : Search)
    : M Search :=
  edge ← walk_edge sorts rule frame;
  match (edge : option Frame) with
  | None => mret s
  | Some f => insert_frame (Chc.head_name rule) f s
  end.
Definition walk_rule (sorts : gmap string (list Sort)) (rule : Chc.Rule) (s : Search) : M Search :=
  fold_m (walk_frame sorts rule) (body_frames (reachable s) rule) s.
Definition search_round (sorts : gmap string (list Sort)) (rules : list Chc.Rule) (s : Search) : M Search :=
  fold_m (walk_rule sorts) rules
    {| reachable := reachable s; worklist := worklist s; total_frames := total_frames s; changed := false |}.

(** The [loop]; [None] when there are no rounds left. *)
Fixpoint saturate (sorts : gmap string (list Sort)) (rules : list Chc.Rule) (rounds : nat) (s : Search)
    : M (option Frames) :=
  match rounds with
  | O => mret None
  | S rounds =>
      s ← search_round sorts rules s;
      if negb (changed s) then mret (Some (reachable s))
      else
        match worklist s with
        | [] => mret (Some (reachable s))
        | _ :: worklist =>
            saturate sorts rules rounds {| reachable := reachable s; worklist := worklist;
                                           total_frames := total_frames s; changed := changed s |}
        end
  end.

Definition enumerate (rounds : nat) (vc : Chc.ChcVc) : M (option Frames) :=
  saturate (relation_sorts vc) (Chc.rules vc) rounds search_start.

End Constraints.

Arguments Search {_}.
Arguments Frame {_}.

(** ** Guards on the system *)

Section Guards.
Context `{AyTry}.

Definition mentions_havoc (e : Expr) : bool :=
  existsb (fun name => Str.contains name "__havoc_") (collect_expr_vars e).
Definition rule_mentions_havoc (rule : Chc.Rule) : bool :=
  existsb mentions_havoc (Chc.iter (Chc.constraints (Chc.body rule))) ||
  existsb mentions_havoc (Chc.args (Chc.head rule)).

Definition has_error_relation (vc : Chc.ChcVc) : bool :=
  existsb (fun rel => String.eqb (Chc.rel_name rel) "error") (Chc.relations vc).
Definition has_error_rule (vc : Chc.ChcVc) : bool :=
  existsb (fun rule => String.eqb (Chc.head_name rule) "error") (Chc.rules vc).

(** The adjacency lists of [loop_relations], with repetitions *)
Definition block_successors (rules : list Chc.Rule) : gmap string (list string) :=
  foldl (fun adj rule =>
    let head := Chc.head_name rule in
    if HeapLiveness.is_error_reachable_head head then adj
    else
      match Chc.body_name rule with
      | Some body =>
          if HeapLiveness.is_error_reachable_head body then adj
          else <[body := default [] (adj !! body) ++ [head]]> adj
      | None => adj
      end) ∅ rules.
Definition block_nodes (rules : list Chc.Rule) : gset string :=
  foldl (fun nodes rule =>
    let head := Chc.head_name rule in
    if HeapLiveness.is_error_reachable_head head then nodes
    else
      let nodes := {[head]} ∪ nodes in
      match Chc.body_name rule with
      | Some body => if HeapLiveness.is_error_reachable_head body then nodes else {[body]} ∪ nodes
      | None => nodes
      end) ∅ rules.

(** The search from a start; the stack has its top first. *)
Fixpoint stack_search (adj : gmap string (list string)) (fuel : nat) (start : string) (stack : list string)
    (seen : gset string) : bool :=
  match fuel with
  | O => false
  | S fuel =>
      match stack with
      | [] => false
      | node :: stack =>
          if String.eqb node start then true
          else if decide (node ∈ seen) then stack_search adj fuel start stack seen
          else stack_search adj fuel start (rev (default [] (adj !! node)) ++ stack) ({[node]} ∪ seen)
      end
  end.
Definition on_loop (rules : list Chc.Rule) (start : string) : bool :=
  let adj := block_successors rules in
  stack_search adj (S (2 * length rules)) start (rev (default [] (adj !! start))) ∅.
Definition loop_relations (vc : Chc.ChcVc) : gset string :=
  filter (fun start => on_loop (Chc.rules vc) start = true) (block_nodes (Chc.rules vc)).

(** The relations that are the head of a rule, not an error, and the body of none *)
Definition sinks (vc : Chc.ChcVc) : list string :=
  let body_relations : gset string := list_to_set (omap Chc.body_name (Chc.rules vc)) in
  List.filter (fun head => negb (HeapLiveness.is_error_reachable_head head) &&
                           negb (bool_decide (head ∈ body_relations)))
    (map Chc.head_name (Chc.rules vc)).

End Guards.

(** ** The prover *)

Section Prover.
Context `{AyTry} (grant : N -> bool) (nesting depth rounds : nat).

(** What is decided once the enumeration has ended *)
Definition outcome_of (vc : Chc.ChcVc) (reachable : gmap string (list Frame)) : StraightlineOutcome :=
  if existsb (fun rel => negb (bool_decide (is_Some (reachable !! rel)))) (elements (loop_relations vc))
  then NotProven
  else
    let any_exit_reachable :=
      existsb (fun sink => match reachable !! sink with Some (_ :: _) => true | _ => false end) (sinks vc) in
    if negb (bool_decide (sinks vc = [])) && negb any_exit_reachable then VacuousUnreachableChecks else Safe.

Definition prove_straightline_safety_detailed (vc : Chc.ChcVc) : StraightlineOutcome :=
  if Nat.ltb MAX_RULES (length (Chc.rules vc)) then NotProven
  else if existsb rule_mentions_havoc (Chc.rules vc) then NotProven
  else if negb (has_error_rule vc) then NotProven
  else
    match (enumerate grant nesting depth rounds vc 0%N).1 with
    | Some (Some reachable) => outcome_of vc reachable
    | _ => NotProven
    end.
Definition prove_straightline_safety (vc : Chc.ChcVc) : bool :=
  negb (bool_decide (prove_straightline_safety_detailed vc = NotProven)).

(** ** The discharge *)

Definition replace_with_unsat_error_obligation (vc : Chc.ChcVc) : Chc.ChcVc :=
  let relations :=
    if has_error_relation vc then Chc.relations vc
    else Chc.relations vc ++ [Chc.RelationDecl_nullary "error"] in
  Chc.set_rules relations
    [{| Chc.body := Chc.RuleBody_new None [bool_const false]; Chc.head := Chc.RelationApp_nullary "error" |}] vc.

Definition set_discharged (discharged vacuous : bool) (vc : Chc.ChcVc) : Chc.ChcVc := {|
  Chc.decls := Chc.decls vc; Chc.vars := Chc.vars vc; Chc.declared_var_names := Chc.declared_var_names vc;
  Chc.relations := Chc.relations vc; Chc.rules := Chc.rules vc; Chc.query := Chc.query vc;
  Chc.cover_assertions := Chc.cover_assertions vc; Chc.properties := Chc.properties vc;
  Chc.trivially_safe_discharged := discharged; Chc.vacuous_all_checks_unreachable := vacuous;
  Chc.approximated_vars := Chc.approximated_vars vc;
  Chc.accounted_approximations := Chc.accounted_approximations vc;
  Chc.approximation_identity_complete := Chc.approximation_identity_complete vc |}.

(** [name.split_once("__bb")] of the first relation that has one *)
Definition vacuous_fn_name (vc : Chc.ChcVc) : string :=
  default "unknown" (head (omap (fun rel => Str.before (Chc.rel_name rel) "__bb") (Chc.relations vc))).

(** [discharge_straightline_safety]: the result, the system afterwards, and the
    functions recorded with [record_vacuous_checks_for_fn]. *)
Definition discharge_straightline_safety (vc : Chc.ChcVc) : bool * Chc.ChcVc * list string :=
  let discharged vacuous recorded :=
    (true, set_discharged true vacuous (replace_with_unsat_error_obligation vc), recorded) in
  if has_error_rule vc then
    match prove_straightline_safety_detailed vc with
    | NotProven => (false, vc, [])
    | Safe => discharged (Chc.vacuous_all_checks_unreachable vc) []
    | VacuousUnreachableChecks => discharged true [vacuous_fn_name vc]
    end
  else if negb (has_error_relation vc) then (false, vc, [])
  else
    match Chc.properties vc with
    | [] => discharged (Chc.vacuous_all_checks_unreachable vc) []
    | _ => (false, vc, [])
    end.

End Prover.

(** The budgets of the source *)
Definition MAX_NESTING : nat := S (N.to_nat MAX_STRAIGHTLINE_NODE_VISITS).
Definition MAX_ROUNDS : nat := S (S MAX_TOTAL_FRAMES).

End Straightline.
