(* ===== verification/StraightlineSpec.v ===== *)
(** * Correctness of the straight-line prover

    A rule fires under a valuation of its own variables; a frame speaks of the
    variables of the rules it came through.  When the two do not clash
    ([capture_free]) one valuation serves both, and following the constraints keeps
    it a model of the bindings and the facts.  The frames of a saturated enumeration
    then cover every derivable fact. *)

From S2P Require Import Prelude AyExpr Chc AyBuild HeapLiveness Visits AyTry PathFacts StraightlineSimplify Straightline.

Module StraightlineSpec.
Import AyBuild AyTry Visits PathFacts StraightlineSimplify StraightlineSimplifySpec Straightline.

Section Constraints.
Context `{AyTryEval} (grant : N -> bool) (nesting depth : nat).
Context (r : string -> val) (Hr : admissible r).

(** What a step leaves behind under a valuation that satisfies its constraints *)
Definition good (result : ConstraintStatus * (gmap string Expr * PathFacts)) : Prop :=
  result.1 <> Infeasible /\ env_ok r result.2.1 /\ holds r result.2.2.

Lemma good_ret status env facts : status <> Infeasible -> env_ok r env -> holds r facts ->
  ensures (mret (status, (env, facts))) good.
Proof. intros S E F. by apply ensures_ret. Qed.

Lemma env_insert env n v : env_ok r env -> means r (r n) v -> env_ok r (<[n := v]> env).
Proof. intros He M m e [[<- <-]|[_ L]]%lookup_insert_Some; [done|by apply He]. Qed.

Lemma bind_ok env facts n v : env_ok r env -> holds r facts -> means r (r n) v ->
  ensures (bind_env_var grant nesting depth env facts n v) good.
Proof.
  intros He Hf M. unfold bind_env_var.
  destruct (is_tautological_self_binding _ _ _); [apply good_ret; [done|by apply env_insert|done]|].
  destruct (env !! n) as [x|] eqn:L; [|apply good_ret; [done|by apply env_insert|done]].
  destruct (He n x L) as [Qx Ex], M as [Qv Ev].
  destruct (eval_mk_eq r x v) as (t & Et & T). rewrite Ex, Ev in T.
  assert (Q : quantifier_free (mk_eq x v)).
  { eapply qf_built; [apply built_eq|]. by repeat (apply List.Forall_cons; [done|]). }
  eapply (ensures_bind _ _ (fun o => match o with Some y => means r (vbool true) y | None => True end)).
  - apply (ensures_attempt _ (fun o => match o with Some y => means r (vbool true) y | None => True end)); [|done].
    eapply ensures_weaken; [by apply (simplify_ok r Hr); [apply no_facts_hold|]|]. cbn. intros y My.
    rewrite Et, (proj2 T) in My by done. exact My.
  - intros o Ho. apply good_ret; [|done|done]. destruct o as [y|]; [|done].
    destruct (value y) as [|b| | | | | | | | | | | | | | |] eqn:V; try done.
    pose proof (means_bool_value r _ _ _ Ho V) as ->. done.
Qed.

Lemma means_true_eq e a b : value e = Eq a b -> is_true (eval r e) -> eval r a = eval r b.
Proof. intros V T. by apply (eval_eq r e a b V). Qed.

Lemma apply_eq_ok e lhs rhs st : quantifier_free e -> value e = Eq lhs rhs -> is_true (eval r e) ->
  env_ok r st.1 -> holds r st.2 -> ensures (apply_eq grant nesting depth lhs rhs st) good.
Proof.
  intros Q V T He Hf. pose proof (means_true_eq e lhs rhs V T) as E.
  assert (Ql : quantifier_free lhs) by (apply (qf_child e); [done|unfold children; rewrite V; left]).
  assert (Qr : quantifier_free rhs) by (apply (qf_child e); [done|unfold children; rewrite V; right; left]).
  assert (Ret : ensures (mret (Feasible, st)) good) by (by apply ensures_ret).
  assert (Bs : forall n v, means r (r n) v -> ensures (bind_sorted grant nesting depth lhs rhs st n v) good).
  { intros n v M. unfold bind_sorted. destruct (bool_decide _); [by apply bind_ok|by apply ensures_ret]. }
  assert (Right : ensures (match value rhs with
    | Var name => if negb (expr_mentions_var lhs name) then bind_sorted grant nesting depth lhs rhs st name lhs
                  else mret (Feasible, st)
    | _ => mret (Feasible, st) end) good).
  { destruct (value rhs) as [n| | | | | | | | | | | | | | | |] eqn:Vr; try exact Ret.
    destruct (negb _); [|exact Ret]. apply Bs. split; [done|]. by rewrite E, (eval_var r rhs n Vr). }
  unfold apply_eq. destruct (value lhs) as [n| | | | | | | | | | | | | | | |] eqn:Vl; try exact Right.
  destruct (negb _); [|exact Right]. apply Bs. split; [done|]. by rewrite <- E, (eval_var r lhs n Vl).
Qed.

Lemma recorded_or_ok st o k : env_ok r st.1 -> (forall res, o = Some res -> recorded r res) ->
  ensures k good -> ensures (recorded_or st o k) good.
Proof.
  intros He Ho Hk. unfold recorded_or. destruct o as [[status facts]|]; [|done]. specialize (Ho _ eq_refl).
  cbn in Ho. by destruct status; [apply good_ret|destruct Ho|apply good_ret].
Qed.

Lemma apply_cmp_ok e is_negated st : eval r e = vbool (negb is_negated) -> env_ok r st.1 -> holds r st.2 ->
  ensures (apply_cmp e is_negated st) good.
Proof.
  intros E He Hf. unfold apply_cmp.
  apply recorded_or_ok; [done|intros res R; by eapply record_upper_cmp_sound|].
  apply recorded_or_ok; [done|intros res R; by eapply record_lower_cmp_sound|]. by apply ensures_ret.
Qed.

Lemma apply_not_ok e inner st : value e = Unary Not inner -> is_true (eval r e) ->
  env_ok r st.1 -> holds r st.2 -> ensures (apply_not grant nesting depth inner st) good.
Proof.
  intros V T He Hf. destruct (eval_not r e inner Hr V) as (b & Eb & Ee). rewrite Ee in T.
  apply is_true_vbool in T. apply negb_true_iff in T as ->.
  assert (D : ensures (apply_cmp inner true st) good) by (by apply apply_cmp_ok).
  unfold apply_not. destruct (value inner) as [n| | | | |lhs rhs| | | | | | | | | | |] eqn:Vi; try exact D.
  - destruct (is_bool_sort _); [|exact D]. apply bind_ok; [done|done|].
    rewrite <- (eval_var r inner n Vi), Eb. apply means_bool.
  - destruct st as [env facts]. apply good_ret; [done|done|]. apply add_disequality_holds; [done|].
    intros E. apply (eval_eq_iff r inner lhs rhs false Vi) in E; done.
Qed.

(** ** The loop over the constraints *)

Section Loop.
Context (apply : Expr -> gmap string Expr * PathFacts -> M (ConstraintStatus * (gmap string Expr * PathFacts))).
Context (apply_ok : forall c st, quantifier_free c -> is_true (eval r c) -> env_ok r st.1 -> holds r st.2 ->
  ensures (apply c st) good).

Lemma apply_pass_ok cs saw st : (forall c, c ∈ cs -> quantifier_free c /\ is_true (eval r c)) ->
  env_ok r st.1 -> holds r st.2 ->
  ensures (apply_pass apply cs saw st) (fun '(o, st') => o <> None /\ env_ok r st'.1 /\ holds r st'.2).
Proof.
  revert saw st. induction cs as [|c cs IH]; intros saw st Hcs He Hf; cbn [apply_pass].
  { by apply ensures_ret. }
  destruct (Hcs c) as [Q T]; [left|]. eapply ensures_bind; [by apply apply_ok|].
  intros [status st'] (S & He' & Hf'). cbn in *.
  assert (Hcs' : forall c, c ∈ cs -> quantifier_free c /\ is_true (eval r c)) by (intros x Hx; apply Hcs; by right).
  by destruct status; [apply IH|destruct S|apply IH].
Qed.

Lemma apply_passes_ok passes cs st : (forall c, c ∈ cs -> quantifier_free c /\ is_true (eval r c)) ->
  env_ok r st.1 -> holds r st.2 -> ensures (apply_passes apply passes cs st) good.
Proof.
  revert st. induction passes as [|passes IH]; intros st Hcs He Hf; cbn [apply_passes].
  { by apply ensures_ret. }
  eapply ensures_bind; [by apply apply_pass_ok|]. intros [[saw|] st'] (No & He' & Hf'); [|done].
  destruct (decide _); [|by apply IH]. apply ensures_ret. by destruct saw.
Qed.

Lemma apply_simplified_ok c st : quantifier_free c -> is_true (eval r c) -> env_ok r st.1 -> holds r st.2 ->
  ensures (apply_simplified grant nesting depth apply c st) good.
Proof.
  intros Q T He Hf. unfold apply_simplified. assert (D : ensures (mret (Feasible, st)) good) by (by apply ensures_ret).
  destruct (value c) as [n|b| |op a|op a b|a b|es| | | | | | | | | |] eqn:V; try exact D.
  - destruct (is_bool_sort (sort_of c)) eqn:S; [|exact D]. destruct (bool_of_sort r c Hr S) as [b E].
    rewrite E in T. apply is_true_vbool in T as ->. apply bind_ok; [done|done|].
    rewrite <- (eval_var r c n V), E. apply means_bool.
  - destruct b; [exact D|]. by destruct (eval_false r c V).
  - destruct op; try exact D. by eapply apply_not_ok.
  - assert (C : ensures (apply_cmp c false st) good).
    { destruct (read_cmp c false) as [res|] eqn:Rd.
      - destruct (read_cmp_bool r Hr c false res Rd) as [t E]. rewrite E in T.
        apply is_true_vbool in T as ->. by apply apply_cmp_ok.
      - unfold apply_cmp, record_unsigned_upper_bound_from_cmp, record_unsigned_lower_bound_from_cmp,
          unsigned_upper_bound_from_cmp, unsigned_lower_bound_from_cmp. rewrite Rd. exact D. }
    destruct op; try exact D; try exact C.
    apply recorded_or_ok; [done| |exact D]. intros res R. by eapply record_upper_sound.
  - by eapply apply_eq_ok.
  - apply apply_passes_ok; [|done|done]. intros x Hx. split; [|by eapply eval_and].
    apply (qf_child c); [done|]. unfold children. by rewrite V.
Qed.

End Loop.

Lemma apply_constraint_ok nest c st : quantifier_free c -> is_true (eval r c) -> env_ok r st.1 ->
  holds r st.2 -> ensures (apply_constraint grant nesting depth nest c st) good.
Proof.
  revert c st. induction nest as [|nest IH]; intros c st Q T He Hf; cbn [apply_constraint].
  { by apply ensures_ret. }
  eapply (ensures_bind _ _ (fun o => match o with Some y => means r (eval r c) y | None => True end)).
  - apply (ensures_attempt _ (fun o => match o with Some y => means r (eval r c) y | None => True end)); [|done].
    eapply ensures_bind; [by apply (substitute_ok r)|]. intros y [Qy <-]. by apply simplify_ok.
  - intros [y|] Hy; [|by apply ensures_ret]. destruct Hy as [Qy Ey].
    apply apply_simplified_ok; [exact IH|done|by rewrite Ey|done|done].
Qed.

Lemma apply_constraints_ok cs st : (forall c, c ∈ Chc.iter cs -> quantifier_free c /\ is_true (eval r c)) ->
  env_ok r st.1 -> holds r st.2 -> ensures (apply_constraints grant nesting depth cs st) good.
Proof.
  intros Hcs He Hf. unfold apply_constraints, apply_constraint_fixpoint.
  exact (apply_passes_ok _ (fun c st' => apply_constraint_ok nesting c st') _ _ _ Hcs He Hf).
Qed.

(** ** An edge *)

Lemma bind_args_ok args vals env env' : bind_args args vals env = Some env' -> env_ok r env ->
  List.Forall2 (fun a v => means r (eval r a) v) args vals -> env_ok r env'.
Proof.
  intros B He F. revert env He B. induction F as [|a v args vals M F IH]; intros env He B; cbn in B.
  { by injection B as <-. }
  destruct (value a) as [n| | | | | | | | | | | | | | | |] eqn:V; try discriminate B.
  destruct (decide _); [|discriminate B].
  apply (IH (<[n := v]> env)); [|exact B]. apply env_insert; [done|]. rewrite <- (eval_var r a n V). exact M.
Qed.

Definition body_values (rule : Chc.Rule) (frame : Frame) : Prop :=
  forall app, Chc.relation (Chc.body rule) = Some app ->
  length (Chc.args app) = length (frame_args frame) ->
  List.Forall2 (fun a v => means r (eval r a) v) (Chc.args app) (frame_args frame).

Lemma initial_env_ok rule frame env : initial_env (Chc.relation (Chc.body rule)) frame = Some env ->
  body_values rule frame -> env_ok r env.
Proof.
  assert (E0 : env_ok r ∅) by (intros n e L; by rewrite lookup_empty in L).
  unfold initial_env. intros E B. destruct (Chc.relation (Chc.body rule)) as [app|] eqn:R; [|by injection E as <-].
  destruct (Nat.eqb_spec (length (Chc.args app)) (length (frame_args frame))) as [L|]; [|done].
  eapply bind_args_ok; [exact E|done|by apply B].
Qed.

(** What a frame says under a valuation *)
Definition frame_ok (f : Frame) (vs : list val) : Prop :=
  (forall e, e ∈ frame_args f -> quantifier_free e) /\ holds r (frame_facts f) /\
  map (eval r) (frame_args f) = vs.

Definition rule_qf (rule : Chc.Rule) : Prop :=
  forall e, e ∈ Chc.iter (Chc.constraints (Chc.body rule)) ++ Chc.args (Chc.head rule) -> quantifier_free e.

Lemma head_args_ok env facts args : env_ok r env -> holds r facts -> (forall e, e ∈ args -> quantifier_free e) ->
  ensures (map_m (fun arg => substituted ← substitute grant depth arg env;
                             simplify_with_facts grant nesting depth facts substituted) args)
    (fun out => frame_ok {| frame_args := out; frame_facts := facts |} (map (eval r) args)).
Proof.
  intros He Hf Q. eapply ensures_weaken.
  - apply (ensures_map _ _ (fun a v => means r (eval r a) v)). intros a Ha.
    eapply ensures_bind; [apply (substitute_ok r); [done|by apply Q]|]. intros y [Qy <-]. by apply simplify_ok.
  - cbn. intros out F. split; [|split; [done|]]; cbn.
    + intros e He'. apply list_elem_of_lookup_1 in He' as [i Hi].
      destruct (Forall2_lookup_r _ _ _ _ _ F Hi) as (x & _ & M). apply M.
    + clear Q. induction F as [|a v args out [_ E] _ IH]; cbn; [done|]. by rewrite E, IH.
Qed.

(** An edge whose constraints hold is not pruned and does not go to an error. *)
Lemma walk_edge_ok sorts rule frame : rule_qf rule -> body_values rule frame -> holds r (frame_facts frame) ->
  (forall c, c ∈ Chc.iter (Chc.constraints (Chc.body rule)) -> is_true (eval r c)) ->
  ensures (walk_edge grant nesting depth sorts rule frame) (fun o => exists f, o = Some f /\
    Chc.head_name rule <> "error" /\ frame_ok f (map (eval r) (Chc.args (Chc.head rule)))).
Proof.
  intros Q B Hf T. unfold walk_edge. apply ensures_option_bind. intros env E.
  eapply ensures_bind.
  { apply apply_constraints_ok; [|by eapply initial_env_ok|done]. intros c Hc. split; [|by apply T].
    apply Q. apply elem_of_app. by left. }
  intros [status [env' facts]] (S & He & Hfs). cbn in S, He, Hfs.
  destruct status; [|by destruct S|apply ensures_bail].
  destruct (String.eqb_spec (Chc.head_name rule) "error") as [|Ne]; [apply ensures_bail|].
  eapply ensures_bind; [apply head_args_ok; [done|done|]|].
  { intros e He'. apply Q. apply elem_of_app. by right. }
  intros out F. destruct (relation_args_match_decl _ _ _); [|apply ensures_bail]. apply ensures_ret.
  by eexists.
Qed.

End Constraints.

(** ** One valuation for the frame and the rule *)

Section Joint.
Context `{AyTryEval}.

Definition frame_exprs (f : Frame) : list Expr :=
  frame_args f ++
  flat_map (fun '(a, b) => [a; b]) (disequalities (frame_facts f)) ++
  map (fun b => b.1.1) (unsigned_upper_bounds (frame_facts f) ++ unsigned_lower_bounds (frame_facts f)).
Definition rule_exprs (rule : Chc.Rule) : list Expr :=
  Chc.iter (Chc.constraints (Chc.body rule)) ++ Chc.args (Chc.head rule) ++
  match Chc.relation (Chc.body rule) with Some app => Chc.args app | None => [] end.
Definition mentioned (es : list Expr) (n : string) : bool := existsb (fun e => expr_mentions_var e n) es.

Definition is_var (e : Expr) (n : string) : bool :=
  match value e with Var m => String.eqb m n | _ => false end.

(** A variable of the frame does not occur in the rule, unless as an argument of the
    body that the frame gives the very same variable. *)
Definition capture_free_edge (rule : Chc.Rule) (args : list Expr) (f : Frame) : bool :=
  forallb (fun n => negb (mentioned (rule_exprs rule) n) ||
                    existsb (fun '(a, v) => is_var a n && is_var v n) (combine args (frame_args f)))
    (flat_map collect_expr_vars (frame_exprs f)).
Definition capture_free (rules : list Chc.Rule) (fs : gmap string (list Frame)) : bool :=
  forallb (fun rule =>
    match Chc.relation (Chc.body rule) with
    | Some app => forallb (capture_free_edge rule (Chc.args app)) (frames_of fs (Chc.app_name app))
    | None => true
    end) rules.

Lemma mentions_occurs e n : expr_mentions_var e n = true <-> occurs n e.
Proof.
  unfold expr_mentions_var. rewrite <- collect_expr_vars_occurs, list_elem_of_In, existsb_exists.
  split; [by intros (m & Hm & ->%String.eqb_eq)|]. intros Hn. exists n. by rewrite String.eqb_refl.
Qed.

Lemma mentioned_iff es n : mentioned es n = true <-> exists e, e ∈ es /\ occurs n e.
Proof.
  unfold mentioned. rewrite existsb_exists. split; intros (e & He & Hn); exists e.
  - split; [by apply list_elem_of_In|by apply mentions_occurs].
  - split; [by apply list_elem_of_In|by apply mentions_occurs].
Qed.

Lemma is_var_value e n : is_var e n = true -> value e = Var n.
Proof. unfold is_var. destruct (value e); try done. by intros ->%String.eqb_eq. Qed.

Lemma combine_zip {A B} (l : list A) (k : list B) : combine l k = zip l k.
Proof. revert k. induction l as [|x l IH]; intros [|y k]; cbn; [done..|]. by rewrite IH. Qed.

(** Values of expressions of the frame come from the frame's valuation. *)
Definition joint (f : Frame) (rf rr : string -> val) : string -> val := override (mentioned (frame_exprs f)) rf rr.

Lemma joint_frame f rf rr e : e ∈ frame_exprs f -> eval (joint f rf rr) e = eval rf e.
Proof.
  intros He. apply eval_ext. intros n Hn. unfold joint, override.
  by rewrite (proj2 (mentioned_iff _ n)) by eauto.
Qed.

Lemma joint_facts f rf rr : holds rf (frame_facts f) -> holds (joint f rf rr) (frame_facts f).
Proof.
  apply holds_ext. intros n Hn. unfold joint, override. rewrite (proj2 (mentioned_iff _ n)); [done|].
  unfold frame_exprs. destruct Hn as [(a & b & Hab & O)|(e & bd & w & He & O)].
  - destruct O as [O|O]; [exists a|exists b]; (split; [|done]); apply elem_of_app; right; apply elem_of_app; left;
      apply elem_of_flat_map; exists (a, b); (split; [done|]); rewrite !elem_of_cons; auto.
  - exists e. split; [|done]. apply elem_of_app; right; apply elem_of_app; right.
    apply list_elem_of_fmap. by exists (e, bd, w).
Qed.

Lemma joint_rule rule app f rf rr : Chc.relation (Chc.body rule) = Some app ->
  capture_free_edge rule (Chc.args app) f = true ->
  map (eval rr) (Chc.args app) = map (eval rf) (frame_args f) ->
  forall e, e ∈ rule_exprs rule -> eval (joint f rf rr) e = eval rr e.
Proof.
  intros R C E e He. apply eval_ext. intros n Hn. unfold joint, override.
  destruct (mentioned (frame_exprs f) n) eqn:M; [|done]. apply mentioned_iff in M as (x & Hx & Ox).
  unfold capture_free_edge in C. rewrite forallb_forall in C. specialize (C n).
  rewrite (proj2 (mentioned_iff (rule_exprs rule) n)) in C by eauto. cbn [negb orb] in C.
  assert (Hin : In n (flat_map collect_expr_vars (frame_exprs f))).
  { apply list_elem_of_In, elem_of_flat_map. exists x. by rewrite collect_expr_vars_occurs. }
  apply C, existsb_exists in Hin as ([a v] & Hav & [Va%is_var_value Vv%is_var_value]%andb_true_iff).
  rewrite <- (eval_var rr a n Va), <- (eval_var rf v n Vv). symmetry.
  apply list_elem_of_In in Hav. rewrite combine_zip in Hav. apply list_elem_of_lookup_1 in Hav as [i Hi].
  apply lookup_zip_with_Some in Hi as (a' & v' & [= <- <-] & Ha & Hv).
  apply (f_equal (fun l => l !! i)) in E. rewrite !list_lookup_fmap, Ha, Hv in E. cbn in E. congruence.
Qed.

End Joint.

End StraightlineSpec.
