(* ===== verification/StraightlineSearch.v ===== *)
(** * The enumeration of the straight-line prover

    The rounds end, and the frames of a search that has ended cover every fact the
    rules derive, as long as no variable is captured. *)

From S2P Require Import Prelude AyExpr Chc AyBuild HeapLiveness Visits AyTry PathFacts StraightlineSimplify Straightline StraightlineSpec.

Module StraightlineSearch.
Import AyBuild AyTry Visits PathFacts StraightlineSimplify StraightlineSimplifySpec Straightline StraightlineSpec.

(** ** Computations that stop *)

Lemma bind_Some {A B} (m : M A) (k : A -> M B) n b n' : (m ≫= k) n = (Some b, n') ->
  exists a n1, m n = (Some a, n1) /\ k a n1 = (Some b, n').
Proof. unfold mbind, M_bind. destruct (m n) as [[a|] n1]; [|done]. eauto. Qed.

Section Search.
Context `{AyTry} (grant : N -> bool) (nesting depth : nat) (sorts : gmap string (list Sort)).

Abbreviation Walk A := (A -> Search -> M Search).

Definition preserves {A} (f : Walk A) (J : Search -> Prop) : Prop :=
  forall x s n s' n', f x s n = (Some s', n') -> J s -> J s'.

Lemma fold_preserves {A} (f : Walk A) J : preserves f J -> preserves (fold_m f) J.
Proof.
  intros Hf l. induction l as [|x l IH]; intros s n s' n' E Js; cbn in E.
  - by injection E as -> ->.
  - apply bind_Some in E as (s1 & n1 & E1 & E2). eapply IH; [exact E2|]. by eapply Hf.
Qed.

(** A walk that changes nothing leaves the search as it was, and something holds of
    what it walked. *)
Definition quiet {A} (f : Walk A) (P : Search -> A -> Prop) : Prop :=
  forall x s n s' n', f x s n = (Some s', n') ->
  (changed s = true -> changed s' = true) /\ (changed s' = false -> s' = s /\ P s x).

Lemma fold_quiet {A} (f : Walk A) P : quiet f P -> quiet (fold_m f) (fun s l => forall x, x ∈ l -> P s x).
Proof.
  intros Hf l. induction l as [|x l IH]; intros s n s' n' E; cbn in E.
  - injection E as -> ->. split; [done|]. intros _. split; [done|]. intros x Hx. by apply elem_of_nil in Hx.
  - apply bind_Some in E as (s1 & n1 & E1 & E2). destruct (Hf _ _ _ _ _ E1) as [M1 Q1].
    destruct (IH _ _ _ _ E2) as [M2 Q2]. split; [auto|]. intros C.
    destruct (Q2 C) as [-> P2]. destruct (Q1 C) as [-> P1]. split; [done|].
    intros y [->|Hy]%elem_of_cons; [done|by apply P2].
Qed.

(** ** One frame *)

(** The walk of a frame through a rule adds nothing to these frames. *)
Definition settled (fs : gmap string (list Frame)) (rule : Chc.Rule) (frame : Frame) : Prop :=
  exists n n' o, walk_edge grant nesting depth sorts rule frame n = (Some o, n') /\
  forall f, o = Some f -> f ∈ frames_of fs (Chc.head_name rule).

Lemma insert_quiet name f s n s' n' : insert_frame name f s n = (Some s', n') ->
  (changed s = true -> changed s' = true) /\ (changed s' = false -> s' = s /\ f ∈ frames_of (reachable s) name).
Proof.
  unfold insert_frame. destruct (decide _); [intros [= <- <-]; done|].
  destruct (Nat.ltb _ _); [done|]. destruct (Nat.ltb _ _); [done|]. by intros [= <- <-].
Qed.

Lemma frame_quiet rule : quiet (walk_frame grant nesting depth sorts rule)
  (fun s frame => settled (reachable s) rule frame).
Proof.
  intros frame s n s' n' E. apply bind_Some in E as (o & n1 & E1 & E2). destruct o as [f|].
  - destruct (insert_quiet _ _ _ _ _ _ E2) as [M Q]. split; [done|]. intros C. destruct (Q C) as [-> Hf].
    split; [done|]. exists n, n1, (Some f). split; [done|]. by intros f' [= <-].
  - injection E2 as -> ->. split; [done|]. intros _. split; [done|]. by exists n, n', None.
Qed.

Lemma rule_quiet : quiet (walk_rule grant nesting depth sorts)
  (fun s rule => forall frame, frame ∈ body_frames (reachable s) rule -> settled (reachable s) rule frame).
Proof.
  intros rule s n s' n' E. exact (fold_quiet _ _ (frame_quiet rule) _ _ _ _ _ E).
Qed.

(** ** The rounds *)

Definition fresh_round (s : Search) : Search :=
  {| reachable := reachable s; worklist := worklist s; total_frames := total_frames s; changed := false |}.

Lemma round_quiet rules s n s' n' : search_round grant nesting depth sorts rules s n = (Some s', n') ->
  changed s' = false -> reachable s' = reachable s /\
  forall rule frame, rule ∈ rules -> frame ∈ body_frames (reachable s) rule -> settled (reachable s) rule frame.
Proof.
  intros E C. destruct (fold_quiet _ _ rule_quiet _ _ _ _ _ E) as [_ Q]. destruct (Q C) as [-> P].
  split; [done|]. intros rule frame Hr Hf. exact (P rule Hr frame Hf).
Qed.

(** What a round does to the counters: the frames found since a search [s0] are
    counted, and are on the worklist. *)
Definition counted (s0 s : Search) : Prop :=
  (total_frames s0 <= total_frames s <= MAX_TOTAL_FRAMES)%nat /\
  (changed s = true -> (total_frames s0 < total_frames s)%nat /\ worklist s <> []).

Lemma insert_counted s0 name f s n s' n' :
  insert_frame name f s n = (Some s', n') -> counted s0 s -> counted s0 s'.
Proof.
  unfold insert_frame, counted. destruct (decide _); [by intros [= <- <-]|].
  destruct (Nat.ltb _ _); [done|]. destruct (Nat.ltb_spec MAX_TOTAL_FRAMES (S (total_frames s))) as [|L]; [done|].
  intros [= <- <-] [B _]. cbn [total_frames changed worklist]. split; [lia|]. intros _. split; [lia|].
  by destruct (worklist s).
Qed.

Lemma round_counted rules s n s' n' : (total_frames s <= MAX_TOTAL_FRAMES)%nat ->
  search_round grant nesting depth sorts rules s n = (Some s', n') -> counted s s'.
Proof.
  intros B E. unfold search_round in E.
  assert (P : preserves (walk_rule grant nesting depth sorts) (counted s)).
  { intros rule x k x' k' W. apply (fold_preserves _ (counted s)) in W; [done|].
    intros frame y j y' j' E'. apply bind_Some in E' as ([f|] & n1 & _ & E2).
    - by apply (insert_counted s _ _ _ _ _ _ E2).
    - by injection E2 as -> ->. }
  apply (fold_preserves _ _ P _ _ _ _ _ E). split; [cbn [total_frames]; lia|done].
Qed.

(** The loop does not run out of rounds, and ends with a round that adds nothing. *)
Lemma saturate_spec rules rounds s n o n' : (total_frames s <= MAX_TOTAL_FRAMES)%nat ->
  (MAX_TOTAL_FRAMES - total_frames s < rounds)%nat ->
  saturate grant nesting depth sorts rules rounds s n = (Some o, n') ->
  exists fs, o = Some fs /\
  forall rule frame, rule ∈ rules -> frame ∈ body_frames fs rule -> settled fs rule frame.
Proof.
  revert s n. induction rounds as [|rounds IH]; intros s n B L E; [lia|]. cbn [saturate] in E.
  apply bind_Some in E as (s' & n1 & E1 & E2).
  pose proof (round_counted rules s n s' n1 B E1) as [B' C']. destruct (changed s') eqn:C; cbn [negb] in E2.
  - destruct (C' eq_refl) as [Lt Nw]. destruct (worklist s') as [|w wl] eqn:W; [done|].
    apply (IH {| reachable := reachable s'; worklist := wl; total_frames := total_frames s'; changed := changed s' |} n1);
      cbn [total_frames]; [lia|lia|]. rewrite C. exact E2.
  - injection E2 as <- <-. destruct (round_quiet rules s n s' n1 E1 C) as [-> Q]. by eexists.
Qed.

(** More rounds than that change nothing. *)
Lemma saturate_rounds rules rounds rounds' s n : (total_frames s <= MAX_TOTAL_FRAMES)%nat ->
  (MAX_TOTAL_FRAMES - total_frames s < rounds)%nat -> (MAX_TOTAL_FRAMES - total_frames s < rounds')%nat ->
  saturate grant nesting depth sorts rules rounds s n = saturate grant nesting depth sorts rules rounds' s n.
Proof.
  revert rounds' s n. induction rounds as [|rounds IH]; intros [|rounds'] s n B L L'; [lia..|].
  cbn [saturate]. unfold mbind, M_bind.
  destruct (search_round grant nesting depth sorts rules s n) as [[s'|] n1] eqn:E; [|done].
  pose proof (round_counted rules s n s' n1 B E) as [B' C']. destruct (changed s') eqn:C; cbn [negb]; [|done].
  destruct (C' eq_refl) as [Lt Nw]. destruct (worklist s'); [done|]. apply IH; cbn [total_frames]; lia.
Qed.

(** ** What is in the sets *)

Definition typed_frames (name : string) (l : list Frame) : Prop :=
  NoDup l /\ (length l <= MAX_FRAMES_PER_RELATION)%nat /\
  (l <> [] -> name <> "error") /\ forall f, f ∈ l -> sorts !! name = Some (map sort_of (frame_args f)).
Definition typed_search (s : Search) : Prop := forall name, typed_frames name (frames_of (reachable s) name).

Lemma edge_typed rule frame n f n' : walk_edge grant nesting depth sorts rule frame n = (Some (Some f), n') ->
  Chc.head_name rule <> "error" /\ sorts !! Chc.head_name rule = Some (map sort_of (frame_args f)).
Proof.
  unfold walk_edge. intros E. apply bind_Some in E as (env & n1 & _ & E).
  apply bind_Some in E as ([status [env' facts]] & n2 & _ & E). destruct status; [|done..].
  destruct (String.eqb_spec (Chc.head_name rule) "error") as [|Ne]; [done|]. split; [done|].
  apply bind_Some in E as (out & n3 & _ & E). destruct (relation_args_match_decl _ _ _) eqn:R; [|done].
  injection E as <- _. unfold relation_args_match_decl in R. destruct (sorts !! Chc.head_name rule) as [ss|]; [|done].
  apply bool_decide_eq_true in R. by rewrite <- R.
Qed.

Lemma insert_typed name f s n s' n' : insert_frame name f s n = (Some s', n') -> name <> "error" ->
  sorts !! name = Some (map sort_of (frame_args f)) -> typed_search s -> typed_search s'.
Proof.
  unfold insert_frame. intros E Ne Sf T. destruct (decide _) as [|Nin]; [by injection E as <- _|].
  destruct (Nat.ltb_spec MAX_FRAMES_PER_RELATION (S (length (frames_of (reachable s) name)))) as [|L]; [done|].
  destruct (Nat.ltb _ _); [done|]. injection E as <- _. intros m. unfold frames_of at 1. cbn [reachable].
  destruct (decide (name = m)) as [<-|Nm].
  - rewrite lookup_insert. cbn [default]. rewrite decide_True by done. cbn. destruct (T name) as (Nd & _ & _ & Ts). split_and!.
    + apply NoDup_app. split; [done|]. split; [|apply NoDup_singleton]. intros x Hx ->%list_elem_of_singleton. done.
    + rewrite length_app. cbn [length]. lia.
    + done.
    + intros x [Hx| ->%list_elem_of_singleton]%elem_of_app; [by apply Ts|done].
  - rewrite lookup_insert_ne by done. apply T.
Qed.

Lemma saturate_typed rules rounds s n fs n' : typed_search s ->
  saturate grant nesting depth sorts rules rounds s n = (Some (Some fs), n') ->
  forall name, typed_frames name (frames_of fs name).
Proof.
  revert s n. induction rounds as [|rounds IH]; intros s n T E; [done|]. cbn [saturate] in E.
  apply bind_Some in E as (s' & n1 & E1 & E2).
  assert (T' : typed_search s').
  { assert (P : preserves (walk_rule grant nesting depth sorts) typed_search).
    { intros rule x k x' k' W. apply (fold_preserves _ typed_search) in W; [done|].
      intros frame y j y' j' E'. apply bind_Some in E' as ([f|] & j1 & Ed & E3).
      - apply edge_typed in Ed as [Ne Sf]. by apply (insert_typed _ _ _ _ _ _ E3).
      - by injection E3 as -> ->. }
    apply (fold_preserves _ _ P _ _ _ _ _ E1). exact T. }
  destruct (changed s'); cbn [negb] in E2; [|injection E2 as <- _; exact T'].
  destruct (worklist s'); [injection E2 as <- _; exact T'|]. refine (IH _ n1 _ E2). exact T'.
Qed.

End Search.

(** ** Coverage *)

Section Cover.
Context `{AyTryEval} (grant : N -> bool) (nesting depth : nat) (sorts : gmap string (list Sort)).
Context (rules : list Chc.Rule) (fs : gmap string (list Frame)).
Context (closed : forall rule frame, rule ∈ rules -> frame ∈ body_frames fs rule ->
  settled grant nesting depth sorts fs rule frame).
Context (qf : forall rule, rule ∈ rules -> rule_qf rule) (free : capture_free rules fs = true).

(** A frame of the relation has these values. *)
Definition covered (name : string) (vs : list val) : Prop :=
  exists f r, f ∈ frames_of fs name /\ admissible r /\ frame_ok r f vs.

Lemma settled_covered r rule frame : rule ∈ rules -> frame ∈ body_frames fs rule -> admissible r ->
  body_values r rule frame -> holds r (frame_facts frame) ->
  (forall c, c ∈ Chc.iter (Chc.constraints (Chc.body rule)) -> is_true (eval r c)) ->
  Chc.head_name rule <> "error" /\ covered (Chc.head_name rule) (map (eval r) (Chc.args (Chc.head rule))).
Proof.
  intros Hr Hfr Ad B Hf T. destruct (closed rule frame Hr Hfr) as (n & n' & o & E & I).
  destruct (walk_edge_ok grant nesting depth r Ad sorts rule frame (qf rule Hr) B Hf T n o n' E)
    as (f & Eo & Ne & F). split; [done|]. exists f, r. split; [by apply I|done].
Qed.

Lemma values_zip r (args vs : list Expr) : (forall e, e ∈ vs -> quantifier_free e) ->
  map (eval r) args = map (eval r) vs -> List.Forall2 (fun a v => means r (eval r a) v) args vs.
Proof.
  revert vs. induction args as [|a args IH]; intros [|v vs] Q E; try discriminate E; [constructor|].
  injection E as E1 E2. constructor; [split; [apply Q; left|by symmetry]|]. apply IH; [|done].
  intros e He. apply Q. by right.
Qed.

Lemma derivable_covered name vs : Chc.derivable rules name vs -> name <> "error" /\ covered name vs.
Proof.
  intros D. induction D as [rule rr Hr Ad T _ IH]. destruct (Chc.relation (Chc.body rule)) as [app|] eqn:R.
  - destruct (IH app eq_refl) as [_ (f & rf & Hf & Adf & Qf & Hold & Ef)].
    assert (C : capture_free_edge rule (Chc.args app) f = true).
    { unfold capture_free in free. rewrite forallb_forall in free.
      specialize (free rule (proj1 (list_elem_of_In _ _) Hr)). rewrite R in free.
      rewrite forallb_forall in free. by apply free, list_elem_of_In. }
    pose proof (joint_rule rule app f rf rr R C (eq_sym Ef)) as J.
    assert (Jh : map (eval (joint f rf rr)) (Chc.args (Chc.head rule)) = map (eval rr) (Chc.args (Chc.head rule))).
    { apply map_ext_in. intros e He%list_elem_of_In. apply J. unfold rule_exprs. rewrite !elem_of_app. auto. }
    rewrite <- Jh. apply (settled_covered (joint f rf rr) rule f); [done| | | | |].
    + unfold body_frames. by rewrite R.
    + by apply override_admissible.
    + intros app' R' _. rewrite R in R'. injection R' as <-. apply values_zip; [done|].
      transitivity (map (eval rr) (Chc.args app)).
      * apply map_ext_in. intros e He%list_elem_of_In. apply J. unfold rule_exprs. rewrite R, !elem_of_app. auto.
      * rewrite <- Ef. symmetry. apply map_ext_in. intros e He%list_elem_of_In. apply joint_frame.
        unfold frame_exprs. apply elem_of_app. by left.
    + by apply joint_facts.
    + intros c Hc. rewrite J by (unfold rule_exprs; rewrite elem_of_app; auto). by apply T.
  - apply (settled_covered rr rule no_frame); [done| |done| |apply no_facts_hold|done].
    + unfold body_frames. rewrite R. by left.
    + intros app R'. by rewrite R in R'.
Qed.

End Cover.

End StraightlineSearch.

(** * The visit budget bounds the recursion

    Two recursions of the straight-line prover have no depth guard of their own: a
    tester of a conditional recurs into its branches, and a conjunction into its
    conjuncts.  Each turn walks an expression and so spends a visit; once the visits
    are spent every walk is refused.  So a bound on the nesting beyond the number of
    visits left changes nothing. *)

Module StraightlineBudget.
Import AyBuild AyTry Visits PathFacts StraightlineSimplify Straightline.

(** ** Two computations that agree from a number of visits on *)

Definition agree {A} (n0 : N) (m m' : M A) : Prop := forall n, (n0 <= n)%N -> m n = m' n /\ (n <= (m n).2)%N.

Lemma agree_ret {A} n0 (a : A) : agree n0 (mret a) (mret a).
Proof. intros n _. split; [done|]. cbn. lia. Qed.

Lemma agree_bail {A} n0 : agree n0 (@bail A) bail.
Proof. intros n _. split; [done|]. cbn. lia. Qed.

Lemma agree_option {A} n0 (o : option A) : agree n0 (of_option o) (of_option o).
Proof. intros n _. split; [done|]. cbn. lia. Qed.

Lemma agree_visit n0 grant : agree n0 (visit grant) (visit grant).
Proof. intros n _. split; [done|]. cbn. lia. Qed.

Lemma agree_later {A} n0 n1 (m m' : M A) : (n0 <= n1)%N -> agree n0 m m' -> agree n1 m m'.
Proof. intros L Hm n Hn. apply Hm. lia. Qed.

Lemma agree_attempt {A} n0 (m m' : M A) : agree n0 m m' -> agree n0 (attempt m) (attempt m').
Proof. intros Hm n Hn. destruct (Hm n Hn) as [E L]. unfold attempt. rewrite <- E. by destruct (m n). Qed.

Lemma agree_bind {A B} n0 (m m' : M A) (k k' : A -> M B) :
  agree n0 m m' -> (forall a, agree n0 (k a) (k' a)) -> agree n0 (m ≫= k) (m' ≫= k').
Proof.
  intros Hm Hk n Hn. destruct (Hm n Hn) as [E L]. unfold mbind, M_bind. rewrite <- E.
  destruct (m n) as [[a|] n1]; cbn in L; [|done]. destruct (Hk a n1) as [Ek Lk]; [lia|]. split; [done|lia].
Qed.

Lemma agree_map {A B} n0 (f f' : A -> M B) l :
  (forall x, x ∈ l -> agree n0 (f x) (f' x)) -> agree n0 (map_m f l) (map_m f' l).
Proof.
  induction l as [|x l IH]; intros Hf; cbn; [apply agree_ret|].
  apply agree_bind; [apply Hf; left|]. intros y.
  apply agree_bind; [apply IH; intros z Hz; apply Hf; by right|]. intros ys. apply agree_ret.
Qed.

Lemma agree_or_else `{AyExpr} n0 (m m' k k' : M Expr) : agree n0 m m' -> agree n0 k k' ->
  agree n0 (or_else m k) (or_else m' k').
Proof.
  intros Hm Hk. apply agree_bind; [by apply agree_attempt|]. intros [e|]; [apply agree_ret|done].
Qed.

(** The steps of a proof that a definition respects agreement *)
Ltac agree_step :=
  match goal with
  | |- agree _ (mret _) (mret _) => apply agree_ret
  | |- agree _ bail bail => apply agree_bail
  | |- agree _ (of_option _) (of_option _) => apply agree_option
  | |- agree _ (or_else _ _) (or_else _ _) => apply agree_or_else
  | |- agree _ (attempt _) (attempt _) => apply agree_attempt
  | |- agree _ (_ ≫= _) (_ ≫= _) => apply agree_bind; [|intros ?]
  | |- agree _ (map_m _ _) (map_m _ _) => apply agree_map; intros ? _
  | H : _ |- agree _ _ _ => solve [apply H]
  | |- agree _ (if ?b then _ else _) _ => destruct b
  | |- agree _ (match ?x with _ => _ end) _ => destruct x
  end.
Ltac agree := repeat agree_step.

(** ** The arms *)

Section Arms.
Context `{AyTry} (n0 : N) (simplify simplify' : Expr -> M Expr) (select select' : Expr -> Expr -> M Expr).
Context (facts : PathFacts).
Context (Hs : forall e, agree n0 (simplify e) (simplify' e)) (Hl : forall a i, agree n0 (select a i) (select' a i)).

Lemma agree_eq lhs rhs :
  agree n0 (simplify_eq_with_facts simplify facts lhs rhs) (simplify_eq_with_facts simplify' facts lhs rhs).
Proof.
  assert (C : forall e c, agree n0 (simplify_bool_const_eq simplify e c) (simplify_bool_const_eq simplify' e c))
    by (intros; unfold simplify_bool_const_eq; agree).
  assert (I : forall e c, agree n0 (simplify_bool_bit_ite_eq simplify e c) (simplify_bool_bit_ite_eq simplify' e c))
    by (intros; unfold simplify_bool_bit_ite_eq; agree).
  unfold simplify_eq_with_facts, fold_eq_consts. agree.
Qed.

Lemma agree_ite c t f : agree n0 (simplify_ite simplify c t f) (simplify_ite simplify' c t f).
Proof.
  assert (B : forall c t f, agree n0 (simplify_bool_ite simplify c t f) (simplify_bool_ite simplify' c t f))
    by (intros; unfold simplify_bool_ite; agree).
  unfold simplify_ite, simplify_ite_with_facts. agree.
Qed.

Lemma agree_nary es is_and : agree n0 (simplify_bool_nary simplify es is_and) (simplify_bool_nary simplify' es is_and).
Proof.
  assert (K : forall kept, agree n0 (nary_kept simplify es is_and kept) (nary_kept simplify' es is_and kept)).
  { induction es as [|e es IH]; intros kept; cbn [nary_kept]; agree. }
  unfold simplify_bool_nary. agree.
Qed.

Lemma agree_select_node a i : agree n0 (select_node simplify select facts a i) (select_node simplify' select' facts a i).
Proof. pose proof agree_eq. unfold select_node. agree. Qed.

Lemma agree_selector e d n a :
  agree n0 (simplify_datatype_selector simplify e d n a) (simplify_datatype_selector simplify' e d n a).
Proof. unfold simplify_datatype_selector. cbv zeta. agree. Qed.

Lemma agree_bv_binary op lhs rhs :
  match simplify_bv_binary simplify facts op lhs rhs, simplify_bv_binary simplify' facts op lhs rhs with
  | Some m, Some m' => agree n0 m m'
  | None, None => True
  | _, _ => False
  end.
Proof.
  assert (B : forall f g, agree n0 (simplify_bv_binop simplify lhs rhs f g) (simplify_bv_binop simplify' lhs rhs f g))
    by (intros; unfold simplify_bv_binop; agree).
  assert (C : forall k f g, agree n0 (simplify_bv_cmp simplify facts lhs rhs k f g)
    (simplify_bv_cmp simplify' facts lhs rhs k f g)) by (intros; unfold simplify_bv_cmp; agree).
  assert (S : forall f g, agree n0 (simplify_bv_signed_cmp simplify lhs rhs f g)
    (simplify_bv_signed_cmp simplify' lhs rhs f g)) by (intros; unfold simplify_bv_signed_cmp; agree).
  destruct op; cbn [simplify_bv_binary]; try done; try apply B; try apply C; try apply S.
  - unfold simplify_bv_concat. cbv zeta. agree.
  - unfold simplify_bv_mul_no_overflow_unsigned. cbv zeta. agree.
Qed.

End Arms.

(** ** The walkers *)

Section Budget.
Context `{AyTry} (budget : N).
Abbreviation grant := (fun n => (n <? budget)%N).

(** A result costs a visit that was granted. *)
Definition spends {A} (n0 : N) (m : M A) : Prop :=
  forall n a n', (n0 <= n)%N -> m n = (Some a, n') -> (n < budget)%N /\ (n < n')%N.

(** The nesting allowed covers the visits that are left. *)
Definition covers (nest : nat) (n : N) : Prop := (N.to_nat (budget - n) < nest)%nat.

Lemma covers_later nest n n' : (n <= n')%N -> covers nest n -> covers nest n'.
Proof. unfold covers. lia. Qed.

Lemma covers_spent nest n : (n < budget)%N -> covers (S nest) n -> covers nest (N.succ n).
Proof. unfold covers. lia. Qed.

Lemma spends_visit {A} n0 (k k' : unit -> M A) : agree n0 (k tt) (k' tt) -> spends n0 (visit grant ≫= k).
Proof.
  intros Hk n a n' L E. unfold mbind, M_bind, visit in E. destruct (N.ltb_spec n budget); [|done].
  split; [done|]. destruct (Hk (N.succ n)) as [_ G]; [lia|]. rewrite E in G. cbn in G. lia.
Qed.

Lemma agree_spent {A B} n0 (m m' : M A) (k k' : A -> M B) : agree n0 m m' -> spends n0 m ->
  (forall a n, (n0 <= n)%N -> (n < budget)%N -> agree (N.succ n) (k a) (k' a)) -> agree n0 (m ≫= k) (m' ≫= k').
Proof.
  intros Hm Sm Hk n Hn. destruct (Hm n Hn) as [E L]. unfold mbind, M_bind. rewrite <- E.
  destruct (m n) as [[a|] n1] eqn:En; cbn in L; [|done]. destruct (Sm n a n1 Hn En) as [Lb Ln].
  destruct (Hk a n Hn Lb n1) as [Ek Lk]; [lia|]. split; [done|lia].
Qed.

Lemma agree_tester simplify simplify' n0 nest nest' d k e :
  (forall e, agree n0 (simplify e) (simplify' e)) -> (forall e, spends n0 (simplify e)) ->
  covers nest n0 -> covers nest' n0 ->
  agree n0 (tester_nested simplify nest d k e) (tester_nested simplify' nest' d k e).
Proof.
  revert n0 nest' e. induction nest as [|nest IH]; intros n0 [|nest'] e Hs Sp C C';
    try (unfold covers in *; lia). cbn [tester_nested].
  apply agree_spent; [done|done|]. intros x n Ln Lb.
  assert (Hs' : forall e, agree (N.succ n) (simplify e) (simplify' e)) by (intros; apply (agree_later n0); [lia|done]).
  assert (T : forall e, agree (N.succ n) (tester_nested simplify nest d k e) (tester_nested simplify' nest' d k e)).
  { intros y. apply IH; [done| | |].
    - intros z p a p' Lp. apply Sp. lia.
    - apply covers_spent; [done|]. by apply (covers_later _ n0).
    - apply covers_spent; [done|]. by apply (covers_later _ n0). }
  clear IH Hs Sp. agree.
Qed.

Lemma agree_node nest nest' n0 simplify simplify' select select' facts e :
  (forall e, agree n0 (simplify e) (simplify' e)) -> (forall a i, agree n0 (select a i) (select' a i)) ->
  (forall e, spends n0 (simplify e)) -> covers nest n0 -> covers nest' n0 ->
  agree n0 (simplify_node nest simplify select facts e) (simplify_node nest' simplify' select' facts e).
Proof.
  intros Hs Hl Sp C C'. unfold simplify_node.
  assert (R : agree n0 (simplify_rebuilt_children simplify e) (simplify_rebuilt_children simplify' e))
    by (unfold simplify_rebuilt_children; agree).
  destruct (value e) as [| | |op a|op a b|a b|es|es|es|c t f|a i x| | | | | |]; try exact R.
  - destruct op; try exact R.
    + unfold simplify_not. agree.
    + unfold simplify_bv_zero_extend. cbv zeta. agree.
    + unfold simplify_bv_extract. agree.
    + unfold simplify_const_array. agree.
    + by apply agree_selector.
    + by apply agree_tester.
  - assert (B : agree n0 (default (simplify_rebuilt_children simplify e) (simplify_bv_binary simplify facts op a b))
      (default (simplify_rebuilt_children simplify' e) (simplify_bv_binary simplify' facts op a b))).
    { pose proof (agree_bv_binary n0 simplify simplify' facts Hs op a b) as B.
      by destruct (simplify_bv_binary simplify facts op a b), (simplify_bv_binary simplify' facts op a b). }
    destruct op; try exact B. unfold simplify_select. agree.
  - by apply agree_eq.
  - by apply agree_nary.
  - by apply agree_nary.
  - by apply agree_ite.
  - unfold simplify_store. agree.
Qed.

Lemma walkers_agree nest nest' depth facts n0 : covers nest n0 -> covers nest' n0 ->
  ((forall e, agree n0 (simplify_with_facts grant nest depth facts e) (simplify_with_facts grant nest' depth facts e)) /\
   (forall e, spends n0 (simplify_with_facts grant nest depth facts e))) /\
  (forall a i, agree n0 (select_from_simplified grant nest depth facts a i)
                        (select_from_simplified grant nest' depth facts a i)).
Proof.
  intros C C'. induction depth as [|depth [[Hs Sp] Hl]]; (split; [split|]).
  - intros e. apply agree_bind; [apply agree_visit|]. intros _. apply agree_bail.
  - intros e. apply (spends_visit _ _ (fun _ => bail)). apply agree_bail.
  - intros a i. apply agree_bind; [apply agree_visit|]. intros _. apply agree_bail.
  - intros e. apply agree_bind; [apply agree_visit|]. intros _. by apply agree_node.
  - intros e. eapply (spends_visit _ _ (fun _ => _)). by apply (agree_node nest nest' n0).
  - intros a i. apply agree_bind; [apply agree_visit|]. intros _. by apply agree_select_node.
Qed.

Lemma substitute_agree depth n0 env e :
  agree n0 (substitute grant depth e env) (substitute grant depth e env) /\ spends n0 (substitute grant depth e env).
Proof.
  unfold substitute. generalize (∅ : gset string) as resolving. revert e.
  induction depth as [|depth IH]; intros e resolving; cbn [substitute_inner].
  { split; [apply agree_bind; [apply agree_visit|]; intros _; apply agree_bail|].
    apply (spends_visit _ _ (fun _ => bail)). apply agree_bail. }
  assert (A : forall e resolving, agree n0 (substitute_inner grant depth env resolving e)
    (substitute_inner grant depth env resolving e)) by (intros; apply IH). clear IH.
  match goal with |- agree _ (_ ≫= ?k) _ /\ _ => assert (K : agree n0 (k tt) (k tt)) by (cbn beta; agree) end.
  split; [apply agree_bind; [apply agree_visit|]; intros []; exact K|].
  by eapply spends_visit.
Qed.

(** ** The constraints *)

Lemma agree_attempt_spent {A B} n0 (m m' : M A) (k k' : option A -> M B) : agree n0 m m' -> spends n0 m ->
  (forall a n, (n0 <= n)%N -> (n < budget)%N -> agree (N.succ n) (k (Some a)) (k' (Some a))) ->
  agree n0 (k None) (k' None) -> agree n0 (attempt m ≫= k) (attempt m' ≫= k').
Proof.
  intros Hm Sm Hk Hn n Ln. destruct (Hm n Ln) as [E L]. unfold mbind, M_bind, attempt. rewrite <- E.
  destruct (m n) as [[a|] n1] eqn:En; cbn in L.
  - destruct (Sm n a n1 Ln En) as [Lb Lm]. destruct (Hk a n Ln Lb n1) as [Ek Lk]; [lia|]. split; [done|lia].
  - destruct (Hn n1) as [Ek Lk]; [lia|]. split; [done|lia].
Qed.

Lemma spends_bind {A B} n0 (m : M A) (k : A -> M B) : spends n0 m -> (forall a, agree n0 (k a) (k a)) ->
  spends n0 (m ≫= k).
Proof.
  intros Sm Hk n b n' Ln E. unfold mbind, M_bind in E. destruct (m n) as [[a|] n1] eqn:En; [|done].
  destruct (Sm n a n1 Ln En) as [Lb Lm]. split; [done|]. destruct (Hk a n1) as [_ G]; [lia|].
  rewrite E in G. cbn in G. lia.
Qed.

Section Constraints.
Context (nesting nesting' depth : nat).

Lemma substitute_simplify_agree n0 facts env e : covers nesting n0 -> covers nesting' n0 ->
  agree n0 (x ← substitute grant depth e env; simplify_with_facts grant nesting depth facts x)
           (x ← substitute grant depth e env; simplify_with_facts grant nesting' depth facts x) /\
  spends n0 (x ← substitute grant depth e env; simplify_with_facts grant nesting depth facts x).
Proof.
  intros C C'. destruct (substitute_agree depth n0 env e) as [As Ss].
  destruct (walkers_agree nesting nesting' depth facts n0 C C') as [[Aw _] _]. split.
  - apply agree_bind; [exact As|]. intros x. apply Aw.
  - apply spends_bind; [exact Ss|]. intros x n Ln. destruct (Aw x n Ln) as [_ L]. done.
Qed.

Lemma bind_agree n0 env facts n v : covers nesting n0 -> covers nesting' n0 ->
  agree n0 (bind_env_var grant nesting depth env facts n v) (bind_env_var grant nesting' depth env facts n v).
Proof.
  intros C C'. destruct (walkers_agree nesting nesting' depth no_facts n0 C C') as [[Aw _] _].
  unfold bind_env_var, simplify_alone. agree.
Qed.

Section Loop.
Context (n0 : N) (C : covers nesting n0) (C' : covers nesting' n0).
Context (apply apply' : Expr -> gmap string Expr * PathFacts -> M (ConstraintStatus * (gmap string Expr * PathFacts))).
Context (Ha : forall c st, agree n0 (apply c st) (apply' c st)).

Lemma pass_agree cs saw st : agree n0 (apply_pass apply cs saw st) (apply_pass apply' cs saw st).
Proof.
  revert saw st. induction cs as [|c cs IH]; intros saw st; cbn [apply_pass]; [apply agree_ret|].
  apply agree_bind; [apply Ha|]. intros [status st']. destruct status; [apply IH|apply agree_ret|apply IH].
Qed.

Lemma passes_agree passes cs st : agree n0 (apply_passes apply passes cs st) (apply_passes apply' passes cs st).
Proof.
  revert st. induction passes as [|passes IH]; intros st; cbn [apply_passes]; [apply agree_ret|].
  apply agree_bind; [apply pass_agree|]. intros [[saw|] st']; [|apply agree_ret].
  destruct (decide _); [apply agree_ret|apply IH].
Qed.

Lemma simplified_agree c st :
  agree n0 (apply_simplified grant nesting depth apply c st) (apply_simplified grant nesting' depth apply' c st).
Proof.
  assert (B : forall env facts n v, agree n0 (bind_env_var grant nesting depth env facts n v)
    (bind_env_var grant nesting' depth env facts n v)) by (intros; by apply bind_agree).
  assert (K : forall e neg st, agree n0 (apply_cmp e neg st) (apply_cmp e neg st))
    by (intros; unfold apply_cmp, recorded_or; agree).
  assert (S : forall lhs rhs st n v, agree n0 (bind_sorted grant nesting depth lhs rhs st n v)
    (bind_sorted grant nesting' depth lhs rhs st n v)) by (intros; unfold bind_sorted; agree).
  assert (P : forall es st, agree n0 (apply_constraint_fixpoint apply es st) (apply_constraint_fixpoint apply' es st))
    by (intros; apply passes_agree).
  unfold apply_simplified. destruct (value c) as [|b| |op a|op a b|a b|es| | | | | | | | | |]; try (agree; fail).
  - destruct op; try apply agree_ret. unfold apply_not. destruct (value a); agree.
  - destruct op; try apply agree_ret; try apply K. unfold recorded_or. agree.
  - unfold apply_eq. cbv zeta. agree.
Qed.

End Loop.

Lemma constraint_agree n0 nest nest' c st : covers nesting n0 -> covers nesting' n0 ->
  covers nest n0 -> covers nest' n0 ->
  agree n0 (apply_constraint grant nesting depth nest c st) (apply_constraint grant nesting' depth nest' c st).
Proof.
  revert n0 nest' c st. induction nest as [|nest IH]; intros n0 [|nest'] c st C C' D D';
    try (unfold covers in *; lia). cbn [apply_constraint].
  destruct (substitute_simplify_agree n0 st.2 st.1 c C C') as [As Ss].
  apply agree_attempt_spent; [exact As|exact Ss| |apply agree_ret]. intros x n Ln Lb.
  assert (L : (n0 <= N.succ n)%N) by lia.
  apply simplified_agree; [by apply (covers_later _ n0)|by apply (covers_later _ n0)|]. intros c' st'.
  apply IH; [by apply (covers_later _ n0)|by apply (covers_later _ n0)| |];
    (apply covers_spent; [done|]; by apply (covers_later _ n0)).
Qed.

(** ** The search *)

Lemma edge_agree n0 sorts rule frame : covers nesting n0 -> covers nesting' n0 ->
  agree n0 (walk_edge grant nesting depth sorts rule frame) (walk_edge grant nesting' depth sorts rule frame).
Proof.
  intros C C'. unfold walk_edge. apply agree_bind; [apply agree_option|]. intros env. apply agree_bind.
  { apply passes_agree. intros c st. by apply constraint_agree. }
  intros [status [env' facts]]. destruct status; [|apply agree_ret|apply agree_bail].
  destruct (String.eqb _ _); [apply agree_bail|]. apply agree_bind.
  - apply agree_map. intros a _. by apply substitute_simplify_agree.
  - intros out. destruct (relation_args_match_decl _ _ _); [apply agree_ret|apply agree_bail].
Qed.

Lemma fold_agree {A} n0 (f f' : A -> Search -> M Search) l s : (forall x s, agree n0 (f x s) (f' x s)) ->
  agree n0 (fold_m f l s) (fold_m f' l s).
Proof.
  intros Hf. revert s. induction l as [|x l IH]; intros s; cbn [fold_m]; [apply agree_ret|].
  apply agree_bind; [apply Hf|]. intros s'. apply IH.
Qed.

Lemma insert_agree n0 name f s : agree n0 (insert_frame name f s) (insert_frame name f s).
Proof. unfold insert_frame. cbv zeta. agree. Qed.

Lemma saturate_agree n0 sorts rules rounds s : covers nesting n0 -> covers nesting' n0 ->
  agree n0 (saturate grant nesting depth sorts rules rounds s) (saturate grant nesting' depth sorts rules rounds s).
Proof.
  intros C C'. revert s. induction rounds as [|rounds IH]; intros s; cbn [saturate]; [apply agree_ret|].
  apply agree_bind.
  - apply fold_agree. intros rule t. apply fold_agree. intros frame u. apply agree_bind; [by apply edge_agree|].
    intros [f|]; [apply insert_agree|apply agree_ret].
  - intros s'. destruct (changed s'); cbn [negb]; [|apply agree_ret]. destruct (worklist s'); [apply agree_ret|apply IH].
Qed.

End Constraints.

End Budget.

End StraightlineBudget.
