(* ===== verification/StraightlineLoops.v ===== *)
(** * The relations on a loop

    [loop_relations] of straightline_proof.rs finds exactly the relations that reach
    themselves through the rules between relations that are not errors: the stack
    search from each of them ends and is exact. *)

From S2P Require Import Prelude AyExpr AyBuild Chc HeapLiveness AyTry Straightline.

Module StraightlineLoops.
Import HeapLiveness Straightline.

Lemma closed_rtc {A} (R : A -> A -> Prop) (P : A -> Prop) n m :
  (forall a b, P a -> R a b -> P b) -> P n -> rtc R n m -> P m.
Proof. intros C Pn T. induction T as [|x y z E T IH]; [done|]. apply IH. by apply (C x). Qed.

Lemma tc_map {A} (R R' : A -> A -> Prop) n m : (forall x y, R x y -> R' x y) -> tc R n m -> tc R' n m.
Proof. intros M T. induction T as [x y E|x y z E T IH]; [by apply tc_once, M|]. by eapply tc_l; [apply M|]. Qed.

Section Edges.
Context `{Countable K} (adj : gmap K (list K)).

Definition succ (n : K) : list K := default [] (adj !! n).
Definition step (n m : K) : Prop := m ∈ succ n.

(** The edges out of the nodes that have not been seen *)
Definition unseen (seen : gset K) : nat :=
  sum_list (map (fun n => length (succ n)) (elements (dom adj ∖ seen))).

Lemma unseen_add n seen : n ∉ seen -> (length (succ n) + unseen ({[n]} ∪ seen) = unseen seen)%nat.
Proof.
  intros Hn. unfold unseen. destruct (decide (n ∈ dom adj)) as [Hd|Hd].
  - assert (E : dom adj ∖ seen = {[n]} ∪ (dom adj ∖ ({[n]} ∪ seen))).
    { apply set_eq. intros m. destruct (decide (m = n)) as [->|]; set_solver. }
    rewrite E. erewrite (sum_list_perm (map _ (elements ({[n]} ∪ _))));
      [|apply Permutation_map, elements_union_singleton; set_solver]. done.
  - replace (dom adj ∖ ({[n]} ∪ seen)) with (dom adj ∖ seen) by (apply set_eq; set_solver).
    unfold succ at 1. apply not_elem_of_dom in Hd. by rewrite Hd.
Qed.

(** All the edges, as a bound of a search *)
Lemma unseen_all : unseen ∅ = sum_list (map (fun p => length (snd p)) (map_to_list adj)).
Proof.
  unfold unseen. replace (dom adj ∖ ∅) with (dom adj) by (apply set_eq; set_solver).
  assert (E : elements (dom adj) ≡ₚ (map_to_list adj).*1).
  { apply NoDup_Permutation; [apply NoDup_elements|apply NoDup_fst_map_to_list|]. intros k.
    rewrite elem_of_elements, elem_of_dom, list_elem_of_fmap. split.
    - intros [l E]. exists (k, l). by rewrite elem_of_map_to_list.
    - intros ([k' l] & -> & Hin). apply elem_of_map_to_list in Hin. by eexists. }
  rewrite (sum_list_perm _ _ (Permutation_map (fun n => length (succ n)) E)).
  f_equal. change ((map_to_list adj).*1) with (map fst (map_to_list adj)). rewrite map_map. apply map_ext_in.
  intros [k l] Hin. apply list_elem_of_In, elem_of_map_to_list in Hin. unfold succ. cbn. by rewrite Hin.
Qed.

End Edges.

Section Search.
Context (adj : gmap string (list string)) (start : string).
Notation succ := (succ adj).
Notation step := (step adj).
Notation unseen := (unseen adj).

Lemma stack_search_spec fuel : forall stack seen, (length stack + unseen seen < fuel)%nat ->
  start ∉ seen -> (forall n m, n ∈ seen -> step n m -> m ∈ seen \/ m ∈ stack) ->
  if stack_search adj fuel start stack seen then exists m, m ∈ stack /\ rtc step m start
  else exists closed : gset string, start ∉ closed /\ (forall m, m ∈ stack -> m ∈ closed) /\
         forall n m, n ∈ closed -> step n m -> m ∈ closed.
Proof.
  induction fuel as [|fuel IH]; intros stack seen L Ns Inv; [lia|]. cbn [stack_search].
  destruct stack as [|node stack].
  { exists seen. split; [done|]. split; [intros m Hm; by apply elem_of_nil in Hm|].
    intros n m Hn Hm. destruct (Inv n m Hn Hm) as [|Hx]; [done|by apply elem_of_nil in Hx]. }
  destruct (String.eqb_spec node start) as [->|Ne]; [exists start; split; [left|done]|].
  destruct (decide (node ∈ seen)) as [Hs|Hs].
  - specialize (IH stack seen ltac:(cbn in L; lia) Ns).
    assert (Inv' : forall n m, n ∈ seen -> step n m -> m ∈ seen \/ m ∈ stack).
    { intros n m Hn Hm. destruct (Inv n m Hn Hm) as [|[->|]%elem_of_cons]; auto. }
    specialize (IH Inv'). destruct (stack_search adj fuel start stack seen).
    + destruct IH as (m & Hm & R). exists m. split; [by right|done].
    + destruct IH as (closed & Nc & Sub & C). pose proof (fun m => Sub m) as Sub'.
      exists (closed ∪ seen). split; [set_solver|]. split.
      * intros m [->|Hm]%elem_of_cons; [set_solver|]. apply elem_of_union_l. by apply Sub.
      * intros n m [Hn|Hn]%elem_of_union Hm; [apply elem_of_union_l; by eapply C|].
        destruct (Inv' n m Hn Hm) as [|Hx]; [set_solver|]. apply elem_of_union_l. by apply Sub.
  - specialize (IH (rev (succ node) ++ stack) ({[node]} ∪ seen)).
    assert (L' : (length (rev (succ node) ++ stack) + unseen ({[node]} ∪ seen) < fuel)%nat).
    { pose proof (unseen_add adj node seen Hs). cbn [length] in L. rewrite length_app, length_rev. lia. }
    specialize (IH L' ltac:(set_solver)).
    assert (Inv' : forall n m, n ∈ {[node]} ∪ seen -> step n m -> m ∈ {[node]} ∪ seen \/ m ∈ rev (succ node) ++ stack).
    { intros n m [->%elem_of_singleton|Hn]%elem_of_union Hm.
      - right. apply elem_of_app. left. by apply list_elem_of_In, in_rev, list_elem_of_In in Hm.
      - destruct (Inv n m Hn Hm) as [|[->|]%elem_of_cons]; [set_solver..|]. right. apply elem_of_app. by right. }
    specialize (IH Inv'). change (default [] (adj !! node)) with (succ node).
    destruct (stack_search adj fuel start (rev (succ node) ++ stack) ({[node]} ∪ seen)).
    + destruct IH as (m & [Hm|Hm]%elem_of_app & R).
      * exists node. split; [left|]. eapply rtc_l; [|exact R].
        by apply list_elem_of_In, in_rev, list_elem_of_In in Hm.
      * exists m. split; [by right|done].
    + destruct IH as (closed & Nc & Sub & C). exists (closed ∪ ({[node]} ∪ seen)). split; [set_solver|]. split.
      * intros m [->|Hm]%elem_of_cons; [set_solver|]. apply elem_of_union_l, Sub, elem_of_app. by right.
      * intros n m [Hn|Hn]%elem_of_union Hm; [apply elem_of_union_l; by eapply C|].
        destruct (Inv' n m Hn Hm) as [|Hx]; [set_solver|]. apply elem_of_union_l. by apply Sub.
Qed.

Lemma search_exact_from fuel : (length (succ start) + unseen ∅ < fuel)%nat ->
  stack_search adj fuel start (rev (succ start)) ∅ = true <-> tc step start start.
Proof.
  intros L. pose proof (stack_search_spec fuel (rev (succ start)) ∅) as S.
  rewrite length_rev in S. specialize (S L (not_elem_of_empty start)).
  specialize (S (fun n m Hn => False_ind _ (not_elem_of_empty n Hn))).
  assert (I : forall m, m ∈ rev (succ start) <-> step start m).
  { intros m. unfold step. by rewrite !list_elem_of_In, <- in_rev. }
  destruct (stack_search adj fuel start (rev (succ start)) ∅).
  - split; [intros _|done]. destruct S as (m & Hm%I & R). apply tc_rtc_r with m; [by apply tc_once|done].
  - split; [done|]. intros T. destruct S as (closed & Nc & Sub & C). destruct Nc.
    assert (G : forall m, rtc step m start -> m ∈ closed -> start ∈ closed).
    { intros m R Hm. exact (closed_rtc step (fun n => n ∈ closed) m start (fun a b Ha E => C a b Ha E) Hm R). }
    assert (F : exists y, step start y /\ rtc step y start).
    { inversion T as [x y E|x y z E T']; subst; [by exists start|]. exists y. split; [done|]. by apply tc_rtc. }
    destruct F as (y & E & R). apply (G y R). apply Sub. apply I. exact E.
Qed.

End Search.

(** ** The graph of the rules *)

Section Graph.
Context `{AyExpr}.

Lemma step_insert (adj : gmap string (list string)) n m x y :
  step (<[n := default [] (adj !! n) ++ [m]]> adj) x y <-> step adj x y \/ (x = n /\ y = m).
Proof.
  unfold step, succ. destruct (decide (n = x)) as [->|Ne].
  - rewrite lookup_insert_eq. cbn. rewrite elem_of_app, list_elem_of_singleton. naive_solver.
  - rewrite lookup_insert_ne by done. naive_solver.
Qed.

Lemma successors_spec rules n m : step (block_successors rules) n m <-> block_edge rules n m.
Proof.
  unfold block_successors, block_edge. induction rules as [|r rules IH] using rev_ind.
  { cbn. unfold step, succ. rewrite lookup_empty. cbn. split; [intros Hx; by apply elem_of_nil in Hx|].
    intros (_ & _ & r & Hr & _). by apply elem_of_nil in Hr. }
  rewrite foldl_snoc. setoid_rewrite elem_of_app. setoid_rewrite list_elem_of_singleton.
  destruct (is_error_reachable_head (Chc.head_name r)) eqn:Eh; [rewrite IH; naive_solver congruence|].
  destruct (Chc.body_name r) as [b|] eqn:Eb; [|rewrite IH; naive_solver congruence].
  destruct (is_error_reachable_head b) eqn:Ee; [rewrite IH; naive_solver congruence|].
  rewrite step_insert, IH. naive_solver congruence.
Qed.

Lemma nodes_spec rules n m : block_edge rules n m -> n ∈ block_nodes rules.
Proof.
  unfold block_nodes, block_edge. induction rules as [|r rules IH] using rev_ind.
  { intros (_ & _ & r & Hr & _). by apply elem_of_nil in Hr. }
  rewrite foldl_snoc. intros (En & Em & q & [Hq| ->%list_elem_of_singleton]%elem_of_app & Eb & Eh).
  - assert (I : n ∈ block_nodes rules) by (apply IH; eauto 10). unfold block_nodes in I.
    destruct (is_error_reachable_head (Chc.head_name r)); [exact I|]. destruct (Chc.body_name r) as [b|]; [|by apply elem_of_union_r].
    destruct (is_error_reachable_head b); [by apply elem_of_union_r|by apply elem_of_union_r, elem_of_union_r].
  - rewrite Eh, Em, Eb, En. apply elem_of_union_l, elem_of_singleton. done.
Qed.

(** There are no more edges than rules. *)
Lemma edges_bound rules : (unseen (block_successors rules) ∅ <= length rules)%nat.
Proof.
  unfold block_successors. induction rules as [|r rules IH] using rev_ind; [by cbn; unfold unseen; rewrite dom_empty_L|].
  rewrite foldl_snoc, length_app. cbn [length]. fold (block_successors rules) in *.
  destruct (is_error_reachable_head (Chc.head_name r)); [lia|].
  destruct (Chc.body_name r) as [b|]; [|lia]. destruct (is_error_reachable_head b); [lia|].
  set (adj := block_successors rules) in *. set (adj' := <[b := default [] (adj !! b) ++ [Chc.head_name r]]> adj).
  pose proof (unseen_add adj b ∅ ltac:(set_solver)) as U. pose proof (unseen_add adj' b ∅ ltac:(set_solver)) as U'.
  assert (E : unseen adj' ({[b]} ∪ ∅) = unseen adj ({[b]} ∪ ∅)).
  { unfold unseen. replace (dom adj' ∖ ({[b]} ∪ ∅)) with (dom adj ∖ ({[b]} ∪ ∅))
      by (unfold adj'; rewrite dom_insert_L; apply set_eq; set_solver).
    f_equal. apply map_ext_in. intros x Hx%list_elem_of_In. apply elem_of_elements in Hx.
    apply elem_of_difference in Hx as [_ Hx]. unfold succ, adj'. rewrite lookup_insert_ne; [done|].
    intros <-. apply Hx. apply elem_of_union_l. by apply elem_of_singleton. }
  assert (S : succ adj' b = succ adj b ++ [Chc.head_name r]) by (unfold succ, adj'; by rewrite lookup_insert_eq).
  rewrite S, length_app in U'. cbn [length] in U'. lia.
Qed.

Lemma on_loop_spec rules n : on_loop rules n = true <-> tc (block_edge rules) n n.
Proof.
  unfold on_loop. rewrite (search_exact_from (block_successors rules) n).
  - assert (M : forall x y, step (block_successors rules) x y <-> block_edge rules x y) by apply successors_spec.
    split; apply tc_map; intros x y; apply M.
  - pose proof (edges_bound rules). pose proof (unseen_add (block_successors rules) n ∅ ltac:(set_solver)). lia.
Qed.

End Graph.

(** The loop guard is exact.  [loop_relations] returns exactly the relations that
    reach themselves through rules between relations that are not errors; the search from
    each start ends within the edges there are. *)
Theorem loop_relations_exact `{AyTry.AyTry} (vc : Chc.ChcVc) (rel : string) :
  rel ∈ loop_relations vc <-> tc (block_edge (Chc.rules vc)) rel rel.
Proof.
  unfold loop_relations. rewrite elem_of_filter, on_loop_spec. split; [by intros [T _]|]. intros T. split; [done|].
  inversion T as [x y E|x y z E T']; subst; by eapply nodes_spec.
Qed.

End StraightlineLoops.
