(* ===== verification/StraightlineTheorems.v ===== *)
(** * What the straight-line prover promises

    The theorems on straightline_proof.rs, each with a run in the sample language, and
    the systems it wrongly calls safe. *)

From S2P Require Import Prelude AyExpr Chc BvArith AyBuild HeapLiveness AyBuildSample Visits AyTry PathFacts StraightlineSimplify Straightline StraightlineSpec StraightlineSearch.

Module StraightlineTheorems.
Import BvArith AyBuild AyTry Visits PathFacts StraightlineSimplify StraightlineSimplifySpec Straightline StraightlineSpec
  StraightlineSearch StraightlineBudget.

(** ** The prover *)

Section Prover.
Context `{AyTryEval} (grant : N -> bool) (nesting depth : nat).

(** A run that is not declined has enumerated a closed set of frames. *)
Lemma proven_enumerated vc : prove_straightline_safety_detailed grant nesting depth MAX_ROUNDS vc <> NotProven ->
  exists fs n, enumerate grant nesting depth MAX_ROUNDS vc 0%N = (Some (Some fs), n) /\
    prove_straightline_safety_detailed grant nesting depth MAX_ROUNDS vc = outcome_of vc fs.
Proof.
  unfold prove_straightline_safety_detailed. destruct (Nat.ltb _ _); [done|]. destruct (existsb _ _); [done|].
  destruct (negb _); [done|]. destruct (enumerate grant nesting depth MAX_ROUNDS vc 0%N) as [[[fs|]|] n]; [|done..].
  intros _. by exists fs, n.
Qed.

Lemma enumerate_saturated rounds vc n o n' : (MAX_ROUNDS <= rounds)%nat ->
  enumerate grant nesting depth rounds vc n = (Some o, n') ->
  exists fs, o = Some fs /\
  forall rule frame, rule ∈ Chc.rules vc -> frame ∈ body_frames fs rule ->
  settled grant nesting depth (relation_sorts vc) fs rule frame.
Proof.
  intros L E. assert (B0 : total_frames search_start = 0%nat) by done.
  refine (saturate_spec grant nesting depth _ _ rounds search_start n o n' _ _ E); rewrite B0;
    unfold MAX_ROUNDS in L; lia.
Qed.

Lemma enumerate_closed vc fs n n' : enumerate grant nesting depth MAX_ROUNDS vc n = (Some (Some fs), n') ->
  forall rule frame, rule ∈ Chc.rules vc -> frame ∈ body_frames fs rule ->
  settled grant nesting depth (relation_sorts vc) fs rule frame.
Proof.
  intros E. destruct (enumerate_saturated MAX_ROUNDS vc n _ n' (Nat.le_refl _) E) as (fs' & [= <-] & C). exact C.
Qed.

(** A covered relation has a frame; vacuous means no exit has one. *)
Lemma vacuous_no_exit vc fs sink : outcome_of vc fs = VacuousUnreachableChecks -> sink ∈ sinks vc ->
  frames_of fs sink = [].
Proof.
  unfold outcome_of. destruct (existsb _ (elements _)); [done|].
  destruct (existsb _ (sinks vc)) eqn:E; [by rewrite andb_false_r|]. intros _ Hs.
  apply not_true_iff_false in E. unfold frames_of. destruct (fs !! sink) as [[|f l]|] eqn:L; [done| |done].
  destruct E. apply existsb_exists. exists sink. split; [by apply list_elem_of_In|]. by rewrite L.
Qed.

(** C3: The verdicts of the straight-line prover.  When it answers for a system of
    quantifier-free rules, it has enumerated frames; if no variable of a reached frame
    is captured by a rule, no error is derivable, and when it answers "vacuous" no exit
    of the program is reachable at all.  Neither the visit budget, nor the depth, nor the
    memo tables can turn a derivable error into a proof. *)
Theorem straightline_sound vc :
  (forall rule, rule ∈ Chc.rules vc -> rule_qf rule) ->
  prove_straightline_safety_detailed grant nesting depth MAX_ROUNDS vc <> NotProven ->
  exists fs n, enumerate grant nesting depth MAX_ROUNDS vc 0%N = (Some (Some fs), n) /\
  (capture_free (Chc.rules vc) fs = true ->
   (forall vs, ~ Chc.derivable (Chc.rules vc) "error" vs) /\
   (prove_straightline_safety_detailed grant nesting depth MAX_ROUNDS vc = VacuousUnreachableChecks ->
    forall sink vs, sink ∈ sinks vc -> ~ Chc.derivable (Chc.rules vc) sink vs)).
Proof.
  intros Q P. destruct (proven_enumerated vc P) as (fs & n & E & O). exists fs, n. split; [done|]. intros C.
  pose proof (derivable_covered grant nesting depth _ _ fs (enumerate_closed vc fs _ _ E) Q C) as D. split.
  - intros vs Dv. by destruct (D _ _ Dv).
  - intros V sink vs Hs Dv. rewrite O in V. destruct (D _ _ Dv) as [_ (f & r & Hf & _)].
    rewrite (vacuous_no_exit vc fs sink V Hs) in Hf. by apply elem_of_nil in Hf.
Qed.

(** ** The discharge *)

Lemma replaced_no_error vc vs : ~ Chc.derivable (Chc.rules (replace_with_unsat_error_obligation vc)) "error" vs.
Proof.
  intros D. inversion D as [rule r Hr Ad T _ En Ev]. cbn in Hr. apply list_elem_of_singleton in Hr as ->.
  specialize (T (bool_const false) ltac:(cbn; left)).
  by apply (eval_false r (bool_const false) (value_bool_const false)) in T.
Qed.

Lemma has_error_iff vc : has_error_rule vc = true <-> exists rule, rule ∈ Chc.rules vc /\ Chc.head_name rule = "error".
Proof.
  unfold has_error_rule. rewrite existsb_exists. split; intros (rule & Hr & E); exists rule.
  - split; [by apply list_elem_of_In|by apply String.eqb_eq].
  - split; [by apply list_elem_of_In|by apply String.eqb_eq].
Qed.

Lemma no_error_rule vc vs : has_error_rule vc = false -> ~ Chc.derivable (Chc.rules vc) "error" vs.
Proof.
  intros E D%Chc.derivable_head. apply not_true_iff_false in E. apply E, has_error_iff.
  apply list_elem_of_fmap in D as (rule & Eh & Hr). by exists rule.
Qed.

(** C11: The discharge of a system whose rules have no quantifiers.  A refused discharge
    leaves the system alone and records nothing.  An accepted one replaces the rules by
    one error obligation that cannot be derived, marks the system, and never happens for
    registered checks whose error rules are lost; a function is recorded as vacuous only
    when the prover found no exit.  When moreover the frames the prover enumerated are
    [capture_free], the error was not derivable in the original system either; without
    that it may have been ([capture_unsound]). *)
Theorem discharge_sound vc ok vc' fns :
  (forall rule, rule ∈ Chc.rules vc -> rule_qf rule) ->
  discharge_straightline_safety grant nesting depth MAX_ROUNDS vc = (ok, vc', fns) ->
  (ok = false -> vc' = vc /\ fns = []) /\
  (ok = true ->
    (forall vs, ~ Chc.derivable (Chc.rules vc') "error" vs) /\
    has_error_rule vc' = true /\ has_error_relation vc' = true /\ Chc.trivially_safe_discharged vc' = true /\
    Chc.properties vc' = Chc.properties vc /\ (has_error_rule vc = false -> Chc.properties vc = []) /\
    (fns = [] \/ (fns = [vacuous_fn_name vc] /\ Chc.vacuous_all_checks_unreachable vc' = true)) /\
    ((forall fs n, enumerate grant nesting depth MAX_ROUNDS vc 0%N = (Some (Some fs), n) ->
        capture_free (Chc.rules vc) fs = true) ->
     forall vs, ~ Chc.derivable (Chc.rules vc) "error" vs)).
Proof.
  intros Q E. assert (Hr : forall b, has_error_relation (set_discharged true b (replace_with_unsat_error_obligation vc)) = true).
  { intros b. unfold has_error_relation, set_discharged, replace_with_unsat_error_obligation.
    cbn [Chc.relations Chc.set_rules]. destruct (has_error_relation vc) eqn:R; [exact R|].
    rewrite existsb_app. cbn. apply orb_true_r. }
  assert (D : forall b, (has_error_rule vc = false -> Chc.properties vc = []) ->
    ((forall fs n, enumerate grant nesting depth MAX_ROUNDS vc 0%N = (Some (Some fs), n) ->
        capture_free (Chc.rules vc) fs = true) -> forall vs, ~ Chc.derivable (Chc.rules vc) "error" vs) ->
    forall vc', vc' = set_discharged true b (replace_with_unsat_error_obligation vc) ->
    (forall vs, ~ Chc.derivable (Chc.rules vc') "error" vs) /\ has_error_rule vc' = true /\
    has_error_relation vc' = true /\ Chc.trivially_safe_discharged vc' = true /\
    Chc.properties vc' = Chc.properties vc /\ (has_error_rule vc = false -> Chc.properties vc = []) /\
    Chc.vacuous_all_checks_unreachable vc' = b /\
    ((forall fs n, enumerate grant nesting depth MAX_ROUNDS vc 0%N = (Some (Some fs), n) ->
        capture_free (Chc.rules vc) fs = true) -> forall vs, ~ Chc.derivable (Chc.rules vc) "error" vs)).
  { intros b P N x ->. split_and!; [apply (replaced_no_error vc)|done|apply Hr|done..]. }
  unfold discharge_straightline_safety in E. destruct (has_error_rule vc) eqn:Er.
  - assert (S : prove_straightline_safety_detailed grant nesting depth MAX_ROUNDS vc <> NotProven ->
      (forall fs n, enumerate grant nesting depth MAX_ROUNDS vc 0%N = (Some (Some fs), n) ->
        capture_free (Chc.rules vc) fs = true) -> forall vs, ~ Chc.derivable (Chc.rules vc) "error" vs).
    { intros P C vs. destruct (proven_enumerated vc P) as (fs & n & En & _).
      intros Dv. by destruct (derivable_covered grant nesting depth _ _ fs (enumerate_closed vc fs _ _ En) Q (C fs n En) _ _ Dv). }
    destruct (prove_straightline_safety_detailed grant nesting depth MAX_ROUNDS vc);
      injection E as <- <- <-; [done| |]; (split; [done|]); intros _;
      match goal with |- context [set_discharged true ?b _] =>
        destruct (D b ltac:(done) (S ltac:(done)) _ eq_refl) as (? & ? & ? & ? & ? & ? & ? & ?) end;
      split_and!; auto.
  - destruct (has_error_relation vc); cbn [negb] in E; [|by injection E as <- <- <-].
    destruct (Chc.properties vc) eqn:Ep; injection E as <- <- <-; [|done]. split; [done|]. intros _.
    destruct (D (Chc.vacuous_all_checks_unreachable vc) ltac:(done) (fun _ vs => no_error_rule vc vs Er) _ eq_refl)
      as (? & ? & ? & ? & ? & ? & ? & ?). split_and!; auto.
Qed.

End Prover.

(** ** The walkers *)

Section Walkers.
Context `{AyTryEval}.

(** C10: Substitution and simplification keep the meaning of an expression without
    quantifiers.  Under a valuation in which the bindings and the recorded facts hold,
    whatever the walkers return means what they were given, and has no quantifiers
    either (below a binder the walkers substitute by name): every fold of a comparison, an addition that wraps, a read of a store, a
    selector or a tester, with the facts used to decide equalities, comparisons and
    overflow checks.  No grant of visits and no depth makes a difference. *)
Theorem walkers_keep_meaning grant nesting depth env facts e n e' n' r :
  admissible r -> env_ok r env -> holds r facts -> quantifier_free e ->
  (x ← substitute grant depth e env; simplify_with_facts grant nesting depth facts x) n = (Some e', n') ->
  eval r e' = eval r e /\ quantifier_free e'.
Proof.
  intros Hr He Hf Q E.
  assert (W : ensures (x ← substitute grant depth e env; simplify_with_facts grant nesting depth facts x)
    (means r (eval r e))).
  { eapply ensures_bind; [by apply (substitute_ok r)|]. intros x [Qx <-]. by apply simplify_ok. }
  destruct (W n e' n' E). done.
Qed.

(** Pruning is sound.  A valuation that satisfies the constraints of a rule, the
    bindings of its arguments and the facts of the path keeps the edge feasible, and
    satisfies every binding and every bound and disequality learned from them: an edge is
    pruned only when no execution takes it. *)
Theorem constraints_keep_models grant nesting depth cs env facts n status env' facts' n' r :
  admissible r -> (forall c, c ∈ Chc.iter cs -> quantifier_free c /\ is_true (eval r c)) ->
  env_ok r env -> holds r facts ->
  apply_constraints grant nesting depth cs (env, facts) n = (Some (status, (env', facts')), n') ->
  status <> Infeasible /\ env_ok r env' /\ holds r facts'.
Proof.
  intros Hr Hcs He Hf E.
  exact (apply_constraints_ok grant nesting depth r Hr cs (env, facts) Hcs He Hf n _ n' E).
Qed.

End Walkers.

(** ** Termination *)

Section Termination.
Context `{AyTry} (depth : nat).

Lemma zero_covers nesting : (MAX_NESTING <= nesting)%nat -> covers MAX_STRAIGHTLINE_NODE_VISITS nesting 0.
Proof. unfold covers, MAX_NESTING. intros. lia. Qed.

(** The prover ends.  The loop over the rules never needs more rounds than the frames
    its budget allows, and the recursions without a depth guard never nest deeper than
    the visits its budget allows: with the budgets of the source, any larger bounds give
    the same outcome, and the loop never stops for want of a round. *)
Theorem straightline_ends nesting rounds vc :
  (MAX_NESTING <= nesting)%nat -> (MAX_ROUNDS <= rounds)%nat ->
  prove_straightline_safety_detailed node_budget nesting depth rounds vc =
    prove_straightline_safety_detailed node_budget MAX_NESTING depth MAX_ROUNDS vc /\
  (enumerate node_budget nesting depth rounds vc 0%N).1 <> Some None.
Proof.
  intros Ln Lr.
  assert (R : enumerate node_budget nesting depth rounds vc 0%N = enumerate node_budget MAX_NESTING depth MAX_ROUNDS vc 0%N).
  { unfold enumerate. transitivity (saturate node_budget nesting depth (relation_sorts vc) (Chc.rules vc) MAX_ROUNDS search_start 0%N).
    - assert (B0 : total_frames search_start = 0%nat) by done.
      apply saturate_rounds; rewrite B0; unfold MAX_ROUNDS in *; lia.
    - apply (saturate_agree MAX_STRAIGHTLINE_NODE_VISITS nesting MAX_NESTING depth 0%N); [by apply zero_covers|by apply zero_covers|lia]. }
  split; [unfold prove_straightline_safety_detailed; by rewrite R|].
  intros E. destruct (enumerate node_budget nesting depth rounds vc 0%N) as [o n] eqn:En. cbn in E. subst o.
  by destruct (enumerate_saturated _ _ _ rounds vc 0%N None n Lr En) as (fs & [=] & _).
Qed.

(** The state of the enumeration.  Every set of frames is a set, within its budget,
    of frames with arguments of the sorts declared for the relation, and the error
    relation has none. *)
Theorem frames_well_typed grant nesting rounds vc fs n n' name :
  enumerate grant nesting depth rounds vc n = (Some (Some fs), n') ->
  NoDup (frames_of fs name) /\ (length (frames_of fs name) <= MAX_FRAMES_PER_RELATION)%nat /\
  frames_of fs "error" = [] /\
  forall f, f ∈ frames_of fs name -> relation_sorts vc !! name = Some (map sort_of (frame_args f)).
Proof.
  intros E. assert (T : forall name, typed_frames (relation_sorts vc) name (frames_of fs name)).
  { refine (saturate_typed grant nesting depth _ _ rounds search_start n fs n' _ E). intros m.
    unfold frames_of. cbn [reachable search_start]. rewrite lookup_empty. cbn [default].
    split_and!; [constructor|cbn; lia|done|]. intros f Hf. by apply elem_of_nil in Hf. }
  destruct (T name) as (Nd & L & _ & Ts). split_and!; [done|done| |done].
  destruct (T "error") as (_ & _ & Ne & _). destruct (frames_of fs "error"); [done|]. by destruct Ne.
Qed.

End Termination.

(** ** Runs in the sample language *)

Section Sample.
Import AyBuildSample SampleSystems AyTrySample.

Abbreviation rule := (@Chc.Rule terms).
Definition ult (a b : @Expr terms) : @Expr terms := TBin BvULt a b.
Definition neg (a : @Expr terms) : @Expr terms := TUn Not a.

(** [P(x)] when [x < 10]; an error from [P(y)] when not [y < 20]; the exit [E(y)]. *)
Definition guarded : @Chc.ChcVc terms := system [("P", 1%nat); ("E", 1%nat); ("error", 0%nat)]
  [clause None [ult (sym "x") (num 10)] (call "P" [sym "x"]);
   clause (Some (call "P" [sym "y"])) [neg (ult (sym "y") (num 20))] (call "error" []);
   clause (Some (call "P" [sym "y"])) [] (call "E" [sym "y"])].

(** The same with contradictory assumptions on [x]. *)
Definition contradictory : @Chc.ChcVc terms := system [("P", 1%nat); ("E", 1%nat); ("error", 0%nat)]
  [clause None [ult (num 10) (sym "x"); TBin BvUGt (sym "x") (num 10); ult (sym "x") (num 5)] (call "P" [sym "x"]);
   clause (Some (call "P" [sym "y"])) [TEq (sym "y") (num 0)] (call "error" []);
   clause (Some (call "P" [sym "y"])) [] (call "E" [sym "y"])].

(** [A(x__out)] for any value; [B(x__out)] from [A(x)] with [x < 10] and
    [x__out = x]; [C(x__out)] from [B(x)] with [x__out = x + 1]; an error from
    [C(x)] when not [x < 10]; the exit [E(x)]. *)
Definition stale : @Chc.ChcVc terms := system
  [("A", 1%nat); ("B", 1%nat); ("C", 1%nat); ("E", 1%nat); ("error", 0%nat)]
  [clause None [] (call "A" [sym "x__out"]);
   clause (Some (call "A" [sym "x"])) [ult (sym "x") (num 10); TEq (sym "x__out") (sym "x")] (call "B" [sym "x__out"]);
   clause (Some (call "B" [sym "x"])) [TEq (sym "x__out") (succ (sym "x"))] (call "C" [sym "x__out"]);
   clause (Some (call "C" [sym "x"])) [neg (ult (sym "x") (num 10))] (call "error" []);
   clause (Some (call "C" [sym "x"])) [] (call "E" [sym "x"])].

(** The prover with the budgets of the source *)
Abbreviation prove :=
  (@prove_straightline_safety_detailed terms term_api term_try node_budget MAX_NESTING MAX_STRAIGHTLINE_RECURSION_DEPTH MAX_ROUNDS).
Abbreviation discharge :=
  (@discharge_straightline_safety terms term_api term_try node_budget MAX_NESTING MAX_STRAIGHTLINE_RECURSION_DEPTH MAX_ROUNDS).

Lemma stale_error : @Chc.derivable terms term_sem (Chc.rules stale) "error" [].
Proof.
  fire fire_derivable [("x", 10%Z)] 3%nat.
  fire fire_derivable [("x", 9%Z); ("x__out", 10%Z)] 2%nat.
  fire fire_derivable [("x", 9%Z); ("x__out", 9%Z)] 1%nat.
  eapply (fire_derivable [("x__out", 9%Z)]); [eapply (nth_in 0%nat); reflexivity|by vm_compute|reflexivity|reflexivity|].
  intros ? [=].
Qed.

(** C40: The names of variables are no identities.  In this system of the encoder's
    shape, where a rule defines the next value [x__out] from [x] and the first value is
    arbitrary, the prover, with the budgets of the source, answers "safe" and the
    discharge replaces the system; yet the error is derivable: from 9 by adding one.  The
    frame's value [x__out] captures the rule's own [x__out], whose definition
    [x__out = x + 1] becomes [x__out = x__out + 1] and is dropped.  The side condition of
    the soundness theorem, which fails here, is needed. *)
Theorem capture_unsound :
  prove stale = Safe /\ @Chc.derivable terms term_sem (Chc.rules stale) "error" [] /\
  (discharge stale).1.1 = true /\
  (forall vs, ~ @Chc.derivable terms term_sem (Chc.rules (discharge stale).1.2) "error" vs) /\
  (forall rule, rule ∈ Chc.rules stale -> @rule_qf terms rule) /\
  exists fs, (enumerate node_budget MAX_NESTING MAX_STRAIGHTLINE_RECURSION_DEPTH MAX_ROUNDS stale 0%N).1
      = Some (Some fs) /\ capture_free (Chc.rules stale) fs = false.
Proof.
  split; [by vm_compute|]. split; [exact stale_error|]. split; [by vm_compute|]. split; [|split].
  - assert (P : prove stale = Safe) by (by vm_compute). unfold discharge_straightline_safety.
    assert (E : has_error_rule stale = true) by (by vm_compute). rewrite E, P.
    exact (replaced_no_error stale).
  - intros rule _ e _. apply all_quantifier_free.
  - assert (C : match (enumerate node_budget MAX_NESTING MAX_STRAIGHTLINE_RECURSION_DEPTH MAX_ROUNDS stale 0%N).1 with
      | Some (Some fs) => negb (capture_free (Chc.rules stale) fs) | _ => false end = true) by (by vm_compute).
    destruct (enumerate _ _ _ _ stale 0%N).1 as [[fs|]|]; [|done..]. exists fs. split; [done|].
    by apply negb_true_iff.
Qed.

(** ** The witnesses *)

(** What an enumeration with the budgets of the source finds is capture free. *)
Definition found_free (vc : @Chc.ChcVc terms) : bool :=
  match (enumerate node_budget MAX_NESTING MAX_STRAIGHTLINE_RECURSION_DEPTH MAX_ROUNDS vc 0%N).1 with
  | Some (Some fs) => capture_free (Chc.rules vc) fs
  | _ => false
  end.

Lemma found_free_at vc fs n : found_free vc = true ->
  enumerate node_budget MAX_NESTING MAX_STRAIGHTLINE_RECURSION_DEPTH MAX_ROUNDS vc 0%N = (Some (Some fs), n) ->
  capture_free (Chc.rules vc) fs = true.
Proof. unfold found_free. intros F E. by rewrite E in F. Qed.

Lemma all_rules_qf (vc : @Chc.ChcVc terms) rule : rule ∈ Chc.rules vc -> @rule_qf terms rule.
Proof. intros _ e _. apply all_quantifier_free. Qed.

Lemma straightline_sound_witness :
  prove guarded = Safe /\ prove contradictory = VacuousUnreachableChecks /\
  (forall vs, ~ @Chc.derivable terms term_sem (Chc.rules guarded) "error" vs) /\
  (forall vs, ~ @Chc.derivable terms term_sem (Chc.rules contradictory) "E" vs).
Proof.
  assert (G : prove guarded = Safe) by (by vm_compute).
  assert (C : prove contradictory = VacuousUnreachableChecks) by (by vm_compute).
  split; [exact G|]. split; [exact C|]. split.
  - destruct (straightline_sound node_budget MAX_NESTING MAX_STRAIGHTLINE_RECURSION_DEPTH guarded
      (all_rules_qf guarded)) as (fs & n & E & S); [by rewrite G|].
    exact (proj1 (S (found_free_at guarded fs n ltac:(by vm_compute) E))).
  - destruct (straightline_sound node_budget MAX_NESTING MAX_STRAIGHTLINE_RECURSION_DEPTH contradictory
      (all_rules_qf contradictory)) as (fs & n & E & S); [by rewrite C|].
    intros vs. apply (proj2 (S (found_free_at contradictory fs n ltac:(by vm_compute) E))).
    + exact C.
    + assert (I : bool_decide ("E" ∈ sinks contradictory) = true) by (by vm_compute).
      by apply bool_decide_eq_true in I.
Defined.

Lemma discharge_sound_witness :
  (discharge contradictory).1.1 = true /\ (discharge contradictory).2 = ["unknown"] /\
  Chc.trivially_safe_discharged (discharge contradictory).1.2 = true /\
  (forall vs, ~ @Chc.derivable terms term_sem (Chc.rules contradictory) "error" vs).
Proof.
  assert (O : (discharge contradictory).1.1 = true) by (by vm_compute).
  split; [exact O|]. split; [by vm_compute|].
  destruct (discharge contradictory) as [[ok vc'] fns] eqn:D. cbn in O. subst ok.
  destruct (proj2 (discharge_sound node_budget MAX_NESTING MAX_STRAIGHTLINE_RECURSION_DEPTH contradictory true vc' fns
    (all_rules_qf contradictory) D) eq_refl) as (_ & _ & _ & T & _ & _ & _ & N).
  split; [exact T|]. apply N. intros fs n E. exact (found_free_at contradictory fs n ltac:(by vm_compute) E).
Defined.

Lemma walkers_keep_meaning_witness :
  let facts := add_unsigned_upper_bound no_facts (sym "x") 10 8 in
  let e : @Expr terms := ult (sym "y") (num 20) in
  (x ← substitute node_budget 9 e {["y" := sym "x"]}; simplify_with_facts node_budget 9 9 facts x) 0%N
    = (Some (TBool true), 7%N) /\
  seval (valuation [("x", 7%Z); ("y", 7%Z)]) e = VBool true.
Proof.
  cbv zeta. set (r := valuation [("x", 7%Z); ("y", 7%Z)]).
  assert (E : (x ← substitute node_budget 9 (ult (sym "y") (num 20)) {["y" := sym "x"]};
   simplify_with_facts node_budget 9 9 (add_unsigned_upper_bound no_facts (sym "x") 10 8) x) 0%N
    = (Some (TBool true), 7%N)) by (by vm_compute).
  split; [exact E|]. symmetry.
  refine (proj1 (walkers_keep_meaning node_budget 9 9 {["y" := sym "x"]} _ _ 0%N _ 7%N r _ _ _ _ E)).
  - by apply valuation_ok.
  - intros n e [<- <-]%lookup_singleton_Some. split; [apply all_quantifier_free|done].
  - apply add_upper_holds; [apply no_facts_hold|]. by exists 7%Z.
  - apply all_quantifier_free.
Defined.

Lemma constraints_keep_models_witness :
  let cs := Chc.Owned [ult (sym "x") (num 10); TEq (sym "x__out") (succ (sym "x"))] in
  exists env' facts' n', apply_constraints node_budget MAX_NESTING 9 cs (∅, no_facts) 0%N
    = (Some (Feasible, (env', facts')), n') /\
  @env_ok terms term_sem (valuation [("x", 7%Z); ("x__out", 8%Z)]) env' /\
  env' !! "x__out" = Some (succ (sym "x")) /\
  @holds terms term_api term_sem term_eval (valuation [("x", 7%Z); ("x__out", 8%Z)]) facts'.
Proof.
  cbv zeta. set (cs := Chc.Owned [ult (sym "x") (num 10); TEq (sym "x__out") (succ (sym "x"))]).
  set (r := valuation [("x", 7%Z); ("x__out", 8%Z)]).
  assert (F : match apply_constraints node_budget MAX_NESTING 9 cs (∅, no_facts) 0%N with
    | (Some (status, (env', _)), _) => bool_decide (status = Feasible /\ env' !! "x__out" = Some (succ (sym "x")))
    | _ => false end = true) by (by vm_compute).
  destruct (apply_constraints node_budget MAX_NESTING 9 cs (∅, no_facts) 0%N) as [[[status [env' facts']]|] n'] eqn:E;
    [|done]. apply bool_decide_eq_true in F as [-> L]. exists env', facts', n'. split; [done|].
  destruct (constraints_keep_models node_budget MAX_NESTING 9 cs ∅ no_facts 0%N Feasible env' facts' n' r) as (_ & He & Hf).
  - by apply valuation_ok.
  - intros c Hc. split; [apply all_quantifier_free|].
    apply elem_of_cons in Hc as [->|Hc]; [done|]. apply list_elem_of_singleton in Hc as ->. done.
  - intros n e Ln. by rewrite lookup_empty in Ln.
  - apply no_facts_hold.
  - exact E.
  - done.
Defined.

Lemma straightline_ends_witness :
  (MAX_NESTING <= S MAX_NESTING)%nat /\ (MAX_ROUNDS <= 600)%nat /\
  prove_straightline_safety_detailed node_budget (S MAX_NESTING) MAX_STRAIGHTLINE_RECURSION_DEPTH 600 guarded = Safe.
Proof.
  assert (L : (MAX_ROUNDS <= 600)%nat) by (apply Nat.leb_le; by vm_compute).
  split; [apply Nat.le_succ_diag_r|]. split; [exact L|].
  rewrite (proj1 (straightline_ends MAX_STRAIGHTLINE_RECURSION_DEPTH (S MAX_NESTING) 600 guarded
    (Nat.le_succ_diag_r _) L)). by vm_compute.
Defined.

Lemma frames_well_typed_witness : exists fs n,
  enumerate node_budget MAX_NESTING MAX_STRAIGHTLINE_RECURSION_DEPTH MAX_ROUNDS guarded 0%N = (Some (Some fs), n) /\
  length (frames_of fs "P") = 1%nat /\ frames_of fs "error" = [].
Proof.
  assert (F : match enumerate node_budget MAX_NESTING MAX_STRAIGHTLINE_RECURSION_DEPTH MAX_ROUNDS guarded 0%N with
    | (Some (Some fs), _) => Nat.eqb (length (frames_of fs "P")) 1 | _ => false end = true) by (by vm_compute).
  destruct (enumerate node_budget MAX_NESTING MAX_STRAIGHTLINE_RECURSION_DEPTH MAX_ROUNDS guarded 0%N)
    as [[[fs|]|] n] eqn:E; [|done..]. exists fs, n. split; [done|]. split; [by apply Nat.eqb_eq|].
  exact (proj1 (proj2 (proj2 (frames_well_typed _ _ _ _ _ _ _ _ "P" E)))).
Defined.

End Sample.

End StraightlineTheorems.
