(* ===== verification/DeadScalars.v ===== *)
(** * Dead pass-through columns

    Models [chc_optimize_dead_scalars.rs] of trust-mc-core: the state variables that
    every rule only hands on, and the columns of the relations that carry them.  A
    column is removed by position, from the declaration and from every application at
    once.  The pass never loses a derivation; it may invent one, where an application
    in a body holds a literal at a dead column ([columns_kept_apart] is the condition
    under which it does not). *)

From S2P Require Import Prelude AyExpr Chc DeadVars DeadArgs.

Module DeadScalars.
Import Chc DeadVars DeadArgs.

Section Pass.
Context `{AyExpr}.

(** ** Slots *)

(** [slot_base]: the column a name of the encoder stands for *)
Definition slot_base (name : string) : string :=
  let base := default name (Str.before name "__mid_bb") in
  default base (Str.strip_suffix base "__out").

(** [alias_identity_base]: an equality between two names of one slot *)
Definition alias_identity_base (constraint : Expr) : option string :=
  match value constraint with
  | Eq lhs rhs =>
      match value lhs, value rhs with
      | Var a, Var b =>
          let base := slot_base a in
          if String.eqb base (slot_base b) then Some base else None
      | _, _ => None
      end
  | _ => None
  end.

(** [expr_var_mentions] *)
Definition expr_var_mentions (e : Expr) : gset string := expr_vars e.
(** [expr_mentions_any_var] *)
Definition expr_mentions_any_var (e : Expr) : bool := negb (bool_decide (collect_expr_vars e = [])).

(** ** Dead slots *)

Definition is_var (e : Expr) (name : string) : bool :=
  match value e with Var n => String.eqb n name | _ => false end.

(** The two orders of an equality *)
Definition eq_either (constraint : Expr) (p : Expr -> Expr -> bool) : bool :=
  match value constraint with
  | Eq lhs rhs => p lhs rhs || p rhs lhs
  | _ => false
  end.

Definition is_identity (constraint : Expr) (input output : string) : bool :=
  match value constraint with
  | Eq lhs rhs =>
      match value lhs, value rhs with
      | Var a, Var b =>
          (String.eqb a input && String.eqb b output) || (String.eqb a output && String.eqb b input)
      | _, _ => false
      end
  | _ => false
  end.

(** [if lhs is output { rhs } else if rhs is output { lhs } else { return false }] *)
Definition is_const_init_of_output (constraint : Expr) (output : string) : bool :=
  match value constraint with
  | Eq lhs rhs =>
      if is_var lhs output then negb (expr_mentions_any_var rhs)
      else if is_var rhs output then negb (expr_mentions_any_var lhs)
      else false
  | _ => false
  end.

Definition is_select_of_var (e : Expr) (input : string) : bool :=
  match value e with
  | Binary Select array index => is_var array input && negb (expr_mentions_any_var index)
  | _ => false
  end.
Definition is_const_select_of_input (constraint : Expr) (input : string) : bool :=
  eq_either constraint (fun a b => is_select_of_var a input && negb (expr_mentions_any_var b)).

Definition is_store_from_input (e : Expr) (input : string) : bool :=
  match value e with
  | Store array index v =>
      is_var array input && negb (expr_mentions_any_var index) && negb (expr_mentions_any_var v)
  | _ => false
  end.
Definition is_store_update_of_output (constraint : Expr) (input output : string) : bool :=
  eq_either constraint (fun a b => is_var a output && is_store_from_input b input).

(** One constraint of [is_dead_scalar]: it does not read the slot. *)
Definition passes_through (is_init_rule : bool) (constraint : Expr) (input output : string) : bool :=
  let mentions := collect_expr_vars constraint in
  if bool_decide (alias_identity_base constraint = Some input) then true
  else if existsb (fun name => String.eqb (slot_base name) input && negb (String.eqb name input) &&
                               negb (String.eqb name output)) mentions then false
  else if is_identity constraint input output then true
  else if is_const_init_of_output constraint output then true
  else if is_init_rule && is_const_select_of_input constraint input then true
  else if is_store_update_of_output constraint input output then true
  else negb (bool_decide (output ∈ mentions) || bool_decide (input ∈ mentions)).

Definition is_init_rule (r : Rule) : bool := match relation (body r) with None => true | Some _ => false end.

Definition is_dead_scalar (rs : list Rule) (input output : string) : bool :=
  forallb (fun r => forallb (fun c => passes_through (is_init_rule r) c input output)
                            (iter (constraints (body r)))) rs.

(** The loop of [prune_dead_identity_scalars] over the declared variables *)
Definition dead_slots (vc : ChcVc) : gset string :=
  list_to_set (List.filter (fun input =>
      negb (Str.ends_with input "__out") && String.eqb (slot_base input) input &&
      is_dead_scalar (rules vc) input (input +:+ "__out"))
    (map var_name (vars vc))).

(** ** Columns *)

(** The triple kept for a column: droppable so far, the slot named here, saw a name *)
Record Column := { droppable : bool; slot : option string; named : bool }.

Definition new_column : Column := {| droppable := true; slot := None; named := false |}.

(** The loop body over the arguments; [None] when two applications disagree. *)
Definition observe_arg (dead : gset string) (arg : Expr) (c : Column) : option Column :=
  match value arg with
  | Var name =>
      let base := slot_base name in
      let observed := {| droppable := droppable c && bool_decide (base ∈ dead); slot := Some base; named := true |} in
      match slot c with
      | Some seen => if String.eqb seen base then Some observed else None
      | None => Some observed
      end
  | _ =>
      if expr_mentions_any_var arg then Some {| droppable := false; slot := slot c; named := named c |}
      else Some c
  end.
Fixpoint observe_args (dead : gset string) (args : list Expr) (cs : list Column) : option (list Column) :=
  match args, cs with
  | arg :: args, c :: cs =>
      c ← observe_arg dead arg c;
      cs ← observe_args dead args cs;
      Some (c :: cs)
  | _, _ => Some cs
  end.

Abbreviation Columns := (gmap string (option (list Column))).
Abbreviation Masks := (gmap string (option (list bool))).

Definition decl_arity (vc : ChcVc) : gmap string nat :=
  foldl (fun m rel => <[rel_name rel := length (arg_sorts rel)]> m) ∅ (relations vc).

(** The closure [observe] *)
Definition observe (arities : gmap string nat) (dead : gset string) (acc : Columns) (app : RelationApp) : Columns :=
  match arities !! app_name app with
  | None => <[app_name app := None]> acc
  | Some arity =>
      match default (Some (replicate arity new_column)) (acc !! app_name app) with
      | None => acc
      | Some columns =>
          <[app_name app :=
              if Nat.eqb (length (args app)) arity then observe_args dead (args app) columns else None]> acc
      end
  end.

(** Head first, then body *)
Definition apps_observed (rs : list Rule) : list RelationApp :=
  flat_map (fun r => head r :: match relation (body r) with Some app => [app] | None => [] end) rs.

Definition column_mask (cs : list Column) : list bool := map (fun c => droppable c && named c) cs.

Definition dead_column_masks (vc : ChcVc) (dead : gset string) : Masks :=
  fmap (M := gmap string) (fun columns => column_mask <$> columns)
    (foldl (observe (decl_arity vc) dead) ∅ (apps_observed (rules vc))).

(** Drop the masked columns of a list that has one entry for each. *)
Definition drop_columns {A} (masks : Masks) (name : string) (l : list A) : list A :=
  match masks !! name with
  | Some (Some mask) => if Nat.eqb (length mask) (length l) then keep mask l else l
  | _ => l
  end.

(** [remove_dead_columns] *)
Definition remove_dead_columns (masks : Masks) (app : RelationApp) : RelationApp :=
  {| app_name := app_name app; args := drop_columns masks (app_name app) (args app) |}.

(** The number of columns the masks drop *)
Definition pruned_columns (masks : Masks) : nat :=
  list_sum (map (fun p => match p.2 with Some mask => length (List.filter id mask) | None => 0 end)
                (map_to_list masks)).

(** ** The pass *)

Definition is_inert_dead_constraint (dead framed : gset string) (constraint : Expr) : bool :=
  let mentions := collect_expr_vars constraint in
  negb (bool_decide (mentions = [])) &&
  forallb (fun name => bool_decide (slot_base name ∈ dead) && negb (bool_decide (name ∈ framed))) mentions.

Definition app_vars (app : RelationApp) : gset string := list_to_set (flat_map collect_expr_vars (args app)).

(** The names left in the relation atoms of a rule *)
Definition framed_names (head : RelationApp) (relation : option RelationApp) : gset string :=
  app_vars head ∪ match relation with Some app => app_vars app | None => ∅ end.

Definition prune_rule (masks : Masks) (dead : gset string) (r : Rule) : Rule :=
  let head := remove_dead_columns masks (head r) in
  let relation := remove_dead_columns masks <$> relation (body r) in
  let framed := framed_names head relation in
  {| body := {| relation := relation;
                constraints := Owned (List.filter (fun c => negb (is_inert_dead_constraint dead framed c))
                                                  (iter (constraints (body r)))) |};
     head := head |}.

Definition prune_decl (masks : Masks) (rel : RelationDecl) : RelationDecl :=
  {| rel_name := rel_name rel; arg_sorts := drop_columns masks (rel_name rel) (arg_sorts rel) |}.

(** [prune_dead_identity_scalars]: the system afterwards and the columns removed *)
Definition prune_dead_identity_scalars (vc : ChcVc) : ChcVc * nat :=
  let dead := dead_slots vc in
  if bool_decide (dead = ∅) then (vc, 0%nat)
  else
    let masks := dead_column_masks vc dead in
    let pruned := pruned_columns masks in
    if Nat.eqb pruned 0 then (vc, 0%nat)
    else (set_rules (map (prune_decl masks) (relations vc)) (map (prune_rule masks dead) (rules vc)) vc, pruned).

End Pass.

End DeadScalars.

(** * What the removal of dead columns promises

    Which columns the masks drop ([masked_columns_exact]), that no derivation is lost
    ([prune_scalars_sound]) and, where a rule keeps its dead slots apart, none is
    invented ([prune_scalars_exact]). *)

Module DeadScalarsSpec.
Import Chc DeadVars DeadArgs DeadScalars.

Section Masks.
Context `{AyExpr}.

(** ** The masks *)

(** What a mask may drop: a name of a dead slot, or a term without variables *)
Definition droppable_arg (dead : gset string) (arg : Expr) : Prop :=
  (exists name, value arg = Var name /\ slot_base name ∈ dead) \/
  ((forall name, value arg <> Var name) /\ collect_expr_vars arg = []).
Definition names_slot (arg : Expr) (base : string) : Prop :=
  exists name, value arg = Var name /\ slot_base name = base.

(** A column tells what the arguments seen at its position are. *)
Record column_of (dead : gset string) (args : list Expr) (c : Column) : Prop := {
  co_droppable : droppable c = true <-> forall arg, arg ∈ args -> droppable_arg dead arg;
  co_named : named c = true <-> exists arg base, arg ∈ args /\ names_slot arg base;
  co_slot : forall base, slot c = Some base <-> exists arg, arg ∈ args /\ names_slot arg base;
}.

(** No two arguments name different slots. *)
Definition one_slot (args : list Expr) : Prop :=
  forall a b base base', a ∈ args -> b ∈ args -> names_slot a base -> names_slot b base' -> base = base'.

Lemma mentions_none e : expr_mentions_any_var e = false <-> collect_expr_vars e = [].
Proof. unfold expr_mentions_any_var. rewrite negb_false_iff. apply bool_decide_eq_true. Qed.

Lemma var_or_not e : (exists name, value e = Var name) \/ forall name, value e <> Var name.
Proof. destruct (value e) eqn:V; try (right; congruence). left. by eexists. Qed.

Lemma column_of_new dead : column_of dead [] new_column.
Proof.
  split; cbn.
  - split; [|done]. intros _ arg Ha. by apply elem_of_nil in Ha.
  - split; [done|]. intros (arg & base & Ha & _). by apply elem_of_nil in Ha.
  - intros base. split; [done|]. intros (arg & Ha & _). by apply elem_of_nil in Ha.
Qed.

Lemma observe_var dead args c arg name : value arg = Var name -> column_of dead args c -> one_slot args ->
  (forall base, slot c = Some base -> base = slot_base name) ->
  column_of dead (arg :: args) {| droppable := droppable c && bool_decide (slot_base name ∈ dead);
    slot := Some (slot_base name); named := true |} /\ one_slot (arg :: args).
Proof.
  intros V [Cd Cn Cs] One Same.
  assert (Na : forall base, names_slot arg base <-> base = slot_base name).
  { intros base. split; [intros (n & V' & <-); congruence|]. intros ->. by exists name. }
  assert (E : forall a base, a ∈ args -> names_slot a base -> base = slot_base name).
  { intros a base Ha Sa. apply Same, Cs. by exists a. }
  split; [split; cbn|].
  - rewrite andb_true_iff, Cd, bool_decide_eq_true. split.
    + intros [D Hn] a [->|Ha]%elem_of_cons; [left; by exists name|by apply D].
    + intros D. split; [intros a Ha; apply D; by right|].
      destruct (D arg ltac:(left)) as [(n & V' & Hn)|[Nv _]]; [congruence|by destruct (Nv name)].
  - split; [|done]. intros _. exists arg, (slot_base name). split; [left|by apply Na].
  - intros base. split.
    + intros [= <-]. exists arg. split; [left|by apply Na].
    + intros (a & [->|Ha]%elem_of_cons & Sa); [apply Na in Sa; congruence|]. by rewrite (E a base Ha Sa).
  - intros x y s s' [->|Hx]%elem_of_cons [->|Hy]%elem_of_cons Sx Sy.
    + apply Na in Sx, Sy. congruence.
    + apply Na in Sx. rewrite Sx. symmetry. by eapply E.
    + apply Na in Sy. rewrite Sy. by eapply E.
    + by apply (One x y).
Qed.

Lemma observe_other dead args c arg : (forall name, value arg <> Var name) -> column_of dead args c -> one_slot args ->
  column_of dead (arg :: args)
    (if expr_mentions_any_var arg then {| droppable := false; slot := slot c; named := named c |} else c) /\
  one_slot (arg :: args).
Proof.
  intros Nv [Cd Cn Cs] One.
  assert (Ns : forall base, ~ names_slot arg base) by (intros base (n & V & _); by destruct (Nv n)).
  split.
  - assert (Named : named c = true <-> exists a base, a ∈ arg :: args /\ names_slot a base).
    { rewrite Cn. split; intros (a & s & Ha & Sa); exists a, s; (split; [|done]); [by right|].
      apply elem_of_cons in Ha as [->|]; [by apply Ns in Sa|done]. }
    assert (Slot : forall base, slot c = Some base <-> exists a, a ∈ arg :: args /\ names_slot a base).
    { intros base. rewrite Cs. split; intros (a & Ha & Sa); exists a; (split; [|done]); [by right|].
      apply elem_of_cons in Ha as [->|]; [by apply Ns in Sa|done]. }
    destruct (expr_mentions_any_var arg) eqn:M; split; cbn; try done.
    + split; [done|]. intros D. destruct (D arg ltac:(left)) as [(n & V & _)|[_ E%mentions_none]].
      * by destruct (Nv n).
      * congruence.
    + rewrite Cd. apply mentions_none in M. split.
      * intros D a [->|Ha]%elem_of_cons; [by right|by apply D].
      * intros D a Ha. apply D. by right.
  - intros x y s s' [->|Hx]%elem_of_cons [->|Hy]%elem_of_cons Sx Sy;
      [by apply Ns in Sx|by apply Ns in Sx|by apply Ns in Sy|by apply (One x y)].
Qed.

Lemma observe_arg_spec dead args c arg : column_of dead args c -> one_slot args ->
  match observe_arg dead arg c with
  | Some c' => column_of dead (arg :: args) c' /\ one_slot (arg :: args)
  | None => ~ one_slot (arg :: args)
  end.
Proof.
  intros C One. destruct (var_or_not arg) as [[name V]|Nv].
  - unfold observe_arg. rewrite V. destruct (slot c) as [seen|] eqn:Es.
    + destruct (String.eqb_spec seen (slot_base name)) as [->|Ne].
      * apply observe_var; [done..|]. intros base. rewrite Es. by intros [= <-].
      * intros One'. destruct (proj1 (co_slot _ _ _ C seen) Es) as (a & Ha & Sa). apply Ne.
        apply (One' a arg); [by right|left|done|by exists name].
    + apply observe_var; [done..|]. intros base. by rewrite Es.
  - assert (E : observe_arg dead arg c = Some (if expr_mentions_any_var arg
        then {| droppable := false; slot := slot c; named := named c |} else c)).
    { unfold observe_arg. destruct (value arg) eqn:V; try (by destruct (expr_mentions_any_var arg)).
      by destruct (Nv name). }
    rewrite E. by apply observe_other.
Qed.

(** The arguments at a position *)
Definition at_column (apps : list (list Expr)) (k : nat) : list Expr := omap (fun args => args !! k) apps.

Lemma observe_args_spec dead apps args cs : length args = length cs ->
  (forall k c, cs !! k = Some c -> column_of dead (at_column apps k) c /\ one_slot (at_column apps k)) ->
  match observe_args dead args cs with
  | Some cs' => length cs' = length cs /\ forall k c, cs' !! k = Some c ->
      column_of dead (at_column (args :: apps) k) c /\ one_slot (at_column (args :: apps) k)
  | None => exists k, (k < length cs)%nat /\ ~ one_slot (at_column (args :: apps) k)
  end.
Proof.
  revert args apps. induction cs as [|c cs IH]; intros [|arg args] apps L Hc; cbn in L; try done.
  cbn [observe_args]. destruct (Hc 0%nat c eq_refl) as [C0 O0].
  pose proof (observe_arg_spec dead _ c arg C0 O0) as A. destruct (observe_arg dead arg c) as [c'|]; cbn [mbind option_bind].
  2: { exists 0%nat. split; [cbn; lia|exact A]. }
  assert (Sh : forall k, at_column apps (S k) = at_column (map (drop 1) apps) k).
  { intros k. unfold at_column. clear. induction apps as [|a apps IH]; [done|]. cbn. rewrite IH. by destruct a. }
  assert (Cons : forall k, at_column ((arg :: args) :: apps) (S k) = at_column (args :: map (drop 1) apps) k).
  { intros k. unfold at_column in *. cbn [omap list_omap lookup list_lookup]. by rewrite Sh. }
  assert (IH' := IH args (map (drop 1) apps) ltac:(lia)
    (fun k x E => eq_ind _ (fun l => column_of dead l x /\ one_slot l) (Hc (S k) x E) _ (Sh k))).
  destruct (observe_args dead args cs) as [cs'|]; cbn [mbind option_bind].
  - destruct IH' as [L' IH']. split; [cbn; lia|]. intros [|k] x E; cbn in E; [injection E as <-; exact A|].
    rewrite Cons. by apply IH'.
  - destruct IH' as (k & Lk & N). exists (S k). split; [cbn; lia|]. by rewrite Cons.
Qed.

(** ** All applications *)

Definition args_of (R : string) (apps : list RelationApp) : list (list Expr) :=
  map args (List.filter (fun app => String.eqb (app_name app) R) apps).

(** The applications of a relation agree with its declaration and with each other. *)
Record comparable (arities : gmap string nat) (R : string) (apps : list RelationApp) (k : nat) : Prop := {
  cp_declared : arities !! R = Some k;
  cp_arity : forall l, l ∈ args_of R apps -> length l = k;
  cp_slots : forall i, (i < k)%nat -> one_slot (at_column (args_of R apps) i);
}.

(** What the entry of a relation says of its applications *)
Definition entry_ok (arities : gmap string nat) (dead : gset string) (R : string) (apps : list RelationApp)
    (entry : option (option (list Column))) : Prop :=
  match entry with
  | None => args_of R apps = []
  | Some None => args_of R apps <> [] /\ forall k, ~ comparable arities R apps k
  | Some (Some cs) => args_of R apps <> [] /\ comparable arities R apps (length cs) /\
      forall i c, cs !! i = Some c -> column_of dead (at_column (args_of R apps) i) c
  end.

Lemma args_of_cons R app apps :
  args_of R (app :: apps) = (if String.eqb (app_name app) R then [args app] else []) ++ args_of R apps.
Proof. unfold args_of. cbn. by destruct (String.eqb _ _). Qed.

Lemma comparable_tail arities R app apps k : comparable arities R (app :: apps) k -> comparable arities R apps k.
Proof.
  intros [D A S]. rewrite args_of_cons in *. split; [done|intros l Hl; apply A, elem_of_app; by right|].
  intros i Li a b s s' Ha Hb. apply (S i Li); unfold at_column in *; rewrite omap_app; apply elem_of_app; by right.
Qed.

Lemma entry_ok_ne arities dead R apps app entry : app_name app <> R ->
  entry_ok arities dead R apps entry -> entry_ok arities dead R (app :: apps) entry.
Proof.
  intros Ne. assert (Ea : args_of R (app :: apps) = args_of R apps)
    by (rewrite args_of_cons; destruct (String.eqb_spec (app_name app) R); done).
  destruct entry as [[cs|]|]; unfold entry_ok; rewrite Ea; [|intros [N C]|done].
  - intros (N & [D A S] & C). split; [done|]. split; [|done]. split; rewrite ?Ea; done.
  - split; [done|]. intros k Ck. by apply (C k), (comparable_tail arities R app).
Qed.

(** One more application, after which the columns are [cs] or not comparable *)
Lemma entry_ok_observed arities dead app apps n cs :
  arities !! app_name app = Some n -> length cs = n ->
  (forall i c, cs !! i = Some c -> column_of dead (at_column (args_of (app_name app) apps) i) c /\
     one_slot (at_column (args_of (app_name app) apps) i)) ->
  (forall l, l ∈ args_of (app_name app) apps -> length l = n) ->
  entry_ok arities dead (app_name app) (app :: apps)
    (Some (if Nat.eqb (length (args app)) n then observe_args dead (args app) cs else None)).
Proof.
  intros Ar Lc Cc La.
  assert (Sel : args_of (app_name app) (app :: apps) = args app :: args_of (app_name app) apps)
    by (rewrite args_of_cons, String.eqb_refl; done).
  destruct (Nat.eqb_spec (length (args app)) n) as [Ln|Ln]; unfold entry_ok; rewrite ?Sel.
  2: { split; [done|]. intros k [D A _]. rewrite Sel in A. rewrite Ar in D. injection D as <-. apply Ln, A. left. }
  pose proof (observe_args_spec dead (args_of (app_name app) apps) (args app) cs ltac:(lia) Cc) as O.
  destruct (observe_args dead (args app) cs) as [cs'|]; rewrite ?Sel.
  - destruct O as [L' O]. split; [done|]. split; [|intros i c E; by apply O].
    split; rewrite ?Sel; [congruence| |].
    + intros l [->|Hl]%elem_of_cons; [lia|]. rewrite (La l Hl). lia.
    + intros i Li. apply lookup_lt_is_Some in Li as [c E]. by apply (O i c E).
  - destruct O as (i & Li & N). split; [done|]. intros k [D _ S]. rewrite Ar in D. injection D as <-.
    apply N. rewrite Sel in S. apply S. lia.
Qed.

Lemma observe_tracks arities dead acc apps app :
  (forall R, entry_ok arities dead R apps (acc !! R)) ->
  forall R, entry_ok arities dead R (app :: apps) (observe arities dead acc app !! R).
Proof.
  intros T R. unfold observe. destruct (decide (app_name app = R)) as [<-|Ne].
  2: { apply entry_ok_ne; [done|]. destruct (arities !! app_name app); [|by rewrite lookup_insert_ne].
       destruct (default _ _); [|done]. by rewrite lookup_insert_ne. }
  assert (Ne : args_of (app_name app) (app :: apps) <> []) by (rewrite args_of_cons, String.eqb_refl; done).
  specialize (T (app_name app)). destruct (arities !! app_name app) as [n|] eqn:Ar.
  2: { rewrite lookup_insert_eq. split; [done|]. intros k [D _ _]. congruence. }
  destruct (acc !! app_name app) as [[cs|]|] eqn:Ea; cbn [default from_option id].
  - destruct T as (_ & [D A S] & C). rewrite lookup_insert_eq. rewrite Ar in D. injection D as Ln.
    apply entry_ok_observed; [done|done| |by rewrite Ln].
    intros i c E. split; [by apply C|]. apply S. by eapply lookup_lt_Some.
  - rewrite Ea. split; [done|]. intros k Ck%comparable_tail. by apply (proj2 T k).
  - cbn in T. rewrite lookup_insert_eq.
    apply entry_ok_observed; [done|by rewrite length_replicate| |]; rewrite T.
    + intros i c [-> _]%lookup_replicate. split; [apply column_of_new|]. intros x y s s' Hx. by apply elem_of_nil in Hx.
    + intros l Hl. by apply elem_of_nil in Hl.
Qed.

Lemma observed_ok arities dead l acc apps :
  (forall R, entry_ok arities dead R apps (acc !! R)) ->
  forall R, entry_ok arities dead R (rev l ++ apps) (foldl (observe arities dead) acc l !! R).
Proof.
  revert acc apps. induction l as [|app l IH]; intros acc apps T; [exact T|]. cbn [foldl rev].
  rewrite <- app_assoc. apply IH. by apply observe_tracks.
Qed.

Lemma in_args_of R apps l : l ∈ args_of R apps <-> exists app, app ∈ apps /\ app_name app = R /\ args app = l.
Proof.
  unfold args_of. rewrite list_elem_of_fmap. split.
  - intros (app & -> & Ha). apply list_elem_of_In, filter_In in Ha as [Ha E%String.eqb_eq].
    exists app. by rewrite list_elem_of_In.
  - intros (app & Ha & E & <-). exists app. split; [done|].
    apply list_elem_of_In, filter_In. rewrite <- list_elem_of_In. split; [done|by apply String.eqb_eq].
Qed.

(** The arguments of the system at a column of a relation *)
Definition column_arg (vc : ChcVc) (R : string) (k : nat) (arg : Expr) : Prop :=
  exists app, app ∈ apps_observed (rules vc) /\ app_name app = R /\ args app !! k = Some arg.

Lemma in_column vc R k arg :
  arg ∈ at_column (args_of R (rev (apps_observed (rules vc)) ++ [])) k <-> column_arg vc R k arg.
Proof.
  unfold at_column, column_arg. rewrite list_elem_of_omap. rewrite app_nil_r. split.
  - intros (l & Hl & E). apply in_args_of in Hl as (app & Ha & En & <-). exists app.
    split; [|done]. by apply list_elem_of_In, in_rev, list_elem_of_In.
  - intros (app & Ha & En & E). exists (args app). split; [|done]. apply in_args_of. exists app.
    split; [|done]. by apply list_elem_of_In, in_rev; rewrite rev_involutive; apply list_elem_of_In.
Qed.

(** A relation whose columns can be told apart: declared, of one arity, and one slot for
    every column. *)
Record tabular (vc : ChcVc) (R : string) (n : nat) : Prop := {
  tb_declared : decl_arity vc !! R = Some n;
  tb_arity : forall app, app ∈ apps_observed (rules vc) -> app_name app = R -> length (args app) = n;
  tb_slots : forall k a b base base', column_arg vc R k a -> column_arg vc R k b ->
    names_slot a base -> names_slot b base' -> base = base';
}.

Lemma tabular_comparable vc R n :
  comparable (decl_arity vc) R (rev (apps_observed (rules vc)) ++ []) n <-> tabular vc R n.
Proof.
  assert (Iff : forall app, app ∈ rev (apps_observed (rules vc)) ++ [] <-> app ∈ apps_observed (rules vc)).
  { intros app. rewrite app_nil_r, !list_elem_of_In. symmetry. apply in_rev. }
  split; intros [D A S]; split; [done| | |done| |].
  - intros app Ha En. apply A, in_args_of. exists app. by rewrite Iff.
  - intros k x y s s' Hx Hy. apply (S k); [|by apply in_column..].
    destruct Hx as (app & Ha & En & Ex%lookup_lt_Some).
    enough (length (args app) = n) by lia. apply A, in_args_of. exists app. by rewrite Iff.
  - intros l (app & Ha & En & <-)%in_args_of. apply A; [by apply Iff|done].
  - intros k Lk x y s s' Hx%in_column Hy%in_column. by apply (S k).
Qed.

Lemma masks_lookup vc dead R mask : dead_column_masks vc dead !! R = Some (Some mask) ->
  tabular vc R (length mask) /\
  forall k, mask !! k = Some true <-> (k < length mask)%nat /\
    (forall arg, column_arg vc R k arg -> droppable_arg dead arg) /\
    exists arg base, column_arg vc R k arg /\ names_slot arg base.
Proof.
  intros E. unfold dead_column_masks in E.
  apply lookup_fmap_Some in E as (o & Eo & E). destruct o as [cs|]; [|done]. injection Eo as <-.
  pose proof (observed_ok (decl_arity vc) dead (apps_observed (rules vc)) ∅ []
    ltac:(intros R'; by rewrite lookup_empty) R) as O.
  rewrite E in O. destruct O as (_ & C & Cs). unfold column_mask. rewrite length_map.
  split; [by apply tabular_comparable|]. intros k. rewrite list_lookup_fmap. split.
  - destruct (cs !! k) as [c|] eqn:Ec; cbn; [|done]. intros [= [Dr Nm]%andb_true_iff].
    destruct (Cs k c Ec) as [Cd Cn _]. split; [by eapply lookup_lt_Some|]. split.
    + intros arg Ha%in_column. by apply Cd.
    + destruct (proj1 Cn Nm) as (arg & base & Ha & Hb). exists arg, base. by rewrite <- in_column.
  - intros (Lk & Dr & arg & base & Ha & Hb). apply lookup_lt_is_Some in Lk as [c Ec]. rewrite Ec. cbn. f_equal.
    destruct (Cs k c Ec) as [Cd Cn _]. apply andb_true_iff. split.
    + apply Cd. intros x Hx%in_column. by apply Dr.
    + apply Cn. exists arg, base. by rewrite in_column.
Qed.

Lemma masks_present vc dead R n k arg : tabular vc R n -> column_arg vc R k arg ->
  exists mask, dead_column_masks vc dead !! R = Some (Some mask).
Proof.
  intros T (app & Ha & En & _).
  pose proof (observed_ok (decl_arity vc) dead (apps_observed (rules vc)) ∅ []
    ltac:(intros R'; by rewrite lookup_empty) R) as O.
  unfold dead_column_masks. rewrite lookup_fmap.
  destruct (foldl _ _ _ !! R) as [[cs|]|]; [by eexists| |].
  - destruct O as [_ N]. by destruct (N n (proj2 (tabular_comparable vc R n) T)).
  - assert (X : args app ∈ args_of R (rev (apps_observed (rules vc)) ++ [])).
    { apply in_args_of. exists app. split; [|done]. rewrite app_nil_r. by apply list_elem_of_In, in_rev;
        rewrite rev_involutive; apply list_elem_of_In. }
    cbn in O. rewrite O in X. by apply elem_of_nil in X.
Qed.

Lemma masked_columns_spec (vc : ChcVc) (dead : gset string) (R : string) (k : nat) :
  (exists mask, dead_column_masks vc dead !! R = Some (Some mask) /\ mask !! k = Some true) <->
  exists n, tabular vc R n /\ (forall arg, column_arg vc R k arg -> droppable_arg dead arg) /\
    exists arg base, column_arg vc R k arg /\ names_slot arg base.
Proof.
  split.
  - intros (mask & E & Ek). destruct (masks_lookup vc dead R mask E) as [T M]. exists (length mask).
    apply M in Ek as (_ & D & N). done.
  - intros (n & T & D & arg & base & Ha & Hb). destruct (masks_present vc dead R n k arg T Ha) as [mask E].
    exists mask. split; [done|]. destruct (masks_lookup vc dead R mask E) as [T' M]. apply M. split_and!; [|done|by eexists _, _].
    destruct Ha as (app & Ha & En & Ea%lookup_lt_Some). by rewrite (tb_arity _ _ _ T' app Ha En) in Ea.
Qed.

(** ** Dropping columns *)

Lemma map_drop {A B} (f : A -> B) masks R l : map f (drop_columns masks R l) = drop_columns masks R (map f l).
Proof.
  unfold drop_columns. destruct (masks !! R) as [[mask|]|]; [|done..]. rewrite length_map.
  destruct (Nat.eqb _ _); [apply map_keep|done].
Qed.

Lemma keep_none {A} mask (l : list A) : length mask = length l -> List.filter id mask = [] -> keep mask l = l.
Proof.
  revert l. induction mask as [|d mask IH]; intros [|x l] L F; cbn in *; try done.
  destruct d; cbn in F; [done|]. f_equal. apply IH; [lia|done].
Qed.

Lemma list_sum_zero l : list_sum l = 0%nat -> forall x, x ∈ l -> x = 0%nat.
Proof.
  induction l as [|y l IH]; intros E x Hx; [by apply elem_of_nil in Hx|].
  change (y + list_sum l = 0)%nat in E. apply elem_of_cons in Hx as [->|Hx]; [lia|]. apply IH; [lia|done].
Qed.

Lemma list_sum_all_zero l : (forall x, x ∈ l -> x = 0%nat) -> list_sum l = 0%nat.
Proof.
  induction l as [|x l IH]; intros Hl; [done|]. change (x + list_sum l = 0)%nat.
  rewrite (Hl x), IH; [done| |left]. intros y Hy. apply Hl. by right.
Qed.

Lemma pruned_none {A} masks R (l : list A) : pruned_columns masks = 0%nat -> drop_columns masks R l = l.
Proof.
  intros P. unfold drop_columns. destruct (masks !! R) as [[mask|]|] eqn:E; [|done..].
  destruct (Nat.eqb_spec (length mask) (length l)) as [L|]; [|done]. apply keep_none; [done|].
  apply nil_length_inv. apply (list_sum_zero _ P). apply list_elem_of_fmap. exists (R, Some mask).
  split; [done|]. by apply elem_of_map_to_list.
Qed.

Lemma no_dead_no_columns vc : pruned_columns (dead_column_masks vc ∅) = 0%nat.
Proof.
  apply list_sum_all_zero. intros x Hx. apply list_elem_of_fmap in Hx as ([R o] & -> & Ho%elem_of_map_to_list). cbn.
  destruct o as [mask|]; [|done]. destruct (List.filter id mask) as [|b l] eqn:F; [done|].
  assert (Hb : In b (List.filter id mask)) by (rewrite F; by left).
  apply filter_In in Hb as [Hb Tb]. unfold id in Tb. subst b. apply list_elem_of_In, list_elem_of_lookup in Hb as [k Hk].
  destruct (proj1 (masked_columns_spec vc ∅ R k)) as (n & T & D & arg & base & Ha & (name & V & _)); [by exists mask|].
  destruct (D arg Ha) as [(m & _ & Hm)|[Nv _]]; [set_solver|]. by destruct (Nv name).
Qed.

(** ** The declarations *)

Lemma observed_app (rs : list Rule) app : app ∈ flat_map rule_apps rs <-> app ∈ apps_observed rs.
Proof.
  unfold apps_observed. rewrite !elem_of_flat_map. apply exist_proper. intros r. unfold rule_apps.
  destruct (relation (body r)); set_solver.
Qed.

Lemma decl_arity_spec vc rel : NoDup (map rel_name (relations vc)) -> rel ∈ relations vc ->
  decl_arity vc !! rel_name rel = Some (arity rel).
Proof.
  unfold decl_arity. generalize (∅ : gmap string nat). induction (relations vc) as [|d l IH]; intros m N Hr;
    [by apply elem_of_nil in Hr|]. cbn [foldl]. cbn [map] in N. apply NoDup_cons in N as [Nin N].
  apply elem_of_cons in Hr as [->|Hr]; [|by apply IH]. clear IH.
  assert (G : forall l (m : gmap string nat), rel_name d ∉ map rel_name l ->
    foldl (fun m rel => <[rel_name rel := length (arg_sorts rel)]> m) m l !! rel_name d = m !! rel_name d).
  { intros l'. induction l' as [|d' l' IH]; intros m' Nd; [done|]. cbn [foldl map] in *.
    apply not_elem_of_cons in Nd as [Ne Nd]. rewrite IH by done. by rewrite lookup_insert_ne. }
  rewrite G by done. by rewrite lookup_insert_eq.
Qed.

(** A mask has an entry for every column the relation declares. *)
Lemma mask_arity vc dead rel mask : NoDup (map rel_name (relations vc)) -> rel ∈ relations vc ->
  dead_column_masks vc dead !! rel_name rel = Some (Some mask) -> length mask = arity rel.
Proof.
  intros N Hr E. destruct (masks_lookup vc dead _ mask E) as [[D _ _] _].
  rewrite (decl_arity_spec vc rel N Hr) in D. by injection D.
Qed.

Lemma drop_length {A B} masks R (l : list A) (l' : list B) : length l = length l' ->
  length (drop_columns masks R l) = length (drop_columns masks R l').
Proof.
  intros L. unfold drop_columns. destruct (masks !! R) as [[mask|]|]; [|done..]. rewrite L.
  destruct (Nat.eqb _ _); [by apply keep_length|done].
Qed.

Lemma rule_apps_pruned masks dead rs app : app ∈ flat_map rule_apps (map (prune_rule masks dead) rs) ->
  exists app', app' ∈ flat_map rule_apps rs /\ app = remove_dead_columns masks app'.
Proof.
  intros (r & Hr & Ha)%elem_of_flat_map. apply list_elem_of_fmap in Hr as (r' & -> & Hr).
  assert (X : exists app', app' ∈ rule_apps r' /\ app = remove_dead_columns masks app').
  { unfold rule_apps in *. cbn in Ha. destruct (relation (body r')) as [b|]; cbn in Ha.
    - apply elem_of_cons in Ha as [->|Ha]; [exists (head r'); split; [left|done]|].
      apply list_elem_of_singleton in Ha as ->. exists b. split; [right; left|done].
    - apply list_elem_of_singleton in Ha as ->. exists (head r'). split; [left|done]. }
  destruct X as (app' & Ha' & ->). exists app'. split; [|done]. apply elem_of_flat_map. by exists r'.
Qed.

Lemma prune_keeps_arities vc masks dead : arities_ok vc ->
  arities_ok (set_rules (map (prune_decl masks) (relations vc)) (map (prune_rule masks dead) (rules vc)) vc).
Proof.
  intros [N A]. split; cbn [relations rules set_rules].
  - rewrite map_map. by replace (map (fun x => rel_name (prune_decl masks x)) (relations vc)) with (map rel_name (relations vc)).
  - intros app (app' & Ha & ->)%rule_apps_pruned. destruct (A app' Ha) as (rel & Hr & En & L).
    exists (prune_decl masks rel). split; [apply list_elem_of_fmap; by exists rel|]. split; [done|].
    cbn. unfold arity. cbn. rewrite En. by apply drop_length.
Qed.

(** ** The count *)

Lemma keep_count {A} mask (l : list A) : length mask = length l ->
  (length (keep mask l) + length (List.filter id mask))%nat = length l.
Proof.
  revert l. induction mask as [|d mask IH]; intros [|x l] L; cbn in *; try lia.
  specialize (IH l ltac:(lia)). destruct d; cbn; lia.
Qed.

Lemma list_sum_perm l l' : l ≡ₚ l' -> list_sum l = list_sum l'.
Proof. induction 1; cbn in *; unfold list_sum in *; cbn; lia. Qed.

Lemma sum_over_names {A} (f : A -> nat) names (m : gmap string A) : NoDup names ->
  (forall k v, m !! k = Some v -> k ∈ names \/ f v = 0%nat) ->
  list_sum (map (fun p => f p.2) (map_to_list m)) =
  list_sum (map (fun k => match m !! k with Some v => f v | None => 0%nat end) names).
Proof.
  revert m. induction names as [|k names IH]; intros m N Hm.
  - apply (Nat.le_antisymm _ 0); [|lia]. apply Nat.le_0_r.
    apply list_sum_all_zero. intros x ([k v] & -> & Hk%elem_of_map_to_list)%list_elem_of_fmap.
    destruct (Hm k v Hk) as [X|X]; [by apply elem_of_nil in X|done].
  - apply NoDup_cons in N as [Nk N].
    assert (E : list_sum (map (fun k' => match m !! k' with Some v => f v | None => 0%nat end) names) =
      list_sum (map (fun p => f p.2) (map_to_list (delete k m)))).
    { rewrite IH; [|done|].
      - f_equal. apply map_ext_in. intros k' Hk'%list_elem_of_In.
        rewrite lookup_delete_ne; [done|]. intros <-. done.
      - intros k' v [Ne E]%lookup_delete_Some. destruct (Hm k' v E) as [[->|]%elem_of_cons|]; [done|by left|by right]. }
    cbn [map]. change (list_sum (?x :: ?l)) with (x + list_sum l)%nat. rewrite E.
    destruct (m !! k) as [v|] eqn:Ek.
    + rewrite <- (insert_delete_id m k v Ek) at 1.
      rewrite (list_sum_perm _ _ (Permutation_map (fun p => f p.2) (map_to_list_insert _ k v (lookup_delete_eq m k)))).
      done.
    + by rewrite delete_id.
Qed.

(** The columns of the declarations and those removed add up. *)
Lemma prune_count vc dead : NoDup (map rel_name (relations vc)) ->
  let masks := dead_column_masks vc dead in
  (list_sum (map arity (map (prune_decl masks) (relations vc))) + pruned_columns masks)%nat =
  list_sum (map arity (relations vc)).
Proof.
  intros N masks. unfold pruned_columns.
  rewrite (sum_over_names (fun o => match o with Some mask => length (List.filter id mask) | None => 0%nat end)
    (map rel_name (relations vc))); [|done|].
  - assert (G : forall l, (forall rel, rel ∈ l -> rel ∈ relations vc) ->
      (list_sum (map arity (map (prune_decl masks) l)) +
       list_sum (map (fun k => match masks !! k with
         | Some (Some mask) => length (List.filter id mask) | _ => 0 end) (map rel_name l)) =
       list_sum (map arity l))%nat).
    { induction l as [|rel l IH]; intros Hl; [done|]. cbn [map].
      repeat change (list_sum (?x :: ?l')) with (x + list_sum l')%nat.
      rewrite <- IH by (intros; apply Hl; by right). specialize (Hl rel ltac:(left)).
      enough (X : (arity (prune_decl masks rel) + match masks !! rel_name rel with
        | Some (Some mask) => length (List.filter id mask) | _ => 0 end = arity rel)%nat) by lia.
      unfold arity, prune_decl, drop_columns. cbn [arg_sorts].
      destruct (masks !! rel_name rel) as [[mask|]|] eqn:E; [|lia..].
      pose proof (mask_arity vc dead rel mask N Hl E) as L. unfold arity in L. rewrite L, Nat.eqb_refl.
      by apply keep_count. }
    by rewrite <- (G (relations vc)).
  - intros R [mask|] E; [left|by right]. destruct (masks_lookup vc dead R mask E) as [[D _ _] _].
    unfold decl_arity in D. revert D. generalize (length mask).
    assert (G : forall l (m : gmap string nat) n,
      foldl (fun m rel => <[rel_name rel := length (arg_sorts rel)]> m) m l !! R = Some n ->
      R ∈ map rel_name l \/ m !! R = Some n).
    { induction l as [|d l IH]; intros m n; cbn [foldl map]; [by right|]. intros [?|X]%IH; [left; by right|].
      destruct (decide (rel_name d = R)) as [<-|Ne]; [left; by left|]. right. by rewrite lookup_insert_ne in X. }
    intros n [?|X]%G; [done|]. by rewrite lookup_empty in X.
Qed.

End Masks.

(** ** No derivation is lost *)

Section Sound.
Context `{AySem}.

Lemma prune_rules_derivable masks dead rs R vs : derivable rs R vs ->
  derivable (map (prune_rule masks dead) rs) R (drop_columns masks R vs).
Proof.
  intros D. induction D as [r rho Hr Ad Tc _ IH]. unfold head_name. rewrite <- map_drop.
  apply (derive _ (prune_rule masks dead r) rho); [apply list_elem_of_fmap; by exists r|done| |].
  - intros c Hc. apply Tc. cbn in Hc. apply list_elem_of_In, filter_In in Hc as [Hc _]. by apply list_elem_of_In.
  - intros app E. cbn in E. destruct (relation (body r)) as [app0|] eqn:B; [|done].
    injection E as <-. cbn. rewrite map_drop. by apply IH.
Qed.

(** The pass either does nothing or drops the masked columns. *)
Lemma prune_cases vc vc' k : prune_dead_identity_scalars vc = (vc', k) ->
  let masks := dead_column_masks vc (dead_slots vc) in
  k = pruned_columns masks /\
  ((vc' = vc /\ pruned_columns masks = 0%nat) \/
   vc' = set_rules (map (prune_decl masks) (relations vc)) (map (prune_rule masks (dead_slots vc)) (rules vc)) vc).
Proof.
  intros E masks. unfold prune_dead_identity_scalars in E. cbv zeta in E. destruct (bool_decide (dead_slots vc = ∅)) eqn:De.
  - apply bool_decide_eq_true in De. injection E as <- <-. unfold masks. rewrite De, no_dead_no_columns. auto.
  - fold masks in E. destruct (Nat.eqb_spec (pruned_columns masks) 0) as [Z|_].
    + injection E as <- <-. auto.
    + injection E as <- <-. auto.
Qed.

End Sound.

(** ** No derivation is invented *)

Section Exact.
Context `{AySem}.

Definition upd {A} (r : string -> A) (n : string) (v : A) (m : string) : A := if decide (m = n) then v else r m.

Lemma upd_admissible r n v : admissible r -> has_sort v (var_sort n) -> admissible (upd r n v).
Proof. intros Hr Hv m. unfold upd. destruct (decide (m = n)) as [->|]; [done|apply Hr]. Qed.

Lemma eval_agree r r' e : (forall m, m ∈ collect_expr_vars e -> r m = r' m) -> eval r e = eval r' e.
Proof. intros E. apply eval_ext. intros m Hm. by apply E, collect_expr_vars_occurs. Qed.

(** The variable an equality defines, the other side without it *)
Definition defines_fresh (seen : list string) (c : Expr) : option string :=
  match value c with
  | Eq a b =>
      let side (a b : Expr) := match value a with
        | Var n => if bool_decide (n ∉ seen) && bool_decide (n ∉ collect_expr_vars b) then Some n else None
        | _ => None
        end in
      match side a b with Some n => Some n | None => side b a end
  | _ => None
  end.

(** Equalities that each define a variable nothing before them reads, with the
    variables defined *)
Fixpoint triangular (seen : list string) (cs : list Expr) : option (list string) :=
  match cs with
  | [] => Some []
  | c :: cs =>
      n ← defines_fresh seen c;
      ns ← triangular (collect_expr_vars c ++ seen) cs;
      Some (n :: ns)
  end.

Lemma defines_fresh_solve seen c n rho : defines_fresh seen c = Some n -> admissible rho ->
  n ∉ seen /\ n ∈ collect_expr_vars c /\
  exists v, admissible (upd rho n v) /\ is_true (eval (upd rho n v) c).
Proof.
  intros D Ad. unfold defines_fresh in D. destruct (value c) as [| | | | |a b| | | | | | | | | | |] eqn:V; try done.
  assert (Side : forall x y, (a = x /\ b = y) \/ (a = y /\ b = x) -> match value x with
      | Var n => if bool_decide (n ∉ seen) && bool_decide (n ∉ collect_expr_vars y) then Some n else None
      | _ => None end = Some n -> value x = Var n /\ n ∉ seen /\ n ∉ collect_expr_vars y).
  { intros x y _ E. destruct (value x); try done. destruct (_ && _) eqn:B; [|done]. injection E as ->.
    by apply andb_true_iff in B as [?%bool_decide_eq_true ?%bool_decide_eq_true]. }
  assert (X : exists x y, ((a = x /\ b = y) \/ (a = y /\ b = x)) /\ value x = Var n /\ n ∉ seen /\ n ∉ collect_expr_vars y).
  { destruct (match value a with Var _ => _ | _ => _ end) as [m|] eqn:E1 in D.
    - injection D as ->. exists a, b. split; [by left|]. apply Side; [by left|done].
    - exists b, a. split; [by right|]. apply Side; [by right|done]. }
  clear D Side. destruct X as (x & y & Or & Vx & Ns & Ny). split; [done|].
  assert (Hs : has_sort (eval rho y) (var_sort n)).
  { destruct (eq_sorted rho c a b n V Ad) as [S1 S2]. destruct Or as [[-> ->]|[-> ->]]; auto. }
  assert (Ev : eval (upd rho n (eval rho y)) x = eval (upd rho n (eval rho y)) y).
  { rewrite (eval_var _ x n Vx). unfold upd at 1. rewrite decide_True by done.
    apply eval_agree. intros m Hm. unfold upd. rewrite decide_False; [done|]. by intros ->. }
  split; [|exists (eval rho y); split; [by apply upd_admissible|]].
  - apply collect_expr_vars_occurs, (occurs_sub n c x); [|by apply occurs_var].
    unfold children. rewrite V. destruct Or as [[-> ->]|[-> ->]]; set_solver.
  - apply (eval_eq _ c a b V). by destruct Or as [[-> ->]|[-> ->]].
Qed.

Lemma triangular_solve seen cs ns rho : triangular seen cs = Some ns -> admissible rho ->
  exists rho', admissible rho' /\ (forall m, m ∉ ns -> rho' m = rho m) /\ (forall m, m ∈ seen -> rho' m = rho m) /\
    forall c, c ∈ cs -> is_true (eval rho' c).
Proof.
  revert seen ns rho. induction cs as [|c cs IH]; intros seen ns rho E Ad; cbn in E.
  { exists rho. split_and!; [done..|]. intros c Hc. by apply elem_of_nil in Hc. }
  apply bind_Some in E as (n & D & E). apply bind_Some in E as (ns' & T & [= <-]).
  destruct (defines_fresh_solve seen c n rho D Ad) as (Nn & Nc & v & Ad1 & Tc).
  destruct (IH _ ns' _ T Ad1) as (rho' & Ad' & Out & In & Tcs). exists rho'. split_and!; [done| | |].
  - intros m [Ne Nm]%not_elem_of_cons. rewrite Out by done. unfold upd. by rewrite decide_False.
  - intros m Hm. rewrite In by (apply elem_of_app; by right). unfold upd. rewrite decide_False; [done|]. by intros ->.
  - intros c' [->|Hc']%elem_of_cons; [|by apply Tcs].
    rewrite (eval_agree rho' (upd rho n v)); [done|]. intros m Hm. apply In, elem_of_app. by left.
Qed.

(** The variables at the dropped columns, [None] when there is another term *)
Fixpoint dropped_vars (mask : list bool) (l : list Expr) : option (list string) :=
  match mask, l with
  | true :: mask, e :: l =>
      match value e with Var n => ns ← dropped_vars mask l; Some (n :: ns) | _ => None end
  | false :: mask, _ :: l => dropped_vars mask l
  | _, _ => Some []
  end.

Lemma dropped_vars_in mask l ns k e : dropped_vars mask l = Some ns -> mask !! k = Some true -> l !! k = Some e ->
  exists n, value e = Var n /\ n ∈ ns.
Proof.
  revert l ns k. induction mask as [|d mask IH]; intros [|x l] ns k D Em Ee; try done.
  cbn [dropped_vars] in D. destruct k as [|k]; cbn in Em, Ee.
  - injection Em as ->. injection Ee as ->. destruct (value e) as [n| | | | | | | | | | | | | | | |]; try done.
    apply bind_Some in D as (ns' & D & [= <-]). exists n. split; [done|left].
  - destruct d; [|by eapply IH]. destruct (value x); try done. apply bind_Some in D as (ns' & D & [= <-]).
    destruct (IH l ns' k D Em Ee) as (n' & V & Hn). exists n'. split; [done|by right].
Qed.

Lemma bind_dropped mask l (vs : list val) ns rho : dropped_vars mask l = Some ns -> NoDup ns ->
  length mask = length l -> length vs = length l -> admissible rho ->
  (forall k n v, mask !! k = Some true -> (e ← l !! k; match value e with Var n => Some n | _ => None end) = Some n ->
     vs !! k = Some v -> has_sort v (var_sort n)) ->
  exists rho', admissible rho' /\ (forall m, m ∉ ns -> rho' m = rho m) /\
    forall k e v, mask !! k = Some true -> l !! k = Some e -> vs !! k = Some v -> eval rho' e = v.
Proof.
  revert l vs ns. induction mask as [|d mask IH]; intros [|e l] [|v vs] ns D N L L' Ad S; cbn in L, L'; try lia.
  { exists rho. split_and!; [done..|]. intros k e v E. by rewrite lookup_nil in E. }
  cbn [dropped_vars] in D. destruct d.
  - destruct (value e) as [n| | | | | | | | | | | | | | | |] eqn:V; try done.
    apply bind_Some in D as (ns' & D & [= <-]). apply NoDup_cons in N as [Nn N].
    destruct (IH l vs ns' D N ltac:(lia) ltac:(lia) Ad (fun k => S (Datatypes.S k))) as (rho' & Ad' & Out & In).
    exists (upd rho' n v). split_and!.
    + apply upd_admissible; [done|]. apply (S 0%nat n v); [done|cbn; by rewrite V|done].
    + intros m [Ne Nm]%not_elem_of_cons. unfold upd. rewrite decide_False by done. by apply Out.
    + intros [|k] e' v' Em Ee Ev; cbn in Em, Ee, Ev.
      * injection Ee as <-. injection Ev as <-. rewrite (eval_var _ e n V). unfold upd. by rewrite decide_True.
      * rewrite <- (In k e' v' Em Ee Ev). apply eval_agree. intros m Hm. unfold upd. rewrite decide_False; [done|].
        intros ->. apply Nn. destruct (dropped_vars_in mask l ns' k e' D Em Ee) as (n' & V' & Hn').
        rewrite collect_expr_vars_eq, V' in Hm. cbn in Hm. by apply list_elem_of_singleton in Hm as ->.
  - destruct (IH l vs ns D N ltac:(lia) ltac:(lia) Ad (fun k => S (Datatypes.S k))) as (rho' & Ad' & Out & In).
    exists rho'. split_and!; [done|done|]. intros [|k] e' v' Em Ee Ev; cbn in *; [done|]. by eapply In.
Qed.

(** ** The side condition *)

Abbreviation Masks := (gmap string (option (list bool))).

Definition framed_after (masks : Masks) (r : Rule) : gset string :=
  framed_names (remove_dead_columns masks (head r)) (remove_dead_columns masks <$> relation (body r)).

Definition body_dropped (masks : Masks) (r : Rule) : option (list string) :=
  match relation (body r) with
  | Some app =>
      match masks !! app_name app with
      | Some (Some mask) => dropped_vars mask (args app)
      | _ => Some []
      end
  | None => Some []
  end.

(** The dead slots of a rule are apart from what is kept: at the dropped columns of the
    body there are distinct variables, the constraints that go define further ones in
    turn, and nothing that stays mentions any of them. *)
Definition kept_apart (masks : Masks) (dead : gset string) (r : Rule) : bool :=
  let framed := framed_after masks r in
  let cs := iter (constraints (body r)) in
  let kept := List.filter (fun c => negb (is_inert_dead_constraint dead framed c)) cs in
  match body_dropped masks r with
  | Some ns =>
      match triangular ns (List.filter (is_inert_dead_constraint dead framed) cs) with
      | Some ds =>
          bool_decide (NoDup ns) &&
          forallb (fun n => bool_decide (n ∉ framed) &&
                            forallb (fun c => bool_decide (n ∉ collect_expr_vars c)) kept) (ns ++ ds)
      | None => false
      end
  | None => false
  end.

(** The terms at a dropped column have the sort [col] of the column. *)
Definition columns_sorted (vc : ChcVc) (masks : Masks) (col : string -> nat -> Sort) : Prop :=
  forall app k e mask, app ∈ apps_observed (rules vc) -> masks !! app_name app = Some (Some mask) ->
    mask !! k = Some true -> args app !! k = Some e ->
    (forall n, value e = Var n -> var_sort n = col (app_name app) k) /\
    (forall rho, admissible rho -> has_sort (eval rho e) (col (app_name app) k)).

Lemma keep_elem {A} mask (l : list A) k x : mask !! k = Some false -> l !! k = Some x -> x ∈ keep mask l.
Proof.
  revert l k. induction mask as [|d mask IH]; intros [|y l] [|k] Em El; cbn in *; try done.
  - injection Em as ->. injection El as ->. left.
  - specialize (IH l k Em El). destruct d; [done|by right].
Qed.

Lemma agree_framed (app : RelationApp) (framed : gset string) (changed : list string) rho rho' :
  app_vars app ⊆ framed -> (forall n, n ∈ changed -> n ∉ framed) -> (forall m, m ∉ changed -> rho' m = rho m) ->
  forall e, e ∈ args app -> eval rho' e = eval rho e.
Proof.
  intros Sub Ap Ag e He. apply eval_agree. intros m Hm. apply Ag. intros Hc. apply (Ap m Hc), Sub.
  unfold app_vars. apply elem_of_list_to_set, elem_of_flat_map. by exists e.
Qed.

Section Lift.
Context (vc : ChcVc) (dead : gset string) (col : string -> nat -> Sort).
Abbreviation masks := (dead_column_masks vc dead).

(** A fact of the pruned system comes from one with values of the right sorts at the
    dropped columns. *)
Definition scalar_lifts (R : string) (ws vs : list val) : Prop :=
  derivable (rules vc) R vs /\ drop_columns masks R vs = ws /\
  forall mask, masks !! R = Some (Some mask) -> length vs = length mask /\
    forall k v, mask !! k = Some true -> vs !! k = Some v -> has_sort v (col R k).

(** The body: the variables at dropped columns take the values of the fact. *)
Lemma lift_body app ws vs rho ns : app ∈ apps_observed (rules vc) ->
  columns_sorted vc masks col -> scalar_lifts (app_name app) ws vs ->
  ws = map (eval rho) (drop_columns masks (app_name app) (args app)) -> admissible rho ->
  match masks !! app_name app with Some (Some mask) => dropped_vars mask (args app) | _ => Some [] end = Some ns ->
  NoDup ns ->
  exists rho1, admissible rho1 /\ (forall m, m ∉ ns -> rho1 m = rho m) /\
    forall rho2, (forall m, m ∈ ns -> rho2 m = rho1 m) ->
      (forall e, e ∈ drop_columns masks (app_name app) (args app) -> eval rho2 e = eval rho e) ->
      map (eval rho2) (args app) = vs.
Proof.
  intros Ha Cs (_ & Dr & Sv) Ew Ad Dv N. rewrite Ew, map_drop in Dr. clear Ew. unfold drop_columns in Dr |- *.
  destruct (masks !! app_name app) as [[mask|]|] eqn:E; cycle 1.
  { exists rho. split_and!; [done..|]. intros rho2 _ Ag. rewrite Dr. apply map_ext_in. intros e He%list_elem_of_In. by apply Ag. }
  { exists rho. split_and!; [done..|]. intros rho2 _ Ag. rewrite Dr. apply map_ext_in. intros e He%list_elem_of_In. by apply Ag. }
  destruct (masks_lookup vc dead _ mask E) as [[_ L _] _]. specialize (L app Ha eq_refl).
  destruct (Sv mask eq_refl) as [Lv S]. rewrite length_map, Lv, L, Nat.eqb_refl in Dr.
  destruct (bind_dropped mask (args app) vs ns rho Dv N ltac:(lia) ltac:(lia) Ad) as (rho1 & Ad1 & Out & In).
  { intros k n v Em En Ev. apply bind_Some in En as (e & Ee & En). destruct (value e) eqn:V; try done.
    injection En as ->. rewrite (proj1 (Cs app k e mask Ha E Em Ee) n V). by apply S. }
  exists rho1. split_and!; [done|done|]. intros rho2 Ag Agf. rewrite L, Nat.eqb_refl in Agf.
  apply list_eq. intros k. rewrite list_lookup_fmap. destruct (args app !! k) as [e|] eqn:Ee; cbn.
  - assert (Lk : (k < length mask)%nat) by (apply lookup_lt_Some in Ee; lia).
    apply lookup_lt_is_Some in Lk as [d Ed]. destruct d.
    + destruct (dropped_vars_in mask _ ns k e Dv Ed Ee) as (n & V & Hn).
      rewrite (eval_var rho2 e n V), Ag, <- (eval_var rho1 e n V) by done.
      assert (Lk : (k < length vs)%nat) by (apply lookup_lt_Some in Ee; lia).
      apply lookup_lt_is_Some in Lk as [v Ev]. by rewrite Ev, (In k e v Ed Ee Ev).
    + rewrite Agf by (by eapply keep_elem).
      rewrite (proj1 (keep_eq mask vs (map (eval rho) (args app)) ltac:(lia) ltac:(rewrite length_map; lia)) Dr k Ed).
      rewrite list_lookup_fmap. by rewrite Ee.
  - symmetry. apply lookup_ge_None. apply lookup_ge_None in Ee. lia.
Qed.

Lemma head_observed r : r ∈ rules vc -> head r ∈ apps_observed (rules vc).
Proof. intros Hr. apply elem_of_flat_map. exists r. split; [done|left]. Qed.
Lemma body_observed r app : r ∈ rules vc -> relation (body r) = Some app -> app ∈ apps_observed (rules vc).
Proof. intros Hr E. apply elem_of_flat_map. exists r. split; [done|]. rewrite E. right. left. Qed.

Lemma kept_apart_spec r : kept_apart masks dead r = true ->
  exists ns ds, body_dropped masks r = Some ns /\ NoDup ns /\
    triangular ns (List.filter (is_inert_dead_constraint dead (framed_after masks r)) (iter (constraints (body r)))) = Some ds /\
    forall n, n ∈ ns ++ ds -> n ∉ framed_after masks r /\
      forall c, c ∈ iter (constraints (body r)) -> is_inert_dead_constraint dead (framed_after masks r) c = false ->
        n ∉ collect_expr_vars c.
Proof.
  unfold kept_apart. destruct (body_dropped masks r) as [ns|]; [|done]. destruct (triangular _ _) as [ds|] eqn:T; [|done].
  intros [N F]%andb_true_iff. apply bool_decide_eq_true in N. rewrite forallb_forall in F. exists ns, ds. split_and!; [done..|].
  intros n Hn%list_elem_of_In. apply F in Hn as [Nf%bool_decide_eq_true K]%andb_true_iff. split; [done|].
  intros c Hc I. rewrite forallb_forall in K.
  refine (proj1 (bool_decide_eq_true (n ∉ collect_expr_vars c)) _). apply K, filter_In. rewrite <- list_elem_of_In. by rewrite I.
Qed.

(** Values for the dropped names of a rule, under which everything it had holds *)
Lemma lift_rule r rho : r ∈ rules vc -> kept_apart masks dead r = true -> columns_sorted vc masks col -> admissible rho ->
  (forall c, c ∈ iter (constraints (body (prune_rule masks dead r))) -> is_true (eval rho c)) ->
  (forall app, relation (body r) = Some app ->
    exists vs, scalar_lifts (app_name app) (map (eval rho) (drop_columns masks (app_name app) (args app))) vs) ->
  exists rho2, admissible rho2 /\
    (forall c, c ∈ iter (constraints (body r)) -> is_true (eval rho2 c)) /\
    (forall app, relation (body r) = Some app -> derivable (rules vc) (app_name app) (map (eval rho2) (args app))) /\
    (forall e, e ∈ drop_columns masks (head_name r) (args (head r)) -> eval rho2 e = eval rho e).
Proof.
  intros Hr K Cs Ad Tc Hb. destruct (kept_apart_spec r K) as (ns & ds & Dv & N & T & Apart).
  assert (X : exists rho1, admissible rho1 /\ (forall m, m ∉ ns -> rho1 m = rho m) /\
    forall rho2 app, relation (body r) = Some app -> (forall m, m ∈ ns -> rho2 m = rho1 m) ->
      (forall e, e ∈ drop_columns masks (app_name app) (args app) -> eval rho2 e = eval rho e) ->
      derivable (rules vc) (app_name app) (map (eval rho2) (args app))).
  { unfold body_dropped in Dv. destruct (relation (body r)) as [app|] eqn:B.
    - destruct (Hb app eq_refl) as (vs & L).
      destruct (lift_body app _ vs rho ns (body_observed r app Hr B) Cs L eq_refl Ad Dv N) as (rho1 & Ad1 & Out & In).
      exists rho1. split_and!; [done|done|]. intros rho2 app' [= <-] A1 A2. rewrite (In rho2 A1 A2). by destruct L.
    - exists rho. split_and!; [done|done|]. by intros. }
  destruct X as (rho1 & Ad1 & Out1 & In1).
  destruct (triangular_solve ns _ ds rho1 T Ad1) as (rho2 & Ad2 & Out2 & In2 & Tcs).
  assert (Ag : forall m, m ∉ ns ++ ds -> rho2 m = rho m).
  { intros m [Nn Nd]%not_elem_of_app. by rewrite Out2, Out1. }
  assert (Fr : forall app, app_vars (remove_dead_columns masks app) ⊆ framed_after masks r ->
    forall e, e ∈ drop_columns masks (app_name app) (args app) -> eval rho2 e = eval rho e).
  { intros app Sub. apply (agree_framed (remove_dead_columns masks app) _ (ns ++ ds) rho rho2 Sub); [|done].
    intros n Hn. by apply Apart. }
  exists rho2. split_and!; [done| | |].
  - intros c Hc. destruct (is_inert_dead_constraint dead (framed_after masks r) c) eqn:I.
    + apply Tcs, list_elem_of_In, filter_In. by rewrite <- list_elem_of_In.
    + rewrite (eval_agree rho2 rho).
      * apply Tc. cbn [prune_rule body constraints iter]. apply list_elem_of_In, filter_In. rewrite <- list_elem_of_In.
        split; [done|]. unfold framed_after in I. by rewrite I.
      * intros m Hm. apply Ag. intros Hn. by apply (proj2 (Apart m Hn) c Hc I).
  - intros app B. apply In1; [done|done|]. apply Fr. unfold framed_after, framed_names. rewrite B. cbn. set_solver.
  - apply Fr. unfold framed_after, framed_names. set_solver.
Qed.

Lemma scalar_lift R ws : columns_sorted vc masks col -> (forall r, r ∈ rules vc -> kept_apart masks dead r = true) ->
  derivable (map (prune_rule masks dead) (rules vc)) R ws -> exists vs, scalar_lifts R ws vs.
Proof.
  intros Cs K D. induction D as [r' rho Hr' Ad Tc _ IH]. apply list_elem_of_fmap in Hr' as (r & -> & Hr).
  destruct (lift_rule r rho Hr (K r Hr) Cs Ad Tc) as (rho2 & Ad2 & Tc2 & Db & Ag).
  { intros app B. apply (IH (remove_dead_columns masks app)). cbn. by rewrite B. }
  exists (map (eval rho2) (args (head r))). change (head_name (prune_rule masks dead r)) with (head_name r). split_and!.
  - by apply (derive _ r rho2).
  - rewrite <- map_drop. apply map_ext_in. intros e He%list_elem_of_In. by apply Ag.
  - intros mask E. destruct (masks_lookup vc dead _ mask E) as [[_ L _] _]. rewrite length_map.
    split; [by apply (L (head r)); [apply head_observed|]|]. intros k v Em Ev.
    rewrite list_lookup_fmap in Ev. destruct (args (head r) !! k) as [e|] eqn:Ee; [|done]. injection Ev as <-.
    by apply (Cs (head r) k e mask (head_observed r Hr) E Em Ee).
Qed.

End Lift.

End Exact.

End DeadScalarsSpec.
