(* ===== verification/FreeArrays.v ===== *)
(** * Free arrays under store chains

    Models [chc_normalize_free_arrays.rs] of trust-mc-core: a declared array variable
    that no relation carries and that is the innermost base of a chain of stores is
    replaced there by a constant array of a default element.  The pass narrows what a
    valuation may be: what it keeps are the derivations that read every such variable
    as its default array ([reading]). *)

From S2P Require Import Prelude AyExpr BvArith AyBuild Chc AyTry.

Module FreeArrays.
Import AyBuild AyTry Chc.

(** What the pass calls beyond [AyTry]: [sort.is_int()], [Expr::int_const]. *)
Class AyInt `{AyTry} := {
  is_int_sort : Sort -> bool;
  int_const : Z -> Expr;
}.

Section Pass.
Context `{AyInt}.

(** [make_default_value] *)
Definition make_default_value (sort : Sort) (suffix : string) : Expr :=
  match bitvec_width sort with
  | Some width => bitvec_const 0 width
  | None =>
      if is_bool_sort sort then bool_const false
      else if is_int_sort sort then int_const 0
      else expr_var ("__default_elem_" +:+ suffix) sort
  end.

(** [find_store_chain_base], with the size as fuel *)
Fixpoint chain_base (fuel : nat) (e : Expr) : option (string * Sort) :=
  match fuel with
  | O => None
  | S fuel =>
      match value e with
      | Var name => Some (name, sort_of e)
      | Store array _ _ => chain_base fuel array
      | _ => None
      end
  end.
Definition find_store_chain_base (e : Expr) : option (string * Sort) := chain_base (S (size e)) e.

(** [rebuild_store_chain_with_base] *)
Fixpoint rebuild_chain (fuel : nat) (e new_base : Expr) : Expr :=
  match fuel with
  | O => e
  | S fuel =>
      match value e with
      | Var _ => new_base
      | Store array index v => mk_store (rebuild_chain fuel array new_base) index v
      | _ => e
      end
  end.
Definition rebuild_store_chain_with_base (e new_base : Expr) : Expr := rebuild_chain (S (size e)) e new_base.

(** The constant array that replaces a base, when the base is a free array *)
Definition default_array (free_vars : gset string) (base : string * Sort) : option Expr :=
  if decide (base.1 ∈ free_vars) then
    '(index_sort, element_sort) ← array_sort base.2;
    Some (mk_unary (ConstArray index_sort) (make_default_value element_sort base.1))
  else None.

(** [rewrite_free_bases_in_expr] *)
Fixpoint rewrite_bases (fuel : nat) (free_vars : gset string) (e : Expr) : Expr * nat :=
  match fuel with
  | O => (e, 0%nat)
  | S fuel =>
      let rewrite := rewrite_bases fuel free_vars in
      match value e with
      | Store array index v =>
          match base ← find_store_chain_base e; default_array free_vars base with
          | Some const_arr => (rebuild_store_chain_with_base e const_arr, 1%nat)
          | None =>
              let '(new_array, c1) := rewrite array in
              let '(new_index, c2) := rewrite index in
              let '(new_value, c3) := rewrite v in
              if Nat.ltb 0 (c1 + c2 + c3) then (mk_store new_array new_index new_value, (c1 + c2 + c3)%nat)
              else (e, 0%nat)
          end
      | Eq lhs rhs =>
          let '(new_lhs, c1) := rewrite lhs in
          let '(new_rhs, c2) := rewrite rhs in
          if Nat.ltb 0 (c1 + c2) then (mk_eq new_lhs new_rhs, (c1 + c2)%nat) else (e, 0%nat)
      | Binary Select array index =>
          let '(new_array, c1) := rewrite array in
          let '(new_index, c2) := rewrite index in
          if Nat.ltb 0 (c1 + c2) then (mk_select new_array new_index, (c1 + c2)%nat) else (e, 0%nat)
      | _ =>
          let rewritten := map rewrite (children e) in
          let total_count := list_sum (map snd rewritten) in
          if Nat.ltb 0 total_count then (rebuild_with_children e (map fst rewritten), total_count) else (e, 0%nat)
      end
  end.
Definition rewrite_free_bases_in_expr (e : Expr) (free_vars : gset string) : Expr * nat :=
  rewrite_bases (S (size e)) free_vars e.

(** [collect_relation_vars] over all applications *)
Definition essential_vars (rs : list Rule) : gset string :=
  list_to_set (flat_map (fun r => flat_map (fun app => flat_map collect_expr_vars (args app)) (rule_apps r)) rs).

Definition free_array_vars (vc : ChcVc) : gset string :=
  list_to_set (map var_name (List.filter (fun v =>
    bool_decide (is_Some (array_sort (vsort v))) && negb (bool_decide (var_name v ∈ essential_vars (rules vc))))
    (vars vc))).

(** Step 3 for one rule *)
Definition normalize_rule (free_vars : gset string) (r : Rule) : Rule * nat :=
  let rewritten := map (fun c => rewrite_free_bases_in_expr c free_vars) (iter (constraints (body r))) in
  let rule_normalized := list_sum (map snd rewritten) in
  if Nat.ltb 0 rule_normalized then
    ({| body := {| relation := relation (body r); constraints := Owned (map fst rewritten) |}; head := head r |},
     rule_normalized)
  else (r, 0%nat).

(** [normalize_free_array_bases]: the system afterwards and the bases normalized *)
Definition normalize_free_array_bases (vc : ChcVc) : ChcVc * nat :=
  let free_vars := free_array_vars vc in
  if bool_decide (free_vars = ∅) then (vc, 0%nat)
  else
    let rewritten := map (normalize_rule free_vars) (rules vc) in
    (set_rules (relations vc) (map fst rewritten) vc, list_sum (map snd rewritten)).

(** The bases the rewriting replaces *)
Fixpoint replaced_bases (fuel : nat) (free_vars : gset string) (e : Expr) : list (string * Sort) :=
  match fuel with
  | O => []
  | S fuel =>
      match value e with
      | Store _ _ _ =>
          match find_store_chain_base e with
          | Some base =>
              if decide (is_Some (default_array free_vars base)) then [base]
              else flat_map (replaced_bases fuel free_vars) (children e)
          | None => flat_map (replaced_bases fuel free_vars) (children e)
          end
      | _ => flat_map (replaced_bases fuel free_vars) (children e)
      end
  end.
Definition replaced (free_vars : gset string) (e : Expr) : list (string * Sort) :=
  replaced_bases (S (size e)) free_vars e.

End Pass.

(** ** Derivations that read the free arrays as given *)

Section Reading.
Context `{AySem}.

(** A fact derived with every rule read by valuations that meet [P] *)
Inductive reading (P : Rule -> (string -> val) -> Prop) (rs : list Rule) : string -> list val -> Prop :=
  | read r rho :
      r ∈ rs -> admissible rho -> P r rho ->
      (forall c, c ∈ iter (constraints (body r)) -> is_true (eval rho c)) ->
      (forall app, relation (body r) = Some app -> reading P rs (app_name app) (map (eval rho) (args app))) ->
      reading P rs (head_name r) (map (eval rho) (args (head r))).

Lemma reading_derivable P rs R vs : reading P rs R vs -> derivable rs R vs.
Proof. intros D. induction D as [r rho Hr Ad _ Tc _ IH]. by apply derive. Qed.

End Reading.

(** ** The rewriting keeps the meaning *)

Section Meaning.
Context `{AyEval} `{!AyTry} `{!AyInt}.

(** The valuation reads the bases as their default arrays. *)
Definition reads_defaults (free_vars : gset string) (e : Expr) (rho : string -> val) : Prop :=
  forall base d, base ∈ replaced free_vars e -> default_array free_vars base = Some d -> rho base.1 = eval rho d.

Lemma chain_same rho fuel e base d : chain_base fuel e = Some base -> rho base.1 = eval rho d ->
  eval rho (rebuild_chain fuel e d) = eval rho e.
Proof.
  revert e. induction fuel as [|fuel IH]; intros e; cbn; [done|]. destruct (value e) eqn:V; try done.
  - intros [= <-] E. by rewrite <- E, (eval_var _ _ _ V).
  - intros B E. eapply mk_store_same; [exact V| |done|done]. by apply IH.
Qed.

Lemma eq_same rho e a b a' b' : value e = Eq a b -> eval rho a' = eval rho a -> eval rho b' = eval rho b ->
  eval rho (mk_eq a' b') = eval rho e.
Proof.
  intros V Ea Eb. destruct (eval_eq_bool rho e a b V) as [t Et].
  destruct (eval_mk_eq rho a' b') as (t' & Et' & T'). pose proof (eval_eq_iff rho e a b t V Et) as T.
  rewrite Et, Et'. f_equal. rewrite Ea, Eb in T'. destruct t, t'; naive_solver.
Qed.


Lemma rewrite_bases_same rho fuel free_vars e : quantifier_free e ->
  (forall base d, base ∈ replaced_bases fuel free_vars e -> default_array free_vars base = Some d -> rho base.1 = eval rho d) ->
  eval rho (rewrite_bases fuel free_vars e).1 = eval rho e.
Proof.
  revert e. induction fuel as [|fuel IH]; intros e Q Rd; [done|]. cbn [rewrite_bases replaced_bases] in *.
  assert (Sub : (forall base d, base ∈ flat_map (replaced_bases fuel free_vars) (children e) ->
      default_array free_vars base = Some d -> rho base.1 = eval rho d) ->
    forall c, c ∈ children e -> eval rho (rewrite_bases fuel free_vars c).1 = eval rho c).
  { intros R c Hc. apply IH; [by eapply qf_child|]. intros base d Hb. apply R, elem_of_flat_map. by exists c. }
  assert (Default : (forall base d, base ∈ flat_map (replaced_bases fuel free_vars) (children e) ->
      default_array free_vars base = Some d -> rho base.1 = eval rho d) ->
    eval rho (if Nat.ltb 0 (list_sum (map snd (map (rewrite_bases fuel free_vars) (children e))))
      then (rebuild_with_children e (map fst (map (rewrite_bases fuel free_vars) (children e))),
            list_sum (map snd (map (rewrite_bases fuel free_vars) (children e))))
      else (e, 0%nat)).1 = eval rho e).
  { intros R. destruct (Nat.ltb _ _); cbn; [|done]. apply rebuild_same; [by apply qf_quantifier|].
    rewrite !map_map. apply map_ext_in. intros c Hc%list_elem_of_In. by apply Sub. }
  destruct (value e) as [| | | |op a b|a b| | | | |a i x| | | | | |] eqn:V; try (by apply Default).
  - destruct op; try (by apply Default). specialize (Sub Rd). unfold children in Sub. rewrite V in Sub. cbn in Sub.
    pose proof (Sub a ltac:(left)) as Ea. pose proof (Sub b ltac:(right; left)) as Eb.
    destruct (rewrite_bases fuel free_vars a) as [a' c1], (rewrite_bases fuel free_vars b) as [b' c2].
    destruct (Nat.ltb 0 (c1 + c2)); cbn [fst] in *; [|reflexivity]. by rewrite eval_mk_select, (eval_select rho e a b V), Ea, Eb.
  - specialize (Sub Rd). unfold children in Sub. rewrite V in Sub. cbn in Sub.
    pose proof (Sub a ltac:(left)) as Ea. pose proof (Sub b ltac:(right; left)) as Eb.
    destruct (rewrite_bases fuel free_vars a) as [a' c1], (rewrite_bases fuel free_vars b) as [b' c2].
    destruct (Nat.ltb 0 (c1 + c2)); cbn [fst] in *; [|reflexivity]. by apply (eq_same rho e a b).
  - assert (Rec : (forall base d, base ∈ flat_map (replaced_bases fuel free_vars) (children e) ->
        default_array free_vars base = Some d -> rho base.1 = eval rho d) ->
      eval rho (let '(new_array, c1) := rewrite_bases fuel free_vars a in
        let '(new_index, c2) := rewrite_bases fuel free_vars i in
        let '(new_value, c3) := rewrite_bases fuel free_vars x in
        if Nat.ltb 0 (c1 + c2 + c3) then (mk_store new_array new_index new_value, (c1 + c2 + c3)%nat) else (e, 0%nat)).1
      = eval rho e).
    { intros R. specialize (Sub R). unfold children in Sub. rewrite V in Sub. cbn in Sub.
      pose proof (Sub a ltac:(left)) as Ea. pose proof (Sub i ltac:(right; left)) as Ei.
      pose proof (Sub x ltac:(right; right; left)) as Ex.
      destruct (rewrite_bases fuel free_vars a) as [a' c1], (rewrite_bases fuel free_vars i) as [i' c2],
        (rewrite_bases fuel free_vars x) as [x' c3].
      destruct (Nat.ltb 0 (c1 + c2 + c3)); cbn [fst] in *; [|reflexivity]. by apply (mk_store_same rho e a i x). }
    destruct (find_store_chain_base e) as [base|] eqn:B; cbn [mbind option_bind]; [|by apply Rec].
    destruct (default_array free_vars base) as [d|] eqn:D; [|rewrite decide_False in Rd by (by intros []); by apply Rec].
    rewrite decide_True in Rd by done. cbn. apply (chain_same rho _ e base d B). apply Rd; [left|done].
Qed.

Lemma rewrite_same rho free_vars e : quantifier_free e -> reads_defaults free_vars e rho ->
  eval rho (rewrite_free_bases_in_expr e free_vars).1 = eval rho e.
Proof. intros Q Rd. by apply rewrite_bases_same. Qed.

(** As many replacements as bases; with none the expression is the same. *)
Lemma list_sum_counts {A B} (f : A -> nat) (g : A -> list B) l :
  (forall x, x ∈ l -> f x = length (g x)) -> list_sum (map f l) = length (flat_map g l).
Proof.
  induction l as [|x l IH]; intros E; [done|]. cbn [map flat_map].
  change (f x + list_sum (map f l) = length (g x ++ flat_map g l))%nat.
  rewrite length_app, (E x), IH; [done| |left]. intros y Hy. apply E. by right.
Qed.

Lemma rewrite_count fuel free_vars e :
  (rewrite_bases fuel free_vars e).2 = length (replaced_bases fuel free_vars e) /\
  ((rewrite_bases fuel free_vars e).2 = 0%nat -> (rewrite_bases fuel free_vars e).1 = e).
Proof.
  revert e. induction fuel as [|fuel IH]; intros e; [done|]. cbn [rewrite_bases replaced_bases].
  assert (Guard : forall e' n, n = length (flat_map (replaced_bases fuel free_vars) (children e)) ->
    (if Nat.ltb 0 n then (e', n) else (e, 0%nat)).2 = length (flat_map (replaced_bases fuel free_vars) (children e)) /\
    ((if Nat.ltb 0 n then (e', n) else (e, 0%nat)).2 = 0%nat -> (if Nat.ltb 0 n then (e', n) else (e, 0%nat)).1 = e)).
  { intros e' n ->. destruct (Nat.ltb_spec 0 (length (flat_map (replaced_bases fuel free_vars) (children e)))); cbn; split; lia || done. }
  assert (Default : list_sum (map snd (map (rewrite_bases fuel free_vars) (children e))) =
    length (flat_map (replaced_bases fuel free_vars) (children e))).
  { rewrite map_map. apply list_sum_counts. intros c _. by apply IH. }
  destruct (value e) as [| | | |op a b|a b| | | | |a i x| | | | | |] eqn:V; try (by apply Guard).
  - destruct op; try (by apply Guard). unfold children in *. rewrite V in *. cbn [subexprs map] in Default.
    destruct (rewrite_bases fuel free_vars a) as [a' c1], (rewrite_bases fuel free_vars b) as [b' c2].
    apply Guard. cbn in *. lia.
  - unfold children in *. rewrite V in *. cbn [subexprs map] in Default.
    destruct (rewrite_bases fuel free_vars a) as [a' c1], (rewrite_bases fuel free_vars b) as [b' c2].
    apply Guard. cbn in *. lia.
  - destruct (find_store_chain_base e) as [base|]; cbn [mbind option_bind].
    1: destruct (default_array free_vars base); [by rewrite decide_True|rewrite decide_False by (by intros [])].
    all: unfold children in *; rewrite V in *; cbn [subexprs map] in Default;
      destruct (rewrite_bases fuel free_vars a) as [a' c1], (rewrite_bases fuel free_vars i) as [i' c2],
        (rewrite_bases fuel free_vars x) as [x' c3];
      apply Guard; cbn in *; lia.
Qed.

Lemma replaced_free free_vars e base : base ∈ replaced free_vars e -> exists d, default_array free_vars base = Some d.
Proof.
  unfold replaced. generalize (S (size e)) as fuel. intros fuel. revert e.
  induction fuel as [|fuel IH]; intros e Hb; cbn [replaced_bases] in Hb; [by apply elem_of_nil in Hb|].
  assert (Go : base ∈ flat_map (replaced_bases fuel free_vars) (children e) -> exists d, default_array free_vars base = Some d).
  { intros (c & _ & Hc)%elem_of_flat_map. by apply (IH c). }
  destruct (value e); try (by apply Go). destruct (find_store_chain_base e) as [b|]; [|by apply Go].
  destruct (decide _) as [[d D]|]; [|by apply Go]. apply list_elem_of_singleton in Hb as ->. by exists d.
Qed.

Lemma default_array_free free_vars base d : default_array free_vars base = Some d -> base.1 ∈ free_vars.
Proof. unfold default_array. by destruct (decide _). Qed.

(** ** The pass on a system *)

Lemma in_rule_constraint free_vars r c : (normalize_rule free_vars r).2 <> 0%nat ->
  c ∈ iter (constraints (body (normalize_rule free_vars r).1)) <->
  exists c0, c0 ∈ iter (constraints (body r)) /\ c = (rewrite_free_bases_in_expr c0 free_vars).1.
Proof.
  unfold normalize_rule. destruct (Nat.ltb _ _); cbn; [|done]. intros _. rewrite map_map, list_elem_of_fmap.
  naive_solver.
Qed.

Lemma rule_unchanged free_vars r : (normalize_rule free_vars r).2 = 0%nat ->
  (normalize_rule free_vars r).1 = r /\ forall c, c ∈ iter (constraints (body r)) -> replaced free_vars c = [].
Proof.
  unfold normalize_rule. rewrite !map_map.
  destruct (Nat.ltb_spec 0 (list_sum (map (fun c => (rewrite_free_bases_in_expr c free_vars).2) (iter (constraints (body r)))))) as [L|L];
    cbn [snd fst]; [lia|]. intros _. split; [done|]. intros c Hc.
  rewrite (list_sum_counts _ (replaced free_vars)) in L by (intros x _; by apply rewrite_count).
  apply nil_length_inv. apply list_elem_of_In, in_split in Hc as (l1 & l2 & E). rewrite E, flat_map_app, length_app in L.
  cbn [flat_map] in L. rewrite length_app in L. lia.
Qed.

Lemma normalize_rule_apps free_vars r : head (normalize_rule free_vars r).1 = head r /\
  relation (body (normalize_rule free_vars r).1) = relation (body r).
Proof. unfold normalize_rule. by destruct (Nat.ltb _ _). Qed.

(** What the pass reads its variables as, in a rule *)
Definition default_reading (free_vars : gset string) (r : Rule) (rho : string -> val) : Prop :=
  forall c, c ∈ iter (constraints (body r)) -> reads_defaults free_vars c rho.

(** A variable is gone from a rule once its bases are replaced: it has one default
    array, of its sort and without such variables, and no rewritten constraint has it. *)
Definition bases_gone (free_vars : gset string) (r : Rule) : Prop :=
  exists D : string -> Expr, forall base c, c ∈ iter (constraints (body r)) -> base ∈ replaced free_vars c ->
    default_array free_vars base = Some (D base.1) /\
    (forall rho, admissible rho -> has_sort (eval rho (D base.1)) (var_sort base.1)) /\
    (forall base' c', c' ∈ iter (constraints (body r)) -> base' ∈ replaced free_vars c' ->
       base'.1 ∉ collect_expr_vars (D base.1)) /\
    (forall c', c' ∈ iter (constraints (body r)) ->
       base.1 ∉ collect_expr_vars (rewrite_free_bases_in_expr c' free_vars).1).

(** The replaced names of a rule *)
Definition replaced_names (free_vars : gset string) (r : Rule) : list string :=
  flat_map (fun c => map fst (replaced free_vars c)) (iter (constraints (body r))).

Lemma in_replaced_names free_vars r n : n ∈ replaced_names free_vars r <->
  exists base c, c ∈ iter (constraints (body r)) /\ base ∈ replaced free_vars c /\ base.1 = n.
Proof.
  unfold replaced_names. rewrite elem_of_flat_map. split.
  - intros (c & Hc & Hn). apply list_elem_of_fmap in Hn as (base & -> & Hb). by exists base, c.
  - intros (base & c & Hc & Hb & <-). exists c. split; [done|]. apply list_elem_of_fmap. by exists base.
Qed.

(** Without free arrays every reading is a default reading. *)
Lemma normalize_none vc R vs : free_array_vars vc = ∅ ->
  derivable (rules vc) R vs <-> reading (default_reading (free_array_vars vc)) (rules vc) R vs.
Proof.
  intros E. split; [|apply reading_derivable]. intros D. induction D as [r rho Hr Ad Tc _ IH]. apply read; [done..| |done|done].
  intros c Hc base d Hb Hd. apply default_array_free in Hd. rewrite E in Hd. set_solver.
Qed.

Lemma free_not_argument vc n r app e : n ∈ free_array_vars vc -> r ∈ rules vc -> app ∈ rule_apps r -> e ∈ args app ->
  n ∉ collect_expr_vars e.
Proof.
  unfold free_array_vars. rewrite elem_of_list_to_set. intros (v & -> & Hv)%list_elem_of_fmap Hr Ha He Hn.
  apply list_elem_of_In, filter_In in Hv as [_ [_ N]%andb_true_iff].
  apply negb_true_iff, bool_decide_eq_false in N. apply N. unfold essential_vars.
  apply elem_of_list_to_set, elem_of_flat_map. exists r. split; [done|]. apply elem_of_flat_map. exists app.
  split; [done|]. apply elem_of_flat_map. by exists e.
Qed.

(** The valuation that reads the replaced names of a rule as their defaults *)
Lemma default_valuation free_vars r rho : bases_gone free_vars r -> admissible rho ->
  (forall c, c ∈ iter (constraints (body r)) -> quantifier_free c) ->
  exists rho', admissible rho' /\ default_reading free_vars r rho' /\
    (forall n, n ∉ replaced_names free_vars r -> rho' n = rho n) /\
    forall c, c ∈ iter (constraints (body r)) ->
      eval rho' c = eval rho (rewrite_free_bases_in_expr c free_vars).1.
Proof.
  intros [D G] Ad Q. set (names := replaced_names free_vars r).
  set (rho' := fun n => if decide (n ∈ names) then eval rho (D n) else rho n).
  assert (Out : forall n, n ∉ names -> rho' n = rho n) by (intros n Hn; unfold rho'; by rewrite decide_False).
  assert (Rd : default_reading free_vars r rho').
  { intros c Hc base d Hb Hd. destruct (G base c Hc Hb) as (Ed & _ & Nd & _). rewrite Ed in Hd. injection Hd as <-.
    unfold rho' at 1. rewrite decide_True by (apply in_replaced_names; by exists base, c).
    apply eval_ext. intros m Hm%collect_expr_vars_occurs. symmetry. apply Out. intros Hn.
    apply in_replaced_names in Hn as (base' & c' & Hc' & Hb' & <-). by apply (Nd base' c'). }
  exists rho'. split_and!; [|done|done|].
  - intros n. unfold rho'. destruct (decide (n ∈ names)) as [Hn|]; [|apply Ad].
    apply in_replaced_names in Hn as (base & c & Hc & Hb & <-). by apply (G base c Hc Hb).
  - intros c Hc. rewrite <- (rewrite_same rho' free_vars c (Q c Hc) (Rd c Hc)).
    apply eval_ext. intros m Hm%collect_expr_vars_occurs. apply Out. intros Hn.
    apply in_replaced_names in Hn as (base & c' & Hc' & Hb & <-). by apply (proj2 (proj2 (proj2 (G base c' Hc' Hb))) c).
Qed.

(** The pass loses no reading, whatever the rules, and invents none where the
    replaced variables are gone. *)
Lemma normalize_rules_exact vc R vs :
  (forall r c, r ∈ rules vc -> c ∈ iter (constraints (body r)) -> quantifier_free c) ->
  ((forall r, r ∈ rules vc -> bases_gone (free_array_vars vc) r) ->
   derivable (map (fun r => (normalize_rule (free_array_vars vc) r).1) (rules vc)) R vs ->
   reading (default_reading (free_array_vars vc)) (rules vc) R vs) /\
  (reading (default_reading (free_array_vars vc)) (rules vc) R vs ->
   derivable (map (fun r => (normalize_rule (free_array_vars vc) r).1) (rules vc)) R vs).
Proof.
  intros Q. set (free_vars := free_array_vars vc) in *. split.
  - intros G D. induction D as [r' rho Hr' Ad Tc _ IH]. apply list_elem_of_fmap in Hr' as (r & -> & Hr).
    destruct (normalize_rule_apps free_vars r) as [Eh Eb]. unfold head_name. rewrite Eh. rewrite Eb in IH.
    destruct (default_valuation free_vars r rho (G r Hr) Ad (fun c => Q r c Hr)) as (rho' & Ad' & Rd & Out & Ev).
    assert (Arg : forall app e, app ∈ rule_apps r -> e ∈ args app -> eval rho e = eval rho' e).
    { intros app e Ha He. apply eval_ext. intros m Hm%collect_expr_vars_occurs. symmetry. apply Out.
      intros (base & c & _ & Hb & <-)%in_replaced_names. destruct (replaced_free _ _ _ Hb) as [d Hd].
      by apply (free_not_argument vc base.1 r app e (default_array_free _ _ _ Hd) Hr Ha He). }
    assert (Args : forall app, app ∈ rule_apps r -> map (eval rho) (args app) = map (eval rho') (args app)).
    { intros app Ha. apply map_ext_in. intros e He%list_elem_of_In. by apply (Arg app). }
    rewrite (Args (head r)) by (unfold rule_apps; set_solver). apply (read _ _ r rho'); [done..| |].
    + intros c Hc. rewrite (Ev c Hc). destruct (decide ((normalize_rule free_vars r).2 = 0%nat)) as [Z|Nz].
      * destruct (rule_unchanged free_vars r Z) as [Er Rp]. rewrite Er in Tc.
        unfold rewrite_free_bases_in_expr. rewrite (proj2 (rewrite_count _ free_vars c)); [by apply Tc|].
        rewrite (proj1 (rewrite_count _ free_vars c)). fold (replaced free_vars c). by rewrite (Rp c Hc).
      * apply Tc, in_rule_constraint; [done|]. by exists c.
    + intros app Ea. rewrite <- (Args app) by (unfold rule_apps; rewrite Ea; set_solver). by apply IH.
  - intros D. induction D as [r rho Hr Ad Rd Tc _ IH]. destruct (normalize_rule_apps free_vars r) as [Eh Eb].
    assert (En : head_name r = head_name (normalize_rule free_vars r).1) by (unfold head_name; by rewrite Eh).
    rewrite En, <- Eh. apply (derive _ (normalize_rule free_vars r).1 rho); [apply list_elem_of_fmap; by exists r|done| |].
    + destruct (decide ((normalize_rule free_vars r).2 = 0%nat)) as [Z|Nz];
        [by rewrite (proj1 (rule_unchanged free_vars r Z))|].
      intros c (c0 & Hc0 & ->)%in_rule_constraint; [|done].
      rewrite (rewrite_same rho free_vars c0 (Q r c0 Hr Hc0) (Rd c0 Hc0)). by apply Tc.
    + rewrite Eb. exact IH.
Qed.

End Meaning.

End FreeArrays.
