(* ===== verification/NormaliseTheorems.v ===== *)
(** * What the scalar and array normalisations promise

    The theorems on [chc_optimize_dead_scalars.rs] and [chc_normalize_free_arrays.rs],
    with runs in the sample languages, and the systems each of them changes. *)

From S2P Require Import Prelude AyExpr Chc DeadVars DeadArgs BvArith AyBuild AyBuildSample AyTry DeadScalars FreeArrays.

Module NormaliseTheorems.

(** ** Dead columns *)

Section DeadColumns.
Import Chc DeadArgs DeadScalars DeadScalarsSpec.

(** The masks.  A column of a relation is dropped exactly when all its applications
    are comparable with the declaration and name one slot at every column, and at this
    column there are only names of a dead slot, at least one, and terms without
    variables. *)
Theorem masked_columns_exact `{AyExpr} (vc : ChcVc) (dead : gset string) (R : string) (k : nat) :
  (exists mask, dead_column_masks vc dead !! R = Some (Some mask) /\ mask !! k = Some true) <->
  exists n, tabular vc R n /\ (forall arg, column_arg vc R k arg -> droppable_arg dead arg) /\
    exists arg base, column_arg vc R k arg /\ names_slot arg base.
Proof. apply masked_columns_spec. Qed.

(** C33: Removing dead columns loses no derivation.  Every fact is, less the dropped
    columns, a fact of the pruned system; a target that is underivable afterwards was
    underivable; declarations and applications keep one arity, and the number returned is
    that of the declared columns that are gone. *)
Theorem prune_scalars_sound `{AySem} (vc vc' : ChcVc) (k : nat) (run : prune_dead_identity_scalars vc = (vc', k)) :
  (forall R vs, derivable (rules vc) R vs ->
     derivable (rules vc') R (drop_columns (dead_column_masks vc (dead_slots vc)) R vs)) /\
  (~ reachable vc' -> ~ reachable vc) /\
  (arities_ok vc -> arities_ok vc' /\
     (list_sum (map arity (relations vc')) + k = list_sum (map arity (relations vc)))%nat).
Proof.
  destruct (prune_cases vc vc' k run) as (-> & C).
  set (masks := dead_column_masks vc (dead_slots vc)) in *.
  assert (D : forall R vs, derivable (rules vc) R vs -> derivable (rules vc') R (drop_columns masks R vs)).
  { intros R vs D. destruct C as [[-> Z]| ->]; [by rewrite pruned_none|]. by apply prune_rules_derivable. }
  assert (Q : query_target vc' = query_target vc) by (destruct C as [[-> _]| ->]; done).
  split_and!; [done| |].
  - intros N (vs & Dv). apply N. exists (drop_columns masks (query_target vc) vs). rewrite Q. by apply D.
  - intros Ok. destruct C as [[-> Z]| ->]; [split; [done|lia]|]. split; [by apply prune_keeps_arities|].
    apply prune_count, Ok.
Qed.

(** Nor is one invented where the dead slots of every rule are apart from what is
    kept: then every fact of the pruned system comes from a fact of the system, and the
    query has the same answer. *)
Theorem prune_scalars_exact `{AySem} (vc vc' : ChcVc) (k : nat) (col : string -> nat -> Sort)
    (run : prune_dead_identity_scalars vc = (vc', k))
    (sorted : columns_sorted vc (dead_column_masks vc (dead_slots vc)) col)
    (apart : forallb (kept_apart (dead_column_masks vc (dead_slots vc)) (dead_slots vc)) (rules vc) = true) :
  (forall R ws, derivable (rules vc') R ws ->
     exists vs, derivable (rules vc) R vs /\ drop_columns (dead_column_masks vc (dead_slots vc)) R vs = ws) /\
  (reachable vc' <-> reachable vc).
Proof.
  destruct (prune_cases vc vc' k run) as (-> & C). rewrite forallb_forall in apart.
  set (masks := dead_column_masks vc (dead_slots vc)) in *.
  assert (L : forall R ws, derivable (rules vc') R ws ->
    exists vs, derivable (rules vc) R vs /\ drop_columns masks R vs = ws).
  { intros R ws D. destruct C as [[-> Z]| ->]; [exists ws; split; [done|by apply pruned_none]|].
    destruct (scalar_lift vc (dead_slots vc) col R ws sorted (fun r Hr => apart r (proj1 (list_elem_of_In _ _) Hr)) D)
      as (vs & Dv & E & _). by exists vs. }
  assert (Q : query_target vc' = query_target vc) by (destruct C as [[-> _]| ->]; done).
  split; [done|]. unfold reachable. rewrite Q. split; intros (vs & D).
  - destruct (L _ _ D) as (vs0 & D0 & _). by exists vs0.
  - exists (drop_columns masks (query_target vc) vs). destruct C as [[-> Z]| ->]; [by rewrite pruned_none|].
    by apply prune_rules_derivable.
Qed.

End DeadColumns.

(** ** Free arrays *)

Section FreeArrays.
Import AyBuild AyTry Chc FreeArrays.

(** C34: The normalisation of free arrays, for constraints without quantifiers.  Every
    fact derivable by valuations in which each replaced variable is its default array is
    derivable afterwards.  When the replaced variables are gone from their rules, read
    nowhere but under the chains of stores that the pass rewrites ([bases_gone]), these
    are exactly the facts derivable afterwards, and no error becomes reachable that was
    not: the pass then invents nothing, and it loses the derivations that need another
    array ([normalize_loses]).  [normalize_invents] is a rule that reads its variable
    elsewhere too. *)
Theorem normalize_exact `{AyEval} `{!AyTry} `{!AyInt} (vc vc' : ChcVc) (k : nat)
    (run : normalize_free_array_bases vc = (vc', k))
    (qf : forall r c, r ∈ rules vc -> c ∈ iter (constraints (body r)) -> quantifier_free c) :
  (forall R vs, reading (default_reading (free_array_vars vc)) (rules vc) R vs -> derivable (rules vc') R vs) /\
  ((forall r, r ∈ rules vc -> bases_gone (free_array_vars vc) r) ->
   (forall R vs, derivable (rules vc') R vs <-> reading (default_reading (free_array_vars vc)) (rules vc) R vs) /\
   (reachable vc' -> reachable vc)).
Proof.
  assert (X : query_target vc' = query_target vc /\ forall R vs,
    ((forall r, r ∈ rules vc -> bases_gone (free_array_vars vc) r) ->
     derivable (rules vc') R vs -> reading (default_reading (free_array_vars vc)) (rules vc) R vs) /\
    (reading (default_reading (free_array_vars vc)) (rules vc) R vs -> derivable (rules vc') R vs)).
  { unfold normalize_free_array_bases in run. cbv zeta in run. destruct (bool_decide (free_array_vars vc = ∅)) eqn:Fe.
    - injection run as <- _. apply bool_decide_eq_true in Fe. split; [done|]. intros R vs.
      split; [intros _|]; by apply normalize_none.
    - injection run as <- _. split; [done|]. intros R vs. cbn [rules set_rules]. rewrite map_map.
      by apply normalize_rules_exact. }
  destruct X as [Q X]. split; [intros R vs; apply X|]. intros gone. split; [split; [by apply X|apply X]|].
  unfold reachable. rewrite Q. intros (vs & D). exists vs. by eapply reading_derivable, (proj1 (X _ _) gone).
Qed.

End FreeArrays.

(** ** Runs in the sample language *)

Section Sample.
Import AyBuild AyTry FreeArrays BvArith AyBuildSample SampleSystems AyTrySample.

#[local] Instance sample_int : AyInt := {|
  is_int_sort := fun _ : @Sort terms => false; int_const := fun z => TUn IntNeg (TBv 8 z) |}.

Definition with_vars (names : list string) (vc : @Chc.ChcVc terms) : @Chc.ChcVc terms :=
  Chc.set_vars (map (fun n => {| Chc.var_name := n; Chc.vsort := svar_sort n : @Sort terms |}) names)
    (list_to_set names) vc.

(** A counter [x] beside a variable [d] that is only handed on *)
Definition handed_on : @Chc.ChcVc terms := with_vars ["x"; "x__out"; "d"; "d__out"] (system [("bb0", 2%nat); ("error", 0%nat)]
  [clause None [] (call "bb0" [num 0; num 0]);
   clause (Some (call "bb0" [sym "x"; sym "d"]))
     [TEq (sym "x__out") (succ (sym "x")); TEq (sym "d__out") (sym "d")] (call "bb0" [sym "x__out"; sym "d__out"]);
   clause (Some (call "bb0" [sym "x"; sym "d"])) [TEq (sym "x") (num 5)] (call "error" [])]).

(** The error only for a value the dead variable never has *)
Definition literal_guard : @Chc.ChcVc terms := with_vars ["d"; "d__out"] (system [("bb0", 1%nat); ("error", 0%nat)]
  [clause None [] (call "bb0" [num 0]);
   clause (Some (call "bb0" [sym "d"])) [TEq (sym "d__out") (sym "d")] (call "bb0" [sym "d__out"]);
   clause (Some (call "bb0" [num 1])) [] (call "error" [])]).

(** An array of which one element is written and another is read *)
Definition unwritten : @Chc.ChcVc terms := with_vars ["a_v"; "a_x"; "a_x__out"] (
  Chc.set_rules [{| Chc.rel_name := "bb0"; Chc.arg_sorts := [SArr 8 8 : @Sort terms] |}; Chc.RelationDecl_nullary "error"]
  [clause None [TEq (sym "a_x__out") (TStore (sym "a_v") (num 0) (num 5))] (call "bb0" [sym "a_x__out"]);
   clause (Some (call "bb0" [sym "a_x"])) [TEq (TBin Select (sym "a_x") (num 1)) (num 7)] (call "error" [])]
  (@Chc.ChcVc_new terms)).

Abbreviation pruned vc := (DeadScalars.prune_dead_identity_scalars vc).
Abbreviation normalized vc := (normalize_free_array_bases vc).

Lemma prune_scalars_sound_witness : (pruned handed_on).2 = 1%nat /\
  (~ Chc.reachable (pruned handed_on).1 -> ~ Chc.reachable handed_on).
Proof.
  split; [by vm_compute|].
  exact (proj1 (proj2 (prune_scalars_sound handed_on (pruned handed_on).1 (pruned handed_on).2 (surjective_pairing (pruned handed_on))))).
Defined.

Lemma handed_on_sorted : DeadScalarsSpec.columns_sorted handed_on
  (DeadScalars.dead_column_masks handed_on (DeadScalars.dead_slots handed_on)) (fun _ _ => SBv 8).
Proof.
  intros app k e mask Ha Em Ek Ee.
  assert (M : DeadScalars.dead_column_masks handed_on (DeadScalars.dead_slots handed_on) =
    {[ "bb0" := Some [false; true]; "error" := Some [] ]}) by (by vm_compute).
  rewrite M in Em. cbn in Ha. rewrite !elem_of_cons, elem_of_nil in Ha.
  assert (D : e = num 0 \/ e = sym "d" \/ e = sym "d__out").
  { apply lookup_insert_Some in Em as [[En [= <-]]|[_ [En [= <-]]%lookup_singleton_Some]]; [|by rewrite lookup_nil in Ek].
    destruct k as [|[|k]]; [done| |done].
    destruct Ha as [->|[->|[->|[->|[->|[]]]]]]; cbn in Ee; try done; injection Ee as <-; auto. }
  destruct D as [->|[->| ->]]; (split; [intros n V; vm_compute in V; by simplify_eq|]); intros rho Hr;
    [done|apply (Hr "d")|apply (Hr "d__out")].
Qed.

Lemma prune_scalars_exact_witness : Chc.reachable (pruned handed_on).1 <-> Chc.reachable handed_on.
Proof.
  refine (proj2 (prune_scalars_exact handed_on (pruned handed_on).1 (pruned handed_on).2 (fun _ _ => SBv 8)
    (surjective_pairing (pruned handed_on)) handed_on_sorted _)).
  by vm_compute.
Defined.

Lemma literal_guard_facts R vs : Chc.derivable (Chc.rules literal_guard) R vs ->
  (R = "bb0" -> vs = [VBv 8 0]) /\ R <> "error".
Proof.
  intros D. induction D as [r rho Hr Ad Tc _ IH]. cbn in Hr. rewrite !elem_of_cons, elem_of_nil in Hr.
  destruct Hr as [->|[->|[->|[]]]]; cbn in *; [done| |].
  - split; [|done]. intros _. specialize (IH _ eq_refl) as [E _]. specialize (E eq_refl). cbn in E.
    specialize (Tc _ (list_elem_of_here _ _)). cbn in Tc. injection Tc as Tc. apply bool_decide_eq_true in Tc. by rewrite Tc.
  - destruct (IH _ eq_refl) as [E _]. by specialize (E eq_refl).
Qed.

(** A dead column may be read after all.  A body that calls its relation with a
    literal at the column only fires for that value; the pass takes a literal for a value
    nothing reads, drops it, and makes an error derivable that was not. *)
Theorem scalars_invent : ~ Chc.reachable literal_guard /\ Chc.reachable (pruned literal_guard).1.
Proof.
  split.
  - intros (vs & D). by destruct (literal_guard_facts _ _ D).
  - exists []. assert (E : Chc.rules (pruned literal_guard).1 = [clause None [] (call "bb0" []);
      clause (Some (call "bb0" [])) [] (call "bb0" []); clause (Some (call "bb0" [])) [] (call "error" [])])
      by (vm_cast_no_check (eq_refl (Chc.rules (pruned literal_guard).1))).
    rewrite E. fire fire_derivable (@nil (string * Z)) 2%nat. fire fire_derivable (@nil (string * Z)) 0%nat.
Qed.

(** The default array of the sample *)
Definition zeros : @Expr terms := TUn (ConstArray (SBv 8)) (TBv 8 0).
Definition written (base : @Expr terms) : @Chc.Rule terms :=
  clause None [TEq (sym "a_x__out") (TStore base (num 0) (num 5))] (call "bb0" [sym "a_x__out"]).

Lemma unwritten_free : free_array_vars unwritten = {["a_v"]}.
Proof. vm_cast_no_check (eq_refl ({["a_v"]} : gset string)). Qed.

Lemma unwritten_normalized : Chc.rules (normalized unwritten).1 =
  [written zeros; clause (Some (call "bb0" [sym "a_x"])) [TEq (TBin Select (sym "a_x") (num 1)) (num 7)] (call "error" [])].
Proof. vm_cast_no_check (eq_refl (Chc.rules (normalized unwritten).1)). Qed.

Lemma unwritten_gone r : r ∈ Chc.rules unwritten -> bases_gone (free_array_vars unwritten) r.
Proof.
  rewrite unwritten_free. intros Hr. exists (fun _ => zeros). intros base c Hc Hb.
  assert (X : r = written (sym "a_v") /\ c = TEq (sym "a_x__out") (TStore (sym "a_v") (num 0) (num 5)) /\ base = ("a_v", SArr 8 8)).
  { cbn in Hr. rewrite !elem_of_cons, elem_of_nil in Hr. destruct Hr as [->|[->|[]]]; apply list_elem_of_singleton in Hc as ->.
    - vm_compute in Hb. apply list_elem_of_singleton in Hb as ->. done.
    - vm_compute in Hb. by apply elem_of_nil in Hb. }
  destruct X as (-> & -> & ->). split_and!.
  - by vm_compute.
  - intros rho _. by vm_compute.
  - intros base' c' _ _ Hn. vm_compute in Hn. by apply elem_of_nil in Hn.
  - intros c' Hc' Hn. apply list_elem_of_singleton in Hc' as ->. vm_compute in Hn.
    by apply list_elem_of_singleton in Hn.
Qed.

Lemma normalize_exact_witness : (normalized unwritten).2 = 1%nat /\
  forall R vs, Chc.derivable (Chc.rules (normalized unwritten).1) R vs <->
    reading (default_reading (free_array_vars unwritten)) (Chc.rules unwritten) R vs.
Proof.
  split; [by vm_compute|].
  refine (proj1 (proj2 (normalize_exact unwritten (normalized unwritten).1 (normalized unwritten).2
    (surjective_pairing (normalized unwritten)) _) unwritten_gone)).
  intros r c _ _. apply all_quantifier_free.
Defined.

(** A valuation with an array for the free variable *)
Definition with_arrays (x x' : gmap Z Z) (n : string) : sval :=
  if String.eqb n "a_v" then VArr 8 8 0 x else if String.eqb n "a_x__out" then VArr 8 8 0 x'
  else if String.eqb n "a_x" then VArr 8 8 0 x' else sinhabitant (svar_sort n).

Definition bytes_only (m : gmap Z Z) : Prop := map_Forall (fun _ x => in_range 8 x /\ x <> 0)%Z m.

Lemma with_arrays_ok x x' : bytes_only x -> bytes_only x' -> @admissible terms term_sem (with_arrays x x').
Proof.
  intros F F'. assert (T : forall m, bytes_only m -> typed (VArr 8 8 0 m) (SArr 8 8))
    by (intros m Fm; split_and!; [done..|by vm_compute|exact Fm]).
  pose proof (T x F) as T1. pose proof (T x' F') as T2.
  intros n. unfold with_arrays. destruct (String.eqb_spec n "a_v") as [->|_]; [exact T1|].
  destruct (String.eqb_spec n "a_x__out") as [->|_]; [exact T2|].
  destruct (String.eqb_spec n "a_x") as [->|_]; [exact T2|]. apply (@inhabitant_sort terms term_sem).
Qed.

Lemma written_arrays_ok : @admissible terms term_sem (with_arrays {[1%Z := 7%Z]} {[0%Z := 5%Z; 1%Z := 7%Z]}).
Proof. apply with_arrays_ok; decide_now. Qed.

Lemma normalized_facts R vs : Chc.derivable (Chc.rules (normalized unwritten).1) R vs ->
  (R = "bb0" -> vs = [VArr 8 8 0 {[0%Z := 5%Z]}]) /\ R <> "error".
Proof.
  rewrite unwritten_normalized. intros D. induction D as [r rho Hr Ad Tc _ IH].
  rewrite !elem_of_cons, elem_of_nil in Hr. destruct Hr as [->|[->|[]]]; cbn in *.
  - split; [|done]. intros _. specialize (Tc _ (list_elem_of_here _ _)). cbn in Tc. injection Tc as Tc.
    apply bool_decide_eq_true in Tc. rewrite Tc. by vm_compute.
  - destruct (IH _ eq_refl) as [E _]. specialize (E eq_refl). cbn in E. injection E as E.
    specialize (Tc _ (list_elem_of_here _ _)). cbn in Tc. injection Tc as Tc. apply bool_decide_eq_true in Tc.
    rewrite E in Tc. vm_compute in Tc. done.
Qed.

(** The elements of a free array are not constrained, but the program may read them.
    With a zero array in its place, an error that needs another value at an element that
    was not written is no longer derivable. *)
Theorem normalize_loses : Chc.reachable unwritten /\ ~ Chc.reachable (normalized unwritten).1.
Proof.
  split.
  - exists []. refine (@Chc.derive terms term_sem _ (clause (Some (call "bb0" [sym "a_x"]))
      [TEq (TBin Select (sym "a_x") (num 1)) (num 7)] (call "error" [])) _ _ written_arrays_ok _ _); [by right; left| |].
    + intros c ->%list_elem_of_singleton. by vm_compute.
    + intros app [= <-]. refine (@Chc.derive terms term_sem _ (written (sym "a_v")) _ _ written_arrays_ok _ _); [by left| |done].
      intros c ->%list_elem_of_singleton. by vm_compute.
  - intros (vs & D). by destruct (normalized_facts _ _ D).
Qed.

(** The error only where the array differs from itself *)
Definition read_twice : @Chc.ChcVc terms := with_vars ["a_v"; "a_x"] (
  Chc.set_rules [Chc.RelationDecl_nullary "error"]
  [clause None [TEq (sym "a_x") (TStore (sym "a_v") (num 0) (num 5));
      TEq (TBin Select (sym "a_x") (num 1)) (num 0); TEq (TBin Select (sym "a_v") (num 1)) (num 7)] (call "error" [])]
  (@Chc.ChcVc_new terms)).

Lemma read_twice_normalized : Chc.rules (normalized read_twice).1 =
  [clause None [TEq (sym "a_x") (TStore zeros (num 0) (num 5));
      TEq (TBin Select (sym "a_x") (num 1)) (num 0); TEq (TBin Select (sym "a_v") (num 1)) (num 7)] (call "error" [])].
Proof. vm_cast_no_check (eq_refl (Chc.rules (normalized read_twice).1)). Qed.

(** A replaced variable that is read elsewhere in its rule becomes two arrays: the pass
    makes an error derivable that was not. *)
Theorem normalize_invents : ~ Chc.reachable read_twice /\ Chc.reachable (normalized read_twice).1.
Proof.
  split.
  - intros (vs & D). inversion D as [r rho Hr Ad Tc _ E Ev]. subst. clear E D.
    apply list_elem_of_singleton in Hr as ->.
    pose proof (Tc _ (list_elem_of_here _ _)) as T1.
    pose proof (Tc _ (list_elem_of_further _ _ _ (list_elem_of_here _ _))) as T2.
    pose proof (Tc _ (list_elem_of_further _ _ _ (list_elem_of_further _ _ _ (list_elem_of_here _ _)))) as T3.
    destruct (sselect_store (sym "a_v") (num 0) (num 5) (VBv 8 1) rho Ad) as [_ S]; [done|].
    injection T1 as T1%bool_decide_eq_true. injection T2 as T2%bool_decide_eq_true.
    injection T3 as T3%bool_decide_eq_true.
    cbn [seval sym num bin_val] in *. rewrite T1, S, T3 in T2; done.
  - exists []. rewrite read_twice_normalized.
    refine (@Chc.derive terms term_sem _ (clause None _ (call "error" [])) _ _
      (with_arrays_ok {[1%Z := 7%Z]} {[0%Z := 5%Z]} _ _) _ _); [by left|decide_now|decide_now| |done].
    intros c Hc. cbn in Hc. rewrite !elem_of_cons, elem_of_nil in Hc. by destruct Hc as [->|[->|[->|[]]]]; vm_compute.
Qed.

End Sample.

End NormaliseTheorems.
