(* ===== verification/F64.v ===== *)
(** * Floating-point numbers as their bits

    What the encoder of trust-mc-trust-bmc uses of Rust's [f64] and [f32]: the bit
    patterns ([to_bits]), [is_finite], the casts between [f64] and [i128], and those
    between [f64] and [f32].  A number is its IEEE-754 bit pattern, so that equality
    of patterns is equality of integers. *)

From S2P Require Import Prelude.

Module F64.
Local Open Scope Z_scope.

(** ** The formats *)

(** The binary format with [p] bits of fraction and [k] bits of exponent *)
Record Format := { fraction_bits : Z; exponent_bits : Z }.
Definition double : Format := {| fraction_bits := 52; exponent_bits := 11 |}.
Definition single : Format := {| fraction_bits := 23; exponent_bits := 8 |}.

Section Fields.
Variable f : Format.

Definition sign (v : Z) : bool := (2 ^ (fraction_bits f + exponent_bits f) <=? v).
Definition exponent (v : Z) : Z := (v / 2 ^ fraction_bits f) mod 2 ^ exponent_bits f.
Definition fraction (v : Z) : Z := v mod 2 ^ fraction_bits f.
Definition bias : Z := 2 ^ (exponent_bits f - 1) - 1.
Definition max_exponent : Z := 2 ^ exponent_bits f - 1.

(** A finite number is its significand times a power of two. *)
Definition significand (v : Z) : Z :=
  if exponent v =? 0 then fraction v else 2 ^ fraction_bits f + fraction v.
Definition scale (v : Z) : Z := Z.max 1 (exponent v) - bias - fraction_bits f.

Definition is_finite (v : Z) : bool := exponent v <? max_exponent.
Definition is_nan (v : Z) : bool := (exponent v =? max_exponent) && negb (fraction v =? 0).
Definition pack (s : bool) (magnitude : Z) : Z :=
  (if s then 2 ^ (fraction_bits f + exponent_bits f) else 0) + magnitude.

(** The bit patterns of the format *)
Definition pattern (v : Z) : Prop := 0 <= v < 2 ^ (fraction_bits f + exponent_bits f + 1).

End Fields.

(** The quotient by [2 ^ s], to the nearest, ties to even *)
Definition round_shift (a s : Z) : Z :=
  let q := a / 2 ^ s in
  let r := a mod 2 ^ s in
  if (2 ^ s <? 2 * r) || ((2 * r =? 2 ^ s) && Z.odd q) then q + 1 else q.

(** ** [f64] and [i128] *)

Definition i128_min : Z := - 2 ^ 127.
Definition i128_max : Z := 2 ^ 127 - 1.

(** The magnitude of a finite number without its fraction *)
Definition truncated (v : Z) : Z :=
  if 0 <=? scale double v then significand double v * 2 ^ scale double v
  else significand double v / 2 ^ (- scale double v).

(** [v as i128]: towards zero, saturating; a NaN is 0 *)
Definition as_i128 (v : Z) : Z :=
  if is_nan double v then 0
  else if is_finite double v then
    Z.max i128_min (Z.min i128_max (if sign double v then - truncated v else truncated v))
  else if sign double v then i128_min else i128_max.

(** [i as f64]: to the nearest, ties to even *)
Definition magnitude_bits (a : Z) : Z :=
  if a =? 0 then 0
  else
    let n := Z.log2 a in
    let q := if n <=? 52 then a * 2 ^ (52 - n) else round_shift a (n - 52) in
    (n + 1023) * 2 ^ 52 + (q - 2 ^ 52).
Definition of_i128 (i : Z) : Z := pack double (i <? 0) (magnitude_bits (Z.abs i)).

(** ** [f64] and [f32] *)

(** The payload a cast gives to a NaN is not determined by the language. *)
Class NanCasts := { demoted_nan : Z -> Z; promoted_nan : Z -> Z }.

(** [v as f32]: to the nearest, ties to even; what is too large is infinite *)
Definition demoted_magnitude (m e : Z) : Z :=
  if m =? 0 then 0
  else
    let low := Z.max (Z.log2 m + e - 23) (-149) in
    Z.min (255 * 2 ^ 23) ((low + 149) * 2 ^ 23 + round_shift m (low - e)).
Definition as_f32 `{NanCasts} (v : Z) : Z :=
  if is_nan double v then demoted_nan v
  else if is_finite double v then
    pack single (sign double v) (demoted_magnitude (significand double v) (scale double v))
  else pack single (sign double v) (255 * 2 ^ 23).

(** [f64::from(b)] *)
Definition promoted_magnitude (m e : Z) : Z :=
  if m =? 0 then 0
  else (Z.log2 m + e + 1023) * 2 ^ 52 + (m * 2 ^ (52 - Z.log2 m) - 2 ^ 52).
Definition from_f32 `{NanCasts} (b : Z) : Z :=
  if is_nan single b then promoted_nan b
  else if is_finite single b then
    pack double (sign single b) (promoted_magnitude (significand single b) (scale single b))
  else pack double (sign single b) (2047 * 2 ^ 52).

Example one_and_a_half : as_i128 (1023 * 2 ^ 52 + 2 ^ 51) = 1.
Proof. reflexivity. Qed.
Example minus_three : of_i128 (-3) = 2 ^ 63 + 1024 * 2 ^ 52 + 2 ^ 51 /\ as_i128 (of_i128 (-3)) = -3.
Proof. by vm_compute. Qed.
Example ties_to_even :
  as_i128 (of_i128 (2 ^ 53 + 1)) = 2 ^ 53 /\ as_i128 (of_i128 (2 ^ 53 + 3)) = 2 ^ 53 + 4.
Proof. by vm_compute. Qed.
Example half_single `{NanCasts} : as_f32 (1022 * 2 ^ 52) = 126 * 2 ^ 23 /\ from_f32 (126 * 2 ^ 23) = 1022 * 2 ^ 52.
Proof. by vm_compute. Qed.
Example smallest_single `{NanCasts} : from_f32 1 = 874 * 2 ^ 52 /\ as_f32 (874 * 2 ^ 52) = 1 /\ as_f32 1 = 0.
Proof. by vm_compute. Qed.

(** ** The fields of a number *)

Lemma pack_fields f s m : 0 <= fraction_bits f -> 0 <= exponent_bits f ->
  0 <= m < 2 ^ (fraction_bits f + exponent_bits f) ->
  sign f (pack f s m) = s /\ exponent f (pack f s m) = m / 2 ^ fraction_bits f /\
  fraction f (pack f s m) = m mod 2 ^ fraction_bits f.
Proof.
  intros P K R. unfold sign, exponent, fraction, pack.
  assert (E : 2 ^ (fraction_bits f + exponent_bits f) = 2 ^ exponent_bits f * 2 ^ fraction_bits f)
    by (rewrite Z.pow_add_r; lia).
  set (p := 2 ^ fraction_bits f) in *. set (k := 2 ^ exponent_bits f) in *.
  assert (0 < p) by (apply Z.pow_pos_nonneg; lia). assert (0 < k) by (apply Z.pow_pos_nonneg; lia).
  rewrite E in *. destruct s.
  - split; [apply Z.leb_le; lia|]. split.
    + rewrite Z.add_comm, Z.div_add by lia. rewrite <- Zplus_mod_idemp_r, Z_mod_same_full, Z.add_0_r.
      apply Z.mod_small. split; [apply Z.div_pos; lia|]. apply Z.div_lt_upper_bound; lia.
    + rewrite Z.add_comm. by rewrite Z_mod_plus_full.
  - rewrite Z.add_0_l. split; [apply Z.leb_gt; lia|]. split; [|done].
    apply Z.mod_small. split; [apply Z.div_pos; lia|]. apply Z.div_lt_upper_bound; lia.
Qed.

Lemma pack_unpack f v : 0 <= fraction_bits f -> 0 <= exponent_bits f -> pattern f v ->
  v = pack f (sign f v) (exponent f v * 2 ^ fraction_bits f + fraction f v).
Proof.
  intros P K R. unfold sign, exponent, fraction, pack. unfold pattern in R.
  assert (E : 2 ^ (fraction_bits f + exponent_bits f) = 2 ^ exponent_bits f * 2 ^ fraction_bits f)
    by (rewrite Z.pow_add_r; lia).
  rewrite Z.pow_add_r, E in R by lia. rewrite E.
  set (p := 2 ^ fraction_bits f) in *. set (k := 2 ^ exponent_bits f) in *.
  assert (0 < p) by (apply Z.pow_pos_nonneg; lia). assert (0 < k) by (apply Z.pow_pos_nonneg; lia).
  pose proof (Z.div_mod v p ltac:(lia)) as D. pose proof (Z.mod_pos_bound v p ltac:(lia)).
  destruct (Z.leb_spec (k * p) v) as [L|L].
  - assert (v / p = k + (v / p - k)) as E2 by lia.
    assert (k <= v / p) by (apply Z.div_le_lower_bound; lia).
    assert (v / p < 2 * k) by (apply Z.div_lt_upper_bound; lia).
    rewrite E2, <- Zplus_mod_idemp_l, Z_mod_same_full, Z.add_0_l, Z.mod_small by lia. lia.
  - rewrite (Z.mod_small (v / p)); [lia|]. split; [apply Z.div_pos; lia|].
    apply Z.div_lt_upper_bound; lia.
Qed.


Lemma double_fields v : pattern double v ->
  0 <= exponent double v < 2048 /\ 0 <= fraction double v < 2 ^ 52 /\
  v = pack double (sign double v) (exponent double v * 2 ^ 52 + fraction double v).
Proof.
  intros P. split_and!; try (apply Z.mod_pos_bound; reflexivity).
  by apply (pack_unpack double v).
Qed.

(** A number is determined by its sign, exponent and fraction. *)
Lemma double_of_fields v s e m : 0 <= e < 2048 -> 0 <= m < 2 ^ 52 ->
  v = pack double s (e * 2 ^ 52 + m) ->
  sign double v = s /\ exponent double v = e /\ fraction double v = m.
Proof.
  intros E M ->.
  destruct (pack_fields double s (e * 2 ^ 52 + m)) as (-> & -> & ->); [done|done|cbn -[Z.pow]; lia|].
  change (fraction_bits double) with 52. rewrite (Z.add_comm (e * 2 ^ 52)), Z.div_add, Z_mod_plus_full by lia.
  rewrite Z.div_small, Z.mod_small by lia. split_and!; [done|lia|done].
Qed.

(** ** The casts between [f64] and [i128] *)

(** A finite number has the integer [i] as its value. *)
Definition denotes (v i : Z) : Prop :=
  is_finite double v = true /\
  (if sign double v then - significand double v else significand double v) * 2 ^ Z.max 0 (scale double v)
    = i * 2 ^ Z.max 0 (- scale double v).

Lemma log2_scaled a n k : 0 <= n -> 0 <= k -> 2 ^ n <= a * 2 ^ k < 2 ^ (n + 1) -> Z.log2 a = n - k.
Proof.
  intros N K R. assert (0 < 2 ^ k) by (by apply Z.pow_pos_nonneg).
  assert (0 < 2 ^ n) by (by apply Z.pow_pos_nonneg). assert (0 < a) by nia.
  assert (E : Z.log2 (a * 2 ^ k) = n) by (by apply Z.log2_unique).
  rewrite Z.log2_mul_pow2 in E by lia. lia.
Qed.

(** The bits of a significand with 53 digits at an exponent *)
Lemma magnitude_bits_scaled a m e : 0 < a -> 2 ^ 52 <= m < 2 ^ 53 -> 
  m * 2 ^ Z.max 0 e = a * 2 ^ Z.max 0 (- e) -> magnitude_bits a = (e + 1075) * 2 ^ 52 + (m - 2 ^ 52).
Proof.
  intros A M E. unfold magnitude_bits. destruct (Z.eqb_spec a 0); [lia|].
  destruct (Z.le_gt_cases 0 e) as [P|P].
  - rewrite (Z.max_r 0 e), (Z.max_l 0 (- e)), Z.mul_1_r in E by lia. subst a.
    assert (L : Z.log2 (m * 2 ^ e) = 52 + e).
    { rewrite Z.log2_mul_pow2 by lia. rewrite (Z.log2_unique m 52) by lia. lia. }
    rewrite L. replace (52 + e - 52) with e by lia.
    destruct (Z.leb_spec (52 + e) 52) as [C|C].
    + replace e with 0 by lia. cbn -[Z.pow]. lia.
    + unfold round_shift. assert (0 < 2 ^ e) by (apply Z.pow_pos_nonneg; lia).
      rewrite Z.mod_mul, Z.div_mul by lia.
      replace (2 ^ e <? 2 * 0) with false by (symmetry; apply Z.ltb_ge; lia).
      replace (2 * 0 =? 2 ^ e) with false by (symmetry; apply Z.eqb_neq; lia). cbn [orb andb]. lia.
  - rewrite (Z.max_l 0 e), (Z.max_r 0 (- e)), Z.mul_1_r in E by lia.
    assert (L : Z.log2 a = 52 - (- e)) by (apply log2_scaled; [lia..|]; rewrite <- E; exact M).
    rewrite L. destruct (Z.leb_spec (52 - - e) 52); [|lia].
    replace (52 - (52 - - e)) with (- e) by lia. rewrite <- E. lia.
Qed.

(** A positive integer with at most 53 digits is the value of its bits. *)
Lemma small_magnitude a : 0 < a < 2 ^ 53 -> exists e m, 
  magnitude_bits a = (e + 1075) * 2 ^ 52 + (m - 2 ^ 52) /\ 2 ^ 52 <= m < 2 ^ 53 /\ - 52 <= e <= 0 /\ m = a * 2 ^ (- e).
Proof.
  intros A. set (n := Z.log2 a). destruct (Z.log2_spec a ltac:(lia)) as [L1 L2]. fold n in L1, L2.
  assert (0 <= n <= 52).
  { split; [apply Z.log2_nonneg|]. pose proof (Z.log2_le_mono a (2 ^ 53 - 1) ltac:(lia)). fold n in H. 
    by change (Z.log2 (2 ^ 53 - 1)) with 52 in H. }
  exists (n - 52), (a * 2 ^ (52 - n)).
  assert (Mr : 2 ^ 52 <= a * 2 ^ (52 - n) < 2 ^ 53).
  { replace (2 ^ 52) with (2 ^ n * 2 ^ (52 - n)) by (rewrite <- Z.pow_add_r by lia; f_equal; lia).
    replace (2 ^ 53) with (2 ^ Z.succ n * 2 ^ (52 - n)) by (rewrite <- Z.pow_add_r by lia; f_equal; lia).
    assert (0 < 2 ^ (52 - n)) by (apply Z.pow_pos_nonneg; lia).
    split; [by apply Z.mul_le_mono_nonneg_r; lia|by apply Z.mul_lt_mono_pos_r]. }
  replace (- (n - 52)) with (52 - n) by lia. split_and!; try lia.
  apply magnitude_bits_scaled; [lia|exact Mr|].
  rewrite (Z.max_l 0 (n - 52)), (Z.max_r 0 (- (n - 52))), Z.mul_1_r by lia. do 2 f_equal. lia.
Qed.

Lemma significand_zero v : pattern double v -> significand double v = 0 -> v = 0 \/ v = 2 ^ 63.
Proof.
  intros P S. destruct (double_fields v P) as (E & F & D). unfold significand in S. cbn -[Z.pow] in S.
  destruct (Z.eqb_spec (exponent double v) 0) as [Z|]; [|lia].
  rewrite Z, S in D. unfold pack in D. destruct (sign double v); [right|left]; rewrite D; reflexivity.
Qed.

(** The number of an integer within range converts back. *)
Lemma of_denoted v i : pattern double v -> v <> 2 ^ 63 -> denotes v i -> of_i128 i = v.
Proof.
  intros P Nz [Fin D]. destruct (double_fields v P) as (E & F & Dv).
  destruct (Z.eq_dec (significand double v) 0) as [S|S].
  { destruct (significand_zero v P S) as [->| ->]; [|done]. rewrite S in D.
    change (Z.max 0 (- scale double 0)) with 1074 in D.
    assert (0 = i * 2 ^ 1074) by (rewrite <- D; by destruct (sign double 0)).
    assert (i = 0) as -> by lia. reflexivity. }
  unfold denotes, significand, scale in *. cbn -[Z.pow] in *.
  change (bias double) with 1023 in *.
  apply Z.ltb_lt in Fin. change (max_exponent double) with 2047 in Fin.
  destruct (Z.eqb_spec (exponent double v) 0) as [Ez|En].
  { exfalso. rewrite Ez in D. change (Z.max 0 (- (Z.max 1 0 - 1023 - 52))) with 1074 in D.
    change (Z.max 0 (Z.max 1 0 - 1023 - 52)) with 0 in D. cbn -[Z.pow] in D. rewrite Z.mul_1_r in D.
    assert (2 ^ 52 < 2 ^ 1074) by reflexivity. destruct (sign double v); nia. }
  rewrite (Z.max_r 1) in D by lia. set (e := exponent double v - 1023 - 52) in *.
  set (m := 2 ^ 52 + fraction double v) in *.
  assert (p1 : 0 < 2 ^ Z.max 0 e) by (apply Z.pow_pos_nonneg; lia).
  assert (p2 : 0 < 2 ^ Z.max 0 (- e)) by (apply Z.pow_pos_nonneg; lia).
  assert (A : m * 2 ^ Z.max 0 e = Z.abs i * 2 ^ Z.max 0 (- e) /\ (i <? 0) = sign double v /\ i <> 0).
  { destruct (sign double v).
    - assert (i < 0) by nia. split_and!; [nia|by apply Z.ltb_lt|lia].
    - assert (0 < i) by nia. split_and!; [nia|apply Z.ltb_ge; lia|lia]. }
  destruct A as (A & Sg & I). unfold of_i128. rewrite Sg.
  rewrite (magnitude_bits_scaled (Z.abs i) m e) by (unfold m; lia).
  rewrite Dv at 2. f_equal. unfold m, e. lia.
Qed.


Lemma significand_nonneg v : 0 <= significand double v.
Proof.
  unfold significand. pose proof (Z.mod_pos_bound v (2 ^ 52) ltac:(lia)).
  change (fraction double v) with (v mod 2 ^ 52). change (fraction_bits double) with 52.
  destruct (_ =? _); lia.
Qed.

Lemma significand_bound v : significand double v < 2 ^ 53.
Proof.
  unfold significand. pose proof (Z.mod_pos_bound v (2 ^ 52) ltac:(lia)).
  change (fraction double v) with (v mod 2 ^ 52). change (fraction_bits double) with 52.
  destruct (_ =? _); lia.
Qed.

(** Nothing of an integer is cut off. *)
Lemma truncated_exact v i : denotes v i -> (if sign double v then - truncated v else truncated v) = i.
Proof.
  intros [_ D]. unfold truncated. destruct (Z.leb_spec 0 (scale double v)) as [L|L].
  - rewrite (Z.max_r 0), (Z.max_l 0), Z.mul_1_r in D by lia. rewrite <- D. destruct (sign double v); lia.
  - rewrite (Z.max_l 0), (Z.max_r 0), Z.mul_1_r in D by lia.
    assert (0 < 2 ^ (- scale double v)) by (apply Z.pow_pos_nonneg; lia).
    destruct (sign double v).
    + replace (significand double v) with (- i * 2 ^ (- scale double v)) by lia. rewrite Z.div_mul by lia. lia.
    + rewrite D. by rewrite Z.div_mul by lia.
Qed.

Lemma finite_not_nan v : is_finite double v = true -> is_nan double v = false.
Proof.
  unfold is_finite, is_nan. intros F%Z.ltb_lt. destruct (Z.eqb_spec (exponent double v) (max_exponent double)); [lia|done].
Qed.

Lemma finite_as_i128 v : is_finite double v = true ->
  as_i128 v = Z.max i128_min (Z.min i128_max (if sign double v then - truncated v else truncated v)).
Proof. intros F. unfold as_i128. by rewrite (finite_not_nan v F), F. Qed.

(** A number that a small integer converts to has that integer as its value. *)
Lemma small_denotes v i : pattern double v -> 0 < Z.abs i < 2 ^ 53 -> of_i128 i = v -> denotes v i.
Proof.
  intros P A E. destruct (small_magnitude (Z.abs i) A) as (e & m & B & M & Er & Em).
  destruct (double_of_fields v (i <? 0) (e + 1075) (m - 2 ^ 52)) as (S & X & F); [lia..| |].
  { rewrite <- E. unfold of_i128. by rewrite B. }
  unfold denotes, is_finite, significand, scale. rewrite S, X, F.
  change (max_exponent double) with 2047. change (bias double) with 1023. change (fraction_bits double) with 52.
  replace (e + 1075 =? 0) with false by (symmetry; apply Z.eqb_neq; lia).
  split; [apply Z.ltb_lt; lia|]. rewrite (Z.max_r 1) by lia.
  replace (e + 1075 - 1023 - 52) with e by lia. rewrite (Z.max_l 0), (Z.max_r 0), Z.mul_1_r by lia.
  replace (2 ^ 52 + (m - 2 ^ 52)) with m by lia. rewrite Em. destruct (Z.ltb_spec i 0); lia.
Qed.

Lemma i128_max_rounds : of_i128 i128_max = 1150 * 2 ^ 52 /\ as_i128 (1150 * 2 ^ 52) = i128_max.
Proof. by vm_compute. Qed.

(** The numbers that survive the round trip through [i128]: the integers in range but
    for the negative zero, and [2 ^ 127], which saturates to an integer that is rounded
    back to it. *)
Lemma round_trip v i : pattern double v ->
  is_finite double v = true /\ as_i128 v = i /\ of_i128 i = v <->
  v <> 2 ^ 63 /\
  (denotes v i /\ i128_min <= i <= i128_max \/ v = 1150 * 2 ^ 52 /\ i = i128_max).
Proof.
  intros P. split.
  - intros (Fin & A & O). split; [intros ->; subst i; by vm_compute in O|].
    rewrite (finite_as_i128 v Fin) in A.
    set (t := if sign double v then - truncated v else truncated v) in A.
    destruct (Z.lt_ge_cases i128_max t) as [H|H].
    { right. rewrite Z.min_l, Z.max_r in A by (unfold i128_min, i128_max in *; lia).
      subst i. split; [|done]. rewrite <- O. apply i128_max_rounds. }
    left. rewrite Z.min_r in A by lia.
    destruct (Z.lt_ge_cases t i128_min) as [G|G].
    { rewrite Z.max_l in A by lia. subst i. split; [|by vm_compute].
      rewrite <- O. by vm_compute. }
    rewrite Z.max_r in A by lia. split; [|lia]. 
    destruct (Z.le_gt_cases 0 (scale double v)) as [L|L].
    + split; [done|]. rewrite (Z.max_r 0), (Z.max_l 0), Z.mul_1_r by lia. rewrite <- A. unfold t, truncated.
      rewrite (proj2 (Z.leb_le _ _) L). destruct (sign double v); lia.
    + destruct (Z.eq_dec i 0) as [->|N].
      { rewrite <- O. by vm_compute. }
      apply small_denotes; [done| |done]. split; [lia|].
      assert (T : 0 <= truncated v < 2 ^ 53); [|subst i t; destruct (sign double v); lia].
      unfold truncated. rewrite (proj2 (Z.leb_gt _ _) L).
      pose proof (significand_nonneg v). pose proof (significand_bound v).
      assert (0 < 2 ^ (- scale double v)) by (apply Z.pow_pos_nonneg; lia).
      split; [by apply Z.div_pos|]. apply Z.div_lt_upper_bound; [done|]. nia.
  - intros [Nz [[D R]|[-> ->]]]; [|by vm_compute].
    split; [apply D|]. split; [|by apply of_denoted].
    rewrite (finite_as_i128 v) by apply D. rewrite (truncated_exact v i D). lia.
Qed.


(** ** The casts between [f64] and [f32] *)

Lemma single_fields b : pattern single b ->
  0 <= exponent single b < 256 /\ 0 <= fraction single b < 2 ^ 23 /\
  b = pack single (sign single b) (exponent single b * 2 ^ 23 + fraction single b).
Proof.
  intros P. split_and!; try (apply Z.mod_pos_bound; reflexivity).
  by apply (pack_unpack single b).
Qed.

(** A finite single: its significand and scale, and the bits they stand for *)
Lemma single_finite b : pattern single b -> is_finite single b = true ->
  let m := significand single b in let e := scale single b in
  0 <= m < 2 ^ 24 /\ -149 <= e <= 104 /\ (m < 2 ^ 23 -> e = -149) /\
  b = pack single (sign single b) ((e + 149) * 2 ^ 23 + m).
Proof.
  intros P F%Z.ltb_lt. change (max_exponent single) with 255 in F.
  destruct (single_fields b P) as (E & M & D). unfold significand, scale.
  change (bias single) with 127. change (fraction_bits single) with 23. cbn zeta.
  destruct (Z.eqb_spec (exponent single b) 0) as [X|X].
  - rewrite X. change (Z.max 1 0 - 127 - 23) with (-149). split_and!; try lia.
    rewrite D at 1. f_equal. lia.
  - rewrite (Z.max_r 1) by lia. split_and!; try lia. rewrite D at 1. f_equal. lia.
Qed.

Lemma round_shift_exact m s : 0 <= s -> round_shift (m * 2 ^ s) s = m.
Proof.
  intros S. assert (0 < 2 ^ s) by (by apply Z.pow_pos_nonneg). unfold round_shift.
  rewrite Z.mod_mul, Z.div_mul by lia.
  replace (2 ^ s <? 2 * 0) with false by (symmetry; apply Z.ltb_ge; lia).
  by replace (2 * 0 =? 2 ^ s) with false by (symmetry; apply Z.eqb_neq; lia).
Qed.

(** The digits of a significand, moved to the top *)
Lemma normalised m : 0 < m < 2 ^ 24 ->
  0 <= Z.log2 m <= 23 /\ (2 ^ 23 <= m -> Z.log2 m = 23) /\ 2 ^ 52 <= m * 2 ^ (52 - Z.log2 m) < 2 ^ 53.
Proof.
  intros M. destruct (Z.log2_spec m ltac:(lia)) as [L1 L2]. set (n := Z.log2 m) in *.
  assert (R : 0 <= n <= 23).
  { split; [apply Z.log2_nonneg|]. pose proof (Z.log2_le_mono m (2 ^ 24 - 1) ltac:(lia)) as H.
    by change (Z.log2 (2 ^ 24 - 1)) with 23 in H. }
  split_and!; try lia.
  - intros B. apply Z.log2_unique; [lia|]. change (Z.succ 23) with 24. lia.
  - replace (2 ^ 52) with (2 ^ n * 2 ^ (52 - n)) by (rewrite <- Z.pow_add_r by lia; f_equal; lia).
    apply Z.mul_le_mono_nonneg_r; [apply Z.pow_nonneg; lia|lia].
  - replace (2 ^ 53) with (2 ^ Z.succ n * 2 ^ (52 - n)) by (rewrite <- Z.pow_add_r by lia; f_equal; lia).
    apply Z.mul_lt_mono_pos_r; [apply Z.pow_pos_nonneg; lia|lia].
Qed.

(** Widening a finite single *)
Lemma promoted_fields `{NanCasts} b : pattern single b -> is_finite single b = true ->
  0 < significand single b ->
  let n := Z.log2 (significand single b) in
  sign double (from_f32 b) = sign single b /\ exponent double (from_f32 b) = n + scale single b + 1023 /\
  fraction double (from_f32 b) = significand single b * 2 ^ (52 - n) - 2 ^ 52.
Proof.
  intros P F Z. cbn zeta. destruct (single_finite b P F) as (M & E & _ & _).
  destruct (normalised (significand single b)) as (N & _ & R); [lia|].
  apply double_of_fields; [lia..|]. unfold from_f32.
  assert (is_nan single b = false) as ->.
  { unfold is_nan. apply Z.ltb_lt in F. destruct (Z.eqb_spec (exponent single b) (max_exponent single)); [lia|done]. }
  rewrite F. unfold promoted_magnitude. destruct (Z.eqb_spec (significand single b) 0); [lia|done].
Qed.

(** Narrowing what was widened *)
Lemma demote_promote `{NanCasts} b : pattern single b -> is_nan single b = false -> as_f32 (from_f32 b) = b.
Proof.
  intros P Nn. destruct (is_finite single b) eqn:F.
  - destruct (single_finite b P F) as (M & E & Sub & D).
    destruct (Z.eq_dec (significand single b) 0) as [Z|Z].
    { assert (from_f32 b = pack double (sign single b) 0) as ->.
      { unfold from_f32. rewrite Nn, F, Z. reflexivity. }
      rewrite D at 2. rewrite Z, Sub by lia. by destruct (sign single b). }
    destruct (normalised (significand single b)) as (N & Top & R); [lia|].
    destruct (promoted_fields b P F) as (S & X & Fr); [lia|].
    set (m := significand single b) in *. set (e := scale single b) in *. set (n := Z.log2 m) in *.
    assert (Fin : is_finite double (from_f32 b) = true).
    { unfold is_finite. rewrite X. change (max_exponent double) with 2047. apply Z.ltb_lt. lia. }
    unfold as_f32. rewrite (finite_not_nan _ Fin), Fin, S. unfold significand, scale. rewrite X, Fr.
    change (bias double) with 1023. change (fraction_bits double) with 52.
    replace (n + e + 1023 =? 0) with false by (symmetry; apply Z.eqb_neq; lia).
    replace (2 ^ 52 + (m * 2 ^ (52 - n) - 2 ^ 52)) with (m * 2 ^ (52 - n)) by lia.
    rewrite (Z.max_r 1) by lia. rewrite D at 2. f_equal. unfold demoted_magnitude.
    replace (m * 2 ^ (52 - n) =? 0) with false by (symmetry; apply Z.eqb_neq; lia).
    rewrite (Z.log2_unique (m * 2 ^ (52 - n)) 52) by lia.
    assert (Low : Z.max (52 + (n + e + 1023 - 1023 - 52) - 23) (-149) = e).
    { destruct (Z.lt_ge_cases m (2 ^ 23)) as [B|B]; [rewrite (Sub B); assert (n <= 22); [|lia]|rewrite (Top B); lia].
      destruct (Z.le_gt_cases n 22); [done|]. exfalso. destruct (Z.log2_spec m ltac:(lia)) as [L _].
      fold n in L. assert (n = 23) as En by lia. rewrite En in L. lia. }
    rewrite Low. replace (e - (n + e + 1023 - 1023 - 52)) with (52 - n) by lia.
    rewrite round_shift_exact by lia. apply Z.min_r.
    assert (e = -149 \/ 2 ^ 23 <= m) by (destruct (Z.lt_ge_cases m (2 ^ 23)); [left; auto|right; lia]). lia.
  - destruct (single_fields b P) as (E & M & D).
    apply Z.ltb_ge in F. change (max_exponent single) with 255 in F.
    unfold is_nan in Nn. change (max_exponent single) with 255 in Nn.
    destruct (Z.eqb_spec (exponent single b) 255) as [X|]; [|lia].
    destruct (Z.eqb_spec (fraction single b) 0) as [Y|]; [|done].
    assert (from_f32 b = pack double (sign single b) (2047 * 2 ^ 52)) as ->.
    { unfold from_f32, is_nan, is_finite. change (max_exponent single) with 255. by rewrite X, Y. }
    rewrite D at 2. rewrite X, Y. by destruct (sign single b).
Qed.

End F64.
