(* ===== verification/TrustIr.v ===== *)
(** * The intermediate representation

    The types of the external crate [trust_ir] as the encoders of trust-mc-trust-bmc
    see them.  The constructors are those their matches name ([ty_to_sort],
    [const_to_expr] and [translate_node] are exhaustive); of their fields the ones that
    are read.  What they do not look into is a [Payload].  The methods they call are a
    type class, and [TrustIrLaws] is what correctness relies on. *)

From S2P Require Import Prelude.

(** [trust_ir::ty::Ty] *)
Module Ty.
Inductive Ty {P : Type} :=
  | Bool | I8 | I16 | I32 | I64 | I128 | U8 | U16 | U32 | U64 | U128 | Isize | Usize | Char | Error
  | F16 | F32 | F64 | Vector (elem : Ty) (lanes : N) | Ptr
  | FatPtr (p : P) | Ref (p : P) | RefMut (p : P) | PtrConst (p : P) | PtrMut (p : P) | Rc (p : P)
  | Unit | Never
  | Struct (p : P) | Array (p : P) | Tuple (p : P) | Enum (p : P) | Func (p : P) | Set_ (p : P)
  | Sequence (p : P) | Record_ (p : P) | Closure (p : P) | Refine (p : P).
Arguments Ty : clear implicits.
End Ty.

(** [trust_ir::constant::Constant]; a float is its bits *)
Module Constant.
Inductive Constant :=
  | Int (v : Z) | Bytes | U128 (v : Z) | Float (v : Z) | Bool (b : bool) | Vector (elems : list Constant)
  | Aggregate | Array | Sequence | Set_ | Record_ | Closure | FnDef | SymbolAddr | PhantomData.
End Constant.

(** The operators of [trust_ir::inst] *)
Module Op.
Inductive BinOp :=
  | Add | Sub | Mul | UDiv | SDiv | URem | SRem | FAdd | FSub | FMul | FDiv | FRem | FMin | FMax
  | And | Or | Xor | Shl | LShr | AShr | BAnd | BOr | BXor.
Inductive ICmpOp := Eq | Ne | Ult | Ule | Ugt | Uge | Slt | Sle | Sgt | Sge.
Inductive OverflowOp := AddOverflow | SubOverflow | MulOverflow.
Inductive AtomicRMWOp := Xchg | RAdd | RSub | RAnd | ROr | RXor | RMax | RMin | RUMax | RUMin.
End Op.

(** [ValueId], [BlockId] and [FuncId] are numbers. *)
Notation ValueId := N (only parsing).
Notation BlockId := N (only parsing).
Notation FuncId := N (only parsing).

Record SwitchCase := { case_value : Constant.Constant; case_target : BlockId; case_args : list ValueId }.

(** [trust_ir::inst::Inst] *)
Module Inst.
Import Op.
Inductive Inst {P : Type} :=
  | BinOp (op : Op.BinOp) (ty : Ty.Ty P) (lhs rhs : ValueId)
  | Const (ty : Ty.Ty P) (value : Constant.Constant)
  | ICmp (op : ICmpOp) (ty : Ty.Ty P) (lhs rhs : ValueId)
  | Load (ty : Ty.Ty P) (ptr : ValueId) (volatile : bool) (align : option N)
  | Store (ty : Ty.Ty P) (ptr value : ValueId) (volatile : bool) (align : option N)
  | Assert (cond : ValueId)
  | Assume (cond : ValueId)
  | Return (values : list ValueId)
  | Alloca (ty : Ty.Ty P) (count : option ValueId) (align : option N)
  | HeapAlloc (count : option ValueId)
  | GEP (pointee_ty : Ty.Ty P) (base : ValueId) (indices : list ValueId)
  | PtrData (ptr_ty : Ty.Ty P) (ptr : ValueId)
  | PtrMetadata (ptr_ty metadata_ty : Ty.Ty P) (ptr : ValueId)
  | PtrFromParts (metadata_ty : Ty.Ty P) (data metadata : ValueId)
  | Copy (ty : Ty.Ty P) (operand : ValueId)
  | Select (ty : Ty.Ty P) (cond then_val else_val : ValueId)
  | Cast (dst_ty : Ty.Ty P) (operand : ValueId)
  | NullPtr
  | GlobalAddr
  | Undef (ty : Ty.Ty P)
  | Call (callee : FuncId) (args : list ValueId)
  | Br (target : BlockId) (args : list ValueId)
  | CondBr (cond : ValueId) (then_target : BlockId) (then_args : list ValueId) (else_target : BlockId)
      (else_args : list ValueId)
  | Switch (value : ValueId) (default : BlockId) (default_args : list ValueId) (cases : list SwitchCase)
  | Unreachable
  | CallIndirect (callee : ValueId) (args : list ValueId)
  | Fence
  | UnOp (ty : Ty.Ty P) (operand : ValueId)
  | Overflow (op : OverflowOp) (ty : Ty.Ty P) (lhs rhs : ValueId)
  | ExtractField (ty : Ty.Ty P) (aggregate : ValueId)
  | ExtractElement (ty : Ty.Ty P) (array index : ValueId)
  | InsertField (ty : Ty.Ty P) (aggregate value : ValueId)
  | InsertElement (ty : Ty.Ty P) (array index value : ValueId)
  | AtomicLoad (ty : Ty.Ty P) (ptr : ValueId)
  | AtomicStore (ty : Ty.Ty P) (ptr value : ValueId)
  | AtomicRMW (op : AtomicRMWOp) (ty : Ty.Ty P) (ptr value : ValueId)
  | CmpXchg (ty : Ty.Ty P) (ptr expected desired : ValueId)
  | FCmp (ty : Ty.Ty P) (lhs rhs : ValueId)
  | Borrow (ptr : ValueId)
  | BorrowMut (ptr : ValueId)
  | EndBorrow (borrow_ptr : ValueId)
  | Retain (ptr : ValueId)
  | Release (ptr : ValueId)
  | IsUnique (ptr : ValueId)
  | Dealloc (ptr : ValueId)
  | OpenFrame
  | BindSlot (frame value : ValueId)
  | LoadSlot (ty : Ty.Ty P) (frame : ValueId)
  | CloseFrame (frame : ValueId)
  | CoroSuspend
  | Invoke (normal_dest unwind_dest : BlockId)
  | LandingPad
  | Resume
  | SeqMapAddK (ty : Ty.Ty P) (seq : ValueId)
  | SeqMapNot (ty : Ty.Ty P) (seq : ValueId)
  | SeqMap (ty : Ty.Ty P) (seq : ValueId)
  | DialectOp (op : P).
Arguments Inst : clear implicits.
End Inst.

(** [trust_ir::proof::ProofAnnotation]; the bounds are the bits of [f64]s *)
Inductive ProofAnnotation := BoundedOutput (lo hi : Z) | Pure | Terminates | OtherAnnotation.

(** The file of a span is the text it is shown as. *)
Record Span := { span_file : string; span_line : N }.

Section Program.
Variable P : Type.

(** [trust_ir::node::InstrNode] and the structure of a program *)
Record InstrNode := { inst : Inst.Inst P; results : list ValueId; span : option Span }.
Record Block := { block_id : BlockId; block_params : list (ValueId * Ty.Ty P); body : list InstrNode }.
Record Function_ := {
  func_id : FuncId; func_name : string; func_ty : nat; entry : BlockId; blocks : list Block;
  proofs : list ProofAnnotation }.
Record FuncTy := { ft_params : list (Ty.Ty P); ft_returns : list (Ty.Ty P) }.
Record Module_ := { module_name : string; functions : list Function_; func_types : list FuncTy }.

End Program.

Arguments inst {P}. Arguments results {P}. Arguments span {P}.
Arguments block_id {P}. Arguments block_params {P}. Arguments body {P}.
Arguments func_id {P}. Arguments func_name {P}. Arguments func_ty {P}. Arguments entry {P}.
Arguments blocks {P}. Arguments proofs {P}. Arguments ft_params {P}. Arguments ft_returns {P}.
Arguments module_name {P}. Arguments functions {P}. Arguments func_types {P}.

Module TrustIr.

(** The methods, and the texts of messages *)
Class TrustIr := {
  Payload : Type;
  is_integer : Ty.Ty Payload -> bool;
  is_signed : Ty.Ty Payload -> bool;
  is_float : Ty.Ty Payload -> bool;
  bit_width_with : Ty.Ty Payload -> N -> option N;
  is_terminator : Inst.Inst Payload -> bool;
  (** [Function::block], [Module::function_by_id] *)
  block : Function_ Payload -> BlockId -> option (Block Payload);
  function_by_id : Module_ Payload -> FuncId -> option (Function_ Payload);
  debug_ty : Ty.Ty Payload -> string;
  debug_binop : Op.BinOp -> string;
  debug_rmw : Op.AtomicRMWOp -> string;
  debug_func : FuncId -> string;
  show_f64 : Z -> string;
  show_ty : Ty.Ty Payload -> string;
  debug_inst : Inst.Inst Payload -> string;
  is_thread_local_addr : Payload -> bool;
}.

(** The width a name says, pointers having [p] bits *)
Definition integer_width {P} (ty : Ty.Ty P) (p : N) : option N :=
  match ty with
  | Ty.I8 | Ty.U8 => Some 8
  | Ty.I16 | Ty.U16 => Some 16
  | Ty.I32 | Ty.U32 => Some 32
  | Ty.I64 | Ty.U64 => Some 64
  | Ty.I128 | Ty.U128 => Some 128
  | Ty.Isize | Ty.Usize => Some p
  | _ => None
  end%N.

Class TrustIrLaws `{TrustIr} := {
  (** the integer types are those with a width in their name or of a pointer *)
  integer_type : forall ty p, is_integer ty = true -> is_Some (integer_width ty p);
  integer_bits : forall ty p w, integer_width ty p = Some w -> bit_width_with ty p = Some w;
  integer_not_float : forall ty, is_integer ty = true -> is_float ty = false;
  (** a block is found by its identifier *)
  block_found : forall f i b, block f i = Some b -> b ∈ blocks f /\ block_id b = i;
  block_missing : forall f i b, block f i = None -> b ∈ blocks f -> block_id b <> i;
}.

(** ** The shape of an instruction

    What it reads and where it leads, for the specifications of the analyses *)

Section Shape.
Context `{TrustIr}.

(** Instructions whose operands the representation does not show *)
Inductive opaque : Inst.Inst Payload -> Prop :=
  | opaque_suspend : opaque Inst.CoroSuspend
  | opaque_invoke n u : opaque (Inst.Invoke n u)
  | opaque_landing : opaque Inst.LandingPad
  | opaque_resume : opaque Inst.Resume
  | opaque_dialect op : is_thread_local_addr op = false -> opaque (Inst.DialectOp op).

(** The value is an operand of the instruction. *)
Definition reads (i : Inst.Inst Payload) (v : ValueId) : Prop :=
  match i with
  | Inst.BinOp _ _ lhs rhs => v = lhs \/ v = rhs
  | Inst.Const _ _ => False
  | Inst.ICmp _ _ lhs rhs => v = lhs \/ v = rhs
  | Inst.Load _ ptr _ _ => v = ptr
  | Inst.Store _ ptr value _ _ => v = ptr \/ v = value
  | Inst.Assert cond => v = cond
  | Inst.Assume cond => v = cond
  | Inst.Return values => v ∈ values
  | Inst.Alloca _ count _ => count = Some v
  | Inst.HeapAlloc count => count = Some v
  | Inst.GEP _ base indices => v = base \/ v ∈ indices
  | Inst.PtrData _ ptr => v = ptr
  | Inst.PtrMetadata _ _ ptr => v = ptr
  | Inst.PtrFromParts _ data metadata => v = data \/ v = metadata
  | Inst.Copy _ operand => v = operand
  | Inst.Select _ cond then_val else_val => v = cond \/ v = then_val \/ v = else_val
  | Inst.Cast _ operand => v = operand
  | Inst.NullPtr | Inst.GlobalAddr | Inst.Undef _ => False
  | Inst.Call _ args => v ∈ args
  | Inst.Br _ args => v ∈ args
  | Inst.CondBr cond _ then_args _ else_args => v = cond \/ v ∈ then_args \/ v ∈ else_args
  | Inst.Switch value _ default_args cases =>
      v = value \/ v ∈ default_args \/ exists case, case ∈ cases /\ v ∈ case_args case
  | Inst.Unreachable => False
  | Inst.CallIndirect callee args => v = callee \/ v ∈ args
  | Inst.Fence => False
  | Inst.UnOp _ operand => v = operand
  | Inst.Overflow _ _ lhs rhs => v = lhs \/ v = rhs
  | Inst.ExtractField _ aggregate => v = aggregate
  | Inst.ExtractElement _ array index => v = array \/ v = index
  | Inst.InsertField _ aggregate value => v = aggregate \/ v = value
  | Inst.InsertElement _ array index value => v = array \/ v = index \/ v = value
  | Inst.AtomicLoad _ ptr => v = ptr
  | Inst.AtomicStore _ ptr value => v = ptr \/ v = value
  | Inst.AtomicRMW _ _ ptr value => v = ptr \/ v = value
  | Inst.CmpXchg _ ptr expected desired => v = ptr \/ v = expected \/ v = desired
  | Inst.FCmp _ lhs rhs => v = lhs \/ v = rhs
  | Inst.Borrow ptr => v = ptr
  | Inst.BorrowMut ptr => v = ptr
  | Inst.EndBorrow borrow_ptr => v = borrow_ptr
  | Inst.Retain ptr => v = ptr
  | Inst.Release ptr => v = ptr
  | Inst.IsUnique ptr => v = ptr
  | Inst.Dealloc ptr => v = ptr
  | Inst.OpenFrame => False
  | Inst.BindSlot frame value => v = frame \/ v = value
  | Inst.LoadSlot _ frame => v = frame
  | Inst.CloseFrame frame => v = frame
  | Inst.CoroSuspend | Inst.Invoke _ _ | Inst.LandingPad | Inst.Resume => False
  | Inst.SeqMapAddK _ seq => v = seq
  | Inst.SeqMapNot _ seq => v = seq
  | Inst.SeqMap _ seq => v = seq
  | Inst.DialectOp _ => False
  end.

(** The instruction does not read the value, as far as can be seen. *)
Definition unread (i : Inst.Inst Payload) (v : ValueId) : Prop := ~ opaque i /\ ~ reads i v.

(** The blocks a terminator leads to *)
Inductive targets : Inst.Inst Payload -> list BlockId -> Prop :=
  | targets_br t args : targets (Inst.Br t args) [t]
  | targets_cond c t ts e es : targets (Inst.CondBr c t ts e es) [t; e]
  | targets_switch v d ds cases : targets (Inst.Switch v d ds cases) (d :: map case_target cases)
  | targets_invoke n u : targets (Inst.Invoke n u) [n; u]
  | targets_return vs : targets (Inst.Return vs) []
  | targets_suspend : targets Inst.CoroSuspend []
  | targets_resume : targets Inst.Resume []
  | targets_unreachable : targets Inst.Unreachable [].

(** The terminators but for those of exceptions and coroutines *)
Definition branches_to (i : Inst.Inst Payload) (ts : list BlockId) : Prop := targets i ts /\ ~ opaque i.

End Shape.

End TrustIr.
