(* ===== verification/AyEncode.v ===== *)
(** * Encoding with the solver bindings

    What the encoder of trust-mc-trust-bmc calls of the crate [ay_bindings] beyond
    [AyApi] and [AyTry]: sorts, the connectives of two operands, the bit-vector
    operators, the overflow predicates.  The builders are total here; those of the crate
    panic on operands of the wrong sorts, and nothing is claimed of such calls.  [AyEncodeEval] is the meaning its correctness
    relies on: each builder of well-sorted operands makes the term of SMT-LIB, an
    expression has a value of its sort, and a built expression mentions the variables of
    its operands only. *)

From S2P Require Import Prelude AyExpr BvArith AyBuild AyBuildSample AyTry F64 TrustIr.

Module AyEncode.
Import BvArith AyBuild AyTry.

Class AyEncode `{AyTry} := {
  sort_bool : Sort;
  sort_bitvec : N -> Sort;
  sort_array : Sort -> Sort -> Sort;
  (** [and], [or], [iff], [implies] *)
  mk_and : Expr -> Expr -> Expr;
  mk_or : Expr -> Expr -> Expr;
  mk_iff : Expr -> Expr -> Expr;
  mk_implies : Expr -> Expr -> Expr;
  (** [bvadd], [bvult], [concat], [bvadd_no_overflow_signed], ... *)
  mk_binary : binary -> Expr -> Expr -> Expr;
  try_and : Expr -> Expr -> option Expr;
  try_or : Expr -> Expr -> option Expr;
  try_ne : Expr -> Expr -> option Expr;
}.

(** An expression made by a builder, with its operands *)
Inductive made `{AyEncode} : Expr -> list Expr -> Prop :=
  | made_bool b : made (bool_const b) []
  | made_bits z w : made (bitvec_const z w) []
  | made_unary op a : made (mk_unary op a) [a]
  | made_eq a b : made (mk_eq a b) [a; b]
  | made_and a b : made (mk_and a b) [a; b]
  | made_or a b : made (mk_or a b) [a; b]
  | made_iff a b : made (mk_iff a b) [a; b]
  | made_implies a b : made (mk_implies a b) [a; b]
  | made_binary op a b : made (mk_binary op a b) [a; b]
  | made_ite c t f : made (ite c t f) [c; t; f]
  | made_select a i : made (mk_select a i) [a; i]
  | made_store a i x : made (mk_store a i x) [a; i; x]
  | made_and_many es : made (and_many es) es
  | made_or_many es : made (or_many es) es
  | made_try_and a b e : try_and a b = Some e -> made e [a; b]
  | made_try_or a b e : try_or a b = Some e -> made e [a; b]
  | made_try_ne a b e : try_ne a b = Some e -> made e [a; b].

Class AyEncodeEval `{AyEncode} `{!AySem} `{!AyEval} := {
  (** sorts *)
  sort_of_var : forall n s, var_sort n = s -> sort_of (expr_var n s) = s;
  bool_sort_only : forall s, is_bool_sort s = true <-> s = sort_bool;
  bitvec_sort_only : forall s w, bitvec_width s = Some w <-> s = sort_bitvec w /\ width_ok w;
  (** an expression has a value of its sort *)
  eval_sorted : forall r e, admissible r -> has_sort (eval r e) (sort_of e);
  bool_values : forall v, has_sort v sort_bool <-> exists b, v = vbool b;
  bits_values : forall v w, width_ok w -> has_sort v (sort_bitvec w) <-> exists x, in_range w x /\ v = bv w x;
  (** the builders *)
  made_occurs : forall e es n, made e es -> occurs n e -> exists c, c ∈ es /\ occurs n c;
  eval_mk_and : forall r a b x y, eval r a = vbool x -> eval r b = vbool y ->
    eval r (mk_and a b) = vbool (x && y);
  eval_mk_or : forall r a b x y, eval r a = vbool x -> eval r b = vbool y ->
    eval r (mk_or a b) = vbool (x || y);
  eval_mk_iff : forall r a b x y, eval r a = vbool x -> eval r b = vbool y ->
    eval r (mk_iff a b) = vbool (Bool.eqb x y);
  eval_mk_implies : forall r a b x y, eval r a = vbool x -> eval r b = vbool y ->
    eval r (mk_implies a b) = vbool (implb x y);
  eval_made_unary : forall r op a w x w' x', in_range w x -> eval r a = bv w x ->
    smt_unary op w x = Some (w', x') -> width_ok w' -> eval r (mk_unary op a) = bv w' x';
  eval_mk_binary : forall r op a b wa x wb y res, in_range wa x -> in_range wb y ->
    eval r a = bv wa x -> eval r b = bv wb y -> (op <> BvConcat -> wa = wb) ->
    smt_binary op wa x wb y = Some res ->
    eval r (mk_binary op a b) = match res with RBool t => vbool t | RBits w z => bv w z end;
  eval_mk_overflow : forall r op a b w x y t, admissible r -> width_ok w -> in_range w x -> in_range w y ->
    sort_of a = sort_bitvec w -> sort_of b = sort_bitvec w ->
    eval r a = bv w x -> eval r b = bv w y -> smt_overflow op w x y = Some t ->
    eval r (mk_binary op a b) = vbool t;
  mk_and_true : forall r a b, is_true (eval r (mk_and a b)) -> is_true (eval r a) /\ is_true (eval r b);
  eval_made_ite : forall r c t f b, eval r c = vbool b ->
    eval r (ite c t f) = if b then eval r t else eval r f;
  eval_try_and : forall r a b e, admissible r -> try_and a b = Some e ->
    exists x y, eval r a = vbool x /\ eval r b = vbool y /\ eval r e = vbool (x && y);
  eval_try_or : forall r a b e, admissible r -> try_or a b = Some e ->
    exists x y, eval r a = vbool x /\ eval r b = vbool y /\ eval r e = vbool (x || y);
  eval_try_ne : forall r a b e, try_ne a b = Some e ->
    exists t, eval r e = vbool t /\ (t = true <-> eval r a <> eval r b);
}.

Section Facts.
Context `{AyEncodeEval}.

Lemma bool_value r e : admissible r -> is_bool_sort (sort_of e) = true -> exists b, eval r e = vbool b.
Proof. intros A S%bool_sort_only. pose proof (eval_sorted r e A) as T. rewrite S in T. by apply bool_values. Qed.

Lemma bits_value r e w : admissible r -> bitvec_width (sort_of e) = Some w ->
  width_ok w /\ exists x, in_range w x /\ eval r e = bv w x.
Proof.
  intros A [S W]%bitvec_sort_only. pose proof (eval_sorted r e A) as T. rewrite S in T.
  split; [done|]. by apply bits_values.
Qed.

Lemma is_true_bool r e b : eval r e = vbool b -> is_true (eval r e) <-> b = true.
Proof. intros ->. apply is_true_vbool. Qed.

(** The two readings of a bit-vector differ by a multiple of the modulus. *)
Lemma number_range s w x : (0 < w)%N -> in_range w x -> fits s w (number s w x) = true.
Proof.
  intros W R. unfold fits, number. destruct s.
  - destruct (to_signed_bounds w x W R) as [B _]. apply andb_true_iff. rewrite Z.leb_le, Z.ltb_lt. done.
  - unfold in_range in R. apply andb_true_iff. rewrite Z.leb_le, Z.ltb_lt. done.
Qed.

Lemma number_mod s w x : (0 < w)%N -> in_range w x -> (number s w x mod card w = x)%Z.
Proof.
  intros W R. unfold number. destruct s; [by apply to_signed_bounds|by apply Z.mod_small].
Qed.

(** A number that fits is the one its bits stand for. *)
Lemma number_of_fitting s w z : (0 < w)%N -> fits s w z = true -> number s w (z mod card w)%Z = z.
Proof.
  intros W F. unfold fits, number in *. assert (C := card_double w W). pose proof (card_pos w) as P.
  destruct s; apply andb_true_iff in F as [L%Z.leb_le U%Z.ltb_lt]; [|by apply Z.mod_small].
  assert (R : in_range w (z mod card w)) by apply mod_in_range.
  unfold bitvec_to_signed. rewrite Z.shiftl_1_l, modulus_card.
  set (h := (2 ^ (Z.of_N w - 1))%Z) in *.
  destruct (Z.lt_ge_cases z 0).
  - assert (E : (z mod card w = z + card w)%Z).
    { rewrite <- (Z.mod_small (z + card w) (card w)) by lia. 
      by rewrite <- Zplus_mod_idemp_r, Z_mod_same_full, Z.add_0_r. }
    rewrite E. destruct (Z.leb_spec h (z + card w)); lia.
  - rewrite Z.mod_small by lia. destruct (Z.leb_spec h z); lia.
Qed.

End Facts.

End AyEncode.

(** * The sample language for the bounded encoder

    [AyEncode] and [AyEncodeEval] for the terms of [AyBuildSample], and an intermediate
    representation with the laws of [TrustIr]: the interfaces the encoder is proved
    against can be met.  The programs of the witnesses are written in it. *)

Module AyEncodeSample.
Import BvArith AyBuild AyBuildSample AyTry AyTrySample AyEncode TrustIr.

(** ** The builders *)

#[export] Instance term_encode : AyEncode := {|
  sort_bool := SBool : @Sort terms;
  sort_bitvec := fun w => SBv w;
  sort_array := fun i e => match i, e with SBv iw, SBv ew => SArr iw ew | _, _ => SErr end;
  mk_and := TAnd; mk_or := TOr; mk_iff := TEq;
  mk_implies := fun a b => TOr (TUn Not a) b;
  mk_binary := TBin;
  try_and := fun a b => well_sorted (TAnd a b);
  try_or := fun a b => well_sorted (TOr a b);
  try_ne := fun a b => well_sorted (TUn Not (TEq a b)) |}.

(** Every variable of a term is one of a part of it. *)
Lemma occurs_part (t : term) n : @occurs terms n t ->
  t = TVar n \/ exists c, c ∈ subexprs (view t) /\ @occurs terms n c.
Proof.
  intros O. inversion O as [e V|e c Hc Oc]; subst.
  - left. cbn in V. apply svalue_view in V as [V _]; [|done]. by destruct t; cbn in V; simplify_eq.
  - right. exists c. split; [|done]. unfold children in Hc. cbn in Hc. by rewrite subexprs_svalue in Hc.
Qed.

Lemma occurs_and n es : @occurs terms n (foldr TAnd (TBool true) es) -> exists c, c ∈ es /\ @occurs terms n c.
Proof.
  induction es as [|e es IH]; intros O; apply occurs_part in O as [O|(c & Hc & O)]; try done; [by apply elem_of_nil in Hc|].
  cbn in Hc. rewrite !elem_of_cons in Hc. destruct Hc as [->|[->|Hc]].
  - exists e. split; [apply list_elem_of_here|done].
  - destruct (IH O) as (c & Hc & Oc). exists c. split; [by apply list_elem_of_further|done].
  - by apply elem_of_nil in Hc.
Qed.

Lemma occurs_or n es : @occurs terms n (foldr TOr (TBool false) es) -> exists c, c ∈ es /\ @occurs terms n c.
Proof.
  induction es as [|e es IH]; intros O; apply occurs_part in O as [O|(c & Hc & O)]; try done; [by apply elem_of_nil in Hc|].
  cbn in Hc. rewrite !elem_of_cons in Hc. destruct Hc as [->|[->|Hc]].
  - exists e. split; [apply list_elem_of_here|done].
  - destruct (IH O) as (c & Hc & Oc). exists c. split; [by apply list_elem_of_further|done].
  - by apply elem_of_nil in Hc.
Qed.

(** The variables of a term of one or two layers *)
Ltac parts O :=
  let c := fresh "c" in let Hc := fresh "Hc" in
  apply occurs_part in O as [O|(c & Hc & O)]; [discriminate O|];
  cbn in Hc; rewrite ?elem_of_cons, ?elem_of_nil in Hc.

Lemma two_bools r (a b : term) : @admissible terms term_sem r ->
  match ssort_of a, ssort_of b with SBool, SBool => SBool | _, _ => SErr end <> SErr ->
  exists x y, seval r a = VBool x /\ seval r b = VBool y.
Proof.
  intros A [Sa Sb]%bool_sorts. destruct (typed_and a r A Sa) as [x Ea], (typed_and b r A Sb) as [y Eb]. by exists x, y.
Qed.

#[export, program] Instance term_encode_eval : AyEncodeEval := {| sort_of_var := _ |}.
Next Obligation. done. Qed.
Next Obligation. intros s. apply bool_decide_eq_true. Qed.
Next Obligation.
  intros s w. cbn. destruct s as [|v| |]; cbn; try (split; [done|by intros [? ?]]).
  destruct (width_okb v) eqn:W.
  - apply width_okb_iff in W. split; [by intros [= ->]|by intros [[= ->] _]].
  - split; [done|]. intros [[= ->] W']. apply width_okb_iff in W'. congruence.
Qed.
Next Obligation. intros r e A. by apply seval_typed. Qed.
Next Obligation. intros v. cbn. split; [by apply typed_bool|by intros [b ->]]. Qed.
Next Obligation.
  intros v w _. cbn. split; [intros T; apply typed_bv in T as (x & -> & R); by exists x|by intros (x & R & ->)].
Qed.
Next Obligation.
  intros e es n Md O. destruct Md; cbn in *;
    repeat match goal with H : well_sorted _ = Some _ |- _ => apply well_sorted_Some in H as [-> _] end;
    try (by apply occurs_and); try (by apply occurs_or); parts O; try done; try set_solver.
  - destruct Hc as [->|[->|[]]]; [|set_solver]. parts O. set_solver.
  - destruct Hc as [->|[]]. parts O. set_solver.
Qed.
Next Obligation. intros r a b x y Ea Eb. cbn in *. by rewrite Ea, Eb. Qed.
Next Obligation. intros r a b x y Ea Eb. cbn in *. by rewrite Ea, Eb. Qed.
Next Obligation. intros r a b x y Ea Eb. cbn in *. rewrite Ea, Eb. by destruct x, y. Qed.
Next Obligation. intros r a b x y Ea Eb. cbn in *. rewrite Ea, Eb. by destruct x, y. Qed.
Next Obligation. intros r op a w x w' x' R Ea S W. cbn in *. rewrite Ea. destruct op; cbn in *; try done; by rewrite ?S; simplify_eq. Qed.
Next Obligation.
  intros r op a b wa x wb y res Ra Rb Ea Eb _ S. cbn in *. rewrite Ea, Eb. apply bin_value; [by intros ->|done].
Qed.
Next Obligation.
  intros r op a b w x y t _ _ _ _ _ _ Ea Eb S. cbn in *. rewrite Ea, Eb. by destruct op; cbn in *; simplify_eq.
Qed.
Next Obligation.
  intros r a b. cbn. destruct (seval r a) as [x| | |]; try done. destruct (seval r b) as [y| | |]; try done.
  intros [= T%andb_true_iff]. by destruct T as [-> ->].
Qed.
Next Obligation. intros r c t f b E. cbn in *. by rewrite E. Qed.
Next Obligation.
  intros r a b e A [-> W]%well_sorted_Some. destruct (two_bools r a b A W) as (x & y & Ea & Eb).
  exists x, y. cbn. by rewrite Ea, Eb.
Qed.
Next Obligation.
  intros r a b e A [-> W]%well_sorted_Some. destruct (two_bools r a b A W) as (x & y & Ea & Eb).
  exists x, y. cbn. by rewrite Ea, Eb.
Qed.
Next Obligation.
  intros r a b e [-> W]%well_sorted_Some. eexists. split; [reflexivity|]. cbn. rewrite negb_true_iff.
  by rewrite bool_decide_eq_false.
Qed.

(** ** A representation *)

Definition integer_names {P} (ty : Ty.Ty P) : bool :=
  match ty with
  | Ty.I8 | Ty.I16 | Ty.I32 | Ty.I64 | Ty.I128 | Ty.Isize
  | Ty.U8 | Ty.U16 | Ty.U32 | Ty.U64 | Ty.U128 | Ty.Usize => true
  | _ => false
  end.

#[export] Instance sample_ir : TrustIr := {|
  Payload := unit;
  is_integer := integer_names;
  is_signed := fun ty => match ty with Ty.I8 | Ty.I16 | Ty.I32 | Ty.I64 | Ty.I128 | Ty.Isize => true | _ => false end;
  is_float := fun ty => match ty with Ty.F16 | Ty.F32 | Ty.F64 => true | _ => false end;
  bit_width_with := fun ty p => integer_width ty p;
  is_terminator := fun i =>
    match i with
    | Inst.Br _ _ | Inst.CondBr _ _ _ _ _ | Inst.Switch _ _ _ _ | Inst.Return _ | Inst.Unreachable | Inst.Invoke _ _
    | Inst.CoroSuspend | Inst.Resume => true
    | _ => false
    end;
  block := fun f i => List.find (fun b => (block_id b =? i)%N) (blocks f);
  function_by_id := fun m i => List.find (fun f => (func_id f =? i)%N) (functions m);
  debug_ty := fun _ => "ty"; debug_binop := fun _ => "op"; debug_rmw := fun _ => "rmw";
  debug_func := fun _ => "func"; show_f64 := fun _ => "f64";
  show_ty := fun _ => "ty"; debug_inst := fun _ => "Inst { .. }"; is_thread_local_addr := fun _ => false |}.

#[export] Instance sample_ir_laws : TrustIrLaws.
Proof.
  split.
  - intros ty p I. by destruct ty; try discriminate I; eexists.
  - done.
  - intros ty I. by destruct ty.
  - intros f i b E. cbn in E. apply find_some in E as [Hin E%N.eqb_eq]. by rewrite list_elem_of_In.
  - intros f i b E Hin. cbn in E. apply list_elem_of_In in Hin. by apply N.eqb_neq, (find_none _ _ E).
Qed.

#[export] Instance sample_casts : F64.NanCasts := {|
  F64.demoted_nan := fun _ => 2143289344; F64.promoted_nan := fun _ => 9221120237041090560 |}.

End AyEncodeSample.
