(* ===== verification/BmcExpr.v ===== *)
(** * The expressions of the encoder

    The functions of trust-mc-trust-bmc/src/translate.rs that build expressions and
    keep no state: sorts of types, constants, the conditions of overflow, shift and
    division checks, the bounds of a postcondition, guards.  [Ty::Error] makes
    [ty_to_sort] panic, which is [None]. *)

From S2P Require Import Prelude AyExpr BvArith AyBuild AyTry AyEncode TrustIr F64.

Module BmcExpr.
Import AyBuild AyTry AyEncode TrustIr.

(** [struct TranslateOptions]; the last two only concern the other lowering *)
Record TranslateOptions := {
  check_signed_overflow : bool;
  check_unsigned_overflow : bool;
  check_div_by_zero : bool;
  check_memory_bounds : bool;
  opt_logic : option string;
  opt_timeout_ms : option N;
  narrow_to_target_block : option BlockId;
  collect_call_summary_census : bool;
}.

(** [TranslateOptions::default] *)
Definition default_options : TranslateOptions :=
  {| check_signed_overflow := true; check_unsigned_overflow := true; check_div_by_zero := true;
     check_memory_bounds := true; opt_logic := Some "QF_BV"; opt_timeout_ms := None;
     narrow_to_target_block := None; collect_call_summary_census := false |}.

Definition HOST_POINTER_BITS : N := 64.

(** [op_name] *)
Definition op_name (op : Op.BinOp) : string :=
  match op with
  | Op.Add => "add" | Op.Sub => "sub" | Op.Mul => "mul" | Op.UDiv => "udiv" | Op.SDiv => "sdiv"
  | Op.URem => "urem" | Op.SRem => "srem" | Op.FAdd => "fadd" | Op.FSub => "fsub" | Op.FMul => "fmul"
  | Op.FDiv => "fdiv" | Op.FRem => "frem" | Op.FMin => "fmin" | Op.FMax => "fmax" | Op.And => "and"
  | Op.Or => "or" | Op.Xor => "xor" | Op.Shl => "shl" | Op.LShr => "lshr" | Op.AShr => "ashr"
  | Op.BAnd => "band" | Op.BOr => "bor" | Op.BXor => "bxor"
  end.

(** [overflow_op_to_binop] *)
Definition overflow_op_to_binop (op : Op.OverflowOp) : Op.BinOp :=
  match op with
  | Op.AddOverflow => Op.Add
  | Op.SubOverflow => Op.Sub
  | Op.MulOverflow => Op.Mul
  end.

(** The operators of floating-point arithmetic, as two [matches!] list them *)
Definition is_float_op (op : Op.BinOp) : bool :=
  match op with
  | Op.FAdd | Op.FSub | Op.FMul | Op.FDiv | Op.FRem | Op.FMin | Op.FMax => true
  | _ => false
  end.

(** [is_ordered_scalar_ty], [is_eq_comparable_ty] *)
Definition is_ordered_scalar_ty {P} (ty : Ty.Ty P) : bool :=
  match ty with
  | Ty.I8 | Ty.I16 | Ty.I32 | Ty.I64 | Ty.I128 | Ty.U8 | Ty.U16 | Ty.U32 | Ty.U64 | Ty.U128
  | Ty.Ptr | Ty.PtrConst _ | Ty.PtrMut _ | Ty.Ref _ | Ty.RefMut _ | Ty.Rc _ => true
  | _ => false
  end.
Definition is_eq_comparable_ty {P} (ty : Ty.Ty P) : bool :=
  match ty with Ty.Bool => true | _ => is_ordered_scalar_ty ty end.

(** [exact_f64_to_i128] *)
Definition exact_f64_to_i128 (v : Z) : option Z :=
  if F64.is_finite F64.double v then
    let int := F64.as_i128 v in
    if (F64.of_i128 int =? v)%Z then Some int else None
  else None.

Section Expressions.
Context `{AyEncode} `{TrustIr}.

Notation Ty := (Ty.Ty Payload).

(** [ty_to_sort] *)
Definition ty_to_sort (ty : Ty) : option Sort :=
  match ty with
  | Ty.Bool => Some sort_bool
  | Ty.I8 => Some (sort_bitvec 8)
  | Ty.I16 => Some (sort_bitvec 16)
  | Ty.I32 => Some (sort_bitvec 32)
  | Ty.I64 => Some (sort_bitvec 64)
  | Ty.I128 => Some (sort_bitvec 128)
  | Ty.Isize | Ty.Usize => Some (sort_bitvec 64)
  | Ty.Char => Some (sort_bitvec 32)
  | Ty.Error => None
  | Ty.F16 => Some (sort_bitvec 16)
  | Ty.F32 => Some (sort_bitvec 32)
  | Ty.F64 => Some (sort_bitvec 64)
  | Ty.Vector elem lanes =>
      Some (match bit_width_with elem HOST_POINTER_BITS with
            | Some elem_width =>
                let width := (elem_width * lanes)%N in
                if ((width <? 2 ^ 32) && (0 <? width))%N then sort_bitvec width else sort_bitvec 64
            | None => sort_bitvec 64
            end)
  | Ty.Ptr => Some (sort_bitvec 64)
  | Ty.U8 => Some (sort_bitvec 8)
  | Ty.U16 => Some (sort_bitvec 16)
  | Ty.U32 => Some (sort_bitvec 32)
  | Ty.U64 => Some (sort_bitvec 64)
  | Ty.U128 => Some (sort_bitvec 128)
  | Ty.FatPtr _ | Ty.Ref _ | Ty.RefMut _ | Ty.PtrConst _ | Ty.PtrMut _ | Ty.Rc _ => Some (sort_bitvec 64)
  | Ty.Unit | Ty.Never => Some sort_bool
  | Ty.Struct _ | Ty.Array _ | Ty.Tuple _ | Ty.Enum _ | Ty.Func _ | Ty.Set_ _ | Ty.Sequence _
  | Ty.Record_ _ | Ty.Closure _ | Ty.Refine _ => Some (sort_bitvec 64)
  end.

(** [normalize_expr_to_ty] *)
Definition normalize_expr_to_ty (e : Expr) (ty : Ty) : option Expr :=
  target_sort ← ty_to_sort ty;
  Some (match bitvec_width target_sort, bitvec_width (sort_of e) with
        | Some dst_width, Some src_width =>
            if (src_width =? dst_width)%N then e
            else if is_float ty then e
            else if (src_width <? dst_width)%N then
              if is_signed ty then mk_unary (BvSignExtend (dst_width - src_width)) e
              else mk_unary (BvZeroExtend (dst_width - src_width)) e
            else mk_unary (BvExtract (dst_width - 1) 0) e
        | _, _ => e
        end).

(** ** Guards *)

(** [expr_is_true], [and_guard], [implied_under_guard] *)
Definition expr_is_true (e : Expr) : bool := bool_decide (e = bool_const true).
Definition and_guard (guard condition : Expr) : Expr :=
  if expr_is_true guard then condition
  else if expr_is_true condition then guard
  else mk_and guard condition.
Definition implied_under_guard (guard e : Expr) : Expr :=
  if expr_is_true guard then e else mk_implies guard e.

(** ** Constants *)

(** [switch_case_expr] *)
Definition switch_case_expr (case : Constant.Constant) (selector : Expr) : option Expr :=
  if is_bool_sort (sort_of selector) then
    match case with Constant.Bool value => Some (bool_const value) | _ => None end
  else
    width ← bitvec_width (sort_of selector);
    match case with Constant.Int value => Some (bitvec_const value width) | _ => None end.

(** [float_const_bits] *)
Definition float_const_bits `{F64.NanCasts} (ty : Ty) (v : Z) : option Expr :=
  match ty with
  | Ty.F64 => Some (bitvec_const v 64)
  | Ty.F32 =>
      let demoted := F64.as_f32 v in
      if (F64.from_f32 demoted =? v)%Z then Some (bitvec_const demoted 32) else None
  | _ => None
  end.

(** [vector_lane_const_to_bv] *)
Definition vector_lane_const_to_bv `{F64.NanCasts} (ty : Ty) (value : Constant.Constant) (width : N) : option Expr :=
  match ty, value with
  | Ty.Bool, Constant.Bool value => Some (bitvec_const (Z.b2z value) width)
  | ty, Constant.Int value => if is_integer ty then Some (bitvec_const value width) else None
  | ty, Constant.Float value =>
      if is_float ty then
        lane ← float_const_bits ty value;
        if bool_decide (bitvec_width (sort_of lane) = Some width) then Some lane else None
      else None
  | _, _ => None
  end.

(** [vector_const_to_expr] *)
Definition vector_const_to_expr `{F64.NanCasts} (ty : Ty) (elems : list Constant.Constant) : option Expr :=
  match ty with
  | Ty.Vector elem_ty lanes =>
      if (lanes =? 0)%N || negb (length elems =? N.to_nat lanes)%nat then None
      else
        elem_width ← bit_width_with elem_ty HOST_POINTER_BITS;
        if (elem_width =? 0)%N then None
        else
          lane_exprs ← mapM (fun elem => vector_lane_const_to_bv elem_ty elem elem_width) elems;
          match rev lane_exprs with
          | [] => None
          | first :: rest => Some (foldl (mk_binary BvConcat) first rest)
          end
  | _ => None
  end.

(** [const_to_expr] *)
Definition const_to_expr `{F64.NanCasts} (ty : Ty) (value : Constant.Constant) : option Expr :=
  match value with
  | Constant.Int v => Some (bitvec_const v (default 64%N (bit_width_with ty HOST_POINTER_BITS)))
  | Constant.Bytes => None
  | Constant.U128 v =>
      if (default 64 (bit_width_with ty HOST_POINTER_BITS) =? 128)%N then
        Some (bitvec_const (if (v <? 2 ^ 127)%Z then v else (v - 2 ^ 128)%Z) 128)
      else None
  | Constant.Float v => float_const_bits ty v
  | Constant.Bool b => Some (bool_const b)
  | Constant.Vector elems => vector_const_to_expr ty elems
  | Constant.Aggregate | Constant.Array | Constant.Sequence | Constant.Set_ | Constant.Record_
  | Constant.Closure | Constant.FnDef | Constant.SymbolAddr | Constant.PhantomData =>
      Some (bitvec_const 0 64)
  end.

(** ** Checks *)

(** [integer_binop_no_overflow_condition]; the outer [option] is the panic *)
Definition integer_binop_no_overflow_condition (op : Op.BinOp) (ty : Ty) (lhs rhs : Expr)
    (options : TranslateOptions) : option (option Expr) :=
  if negb (is_integer ty) then Some None
  else
    let rhs_orig := rhs in
    lhs ← normalize_expr_to_ty lhs ty;
    rhs ← normalize_expr_to_ty rhs ty;
    Some
      (match op, is_signed ty with
       | Op.Add, true =>
           if check_signed_overflow options then Some (mk_binary BvAddNoOverflowSigned lhs rhs) else None
       | Op.Sub, true =>
           if check_signed_overflow options then Some (mk_binary BvSubNoOverflowSigned lhs rhs) else None
       | Op.Mul, true =>
           if check_signed_overflow options then Some (mk_binary BvMulNoOverflowSigned lhs rhs) else None
       | (Op.SDiv | Op.SRem), true =>
           if check_signed_overflow options then Some (mk_binary BvSdivNoOverflow lhs rhs) else None
       | Op.Add, false =>
           if check_unsigned_overflow options then Some (mk_binary BvAddNoOverflowUnsigned lhs rhs) else None
       | Op.Sub, false =>
           if check_unsigned_overflow options then Some (mk_binary BvSubNoUnderflowUnsigned lhs rhs) else None
       | Op.Mul, false =>
           if check_unsigned_overflow options then Some (mk_binary BvMulNoOverflowUnsigned lhs rhs) else None
       | (Op.Shl | Op.LShr | Op.AShr), _ =>
           if check_signed_overflow options || check_unsigned_overflow options then
             ty_width ← bit_width_with ty HOST_POINTER_BITS;
             amount_width ← bitvec_width (sort_of rhs_orig);
             Some (mk_binary BvULt rhs_orig (bitvec_const (Z.of_N ty_width) amount_width))
           else None
       | _, _ => None
       end).

(** [integer_binop_div_by_zero_condition] *)
Definition integer_binop_div_by_zero_condition (op : Op.BinOp) (ty : Ty) (rhs : Expr)
    (options : TranslateOptions) : option (option Expr) :=
  if negb (check_div_by_zero options) || negb (is_integer ty) ||
     negb (match op with Op.SDiv | Op.UDiv | Op.SRem | Op.URem => true | _ => false end) then Some None
  else
    match bit_width_with ty HOST_POINTER_BITS with
    | None => Some None
    | Some width => rhs ← normalize_expr_to_ty rhs ty; Some (Some (mk_eq rhs (bitvec_const 0 width)))
    end.

(** [int_fits_ty] *)
Definition int_fits_ty (v : Z) (ty : Ty) (width : N) : bool :=
  if is_signed ty then
    if (128 <=? width)%N then true
    else
      let min := (- Z.shiftl 1 (Z.of_N width - 1))%Z in
      let max := (Z.shiftl 1 (Z.of_N width - 1) - 1)%Z in
      ((min <=? v) && (v <=? max))%Z
  else if (v <? 0)%Z then false
  else if (128 <=? width)%N then true
  else (v <? Z.shiftl 1 (Z.of_N width))%Z.

(** [bounded_output_out_of_range] *)
Definition bounded_output_out_of_range (ret_ty : Ty) (ret_expr : Expr) (lo hi : Z) : option Expr :=
  if negb (is_integer ret_ty) then None
  else
    width ← bit_width_with ret_ty HOST_POINTER_BITS;
    lo_int ← exact_f64_to_i128 lo;
    hi_int ← exact_f64_to_i128 hi;
    if negb (int_fits_ty lo_int ret_ty width) || negb (int_fits_ty hi_int ret_ty width) then None
    else
      let lo_expr := bitvec_const lo_int width in
      let hi_expr := bitvec_const hi_int width in
      let '(too_low, too_high) :=
        if is_signed ret_ty then (mk_binary BvSLt ret_expr lo_expr, mk_binary BvSGt ret_expr hi_expr)
        else (mk_binary BvULt ret_expr lo_expr, mk_binary BvUGt ret_expr hi_expr) in
      Some (mk_or too_low too_high).

End Expressions.

End BmcExpr.
