(* ===== verification/BmcOrder.v ===== *)
(** * The order of the blocks

    [acyclic_topo_order] of trust-mc-trust-bmc/src/translate.rs: the blocks of a
    function in an order in which every edge goes forward, if the function has the
    structure the guarded encoding needs. *)

From S2P Require Import Prelude TrustIr.

Module BmcOrder.
Import TrustIr.

(** [slice.split_last()] *)
Fixpoint split_last {A} (l : list A) : option (A * list A) :=
  match l with
  | [] => None
  | x :: l' => match split_last l' with Some (y, front) => Some (y, x :: front) | None => Some (x, []) end
  end.

Section Order.
Context `{TrustIr} (func : Function_ Payload).

(** [seen_values.contains], on the scalar constants *)
Definition scalar_eqb (a b : Constant.Constant) : bool :=
  match a, b with
  | Constant.Int x, Constant.Int y => (x =? y)%Z
  | Constant.Bool x, Constant.Bool y => Bool.eqb x y
  | _, _ => false
  end.

(** The cases of a switch: each scalar, none twice *)
Fixpoint switch_targets (seen_values : list Constant.Constant) (cases : list SwitchCase) :
    option (list (BlockId * nat)) :=
  match cases with
  | [] => Some []
  | case :: cases =>
      match case_value case with
      | Constant.Int _ | Constant.Bool _ =>
          if existsb (scalar_eqb (case_value case)) seen_values then None
          else
            targets ← switch_targets (seen_values ++ [case_value case]) cases;
            Some ((case_target case, length (case_args case)) :: targets)
      | _ => None
      end
  end.

(** The targets of a terminator with the number of arguments, [None] for what is not
    a supported terminator *)
Definition terminator_targets (i : Inst.Inst Payload) : option (list (BlockId * nat)) :=
  match i with
  | Inst.Br target args => Some [(target, length args)]
  | Inst.CondBr _ then_target then_args else_target else_args =>
      Some [(then_target, length then_args); (else_target, length else_args)]
  | Inst.Switch _ default default_args cases =>
      targets ← switch_targets [] cases;
      Some ((default, length default_args) :: targets)
  | Inst.Return _ | Inst.Unreachable => Some []
  | _ => None
  end.

(** The index of a block by its identifier; [None] for a duplicate *)
Fixpoint index_blocks (idx : nat) (bs : list (Block Payload)) (index_of : gmap BlockId nat) :
    option (gmap BlockId nat) :=
  match bs with
  | [] => Some index_of
  | b :: bs =>
      match index_of !! block_id b with
      | Some _ => None
      | None => index_blocks (S idx) bs (<[block_id b := idx]> index_of)
      end
  end.

(** The successors of a block, as indices *)
Definition block_successors (index_of : gmap BlockId nat) (b : Block Payload) : option (list nat) :=
  match split_last (body b) with
  | None => None
  | Some (terminator, front) =>
      if existsb (fun node => is_terminator (inst node)) front then None
      else
        targets ← terminator_targets (inst terminator);
        mapM (fun '(target, arg_count) =>
          target_idx ← index_of !! target;
          target_block ← blocks func !! target_idx;
          if negb (length (block_params target_block) =? arg_count)%nat then None else Some target_idx) targets
  end.

(** One edge out of a removed block: the degree of its target, and the target when it
    has become ready *)
Definition release (st : list nat * list nat) (succ : nat) : list nat * list nat :=
  let '(in_degree, ready) := st in
  let d := (default 0 (in_degree !! succ) - 1)%nat in
  let in_degree := <[succ := d]> in_degree in
  if (d =? 0)%nat then (in_degree, succ :: ready) else (in_degree, ready).

(** Kahn's algorithm; the head of [ready] is the end of the vector *)
Fixpoint kahn (fuel : nat) (successors : list (list nat)) (in_degree ready order : list nat) : list nat :=
  match fuel, ready with
  | S fuel, idx :: ready =>
      let '(in_degree, ready) := foldl release (in_degree, ready) (default [] (successors !! idx)) in
      kahn fuel successors in_degree ready (order ++ [idx])
  | _, _ => order
  end.

Definition count_in (successors : list (list nat)) (i : nat) : nat :=
  length (filter (fun s => s = i) (concat successors)).

(** [acyclic_topo_order] *)
Definition acyclic_topo_order : option (list nat) :=
  let n := length (blocks func) in
  if (n =? 0)%nat then None
  else
    index_of ← index_blocks 0 (blocks func) ∅;
    _ ← index_of !! entry func;
    successors ← mapM (block_successors index_of) (blocks func);
    let in_degree := map (count_in successors) (seq 0 n) in
    let ready := rev (filter (fun i => in_degree !! i = Some 0%nat) (seq 0 n)) in
    let order := kahn n successors in_degree ready [] in
    if (length order =? n)%nat then Some order else None.

End Order.

End BmcOrder.

(** * The order of the blocks is topological

    [acyclic_topo_order] answers exactly for the functions with the required structure
    and without a cycle, and its answer is a permutation of the blocks in which every
    edge goes forward. *)

Module BmcOrderSpec.
Import TrustIr BmcOrder.

(** ** Counting the edges into a block *)

Definition occ (i : nat) (l : list nat) : nat := length (filter (fun s => s = i) l).

Lemma occ_cons i s l : occ i (s :: l) = (if decide (s = i) then 1 else 0) + occ i l.
Proof. unfold occ. rewrite filter_cons. by destruct (decide (s = i)). Qed.

Lemma occ_app i l l' : occ i (l ++ l') = occ i l + occ i l'.
Proof. unfold occ. by rewrite filter_app, length_app. Qed.

Lemma occ_in i l : i ∈ l <-> 0 < occ i l.
Proof.
  induction l as [|s l IH]; [cbn; split; [intros Hi; by apply elem_of_nil in Hi|lia]|].
  rewrite elem_of_cons, occ_cons, IH. destruct (decide (s = i)); split; intros; [lia|by left|destruct H; [done|lia]|right; lia].
Qed.

(** The effect of releasing the successors of a block *)
Lemma release_spec l : forall d ready d' ready',
  (forall i, i ∈ l -> is_Some (d !! i)) -> (forall i x, d !! i = Some x -> occ i l <= x) ->
  foldl release (d, ready) l = (d', ready') ->
  length d' = length d /\ (forall i x, d !! i = Some x -> d' !! i = Some (x - occ i l)) /\
  exists new, ready' = new ++ ready /\ NoDup new /\
    forall i, i ∈ new <-> 0 < occ i l /\ d !! i = Some (occ i l).
Proof.
  induction l as [|s l IH]; intros d ready d' ready' Hin Hle E.
  { injection E as <- <-. split_and!; [done| |].
    - intros i x Hi. rewrite Hi. f_equal. cbn. lia.
    - exists []. split_and!; [done|constructor|]. intros i. cbn. split; [intros Hi; by apply elem_of_nil in Hi|lia]. }
  destruct (Hin s ltac:(apply list_elem_of_here)) as [x Hx].
  pose proof (Hle s x Hx) as Lx. rewrite occ_cons, decide_True in Lx by done.
  cbn [foldl] in E. unfold release at 2 in E. rewrite Hx in E. change (default 0 (Some x)) with x in E.
  set (d1 := <[s := x - 1]> d) in *.
  assert (D1 : forall i y, d !! i = Some y -> d1 !! i = Some (y - (if decide (s = i) then 1 else 0))).
  { intros i y Hi. unfold d1. destruct (decide (s = i)) as [->|N].
    - rewrite Hx in Hi. injection Hi as <-. apply list_lookup_insert_eq. by eapply lookup_lt_Some.
    - rewrite list_lookup_insert_ne by done. rewrite Hi. f_equal. lia. }
  assert (Len : length d1 = length d) by apply length_insert.
  assert (Hd : forall i y, d1 !! i = Some y -> exists z, d !! i = Some z /\ y = z - (if decide (s = i) then 1 else 0)).
  { intros i y Hi. destruct (lookup_lt_is_Some_2 d i) as [z Hz].
    { rewrite <- Len. by eapply lookup_lt_Some. }
    exists z. split; [done|]. rewrite (D1 i z Hz) in Hi. congruence. }
  assert (Hin1 : forall i, i ∈ l -> is_Some (d1 !! i)).
  { intros i Hi. destruct (Hin i ltac:(by apply list_elem_of_further)) as [z Hz]. rewrite (D1 i z Hz). by eexists. }
  assert (Hle1 : forall i y, d1 !! i = Some y -> occ i l <= y).
  { intros i y Hi. destruct (Hd i y Hi) as (z & Hz & ->). pose proof (Hle i z Hz) as Hl. rewrite occ_cons in Hl. lia. }
  set (ready1 := if (x - 1 =? 0)%nat then s :: ready else ready).
  assert (E' : foldl release (d1, ready1) l = (d', ready')) by (unfold ready1; by destruct (x - 1 =? 0)%nat).
  destruct (IH d1 ready1 d' ready' Hin1 Hle1 E') as (L' & V' & new & R' & N' & M'). split_and!.
  - by rewrite L'.
  - intros i y Hi. rewrite (V' i _ (D1 i y Hi)), occ_cons. f_equal. lia.
  - assert (Ms : forall i, i <> s -> i ∈ new <-> 0 < occ i (s :: l) /\ d !! i = Some (occ i (s :: l))).
    { intros i Ni. rewrite M', occ_cons, decide_False by done. cbn. unfold d1.
      by rewrite list_lookup_insert_ne. }
    assert (Mx : s ∈ new <-> 0 < occ s l /\ x = S (occ s l)).
    { rewrite M', (D1 s x Hx), decide_True by done. split; [intros [P [= Q]]; split; lia|].
      intros [P ->]. split; [done|]. f_equal. lia. }
    unfold ready1 in R'. destruct (Nat.eqb_spec (x - 1) 0) as [Z|Z].
    + exists (new ++ [s]). split_and!.
      * by rewrite <- app_assoc.
      * apply NoDup_app. split_and!; [done| |apply NoDup_singleton].
        intros i Hi Hs. apply list_elem_of_singleton in Hs as ->. apply Mx in Hi. lia.
      * intros i. rewrite elem_of_app, list_elem_of_singleton. destruct (decide (i = s)) as [->|Ni].
        -- rewrite occ_cons, decide_True, Hx by done. split; [|by right]. intros _. split; [lia|]. f_equal. lia.
        -- rewrite (Ms i Ni). naive_solver.
    + exists new. split_and!; [done|done|]. intros i. destruct (decide (i = s)) as [->|Ni]; [|by apply Ms].
      rewrite Mx, occ_cons, decide_True, Hx by done. split; [intros [P ->]; split; [lia|done]|].
      intros [P [= ->]]. split; lia.
Qed.

(** ** Kahn's algorithm *)

Section Kahn.
Context (successors : list (list nat)).

Notation n := (length successors).
Definition succs (u : nat) : list nat := default [] (successors !! u).

(** The edges into [i] from blocks that are not done *)
Definition left_in (done : list nat) (i : nat) : nat :=
  sum_list_with (fun u => if decide (u ∈ done) then 0 else occ i (succs u)) (seq 0 n).

Lemma left_in_nil i : left_in [] i = count_in successors i.
Proof.
  unfold left_in, count_in. change (length (filter (fun s => s = i) (concat successors))) with (occ i (concat successors)).
  assert (G : forall k (l : list (list nat)), (forall j, l !! j = successors !! (k + j)) ->
    sum_list_with (fun u => if decide (u ∈ []) then 0 else occ i (succs u)) (seq k (length l)) = occ i (concat l)).
  { intros k l. revert k. induction l as [|x l IH]; intros k Hl; [done|]. cbn [length seq sum_list_with concat].
    rewrite occ_app, decide_False by (by intros Hk%elem_of_nil). rewrite (IH (S k)).
    - f_equal. unfold succs. specialize (Hl 0). rewrite Nat.add_0_r in Hl. by rewrite <- Hl.
    - intros j. change (l !! j) with ((x :: l) !! S j). rewrite Hl. f_equal. lia. }
  by apply (G 0 successors).
Qed.

Lemma left_in_done done idx i : idx < n -> idx ∉ done ->
  left_in done i = occ i (succs idx) + left_in (done ++ [idx]) i.
Proof.
  intros L N. unfold left_in.
  assert (G : forall l, NoDup l ->
    sum_list_with (fun u => if decide (u ∈ done) then 0 else occ i (succs u)) l =
    (if decide (idx ∈ l) then occ i (succs idx) else 0) +
    sum_list_with (fun u => if decide (u ∈ done ++ [idx]) then 0 else occ i (succs u)) l).
  { induction l as [|u l IH]; intros Nd; cbn [sum_list_with]; [done|].
    apply NoDup_cons in Nd as [Nu Nd]. rewrite (IH Nd). destruct (decide (u = idx)) as [->|Ne].
    - rewrite (decide_False (P := idx ∈ done)) by done.
      rewrite (decide_True (P := idx ∈ done ++ [idx])) by (apply elem_of_app; right; apply list_elem_of_here).
      rewrite (decide_False (P := idx ∈ l)) by done.
      rewrite (decide_True (P := idx ∈ idx :: l)) by apply list_elem_of_here. lia.
    - assert (Q : idx ∈ u :: l <-> idx ∈ l) by (rewrite elem_of_cons; naive_solver).
      assert (Q' : u ∈ done ++ [idx] <-> u ∈ done) by (rewrite elem_of_app, list_elem_of_singleton; naive_solver).
      rewrite (decide_ext _ _ _ _ Q), (decide_ext _ _ _ _ Q'). lia. }
  rewrite (G (seq 0 n) (NoDup_seq 0 n)). rewrite decide_True; [done|]. apply elem_of_seq. lia.
Qed.

Lemma left_in_zero done i : left_in done i = 0 <-> forall u, u < n -> i ∈ succs u -> u ∈ done.
Proof.
  unfold left_in. split.
  - intros Z u Lu Hi. destruct (decide (u ∈ done)) as [|N]; [done|]. exfalso.
    assert (Hu : u ∈ seq 0 n) by (apply elem_of_seq; lia). revert Z Hu. generalize (seq 0 n). intros l Z Hu.
    induction l as [|v l IH]; [by apply elem_of_nil in Hu|]. cbn in Z.
    apply elem_of_cons in Hu as [->|Hu]; [|apply IH; [lia|done]].
    rewrite decide_False in Z by done. apply occ_in in Hi. lia.
  - intros F. assert (G : forall l, (forall u, u ∈ l -> u < n) ->
      sum_list_with (fun u => if decide (u ∈ done) then 0 else occ i (succs u)) l = 0).
    { induction l as [|v l IH]; intros Hl; [done|]. cbn [sum_list_with].
      rewrite IH by (intros u Hu; by apply Hl, list_elem_of_further).
      destruct (decide (v ∈ done)) as [|N]; [done|]. destruct (occ i (succs v)) eqn:O; [done|].
      destruct N. apply F; [apply Hl, list_elem_of_here|]. apply occ_in. lia. }
    apply G. intros u Hu. apply elem_of_seq in Hu. lia.
Qed.

Record kahn_inv (in_degree ready order : list nat) : Prop := {
  ki_length : length in_degree = n;
  ki_nodup : NoDup (order ++ ready);
  ki_in : forall i, i ∈ order ++ ready <-> i < n /\ left_in order i = 0;
  ki_degree : forall i, i < n -> in_degree !! i = Some (left_in order i);
  ki_before : forall pre i post, order = pre ++ i :: post -> forall u, u < n -> i ∈ succs u -> u ∈ pre;
}.

Context (bounded : forall u s, s ∈ succs u -> s < n).

Lemma kahn_step d ready order idx d' ready' : kahn_inv d (idx :: ready) order ->
  foldl release (d, ready) (succs idx) = (d', ready') -> kahn_inv d' ready' (order ++ [idx]).
Proof.
  intros [Ln Nd In_ Dg Bf] E.
  destruct (proj1 (In_ idx)) as [Li Zi]; [apply elem_of_app; right; apply list_elem_of_here|].
  assert (Nid : idx ∉ order).
  { intros Hi. apply NoDup_app in Nd as (_ & D & _). apply (D idx Hi), list_elem_of_here. }
  pose proof (fun i => left_in_done order idx i Li Nid) as Ld.
  destruct (release_spec (succs idx) d ready d' ready') as (L' & V' & new & -> & Nn & Mn).
  - intros i Hi. rewrite Dg by (by eapply bounded). by eexists.
  - intros i x Hx. assert (Lt : i < n) by (rewrite <- Ln; by eapply lookup_lt_Some).
    rewrite (Dg i Lt) in Hx. injection Hx as <-. rewrite Ld. lia.
  - done.
  - assert (Mnew : forall i, i ∈ new <-> i < n /\ left_in order i <> 0 /\ left_in (order ++ [idx]) i = 0).
    { intros i. rewrite Mn. specialize (Ld i). split.
      - intros [O Hd]. assert (Lt : i < n) by (rewrite <- Ln; by eapply lookup_lt_Some).
        rewrite (Dg i Lt) in Hd. injection Hd as Hd. split_and!; lia.
      - intros (Lt & Nz & Z). split; [lia|]. rewrite (Dg i Lt). f_equal. lia. }
    split.
    + by rewrite L'.
    + rewrite <- app_assoc. apply NoDup_app in Nd as (No & D & Nr). apply NoDup_cons in Nr as [Nir Nr].
      assert (Old : forall i, i ∈ new -> i ∉ order /\ i <> idx /\ i ∉ ready).
      { intros i Hi. apply Mnew in Hi as (Lt & Nz & _).
        assert (Nin : i ∉ order ++ idx :: ready) by (intros Hin; apply In_ in Hin as [_ Z]; done).
        rewrite elem_of_app, elem_of_cons in Nin. naive_solver. }
      apply NoDup_app. split_and!; [done| |].
      * intros i Hi Hr. apply elem_of_app in Hr as [Hr|Hr]; [by apply list_elem_of_singleton in Hr as ->|].
        apply elem_of_app in Hr as [Hr|Hr]; [by apply Old in Hr as [? _]|]. by apply (D i Hi), list_elem_of_further.
      * apply NoDup_cons. rewrite elem_of_app. split.
        -- intros [Hi|Hi]; [by apply Old in Hi as (_ & ? & _)|done].
        -- apply NoDup_app. split_and!; [done| |done]. intros i Hi Hr. by apply Old in Hi as (_ & _ & ?).
    + intros i. specialize (In_ i). rewrite !elem_of_app, list_elem_of_singleton, Mnew. specialize (Ld i).
      rewrite elem_of_app, elem_of_cons in In_. split.
      * intros [[Hi| ->]|[(Lt & _ & Z)|Hr]]; [|split; [done|lia]|done|].
        -- destruct (proj1 In_ ltac:(by left)). split; [done|lia].
        -- destruct (proj1 In_ ltac:(by right; right)). split; [done|lia].
      * intros [Lt Z]. destruct (decide (left_in order i = 0)) as [Z0|Nz]; [|by right; left].
        destruct (proj2 In_ (conj Lt Z0)) as [Hi|[->|Hr]]; [by left; left|by left; right|by right; right].
    + intros i Lt. rewrite (V' i _ (Dg i Lt)). f_equal. specialize (Ld i). lia.
    + intros pre i post Ep u Lu Hi. destruct post as [|j post _] using rev_ind.
      * apply app_inj_tail in Ep as [<- <-]. by apply (proj1 (left_in_zero order idx) Zi).
      * rewrite app_comm_cons, app_assoc in Ep. apply app_inj_tail in Ep as [Ep _]. by apply (Bf pre i post).
Qed.

Lemma kahn_spec fuel : forall d ready order, kahn_inv d ready order -> n <= length order + fuel ->
  exists d', kahn_inv d' [] (kahn fuel successors d ready order).
Proof.
  induction fuel as [|fuel IH]; intros d ready order K L.
  - exists d. cbn. destruct ready as [|i ready]; [done|]. exfalso.
    assert (B : length (order ++ i :: ready) <= length (seq 0 n)).
    { apply NoDup_incl_length; [by apply NoDup_ListNoDup, K|]. intros j Hj. apply list_elem_of_In in Hj.
      apply (ki_in _ _ _ K) in Hj as [Lt _]. apply in_seq. lia. }
    rewrite length_seq, length_app in B. cbn in B. lia.
  - cbn [kahn]. destruct ready as [|idx ready]; [by exists d|].
    change (default [] (successors !! idx)) with (succs idx).
    destruct (foldl release (d, ready) (succs idx)) as [d' ready'] eqn:E.
    apply (IH d'); [by eapply kahn_step|]. rewrite length_app. cbn. lia.
Qed.

(** Where the algorithm starts *)
Lemma kahn_start :
  let in_degree := map (count_in successors) (seq 0 n) in
  kahn_inv in_degree (rev (filter (fun i => in_degree !! i = Some 0) (seq 0 n))) [].
Proof.
  intros in_degree.
  assert (Dg : forall i, i < n -> in_degree !! i = Some (left_in [] i)).
  { intros i Lt. unfold in_degree. rewrite list_lookup_fmap, lookup_seq_lt by done. cbn. by rewrite left_in_nil. }
  split.
  - unfold in_degree. by rewrite length_map, length_seq.
  - cbn. apply NoDup_ListNoDup, NoDup_rev, NoDup_ListNoDup, NoDup_filter, NoDup_seq.
  - intros i. cbn. rewrite list_elem_of_In, <- in_rev, <- list_elem_of_In, list_elem_of_filter, elem_of_seq. split.
    + intros [Z [_ Lt]]. split; [lia|]. rewrite Dg in Z by lia. by injection Z.
    + intros [Lt Z]. split; [|lia]. rewrite Dg by done. by rewrite Z.
  - done.
  - intros pre i post E. by destruct pre.
Qed.

(** The order: what has been removed when nothing is ready *)
Definition order_of : list nat :=
  let in_degree := map (count_in successors) (seq 0 n) in
  kahn n successors in_degree (rev (filter (fun i => in_degree !! i = Some 0) (seq 0 n))) [].

Lemma order_inv : exists d, kahn_inv d [] order_of.
Proof. by apply (kahn_spec n _ _ [] kahn_start). Qed.

Lemma order_forward pre i post : order_of = pre ++ i :: post -> length order_of = n ->
  forall s, s ∈ succs i -> s ∈ post.
Proof.
  intros E L s Hs. destruct order_inv as [d K].
  assert (Full : forall j, j < n -> j ∈ order_of).
  { intros j Lt. apply list_elem_of_In.
    apply (NoDup_length_incl (l := order_of) (l' := seq 0 n)).
    - apply NoDup_ListNoDup. pose proof (ki_nodup _ _ _ K) as N. by rewrite app_nil_r in N.
    - rewrite length_seq. lia.
    - intros k Hk. apply list_elem_of_In in Hk. apply in_seq. 
      destruct (proj1 (ki_in _ _ _ K k)); [apply elem_of_app; by left|lia].
    - apply in_seq. lia. }
  assert (Li : i < n).
  { destruct (proj1 (ki_in _ _ _ K i)); [|done]. apply elem_of_app. left. rewrite E. apply elem_of_app. right.
    apply list_elem_of_here. }
  pose proof (Full s ltac:(by eapply bounded)) as Hin. apply list_elem_of_split in Hin as (p2 & q2 & E2).
  pose proof (ki_before _ _ _ K p2 s q2 E2 i Li Hs) as Hi2.
  pose proof (ki_nodup _ _ _ K) as N. rewrite app_nil_r in N.
  (* [i] is before [s], and occurs once *)
  apply list_elem_of_split in Hi2 as (p1 & q1 & ->). rewrite E2 in E.
  assert (p1 = pre) as ->.
  { rewrite E2 in N. clear - E N. revert pre E. induction p1 as [|x p1 IH]; intros [|y pre] E; [done| | |].
    - injection E as <- E. cbn in N. apply NoDup_cons in N as [N _]. destruct N.
      rewrite E. apply elem_of_app. right. apply list_elem_of_here.
    - injection E as -> E. cbn in N. apply NoDup_cons in N as [N _]. destruct N.
      rewrite !elem_of_app. left. right. apply list_elem_of_here.
    - injection E as -> E. f_equal. apply IH; [|done]. cbn in N. by apply NoDup_cons in N as [_ N]. }
  rewrite <- app_assoc in E. apply app_inv_head in E. cbn in E. injection E as <-.
  apply elem_of_app. right. apply list_elem_of_here.
Qed.

(** With a numbering that grows along the edges nothing is left. *)
Lemma order_complete (rank : nat -> nat) : (forall u s, u < n -> s ∈ succs u -> rank u < rank s) ->
  length order_of = n.
Proof.
  intros Up. destruct order_inv as [d K].
  pose proof (ki_nodup _ _ _ K) as N. rewrite app_nil_r in N.
  assert (Full : forall r j, rank j < r -> j < n -> j ∈ order_of).
  { induction r as [|r IH]; intros j Lr Lt; [lia|].
    assert (Hin : j ∈ order_of ++ []); [|by rewrite app_nil_r in Hin].
    apply (ki_in _ _ _ K). split; [done|]. apply left_in_zero. intros u Lu Hj.
    apply IH; [|done]. pose proof (Up u j Lu Hj). lia. }
  apply Nat.le_antisymm.
  - transitivity (length (seq 0 n)); [|by rewrite length_seq]. apply NoDup_incl_length; [by apply NoDup_ListNoDup|].
    intros k Hk. apply list_elem_of_In in Hk. apply in_seq.
    destruct (proj1 (ki_in _ _ _ K k)); [apply elem_of_app; by left|lia].
  - transitivity (length (seq 0 n)); [by rewrite length_seq|]. apply NoDup_incl_length; [apply seq_NoDup|].
    intros k Hk. apply in_seq in Hk. apply list_elem_of_In. by apply (Full (S (rank k))); lia.
Qed.

Lemma order_permutation : length order_of = n -> order_of ≡ₚ seq 0 n.
Proof.
  intros L. destruct order_inv as [d K]. pose proof (ki_nodup _ _ _ K) as N. rewrite app_nil_r in N.
  apply NoDup_Permutation_bis; [by apply NoDup_ListNoDup|by rewrite length_seq, L|].
  intros k Hk. apply list_elem_of_In in Hk. apply in_seq.
  destruct (proj1 (ki_in _ _ _ K k)); [apply elem_of_app; by left|lia].
Qed.

End Kahn.

(** ** The structure of a function *)

Lemma split_last_spec {A} (l : list A) x front : split_last l = Some (x, front) <-> l = front ++ [x].
Proof.
  revert x front. induction l as [|y l IH]; intros x front; cbn.
  - split; [done|]. by destruct front.
  - destruct (split_last l) as [[z f]|] eqn:E.
    + pose proof (proj1 (IH z f) eq_refl) as ->. split.
      * by intros [= -> <-].
      * intros Eq. rewrite app_comm_cons in Eq. apply app_inj_tail in Eq as [<- <-]. done.
    + assert (l = []) as ->.
      { destruct l as [|z l]; [done|]. cbn in E. by destruct (split_last l) as [[? ?]|]. }
      split; [by intros [= -> <-]|]. destruct front as [|w front]; [by intros [= ->]|]. by destruct front.
Qed.

Lemma split_last_app {A} (front : list A) x : split_last (front ++ [x]) = Some (x, front).
Proof. by apply split_last_spec. Qed.

Section Structure.
Context `{TrustIr} (func : Function_ Payload).

(** The blocks a terminator can go to *)
Definition branch_targets (i : Inst.Inst Payload) : list BlockId :=
  match i with
  | Inst.Br target _ => [target]
  | Inst.CondBr _ then_target _ else_target _ => [then_target; else_target]
  | Inst.Switch _ dflt _ cases => map case_target cases ++ [dflt]
  | _ => []
  end.

(** What [acyclic_topo_order] asks of a block *)
Record block_ok (b : Block Payload) (term : InstrNode Payload) (targets : list (BlockId * nat)) : Prop := {
  bo_body : exists front, body b = front ++ [term] /\ forall node, node ∈ front -> is_terminator (inst node) = false;
  bo_targets : terminator_targets (inst term) = Some targets;
  bo_arity : forall t k, (t, k) ∈ targets ->
    exists c, c ∈ blocks func /\ block_id c = t /\ length (block_params c) = k;
}.

Record structured : Prop := {
  st_unique : NoDup (map block_id (blocks func));
  st_entry : entry func ∈ map block_id (blocks func);
  st_blocks : forall b, b ∈ blocks func -> exists term targets, block_ok b term targets;
}.

(** Control goes from one block to another. *)
Definition flows (b c : Block Payload) : Prop :=
  exists term front, split_last (body b) = Some (term, front) /\ block_id c ∈ branch_targets (inst term).

Lemma switch_targets_spec cases : forall seen ts, switch_targets seen cases = Some ts -> 
  map fst ts = map case_target cases.
Proof.
  induction cases as [|case cases IH]; intros seen ts E; [by injection E as <-|]. cbn in E.
  destruct (case_value case); try done; (destruct (existsb _ _); [done|]);
    apply bind_Some in E as (us & U & [= <-]); cbn; f_equal; by eapply IH.
Qed.

Lemma terminator_branch i ts : terminator_targets i = Some ts -> forall t, t ∈ map fst ts <-> t ∈ branch_targets i.
Proof.
  destruct i; cbn; try done; try (by intros [= <-]).
  intros (us & U & [= <-])%bind_Some t. cbn. rewrite (switch_targets_spec _ _ _ U), elem_of_cons, elem_of_app.
  rewrite list_elem_of_singleton. naive_solver.
Qed.

(** The index finds the blocks by their identifiers. *)
Definition indexes (m : gmap BlockId nat) : Prop :=
  forall t j, m !! t = Some j <-> exists b, blocks func !! j = Some b /\ block_id b = t.

Lemma index_blocks_spec bs : forall idx m m', index_blocks idx bs m = Some m' ->
  NoDup (map block_id bs) /\ (forall b, b ∈ bs -> m !! block_id b = None) /\
  forall t j, m' !! t = Some j <-> m !! t = Some j \/ exists k b, bs !! k = Some b /\ j = idx + k /\ block_id b = t.
Proof.
  induction bs as [|b bs IH]; intros idx m m' E; cbn in E.
  { injection E as <-. split_and!; [constructor| |].
    - intros b Hb. by apply elem_of_nil in Hb.
    - intros t j. split; [by left|]. by intros [|(k & b & Hk & _)]. }
  destruct (m !! block_id b) eqn:Hm; [done|]. destruct (IH _ _ _ E) as (Nd & Fr & L).
  assert (Nb : block_id b ∉ map block_id bs).
  { intros Hin. apply list_elem_of_fmap in Hin as (c & Ec & Hc). specialize (Fr c Hc).
    rewrite <- Ec, lookup_insert_eq in Fr. done. }
  split_and!.
  - cbn. by apply NoDup_cons.
  - intros c [->|Hc]%elem_of_cons; [done|]. specialize (Fr c Hc). by apply lookup_insert_None in Fr as [? _].
  - intros t j. rewrite L. split.
    + intros [Hi|(k & c & Hk & -> & Et)].
      * apply lookup_insert_Some in Hi as [[<- <-]|[_ Hi]]; [|by left]. right. exists 0, b. split_and!; [done|lia|done].
      * right. exists (S k), c. split_and!; [done|lia|done].
    + intros [Hi|([|k] & c & Hk & -> & Et)].
      * left. apply lookup_insert_Some. right. split; [|done]. intros <-. congruence.
      * injection Hk as <-. left. rewrite <- Et. rewrite lookup_insert_eq. f_equal. lia.
      * right. exists k, c. split_and!; [done|lia|done].
Qed.

Lemma index_blocks_total bs : forall idx m, NoDup (map block_id bs) -> (forall b, b ∈ bs -> m !! block_id b = None) ->
  is_Some (index_blocks idx bs m).
Proof.
  induction bs as [|b bs IH]; intros idx m Nd Fr; cbn; [by eexists|].
  rewrite Fr by apply list_elem_of_here. cbn in Nd. apply NoDup_cons in Nd as [Nb Nd]. apply IH; [done|].
  intros c Hc. rewrite lookup_insert_ne; [by apply Fr, list_elem_of_further|].
  intros E. apply Nb. rewrite E. by apply list_elem_of_fmap_2.
Qed.

Lemma index_spec m : index_blocks 0 (blocks func) ∅ = Some m -> NoDup (map block_id (blocks func)) /\ indexes m.
Proof.
  intros E. destruct (index_blocks_spec _ _ _ _ E) as (Nd & _ & L). split; [done|]. intros t j. rewrite L. split.
  - intros [Hi|(k & b & Hk & -> & Et)]; [by rewrite lookup_empty in Hi|]. by exists b.
  - intros (b & Hb & Et). right. by exists j, b.
Qed.

Lemma existsb_terminator front : existsb (fun node : InstrNode Payload => is_terminator (inst node)) front = false <->
  forall node, node ∈ front -> is_terminator (inst node) = false.
Proof.
  split.
  - intros E node Hn. destruct (is_terminator (inst node)) eqn:T; [|done].
    assert (existsb (fun node : InstrNode Payload => is_terminator (inst node)) front = true); [|congruence].
    apply existsb_exists. exists node. split; [by apply list_elem_of_In|done].
  - intros F. apply not_true_iff_false. rewrite existsb_exists. intros (node & Hn & T).
    rewrite F in T; [done|]. by apply list_elem_of_In.
Qed.

Lemma block_successors_spec m b : indexes m -> NoDup (map block_id (blocks func)) ->
  (forall ss, block_successors func m b = Some ss -> exists term ts, block_ok b term ts /\
    forall s, s ∈ ss <-> exists c, blocks func !! s = Some c /\ block_id c ∈ map fst ts) /\
  (forall term ts, block_ok b term ts -> is_Some (block_successors func m b)).
Proof.
  intros Ix Nd. unfold block_successors. split.
  - intros ss E. destruct (split_last (body b)) as [[term front]|] eqn:L; [|done].
    destruct (existsb _ front) eqn:X; [done|]. apply bind_Some in E as (ts & T & E).
    apply mapM_Some in E. exists term, ts.
    assert (F : Forall2 (fun '(t, k) s => exists c, blocks func !! s = Some c /\ block_id c = t /\
      length (block_params c) = k) ts ss).
    { eapply Forall2_impl; [exact E|]. intros [t k] s. intros (j & J & E')%bind_Some.
      apply bind_Some in E' as (c & C & E'). destruct (Nat.eqb_spec (length (block_params c)) k); [|done].
      injection E' as <-. apply Ix in J as (c' & C' & Et). exists c. rewrite C in C'. injection C' as <-. done. }
    split.
    + split; [|done|].
      * exists front. split; [by apply split_last_spec|by apply existsb_terminator].
      * intros t k Hin. apply list_elem_of_lookup in Hin as [i Hi].
        destruct (Forall2_lookup_l _ _ _ _ _ F Hi) as (s & Hs & c & C & Et & Ek). exists c.
        split; [by eapply list_elem_of_lookup_2|done].
    + intros s. split.
      * intros Hs. apply list_elem_of_lookup in Hs as [i Hi].
        destruct (Forall2_lookup_r _ _ _ _ _ F Hi) as ([t k] & Ht & c & C & Et & _). exists c. split; [done|].
        rewrite Et. apply list_elem_of_fmap. exists (t, k). split; [done|by eapply list_elem_of_lookup_2].
      * intros (c & C & Hin). apply list_elem_of_fmap in Hin as ([t k] & Et & Hin).
        apply list_elem_of_lookup in Hin as [i Hi].
        destruct (Forall2_lookup_l _ _ _ _ _ F Hi) as (s' & Hs & c' & C' & Et' & _). cbn in Et.
        assert (s = s') as ->; [|by eapply list_elem_of_lookup_2].
        eapply (NoDup_lookup (map block_id (blocks func))); [exact Nd| |].
        -- rewrite list_lookup_fmap, C. cbn. by rewrite Et.
        -- rewrite list_lookup_fmap, C'. cbn. by rewrite Et'.
  - intros term ts [(front & L & X) T A]. apply split_last_spec in L. rewrite L.
    apply existsb_terminator in X. rewrite X, T.
    match goal with |- is_Some (_ ≫= ?f) => change (is_Some (f ts)) end. cbv beta.
    apply mapM_is_Some, Forall_forall. intros [t k] Hin.
    destruct (A t k Hin) as (c & Hc & Et & Ek). apply list_elem_of_lookup in Hc as [j Hj].
    exists j. apply bind_Some. exists j. split; [by apply Ix; exists c|]. apply bind_Some. exists c.
    split; [done|]. by rewrite Ek, Nat.eqb_refl.
Qed.

(** ** The answer *)

Lemma bounded_successors m successors : mapM (block_successors func m) (blocks func) = Some successors ->
  indexes m -> NoDup (map block_id (blocks func)) ->
  length successors = length (blocks func) /\
  forall i b, blocks func !! i = Some b -> exists term ts, block_ok b term ts /\
    forall s, s ∈ succs successors i <-> exists c, blocks func !! s = Some c /\ flows b c.
Proof.
  intros E Ix Nd. apply mapM_Some in E. split; [by symmetry; eapply Forall2_length|].
  intros i b Hb. destruct (Forall2_lookup_l _ _ _ _ _ E Hb) as (ss & Hs & Eb).
  destruct (block_successors_spec m b Ix Nd) as [Sp _]. destruct (Sp ss Eb) as (term & ts & Ok & Ms).
  exists term, ts. split; [done|]. intros s. unfold succs. rewrite Hs. cbn. rewrite Ms.
  destruct Ok as [(front & Eq & _) T _]. apply split_last_spec in Eq.
  split; intros (c & C & Hc); exists c; (split; [done|]).
  - exists term, front. split; [done|]. by apply (terminator_branch _ ts T).
  - destruct Hc as (term' & front' & Eq' & Ht). rewrite Eq in Eq'. injection Eq' as <- <-.
    by apply (terminator_branch _ ts T).
Qed.

(** In the order of an answer every edge goes forward. *)
Definition edges_forward (order : list nat) : Prop :=
  forall pre i post b j c, order = pre ++ i :: post -> blocks func !! i = Some b ->
    blocks func !! j = Some c -> flows b c -> j ∈ post.

Lemma topo_order_sound order : acyclic_topo_order func = Some order ->
  structured /\ order ≡ₚ seq 0 (length (blocks func)) /\ edges_forward order.
Proof.
  unfold acyclic_topo_order. destruct (Nat.eqb_spec (length (blocks func)) 0) as [|Nz]; [done|].
  intros (m & Em & E)%bind_Some. apply bind_Some in E as (k & En & E). apply bind_Some in E as (ss & Es & E).
  destruct (index_spec m Em) as [Nd Ix]. destruct (bounded_successors m ss Es Ix Nd) as [L B].
  rewrite <- L in E. fold (order_of ss) in E.
  destruct (Nat.eqb_spec (length (order_of ss)) (length ss)) as [Lo|]; [|done]. injection E as <-.
  assert (Bd : forall u s, s ∈ succs ss u -> s < length ss).
  { intros u s Hs. destruct (blocks func !! u) as [b|] eqn:Hb.
    - destruct (B u b Hb) as (t0 & ts0 & _ & Ms). apply Ms in Hs; destruct Hs as (c & C & _). rewrite L. by eapply lookup_lt_Some.
    - unfold succs in Hs. rewrite (proj2 (lookup_ge_None ss u)) in Hs; [by apply elem_of_nil in Hs|].
      rewrite L. by apply lookup_ge_None. }
  split_and!.
  - split; [done| |].
    + apply Ix in En as (b & Hb & <-). apply list_elem_of_fmap_2. by eapply list_elem_of_lookup_2.
    + intros b [i Hi]%list_elem_of_lookup. destruct (B i b Hi) as (term & ts & Ok & _). by exists term, ts.
  - rewrite <- L. by apply order_permutation.
  - intros pre i post b j c Eq Hb Hj Fl. eapply order_forward; try done.
    destruct (B i b Hb) as (t0 & ts0 & _ & Ms). apply Ms. by exists c.
Qed.

Lemma topo_order_complete (rank : BlockId -> nat) : structured ->
  (forall b c, b ∈ blocks func -> c ∈ blocks func -> flows b c -> rank (block_id b) < rank (block_id c)) ->
  is_Some (acyclic_topo_order func).
Proof.
  intros [Nd En Bl] Up. unfold acyclic_topo_order.
  assert (Nz : length (blocks func) <> 0).
  { destruct (blocks func); [by apply elem_of_nil in En|done]. }
  destruct (Nat.eqb_spec (length (blocks func)) 0) as [|_]; [done|].
  destruct (index_blocks_total (blocks func) 0 ∅ Nd) as [m Em]; [intros; apply lookup_empty|].
  rewrite Em. destruct (index_spec m Em) as [_ Ix].
  assert (exists k, m !! entry func = Some k) as [k Ek].
  { apply list_elem_of_fmap in En as (b & Eb & [i Hi]%list_elem_of_lookup). exists i. apply Ix. by exists b. }
  assert (is_Some (mapM (block_successors func m) (blocks func))) as [ss Es].
  { apply mapM_is_Some, Forall_forall. intros b Hb. destruct (Bl b Hb) as (term & ts & Ok).
    by apply (block_successors_spec m b Ix Nd) in Ok. }
  destruct (bounded_successors m ss Es Ix Nd) as [L B].
  assert (Lo : length (order_of ss) = length ss).
  { set (rk := fun i => default 0 (rank ∘ block_id <$> blocks func !! i)).
    assert (Bs : forall u s, s ∈ succs ss u -> exists b c, blocks func !! u = Some b /\ blocks func !! s = Some c /\ flows b c).
    { intros u s Hs. destruct (blocks func !! u) as [b|] eqn:Hb.
      - destruct (B u b Hb) as (t0 & ts0 & _ & Ms). apply Ms in Hs; destruct Hs as (c & C & Fl). by exists b, c.
      - unfold succs in Hs. rewrite (proj2 (lookup_ge_None ss u)) in Hs; [by apply elem_of_nil in Hs|].
        rewrite L. by apply lookup_ge_None. }
    apply order_complete with rk.
    - intros u s Hs. destruct (Bs u s Hs) as (b & c & _ & C & _). rewrite L. by eapply lookup_lt_Some.
    - intros u s _ Hs. destruct (Bs u s Hs) as (b & c & Hb & C & Fl). unfold rk. rewrite Hb, C. cbn.
      apply Up; [by eapply list_elem_of_lookup_2..|done]. }
  change (is_Some (m !! entry func ≫= fun _ => mapM (block_successors func m) (blocks func) ≫= fun successors =>
    let order := kahn (length (blocks func)) successors (map (count_in successors) (seq 0 (length (blocks func))))
      (rev (filter (fun i => map (count_in successors) (seq 0 (length (blocks func))) !! i = Some 0)
        (seq 0 (length (blocks func))))) [] in
    if (length order =? length (blocks func))%nat then Some order else None)).
  rewrite Ek, Es. cbn. rewrite <- L. fold (order_of ss). rewrite Lo, Nat.eqb_refl. by eexists.
Qed.

(** C16: the guarded encoding is used exactly for the functions with the structure it
    needs and without a cycle: every block ends in its only terminator, a supported one
    whose targets exist and take as many arguments as they get, the entry exists, and
    the edges admit a numbering along which they grow.  The order is then a permutation
    of the blocks in which every edge goes forward. *)
Theorem acyclic_topo_order_exact :
  ((exists order, acyclic_topo_order func = Some order) <->
    structured /\ exists rank : BlockId -> nat, forall b c, b ∈ blocks func -> c ∈ blocks func -> flows b c ->
      rank (block_id b) < rank (block_id c)) /\
  forall order, acyclic_topo_order func = Some order ->
    order ≡ₚ seq 0 (length (blocks func)) /\ edges_forward order.
Proof.
  split; [split|].
  - intros (order & E). destruct (topo_order_sound order E) as (St & Pm & Fw). split; [done|].
    exists (fun i => default 0 (fst <$> list_find (fun k => (block_id <$> blocks func !! k) = Some i) order)).
    intros b c Hb Hc Fl. apply list_elem_of_lookup in Hb as [i Hi]. apply list_elem_of_lookup in Hc as [j Hj].
    assert (Nd : NoDup order) by (rewrite Pm; apply NoDup_seq).
    assert (Pos : forall k d, blocks func !! k = Some d -> exists p, order !! p = Some k /\
      list_find (fun q => (block_id <$> blocks func !! q) = Some (block_id d)) order = Some (p, k)).
    { intros k d Hk. assert (Hin : k ∈ order).
      { rewrite Pm. apply elem_of_seq. split; [lia|]. by eapply lookup_lt_Some. }
      apply list_elem_of_lookup in Hin as [p Hp]. exists p. split; [done|]. apply list_find_Some.
      split_and!; [done|by rewrite Hk|]. intros p' k' Hp' Lt Eq.
      destruct (blocks func !! k') as [d'|] eqn:Hk'; [|done]. injection Eq as Eq.
      assert (k' = k) as ->.
      { eapply (NoDup_lookup (map block_id (blocks func))); [apply St| |].
        - by rewrite list_lookup_fmap, Hk'.
        - rewrite list_lookup_fmap, Hk. cbn. by rewrite Eq. }
      pose proof (NoDup_lookup _ _ _ _ Nd Hp Hp'). lia. }
    destruct (Pos i b Hi) as (p & Hp & ->), (Pos j c Hj) as (q & Hq & ->). cbn.
    apply list_elem_of_split_length in Hp as (pre & post & Eo & Lp).
    pose proof (Fw pre i post b j c Eo Hi Hj Fl) as Hin. apply list_elem_of_lookup in Hin as [k Hk].
    assert (Hq' : order !! (length pre + S k) = Some j).
    { rewrite Eo, lookup_app_r by lia. replace (length pre + S k - length pre) with (S k) by lia. exact Hk. }
    rewrite (NoDup_lookup _ _ _ _ Nd Hq Hq'). lia.
  - intros (St & rank & Up). by eapply topo_order_complete.
  - intros order E. by destruct (topo_order_sound order E) as (_ & ? & ?).
Qed.

End Structure.

End BmcOrderSpec.
