(* ===== verification/BmcTranslate.v ===== *)
(** * The bounded encoder

    [FuncTranslator] of trust-mc-trust-bmc/src/translate.rs: a function of the
    intermediate representation becomes a [BmcVc].  The translation is a state monad
    over the fields of the translator, with [None] for the panics of the encoder itself
    ([unreachable!], [expect]).  The two counters are [N], taken not to overflow. *)

From S2P Require Import Prelude AyExpr AyBuild AyTry AyEncode Artifact Chc Bmc TrustIr F64 BmcExpr BmcOrder.

Module BmcTranslate.
Import AyBuild AyTry AyEncode TrustIr BmcExpr BmcOrder.

(** ** The state *)

Section State.
Context `{AyEncode}.

(** [struct MemoryRegion], [struct IncomingEdge] *)
Record MemoryRegion := { array : Expr; element_sort : Sort; count : option N; base_ptr : Expr }.
Record IncomingEdge := { e_guard : Expr; e_args : list Expr }.

(** The fields of [struct FuncTranslator] that change *)
Record FuncTranslator := {
  values : gmap ValueId Expr;
  t_decls : list Chc.Decl;
  t_constraints : list Expr;
  t_violations : list Bmc.Violation;
  next_property_id : N;
  next_sym_id : N;
  memory_regions : gmap ValueId MemoryRegion;
  gep_results : gmap ValueId (ValueId * Expr);
  ptr_parts : gmap ValueId (Expr * Expr);
  current_guard : Expr;
}.

(** [FuncTranslator::new] *)
Definition FuncTranslator_new : FuncTranslator :=
  {| values := ∅; t_decls := []; t_constraints := []; t_violations := []; next_property_id := 0;
     next_sym_id := 0; memory_regions := ∅; gep_results := ∅; ptr_parts := ∅;
     current_guard := bool_const true |}.

(** A step of the translation: a result and the next state, or a panic *)
Definition M (A : Type) : Type := FuncTranslator -> option (A * FuncTranslator).

#[export] Instance M_ret : MRet M := fun A a s => Some (a, s).
#[export] Instance M_bind : MBind M := fun A B f m s => '(a, s') ← m s; f a s'.

Definition gets {A} (f : FuncTranslator -> A) : M A := fun s => Some (f s, s).
Definition lift {A} (o : option A) : M A := fun s => a ← o; Some (a, s).
Definition modify (f : FuncTranslator -> FuncTranslator) : M unit := fun s => Some (tt, f s).

(** The assignments to the fields *)
Definition bind_value (v : ValueId) (e : Expr) (s : FuncTranslator) : FuncTranslator :=
  {| values := <[v := e]> (values s); t_decls := t_decls s; t_constraints := t_constraints s;
     t_violations := t_violations s; next_property_id := next_property_id s; next_sym_id := next_sym_id s;
     memory_regions := memory_regions s; gep_results := gep_results s; ptr_parts := ptr_parts s;
     current_guard := current_guard s |}.
Definition declare (name : string) (sort : Sort) (s : FuncTranslator) : FuncTranslator :=
  {| values := values s; t_decls := t_decls s ++ [Chc.DConst name sort]; t_constraints := t_constraints s;
     t_violations := t_violations s; next_property_id := next_property_id s;
     next_sym_id := (next_sym_id s + 1)%N;
     memory_regions := memory_regions s; gep_results := gep_results s; ptr_parts := ptr_parts s;
     current_guard := current_guard s |}.
Definition constrain (c : Expr) (s : FuncTranslator) : FuncTranslator :=
  {| values := values s; t_decls := t_decls s; t_constraints := t_constraints s ++ [c];
     t_violations := t_violations s; next_property_id := next_property_id s; next_sym_id := next_sym_id s;
     memory_regions := memory_regions s; gep_results := gep_results s; ptr_parts := ptr_parts s;
     current_guard := current_guard s |}.
Definition push_violation (v : Bmc.Violation) (s : FuncTranslator) : FuncTranslator :=
  {| values := values s; t_decls := t_decls s; t_constraints := t_constraints s;
     t_violations := t_violations s ++ [v]; next_property_id := (next_property_id s + 1)%N;
     next_sym_id := next_sym_id s;
     memory_regions := memory_regions s; gep_results := gep_results s; ptr_parts := ptr_parts s;
     current_guard := current_guard s |}.
Definition set_region (p : ValueId) (r : MemoryRegion) (s : FuncTranslator) : FuncTranslator :=
  {| values := values s; t_decls := t_decls s; t_constraints := t_constraints s;
     t_violations := t_violations s; next_property_id := next_property_id s; next_sym_id := next_sym_id s;
     memory_regions := <[p := r]> (memory_regions s); gep_results := gep_results s;
     ptr_parts := ptr_parts s; current_guard := current_guard s |}.
Definition set_gep (p : ValueId) (base : ValueId) (offset : Expr) (s : FuncTranslator) : FuncTranslator :=
  {| values := values s; t_decls := t_decls s; t_constraints := t_constraints s;
     t_violations := t_violations s; next_property_id := next_property_id s; next_sym_id := next_sym_id s;
     memory_regions := memory_regions s; gep_results := <[p := (base, offset)]> (gep_results s);
     ptr_parts := ptr_parts s; current_guard := current_guard s |}.
Definition set_parts (p : ValueId) (parts : Expr * Expr) (s : FuncTranslator) : FuncTranslator :=
  {| values := values s; t_decls := t_decls s; t_constraints := t_constraints s;
     t_violations := t_violations s; next_property_id := next_property_id s; next_sym_id := next_sym_id s;
     memory_regions := memory_regions s; gep_results := gep_results s;
     ptr_parts := <[p := parts]> (ptr_parts s); current_guard := current_guard s |}.
Definition set_guard (g : Expr) (s : FuncTranslator) : FuncTranslator :=
  {| values := values s; t_decls := t_decls s; t_constraints := t_constraints s;
     t_violations := t_violations s; next_property_id := next_property_id s; next_sym_id := next_sym_id s;
     memory_regions := memory_regions s; gep_results := gep_results s; ptr_parts := ptr_parts s;
     current_guard := g |}.

End State.

(** ** The operations *)

Section Translator.
Context `{AyEncode} `{TrustIr} `{F64.NanCasts}.
Context (func : Function_ Payload) (module : Module_ Payload) (options : TranslateOptions).

Notation Ty := (Ty.Ty Payload).
Notation Node := (InstrNode Payload).

(** [fresh_symbolic] *)
Definition fresh_symbolic (prefix : string) (ty : Ty) : M Expr :=
  sort ← lift (ty_to_sort ty);
  id ← gets next_sym_id;
  let name := prefix +:+ "_" +:+ pretty id in
  modify (declare name sort);;
  mret (expr_var name sort).

(** [bind] *)
Definition bind (v : ValueId) (e : Expr) : M unit := modify (bind_value v e).

(** [resolve] *)
Definition resolve (v : ValueId) (ty : Ty) : M Expr :=
  known ← gets (fun s => values s !! v);
  match known with
  | Some e => mret e
  | None =>
      e ← fresh_symbolic ("v" +:+ pretty v) ty;
      bind v e;;
      mret e
  end.

(** The first result of the node, if any, is bound. *)
Definition bind_result (node : Node) (e : Expr) : M unit :=
  match results node with result_id :: _ => bind result_id e | [] => mret tt end.

(** [add_violation] *)
Definition add_violation (kind : Artifact.PropertyKind) (cond : Expr) (msg : string) (node : Node) : M unit :=
  id ← gets next_property_id;
  guard ← gets current_guard;
  let prop_id := {| Artifact.pid := id; Artifact.pid_description := Some msg |} in
  let violation := Bmc.with_message msg (Bmc.Violation_new prop_id kind (and_guard guard cond)) in
  modify (push_violation
    match span node with
    | Some sp =>
        Bmc.with_location
          {| Artifact.sl_file := module_name module +:+ ":" +:+ span_file sp; Artifact.sl_line := span_line sp;
             Artifact.sl_column := None; Artifact.sl_function := None |} violation
    | None => violation
    end).

(** [add_unsupported_semantics] *)
Definition add_unsupported_semantics (reason : string) (node : Node) : M unit :=
  add_violation Artifact.KOther (bool_const true)
    ("unsupported trust_ir semantics in " +:+ func_name func +:+ ": " +:+ reason) node.

(** [add_guarded_unsupported_violation] *)
Definition add_guarded_unsupported_violation (reason : string) (guard : Expr) : M unit :=
  let msg := "unsupported trust_ir semantics in " +:+ func_name func +:+ ": " +:+ reason in
  id ← gets next_property_id;
  let prop_id := {| Artifact.pid := id; Artifact.pid_description := Some msg |} in
  modify (push_violation (Bmc.with_message msg (Bmc.Violation_new prop_id Artifact.KOther guard))).

(** A result without semantics: a fresh value, and a check that always fails *)
Definition havoc_result (prefix : string) (ty : Ty) (reason : string) (node : Node) : M unit :=
  result ← fresh_symbolic prefix ty;
  bind_result node result;;
  add_unsupported_semantics reason node.

(** ** Memory *)

(** [guard_array_update] *)
Definition guard_array_update (guard updated original : Expr) : Expr :=
  if expr_is_true guard then updated else ite guard updated original.

(** [resolve_memory_region] *)
Definition resolve_memory_region (s : FuncTranslator) (ptr : ValueId) : option (MemoryRegion * Expr) :=
  match memory_regions s !! ptr with
  | Some region => Some (region, bitvec_const 0 64)
  | None =>
      '(base_id, offset) ← gep_results s !! ptr;
      match memory_regions s !! base_id with
      | Some region => Some (region, offset)
      | None =>
          '(base_base_id, base_offset) ← gep_results s !! base_id;
          region ← memory_regions s !! base_base_id;
          Some (region, mk_binary BvAdd base_offset offset)
      end
  end.

(** [find_region_key_for_ptr] *)
Definition find_region_key_for_ptr (s : FuncTranslator) (ptr : ValueId) : option ValueId :=
  match memory_regions s !! ptr with
  | Some _ => Some ptr
  | None =>
      '(base_id, _) ← gep_results s !! ptr;
      match memory_regions s !! base_id with
      | Some _ => Some base_id
      | None =>
          '(base_base_id, _) ← gep_results s !! base_id;
          _ ← memory_regions s !! base_base_id;
          Some base_base_id
      end
  end.

(** A new array for a region that must exist *)
Definition update_region (key : ValueId) (f : Expr -> Expr) : M unit :=
  found ← gets (fun s => memory_regions s !! key);
  region ← lift found;
  guard ← gets current_guard;
  let new_array := guard_array_update guard (f (array region)) (array region) in
  modify (set_region key
    {| array := new_array; element_sort := element_sort region; count := count region;
       base_ptr := base_ptr region |}).

(** The check of an offset against the number of elements *)
Definition check_bounds (what : string) (offset : Expr) (count : option N) (node : Node) : M unit :=
  if check_memory_bounds options then
    match count with
    | Some n =>
        add_violation Artifact.OutOfBounds (mk_binary BvUGe offset (bitvec_const (Z.of_N n) 64))
          (what +:+ " out of bounds in " +:+ func_name func) node
    | None => mret tt
    end
  else mret tt.

(** The check of an access to an unknown region *)
Definition check_unknown (what : string) (node : Node) : M unit :=
  if check_memory_bounds options then
    bounds_ok ← fresh_symbolic "bounds_ok" Ty.Bool;
    add_violation Artifact.OutOfBounds (mk_unary Not bounds_ok)
      (what +:+ " out of bounds in " +:+ func_name func) node
  else mret tt.

(** [translate_alloca] *)
Definition translate_alloca (ty : Ty) (cnt : option ValueId) (node : Node) : M unit :=
  match results node with
  | [] => mret tt
  | result_id :: _ =>
      ptr_expr ← fresh_symbolic "alloca_ptr" Ty.Ptr;
      bind result_id ptr_expr;;
      element_sort ← lift (ty_to_sort ty);
      let array_sort := sort_array (sort_bitvec 64) element_sort in
      id ← gets next_sym_id;
      let array_name := "mem_" +:+ pretty id in
      modify (declare array_name array_sort);;
      elem_count ←
        match cnt with
        | Some count_val =>
            resolve count_val Ty.I64;;
            add_unsupported_semantics "dynamic alloca count" node;;
            mret None
        | None => mret (Some 1%N)
        end;
      modify (set_region result_id
        {| array := expr_var array_name array_sort; element_sort := element_sort; count := elem_count;
           base_ptr := ptr_expr |})
  end.

(** The sum of the indices, each times a factor where there is one *)
Fixpoint sum_indices (scale : Expr -> Expr) (indices : list ValueId) (total : Expr) : M Expr :=
  match indices with
  | [] => mret total
  | idx_val :: indices =>
      idx_expr ← resolve idx_val Ty.I64;
      sum_indices scale indices (mk_binary BvAdd total (scale idx_expr))
  end.

(** [translate_gep] *)
Definition translate_gep (pointee_ty : Ty) (base : ValueId) (indices : list ValueId) (node : Node) : M unit :=
  base_expr ← resolve base Ty.Ptr;
  match results node with
  | [] => mret tt
  | result_id :: _ =>
      let elem_size := (default 8 (bit_width_with pointee_ty HOST_POINTER_BITS) / 8)%N in
      let elem_size_expr := bitvec_const (Z.of_N (N.max elem_size 1)) 64 in
      total_offset ← sum_indices (fun i => mk_binary BvMul i elem_size_expr) indices (bitvec_const 0 64);
      bind result_id (mk_binary BvAdd base_expr total_offset);;
      (if bool_decide (indices = []) then mret tt
       else
         elem_offset ← sum_indices id indices (bitvec_const 0 64);
         modify (set_gep result_id base elem_offset));;
      if check_memory_bounds options then
        found ← gets (fun s => resolve_memory_region s base);
        match found with
        | Some (region, base_offset) =>
            match count region with
            | Some n =>
                final_offset ←
                  (if bool_decide (indices = []) then mret base_offset
                   else
                     elem_offset ← sum_indices id indices (bitvec_const 0 64);
                     mret (mk_binary BvAdd base_offset elem_offset));
                add_violation Artifact.OutOfBounds (mk_binary BvUGe final_offset (bitvec_const (Z.of_N n) 64))
                  ("GEP out of bounds in " +:+ func_name func) node
            | None => mret tt
            end
        | None => mret tt
        end
      else mret tt
  end.

(** [translate_load] *)
Definition translate_load (ty : Ty) (ptr : ValueId) (node : Node) : M unit :=
  resolve ptr Ty.Ptr;;
  region_info ← gets (fun s => resolve_memory_region s ptr);
  match region_info with
  | Some (region, offset) =>
      check_bounds "memory load" offset (count region) node;;
      bind_result node (mk_select (array region) offset)
  | None =>
      check_unknown "memory load" node;;
      result ← fresh_symbolic "load_result" ty;
      bind_result node result
  end.

(** [translate_store] *)
Definition translate_store (ty : Ty) (ptr value : ValueId) (node : Node) : M unit :=
  resolve ptr Ty.Ptr;;
  val_expr ← resolve value ty;
  region_key ← gets (fun s => find_region_key_for_ptr s ptr);
  match region_key with
  | Some key =>
      found ← gets (fun s => resolve_memory_region s ptr);
      let offset := match found with Some (_, off) => off | None => bitvec_const 0 64 end in
      cnt ← gets (fun s => region ← memory_regions s !! key; count region);
      check_bounds "memory store" offset cnt node;;
      update_region key (fun a => mk_store a offset val_expr)
  | None => check_unknown "memory store" node
  end.

(** ** Expressions *)

(** [try_and(..).unwrap_or_else(..)] *)
Definition or_fresh (e : option Expr) (ty : Ty) : M Expr :=
  match e with Some e => mret e | None => fresh_symbolic "binop_result" ty end.

(** [eval_binop] *)
Definition eval_binop (op : Op.BinOp) (ty : Ty) (lhs rhs : Expr) : M Expr :=
  lhs ← lift (normalize_expr_to_ty lhs ty);
  rhs ← lift (normalize_expr_to_ty rhs ty);
  if is_integer ty then
    match op with
    | Op.Add => mret (mk_binary BvAdd lhs rhs)
    | Op.Sub => mret (mk_binary BvSub lhs rhs)
    | Op.Mul => mret (mk_binary BvMul lhs rhs)
    | Op.UDiv => mret (mk_binary BvUDiv lhs rhs)
    | Op.SDiv => mret (mk_binary BvSDiv lhs rhs)
    | Op.URem => mret (mk_binary BvURem lhs rhs)
    | Op.SRem => mret (mk_binary BvSRem lhs rhs)
    | Op.And => mret (mk_binary BvAnd lhs rhs)
    | Op.Or => mret (mk_binary BvOr lhs rhs)
    | Op.Xor => mret (mk_binary BvXor lhs rhs)
    | Op.Shl => mret (mk_binary BvShl lhs rhs)
    | Op.LShr => mret (mk_binary BvLShr lhs rhs)
    | Op.AShr => mret (mk_binary BvAShr lhs rhs)
    | Op.FAdd | Op.FSub | Op.FMul | Op.FDiv | Op.FRem | Op.FMin | Op.FMax => fresh_symbolic "float_on_int" ty
    | Op.BAnd | Op.BOr | Op.BXor => fresh_symbolic "bool_connective_on_int" ty
    end
  else
    match ty with
    | Ty.Bool =>
        match op with
        | Op.And | Op.BAnd => or_fresh (try_and lhs rhs) ty
        | Op.Or | Op.BOr => or_fresh (try_or lhs rhs) ty
        | Op.Xor | Op.BXor => or_fresh (try_ne lhs rhs) ty
        | _ => fresh_symbolic "binop_result" ty
        end
    | _ => fresh_symbolic "binop_result" ty
    end.

(** [eval_icmp] *)
Definition eval_icmp (op : Op.ICmpOp) (ty : Ty) (lhs rhs : Expr) : M (option Expr) :=
  if is_float ty then mret None
  else
    lhs ← lift (normalize_expr_to_ty lhs ty);
    rhs ← lift (normalize_expr_to_ty rhs ty);
    if negb (bool_decide (sort_of lhs = sort_of rhs)) then
      result ← fresh_symbolic "icmp_sort_mismatch" Ty.Bool;
      mret (Some result)
    else
      mret
        match op with
        | Op.Eq => if is_eq_comparable_ty ty then Some (mk_eq lhs rhs) else None
        | Op.Ne => if is_eq_comparable_ty ty then Some (mk_unary Not (mk_eq lhs rhs)) else None
        | Op.Ult => if is_ordered_scalar_ty ty then Some (mk_binary BvULt lhs rhs) else None
        | Op.Ule => if is_ordered_scalar_ty ty then Some (mk_binary BvULe lhs rhs) else None
        | Op.Ugt => if is_ordered_scalar_ty ty then Some (mk_binary BvUGt lhs rhs) else None
        | Op.Uge => if is_ordered_scalar_ty ty then Some (mk_binary BvUGe lhs rhs) else None
        | Op.Slt => if is_ordered_scalar_ty ty then Some (mk_binary BvSLt lhs rhs) else None
        | Op.Sle => if is_ordered_scalar_ty ty then Some (mk_binary BvSLe lhs rhs) else None
        | Op.Sgt => if is_ordered_scalar_ty ty then Some (mk_binary BvSGt lhs rhs) else None
        | Op.Sge => if is_ordered_scalar_ty ty then Some (mk_binary BvSGe lhs rhs) else None
        end.

(** [translate_integer_binop] *)
Definition translate_integer_binop (op : Op.BinOp) (ty : Ty) (lhs rhs : ValueId) (node : Node) : M unit :=
  lhs_expr ← resolve lhs ty;
  rhs_expr ← resolve rhs ty;
  overflow ← lift (integer_binop_no_overflow_condition op ty lhs_expr rhs_expr options);
  match overflow with
  | Some no_overflow =>
      let signedness := if is_signed ty then "signed" else "unsigned" in
      add_violation Artifact.ArithmeticOverflow (mk_unary Not no_overflow)
        (signedness +:+ " " +:+ op_name op +:+ " overflow in " +:+ func_name func) node
  | None => mret tt
  end;;
  division ← lift (integer_binop_div_by_zero_condition op ty rhs_expr options);
  match division with
  | Some is_zero =>
      add_violation Artifact.DivisionByZero is_zero ("division by zero in " +:+ func_name func) node
  | None => mret tt
  end;;
  result ← eval_binop op ty lhs_expr rhs_expr;
  bind_result node result;;
  if is_float_op op then
    add_unsupported_semantics
      ("floating-point operation " +:+ debug_binop op +:+ " on integer type " +:+ debug_ty ty) node
  else mret tt.

(** ** Calls and returns *)

(** [symbolic_call] *)
Definition symbolic_call (callee : Function_ Payload) (args : list ValueId) (node : Node) : M unit :=
  let callee_func_ty := func_types module !! func_ty callee in
  let ret_ty := default Ty.I64 (ft ← callee_func_ty; head (ft_returns ft)) in
  result_expr ← fresh_symbolic ("call_" +:+ func_name callee) ret_ty;
  bind_result node result_expr;;
  mapM (fun '(i, arg_val) => resolve arg_val (default Ty.I64 (ft ← callee_func_ty; ft_params ft !! i)))
    (imap pair args);;
  mret tt.

(** [translate_call] *)
Definition translate_call (callee : FuncId) (args : list ValueId) (node : Node) : M unit :=
  match List.find (fun f => (func_id f =? callee)%N) (functions module) with
  | Some callee_func => symbolic_call callee_func args node
  | None =>
      add_unsupported_semantics ("unknown direct call target " +:+ debug_func callee) node;;
      match results node with
      | result_id :: _ =>
          result ← fresh_symbolic "call_result" Ty.I64;
          bind result_id result
      | [] => mret tt
      end
  end.

(** The checks of one annotation on the returned values *)
Fixpoint check_bounded_output (lo hi : Z) (i : nat) (ret_exprs : list Expr) (node : Node) : M unit :=
  match ret_exprs with
  | [] => mret tt
  | ret_expr :: ret_exprs =>
      let ret_ty := ft ← func_types module !! func_ty func; ft_returns ft !! i in
      match (ty ← ret_ty; bounded_output_out_of_range ty ret_expr lo hi) with
      | Some out_of_range =>
          add_violation Artifact.Postcondition out_of_range
            ("postcondition BoundedOutput[" +:+ show_f64 lo +:+ ", " +:+ show_f64 hi +:+
             "] violated for return value " +:+ pretty i +:+ " in " +:+ func_name func) node
      | None =>
          add_unsupported_semantics
            ("BoundedOutput[" +:+ show_f64 lo +:+ ", " +:+ show_f64 hi +:+
             "] postcondition without exact integer semantics for return value " +:+ pretty i) node
      end;;
      check_bounded_output lo hi (S i) ret_exprs node
  end.

(** [translate_return] *)
Definition translate_return (vals : list ValueId) (node : Node) : M unit :=
  ret_exprs ←
    match func_types module !! func_ty func with
    | Some func_ty => mapM (fun '(v, ty) => resolve v ty) (zip vals (ft_returns func_ty))
    | None => mapM (fun v => resolve v Ty.I64) vals
    end;
  mapM (fun proof =>
    match proof with
    | BoundedOutput lo hi => check_bounded_output lo hi 0 ret_exprs node
    | Pure | Terminates => mret tt
    | OtherAnnotation => mret tt
    end) (proofs func);;
  mret tt.

(** ** Atomics *)

(** The value an atomic update stores, on an integer type *)
Definition rmw_value (op : Op.AtomicRMWOp) (loaded val_expr : Expr) : Expr :=
  let pick cmp := ite (mk_binary cmp loaded val_expr) loaded val_expr in
  match op with
  | Op.Xchg => val_expr
  | Op.RAdd => mk_binary BvAdd loaded val_expr
  | Op.RSub => mk_binary BvSub loaded val_expr
  | Op.RAnd => mk_binary BvAnd loaded val_expr
  | Op.ROr => mk_binary BvOr loaded val_expr
  | Op.RXor => mk_binary BvXor loaded val_expr
  | Op.RMax => pick BvSGt
  | Op.RMin => pick BvSLt
  | Op.RUMax => pick BvUGt
  | Op.RUMin => pick BvULt
  end.

(** [translate_atomic_rmw] *)
Definition translate_atomic_rmw (op : Op.AtomicRMWOp) (ty : Ty) (ptr value : ValueId) (node : Node) : M unit :=
  val_expr ← resolve value ty;
  region_info ← gets (fun s => resolve_memory_region s ptr);
  loaded ←
    match region_info with
    | Some (region, offset) => mret (mk_select (array region) offset)
    | None => fresh_symbolic "atomic_rmw_old" ty
    end;
  bind_result node loaded;;
  new_val ←
    match op with
    | Op.Xchg => mret (rmw_value op loaded val_expr)
    | _ =>
        if negb (is_integer ty) then
          add_unsupported_semantics
            ("atomic read-modify-write " +:+ debug_rmw op +:+ " on non-integer type " +:+ debug_ty ty) node;;
          fresh_symbolic "atomic_rmw_unmodeled" ty
        else mret (rmw_value op loaded val_expr)
    end;
  match region_info with
  | Some (_, offset) =>
      region_key ← gets (fun s => find_region_key_for_ptr s ptr);
      match region_key with
      | Some key => update_region key (fun a => mk_store a offset new_val)
      | None => mret tt
      end
  | None => mret tt
  end.

(** [translate_cmpxchg] *)
Definition translate_cmpxchg (ty : Ty) (ptr expected desired : ValueId) (node : Node) : M unit :=
  expected_expr ← resolve expected ty;
  desired_expr ← resolve desired ty;
  region_info ← gets (fun s => resolve_memory_region s ptr);
  current ←
    match region_info with
    | Some (region, offset) => mret (mk_select (array region) offset)
    | None => fresh_symbolic "cmpxchg_current" ty
    end;
  success_cond ←
    (if is_eq_comparable_ty ty || is_float ty then mret (mk_eq current expected_expr)
     else
       add_unsupported_semantics
         ("compare-exchange over a type without exact modeled bits (" +:+ debug_ty ty +:+ ")") node;;
       fresh_symbolic "cmpxchg_success" Ty.Bool);
  let result_val := ite success_cond expected_expr current in
  match results node with r :: _ => bind r result_val | [] => mret tt end;;
  match results node with _ :: r :: _ => bind r success_cond | _ => mret tt end;;
  region_key ← gets (fun s => find_region_key_for_ptr s ptr);
  match region_key with
  | Some key =>
      found ← gets (fun s => resolve_memory_region s ptr);
      let offset := match found with Some (_, off) => off | None => bitvec_const 0 64 end in
      update_region key (fun a => ite success_cond (mk_store a offset desired_expr) a)
  | None => mret tt
  end.

(** The value and the flag of a checked operation *)
Definition translate_overflow (op : Op.OverflowOp) (ty : Ty) (lhs rhs : ValueId) (node : Node) : M unit :=
  let binop := overflow_op_to_binop op in
  lhs_expr ← resolve lhs ty;
  rhs_expr ← resolve rhs ty;
  result_val ← eval_binop binop ty lhs_expr rhs_expr;
  match results node with r :: _ => bind r result_val | [] => mret tt end;;
  match results node with
  | _ :: r :: _ =>
      cond ← lift (integer_binop_no_overflow_condition binop ty lhs_expr rhs_expr options);
      match cond with
      | Some no_overflow => bind r (mk_unary Not no_overflow)
      | None =>
          flag ← fresh_symbolic "ovf_flag" Ty.Bool;
          bind r flag;;
          add_unsupported_semantics "overflow intrinsic result pair" node
      end
  | _ => mret tt
  end.

(** ** Instructions *)

(** The constants without a value *)
Definition is_symbol_addr (value : Constant.Constant) : bool :=
  match value with Constant.SymbolAddr => true | _ => false end.

(** [translate_node] *)
Definition translate_node (node : Node) : M unit :=
  match inst node with
  | Inst.BinOp op ty lhs rhs =>
      if is_integer ty then translate_integer_binop op ty lhs rhs node
      else if match op with Op.SDiv | Op.UDiv | Op.SRem | Op.URem => is_float ty | _ => false end then
        resolve lhs ty;;
        resolve rhs ty;;
        havoc_result "fdiv_result" ty
          ("floating-point division/remainder operation " +:+ debug_binop op) node
      else
        lhs_expr ← resolve lhs ty;
        rhs_expr ← resolve rhs ty;
        result ← eval_binop op ty lhs_expr rhs_expr;
        bind_result node result;;
        let modeled_precisely :=
          match ty, op with Ty.Bool, (Op.And | Op.Or | Op.Xor) => true | _, _ => false end in
        if modeled_precisely then mret tt
        else
          add_unsupported_semantics
            (if is_float ty || is_float_op op then "floating-point binary operation " +:+ debug_binop op
             else "non-integer binary operation " +:+ debug_binop op +:+ " on " +:+ debug_ty ty) node
  | Inst.Const ty value =>
      if is_symbol_addr value then
        e ← fresh_symbolic "symbol_addr" ty;
        add_unsupported_semantics "relocatable symbol address constant" node;;
        bind_result node e
      else
        match const_to_expr ty value with
        | Some e => bind_result node e
        | None =>
            e ← fresh_symbolic "unmodeled_const" ty;
            add_unsupported_semantics
              ("constant without an exact bit-level encoding for " +:+ debug_ty ty) node;;
            bind_result node e
        end
  | Inst.ICmp op ty lhs rhs =>
      lhs_expr ← resolve lhs ty;
      rhs_expr ← resolve rhs ty;
      compared ← eval_icmp op ty lhs_expr rhs_expr;
      match compared with
      | Some result => bind_result node result
      | None =>
          havoc_result "unsupported_icmp_result" Ty.Bool
            (if is_float ty then "floating-point comparison via ICmp on " +:+ debug_ty ty
             else "integer comparison without exact bit-level semantics on " +:+ debug_ty ty) node
      end
  | Inst.Load ty ptr _ _ | Inst.AtomicLoad ty ptr => translate_load ty ptr node
  | Inst.Store ty ptr value _ _ | Inst.AtomicStore ty ptr value => translate_store ty ptr value node
  | Inst.Assert cond =>
      cond_expr ← resolve cond Ty.Bool;
      if is_bool_sort (sort_of cond_expr) then
        add_violation Artifact.Assertion (mk_unary Not cond_expr)
          ("assertion failure in " +:+ func_name func) node
      else add_unsupported_semantics "non-boolean assert condition" node
  | Inst.Assume cond =>
      cond_expr ← resolve cond Ty.Bool;
      if is_bool_sort (sort_of cond_expr) then
        guard ← gets current_guard;
        modify (constrain (implied_under_guard guard cond_expr))
      else add_unsupported_semantics "non-boolean assume condition" node
  | Inst.Return vals => translate_return vals node
  | Inst.Alloca ty cnt _ => translate_alloca ty cnt node
  | Inst.HeapAlloc _ => havoc_result "heap_alloc_ptr" Ty.Ptr "heap allocation semantics" node
  | Inst.GEP pointee_ty base indices => translate_gep pointee_ty base indices node
  | Inst.PtrData ptr_ty ptr =>
      parts ← gets (fun s => ptr_parts s !! ptr);
      data ← match parts with Some (data, _) => mret data | None => resolve ptr ptr_ty end;
      bind_result node data
  | Inst.PtrMetadata ptr_ty metadata_ty ptr =>
      parts ← gets (fun s => ptr_parts s !! ptr);
      metadata ←
        match parts, metadata_ty with
        | Some (_, metadata), _ => mret metadata
        | None, Ty.Unit => mret (bool_const true)
        | None, _ =>
            metadata ← fresh_symbolic "ptr_metadata" metadata_ty;
            add_unsupported_semantics ("pointer metadata extraction from " +:+ debug_ty ptr_ty) node;;
            mret metadata
        end;
      bind_result node metadata
  | Inst.PtrFromParts metadata_ty data metadata =>
      data_expr ← resolve data Ty.Ptr;
      metadata_expr ←
        match metadata_ty with Ty.Unit => mret (bool_const true) | _ => resolve metadata metadata_ty end;
      match results node with
      | result_id :: _ => bind result_id data_expr;; modify (set_parts result_id (data_expr, metadata_expr))
      | [] => mret tt
      end
  | Inst.Copy ty operand =>
      e ← resolve operand ty;
      match results node with
      | result_id :: _ =>
          bind result_id e;;
          parts ← gets (fun s => ptr_parts s !! operand);
          match parts with Some parts => modify (set_parts result_id parts) | None => mret tt end
      | [] => mret tt
      end
  | Inst.Select ty cond then_val else_val =>
      cond_expr ← resolve cond Ty.Bool;
      then_expr ← resolve then_val ty;
      else_expr ← resolve else_val ty;
      bind_result node (ite cond_expr then_expr else_expr)
  | Inst.Cast dst_ty _ => havoc_result "cast_result" dst_ty "cast operation" node
  | Inst.NullPtr => bind_result node (bitvec_const 0 64)
  | Inst.GlobalAddr => havoc_result "global_addr" Ty.Ptr "global address semantics" node
  | Inst.Undef ty => e ← fresh_symbolic "undef" ty; bind_result node e
  | Inst.Call callee args => translate_call callee args node
  | Inst.Br _ _ | Inst.CondBr _ _ _ _ _ | Inst.Switch _ _ _ _ =>
      add_unsupported_semantics
        "path-sensitive control flow (cyclic or structurally unsupported CFG)" node
  | Inst.Unreachable =>
      add_violation Artifact.KUnreachable (bool_const true)
        ("unreachable instruction reached in " +:+ func_name func) node
  | Inst.CallIndirect _ _ => add_unsupported_semantics "indirect call dispatch" node
  | Inst.Fence => add_unsupported_semantics "atomic fence ordering" node
  | Inst.UnOp ty operand => resolve operand ty;; havoc_result "unop_result" ty "unary operation" node
  | Inst.Overflow op ty lhs rhs => translate_overflow op ty lhs rhs node
  | Inst.ExtractField ty _ | Inst.ExtractElement ty _ _ =>
      havoc_result "extract_result" ty "aggregate extraction" node
  | Inst.InsertField ty aggregate _ | Inst.InsertElement ty aggregate _ _ =>
      resolve aggregate ty;; havoc_result "insert_result" ty "aggregate insertion" node
  | Inst.AtomicRMW op ty ptr value => translate_atomic_rmw op ty ptr value node
  | Inst.CmpXchg ty ptr expected desired => translate_cmpxchg ty ptr expected desired node
  | Inst.FCmp ty lhs rhs =>
      resolve lhs ty;;
      resolve rhs ty;;
      havoc_result "fcmp_result" Ty.Bool "floating-point comparison" node
  | Inst.Borrow ptr | Inst.BorrowMut ptr =>
      result ← resolve ptr Ty.Ptr;
      bind_result node result;;
      add_unsupported_semantics "borrow permission semantics" node
  | Inst.EndBorrow _ => add_unsupported_semantics "end-borrow permission semantics" node
  | Inst.Retain _ | Inst.Release _ => add_unsupported_semantics "reference-counting semantics" node
  | Inst.IsUnique _ => havoc_result "is_unique_result" Ty.Bool "reference-count uniqueness semantics" node
  | Inst.Dealloc _ => add_unsupported_semantics "heap deallocation semantics" node
  | Inst.OpenFrame | Inst.BindSlot _ _ => havoc_result "binding_frame" Ty.Ptr "binding-frame semantics" node
  | Inst.LoadSlot ty _ => havoc_result "binding_slot" ty "binding-frame slot load semantics" node
  | Inst.CloseFrame _ => add_unsupported_semantics "binding-frame close semantics" node
  | Inst.CoroSuspend => add_unsupported_semantics "coroutine suspend semantics" node
  | Inst.Invoke _ _ => add_unsupported_semantics "invoke call with exception-handling semantics" node
  | Inst.LandingPad => add_unsupported_semantics "landing-pad exception-handler entry semantics" node
  | Inst.Resume => add_unsupported_semantics "exception resume/re-raise semantics" node
  | Inst.SeqMapAddK ty _ | Inst.SeqMapNot ty _ | Inst.SeqMap ty _ =>
      havoc_result "seq_map_result" ty "structural sequence-map semantics" node
  | Inst.DialectOp _ => add_unsupported_semantics "dialect operation" node
  end.

(** A sequence of steps *)
Fixpoint each {A} (f : A -> M unit) (l : list A) : M unit :=
  match l with
  | [] => mret tt
  | x :: l => f x;; each f l
  end.

(** ** Blocks

    The edges recorded so far, by the block they lead to *)

Abbreviation Incoming := (gmap BlockId (list IncomingEdge)).

(** [incoming.entry(target).or_default().push(edge)] *)
Definition push_edge (target : BlockId) (edge : IncomingEdge) (incoming : Incoming) : Incoming :=
  <[target := default [] (incoming !! target) ++ [edge]]> incoming.

(** [define_block_guard] *)
Definition define_block_guard (block_idx : nat) (edges : list IncomingEdge) : M Expr :=
  match edges with
  | [] => mret (bool_const false)
  | _ =>
      let combined :=
        match map e_guard edges with [disjunct] => disjunct | disjuncts => or_many disjuncts end in
      if expr_is_true combined then mret (bool_const true)
      else
        guard ← fresh_symbolic ("bb" +:+ pretty block_idx +:+ "_guard") Ty.Bool;
        modify (constrain (mk_iff guard combined));;
        mret guard
  end.

(** The constraint of one edge on a parameter *)
Definition bind_param (param_pos : nat) (param_id : ValueId) (param : Expr) (edge : IncomingEdge) : M unit :=
  match e_args edge !! param_pos with
  | None => mret tt
  | Some arg =>
      if bool_decide (sort_of arg = sort_of param) then
        modify (constrain (implied_under_guard (e_guard edge) (mk_eq param arg)))
      else
        add_guarded_unsupported_violation
          ("block parameter v" +:+ pretty param_id +:+ " receives a value of mismatched sort") (e_guard edge)
  end.

(** [bind_block_params] *)
Definition bind_block_params (block_idx : nat) (params : list (ValueId * Ty)) (edges : list IncomingEdge) : M unit :=
  each (fun '(param_pos, (param_id, ty)) =>
    param ← fresh_symbolic ("bb" +:+ pretty block_idx +:+ "_v" +:+ pretty param_id) ty;
    bind param_id param;;
    each (bind_param param_pos param_id param) edges) (imap pair params).

(** The arguments of an edge, at the types of the parameters *)
Definition edge_args (args : list ValueId) (params : list (ValueId * Ty)) : M (list Expr) :=
  mapM (fun '(arg, (_, ty)) => e ← resolve arg ty; lift (normalize_expr_to_ty e ty)) (zip args params).

(** [record_edge] *)
Definition record_edge (target : BlockId) (args : list ValueId) (cond : option Expr) (pred_guard : Expr)
    (incoming : Incoming) : M Incoming :=
  let params := match block func target with Some b => block_params b | None => [] end in
  arg_exprs ← edge_args args params;
  let edge_guard := match cond with None => pred_guard | Some cond => and_guard pred_guard cond end in
  mret (push_edge target {| e_guard := edge_guard; e_args := arg_exprs |} incoming).

(** The constants of the cases, pairwise different, as expressions of the selector's sort *)
Fixpoint switch_constants (selector : Expr) (case_consts : list Expr) (cases : list SwitchCase) : option (list Expr) :=
  match cases with
  | [] => Some case_consts
  | case :: cases =>
      constant ← switch_case_expr (case_value case) selector;
      if bool_decide (constant ∈ case_consts) then None
      else switch_constants selector (case_consts ++ [constant]) cases
  end.

(** Prioritised choices: the first of the picks that holds *)
Fixpoint prioritised (none_before : option Expr) (picks : list Expr) : list Expr :=
  match picks with
  | [] => []
  | pick :: picks =>
      let cond := match none_before with None => pick | Some prev => mk_and prev pick end in
      let not_pick := mk_unary Not pick in
      cond :: prioritised (Some (match none_before with None => not_pick | Some prev => mk_and prev not_pick end)) picks
  end.

(** The edges of the cases, in order *)
Fixpoint record_cases (cases : list SwitchCase) (conds : list Expr) (guard : Expr) (incoming : Incoming) : M Incoming :=
  match cases, conds with
  | case :: cases, cond :: conds =>
      incoming ← record_edge (case_target case) (case_args case) (Some cond) guard incoming;
      record_cases cases conds guard incoming
  | _, _ => mret incoming
  end.

(** The condition of the default edge: none of the cases *)
Definition default_condition (case_conds : list Expr) : option Expr :=
  match case_conds with
  | [] => None
  | [cond] => Some (mk_unary Not cond)
  | _ => Some (and_many (map (mk_unary Not) case_conds))
  end.

(** The conditions of the cases *)
Definition switch_conditions (selector : Expr) (cases : list SwitchCase) (node : Node) : M (list Expr) :=
  match switch_constants selector [] cases with
  | Some case_consts => mret (map (mk_eq selector) case_consts)
  | None =>
      add_unsupported_semantics "switch with non-scalar, mismatched, or overlapping case values" node;;
      picks ← mapM (fun _ => fresh_symbolic "switch_pick" Ty.Bool) cases;
      mret (prioritised None picks)
  end.

(** [record_switch_edges] *)
Definition record_switch_edges (value : ValueId) (dflt : BlockId) (default_args : list ValueId)
    (cases : list SwitchCase) (node : Node) (guard : Expr) (incoming : Incoming) : M Incoming :=
  selector ← resolve value Ty.I64;
  case_conds ← switch_conditions selector cases node;
  incoming ← record_cases cases case_conds guard incoming;
  record_edge dflt default_args (default_condition case_conds) guard incoming.

(** [record_outgoing_edges] *)
Definition record_outgoing_edges (node : Node) (guard : Expr) (incoming : Incoming) : M Incoming :=
  match inst node with
  | Inst.Br target args => record_edge target args None guard incoming
  | Inst.CondBr cond then_target then_args else_target else_args =>
      cond_expr ← resolve cond Ty.Bool;
      cond_expr ←
        (if is_bool_sort (sort_of cond_expr) then mret cond_expr
         else
           add_unsupported_semantics "non-boolean conditional branch condition" node;;
           fresh_symbolic "branch_cond" Ty.Bool);
      incoming ← record_edge then_target then_args (Some cond_expr) guard incoming;
      record_edge else_target else_args (Some (mk_unary Not cond_expr)) guard incoming
  | Inst.Switch value dflt default_args cases =>
      record_switch_edges value dflt default_args cases node guard incoming
  | _ => mret incoming
  end.

Definition is_branch (i : Inst.Inst Payload) : bool :=
  match i with Inst.Br _ _ | Inst.CondBr _ _ _ _ _ | Inst.Switch _ _ _ _ => true | _ => false end.

(** The guard and the parameters of a block, before its instructions *)
Definition enter_block (idx : nat) (b : Block Payload) (edges : list IncomingEdge) : M Expr :=
  if (block_id b =? entry func)%N then mret (bool_const true)
  else
    guard ← define_block_guard idx edges;
    bind_block_params idx (block_params b) edges;;
    mret guard.

(** The instructions of a block *)
Definition translate_body (b : Block Payload) (guard : Expr) (incoming : Incoming) : M Incoming :=
  modify (set_guard guard);;
  match split_last (body b) with
  | None => mret incoming
  | Some (terminator, front) =>
      each translate_node front;;
      incoming ←
        (if is_branch (inst terminator) then record_outgoing_edges terminator guard incoming
         else translate_node terminator;; mret incoming);
      modify (set_guard (bool_const true));;
      mret incoming
  end.

(** One round of the loop of [translate_guarded_blocks] *)
Definition translate_block (idx : nat) (incoming : Incoming) : M Incoming :=
  b ← lift (blocks func !! idx);
  let edges := default [] (incoming !! block_id b) in
  let incoming := delete (block_id b) incoming in
  guard ← enter_block idx b edges;
  translate_body b guard incoming.

Fixpoint translate_blocks (order : list nat) (incoming : Incoming) : M Incoming :=
  match order with
  | [] => mret incoming
  | idx :: order => incoming ← translate_block idx incoming; translate_blocks order incoming
  end.

(** [translate_guarded_blocks] *)
Definition translate_guarded_blocks (order : list nat) : M unit := translate_blocks order ∅;; mret tt.

(** ** Functions *)

(** The parameters of the entry block *)
Definition bind_entry_params : M unit :=
  match List.find (fun b => (block_id b =? entry func)%N) (blocks func) with
  | Some entry_block =>
      each (fun '(val, ty) =>
        e ← fresh_symbolic ("param_" +:+ pretty val) ty;
        bind val e) (block_params entry_block)
  | None => mret tt
  end.

(** The walk without guards *)
Definition translate_linear : M unit :=
  each (fun b => each translate_node (body b)) (blocks func).

Definition translate_state : option FuncTranslator :=
  '(_, s) ← (bind_entry_params;;
    match acyclic_topo_order func with
    | Some order => translate_guarded_blocks order
    | None => translate_linear
    end) FuncTranslator_new;
  Some s.

(** [FuncTranslator::translate] and [translate_function] *)
Definition translate_function : option Bmc.BmcVc :=
  s ← translate_state;
  let query := Bmc.BmcQuery_new in
  let query := match opt_logic options with Some logic => Bmc.with_logic logic query | None => query end in
  let query := match opt_timeout_ms options with Some ms => Bmc.with_timeout ms query | None => query end in
  Some {| Bmc.b_decls := t_decls s; Bmc.b_constraints := t_constraints s; Bmc.violations := t_violations s;
          Bmc.b_query := Bmc.with_model query; Bmc.model_queries := [] |}.

End Translator.

(** [trust_ir_to_bmc_vc], [trust_ir_function_to_bmc_vc] *)
Definition trust_ir_to_bmc_vc `{AyEncode} `{TrustIr} `{F64.NanCasts} (module : Module_ Payload)
    (options : TranslateOptions) : option (list Bmc.BmcVc) :=
  mapM (fun func => translate_function func module options) (functions module).
Definition trust_ir_function_to_bmc_vc `{AyEncode} `{TrustIr} `{F64.NanCasts} (module : Module_ Payload)
    (function : FuncId) (options : TranslateOptions) : option (option Bmc.BmcVc) :=
  match function_by_id module function with
  | Some func => vc ← translate_function func module options; Some (Some vc)
  | None => Some None
  end.

End BmcTranslate.
