(* ===== verification/BmcInvariant.v ===== *)
(** * What every step of the bounded encoder keeps

    A state of the encoder is well formed when its names are fresh and every expression
    it holds mentions declared variables only ([wf]).  A step extends the declarations,
    the constraints and the violations, the latter by violations under the guard of the
    current block ([ext]).  [sound] says that of a step of the translation; it is proved
    for [translate_node] by going through its operations. *)

From S2P Require Import Prelude AyExpr BvArith AyBuild AyTry AyEncode Artifact Chc Bmc TrustIr F64 BmcExpr BmcOrder BmcTranslate.

Module BmcInvariant.
Import AyBuild AyTry AyEncode TrustIr BmcExpr BmcOrder BmcTranslate.

(** ** Names *)

(** Digits only *)
Lemma pretty_no_underscore (n : N) :
  Str.chars_all (fun d => negb (Ascii.eqb d "_"%char)) (pretty n) = true.
Proof.
  pose proof (Str.pretty_digits n) as D. induction (pretty n) as [|c s IH]; [done|]. cbn in D |- *.
  apply andb_true_iff in D as [D1 D2]. rewrite IH, andb_true_r by done.
  destruct (Ascii.eqb_spec c "_"%char) as [->|]; [by vm_compute in D1|done].
Qed.

(** The number at the end of a name determines nothing less than the number. *)
Lemma fresh_name_id (p q : string) (i j : N) :
  p +:+ "_" +:+ pretty i = q +:+ "_" +:+ pretty j -> i = j.
Proof.
  intros E.
  assert (R : forall p (i : N), Str.rsplit_once (p +:+ "_" +:+ pretty i) "_"%char = Some (p, pretty i)).
  { intros. apply (Str.rsplit_once_last p0). apply pretty_no_underscore. }
  pose proof (R p i) as A. rewrite E, R in A. injection A as _ A. by apply (inj pretty).
Qed.

(** ** Well-formed states *)

Section Invariant.
Context `{AyEncode}.

Notation State := FuncTranslator.

Definition declared (s : State) (n : string) : Prop := n ∈ map Chc.decl_name (t_decls s).
Definition scoped (s : State) (e : Expr) : Prop := forall n, occurs n e -> declared s n.

Record wf (s : State) : Prop := {
  wf_fresh : forall n, declared s n -> exists p i, n = p +:+ "_" +:+ pretty i /\ (i < next_sym_id s)%N;
  wf_once : NoDup (map Chc.decl_name (t_decls s));
  wf_values : forall v e, values s !! v = Some e -> scoped s e;
  wf_regions : forall v r, memory_regions s !! v = Some r -> scoped s (array r);
  wf_geps : forall v b e, gep_results s !! v = Some (b, e) -> scoped s e;
  wf_parts : forall v a b, ptr_parts s !! v = Some (a, b) -> scoped s a /\ scoped s b;
  wf_guard : scoped s (current_guard s);
  wf_constraints : forall c, c ∈ t_constraints s -> scoped s c;
  wf_violations : forall v, v ∈ t_violations s -> scoped s (Bmc.condition v);
}.

(** What a later state keeps *)
Record grows (s s' : State) : Prop := {
  grows_decls : t_decls s `prefix_of` t_decls s';
  grows_constraints : t_constraints s `prefix_of` t_constraints s';
  grows_violations : t_violations s `prefix_of` t_violations s';
  grows_ids : (next_sym_id s <= next_sym_id s')%N;
}.

(** A violation under a guard *)
Definition under (g : Expr) (v : Bmc.Violation) : Prop := exists c, Bmc.condition v = and_guard g c.

Record ext (s s' : State) : Prop := {
  ext_grows : grows s s';
  ext_guard : current_guard s' = current_guard s;
  ext_violations : exists vs, t_violations s' = t_violations s ++ vs /\ List.Forall (under (current_guard s)) vs;
}.

#[export] Instance grows_preorder : PreOrder grows.
Proof.
  split; [intros s; by split|]. intros s1 s2 s3 [D C V I] [D' C' V' I'].
  split; [by etrans..|lia].
Qed.

#[export] Instance ext_preorder : PreOrder ext.
Proof.
  split.
  - intros s. split; [done|done|]. exists []. rewrite app_nil_r. split; [done|constructor].
  - intros s1 s2 s3 [G1 E1 (v1 & V1 & U1)] [G2 E2 (v2 & V2 & U2)]. split; [by etrans|by rewrite E2|].
    exists (v1 ++ v2). rewrite V2, V1, app_assoc. split; [done|]. apply Forall_app. split; [done|].
    by rewrite <- E1.
Qed.

Lemma declared_grows s s' n : grows s s' -> declared s n -> declared s' n.
Proof.
  intros [[k E] _ _ _] D. unfold declared. rewrite E, map_app. apply elem_of_app. by left.
Qed.

Lemma scoped_grows s s' e : grows s s' -> scoped s e -> scoped s' e.
Proof. intros G S n O. by eapply declared_grows, S. Qed.

Lemma scoped_ext s s' e : ext s s' -> scoped s e -> scoped s' e.
Proof. intros [G _ _]. by apply scoped_grows. Qed.

(** The same declarations, the same scope *)
Lemma scoped_decls s s' e : t_decls s' = t_decls s -> scoped s e -> scoped s' e.
Proof. intros E S n O. unfold declared. rewrite E. by apply S. Qed.

Context `{!AySem} `{!AyEval} `{!AyEncodeEval}.

Lemma scoped_made s e es : made e es -> (forall c, c ∈ es -> scoped s c) -> scoped s e.
Proof. intros Md S n O. destruct (made_occurs e es n Md O) as (c & Hc & Oc). by apply (S c). Qed.

Lemma scoped_var s n sort : declared s n -> scoped s (expr_var n sort).
Proof.
  intros D m O. inversion O as [e V|e c Hc]; subst.
  - rewrite value_expr_var in V. by injection V as <-.
  - unfold children in Hc. rewrite value_expr_var in Hc. by apply elem_of_nil in Hc.
Qed.

Lemma scoped_and_guard s g c : scoped s g -> scoped s c -> scoped s (and_guard g c).
Proof.
  intros G C. unfold and_guard. destruct (expr_is_true g); [done|]. destruct (expr_is_true c); [done|].
  eapply scoped_made; [apply made_and|]. intros d. rewrite !elem_of_cons, elem_of_nil. by intros [->|[->|[]]].
Qed.

Lemma scoped_implied s g c : scoped s g -> scoped s c -> scoped s (implied_under_guard g c).
Proof.
  intros G C. unfold implied_under_guard. destruct (expr_is_true g); [done|].
  eapply scoped_made; [apply made_implies|]. intros d. rewrite !elem_of_cons, elem_of_nil. by intros [->|[->|[]]].
Qed.

(** ** The assignments *)

Lemma wf_new : wf FuncTranslator_new.
Proof.
  split; cbn; try (intros; by rewrite lookup_empty in *); try (intros ? Hn; by apply elem_of_nil in Hn).
  - constructor.
  - intros n O. exfalso. destruct (made_occurs _ _ n (made_bool true) O) as (c & Hc & _).
    by apply elem_of_nil in Hc.
Qed.

Lemma ext_declare s name sort : ext s (declare name sort s).
Proof.
  split; [split; cbn; [by eexists|done|done|lia]|done|].
  exists []. cbn. rewrite app_nil_r. split; [done|constructor].
Qed.

Lemma declared_declare s p sort :
  declared (declare (p +:+ "_" +:+ pretty (next_sym_id s)) sort s) (p +:+ "_" +:+ pretty (next_sym_id s)).
Proof. unfold declared. cbn. rewrite map_app. apply elem_of_app. right. by apply list_elem_of_here. Qed.

Lemma wf_declare s p sort : wf s -> wf (declare (p +:+ "_" +:+ pretty (next_sym_id s)) sort s).
Proof.
  intros W. set (name := p +:+ "_" +:+ pretty (next_sym_id s)). set (s' := declare name sort s).
  assert (X : ext s s') by apply ext_declare.
  assert (New : ~ declared s name).
  { intros D. destruct (wf_fresh s W name D) as (q & i & E & L). apply fresh_name_id in E. lia. }
  assert (L : forall e, scoped s e -> scoped s' e) by (intros e; by apply scoped_ext).
  destruct W as [F O V R G P Gd C Vi]. split.
  - intros n D. unfold declared, s' in D. cbn in D. rewrite map_app in D.
    apply elem_of_app in D as [D|D].
    + destruct (F n D) as (q & i & -> & Li). exists q, i. cbn. split; [done|lia].
    + apply list_elem_of_singleton in D as ->. exists p, (next_sym_id s). cbn. split; [done|lia].
  - unfold s'. cbn. rewrite map_app. apply NoDup_app. split; [done|]. split.
    + intros n D Hn. apply list_elem_of_singleton in Hn as ->. by apply New.
    + apply NoDup_singleton.
  - intros v e Hv. by apply L, (V v).
  - intros v r Hv. by apply L, (R v).
  - intros v b e Hv. by apply L, (G v b).
  - intros v a b Hv. destruct (P v a b Hv). split; by apply L.
  - by apply L.
  - intros c Hc. by apply L, C.
  - intros v Hv. by apply L, Vi.
Qed.

(** An assignment to one field leaves the others. *)
Ltac assign W := destruct W as [F O V R G P Gd C Vi]; split; try done; cbn.

Lemma wf_bind s v e : wf s -> scoped s e -> wf (bind_value v e s).
Proof.
  intros W S. assign W. intros v' e' Hv. apply lookup_insert_Some in Hv as [[_ <-]|[_ Hv]]; [done|by apply (V v')].
Qed.

Lemma wf_constrain s c : wf s -> scoped s c -> wf (constrain c s).
Proof.
  intros W S. assign W. intros d [Hd|Hd]%elem_of_app; [by apply C|]. by apply list_elem_of_singleton in Hd as ->.
Qed.

Lemma wf_push s v : wf s -> scoped s (Bmc.condition v) -> wf (push_violation v s).
Proof.
  intros W S. assign W. intros d [Hd|Hd]%elem_of_app; [by apply Vi|]. by apply list_elem_of_singleton in Hd as ->.
Qed.

Lemma wf_region s p r : wf s -> scoped s (array r) -> wf (set_region p r s).
Proof.
  intros W S. assign W. intros v r' Hv. apply lookup_insert_Some in Hv as [[_ <-]|[_ Hv]]; [done|by apply (R v)].
Qed.

Lemma wf_gep s p b e : wf s -> scoped s e -> wf (set_gep p b e s).
Proof.
  intros W S. assign W. intros v b' e' Hv.
  apply lookup_insert_Some in Hv as [[_ [= _ <-]]|[_ Hv]]; [done|by apply (G v b')].
Qed.

Lemma wf_set_parts s p a b : wf s -> scoped s a -> scoped s b -> wf (set_parts p (a, b) s).
Proof.
  intros W A B. assign W. intros v a' b' Hv.
  apply lookup_insert_Some in Hv as [[_ [= <- <-]]|[_ Hv]]; [done|by apply (P v)].
Qed.

Lemma wf_set_guard s g : wf s -> scoped s g -> wf (set_guard g s).
Proof. intros W S. assign W. Qed.

(** An assignment that keeps declarations, violations and the guard *)
Lemma ext_same s s' : t_decls s' = t_decls s -> t_constraints s `prefix_of` t_constraints s' ->
  t_violations s' = t_violations s -> next_sym_id s' = next_sym_id s -> current_guard s' = current_guard s ->
  ext s s'.
Proof.
  intros D C V I G. split; [split|done|].
  - by rewrite D.
  - done.
  - by rewrite V.
  - lia.
  - exists []. rewrite V, app_nil_r. split; [done|constructor].
Qed.

Lemma ext_push s v : under (current_guard s) v -> ext s (push_violation v s).
Proof.
  intros U. split; [split; cbn; [done|done|by eexists|lia]|done|].
  exists [v]. split; [done|]. by constructor.
Qed.

(** ** Steps *)

Definition sound {A} (Q : State -> A -> Prop) (m : M A) (s : State) : Prop :=
  forall a s', m s = Some (a, s') -> wf s -> wf s' /\ ext s s' /\ Q s' a.

Definition any {A} (s : State) (a : A) : Prop := True.

Lemma sound_ret {A} (Q : State -> A -> Prop) a s : (wf s -> Q s a) -> sound Q (mret a) s.
Proof. intros HQ b s' [= <- <-] W. split; [done|]. split; [done|by apply HQ]. Qed.

Lemma sound_bind {A B} (R : State -> A -> Prop) (Q : State -> B -> Prop) m k s :
  sound R m s -> (forall a s', wf s' -> ext s s' -> R s' a -> sound Q (k a) s') -> sound Q (m ≫= k) s.
Proof.
  intros Hm Hk b s' E W. unfold mbind, M_bind in E. cbn in E.
  destruct (m s) as [[a s1]|] eqn:Em; [|done]. cbn in E.
  destruct (Hm a s1 Em W) as (W1 & X1 & R1). destruct (Hk a s1 W1 X1 R1 b s' E W1) as (W2 & X2 & Q2).
  split; [done|]. split; [by etrans|done].
Qed.

Lemma sound_gets {A B} (f : State -> A) (Q : State -> B -> Prop) k s :
  sound Q (k (f s)) s -> sound Q (gets f ≫= k) s.
Proof. intros Hk b s' E W. by apply Hk. Qed.

Lemma sound_lift {A B} (o : option A) (Q : State -> B -> Prop) k s :
  (forall a, o = Some a -> sound Q (k a) s) -> sound Q (lift o ≫= k) s.
Proof. intros Hk b s' E W. unfold mbind, M_bind, lift in E. cbn in E. destruct o as [a|]; [|done]. by apply (Hk a). Qed.

Lemma sound_modify (Q : State -> unit -> Prop) f s :
  (wf s -> wf (f s) /\ ext s (f s) /\ Q (f s) tt) -> sound Q (modify f) s.
Proof. intros Hf b s' [= <- <-] W. by apply Hf. Qed.

Lemma sound_weaken {A} (Q R : State -> A -> Prop) m s :
  sound Q m s -> (forall a s', wf s' -> ext s s' -> Q s' a -> R s' a) -> sound R m s.
Proof.
  intros Hm HQ a s' E W. destruct (Hm a s' E W) as (W' & X & Qa). split; [done|]. split; [done|by apply HQ].
Qed.

Lemma sound_any {A} (Q : State -> A -> Prop) m s : sound Q m s -> sound any m s.
Proof. intros Hm. by eapply sound_weaken. Qed.

End Invariant.

(** A builder of scoped operands is scoped. *)
Ltac scope :=
  match goal with
  | H : scoped ?s ?e |- scoped ?s ?e => exact H
  | |- scoped _ (and_guard _ _) => apply scoped_and_guard; scope
  | |- scoped _ (implied_under_guard _ _) => apply scoped_implied; scope
  | |- scoped _ (expr_var _ _) => apply scoped_var; done
  | |- scoped ?s (current_guard ?s) => apply wf_guard; assumption
  | |- scoped _ _ =>
      eapply scoped_made; [first [eassumption|constructor; fail|econstructor; eassumption]|];
      let c := fresh "c" in let Hc := fresh "Hc" in
      intros c Hc; repeat (apply elem_of_cons in Hc as [->|Hc]; [scope|]); by apply elem_of_nil in Hc
  | |- any _ _ => exact I
  | |- _ => done
  end.

End BmcInvariant.
