(* ===== verification/BmcSound.v ===== *)
(** * The operations of the bounded encoder are sound steps

    Every operation of [BmcTranslate] keeps the state well formed, adds violations under
    the guard of the current block only, and returns expressions of declared variables.
    The operations are gone through by the tactic [steps], with a hint for each one that
    is done. *)

From S2P Require Import Prelude AyExpr BvArith AyBuild AyTry AyEncode Artifact Chc Bmc TrustIr F64 BmcExpr BmcOrder BmcTranslate BmcInvariant.

Module BmcSound.
Import AyBuild AyTry AyEncode TrustIr BmcExpr BmcOrder BmcTranslate BmcInvariant.

Create HintDb bmc.
#[export] Hint Extern 1 (scoped _ _) => scope : bmc.

(** What is known of an expression holds in a later state. *)
Ltac advance s s' X :=
  repeat match goal with
  | H : scoped s _ |- _ => apply (scoped_ext s s' _ X) in H
  | H : List.Forall (scoped s) _ |- _ =>
      apply (List.Forall_impl (scoped s') (fun e => scoped_ext s s' e X)) in H
  end.

Ltac step :=
  match goal with
  | |- sound _ (mret _) _ => apply sound_ret; intros ?; try scope
  | |- sound _ (gets _ ≫= _) _ => apply sound_gets
  | |- sound _ (lift _ ≫= _) _ => apply sound_lift; intros ? ?
  | |- sound _ (_ ≫= _) ?s =>
      eapply sound_bind; [solve [eauto with bmc]|];
      let a := fresh "a" in let s' := fresh "s" in let W := fresh "W" in let X := fresh "X" in let R := fresh "R" in
      intros a s' W X R; advance s s' X
  | |- sound _ (if ?b then _ else _) _ => destruct b eqn:?
  | |- sound _ (match ?x with _ => _ end) _ => destruct x eqn:?
  | |- sound _ _ _ => solve [eauto with bmc]
  end.
Ltac steps := repeat step.

Section Sound.
Context `{AyEncode} `{TrustIr} `{F64.NanCasts} `{!AySem} `{!AyEval} `{!AyEncodeEval}.
Context (func : Function_ Payload) (module : Module_ Payload) (options : TranslateOptions).

Notation Ty := (Ty.Ty Payload).
Notation Node := (InstrNode Payload).

Lemma fresh_sound p (ty : Ty) s : sound scoped (fresh_symbolic p ty) s.
Proof.
  unfold fresh_symbolic. apply sound_lift. intros sort Hs. apply sound_gets.
  intros a s' E W. injection E as <- <-. split; [by apply wf_declare|]. split; [apply ext_declare|].
  apply scoped_var, declared_declare.
Qed.
#[local] Hint Resolve fresh_sound : bmc.

Lemma bind_sound v e s : scoped s e -> sound any (bind v e) s.
Proof. intros S. apply sound_modify. intros W. split; [by apply wf_bind|]. split; [by apply ext_same|done]. Qed.
#[local] Hint Resolve bind_sound : bmc.

Lemma resolve_sound v (ty : Ty) s : sound scoped (resolve v ty) s.
Proof.
  unfold resolve. apply sound_gets. destruct (values s !! v) as [e|] eqn:E.
  - apply sound_ret. intros W. by eapply wf_values.
  - steps.
Qed.
#[local] Hint Resolve resolve_sound : bmc.

Lemma bind_result_sound (node : Node) e s : scoped s e -> sound any (bind_result node e) s.
Proof. intros S. unfold bind_result. steps. Qed.
#[local] Hint Resolve bind_result_sound : bmc.

Lemma add_violation_sound kind c msg (node : Node) s :
  scoped s c -> sound any (add_violation module kind c msg node) s.
Proof.
  intros S. unfold add_violation. do 2 apply sound_gets. apply sound_modify. intros W.
  set (v := match span node with Some _ => _ | None => _ end).
  assert (E : Bmc.condition v = and_guard (current_guard s) c) by (unfold v; by destruct (span node)).
  split; [|split; [apply ext_push; by eexists|done]].
  apply wf_push; [done|]. rewrite E. scope.
Qed.
#[local] Hint Resolve add_violation_sound : bmc.

Lemma unsupported_sound reason (node : Node) s : sound any (add_unsupported_semantics func module reason node) s.
Proof. unfold add_unsupported_semantics. steps. Qed.
#[local] Hint Resolve unsupported_sound : bmc.

Lemma havoc_sound p (ty : Ty) reason (node : Node) s : sound any (havoc_result func module p ty reason node) s.
Proof. unfold havoc_result. steps. Qed.
#[local] Hint Resolve havoc_sound : bmc.

(** ** Memory *)

Lemma region_scoped s ptr region offset : wf s -> resolve_memory_region s ptr = Some (region, offset) ->
  scoped s (array region) /\ scoped s offset.
Proof.
  intros W. unfold resolve_memory_region. destruct (memory_regions s !! ptr) as [r|] eqn:R.
  - intros [= <- <-]. split; [by eapply wf_regions|scope].
  - destruct (gep_results s !! ptr) as [[base off]|] eqn:G; [|done]. cbn.
    pose proof (wf_geps s W _ _ _ G).
    destruct (memory_regions s !! base) as [r|] eqn:R1.
    + intros [= <- <-]. split; [by eapply wf_regions|done].
    + destruct (gep_results s !! base) as [[base2 off2]|] eqn:G2; [|done]. cbn.
      pose proof (wf_geps s W _ _ _ G2).
      destruct (memory_regions s !! base2) as [r|] eqn:R2; [|done]. cbn. intros [= <- <-].
      split; [by eapply wf_regions|scope].
Qed.

Lemma update_region_sound key f s :
  (forall a s', ext s s' -> scoped s' a -> scoped s' (f a)) -> sound any (update_region key f) s.
Proof.
  intros F. unfold update_region. apply sound_gets, sound_lift. intros r Hr. apply sound_gets.
  apply sound_modify. intros W.
  assert (S : scoped s (array r)) by (by eapply wf_regions).
  assert (S' : scoped s (f (array r))) by (by apply F).
  split; [|split; [by apply ext_same|done]]. apply wf_region; [done|]. cbn.
  unfold guard_array_update. destruct (expr_is_true _); [done|]. scope.
Qed.

Lemma check_bounds_sound what offset cnt (node : Node) s :
  scoped s offset -> sound any (check_bounds func module options what offset cnt node) s.
Proof. intros S. unfold check_bounds. steps. Qed.
#[local] Hint Resolve check_bounds_sound : bmc.

Lemma check_unknown_sound what (node : Node) s : sound any (check_unknown func module options what node) s.
Proof. unfold check_unknown. steps. Qed.
#[local] Hint Resolve check_unknown_sound : bmc.

Lemma modify_region_sound p r s : scoped s (array r) -> sound any (modify (set_region p r)) s.
Proof. intros S. apply sound_modify. intros W. split; [by apply wf_region|]. split; [by apply ext_same|done]. Qed.

Lemma declare_sound p sort s :
  sound (fun s' _ => scoped s' (expr_var (p +:+ "_" +:+ pretty (next_sym_id s)) sort))
    (modify (declare (p +:+ "_" +:+ pretty (next_sym_id s)) sort)) s.
Proof.
  apply sound_modify. intros W. split; [by apply wf_declare|]. split; [apply ext_declare|].
  apply scoped_var, declared_declare.
Qed.

Lemma alloca_sound (ty : Ty) cnt (node : Node) s : sound any (translate_alloca func module ty cnt node) s.
Proof.
  unfold translate_alloca. destruct (results node) as [|r rs]; [steps|]. step. step. step.
  apply sound_gets. eapply sound_bind; [apply (declare_sound "mem")|]. intros u s3 W3 X3 R3. cbn beta in R3.
  eapply (sound_bind any). { destruct cnt; steps. }
  intros n s4 W4 X4 _. advance s3 s4 X4. by apply modify_region_sound.
Qed.
#[local] Hint Resolve alloca_sound : bmc.

Lemma sum_indices_sound (f : Expr -> Expr) indices : (forall s e, scoped s e -> scoped s (f e)) ->
  forall total s, scoped s total -> sound scoped (sum_indices f indices total) s.
Proof.
  intros F. induction indices as [|i l IH]; intros total s S; cbn [sum_indices]; [steps|].
  step. apply IH. assert (scoped s0 (f a)) by (by apply F). scope.
Qed.

Lemma sum_id_sound indices total s : scoped s total -> sound scoped (sum_indices id indices total) s.
Proof. intros S. by apply sum_indices_sound. Qed.
#[local] Hint Resolve sum_id_sound : bmc.

Lemma set_gep_sound p b e s : scoped s e -> sound any (modify (set_gep p b e)) s.
Proof. intros S. apply sound_modify. intros W. split; [by apply wf_gep|]. split; [by apply ext_same|done]. Qed.
#[local] Hint Resolve set_gep_sound : bmc.

Lemma gep_sound (ty : Ty) base indices (node : Node) s : sound any (translate_gep func module options ty base indices node) s.
Proof.
  unfold translate_gep. step. destruct (results node) as [|r rs]; [steps|].
  eapply sound_bind. { apply sum_indices_sound; [|scope]. intros; scope. }
  intros total s1 W1 X1 R1. advance s0 s1 X1. step.
  eapply (sound_bind any). { destruct (bool_decide _); steps. }
  intros _ s3 W3 X3 _. advance s2 s3 X3. step; [|steps]. apply sound_gets.
  destruct (resolve_memory_region s3 base) as [[region off]|] eqn:Rg; [|steps].
  destruct (region_scoped s3 _ _ _ W3 Rg). destruct (count region); [|steps].
  eapply (sound_bind scoped). { destruct (bool_decide _); steps. }
  intros final s4 W4 X4 R4. steps.
Qed.
#[local] Hint Resolve gep_sound : bmc.

Lemma load_sound (ty : Ty) ptr (node : Node) s : sound any (translate_load func module options ty ptr node) s.
Proof.
  unfold translate_load. step. apply sound_gets.
  destruct (resolve_memory_region s0 ptr) as [[region off]|] eqn:Rg; [|steps].
  destruct (region_scoped s0 _ _ _ W Rg). steps.
Qed.
#[local] Hint Resolve load_sound : bmc.

Lemma store_sound (ty : Ty) ptr value (node : Node) s : sound any (translate_store func module options ty ptr value node) s.
Proof.
  unfold translate_store. step. step. apply sound_gets.
  destruct (find_region_key_for_ptr s1 ptr) as [key|]; [|steps]. apply sound_gets.
  set (off := match resolve_memory_region s1 ptr with Some _ => _ | None => _ end).
  assert (S : scoped s1 off).
  { unfold off. destruct (resolve_memory_region s1 ptr) as [[region off']|] eqn:Rg; [|scope].
    by destruct (region_scoped s1 _ _ _ W0 Rg). }
  apply sound_gets. step. apply update_region_sound. intros arr s' X' Sa. advance s2 s' X'. scope.
Qed.
#[local] Hint Resolve store_sound : bmc.

(** ** Expressions *)

Lemma scoped_bool s b : scoped s (bool_const b).
Proof. scope. Qed.

Lemma scoped_bits s z w : scoped s (bitvec_const z w).
Proof. scope. Qed.

Lemma normalize_scoped s e (ty : Ty) e' : normalize_expr_to_ty e ty = Some e' -> scoped s e -> scoped s e'.
Proof.
  unfold normalize_expr_to_ty. destruct (ty_to_sort ty) as [sort|]; [|done]. cbn. intros [= <-] S.
  destruct (bitvec_width sort) as [d|]; [|done]. destruct (bitvec_width (sort_of e)) as [w|]; [|done].
  repeat match goal with |- scoped _ (if ?b then _ else _) => destruct b end; scope.
Qed.

Lemma or_fresh_sound e (ty : Ty) s : (forall e', e = Some e' -> scoped s e') -> sound scoped (or_fresh e ty) s.
Proof. intros S. unfold or_fresh. destruct e as [e|]; [|steps]. apply sound_ret. intros _. by apply S. Qed.

Lemma eval_binop_sound op (ty : Ty) lhs rhs s :
  scoped s lhs -> scoped s rhs -> sound scoped (eval_binop op ty lhs rhs) s.
Proof.
  intros Sl Sr. unfold eval_binop. apply sound_lift. intros l L. apply sound_lift. intros r R.
  pose proof (normalize_scoped s lhs ty l L Sl). pose proof (normalize_scoped s rhs ty r R Sr).
  destruct (is_integer ty); [destruct op; steps|].
  destruct ty; try solve [steps]. destruct op; try solve [steps];
    apply or_fresh_sound; intros e' E; scope.
Qed.
#[local] Hint Resolve eval_binop_sound : bmc.

Definition scoped_option (s : FuncTranslator) (o : option Expr) : Prop := forall e, o = Some e -> scoped s e.

Lemma scoped_option_Some s e : scoped s e -> scoped_option s (Some e).
Proof. by intros S e' [= <-]. Qed.

Lemma scoped_option_None s : scoped_option s None.
Proof. done. Qed.
#[local] Hint Resolve scoped_option_Some scoped_option_None : bmc.

Lemma eval_icmp_sound op (ty : Ty) lhs rhs s :
  scoped s lhs -> scoped s rhs -> sound scoped_option (eval_icmp op ty lhs rhs) s.
Proof.
  intros Sl Sr. unfold eval_icmp. destruct (is_float ty); [by apply sound_ret|].
  apply sound_lift. intros l L. apply sound_lift. intros r R.
  pose proof (normalize_scoped s lhs ty l L Sl). pose proof (normalize_scoped s rhs ty r R Sr).
  destruct (negb _).
  - step. apply sound_ret. intros _. by apply scoped_option_Some.
  - apply sound_ret. intros _.
    destruct op; repeat match goal with |- context [if ?b then _ else _] => destruct b end; try done;
      apply scoped_option_Some; scope.
Qed.
#[local] Hint Resolve eval_icmp_sound : bmc.

Lemma no_overflow_scoped s op (ty : Ty) lhs rhs o :
  integer_binop_no_overflow_condition op ty lhs rhs options = Some o -> scoped s lhs -> scoped s rhs ->
  scoped_option s o.
Proof.
  unfold integer_binop_no_overflow_condition. destruct (negb _); [by intros [= <-]|].
  destruct (normalize_expr_to_ty lhs ty) as [l|] eqn:L; [|done].
  destruct (normalize_expr_to_ty rhs ty) as [r|] eqn:R; [|done]. cbn. intros [= <-] Sl Sr.
  pose proof (normalize_scoped s lhs ty l L Sl). pose proof (normalize_scoped s rhs ty r R Sr).
  intros e E. destruct op, (is_signed ty); try done;
    repeat match type of E with context [if ?b then _ else _] => destruct b end;
    cbn in E; try done; try (injection E as <-; scope);
    (destruct (bit_width_with ty HOST_POINTER_BITS); [|done]; cbn in E;
     destruct (bitvec_width (sort_of rhs)); [|done]; cbn in E; injection E as <-; scope).
Qed.

Lemma div_by_zero_scoped s op (ty : Ty) rhs o :
  integer_binop_div_by_zero_condition op ty rhs options = Some o -> scoped s rhs -> scoped_option s o.
Proof.
  unfold integer_binop_div_by_zero_condition. destruct (_ || _); [by intros [= <-]|].
  destruct (bit_width_with ty HOST_POINTER_BITS) as [w|]; [|by intros [= <-]].
  destruct (normalize_expr_to_ty rhs ty) as [r|] eqn:R; [|done]. cbn. intros [= <-] S.
  pose proof (normalize_scoped s rhs ty r R S). apply scoped_option_Some. scope.
Qed.

Lemma option_violation_sound kind o msg (node : Node) s (f : Expr -> Expr) :
  scoped_option s o -> (forall e, scoped s e -> scoped s (f e)) ->
  sound any match o with Some e => add_violation module kind (f e) msg node | None => mret tt end s.
Proof.
  intros S F. destruct o as [e|]; [|steps]. pose proof (F e (S e eq_refl)). steps.
Qed.

Lemma integer_binop_sound op (ty : Ty) lhs rhs (node : Node) s :
  sound any (translate_integer_binop func module options op ty lhs rhs node) s.
Proof.
  unfold translate_integer_binop. step. step. apply sound_lift. intros o O.
  pose proof (no_overflow_scoped s1 _ _ _ _ _ O ltac:(done) ltac:(done)) as So.
  eapply (sound_bind any). { apply (option_violation_sound _ o _ _ _ (mk_unary Not)); [done|]. intros; scope. }
  intros _ s2 W2 X2 _. advance s1 s2 X2. apply sound_lift. intros z Z.
  pose proof (div_by_zero_scoped s2 _ _ _ _ Z ltac:(done)) as Sz.
  eapply (sound_bind any). { by apply (option_violation_sound _ z _ _ _ id). }
  intros _ s3 W3 X3 _. advance s2 s3 X3. steps.
Qed.
#[local] Hint Resolve integer_binop_sound : bmc.

(** ** Calls, returns, atomics *)

Lemma mapM_sound {A B} (Q : FuncTranslator -> B -> Prop) (f : A -> M B) l :
  (forall s s' b, ext s s' -> Q s b -> Q s' b) -> (forall x s, sound Q (f x) s) ->
  forall s, sound (fun s' bs => List.Forall (Q s') bs) (mapM f l) s.
Proof.
  intros Mono F. induction l as [|x l IH]; intros s; cbn [mapM].
  - apply sound_ret. constructor.
  - eapply sound_bind; [apply F|]. intros b s1 W1 X1 Qb. eapply sound_bind; [apply IH|].
    intros bs s2 W2 X2 Qbs. apply sound_ret. intros _. constructor; [by eapply Mono|done].
Qed.

Lemma mapM_scoped {A} (f : A -> M Expr) l s : (forall x s, sound scoped (f x) s) ->
  sound (fun s' es => List.Forall (scoped s') es) (mapM f l) s.
Proof. intros F. apply mapM_sound; [|done]. intros. by eapply scoped_ext. Qed.

Lemma mapM_inv {A B} (I : FuncTranslator -> Prop) (f : A -> M B) l :
  (forall s s', ext s s' -> I s -> I s') -> (forall x s, I s -> sound any (f x) s) ->
  forall s, I s -> sound any (mapM f l) s.
Proof.
  intros Mono F. induction l as [|x l IH]; intros s Is; cbn [mapM]; [steps|].
  eapply sound_bind; [by apply F|]. intros b s1 W1 X1 _.
  eapply sound_bind; [apply IH; by eapply Mono|]. intros bs s2 W2 X2 _. steps.
Qed.

Lemma symbolic_call_sound callee args (node : Node) s : sound any (symbolic_call module callee args node) s.
Proof.
  unfold symbolic_call. step. step. eapply sound_bind.
  { apply mapM_scoped. intros [i v] s'. steps. }
  intros es s2 W2 X2 _. steps.
Qed.
#[local] Hint Resolve symbolic_call_sound : bmc.

Lemma call_sound callee args (node : Node) s : sound any (translate_call func module callee args node) s.
Proof. unfold translate_call. steps. Qed.
#[local] Hint Resolve call_sound : bmc.

Lemma bounded_output_scoped s (ty : Ty) e lo hi c :
  bounded_output_out_of_range ty e lo hi = Some c -> scoped s e -> scoped s c.
Proof.
  unfold bounded_output_out_of_range. destruct (negb _); [done|].
  destruct (bit_width_with _ _); [|done]. cbn. destruct (exact_f64_to_i128 lo); [|done]. cbn.
  destruct (exact_f64_to_i128 hi); [|done]. cbn. destruct (_ || _); [done|].
  intros E S. destruct (is_signed ty); injection E as <-; scope.
Qed.

Lemma check_bounded_sound lo hi (node : Node) es : forall i s, List.Forall (scoped s) es ->
  sound any (check_bounded_output func module lo hi i es node) s.
Proof.
  induction es as [|e es IH]; intros i s S; cbn [check_bounded_output]; [steps|].
  apply Forall_cons in S as [Se Ses]. eapply (sound_bind any).
  - destruct (_ ≫= _) as [c|] eqn:C; [|steps].
    apply bind_Some in C as (ty & _ & C). pose proof (bounded_output_scoped s _ _ _ _ _ C Se). steps.
  - intros _ s' W X _. advance s s' X. by apply IH.
Qed.

Lemma return_sound vals (node : Node) s : sound any (translate_return func module vals node) s.
Proof.
  unfold translate_return. eapply sound_bind.
  { destruct (func_types module !! func_ty func); apply mapM_scoped; [intros [v ty] s'|intros v s']; steps. }
  intros es s1 W1 X1 Ses. eapply sound_bind; [|intros; steps].
  apply (mapM_inv (fun s' => List.Forall (scoped s') es)); [| |exact Ses].
  - intros s2 s3 X S. by advance s2 s3 X.
  - intros p s2 S. destruct p; try steps. by apply check_bounded_sound.
Qed.
#[local] Hint Resolve return_sound : bmc.

Lemma rmw_value_scoped s op a b : scoped s a -> scoped s b -> scoped s (rmw_value op a b).
Proof. intros A B. destruct op; cbn; scope. Qed.

(** The value read from a region, or a fresh one *)
Lemma read_sound s0 s ptr p (ty : Ty) : wf s0 -> ext s0 s ->
  sound scoped match resolve_memory_region s0 ptr with
    | Some (region, offset) => mret (mk_select (array region) offset)
    | None => fresh_symbolic p ty
    end s.
Proof.
  intros W X. destruct (resolve_memory_region s0 ptr) as [[region off]|] eqn:Rg; [|steps].
  destruct (region_scoped s0 _ _ _ W Rg) as [A B]. advance s0 s X. steps.
Qed.

(** A store through a pointer: the value and the offset are scoped *)
Lemma store_back_sound s ptr f : (forall a s', ext s s' -> scoped s' a -> scoped s' (f a)) ->
  sound any
    (region_key ← gets (fun s => find_region_key_for_ptr s ptr);
     match region_key with Some key => update_region key f | None => mret tt end) s.
Proof. intros F. apply sound_gets. destruct (find_region_key_for_ptr s ptr); [by apply update_region_sound|steps]. Qed.

Lemma atomic_rmw_sound op (ty : Ty) ptr value (node : Node) s :
  sound any (translate_atomic_rmw func module op ty ptr value node) s.
Proof.
  unfold translate_atomic_rmw. step. apply sound_gets. eapply sound_bind; [by apply read_sound|].
  intros loaded s1 W1 X1 R1. assert (X01 := X1). advance s0 s1 X1. step.
  eapply (sound_bind scoped).
  { destruct op; try (destruct (negb _); steps); apply sound_ret; intros _; by apply rmw_value_scoped. }
  intros new s3 W3 X3 R3.
  destruct (resolve_memory_region s0 ptr) as [[region off]|] eqn:Rg; [|steps].
  destruct (region_scoped s0 _ _ _ W Rg) as [_ B].
  apply (scoped_ext s0 s3) in B; [|etrans; [exact X01|by etrans]].
  apply store_back_sound. intros arr s' X' Sa. advance s3 s' X'. scope.
Qed.
#[local] Hint Resolve atomic_rmw_sound : bmc.

Lemma cmpxchg_sound (ty : Ty) ptr expected desired (node : Node) s :
  sound any (translate_cmpxchg func module ty ptr expected desired node) s.
Proof.
  unfold translate_cmpxchg. step. step. apply sound_gets. eapply sound_bind; [by apply read_sound|].
  intros current s2 W2 X2 R2. advance s1 s2 X2.
  eapply (sound_bind scoped). { destruct (_ || _); steps. }
  intros success s3 W3 X3 R3. advance s2 s3 X3. cbn zeta.
  eapply (sound_bind any). { destruct (results node); steps. }
  intros _ s4 W4 X4 _. advance s3 s4 X4.
  eapply (sound_bind any). { destruct (results node) as [|? [|? ?]]; steps. }
  intros _ s5 W5 X5 _. advance s4 s5 X5. apply sound_gets.
  destruct (find_region_key_for_ptr s5 ptr) as [key|]; [|steps]. apply sound_gets.
  set (off := match resolve_memory_region s5 ptr with Some _ => _ | None => _ end).
  assert (S : scoped s5 off).
  { unfold off. destruct (resolve_memory_region s5 ptr) as [[region off']|] eqn:Rg; [|scope].
    by destruct (region_scoped s5 _ _ _ W5 Rg). }
  apply update_region_sound. intros arr s' X' Sa. advance s5 s' X'.
  assert (scoped s' (mk_store arr off a0)) by scope. scope.
Qed.
#[local] Hint Resolve cmpxchg_sound : bmc.

Lemma overflow_sound op (ty : Ty) lhs rhs (node : Node) s :
  sound any (translate_overflow func module options op ty lhs rhs node) s.
Proof.
  unfold translate_overflow. step. step. step.
  eapply (sound_bind any). { destruct (results node); steps. }
  intros _ s3 W3 X3 _. advance s2 s3 X3. destruct (results node) as [|r1 [|r2 rs]]; try solve [steps].
  apply sound_lift. intros o O. pose proof (no_overflow_scoped s3 _ _ _ _ _ O ltac:(done) ltac:(done)) as So.
  destruct o as [e|]; [|steps]. pose proof (So e eq_refl). steps.
Qed.
#[local] Hint Resolve overflow_sound : bmc.

(** ** Instructions *)

Lemma lane_scoped s (ty : Ty) v w e : vector_lane_const_to_bv ty v w = Some e -> scoped s e.
Proof.
  unfold vector_lane_const_to_bv. intros E.
  destruct ty, v; try done; try (destruct (is_integer _); [|done]); try (destruct (is_float _); [|done]);
    try (injection E as <-; scope);
    (apply bind_Some in E as (l & L & E); (destruct (bool_decide _); [|done]); injection E as <-;
     unfold float_const_bits in L; try done; try (injection L as <-; scope);
     (destruct (_ =? _)%Z in L; [|done]); injection L as <-; scope).
Qed.

Lemma const_scoped s (ty : Ty) v e : const_to_expr ty v = Some e -> scoped s e.
Proof.
  destruct v; cbn; try done; try (intros [= <-]; scope).
  - destruct (_ =? _)%N; [|done]. intros [= <-]. scope.
  - unfold float_const_bits. destruct ty; try done; [|by intros [= <-]; scope].
    destruct (_ =? _)%Z; [|done]. intros [= <-]. scope.
  - unfold vector_const_to_expr. destruct ty; try done.
    destruct (_ || _); [done|]. intros (w & _ & E)%bind_Some. destruct (w =? 0)%N; [done|].
    apply bind_Some in E as (lanes_e & L & E). apply mapM_Some in L.
    assert (S : List.Forall (scoped s) (rev lanes_e)).
    { apply List.Forall_rev. clear E. induction L; constructor; [by eapply lane_scoped|done]. }
    destruct (rev lanes_e) as [|first rest]; [done|]. injection E as <-.
    apply Forall_cons in S as [Sf Sr]. revert first Sf. induction rest as [|x rest IH]; intros first Sf; [done|].
    apply Forall_cons in Sr as [Sx Sr]. apply (IH Sr). scope.
Qed.

Theorem node_sound (node : Node) s : sound any (translate_node func module options node) s.
Proof.
  unfold translate_node. destruct (inst node); try solve [steps].
  - destruct (is_symbol_addr value); [steps|]. destruct (const_to_expr ty value) as [e|] eqn:C; [|steps].
    pose proof (const_scoped s _ _ _ C). steps.
  - step. step; [|steps]. apply sound_gets. apply sound_modify. intros _.
    assert (scoped s0 (implied_under_guard (current_guard s0) a)) by scope.
    split; [by apply wf_constrain|]. split; [|done]. apply ext_same; try done. by eexists.
  - apply sound_gets. eapply (sound_bind scoped).
    { destruct (ptr_parts s !! ptr) as [[d m]|] eqn:P; [|steps]. apply sound_ret. intros W.
      by destruct (wf_parts s W _ _ _ P). }
    intros; steps.
  - apply sound_gets. eapply (sound_bind scoped).
    { destruct (ptr_parts s !! ptr) as [[d m]|] eqn:P; [|destruct metadata_ty; steps]. apply sound_ret. intros W.
      by destruct (wf_parts s W _ _ _ P). }
    intros; steps.
  - step. eapply (sound_bind scoped). { destruct metadata_ty; steps. }
    intros m s1 W1 X1 R1. advance s0 s1 X1. destruct (results node); [steps|]. step.
    apply sound_modify. intros _. split; [by apply wf_set_parts|]. split; [by apply ext_same|done].
  - step. destruct (results node); [steps|]. step. apply sound_gets.
    destruct (ptr_parts s1 !! operand) as [[d m]|] eqn:P; [|steps]. apply sound_modify. intros _.
    destruct (wf_parts s1 W0 _ _ _ P).
    split; [by apply wf_set_parts|]. split; [by apply ext_same|done].
Qed.

End Sound.

End BmcSound.
