(* ===== verification/BmcEdges.v ===== *)
(** * The edges a terminator records

    The conditions of the edges out of a block: under every valuation exactly one of
    them holds when the guard of the block does, and none otherwise
    ([outgoing_edges_spec]). *)

From S2P Require Import Prelude Artifact AyExpr Chc Bmc BvArith AyBuild AyTry F64 TrustIr AyEncode BmcExpr BmcOrder BmcTranslate BmcInvariant BmcSound.

Module BmcEdges.
Import AyBuild AyTry AyEncode TrustIr BmcExpr BmcOrder BmcOrderSpec BmcTranslate BmcInvariant BmcSound.

(** ** Counting *)

Fixpoint count_true (bs : list bool) : nat :=
  match bs with [] => 0 | b :: bs => (if b then 1 else 0) + count_true bs end.

Lemma count_true_app l l' : count_true (l ++ l') = count_true l + count_true l'.
Proof. induction l as [|b l IH]; cbn; [done|]. rewrite IH. lia. Qed.

Lemma count_true_none l : count_true l = 0 <-> existsb id l = false.
Proof. induction l as [|b l IH]; cbn; [done|]. destruct b; cbn; [split; [lia|done]|exact IH]. Qed.

Lemma count_true_and g l : count_true (map (andb g) l) = if g then count_true l else 0.
Proof. induction l as [|b l IH]; cbn; [by destruct g|]. rewrite IH. by destruct g, b. Qed.

(** A choice with its default *)
Lemma count_with_default l : count_true l <= 1 -> count_true (l ++ [negb (existsb id l)]) = 1.
Proof.
  intros L. rewrite count_true_app. cbn. destruct (existsb id l) eqn:E; cbn.
  - assert (count_true l <> 0) by (rewrite count_true_none; by rewrite E). lia.
  - apply count_true_none in E. lia.
Qed.

(** At most one holds when no two do. *)
Lemma count_at_most (l : list bool) :
  (forall i j, l !! i = Some true -> l !! j = Some true -> i = j) -> count_true l <= 1.
Proof.
  induction l as [|b l IH]; intros U; cbn; [lia|].
  assert (L : count_true l <= 1).
  { apply IH. intros i j Hi Hj. pose proof (U (S i) (S j) Hi Hj). lia. }
  destruct b; [|lia]. destruct (count_true l) eqn:E; [lia|exfalso].
  assert (X : existsb id l = true).
  { destruct (existsb id l) eqn:X; [done|]. apply count_true_none in X. lia. }
  apply existsb_exists in X as (t & Ht & T). apply list_elem_of_In, list_elem_of_lookup in Ht as [j Hj].
  destruct t; [|done]. pose proof (U 0 (S j) eq_refl Hj). lia.
Qed.

Section Edges.
Context `{AyEncode} `{TrustIr} `{F64.NanCasts} `{!AySem} `{!AyEval} `{!AyEncodeEval}.
Context (func : Function_ Payload) (module : Module_ Payload) (options : TranslateOptions).

Notation Node := (InstrNode Payload).
Notation Incoming := (gmap BlockId (list IncomingEdge)).

(** The declared sorts are those of the valuations. *)
Definition sorts_agree (s : FuncTranslator) : Prop :=
  forall n sort, Chc.DConst n sort ∈ t_decls s -> var_sort n = sort.

Lemma sorts_agree_grows s s' : grows s s' -> sorts_agree s' -> sorts_agree s.
Proof. intros [[k E] _ _ _] A n sort Hn. apply A. rewrite E. apply elem_of_app. by left. Qed.

Lemma sorts_agree_ext s s' : ext s s' -> sorts_agree s' -> sorts_agree s.
Proof. intros [G _ _]. by apply sorts_agree_grows. Qed.

(** ** Guards *)

Lemma expr_is_true_spec e : expr_is_true e = true -> e = bool_const true.
Proof. apply bool_decide_eq_true. Qed.

Lemma eval_and_guard rho g c x y : eval rho g = vbool x -> eval rho c = vbool y ->
  eval rho (and_guard g c) = vbool (x && y).
Proof.
  intros G C. unfold and_guard. destruct (expr_is_true g) eqn:E; [|destruct (expr_is_true c) eqn:E'].
  - apply expr_is_true_spec in E as ->. rewrite eval_built_bool in G. apply vbool_inj in G as <-. done.
  - apply expr_is_true_spec in E' as ->. rewrite eval_built_bool in C. apply vbool_inj in C as <-.
    by rewrite andb_true_r.
  - by apply eval_mk_and.
Qed.

Lemma eval_implied rho g c x y : eval rho g = vbool x -> eval rho c = vbool y ->
  eval rho (implied_under_guard g c) = vbool (implb x y).
Proof.
  intros G C. unfold implied_under_guard. destruct (expr_is_true g) eqn:E; [|by apply eval_mk_implies].
  apply expr_is_true_spec in E as ->. rewrite eval_built_bool in G. by apply vbool_inj in G as <-.
Qed.

(** A violation under a guard is satisfied only where the guard is. *)
Lemma under_guard rho g v : under g v -> is_true (eval rho (Bmc.condition v)) -> is_true (eval rho g).
Proof.
  intros [c ->]. unfold and_guard. destruct (expr_is_true g) eqn:E; [|destruct (expr_is_true c) eqn:E'].
  - apply expr_is_true_spec in E as ->. intros _. rewrite eval_built_bool. by apply is_true_vbool.
  - done.
  - intros T. by apply mk_and_true in T as [T _].
Qed.

(** ** Fresh Booleans *)

Lemma fresh_bool p s e s' : fresh_symbolic p (Ty.Bool : Ty.Ty Payload) s = Some (e, s') ->
  exists n, e = expr_var n sort_bool /\ s' = declare n sort_bool s.
Proof. cbn. intros [= <- <-]. by eexists. Qed.

Lemma declared_bool s n rho : admissible rho -> sorts_agree s -> Chc.DConst n sort_bool ∈ t_decls s ->
  exists b, eval rho (expr_var n sort_bool) = vbool b.
Proof.
  intros A S D. apply bool_value; [done|]. apply bool_sort_only, sort_of_var. by apply S.
Qed.

(** An expression that is Boolean in every model of a state's sorts *)
Definition boolean (s : FuncTranslator) (e : Expr) : Prop :=
  forall rho, admissible rho -> sorts_agree s -> exists b, eval rho e = vbool b.

Lemma boolean_ext s s' e : ext s s' -> boolean s e -> boolean s' e.
Proof. intros X B rho A S. apply B; [done|]. by eapply sorts_agree_ext. Qed.

Lemma fresh_bool_sound p s :
  sound (fun s' e => scoped s' e /\ boolean s' e) (fresh_symbolic p (Ty.Bool : Ty.Ty Payload)) s.
Proof.
  intros e s' E W. destruct (fresh_sound p Ty.Bool s e s' E W) as (W' & X & S). split_and!; try done.
  apply fresh_bool in E as (n & -> & ->). intros rho A Sa. eapply declared_bool; [done|done|].
  cbn. apply elem_of_app. right. by apply list_elem_of_here.
Qed.

(** ** Recorded edges *)

Definition edge_scoped (s : FuncTranslator) (p : BlockId * IncomingEdge) : Prop :=
  scoped s (e_guard p.2) /\ List.Forall (scoped s) (e_args p.2).

Lemma edge_scoped_ext s s' p : ext s s' -> edge_scoped s p -> edge_scoped s' p.
Proof. intros X [G A]. split; [by eapply scoped_ext|]. by advance s s' X. Qed.

Definition push_all (incoming : Incoming) (es : list (BlockId * IncomingEdge)) : Incoming :=
  foldl (fun inc p => push_edge p.1 p.2 inc) incoming es.

Lemma push_all_app inc es es' : push_all inc (es ++ es') = push_all (push_all inc es) es'.
Proof. apply foldl_app. Qed.

(** The edges [es] were recorded, all of whose expressions are scoped, with these targets
    and guards. *)
Definition recorded (inc : Incoming) (guards : list (BlockId * Expr)) (s : FuncTranslator) (inc' : Incoming) : Prop :=
  exists es, inc' = push_all inc es /\ List.Forall (edge_scoped s) es /\
    map (fun p => (p.1, e_guard p.2)) es = guards.

Lemma recorded_ext inc gs s s' inc' : ext s s' -> recorded inc gs s inc' -> recorded inc gs s' inc'.
Proof.
  intros X (es & E & F & G). exists es. split_and!; try done. eapply List.Forall_impl; [|exact F].
  intros p. by apply edge_scoped_ext.
Qed.

Lemma recorded_app inc gs inc1 gs' s inc2 :
  recorded inc gs s inc1 -> recorded inc1 gs' s inc2 -> recorded inc (gs ++ gs') s inc2.
Proof.
  intros (es & -> & F & <-) (es' & -> & F' & <-). exists (es ++ es').
  rewrite push_all_app, map_app. split_and!; try done. by apply Forall_app.
Qed.

Definition edge_guard (pred_guard : Expr) (cond : option Expr) : Expr :=
  match cond with None => pred_guard | Some cond => and_guard pred_guard cond end.

Lemma record_edge_sound target args cond g inc s :
  scoped s g -> scoped_option s cond ->
  sound (recorded inc [(target, edge_guard g cond)]) (record_edge func target args cond g inc) s.
Proof.
  intros Sg Sc. unfold record_edge, edge_args. eapply sound_bind.
  { apply mapM_scoped. intros [arg [v ty]] s'. intros e s2 E W. revert e s2 E W.
    eapply sound_bind; [apply resolve_sound|]. intros e s1 W1 X1 R1 e' s2 E W.
    unfold lift in E. destruct (normalize_expr_to_ty e ty) as [n|] eqn:N; [|done]. injection E as <- <-.
    split; [done|]. split; [done|]. by eapply normalize_scoped. }
  intros es s1 W1 X1 R1. apply sound_ret. intros _. eexists [(target, _)]. split_and!; [done| |done].
  constructor; [|constructor]. split; [|done]. cbn. advance s s1 X1.
  destruct cond as [c|]; cbn; [|done]. apply scoped_and_guard; [done|].
  eapply scoped_ext; [exact X1|]. by apply Sc.
Qed.

Lemma record_cases_sound guard cases : forall conds inc s,
  scoped s guard -> List.Forall (scoped s) conds ->
  sound (recorded inc (zip_with (fun case cond => (case_target case, and_guard guard cond)) cases conds))
    (record_cases func cases conds guard inc) s.
Proof.
  induction cases as [|case cases IH]; intros conds inc s Sg Sc; cbn [record_cases zip_with].
  { apply sound_ret. intros _. by exists []. }
  destruct conds as [|cond conds]; [apply sound_ret; intros _; by exists []|].
  apply Forall_cons in Sc as [Sc Scs].
  eapply sound_bind; [apply record_edge_sound; [done|by apply scoped_option_Some]|].
  intros inc1 s1 W1 X1 R1. advance s s1 X1.
  eapply sound_weaken; [apply IH; done|]. intros inc2 s2 W2 X2 R2.
  by apply (recorded_app _ [_] inc1), R2; eapply recorded_ext.
Qed.

(** ** The conditions of a switch *)

Lemma switch_case_scalar case selector c : switch_case_expr case selector = Some c ->
  is_scalar_value (value c) = true.
Proof.
  unfold switch_case_expr. destruct (is_bool_sort _).
  - destruct case; try done. intros [= <-]. by rewrite value_bool_const.
  - intros (w & Hw & E)%bind_Some. destruct case; try done. injection E as <-.
    apply bitvec_sort_only in Hw as [_ W]. by rewrite value_bitvec_const.
Qed.

Lemma switch_constants_spec selector cases : forall acc cs, switch_constants selector acc cases = Some cs ->
  NoDup acc -> (forall c, c ∈ acc -> is_scalar_value (value c) = true) ->
  NoDup cs /\ (forall c, c ∈ cs -> is_scalar_value (value c) = true) /\ length cs = length acc + length cases.
Proof.
  induction cases as [|case cases IH]; intros acc cs; cbn [switch_constants].
  - intros [= <-] N S. split_and!; [done|done|cbn; lia].
  - intros (c & C & E)%bind_Some N S. destruct (bool_decide _) eqn:B; [done|].
    apply bool_decide_eq_false in B. destruct (IH _ _ E) as (N' & S' & L).
    + apply NoDup_app. split_and!; [done| |apply NoDup_singleton].
      intros x Hx Hc. apply list_elem_of_singleton in Hc as ->. done.
    + intros x [Hx|Hx]%elem_of_app; [by apply S|]. apply list_elem_of_singleton in Hx as ->.
      by eapply switch_case_scalar.
    + split_and!; [done|done|]. rewrite L, length_app. cbn. lia.
Qed.

(** Conditions with Boolean values of which at most one holds *)
Definition exclusive (s : FuncTranslator) (conds : list Expr) : Prop :=
  forall rho, admissible rho -> sorts_agree s ->
  exists bs, map (eval rho) conds = map vbool bs /\ count_true bs <= 1.

Lemma exclusive_ext s s' conds : ext s s' -> exclusive s conds -> exclusive s' conds.
Proof. intros X B rho A S. apply B; [done|]. by eapply sorts_agree_ext. Qed.

Lemma constants_exclusive s selector cs : NoDup cs -> (forall c, c ∈ cs -> is_scalar_value (value c) = true) ->
  exclusive s (map (mk_eq selector) cs).
Proof.
  intros N S rho A _.
  assert (G : exists bs, map (eval rho) (map (mk_eq selector) cs) = map vbool bs /\
    forall i, bs !! i = Some true -> exists c, cs !! i = Some c /\ eval rho selector = eval rho c).
  { clear N S. induction cs as [|c cs (bs & E & T)]; [by exists []|].
    destruct (eval_mk_eq rho selector c) as (t & Et & It). exists (t :: bs). cbn. split; [by rewrite Et, E|].
    intros [|i]; cbn; [|apply T]. intros [= ->]. exists c. split; [done|by apply It]. }
  destruct G as (bs & E & T). exists bs. split; [done|]. apply count_at_most. intros i j Hi Hj.
  destruct (T i Hi) as (c & Ci & Ei), (T j Hj) as (d & Dj & Ej).
  assert (c = d) as ->.
  { apply (scalar_const_eq rho); [by apply S; eapply list_elem_of_lookup_2|by apply S; eapply list_elem_of_lookup_2|].
    by rewrite <- Ei. }
  by eapply NoDup_lookup.
Qed.

(** The first pick that holds *)
Fixpoint first_pick (before : bool) (ps : list bool) : list bool :=
  match ps with [] => [] | p :: ps => (before && p) :: first_pick (before && negb p) ps end.

Lemma first_pick_count ps : forall before, count_true (first_pick before ps) <= if before then 1 else 0.
Proof.
  induction ps as [|p ps IH]; intros before; cbn; [destruct before; lia|].
  pose proof (IH (before && negb p)). destruct before, p; cbn in *; lia.
Qed.

Lemma eval_prioritised rho picks : forall none_before before ps,
  match none_before with None => before = true | Some e => eval rho e = vbool before end ->
  map (eval rho) picks = map vbool ps ->
  map (eval rho) (prioritised none_before picks) = map vbool (first_pick before ps).
Proof.
  induction picks as [|pick picks IH]; intros none_before before [|p ps] B E; try done.
  cbn in E. injection E as Ep Es. cbn [prioritised first_pick map].
  pose proof (eval_mk_not rho pick p Ep) as Np. f_equal.
  - destruct none_before as [e|]; [by apply eval_mk_and|by subst before].
  - apply IH; [|done]. destruct none_before as [e|]; [by apply eval_mk_and|by subst before].
Qed.

Lemma booleans s picks rho : List.Forall (boolean s) picks -> admissible rho -> sorts_agree s ->
  exists ps, map (eval rho) picks = map vbool ps.
Proof.
  intros B A S. induction B as [|e es Be _ (ps & E)]; [by exists []|].
  destruct (Be rho A S) as [b Eb]. exists (b :: ps). cbn. by rewrite Eb, E.
Qed.

Lemma prioritised_scoped s picks : forall none_before, scoped_option s none_before ->
  List.Forall (scoped s) picks -> List.Forall (scoped s) (prioritised none_before picks).
Proof.
  induction picks as [|pick picks IH]; intros nb Snb S; cbn; constructor; apply Forall_cons in S as [Sp Ss].
  - destruct nb as [e|]; [|done]. pose proof (Snb e eq_refl). scope.
  - apply IH; [|done]. apply scoped_option_Some. destruct nb as [e|]; [|scope]. pose proof (Snb e eq_refl). scope.
Qed.

Lemma prioritised_length picks : forall nb, length (prioritised nb picks) = length picks.
Proof. induction picks as [|p picks IH]; intros nb; cbn; [done|]. by rewrite IH. Qed.

Lemma mapM_length {A B} (Q : FuncTranslator -> list B -> Prop) (f : A -> M B) l s :
  sound Q (mapM f l) s -> sound (fun s' bs => Q s' bs /\ length bs = length l) (mapM f l) s.
Proof.
  intros Hs bs s' E W. destruct (Hs bs s' E W) as (W' & X & Qb). split_and!; try done. clear - E.
  revert s bs s' E. induction l as [|x l IH]; intros s bs s'; cbn [mapM].
  - by intros [= <- <-].
  - unfold mbind at 1, M_bind at 1. intros ([b s1] & _ & E)%bind_Some.
    unfold mbind at 1, M_bind at 1 in E. apply bind_Some in E as ([bs' s2] & E1 & E2).
    injection E2 as <- <-. cbn. f_equal. by eapply IH.
Qed.

(** The conditions of the cases, with the default *)
Record conditions (n : nat) (s : FuncTranslator) (conds : list Expr) : Prop := {
  conds_scoped : List.Forall (scoped s) conds;
  conds_exclusive : exclusive s conds;
  conds_length : length conds = n;
}.

Lemma switch_conditions_sound selector cases (node : Node) s : scoped s selector ->
  sound (conditions (length cases)) (switch_conditions func module selector cases node) s.
Proof.
  intros Ss. unfold switch_conditions. destruct (switch_constants selector [] cases) as [cs|] eqn:E.
  - apply sound_ret. intros _. apply switch_constants_spec in E as (N & S & L); [|constructor|].
    2: { intros c Hc. by apply elem_of_nil in Hc. }
    split; [|by apply constants_exclusive|by rewrite length_map].
    apply List.Forall_map, Forall_forall. intros c Hc.
    assert (scoped s c); [|scope]. intros n O. by destruct (scalar_no_vars c n (S c Hc)).
  - eapply sound_bind; [apply unsupported_sound|]. intros _ s1 W1 X1 _.
    eapply sound_bind.
    { apply mapM_length, (mapM_sound (fun s' e => scoped s' e /\ boolean s' e)).
      - intros s2 s3 b X [S B]. split; [by eapply scoped_ext|by eapply boolean_ext].
      - intros _ s'. apply fresh_bool_sound. }
    intros picks s2 W2 X2 [F Len]. intros r s3 E3 W3. injection E3 as <- <-. split; [done|]. split; [done|].
    assert (Sc : List.Forall (scoped s2) picks) by (eapply List.Forall_impl; [|exact F]; by intros ? [? _]).
    assert (Bo : List.Forall (boolean s2) picks) by (eapply List.Forall_impl; [|exact F]; by intros ? [_ ?]).
    split.
    + by apply prioritised_scoped.
    + intros rho A S. destruct (booleans s2 picks rho Bo A S) as (ps & Ep). exists (first_pick true ps).
      split; [by apply eval_prioritised|apply (first_pick_count ps true)].
    + by rewrite prioritised_length.
Qed.

(** ** The edges out of a block *)

Lemma default_scoped s conds : List.Forall (scoped s) conds -> scoped_option s (default_condition conds).
Proof.
  intros S. destruct conds as [|c [|c' conds]]; cbn; [done| |].
  - apply Forall_cons in S as [Sc _]. apply scoped_option_Some. scope.
  - apply scoped_option_Some. eapply scoped_made; [apply made_and_many|]. intros d Hd.
    apply (list_elem_of_fmap (mk_unary Not) (c :: c' :: conds)) in Hd as (e & -> & He). eapply Forall_forall in S; [|exact He]. scope.
Qed.

Lemma default_eval rho guard g conds bs : eval rho guard = vbool g -> map (eval rho) conds = map vbool bs ->
  eval rho (edge_guard guard (default_condition conds)) = vbool (g && negb (existsb id bs)).
Proof.
  intros G E. destruct conds as [|c [|c' conds]], bs as [|b [|b' bs]]; try done.
  - cbn. by rewrite andb_true_r.
  - injection E as Ec. cbn. rewrite orb_false_r. apply eval_and_guard; [done|by apply eval_mk_not].
  - cbn [default_condition edge_guard]. apply eval_and_guard; [done|].
    rewrite (eval_and_many rho _ (map negb (b :: b' :: bs))).
    + f_equal. generalize (b :: b' :: bs). intros l. induction l as [|x l IH]; [done|]. cbn.
      rewrite IH. by destruct x.
    + revert E. generalize (c :: c' :: conds), (b :: b' :: bs). intros l. induction l as [|x l IH]; intros [|y l'] E; try done.
      cbn in *. injection E as E1 E2. f_equal; [by apply eval_mk_not|by apply IH].
Qed.

(** A terminator recorded edges to some of the targets; where its guard holds, exactly
    one of them is taken. *)
Definition outgoing (guard : Expr) (targets : list BlockId) (inc : Incoming) (s : FuncTranslator) (inc' : Incoming) : Prop :=
  exists es, inc' = push_all inc es /\ List.Forall (edge_scoped s) es /\
    (forall t, t ∈ map fst es -> t ∈ targets) /\
    forall rho g, admissible rho -> sorts_agree s -> eval rho guard = vbool g ->
    exists bs, map (fun p => eval rho (e_guard p.2)) es = map vbool bs /\ count_true bs = if g then 1 else 0.

(** Recorded guards that are the conjunctions of one guard with conditions *)
Lemma recorded_outgoing guard gs inc s inc' targets :
  recorded inc gs s inc' -> (forall t, t ∈ map fst gs -> t ∈ targets) ->
  (forall rho g, admissible rho -> sorts_agree s -> eval rho guard = vbool g ->
    exists cs, map (eval rho) (map snd gs) = map vbool (map (andb g) cs) /\ count_true cs = 1) ->
  outgoing guard targets inc s inc'.
Proof.
  intros (es & E & F & <-) T C. exists es. split_and!; [done|done| |].
  - intros t Ht. apply T. by rewrite map_map.
  - intros rho g A S G. destruct (C rho g A S G) as (cs & Ec & N). exists (map (andb g) cs).
    rewrite <- Ec, !map_map. split; [done|]. rewrite count_true_and. by destruct g.
Qed.

Lemma switch_guards guard (cases : list SwitchCase) : forall conds, length conds = length cases ->
  map snd (zip_with (fun case cond => (case_target case, and_guard guard cond)) cases conds) =
    map (and_guard guard) conds /\
  map fst (zip_with (fun case cond => (case_target case, and_guard guard cond)) cases conds) =
    map case_target cases.
Proof.
  induction cases as [|case cases IH]; intros [|cond conds] L; try done. cbn in *.
  destruct (IH conds ltac:(lia)) as [-> ->]. done.
Qed.

Lemma eval_and_guards rho guard g conds bs : eval rho guard = vbool g -> map (eval rho) conds = map vbool bs ->
  map (eval rho) (map (and_guard guard) conds) = map vbool (map (andb g) bs).
Proof.
  intros G. revert bs. induction conds as [|c conds IH]; intros [|b bs] E; try done.
  cbn in *. injection E as E1 E2. f_equal; [by apply eval_and_guard|by apply IH].
Qed.

Theorem outgoing_edges_spec (node : Node) guard inc s : is_branch (inst node) = true -> scoped s guard ->
  sound (outgoing guard (branch_targets (inst node)) inc) (record_outgoing_edges func module node guard inc) s.
Proof.
  intros B Sg. unfold record_outgoing_edges. destruct (inst node) as [] eqn:I; try done; cbn [branch_targets].
  - eapply sound_weaken; [by apply record_edge_sound|]. intros inc' s' W X R.
    eapply recorded_outgoing; [exact R|done|]. intros rho g A S G. exists [true]. cbn.
    rewrite G, andb_true_r. done.
  - eapply sound_bind; [apply resolve_sound|]. intros c0 s0 W0 X0 R0. advance s s0 X0.
    eapply (sound_bind (fun s' e => scoped s' e /\ boolean s' e)).
    { destruct (is_bool_sort (sort_of c0)) eqn:Bs.
      - apply sound_ret. intros _. split; [done|]. intros rho A S. by apply bool_value.
      - eapply sound_bind; [apply unsupported_sound|]. intros _ s1 W1 X1 _. apply fresh_bool_sound. }
    intros c s1 W1 X1 [Sc Bc]. advance s0 s1 X1.
    eapply sound_bind; [apply record_edge_sound; [done|by apply scoped_option_Some]|].
    intros inc1 s2 W2 X2 R2. pose proof (boolean_ext s1 s2 c X2 Bc) as Bc2. advance s1 s2 X2.
    eapply sound_weaken; [apply record_edge_sound; [done|apply scoped_option_Some; scope]|].
    intros inc2 s3 W3 X3 R3. pose proof (boolean_ext s2 s3 c X3 Bc2) as Bc3.
    eapply recorded_outgoing.
    + eapply recorded_app; [eapply recorded_ext; [exact X3|exact R2]|exact R3].
    + done.
    + intros rho g A S G. destruct (Bc3 rho A S) as [b Eb]. exists [b; negb b]. cbn.
      rewrite (eval_and_guard rho guard c g b), (eval_and_guard rho guard (mk_unary Not c) g (negb b)); try done.
      * split; [done|]. by destruct b.
      * by apply eval_mk_not.
  - unfold record_switch_edges. eapply sound_bind; [apply resolve_sound|]. intros sel s0 W0 X0 R0. advance s s0 X0.
    eapply sound_bind; [by apply switch_conditions_sound|]. intros conds s1 W1 X1 [Sc Ex L]. advance s0 s1 X1.
    eapply sound_bind; [by apply record_cases_sound|]. intros inc1 s2 W2 X2 R2.
    pose proof (exclusive_ext s1 s2 conds X2 Ex) as Ex2. advance s1 s2 X2.
    eapply sound_weaken; [apply record_edge_sound; [done|by apply default_scoped]|].
    intros inc2 s3 W3 X3 R3. pose proof (exclusive_ext s2 s3 conds X3 Ex2) as Ex3.
    destruct (switch_guards guard cases conds L) as [Eg Et].
    eapply recorded_outgoing.
    + eapply recorded_app; [eapply recorded_ext; [exact X3|exact R2]|exact R3].
    + intros t. rewrite map_app, Et. done.
    + intros rho g A S G. destruct (Ex3 rho A S) as (bs & Eb & Cb).
      exists (bs ++ [negb (existsb id bs)]). split; [|by apply count_with_default].
      rewrite !map_app, Eg. cbn. rewrite (default_eval rho guard g conds bs G Eb).
      f_equal. by apply eval_and_guards.
Qed.

End Edges.

End BmcEdges.
