(* ===== verification/BmcBlocks.v ===== *)
(** * Entering a block

    The guard and the parameters of a block: in a model of their constraints the guard
    is the disjunction of the guards of the incoming edges and a parameter equals the
    argument of the edge that is taken; and the constraints can always be satisfied by
    choosing the new variables, if no two edges are taken. *)

From S2P Require Import Prelude Artifact AyExpr Chc Bmc BvArith AyBuild AyTry F64 TrustIr AyEncode BmcExpr BmcOrder BmcTranslate BmcInvariant BmcSound BmcEdges.

Module BmcBlocks.
Import AyBuild AyTry AyEncode TrustIr BmcExpr BmcOrder BmcOrderSpec BmcTranslate BmcInvariant BmcSound BmcEdges.

Section Blocks.
Context `{AyEncode} `{TrustIr} `{F64.NanCasts} `{!AySem} `{!AyEval} `{!AyEncodeEval}.
Context (func : Function_ Payload) (module : Module_ Payload) (options : TranslateOptions).

Notation Ty := (Ty.Ty Payload).
Notation Valuation := (string -> val).

(** ** Valuations *)

Lemma scoped_eval s e (rho rho' : Valuation) : scoped s e -> (forall n, declared s n -> rho n = rho' n) ->
  eval rho e = eval rho' e.
Proof. intros S E. apply eval_ext. intros n O. by apply E, S. Qed.

(** One variable changed *)
Definition assign (n : string) (v : val) (rho : Valuation) (m : string) : val :=
  if String.eqb m n then v else rho m.

Lemma assign_same n v rho : assign n v rho n = v.
Proof. unfold assign. by rewrite String.eqb_refl. Qed.

Lemma assign_other n v rho m : m <> n -> assign n v rho m = rho m.
Proof. unfold assign. intros N. by apply String.eqb_neq in N as ->. Qed.

Lemma assign_admissible n v rho : admissible rho -> has_sort v (var_sort n) -> admissible (assign n v rho).
Proof.
  intros A V m. unfold assign. destruct (String.eqb_spec m n) as [->|]; [done|apply A].
Qed.

Lemma eval_declared rho n sort : eval rho (expr_var n sort) = rho n.
Proof. apply eval_var, value_expr_var. Qed.

(** The constraints a step adds *)
Definition added (s s' : FuncTranslator) : list Expr := drop (length (t_constraints s)) (t_constraints s').

Lemma added_app s s' cs : t_constraints s' = t_constraints s ++ cs -> added s s' = cs.
Proof. unfold added. intros ->. by rewrite drop_app_length. Qed.

Lemma added_in s s' c : grows s s' -> c ∈ added s s' -> c ∈ t_constraints s'.
Proof.
  intros [_ [cs E] _ _]. rewrite (added_app s s' cs E), E. intros Hc. apply elem_of_app. by right.
Qed.

Lemma added_trans s1 s2 s3 : t_constraints s1 `prefix_of` t_constraints s2 ->
  t_constraints s2 `prefix_of` t_constraints s3 -> added s1 s3 = added s1 s2 ++ added s2 s3.
Proof.
  intros [a A] [b B]. rewrite (added_app s1 s2 a A), (added_app s2 s3 b B). apply added_app.
  by rewrite B, A, app_assoc.
Qed.

(** The new variables can be chosen to satisfy the new constraints, for the valuations
    with [P]. *)
Definition extendable (s s' : FuncTranslator) (P : Valuation -> Prop) : Prop :=
  forall rho, admissible rho -> sorts_agree s' -> P rho ->
  exists rho', admissible rho' /\ (forall n, declared s n \/ ~ declared s' n -> rho' n = rho n) /\
    forall c, c ∈ added s s' -> is_true (eval rho' c).

(** A property of the values of expressions in scope *)
Definition local (s : FuncTranslator) (P : Valuation -> Prop) : Prop :=
  forall rho rho', (forall n, declared s n -> rho n = rho' n) -> P rho -> P rho'.

Lemma extendable_trans s1 s2 s3 P : wf s2 -> wf s3 -> grows s1 s2 -> grows s2 s3 -> local s1 P ->
  extendable s1 s2 P -> extendable s2 s3 P -> extendable s1 s3 P.
Proof.
  intros W2 W3 G1 G2 L E1 E2 rho A S HP.
  destruct (E1 rho A) as (rho1 & A1 & K1 & T1); [by eapply sorts_agree_grows|done|].
  destruct (E2 rho1 A1 S) as (rho2 & A2 & K2 & T2).
  { eapply L; [|exact HP]. intros n D. symmetry. apply K1. by left. }
  exists rho2. split; [done|]. split.
  - intros n [D|D].
    + rewrite K2 by (left; by eapply declared_grows). apply K1. by left.
    + rewrite K2 by (by right). apply K1. right. intros D'. by apply D; eapply declared_grows.
  - intros c. rewrite (added_trans s1 s2 s3) by apply grows_constraints, G1 || apply grows_constraints, G2.
    intros [Hc|Hc]%elem_of_app; [|by apply T2].
    rewrite <- (scoped_eval s2 c rho1 rho2); [by apply T1| |].
    + apply (wf_constraints s2 W2). by eapply added_in.
    + intros n D. symmetry. apply K2. by left.
Qed.

Lemma extendable_nothing s s' P : t_constraints s' = t_constraints s -> extendable s s' P.
Proof.
  intros E rho A S HP. exists rho. split; [done|]. split; [done|]. intros c.
  rewrite (added_app s s' []) by (by rewrite app_nil_r). intros Hc. by apply elem_of_nil in Hc.
Qed.

(** ** The guard *)

Definition guards_of (edges : list IncomingEdge) (rho : Valuation) (bs : list bool) : Prop :=
  map (fun e => eval rho (e_guard e)) edges = map vbool bs.

Definition combined_guard (edges : list IncomingEdge) : Expr :=
  match map e_guard edges with [disjunct] => disjunct | disjuncts => or_many disjuncts end.

Lemma combined_eval edges rho bs : guards_of edges rho bs -> 
  eval rho (combined_guard edges) = vbool (existsb id bs).
Proof.
  unfold guards_of, combined_guard. intros E. rewrite <- (map_map e_guard (eval rho)) in E. revert E.
  destruct (map e_guard edges) as [|g [|g' gs]]; intros E.
  - by apply (eval_or_many rho []).
  - destruct bs as [|b [|b' bs]]; try done. injection E as ->. cbn. by rewrite orb_false_r.
  - by apply eval_or_many.
Qed.

Lemma combined_scoped s edges : (forall e, e ∈ edges -> scoped s (e_guard e)) -> scoped s (combined_guard edges).
Proof.
  intros S. unfold combined_guard.
  assert (F : forall g, g ∈ map e_guard edges -> scoped s g).
  { intros g Hg. apply list_elem_of_fmap in Hg as (e & -> & He). by apply S. }
  destruct (map e_guard edges) as [|g [|g' gs]]; [| |].
  - eapply scoped_made; [apply made_or_many|done].
  - apply F. by apply list_elem_of_here.
  - eapply scoped_made; [apply made_or_many|done].
Qed.

(** What [define_block_guard] returns *)
Record guard_defined (edges : list IncomingEdge) (s s' : FuncTranslator) (guard : Expr) : Prop := {
  gd_scoped : scoped s' guard;
  gd_violations : t_violations s' = t_violations s;
  gd_value : forall rho bs, admissible rho -> sorts_agree s' -> (forall c, c ∈ added s s' -> is_true (eval rho c)) ->
    guards_of edges rho bs -> eval rho guard = vbool (existsb id bs);
  gd_extends : extendable s s' (fun rho => exists bs, guards_of edges rho bs);
}.

Lemma guards_local s edges : (forall e, e ∈ edges -> scoped s (e_guard e)) ->
  forall rho rho' bs, (forall n, declared s n -> rho n = rho' n) -> guards_of edges rho bs -> guards_of edges rho' bs.
Proof.
  intros S rho rho' bs E G. unfold guards_of in *. rewrite <- G. apply map_ext_in. intros e He.
  apply list_elem_of_In in He. symmetry. eapply scoped_eval; [by apply S|done].
Qed.

Lemma declare_fresh s p : wf s -> ~ declared s (p +:+ "_" +:+ pretty (next_sym_id s)).
Proof. intros W D. destruct (wf_fresh s W _ D) as (q & i & E & L). apply fresh_name_id in E. lia. Qed.

Definition fresh_name (p : string) (s : FuncTranslator) : string := p +:+ "_" +:+ pretty (next_sym_id s).

Lemma fresh_spec p (ty : Ty) s e s' : fresh_symbolic p ty s = Some (e, s') -> 
  exists sort, ty_to_sort ty = Some sort /\ e = expr_var (fresh_name p s) sort /\ s' = declare (fresh_name p s) sort s.
Proof.
  unfold fresh_symbolic, mbind, M_bind, lift. intros ([sort s1] & E & R)%bind_Some.
  destruct (ty_to_sort ty) as [t|]; [|done]. injection E as <- <-. injection R as <- <-. by exists t.
Qed.

Lemma define_guard_spec idx edges s guard s' : wf s -> (forall e, e ∈ edges -> scoped s (e_guard e)) ->
  define_block_guard idx edges s = Some (guard, s') -> wf s' /\ ext s s' /\ guard_defined edges s s' guard.
Proof.
  intros W S. unfold define_block_guard. destruct edges as [|e0 es] eqn:Ee; [|rewrite <- Ee in *].
  { intros [= <- <-]. split; [done|]. split; [done|]. split; [scope|done| |by apply extendable_nothing].
    intros rho [|] _ _ _ G; [|done]. apply eval_built_bool. }
  fold (combined_guard edges). destruct (expr_is_true (combined_guard edges)) eqn:T.
  { intros [= <- <-]. split; [done|]. split; [done|]. split; [scope|done| |by apply extendable_nothing].
    intros rho bs _ _ _ G. apply combined_eval in G. apply expr_is_true_spec in T. by rewrite T in G. }
  generalize ("bb" +:+ pretty idx +:+ "_guard"). intros p.
  unfold mbind at 1, M_bind at 1. intros ([g s1'] & Eg & E)%bind_Some.
  apply fresh_spec in Eg as (sort & [= <-] & -> & ->). injection E as <- <-.
  set (name := fresh_name p s) in *.
  set (s1 := declare name sort_bool s).
  set (c := mk_iff (expr_var name sort_bool) (combined_guard edges)).
  assert (W1 : wf s1) by (by apply wf_declare). assert (X1 : ext s s1) by apply ext_declare.
  assert (Dn : declared s1 name) by apply declared_declare.
  assert (New : ~ declared s name) by (by apply (declare_fresh s)).
  assert (Sg : scoped s1 (expr_var name sort_bool)) by (by apply scoped_var).
  assert (Sc : scoped s (combined_guard edges)) by (by apply combined_scoped).
  assert (Sc1 : scoped s1 (combined_guard edges)) by (by eapply scoped_ext).
  assert (Ad : added s (constrain c s1) = [c]) by (by apply added_app).
  split; [apply wf_constrain; [done|]; unfold c; scope|]. split.
  { etrans; [exact X1|]. apply ext_same; try done. by eexists. }
  split; [done|done| |].
  - intros rho bs A Sa Hc G. rewrite Ad in Hc. specialize (Hc c ltac:(apply list_elem_of_here)).
    pose proof (combined_eval edges rho bs G) as Ec.
    destruct (declared_bool (constrain c s1) name rho A Sa) as [b Eb].
    { cbn. apply elem_of_app. right. by apply list_elem_of_here. }
    rewrite Eb. unfold c in Hc. rewrite (eval_mk_iff rho _ _ _ _ Eb Ec) in Hc.
    apply is_true_vbool, Bool.eqb_prop in Hc as ->. done.
  - intros rho A Sa [bs G]. exists (assign name (vbool (existsb id bs)) rho).
    assert (K : forall n, declared s n -> rho n = assign name (vbool (existsb id bs)) rho n).
    { intros n D. symmetry. apply assign_other. by intros ->. }
    split; [|split].
    + apply assign_admissible; [done|]. rewrite (Sa name sort_bool).
      * apply bool_values. by eexists.
      * cbn. apply elem_of_app. right. by apply list_elem_of_here.
    + intros n [D|D]; [symmetry; by apply K|]. apply assign_other. intros ->. by apply D.
    + rewrite Ad. intros d Hd. apply list_elem_of_singleton in Hd as ->. unfold c.
      assert (Ev : eval (assign name (vbool (existsb id bs)) rho) (expr_var name sort_bool) = vbool (existsb id bs))
        by (by rewrite eval_declared, assign_same).
      assert (Ec : eval (assign name (vbool (existsb id bs)) rho) (combined_guard edges) = vbool (existsb id bs)).
      { apply combined_eval. by eapply guards_local. }
      rewrite (eval_mk_iff _ _ _ _ _ Ev Ec). apply is_true_vbool. apply Bool.eqb_reflx.
Qed.

(** ** The parameters *)

(** The constraint of one edge on a parameter *)
Definition param_constraint (pos : nat) (param : Expr) (edge : IncomingEdge) : list Expr :=
  match e_args edge !! pos with
  | Some arg =>
      if bool_decide (sort_of arg = sort_of param) then [implied_under_guard (e_guard edge) (mk_eq param arg)] else []
  | None => []
  end.

(** A step that adds these constraints and violations under the guards of edges *)
Record edge_effect (edges : list IncomingEdge) (cs : list Expr) (s s' : FuncTranslator) : Prop := {
  ee_decls : t_decls s' = t_decls s;
  ee_constraints : t_constraints s' = t_constraints s ++ cs;
  ee_values : values s' = values s;
  ee_violations : exists vs, t_violations s' = t_violations s ++ vs /\
    forall v, v ∈ vs -> exists e, e ∈ edges /\ Bmc.condition v = e_guard e;
}.

(** An argument of another sort is reported. *)
Definition param_checked (edges : list IncomingEdge) (s' : FuncTranslator) (pos : nat) (param : Expr) : Prop :=
  forall e arg, e ∈ edges -> e_args e !! pos = Some arg -> sort_of arg <> sort_of param ->
  exists x, x ∈ t_violations s' /\ Bmc.condition x = e_guard e.

Lemma param_checked_prefix edges s s' pos param : t_violations s `prefix_of` t_violations s' ->
  param_checked edges s pos param -> param_checked edges s' pos param.
Proof.
  intros [k E] P e arg He Ha Ns. destruct (P e arg He Ha Ns) as (x & Hx & C). exists x. split; [|done].
  rewrite E. apply elem_of_app. by left.
Qed.

Lemma bind_param_effect pos pid param edges : forall s u s',
  each (bind_param func pos pid param) edges s = Some (u, s') ->
  edge_effect edges (flat_map (param_constraint pos param) edges) s s'.
Proof.
  induction edges as [|e edges IH]; intros s u s'; cbn [each flat_map].
  { intros [= _ <-]. split; [done|by rewrite app_nil_r|done|]. exists []. rewrite app_nil_r. split; [done|].
    intros v Hv. by apply elem_of_nil in Hv. }
  unfold mbind at 1, M_bind at 1. intros ([u1 s1] & E1 & E)%bind_Some. specialize (IH s1 u s' E).
  assert (B : edge_effect [e] (param_constraint pos param e) s s1).
  { clear E IH. unfold bind_param, param_constraint in *. 
    destruct (e_args e !! pos) as [arg|]; [destruct (bool_decide _)|].
    - injection E1 as _ <-. split; [done..|]. exists []. rewrite app_nil_r. split; [done|].
      intros v Hv. by apply elem_of_nil in Hv.
    - injection E1 as _ <-. split; [done|by rewrite app_nil_r|done|]. eexists [_]. split; [done|].
      intros v Hv. apply list_elem_of_singleton in Hv as ->. exists e. split; [apply list_elem_of_here|done].
    - injection E1 as _ <-. split; [done|by rewrite app_nil_r|done|]. exists []. rewrite app_nil_r. split; [done|].
      intros v Hv. by apply elem_of_nil in Hv. }
  destruct B as [D1 C1 V1 (vs1 & Vs1 & B1)], IH as [D2 C2 V2 (vs2 & Vs2 & B2)]. split.
  - by rewrite D2.
  - by rewrite C2, C1, app_assoc.
  - by rewrite V2.
  - exists (vs1 ++ vs2). rewrite Vs2, Vs1, app_assoc. split; [done|]. intros v [Hv|Hv]%elem_of_app.
    + destruct (B1 v Hv) as (e' & He & Ec). apply list_elem_of_singleton in He as ->. exists e.
      split; [apply list_elem_of_here|done].
    + destruct (B2 v Hv) as (e' & He & Ec). exists e'. split; [by apply list_elem_of_further|done].
Qed.

Lemma bind_param_checked pos pid param edges : forall s u s',
  each (bind_param func pos pid param) edges s = Some (u, s') -> param_checked edges s' pos param.
Proof.
  induction edges as [|e edges IH]; intros s u s'; cbn [each].
  { intros _ e arg He. by apply elem_of_nil in He. }
  unfold mbind at 1, M_bind at 1. intros ([u1 s1] & E1 & E)%bind_Some.
  intros e' arg [->|He]%elem_of_cons Ha Ns; [|by apply (IH s1 u s' E e' arg)].
  destruct (bind_param_effect _ _ _ _ _ _ _ E) as [_ _ _ (vs & V & _)].
  unfold bind_param in E1. rewrite Ha, bool_decide_eq_false_2 in E1 by done. injection E1 as _ <-.
  eexists. rewrite V. split; [apply elem_of_app; left; apply elem_of_app; right; apply list_elem_of_here|done].
Qed.

(** The edges of a state: their expressions are declared. *)
Definition edges_scoped (s : FuncTranslator) (edges : list IncomingEdge) : Prop :=
  forall e, e ∈ edges -> scoped s (e_guard e) /\ List.Forall (scoped s) (e_args e).

Lemma edges_scoped_ext s s' edges : ext s s' -> edges_scoped s edges -> edges_scoped s' edges.
Proof.
  intros X S e He. destruct (S e He) as [G A]. split; [by eapply scoped_ext|]. by advance s s' X.
Qed.

Lemma edge_arg_scoped s edges e pos arg : edges_scoped s edges -> e ∈ edges -> e_args e !! pos = Some arg ->
  scoped s arg.
Proof.
  intros S He Ha. destruct (S e He) as [_ A]. eapply Forall_forall; [exact A|]. by eapply list_elem_of_lookup_2.
Qed.

(** At [true], every violation is under the guard. *)
Lemma ext_true s s' cs edges : current_guard s = bool_const true -> current_guard s' = current_guard s ->
  (next_sym_id s <= next_sym_id s')%N -> edge_effect edges cs s s' -> ext s s'.
Proof.
  intros T G I [D C V (vs & Vs & _)]. split; [split; [by rewrite D|rewrite C; by eexists|rewrite Vs; by eexists|done]|done|].
  exists vs. split; [done|]. apply Forall_forall. intros v _. exists (Bmc.condition v).
  rewrite T. unfold and_guard, expr_is_true. by rewrite bool_decide_eq_true_2.
Qed.

Lemma bind_param_wf pos pid param edges : forall s u s', scoped s param -> edges_scoped s edges ->
  each (bind_param func pos pid param) edges s = Some (u, s') -> wf s ->
  wf s' /\ current_guard s' = current_guard s /\ next_sym_id s' = next_sym_id s.
Proof.
  induction edges as [|e edges IH]; intros s u s' Sp S; cbn [each].
  { by intros [= _ <-]. }
  unfold mbind at 1, M_bind at 1. intros ([u1 s1] & E1 & E)%bind_Some W.
  assert (B : wf s1 /\ t_decls s1 = t_decls s /\ current_guard s1 = current_guard s /\ next_sym_id s1 = next_sym_id s).
  { clear E IH. unfold bind_param in *. destruct (S e ltac:(apply list_elem_of_here)) as [Sg _].
    destruct (e_args e !! pos) as [arg|] eqn:Ea; [destruct (bool_decide _)|].
    - injection E1 as _ <-. split; [|done]. apply wf_constrain; [done|].
      pose proof (edge_arg_scoped s (e :: edges) e pos arg S ltac:(apply list_elem_of_here) Ea). scope.
    - injection E1 as _ <-. split; [|done]. by apply wf_push.
    - by injection E1 as _ <-. }
  destruct B as (W1 & D1 & G1 & I1). destruct (IH s1 u s') as (W' & G' & I'); try done.
  - by eapply scoped_decls.
  - intros e' He. destruct (S e' ltac:(by apply list_elem_of_further)) as [A B].
    split; [by eapply scoped_decls|]. eapply List.Forall_impl; [|exact B]. intros a. by apply scoped_decls.
  - split_and!; [done|congruence|congruence].
Qed.

(** A parameter equals the argument of an edge that is taken. *)
Definition param_taken (edges : list IncomingEdge) (s s' : FuncTranslator) (pos : nat) (param : Expr) : Prop :=
  forall rho, (forall c, c ∈ added s s' -> is_true (eval rho c)) ->
  forall e arg, e ∈ edges -> eval rho (e_guard e) = vbool true -> e_args e !! pos = Some arg ->
  sort_of arg = sort_of param -> eval rho param = eval rho arg.

Lemma param_taken_intro edges s s' pos param :
  (forall c, c ∈ flat_map (param_constraint pos param) edges -> c ∈ added s s') ->
  param_taken edges s s' pos param.
Proof.
  intros Sub rho Hc e arg He G Ha Es.
  assert (C : is_true (eval rho (implied_under_guard (e_guard e) (mk_eq param arg)))).
  { apply Hc, Sub, list_elem_of_In, in_flat_map. exists e. split; [by apply list_elem_of_In|].
    unfold param_constraint. rewrite Ha, bool_decide_eq_true_2 by done. by left. }
  destruct (eval_mk_eq rho param arg) as (t & Et & It).
  rewrite (eval_implied rho _ _ true t G Et) in C. apply is_true_vbool in C. cbn in C. by apply It.
Qed.

Lemma taken_edge edges rho bs i e : guards_of edges rho bs -> edges !! i = Some e ->
  exists b, bs !! i = Some b /\ eval rho (e_guard e) = vbool b.
Proof.
  unfold guards_of. revert bs i. induction edges as [|e' edges IH]; intros [|b bs] [|i] G He; try done.
  - injection He as ->. injection G as Gb _. by exists b.
  - injection G as _ G. by apply (IH bs i).
Qed.

Lemma count_one (l : list bool) : count_true l <= 1 ->
  forall i j, l !! i = Some true -> l !! j = Some true -> i = j.
Proof.
  assert (P : forall l i, l !! i = Some true -> 1 <= count_true l).
  { clear. intros l. induction l as [|b l IH]; intros [|i] Hi; try done; cbn.
    - injection Hi as ->. lia.
    - specialize (IH i Hi). destruct b; lia. }
  induction l as [|b l IH]; intros L [|i] [|j] Hi Hj; try done; cbn in *.
  - injection Hi as ->. specialize (P l j Hj). lia.
  - injection Hj as ->. specialize (P l i Hi). lia.
  - f_equal. apply IH; try done. destruct b; lia.
Qed.

(** A value for a new parameter, when at most one edge is taken *)
Lemma choose_param s edges pos n sort rho bs : admissible rho -> var_sort n = sort -> ~ declared s n ->
  edges_scoped s edges -> guards_of edges rho bs -> count_true bs <= 1 ->
  exists v, has_sort v sort /\
    forall c, c ∈ flat_map (param_constraint pos (expr_var n sort)) edges -> is_true (eval (assign n v rho) c).
Proof.
  intros A Sn New S G One.
  assert (Keep : forall v e, scoped s e -> eval (assign n v rho) e = eval rho e).
  { intros v e Se. eapply scoped_eval; [exact Se|]. intros m D. apply assign_other. by intros ->. }
  (* the constraints hold when those of the taken edges do *)
  assert (Enough : forall v, (forall i e arg, edges !! i = Some e -> bs !! i = Some true ->
      e_args e !! pos = Some arg -> sort_of arg = sort -> v = eval rho arg) ->
    forall c, c ∈ flat_map (param_constraint pos (expr_var n sort)) edges -> is_true (eval (assign n v rho) c)).
  { intros v Hv c Hc. apply list_elem_of_In, in_flat_map in Hc as (e & He & Hc). apply list_elem_of_In in He, Hc.
    unfold param_constraint in Hc. destruct (e_args e !! pos) as [arg|] eqn:Ea; [|by apply elem_of_nil in Hc].
    destruct (bool_decide _) eqn:B; [|by apply elem_of_nil in Hc]. apply list_elem_of_singleton in Hc as ->.
    apply bool_decide_eq_true in B. rewrite sort_of_var in B by done.
    apply list_elem_of_lookup in He as [i Hi]. destruct (taken_edge edges rho bs i e G Hi) as (b & Hb & Eb).
    destruct (S e ltac:(by eapply list_elem_of_lookup_2)) as [Sg _].
    rewrite <- (Keep v) in Eb by done.
    destruct (eval_mk_eq (assign n v rho) (expr_var n sort) arg) as (t & Et & It).
    rewrite (eval_implied _ _ _ b t Eb Et). apply is_true_vbool. destruct b; [|done]. cbn. apply It.
    rewrite eval_declared, assign_same, Keep by (eapply edge_arg_scoped; [done|by eapply list_elem_of_lookup_2|done]).
    by apply (Hv i e arg). }
  destruct (existsb id bs) eqn:X.
  - apply existsb_exists in X as (b & Hb & T). apply list_elem_of_In, list_elem_of_lookup in Hb as [i Hi].
    destruct b; [clear T|done].
    destruct (edges !! i ≫= fun e => e_args e !! pos ≫= fun arg => if decide (sort_of arg = sort) then Some arg else None)
      as [arg|] eqn:C.
    + apply bind_Some in C as (e & He & C). apply bind_Some in C as (arg' & Ha & C).
      destruct (decide _) as [Es|]; [|done]. injection C as ->.
      exists (eval rho arg). split; [rewrite <- Es; by apply eval_sorted|]. apply Enough.
      intros j e' arg' Hj Hb' Ha' _. assert (i = j) as <- by (by eapply count_one). congruence.
    + exists (rho n). split; [rewrite <- Sn; apply A|]. apply Enough. intros j e arg Hj Hb Ha Es.
      assert (i = j) as <- by (by eapply count_one). rewrite Hj in C. cbn in C. rewrite Ha in C. cbn in C.
      by rewrite decide_True in C.
  - exists (rho n). split; [rewrite <- Sn; apply A|]. apply Enough. intros j e arg Hj Hb Ha Es.
    apply count_true_none in X. assert (In true bs) as I by (apply list_elem_of_In; by eapply list_elem_of_lookup_2).
    exfalso. clear - X I. induction bs as [|b bs IH]; [done|]. destruct I as [->|I]; cbn in X; [lia|].
    apply IH; [lia|done].
Qed.

(** The new violations are those of ill-sorted arguments. *)
Definition edge_violations (edges : list IncomingEdge) (s s' : FuncTranslator) : Prop :=
  exists vs, t_violations s' = t_violations s ++ vs /\
    forall v, v ∈ vs -> exists e, e ∈ edges /\ Bmc.condition v = e_guard e.

Lemma edge_violations_trans edges s1 s2 s3 :
  edge_violations edges s1 s2 -> edge_violations edges s2 s3 -> edge_violations edges s1 s3.
Proof.
  intros (vs & V & B) (vs' & V' & B'). exists (vs ++ vs'). rewrite V', V, app_assoc. split; [done|].
  intros v [Hv|Hv]%elem_of_app; [by apply B|by apply B'].
Qed.

Lemma edge_violations_none edges s s' : t_violations s' = t_violations s -> edge_violations edges s s'.
Proof. intros E. exists []. rewrite app_nil_r. split; [done|]. intros v Hv. by apply elem_of_nil in Hv. Qed.

(** The valuations in which at most one edge is taken *)
Definition one_taken (edges : list IncomingEdge) (rho : Valuation) : Prop :=
  exists bs, guards_of edges rho bs /\ count_true bs <= 1.

Lemma one_taken_local s edges : edges_scoped s edges -> local s (one_taken edges).
Proof.
  intros S rho rho' E (bs & G & C). exists bs. split; [|done]. eapply guards_local; [|exact E|exact G].
  intros e He. by apply S.
Qed.

(** A step of entering a block *)
Record entering (edges : list IncomingEdge) (s s' : FuncTranslator) : Prop := {
  en_wf : wf s';
  en_ext : ext s s';
  en_true : current_guard s' = bool_const true;
  en_scoped : edges_scoped s' edges;
  en_violations : edge_violations edges s s';
  en_extends : extendable s s' (one_taken edges);
}.

Lemma entering_trans edges s1 s2 s3 : edges_scoped s1 edges ->
  entering edges s1 s2 -> entering edges s2 s3 -> entering edges s1 s3.
Proof.
  intros S1 [W2 X2 T2 S2 V2 E2] [W3 X3 T3 S3 V3 E3]. split; [done|by etrans|done|done|by eapply edge_violations_trans|].
  eapply extendable_trans; [exact W2|exact W3|apply X2|apply X3|by apply one_taken_local|done|done].
Qed.

Lemma one_param p pos pid (ty : Ty) edges s u s' : wf s -> current_guard s = bool_const true -> edges_scoped s edges ->
  (param ← fresh_symbolic p ty; bind pid param;; each (bind_param func pos pid param) edges) s = Some (u, s') ->
  entering edges s s' /\ exists param, values s' = <[pid := param]> (values s) /\ param_taken edges s s' pos param /\
    param_checked edges s' pos param.
Proof.
  intros W T S. unfold mbind at 1, M_bind at 1. intros ([param s1] & Ef & E)%bind_Some.
  apply fresh_spec in Ef as (sort & _ & -> & ->). set (name := fresh_name p s) in *. revert E.
  set (param := expr_var name sort). unfold mbind at 1, M_bind at 1. intros ([u1 s2] & Eb & E)%bind_Some.
  injection Eb as _ <-. set (s1 := declare name sort s) in *. set (s2 := bind_value pid param s1) in *.
  assert (W1 : wf s1) by (by apply wf_declare). assert (X1 : ext s s1) by apply ext_declare.
  assert (Dn : declared s1 name) by apply declared_declare.
  assert (New : ~ declared s name) by (by apply declare_fresh).
  assert (Sp : scoped s1 param) by (by apply scoped_var).
  assert (W2 : wf s2) by (by apply wf_bind). assert (X2 : ext s1 s2) by (by apply ext_same).
  assert (S2 : edges_scoped s2 edges) by (eapply edges_scoped_ext; [exact X2|by eapply edges_scoped_ext]).
  assert (Sp2 : scoped s2 param) by (by eapply scoped_ext).
  pose proof (bind_param_effect _ _ _ _ _ _ _ E) as Ef. pose proof (bind_param_checked _ _ _ _ _ _ _ E) as Ck.
  destruct (bind_param_wf _ _ _ _ _ _ _ Sp2 S2 E W2) as (W3 & G3 & I3).
  assert (X3 : ext s2 s') by (eapply (ext_true _ _ _ edges); [exact T|exact G3|lia|exact Ef]).
  destruct Ef as [D3 C3 V3 Vi3]. 
  assert (Ad : added s s' = flat_map (param_constraint pos param) edges) by (by apply added_app).
  split.
  - split.
    + done.
    + etrans; [exact X1|]. by etrans.
    + rewrite G3. exact T.
    + by eapply edges_scoped_ext.
    + destruct Vi3 as (vs & Vs & B). by exists vs.
    + intros rho A Sa (bs & G & One).
      assert (Vn : var_sort name = sort).
      { apply Sa. rewrite D3. cbn. apply elem_of_app. right. apply list_elem_of_here. }
      destruct (choose_param s edges pos name sort rho bs A Vn New S G One) as (v & Hv & Hc).
      exists (assign name v rho). split; [apply assign_admissible; [done|by rewrite Vn]|]. split.
      * intros m [D|D]; apply assign_other; intros ->; [by apply New|]. apply D. unfold declared. rewrite D3.
        exact Dn.
      * rewrite Ad. exact Hc.
  - exists param. split; [by rewrite V3|]. split; [|exact Ck]. apply param_taken_intro. by rewrite Ad.
Qed.

(** Every parameter of a list is entered. *)
Definition params_entered (edges : list IncomingEdge) (s s' : FuncTranslator) (l : list (nat * (ValueId * Ty))) : Prop :=
  forall pos pid ty, (pos, (pid, ty)) ∈ l -> exists param, param_taken edges s s' pos param /\
    param_checked edges s' pos param /\ (NoDup (map (fun q => fst (snd q)) l) -> values s' !! pid = Some param).

Lemma param_taken_grows edges s0 s s' s'' pos param :
  (forall c, c ∈ added s s' -> c ∈ added s0 s'') -> param_taken edges s s' pos param -> param_taken edges s0 s'' pos param.
Proof. intros Sub P rho Hc. apply P. intros c Hin. by apply Hc, Sub. Qed.

Lemma params_spec (idx : nat) edges l : forall s u s', wf s -> current_guard s = bool_const true -> edges_scoped s edges ->
  each (fun '(param_pos, (param_id, ty)) =>
    param ← fresh_symbolic ("bb" +:+ pretty idx +:+ "_v" +:+ pretty param_id) ty;
    bind param_id param;;
    each (bind_param func param_pos param_id param) edges) l s = Some (u, s') ->
  entering edges s s' /\ params_entered edges s s' l /\
  (forall v, v ∉ map (fun q => fst (snd q)) l -> values s' !! v = values s !! v).
Proof.
  induction l as [|[pos [pid ty]] l IH]; intros s u s' W T S; cbn [each].
  { intros [= _ <-]. split; [|split; [|done]].
    - split; [done|done|done|done|by apply edge_violations_none|by apply extendable_nothing].
    - intros pos pid ty Hin. by apply elem_of_nil in Hin. }
  unfold mbind at 1, M_bind at 1. intros ([u1 s1] & E1 & E)%bind_Some.
  destruct (one_param _ _ _ _ _ _ _ _ W T S E1) as (En1 & param & Vp & Pt & Ck).
  destruct (IH s1 u s' (en_wf _ _ _ En1) (en_true _ _ _ En1) (en_scoped _ _ _ En1) E) as (En2 & Pe & Vs).
  pose proof (grows_constraints _ _ (ext_grows _ _ (en_ext _ _ _ En1))) as C1.
  pose proof (grows_constraints _ _ (ext_grows _ _ (en_ext _ _ _ En2))) as C2.
  pose proof (added_trans s s1 s' C1 C2) as Ad.
  pose proof (grows_violations _ _ (ext_grows _ _ (en_ext _ _ _ En2))) as V2.
  split; [by eapply entering_trans|]. split.
  - intros pos' pid' ty' [[= -> -> ->]|Hin]%elem_of_cons.
    + exists param. split.
      * eapply param_taken_grows; [|exact Pt]. intros c Hc. rewrite Ad. apply elem_of_app. by left.
      * split; [by eapply param_checked_prefix|]. cbn. intros [Nin _]%NoDup_cons. rewrite Vs by done. rewrite Vp. by simplify_map_eq.
    + destruct (Pe pos' pid' ty' Hin) as (param' & Pt' & Ck' & Vp'). exists param'. split.
      * eapply param_taken_grows; [|exact Pt']. intros c Hc. rewrite Ad. apply elem_of_app. by right.
      * split; [done|]. cbn. intros [_ Nd]%NoDup_cons. by apply Vp'.
  - cbn. intros v Hv. apply not_elem_of_cons in Hv as [N1 N2]. rewrite Vs by done. rewrite Vp.
    by rewrite lookup_insert_ne.
Qed.

(** ** The whole entry *)

Record entered (idx : nat) (b : Block Payload) (edges : list IncomingEdge) (s s' : FuncTranslator) (guard : Expr) : Prop := {
  ent_entering : entering edges s s';
  ent_scoped : scoped s' guard;
  ent_guard : forall rho bs, admissible rho -> sorts_agree s' -> (forall c, c ∈ added s s' -> is_true (eval rho c)) ->
    guards_of edges rho bs -> eval rho guard = vbool (existsb id bs);
  ent_params : params_entered edges s s' (imap pair (block_params b));
}.

Lemma enter_other idx (b : Block Payload) edges s guard s' : wf s -> current_guard s = bool_const true ->
  edges_scoped s edges -> block_id b <> entry func ->
  enter_block func idx b edges s = Some (guard, s') -> entered idx b edges s s' guard.
Proof.
  intros W T S Ne. unfold enter_block. apply N.eqb_neq in Ne as ->.
  unfold mbind at 1, M_bind at 1. intros ([g s1] & E1 & E)%bind_Some.
  unfold mbind at 1, M_bind at 1 in E. apply bind_Some in E as ([u2 s2] & E2 & E). injection E as <- <-.
  destruct (define_guard_spec idx edges s g s1 W) as (W1 & X1 & [Sg Vg Gg Eg]); [intros e He; by apply S|done|].
  assert (T1 : current_guard s1 = bool_const true) by (by rewrite (ext_guard _ _ X1)).
  assert (S1 : edges_scoped s1 edges) by (by eapply edges_scoped_ext).
  destruct (params_spec idx edges _ _ _ _ W1 T1 S1 E2) as (En2 & Pe & _).
  assert (En1 : entering edges s s1).
  { split; [done|done|done|done|by apply edge_violations_none|].
    intros rho A Sa (bs & G & One). apply Eg; [done|done|by exists bs]. }
  pose proof (grows_constraints _ _ (ext_grows _ _ X1)) as C1.
  pose proof (grows_constraints _ _ (ext_grows _ _ (en_ext _ _ _ En2))) as C2.
  pose proof (added_trans s s1 s2 C1 C2) as Ad.
  split.
  - by eapply entering_trans.
  - eapply scoped_ext; [apply En2|done].
  - intros rho bs A Sa Hc G. apply Gg; [done|by eapply sorts_agree_ext; [apply En2|]| |done].
    intros c Hin. apply Hc. rewrite Ad. apply elem_of_app. by left.
  - intros pos pid ty Hin. destruct (Pe pos pid ty Hin) as (param & Pt & Vp). exists param. split; [|done].
    eapply param_taken_grows; [|exact Pt]. intros c Hc. rewrite Ad. apply elem_of_app. by right.
Qed.

End Blocks.

End BmcBlocks.
