(* ===== verification/BmcPaths.v ===== *)
(** * The guards of the blocks are the path of an execution

    A valuation that satisfies the constraints on guards and parameters decides every
    branch.  The edges it takes form one path from the entry ([edge_walk]), and the guards
    that hold are those of its blocks ([walk_pending]); and every choice of the other
    variables can be completed to such a valuation ([guards_extend]). *)

From S2P Require Import Prelude Artifact AyExpr Chc Bmc BvArith AyBuild AyTry F64 TrustIr AyEncode BmcExpr BmcOrder BmcTranslate BmcInvariant BmcSound BmcEdges BmcBlocks.

Module BmcPaths.
Import AyBuild AyTry AyEncode TrustIr BmcExpr BmcOrder BmcOrderSpec BmcTranslate BmcInvariant BmcSound BmcEdges BmcBlocks.

Section Paths.
Context `{AyEncode} `{TrustIr} `{F64.NanCasts} `{!AySem} `{!AyEval} `{!AyEncodeEval}.
Context (func : Function_ Payload) (module : Module_ Payload) (options : TranslateOptions).

Notation Valuation := (string -> val).
Notation Incoming := (gmap BlockId (list IncomingEdge)).

(** ** Pending edges *)

Definition edges_to (id : BlockId) (inc : Incoming) : list IncomingEdge := default [] (inc !! id).

Definition edges_for (id : BlockId) (pend : list (BlockId * IncomingEdge)) : list IncomingEdge :=
  map snd (filter (fun p => p.1 = id) pend).

(** The map holds the pending edges, by target and in order. *)
Definition represents (inc : Incoming) (pend : list (BlockId * IncomingEdge)) : Prop :=
  forall id, edges_to id inc = edges_for id pend.

Lemma edges_for_cons id t e pend :
  edges_for id ((t, e) :: pend) = if decide (t = id) then e :: edges_for id pend else edges_for id pend.
Proof. unfold edges_for. rewrite filter_cons. cbn [fst]. by destruct (decide (t = id)). Qed.

Lemma edges_for_app id p q : edges_for id (p ++ q) = edges_for id p ++ edges_for id q.
Proof. unfold edges_for. by rewrite filter_app, map_app. Qed.

Lemma edges_for_one id t e : edges_for id [(t, e)] = if decide (t = id) then [e] else [].
Proof. by rewrite edges_for_cons. Qed.

Lemma represents_push inc pend es : represents inc pend -> represents (push_all inc es) (pend ++ es).
Proof.
  revert inc pend. induction es as [|[t e] es IH]; intros inc pend R; cbn.
  - by rewrite app_nil_r.
  - replace (pend ++ (t, e) :: es) with ((pend ++ [(t, e)]) ++ es) by (by rewrite <- app_assoc).
    apply IH. intros id. rewrite edges_for_app, edges_for_one, <- (R id).
    unfold edges_to, push_edge. destruct (decide (t = id)) as [->|N].
    + by rewrite lookup_insert_eq.
    + rewrite lookup_insert_ne by done. by rewrite app_nil_r.
Qed.

Definition without (id : BlockId) (pend : list (BlockId * IncomingEdge)) : list (BlockId * IncomingEdge) :=
  filter (fun p => p.1 <> id) pend.

Lemma without_cons id t e pend :
  without id ((t, e) :: pend) = if decide (t = id) then without id pend else (t, e) :: without id pend.
Proof.
  unfold without. rewrite filter_cons. cbn [fst].
  destruct (decide (t = id)) as [E|N]; [rewrite decide_False by (by intros [])|rewrite decide_True by done]; done.
Qed.

Lemma edges_for_without id id' pend :
  edges_for id' (without id pend) = if decide (id = id') then [] else edges_for id' pend.
Proof.
  induction pend as [|[t e] pend IH]; [by destruct (decide _)|]. rewrite without_cons, edges_for_cons.
  destruct (decide (t = id)) as [->|N]; [rewrite IH; by destruct (decide (id = id'))|].
  rewrite edges_for_cons, IH. destruct (decide (t = id')) as [->|N']; [|done].
  by rewrite !decide_False by congruence.
Qed.

Lemma represents_delete inc pend id : represents inc pend -> represents (delete id inc) (without id pend).
Proof.
  intros R id'. unfold edges_to. rewrite edges_for_without. destruct (decide (id = id')) as [->|N].
  - by rewrite lookup_delete_eq.
  - rewrite lookup_delete_ne by done. apply R.
Qed.

(** The values of the guards of pending edges *)
Definition live (pend : list (BlockId * IncomingEdge)) (rho : Valuation) (bs : list bool) : Prop :=
  map (fun p => eval rho (e_guard p.2)) pend = map vbool bs.

Lemma live_app p q rho bs cs : live p rho bs -> live q rho cs -> live (p ++ q) rho (bs ++ cs).
Proof. unfold live. intros P Q. by rewrite !map_app, P, Q. Qed.

(** The edges of a block and the others share the tokens. *)
Lemma live_split id pend rho bs : live pend rho bs ->
  exists bi bo, guards_of (edges_for id pend) rho bi /\ live (without id pend) rho bo /\
    count_true bs = count_true bi + count_true bo.
Proof.
  revert bs. induction pend as [|[t e] pend IH]; intros [|b bs] L; try done.
  - by exists [], [].
  - injection L as Lb L. destruct (IH bs L) as (bi & bo & Gi & Lo & C).
    rewrite edges_for_cons, without_cons. destruct (decide (t = id)) as [->|N].
    + exists (b :: bi), bo. cbn. split_and!; [|done|lia].
      unfold guards_of. cbn. f_equal; [done|exact Gi].
    + exists bi, (b :: bo). cbn. split_and!; [done| |lia].
      unfold live. cbn. f_equal; [done|exact Lo].
Qed.

Lemma live_true pend rho bs : live pend rho bs -> 1 <= count_true bs ->
  exists p, p ∈ pend /\ eval rho (e_guard p.2) = vbool true.
Proof.
  revert bs. induction pend as [|p pend IH]; intros [|b bs] L C; cbn in C; try lia; try done.
  injection L as Lb L. destruct b.
  - exists p. split; [apply list_elem_of_here|done].
  - destruct (IH bs L C) as (q & Hq & E). exists q. split; [by apply list_elem_of_further|done].
Qed.

Lemma live_none pend rho bs : live pend rho bs -> count_true bs = 0 ->
  forall p, p ∈ pend -> eval rho (e_guard p.2) = vbool false.
Proof.
  revert bs. induction pend as [|q pend IH]; intros [|b bs] L C p Hp; try done; [by apply elem_of_nil in Hp|].
  injection L as Lb L. cbn in C. destruct b; [done|].
  apply elem_of_cons in Hp as [->|Hp]; [done|by eapply IH].
Qed.

(** ** Sequences of nodes *)

Lemma each_sound {A} (f : A -> M unit) l : (forall x s, sound any (f x) s) -> forall s, sound any (each f l) s.
Proof.
  intros F. induction l as [|x l IH]; intros s; cbn [each]; [by apply sound_ret|].
  eapply sound_bind; [apply F|]. intros _ s1 W1 X1 _. apply IH.
Qed.

(** A node of a sequence is translated in a state in between. *)
Lemma each_visits {A} (f : A -> M unit) l x : (forall x s, sound any (f x) s) -> x ∈ l ->
  forall s u s', wf s -> each f l s = Some (u, s') ->
  exists s1 s2, f x s1 = Some (tt, s2) /\ wf s1 /\ ext s s1 /\ ext s2 s'.
Proof.
  intros F. induction l as [|y l IH]; intros Hx s u s' W; [by apply elem_of_nil in Hx|]. cbn [each].
  unfold mbind at 1, M_bind at 1. intros ([[] s1] & E1 & E)%bind_Some.
  destruct (F y s tt s1 E1 W) as (W1 & X1 & _).
  apply elem_of_cons in Hx as [->|Hx].
  - exists s, s1. split_and!; [done|done|done|]. by apply (each_sound f l F s1 u s' E W1).
  - destruct (IH Hx s1 u s' W1 E) as (t1 & t2 & Et & Wt & Xt & Xe).
    exists t1, t2. split_and!; [done|done|by etrans|done].
Qed.

(** ** One block *)

(** The state between blocks *)
Record ready (inc : Incoming) (s : FuncTranslator) (pend : list (BlockId * IncomingEdge)) : Prop := {
  rd_wf : wf s;
  rd_guard : current_guard s = bool_const true;
  rd_pending : represents inc pend;
  rd_scoped : List.Forall (edge_scoped s) pend;
}.

(** Translating the instructions of a block: violations under its guard, and the edges
    of its terminator *)
Record body_done (b : Block Payload) (guard : Expr) (inc : Incoming) (s s' : FuncTranslator) (inc' : Incoming)
    (es : list (BlockId * IncomingEdge)) : Prop := {
  bd_wf : wf s';
  bd_grows : grows s s';
  bd_guard : current_guard s' = bool_const true;
  bd_violations : exists vs, t_violations s' = t_violations s ++ vs /\ List.Forall (under guard) vs;
  bd_incoming : inc' = push_all inc es;
  bd_scoped : List.Forall (edge_scoped s') es;
  bd_targets : forall t term front, split_last (body b) = Some (term, front) -> t ∈ map fst es ->
    t ∈ branch_targets (inst term);
  bd_live : forall term front, split_last (body b) = Some (term, front) ->
    forall rho g, admissible rho -> sorts_agree s' -> eval rho guard = vbool g ->
    exists bs, live es rho bs /\
      count_true bs = if g && is_branch (inst term) then 1 else 0;
}.

Lemma grows_guard s g : grows s (set_guard g s) /\ grows (set_guard g s) s.
Proof. split; split; cbn; try done; lia. Qed.

Lemma body_spec b guard inc s inc' s' term front : wf s -> scoped s guard ->
  split_last (body b) = Some (term, front) ->
  translate_body func module options b guard inc s = Some (inc', s') ->
  exists es, body_done b guard inc s s' inc' es.
Proof.
  intros W Sg L E. unfold translate_body in E. rewrite L in E.
  unfold mbind at 1, M_bind at 1 in E. apply bind_Some in E as ([u0 s0] & E0 & E). injection E0 as _ <-.
  unfold mbind at 1, M_bind at 1 in E. apply bind_Some in E as ([u1 s1] & E1 & E).
  unfold mbind at 1, M_bind at 1 in E. apply bind_Some in E as ([inc1 s2] & E2 & E).
  unfold mbind at 1, M_bind at 1 in E. apply bind_Some in E as ([u3 s3] & E3 & E). injection E3 as _ <-.
  injection E as <- <-.
  assert (W0 : wf (set_guard guard s)) by (by apply wf_set_guard).
  destruct (each_sound _ front (node_sound func module options) _ _ _ E1 W0) as (W1 & X1 & _).
  assert (Sg1 : scoped s1 guard) by (eapply scoped_ext; [exact X1|]; by eapply scoped_decls).
  assert (R : wf s2 /\ ext s1 s2 /\ exists es, inc1 = push_all inc es /\ List.Forall (edge_scoped s2) es /\
    (forall t, t ∈ map fst es -> t ∈ branch_targets (inst term)) /\
    forall rho g, admissible rho -> sorts_agree s2 -> eval rho guard = vbool g ->
    exists bs, live es rho bs /\ count_true bs = if g && is_branch (inst term) then 1 else 0).
  { destruct (is_branch (inst term)) eqn:B.
    - destruct (outgoing_edges_spec func module term guard inc s1 B Sg1 _ _ E2 W1) as (W2 & X2 & es & Ei & F & T & C).
      split_and!; [done|done|]. exists es. split_and!; try done. intros rho g A S G.
      destruct (C rho g A S G) as (bs & Lb & Cb). exists bs. rewrite andb_true_r. done.
    - unfold mbind at 1, M_bind at 1 in E2. apply bind_Some in E2 as ([[] s2'] & E2 & Er). injection Er as <- <-.
      destruct (node_sound func module options term s1 _ _ E2 W1) as (W2 & X2 & _).
      split_and!; [done|done|]. exists []. split_and!; [done|constructor|intros t Ht; by apply elem_of_nil in Ht|].
      intros rho g _ _ _. exists []. rewrite andb_false_r. done. }
  destruct R as (W2 & X2 & es & -> & F & T & C).
  assert (X : ext (set_guard guard s) s2) by (by etrans).
  exists es. split.
  - apply wf_set_guard; [done|scope].
  - etrans; [apply grows_guard|]. etrans; [apply X|apply grows_guard].
  - done.
  - destruct (ext_violations _ _ X) as (vs & V & U). exists vs. split; [exact V|exact U].
  - done.
  - eapply List.Forall_impl; [|exact F]. intros p [Sp Sa]. split; [by eapply scoped_decls|].
    eapply List.Forall_impl; [|exact Sa]. intros a. by apply scoped_decls.
  - intros t term' front' L' Ht. rewrite L in L'. injection L' as <- <-. by apply T.
  - intros term' front' L' rho g A S G. rewrite L in L'. injection L' as <- <-. by apply (C rho g).
Qed.

(** Entering the entry block changes nothing. *)
Lemma enter_entry idx (b : Block Payload) edges s guard s' : block_id b = entry func ->
  enter_block func idx b edges s = Some (guard, s') -> guard = bool_const true /\ s' = s.
Proof. intros E. unfold enter_block. rewrite E, N.eqb_refl. by intros [= <- <-]. Qed.

Lemma pending_edges_scoped inc s pend id : ready inc s pend -> edges_scoped s (edges_to id inc).
Proof.
  intros [_ _ R S] e He. rewrite (R id) in He. apply list_elem_of_fmap in He as ([t e'] & -> & Hp).
  apply list_elem_of_filter in Hp as [_ Hp]. eapply Forall_forall in S; [|exact Hp]. exact S.
Qed.

(** ** The visits *)

Record Visit := {
  v_idx : nat;
  v_block : Block Payload;
  v_guard : Expr;
  v_incoming : Incoming;
  v_outgoing : Incoming;
  v_before : FuncTranslator;
  v_entered : FuncTranslator;
  v_after : FuncTranslator;
}.

(** The blocks as [translate_blocks] goes through them, with the states before and
    after entering each and after its instructions *)
Fixpoint visits (order : list nat) (incoming : Incoming) (s : FuncTranslator) : list Visit :=
  match order with
  | [] => []
  | idx :: order =>
      match blocks func !! idx with
      | None => []
      | Some b =>
          match enter_block func idx b (edges_to (block_id b) incoming) s with
          | None => []
          | Some (guard, s1) =>
              match translate_body func module options b guard (delete (block_id b) incoming) s1 with
              | None => []
              | Some (incoming', s2) =>
                  {| v_idx := idx; v_block := b; v_guard := guard; v_incoming := incoming; v_outgoing := incoming';
                     v_before := s; v_entered := s1; v_after := s2 |} :: visits order incoming' s2
              end
          end
      end
  end.

Lemma translate_blocks_cons idx order inc s inc' s' :
  translate_blocks func module options (idx :: order) inc s = Some (inc', s') ->
  exists b guard s1 inc2 s2, blocks func !! idx = Some b /\
    enter_block func idx b (edges_to (block_id b) inc) s = Some (guard, s1) /\
    translate_body func module options b guard (delete (block_id b) inc) s1 = Some (inc2, s2) /\
    translate_blocks func module options order inc2 s2 = Some (inc', s') /\
    visits (idx :: order) inc s =
      {| v_idx := idx; v_block := b; v_guard := guard; v_incoming := inc; v_outgoing := inc2;
         v_before := s; v_entered := s1; v_after := s2 |} :: visits order inc2 s2.
Proof.
  cbn [translate_blocks]. unfold mbind at 1, M_bind at 1. intros ([inc2 s2] & E1 & E)%bind_Some.
  unfold translate_block in E1. unfold mbind at 1, M_bind at 1 in E1. apply bind_Some in E1 as ([b s0] & E0 & E1).
  unfold lift in E0. destruct (blocks func !! idx) as [b'|] eqn:B; [|done]. injection E0 as <- <-.
  unfold mbind at 1, M_bind at 1 in E1. apply bind_Some in E1 as ([g s1] & E2 & E1).
  exists b', g, s1, inc2, s2. split_and!; try done. cbn [visits]. rewrite B. unfold edges_to in *.
  rewrite E2, E1. done.
Qed.

(** Everything about one block *)
Lemma block_step idx (b : Block Payload) inc s pend guard s1 inc2 s2 term front : ready inc s pend ->
  split_last (body b) = Some (term, front) ->
  enter_block func idx b (edges_to (block_id b) inc) s = Some (guard, s1) ->
  translate_body func module options b guard (delete (block_id b) inc) s1 = Some (inc2, s2) ->
  exists es, ready inc2 s2 (without (block_id b) pend ++ es) /\
    body_done b guard (delete (block_id b) inc) s1 s2 inc2 es /\ wf s1 /\ grows s s1 /\
    (block_id b = entry func -> guard = bool_const true /\ s1 = s) /\
    (block_id b <> entry func -> entered idx b (edges_to (block_id b) inc) s s1 guard).
Proof.
  intros Rd L E1 E2. pose proof (pending_edges_scoped inc s pend (block_id b) Rd) as Se.
  destruct Rd as [W T R S].
  assert (En : wf s1 /\ grows s s1 /\ scoped s1 guard /\
    (block_id b = entry func -> guard = bool_const true /\ s1 = s) /\
    (block_id b <> entry func -> entered idx b (edges_to (block_id b) inc) s s1 guard)).
  { destruct (decide (block_id b = entry func)) as [Eb|Nb].
    - destruct (enter_entry idx b _ s guard s1 Eb E1) as [-> ->]. split_and!; [done|done|scope|done|done].
    - pose proof (enter_other func idx b _ s guard s1 W T Se Nb E1) as [En Sg Vg Pe].
      split_and!; [apply En|apply (ext_grows _ _ (en_ext _ _ _ En))|done|done|done]. }
  destruct En as (W1 & G1 & Sg & He & Ho).
  destruct (body_spec b guard _ s1 inc2 s2 term front W1 Sg L E2) as [es Bd].
  exists es. split_and!; try done. destruct Bd as [W2 G2 T2 _ Ei F2 _ _]. split; [done|done| |].
  - rewrite Ei. apply represents_push, represents_delete. exact R.
  - apply Forall_app. split; [|done]. apply Forall_forall. intros p Hp.
    unfold without in Hp. apply list_elem_of_filter in Hp as [_ Hp].
    eapply Forall_forall in S; [|exact Hp]. destruct S as [Sp Sa].
    assert (G : grows s s2) by (by etrans). split; [by eapply scoped_grows|].
    eapply List.Forall_impl; [|exact Sa]. intros a. by apply scoped_grows.
Qed.

(** ** Walks *)

(** The edges a visit recorded to a block *)
Definition new_edges (v : Visit) (id : BlockId) : list IncomingEdge :=
  drop (length (edges_to id (delete (block_id (v_block v)) (v_incoming v)))) (edges_to id (v_outgoing v)).

Lemma new_edges_for v es pend id : represents (delete (block_id (v_block v)) (v_incoming v)) pend ->
  v_outgoing v = push_all (delete (block_id (v_block v)) (v_incoming v)) es ->
  new_edges v id = edges_for id es.
Proof.
  intros R E. unfold new_edges. rewrite E. rewrite (represents_push _ _ es R id), edges_for_app, (R id).
  by rewrite drop_app_length.
Qed.

Definition edge_taken (rho : Valuation) (v : Visit) (id : BlockId) : Prop :=
  exists e, e ∈ new_edges v id /\ is_true (eval rho (e_guard e)).

Definition branches (v : Visit) : Prop :=
  exists term front, split_last (body (v_block v)) = Some (term, front) /\ is_branch (inst term) = true.

(** The blocks along edges whose recorded conditions hold.  What it has to do with the
    execution of the function is the matter of [BmcWalk]. *)
Inductive edge_walk (rho : Valuation) (vs : list Visit) : BlockId -> list nat -> Prop :=
  | edge_walk_end v : v ∈ vs -> ~ branches v -> edge_walk rho vs (block_id (v_block v)) [v_idx v]
  | edge_walk_step v id p : v ∈ vs -> edge_taken rho v id -> edge_walk rho vs id p ->
      edge_walk rho vs (block_id (v_block v)) (v_idx v :: p).

Lemma edge_walk_cons rho v vs id p : edge_walk rho vs id p -> edge_walk rho (v :: vs) id p.
Proof.
  intros K. induction K as [u Hu Nb|u id p Hu T K IH]; [apply edge_walk_end|eapply edge_walk_step]; try done;
    by apply list_elem_of_further.
Qed.

(** The constraints on guards and parameters hold. *)
Definition wired (vs : list Visit) (rho : Valuation) : Prop :=
  forall v, v ∈ vs -> forall c, c ∈ added (v_before v) (v_entered v) -> is_true (eval rho c).

Lemma wired_cons v vs rho : wired (v :: vs) rho <->
  (forall c, c ∈ added (v_before v) (v_entered v) -> is_true (eval rho c)) /\ wired vs rho.
Proof.
  split.
  - intros Wi. split; [by apply Wi, list_elem_of_here|]. intros u Hu. by apply Wi, list_elem_of_further.
  - intros [A B] u [->|Hu]%elem_of_cons; [done|by apply B].
Qed.

(** ** The order *)

Definition id_of (idx : nat) : option BlockId := block_id <$> blocks func !! idx.

(** Every edge goes forward. *)
Fixpoint forward (order : list nat) : Prop :=
  match order with
  | [] => True
  | idx :: order =>
      (exists b term front, blocks func !! idx = Some b /\ split_last (body b) = Some (term, front) /\
        forall t, t ∈ branch_targets (inst term) -> t ∈ omap id_of order) /\ forward order
  end.

Record topological (order : list nat) : Prop := {
  topo_nodup : NoDup order;
  topo_forward : forward order;
  topo_unique : NoDup (omap id_of order);
  topo_entry : entry func ∈ omap id_of order;
}.

Lemma visits_order order : forall inc s v, v ∈ visits order inc s -> v_idx v ∈ order.
Proof.
  induction order as [|idx order IH]; intros inc s v; cbn [visits]; [intros Hv; by apply elem_of_nil in Hv|].
  destruct (blocks func !! idx); [|intros Hv; by apply elem_of_nil in Hv].
  destruct (enter_block _ _ _ _ _) as [[g s1]|]; [|intros Hv; by apply elem_of_nil in Hv].
  destruct (translate_body _ _ _ _ _ _ _) as [[inc2 s2]|]; [|intros Hv; by apply elem_of_nil in Hv].
  intros [->|Hv]%elem_of_cons; [apply list_elem_of_here|]. apply list_elem_of_further. by eapply IH.
Qed.

Lemma blocks_ready order : forall inc s pend inc' s', ready inc s pend -> forward order ->
  translate_blocks func module options order inc s = Some (inc', s') ->
  exists pend', ready inc' s' pend' /\ grows s s'.
Proof.
  induction order as [|idx order IH]; intros inc s pend inc' s' Rd Fw E.
  { injection E as <- <-. by exists pend. }
  apply translate_blocks_cons in E as (b & g & s1 & inc2 & s2 & Hb & E1 & E2 & E & _).
  destruct Fw as [(b' & term & front & Hb' & L & _) Fw]. rewrite Hb in Hb'. injection Hb' as <-.
  destruct (block_step idx b inc s pend g s1 inc2 s2 term front Rd L E1 E2) as (es & Rd2 & Bd & _ & G1 & _).
  destruct (IH inc2 s2 _ inc' s' Rd2 Fw E) as (pend' & Rd' & G'). exists pend'. split; [done|].
  etrans; [exact G1|]. etrans; [apply Bd|done].
Qed.

(** The token of a block: its guard is the disjunction of its edges', and its terminator
    passes it on. *)
Lemma step_tokens idx (b : Block Payload) inc s pend guard s1 inc2 s2 term front es rho bs :
  ready inc s pend -> split_last (body b) = Some (term, front) ->
  body_done b guard (delete (block_id b) inc) s1 s2 inc2 es -> grows s1 s2 ->
  (block_id b = entry func -> guard = bool_const true /\ s1 = s) ->
  (block_id b <> entry func -> entered idx b (edges_to (block_id b) inc) s s1 guard) ->
  admissible rho -> sorts_agree s2 -> (forall c, c ∈ added s s1 -> is_true (eval rho c)) -> live pend rho bs ->
  exists gv bi bo be, eval rho guard = vbool gv /\ guards_of (edges_for (block_id b) pend) rho bi /\
    live (without (block_id b) pend) rho bo /\ live es rho be /\
    count_true bs = count_true bi + count_true bo /\
    count_true be = (if gv && is_branch (inst term) then 1 else 0) /\
    gv = (if decide (block_id b = entry func) then true else existsb id bi).
Proof.
  intros Rd L Bd G2 He Ho A S Hc Lv.
  destruct (live_split (block_id b) pend rho bs Lv) as (bi & bo & Gi & Lo & C).
  set (gv := if decide (block_id b = entry func) then true else existsb id bi).
  assert (Eg : eval rho guard = vbool gv).
  { unfold gv. destruct (decide _) as [Eb|Nb].
    - destruct (He Eb) as [-> _]. apply eval_built_bool.
    - apply (ent_guard _ _ _ _ _ _ (Ho Nb)); [done|by eapply sorts_agree_grows|done|].
      by rewrite (rd_pending _ _ _ Rd). }
  destruct (bd_live _ _ _ _ _ _ _ Bd term front L rho gv A S Eg) as (be & Le & Ce).
  by exists gv, bi, bo, be.
Qed.

(** The guards that hold are those of the path [p]. *)
Definition guards_on (rho : Valuation) (vs : list Visit) (p : list nat) : Prop :=
  forall v, v ∈ vs -> eval rho (v_guard v) = vbool (bool_decide (v_idx v ∈ p)).

Lemma guards_on_cons rho v vs p : v_idx v ∉ p -> (forall u, u ∈ vs -> v_idx u <> v_idx v) ->
  guards_on rho vs p ->
  (eval rho (v_guard v) = vbool true -> guards_on rho (v :: vs) (v_idx v :: p)) /\
  (eval rho (v_guard v) = vbool false -> guards_on rho (v :: vs) p).
Proof.
  intros Nv Ne G. split; intros E u [->|Hu]%elem_of_cons.
  - rewrite E, bool_decide_eq_true_2; [done|apply list_elem_of_here].
  - rewrite (G u Hu). f_equal. apply bool_decide_ext. rewrite elem_of_cons. specialize (Ne u Hu). naive_solver.
  - rewrite E, bool_decide_eq_false_2; done.
  - by apply G.
Qed.

(** The pending edges hold at most one token, and the walk is where it goes. *)
Record tokens (rho : Valuation) (order : list nat) (vs : list Visit) (pend : list (BlockId * IncomingEdge)) (n : nat) : Prop := {
  tk_none : entry func ∉ omap id_of order -> n = 0 -> guards_on rho vs [];
  tk_one : entry func ∉ omap id_of order -> n = 1 ->
    exists id e p, (id, e) ∈ pend /\ eval rho (e_guard e) = vbool true /\ edge_walk rho vs id p /\
      guards_on rho vs p /\ p `sublist_of` order;
  tk_entry : entry func ∈ omap id_of order -> n = 0 ->
    exists p, edge_walk rho vs (entry func) p /\ guards_on rho vs p /\ p `sublist_of` order;
}.

Lemma omap_cons idx order b : blocks func !! idx = Some b -> omap id_of (idx :: order) = block_id b :: omap id_of order.
Proof. intros E. cbn. unfold id_of at 1. by rewrite E. Qed.

Lemma without_in id pend p : p ∈ without id pend <-> p ∈ pend /\ p.1 <> id.
Proof. unfold without. rewrite list_elem_of_filter. naive_solver. Qed.

Lemma edges_for_in id pend e : e ∈ edges_for id pend <-> (id, e) ∈ pend.
Proof.
  unfold edges_for. rewrite list_elem_of_fmap. split.
  - intros ([t e'] & -> & Hp). apply list_elem_of_filter in Hp as [E Hp]. cbn in *. by subst.
  - intros Hp. exists (id, e). split; [done|]. by apply list_elem_of_filter.
Qed.

Lemma sublist_in (p order : list nat) i : p `sublist_of` order -> i ∈ p -> i ∈ order.
Proof. intros Sub Hi. by eapply elem_of_submseteq, sublist_submseteq. Qed.

(** A block with a token hands it to its successor, or ends the walk. *)
Lemma token_passes rho v vs order es be pend bo term front :
  split_last (body (v_block v)) = Some (term, front) -> v_idx v ∉ order -> (forall u, u ∈ vs -> v_idx u <> v_idx v) ->
  (forall id, new_edges v id = edges_for id es) ->
  eval rho (v_guard v) = vbool true -> live pend rho bo -> count_true bo = 0 ->
  count_true be = (if is_branch (inst term) then 1 else 0) ->
  entry func ∉ omap id_of order -> tokens rho order vs (pend ++ es) (count_true (bo ++ be)) ->
  exists p, edge_walk rho (v :: vs) (block_id (v_block v)) p /\ guards_on rho (v :: vs) p /\
    p `sublist_of` v_idx v :: order.
Proof.
  intros L Nv Ne Nw G Lo Co Cb En [Tn T1 _]. rewrite count_true_app, Co in Tn, T1.
  destruct (is_branch (inst term)) eqn:B.
  - destruct (T1 En ltac:(lia)) as (id & e & p & Hp & Te & K & Gp & Sub).
    exists (v_idx v :: p). split; [|split].
    + apply edge_walk_step with id; [apply list_elem_of_here| |by apply edge_walk_cons].
      exists e. split; [|rewrite Te; by apply is_true_vbool]. rewrite Nw. apply edges_for_in.
      apply elem_of_app in Hp as [Hp|Hp]; [|done].
      pose proof (live_none pend rho bo Lo Co _ Hp) as F. cbn in F. rewrite Te in F. by apply vbool_inj in F.
    + apply (guards_on_cons rho v vs p); [intros Hi; by apply Nv, (sublist_in p)|exact Ne|exact Gp|exact G].
    + by apply sublist_skip.
  - exists [v_idx v]. split; [|split].
    + apply edge_walk_end; [apply list_elem_of_here|]. intros (t & f & Lt & Bt). rewrite L in Lt. congruence.
    + apply (guards_on_cons rho v vs []); [by intros Hi%elem_of_nil|exact Ne|by apply Tn; [|lia]|exact G].
    + apply sublist_skip, sublist_nil_l.
Qed.

Lemma walk_pending order : forall inc s pend inc' s' rho bs,
  ready inc s pend -> forward order -> NoDup order -> NoDup (omap id_of order) ->
  translate_blocks func module options order inc s = Some (inc', s') ->
  (forall t, t ∈ map fst pend -> t ∈ omap id_of order) ->
  admissible rho -> sorts_agree s' -> wired (visits order inc s) rho -> live pend rho bs ->
  tokens rho order (visits order inc s) pend (count_true bs).
Proof.
  induction order as [|idx order IH]; intros inc s pend inc' s' rho bs Rd Fw Nd Nu E Tg A S Wi Lv.
  { assert (pend = []) as ->.
    { destruct pend as [|[t e] pend]; [done|]. exfalso. specialize (Tg t ltac:(apply list_elem_of_here)).
      by apply elem_of_nil in Tg. }
    destruct bs; [|done]. split; cbn; try done.
    - intros _ _ v Hv. by apply elem_of_nil in Hv.
    - intros Hin. by apply elem_of_nil in Hin. }
  apply translate_blocks_cons in E as (b & g & s1 & inc2 & s2 & Hb & E1 & E2 & E & Ev).
  destruct Fw as [(b' & term & front & Hb' & L & Ft) Fw]. rewrite Hb in Hb'. injection Hb' as <-.
  rewrite Ev in *. set (v := Build_Visit idx b g inc inc2 s s1 s2) in *. set (vs := visits order inc2 s2) in *.
  rewrite (omap_cons idx order b Hb) in *.
  apply NoDup_cons in Nd as [Ni Nd]. apply NoDup_cons in Nu as [Nb Nu]. apply wired_cons in Wi as [Wv Wi].
  destruct (block_step idx b inc s pend g s1 inc2 s2 term front Rd L E1 E2) as (es & Rd2 & Bd & W1 & G1 & He & Ho).
  destruct (blocks_ready order inc2 s2 _ inc' s' Rd2 Fw E) as (_ & _ & G').
  destruct (step_tokens idx b inc s pend g s1 inc2 s2 term front es rho bs Rd L Bd (bd_grows _ _ _ _ _ _ _ Bd) He Ho A
    (sorts_agree_grows _ _ G' S) Wv Lv) as (gv & bi & bo & be & Eg & Gi & Lo & Le & C & Ce & Egv).
  assert (Tg2 : forall t, t ∈ map fst (without (block_id b) pend ++ es) -> t ∈ omap id_of order).
  { intros t Ht. rewrite map_app in Ht. apply elem_of_app in Ht as [Ht|Ht].
    - apply list_elem_of_fmap in Ht as (p & -> & Hp). apply without_in in Hp as [Hp Np].
      specialize (Tg p.1 ltac:(by apply list_elem_of_fmap_2)). by apply elem_of_cons in Tg as [|].
    - apply Ft. by eapply (bd_targets _ _ _ _ _ _ _ Bd). }
  specialize (IH inc2 s2 _ inc' s' rho (bo ++ be) Rd2 Fw Nd Nu E Tg2 A S Wi (live_app _ _ _ _ _ Lo Le)).
  fold vs in IH.
  assert (Nw : forall id, new_edges v id = edges_for id es).
  { intros id. apply (new_edges_for v es (without (block_id b) pend)); [apply represents_delete, Rd|apply Bd]. }
  assert (Ne : forall u, u ∈ vs -> v_idx u <> v_idx v).
  { intros u Hu Eq. apply Ni. change idx with (v_idx v). rewrite <- Eq. by eapply visits_order. }
  assert (Pass : gv = true -> count_true bo = 0 -> entry func ∉ omap id_of order ->
    exists p, edge_walk rho (v :: vs) (block_id b) p /\ guards_on rho (v :: vs) p /\ p `sublist_of` idx :: order).
  { intros -> Co En. by apply (token_passes rho v vs order es be (without (block_id b) pend) bo term front). }
  assert (Skip : forall p, v_idx v ∉ p -> gv = false -> guards_on rho vs p -> guards_on rho (v :: vs) p).
  { intros p Np -> G. apply (guards_on_cons rho v vs p); [exact Np|exact Ne|exact G|exact Eg]. }
  clearbody vs. split; rewrite (omap_cons idx order b Hb); intros En.
  - (* no token *)
    intros C0. rewrite decide_False in Egv by (intros Eb; apply En; rewrite Eb; apply list_elem_of_here).
    assert (gv = false) as Fv by (rewrite Egv; apply count_true_none; lia).
    apply Skip; [by intros Hi%elem_of_nil|done|]. apply (tk_none _ _ _ _ _ IH).
    + intros Hin. by apply En, list_elem_of_further.
    + rewrite count_true_app, Ce, Fv. cbn. lia.
  - (* one token *)
    intros C1. assert (En2 : entry func ∉ omap id_of order) by (intros Hin; by apply En, list_elem_of_further).
    rewrite decide_False in Egv by (intros Eb; apply En; rewrite Eb; apply list_elem_of_here).
    destruct (decide (count_true bi = 0)) as [Z|Z].
    + assert (gv = false) as Fv by (rewrite Egv; by apply count_true_none).
      destruct (tk_one _ _ _ _ _ IH En2) as (id & e & p & Hp & Te & K & Gp & Sub).
      { rewrite count_true_app, Ce, Fv. cbn. lia. }
      exists id, e, p. split_and!; [|done|by apply edge_walk_cons| |].
      * apply elem_of_app in Hp as [Hp|Hp]; [by apply without_in in Hp as [Hp _]|].
        assert (Cz : count_true be = 0) by (by rewrite Ce, Fv).
        pose proof (live_none es rho be Le Cz _ Hp) as F. cbn in F. rewrite Te in F. by apply vbool_inj in F.
      * apply Skip; [|done|done]. intros Hi. by apply Ni, (sublist_in p).
      * by apply sublist_cons.
    + assert (gv = true) as Tv.
      { rewrite Egv. destruct (existsb id bi) eqn:X; [done|]. by apply count_true_none in X. }
      destruct (Pass Tv ltac:(lia) En2) as (p & K & Gp & Sub).
      assert (Hin : exists e, (block_id b, e) ∈ pend /\ eval rho (e_guard e) = vbool true).
      { clear - Gi Z. unfold guards_of in Gi. assert (F : forall e, e ∈ edges_for (block_id b) pend -> (block_id b, e) ∈ pend)
          by (intros e; apply edges_for_in).
        revert bi Gi Z F. generalize (edges_for (block_id b) pend). intros l. induction l as [|e l IH]; intros [|x bi] Gi Z F; try done.
        injection Gi as Gx Gi. destruct x.
        - exists e. split; [apply F, list_elem_of_here|done].
        - cbn in Z. apply (IH bi); [done|lia|]. intros e' He'. by apply F, list_elem_of_further. }
      destruct Hin as (e & Hp & Te). by exists (block_id b), e, p.
  - (* the entry is ahead *)
    intros C0. destruct (decide (block_id b = entry func)) as [Eb|Nbe].
    + rewrite <- Eb. apply Pass; [done|lia|]. by rewrite <- Eb.
    + apply elem_of_cons in En as [En|En]; [by rewrite En in Nbe|].
      assert (gv = false) as Fv by (rewrite Egv; apply count_true_none; lia).
      destruct (tk_entry _ _ _ _ _ IH En) as (p & K & Gp & Sub).
      { rewrite count_true_app, Ce, Fv. cbn. lia. }
      exists p. split_and!; [by apply edge_walk_cons| |].
      * apply Skip; [|done|done]. intros Hi. by apply Ni, (sublist_in p).
      * by apply sublist_cons.
Qed.

(** ** What holds of every visit *)

Record visit_ok (rho : Valuation) (s_end : FuncTranslator) (v : Visit) (pend es : list (BlockId * IncomingEdge))
    (term : InstrNode Payload) (front : list (InstrNode Payload)) (gv : bool) (bi be : list bool) : Prop := {
  vo_ready : ready (v_incoming v) (v_before v) pend;
  vo_body : split_last (body (v_block v)) = Some (term, front);
  vo_block : blocks func !! v_idx v = Some (v_block v);
  vo_run : translate_body func module options (v_block v) (v_guard v)
    (delete (block_id (v_block v)) (v_incoming v)) (v_entered v) = Some (v_outgoing v, v_after v);
  vo_done : body_done (v_block v) (v_guard v) (delete (block_id (v_block v)) (v_incoming v))
    (v_entered v) (v_after v) (v_outgoing v) es;
  vo_wf : wf (v_entered v);
  vo_scoped : scoped (v_entered v) (v_guard v);
  vo_after : grows (v_after v) s_end;
  vo_entry : block_id (v_block v) = entry func -> v_guard v = bool_const true /\ v_entered v = v_before v;
  vo_other : block_id (v_block v) <> entry func ->
    entered (v_idx v) (v_block v) (edges_to (block_id (v_block v)) (v_incoming v)) (v_before v) (v_entered v) (v_guard v);
  vo_edges : forall id, new_edges v id = edges_for id es;
  vo_value : eval rho (v_guard v) = vbool gv;
  vo_incoming : guards_of (edges_to (block_id (v_block v)) (v_incoming v)) rho bi;
  vo_disjunction : block_id (v_block v) <> entry func -> gv = existsb id bi;
  vo_live : live es rho be;
  vo_token : count_true be = if gv && is_branch (inst term) then 1 else 0;
}.

Lemma visits_ok order : forall inc s pend inc' s' rho bs,
  ready inc s pend -> forward order ->
  translate_blocks func module options order inc s = Some (inc', s') ->
  admissible rho -> sorts_agree s' -> wired (visits order inc s) rho -> live pend rho bs ->
  forall v, v ∈ visits order inc s -> exists pend es term front gv bi be,
    visit_ok rho s' v pend es term front gv bi be.
Proof.
  induction order as [|idx order IH]; intros inc s pend inc' s' rho bs Rd Fw E A S Wi Lv v Hv.
  { by apply elem_of_nil in Hv. }
  apply translate_blocks_cons in E as (b & g & s1 & inc2 & s2 & Hb & E1 & E2 & E & Ev).
  destruct Fw as [(b' & term & front & Hb' & L & Ft) Fw]. rewrite Hb in Hb'. injection Hb' as <-.
  rewrite Ev in *. apply wired_cons in Wi as [Wv Wi].
  destruct (block_step idx b inc s pend g s1 inc2 s2 term front Rd L E1 E2) as (es & Rd2 & Bd & W1 & G1 & He & Ho).
  destruct (blocks_ready order inc2 s2 _ inc' s' Rd2 Fw E) as (_ & _ & G').
  destruct (step_tokens idx b inc s pend g s1 inc2 s2 term front es rho bs Rd L Bd (bd_grows _ _ _ _ _ _ _ Bd) He Ho A
    (sorts_agree_grows _ _ G' S) Wv Lv) as (gv & bi & bo & be & Eg & Gi & Lo & Le & C & Ce & Egv).
  apply elem_of_cons in Hv as [->|Hv].
  - exists pend, es, term, front, gv, bi, be. split; cbn; try done.
    + destruct (decide (block_id b = entry func)) as [Eb|Nb].
      * destruct (He Eb) as [-> _]. scope.
      * exact (ent_scoped _ _ _ _ _ _ (Ho Nb)).
    + intros id. eapply (new_edges_for (Build_Visit idx b g inc inc2 s s1 s2)); [apply represents_delete, Rd|apply Bd].
    + by rewrite (rd_pending _ _ _ Rd).
    + intros Nb. by rewrite decide_False in Egv.
  - by apply (IH inc2 s2 _ inc' s' rho (bo ++ be) Rd2 Fw E A S Wi (live_app _ _ _ _ _ Lo Le)).
Qed.

(** The violations of the final state are reported by the visits. *)
Definition reported (v : Visit) (x : Bmc.Violation) : Prop :=
  x ∈ drop (length (t_violations (v_before v))) (t_violations (v_after v)).

Lemma visits_report order : forall inc s pend inc' s' x,
  ready inc s pend -> forward order ->
  translate_blocks func module options order inc s = Some (inc', s') ->
  x ∈ t_violations s' -> x ∈ t_violations s \/ exists v, v ∈ visits order inc s /\ reported v x.
Proof.
  induction order as [|idx order IH]; intros inc s pend inc' s' x Rd Fw E Hx.
  { injection E as <- <-. by left. }
  apply translate_blocks_cons in E as (b & g & s1 & inc2 & s2 & Hb & E1 & E2 & E & Ev).
  destruct Fw as [(b' & term & front & Hb' & L & Ft) Fw]. rewrite Hb in Hb'. injection Hb' as <-.
  destruct (block_step idx b inc s pend g s1 inc2 s2 term front Rd L E1 E2) as (es & Rd2 & Bd & W1 & G1 & _).
  rewrite Ev. destruct (IH inc2 s2 _ inc' s' x Rd2 Fw E Hx) as [Old|(v & Hv & R)].
  - assert (G : grows s s2) by (etrans; [exact G1|apply Bd]). destruct (grows_violations _ _ G) as [vs V].
    rewrite V in Old. apply elem_of_app in Old as [Old|Old]; [by left|]. right. eexists. split; [apply list_elem_of_here|].
    unfold reported. cbn. rewrite V, drop_app_length. done.
  - right. exists v. split; [by apply list_elem_of_further|done].
Qed.

(** ** A violation is satisfied only on the path. *)

Lemma reported_guard rho s_end v pend es term front gv bi be x :
  visit_ok rho s_end v pend es term front gv bi be -> reported v x ->
  is_true (eval rho (Bmc.condition x)) -> gv = true.
Proof.
  intros Vo R T. destruct (bd_violations _ _ _ _ _ _ _ (vo_done _ _ _ _ _ _ _ _ _ _ Vo)) as (vs2 & V2 & U2).
  pose proof (vo_value _ _ _ _ _ _ _ _ _ _ Vo) as Eg.
  assert (Body : x ∈ vs2 -> gv = true).
  { intros Hx. eapply Forall_forall in U2; [|exact Hx]. apply (under_guard rho (v_guard v)) in T; [|exact U2].
    rewrite Eg in T. by apply is_true_vbool in T. }
  unfold reported in R. rewrite V2 in R.
  destruct (decide (block_id (v_block v) = entry func)) as [Eb|Nb].
  - destruct (vo_entry _ _ _ _ _ _ _ _ _ _ Vo Eb) as [_ Es]. rewrite Es, drop_app_length in R. by apply Body.
  - destruct (en_violations _ _ _ (ent_entering _ _ _ _ _ _ (vo_other _ _ _ _ _ _ _ _ _ _ Vo Nb))) as (vs1 & V1 & B1).
    rewrite V1, <- app_assoc, drop_app_length in R. apply elem_of_app in R as [R|R]; [|by apply Body].
    destruct (B1 x R) as (e & He & Ec). rewrite Ec in T.
    rewrite (vo_disjunction _ _ _ _ _ _ _ _ _ _ Vo Nb). apply list_elem_of_lookup in He as [i Hi].
    destruct (taken_edge _ rho bi i e (vo_incoming _ _ _ _ _ _ _ _ _ _ Vo) Hi) as (t & Ht & Et).
    rewrite Et in T. apply is_true_vbool in T as ->. apply existsb_exists. exists true.
    split; [|done]. apply list_elem_of_In. by eapply list_elem_of_lookup_2.
Qed.

(** ** The path is the only walk *)

Lemma visits_ids order : forall inc s v, v ∈ visits order inc s -> block_id (v_block v) ∈ omap id_of order.
Proof.
  induction order as [|idx order IH]; intros inc s v; cbn [visits]; [intros Hv; by apply elem_of_nil in Hv|].
  destruct (blocks func !! idx) as [b|] eqn:Hb; [|intros Hv; by apply elem_of_nil in Hv].
  destruct (enter_block _ _ _ _ _) as [[g s1]|]; [|intros Hv; by apply elem_of_nil in Hv].
  destruct (translate_body _ _ _ _ _ _ _) as [[inc2 s2]|]; [|intros Hv; by apply elem_of_nil in Hv].
  rewrite (omap_cons idx order b Hb).
  intros [->|Hv]%elem_of_cons; [apply list_elem_of_here|]. apply list_elem_of_further. by eapply IH.
Qed.

Lemma visits_unique order : forall inc s u v, NoDup (omap id_of order) -> u ∈ visits order inc s ->
  v ∈ visits order inc s -> block_id (v_block u) = block_id (v_block v) -> u = v.
Proof.
  induction order as [|idx order IH]; intros inc s u v Nd; cbn [visits]; [intros Hv; by apply elem_of_nil in Hv|].
  destruct (blocks func !! idx) as [b|] eqn:Hb; [|intros Hv; by apply elem_of_nil in Hv].
  destruct (enter_block _ _ _ _ _) as [[g s1]|]; [|intros Hv; by apply elem_of_nil in Hv].
  destruct (translate_body _ _ _ _ _ _ _) as [[inc2 s2]|]; [|intros Hv; by apply elem_of_nil in Hv].
  rewrite (omap_cons idx order b Hb) in Nd. apply NoDup_cons in Nd as [Ni Nd].
  intros [->|Hu]%elem_of_cons [->|Hv]%elem_of_cons E; cbn in *; [done| | |by eapply IH].
  - destruct Ni. rewrite E. by eapply visits_ids.
  - destruct Ni. rewrite <- E. by eapply visits_ids.
Qed.

Lemma live_unique es rho be p q : live es rho be -> count_true be <= 1 -> p ∈ es -> q ∈ es ->
  is_true (eval rho (e_guard p.2)) -> is_true (eval rho (e_guard q.2)) -> p = q.
Proof.
  intros L C Hp Hq Tp Tq. apply list_elem_of_lookup in Hp as [i Hi]. apply list_elem_of_lookup in Hq as [j Hj].
  assert (V : forall k r, es !! k = Some r -> is_true (eval rho (e_guard r.2)) -> be !! k = Some true).
  { clear - L. unfold live in L. revert be L. induction es as [|r es IH]; intros [|b be] L [|k] r' Hk T; try done.
    - injection Hk as ->. injection L as Lb _. rewrite Lb in T. apply is_true_vbool in T as ->. done.
    - injection L as _ L. by apply (IH be L k r'). }
  assert (i = j) as <- by (eapply count_one; [exact C|by apply (V i p)|by apply (V j q)]). congruence.
Qed.

Lemma visit_takes rho s_end v pend es term front gv bi be id : visit_ok rho s_end v pend es term front gv bi be ->
  edge_taken rho v id -> exists e, (id, e) ∈ es /\ is_true (eval rho (e_guard e)).
Proof. intros Vo (e & He & T). rewrite (vo_edges _ _ _ _ _ _ _ _ _ _ Vo) in He. exists e. by rewrite <- edges_for_in. Qed.

Lemma token_at_most rho s_end v pend es term front gv bi be : visit_ok rho s_end v pend es term front gv bi be ->
  count_true be <= 1.
Proof. intros Vo. rewrite (vo_token _ _ _ _ _ _ _ _ _ _ Vo). destruct (_ && _); lia. Qed.

Lemma takes_branches rho s_end v pend es term front gv bi be id : visit_ok rho s_end v pend es term front gv bi be ->
  edge_taken rho v id -> branches v.
Proof.
  intros Vo T. destruct (visit_takes _ _ _ _ _ _ _ _ _ _ _ Vo T) as (e & He & Te).
  exists term, front. split; [apply Vo|]. destruct (is_branch (inst term)) eqn:B; [done|].
  pose proof (vo_token _ _ _ _ _ _ _ _ _ _ Vo) as C. rewrite B, andb_false_r in C.
  pose proof (live_none es rho be (vo_live _ _ _ _ _ _ _ _ _ _ Vo) C _ He) as F. cbn in F. rewrite F in Te.
  by apply is_true_vbool in Te.
Qed.

Lemma edge_walk_unique rho s_end vs id p :
  (forall v, v ∈ vs -> exists pend es term front gv bi be, visit_ok rho s_end v pend es term front gv bi be) ->
  (forall u v, u ∈ vs -> v ∈ vs -> block_id (v_block u) = block_id (v_block v) -> u = v) ->
  edge_walk rho vs id p -> forall q, edge_walk rho vs id q -> p = q.
Proof.
  intros Ok Un K. induction K as [v Hv Nb|v id p Hv T K IH]; intros q Kq; inversion Kq as [u Hu Nu Eu Eq|u id' p' Hu Tu K' Eu Eq]; subst.
  - by rewrite (Un u v Hu Hv Eu).
  - rewrite (Un u v Hu Hv Eu) in Tu. destruct (Ok v Hv) as (pend & es & term & front & gv & bi & be & Vo).
    by destruct Nb; eapply takes_branches.
  - rewrite <- (Un u v Hu Hv Eu) in T. destruct (Ok u Hu) as (pend & es & term & front & gv & bi & be & Vo).
    by destruct Nu; eapply takes_branches.
  - pose proof (Un u v Hu Hv Eu) as ->. destruct (Ok v Hv) as (pend & es & term & front & gv & bi & be & Vo).
    destruct (visit_takes _ _ _ _ _ _ _ _ _ _ _ Vo T) as (e & He & Te).
    destruct (visit_takes _ _ _ _ _ _ _ _ _ _ _ Vo Tu) as (e' & He' & Te').
    pose proof (live_unique es rho be (id, e) (id', e') (vo_live _ _ _ _ _ _ _ _ _ _ Vo)
      (token_at_most _ _ _ _ _ _ _ _ _ _ Vo) He He' Te Te') as [= <- <-].
    f_equal. by apply IH.
Qed.

(** ** The constraints can always be satisfied. *)

(** A variable that no entry into a block declares *)
Definition input (vs : list Visit) (n : string) : Prop :=
  forall v, v ∈ vs -> declared (v_entered v) n -> declared (v_before v) n.

Lemma visits_grow order : forall inc s pend inc' s' v, ready inc s pend -> forward order ->
  translate_blocks func module options order inc s = Some (inc', s') -> v ∈ visits order inc s -> grows s (v_before v).
Proof.
  induction order as [|idx order IH]; intros inc s pend inc' s' v Rd Fw E Hv; [by apply elem_of_nil in Hv|].
  apply translate_blocks_cons in E as (b & g & s1 & inc2 & s2 & Hb & E1 & E2 & E & Ev).
  destruct Fw as [(b' & term & front & Hb' & L & Ft) Fw]. rewrite Hb in Hb'. injection Hb' as <-.
  destruct (block_step idx b inc s pend g s1 inc2 s2 term front Rd L E1 E2) as (es & Rd2 & Bd & W1 & G1 & _).
  rewrite Ev in Hv. apply elem_of_cons in Hv as [->|Hv]; [done|].
  etrans; [exact G1|]. etrans; [apply Bd|by eapply IH].
Qed.

Lemma visits_declared order inc s pend inc' s' n : ready inc s pend -> forward order ->
  translate_blocks func module options order inc s = Some (inc', s') -> declared s n -> input (visits order inc s) n.
Proof. intros Rd Fw E D v Hv _. eapply declared_grows; [|exact D]. by eapply visits_grow. Qed.

Lemma live_local s pend rho rho' bs : List.Forall (edge_scoped s) pend ->
  (forall n, declared s n -> rho n = rho' n) -> live pend rho bs -> live pend rho' bs.
Proof.
  intros S E L. unfold live in *. rewrite <- L. apply map_ext_in. intros p Hp. apply list_elem_of_In in Hp.
  eapply Forall_forall in S; [|exact Hp]. symmetry. by eapply scoped_eval; [apply S|].
Qed.

Lemma wiring_extends order : forall inc s pend inc' s' rho bs,
  ready inc s pend -> forward order -> NoDup (omap id_of order) ->
  translate_blocks func module options order inc s = Some (inc', s') ->
  admissible rho -> sorts_agree s' -> live pend rho bs ->
  count_true bs <= (if decide (entry func ∈ omap id_of order) then 0 else 1) ->
  exists rho', admissible rho' /\ wired (visits order inc s) rho' /\
    forall n, input (visits order inc s) n -> rho' n = rho n.
Proof.
  induction order as [|idx order IH]; intros inc s pend inc' s' rho bs Rd Fw Nu E A S Lv C.
  { exists rho. split_and!; [done| |done]. intros v Hv. by apply elem_of_nil in Hv. }
  apply translate_blocks_cons in E as (b & g & s1 & inc2 & s2 & Hb & E1 & E2 & E & Ev).
  destruct Fw as [(b' & term & front & Hb' & L & Ft) Fw]. rewrite Hb in Hb'. injection Hb' as <-.
  rewrite Ev. set (v := Build_Visit idx b g inc inc2 s s1 s2). set (vs := visits order inc2 s2) in *.
  rewrite (omap_cons idx order b Hb) in *. apply NoDup_cons in Nu as [Nb Nu].
  destruct (block_step idx b inc s pend g s1 inc2 s2 term front Rd L E1 E2) as (es & Rd2 & Bd & W1 & G1 & He & Ho).
  destruct (blocks_ready order inc2 s2 _ inc' s' Rd2 Fw E) as (_ & _ & G').
  assert (G2 : grows s1 s2) by apply Bd.
  assert (C1 : count_true bs <= 1) by (etrans; [exact C|]; match goal with |- context [if ?d then _ else _] => destruct d end; lia).
  assert (X1 : exists rho1, admissible rho1 /\ (forall n, declared s n \/ ~ declared s1 n -> rho1 n = rho n) /\
    forall c, c ∈ added s s1 -> is_true (eval rho1 c)).
  { destruct (decide (block_id b = entry func)) as [Eb|Ne].
    - destruct (He Eb) as [_ ->]. exists rho. split_and!; [done|done|]. intros c.
      rewrite (added_app s s []) by (by rewrite app_nil_r). intros Hc. by apply elem_of_nil in Hc.
    - apply (en_extends _ _ _ (ent_entering _ _ _ _ _ _ (Ho Ne))); [done| |].
      + eapply sorts_agree_grows; [|exact S]. by etrans.
      + destruct (live_split (block_id b) pend rho bs Lv) as (bi & bo & Gi & _ & Cs). exists bi.
        rewrite (rd_pending _ _ _ Rd). split; [done|]. lia. }
  destruct X1 as (rho1 & A1 & K1 & T1).
  assert (Lv1 : live pend rho1 bs).
  { eapply live_local; [apply Rd| |exact Lv]. intros n D. symmetry. apply K1. by left. }
  destruct (step_tokens idx b inc s pend g s1 inc2 s2 term front es rho1 bs Rd L Bd G2 He Ho A1
    (sorts_agree_grows _ _ G' S) T1 Lv1) as (gv & bi & bo & be & Eg & Gi & Lo & Le & Cs & Ce & Egv).
  destruct (IH inc2 s2 _ inc' s' rho1 (bo ++ be) Rd2 Fw Nu E A1 S (live_app _ _ _ _ _ Lo Le)) as (rho2 & A2 & Wi & K2).
  { rewrite count_true_app, Ce.
    destruct (decide (block_id b = entry func)) as [Eb|Ne].
    - rewrite decide_True in C by (rewrite Eb; apply list_elem_of_here).
      rewrite decide_False by (by rewrite <- Eb). destruct (_ && _); lia.
    - destruct (decide (entry func ∈ omap id_of order)) as [Hin|Nin].
      + rewrite decide_True in C by (by apply list_elem_of_further).
        assert (gv = false) as -> by (rewrite Egv; apply count_true_none; lia). cbn. lia.
      + rewrite decide_False in C by (intros [Eq|]%elem_of_cons; [by apply Ne|done]).
        destruct gv eqn:Gv; [|cbn; lia]. assert (count_true bi <> 0).
        { intros Z. apply count_true_none in Z. congruence. }
        destruct (is_branch _); cbn; lia. }
  exists rho2. split; [done|]. split.
  - apply wired_cons. split; [|done]. cbn. intros c Hc.
    rewrite <- (scoped_eval s1 c rho1 rho2); [by apply T1| |].
    + apply (wf_constraints s1 W1). by eapply added_in.
    + intros n D. symmetry. apply K2. eapply visits_declared; [exact Rd2|exact Fw|exact E|]. by eapply declared_grows.
  - intros n I. rewrite K2.
    + apply K1. destruct (decide (n ∈ map Chc.decl_name (t_decls s1))) as [D|D]; [left|by right].
      apply (I v); [apply list_elem_of_here|done].
    + intros u Hu. apply I. by apply list_elem_of_further.
Qed.

End Paths.

End BmcPaths.
