(* ===== verification/BmcWalk.v ===== *)
(** * Executions of the control-flow graph

    What an execution of a function is, in terms of its instructions: a branch hands on to
    the block its terminator names for the value of its operand ([selects]), and an
    execution goes on like this until a block that does not branch ([walk]).  The edges
    the encoder records are taken exactly along executions ([follows_edge],
    [edge_follows]), so that the walk along edges of [BmcPaths] is an execution. *)

From S2P Require Import Prelude Artifact AyExpr Chc Bmc BvArith AyBuild AyTry F64 TrustIr AyEncode BmcExpr BmcOrder BmcTranslate BmcInvariant BmcSound BmcEdges BmcBlocks BmcPaths.

Module BmcWalk.
Import BvArith AyBuild AyTry AyEncode TrustIr BmcExpr BmcOrder BmcOrderSpec BmcTranslate BmcInvariant BmcSound BmcEdges BmcBlocks BmcPaths.

Section Walk.
Context `{AyEncode} `{TrustIr} `{F64.NanCasts} `{!AySem} `{!AyEval} `{!AyEncodeEval}.
Context (func : Function_ Payload) (module : Module_ Payload) (options : TranslateOptions).

Notation Valuation := (string -> val).
Notation Incoming := (gmap BlockId (list IncomingEdge)).
Notation Values := (gmap ValueId Expr).
Notation Inst := (Inst.Inst Payload).

(** ** Executions *)

(** The value a case of a switch stands for, among those of the selector's sort *)
Definition case_reading (sort : Sort) (c : Constant.Constant) : option val :=
  if is_bool_sort sort then match c with Constant.Bool b => Some (vbool b) | _ => None end
  else
    w ← bitvec_width sort;
    match c with Constant.Int z => Some (bv w (z mod card w)%Z) | _ => None end.

Definition case_readings (sort : Sort) (cases : list SwitchCase) : list (option val) :=
  map (fun case => case_reading sort (case_value case)) cases.

Lemma case_readings_cons sort case cases :
  case_readings sort (case :: cases) = case_reading sort (case_value case) :: case_readings sort cases.
Proof. done. Qed.

(** The instruction is a branch that has a meaning: its condition is Boolean, its cases are
    values of the selector's sort, no two of them the same. *)
Definition decided (vals : Values) (i : Inst) : Prop :=
  match i with
  | Inst.Br _ _ => True
  | Inst.CondBr cond _ _ _ _ => exists e, vals !! cond = Some e /\ is_bool_sort (sort_of e) = true
  | Inst.Switch value _ _ cases => exists e, vals !! value = Some e /\
      NoDup (case_readings (sort_of e) cases) /\ forall r, r ∈ case_readings (sort_of e) cases -> is_Some r
  | _ => False
  end.

(** The block a branch hands on to, by the value of its operand *)
Inductive selects (rho : Valuation) (vals : Values) : Inst -> BlockId -> Prop :=
  | selects_br target args : selects rho vals (Inst.Br target args) target
  | selects_then cond e then_target then_args else_target else_args :
      vals !! cond = Some e -> eval rho e = vbool true ->
      selects rho vals (Inst.CondBr cond then_target then_args else_target else_args) then_target
  | selects_else cond e then_target then_args else_target else_args :
      vals !! cond = Some e -> eval rho e = vbool false ->
      selects rho vals (Inst.CondBr cond then_target then_args else_target else_args) else_target
  | selects_case value e dflt default_args cases case :
      vals !! value = Some e -> case ∈ cases ->
      case_reading (sort_of e) (case_value case) = Some (eval rho e) ->
      selects rho vals (Inst.Switch value dflt default_args cases) (case_target case)
  | selects_default value e dflt default_args cases :
      vals !! value = Some e -> Some (eval rho e) ∉ case_readings (sort_of e) cases ->
      selects rho vals (Inst.Switch value dflt default_args cases) dflt.

(** Control goes from the visited block to another: as its terminator says, with the values
    its operands are bound to; a branch without a meaning - which the encoder reports where
    it is reached - goes along the edge that is picked for it. *)
Definition follows (rho : Valuation) (v : Visit) (id : BlockId) : Prop :=
  exists term front, split_last (body (v_block v)) = Some (term, front) /\
    (decided (values (v_after v)) (inst term) /\ selects rho (values (v_after v)) (inst term) id \/
     ~ decided (values (v_after v)) (inst term) /\ edge_taken rho v id).

(** The blocks an execution goes through, from a block on *)
Inductive walk (rho : Valuation) (vs : list Visit) : BlockId -> list nat -> Prop :=
  | walk_end v : v ∈ vs -> ~ branches v -> walk rho vs (block_id (v_block v)) [v_idx v]
  | walk_step v id p : v ∈ vs -> follows rho v id -> walk rho vs id p ->
      walk rho vs (block_id (v_block v)) (v_idx v :: p).

Lemma decided_branch vals (i : Inst) : decided vals i -> is_branch i = true.
Proof. by destruct i. Qed.

Lemma selects_branch rho vals (i : Inst) id : selects rho vals i id -> id ∈ branch_targets i.
Proof. destruct 1; cbn [branch_targets]; set_solver. Qed.

Lemma selects_unique rho vals (i : Inst) id id' : decided vals i ->
  selects rho vals i id -> selects rho vals i id' -> id = id'.
Proof.
  intros D S S'. destruct S; inversion S'; subst; try done; simplify_eq;
    try match goal with A : eval ?r ?e = vbool true, B : eval ?r ?e = vbool false |- _ =>
      rewrite A in B; by apply vbool_inj in B end.
  - destruct D as (e0 & Ee & Nd & _). simplify_eq.
    match goal with A : case ∈ cases, B : case0 ∈ cases |- _ =>
      apply list_elem_of_lookup in A as [i Hi]; apply list_elem_of_lookup in B as [j Hj] end.
    assert (i = j) as ->; [|congruence]. eapply NoDup_lookup; [exact Nd| |];
      unfold case_readings; rewrite list_lookup_fmap; rewrite ?Hi, ?Hj; cbn; [reflexivity|congruence].
  - match goal with N : _ ∉ case_readings _ _ |- _ => destruct N end.
    apply list_elem_of_fmap. exists case. done.
  - match goal with N : _ ∉ case_readings _ _ |- _ => destruct N end.
    apply list_elem_of_fmap. exists case. done.
Qed.

(** ** What is bound stays bound while edges are recorded *)

Record keeps (s s' : FuncTranslator) : Prop := {
  keeps_values : values s ⊆ values s';
  keeps_violations : t_violations s `prefix_of` t_violations s';
  keeps_guard : current_guard s' = current_guard s;
}.

#[local] Instance keeps_preorder : PreOrder keeps.
Proof.
  split; [by intros s; split|]. intros s1 s2 s3 [V1 P1 G1] [V2 P2 G2]. split; [by etrans|by etrans|by rewrite G2].
Qed.

Lemma keeps_bound s s' x e : keeps s s' -> values s !! x = Some e -> values s' !! x = Some e.
Proof. intros K V. eapply lookup_weaken; [exact V|apply K]. Qed.

Lemma keeps_violation s s' x : keeps s s' -> x ∈ t_violations s -> x ∈ t_violations s'.
Proof. intros [_ [k ->] _] Hx. apply elem_of_app. by left. Qed.

Definition kept {A} (m : M A) : Prop := forall s a s', m s = Some (a, s') -> keeps s s'.

Lemma kept_ret {A} (a : A) : kept (mret a).
Proof. intros s a' s' [= _ <-]. reflexivity. Qed.

Lemma kept_bind {A B} (m : M A) (k : A -> M B) : kept m -> (forall a, kept (k a)) -> kept (m ≫= k).
Proof.
  intros Km Kk s b s'. unfold mbind, M_bind. intros ([a s1] & E1 & E)%bind_Some.
  etrans; [by eapply Km|by eapply Kk].
Qed.

Lemma kept_lift {A} (o : option A) : kept (lift o).
Proof. unfold lift. intros s a s' (x & _ & [= _ <-])%bind_Some. reflexivity. Qed.

Lemma kept_modify f : (forall s, keeps s (f s)) -> kept (modify f).
Proof. intros E s a s' [= _ <-]. apply E. Qed.

Lemma kept_gets {A} (f : FuncTranslator -> A) : kept (gets f).
Proof. intros s a s' [= _ <-]. reflexivity. Qed.

Lemma kept_fresh p (ty : Ty.Ty Payload) : kept (fresh_symbolic p ty).
Proof.
  unfold fresh_symbolic. apply kept_bind; [apply kept_lift|intros sort]. apply kept_bind; [apply kept_gets|intros id].
  apply kept_bind; [by apply kept_modify|intros _]. apply kept_ret.
Qed.

Lemma kept_mapM {A B} (f : A -> M B) l : (forall x, kept (f x)) -> kept (mapM f l).
Proof.
  intros F. induction l as [|x l IH]; cbn [mapM]; [apply kept_ret|].
  apply kept_bind; [apply F|intros y]. apply kept_bind; [apply IH|intros ys]. apply kept_ret.
Qed.

(** An operand is bound when it is resolved, and what was bound is not touched. *)
Lemma resolve_run x (ty : Ty.Ty Payload) s e s' : resolve x ty s = Some (e, s') ->
  keeps s s' /\ values s' !! x = Some e.
Proof.
  unfold resolve, mbind at 1, M_bind at 1, gets. cbn. destruct (values s !! x) as [e0|] eqn:V.
  - intros [= <- <-]. by split.
  - unfold mbind at 1, M_bind at 1. intros ([e1 s1] & E1 & E)%bind_Some. injection E as <- <-.
    split; [|by apply lookup_insert_eq]. apply fresh_spec in E1 as (sort & _ & _ & ->).
    split; cbn; [by apply insert_subseteq|done|done].
Qed.

Lemma kept_resolve x (ty : Ty.Ty Payload) : kept (resolve x ty).
Proof. intros s e s' E. by apply resolve_run in E as [K _]. Qed.

Lemma kept_violation kind cond msg (node : InstrNode Payload) : kept (add_violation module kind cond msg node).
Proof. intros s u s' [= _ <-]. split; cbn; [done|by eexists|done]. Qed.

Lemma and_guard_true g : and_guard g (bool_const true) = g.
Proof.
  unfold and_guard. destruct (expr_is_true g) eqn:E; [by apply expr_is_true_spec in E|].
  unfold expr_is_true. by rewrite bool_decide_eq_true_2.
Qed.

(** What a state without support reports holds where the block is executed. *)
Definition flagged (s : FuncTranslator) (guard : Expr) : Prop :=
  exists x, x ∈ t_violations s /\ Bmc.condition x = guard.

Lemma unsupported_flagged reason (node : InstrNode Payload) s u s' :
  add_unsupported_semantics func module reason node s = Some (u, s') -> flagged s' (current_guard s).
Proof.
  intros [= _ <-]. eexists. split; [apply elem_of_app; right; apply list_elem_of_here|].
  destruct (span node); cbn; apply and_guard_true.
Qed.

Lemma flagged_keeps s s' g : keeps s s' -> flagged s g -> flagged s' g.
Proof. intros K (x & Hx & C). exists x. split; [by eapply keeps_violation|done]. Qed.

Lemma kept_unsupported reason (node : InstrNode Payload) : kept (add_unsupported_semantics func module reason node).
Proof. apply kept_violation. Qed.

(** ** The edges that are recorded *)

Lemma record_edge_run target args cond g inc s inc' s' :
  record_edge func target args cond g inc s = Some (inc', s') -> keeps s s' /\
  exists xs, inc' = push_edge target {| e_guard := edge_guard g cond; e_args := xs |} inc.
Proof.
  unfold record_edge, mbind at 1, M_bind at 1. intros ([xs s1] & E1 & E)%bind_Some. injection E as <- <-.
  split; [|by exists xs]. revert E1. apply kept_mapM. intros [arg [id ty]].
  apply kept_bind; [apply kept_resolve|intros e]. apply kept_lift.
Qed.

Lemma record_cases_run g cases : forall conds inc s inc' s',
  record_cases func cases conds g inc s = Some (inc', s') -> keeps s s' /\
  exists es, inc' = push_all inc es /\
    map (fun p => (p.1, e_guard p.2)) es = zip_with (fun case cond => (case_target case, and_guard g cond)) cases conds.
Proof.
  induction cases as [|case cases IH]; intros [|cond conds] inc s inc' s'; cbn [record_cases zip_with];
    try (intros [= <- <-]; split; [reflexivity|by exists []]).
  unfold mbind at 1, M_bind at 1. intros ([inc1 s1] & E1 & E)%bind_Some.
  apply record_edge_run in E1 as (K1 & xs & ->). apply IH in E as (K & es & -> & G).
  split; [by etrans|]. eexists ((_, _) :: es). split; [done|]. cbn. by f_equal.
Qed.

Lemma switch_conditions_run e cases (node : InstrNode Payload) s conds s' :
  switch_conditions func module e cases node s = Some (conds, s') -> keeps s s' /\
  (forall cs, switch_constants e [] cases = Some cs -> conds = map (mk_eq e) cs) /\
  (switch_constants e [] cases = None -> flagged s' (current_guard s)).
Proof.
  intros E. split_and!.
  - revert E. revert s conds s'. change (kept (switch_conditions func module e cases node)). unfold switch_conditions.
    destruct (switch_constants e [] cases); [apply kept_ret|]. apply kept_bind; [apply kept_unsupported|intros _].
    apply kept_bind; [apply kept_mapM; intros _; apply kept_fresh|intros ps]. apply kept_ret.
  - intros cs C. unfold switch_conditions in E. rewrite C in E. by injection E as <- <-.
  - intros C. unfold switch_conditions in E. rewrite C in E. unfold mbind at 1, M_bind at 1 in E.
    apply bind_Some in E as ([u s1] & E1 & E). eapply flagged_keeps; [|by eapply unsupported_flagged].
    revert E. apply (kept_bind (mapM (fun _ => fresh_symbolic "switch_pick" Ty.Bool) cases)); [|intros; apply kept_ret].
    apply kept_mapM. intros _. apply kept_fresh.
Qed.

(** ** The constants of a switch *)

Lemma case_expr_reading k e c : switch_case_expr k e = Some c ->
  exists v, case_reading (sort_of e) k = Some v /\ forall r, eval r c = v.
Proof.
  unfold switch_case_expr, case_reading. destruct (is_bool_sort (sort_of e)).
  - destruct k; try done. intros [= <-]. eexists. split; [done|]. intros r. apply eval_built_bool.
  - intros (w & Hw & E)%bind_Some. rewrite Hw. destruct k; try done. injection E as <-. eexists. split; [done|].
    intros r. apply eval_built_bits. by apply bitvec_sort_only in Hw as [_ W].
Qed.

Lemma case_reading_expr k e v : case_reading (sort_of e) k = Some v -> is_Some (switch_case_expr k e).
Proof.
  unfold switch_case_expr, case_reading. destruct (is_bool_sort (sort_of e)); [by destruct k|].
  destruct (bitvec_width (sort_of e)) as [w|]; [|done]. by destruct k.
Qed.

(** The expressions of the cases stand for their readings. *)
Definition stands (v : val) (c : Expr) : Prop := is_scalar_value (value c) = true /\ forall r, eval r c = v.

Lemma constants_read e cases : forall acc cs, switch_constants e acc cases = Some cs ->
  exists vs cs', case_readings (sort_of e) cases = map Some vs /\ cs = acc ++ cs' /\ Forall2 stands vs cs'.
Proof.
  induction cases as [|case cases IH]; intros acc cs; cbn [switch_constants].
  { intros [= <-]. exists [], []. by rewrite app_nil_r. }
  intros (c & C & E)%bind_Some. destruct (bool_decide _); [done|].
  destruct (IH _ _ E) as (vs & cs' & Er & -> & F). pose proof (switch_case_scalar _ _ _ C) as Sc.
  destruct (case_expr_reading _ _ _ C) as (v & Ev & Sv). exists (v :: vs), (c :: cs').
  rewrite case_readings_cons, Ev, Er, <- app_assoc. split_and!; [done|done|]. constructor; [by split|done].
Qed.

Lemma stands_inj (rho : Valuation) v c d : stands v c -> stands v d -> c = d.
Proof. intros [Sc Ec] [Sd Ed]. apply (scalar_const_eq rho); [done|done|]. by rewrite Ec, Ed. Qed.

Lemma constants_distinct (rho : Valuation) e cases cs : switch_constants e [] cases = Some cs ->
  NoDup (case_readings (sort_of e) cases).
Proof.
  intros E. destruct (constants_read _ _ _ _ E) as (vs & cs' & Er & -> & F).
  destruct (switch_constants_spec _ _ _ _ E) as (Nd & _); [constructor|intros c Hc; by apply elem_of_nil in Hc|].
  rewrite Er. apply NoDup_alt. intros i j x Hi Hj. rewrite list_lookup_fmap in Hi, Hj.
  destruct (vs !! i) as [v|] eqn:Vi; [|done]. destruct (vs !! j) as [v'|] eqn:Vj; [|done]. cbn in Hi, Hj. simplify_eq.
  destruct (Forall2_lookup_l _ _ _ _ _ F Vi) as (c & Ci & Sc), (Forall2_lookup_l _ _ _ _ _ F Vj) as (d & Dj & Sd).
  rewrite (stands_inj rho _ _ _ Sc Sd) in Ci. by eapply NoDup_lookup.
Qed.

Lemma constants_exist e cases : forall acc vs, Forall2 stands vs acc ->
  NoDup (map Some vs ++ case_readings (sort_of e) cases) ->
  (forall r, r ∈ case_readings (sort_of e) cases -> is_Some r) -> is_Some (switch_constants e acc cases).
Proof.
  induction cases as [|case cases IH]; intros acc vs F Nd Rs; cbn [switch_constants]; [done|].
  rewrite case_readings_cons in Nd, Rs.
  destruct (Rs (case_reading (sort_of e) (case_value case))) as [v Ev]; [apply list_elem_of_here|].
  destruct (case_reading_expr _ _ _ Ev) as [c C]. rewrite C. cbn [mbind option_bind].
  destruct (case_expr_reading _ _ _ C) as (v' & Ev' & Sv). assert (v' = v) as -> by congruence.
  rewrite bool_decide_eq_false_2.
  - apply (IH _ (vs ++ [v])).
    + apply Forall2_app; [done|]. constructor; [|constructor]. split; [by eapply switch_case_scalar|done].
    + rewrite map_app, <- app_assoc. by rewrite Ev in Nd.
    + intros r Hr. apply Rs. by apply list_elem_of_further.
  - intros Hc. apply list_elem_of_lookup in Hc as [i Hi]. destruct (Forall2_lookup_r _ _ _ _ _ F Hi) as (u & Hu & _ & Eu).
    apply NoDup_app in Nd as (_ & Nd & _). apply (Nd (Some u)).
    + apply list_elem_of_fmap_2. by eapply list_elem_of_lookup_2.
    + rewrite Ev. assert (u = v) as ->; [|apply list_elem_of_here].
      rewrite <- (Eu (fun n => inhabitant (var_sort n))), Sv. done.
Qed.

(** ** What a terminator records *)

(** Every edge that is taken leads where the terminator says. *)
Definition directed (i : Inst) (vals : Values) (guard : Expr) (es : list (BlockId * IncomingEdge)) : Prop :=
  forall rho g, admissible rho -> eval rho guard = vbool g ->
  forall id e, (id, e) ∈ es -> is_true (eval rho (e_guard e)) -> selects rho vals i id.

Lemma guard_and_true rho g c x y : eval rho g = vbool x -> eval rho c = vbool y ->
  is_true (eval rho (and_guard g c)) -> y = true.
Proof. intros G C. rewrite (eval_and_guard rho g c x y) by done. intros T%is_true_vbool. by destruct x, y. Qed.

Lemma cond_directed cond e then_target then_args else_target else_args vals guard xs ys :
  vals !! cond = Some e -> is_bool_sort (sort_of e) = true ->
  directed (Inst.CondBr cond then_target then_args else_target else_args) vals guard
    [(then_target, {| e_guard := and_guard guard e; e_args := xs |});
     (else_target, {| e_guard := and_guard guard (mk_unary Not e); e_args := ys |})].
Proof.
  intros V S rho g A G id ed Hin T. destruct (bool_value rho e A S) as [b Eb].
  rewrite !elem_of_cons, elem_of_nil in Hin. destruct Hin as [[= -> ->]|[[= -> ->]|[]]]; cbn in T.
  - apply (guard_and_true rho guard e g b) in T as ->; [|done..]. by apply (selects_then rho vals cond e).
  - apply (guard_and_true rho guard _ g (negb b)) in T; [|done|by apply eval_mk_not].
    apply negb_true_iff in T as ->. by apply (selects_else rho vals cond e).
Qed.

(** The conditions of the cases, and whether one of them holds *)
Lemma equations_read rho e vs cs : Forall2 stands vs cs ->
  exists bs, map (eval rho) (map (mk_eq e) cs) = map vbool bs /\ (existsb id bs = false -> eval rho e ∉ vs).
Proof.
  induction 1 as [|v c vs cs [_ Ev] _ (bs & E & N)].
  { exists []. split; [done|]. intros _ Hin. by apply elem_of_nil in Hin. }
  destruct (eval_mk_eq rho e c) as (t & Et & It). exists (t :: bs). cbn. rewrite Et, E. split; [done|].
  intros [-> Nb]%orb_false_iff. rewrite Ev in It. apply not_elem_of_cons. split; [by intros Eq%It|by apply N].
Qed.

Lemma switch_directed value e dflt default_args cases cs guard vals es inc s inc' s' :
  vals !! value = Some e -> switch_constants e [] cases = Some cs ->
  map (fun p => (p.1, e_guard p.2)) es =
    zip_with (fun case cond => (case_target case, and_guard guard cond)) cases (map (mk_eq e) cs) ->
  record_edge func dflt default_args (default_condition (map (mk_eq e) cs)) guard inc s = Some (inc', s') ->
  exists xs, inc' = push_all inc [(dflt, xs)] /\
    directed (Inst.Switch value dflt default_args cases) vals guard (es ++ [(dflt, xs)]).
Proof.
  intros V C Ge (_ & xs & ->)%record_edge_run. eexists. split; [done|].
  destruct (constants_read _ _ _ _ C) as (vs & cs' & Er & -> & F). cbn [app] in *.
  intros rho g A G id ed [Hin|Hin]%elem_of_app T.
  - assert (Hp : (id, e_guard ed) ∈ map (fun p : BlockId * IncomingEdge => (p.1, e_guard p.2)) es)
      by (apply list_elem_of_fmap; by exists (id, ed)).
    rewrite Ge in Hp. apply list_elem_of_lookup in Hp as [i Hi].
    apply lookup_zip_with_Some in Hi as (case & c & [= -> Eg] & Hc & Hm). rewrite Eg in T.
    rewrite list_lookup_fmap in Hm. apply fmap_Some in Hm as (d & Hd & ->).
    destruct (eval_mk_eq rho e d) as (t & Et & It).
    apply (guard_and_true rho guard _ g t) in T as ->; [|done..].
    destruct (Forall2_lookup_r _ _ _ _ _ F Hd) as (v & Hv & _ & Ev).
    apply (selects_case rho vals value e dflt default_args cases case V); [by eapply list_elem_of_lookup_2|].
    assert (X : case_readings (sort_of e) cases !! i = Some (Some v)) by (by rewrite Er, list_lookup_fmap, Hv).
    unfold case_readings in X. rewrite list_lookup_fmap, Hc in X. injection X as ->.
    f_equal. rewrite <- (Ev rho). symmetry. by apply It.
  - apply list_elem_of_singleton in Hin as [= -> ->]. cbn in T.
    destruct (equations_read rho e vs cs' F) as (bs & Eb & Nb).
    rewrite (default_eval rho guard g _ bs G Eb) in T. apply is_true_vbool, andb_true_iff in T as [_ T%negb_true_iff].
    apply (selects_default rho vals value e dflt default_args cases V). rewrite Er.
    intros (v & Eq & Hv)%list_elem_of_fmap. injection Eq as Eq. apply (Nb T). by rewrite Eq.
Qed.

Lemma outgoing_run (node : InstrNode Payload) guard inc s inc' s' : is_branch (inst node) = true ->
  record_outgoing_edges func module node guard inc s = Some (inc', s') ->
  (decided (values s') (inst node) \/ ~ decided (values s') (inst node) /\ flagged s' (current_guard s)) /\
  exists es, inc' = push_all inc es /\
    (decided (values s') (inst node) -> directed (inst node) (values s') guard es).
Proof.
  intros B. unfold record_outgoing_edges. destruct (inst node) as [] eqn:I; try done; clear B.
  - intros (_ & xs & ->)%record_edge_run. split; [by left|]. eexists [(_, _)]. split; [done|].
    intros _ rho g _ _ id e [= -> _]%list_elem_of_singleton _. constructor.
  - unfold mbind at 1, M_bind at 1. intros ([e s1] & E1 & E)%bind_Some. apply resolve_run in E1 as [K1 V].
    unfold mbind at 1, M_bind at 1 in E. apply bind_Some in E as ([c s2] & E2 & E).
    assert (K2 : keeps s1 s2 /\ (is_bool_sort (sort_of e) = true -> c = e) /\
      (is_bool_sort (sort_of e) = false -> flagged s2 (current_guard s1))).
    { destruct (is_bool_sort (sort_of e)); [injection E2 as <- <-; by split_and!|].
      unfold mbind at 1, M_bind at 1 in E2. apply bind_Some in E2 as ([u t] & Eu & E2). pose proof (kept_fresh _ _ _ _ _ E2) as Kf.
      split_and!; [|done|intros _; eapply flagged_keeps; [exact Kf|by eapply unsupported_flagged]].
      etrans; [by eapply kept_unsupported|exact Kf]. }
    destruct K2 as (K2 & Ec & Fc). unfold mbind at 1, M_bind at 1 in E. apply bind_Some in E as ([inc3 s3] & E3 & E).
    apply record_edge_run in E3 as (K3 & xs & ->). apply record_edge_run in E as (K4 & ys & ->).
    assert (K24 : keeps s2 s') by (by etrans). assert (K14 : keeps s1 s') by (by etrans).
    pose proof (keeps_bound _ _ _ _ K14 V) as V'.
    destruct (is_bool_sort (sort_of e)) eqn:S.
    + rewrite (Ec eq_refl). split; [left; by exists e|]. eexists [(_, _); (_, _)]. split; [by cbn|]. intros _. by apply cond_directed.
    + assert (N : ~ exists e, values s' !! cond = Some e /\ is_bool_sort (sort_of e) = true) by (intros (d & Ed & Sd); congruence).
      split; [right; split; [done|]; rewrite <- (keeps_guard _ _ K1); eapply flagged_keeps; [exact K24|by apply Fc]|].
      eexists [(_, _); (_, _)]. split; [by cbn|]. intros D; by destruct (N D).
  - unfold record_switch_edges, mbind at 1, M_bind at 1. intros ([e s1] & E1 & E)%bind_Some. apply resolve_run in E1 as [K1 V].
    unfold mbind at 1, M_bind at 1 in E. apply bind_Some in E as ([conds s2] & E2 & E).
    apply switch_conditions_run in E2 as (K2 & Ec & Fc).
    unfold mbind at 1, M_bind at 1 in E. apply bind_Some in E as ([inc3 s3] & E3 & E).
    apply record_cases_run in E3 as (K3 & es & -> & Ge). pose proof (record_edge_run _ _ _ _ _ _ _ _ E) as (K4 & xs & Ei).
    assert (K24 : keeps s2 s') by (by etrans). assert (K14 : keeps s1 s') by (by etrans).
    pose proof (keeps_bound _ _ _ _ K14 V) as V'.
    destruct (switch_constants e [] cases) as [cs|] eqn:C.
    + rewrite (Ec cs eq_refl) in *. split.
      * left. exists e. split_and!; [done|by eapply (constants_distinct (fun n => inhabitant (var_sort n)))|].
        destruct (constants_read _ _ _ _ C) as (vs & _ & -> & _). intros r (x & -> & _)%list_elem_of_fmap. done.
      * destruct (switch_directed value e default default_args cases cs guard (values s') es _ _ _ _ V' C Ge E) as (ed & -> & D).
        exists (es ++ [(default, ed)]). split; [by rewrite push_all_app|done].
    + assert (N : ~ decided (values s') (Inst.Switch value default default_args cases)).
      { intros (d & Ed & Nd & Rs). assert (d = e) as -> by congruence.
        destruct (constants_exist e cases [] []) as [cs Cs]; [constructor|done|done|congruence]. }
      split; [right; split; [done|]; rewrite <- (keeps_guard _ _ K1); eapply flagged_keeps; [exact K24|by apply Fc]|].
      eexists (es ++ [(default, _)]). split; [by rewrite Ei, push_all_app|intros D; by destruct (N D)].
Qed.

(** ** Visits *)

Lemma edges_to_push id es : forall inc, edges_to id (push_all inc es) = edges_to id inc ++ edges_for id es.
Proof.
  induction es as [|[t e] es IH]; intros inc; [by rewrite app_nil_r|].
  change (push_all inc ((t, e) :: es)) with (push_all (push_edge t e inc) es). rewrite IH, edges_for_cons.
  unfold edges_to at 1, push_edge. destruct (decide (t = id)) as [->|N].
  - rewrite lookup_insert_eq. cbn [from_option Datatypes.id]. by rewrite <- app_assoc.
  - by rewrite lookup_insert_ne.
Qed.

(** What holds of the edges a visit records *)
Lemma visit_directed rho s_end v pend es term front gv bi be :
  visit_ok func module options rho s_end v pend es term front gv bi be -> is_branch (inst term) = true ->
  (decided (values (v_after v)) (inst term) \/
   ~ decided (values (v_after v)) (inst term) /\ flagged (v_after v) (v_guard v)) /\
  (admissible rho -> decided (values (v_after v)) (inst term) ->
    forall id, edge_taken rho v id -> selects rho (values (v_after v)) (inst term) id).
Proof.
  intros Vo B. pose proof (vo_run _ _ _ _ _ _ _ _ _ _ _ _ _ Vo) as E. unfold translate_body in E.
  rewrite (vo_body _ _ _ _ _ _ _ _ _ _ _ _ _ Vo), B in E.
  unfold mbind at 1, M_bind at 1 in E. apply bind_Some in E as ([u0 s0] & E0 & E). injection E0 as _ <-.
  unfold mbind at 1, M_bind at 1 in E. apply bind_Some in E as ([u1 s1] & E1 & E).
  unfold mbind at 1, M_bind at 1 in E. apply bind_Some in E as ([inc1 s2] & E2 & E).
  unfold mbind at 1, M_bind at 1 in E. apply bind_Some in E as ([u3 s3] & E3 & E). injection E3 as _ <-.
  injection E as Eo Ea. assert (Ev : values (v_after v) = values s2) by (by rewrite <- Ea). rewrite Ev.
  apply outgoing_run in E2 as (Se & es' & -> & D); [|done]. split.
  { destruct Se as [De|[Nd Fl]]; [by left|right]. split; [done|].
    destruct (each_sound _ front (node_sound func module options) _ _ _ E1) as (_ & X1 & _).
    { apply wf_set_guard; [exact (vo_wf _ _ _ _ _ _ _ _ _ _ _ _ _ Vo)|exact (vo_scoped _ _ _ _ _ _ _ _ _ _ _ _ _ Vo)]. }
    rewrite (ext_guard _ _ X1) in Fl. rewrite <- Ea. exact Fl. }
  intros A De id (e & He & T).
  apply (D De rho gv A (vo_value _ _ _ _ _ _ _ _ _ _ _ _ _ Vo) id e); [|done].
  unfold new_edges in He. rewrite <- Eo, edges_to_push, drop_app_length in He. by apply edges_for_in.
Qed.

(** An edge is taken exactly where control goes, if the block is executed. *)
Lemma follows_edge rho s_end v pend es term front gv bi be id : admissible rho ->
  visit_ok func module options rho s_end v pend es term front gv bi be -> edge_taken rho v id -> follows rho v id.
Proof.
  intros A Vo T. destruct (takes_branches _ _ _ _ _ _ _ _ _ _ _ _ _ _ Vo T) as (t & f & L & B).
  assert (t = term /\ f = front) as [-> ->].
  { pose proof (vo_body _ _ _ _ _ _ _ _ _ _ _ _ _ Vo) as L'. by simplify_eq. }
  destruct (visit_directed _ _ _ _ _ _ _ _ _ _ Vo B) as [[De|[Nd _]] D]; exists term, front; split; [done| |done|].
  - left. split; [done|by apply D].
  - by right.
Qed.

Lemma edge_follows rho s_end v pend es term front bi be id : admissible rho ->
  visit_ok func module options rho s_end v pend es term front true bi be -> follows rho v id -> edge_taken rho v id.
Proof.
  intros A Vo (t & f & L & [[De S]|[_ T]]); [|done].
  assert (t = term /\ f = front) as [-> ->].
  { pose proof (vo_body _ _ _ _ _ _ _ _ _ _ _ _ _ Vo) as L'. by simplify_eq. }
  pose proof (decided_branch _ _ De) as B. destruct (visit_directed _ _ _ _ _ _ _ _ _ _ Vo B) as [_ D].
  pose proof (vo_token _ _ _ _ _ _ _ _ _ _ _ _ _ Vo) as C. rewrite B in C. cbn in C.
  destruct (live_true es rho be (vo_live _ _ _ _ _ _ _ _ _ _ _ _ _ Vo)) as ([id' e] & He & Te); [lia|].
  assert (T : edge_taken rho v id').
  { exists e. rewrite (vo_edges _ _ _ _ _ _ _ _ _ _ _ _ _ Vo), edges_for_in. split; [done|]. cbn in Te. rewrite Te. by apply is_true_vbool. }
  by rewrite (selects_unique _ _ _ _ _ De S (D A De id' T)).
Qed.

Lemma edge_walk_walk rho s_end vs id p : admissible rho ->
  (forall v, v ∈ vs -> exists pend es term front gv bi be, visit_ok func module options rho s_end v pend es term front gv bi be) ->
  edge_walk rho vs id p -> walk rho vs id p.
Proof.
  intros A Ok K. induction K as [v Hv Nb|v id p Hv T K IH]; [by apply walk_end|].
  destruct (Ok v Hv) as (pend & es & term & front & gv & bi & be & Vo).
  apply walk_step with id; [done|by eapply follows_edge|done].
Qed.

End Walk.

End BmcWalk.
