(* ===== verification/BmcFunction.v ===== *)
(** * The encoding of a function

    [translate_state] put together: the parameters of the entry block, the order of the
    blocks, the visits.  The order is topological ([order_topological]), so what
    [BmcPaths] shows of the visits holds of the function's. *)

From S2P Require Import Prelude Artifact AyExpr Chc Bmc BvArith AyBuild AyTry F64 TrustIr AyEncode BmcExpr BmcOrder BmcTranslate BmcInvariant BmcSound BmcEdges BmcBlocks BmcPaths BmcWalk.

Module BmcFunction.
Import AyBuild AyTry AyEncode TrustIr BmcExpr BmcOrder BmcOrderSpec BmcTranslate BmcInvariant BmcSound BmcEdges BmcBlocks BmcPaths BmcWalk.

Section Function.
Context `{AyEncode} `{TrustIr} `{F64.NanCasts} `{!AySem} `{!AyEval} `{!AyEncodeEval}.
Context (func : Function_ Payload) (module : Module_ Payload) (options : TranslateOptions).

Notation Valuation := (string -> val).

(** ** The order *)

Lemma id_of_lookup idx (b : Block Payload) : blocks func !! idx = Some b -> id_of func idx = Some (block_id b).
Proof. intros E. unfold id_of. by rewrite E. Qed.

Lemma id_of_in (order : list nat) j (c : Block Payload) : j ∈ order -> blocks func !! j = Some c -> block_id c ∈ omap (id_of func) order.
Proof. intros Hj Hc. apply list_elem_of_omap. exists j. split; [done|by apply id_of_lookup]. Qed.

Lemma ids_unique (order : list nat) : NoDup (map block_id (blocks func)) -> NoDup order -> NoDup (omap (id_of func) order).
Proof.
  intros Nd. induction order as [|idx order IH]; intros No; [constructor|].
  apply NoDup_cons in No as [Ni No]. cbn. destruct (id_of func idx) as [i|] eqn:E; [|by apply IH].
  apply NoDup_cons. split; [|by apply IH]. intros (j & Hj & Ej)%list_elem_of_omap. apply Ni.
  assert (L : forall k, id_of func k = map block_id (blocks func) !! k) by (intros k; by rewrite list_lookup_fmap).
  rewrite L in E, Ej. by rewrite (NoDup_lookup _ _ _ _ Nd E Ej).
Qed.

Lemma order_topological order : acyclic_topo_order func = Some order -> topological func order.
Proof.
  intros (St & Pm & Fw)%topo_order_sound.
  assert (No : NoDup order) by (rewrite Pm; apply NoDup_seq).
  split; [done| |by apply ids_unique; [apply St|]|].
  - assert (G : forall pre post, order = pre ++ post -> forward func post); [|by apply (G [])].
    intros pre post. revert pre. induction post as [|i post IH]; intros pre Eq; [done|]. split.
    + assert (Hi : i ∈ seq 0 (length (blocks func))) by (rewrite <- Pm, Eq; set_solver).
      apply elem_of_seq in Hi as [_ Hi]. destruct (lookup_lt_is_Some_2 (blocks func) i Hi) as [b Hb].
      destruct (st_blocks func St b ltac:(by eapply list_elem_of_lookup_2)) as (term & ts & Ok).
      destruct (bo_body _ _ _ _ Ok) as (front & Ef & _). apply split_last_spec in Ef.
      exists b, term, front. split_and!; [done|done|]. intros t Ht.
      apply (terminator_branch _ ts (bo_targets _ _ _ _ Ok)) in Ht as Hm.
      apply list_elem_of_fmap in Hm as ([t' k] & -> & Hm).
      destruct (bo_arity _ _ _ _ Ok t' k Hm) as (c & Hc & <- & _). apply list_elem_of_lookup in Hc as [j Hj].
      apply (id_of_in _ j); [|done]. eapply (Fw pre i post b j c); [done|done|done|]. by exists term, front.
    + apply (IH (pre ++ [i])). by rewrite <- app_assoc.
  - destruct (proj1 (list_elem_of_fmap _ _ _) (st_entry func St)) as (b & Eb & [j Hj]%list_elem_of_lookup).
    rewrite Eb. apply (id_of_in _ j); [|done]. rewrite Pm. apply elem_of_seq. split; [lia|].
    by eapply lookup_lt_Some.
Qed.

(** ** The parameters of the function *)

Definition entry_state : option FuncTranslator := '(_, s) ← bind_entry_params func FuncTranslator_new; Some s.

Lemma bind_params_spec (l : list (ValueId * Ty.Ty Payload)) : forall s u s', wf s ->
  each (fun '(v, ty) => e ← fresh_symbolic ("param_" +:+ pretty v) ty; bind v e) l s = Some (u, s') ->
  wf s' /\ grows s s' /\ t_constraints s' = t_constraints s /\ t_violations s' = t_violations s /\
  current_guard s' = current_guard s.
Proof.
  induction l as [|[v ty] l IH]; intros s u s' W; cbn [each]; [intros [= _ <-]; by split_and!|].
  unfold mbind at 1, M_bind at 1. intros ([u1 s1] & E1 & E)%bind_Some.
  unfold mbind at 1, M_bind at 1 in E1. apply bind_Some in E1 as ([e s0] & Ef & Eb).
  apply fresh_spec in Ef as (sort & _ & -> & ->). injection Eb as _ <-.
  set (name := fresh_name ("param_" +:+ pretty v) s) in *.
  assert (W1 : wf (declare name sort s)) by (by apply wf_declare).
  assert (S1 : scoped (declare name sort s) (expr_var name sort)) by (apply scoped_var, declared_declare).
  destruct (IH _ _ _ (wf_bind _ v _ W1 S1) E) as (W' & G' & C' & V' & T'). split_and!; try done.
  etrans; [apply (ext_grows _ _ (ext_declare s name sort))|]. etrans; [|exact G']. by apply ext_grows, ext_same.
Qed.

Lemma entry_ready s : entry_state = Some s ->
  ready ∅ s [] /\ t_constraints s = [] /\ t_violations s = [].
Proof.
  unfold entry_state. intros ([u s1] & E & [= ->])%bind_Some. unfold bind_entry_params in E.
  assert (R : wf s /\ t_constraints s = [] /\ t_violations s = [] /\ current_guard s = bool_const true).
  { destruct (List.find _ _) as [b|].
    - by destruct (bind_params_spec _ _ _ _ wf_new E) as (W & _ & C & V & T).
    - injection E as _ <-. split_and!; [apply wf_new|done..]. }
  destruct R as (W & C & V & T). split; [|done]. split; [done|done| |constructor].
  intros id. unfold edges_to. by rewrite lookup_empty.
Qed.

(** ** The visits of the function *)

Definition function_visits : list (Visit) :=
  match entry_state, acyclic_topo_order func with
  | Some s, Some order => visits func module options order ∅ s
  | _, _ => []
  end.

Record encoded (order : list nat) (s : FuncTranslator) : Prop := {
  enc_order : acyclic_topo_order func = Some order;
  enc_state : translate_state func module options = Some s;
}.

Lemma encoded_blocks order s : encoded order s -> exists s0 inc, topological func order /\
  ready ∅ s0 [] /\ t_constraints s0 = [] /\ t_violations s0 = [] /\ entry_state = Some s0 /\
  function_visits = visits func module options order ∅ s0 /\
  translate_blocks func module options order ∅ s0 = Some (inc, s).
Proof.
  intros [Eo Es]. unfold translate_state in Es. rewrite Eo in Es. apply bind_Some in Es as ([u s1] & E & [= ->]).
  unfold mbind at 1, M_bind at 1 in E. apply bind_Some in E as ([u0 s0] & E0 & E).
  unfold translate_guarded_blocks in E. unfold mbind at 1, M_bind at 1 in E.
  apply bind_Some in E as ([inc s2] & E & [= _ ->]).
  assert (E1 : entry_state = Some s0) by (unfold entry_state; by rewrite E0).
  destruct (entry_ready s0 E1) as (R & C & V). exists s0, inc. split_and!; try done.
  - by apply order_topological.
  - unfold function_visits. by rewrite E1, Eo.
Qed.

(** ** Edges and the blocks they lead to *)

Lemma new_edges_ahead order : forall inc s pend inc' s' u id e, ready inc s pend -> forward func order ->
  translate_blocks func module options order inc s = Some (inc', s') ->
  u ∈ visits func module options order inc s -> e ∈ new_edges u id ->
  id ∈ omap (id_of func) order /\ (NoDup (omap (id_of func) order) -> id <> block_id (v_block u)).
Proof.
  induction order as [|idx order IH]; intros inc s pend inc' s' u id e Rd Fw E Hu He; [by apply elem_of_nil in Hu|].
  apply translate_blocks_cons in E as (b & g & s1 & inc2 & s2 & Hb & E1 & E2 & E & Ev).
  destruct Fw as [(b' & term & front & Hb' & L & Ft) Fw]. rewrite Hb in Hb'. injection Hb' as <-.
  destruct (block_step func module options idx b inc s pend g s1 inc2 s2 term front Rd L E1 E2)
    as (es & Rd2 & Bd & W1 & G1 & _).
  rewrite Ev in Hu. rewrite (omap_cons func idx order b Hb). apply elem_of_cons in Hu as [->|Hu].
  - rewrite (new_edges_for _ es (without (block_id b) pend)) in He; [|apply represents_delete, Rd|apply Bd].
    apply edges_for_in in He. assert (A : id ∈ omap (id_of func) order).
    { apply Ft. eapply (bd_targets _ _ _ _ _ _ _ Bd); [done|]. by apply (list_elem_of_fmap_2 fst _ (id, e)). }
    split; [by apply list_elem_of_further|]. cbn. by intros [Nb _]%NoDup_cons ->.
  - destruct (IH inc2 s2 _ inc' s' u id e Rd2 Fw E Hu He) as [A N].
    split; [by apply list_elem_of_further|]. intros [_ Nd]%NoDup_cons. by apply N.
Qed.

Lemma pending_arrives order : forall inc s pend inc' s' v e, ready inc s pend -> forward func order ->
  NoDup (omap (id_of func) order) -> translate_blocks func module options order inc s = Some (inc', s') ->
  v ∈ visits func module options order inc s -> e ∈ edges_to (block_id (v_block v)) inc ->
  e ∈ edges_to (block_id (v_block v)) (v_incoming v).
Proof.
  induction order as [|idx order IH]; intros inc s pend inc' s' v e Rd Fw Nd E Hv He; [by apply elem_of_nil in Hv|].
  apply translate_blocks_cons in E as (b & g & s1 & inc2 & s2 & Hb & E1 & E2 & E & Ev).
  destruct Fw as [(b' & term & front & Hb' & L & Ft) Fw]. rewrite Hb in Hb'. injection Hb' as <-.
  destruct (block_step func module options idx b inc s pend g s1 inc2 s2 term front Rd L E1 E2)
    as (es & Rd2 & Bd & W1 & G1 & _).
  rewrite (omap_cons func idx order b Hb) in Nd. apply NoDup_cons in Nd as [Nb Nd].
  rewrite Ev in Hv. apply elem_of_cons in Hv as [->|Hv]; [done|].
  apply (IH inc2 s2 _ inc' s' v e Rd2 Fw Nd E Hv).
  rewrite (rd_pending _ _ _ Rd2), edges_for_app, edges_for_without, decide_False.
  - apply elem_of_app. left. by rewrite <- (rd_pending _ _ _ Rd).
  - intros Eq. apply Nb. rewrite Eq. by eapply visits_ids.
Qed.

(** An edge recorded by a visit is there when its target is visited. *)
Lemma edge_arrives order : forall inc s pend inc' s' u v e, ready inc s pend -> forward func order ->
  NoDup (omap (id_of func) order) -> translate_blocks func module options order inc s = Some (inc', s') ->
  u ∈ visits func module options order inc s -> v ∈ visits func module options order inc s ->
  e ∈ new_edges u (block_id (v_block v)) -> e ∈ edges_to (block_id (v_block v)) (v_incoming v).
Proof.
  induction order as [|idx order IH]; intros inc s pend inc' s' u v e Rd Fw Nd E Hu Hv He; [by apply elem_of_nil in Hu|].
  destruct (new_edges_ahead _ _ _ _ _ _ u _ e Rd Fw E Hu He) as [_ Ne]. specialize (Ne Nd).
  apply translate_blocks_cons in E as (b & g & s1 & inc2 & s2 & Hb & E1 & E2 & E & Ev).
  destruct Fw as [(b' & term & front & Hb' & L & Ft) Fw]. rewrite Hb in Hb'. injection Hb' as <-.
  destruct (block_step func module options idx b inc s pend g s1 inc2 s2 term front Rd L E1 E2)
    as (es & Rd2 & Bd & W1 & G1 & _).
  rewrite (omap_cons func idx order b Hb) in Nd. apply NoDup_cons in Nd as [Nb Nd].
  rewrite Ev in Hu, Hv. apply elem_of_cons in Hv as [->|Hv]; apply elem_of_cons in Hu as [->|Hu].
  - by destruct Ne.
  - destruct (new_edges_ahead _ _ _ _ _ _ u _ e Rd2 Fw E Hu He) as [A _]. by destruct (Nb A).
  - apply (pending_arrives order inc2 s2 _ inc' s' v e Rd2 Fw Nd E Hv).
    rewrite (rd_pending _ _ _ Rd2), edges_for_app. apply elem_of_app. right.
    rewrite (new_edges_for _ es (without (block_id b) pend)) in He; [done|apply represents_delete, Rd|apply Bd].
  - by apply (IH inc2 s2 _ inc' s' u v e Rd2 Fw Nd E Hu Hv He).
Qed.

(** ** What holds of the visits of a function *)

Lemma encoded_ok order s rho : encoded order s -> admissible rho -> sorts_agree s -> wired function_visits rho ->
  forall v, v ∈ function_visits -> exists pend es term front gv bi be,
    visit_ok func module options rho s v pend es term front gv bi be.
Proof.
  intros En A S Wi v Hv. destruct (encoded_blocks order s En) as (s0 & inc & To & Rd & _ & _ & _ & Ev & E).
  rewrite Ev in *. by apply (visits_ok func module options order ∅ s0 [] inc s rho [] Rd (topo_forward _ _ To) E A S Wi).
Qed.

Lemma encoded_unique order s u v : encoded order s -> u ∈ function_visits -> v ∈ function_visits ->
  block_id (v_block u) = block_id (v_block v) -> u = v.
Proof.
  intros En. destruct (encoded_blocks order s En) as (s0 & inc & To & _ & _ & _ & _ & Ev & _). rewrite Ev.
  apply visits_unique, To.
Qed.

Lemma edge_path_exists order s rho : encoded order s -> admissible rho -> sorts_agree s -> wired function_visits rho ->
  exists p, edge_walk rho function_visits (entry func) p /\ guards_on rho function_visits p /\ p `sublist_of` order.
Proof.
  intros En A S Wi. destruct (encoded_blocks order s En) as (s0 & inc & To & Rd & _ & _ & _ & Ev & E).
  rewrite Ev in *. destruct To as [Nd Fw Nu En0].
  apply (walk_pending func module options order ∅ s0 [] inc s rho [] Rd Fw Nd Nu E); try done.
  intros t Ht. by apply elem_of_nil in Ht.
Qed.

Lemma edge_path_only order s rho p q : encoded order s -> admissible rho -> sorts_agree s -> wired function_visits rho ->
  edge_walk rho function_visits (entry func) p -> edge_walk rho function_visits (entry func) q -> p = q.
Proof.
  intros En A S Wi P Q. eapply (edge_walk_unique func module options rho s); [|intros u v; by eapply encoded_unique|exact P|exact Q].
  by eapply encoded_ok.
Qed.

(** The guard of a block holds that a taken edge leads to. *)
Lemma guard_arrives order s rho u v : encoded order s -> admissible rho -> sorts_agree s -> wired function_visits rho ->
  u ∈ function_visits -> v ∈ function_visits -> edge_taken rho u (block_id (v_block v)) ->
  eval rho (v_guard v) = vbool true.
Proof.
  intros En A S Wi Hu Hv (e & He & T).
  destruct (encoded_ok order s rho En A S Wi v Hv) as (pend & es & term & front & gv & bi & be & Vo).
  rewrite (vo_value _ _ _ _ _ _ _ _ _ _ _ _ _ Vo). f_equal.
  destruct (decide (block_id (v_block v) = entry func)) as [Eb|Nb].
  - destruct (vo_entry _ _ _ _ _ _ _ _ _ _ _ _ _ Vo Eb) as [Eg _].
    pose proof (vo_value _ _ _ _ _ _ _ _ _ _ _ _ _ Vo) as G. rewrite Eg, eval_built_bool in G. by apply vbool_inj in G.
  - rewrite (vo_disjunction _ _ _ _ _ _ _ _ _ _ _ _ _ Vo Nb).
    destruct (encoded_blocks order s En) as (s0 & inc & To & Rd & _ & _ & _ & Ev & E). rewrite Ev in Hu, Hv.
    pose proof (edge_arrives order ∅ s0 [] inc s u v e Rd (topo_forward _ _ To) (topo_unique _ _ To) E Hu Hv He) as Hin.
    pose proof (vo_incoming _ _ _ _ _ _ _ _ _ _ _ _ _ Vo) as Gi. apply list_elem_of_lookup in Hin as [i Hi].
    destruct (taken_edge _ rho bi i e Gi Hi) as (t & Ht & Et). rewrite Et in T. apply is_true_vbool in T as ->.
    apply existsb_exists. exists true. split; [|done]. apply list_elem_of_In. by eapply list_elem_of_lookup_2.
Qed.

Lemma walk_edge_walk order s rho id p : encoded order s -> admissible rho -> sorts_agree s -> wired function_visits rho ->
  walk rho function_visits id p ->
  (forall v, v ∈ function_visits -> block_id (v_block v) = id -> eval rho (v_guard v) = vbool true) ->
  edge_walk rho function_visits id p.
Proof.
  intros En A S Wi K. induction K as [v Hv Nb|v id p Hv F K IH]; intros G; [by apply edge_walk_end|].
  destruct (encoded_ok order s rho En A S Wi v Hv) as (pend & es & term & front & gv & bi & be & Vo).
  assert (gv = true) as ->.
  { pose proof (vo_value _ _ _ _ _ _ _ _ _ _ _ _ _ Vo) as Gv. rewrite (G v Hv eq_refl) in Gv. by apply vbool_inj in Gv. }
  pose proof (edge_follows func module options rho s v pend es term front bi be id A Vo F) as T.
  apply edge_walk_step with id; [done|done|]. apply IH. intros u Hu <-. by apply (guard_arrives order s rho v u).
Qed.

(** The walk along edges from the entry is the execution. *)
Lemma execution_walk order s rho p : encoded order s -> admissible rho -> sorts_agree s -> wired function_visits rho ->
  walk rho function_visits (entry func) p <-> edge_walk rho function_visits (entry func) p.
Proof.
  intros En A S Wi. split; intros K.
  - apply (walk_edge_walk order s); try done. intros v Hv Eb.
    destruct (encoded_ok order s rho En A S Wi v Hv) as (pend & es & term & front & gv & bi & be & Vo).
    destruct (vo_entry _ _ _ _ _ _ _ _ _ _ _ _ _ Vo Eb) as [-> _]. apply eval_built_bool.
  - apply (edge_walk_walk func module options rho s); [done| |done]. by eapply encoded_ok.
Qed.

Lemma path_exists order s rho : encoded order s -> admissible rho -> sorts_agree s -> wired function_visits rho ->
  exists p, walk rho function_visits (entry func) p /\ guards_on rho function_visits p /\ p `sublist_of` order.
Proof.
  intros En A S Wi. destruct (edge_path_exists order s rho En A S Wi) as (p & K & R). exists p.
  split; [|done]. by apply (execution_walk order s).
Qed.

Lemma path_only order s rho p q : encoded order s -> admissible rho -> sorts_agree s -> wired function_visits rho ->
  walk rho function_visits (entry func) p -> walk rho function_visits (entry func) q -> p = q.
Proof. intros En A S Wi. rewrite !(execution_walk order s) by done. by apply (edge_path_only order s). Qed.

(** The constraints of the condition are those of the entries and the assumptions. *)
Lemma visits_after order : forall inc s pend inc' s' v, ready inc s pend -> forward func order ->
  translate_blocks func module options order inc s = Some (inc', s') -> v ∈ visits func module options order inc s ->
  grows (v_before v) (v_entered v) /\ grows (v_entered v) s'.
Proof.
  induction order as [|idx order IH]; intros inc s pend inc' s' v Rd Fw E Hv; [by apply elem_of_nil in Hv|].
  apply translate_blocks_cons in E as (b & g & s1 & inc2 & s2 & Hb & E1 & E2 & E & Ev).
  destruct Fw as [(b' & term & front & Hb' & L & Ft) Fw]. rewrite Hb in Hb'. injection Hb' as <-.
  destruct (block_step func module options idx b inc s pend g s1 inc2 s2 term front Rd L E1 E2)
    as (es & Rd2 & Bd & W1 & G1 & _).
  rewrite Ev in Hv. apply elem_of_cons in Hv as [->|Hv]; [|by eapply IH].
  split; [done|]. destruct (blocks_ready func module options order inc2 s2 _ inc' s' Rd2 Fw E) as (_ & _ & G').
  cbn. etrans; [apply Bd|exact G'].
Qed.

Lemma constraints_wire order s rho : encoded order s -> (forall c, c ∈ t_constraints s -> is_true (eval rho c)) ->
  wired function_visits rho.
Proof.
  intros En C v Hv c Hc. destruct (encoded_blocks order s En) as (s0 & inc & To & Rd & _ & _ & _ & Ev & E).
  rewrite Ev in Hv. destruct (visits_after order ∅ s0 [] inc s v Rd (topo_forward _ _ To) E Hv) as [G G'].
  apply C. apply (added_in _ _ _ G) in Hc. destruct (grows_constraints _ _ G') as [k Ek]. rewrite Ek.
  apply elem_of_app. by left.
Qed.

(** The values of the parameters of a block an edge leads to *)
Lemma arguments_arrive order s rho u v e pos pid ty arg : encoded order s -> admissible rho -> sorts_agree s ->
  wired function_visits rho -> u ∈ function_visits -> v ∈ function_visits -> block_id (v_block v) <> entry func ->
  e ∈ new_edges u (block_id (v_block v)) -> eval rho (e_guard e) = vbool true ->
  block_params (v_block v) !! pos = Some (pid, ty) -> e_args e !! pos = Some arg ->
  exists param, (NoDup (map fst (block_params (v_block v))) -> values (v_entered v) !! pid = Some param) /\
    (sort_of arg = sort_of param -> eval rho param = eval rho arg) /\
    (sort_of arg <> sort_of param -> exists x, x ∈ t_violations s /\ is_true (eval rho (Bmc.condition x))).
Proof.
  intros En A S Wi Hu Hv Ne He Te Hp Ha.
  destruct (encoded_ok order s rho En A S Wi v Hv) as (pend & es & term & front & gv & bi & be & Vo).
  destruct (encoded_blocks order s En) as (s0 & inc & To & Rd & _ & _ & _ & Ev & E). rewrite Ev in *.
  pose proof (edge_arrives order ∅ s0 [] inc s u v e Rd (topo_forward _ _ To) (topo_unique _ _ To) E Hu Hv He) as Hin.
  destruct (ent_params _ _ _ _ _ _ (vo_other _ _ _ _ _ _ _ _ _ _ _ _ _ Vo Ne) pos pid ty) as (param & Pt & Ck & Vp).
  { apply list_elem_of_lookup. exists pos. by rewrite list_lookup_imap, Hp. }
  exists param. split_and!.
  - intros Nd. apply Vp. assert (Eq : forall l : list (ValueId * Ty.Ty Payload),
      map (fun q : nat * (ValueId * Ty.Ty Payload) => fst (snd q)) (imap pair l) = map fst l); [|by rewrite Eq].
    intros l. apply list_eq. intros i. rewrite !list_lookup_fmap, list_lookup_imap. by destruct (l !! i).
  - intros Es. by apply (Pt rho (Wi v Hv) e arg Hin Te Ha).
  - intros Ns. destruct (Ck e arg Hin Ha Ns) as (x & Hx & Ec). exists x. split.
    + destruct (visits_after order ∅ s0 [] inc s v Rd (topo_forward _ _ To) E Hv) as [_ [_ _ [k Ek] _]]. rewrite Ek.
      apply elem_of_app. by left.
    + rewrite Ec, Te. by apply is_true_vbool.
Qed.

(** ** The guards are the path of an execution *)

(** C13: in an acyclic function, a valuation of the encoding decides one execution.
    When it satisfies the constraints on guards and parameters, the execution from the
    entry - each terminator handing on to the block it names for the value of its operand
    ([follows]) - is unique, and the guard of a block holds exactly when the block is on
    it. *)
Theorem guards_are_path order s rho p : encoded order s -> admissible rho -> sorts_agree s ->
  wired function_visits rho -> walk rho function_visits (entry func) p ->
  guards_on rho function_visits p /\ (forall q, walk rho function_visits (entry func) q -> q = p).
Proof.
  intros En A S Wi K. destruct (path_exists order s rho En A S Wi) as (q & Kq & G & _).
  rewrite (path_only order s rho p q En A S Wi K Kq). split; [done|]. intros q' K'.
  by apply (path_only order s rho q' q).
Qed.

(** C17: the execution never gets stuck.  From the entry it reaches a block that does not
    branch, going forward in the order of the blocks and through none of them twice. *)
Theorem execution_completes order s rho : encoded order s -> admissible rho -> sorts_agree s ->
  wired function_visits rho ->
  exists p, walk rho function_visits (entry func) p /\ p `sublist_of` order /\ NoDup p /\
    (exists v, v ∈ function_visits /\ last p = Some (v_idx v) /\ ~ branches v).
Proof.
  intros En A S Wi. destruct (path_exists order s rho En A S Wi) as (p & K & _ & Sub). exists p.
  destruct (encoded_blocks order s En) as (_ & _ & To & _). split_and!; [done|done|by eapply sublist_NoDup; [exact (topo_nodup _ _ To)|]|].
  clear Sub. revert K. generalize (entry func). intros i K. induction K as [v Hv Nb|v j p Hv T K IH].
  - by exists v.
  - destruct IH as (u & Hu & L & Nb). exists u. split_and!; [done| |done].
    rewrite last_cons. by rewrite L.
Qed.

(** C15: the constraints on guards and parameters exclude no execution.  Every choice of
    the other variables - the parameters of the function, values read from outside, picks
    of overlapping cases - is completed by guards and block parameters that satisfy them. *)
Theorem guards_always_exist order s rho : encoded order s -> admissible rho -> sorts_agree s ->
  exists rho', admissible rho' /\ wired function_visits rho' /\
    forall n, input function_visits n -> rho' n = rho n.
Proof.
  intros En A S. destruct (encoded_blocks order s En) as (s0 & inc & To & Rd & _ & _ & _ & Ev & E).
  rewrite Ev. apply (wiring_extends func module options order ∅ s0 [] inc s rho [] Rd (topo_forward _ _ To)
    (topo_unique _ _ To) E A S); [done|]. cbn. destruct (decide _); lia.
Qed.

(** entering a block along a taken edge gives each parameter the value of the
    argument the edge carries, or, when the argument has another sort, a violation that
    holds. *)
Theorem arguments_passed order s rho u v e pos pid ty arg : encoded order s -> admissible rho -> sorts_agree s ->
  wired function_visits rho -> u ∈ function_visits -> v ∈ function_visits -> block_id (v_block v) <> entry func ->
  e ∈ new_edges u (block_id (v_block v)) -> is_true (eval rho (e_guard e)) ->
  NoDup (map fst (block_params (v_block v))) ->
  block_params (v_block v) !! pos = Some (pid, ty) -> e_args e !! pos = Some arg ->
  (exists param, values (v_entered v) !! pid = Some param /\ eval rho param = eval rho arg) \/
  exists x, x ∈ t_violations s /\ is_true (eval rho (Bmc.condition x)).
Proof.
  intros En A S Wi Hu Hv Ne He Te Nd Hp Ha.
  assert (Tv : eval rho (e_guard e) = vbool true).
  { destruct (encoded_ok order s rho En A S Wi u Hu) as (pend & es & term & front & gv & bi & be & Vo).
    rewrite (vo_edges _ _ _ _ _ _ _ _ _ _ _ _ _ Vo), edges_for_in in He.
    pose proof (vo_live _ _ _ _ _ _ _ _ _ _ _ _ _ Vo) as L. apply list_elem_of_lookup in He as [i Hi].
    assert (Hm : map (fun p : BlockId * IncomingEdge => eval rho (e_guard p.2)) es !! i = Some (eval rho (e_guard e)))
      by (by rewrite list_lookup_fmap, Hi).
    unfold live in L. rewrite L, list_lookup_fmap in Hm. destruct (be !! i) as [t|]; [|done].
    injection Hm as Hm. rewrite <- Hm in Te |- *. by apply is_true_vbool in Te as ->. }
  destruct (arguments_arrive order s rho u v e pos pid ty arg En A S Wi Hu Hv Ne He Tv Hp Ha) as (param & Vp & Eq & Nq).
  destruct (decide (sort_of arg = sort_of param)); [left|right; by apply Nq].
  exists param. split; [by apply Vp|by apply Eq].
Qed.

(** C4: a model of the verification condition is an execution with a failing check.
    Its guards are the blocks of the execution from the entry, which goes where the
    terminators say ([follows]), and a violation it satisfies was recorded for a block of
    this execution: no check of code that is not executed can
    make the condition satisfiable. *)
Theorem violation_on_path order s vc rho : encoded order s -> translate_function func module options = Some vc ->
  sorts_agree s -> Bmc.violated vc rho ->
  exists p, walk rho function_visits (entry func) p /\ guards_on rho function_visits p /\
    exists v x, v ∈ function_visits /\ v_idx v ∈ p /\ x ∈ Bmc.violations vc /\ reported v x /\
      is_true (eval rho (Bmc.condition x)).
Proof.
  intros En Et S (A & C & x & Hx & T). unfold translate_function in Et. rewrite (enc_state _ _ En) in Et.
  injection Et as <-. cbn in C, Hx. pose proof (constraints_wire order s rho En C) as Wi.
  destruct (path_exists order s rho En A S Wi) as (p & K & G & _). exists p. split_and!; [done|done|].
  assert (R : exists v, v ∈ function_visits /\ reported v x).
  { destruct (encoded_blocks order s En) as (s0 & inc & To & Rd & _ & V0 & _ & Ev & E). rewrite Ev.
    destruct (visits_report func module options order ∅ s0 [] inc s x Rd (topo_forward _ _ To) E Hx) as [Old|R]; [|done].
    rewrite V0 in Old. by apply elem_of_nil in Old. }
  destruct R as (v & Hv & R). exists v, x. split_and!; try done.
  destruct (encoded_ok order s rho En A S Wi v Hv) as (pend & es & term & front & gv & bi & be & Vo).
  pose proof (reported_guard _ _ _ _ _ _ _ _ _ _ _ _ _ _ Vo R T) as ->.
  pose proof (vo_value _ _ _ _ _ _ _ _ _ _ _ _ _ Vo) as Gv. rewrite (G v Hv) in Gv.
  apply vbool_inj in Gv. by apply bool_decide_eq_true in Gv.
Qed.

End Function.

End BmcFunction.
