(* ===== verification/BmcChecks.v ===== *)
(** * The checks of the bounded encoder

    An instruction without exact semantics is not passed over: it is a violation under
    the guard of its block ([node_flags]).  [visit_trace] lists the instructions of the
    visited blocks with the states they were translated in.  An instruction
    [leaves_free] a result when it binds it to an expression with a variable introduced
    there.  [free_reported] shows that every such instruction with bound operands is a
    violation, but for the results that any value is right for ([open_by_design]: an
    undefined value, an address, the result of a function of the module, memory without
    an array, which is a check of its own) and four that are havocked without a violation
    ([gap]). *)

From S2P Require Import Prelude Artifact AyExpr Chc Bmc BvArith AyBuild AyTry F64 TrustIr AyEncode BmcExpr BmcOrder BmcTranslate BmcInvariant BmcSound BmcEdges BmcBlocks BmcPaths BmcWalk BmcFunction.

Module BmcChecks.
Import AyBuild AyTry AyEncode TrustIr BmcExpr BmcOrder BmcOrderSpec BmcTranslate BmcInvariant BmcSound BmcEdges BmcBlocks BmcPaths BmcWalk BmcFunction.

Section Checks.
Context `{AyEncode} `{TrustIr} `{F64.NanCasts} `{!AySem} `{!AyEval} `{!AyEncodeEval}.
Context (func : Function_ Payload) (module : Module_ Payload) (options : TranslateOptions).

Notation Ty := (Ty.Ty Payload).
Notation Node := (InstrNode Payload).

(** ** Steps that report *)

(** A step that adds a violation where its guard holds *)
Definition flags {A} (m : M A) (s : FuncTranslator) : Prop :=
  forall a s', m s = Some (a, s') -> wf s ->
  exists x, x ∈ t_violations s' /\ Bmc.condition x = current_guard s.

Lemma violation_flags kind msg (node : Node) s : flags (add_violation module kind (bool_const true) msg node) s.
Proof.
  intros a s' E _. injection E as _ <-. eexists. split; [apply elem_of_app; right; apply list_elem_of_here|].
  destruct (span node); cbn; apply and_guard_true.
Qed.

Lemma unsupported_flags reason (node : Node) s : flags (add_unsupported_semantics func module reason node) s.
Proof. apply violation_flags. Qed.

Lemma flags_first {A B} (m : M A) (k : A -> M B) s : flags m s ->
  (forall a s', wf s' -> ext s s' -> sound any (k a) s') -> sound any m s -> flags (m ≫= k) s.
Proof.
  intros F K S b s' E W. unfold mbind, M_bind in E. cbn in E. destruct (m s) as [[a s1]|] eqn:Em; [|done].
  cbn in E. destruct (F a s1 Em W) as (x & Hx & C). destruct (S a s1 Em W) as (W1 & X1 & _).
  destruct (K a s1 W1 X1 b s' E W1) as (_ & X2 & _). exists x. split; [|done].
  destruct (grows_violations _ _ (ext_grows _ _ X2)) as [vs ->]. apply elem_of_app. by left.
Qed.

Lemma flags_later {A B} (R : FuncTranslator -> A -> Prop) (m : M A) (k : A -> M B) s : sound R m s ->
  (forall a s', wf s' -> ext s s' -> R s' a -> flags (k a) s') -> flags (m ≫= k) s.
Proof.
  intros S F b s' E W. unfold mbind, M_bind in E. cbn in E. destruct (m s) as [[a s1]|] eqn:Em; [|done].
  cbn in E. destruct (S a s1 Em W) as (W1 & X1 & Ra). destruct (F a s1 W1 X1 Ra b s' E W1) as (x & Hx & C).
  exists x. split; [done|]. by rewrite C, (ext_guard _ _ X1).
Qed.

Lemma flags_gets {A B} (f : FuncTranslator -> A) (k : A -> M B) s : flags (k (f s)) s -> flags (gets f ≫= k) s.
Proof. intros F b s' E W. by apply (F b s'). Qed.

Lemma flags_lift {A B} (o : option A) (k : A -> M B) s : (forall a, o = Some a -> flags (k a) s) -> flags (lift o ≫= k) s.
Proof.
  intros F b s' E W. unfold mbind, M_bind, lift in E. cbn in E. destruct o as [a|]; [|done]. by apply (F a eq_refl b s').
Qed.

#[local] Hint Resolve fresh_sound bind_sound resolve_sound bind_result_sound add_violation_sound
  unsupported_sound havoc_sound eval_binop_sound eval_icmp_sound : bmc.

(** A step before the report, or the report *)
Ltac flag :=
  match goal with
  | |- flags (add_unsupported_semantics _ _ _ _) _ => apply unsupported_flags
  | |- flags (gets _ ≫= _) _ => apply flags_gets
  | |- flags (lift _ ≫= _) _ => apply flags_lift; intros ? ?
  | |- flags (add_unsupported_semantics _ _ _ _ ≫= _) ?s =>
      apply flags_first; [apply unsupported_flags| |apply unsupported_sound];
      let s' := fresh "s" in let W := fresh "W" in let X := fresh "X" in
      intros _ s' W X; advance s s' X; steps
  | |- flags (_ ≫= _) ?s =>
      eapply flags_later; [solve [eauto with bmc]|];
      let a := fresh "a" in let s' := fresh "s" in let W := fresh "W" in let X := fresh "X" in let R := fresh "R" in
      intros a s' W X R; advance s s' X
  end.
Ltac flag_all := repeat flag.

Lemma havoc_flags p (ty : Ty) reason (node : Node) s : flags (havoc_result func module p ty reason node) s.
Proof. unfold havoc_result. flag_all. Qed.
#[local] Hint Resolve havoc_flags : bmc.

Lemma float_binop_flags op (ty : Ty) lhs rhs (node : Node) s : is_float_op op = true ->
  flags (translate_integer_binop func module options op ty lhs rhs node) s.
Proof.
  intros F. unfold translate_integer_binop. rewrite F. flag. flag. apply flags_lift. intros o O.
  pose proof (no_overflow_scoped options s1 _ _ _ _ _ O ltac:(done) ltac:(done)) as So.
  eapply (flags_later any). { apply (option_violation_sound _ _ o _ _ _ (mk_unary Not)); [done|]. intros; scope. }
  intros _ s2 W2 X2 _. advance s1 s2 X2. apply flags_lift. intros z Z.
  pose proof (div_by_zero_scoped options s2 _ _ _ _ Z ltac:(done)) as Sz.
  eapply (flags_later any). { by apply (option_violation_sound _ _ z _ _ _ id). }
  intros _ s3 W3 X3 _. advance s2 s3 X3. flag_all.
Qed.

(** ** The instructions without exact semantics *)

Definition unmodelled (node : Node) : bool :=
  match inst node with
  | Inst.BinOp op ty _ _ =>
      if is_integer ty then is_float_op op
      else negb match ty, op with Ty.Bool, (Op.And | Op.Or | Op.Xor) => true | _, _ => false end
  | Inst.Const ty value => is_symbol_addr value || bool_decide (const_to_expr ty value = None)
  | Inst.ICmp _ ty _ _ => is_float ty
  | Inst.Call callee _ => negb (existsb (fun f => func_id f =? callee)%N (functions module))
  | Inst.HeapAlloc _ | Inst.Cast _ _ | Inst.GlobalAddr | Inst.CallIndirect _ _ | Inst.Fence | Inst.UnOp _ _
  | Inst.ExtractField _ _ | Inst.ExtractElement _ _ _ | Inst.InsertField _ _ _ | Inst.InsertElement _ _ _ _
  | Inst.FCmp _ _ _ | Inst.Borrow _ | Inst.BorrowMut _ | Inst.EndBorrow _ | Inst.Retain _
  | Inst.Release _ | Inst.IsUnique _ | Inst.Dealloc _ | Inst.OpenFrame | Inst.BindSlot _ _ | Inst.LoadSlot _ _
  | Inst.CloseFrame _ | Inst.CoroSuspend | Inst.Invoke _ _ | Inst.LandingPad | Inst.Resume | Inst.SeqMapAddK _ _
  | Inst.SeqMapNot _ _ | Inst.SeqMap _ _ | Inst.DialectOp _ => true
  | Inst.Br _ _ | Inst.CondBr _ _ _ _ _ | Inst.Switch _ _ _ _ => true
  | _ => false
  end.

Lemma node_flags (node : Node) s : unmodelled node = true -> flags (translate_node func module options node) s.
Proof.
  unfold unmodelled, translate_node. intros U. destruct (inst node) eqn:I; try discriminate U;
    try solve [flag_all; eauto with bmc].
  - destruct (is_integer ty); [by apply float_binop_flags|].
    destruct (match op with Op.SDiv | Op.UDiv | Op.SRem | Op.URem => is_float ty | _ => false end);
      [flag_all; apply havoc_flags|].
    flag. flag. flag. flag. apply negb_true_iff in U. rewrite U. flag_all.
  - destruct (is_symbol_addr value); [flag_all|]. cbn in U. apply bool_decide_eq_true in U. rewrite U. flag_all.
  - flag. flag. unfold eval_icmp. rewrite U. eapply (flags_later (fun _ o => o = None)); [by apply sound_ret|].
    intros o s2 W2 X2 ->. apply havoc_flags.
  - unfold translate_call. apply negb_true_iff in U.
    destruct (List.find _ (functions module)) as [f|] eqn:Ef.
    + apply find_some in Ef as [Hin Eq]. 
      assert (existsb (fun f : Function_ Payload => (func_id f =? callee)%N) (functions module) = true); [|congruence].
      apply existsb_exists. by exists f.
    + flag.
Qed.

(** ** Instructions that leave a result free *)

Definition known (s : FuncTranslator) (v : ValueId) : Prop := is_Some (values s !! v).

(** Translating the instruction bound a result to an expression with a variable it has
    introduced: nothing says what its value is. *)
Definition leaves_free (node : Node) (s s' : FuncTranslator) : Prop :=
  exists r e n, r ∈ results node /\ values s' !! r = Some e /\ occurs n e /\ ~ declared s n.

(** The instruction reads memory through the pointer. *)
Inductive reads_memory (ptr : ValueId) : Inst.Inst Payload -> Prop :=
  | reads_load ty volatile align : reads_memory ptr (Inst.Load ty ptr volatile align)
  | reads_atomic_load ty : reads_memory ptr (Inst.AtomicLoad ty ptr)
  | reads_rmw op ty value : reads_memory ptr (Inst.AtomicRMW op ty ptr value)
  | reads_cmpxchg ty expected desired : reads_memory ptr (Inst.CmpXchg ty ptr expected desired).

(** Results that are free on purpose: any value is one of the instruction's - an undefined
    value, an address, the result of a function of the module - or memory is read that the
    encoder has no array for, which is a check of its own. *)
Inductive open_by_design (s : FuncTranslator) : Inst.Inst Payload -> Prop :=
  | open_undef ty : open_by_design s (Inst.Undef ty)
  | open_alloca ty count align : open_by_design s (Inst.Alloca ty count align)
  | open_call f args : f ∈ functions module -> open_by_design s (Inst.Call (func_id f) args)
  | open_memory ptr i : reads_memory ptr i -> resolve_memory_region s ptr = None -> open_by_design s i.

(** An operand as the operations on the type take it *)
Definition operand_at (s : FuncTranslator) (v : ValueId) (ty : Ty) : option Expr :=
  e ← values s !! v; normalize_expr_to_ty e ty.

(** Results that are free and not reported, where the encoder means to report them *)
Inductive gap (s : FuncTranslator) (node : Node) : Prop :=
  | gap_connective_on_int op ty lhs rhs : inst node = Inst.BinOp op ty lhs rhs -> is_integer ty = true ->
      op ∈ [Op.BAnd; Op.BOr; Op.BXor] -> gap s node
  | gap_connective op lhs rhs a b : inst node = Inst.BinOp op Ty.Bool lhs rhs ->
      operand_at s lhs Ty.Bool = Some a -> operand_at s rhs Ty.Bool = Some b ->
      (op = Op.And /\ try_and a b = None \/ op = Op.Or /\ try_or a b = None \/ op = Op.Xor /\ try_ne a b = None) ->
      gap s node
  | gap_comparison op ty lhs rhs a b : inst node = Inst.ICmp op ty lhs rhs ->
      operand_at s lhs ty = Some a -> operand_at s rhs ty = Some b -> sort_of a <> sort_of b -> gap s node
  | gap_overflow op ty lhs rhs : inst node = Inst.Overflow op ty lhs rhs -> is_integer ty = false ->
      length (results node) < 2 -> gap s node.

(** A step that declares nothing and keeps what is bound, where the operands are *)
Definition quiet {A} (K : ValueId -> Prop) (m : M A) (s : FuncTranslator) : Prop :=
  (forall x, K x -> known s x) -> forall a s', m s = Some (a, s') ->
  t_decls s' = t_decls s /\ forall x, K x -> known s' x.

Lemma quiet_ret {A} K (a : A) s : quiet K (mret a) s.
Proof. by intros Kn a' s' [= _ <-]. Qed.

Lemma quiet_bind {A B} K (m : M A) (k : A -> M B) s : quiet K m s -> (forall a s', quiet K (k a) s') -> quiet K (m ≫= k) s.
Proof.
  intros Qm Qk Kn b s'. unfold mbind, M_bind. intros ([a s1] & E1 & E)%bind_Some.
  destruct (Qm Kn a s1 E1) as [D1 K1]. destruct (Qk a s1 K1 b s' E) as [D2 K2]. split; [by rewrite D2|done].
Qed.

Lemma quiet_resolve {B} (K : ValueId -> Prop) v (ty : Ty) (k : Expr -> M B) s : K v ->
  (forall e, values s !! v = Some e -> quiet K (k e) s) -> quiet K (resolve v ty ≫= k) s.
Proof.
  intros Kv Q Kn. destruct (Kn v Kv) as [e V]. intros b s'. unfold mbind, M_bind, resolve, gets, mbind, M_bind. cbn.
  rewrite V. cbn. by apply (Q e V Kn).
Qed.

Lemma quiet_gets {A B} K (f : FuncTranslator -> A) (k : A -> M B) s : quiet K (k (f s)) s -> quiet K (gets f ≫= k) s.
Proof. intros Q Kn b s' E. by apply (Q Kn b s'). Qed.

Lemma quiet_lift {A B} K (o : option A) (k : A -> M B) s : (forall a, o = Some a -> quiet K (k a) s) ->
  quiet K (lift o ≫= k) s.
Proof.
  intros Q Kn b s'. unfold mbind, M_bind, lift. cbn. destruct o as [a|]; [|done]. by apply (Q a eq_refl Kn).
Qed.

Lemma quiet_modify K f s : t_decls (f s) = t_decls s -> (forall x, known s x -> known (f s) x) -> quiet K (modify f) s.
Proof. intros D V Kn a s' [= _ <-]. split; [done|]. intros x Kx. by apply V, Kn. Qed.

Lemma quiet_bind_value K v e s : quiet K (bind v e) s.
Proof.
  apply quiet_modify; [done|]. intros x X. unfold known. cbn. destruct (decide (v = x)) as [->|N].
  - by rewrite lookup_insert_eq.
  - by rewrite lookup_insert_ne.
Qed.

Lemma quiet_bind_result K (node : Node) e s : quiet K (bind_result node e) s.
Proof. unfold bind_result. destruct (results node); [apply quiet_ret|apply quiet_bind_value]. Qed.

Lemma quiet_violation K kind c msg (node : Node) s : quiet K (add_violation module kind c msg node) s.
Proof. intros Kn a s' [= _ <-]. by split. Qed.

Lemma quiet_unsupported K reason (node : Node) s : quiet K (add_unsupported_semantics func module reason node) s.
Proof. apply quiet_violation. Qed.

Lemma quiet_update K key f s : quiet K (update_region key f) s.
Proof.
  unfold update_region. apply quiet_gets, quiet_lift. intros r _. apply quiet_gets. by apply quiet_modify.
Qed.

Lemma quiet_bounds K what offset n (node : Node) s : quiet K (check_bounds func module options what offset n node) s.
Proof.
  unfold check_bounds. destruct (check_memory_bounds options); [|apply quiet_ret].
  destruct n; [apply quiet_violation|apply quiet_ret].
Qed.

Lemma quiet_indices (K : ValueId -> Prop) scale indices : (forall x, x ∈ indices -> K x) ->
  forall total s, quiet K (sum_indices scale indices total) s.
Proof.
  induction indices as [|x indices IH]; intros In_ total s; cbn [sum_indices]; [apply quiet_ret|].
  apply quiet_resolve; [apply In_, list_elem_of_here|]. intros e _. apply IH. intros y Hy. by apply In_, list_elem_of_further.
Qed.

Lemma quiet_mapM {A B} K (f : A -> M B) l : (forall x, x ∈ l -> forall s, quiet K (f x) s) -> forall s, quiet K (mapM f l) s.
Proof.
  induction l as [|x l IH]; intros F s; cbn [mapM]; [apply quiet_ret|].
  apply quiet_bind; [apply F, list_elem_of_here|]. intros y s1.
  apply quiet_bind; [apply IH; intros z Hz; by apply F, list_elem_of_further|]. intros ys s2. apply quiet_ret.
Qed.

Lemma quiet_operand (K : ValueId -> Prop) v (ty : Ty) s : K v -> quiet K (resolve v ty) s.
Proof.
  intros Kv Kn a s'. destruct (Kn v Kv) as [e V]. unfold resolve, gets, mbind, M_bind. cbn. rewrite V.
  by intros [= _ <-].
Qed.

#[local] Hint Resolve quiet_ret quiet_bind_value quiet_bind_result quiet_violation quiet_unsupported quiet_update
  quiet_bounds quiet_operand : bmc.

Ltac quieten :=
  repeat match goal with
  | |- quiet _ (resolve _ _ ≫= _) _ => apply quiet_resolve; [cbn; tauto|intros ? ?]
  | |- quiet _ (resolve _ _) _ => apply quiet_operand; cbn; tauto
  | |- quiet _ (gets _ ≫= _) _ => apply quiet_gets
  | |- quiet _ (lift _ ≫= _) _ => apply quiet_lift; intros ? ?
  | |- quiet _ (_ ≫= _) _ => apply quiet_bind; [|intros ? ?]
  | |- quiet _ (modify _) _ => by apply quiet_modify
  | |- quiet _ _ _ => solve [eauto with bmc]
  | |- quiet _ (match ?x with _ => _ end) _ => is_var x; destruct x
  end.

Lemma known_resolve {B} v (ty : Ty) e (k : Expr -> M B) s : values s !! v = Some e -> (resolve v ty ≫= k) s = k e s.
Proof. intros V. unfold mbind, M_bind, resolve, gets, mbind, M_bind. cbn. by rewrite V. Qed.

Lemma operand_lift {B} v (ty : Ty) e a (k : Expr -> M B) s : values s !! v = Some e -> operand_at s v ty = Some a ->
  (lift (normalize_expr_to_ty e ty) ≫= k) s = k a s.
Proof. intros V. unfold operand_at, mbind, M_bind, lift. rewrite V. cbn. by intros ->. Qed.

Lemma operand_panics {B} v (ty : Ty) e (k : Expr -> M B) s : values s !! v = Some e -> operand_at s v ty = None ->
  (lift (normalize_expr_to_ty e ty) ≫= k) s = None.
Proof. intros V. unfold operand_at, mbind, M_bind, lift. rewrite V. cbn. by intros ->. Qed.

(** What is said of a translation: its free results are excused, or it is reported, or it
    introduces no variable. *)
Definition accounted (node : Node) (s : FuncTranslator) : Prop :=
  open_by_design s (inst node) \/ gap s node \/ flags (translate_node func module options node) s \/
  quiet (reads (inst node)) (translate_node func module options node) s.

Lemma integer_binop_accounted op (ty : Ty) lhs rhs (node : Node) s : inst node = Inst.BinOp op ty lhs rhs ->
  is_integer ty = true -> accounted node s.
Proof.
  intros I It. destruct (match op with Op.BAnd | Op.BOr | Op.BXor => true | _ => false end) eqn:Hb.
  { right. left. eapply gap_connective_on_int; [exact I|done|]. destruct op; try discriminate Hb; set_solver. }
  destruct (is_float_op op) eqn:F.
  { right. right. left. apply node_flags. unfold unmodelled. by rewrite I, It. }
  right. right. right. unfold translate_node. rewrite I, It. unfold translate_integer_binop. rewrite F.
  quieten. unfold eval_binop. quieten. rewrite It. destruct op; try discriminate F; try discriminate Hb; quieten.
Qed.

Lemma or_fresh_quiet K (o : option Expr) (ty : Ty) s : is_Some o -> quiet K (or_fresh o ty) s.
Proof. intros [e ->]. apply quiet_ret. Qed.

Lemma binop_accounted op (ty : Ty) lhs rhs (node : Node) s : inst node = Inst.BinOp op ty lhs rhs ->
  (forall x, reads (inst node) x -> known s x) -> accounted node s.
Proof.
  intros I Kn. destruct (is_integer ty) eqn:It; [by eapply integer_binop_accounted|].
  destruct (match ty, op with Ty.Bool, (Op.And | Op.Or | Op.Xor) => true | _, _ => false end) eqn:Mo.
  2: { right. right. left. apply node_flags. unfold unmodelled. by rewrite I, It, Mo. }
  assert (ty = Ty.Bool) as -> by (by destruct ty). cbn in Mo. rewrite I in Kn.
  destruct (Kn lhs) as [a Va]; [by left|]. destruct (Kn rhs) as [b Vb]; [by right|].
  set (o := fun x y => match op with Op.And => try_and x y | Op.Or => try_or x y | _ => try_ne x y end).
  destruct (operand_at s lhs Ty.Bool) as [a'|] eqn:Oa, (operand_at s rhs Ty.Bool) as [b'|] eqn:Ob.
  1: destruct (o a' b') as [e|] eqn:Oe.
  2: { right. left. eapply gap_connective; [exact I|exact Oa|exact Ob|]. subst o. cbn in Oe. destruct op; try discriminate Mo; tauto. }
  all: right; right; right; intros _ u s'; unfold translate_node; rewrite I;
    replace (match op with Op.SDiv | Op.UDiv | Op.SRem | Op.URem => is_float Ty.Bool | _ => false end) with false by (by destruct op);
    rewrite It, (known_resolve _ _ _ _ _ Va), (known_resolve _ _ _ _ _ Vb), Mo; unfold eval_binop;
    unfold mbind at 1, M_bind at 1.
  1: rewrite (operand_lift _ _ _ _ _ _ Va Oa), (operand_lift _ _ _ _ _ _ Vb Ob).
  2: rewrite (operand_lift _ _ _ _ _ _ Va Oa), (operand_panics _ _ _ _ _ Vb Ob).
  3,4: rewrite (operand_panics _ _ _ _ _ Va Oa).
  2,3,4: done.
  assert (Q : quiet (reads (Inst.BinOp op Ty.Bool lhs rhs)) (bind_result node e ;; mret tt) s) by quieten.
  rewrite It. subst o. destruct op; try discriminate Mo; cbn in Oe; rewrite Oe; by apply Q.
Qed.

Lemma icmp_accounted op (ty : Ty) lhs rhs (node : Node) s : inst node = Inst.ICmp op ty lhs rhs ->
  (forall x, reads (inst node) x -> known s x) -> accounted node s.
Proof.
  intros I Kn. rewrite I in Kn. destruct (is_float ty) eqn:F.
  { right. right. left. apply node_flags. unfold unmodelled. by rewrite I, F. }
  destruct (Kn lhs) as [a Va]; [by left|]. destruct (Kn rhs) as [b Vb]; [by right|].
  assert (P : operand_at s lhs ty = None \/ operand_at s rhs ty = None -> accounted node s).
  { intros N. right. right. right. intros _ u s'. unfold translate_node. rewrite I, (known_resolve _ _ _ _ _ Va), (known_resolve _ _ _ _ _ Vb).
    unfold mbind at 1, M_bind at 1, eval_icmp. rewrite F. destruct (operand_at s lhs ty) as [a'|] eqn:Oa; [destruct N as [N|N]; [done|]|].
    - by rewrite (operand_lift _ _ _ _ _ _ Va Oa), (operand_panics _ _ _ _ _ Vb N).
    - by rewrite (operand_panics _ _ _ _ _ Va Oa). }
  destruct (operand_at s lhs ty) as [a'|] eqn:Oa; [|by apply P; left].
  destruct (operand_at s rhs ty) as [b'|] eqn:Ob; [|by apply P; right]. clear P.
  destruct (decide (sort_of a' = sort_of b')) as [Es|Ns]; [|right; left; by eapply gap_comparison].
  right. right.
  set (compared := match op with
        | Op.Eq => if is_eq_comparable_ty ty then Some (mk_eq a' b') else None
        | Op.Ne => if is_eq_comparable_ty ty then Some (mk_unary Not (mk_eq a' b')) else None
        | Op.Ult => if is_ordered_scalar_ty ty then Some (mk_binary BvULt a' b') else None
        | Op.Ule => if is_ordered_scalar_ty ty then Some (mk_binary BvULe a' b') else None
        | Op.Ugt => if is_ordered_scalar_ty ty then Some (mk_binary BvUGt a' b') else None
        | Op.Uge => if is_ordered_scalar_ty ty then Some (mk_binary BvUGe a' b') else None
        | Op.Slt => if is_ordered_scalar_ty ty then Some (mk_binary BvSLt a' b') else None
        | Op.Sle => if is_ordered_scalar_ty ty then Some (mk_binary BvSLe a' b') else None
        | Op.Sgt => if is_ordered_scalar_ty ty then Some (mk_binary BvSGt a' b') else None
        | Op.Sge => if is_ordered_scalar_ty ty then Some (mk_binary BvSGe a' b') else None
        end).
  assert (Ec : eval_icmp op ty a b s = Some (compared, s)).
  { unfold eval_icmp. rewrite F, (operand_lift _ _ _ _ _ _ Va Oa), (operand_lift _ _ _ _ _ _ Vb Ob).
    by rewrite bool_decide_eq_true_2. }
  destruct compared as [e|].
  - right. intros K u s'. unfold translate_node. rewrite I, (known_resolve _ _ _ _ _ Va), (known_resolve _ _ _ _ _ Vb).
    unfold mbind at 1, M_bind at 1. rewrite Ec. cbn [mbind option_bind]. by apply quiet_bind_result.
  - left. intros u s'. unfold translate_node. rewrite I, (known_resolve _ _ _ _ _ Va), (known_resolve _ _ _ _ _ Vb).
    unfold mbind at 1, M_bind at 1. rewrite Ec. cbn [mbind option_bind]. by apply havoc_flags.
Qed.

(** A loaded value, or a result that is free because the memory is not known *)
Lemma load_accounted (ty : Ty) ptr (node : Node) s : reads_memory ptr (inst node) -> reads (inst node) ptr ->
  translate_node func module options node = translate_load func module options ty ptr node -> accounted node s.
Proof.
  intros Rm Rp E. destruct (resolve_memory_region s ptr) as [[region offset]|] eqn:R.
  - right. right. right. rewrite E. unfold translate_load. apply quiet_resolve; [done|]. intros e V.
    apply quiet_gets. rewrite R. quieten.
  - left. by eapply open_memory.
Qed.

Lemma flags_wf {A} (m : M A) s : (wf s -> flags m s) -> flags m s.
Proof. intros F a s' E W. by apply (F W a s'). Qed.

Lemma flags_known {B} v (ty : Ty) e (k : Expr -> M B) s : values s !! v = Some e -> flags (k e) s -> flags (resolve v ty ≫= k) s.
Proof. intros V F a s'. rewrite (known_resolve _ _ _ _ _ V). by apply F. Qed.

Lemma flags_ret {A B} (a : A) (k : A -> M B) s : flags (k a) s -> flags (mret a ≫= k) s.
Proof. intros F b s'. by apply F. Qed.

(** The report, and a fresh value *)
Lemma unsupported_fresh_flags reason p (ty : Ty) (node : Node) s :
  flags (add_unsupported_semantics func module reason node;; fresh_symbolic p ty) s /\
  sound scoped (add_unsupported_semantics func module reason node;; fresh_symbolic p ty) s.
Proof.
  split; [|eapply sound_bind; [apply unsupported_sound|]; intros; by apply fresh_sound].
  apply flags_first; [apply unsupported_flags| |apply unsupported_sound]. intros _ s' W X. 
  intros e s2 E W'. destruct (fresh_sound p ty s' e s2 E W') as (? & ? & _). by split_and!.
Qed.

(** The same, before the rest of the instruction *)
Lemma flags_then {A} reason p (ty : Ty) (node : Node) (k : Expr -> M A) s :
  (forall e s', wf s' -> ext s s' -> scoped s' e -> sound any (k e) s') ->
  flags ((add_unsupported_semantics func module reason node;; fresh_symbolic p ty) ≫= k) s.
Proof.
  intros S b s' E W. unfold mbind at 1, M_bind at 1 in E. apply bind_Some in E as ([e s1] & E1 & E).
  destruct (unsupported_fresh_flags reason p ty node s) as [F Sd].
  destruct (F e s1 E1 W) as (x & Hx & C). destruct (Sd e s1 E1 W) as (W1 & X1 & Sc).
  destruct (S e s1 W1 X1 Sc b s' E W1) as (_ & X2 & _). exists x. split; [|done].
  destruct (grows_violations _ _ (ext_grows _ _ X2)) as [vs ->]. apply elem_of_app. by left.
Qed.

Lemma rmw_accounted op (ty : Ty) ptr value (node : Node) s : inst node = Inst.AtomicRMW op ty ptr value ->
  (forall x, reads (inst node) x -> known s x) -> accounted node s.
Proof.
  intros I Kn. rewrite I in Kn. destruct (resolve_memory_region s ptr) as [[region offset]|] eqn:R.
  2: { left. rewrite I. eapply open_memory; [apply reads_rmw|done]. }
  right. right. destruct (is_integer ty || match op with Op.Xchg => true | _ => false end) eqn:X.
  - right. unfold translate_node. rewrite I. unfold translate_atomic_rmw. apply quiet_resolve; [by right|]. intros e V.
    apply quiet_gets. rewrite R. apply quiet_bind; [apply quiet_ret|]. intros loaded s1.
    apply quiet_bind; [apply quiet_bind_result|]. intros _ s2. apply quiet_bind; [|intros nv s3; quieten; destruct (find_region_key_for_ptr s3 ptr); quieten].
    destruct op; rewrite ?orb_false_r in X; rewrite ?X; cbn [negb]; apply quiet_ret.
  - left. apply orb_false_iff in X as [X No]. destruct (Kn value) as [e V]; [by right|].
    apply flags_wf. intros W. destruct (region_scoped s _ _ _ W R) as [Sr So]. pose proof (wf_values s W _ _ V) as Sv.
    unfold translate_node. rewrite I. unfold translate_atomic_rmw. apply (flags_known _ _ _ _ _ V).
    apply flags_gets. rewrite R. apply flags_ret. flag. rewrite X. cbn [negb].
    assert (Sound : forall nv s2, wf s2 -> ext s0 s2 -> scoped s2 nv -> sound any
      (region_key ← gets (fun s => find_region_key_for_ptr s ptr);
       match region_key with Some key => update_region key (fun a => mk_store a offset nv) | None => mret tt end) s2).
    { intros nv s2 W2 X2 Sn. advance s0 s2 X2. apply store_back_sound. intros arr s' X' Sa. advance s2 s' X'. scope. }
    destruct op; try discriminate No; by apply flags_then.
Qed.

Lemma cmpxchg_accounted (ty : Ty) ptr expected desired (node : Node) s : inst node = Inst.CmpXchg ty ptr expected desired ->
  (forall x, reads (inst node) x -> known s x) -> accounted node s.
Proof.
  intros I Kn. rewrite I in Kn. destruct (resolve_memory_region s ptr) as [[region offset]|] eqn:R.
  2: { left. rewrite I. eapply open_memory; [apply reads_cmpxchg|done]. }
  right. right. destruct (Kn expected) as [e V]; [cbn; tauto|]. destruct (Kn desired) as [d Vd]; [cbn; tauto|].
  unfold translate_node. rewrite I. unfold translate_cmpxchg. destruct (is_eq_comparable_ty ty || is_float ty) eqn:C.
  - right. quieten; rewrite ?R; try (destruct (results node) as [|r1 [|r2 rs]]);
      try match goal with |- context [find_region_key_for_ptr ?t ?p] => destruct (find_region_key_for_ptr t p) end; quieten.
  - left. apply flags_wf. intros W. destruct (region_scoped s _ _ _ W R) as [Sr So].
    pose proof (wf_values s W _ _ V) as Sv. pose proof (wf_values s W _ _ Vd) as Sd.
    apply (flags_known _ _ _ _ _ V), (flags_known _ _ _ _ _ Vd), flags_gets. rewrite R. apply flags_ret.
    apply flags_then. intros success s3 W3 X3 R3. advance s s3 X3. cbn zeta.
    eapply (sound_bind any). { destruct (results node); steps. }
    intros _ s4 W4 X4 _. advance s3 s4 X4.
    eapply (sound_bind any). { destruct (results node) as [|? [|? ?]]; steps. }
    intros _ s5 W5 X5 _. advance s4 s5 X5. apply sound_gets.
    destruct (find_region_key_for_ptr s5 ptr) as [key|]; [|steps]. apply sound_gets.
    set (off := match resolve_memory_region s5 ptr with Some _ => _ | None => _ end).
    assert (S : scoped s5 off).
    { unfold off. destruct (resolve_memory_region s5 ptr) as [[region' off']|] eqn:Rg; [|scope].
      by destruct (region_scoped s5 _ _ _ W5 Rg). }
    apply update_region_sound. intros arr s' X' Sa. advance s5 s' X'.
    assert (scoped s' (mk_store arr off d)) by scope. scope.
Qed.

Lemma gep_quiet (ty : Ty) base indices (node : Node) s :
  quiet (reads (Inst.GEP ty base indices)) (translate_gep func module options ty base indices node) s.
Proof.
  assert (In_ : forall x, x ∈ indices -> reads (Inst.GEP ty base indices) x) by (intros x Hx; by right).
  unfold translate_gep. apply quiet_resolve; [by left|]. intros b _. destruct (results node); [apply quiet_ret|].
  apply quiet_bind; [by apply quiet_indices|]. intros t s1. apply quiet_bind; [apply quiet_bind_value|]. intros _ s2.
  apply quiet_bind.
  { destruct (bool_decide _); [apply quiet_ret|]. apply quiet_bind; [by apply quiet_indices|]. intros o s3. by apply quiet_modify. }
  intros _ s3. destruct (check_memory_bounds options); [|apply quiet_ret]. apply quiet_gets.
  destruct (resolve_memory_region s3 base) as [[region o]|]; [|apply quiet_ret]. destruct (count region); [|apply quiet_ret].
  apply quiet_bind; [|intros f s4; apply quiet_violation].
  destruct (bool_decide _); [apply quiet_ret|]. apply quiet_bind; [by apply quiet_indices|]. intros f s4. apply quiet_ret.
Qed.

Lemma overflow_binop_quiet K op (ty : Ty) a b s : is_integer ty = true -> quiet K (eval_binop (overflow_op_to_binop op) ty a b) s.
Proof. intros It. unfold eval_binop. quieten. rewrite It. destruct op; apply quiet_ret. Qed.

Lemma condition_not_integer op (ty : Ty) a b : is_integer ty = false ->
  integer_binop_no_overflow_condition op ty a b options = Some None.
Proof. intros It. unfold integer_binop_no_overflow_condition. by rewrite It. Qed.

(** The result pair of a checked operation without a condition is reported. *)
Lemma overflow_pair_flags op (ty : Ty) lhs rhs a b r1 r2 rs (node : Node) s : inst node = Inst.Overflow op ty lhs rhs ->
  results node = r1 :: r2 :: rs -> values s !! lhs = Some a -> values s !! rhs = Some b ->
  integer_binop_no_overflow_condition (overflow_op_to_binop op) ty a b options = Some None ->
  flags (translate_node func module options node) s.
Proof.
  intros I Rs Va Vb C. apply flags_wf. intros W. pose proof (wf_values s W _ _ Va) as Sa. pose proof (wf_values s W _ _ Vb) as Sb.
  unfold translate_node. rewrite I. unfold translate_overflow. rewrite Rs.
  apply (flags_known _ _ _ _ _ Va), (flags_known _ _ _ _ _ Vb). flag. flag. flag.
  match goal with Ho : _ = Some ?o |- _ => rewrite C in Ho; injection Ho as <- end. flag_all.
Qed.

Lemma overflow_accounted op (ty : Ty) lhs rhs (node : Node) s : inst node = Inst.Overflow op ty lhs rhs ->
  (forall x, reads (inst node) x -> known s x) -> accounted node s.
Proof.
  intros I Kn. rewrite I in Kn. destruct (Kn lhs) as [a Va]; [by left|]. destruct (Kn rhs) as [b Vb]; [by right|].
  destruct (results node) as [|r1 [|r2 rs]] eqn:Rs.
  3: destruct (integer_binop_no_overflow_condition (overflow_op_to_binop op) ty a b options) as [[c|]|] eqn:C;
    [|by right; right; left; eapply overflow_pair_flags|].
  all: destruct (is_integer ty) eqn:It;
    [|first [by rewrite condition_not_integer in C|right; left; eapply gap_overflow; [exact I|done|rewrite Rs; cbn; lia]]].
  all: right; right; right; unfold translate_node; rewrite I; unfold translate_overflow; rewrite Rs;
    apply quiet_resolve; [by left|]; intros a' Va'; apply quiet_resolve; [by right|]; intros b' Vb';
    (apply quiet_bind; [by apply overflow_binop_quiet|]); intros v s1; quieten.
  all: assert (a' = a) as -> by congruence; assert (b' = b) as -> by congruence; congruence.
Qed.

Lemma metadata_accounted (ptr_ty metadata_ty : Ty) ptr (node : Node) s : inst node = Inst.PtrMetadata ptr_ty metadata_ty ptr ->
  accounted node s.
Proof.
  intros I. right. right. unfold translate_node. rewrite I. destruct (ptr_parts s !! ptr) as [[d m]|] eqn:P.
  - right. apply quiet_gets. rewrite P. quieten.
  - destruct (match metadata_ty with Ty.Unit => true | _ => false end) eqn:U.
    + right. assert (metadata_ty = Ty.Unit) as -> by (by destruct metadata_ty). apply quiet_gets. rewrite P. quieten.
    + left. apply flags_gets. rewrite P.
      assert (F : flags (metadata ← (metadata ← fresh_symbolic "ptr_metadata" metadata_ty;
            add_unsupported_semantics func module ("pointer metadata extraction from " +:+ debug_ty ptr_ty) node;;
            mret metadata); bind_result node metadata) s); [|by destruct metadata_ty].
      intros u s' E W. unfold mbind at 1, M_bind at 1 in E. apply bind_Some in E as ([e s1] & E1 & E).
      assert (F1 : flags (metadata ← fresh_symbolic "ptr_metadata" metadata_ty;
        add_unsupported_semantics func module ("pointer metadata extraction from " +:+ debug_ty ptr_ty) node;; mret metadata) s) by flag_all.
      destruct (F1 e s1 E1 W) as (x & Hx & C). exists x. split; [|done].
      unfold bind_result in E. destruct (results node); by injection E as _ <-.
Qed.

(** A step that binds nothing *)
Definition steady {A} (m : M A) : Prop := forall s a s', m s = Some (a, s') -> values s' = values s.

Lemma steady_ret {A} (a : A) : steady (mret a).
Proof. by intros s a' s' [= _ <-]. Qed.

Lemma steady_bind {A B} (m : M A) (k : A -> M B) : steady m -> (forall a, steady (k a)) -> steady (m ≫= k).
Proof.
  intros Sm Sk s b s'. unfold mbind, M_bind. intros ([a s1] & E1 & E)%bind_Some. etrans; [by eapply Sk|by eapply Sm].
Qed.

Lemma steady_gets {A} (f : FuncTranslator -> A) : steady (gets f).
Proof. by intros s a s' [= _ <-]. Qed.

Lemma steady_lift {A} (o : option A) : steady (lift o).
Proof. unfold lift. by intros s a s' (x & _ & [= _ <-])%bind_Some. Qed.

Lemma steady_modify f : (forall s, values (f s) = values s) -> steady (modify f).
Proof. intros E s a s' [= _ <-]. apply E. Qed.

Lemma steady_fresh p (ty : Ty) : steady (fresh_symbolic p ty).
Proof. by intros s e s' (sort & _ & _ & ->)%fresh_spec. Qed.

Lemma steady_violation kind c msg (node : Node) : steady (add_violation module kind c msg node).
Proof. by intros s u s' [= _ <-]. Qed.

#[local] Hint Resolve steady_ret steady_gets steady_lift steady_fresh steady_violation : bmc.
Ltac steadies :=
  repeat match goal with
  | |- steady (_ ≫= _) => apply steady_bind; [|intros ?]
  | |- steady (modify _) => by apply steady_modify
  | |- steady (match ?x with _ => _ end) => destruct x
  | |- steady _ => solve [eauto with bmc]
  end.

(** A store binds nothing. *)
Lemma store_steady (ty : Ty) ptr value (node : Node) s u s' : known s ptr -> known s value ->
  translate_store func module options ty ptr value node s = Some (u, s') -> values s' = values s.
Proof.
  intros [p Vp] [e Ve]. unfold translate_store. rewrite (known_resolve _ _ _ _ _ Vp), (known_resolve _ _ _ _ _ Ve).
  revert s u s' Vp Ve. intros s u s' _ _. revert s u s'.
  match goal with |- forall s u s', ?m s = _ -> _ => change (steady m) end.
  unfold check_bounds, check_unknown, update_region. steadies.
Qed.

Lemma bounded_quiet K lo hi ret_exprs (node : Node) : forall i s,
  quiet K (check_bounded_output func module lo hi i ret_exprs node) s.
Proof.
  induction ret_exprs as [|e es IH]; intros i s; cbn [check_bounded_output]; [apply quiet_ret|]. cbn zeta.
  apply quiet_bind; [|intros _ s1; apply IH].
  match goal with |- quiet _ (match ?o with _ => _ end) _ => destruct o end; [apply quiet_violation|apply quiet_unsupported].
Qed.

Lemma return_quiet vals (node : Node) s : quiet (reads (Inst.Return vals)) (translate_return func module vals node) s.
Proof.
  unfold translate_return. apply quiet_bind.
  - destruct (func_types module !! func_ty func); apply quiet_mapM.
    + intros [v ty] Hv s1. apply quiet_operand. by apply elem_of_zip_l in Hv.
    + intros v Hv s1. by apply quiet_operand.
  - intros es s1. apply quiet_bind; [|intros ? s2; apply quiet_ret].
    apply quiet_mapM. intros p _ s2. destruct p; [apply bounded_quiet|apply quiet_ret..].
Qed.

Lemma call_open callee args (node : Node) s : inst node = Inst.Call callee args -> unmodelled node = false ->
  open_by_design s (inst node).
Proof.
  intros I U. unfold unmodelled in U. rewrite I in *. apply negb_false_iff, existsb_exists in U as (f & Hf & Ef%N.eqb_eq).
  rewrite <- Ef. constructor. by apply list_elem_of_In.
Qed.

(** The other instructions declare nothing, or bind nothing. *)
Lemma node_accounted (node : Node) s : (forall x, reads (inst node) x -> known s x) ->
  accounted node s \/ forall u s', translate_node func module options node s = Some (u, s') -> values s' = values s.
Proof.
  intros Kn. destruct (unmodelled node) eqn:U; [left; right; right; left; by apply node_flags|].
  assert (Q : quiet (reads (inst node)) (translate_node func module options node) s -> accounted node s)
    by (intros; right; right; by right).
  assert (E := eq_refl (translate_node func module options node)). unfold translate_node at 2 in E.
  destruct (inst node) eqn:I; try (unfold unmodelled in U; rewrite I in U; discriminate U).
  - left. apply (binop_accounted op ty lhs rhs node s I). by rewrite I.
  - left. apply Q. rewrite E. unfold unmodelled in U. rewrite I in U. apply orb_false_iff in U as [U1 U2].
    apply bool_decide_eq_false in U2. rewrite U1. destruct (const_to_expr ty value); [|done]. quieten.
  - left. apply (icmp_accounted op ty lhs rhs node s I). by rewrite I.
  - left. apply (load_accounted ty ptr node s); rewrite ?I; [apply reads_load|done|exact E].
  - right. rewrite E. intros u s'. apply store_steady; apply Kn; cbn; tauto.
  - left. apply Q. rewrite E. quieten. destruct (is_bool_sort _); quieten.
  - left. apply Q. rewrite E. quieten. destruct (is_bool_sort _); quieten.
  - left. apply Q. rewrite E. apply return_quiet.
  - left. left. rewrite I. constructor.
  - left. apply Q. rewrite E. apply gep_quiet.
  - left. apply Q. rewrite E. quieten. destruct (ptr_parts s !! ptr) as [[]|]; quieten.
  - left. by eapply metadata_accounted.
  - left. apply Q. rewrite E. quieten. destruct (results node); quieten.
  - left. apply Q. rewrite E. quieten. destruct (results node); quieten. destruct (ptr_parts _ !! operand); quieten.
  - left. apply Q. rewrite E. quieten.
  - left. apply Q. rewrite E. quieten.
  - left. left. rewrite I. constructor.
  - left. left. by eapply call_open.
  - left. apply Q. rewrite E. quieten.
  - left. apply (overflow_accounted op ty lhs rhs node s I). by rewrite I.
  - left. apply (load_accounted ty ptr node s); rewrite ?I; [apply reads_atomic_load|done|exact E].
  - right. rewrite E. intros u s'. apply store_steady; apply Kn; cbn; tauto.
  - left. apply (rmw_accounted op ty ptr value node s I). by rewrite I.
  - left. apply (cmpxchg_accounted ty ptr expected desired node s I). by rewrite I.
Qed.

(** A free result is excused, or reported. *)
Lemma free_reported (node : Node) s s' : wf s -> translate_node func module options node s = Some (tt, s') ->
  (forall x, reads (inst node) x -> known s x) -> leaves_free node s s' ->
  open_by_design s (inst node) \/ gap s node \/ flags (translate_node func module options node) s.
Proof.
  intros W E Kn (r & e & n & _ & V & O & Nd). destruct (node_accounted node s Kn) as [[Op|[G|[F|Q]]]|St]; [tauto..| |].
  - destruct Nd. destruct (node_sound func module options node s tt s' E W) as (W' & _ & _).
    pose proof (wf_values s' W' _ _ V n O) as D. unfold declared in *. by rewrite <- (proj1 (Q Kn tt s' E)).
  - destruct Nd. rewrite (St _ _ E) in V. by apply (wf_values s W _ _ V).
Qed.

(** ** Instructions of visited blocks *)

Lemma not_branch_body (b : Block Payload) term front (node : Node) : split_last (body b) = Some (term, front) ->
  node ∈ body b -> node ∈ front \/ node = term.
Proof. intros L%split_last_spec. rewrite L, elem_of_app, list_elem_of_singleton. done. Qed.

(** The instructions of a sequence that are translated one by one, each with the states
    before and after it *)
Fixpoint trace (nodes : list Node) (s : FuncTranslator) : list (Node * FuncTranslator * FuncTranslator) :=
  match nodes with
  | [] => []
  | node :: nodes =>
      match translate_node func module options node s with
      | Some (_, s') => (node, s, s') :: trace nodes s'
      | None => []
      end
  end.

(** Those of a visited block: all but the branch at its end *)
Definition plain_nodes (v : Visit) : list Node :=
  match split_last (body (v_block v)) with
  | Some (term, front) => if is_branch (inst term) then front else front ++ [term]
  | None => []
  end.
Definition visit_trace (v : Visit) : list (Node * FuncTranslator * FuncTranslator) :=
  trace (plain_nodes v) (set_guard (v_guard v) (v_entered v)).

Lemma trace_complete nodes : forall s u s', each (translate_node func module options) nodes s = Some (u, s') ->
  map (fun t => t.1.1) (trace nodes s) = nodes.
Proof.
  induction nodes as [|node nodes IH]; intros s u s'; cbn [each trace]; [done|].
  unfold mbind at 1, M_bind at 1. intros ([u1 s1] & -> & E)%bind_Some. cbn. f_equal. by eapply IH.
Qed.

Lemma trace_states nodes : forall s u s' node s1 s2, wf s -> each (translate_node func module options) nodes s = Some (u, s') ->
  (node, s1, s2) ∈ trace nodes s ->
  translate_node func module options node s1 = Some (tt, s2) /\ wf s1 /\ ext s s1 /\ ext s2 s'.
Proof.
  induction nodes as [|n nodes IH]; intros s u s' node s1 s2 W; cbn [each trace]; [intros _ Hin; by apply elem_of_nil in Hin|].
  unfold mbind at 1, M_bind at 1. intros ([[] t] & Et & E)%bind_Some. rewrite Et.
  destruct (node_sound func module options n s tt t Et W) as (Wt & Xt & _). intros [[= -> -> ->]|Hin]%elem_of_cons.
  - split_and!; [done|done|done|]. by apply (each_sound _ nodes (node_sound func module options) t u s' E Wt).
  - destruct (IH t u s' node s1 s2 Wt E Hin) as (A & B & C & D). split_and!; [done|done|by etrans|done].
Qed.

Lemma each_app {A} (f : A -> M unit) l k : forall s u s', each f l s = Some (u, s') -> forall u2 s2,
  each f k s' = Some (u2, s2) -> each f (l ++ k) s = Some (u2, s2).
Proof.
  induction l as [|x l IH]; intros s u s' E u2 s2 E2; cbn [each app] in *; [by injection E as _ <-|].
  unfold mbind at 1, M_bind at 1 in E. apply bind_Some in E as ([u1 s1] & E1 & E).
  unfold mbind at 1, M_bind at 1. rewrite E1. cbn. by eapply IH.
Qed.

Lemma plain_in v (node : Node) : (exists term front, split_last (body (v_block v)) = Some (term, front)) ->
  node ∈ body (v_block v) -> is_branch (inst node) = false -> node ∈ plain_nodes v.
Proof.
  intros (term & front & L) Hn B. unfold plain_nodes. rewrite L.
  destruct (not_branch_body _ _ _ node L Hn) as [Hf| ->].
  - destruct (is_branch (inst term)); [done|]. apply elem_of_app. by left.
  - rewrite B. apply elem_of_app. right. apply list_elem_of_here.
Qed.

(** The translation of a visited block is that of its instructions, and of its branch. *)
Lemma visit_run rho s_end v pend es term front gv bi be :
  visit_ok func module options rho s_end v pend es term front gv bi be ->
  wf (set_guard (v_guard v) (v_entered v)) /\
  exists u s', each (translate_node func module options) (plain_nodes v) (set_guard (v_guard v) (v_entered v)) = Some (u, s') /\
    grows s' s_end.
Proof.
  intros Vo. pose proof (vo_run _ _ _ _ _ _ _ _ _ _ _ _ _ Vo) as E. pose proof (vo_body _ _ _ _ _ _ _ _ _ _ _ _ _ Vo) as L.
  pose proof (vo_after _ _ _ _ _ _ _ _ _ _ _ _ _ Vo) as Ga. pose proof (vo_scoped _ _ _ _ _ _ _ _ _ _ _ _ _ Vo) as Sg.
  assert (W0 : wf (set_guard (v_guard v) (v_entered v))).
  { apply wf_set_guard; [exact (vo_wf _ _ _ _ _ _ _ _ _ _ _ _ _ Vo)|exact Sg]. }
  split; [done|]. unfold translate_body in E. rewrite L in E.
  unfold mbind at 1, M_bind at 1 in E. apply bind_Some in E as ([u0 s0] & E0 & E). injection E0 as _ <-.
  unfold mbind at 1, M_bind at 1 in E. apply bind_Some in E as ([u1 s1] & E1 & E).
  unfold mbind at 1, M_bind at 1 in E. apply bind_Some in E as ([inc1 s2] & E2 & E).
  unfold mbind at 1, M_bind at 1 in E. apply bind_Some in E as ([u3 s3] & E3 & E). injection E3 as _ <-.
  injection E as _ Ev. unfold plain_nodes. rewrite L.
  destruct (each_sound _ front (node_sound func module options) _ _ _ E1 W0) as (W1 & X1 & _).
  assert (G3 : grows s2 s_end).
  { etrans; [|exact Ga]. rewrite <- Ev. split; cbn; try done; lia. }
  destruct (is_branch (inst term)) eqn:B.
  - exists u1, s1. split; [done|]. etrans; [|exact G3].
    assert (Sg1 : scoped s1 (v_guard v)) by (eapply scoped_ext; [exact X1|]; by eapply scoped_decls).
    by destruct (outgoing_edges_spec func module term (v_guard v) _ s1 B Sg1 _ _ E2 W1) as (_ & X2 & _); apply X2.
  - unfold mbind at 1, M_bind at 1 in E2. apply bind_Some in E2 as ([u2 s2'] & E2 & Er). injection Er as _ ->.
    exists tt, s2. split; [|done]. apply (each_app _ front [term] _ _ _ E1). cbn [each].
    unfold mbind at 1, M_bind at 1. rewrite E2. by destruct u2.
Qed.

(** A violation of the encoding is satisfied. *)
Definition fails (rho : string -> val) (s : FuncTranslator) : Prop :=
  exists x, x ∈ t_violations s /\ is_true (eval rho (Bmc.condition x)).

Lemma flagged_fails rho s0 s g : flagged s0 g -> grows s0 s -> eval rho g = vbool true -> fails rho s.
Proof.
  intros (x & Hx & C) G T. exists x. split.
  - destruct (grows_violations _ _ G) as [vs ->]. apply elem_of_app. by left.
  - rewrite C, T. by apply is_true_vbool.
Qed.


(** the walk without guards never passes over what it cannot encode.  A function
    whose blocks have no topological order - a loop, or a structure the guarded encoding
    does not support - has a violation without conditions for each of its branches and
    each of its instructions without exact semantics. *)
Theorem linear_fails_closed b (node : Node) vc : acyclic_topo_order func = None ->
  b ∈ blocks func -> node ∈ body b -> unmodelled node = true ->
  translate_function func module options = Some vc ->
  exists x, x ∈ Bmc.violations vc /\ forall rho, is_true (eval rho (Bmc.condition x)).
Proof.
  intros Eo Hb Hn U Et. unfold translate_function in Et. apply bind_Some in Et as (s & Es & [= <-]). cbn.
  unfold translate_state in Es. rewrite Eo in Es. apply bind_Some in Es as ([u s1] & E & [= ->]).
  unfold mbind at 1, M_bind at 1 in E. apply bind_Some in E as ([u0 s0] & E0 & E).
  assert (E1 : entry_state func = Some s0) by (unfold entry_state; by rewrite E0).
  destruct (entry_ready func s0 E1) as ([W T _ _] & _ & _).
  pose proof (fun l s => each_sound (translate_node func module options) l (node_sound func module options) s) as Ns.
  destruct (each_visits _ (blocks func) b (fun b s => Ns (body b) s) Hb s0 _ _ W E) as (t1 & t2 & Eb & W1 & X1 & X2).
  destruct (each_visits _ (body b) node (node_sound func module options) Hn t1 _ _ W1 Eb) as (r1 & r2 & En & W2 & X3 & X4).
  destruct (node_flags node r1 U tt r2 En W2) as (x & Hx & C). exists x. split.
  - destruct (grows_violations _ _ (ext_grows _ _ X2)) as [vs ->].
    destruct (grows_violations _ _ (ext_grows _ _ X4)) as [vs' ->]. rewrite !elem_of_app. tauto.
  - intros rho. rewrite C, (ext_guard _ _ X3), (ext_guard _ _ X1), T. rewrite eval_built_bool. by apply is_true_vbool.
Qed.

End Checks.

End BmcChecks.
