(* ===== verification/BmcArith.v ===== *)
(** * Checked arithmetic of the bounded encoder

    [translate_integer_binop] against the checked operations of Rust ([checked]): a
    violation is satisfied exactly where the checked operation has no result, and
    elsewhere the bits bound to the result are its bits.  Numbers are read from bits by
    the signedness of the type ([number]). *)

From S2P Require Import Prelude AyExpr BvArith AyBuild ConstEvalSpec AyTry AyEncode Artifact Chc Bmc TrustIr F64 BmcExpr BmcOrder BmcTranslate BmcInvariant BmcSound BmcEdges.

Module BmcArith.
Import BvArith AyBuild AyTry AyEncode TrustIr BmcExpr BmcTranslate BmcInvariant BmcEdges.

(** ** The reference *)

Section Reference.
Context (signed : bool) (w : N).

Definition least : Z := if signed then (- 2 ^ (Z.of_N w - 1))%Z else 0.

Definition if_fits (z : Z) : option Z := if fits signed w z then Some z else None.

(** [checked_add], [checked_sub], [checked_mul], [checked_div], [checked_rem],
    [checked_shl], [checked_shr] of an integer type *)
Definition checked (op : Op.BinOp) (x y : Z) : option Z :=
  match op with
  | Op.Add => if_fits (x + y)
  | Op.Sub => if_fits (x - y)
  | Op.Mul => if_fits (x * y)
  | Op.SDiv | Op.UDiv =>
      if (y =? 0)%Z || (signed && (x =? least)%Z && (y =? -1)%Z) then None else Some (Z.quot x y)
  | Op.SRem | Op.URem =>
      if (y =? 0)%Z || (signed && (x =? least)%Z && (y =? -1)%Z) then None else Some (Z.rem x y)
  | Op.Shl => if ((0 <=? y) && (y <? Z.of_N w))%Z then Some (number signed w ((x * 2 ^ y) mod card w)) else None
  | Op.LShr | Op.AShr => if ((0 <=? y) && (y <? Z.of_N w))%Z then Some (x / 2 ^ y)%Z else None
  | _ => None
  end.

(** The operators this covers, at the types they are for *)
Definition suits (op : Op.BinOp) : bool :=
  match op with
  | Op.Add | Op.Sub | Op.Mul | Op.Shl => true
  | Op.SDiv | Op.SRem | Op.AShr => signed
  | Op.UDiv | Op.URem | Op.LShr => negb signed
  | _ => false
  end.

Definition divides (op : Op.BinOp) : bool :=
  match op with Op.SDiv | Op.UDiv | Op.SRem | Op.URem => true | _ => false end.

(** The condition of the overflow check, on the numbers *)
Definition in_bounds (op : Op.BinOp) (x y : Z) : bool :=
  match op with
  | Op.Add => fits signed w (x + y)
  | Op.Sub => fits signed w (x - y)
  | Op.Mul => fits signed w (x * y)
  | Op.SDiv | Op.SRem => negb ((x =? least)%Z && (y =? -1)%Z)
  | Op.Shl | Op.LShr | Op.AShr => ((0 <=? y) && (y <? Z.of_N w))%Z
  | _ => true
  end.

Definition operator (op : Op.BinOp) : binary :=
  match op with
  | Op.Add => BvAdd | Op.Sub => BvSub | Op.Mul => BvMul | Op.UDiv => BvUDiv | Op.SDiv => BvSDiv
  | Op.URem => BvURem | Op.SRem => BvSRem | Op.Shl => BvShl | Op.LShr => BvLShr | _ => BvAShr
  end.

Context (W : (0 < w)%N).

Lemma checked_none op x y : suits op = true -> checked op x y = None <->
  in_bounds op x y = false \/ divides op = true /\ y = 0%Z.
Proof.
  unfold checked, in_bounds, if_fits. intros S.
  assert (D : forall (c : bool) (z : Z), (if (y =? 0)%Z || c then None else Some z) = None <->
    negb c = false \/ y = 0%Z).
  { intros c z. destruct (Z.eqb_spec y 0), c; cbn; naive_solver. }
  assert (F : forall (c : bool) (z : Z), (if c then Some z else None) = None <-> c = false \/ false = true /\ y = 0%Z).
  { intros c z. destruct c; naive_solver. }
  destruct op; cbn [suits divides] in S |- *; try discriminate S; try apply F; rewrite D.
  - destruct signed; [done|]. cbn. naive_solver.
  - rewrite S. cbn. naive_solver.
  - destruct signed; [done|]. cbn. naive_solver.
  - rewrite S. cbn. naive_solver.
Qed.

Lemma trunc_div_quot a b : signed_trunc_div a b = Z.quot a b.
Proof.
  unfold signed_trunc_div. destruct (Z.ltb_spec a 0), (Z.ltb_spec b 0); cbn [xorb].
  - rewrite Z.quot_opp_opp; [done|lia].
  - destruct (Z.eq_dec b 0) as [->|]; [by destruct a|]. rewrite Z.quot_opp_l by lia. lia.
  - rewrite Z.quot_opp_r by lia. lia.
  - done.
Qed.

Lemma number_zero y : in_range w y -> number signed w y = 0%Z <-> y = 0%Z.
Proof.
  intros R. split.
  - intros E. pose proof (number_mod signed w y W R) as M. rewrite E in M. symmetry. by rewrite Z.mod_0_l in M by (pose proof (card_pos w); lia).
  - intros ->. unfold number, bitvec_to_signed. destruct signed; [|done].
    destruct (Z.leb_spec (Z.shiftl 1 (Z.of_N w - 1)) 0) as [L|]; [|done]. rewrite Z.shiftl_1_l in L.
    assert (0 < 2 ^ (Z.of_N w - 1))%Z by (apply Z.pow_pos_nonneg; lia). lia.
Qed.

(** The bits of a sum, difference or product *)
Lemma number_ring (f : Z -> Z -> Z) x y :
  (forall a b, f a b mod card w = f (a mod card w) (b mod card w) mod card w)%Z ->
  in_range w x -> in_range w y -> (f x y mod card w = f (number signed w x) (number signed w y) mod card w)%Z.
Proof. intros F Rx Ry. by rewrite (F (number signed w x)), !number_mod. Qed.

Lemma bvsub_mod x y : bvsub w x y = ((x - y) mod card w)%Z.
Proof.
  unfold bvsub, bvadd, bvneg. rewrite Zplus_mod_idemp_r.
  replace (x + (card w - y))%Z with (x - y + 1 * card w)%Z by lia. apply Z.mod_add. pose proof (card_pos w). lia.
Qed.

Lemma number_nonneg y : in_range w y -> (0 <= number signed w y)%Z -> number signed w y = y.
Proof.
  intros R N. unfold number in *. destruct signed; [|done]. rewrite to_signed_spec in * by done.
  unfold in_range in R. destruct (msb w y); [lia|done].
Qed.

Lemma width_small : (Z.of_N w <= 2 ^ (Z.of_N w - 1))%Z.
Proof.
  assert (G : forall n : nat, (Z.of_nat n + 1 <= 2 ^ Z.of_nat n)%Z).
  { induction n as [|n IH]; [done|]. rewrite Nat2Z.inj_succ, Z.pow_succ_r by lia. lia. }
  specialize (G (N.to_nat w - 1)%nat). replace (Z.of_nat (N.to_nat w - 1)%nat) with (Z.of_N w - 1)%Z in G by lia. lia.
Qed.

(** A shift amount is in bounds by its bits. *)
Lemma shift_bits y : in_range w y ->
  ((0 <=? number signed w y) && (number signed w y <? Z.of_N w))%Z = (y <? Z.of_N w)%Z.
Proof.
  intros R. pose proof (number_nonneg y R) as N. pose proof width_small as S. pose proof (card_double w W) as C.
  destruct (Z.leb_spec 0 (number signed w y)) as [L|L]; [by rewrite N|]. cbn. symmetry. apply Z.ltb_ge.
  unfold number in L. destruct signed; [|unfold in_range in R; lia]. rewrite to_signed_spec, msb_spec in L by done.
  unfold in_range in R. destruct (Z.leb_spec (2 ^ (Z.of_N w - 1)) y); lia.
Qed.

Lemma ashr_floor v k : (k < w)%N -> signed_ashr v k w = (v / 2 ^ Z.of_N k)%Z.
Proof.
  intros L. unfold signed_ashr. rewrite (proj2 (N.leb_gt _ _) L), Z.shiftl_1_l.
  assert (P : (0 < 2 ^ Z.of_N k)%Z) by (apply Z.pow_pos_nonneg; lia). set (d := (2 ^ Z.of_N k)%Z) in *.
  destruct (Z.leb_spec 0 v); [by rewrite Z.quot_div_nonneg by lia|]. rewrite Z.quot_div_nonneg by lia.
  pose proof (Z.div_mod v d ltac:(lia)). pose proof (Z.mod_pos_bound v d P).
  assert (E : ((- v + d - 1) / d = - (v / d))%Z); [|lia].
  symmetry. apply Z.div_unique with (d - 1 - v mod d)%Z; lia.
Qed.

Lemma quot_fits x y : fits true w x = true -> (y <> 0)%Z -> ~ (x = - 2 ^ (Z.of_N w - 1) /\ y = -1)%Z ->
  fits true w (Z.quot x y) = true /\ fits true w (Z.rem x y) = true.
Proof.
  unfold fits. intros [L%Z.leb_le U%Z.ltb_lt]%andb_true_iff N O. set (h := (2 ^ (Z.of_N w - 1))%Z) in *.
  assert (P : (0 < h)%Z) by (apply Z.pow_pos_nonneg; lia).
  pose proof (Z.quot_rem' x y) as E. pose proof (Z.rem_bound_abs x y N) as B.
  pose proof (Z.rem_sign_mul x y N) as Sg.
  rewrite !andb_true_iff, !Z.leb_le, !Z.ltb_lt. set (q := Z.quot x y) in *. set (r := Z.rem x y) in *.
  assert (Q : (Z.abs q <= Z.abs x)%Z) by nia. 
  assert (Rb : (Z.abs r <= Z.abs x)%Z).
  { destruct (Z.le_gt_cases (Z.abs y) (Z.abs x)); [lia|].
    assert (q = 0%Z) by nia. subst q. nia. }
  split; split; try nia.
Qed.

Lemma fits_least x : fits signed w x = true -> (least <= x)%Z.
Proof. unfold fits, least. destruct signed; intros [L%Z.leb_le _]%andb_true_iff; lia. Qed.

(** Where the checked operation has a result, the operator computes its bits. *)
Lemma checked_bits op x y z : suits op = true -> in_range w x -> in_range w y ->
  checked op (number signed w x) (number signed w y) = Some z ->
  smt_binary (operator op) w x w y = Some (RBits w (z mod card w)%Z) /\ fits signed w z = true.
Proof.
  intros S Rx Ry E. pose proof (card_pos w) as P.
  pose proof (number_range signed w x W Rx) as Fx. pose proof (number_zero y Ry) as Zy.
  assert (Ring : forall f : Z -> Z -> Z,
    (forall a b, f a b mod card w = f (a mod card w) (b mod card w) mod card w)%Z ->
    if_fits (f (number signed w x) (number signed w y)) = Some z -> (f x y mod card w = z mod card w)%Z /\ fits signed w z = true).
  { intros f Hf. unfold if_fits. intros Ez.
    destruct (fits signed w (f (number signed w x) (number signed w y))) eqn:F; [|done]. injection Ez as <-. split; [by apply number_ring|done]. }
  assert (Div : divides op = true -> y <> 0%Z /\
    (signed = true -> ~ (number true w x = - 2 ^ (Z.of_N w - 1) /\ number true w y = -1))%Z /\
    z = match op with Op.SDiv | Op.UDiv => Z.quot (number signed w x) (number signed w y)
                    | _ => Z.rem (number signed w x) (number signed w y) end).
  { intros D. unfold checked in E.
    assert (G : forall q, (if (number signed w y =? 0)%Z || (signed && (number signed w x =? least)%Z && (number signed w y =? -1)%Z)
      then None else Some q) = Some z -> y <> 0%Z /\
      (signed = true -> ~ (number true w x = - 2 ^ (Z.of_N w - 1) /\ number true w y = -1))%Z /\ z = q).
    { intros q. destruct (Z.eqb_spec (number signed w y) 0) as [|Ny]; [done|]. cbn [orb].
      destruct (signed && _ && _) eqn:O; [done|]. intros [= <-]. split_and!; [|intros Sg [A B]|done].
      - intros Y. by apply Ny, Zy.
      - rewrite Sg in O. unfold least in O. rewrite Sg, A, B, Z.eqb_refl in O. done. }
    destruct op; try discriminate D; by apply G. }
  destruct op; cbn [suits operator smt_binary checked] in S, E |- *; try discriminate S.
  - destruct (Ring Z.add) as [R F]; [intros; apply Zplus_mod|done|]. unfold bvadd. by rewrite R.
  - destruct (Ring Z.sub) as [R F]; [intros; apply Zminus_mod|done|]. by rewrite bvsub_mod, R.
  - destruct (Ring Z.mul) as [R F]; [intros; apply Zmult_mod|done|]. unfold bvmul. by rewrite R.
  - destruct signed; [done|]. destruct (Div eq_refl) as (Ny & _ & ->). cbn [number]. unfold bvudiv.
    rewrite (proj2 (Z.eqb_neq _ _) Ny). unfold in_range in Rx, Ry. rewrite Z.quot_div_nonneg by lia.
    assert (B : (0 <= x / y < card w)%Z) by (split; [apply Z.div_pos; lia|apply Z.div_lt_upper_bound; nia]).
    rewrite Z.mod_small by done. split; [done|]. unfold fits. apply andb_true_iff. by rewrite Z.leb_le, Z.ltb_lt.
  - rewrite S in *. destruct (Div eq_refl) as (Ny & O & ->). cbn [number] in *. rewrite <- trunc_div_quot, sdiv_spec by done.
    split; [done|]. rewrite trunc_div_quot. apply quot_fits; [done|by rewrite Zy|by apply O].
  - destruct signed; [done|]. destruct (Div eq_refl) as (Ny & _ & ->). cbn [number]. unfold bvurem.
    rewrite (proj2 (Z.eqb_neq _ _) Ny). unfold in_range in Rx, Ry. rewrite Z.rem_mod_nonneg by lia.
    pose proof (Z.mod_pos_bound x y ltac:(lia)).
    rewrite (Z.mod_small (x mod y)) by lia. split; [done|]. unfold fits. apply andb_true_iff. rewrite Z.leb_le, Z.ltb_lt. lia.
  - rewrite S in *. destruct (Div eq_refl) as (Ny & O & ->). cbn [number] in *. 
    pose proof (srem_spec w x y W Rx Ry Ny) as Sp. rewrite trunc_div_quot in Sp.
    assert (Er : (Z.rem (bitvec_to_signed x w) (bitvec_to_signed y w) = bitvec_to_signed x w -
      Z.quot (bitvec_to_signed x w) (bitvec_to_signed y w) * bitvec_to_signed y w)%Z).
    { pose proof (Z.quot_rem' (bitvec_to_signed x w) (bitvec_to_signed y w)). lia. }
    rewrite Er, Sp, <- Er. split; [done|]. apply quot_fits; [done|by rewrite Zy|by apply O].
  - destruct ((0 <=? number signed w y) && _)%Z eqn:B; [|done]. injection E as <-.
    apply andb_true_iff in B as [B%Z.leb_le _]. rewrite number_mod by (done || apply mod_in_range).
    split; [|apply number_range; [done|apply mod_in_range]]. unfold bvshl. rewrite (number_nonneg y Ry B).
    do 2 f_equal. by rewrite <- (Zmult_mod_idemp_l (number signed w x)), number_mod.
  - destruct signed; [done|]. cbn [number] in *. destruct ((0 <=? y) && (y <? Z.of_N w))%Z eqn:B; [|done].
    injection E as <-. apply andb_true_iff in B as [B%Z.leb_le _]. unfold bvlshr. unfold in_range in Rx.
    assert (P2 : (0 < 2 ^ y)%Z) by (by apply Z.pow_pos_nonneg).
    assert (Bd : (0 <= x / 2 ^ y < card w)%Z) by (split; [apply Z.div_pos; lia|apply Z.div_lt_upper_bound; nia]).
    rewrite Z.mod_small by done. split; [done|]. unfold fits. apply andb_true_iff. by rewrite Z.leb_le, Z.ltb_lt.
  - destruct ((0 <=? number signed w y) && (number signed w y <? Z.of_N w))%Z eqn:B; [|done].
    apply andb_true_iff in B as [B%Z.leb_le U%Z.ltb_lt]. rewrite (number_nonneg y Ry B) in *. injection E as <-.
    rewrite S in *. cbn [number] in *. assert (L : (Z.to_N y < w)%N) by lia.
    pose proof (ashr_spec w x (Z.to_N y) W Rx L) as Sp. rewrite ashr_floor in Sp by done.
    assert (Py : (0 <= y)%Z) by apply Ry. rewrite Z2N.id in Sp by done. rewrite Sp. split; [done|]. unfold fits in *.
    apply andb_true_iff in Fx as [Lx%Z.leb_le Ux%Z.ltb_lt]. apply andb_true_iff. rewrite Z.leb_le, Z.ltb_lt.
    assert (P2 : (0 < 2 ^ y)%Z) by (by apply Z.pow_pos_nonneg).
    assert (Ph : (0 < 2 ^ (Z.of_N w - 1))%Z) by (apply Z.pow_pos_nonneg; lia).
    set (d := (2 ^ y)%Z) in *. set (h := (2 ^ (Z.of_N w - 1))%Z) in *. set (v := bitvec_to_signed x w) in *.
    clearbody d h v. clear - Lx Ux P2 Ph.
    split; [apply Z.div_le_lower_bound; [lia|nia]|apply Z.div_lt_upper_bound; [lia|nia]].
Qed.

End Reference.

(** ** The encoder *)

Section Encoder.
Context `{AyEncode} `{TrustIr} `{!TrustIrLaws} `{F64.NanCasts} `{!AySem} `{!AyEval} `{!AyEncodeEval}.
Context (func : Function_ Payload) (module : Module_ Payload) (options : TranslateOptions).

Notation Ty := (Ty.Ty Payload).
Notation Node := (InstrNode Payload).

(** All checks of arithmetic are on. *)
Definition checks_on : Prop :=
  check_signed_overflow options = true /\ check_unsigned_overflow options = true /\ check_div_by_zero options = true.

Lemma integer_sort (ty : Ty) w : integer_width ty HOST_POINTER_BITS = Some w ->
  ty_to_sort ty = Some (sort_bitvec w) /\ width_ok w.
Proof. destruct ty; try done; intros [= <-]; by split. Qed.

Lemma width_of w : width_ok w -> bitvec_width (sort_bitvec w) = Some w.
Proof. intros W. by apply bitvec_sort_only. Qed.

(** An operand of the type's sort is left as it is. *)
Lemma normalize_same (ty : Ty) e w : integer_width ty HOST_POINTER_BITS = Some w ->
  sort_of e = sort_bitvec w -> normalize_expr_to_ty e ty = Some e.
Proof.
  intros Iw S. destruct (integer_sort ty w Iw) as [Es Wk]. unfold normalize_expr_to_ty. rewrite Es. cbn.
  by rewrite S, !width_of, N.eqb_refl by done.
Qed.

(** The operands of an operation, as a valuation reads them *)
Record operands (ty : Ty) (rho : string -> val) (w : N) (a b : Expr) (x y : Z) : Prop := {
  opd_int : is_integer ty = true;
  opd_width : integer_width ty HOST_POINTER_BITS = Some w;
  opd_admissible : admissible rho;
  opd_left : sort_of a = sort_bitvec w /\ in_range w x /\ eval rho a = bv w x;
  opd_right : sort_of b = sort_bitvec w /\ in_range w y /\ eval rho b = bv w y;
}.

(** A predicate of SMT-LIB on well-sorted operands *)
Lemma eval_predicate (ty : Ty) rho w a b x y op t : operands ty rho w a b x y -> op <> BvConcat ->
  smt_binary op w x w y = Some (RBool t) \/ smt_overflow op w x y = Some t -> eval rho (mk_binary op a b) = vbool t.
Proof.
  intros [I Iw A (Sa & Rx & Ea) (Sb & Ry & Eb)] N [E|E].
  - by apply (eval_mk_binary rho op a b w x w y (RBool t)).
  - destruct (integer_sort ty w Iw) as [_ Wk]. by apply (eval_mk_overflow rho op a b w x y t).
Qed.

(** The condition of the overflow check *)
Lemma overflow_condition op (ty : Ty) rho w a b x y : checks_on -> operands ty rho w a b x y ->
  suits (is_signed ty) op = true ->
  exists o, integer_binop_no_overflow_condition op ty a b options = Some o /\
  match o with
  | Some e => eval rho e = vbool (in_bounds (is_signed ty) w op (number (is_signed ty) w x) (number (is_signed ty) w y))
  | None => in_bounds (is_signed ty) w op (number (is_signed ty) w x) (number (is_signed ty) w y) = true
  end.
Proof.
  intros (Cs & Cu & _) Op S. pose proof Op as [I Iw A (Sa & Rx & Ea) (Sb & Ry & Eb)].
  destruct (integer_sort ty w Iw) as [_ Wk]. pose proof (ConstEvalSpec.width_pos w Wk) as W.
  pose proof (fun o t => eval_predicate ty rho w a b x y o t Op) as Pr.
  unfold integer_binop_no_overflow_condition. rewrite I. cbn [negb].
  rewrite !(normalize_same ty _ w) by done. cbn [mbind option_bind].
  assert (Shift : forall o, o = Op.Shl \/ o = Op.LShr \/ o = Op.AShr -> exists e,
    (ty_width ← bit_width_with ty HOST_POINTER_BITS; amount_width ← bitvec_width (sort_of b);
     Some (mk_binary BvULt b (bitvec_const (Z.of_N ty_width) amount_width))) = Some e /\
    eval rho e = vbool (in_bounds (is_signed ty) w o (number (is_signed ty) w x) (number (is_signed ty) w y))).
  { intros o Ho. rewrite (integer_bits ty _ w Iw), Sb, (width_of w Wk). cbn [mbind option_bind].
    eexists. split; [reflexivity|].
    assert (B : in_bounds (is_signed ty) w o (number (is_signed ty) w x) (number (is_signed ty) w y) = (y <? Z.of_N w)%Z).
    { rewrite <- (shift_bits (is_signed ty) w W y Ry). by destruct Ho as [->|[->| ->]]. }
    rewrite B. assert (Lw : (Z.of_N w < card w)%Z) by (apply Z.pow_gt_lin_r; lia).
    apply (eval_mk_binary rho BvULt b _ w y w (Z.of_N w) (RBool (y <? Z.of_N w)%Z)); try done.
    - split; lia.
    - rewrite eval_built_bits by done. f_equal. apply Z.mod_small. lia. }
  destruct op; cbn [suits] in S; try discriminate S; try (rewrite Cs, Cu; cbn [orb]);
    try (destruct (Shift Op.Shl ltac:(tauto)) as (e & -> & Ee); by eexists);
    try (destruct (Shift Op.LShr ltac:(tauto)) as (e & -> & Ee); by eexists);
    try (destruct (Shift Op.AShr ltac:(tauto)) as (e & -> & Ee); by eexists).
  all: destruct (is_signed ty) eqn:Sg; try discriminate S; rewrite ?Cs, ?Cu; eexists; (split; [reflexivity|]); cbn beta iota;
    try (apply Pr; [done|by right]); try done.
  all: apply Pr; [done|left]; cbn; do 2 f_equal; unfold fits, number, in_range in *.
  - by rewrite (proj2 (Z.leb_le _ _)) by lia.
  - destruct (Z.leb_spec y x), (Z.leb_spec 0 (x - y)), (Z.ltb_spec (x - y) (card w)); cbn; lia.
Qed.

(** The condition of the check for zero *)
Lemma zero_condition op (ty : Ty) rho w a b x y : checks_on -> operands ty rho w a b x y ->
  exists o, integer_binop_div_by_zero_condition op ty b options = Some o /\
  match o with
  | Some e => divides op = true /\ eval rho e = vbool (y =? 0)%Z
  | None => divides op = false
  end.
Proof.
  intros (_ & _ & Cd) [I Iw A _ (Sb & Ry & Eb)]. destruct (integer_sort ty w Iw) as [_ Wk].
  unfold integer_binop_div_by_zero_condition. rewrite Cd, I, (integer_bits ty _ w Iw). cbn [negb orb].
  rewrite (normalize_same ty b w) by done.
  destruct op; cbn [negb]; eexists; (split; [reflexivity|]); cbn beta iota; try done; (split; [done|]).
  all: destruct (eval_mk_eq rho b (bitvec_const 0 w)) as (t & -> & Et); f_equal;
    rewrite Eb, eval_built_bits, Z.mod_0_l in Et by (done || (pose proof (card_pos w); lia));
    apply eq_true_iff_eq; rewrite Et, Z.eqb_eq; (split; [|by intros ->]);
    intros Q; by apply (bv_inj w y w 0 Ry (conj (Z.le_refl 0) (card_pos w))) in Q as [_ Q].
Qed.

(** The value of an operation *)
Lemma binop_value op (ty : Ty) rho w a b x y z s e s' : operands ty rho w a b x y ->
  suits (is_signed ty) op = true -> in_range w z -> smt_binary (operator op) w x w y = Some (RBits w z) ->
  eval_binop op ty a b s = Some (e, s') -> s' = s /\ eval rho e = bv w z.
Proof.
  intros [I Iw A (Sa & Rx & Ea) (Sb & Ry & Eb)] S Rz Sm. unfold eval_binop.
  rewrite !(normalize_same ty _ w), I by done.
  destruct op; cbn [suits] in S; try discriminate S; intros [= <- <-]; (split; [done|]);
    by apply (eval_mk_binary rho _ a b w x w y (RBits w z)).
Qed.

(** ** The instruction *)

Lemma resolve_known v (ty : Ty) e s : values s !! v = Some e -> resolve v ty s = Some (e, s).
Proof. intros E. unfold resolve, gets, mbind, M_bind. cbn. by rewrite E. Qed.

(** The violations a step adds hold exactly where [t] does. *)
Definition reports (rho : string -> val) (t : bool) (s s' : FuncTranslator) : Prop :=
  exists vs, t_violations s' = t_violations s ++ vs /\
    ((exists v, v ∈ vs /\ is_true (eval rho (Bmc.condition v))) <-> t = true).

Lemma reports_same rho s s' : t_violations s' = t_violations s -> reports rho false s s'.
Proof.
  intros E. exists []. rewrite app_nil_r. split; [done|]. split; [|done]. intros (v & Hv & _). by apply elem_of_nil in Hv.
Qed.

Lemma reports_trans rho t t' s1 s2 s3 : reports rho t s1 s2 -> reports rho t' s2 s3 -> reports rho (t || t') s1 s3.
Proof.
  intros (vs & V & T) (vs' & V' & T'). exists (vs ++ vs'). rewrite V', V, app_assoc. split; [done|].
  rewrite orb_true_iff, <- T, <- T'. setoid_rewrite elem_of_app. naive_solver.
Qed.

(** One optional check *)
Lemma check_step rho (g t : bool) kind o (f : Expr -> Expr) msg (node : Node) s u s' :
  eval rho (current_guard s) = vbool g ->
  match o with Some e => eval rho (f e) = vbool t | None => t = false end ->
  match o with Some e => add_violation module kind (f e) msg node | None => mret tt end s = Some (u, s') ->
  values s' = values s /\ current_guard s' = current_guard s /\ reports rho (g && t) s s'.
Proof.
  intros G T E. destruct o as [e|].
  - injection E as _ <-. split_and!; [done|done|]. eexists [_]. split; [reflexivity|].
    match goal with |- context [[?v]] => assert (C : Bmc.condition v = and_guard (current_guard s) (f e)) by (by destruct (span node)) end.
    pose proof (eval_and_guard rho _ _ g t G T) as Ev. rewrite <- C in Ev. rewrite <- (is_true_vbool (g && t)), <- Ev. split.
    + by intros (v & ->%list_elem_of_singleton & Hv).
    + intros Hv. eexists. split; [by apply list_elem_of_singleton|done].
  - injection E as _ <-. subst t. rewrite andb_false_r. split_and!; [done|done|by apply reports_same].
Qed.

Lemma bind_result_spec (node : Node) e s u s' : bind_result node e s = Some (u, s') ->
  t_violations s' = t_violations s /\ current_guard s' = current_guard s /\
  forall r rs, results node = r :: rs -> values s' !! r = Some e.
Proof.
  unfold bind_result. destruct (results node) as [|r rs]; intros [= _ <-]; split_and!; try done.
  intros r' rs' [= <- <-]. cbn. by simplify_map_eq.
Qed.

(** C14: integer arithmetic is checked exactly.  With the checks on, [translate_integer_binop]
    adds a violation that holds, under the guard of the block, exactly where the checked
    operation of Rust on the numbers of the operands has no result - overflow, a zero
    divisor, the quotient of the least number by minus one, a shift by the width or more -
    and elsewhere binds the result to the bits of that operation's result. *)
Theorem checked_binop_exact op (ty : Ty) rho w a b x y lhs rhs (node : Node) s u s' g :
  checks_on -> operands ty rho w a b x y -> suits (is_signed ty) op = true ->
  values s !! lhs = Some a -> values s !! rhs = Some b -> eval rho (current_guard s) = vbool g ->
  translate_integer_binop func module options op ty lhs rhs node s = Some (u, s') ->
  reports rho (g && bool_decide (checked (is_signed ty) w op (number (is_signed ty) w x) (number (is_signed ty) w y) = None)) s s' /\
  forall r rs z, results node = r :: rs ->
    checked (is_signed ty) w op (number (is_signed ty) w x) (number (is_signed ty) w y) = Some z ->
    exists e, values s' !! r = Some e /\ eval rho e = bv w (z mod card w)%Z /\
      number (is_signed ty) w (z mod card w)%Z = z.
Proof.
  intros On Op S Vl Vr G E. pose proof Op as [I Iw A (Sa & Rx & Ea) (Sb & Ry & Eb)].
  destruct (integer_sort ty w Iw) as [_ Wk]. pose proof (ConstEvalSpec.width_pos w Wk) as W.
  destruct (overflow_condition op ty rho w a b x y On Op S) as (o & Eo & To).
  destruct (zero_condition op ty rho w a b x y On Op) as (d & Ed & Td).
  set (nx := number (is_signed ty) w x) in *. set (ny := number (is_signed ty) w y) in *.
  unfold translate_integer_binop in E. unfold mbind at 1, M_bind at 1 in E. rewrite (resolve_known _ _ a) in E by done.
  cbn in E. unfold mbind at 1, M_bind at 1 in E. rewrite (resolve_known _ _ b) in E by done. cbn in E.
  unfold mbind at 1, M_bind at 1, lift in E. rewrite Eo in E. cbn [mbind option_bind] in E.
  unfold mbind at 1, M_bind at 1 in E. apply bind_Some in E as ([u1 s1] & E1 & E).
  unfold mbind at 1, M_bind at 1 in E. rewrite Ed in E. cbn [mbind option_bind] in E.
  unfold mbind at 1, M_bind at 1 in E. apply bind_Some in E as ([u2 s2] & E2 & E).
  unfold mbind at 1, M_bind at 1 in E. apply bind_Some in E as ([e s3] & E3 & E).
  unfold mbind at 1, M_bind at 1 in E. apply bind_Some in E as ([u4 s4] & E4 & E).
  assert (F : is_float_op op = false) by (by destruct op). rewrite F in E. injection E as _ <-.
  apply (check_step rho g (negb (in_bounds (is_signed ty) w op nx ny)) _ o (mk_unary Not) _ _ _ _ _ G) in E1
    as (V1 & G1 & R1).
  2: { destruct o as [c|]; [by apply eval_mk_not|by rewrite To]. }
  rewrite <- G1 in G.
  apply (check_step rho g (divides op && (y =? 0)%Z) _ d id _ _ _ _ _ G) in E2 as (V2 & G2 & R2).
  2: { destruct d as [c|]; [destruct Td as [-> Td]; exact Td|by rewrite Td]. }
  pose proof (reports_trans _ _ _ _ _ _ R1 R2) as R. rewrite <- andb_orb_distrib_r in R.
  destruct (bind_result_spec node e s3 u4 s4 E4) as (V4 & _ & Rs). split.
  - assert (Es : t_violations s4 = t_violations s2).
    { rewrite V4. unfold eval_binop in E3. rewrite !(normalize_same ty _ w), I in E3 by done.
      destruct op; cbn [suits] in S; try discriminate S; by injection E3 as _ <-. }
    destruct R as (vs & Vs & Ts). exists vs. rewrite Es. split; [done|]. rewrite Ts, !andb_true_iff, bool_decide_eq_true.
    rewrite (checked_none _ _ op nx ny S), orb_true_iff, negb_true_iff, andb_true_iff, Z.eqb_eq.
    by rewrite <- (number_zero (is_signed ty) w W y Ry).
  - intros r rs z Hr Ec. destruct (checked_bits (is_signed ty) w W op x y z S Rx Ry Ec) as [Sm Fz].
    destruct (binop_value op ty rho w a b x y _ s2 e s3 Op S (mod_in_range w z) Sm E3) as [_ Ee].
    exists e. split_and!; [by apply (Rs r rs)|done|by apply number_of_fitting].
Qed.

(** ** Postconditions *)

(** What a bound of a postcondition is read as: the integer it is, in the range of [i128] -
    but the negative zero is not read, and [2 ^ 127], which is outside the range, saturates
    to the greatest [i128] and is rounded back from it. *)
Definition negative_zero : Z := 2 ^ 63.
Definition two_to_the_127 : Z := 1150 * 2 ^ 52.
Inductive bound_read (v : Z) : Z -> Prop :=
  | reads_integer i : v <> negative_zero -> F64.denotes v i -> (F64.i128_min <= i <= F64.i128_max)%Z -> bound_read v i
  | reads_saturated : v = two_to_the_127 -> bound_read v F64.i128_max.

Lemma exact_integer v i : F64.pattern F64.double v -> exact_f64_to_i128 v = Some i <-> bound_read v i.
Proof.
  intros P. transitivity (v <> (2 ^ 63)%Z /\ (F64.denotes v i /\ (F64.i128_min <= i <= F64.i128_max)%Z \/
    v = (1150 * 2 ^ 52)%Z /\ i = F64.i128_max)).
  - rewrite <- F64.round_trip by done. unfold exact_f64_to_i128.
    destruct (F64.is_finite F64.double v); [|by split; [|intros []]].
    cbn zeta. destruct (Z.eqb_spec (F64.of_i128 (F64.as_i128 v)) v) as [E|N].
    + split; [intros E1%(inj Some); by subst i|]. by intros (_ & <- & _).
    + split; [done|]. by intros (_ & <- & ?).
  - split.
    + intros [N [[D R]|[-> ->]]]; [by constructor|by apply reads_saturated].
    + intros [j N D R| ->]; [by split; [|left]|]. split; [done|by right].
Qed.

Lemma exact_bounds v i : exact_f64_to_i128 v = Some i -> (F64.i128_min <= i <= F64.i128_max)%Z.
Proof.
  unfold exact_f64_to_i128. destruct (F64.is_finite _ v) eqn:F; [|done]. destruct (_ =? v)%Z; [|done].
  intros E%(inj Some). rewrite <- E, (F64.finite_as_i128 v F). unfold F64.i128_min, F64.i128_max. lia.
Qed.

(** [int_fits_ty] asks for the range of the type. *)
Lemma int_fits (ty : Ty) v w : (F64.i128_min <= v <= F64.i128_max)%Z -> (0 < w <= 128)%N ->
  int_fits_ty v ty w = fits (is_signed ty) w v.
Proof.
  intros B Wb. unfold int_fits_ty, fits. unfold F64.i128_min, F64.i128_max in B. destruct (is_signed ty).
  - destruct (N.leb_spec 128 w) as [L|L].
    + assert (w = 128%N) as -> by lia. symmetry. apply andb_true_iff. rewrite Z.leb_le, Z.ltb_lt. 
      change (2 ^ (Z.of_N 128 - 1))%Z with (2 ^ 127)%Z. lia.
    + rewrite Z.shiftl_1_l. f_equal. destruct (Z.leb_spec v (2 ^ (Z.of_N w - 1) - 1)), (Z.ltb_spec v (2 ^ (Z.of_N w - 1))); lia.
  - destruct (Z.ltb_spec v 0); [by rewrite (proj2 (Z.leb_gt 0 v))|]. rewrite (proj2 (Z.leb_le 0 v)) by lia. cbn.
    destruct (N.leb_spec 128 w) as [L|L]; [|by rewrite Z.shiftl_1_l].
    assert (w = 128%N) as -> by lia. symmetry. apply Z.ltb_lt. unfold card. 
    assert (2 ^ 127 < 2 ^ Z.of_N 128)%Z by (apply Z.pow_lt_mono_r; lia). lia.
Qed.

Lemma compare_bits sg w x l : (0 < w)%N -> in_range w x -> fits sg w l = true ->
  (if sg then bvslt w x (l mod card w)%Z else bvult x (l mod card w)%Z) = (number sg w x <? l)%Z /\
  (if sg then bvslt w (l mod card w)%Z x else bvult (l mod card w)%Z x) = (l <? number sg w x)%Z.
Proof.
  intros W Rx F. pose proof (number_of_fitting sg w l W F) as N. pose proof (mod_in_range w l) as Rl.
  unfold number in *. destruct sg.
  - rewrite <- (proj1 (slt_spec w x _ W Rx Rl)), <- (proj1 (slt_spec w _ x W Rl Rx)). by rewrite N.
  - unfold bvult. by rewrite N.
Qed.

(** C29: the check of a bounded-output postcondition.  The bounds are doubles, read as
    [bound_read] says: the integers they are, with two exceptions - the negative zero is not
    read, and [2 ^ 127] is read as [2 ^ 127 - 1].  There is a check exactly where both are
    read and fit the returned type, and it holds for the returned bits exactly when their
    number is outside the integers the bounds were read as. *)
Theorem bounded_output_exact (ty : Ty) rho e lo hi w x : is_integer ty = true ->
  integer_width ty HOST_POINTER_BITS = Some w -> in_range w x -> eval rho e = bv w x ->
  F64.pattern F64.double lo -> F64.pattern F64.double hi ->
  match bounded_output_out_of_range ty e lo hi with
  | Some c => exists l h, bound_read lo l /\ bound_read hi h /\
      fits (is_signed ty) w l = true /\ fits (is_signed ty) w h = true /\
      eval rho c = vbool (negb ((l <=? number (is_signed ty) w x) && (number (is_signed ty) w x <=? h))%Z)
  | None => forall l h, bound_read lo l -> bound_read hi h ->
      fits (is_signed ty) w l = false \/ fits (is_signed ty) w h = false
  end.
Proof.
  intros I Iw Rx Ee Pl Ph. pose proof (fun i => exact_integer lo i Pl) as Rl. pose proof (fun i => exact_integer hi i Ph) as Rh.
  destruct (integer_sort ty w Iw) as [_ Wk]. pose proof (ConstEvalSpec.width_pos w Wk) as W.
  assert (W128 : (0 < w <= 128)%N) by (clear -Iw; destruct ty; try done; by injection Iw as <-).
  unfold bounded_output_out_of_range. rewrite I, (integer_bits ty _ w Iw). cbn [negb mbind option_bind].
  destruct (exact_f64_to_i128 lo) as [l|] eqn:El; cbn [mbind option_bind]; [|by intros l h [=]%Rl].
  destruct (exact_f64_to_i128 hi) as [h|] eqn:Eh; cbn [mbind option_bind]; [|by intros l' h _ [=]%Rh].
  rewrite !int_fits by (done || by eapply exact_bounds).
  destruct (fits (is_signed ty) w l) eqn:Fl; [|by intros l' h' [= <-]%Rl _; left].
  destruct (fits (is_signed ty) w h) eqn:Fh; [|by intros l' h' _ [= <-]%Rh; right]. cbn [negb orb].
  destruct (compare_bits (is_signed ty) w x l W Rx Fl) as [Cl _].
  destruct (compare_bits (is_signed ty) w x h W Rx Fh) as [_ Ch].
  set (n := number (is_signed ty) w x) in *.
  assert (G : forall op1 op2, op1 <> BvConcat -> op2 <> BvConcat ->
    smt_binary op1 w x w (l mod card w)%Z = Some (RBool (n <? l)%Z) ->
    smt_binary op2 w x w (h mod card w)%Z = Some (RBool (h <? n)%Z) ->
    eval rho (mk_or (mk_binary op1 e (bitvec_const l w)) (mk_binary op2 e (bitvec_const h w))) =
    vbool (negb ((l <=? n) && (n <=? h))%Z)).
  { intros op1 op2 N1 N2 S1 S2.
    assert (B : forall op t k, op <> BvConcat -> smt_binary op w x w (k mod card w)%Z = Some (RBool t) ->
      eval rho (mk_binary op e (bitvec_const k w)) = vbool t).
    { intros op t k N S. apply (eval_mk_binary rho op e _ w x w (k mod card w)%Z (RBool t)); try done.
      - apply mod_in_range.
      - by apply eval_built_bits. }
    rewrite (eval_mk_or _ _ _ (n <? l)%Z (h <? n)%Z) by (by apply B). f_equal.
    by rewrite negb_andb, <- Z.ltb_antisym, <- Z.ltb_antisym. }
  destruct (is_signed ty); exists l, h; (split_and!; [by apply Rl|by apply Rh|done|done|]); apply G; try done; cbn; by rewrite ?Cl, ?Ch.
Qed.

End Encoder.

End BmcArith.
