(* ===== verification/BmcTotal.v ===== *)
(** * The panics of the bounded encoder

    [ty_to_sort] panics on an erroneous type, and a few operations expect a region or a
    block that another found.  On a function without erroneous types none of these is
    met ([translation_total]).  The builders of the crate [ay_bindings], which the encoder
    calls, are functions of an interface and total there; they panic on operands of the
    wrong sorts, as an instruction that adds a boolean to an integer would give them. *)

From S2P Require Import Prelude Artifact AyExpr Chc Bmc BvArith AyBuild AyTry F64 TrustIr AyEncode BmcExpr BmcOrder BmcTranslate.

Module BmcTotal.
Import AyBuild AyTry AyEncode TrustIr BmcExpr BmcOrder BmcOrderSpec BmcTranslate.

Section Total.
Context `{AyEncode} `{TrustIr} `{!TrustIrLaws} `{F64.NanCasts}.
Context (func : Function_ Payload) (module : Module_ Payload) (options : TranslateOptions).

Notation Ty := (Ty.Ty Payload).
Notation Node := (InstrNode Payload).

(** ** Types *)

Definition sorted (ty : Ty) : Prop := ty <> Ty.Error.

Lemma sort_of_sorted ty : sorted ty -> is_Some (ty_to_sort ty).
Proof. unfold sorted. destruct ty; try done; by eexists. Qed.

(** The types an instruction names *)
Definition inst_types (i : Inst.Inst Payload) : list Ty :=
  match i with
  | Inst.BinOp _ ty _ _ | Inst.Const ty _ | Inst.ICmp _ ty _ _ | Inst.Load ty _ _ _ | Inst.Store ty _ _ _ _
  | Inst.Alloca ty _ _ | Inst.GEP ty _ _ | Inst.Copy ty _ | Inst.Select ty _ _ _ | Inst.Cast ty _ | Inst.Undef ty
  | Inst.UnOp ty _ | Inst.Overflow _ ty _ _ | Inst.ExtractField ty _ | Inst.ExtractElement ty _ _
  | Inst.InsertField ty _ _ | Inst.InsertElement ty _ _ _ | Inst.AtomicLoad ty _ | Inst.AtomicStore ty _ _
  | Inst.AtomicRMW _ ty _ _ | Inst.CmpXchg ty _ _ _ | Inst.FCmp ty _ _ | Inst.LoadSlot ty _
  | Inst.SeqMapAddK ty _ | Inst.SeqMapNot ty _ | Inst.SeqMap ty _ => [ty]
  | Inst.PtrData ty _ => [ty]
  | Inst.PtrMetadata ptr_ty ty _ => [ptr_ty; ty]
  | Inst.PtrFromParts ty _ _ => [ty]
  | _ => []
  end.

(** No type of the function or of a signature is erroneous. *)
Record well_typed : Prop := {
  wt_params : forall b p, b ∈ blocks func -> p ∈ block_params b -> sorted (snd p);
  wt_nodes : forall b (node : Node) ty, b ∈ blocks func -> node ∈ body b -> ty ∈ inst_types (inst node) -> sorted ty;
  wt_signatures : forall ft ty, ft ∈ func_types module -> ty ∈ ft_params ft ++ ft_returns ft -> sorted ty;
}.

(** ** Steps with a result *)

Definition total {A} (m : M A) : Prop := forall s, is_Some (m s).

Lemma total_ret {A} (a : A) : total (mret a).
Proof. intros s. by eexists. Qed.

Lemma total_bind {A B} (m : M A) (k : A -> M B) : total m -> (forall a, total (k a)) -> total (m ≫= k).
Proof. intros T K s. unfold mbind, M_bind. cbn. destruct (T s) as [[a s'] ->]. apply K. Qed.

Lemma total_gets {A} (f : FuncTranslator -> A) : total (gets f).
Proof. intros s. by eexists. Qed.

Lemma total_modify f : total (modify f).
Proof. intros s. by eexists. Qed.

Lemma total_lift {A} (o : option A) : is_Some o -> total (lift o).
Proof. intros [a ->] s. by eexists. Qed.

Lemma run_gets {A B} (f : FuncTranslator -> A) (k : A -> M B) s : (gets f ≫= k) s = k (f s) s.
Proof. done. Qed.

Lemma run_bind {A B} (m : M A) (k : A -> M B) s a s' : m s = Some (a, s') -> (m ≫= k) s = k a s'.
Proof. intros E. unfold mbind, M_bind. cbn. by rewrite E. Qed.

Lemma total_mapM {A B} (f : A -> M B) l : (forall x, x ∈ l -> total (f x)) -> total (mapM f l).
Proof.
  induction l as [|x l IH]; intros F; cbn [mapM]; [apply total_ret|].
  apply total_bind; [apply F, list_elem_of_here|]. intros y.
  apply total_bind; [apply IH; intros; by apply F, list_elem_of_further|]. intros ys. apply total_ret.
Qed.

Lemma total_each {A} (f : A -> M unit) l : (forall x, x ∈ l -> total (f x)) -> total (each f l).
Proof.
  induction l as [|x l IH]; intros F; cbn [each]; [apply total_ret|].
  apply total_bind; [apply F, list_elem_of_here|]. intros _. apply IH. intros; by apply F, list_elem_of_further.
Qed.

#[local] Hint Resolve total_ret total_gets total_modify total_lift : total.

(** Take a step apart. *)
Ltac go :=
  match goal with
  | |- total (_ ≫= _) => apply total_bind; [|intros ?]
  | |- total (if ?b then _ else _) => destruct b
  | |- total (match ?x with _ => _ end) => destruct x
  | |- total _ => solve [eauto with total]
  end.
Ltac goes := repeat go.

Lemma total_fresh p ty : sorted ty -> total (fresh_symbolic p ty).
Proof. intros S. pose proof (sort_of_sorted ty S). unfold fresh_symbolic. goes. Qed.
#[local] Hint Resolve total_fresh : total.

Lemma named_sorted : sorted Ty.Bool /\ sorted Ty.Ptr /\ sorted Ty.I64.
Proof. done. Qed.
#[local] Hint Extern 1 (sorted Ty.Bool) => done : total.
#[local] Hint Extern 1 (sorted Ty.Ptr) => done : total.
#[local] Hint Extern 1 (sorted Ty.I64) => done : total.

Lemma total_bind_value v e : total (bind v e).
Proof. apply total_modify. Qed.
#[local] Hint Resolve total_bind_value : total.

Lemma total_resolve v ty : sorted ty -> total (resolve v ty).
Proof. intros S. unfold resolve. goes. Qed.

Lemma total_result (node : Node) e : total (bind_result node e).
Proof. unfold bind_result. goes. Qed.

Lemma total_violation kind c msg (node : Node) : total (add_violation module kind c msg node).
Proof. unfold add_violation. goes. Qed.
#[local] Hint Resolve total_resolve total_result total_violation : total.

Lemma total_unsupported reason (node : Node) : total (add_unsupported_semantics func module reason node).
Proof. apply total_violation. Qed.
#[local] Hint Resolve total_unsupported : total.

Lemma total_havoc p ty reason (node : Node) : sorted ty -> total (havoc_result func module p ty reason node).
Proof. intros S. unfold havoc_result. goes. Qed.
#[local] Hint Resolve total_havoc : total.

(** ** Memory *)

Lemma total_bounds what offset cnt (node : Node) : total (check_bounds func module options what offset cnt node).
Proof. unfold check_bounds. goes. Qed.

Lemma total_unknown what (node : Node) : total (check_unknown func module options what node).
Proof. unfold check_unknown. goes. Qed.
#[local] Hint Resolve total_bounds total_unknown : total.

(** A region that was found is there. *)
Lemma region_key_found s ptr key : find_region_key_for_ptr s ptr = Some key -> is_Some (memory_regions s !! key).
Proof.
  unfold find_region_key_for_ptr. destruct (memory_regions s !! ptr) eqn:R; [by intros [= <-]; rewrite R|].
  intros ([b o] & _ & E)%bind_Some. destruct (memory_regions s !! b) eqn:R2; [injection E as <-; by rewrite R2|].
  apply bind_Some in E as ([b' o'] & _ & E). apply bind_Some in E as (r & R3 & [= <-]). by rewrite R3.
Qed.

Lemma update_region_some key f s : is_Some (memory_regions s !! key) -> is_Some (update_region key f s).
Proof. intros [r R]. unfold update_region, gets, lift, mbind, M_bind. cbn. rewrite R. by eexists. Qed.

Lemma total_alloca ty cnt (node : Node) : sorted ty -> total (translate_alloca func module ty cnt node).
Proof. intros S. pose proof (sort_of_sorted ty S). unfold translate_alloca. goes. Qed.

Lemma total_sum scale indices : forall total_so_far, total (sum_indices scale indices total_so_far).
Proof. induction indices as [|i l IH]; intros t; cbn [sum_indices]; goes; apply IH. Qed.
#[local] Hint Resolve total_alloca total_sum : total.

Lemma total_gep ty base indices (node : Node) : total (translate_gep func module options ty base indices node).
Proof. unfold translate_gep. goes. Qed.

Lemma total_load ty ptr (node : Node) : sorted ty -> total (translate_load func module options ty ptr node).
Proof. intros S. unfold translate_load. goes. Qed.

Lemma bounds_keep what offset cnt (node : Node) s u s' :
  check_bounds func module options what offset cnt node s = Some (u, s') -> memory_regions s' = memory_regions s.
Proof.
  unfold check_bounds. destruct (check_memory_bounds options); [|by intros [= _ <-]].
  destruct cnt; by intros [= _ <-].
Qed.

Lemma total_store ty ptr value (node : Node) : sorted ty -> total (translate_store func module options ty ptr value node).
Proof.
  intros S. unfold translate_store. apply total_bind; [goes|]. intros _. apply total_bind; [goes|]. intros v.
  intros s. rewrite run_gets. destruct (find_region_key_for_ptr s ptr) as [key|] eqn:E; [|apply total_unknown].
  rewrite !run_gets.
  match goal with |- is_Some ((check_bounds _ _ _ ?w ?o ?c node ≫= _) s) =>
    destruct (total_bounds w o c node s) as [[u s'] Eb] end.
  rewrite (run_bind _ _ _ _ _ Eb). apply update_region_some. rewrite (bounds_keep _ _ _ _ _ _ _ Eb).
  by eapply region_key_found.
Qed.
#[local] Hint Resolve total_gep total_load total_store : total.

(** ** Expressions *)

Lemma normalize_some e ty : sorted ty -> is_Some (normalize_expr_to_ty e ty).
Proof.
  intros S. destruct (sort_of_sorted ty S) as [sort E]. unfold normalize_expr_to_ty. rewrite E. cbn. by eexists.
Qed.
#[local] Hint Resolve normalize_some : total.

Lemma total_or_fresh e ty : sorted ty -> total (or_fresh e ty).
Proof. intros S. unfold or_fresh. goes. Qed.
#[local] Hint Resolve total_or_fresh : total.

Lemma total_binop op ty lhs rhs : sorted ty -> total (eval_binop op ty lhs rhs).
Proof. intros S. unfold eval_binop. goes. Qed.

Lemma total_icmp op ty lhs rhs : sorted ty -> total (eval_icmp op ty lhs rhs).
Proof. intros S. unfold eval_icmp. goes. Qed.
#[local] Hint Resolve total_binop total_icmp : total.

Lemma overflow_some op ty lhs rhs : sorted ty -> is_Some (integer_binop_no_overflow_condition op ty lhs rhs options).
Proof.
  intros S. unfold integer_binop_no_overflow_condition. destruct (negb _); [by eexists|].
  destruct (normalize_some lhs ty S) as [l ->], (normalize_some rhs ty S) as [r ->]. by eexists.
Qed.

Lemma division_some op ty rhs : sorted ty -> is_Some (integer_binop_div_by_zero_condition op ty rhs options).
Proof.
  intros S. unfold integer_binop_div_by_zero_condition. destruct (_ || _); [by eexists|].
  destruct (bit_width_with ty _); [|by eexists]. destruct (normalize_some rhs ty S) as [r ->]. by eexists.
Qed.
#[local] Hint Resolve overflow_some division_some : total.

Lemma total_integer_binop op ty lhs rhs (node : Node) : sorted ty ->
  total (translate_integer_binop func module options op ty lhs rhs node).
Proof. intros S. unfold translate_integer_binop. goes. Qed.
#[local] Hint Resolve total_integer_binop : total.

(** ** Calls, returns, atomics *)

Lemma signature_sorted ft ty : well_typed -> ft ∈ func_types module -> ty ∈ ft_params ft \/ ty ∈ ft_returns ft -> sorted ty.
Proof. intros Wt Hf Hty. eapply (wt_signatures Wt); [exact Hf|]. by apply elem_of_app. Qed.

Lemma default_sorted (o : option Ty) : (forall ty, o = Some ty -> sorted ty) -> sorted (default Ty.I64 o).
Proof. intros D. destruct o; [by apply D|done]. Qed.

Lemma total_symbolic_call callee args (node : Node) : well_typed -> total (symbolic_call module callee args node).
Proof.
  intros Wt. unfold symbolic_call. go.
  - apply total_fresh, default_sorted. intros ty (ft & Hf & Hty)%bind_Some. eapply (signature_sorted ft ty Wt).
    + by eapply list_elem_of_lookup_2.
    + right. destruct (ft_returns ft); [done|]. injection Hty as ->. apply list_elem_of_here.
  - go; [goes|]. go; [|goes]. apply total_mapM. intros [i v] _. apply total_resolve, default_sorted.
    intros ty (ft & Hf & Hty)%bind_Some. eapply (signature_sorted ft ty Wt); [by eapply list_elem_of_lookup_2|].
    left. by eapply list_elem_of_lookup_2.
Qed.
#[local] Hint Resolve total_symbolic_call : total.

Lemma total_call callee args (node : Node) : well_typed -> total (translate_call func module callee args node).
Proof. intros Wt. unfold translate_call. goes. Qed.

Lemma total_check_bounded lo hi (node : Node) es : forall i, total (check_bounded_output func module lo hi i es node).
Proof. induction es as [|e es IH]; intros i; cbn [check_bounded_output]; goes; apply IH. Qed.
#[local] Hint Resolve total_check_bounded : total.

Lemma total_return vals (node : Node) : well_typed -> total (translate_return func module vals node).
Proof.
  intros Wt. unfold translate_return. go.
  - destruct (func_types module !! func_ty func) as [ft|] eqn:Ef; apply total_mapM.
    + intros [v ty] Hin. apply total_resolve. eapply (signature_sorted ft ty Wt); [by eapply list_elem_of_lookup_2|].
      right. by apply elem_of_zip_r in Hin.
    + intros v _. goes.
  - go; [|goes]. apply total_mapM. intros pr _. goes.
Qed.
#[local] Hint Resolve total_call total_return : total.

Lemma total_rmw op ty ptr value (node : Node) : sorted ty -> total (translate_atomic_rmw func module op ty ptr value node).
Proof.
  intros S. unfold translate_atomic_rmw. go; [goes|]. go; [goes|]. go; [goes|]. go; [goes|]. go; [destruct op; goes|].
  destruct a0 as [[r o]|]; [|goes]. intros s. rewrite run_gets.
  destruct (find_region_key_for_ptr s ptr) as [key|] eqn:E; [|by eexists].
  apply update_region_some. by eapply region_key_found.
Qed.

Lemma total_cmpxchg ty ptr expected desired (node : Node) : sorted ty ->
  total (translate_cmpxchg func module ty ptr expected desired node).
Proof.
  intros S. unfold translate_cmpxchg. go; [goes|]. go; [goes|]. go; [goes|]. go; [goes|]. go; [goes|]. go; [goes|].
  go; [goes|]. intros s. rewrite run_gets.
  destruct (find_region_key_for_ptr s ptr) as [key|] eqn:E; [|by eexists].
  rewrite run_gets. apply update_region_some. by eapply region_key_found.
Qed.

Lemma total_overflow op ty lhs rhs (node : Node) : sorted ty ->
  total (translate_overflow func module options op ty lhs rhs node).
Proof. intros S. unfold translate_overflow. goes. Qed.
#[local] Hint Resolve total_rmw total_cmpxchg total_overflow : total.

(** ** Instructions *)

#[local] Hint Extern 1 (sorted _) =>
  match goal with S : forall ty, ty ∈ _ -> sorted ty |- _ =>
    apply S; repeat first [apply list_elem_of_here|apply list_elem_of_further] end : total.

Lemma total_node (node : Node) : well_typed -> (forall ty, ty ∈ inst_types (inst node) -> sorted ty) ->
  total (translate_node func module options node).
Proof.
  intros Wt S. unfold translate_node. destruct (inst node) eqn:I; cbn [inst_types] in S; goes.
Qed.

(** ** Blocks *)

Lemma total_bind_param pos pid param edge : total (bind_param func pos pid param edge).
Proof. unfold bind_param, add_guarded_unsupported_violation. goes. Qed.
#[local] Hint Resolve total_bind_param : total.

Lemma total_params idx (params : list (ValueId * Ty)) edges : (forall p, p ∈ params -> sorted (snd p)) ->
  total (bind_block_params func idx params edges).
Proof.
  intros S. unfold bind_block_params. apply total_each. intros [pos [pid ty]] Hin.
  apply list_elem_of_lookup in Hin as [i Hi]. rewrite list_lookup_imap in Hi.
  destruct (params !! i) as [q|] eqn:Q; [|done]. injection Hi as _ ->.
  pose proof (S (pid, ty) ltac:(by eapply list_elem_of_lookup_2)) as Sq. cbn in Sq.
  go; [goes|]. go; [goes|]. apply total_each. intros e _. goes.
Qed.

Lemma total_guard idx edges : total (define_block_guard idx edges).
Proof. unfold define_block_guard. destruct edges as [|e edges]; goes. Qed.
#[local] Hint Resolve total_guard : total.

Lemma total_enter idx (b : Block Payload) edges : well_typed -> b ∈ blocks func ->
  total (enter_block func idx b edges).
Proof.
  intros Wt Hb. unfold enter_block. go; [goes|]. go; [goes|]. go; [|goes]. apply total_params. intros p. by apply (wt_params Wt).
Qed.

Lemma total_record_edge target args cond guard inc : well_typed -> total (record_edge func target args cond guard inc).
Proof.
  intros Wt. unfold record_edge. go; [|goes]. apply total_mapM. intros [arg [pid ty]] Hin.
  assert (S : sorted ty).
  { apply elem_of_zip_r in Hin. destruct (block func target) as [b|] eqn:B; [|by apply elem_of_nil in Hin].
    apply block_found in B as [Hb _]. by apply (wt_params Wt b (pid, ty)). }
  goes.
Qed.
#[local] Hint Resolve total_record_edge : total.

Lemma total_record_cases guard cases : well_typed -> forall conds inc, total (record_cases func cases conds guard inc).
Proof. intros Wt. induction cases as [|c cases IH]; intros [|d conds] inc; cbn [record_cases]; goes. Qed.
#[local] Hint Resolve total_record_cases : total.

Lemma total_conditions selector cases (node : Node) : total (switch_conditions func module selector cases node).
Proof.
  unfold switch_conditions. destruct (switch_constants _ _ _); [goes|]. go; [goes|]. go; [|goes].
  apply total_mapM. intros c _. goes.
Qed.
#[local] Hint Resolve total_conditions : total.

Lemma total_outgoing (node : Node) guard inc : well_typed -> total (record_outgoing_edges func module node guard inc).
Proof. intros Wt. unfold record_outgoing_edges, record_switch_edges. goes. Qed.
#[local] Hint Resolve total_outgoing : total.

Lemma total_body (b : Block Payload) guard inc : well_typed -> b ∈ blocks func ->
  total (translate_body func module options b guard inc).
Proof.
  intros Wt Hb. assert (N : forall node, node ∈ body b -> total (translate_node func module options node)).
  { intros node Hn. apply total_node; [done|]. intros ty. by apply (wt_nodes Wt b). }
  unfold translate_body. go; [goes|]. destruct (split_last (body b)) as [[term front]|] eqn:L; [|goes].
  apply split_last_spec in L. go; [|intros; go; [|goes]].
  - apply total_each. intros node Hf. apply N. rewrite L. apply elem_of_app. by left.
  - go; [goes|]. go; [|goes]. apply N. rewrite L. apply elem_of_app. right. by apply list_elem_of_singleton.
Qed.

Lemma total_blocks order : well_typed -> (forall i, i ∈ order -> i < length (blocks func)) ->
  forall inc, total (translate_blocks func module options order inc).
Proof.
  intros Wt. induction order as [|i order IH]; intros Lt inc; cbn [translate_blocks]; [goes|].
  go; [|apply IH; intros; by apply Lt, list_elem_of_further].
  destruct (lookup_lt_is_Some_2 (blocks func) i) as [b Hb]; [apply Lt, list_elem_of_here|].
  assert (Hin : b ∈ blocks func) by (by eapply list_elem_of_lookup_2).
  unfold translate_block. rewrite Hb. intros s. cbn.
  change (is_Some ((guard ← enter_block func i b (default [] (inc !! block_id b));
    translate_body func module options b guard (delete (block_id b) inc)) s)).
  apply total_bind; [by apply total_enter|]. intros g. by apply total_body.
Qed.

Lemma total_linear : well_typed -> total (translate_linear func module options).
Proof.
  intros Wt. apply total_each. intros b Hb. apply total_each. intros node Hn.
  apply total_node; [done|]. intros ty. by apply (wt_nodes Wt b).
Qed.

Lemma total_entry : well_typed -> total (bind_entry_params func).
Proof.
  intros Wt. unfold bind_entry_params. destruct (List.find _ _) as [b|] eqn:F; [|goes].
  apply find_some in F as [Hb _]. apply list_elem_of_In in Hb. apply total_each. intros [v ty] Hp.
  pose proof (wt_params Wt b (v, ty) Hb Hp) as S. cbn in S. goes.
Qed.

Lemma translation_total : well_typed -> is_Some (translate_function func module options).
Proof.
  intros Wt. unfold translate_function, translate_state.
  assert (T : total (bind_entry_params func;;
    match acyclic_topo_order func with
    | Some order => translate_guarded_blocks func module options order
    | None => translate_linear func module options
    end)).
  { apply total_bind; [by apply total_entry|]. intros _. destruct (acyclic_topo_order func) as [order|] eqn:O; [|by apply total_linear].
    apply topo_order_sound in O as (_ & Pm & _). unfold translate_guarded_blocks. go; [|goes]. apply total_blocks; [done|].
    intros i. rewrite Pm, elem_of_seq. lia. }
  destruct (T FuncTranslator_new) as [[u s] ->]. by eexists.
Qed.

End Total.

(** C18: the encoder meets none of its own panics on a module without erroneous types:
    the types all have sorts, and every region or block an operation expects to be there
    is.  So, where the builders of [ay_bindings] return (they are total in the interface),
    every function has a verification condition. *)
Theorem encoder_total `{AyEncode} `{TrustIr} `{!TrustIrLaws} `{F64.NanCasts} (module : Module_ Payload) options :
  (forall func, func ∈ functions module -> well_typed func module) ->
  exists vcs, trust_ir_to_bmc_vc module options = Some vcs /\ length vcs = length (functions module) /\
    forall id func, function_by_id module id = Some func -> func ∈ functions module ->
      exists vc, trust_ir_function_to_bmc_vc module id options = Some (Some vc) /\ vc ∈ vcs.
Proof.
  intros Wt. unfold trust_ir_to_bmc_vc, trust_ir_function_to_bmc_vc.
  destruct (proj2 (mapM_is_Some (fun func => translate_function func module options) (functions module))) as [vcs E].
  { apply Forall_forall. intros func Hf. by apply translation_total, Wt. }
  exists vcs. apply mapM_Some in E as F. split; [done|]. split; [symmetry; by eapply Forall2_length|].
  intros id func Ef Hf. rewrite Ef. apply list_elem_of_lookup in Hf as [i Hi].
  destruct (Forall2_lookup_l _ _ _ _ _ F Hi) as (vc & Hv & Ev). exists vc. rewrite Ev. split; [done|].
  by eapply list_elem_of_lookup_2.
Qed.

End BmcTotal.
