(* ===== verification/BmcWitness.v ===== *)
(** * Programs of the bounded encoder

    A function that branches on its parameter and joins again, one with a loop, and
    valuations of their encodings: the properties of the encoder at concrete inputs. *)

From S2P Require Import Prelude Artifact AyExpr Chc Bmc BvArith AyBuild AyBuildSample AyTry F64 TrustIr AyEncode BmcExpr BmcOrder BmcTranslate BmcInvariant BmcEdges BmcBlocks BmcPaths BmcWalk BmcFunction BmcChecks BmcArith BmcTotal.

Module BmcWitness.
Import BvArith AyBuild AyBuildSample AyTry AyTrySample AyEncode AyEncodeSample TrustIr BmcExpr BmcOrder BmcOrderSpec BmcTranslate BmcInvariant BmcEdges BmcBlocks BmcPaths BmcWalk BmcFunction BmcChecks BmcArith BmcTotal.

(** ** The programs *)

Definition step (i : Inst.Inst (@Payload sample_ir)) (rs : list N) : InstrNode (@Payload sample_ir) := {| inst := i; results := rs; span := None |}.

(** [if v0 < 5 { v0 + v1 } else { v0 as i8 }], which must be less than 5 *)
Definition branching : Function_ (@Payload sample_ir) :=
  {| func_id := 0; func_name := "f"; func_ty := 0; entry := 0; proofs := [];
     blocks :=
       [{| block_id := 0; block_params := [(0%N, Ty.I8); (1%N, Ty.I8)];
           body := [step (Inst.Const Ty.I8 (Constant.Int 5)) [2%N]; step (Inst.ICmp Op.Slt Ty.I8 0 2) [3%N];
                    step (Inst.CondBr 3 1 [0%N] 2 [0%N]) []] |};
        {| block_id := 1; block_params := [(10%N, Ty.I8)];
           body := [step (Inst.BinOp Op.Add Ty.I8 10 1) [11%N]; step (Inst.Br 3 [11%N]) []] |};
        {| block_id := 2; block_params := [(20%N, Ty.I8)];
           body := [step (Inst.Cast Ty.I8 20) [21%N]; step (Inst.Br 3 [21%N]) []] |};
        {| block_id := 3; block_params := [(30%N, Ty.I8)];
           body := [step (Inst.ICmp Op.Slt Ty.I8 30 2) [31%N]; step (Inst.Assert 31) []; step (Inst.Return []) []] |}] |}.

Definition looping : Function_ (@Payload sample_ir) :=
  {| func_id := 1; func_name := "g"; func_ty := 0; entry := 0; proofs := [];
     blocks := [{| block_id := 0; block_params := []; body := [step (Inst.Br 0 []) []] |}] |}.

Definition program : Module_ (@Payload sample_ir) :=
  {| module_name := "m"; functions := [branching; looping]; func_types := [] |}.

(** ** Valuations *)

Definition choose (l : list (string * sval)) (n : string) : @val terms term_sem :=
  match list_find (fun p => p.1 = n) l with
  | Some (_, p) => p.2
  | None => sinhabitant (svar_sort n)
  end.

Definition typedb (p : string * sval) : bool :=
  match svar_sort p.1, p.2 with
  | SBool, VBool _ => true
  | SBv w, VBv w' x => (w =? w')%N && ((0 <=? x) && (x <? card w))%Z
  | _, _ => false
  end.

Lemma choose_ok l : forallb typedb l = true -> @admissible terms term_sem (choose l).
Proof.
  intros G n. unfold choose. destruct (list_find _ l) as [[i p]|] eqn:F; [|apply (@inhabitant_sort terms term_sem)].
  apply list_find_Some in F as (L & <- & _). rewrite forallb_forall in G.
  apply list_elem_of_lookup_2, list_elem_of_In, G in L. unfold typedb in L. cbn.
  destruct (svar_sort p.1), p.2; try done.
  apply andb_true_iff in L as [->%N.eqb_eq [B1%Z.leb_le B2%Z.ltb_lt]%andb_true_iff]. done.
Qed.

(** ** Checkers *)

Definition sortsb (s : FuncTranslator) : bool :=
  forallb (fun d => match d with Chc.DConst n sort => bool_decide (svar_sort n = sort) | _ => true end) (t_decls s).

Lemma sortsb_ok s : sortsb s = true -> sorts_agree s.
Proof.
  intros B n sort Hd. unfold sortsb in B. rewrite forallb_forall in B.
  apply list_elem_of_In, B, bool_decide_eq_true in Hd. exact Hd.
Qed.

Definition holdsb (rho : string -> sval) (e : term) : bool := bool_decide (seval rho e = VBool true).

Definition wiredb (vs : list Visit) (rho : string -> sval) : bool :=
  forallb (fun v => forallb (holdsb rho) (added (v_before v) (v_entered v))) vs.

Lemma wiredb_ok vs rho : wiredb vs rho = true -> wired vs rho.
Proof.
  intros B v Hv c Hc. unfold wiredb in B. rewrite forallb_forall in B. apply list_elem_of_In, B in Hv.
  rewrite forallb_forall in Hv. apply list_elem_of_In, Hv, bool_decide_eq_true in Hc. exact Hc.
Qed.

(** Control goes along a branch or a conditional branch. *)
Definition followsb (rho : string -> sval) (v : Visit) (i : N) : bool :=
  match split_last (body (v_block v)) with
  | Some (term, _) =>
      match inst term with
      | Inst.Br target _ => (target =? i)%N
      | Inst.CondBr cond then_target _ else_target _ =>
          match values (v_after v) !! cond with
          | Some e => bool_decide (sort_of e = SBool) &&
              (bool_decide (seval rho e = VBool true) && (then_target =? i)%N ||
               bool_decide (seval rho e = VBool false) && (else_target =? i)%N)
          | None => false
          end
      | _ => false
      end
  | None => false
  end.

Definition branchesb (v : Visit) : bool :=
  match split_last (body (v_block v)) with Some (term, _) => is_branch (inst term) | None => false end.

Fixpoint walkb (rho : string -> sval) (vs : list Visit) (i : N) (p : list nat) : bool :=
  match p with
  | [] => false
  | idx :: p =>
      existsb (fun v => (block_id (v_block v) =? i)%N && (v_idx v =? idx)%nat &&
        match p with
        | [] => negb (branchesb v)
        | _ => existsb (fun j => followsb rho v j && walkb rho vs j p) (map (fun u => block_id (v_block u)) vs)
        end) vs
  end.

Lemma followsb_ok rho v i : followsb rho v i = true -> follows rho v i.
Proof.
  unfold followsb. destruct (split_last _) as [[term front]|] eqn:L; [|done]. intros B. exists term, front. split; [done|]. left.
  destruct (inst term) eqn:I; try done.
  - apply N.eqb_eq in B as ->. split; [done|constructor].
  - destruct (values (v_after v) !! cond) as [e|] eqn:V; [|done]. apply andb_true_iff in B as [S%bool_decide_eq_true B].
    split; [exists e; split; [done|by rewrite S]|].
    apply orb_true_iff in B as [[Ev%bool_decide_eq_true <-%N.eqb_eq]%andb_true_iff|[Ev%bool_decide_eq_true <-%N.eqb_eq]%andb_true_iff].
    + by apply (selects_then _ _ cond e).
    + by apply (selects_else _ _ cond e).
Qed.

Lemma walkb_ok rho vs p : forall i, walkb rho vs i p = true -> walk rho vs i p.
Proof.
  induction p as [|idx p IH]; intros i B; [done|]. cbn [walkb] in B.
  apply existsb_exists in B as (v & Hv & [[<-%N.eqb_eq <-%Nat.eqb_eq]%andb_true_iff B]%andb_true_iff).
  apply list_elem_of_In in Hv. destruct p as [|j p].
  - apply walk_end; [done|]. intros (term & front & L & Br). unfold branchesb in B. by rewrite L, Br in B.
  - apply existsb_exists in B as (k & _ & [T K]%andb_true_iff). apply walk_step with k; [done|by apply followsb_ok|by apply IH].
Qed.

(** ** The encoding of the program *)

Definition order : list nat := [0; 2; 1; 3]%nat.
Definition state : FuncTranslator :=
  default FuncTranslator_new (translate_state branching program default_options).
Definition visited : list Visit := function_visits branching program default_options.
Definition vc : Bmc.BmcVc := default Bmc.BmcVc_new (translate_function branching program default_options).

Lemma default_of {A} (o : option A) d : (if o then true else false) = true -> o = Some (default d o).
Proof. by destruct o. Qed.

Lemma branching_encoded : encoded branching program default_options order state.
Proof. split; [vm_compute; reflexivity|]. apply default_of. vm_compute. reflexivity. Qed.

Lemma branching_sorts : sorts_agree state.
Proof. apply sortsb_ok. by vm_compute. Qed.

(** [v0] is 3 and [v1] 7, or [v0] is 9. *)
Definition sum_inputs : list (string * sval) :=
  [("param_0_0", VBv 8 3); ("param_1_1", VBv 8 7); ("bb1_guard_5", VBool true); ("bb1_v10_6", VBv 8 3);
   ("bb3_guard_7", VBool true); ("bb3_v30_8", VBv 8 10)].
Definition cast_inputs : list (string * sval) :=
  [("param_0_0", VBv 8 9); ("bb2_guard_2", VBool true); ("bb2_v20_3", VBv 8 9); ("bb3_guard_7", VBool true)].

Lemma sum_wired : wired visited (choose sum_inputs).
Proof. apply wiredb_ok. vm_compute. reflexivity. Qed.
Lemma cast_wired : wired visited (choose cast_inputs).
Proof. apply wiredb_ok. vm_compute. reflexivity. Qed.

Lemma sum_ok : @admissible terms term_sem (choose sum_inputs).
Proof. apply choose_ok. vm_compute. reflexivity. Qed.
Lemma cast_ok : @admissible terms term_sem (choose cast_inputs).
Proof. apply choose_ok. vm_compute. reflexivity. Qed.

Lemma sum_walk : walk (choose sum_inputs) visited 0%N [0; 1; 3]%nat.
Proof. apply walkb_ok. vm_compute. reflexivity. Qed.
Lemma cast_walk : walk (choose cast_inputs) visited 0%N [0; 2; 3]%nat.
Proof. apply walkb_ok. vm_compute. reflexivity. Qed.

Definition violatedb (vc : Bmc.BmcVc) (rho : string -> sval) : bool :=
  forallb (holdsb rho) (Bmc.b_constraints vc) && existsb (fun x => holdsb rho (Bmc.condition x)) (Bmc.violations vc).

Lemma violatedb_ok vc rho : @admissible terms term_sem rho -> violatedb vc rho = true -> Bmc.violated vc rho.
Proof.
  intros A [C (x & Hx & Tx)%existsb_exists]%andb_true_iff. split; [done|]. split.
  - intros c Hc. rewrite forallb_forall in C. by apply list_elem_of_In, C, bool_decide_eq_true in Hc.
  - exists x. split; [by apply list_elem_of_In|]. by apply bool_decide_eq_true in Tx.
Qed.

Definition sortedb (ty : Ty.Ty (@Payload sample_ir)) : bool := match ty with Ty.Error => false | _ => true end.

Definition well_typedb (f : Function_ (@Payload sample_ir)) : bool :=
  forallb (fun b => forallb (fun p => sortedb p.2) (block_params b) &&
    forallb (fun node => forallb sortedb (inst_types (inst node))) (body b)) (blocks f).

Lemma well_typedb_ok f : func_types program = [] -> well_typedb f = true -> well_typed f program.
Proof.
  assert (Sb : forall ty, sortedb ty = true -> sorted ty) by (by intros [] B).
  intros Ft B. unfold well_typedb in B. rewrite forallb_forall in B. split.
  - intros b p Hb Hp. apply list_elem_of_In, B, andb_true_iff in Hb as [Hb _]. rewrite forallb_forall in Hb.
    by apply Sb, Hb, list_elem_of_In.
  - intros b node ty Hb Hn Hty. apply list_elem_of_In, B, andb_true_iff in Hb as [_ Hb]. rewrite forallb_forall in Hb.
    apply list_elem_of_In, Hb in Hn. rewrite forallb_forall in Hn. by apply Sb, Hn, list_elem_of_In.
  - intros ft ty Hf. rewrite Ft in Hf. by apply elem_of_nil in Hf.
Qed.

(** A fact about a member of a list that is computed *)
Lemma found {A B} (l : list A) k (f : A -> B) b : f <$> l !! k = Some b -> exists x, x ∈ l /\ f x = b.
Proof. intros (x & E & Hx)%fmap_Some. exists x. split; [by eapply list_elem_of_lookup_2|done]. Qed.

(** ** The properties *)

Lemma guards_are_path_witness :
  guards_on (choose sum_inputs) visited [0; 1; 3]%nat /\
  (forall q, walk (choose sum_inputs) visited 0%N q -> q = [0; 1; 3]%nat).
Proof.
  apply (guards_are_path branching program default_options order state (choose sum_inputs) [0; 1; 3]%nat);
    [exact branching_encoded|exact sum_ok|exact branching_sorts|exact sum_wired|exact sum_walk].
Defined.

Lemma execution_completes_witness :
  exists p, walk (choose cast_inputs) visited 0%N p /\ p `sublist_of` order /\ NoDup p /\
    (exists v, v ∈ visited /\ last p = Some (v_idx v) /\ ~ branches v).
Proof.
  apply (execution_completes branching program default_options order state (choose cast_inputs));
    [exact branching_encoded|exact cast_ok|exact branching_sorts|exact cast_wired].
Defined.

Lemma guards_always_exist_witness :
  exists rho', @admissible terms term_sem rho' /\ wired visited rho' /\
    forall n, input visited n -> rho' n = choose [("param_0_0", VBv 8 3)] n.
Proof.
  apply (guards_always_exist branching program default_options order state (choose [("param_0_0", VBv 8 3)]));
    [exact branching_encoded|apply choose_ok; vm_compute; reflexivity|exact branching_sorts].
Defined.

(** The edge from the sum to the join *)
Definition joins (rho : string -> sval) (u v : Visit) : bool :=
  (v_idx u =? 1)%nat && (v_idx v =? 3)%nat && (block_id (v_block v) =? 3)%N &&
  bool_decide (map fst (block_params (v_block v)) = [30%N]) &&
  match new_edges u 3, block_params (v_block v) with
  | e :: _, [_] => holdsb rho (e_guard e) && (length (e_args e) =? 1)%nat
  | _, _ => false
  end.

Lemma arguments_passed_witness :
  exists v arg, v ∈ visited /\ v_idx v = 3%nat /\
    ((exists param, values (v_entered v) !! 30%N = Some param /\
        seval (choose sum_inputs) param = seval (choose sum_inputs) arg) \/
     exists x, x ∈ t_violations state /\ seval (choose sum_inputs) (Bmc.condition x) = VBool true).
Proof.
  assert (J : (fun '(u, v) => joins (choose sum_inputs) u v) <$> zip visited (tail visited) !! 2%nat = Some true)
    by (vm_compute; reflexivity).
  apply found in J as ([u v] & Hin & J). pose proof (elem_of_zip_l _ _ _ _ Hin) as Hu.
  apply elem_of_zip_r in Hin. assert (Hv : v ∈ visited) by (by destruct visited; [|apply list_elem_of_further]).
  unfold joins in J. destruct (new_edges u 3) as [|e es] eqn:En; [by rewrite andb_false_r in J|].
  destruct (block_params (v_block v)) as [|[pid ty] [|]] eqn:Ep; try (by rewrite andb_false_r in J).
  apply andb_true_iff in J as [[[[_ Iv%Nat.eqb_eq]%andb_true_iff Bv%N.eqb_eq]%andb_true_iff Nd]%andb_true_iff J].
  apply bool_decide_eq_true in Nd. injection Nd as ->. apply andb_true_iff in J as [Te La%Nat.eqb_eq].
  apply bool_decide_eq_true in Te. destruct (e_args e) as [|arg [|]] eqn:Ea; try done. exists v, arg. split_and!; [done|done|].
  apply (arguments_passed branching program default_options order state (choose sum_inputs) u v e 0%nat 30%N ty arg).
  - exact branching_encoded.
  - exact sum_ok.
  - exact branching_sorts.
  - exact sum_wired.
  - exact Hu.
  - exact Hv.
  - rewrite Bv. done.
  - rewrite Bv, En. apply list_elem_of_here.
  - exact Te.
  - rewrite Ep. cbn. apply NoDup_singleton.
  - by rewrite Ep.
  - by rewrite Ea.
Defined.

Lemma violation_on_path_witness :
  exists p, walk (choose sum_inputs) visited 0%N p /\ guards_on (choose sum_inputs) visited p /\
    exists v x, v ∈ visited /\ v_idx v ∈ p /\ x ∈ Bmc.violations vc /\ reported v x /\
      seval (choose sum_inputs) (Bmc.condition x) = VBool true.
Proof.
  apply (violation_on_path branching program default_options order state vc (choose sum_inputs)).
  - exact branching_encoded.
  - apply default_of. vm_compute. reflexivity.
  - exact branching_sorts.
  - apply violatedb_ok; [exact sum_ok|vm_compute; reflexivity].
Defined.


Lemma linear_fails_closed_witness :
  exists x, x ∈ Bmc.violations (default Bmc.BmcVc_new (translate_function looping program default_options)) /\
    forall rho : string -> @val terms term_sem, is_true (eval rho (Bmc.condition x)).
Proof.
  apply (linear_fails_closed looping program default_options
    {| block_id := 0; block_params := []; body := [step (Inst.Br 0 []) []] |} (step (Inst.Br 0 []) [])
    (default Bmc.BmcVc_new (translate_function looping program default_options))).
  - vm_compute. reflexivity.
  - apply list_elem_of_here.
  - apply list_elem_of_here.
  - reflexivity.
  - apply default_of. vm_compute. reflexivity.
Defined.

(** [100 + 100] on [i8] *)
Definition overflowing : FuncTranslator :=
  bind_value 1 (TBv 8 100 : @Expr terms) (bind_value 0 (TBv 8 100 : @Expr terms) FuncTranslator_new).
Definition overflowed : option (unit * FuncTranslator) :=
  translate_integer_binop branching program default_options Op.Add Ty.I8 0 1 (step Inst.Fence [2%N]) overflowing.

Lemma default_run {A} (o : option (unit * A)) d : (if o then true else false) = true -> o = Some (tt, snd (default d o)).
Proof. by destruct o as [[[] ?]|]. Qed.

Lemma checked_binop_exact_witness :
  reports (choose []) true overflowing (snd (default (tt, overflowing) overflowed)).
Proof.
  apply (checked_binop_exact branching program default_options Op.Add Ty.I8 (choose []) 8 (TBv 8 100) (TBv 8 100)
    100 100 0 1 (step Inst.Fence [2%N]) overflowing tt (snd (default (tt, overflowing) overflowed)) true).
  - by split_and!.
  - split; [reflexivity|reflexivity|apply choose_ok; reflexivity| |]; (split_and!; [reflexivity|by split|reflexivity]).
  - reflexivity.
  - vm_compute. reflexivity.
  - vm_compute. reflexivity.
  - vm_compute. reflexivity.
  - apply default_run. vm_compute. reflexivity.
Defined.

(** The bounds 0 and 10, and the value 11 *)
Definition i8 : Ty.Ty (@Payload sample_ir) := Ty.I8.
Definition eleven : @Expr terms := TBv 8 11.
Definition ten : Z := 4621819117588971520.

Lemma bounded_output_exact_witness :
  match bounded_output_out_of_range i8 eleven 0 ten with
  | Some c => exists l h, bound_read 0 l /\ bound_read ten h /\
      fits (is_signed i8) 8 l = true /\ fits (is_signed i8) 8 h = true /\
      eval (choose []) c = vbool (negb ((l <=? number (is_signed i8) 8 11) && (number (is_signed i8) 8 11 <=? h))%Z)
  | None => forall l h, bound_read 0 l -> bound_read ten h ->
      fits (is_signed i8) 8 l = false \/ fits (is_signed i8) 8 h = false
  end.
Proof.
  assert (R : in_range 8 11) by (by split). assert (E : eval (choose []) eleven = bv 8 11) by reflexivity.
  assert (Pl : F64.pattern F64.double 0) by (by split). assert (Ph : F64.pattern F64.double ten) by (by split).
  pose proof (bounded_output_exact i8 (choose []) eleven 0 ten 8 11 eq_refl eq_refl R E Pl Ph) as B. exact B.
Defined.

(** The two exceptions: [2 ^ 127] is read as the greatest [i128], the negative zero not at
    all. *)
Lemma saturated_bound : exact_f64_to_i128 two_to_the_127 = Some F64.i128_max /\ exact_f64_to_i128 negative_zero = None.
Proof. split; [|by vm_compute]. apply exact_integer; [by split|]. by apply reads_saturated. Qed.

Lemma encoder_total_witness :
  exists vcs, trust_ir_to_bmc_vc program default_options = Some vcs /\ length vcs = 2%nat /\
    forall id func, function_by_id program id = Some func -> func ∈ functions program ->
      exists vc, trust_ir_function_to_bmc_vc program id default_options = Some (Some vc) /\ vc ∈ vcs.
Proof.
  apply (encoder_total program default_options).
  intros func Hf. apply well_typedb_ok; [reflexivity|].
  apply elem_of_cons in Hf as [->|Hf]; [reflexivity|]. apply elem_of_cons in Hf as [->|Hf]; [reflexivity|].
  by apply elem_of_nil in Hf.
Defined.

(** ** Assumptions

    [v0 < 5] is asserted, and assumed afterwards or not at all. *)
Definition asserting (after : list (InstrNode (@Payload sample_ir))) : Function_ (@Payload sample_ir) :=
  {| func_id := 2; func_name := "h"; func_ty := 0; entry := 0; proofs := [];
     blocks :=
       [{| block_id := 0; block_params := [(0%N, Ty.I8)];
           body := [step (Inst.Const Ty.I8 (Constant.Int 5)) [2%N]; step (Inst.ICmp Op.Slt Ty.I8 0 2) [3%N];
                    step (Inst.Assert 3) []] ++ after ++ [step (Inst.Return []) []] |}] |}.
Definition asserted (after : list (InstrNode (@Payload sample_ir))) : Bmc.BmcVc :=
  default Bmc.BmcVc_new (translate_function (asserting after) program default_options).

(** An assumption is a constraint of the whole condition: one that follows a failing
    assertion makes the failure unsatisfiable. *)
Lemma late_assumption_hides :
  Bmc.violated (asserted []) (choose [("param_0_0", VBv 8 9)]) /\
  forall rho, ~ Bmc.violated (asserted [step (Inst.Assume 3) []]) rho.
Proof.
  split; [apply violatedb_ok; [apply choose_ok; reflexivity|vm_compute; reflexivity]|].
  intros rho (_ & C & x & Hx & Tx).
  assert (E : exists c, Bmc.b_constraints (asserted [step (Inst.Assume 3) []]) = [c] /\
    map Bmc.condition (Bmc.violations (asserted [step (Inst.Assume 3) []])) = [mk_unary Not c])
    by (eexists; split; vm_compute; reflexivity).
  destruct E as (c & Ec & Ev). rewrite Ec in C. specialize (C c (list_elem_of_here _ _)).
  apply (list_elem_of_fmap_2 Bmc.condition) in Hx. change (?f <$> ?l) with (map f l) in Hx. rewrite Ev in Hx.
  apply list_elem_of_singleton in Hx. rewrite Hx in Tx. unfold is_true in *. cbn in *. by rewrite C in Tx.
Qed.

End BmcWitness.
