(* ===== verification/ChcCfg.v ===== *)
(** * The control-flow graph in the Horn clause encoder

    The queries of trust-mc-trust-bmc/src/translate_chc.rs on the blocks of a function:
    the operands an instruction reads, the successors of a terminator, and the
    reachability by which an error rule may be left out when only the obligations of one
    block are asked for. *)

From S2P Require Import Prelude StraightlineLoops TrustIr BmcOrder.

Module ChcCfg.
Import TrustIr BmcOrder.

Section Graph.
Context `{TrustIr}.

(** [collect_inst_value_uses]; [None] for an instruction whose reads are unknown *)
Definition collect_inst_value_uses (i : Inst.Inst Payload) : option (list ValueId) :=
  match i with
  | Inst.BinOp _ _ lhs rhs | Inst.Overflow _ _ lhs rhs | Inst.ICmp _ _ lhs rhs | Inst.FCmp _ lhs rhs => Some [lhs; rhs]
  | Inst.UnOp _ operand | Inst.Cast _ operand => Some [operand]
  | Inst.Load _ ptr _ _ | Inst.PtrData _ ptr | Inst.PtrMetadata _ _ ptr | Inst.AtomicLoad _ ptr | Inst.Borrow ptr
  | Inst.BorrowMut ptr | Inst.Retain ptr | Inst.Release ptr | Inst.IsUnique ptr | Inst.Dealloc ptr => Some [ptr]
  | Inst.EndBorrow borrow_ptr => Some [borrow_ptr]
  | Inst.Store _ ptr value _ _ | Inst.AtomicStore _ ptr value | Inst.AtomicRMW _ _ ptr value => Some [ptr; value]
  | Inst.Alloca _ count _ | Inst.HeapAlloc count => Some (option_list count)
  | Inst.GEP _ base indices => Some (base :: indices)
  | Inst.PtrFromParts _ data metadata => Some [data; metadata]
  | Inst.CmpXchg _ ptr expected desired => Some [ptr; expected; desired]
  | Inst.Br _ args => Some args
  | Inst.CondBr cond _ then_args _ else_args => Some (cond :: then_args ++ else_args)
  | Inst.Switch value _ default_args cases => Some (value :: default_args ++ concat (map case_args cases))
  | Inst.Call _ args => Some args
  | Inst.CallIndirect callee args => Some (callee :: args)
  | Inst.Return values => Some values
  | Inst.ExtractField _ aggregate => Some [aggregate]
  | Inst.InsertField _ aggregate value => Some [aggregate; value]
  | Inst.ExtractElement _ array index => Some [array; index]
  | Inst.InsertElement _ array index value => Some [array; index; value]
  | Inst.Assume cond | Inst.Assert cond => Some [cond]
  | Inst.Copy _ operand => Some [operand]
  | Inst.Select _ cond then_val else_val => Some [cond; then_val; else_val]
  | Inst.BindSlot frame value => Some [frame; value]
  | Inst.LoadSlot _ frame | Inst.CloseFrame frame => Some [frame]
  | Inst.SeqMapAddK _ seq | Inst.SeqMapNot _ seq | Inst.SeqMap _ seq => Some [seq]
  | Inst.DialectOp op => if is_thread_local_addr op then Some [] else None
  | Inst.Const _ _ | Inst.NullPtr | Inst.GlobalAddr | Inst.Undef _ | Inst.Unreachable | Inst.Fence
  | Inst.OpenFrame => Some []
  | Inst.CoroSuspend | Inst.Invoke _ _ | Inst.LandingPad | Inst.Resume => None
  end.

(** [collect_terminator_successors]; [None] for an instruction it does not know *)
Definition collect_terminator_successors (i : Inst.Inst Payload) : option (list BlockId) :=
  match i with
  | Inst.Br target _ => Some [target]
  | Inst.CondBr _ then_target _ else_target _ => Some [then_target; else_target]
  | Inst.Switch _ dflt _ cases => Some (dflt :: map case_target cases)
  | Inst.Return _ | Inst.Unreachable => Some []
  | _ => None
  end.

(** ** Reachability *)

Inductive CfgReachability := Reachable | ProvenUnreachable | Unknown.

#[export] Instance CfgReachability_eq_dec : EqDecision CfgReachability.
Proof. solve_decision. Defined.

(** The blocks by their identifiers; [None] for a duplicate *)
Fixpoint blocks_by_id (bs : list (Block Payload)) (acc : gmap BlockId (Block Payload)) :
    option (gmap BlockId (Block Payload)) :=
  match bs with
  | [] => Some acc
  | b :: bs => match acc !! block_id b with Some _ => None | None => blocks_by_id bs (<[block_id b := b]> acc) end
  end.

(** The successors of a block; [None] when it has not exactly one known terminator, at
    its end *)
Definition known_successors (b : Block Payload) : option (list BlockId) :=
  match split_last (body b) with
  | None => None
  | Some (terminator, prefix) =>
      if existsb (fun node => is_terminator (inst node)) prefix then None
      else
        match inst terminator with
        | Inst.Br target _ => Some [target]
        | Inst.CondBr _ then_target _ else_target _ => Some [then_target; else_target]
        | Inst.Switch _ dflt _ cases => Some (dflt :: map case_target cases)
        | Inst.Invoke normal_dest unwind_dest => Some [normal_dest; unwind_dest]
        | Inst.Return _ | Inst.CoroSuspend | Inst.Resume | Inst.Unreachable => Some []
        | _ => None
        end
  end.

(** The successors are pushed, unless one is the target ([None]). *)
Fixpoint push_successors (known : gmap BlockId (Block Payload)) (to : BlockId) (succs stack : list BlockId)
    (incomplete : bool) : option (list BlockId * bool) :=
  match succs with
  | [] => Some (stack, incomplete)
  | successor :: succs =>
      if (successor =? to)%N then None
      else
        match known !! successor with
        | Some _ => push_successors known to succs (successor :: stack) incomplete
        | None => push_successors known to succs stack true
        end
  end.

(** The search; the stack has its top first. *)
Fixpoint cfg_search (fuel : nat) (known : gmap BlockId (Block Payload)) (to : BlockId) (stack : list BlockId)
    (seen : gset BlockId) (incomplete : bool) : CfgReachability :=
  match fuel, stack with
  | _, [] => if incomplete then Unknown else ProvenUnreachable
  | O, _ => Unknown
  | S fuel, b :: stack =>
      if decide (b ∈ seen) then cfg_search fuel known to stack seen incomplete
      else
        let seen := {[b]} ∪ seen in
        match (block ← known !! b; known_successors block) with
        | None => cfg_search fuel known to stack seen true
        | Some succs =>
            match push_successors known to succs stack incomplete with
            | None => Reachable
            | Some (stack, incomplete) => cfg_search fuel known to stack seen incomplete
            end
        end
  end.

(** The edges of the graph *)
Definition successors_of (known : gmap BlockId (Block Payload)) : gmap BlockId (list BlockId) :=
  (fun b => default [] (known_successors b)) <$> known.
Definition cfg_fuel (known : gmap BlockId (Block Payload)) : nat :=
  S (sum_list (map (fun p => length (snd p)) (map_to_list (successors_of known)))).

(** [cfg_reaches] *)
Definition cfg_reaches (func : Function_ Payload) (from to : BlockId) : CfgReachability :=
  match blocks_by_id (blocks func) ∅ with
  | None => Unknown
  | Some known =>
      match known !! from, known !! to with
      | Some _, Some _ =>
          if (from =? to)%N then Reachable else cfg_search (S (cfg_fuel known)) known to [from] ∅ false
      | _, _ => Unknown
      end
  end.

(** [site_can_precede_target] *)
Definition site_can_precede_target (func : Function_ Payload) (site target : BlockId) : bool :=
  match cfg_reaches func (entry func) site, cfg_reaches func site target with
  | ProvenUnreachable, _ | _, ProvenUnreachable => false
  | _, _ => true
  end.

End Graph.

End ChcCfg.

(** * Reachability in the control-flow graph, exactly or unknown

    [cfg_reaches] against paths, and what it means for an error rule to be left out. *)

Module ChcCfgSpec.
Import TrustIr BmcOrder ChcCfg.

(** ** The instructions

    The operands and the successors that are collected are those of the
    representation. *)

Section Shape.
Context `{TrustIr}.

Lemma uses_reads i : match collect_inst_value_uses i with
  | Some uses => ~ opaque i /\ forall v, v ∈ uses <-> reads i v
  | None => opaque i
  end.
Proof.
  assert (Cs : forall v (cases : list SwitchCase), v ∈ concat (map case_args cases) <-> exists case, case ∈ cases /\ v ∈ case_args case).
  { intros v cases. rewrite list_elem_of_In, in_concat. setoid_rewrite in_map_iff. split.
    - intros (l & (c & <- & Hc) & Hv). exists c. split; by apply list_elem_of_In.
    - intros (c & Hc & Hv). exists (case_args c). split; [exists c; split; [done|]|]; by apply list_elem_of_In. }
  assert (Ol : forall (o : option ValueId) v, v ∈ option_list o <-> o = Some v).
  { intros [c|] v; [change (v ∈ [c] <-> Some c = Some v); rewrite list_elem_of_singleton; naive_solver|].
    change (v ∈ [] <-> None = Some v). by rewrite elem_of_nil. }
  destruct i; cbn [collect_inst_value_uses]; try (by constructor).
  all: try (destruct (is_thread_local_addr op) eqn:Tl; [|by constructor]).
  all: split; [intros O; inversion O; congruence|].
  all: intros v; cbn [reads]; rewrite ?elem_of_cons, ?elem_of_app, ?Cs, ?Ol, ?elem_of_nil; tauto.
Qed.

Lemma unread_spec i v : (exists uses, collect_inst_value_uses i = Some uses /\ v ∉ uses) <-> unread i v.
Proof.
  pose proof (uses_reads i) as U. unfold unread. destruct (collect_inst_value_uses i) as [uses|]; [|naive_solver].
  destruct U as [No R]. rewrite <- R. naive_solver.
Qed.

Lemma unread_known i v uses : collect_inst_value_uses i = Some uses -> v ∉ uses -> unread i v.
Proof. intros E N. apply unread_spec. by exists uses. Qed.

Lemma targets_unique i ts ts' : targets i ts -> targets i ts' -> ts = ts'.
Proof. by inversion 1; inversion 1. Qed.

Lemma successors_targets i ts : collect_terminator_successors i = Some ts <-> branches_to i ts.
Proof.
  unfold branches_to. split.
  - destruct i; try done; intros [= <-]; (split; [constructor|by inversion 1]).
  - intros [T No]. inversion T; subst; try done; destruct No; constructor.
Qed.

End Shape.

(** ** The blocks by their identifiers *)

Section Blocks.
Context `{TrustIr}.

Lemma blocks_by_id_spec bs : forall acc known, blocks_by_id bs acc = Some known ->
  (forall b, b ∈ bs -> acc !! block_id b = None) /\ NoDup (map block_id bs) /\
  forall i b, known !! i = Some b <-> acc !! i = Some b \/ (b ∈ bs /\ block_id b = i).
Proof.
  induction bs as [|b bs IH]; intros acc known E; cbn in E.
  - injection E as ->. split; [intros b Hb; by apply elem_of_nil in Hb|]. split; [apply NoDup_nil_2|].
    intros i b. split; [by left|]. by intros [|[Hb%elem_of_nil _]].
  - destruct (acc !! block_id b) as [|] eqn:Ea; [done|]. apply IH in E as (Fr & Nd & L). split_and!.
    + intros c [->|Hc]%elem_of_cons; [done|]. specialize (Fr c Hc).
      apply lookup_insert_None in Fr. apply Fr.
    + cbn. apply NoDup_cons. split; [|done]. intros (c & Ec & Hc)%list_elem_of_fmap.
      specialize (Fr c Hc). apply lookup_insert_None in Fr as [_ Fr]. congruence.
    + intros i c. rewrite L, elem_of_cons. destruct (decide (i = block_id b)) as [->|Ne].
      * rewrite lookup_insert_eq, Ea. split.
        -- intros [[= ->]|[Hc Ec]]; [by right; split; [left|]|]. right. by split; [right|].
        -- intros [|[[->|Hc] Ec]]; [done|by left|by right].
      * rewrite lookup_insert_ne by done. split; [intros [|[Hc Ec]]; auto|].
        intros [|[[->|Hc] Ec]]; [by left|congruence|by right].
Qed.

Lemma blocks_by_id_total bs : forall acc, (forall b, b ∈ bs -> acc !! block_id b = None) ->
  NoDup (map block_id bs) -> is_Some (blocks_by_id bs acc).
Proof.
  induction bs as [|b bs IH]; intros acc F N; cbn; [by eexists|].
  rewrite (F b) by left. cbn in N. apply NoDup_cons in N as [Nb N]. apply IH; [|done].
  intros c Hc. rewrite lookup_insert_ne; [apply F; by right|].
  intros E. apply Nb. rewrite E. apply list_elem_of_fmap. by exists c.
Qed.

End Blocks.

(** ** Paths *)

Section Search.
Context `{TrustIr} (known : gmap BlockId (Block Payload)) (to : BlockId).

(** The edge the graph states *)
Definition edge (n m : BlockId) : Prop :=
  exists b ts, known !! n = Some b /\ known_successors b = Some ts /\ m ∈ ts.

(** Where control may go: anywhere from a block that is missing or not understood *)
Definition may (n m : BlockId) : Prop :=
  match (b ← known !! n; known_successors b) with Some ts => m ∈ ts | None => True end.

Lemma edge_may n m : edge n m -> may n m.
Proof. intros (b & ts & L & K & Hm). unfold may. rewrite L. cbn. by rewrite K. Qed.

Lemma edges_may n m : rtc edge n m -> rtc may n m.
Proof. induction 1 as [|x y z E _ IH]; [done|]. eapply rtc_l; [by apply edge_may|done]. Qed.

(** A node from which anything is possible *)
Definition open_end (n : BlockId) : Prop := (b ← known !! n; known_successors b) = None.

Lemma open_may n m : open_end n -> may n m.
Proof. unfold open_end, may. by intros ->. Qed.

Lemma push_successors_spec succs : forall stack incomplete,
  match push_successors known to succs stack incomplete with
  | None => to ∈ succs
  | Some (stack', incomplete') =>
      to ∉ succs /\ (length stack' <= length succs + length stack)%nat /\
      (forall n, n ∈ stack' <-> n ∈ stack \/ (n ∈ succs /\ is_Some (known !! n))) /\
      (incomplete' = true <-> incomplete = true \/ exists n, n ∈ succs /\ known !! n = None)
  end.
Proof.
  induction succs as [|s succs IH]; intros stack incomplete; cbn [push_successors].
  { split; [by intros Hx%elem_of_nil|]. split; [done|]. split.
    - intros n. split; [by left|]. by intros [|[Hn%elem_of_nil _]].
    - split; [by left|]. by intros [|(n & Hn%elem_of_nil & _)]. }
  destruct (N.eqb_spec s to) as [->|Ne]; [left|].
  destruct (known !! s) as [b|] eqn:K.
  - specialize (IH (s :: stack) incomplete).
    destruct (push_successors known to succs (s :: stack) incomplete) as [[st inc]|]; [|by right].
    destruct IH as (Nt & L & M & I). split; [by intros [|]%elem_of_cons|]. cbn [length] in *. split; [lia|]. split.
    + intros n. rewrite M, !elem_of_cons. split; [intros [[->|]|[]]; eauto|]. intros [|[[->|] []]]; eauto.
    + rewrite I. setoid_rewrite elem_of_cons. split; [intros [|(n & Hn & N)]; eauto|].
      intros [|(n & [->|Hn] & N)]; [by left|congruence|eauto].
  - specialize (IH stack true).
    destruct (push_successors known to succs stack true) as [[st inc]|]; [|by right].
    destruct IH as (Nt & L & M & I). split; [by intros [|]%elem_of_cons|]. cbn [length] in *. split; [lia|]. split.
    + intros n. rewrite M, elem_of_cons. split; [intros [|[]]; eauto|]. intros [|[[->|] Hn]]; eauto.
      by destruct Hn as [? ?]; congruence.
    + rewrite I. setoid_rewrite elem_of_cons. split; [intros _; eauto|]. intros _. by left.
Qed.

(** What the search knows: everything it saw is reached, what it saw goes on to what it
    saw or has yet to see, and an end it could not follow is noted. *)
Record searched (from : BlockId) (stack : list BlockId) (seen : gset BlockId) (incomplete : bool) : Prop := {
  sd_reached : forall n, n ∈ stack \/ n ∈ seen -> rtc edge from n /\ n <> to /\ is_Some (known !! n);
  sd_closed : forall n m, n ∈ seen -> edge n m -> m <> to /\ (is_Some (known !! m) -> m ∈ seen \/ m ∈ stack);
  sd_open : incomplete = true -> exists n, rtc edge from n /\ open_end n;
  sd_noted : forall n, n ∈ seen -> open_end n \/ (exists m, edge n m /\ known !! m = None) -> incomplete = true;
  sd_from : from ∈ seen \/ from ∈ stack;
}.

Definition answer_ok (from : BlockId) (r : CfgReachability) : Prop :=
  match r with
  | Reachable => rtc edge from to
  | ProvenUnreachable => ~ rtc may from to
  | Unknown => rtc may from to /\ ~ rtc edge from to
  end.

Lemma search_done from seen incomplete : is_Some (known !! to) -> searched from [] seen incomplete ->
  answer_ok from (if incomplete then Unknown else ProvenUnreachable).
Proof.
  intros Kt S. assert (Fs : from ∈ seen) by (destruct (sd_from _ _ _ _ S) as [|Hx]; [done|by apply elem_of_nil in Hx]).
  destruct incomplete; cbn.
  - split.
    + destruct (sd_open _ _ _ _ S eq_refl) as (n & R & O). eapply rtc_r; [by apply edges_may|]. by apply open_may.
    + intros R. assert (C : to ∈ seen \/ known !! to = None).
      { eapply (StraightlineLoops.closed_rtc edge (fun n => n ∈ seen \/ known !! n = None)); [|by left|exact R].
        intros a b [Ha|Ha] E; [|by destruct E as (? & ? & E & _); congruence].
        destruct (sd_closed _ _ _ _ S a b Ha E) as [_ C]. destruct (known !! b) eqn:Kb; [|by right].
        destruct (C ltac:(by eexists)) as [|Hx]; [by left|by apply elem_of_nil in Hx]. }
      destruct C as [C|C]; [|by destruct Kt; congruence].
      by destruct (sd_reached _ _ _ _ S to (or_intror C)) as (_ & ? & _).
  - intros R. assert (C : to ∈ seen).
    { eapply (StraightlineLoops.closed_rtc may (fun n => n ∈ seen)); [|exact Fs|exact R]. intros a b Ha M. unfold may in M.
      destruct (b ← known !! a; known_successors b) as [ts|] eqn:K.
      - apply bind_Some in K as (blk & La & Ks).
        assert (E : edge a b) by (exists blk, ts; auto).
        destruct (sd_closed _ _ _ _ S a b Ha E) as [_ C]. destruct (known !! b) eqn:Kb.
        + destruct (C ltac:(by eexists)) as [|Hx]; [done|by apply elem_of_nil in Hx].
        + by discriminate (sd_noted _ _ _ _ S a Ha (or_intror (ex_intro _ b (conj E Kb)))).
      - by discriminate (sd_noted _ _ _ _ S a Ha (or_introl K)). }
    by destruct (sd_reached _ _ _ _ S to (or_intror C)) as (_ & ? & _).
Qed.

Notation unseen := (StraightlineLoops.unseen (successors_of known)).

Lemma succ_known n b ts : known !! n = Some b -> known_successors b = Some ts ->
  StraightlineLoops.succ (successors_of known) n = ts.
Proof. intros L K. unfold StraightlineLoops.succ, successors_of. rewrite lookup_fmap, L. cbn. by rewrite K. Qed.

Lemma searched_again from n stack seen incomplete : searched from (n :: stack) seen incomplete -> n ∈ seen ->
  searched from stack seen incomplete.
Proof.
  intros [R C O N F] Hn. split.
  - intros m [Hm|Hm]; apply R; [left; by right|by right].
  - intros a m Ha E. destruct (C a m Ha E) as [Ne K]. split; [done|].
    intros Km. by destruct (K Km) as [|[->|]%elem_of_cons]; [left|left|right].
  - exact O.
  - exact N.
  - by destruct F as [|[->|]%elem_of_cons]; [left|left|right].
Qed.

Lemma searched_open from n stack seen incomplete : searched from (n :: stack) seen incomplete -> open_end n ->
  searched from stack ({[n]} ∪ seen) true.
Proof.
  intros [R C O N F] On. split.
  - intros m [Hm|[->%elem_of_singleton|Hm]%elem_of_union]; apply R; [left; by right|left; left|by right].
  - intros a m [->%elem_of_singleton|Ha]%elem_of_union E.
    + destruct E as (b & ts & L & K & _). unfold open_end in On. rewrite L in On. cbn in On. congruence.
    + destruct (C a m Ha E) as [Ne K]. split; [done|]. intros Km.
      destruct (K Km) as [|[->|]%elem_of_cons]; [set_solver|set_solver|by right].
  - intros _. exists n. split; [|done]. apply R. left. left.
  - done.
  - destruct F as [|[->|]%elem_of_cons]; [set_solver|set_solver|by right].
Qed.

Lemma searched_step from n b ts stack seen incomplete stack' incomplete' :
  searched from (n :: stack) seen incomplete -> known !! n = Some b -> known_successors b = Some ts ->
  push_successors known to ts stack incomplete = Some (stack', incomplete') ->
  searched from stack' ({[n]} ∪ seen) incomplete'.
Proof.
  intros [R C O N F] L K P. pose proof (push_successors_spec ts stack incomplete) as Q. rewrite P in Q.
  destruct Q as (Nt & _ & M & I).
  assert (E : forall m, edge n m <-> m ∈ ts).
  { intros m. split; [|by exists b, ts]. intros (b' & ts' & L' & K' & Hm). congruence. }
  assert (Rn : rtc edge from n) by (apply R; left; left).
  split.
  - intros m [Hm|[->%elem_of_singleton|Hm]%elem_of_union]; [|apply R; left; left|by apply R; right].
    apply M in Hm as [Hm|[Hm Km]]; [apply R; left; by right|]. split; [eapply rtc_r; [done|by apply E]|].
    split; [by intros ->|done].
  - intros a m [->%elem_of_singleton|Ha]%elem_of_union Ea.
    + apply E in Ea. split; [by intros ->|]. intros Km. right. apply M. by right.
    + destruct (C a m Ha Ea) as [Ne Q]. split; [done|]. intros Km.
      destruct (Q Km) as [|[->|Hm]%elem_of_cons]; [set_solver|set_solver|right; apply M; by left].
  - intros T. apply I in T as [T|(m & Hm & Km)]; [by apply O|]. exists m. split; [eapply rtc_r; [done|by apply E]|].
    unfold open_end. by rewrite Km.
  - intros a [->%elem_of_singleton|Ha]%elem_of_union [Oa|(m & Ea & Km)]; apply I.
    + unfold open_end in Oa. rewrite L in Oa. cbn in Oa. congruence.
    + right. exists m. split; [by apply E|done].
    + left. apply (N a Ha). by left.
    + left. apply (N a Ha). right. by exists m.
  - destruct F as [|[->|Hf]%elem_of_cons]; [set_solver|set_solver|right; apply M; by left].
Qed.

Lemma cfg_search_spec from fuel : forall stack seen incomplete, is_Some (known !! to) ->
  (length stack + unseen seen < fuel)%nat -> searched from stack seen incomplete ->
  answer_ok from (cfg_search fuel known to stack seen incomplete).
Proof.
  induction fuel as [|fuel IH]; intros stack seen incomplete Kt L S; [lia|]. cbn [cfg_search].
  destruct stack as [|n stack]; [by apply search_done with seen|]. cbn [length] in L.
  destruct (decide (n ∈ seen)) as [Hs|Hs]; [apply IH; [done|lia|by eapply searched_again]|].
  destruct (sd_reached _ _ _ _ S n ltac:(left; left)) as (Rn & Nn & [b Lb]). pose proof (StraightlineLoops.unseen_add (successors_of known) n seen Hs) as U.
  rewrite Lb. cbn [mbind option_bind]. destruct (known_successors b) as [ts|] eqn:K.
  - rewrite (succ_known n b ts Lb K) in U. pose proof (push_successors_spec ts stack incomplete) as Q.
    destruct (push_successors known to ts stack incomplete) as [[stack' incomplete']|] eqn:P.
    + apply IH; [done|destruct Q as (_ & Q & _); lia|by eapply searched_step].
    + eapply rtc_r; [exact Rn|by exists b, ts].
  - apply IH; [done|lia|]. apply searched_open with incomplete; [done|]. unfold open_end. by rewrite Lb.
Qed.

End Search.

(** ** The query *)

Section Query.
Context `{TrustIr} (func : Function_ Payload).

(** The block of an identifier *)
Definition graph : gmap BlockId (Block Payload) := default ∅ (blocks_by_id (blocks func) ∅).

(** The identifiers are different, and these two are there. *)
Definition located (from to : BlockId) : Prop :=
  NoDup (map block_id (blocks func)) /\ from ∈ map block_id (blocks func) /\ to ∈ map block_id (blocks func).

Lemma graph_spec i b : NoDup (map block_id (blocks func)) -> graph !! i = Some b <-> b ∈ blocks func /\ block_id b = i.
Proof.
  intros Nd. destruct (blocks_by_id_total (blocks func) ∅) as [known K]; [intros c _; apply lookup_empty|done|].
  unfold graph. rewrite K. cbn. destruct (blocks_by_id_spec _ _ _ K) as (_ & _ & L). rewrite L, lookup_empty.
  split; [by intros [|]|by right].
Qed.

Lemma graph_has i : NoDup (map block_id (blocks func)) -> is_Some (graph !! i) <-> i ∈ map block_id (blocks func).
Proof.
  intros Nd. rewrite list_elem_of_fmap. split.
  - intros [b [Hb <-]%(graph_spec _ _ Nd)]. by exists b.
  - intros (b & -> & Hb). exists b. by apply graph_spec.
Qed.

Lemma cfg_reaches_spec from to :
  cfg_reaches func from to = Unknown /\ ~ located from to \/
  located from to /\ answer_ok graph to from (cfg_reaches func from to).
Proof.
  unfold cfg_reaches. destruct (blocks_by_id (blocks func) ∅) as [known|] eqn:K.
  2: { left. split; [done|]. intros (Nd & _). destruct (blocks_by_id_total (blocks func) ∅) as [known K']; [intros c _; apply lookup_empty|done|congruence]. }
  destruct (blocks_by_id_spec _ _ _ K) as (_ & Nd & _).
  assert (G : graph = known) by (unfold graph; by rewrite K). pose proof (graph_has from Nd) as Hf. pose proof (graph_has to Nd) as Ht.
  rewrite G in *. destruct (known !! from) as [bf|] eqn:Lf.
  2: { left. split; [done|]. intros (_ & F & _). apply Hf in F. by destruct F. }
  destruct (known !! to) as [bt|] eqn:Lt.
  2: { left. split; [done|]. intros (_ & _ & T). apply Ht in T. by destruct T. }
  right. split; [split_and!; [done|by apply Hf; eexists|by apply Ht; eexists]|].
  destruct (N.eqb_spec from to) as [->|Ne]; [apply rtc_refl|].
  apply cfg_search_spec; [by eexists|unfold cfg_fuel; rewrite <- StraightlineLoops.unseen_all; cbn [length]; lia|]. split.
  - intros n [->%list_elem_of_singleton|Hn]; [by split_and!; [apply rtc_refl|done|eexists]|set_solver].
  - intros n m Hn. set_solver.
  - done.
  - intros n Hn. set_solver.
  - right. left.
Qed.


(** A block that ends with the one terminator it has *)
Definition ends_with (b : Block Payload) (ts : list BlockId) : Prop :=
  exists prefix node, body b = prefix ++ [node] /\ (forall x, x ∈ prefix -> is_terminator (inst x) = false) /\
    targets (inst node) ts.

Lemma ends_with_known b ts : ends_with b ts <-> known_successors b = Some ts.
Proof.
  unfold known_successors. split.
  - intros (prefix & node & -> & N & T). assert (split_last (prefix ++ [node]) = Some (node, prefix)) as -> by (by apply BmcOrderSpec.split_last_spec).
    assert (existsb (fun node => is_terminator (inst node)) prefix = false) as ->.
    { apply not_true_iff_false. intros (x & Hx%list_elem_of_In & E)%existsb_exists. by rewrite N in E. }
    by inversion T.
  - destruct (split_last (body b)) as [[node prefix]|] eqn:S; [|done]. apply BmcOrderSpec.split_last_spec in S.
    destruct (existsb _ prefix) eqn:E; [done|]. intros K. exists prefix, node. split_and!; [done| |].
    + intros x Hx%list_elem_of_In. apply not_true_iff_false. intros T.
      assert (X : existsb (fun node => is_terminator (inst node)) prefix = true) by (apply existsb_exists; by exists x). congruence.
    + destruct (inst node); try discriminate K; injection K as <-; constructor.
Qed.

(** Control leads from one block to the other; it might, for all that is understood. *)
Definition leads (n m : BlockId) : Prop := exists b ts, graph !! n = Some b /\ ends_with b ts /\ m ∈ ts.
Definition might (n m : BlockId) : Prop := forall b ts, graph !! n = Some b -> ends_with b ts -> m ∈ ts.

Lemma leads_edge n m : leads n m <-> edge graph n m.
Proof. unfold leads, edge. by setoid_rewrite ends_with_known. Qed.

Lemma might_may n m : might n m <-> may graph n m.
Proof.
  unfold might, may. setoid_rewrite ends_with_known. destruct (graph !! n) as [b|]; cbn; [|by split].
  destruct (known_successors b) as [ts|] eqn:K; split; try done.
  - intros Q. by apply (Q b ts).
  - intros Hm ? ? [= <-] E. congruence.
  - intros _ ? ? [= <-] E. congruence.
Qed.

Lemma rtc_iff {A} (R S : relation A) : (forall x y, R x y <-> S x y) -> forall x y, rtc R x y <-> rtc S x y.
Proof. intros E x y. split; induction 1 as [|? ? ? ?%E]; [done|by eapply rtc_l|done|by eapply rtc_l]. Qed.

(** C28: reachability is exact or unknown.  The answer is "reachable" exactly when the
    blocks lead from one to the other, "proven unreachable" exactly when control cannot
    get there even if it may go anywhere from a block that is missing or not understood;
    and an instruction whose rule is left out for the obligations of a block is on no way
    from the entry to this block. *)
Theorem narrowing_sound from to :
  (cfg_reaches func from to = Reachable <-> located from to /\ rtc leads from to) /\
  (cfg_reaches func from to = ProvenUnreachable <-> located from to /\ ~ rtc might from to) /\
  (site_can_precede_target func from to = false ->
    ~ (rtc might (entry func) from /\ rtc might from to)).
Proof.
  rewrite !(rtc_iff _ _ leads_edge), !(rtc_iff _ _ might_may).
  assert (P : forall a b, cfg_reaches func a b = ProvenUnreachable -> ~ rtc (may graph) a b).
  { intros a b E. destruct (cfg_reaches_spec a b) as [[U _]|[_ A]]; [congruence|]. by rewrite E in A. }
  split_and!.
  - destruct (cfg_reaches_spec from to) as [[U N]|[L A]]; [rewrite U; naive_solver|].
    destruct (cfg_reaches func from to); cbn in A; split; try done; try (by intros [_ R]); intros [_ R];
      [by destruct A; apply edges_may|by destruct A as [_ []]].
  - destruct (cfg_reaches_spec from to) as [[U N]|[L A]]; [rewrite U; naive_solver|].
    destruct (cfg_reaches func from to); cbn in A; split; try done; intros [_ R];
      [by destruct R; apply edges_may|by destruct R; apply A].
  - unfold site_can_precede_target. intros E [R1 R2].
    destruct (cfg_reaches func (entry func) from) eqn:E1, (cfg_reaches func from to) eqn:E2; try done;
      first [by apply (P _ _ E1)|by apply (P _ _ E2)].
Qed.

End Query.

End ChcCfgSpec.
