(* ===== verification/CellInit.v ===== *)
(** * Definite initialisation of stack cells

    [promoted_cell_is_definitely_initialized] of
    trust-mc-trust-bmc/src/translate_chc.rs: a forward analysis of the blocks of a
    function that decides whether every load of a cell comes after a store to it. *)

From S2P Require Import Prelude TrustIr BmcOrder ChcCfg.

Module CellInit.
Import TrustIr BmcOrder ChcCfg.

Section Analysis.
Context `{TrustIr}.

(** ** The graph *)

(** The first terminator of a block *)
Definition first_terminator (nodes : list (InstrNode Payload)) : option (InstrNode Payload) :=
  List.find (fun node => is_terminator (inst node)) nodes.

(** The successors of a block, as indices *)
Definition resolved_successors (index_of : gmap BlockId nat) (b : Block Payload) : option (list nat) :=
  node ← first_terminator (body b);
  targets ← collect_terminator_successors (inst node);
  mapM (fun target => index_of !! target) targets.

(** The index of the entry, and the successors of every block *)
Definition cell_graph (func : Function_ Payload) : option (nat * list (list nat)) :=
  index_of ← index_blocks 0 (blocks func) ∅;
  entry ← index_of !! entry func;
  successors ← mapM (resolved_successors index_of) (blocks func);
  Some (entry, successors).

(** The blocks an index is a successor of *)
Definition predecessors (successors : list (list nat)) (target : nat) : list nat :=
  concat (imap (fun from targets => map (fun _ => from) (filter (fun t => t = target) targets)) successors).

(** The blocks reachable from the entry; the stack has its top first. *)
Definition visit_next (st : list bool * list nat) (next : nat) : list bool * list nat :=
  let '(reachable, stack) := st in
  match reachable !! next with
  | Some false => (<[next := true]> reachable, next :: stack)
  | _ => (reachable, stack)
  end.
Fixpoint mark_reachable (fuel : nat) (successors : list (list nat)) (reachable : list bool) (stack : list nat) : list bool :=
  match fuel, stack with
  | S fuel, block :: stack =>
      let '(reachable, stack) := foldl visit_next (reachable, stack) (default [] (successors !! block)) in
      mark_reachable fuel successors reachable stack
  | _, _ => reachable
  end.

(** ** The analysis *)

(** [promoted_cell_block_transfer] *)
Fixpoint promoted_cell_block_transfer (nodes : list (InstrNode Payload)) (cell : ValueId) (state : bool) : bool * bool :=
  match nodes with
  | [] => (state, true)
  | node :: nodes =>
      let next :=
        match inst node with
        | Inst.Alloca _ _ _ => Some (if existsb (N.eqb cell) (results node) then false else state)
        | Inst.Store _ ptr _ _ _ => Some (if (ptr =? cell)%N then true else state)
        | Inst.Load _ ptr _ _ => if (ptr =? cell)%N && negb state then None else Some state
        | _ => Some state
        end in
      match next with
      | None => (state, false)
      | Some state =>
          if is_terminator (inst node) then (state, true)
          else promoted_cell_block_transfer nodes cell state
      end
  end.

(** One round: the states at the ends of the blocks, then at their beginnings *)
Definition flow_round (func : Function_ Payload) (cell : ValueId) (entry : nat) (successors : list (list nat))
    (incoming : list bool) : list bool * list bool :=
  let outgoing := zip_with (fun b state => fst (promoted_cell_block_transfer (body b) cell state)) (blocks func) incoming in
  let incoming :=
    imap (fun block state =>
      if (block =? entry)%nat then state
      else
        match predecessors successors block with
        | [] => state
        | preds => forallb (fun pred => default true (outgoing !! pred)) preds
        end) incoming in
  (incoming, outgoing).

(** The rounds, until one changes nothing; [None] when there are not enough *)
Fixpoint settle (rounds : nat) (func : Function_ Payload) (cell : ValueId) (entry : nat) (successors : list (list nat))
    (incoming outgoing : list bool) : option (list bool) :=
  match rounds with
  | O => None
  | S rounds =>
      let '(incoming', outgoing') := flow_round func cell entry successors incoming in
      if bool_decide (incoming' = incoming /\ outgoing' = outgoing) then Some incoming
      else settle rounds func cell entry successors incoming' outgoing'
  end.

(** The states before the first round *)
Definition optimistic (count entry : nat) (successors : list (list nat)) : list bool :=
  let reachable := mark_reachable count successors (<[entry := true]> (replicate count false)) [entry] in
  imap (fun block mark => if (block =? entry)%nat then false else mark) reachable.

(** [promoted_cell_is_definitely_initialized] *)
Definition promoted_cell_is_definitely_initialized (func : Function_ Payload) (cell : ValueId) : bool :=
  let count := length (blocks func) in
  if (count =? 0)%nat then false
  else
    match cell_graph func with
    | None => false
    | Some (entry, successors) =>
        match settle (2 * count + 1) func cell entry successors (optimistic count entry successors) (replicate count true) with
        | None => false
        | Some incoming =>
            forallb (fun p => snd (promoted_cell_block_transfer (body p.1) cell p.2)) (zip (blocks func) incoming)
        end
    end.

End Analysis.

End CellInit.

(** * What definite initialisation means

    The analysis of [CellInit] against the runs of a function: which stores a load can
    see, the states before and after a block, and the descent of the rounds. *)

Module CellInitSpec.
Import TrustIr BmcOrder BmcOrderSpec ChcCfg CellInit.

(** ** Instructions *)

Section Trace.
Context `{TrustIr} (cell : ValueId).
Notation Node := (InstrNode Payload).

Definition stores (node : Node) : Prop :=
  match inst node with Inst.Store _ ptr _ _ _ => ptr = cell | _ => False end.
Definition loads (node : Node) : Prop :=
  match inst node with Inst.Load _ ptr _ _ => ptr = cell | _ => False end.
(** A new cell, not yet written *)
Definition allocates (node : Node) : Prop :=
  match inst node with Inst.Alloca _ _ _ => cell ∈ results node | _ => False end.

#[export] Instance stores_dec node : Decision (stores node).
Proof. unfold stores. destruct (inst node); apply _. Defined.
#[export] Instance loads_dec node : Decision (loads node).
Proof. unfold loads. destruct (inst node); apply _. Defined.
#[export] Instance allocates_dec node : Decision (allocates node).
Proof. unfold allocates. destruct (inst node); apply _. Defined.

(** What is executed at position [k] was preceded by a store to the present cell. *)
Definition written (tr : list Node) (k : nat) : Prop :=
  exists i s, i < k /\ tr !! i = Some s /\ stores s /\
    forall j n, i < j < k -> tr !! j = Some n -> ~ allocates n.
Definition safe (tr : list Node) : Prop := forall k n, tr !! k = Some n -> loads n -> written tr k.

(** The state of the cell after an instruction *)
Definition after_node (node : Node) (state : bool) : bool :=
  if decide (stores node) then true else if decide (allocates node) then false else state.
Definition after (tr : list Node) (state : bool) : bool := foldl (fun st node => after_node node st) state tr.
Fixpoint checked (tr : list Node) (state : bool) : bool :=
  match tr with
  | [] => true
  | node :: tr => (if decide (loads node) then state else true) && checked tr (after_node node state)
  end.

Lemma after_app tr tr' state : after (tr ++ tr') state = after tr' (after tr state).
Proof. apply foldl_app. Qed.

Lemma checked_app tr : forall tr' state, checked (tr ++ tr') state = checked tr state && checked tr' (after tr state).
Proof. induction tr as [|node tr IH]; intros tr' state; [done|]. cbn. by rewrite IH, andb_assoc. Qed.

Lemma after_node_mono node st st' : (st = true -> st' = true) -> after_node node st = true -> after_node node st' = true.
Proof. unfold after_node. destruct (decide (stores node)); [done|]. destruct (decide (allocates node)); auto. Qed.

Lemma after_mono tr : forall st st', (st = true -> st' = true) -> after tr st = true -> after tr st' = true.
Proof. induction tr as [|node tr IH]; intros st st' L; [exact L|]. apply IH, after_node_mono, L. Qed.

Lemma checked_mono tr : forall st st', (st = true -> st' = true) -> checked tr st = true -> checked tr st' = true.
Proof.
  induction tr as [|node tr IH]; intros st st' L; [done|]. cbn. rewrite !andb_true_iff. intros [Ld C]. split.
  - destruct (decide (loads node)); auto.
  - by apply (IH _ _ (after_node_mono node st st' L)).
Qed.

(** From a state: a load is of a cell written here, or written before and not replaced. *)
Lemma checked_spec tr : forall state, checked tr state = true <->
  forall k n, tr !! k = Some n -> loads n ->
    written tr k \/ (state = true /\ forall j m, j < k -> tr !! j = Some m -> ~ allocates m).
Proof.
  induction tr as [|node tr IH]; intros state; [by split|]. cbn [checked]. rewrite andb_true_iff, IH. split.
  - intros [Ld C] [|k] n Hk Ln.
    + injection Hk as ->. rewrite decide_True in Ld by done. right. split; [done|]. intros j m ?. lia.
    + destruct (C k n Hk Ln) as [(i & s & Hi & Ls & Ss & Na)|[St Na]].
      * left. exists (S i), s. split_and!; [lia|done|done|]. intros [|j] m Hj Hm; [lia|]. apply (Na j); [lia|done].
      * unfold after_node in St. destruct (decide (stores node)) as [Sn|].
        -- left. exists 0, node. split_and!; [lia|done|done|]. intros [|j] m Hj Hm; [lia|]. apply (Na j); [lia|done].
        -- destruct (decide (allocates node)) as [|An]; [done|]. right. split; [done|].
           intros [|j] m Hj Hm; [by injection Hm as <-|]. apply (Na j); [lia|done].
  - intros C. split.
    + destruct (decide (loads node)) as [Ln|]; [|done]. destruct (C 0 node eq_refl Ln) as [(i & _ & Hi & _)|[St _]]; [lia|done].
    + intros k n Hk Ln. destruct (C (S k) n Hk Ln) as [([|i] & s & Hi & Ls & Ss & Na)|[St Na]].
      * right. injection Ls as ->. unfold after_node. rewrite decide_True by done. split; [done|].
        intros j m Hj Hm. apply (Na (S j)); [lia|done].
      * left. exists i, s. split_and!; [lia|done|done|]. intros j m Hj Hm. apply (Na (S j)); [lia|done].
      * right. unfold after_node. destruct (decide (stores node)).
        -- split; [done|]. intros j m Hj Hm. apply (Na (S j)); [lia|done].
        -- rewrite decide_False by (apply (Na 0); [lia|done]). split; [done|].
           intros j m Hj Hm. apply (Na (S j)); [lia|done].
Qed.

Lemma checked_safe tr : checked tr false = true <-> safe tr.
Proof.
  rewrite checked_spec. split; [|intros S k n Hk Ln; left; by apply (S k n)].
  intros C k n Hk Ln. by destruct (C k n Hk Ln) as [|[? _]].
Qed.

(** What a block executes: up to its first terminator *)
Fixpoint executed (nodes : list Node) : list Node :=
  match nodes with
  | [] => []
  | node :: nodes => if is_terminator (inst node) then [node] else node :: executed nodes
  end.

Lemma transfer_step (node : Node) state :
  match inst node with
  | Inst.Alloca _ _ _ => Some (if existsb (N.eqb cell) (results node) then false else state)
  | Inst.Store _ ptr _ _ _ => Some (if (ptr =? cell)%N then true else state)
  | Inst.Load _ ptr _ _ => if (ptr =? cell)%N && negb state then None else Some state
  | _ => Some state
  end = if decide (loads node) then (if state then Some (after_node node state) else None) else Some (after_node node state).
Proof.
  assert (X : existsb (N.eqb cell) (results node) = bool_decide (cell ∈ results node)).
  { apply eq_true_iff_eq. rewrite existsb_exists, bool_decide_eq_true. split.
    - intros (v & Hv & <-%N.eqb_eq). by apply list_elem_of_In.
    - intros Hc. exists cell. split; [by apply list_elem_of_In|apply N.eqb_refl]. }
  unfold after_node.
  destruct (decide (loads node)) as [Ld|Ld], (decide (stores node)) as [Sn|Sn], (decide (allocates node)) as [An|An];
    unfold loads, stores, allocates in *; destruct (inst node); try done; subst; rewrite ?N.eqb_refl, ?X;
    rewrite ?bool_decide_true by done; rewrite ?bool_decide_false by done;
    rewrite ?(proj2 (N.eqb_neq _ _) Ld), ?(proj2 (N.eqb_neq _ _) Sn); by destruct state.
Qed.

Lemma transfer_spec nodes : forall state,
  snd (promoted_cell_block_transfer nodes cell state) = checked (executed nodes) state /\
  (checked (executed nodes) state = true -> fst (promoted_cell_block_transfer nodes cell state) = after (executed nodes) state).
Proof.
  induction nodes as [|node nodes IH]; intros state; [done|].
  cbn [promoted_cell_block_transfer executed]. rewrite transfer_step.
  assert (E : (if is_terminator (inst node) then [node] else node :: executed nodes) =
    node :: if is_terminator (inst node) then [] else executed nodes) by (by destruct (is_terminator (inst node))).
  rewrite E. cbn [checked]. change (after (node :: ?t) ?s) with (after t (after_node node s)).
  destruct (decide (loads node)) as [Ld|Ld]; [destruct state; [|done]|];
    (destruct (is_terminator (inst node)); [done|]); cbn [andb]; apply IH.
Qed.

Lemma transfer_mono nodes : forall st st', (st = true -> st' = true) ->
  fst (promoted_cell_block_transfer nodes cell st) = true -> fst (promoted_cell_block_transfer nodes cell st') = true.
Proof.
  induction nodes as [|node nodes IH]; intros st st' L; [exact L|]. cbn [promoted_cell_block_transfer].
  rewrite !transfer_step. pose proof (after_node_mono node st st' L) as M.
  destruct (decide (loads node)) as [Ld|Ld]; [destruct st; [rewrite (L eq_refl); by destruct (is_terminator _)|done]|].
  destruct (is_terminator (inst node)); [exact M|]. by apply IH.
Qed.

End Trace.

(** ** Runs *)

Section Runs.
Context `{TrustIr} (func : Function_ Payload) (cell : ValueId).
Notation Node := (InstrNode Payload).

(** Control goes from one block to another. *)
Definition goes (b c : Block Payload) : Prop :=
  exists t ts, first_terminator (body b) = Some t /\ targets (inst t) ts /\ block_id c ∈ ts.

(** A run up to a block: what was executed before it *)
Inductive run : list Node -> Block Payload -> Prop :=
  | run_entry b : b ∈ blocks func -> block_id b = entry func -> run [] b
  | run_goto tr b c : run tr b -> goes b c -> c ∈ blocks func -> run (tr ++ executed (body b)) c.

(** No run loads the cell before it was written. *)
Definition initialised : Prop := forall tr b, run tr b -> safe cell (tr ++ executed (body b)).

(** The structure the analysis asks for *)
Record routed : Prop := {
  rt_unique : NoDup (map block_id (blocks func));
  rt_entry : entry func ∈ map block_id (blocks func);
  rt_blocks : forall b, b ∈ blocks func -> exists t ts, first_terminator (body b) = Some t /\
    branches_to (inst t) ts /\ forall i, i ∈ ts -> i ∈ map block_id (blocks func);
}.

Lemma run_in tr b : run tr b -> b ∈ blocks func.
Proof. by destruct 1. Qed.

Lemma resolved_spec m (b : Block Payload) ss : indexes func m -> resolved_successors m b = Some ss ->
  (exists t ts, first_terminator (body b) = Some t /\ branches_to (inst t) ts /\
    forall i, i ∈ ts -> i ∈ map block_id (blocks func)) /\
  forall j, j ∈ ss <-> exists c, blocks func !! j = Some c /\ goes b c.
Proof.
  intros Ix (t & T & (ts & C%ChcCfgSpec.successors_targets & M)%bind_Some)%bind_Some. apply mapM_Some in M. split.
  - exists t, ts. split_and!; [done|done|]. intros i Hi. apply list_elem_of_lookup in Hi as [k Hk].
    destruct (Forall2_lookup_l _ _ _ _ _ M Hk) as (j & _ & (c & Hc & <-)%Ix).
    apply list_elem_of_fmap_2. by eapply list_elem_of_lookup_2.
  - intros j. split.
    + intros Hj. apply list_elem_of_lookup in Hj as [k Hk].
      destruct (Forall2_lookup_r _ _ _ _ _ M Hk) as (i & Hi & (c & Hc & Ec)%Ix). exists c. split; [done|].
      exists t, ts. rewrite Ec. split_and!; [done|apply C|]. by eapply list_elem_of_lookup_2.
    + intros (c & Hc & t' & ts' & T' & C' & Hin). rewrite T in T'. injection T' as <-.
      rewrite <- (ChcCfgSpec.targets_unique _ _ _ (proj1 C) C') in Hin.
      apply list_elem_of_lookup in Hin as [k Hk]. destruct (Forall2_lookup_l _ _ _ _ _ M Hk) as (j' & Hj & I').
      assert (I : m !! block_id c = Some j) by (apply Ix; by exists c). rewrite I in I'. injection I' as ->.
      by eapply list_elem_of_lookup_2.
Qed.

(** The graph of the analysis is the one of the runs. *)
Record graph_ok (e : nat) (successors : list (list nat)) : Prop := {
  go_entry : exists b, blocks func !! e = Some b /\ block_id b = entry func;
  go_length : length successors = length (blocks func);
  go_edges : forall i b j, blocks func !! i = Some b ->
    j ∈ default [] (successors !! i) <-> exists c, blocks func !! j = Some c /\ goes b c;
}.

Lemma cell_graph_spec e successors : cell_graph func = Some (e, successors) -> routed /\ graph_ok e successors.
Proof.
  intros (m & I & (e' & E & (ss & M & [= -> ->])%bind_Some)%bind_Some)%bind_Some.
  apply index_spec in I as [Nd Ix]. apply mapM_Some in M. apply Ix in E as (b & Hb & Eb). split; split.
  - done.
  - rewrite <- Eb. apply list_elem_of_fmap_2. by eapply list_elem_of_lookup_2.
  - intros c Hc. apply list_elem_of_lookup in Hc as [k Hk]. destruct (Forall2_lookup_l _ _ _ _ _ M Hk) as (s & _ & R).
    by apply (resolved_spec m c s Ix R).
  - by exists b.
  - symmetry. by eapply Forall2_length.
  - intros i c j Hc. destruct (Forall2_lookup_l _ _ _ _ _ M Hc) as (s & Hs & R). rewrite Hs. cbn.
    by apply (resolved_spec m c s Ix R).
Qed.

Lemma cell_graph_total : routed -> is_Some (cell_graph func).
Proof.
  intros [Nd En Bl]. unfold cell_graph.
  destruct (index_blocks_total (blocks func) 0 ∅ Nd) as [m Em]; [intros b _; apply lookup_empty|].
  rewrite Em. cbn [mbind option_bind]. destruct (index_spec func m Em) as [_ Ix].
  assert (F : forall i, i ∈ map block_id (blocks func) -> is_Some (m !! i)).
  { intros i (b & -> & Hb)%list_elem_of_fmap. apply list_elem_of_lookup in Hb as [k Hk].
    exists k. apply Ix. by exists b. }
  destruct (F _ En) as [e ->]. cbn [mbind option_bind].
  assert (is_Some (mapM (resolved_successors m) (blocks func))) as [ss ->]; [|by eexists].
  apply mapM_is_Some, Forall_forall. intros b Hb. destruct (Bl b Hb) as (t & ts & T & C & R).
  unfold resolved_successors, compose. cbn beta. rewrite T. cbn [mbind option_bind]. apply ChcCfgSpec.successors_targets in C. rewrite C. cbn [mbind option_bind].
  apply mapM_is_Some, Forall_forall. intros i Hi. by apply F, R.
Qed.

Lemma predecessors_spec successors j i : i ∈ predecessors successors j <-> j ∈ default [] (successors !! i).
Proof.
  unfold predecessors. rewrite list_elem_of_In, in_concat. setoid_rewrite <- list_elem_of_In. split.
  - intros (l & Hl & Hi). apply elem_of_lookup_imap in Hl as (k & ts & -> & Hk).
    apply list_elem_of_fmap in Hi as (x & -> & Hx). apply list_elem_of_filter in Hx as [-> Hx]. by rewrite Hk.
  - destruct (successors !! i) as [ts|] eqn:Hi; cbn; [|by intros Hx%elem_of_nil]. intros Hj.
    exists (map (fun _ => i) (filter (fun t => t = j) ts)). split.
    + apply elem_of_lookup_imap. by exists i, ts.
    + apply list_elem_of_fmap. exists j. split; [done|]. by apply list_elem_of_filter.
Qed.

End Runs.

(** ** The rounds *)

Section Rounds.
Context `{TrustIr} (func : Function_ Payload) (cell : ValueId) (e : nat) (successors : list (list nat)).
Hypothesis G : graph_ok func e successors.
Notation round := (flow_round func cell e successors).

(** The state at the end of a block *)
Definition flow (b : Block Payload) (x : bool) : bool := fst (promoted_cell_block_transfer (body b) cell x).

Lemma outgoing_lookup (X : list bool) i b x : blocks func !! i = Some b -> X !! i = Some x ->
  snd (round X) !! i = Some (flow b x).
Proof. intros Hb Hx. cbn. rewrite lookup_zip_with, Hb. cbn. by rewrite Hx. Qed.

Lemma incoming_length (X : list bool) : length (fst (round X)) = length X.
Proof. apply length_imap. Qed.

Lemma incoming_entry (X : list bool) : fst (round X) !! e = X !! e.
Proof. cbn. rewrite list_lookup_imap, Nat.eqb_refl. by destruct (X !! e). Qed.

Lemma incoming_lookup (X : list bool) j x : length X = length (blocks func) -> X !! j = Some x -> j <> e ->
  fst (round X) !! j = Some (match predecessors successors j with
                             | [] => x
                             | preds => forallb (fun i => default true (snd (round X) !! i)) preds
                             end).
Proof.
  intros L Hx Ne. cbn. rewrite list_lookup_imap, Hx. cbn. by rewrite (proj2 (Nat.eqb_neq j e) Ne).
Qed.

(** The state at the beginning of a block that is entered: that of all its predecessors *)
Lemma incoming_true (X : list bool) j : length X = length (blocks func) -> j <> e -> j < length (blocks func) ->
  predecessors successors j <> [] ->
  fst (round X) !! j = Some true <-> forall i b x, blocks func !! i = Some b -> X !! i = Some x ->
    j ∈ default [] (successors !! i) -> flow b x = true.
Proof.
  intros L Ne Lt P. destruct (lookup_lt_is_Some_2 X j) as [xj Hj]; [lia|].
  rewrite (incoming_lookup X j xj L Hj Ne).
  assert (E : match predecessors successors j with [] => xj | preds => forallb (fun i => default true (snd (round X) !! i)) preds end =
    forallb (fun i => default true (snd (round X) !! i)) (predecessors successors j)) by (by destruct (predecessors successors j)).
  rewrite E. split.
  - intros F i b x Hb Hx Hi. apply (inj Some) in F. rewrite forallb_forall in F. apply predecessors_spec, list_elem_of_In, F in Hi.
    cbn beta in Hi. by rewrite (outgoing_lookup X i b x Hb Hx) in Hi.
  - intros A. f_equal. apply forallb_forall. intros i Hi%list_elem_of_In%predecessors_spec.
    destruct (snd (round X) !! i) as [o|] eqn:O; [|done]. pose proof O as O'. cbn in O'.
    rewrite lookup_zip_with in O'. destruct (blocks func !! i) as [b|] eqn:Hb; [|done]. cbn in O'.
    destruct (X !! i) as [x|] eqn:Hx; [|done]. rewrite (outgoing_lookup X i b x Hb Hx) in O. injection O as <-. cbn.
    by apply (A i b x).
Qed.

Definition bounded (X : list bool) : Prop := length X = length (blocks func) /\ X !! e = Some false.

Lemma round_bounded X : bounded X -> bounded (fst (round X)).
Proof. intros [L E]. split; [by rewrite incoming_length|by rewrite incoming_entry]. Qed.

Lemma settle_fixed rounds : forall X O Y, bounded X -> settle rounds func cell e successors X O = Some Y ->
  bounded Y /\ fst (round Y) = Y.
Proof.
  induction rounds as [|rounds IH]; intros X O Y B E; [done|]. cbn [settle] in E.
  pose proof (round_bounded X B) as B'. destruct (round X) as [X' O'] eqn:R. cbn [fst] in B'.
  destruct (bool_decide_reflect (X' = X /\ O' = O)) as [[-> _]|_]; [|by eapply IH].
  injection E as <-. split; [done|]. by rewrite R.
Qed.

(** ** A fixed point covers every run *)

Lemma goes_preds i b j c : blocks func !! i = Some b -> blocks func !! j = Some c -> goes b c ->
  j ∈ default [] (successors !! i).
Proof. intros Hb Hc Gt. apply (go_edges _ _ _ G i b j Hb). by exists c. Qed.

Lemma fixed_covers X tr b : NoDup (map block_id (blocks func)) -> bounded X -> fst (round X) = X ->
  (forall i b x, blocks func !! i = Some b -> X !! i = Some x -> checked cell (executed (body b)) x = true) ->
  run func tr b ->
  checked cell tr false = true /\ forall i, blocks func !! i = Some b -> X !! i = Some true -> after cell tr false = true.
Proof.
  intros Nd [L E] F A R. induction R as [b Hb Eb|tr b c R [Ck Af] Gt Hc].
  - split; [done|]. intros i Hi Xi. destruct (go_entry _ _ _ G) as (b' & He & Eb').
    assert (i = e) as ->; [|congruence]. eapply (NoDup_lookup _ i e (entry func) Nd).
    + rewrite list_lookup_fmap, Hi. cbn. by rewrite Eb.
    + rewrite list_lookup_fmap, He. cbn. by rewrite Eb'.
  - apply run_in in R. apply list_elem_of_lookup in R as [i Hi].
    destruct (lookup_lt_is_Some_2 X i) as [x Hx]; [rewrite L; by eapply lookup_lt_Some|].
    specialize (A i b x Hi Hx). assert (Le : x = true -> after cell tr false = true) by (intros ->; by apply (Af i)).
    destruct (transfer_spec cell (body b) x) as [_ T]. specialize (T A). split.
    + rewrite checked_app, Ck. cbn. by eapply checked_mono.
    + intros j Hj Xj. rewrite after_app. eapply after_mono; [exact Le|]. rewrite <- T.
      rewrite <- F in Xj. pose proof (goes_preds i b j c Hi Hj Gt) as Ed.
      assert (Ne : j <> e) by (intros ->; rewrite F in Xj; congruence).
      apply (incoming_true X j L Ne) with (i := i); [by eapply lookup_lt_Some| |done|done|done|done].
      intros P. apply predecessors_spec in Ed. rewrite P in Ed. by apply elem_of_nil in Ed.
Qed.

(** ** What a fixed point excludes is a run *)

Section Exact.
Hypothesis Nd : NoDup (map block_id (blocks func)).
Hypothesis Reached : forall b, b ∈ blocks func -> exists tr, run func tr b.
Hypothesis Safe : initialised func cell.

(** A block is taken to be uninitialised only where a run is. *)
Definition justified (X : list bool) : Prop :=
  forall i b, blocks func !! i = Some b -> X !! i = Some false -> exists tr, run func tr b /\ after cell tr false = false.

Lemma checked_at tr b : run func tr b -> checked cell (executed (body b)) (after cell tr false) = true.
Proof.
  intros R. specialize (Safe tr b R). apply checked_safe in Safe. rewrite checked_app in Safe.
  by apply andb_true_iff in Safe as [_ Safe].
Qed.

Lemma all_checked X i b x : justified X -> blocks func !! i = Some b -> X !! i = Some x ->
  checked cell (executed (body b)) x = true.
Proof.
  intros J Hb Hx. destruct x.
  - destruct (Reached b) as [tr R]; [by eapply list_elem_of_lookup_2|]. eapply checked_mono; [|by apply checked_at]. done.
  - destruct (J i b Hb Hx) as (tr & R & A). rewrite <- A. by apply checked_at.
Qed.

Lemma flow_justified X i b x : justified X -> blocks func !! i = Some b -> X !! i = Some x -> flow b x = false ->
  exists tr, run func tr b /\ after cell (tr ++ executed (body b)) false = false.
Proof.
  intros J Hb Hx Fl. pose proof (all_checked X i b x J Hb Hx) as C. unfold flow in Fl.
  rewrite (proj2 (transfer_spec cell (body b) x) C) in Fl. destruct x.
  - destruct (Reached b) as [tr R]; [by eapply list_elem_of_lookup_2|]. exists tr. split; [done|]. rewrite after_app.
    apply not_true_iff_false. intros T. rewrite (after_mono cell (executed (body b)) (after cell tr false) true) in Fl; done.
  - destruct (J i b Hb Hx) as (tr & R & A). exists tr. split; [done|]. by rewrite after_app, A.
Qed.

Lemma round_justified X : bounded X -> justified X -> justified (fst (round X)).
Proof.
  intros [L E] J j c Hc Hj. destruct (decide (j = e)) as [->|Ne].
  - destruct (go_entry _ _ _ G) as (b & Hb & Eb). rewrite Hc in Hb. injection Hb as <-.
    exists []. split; [|done]. constructor; [by eapply list_elem_of_lookup_2|done].
  - destruct (lookup_lt_is_Some_2 X j) as [x Hx]; [rewrite L; by eapply lookup_lt_Some|].
    rewrite (incoming_lookup X j x L Hx Ne) in Hj. apply (inj Some) in Hj.
    destruct (predecessors successors j) as [|p ps] eqn:P; [subst; by apply (J j c)|]. rewrite <- P in Hj.
    assert (X' : Exists (fun i => default true (snd (round X) !! i) = false) (predecessors successors j)).
    { apply Exists_exists. rewrite <- not_true_iff_false, forallb_forall in Hj.
      destruct (decide (Exists (fun i => default true (snd (round X) !! i) = false) (predecessors successors j))) as [Y|N].
      - by apply Exists_exists in Y.
      - destruct Hj. intros i Hi. destruct (default true (snd (round X) !! i)) eqn:D; [done|].
        destruct N. apply Exists_exists. exists i. split; [by apply list_elem_of_In|done]. }
    apply Exists_exists in X' as (i & Hi%predecessors_spec & D).
    destruct (snd (round X) !! i) as [o|] eqn:O; [|done]. cbn in D. subst o. pose proof O as O'. cbn in O'.
    rewrite lookup_zip_with in O'. destruct (blocks func !! i) as [b|] eqn:Hb; [|done]. cbn in O'.
    destruct (X !! i) as [y|] eqn:Hy; [|done]. rewrite (outgoing_lookup X i b y Hb Hy) in O. injection O as Fl.
    destruct (flow_justified X i b y J Hb Hy Fl) as (tr & R & A). exists (tr ++ executed (body b)). split; [|done].
    destruct (proj1 (go_edges _ _ _ G i b j Hb) Hi) as (c' & Hc' & Gt). assert (c' = c) as -> by congruence.
    constructor; [done|done|by eapply list_elem_of_lookup_2].
Qed.

Lemma settle_justified rounds : forall X O Y, bounded X -> justified X ->
  settle rounds func cell e successors X O = Some Y -> justified Y.
Proof.
  induction rounds as [|rounds IH]; intros X O Y B J E; [done|]. cbn [settle] in E.
  pose proof (round_bounded X B) as B'. pose proof (round_justified X B J) as J'.
  destruct (round X) as [X' O'] eqn:R. cbn [fst] in B', J'.
  destruct (bool_decide_reflect (X' = X /\ O' = O)) as [[-> _]|_]; [by injection E as <-|by eapply IH].
Qed.

End Exact.

(** ** The descent *)

Fixpoint trues (l : list bool) : nat :=
  match l with [] => 0 | x :: l => (if x then 1 else 0) + trues l end.

Definition below (X Y : list bool) : Prop := length X = length Y /\ forall i, X !! i = Some true -> Y !! i = Some true.

Lemma below_trues X : forall Y, below X Y -> trues X <= trues Y /\ (trues X = trues Y -> X = Y).
Proof.
  induction X as [|x X IH]; intros [|y Y] [L B]; [by split|done|done|].
  destruct (IH Y) as [Le Eq].
  { split; [by injection L|]. intros i Hi. by apply (B (S i)). }
  pose proof (B 0) as B0. cbn in B0 |- *. destruct x, y; try (specialize (B0 eq_refl); congruence); (split; [lia|]);
    intros T; try lia; f_equal; apply Eq; lia.
Qed.

Lemma trues_length l : trues l <= length l.
Proof. induction l as [|x l IH]; cbn; [done|]. destruct x; lia. Qed.

Lemma round_mono X Y : length X = length (blocks func) -> below X Y ->
  below (fst (round X)) (fst (round Y)) /\ below (snd (round X)) (snd (round Y)).
Proof.
  intros LX [L B]. assert (Bo : below (snd (round X)) (snd (round Y))).
  { split; [cbn; rewrite !length_zip_with; lia|]. intros i Hi. cbn in Hi. rewrite lookup_zip_with in Hi.
    destruct (blocks func !! i) as [b|] eqn:Hb; [|done]. cbn in Hi. destruct (X !! i) as [x|] eqn:Hx; [|done].
    destruct (lookup_lt_is_Some_2 Y i) as [y Hy]; [rewrite <- L; by eapply lookup_lt_Some|].
    rewrite (outgoing_lookup Y i b y Hb Hy). injection Hi as Fl. f_equal. eapply transfer_mono; [|exact Fl].
    intros ->. apply B in Hx. congruence. }
  split; [|done]. split; [by rewrite !incoming_length|]. intros j Hj.
  assert (Lt : j < length X) by (rewrite <- (incoming_length X); by eapply lookup_lt_Some).
  destruct (lookup_lt_is_Some_2 X j Lt) as [x Hx]. destruct (lookup_lt_is_Some_2 Y j) as [y Hy]; [lia|].
  destruct (decide (j = e)) as [->|Ne]; [rewrite incoming_entry in Hj |- *; by apply B|].
  rewrite (incoming_lookup X j x) in Hj by done. rewrite (incoming_lookup Y j y) by (done || lia).
  destruct (predecessors successors j) as [|p ps]; [injection Hj as ->; apply B in Hx; congruence|].
  apply (inj Some) in Hj. f_equal. rewrite forallb_forall in Hj |- *. intros i Hi. specialize (Hj i Hi). cbn beta in Hj |- *.
  destruct (snd (round Y) !! i) as [o|] eqn:O; [|done]. cbn.
  destruct (lookup_lt_is_Some_2 (snd (round X)) i) as [o' O']; [rewrite (proj1 Bo); by eapply lookup_lt_Some|].
  rewrite O' in Hj. cbn in Hj. subst o'. apply (proj2 Bo) in O'. congruence.
Qed.

(** Enough rounds settle a descent. *)
Lemma settle_total rounds : forall X O, bounded X -> below (fst (round X)) X -> below (snd (round X)) O ->
  trues X + trues O < rounds -> is_Some (settle rounds func cell e successors X O).
Proof.
  induction rounds as [|rounds IH]; intros X O B DX DO L; [lia|]. cbn [settle].
  pose proof (round_bounded X B) as B'. pose proof (round_mono (fst (round X)) X) as M.
  destruct (round X) as [X' O'] eqn:R. cbn [fst snd] in *.
  destruct (bool_decide_reflect (X' = X /\ O' = O)) as [_|Ne]; [by eexists|].
  destruct (below_trues _ _ DX) as [LX EX], (below_trues _ _ DO) as [LO EO].
  destruct (M (proj1 B') DX) as [MX MO]. apply IH; [done|done|done|].
  destruct (decide (trues X' = trues X)), (decide (trues O' = trues O)); try lia. destruct Ne. auto.
Qed.

(** ** The marks *)

Lemma trues_insert l : forall i, l !! i = Some false -> trues (<[i:=true]> l) = S (trues l).
Proof.
  induction l as [|x l IH]; intros [|i] Hi; try done; cbn in Hi |- *; [by injection Hi as ->|].
  rewrite IH by done. destruct x; lia.
Qed.

Lemma visit_all l : forall r st r' st', foldl visit_next (r, st) l = (r', st') ->
  length r' = length r /\ (forall i, r !! i = Some true -> r' !! i = Some true) /\
  (forall i, i ∈ l -> i < length r -> r' !! i = Some true) /\
  (forall i, r' !! i = Some true -> r !! i = Some true \/ i ∈ st') /\ (forall i, i ∈ st -> i ∈ st') /\
  length st' + trues r = length st + trues r'.
Proof.
  induction l as [|n l IH]; intros r st r' st' E; cbn [foldl] in E.
  { injection E as <- <-. split_and!; try done; [|by left]. intros i Hi. by apply elem_of_nil in Hi. }
  unfold visit_next at 2 in E. destruct (r !! n) as [[|]|] eqn:Hn.
  - destruct (IH _ _ _ _ E) as (L & Up & In & Or & St & C). split_and!; try done.
    intros i [->|Hi]%elem_of_cons Lt; [by apply Up|by apply In].
  - destruct (IH _ _ _ _ E) as (L & Up & In & Or & St & C). rewrite length_insert in L, In. rewrite trues_insert in C by done.
    cbn [length] in C. assert (Sn : n ∈ st') by (apply St; left).
    assert (Kn : r' !! n = Some true) by (apply Up, list_lookup_insert_eq; by eapply lookup_lt_Some).
    split_and!; [done| | | |intros i Hi; apply St; by right|lia].
    + intros i Hi. destruct (decide (i = n)) as [->|Ne]; [done|]. apply Up. by rewrite list_lookup_insert_ne.
    + intros i [->|Hi]%elem_of_cons Lt; [done|by apply In].
    + intros i Hi. destruct (Or i Hi) as [Hr|]; [|by right]. destruct (decide (i = n)) as [->|Ne]; [by right|].
      rewrite list_lookup_insert_ne in Hr by done. by left.
  - destruct (IH _ _ _ _ E) as (L & Up & In & Or & St & C). split_and!; try done.
    intros i [->|Hi]%elem_of_cons Lt; [|by apply In]. apply lookup_ge_None in Hn. lia.
Qed.

Lemma mark_spec fuel : forall r st, length st + length r <= fuel + trues r ->
  (forall i, r !! i = Some true -> i ∈ st \/ forall j, j ∈ default [] (successors !! i) -> j < length r -> r !! j = Some true) ->
  let r' := mark_reachable fuel successors r st in
  length r' = length r /\ (forall i, r !! i = Some true -> r' !! i = Some true) /\
  forall i j, r' !! i = Some true -> j ∈ default [] (successors !! i) -> j < length r -> r' !! j = Some true.
Proof.
  induction fuel as [|fuel IH]; intros r st L C; cbn [mark_reachable].
  { destruct st as [|n st]; [|pose proof (trues_length r); cbn in L; lia]. split_and!; try done.
    intros i j Hi. destruct (C i Hi) as [Hx%elem_of_nil|Q]; [done|]. by apply Q. }
  destruct st as [|n st].
  { split_and!; try done. intros i j Hi. destruct (C i Hi) as [Hx%elem_of_nil|Q]; [done|]. by apply Q. }
  destruct (foldl visit_next (r, st) (default [] (successors !! n))) as [r1 st1] eqn:F.
  destruct (visit_all _ _ _ _ _ F) as (L1 & Up & In & Or & St & Ct). cbn [length] in L.
  destruct (IH r1 st1) as (L2 & Up2 & C2); [lia| |].
  - intros i Hi. destruct (Or i Hi) as [Hr|]; [|by left]. destruct (C i Hr) as [[->|Hs]%elem_of_cons|Q].
    + right. intros j Hj Lt. rewrite L1 in Lt. by apply In.
    + left. by apply St.
    + right. intros j Hj Lt. rewrite L1 in Lt. apply Up. by apply Q.
  - cbn. rewrite L2, L1. split_and!; [done|auto|]. intros i j Hi Hj Lt. rewrite L1 in C2. by apply (C2 i j).
Qed.

(** The search starts from the entry alone. *)
Lemma marks_start :
  let r := mark_reachable (length (blocks func)) successors (<[e:=true]> (replicate (length (blocks func)) false)) [e] in
  length r = length (blocks func) /\ r !! e = Some true /\
  forall i j, r !! i = Some true -> j ∈ default [] (successors !! i) -> j < length (blocks func) -> r !! j = Some true.
Proof.
  cbn zeta. destruct (go_entry _ _ _ G) as (be & He & _). apply lookup_lt_Some in He. set (n := length (blocks func)) in *.
  assert (Fe : replicate n false !! e = Some false) by (by apply lookup_replicate_2).
  destruct (mark_spec n (<[e:=true]> (replicate n false)) [e]) as (L & Up & C).
  - rewrite length_insert, length_replicate, trues_insert by done. cbn. lia.
  - intros i Hi. left. destruct (decide (i = e)) as [->|Ne]; [left|]. rewrite list_lookup_insert_ne in Hi by done.
    by apply lookup_replicate in Hi as [? _].
  - rewrite length_insert, length_replicate in L, C. split_and!; [done| |done].
    apply Up, list_lookup_insert_eq. by rewrite length_replicate.
Qed.

Lemma all_marked (Nd : NoDup (map block_id (blocks func))) : (forall b, b ∈ blocks func -> exists tr, run func tr b) ->
  mark_reachable (length (blocks func)) successors (<[e:=true]> (replicate (length (blocks func)) false)) [e] =
    replicate (length (blocks func)) true.
Proof.
  intros Reached. destruct (go_entry _ _ _ G) as (be & He & Ee). destruct marks_start as (L & Me & C).
  set (n := length (blocks func)) in *. set (r := mark_reachable _ _ _ _) in *.
  assert (M : forall tr b, run func tr b -> forall i, blocks func !! i = Some b -> r !! i = Some true).
  { intros tr b R. induction R as [b Hb Eb|tr b c R IH Gt Hc]; intros i Hi.
    - assert (i = e) as ->; [|done].
      eapply (NoDup_lookup _ i e (entry func) Nd); rewrite list_lookup_fmap; [rewrite Hi|rewrite He]; cbn; by f_equal.
    - apply run_in in R. apply list_elem_of_lookup in R as [k Hk]. apply (C k i); [by apply IH| |by eapply lookup_lt_Some].
      by apply (goes_preds k b i c). }
  apply list_eq. intros i. destruct (decide (i < n)) as [Lt|Ge].
  - destruct (lookup_lt_is_Some_2 (blocks func) i Lt) as [b Hb]. destruct (Reached b) as [tr R]; [by eapply list_elem_of_lookup_2|].
    rewrite (M tr b R i Hb). symmetry. by apply lookup_replicate_2.
  - rewrite !lookup_ge_None_2; [done|rewrite length_replicate; lia|lia].
Qed.

Lemma optimistic_bounded : bounded (optimistic (length (blocks func)) e successors).
Proof.
  destruct marks_start as (L & Me & _). unfold bounded, optimistic. rewrite length_imap. split; [done|].
  by rewrite list_lookup_imap, Me, Nat.eqb_refl.
Qed.

End Rounds.

(** ** The predicate *)

Section Predicate.
Context `{TrustIr} (func : Function_ Payload) (cell : ValueId).

Lemma accepted_initialised : promoted_cell_is_definitely_initialized func cell = true ->
  routed func /\ initialised func cell.
Proof.
  unfold promoted_cell_is_definitely_initialized. destruct (length (blocks func) =? 0)%nat; [done|].
  destruct (cell_graph func) as [[e ss]|] eqn:Gr; [|done]. apply cell_graph_spec in Gr as [Rt G].
  destruct (settle _ _ _ _ _ _ _) as [X|] eqn:S; [|done]. intros A. split; [done|].
  apply (settle_fixed func cell) in S as [B F]; [|by apply optimistic_bounded].
  rewrite forallb_forall in A. intros tr b R. apply checked_safe.
  assert (Ok : forall i c x, blocks func !! i = Some c -> X !! i = Some x -> checked cell (executed (body c)) x = true).
  { intros i c x Hc Hx. rewrite <- (proj1 (transfer_spec cell (body c) x)). apply (A (c, x)), list_elem_of_In.
    apply list_elem_of_lookup. exists i. rewrite lookup_zip_with, Hc. cbn. by rewrite Hx. }
  destruct (fixed_covers func cell e ss G X tr b (rt_unique _ Rt) B F Ok R) as [C Af].
  pose proof (run_in _ _ _ R) as Hb. apply list_elem_of_lookup in Hb as [i Hi].
  destruct (lookup_lt_is_Some_2 X i) as [x Hx]; [rewrite (proj1 B); by eapply lookup_lt_Some|].
  rewrite checked_app, C. cbn. eapply checked_mono; [|exact (Ok i b x Hi Hx)]. intros ->. by apply (Af i).
Qed.

(** With every block reached the rounds start from the top. *)
Lemma optimistic_top e ss : graph_ok func e ss -> NoDup (map block_id (blocks func)) ->
  (forall b, b ∈ blocks func -> exists tr, run func tr b) ->
  forall i, i < length (blocks func) -> optimistic (length (blocks func)) e ss !! i = Some (negb (i =? e)%nat).
Proof.
  intros G Nd Reached i Hi. unfold optimistic. rewrite (all_marked func e ss G Nd Reached).
  rewrite list_lookup_imap, lookup_replicate_2 by done. cbn. by destruct (i =? e)%nat.
Qed.

Lemma top_settles e ss : graph_ok func e ss -> NoDup (map block_id (blocks func)) ->
  (forall b, b ∈ blocks func -> exists tr, run func tr b) ->
  is_Some (settle (2 * length (blocks func) + 1) func cell e ss (optimistic (length (blocks func)) e ss)
    (replicate (length (blocks func)) true)).
Proof.
  intros G Nd Reached. pose proof (optimistic_top e ss G Nd Reached) as L0. pose proof (optimistic_bounded func e ss G) as B0.
  set (n := length (blocks func)) in *. set (X0 := optimistic n e ss) in *.
  assert (LX : length X0 = n) by apply B0. apply settle_total; [done| | |].
  - split; [apply incoming_length|]. intros i Hi.
    assert (Lt : i < n) by (rewrite <- LX, <- (incoming_length func cell e ss X0); by eapply lookup_lt_Some).
    destruct (decide (i = e)) as [->|Ne]; [by rewrite incoming_entry in Hi|].
    by rewrite L0, (proj2 (Nat.eqb_neq i e) Ne).
  - assert (Lo : length (snd (flow_round func cell e ss X0)) = n)
      by (cbn; rewrite length_zip_with; fold n; lia).
    split; [by rewrite length_replicate|]. intros i Hi. apply lookup_replicate_2. rewrite <- Lo. by eapply lookup_lt_Some.
  - pose proof (trues_length X0). pose proof (trues_length (replicate n true)). rewrite length_replicate in *. lia.
Qed.

Lemma initialised_accepted : routed func -> (forall b, b ∈ blocks func -> exists tr, run func tr b) ->
  initialised func cell -> promoted_cell_is_definitely_initialized func cell = true.
Proof.
  intros Rt Reached Safe. unfold promoted_cell_is_definitely_initialized.
  destruct (cell_graph_total _ Rt) as [[e ss] Gr]. rewrite Gr.
  apply cell_graph_spec in Gr as [_ G]. destruct (go_entry _ _ _ G) as (be & He & Ee).
  pose proof (lookup_lt_Some _ _ _ He) as Le. pose proof (rt_unique _ Rt) as Nd. rewrite (proj2 (Nat.eqb_neq _ 0)) by lia.
  destruct (top_settles e ss G Nd Reached) as [X S]. rewrite S. pose proof (optimistic_top e ss G Nd Reached) as L0.
  assert (J0 : justified func cell (optimistic (length (blocks func)) e ss)).
  { intros i b Hb Hi. rewrite L0 in Hi by (by eapply lookup_lt_Some). destruct (Nat.eqb_spec i e) as [->|]; [|done].
    assert (be = b) as -> by congruence. exists []. split; [|done]. constructor; [by eapply list_elem_of_lookup_2|done]. }
  apply forallb_forall. intros [b x] Hin%list_elem_of_In. apply list_elem_of_lookup in Hin as [i Hi].
  rewrite lookup_zip_with in Hi. destruct (blocks func !! i) as [b'|] eqn:Hb; [|done]. cbn in Hi.
  destruct (X !! i) as [x'|] eqn:Hx; [|done]. injection Hi as -> ->. cbn [fst snd].
  rewrite (proj1 (transfer_spec cell (body b) x)). eapply (all_checked func cell Reached Safe X i b x); [|done|done].
  eapply (settle_justified func cell e ss G Reached Safe); [|exact J0|exact S]. by apply optimistic_bounded.
Qed.

(** C19: an admitted cell is written before it is read.  Where the analysis accepts, every
    run from the entry has, before each load of the cell, a store to it that no new
    allocation follows; and it accepts every function of the structure it asks for, all of
    whose blocks are reached, in which that is so: the rounds settle within their bound
    at the greatest solution. *)
Theorem definitely_initialized_exact :
  (promoted_cell_is_definitely_initialized func cell = true -> routed func /\ initialised func cell) /\
  (routed func -> (forall b, b ∈ blocks func -> exists tr, run func tr b) -> initialised func cell ->
    promoted_cell_is_definitely_initialized func cell = true).
Proof. split; [apply accepted_initialised|apply initialised_accepted]. Qed.

End Predicate.

End CellInitSpec.
