(* ===== verification/StackCells.v ===== *)
(** * Stack cells with an exact model

    The predicates of trust-mc-trust-bmc/src/translate_chc.rs that decide whether a
    single-cell allocation may enter a proof: how its pointer and the pointers derived
    from it are used ([stack_alloca_escape_classification]), and the lane of cells that
    live in one block ([block_local_alloca_reject]) with the boolean it replaced, which
    the source keeps for its tests.  The environment variable that widens the lane is an
    argument. *)

From S2P Require Import Prelude TrustIr BmcExpr ChcCfg CellInit.

Module StackCells.
Import TrustIr BmcExpr ChcCfg.

(** ** Escape *)

Inductive StackCellEscape := Contained | IntoCallsOnly | Unbounded.

#[export] Instance StackCellEscape_eq_dec : EqDecision StackCellEscape.
Proof. solve_decision. Defined.

Section Escape.
Context `{TrustIr}.
Notation Node := (InstrNode Payload).

Definition nodes_of (func : Function_ Payload) : list Node := concat (map body (blocks func)).

(** The pointer an instruction derives its results from *)
Definition derivation_base (i : Inst.Inst Payload) : option ValueId :=
  match i with
  | Inst.GEP _ base _ => Some base
  | Inst.Borrow ptr | Inst.BorrowMut ptr => Some ptr
  | _ => None
  end.

(** [derived.insert(..)], noting whether it was new *)
Definition insert_derived (st : gset ValueId * bool) (result : ValueId) : gset ValueId * bool :=
  if decide (result ∈ fst st) then st else ({[result]} ∪ fst st, true).
Definition derive_node (st : gset ValueId * bool) (node : Node) : gset ValueId * bool :=
  match derivation_base (inst node) with
  | Some base => if decide (base ∈ fst st) then foldl insert_derived st (results node) else st
  | None => st
  end.

(** The passes, until one finds nothing new *)
Fixpoint derive_loop (fuel : nat) (nodes : list Node) (derived : gset ValueId) : gset ValueId :=
  match fuel with
  | O => derived
  | S fuel =>
      let '(derived, grew) := foldl derive_node (derived, false) nodes in
      if grew then derive_loop fuel nodes derived else derived
  end.
Definition derived_pointers (nodes : list Node) (alloca_result : ValueId) : gset ValueId :=
  derive_loop (S (length (concat (map results nodes)))) nodes {[alloca_result]}.

(** What an instruction does with the derived pointers: nothing that matters, hand one to
    a call, or something there is no model of *)
Definition node_escape (derived : gset ValueId) (node : Node) : StackCellEscape :=
  match collect_inst_value_uses (inst node) with
  | None => if decide (derived = ∅) then Contained else Unbounded
  | Some uses =>
      if existsb (fun u => bool_decide (u ∈ derived)) uses then
        match inst node with
        | Inst.Load _ _ _ _ | Inst.AtomicLoad _ _ | Inst.Borrow _ | Inst.BorrowMut _ | Inst.EndBorrow _ => Contained
        | Inst.Store _ _ value _ _ | Inst.AtomicStore _ _ value =>
            if decide (value ∈ derived) then Unbounded else Contained
        | Inst.GEP _ _ indices => if existsb (fun i => bool_decide (i ∈ derived)) indices then Unbounded else Contained
        | Inst.Call _ _ => IntoCallsOnly
        | Inst.CallIndirect callee _ => if decide (callee ∈ derived) then Unbounded else IntoCallsOnly
        | _ => Unbounded
        end
      else Contained
  end.
Fixpoint escape_loop (derived : gset ValueId) (nodes : list Node) (escape : StackCellEscape) : StackCellEscape :=
  match nodes with
  | [] => escape
  | node :: nodes =>
      match node_escape derived node with
      | Unbounded => Unbounded
      | IntoCallsOnly => escape_loop derived nodes IntoCallsOnly
      | Contained => escape_loop derived nodes escape
      end
  end.

(** [stack_alloca_escape_classification] *)
Definition stack_alloca_escape_classification (func : Function_ Payload) (alloca_result : ValueId) : StackCellEscape :=
  escape_loop (derived_pointers (nodes_of func) alloca_result) (nodes_of func) Contained.

(** [stack_alloca_pointer_is_non_escaping] *)
Definition stack_alloca_pointer_is_non_escaping (func : Function_ Payload) (alloca_result : ValueId) : bool :=
  forallb (fun node =>
    match inst node with
    | Inst.Load _ _ _ _ => true
    | Inst.Store _ _ value _ _ => negb (value =? alloca_result)%N
    | other =>
        match collect_inst_value_uses other with
        | None => false
        | Some uses => negb (existsb (N.eqb alloca_result) uses)
        end
    end) (nodes_of func).

End Escape.

(** ** Cells of one block *)

(** [enum BlockLocalAllocaReject] *)
Inductive BlockLocalAllocaReject :=
  | PointeeNotScalarOrAggregate (ty : string)
  | NoExactDefiningAlloca
  | LoadInOtherBlock (block definition_block : N)
  | LoadBeforeStore (block : N)
  | LoadVolatile (block : N)
  | LoadAligned (block : N)
  | LoadTypeMismatch (block : N) (access_ty cell_ty : string)
  | StoreInOtherBlock (block definition_block : N)
  | StoreVolatile (block : N)
  | StoreAligned (block : N)
  | StoreTypeMismatch (block : N) (access_ty cell_ty : string)
  | PointerStoredAsValue (block : N)
  | OpaqueInstruction (block : N) (inst : string)
  | PointerUsedByInstruction (block : N) (inst : string).

(** [BlockLocalAllocaReject::kind] *)
Definition kind (r : BlockLocalAllocaReject) : string :=
  match r with
  | PointeeNotScalarOrAggregate _ => "pointee_not_scalar_or_aggregate"
  | NoExactDefiningAlloca => "no_exact_defining_alloca"
  | LoadInOtherBlock _ _ => "load_in_other_block"
  | LoadBeforeStore _ => "load_before_store"
  | LoadVolatile _ => "load_volatile"
  | LoadAligned _ => "load_aligned"
  | LoadTypeMismatch _ _ _ => "load_type_mismatch"
  | StoreInOtherBlock _ _ => "store_in_other_block"
  | StoreVolatile _ => "store_volatile"
  | StoreAligned _ => "store_aligned"
  | StoreTypeMismatch _ _ _ => "store_type_mismatch"
  | PointerStoredAsValue _ => "pointer_stored_as_value"
  | OpaqueInstruction _ _ => "opaque_instruction"
  | PointerUsedByInstruction _ _ => "pointer_used_by_instruction"
  end.

(** The [Display] of a reason *)
Definition BlockLocalAllocaReject_fmt (r : BlockLocalAllocaReject) : string :=
  kind r +:+
  match r with
  | PointeeNotScalarOrAggregate ty => "(ty=" +:+ ty +:+ ")"
  | NoExactDefiningAlloca => ""
  | LoadInOtherBlock block definition_block | StoreInOtherBlock block definition_block =>
      "(at=#" +:+ pretty block +:+ ",def=#" +:+ pretty definition_block +:+ ")"
  | LoadBeforeStore block | LoadVolatile block | LoadAligned block | StoreVolatile block | StoreAligned block
  | PointerStoredAsValue block => "(at=#" +:+ pretty block +:+ ")"
  | LoadTypeMismatch block access_ty cell_ty | StoreTypeMismatch block access_ty cell_ty =>
      "(at=#" +:+ pretty block +:+ ",access=" +:+ access_ty +:+ ",cell=" +:+ cell_ty +:+ ")"
  | OpaqueInstruction block inst | PointerUsedByInstruction block inst =>
      "(at=#" +:+ pretty block +:+ ",inst=" +:+ inst +:+ ")"
  end.

Section Local.
Context `{TrustIr} `{!EqDecision Payload}.
Notation Ty := (Ty.Ty Payload).
Notation Node := (InstrNode Payload).

#[export] Instance Ty_eq_dec : EqDecision Ty.
Proof. solve_decision. Defined.

(** [stack_alloca_cell_accesses_match_type] *)
Definition stack_alloca_cell_accesses_match_type (func : Function_ Payload) (alloca_result : ValueId) (cell_ty : Ty) : bool :=
  forallb (fun node =>
    match inst node with
    | Inst.Load ty ptr _ _ | Inst.Store ty ptr _ _ _ => negb ((ptr =? alloca_result)%N && negb (bool_decide (ty = cell_ty)))
    | _ => true
    end) (nodes_of func).

(** [is_precise_stack_scalar_ty] *)
Definition is_precise_stack_scalar_ty (ty : Ty) : bool :=
  match ty with Ty.Bool => true | _ => is_ordered_scalar_ty ty end.

(** The leading word of the [Debug] of an instruction *)
Fixpoint leading_word (s : string) : string :=
  match s with
  | String c s =>
      let n := Ascii.N_of_ascii c in
      if ((48 <=? n) && (n <=? 57) || (65 <=? n) && (n <=? 90) || (97 <=? n) && (n <=? 122) || (n =? 95))%N
      then String c (leading_word s) else EmptyString
  | EmptyString => EmptyString
  end.
(** [inst_variant_name] *)
Definition inst_variant_name (i : Inst.Inst Payload) : string := leading_word (debug_inst i).

Definition is_aggregate_cell (ty : Ty) : bool :=
  match ty with
  | Ty.Struct _ | Ty.Tuple _ | Ty.Array _ | Ty.Unit | Ty.Closure _ | Ty.Enum _ => true
  | _ => false
  end.

(** The block of the allocation that is admitted *)
Definition defines_exact_cell (result : ValueId) (ty : Ty) (node : Node) : bool :=
  existsb (N.eqb result) (results node) &&
  match inst node with Inst.Alloca cell_ty None None => bool_decide (cell_ty = ty) | _ => false end.
Definition find_definition_block (func : Function_ Payload) (result : ValueId) (ty : Ty) : option BlockId :=
  block_id <$> List.find (fun b => existsb (defines_exact_cell result ty) (body b)) (blocks func).

(** One instruction: a reason to decline, or whether the cell is written now *)
Definition block_local_node (escape : StackCellEscape) (result : ValueId) (ty : Ty) (definition_block : BlockId)
    (initialized : bool) (at_node : BlockId * Node) : BlockLocalAllocaReject + bool :=
  let '(at_, node) := at_node in
  match inst node with
  | Inst.Load access_ty ptr volatile align =>
      if (ptr =? result)%N then
        if negb (at_ =? definition_block)%N then inl (LoadInOtherBlock at_ definition_block)
        else if negb initialized then inl (LoadBeforeStore at_)
        else if volatile : bool then inl (LoadVolatile at_)
        else if bool_decide (is_Some align) then inl (LoadAligned at_)
        else if negb (bool_decide (access_ty = ty)) then inl (LoadTypeMismatch at_ (show_ty access_ty) (show_ty ty))
        else inr initialized
      else inr initialized
  | Inst.Store access_ty ptr value volatile align =>
      if (ptr =? result)%N && negb (at_ =? definition_block)%N then inl (StoreInOtherBlock at_ definition_block)
      else if (ptr =? result)%N && volatile then inl (StoreVolatile at_)
      else if (ptr =? result)%N && bool_decide (is_Some align) then inl (StoreAligned at_)
      else if (ptr =? result)%N && negb (bool_decide (access_ty = ty)) then
        inl (StoreTypeMismatch at_ (show_ty access_ty) (show_ty ty))
      else if (value =? result)%N then inl (PointerStoredAsValue at_)
      else inr (if (ptr =? result)%N then true else initialized)
  | other =>
      match collect_inst_value_uses other with
      | None =>
          if decide (escape = Unbounded) then inl (OpaqueInstruction at_ (inst_variant_name other)) else inr initialized
      | Some uses =>
          if existsb (N.eqb result) uses && bool_decide (escape = Unbounded)
          then inl (PointerUsedByInstruction at_ (inst_variant_name other)) else inr initialized
      end
  end.
Fixpoint block_local_loop (escape : StackCellEscape) (result : ValueId) (ty : Ty) (definition_block : BlockId)
    (initialized : bool) (nodes : list (BlockId * Node)) : option BlockLocalAllocaReject :=
  match nodes with
  | [] => None
  | at_node :: nodes =>
      match block_local_node escape result ty definition_block initialized at_node with
      | inl reason => Some reason
      | inr initialized => block_local_loop escape result ty definition_block initialized nodes
      end
  end.

Definition placed_nodes (func : Function_ Payload) : list (BlockId * Node) :=
  concat (map (fun b => map (pair (block_id b)) (body b)) (blocks func)).

(** [block_local_alloca_reject] *)
Definition block_local_alloca_reject (widen : bool) (func : Function_ Payload) (alloca_result : ValueId) (ty : Ty) :
    option BlockLocalAllocaReject :=
  if negb (is_precise_stack_scalar_ty ty) && negb (is_aggregate_cell ty) then
    Some (PointeeNotScalarOrAggregate (show_ty ty))
  else
    match find_definition_block func alloca_result ty with
    | None => Some NoExactDefiningAlloca
    | Some definition_block =>
        let escape := if widen then stack_alloca_escape_classification func alloca_result else Unbounded in
        block_local_loop escape alloca_result ty definition_block false (placed_nodes func)
    end.

(** The boolean it replaced: one instruction, [None] for "no" *)
Definition reference_node (result : ValueId) (ty : Ty) (definition_block : BlockId) (initialized : bool)
    (at_node : BlockId * Node) : option bool :=
  let '(at_, node) := at_node in
  match inst node with
  | Inst.Load access_ty ptr volatile align =>
      if (ptr =? result)%N && (negb (at_ =? definition_block)%N || negb initialized || volatile ||
           bool_decide (is_Some align) || negb (bool_decide (access_ty = ty)))
      then None else Some initialized
  | Inst.Store access_ty ptr value volatile align =>
      if (ptr =? result)%N && (negb (at_ =? definition_block)%N || volatile || bool_decide (is_Some align) ||
           negb (bool_decide (access_ty = ty)))
      then None
      else if (value =? result)%N then None
      else Some (if (ptr =? result)%N then true else initialized)
  | other =>
      match collect_inst_value_uses other with
      | None => None
      | Some uses => if existsb (N.eqb result) uses then None else Some initialized
      end
  end.
Fixpoint reference_loop (result : ValueId) (ty : Ty) (definition_block : BlockId) (initialized : bool)
    (nodes : list (BlockId * Node)) : bool :=
  match nodes with
  | [] => true
  | at_node :: nodes =>
      match reference_node result ty definition_block initialized at_node with
      | None => false
      | Some initialized => reference_loop result ty definition_block initialized nodes
      end
  end.

(** [block_local_alloca_is_admissible_reference] *)
Definition block_local_alloca_is_admissible_reference (func : Function_ Payload) (alloca_result : ValueId) (ty : Ty) : bool :=
  if negb (is_precise_stack_scalar_ty ty) && negb (is_aggregate_cell ty) then false
  else
    match find_definition_block func alloca_result ty with
    | None => false
    | Some definition_block => reference_loop alloca_result ty definition_block false (placed_nodes func)
    end.

End Local.

End StackCells.

(** * What the admission of stack cells promises

    The derived pointers are the least set closed under the derivations, the
    classification of escapes says where they can be, and a cell admitted by the
    block-local lane is not aliased, has one type, and is written before it is read. *)

Module StackCellsSpec.
Import TrustIr BmcExpr ChcCfg ChcCfgSpec CellInit CellInitSpec StackCells.

(** ** Derived pointers *)

Section Derived.
Context `{TrustIr} (nodes : list (InstrNode Payload)) (cell : ValueId).

(** The results of an instruction point where its operand does. *)
Inductive points_to : Inst.Inst Payload -> ValueId -> Prop :=
  | points_gep ty base indices : points_to (Inst.GEP ty base indices) base
  | points_borrow ptr : points_to (Inst.Borrow ptr) ptr
  | points_borrow_mut ptr : points_to (Inst.BorrowMut ptr) ptr.

Lemma derivation_points i base : derivation_base i = Some base <-> points_to i base.
Proof. split; [destruct i; try done; intros [= <-]; constructor|by inversion 1]. Qed.

(** The pointers into a cell *)
Inductive derives : ValueId -> Prop :=
  | derives_cell : derives cell
  | derives_result node base result : node ∈ nodes -> points_to (inst node) base -> derives base ->
      result ∈ results node -> derives result.

Lemma insert_all rs : forall d g, let st := foldl insert_derived (d, g) rs in
  fst st = list_to_set rs ∪ d /\ (snd st = true <-> g = true \/ ~ (list_to_set rs ⊆ d)).
Proof.
  induction rs as [|r rs IH]; intros d g; cbn [foldl].
  { cbn. split; [set_solver|]. split; [by left|]. intros [|N]; [done|]. destruct N. set_solver. }
  unfold insert_derived at 2 4. cbn [fst]. destruct (decide (r ∈ d)) as [Hr|Hr].
  - destruct (IH d g) as [E G]. split; [rewrite E; set_solver|]. rewrite G. cbn.
    assert (X : list_to_set rs ⊆ d <-> {[r]} ∪ list_to_set rs ⊆ d) by set_solver. by rewrite X.
  - destruct (IH ({[r]} ∪ d) true) as [E G]. split; [rewrite E; set_solver|]. rewrite G. split; [|by left].
    intros _. right. set_solver.
Qed.

(** A node adds its results when its base is derived, and says so when one is new. *)
Lemma derive_node_spec node d g : let st := derive_node (d, g) node in
  d ⊆ fst st /\
  (forall v, v ∈ fst st -> v ∈ d \/ exists base, derivation_base (inst node) = Some base /\ base ∈ d /\ v ∈ results node) /\
  (snd st = false <-> g = false /\ fst st = d) /\
  (forall base v, derivation_base (inst node) = Some base -> base ∈ d -> v ∈ results node -> v ∈ fst st).
Proof.
  unfold derive_node. destruct (derivation_base (inst node)) as [base|]; cbn [fst snd].
  2: { split_and!; [done|by left|naive_solver|done]. }
  destruct (decide (base ∈ d)) as [Hb|Hb]; [|split_and!; [done|by left|naive_solver|]; intros b v [= <-]; done].
  destruct (insert_all (results node) d g) as [E G]. rewrite E. split_and!; [set_solver| | |].
  - intros v [Hv%elem_of_list_to_set|]%elem_of_union; [right; by exists base|by left].
  - rewrite <- not_true_iff_false, G, <- not_true_iff_false. split.
    + intros N. split; [naive_solver|]. destruct (decide (list_to_set (results node) ⊆ d)) as [S|S]; [set_solver|]. naive_solver.
    + intros [Ng S] [|N]; [done|]. apply N. set_solver.
  - intros b v _ _ Hv. apply elem_of_union_l. by apply elem_of_list_to_set.
Qed.

Lemma derive_pass ns : forall d g, ns ⊆ nodes -> (forall v, v ∈ d -> derives v) -> let st := foldl derive_node (d, g) ns in
  d ⊆ fst st /\ (forall v, v ∈ fst st -> derives v) /\ (fst st ⊆ d ∪ list_to_set (concat (map results nodes))) /\
  (snd st = false -> g = false /\ fst st = d /\
     forall node base v, node ∈ ns -> derivation_base (inst node) = Some base -> base ∈ d -> v ∈ results node -> v ∈ d) /\
  (g = false -> snd st = true -> fst st <> d).
Proof.
  induction ns as [|node ns IH]; intros d g Sub D; cbn [foldl].
  { cbn. split_and!; [done|done|set_solver|intros ->; split_and!; [done|done|]; intros ? ? ? Hx%elem_of_nil; done|intros ->; done]. }
  destruct (derive_node_spec node d g) as (Up & In & Gr & Cl). destruct (derive_node (d, g) node) as [d1 g1]. cbn [fst snd] in *.
  assert (Hn : node ∈ nodes) by (apply Sub; left).
  assert (D1 : forall v, v ∈ d1 -> derives v).
  { intros v Hv. destruct (In v Hv) as [|(base & B & Hb & Hr)]; [by apply D|].
    apply derivation_points in B. by eapply derives_result; [..|apply D|]. }
  assert (R1 : d1 ⊆ d ∪ list_to_set (concat (map results nodes))).
  { intros v Hv. destruct (In v Hv) as [|(base & B & Hb & Hr)]; [set_solver|]. apply elem_of_union_r, elem_of_list_to_set.
    apply list_elem_of_In, in_concat. exists (results node). split; [|by apply list_elem_of_In].
    apply list_elem_of_In. by apply list_elem_of_fmap_2. }
  destruct (IH d1 g1) as (Up2 & D2 & R2 & Gr2 & Ne2); [intros x Hx; apply Sub; by right|done|].
  split_and!; [by transitivity d1|done| | |].
  - intros v Hv. apply R2, elem_of_union in Hv as [Hv|Hv]; [by apply R1|by apply elem_of_union_r].
  - intros F. destruct (Gr2 F) as (G1 & E2 & C2). apply Gr in G1 as [Gg ->]. split_and!; [done|by rewrite E2|].
    intros n base v [->|Hin]%elem_of_cons B Hb Hv; [by apply (Cl base v)|by eapply C2].
  - intros Gg T E. assert (E1 : d1 = d) by (apply (anti_symm (⊆)); [by rewrite <- E|done]).
    assert (G1 : g1 = false) by (by apply Gr). apply (Ne2 G1 T). by rewrite E.
Qed.

Lemma derive_loop_spec fuel : forall d, cell ∈ d -> (forall v, v ∈ d -> derives v) ->
  d ⊆ {[cell]} ∪ list_to_set (concat (map results nodes)) ->
  size (list_to_set (concat (map results nodes)) ∖ d : gset ValueId) < fuel ->
  forall v, v ∈ derive_loop fuel nodes d <-> derives v.
Proof.
  induction fuel as [|fuel IH]; intros d Cd D R L; [lia|]. cbn [derive_loop].
  destruct (derive_pass nodes d false) as (Up & D1 & R1 & Cl & Ne); [done|done|].
  destruct (foldl derive_node (d, false) nodes) as [d1 g1]. cbn [fst snd] in *. destruct g1.
  - apply IH; [by apply Up|done| |].
    { intros v Hv. apply R1, elem_of_union in Hv as [Hv|Hv]; [by apply R|by apply elem_of_union_r]. }
    specialize (Ne eq_refl eq_refl).
    assert (exists v, v ∈ d1 /\ v ∉ d) as (v & V1 & Vd).
    { destruct (decide (d1 ⊆ d)) as [S|S]; [destruct Ne; by apply (anti_symm (⊆))|].
      destruct (set_choose_or_empty (d1 ∖ d)) as [[v Hv]|E]; [exists v; by apply elem_of_difference in Hv|]. destruct S.
      intros x Hx. destruct (decide (x ∈ d)) as [|Nx]; [done|]. destruct (not_elem_of_empty (C := gset ValueId) x). apply E. by apply elem_of_difference. }
    assert (size (list_to_set (concat (map results nodes)) ∖ d1 : gset ValueId) <
            size (list_to_set (concat (map results nodes)) ∖ d : gset ValueId)); [|lia].
    apply subset_size. pose proof (R1 v V1) as Rv. apply elem_of_union in Rv as [|Rv]; [done|]. split.
    + intros x [Hx Nx]%elem_of_difference. apply elem_of_difference. split; [done|]. intros Hd. by apply Nx, Up.
    + intros S. assert (Hv : v ∈ list_to_set (concat (map results nodes)) ∖ d) by (by apply elem_of_difference).
      apply S, elem_of_difference in Hv as [_ Nv]. done.
  - destruct (Cl eq_refl) as (_ & -> & C). intros v. split; [apply D|].
    intros V. induction V as [|node base result Hn B%derivation_points _ IHb Hr]; [done|]. by eapply C.
Qed.

Lemma derived_exact v : v ∈ derived_pointers nodes cell <-> derives v.
Proof.
  unfold derived_pointers. apply derive_loop_spec.
  - by apply elem_of_singleton.
  - intros x ->%elem_of_singleton. constructor.
  - apply union_subseteq_l.
  - assert (L : forall l : list ValueId, size (list_to_set l : gset ValueId) <= length l).
    { clear. induction l as [|x l IH]; [by cbn; rewrite size_empty|]. cbn [list_to_set length].
      rewrite size_union_alt, size_singleton. 
      pose proof (subseteq_size (list_to_set l ∖ {[x]} : gset ValueId) (list_to_set l) ltac:(set_solver)). lia. }
    pose proof (L (concat (map results nodes))).
    pose proof (subseteq_size (list_to_set (concat (map results nodes)) ∖ {[cell]} : gset ValueId)
      (list_to_set (concat (map results nodes))) ltac:(set_solver)). lia.
Qed.

End Derived.

(** ** Escape *)

Section Escape.
Context `{TrustIr} (func : Function_ Payload) (cell : ValueId).
Notation Node := (InstrNode Payload).
Notation pointer := (derives (nodes_of func) cell).

(** The uses of the pointers into a cell that have a model: an access or a derivation
    through one, and handing one to a call *)
Definition tracked (node : Node) : Prop :=
  match inst node with
  | Inst.Load _ _ _ _ | Inst.AtomicLoad _ _ | Inst.Borrow _ | Inst.BorrowMut _ | Inst.EndBorrow _ | Inst.Call _ _ => True
  | Inst.Store _ _ value _ _ | Inst.AtomicStore _ _ value => ~ pointer value
  | Inst.GEP _ _ indices => forall i, i ∈ indices -> ~ pointer i
  | Inst.CallIndirect callee _ => ~ pointer callee
  | _ => False
  end.
Definition is_call (node : Node) : bool :=
  match inst node with Inst.Call _ _ | Inst.CallIndirect _ _ => true | _ => false end.

(** A node whose reads are known, and which uses a pointer into the cell only so *)
Definition contains_cell (node : Node) : Prop :=
  ~ opaque (inst node) /\ ((exists v, reads (inst node) v /\ pointer v) -> tracked node).
Definition passes_cell (node : Node) : Prop := is_call node = true /\ exists v, reads (inst node) v /\ pointer v.

Lemma existsb_derived (d : gset ValueId) (D : forall v : ValueId, v ∈ d <-> pointer v) uses :
  existsb (fun u => bool_decide (u ∈ d)) uses = true <-> exists v, v ∈ uses /\ pointer v.
Proof.
  rewrite existsb_exists. setoid_rewrite bool_decide_eq_true. setoid_rewrite D.
  by setoid_rewrite list_elem_of_In.
Qed.

Lemma node_escape_spec (d : gset ValueId) node : (forall v, v ∈ d <-> pointer v) ->
  match node_escape d node with
  | Unbounded => ~ contains_cell node
  | IntoCallsOnly => contains_cell node /\ passes_cell node
  | Contained => contains_cell node /\ ~ passes_cell node
  end.
Proof.
  intros D. unfold node_escape. pose proof (ChcCfgSpec.uses_reads (inst node)) as U.
  destruct (collect_inst_value_uses (inst node)) as [uses|].
  2: { rewrite decide_False; [by intros [No _]|]. intros E.
       assert (C : cell ∈ d) by (apply D; constructor). rewrite E in C. by apply not_elem_of_empty in C. }
  destruct U as [No U]. pose proof (existsb_derived d D uses) as X. setoid_rewrite U in X. unfold contains_cell, passes_cell.
  destruct (existsb (fun u => bool_decide (u ∈ d)) uses).
  2: { assert (N : ~ exists v, reads (inst node) v /\ pointer v) by (intros Y; by apply X in Y). split.
       - split; [done|by intros Y].
       - by intros [_ Y]. }
  assert (Y : exists v, reads (inst node) v /\ pointer v) by (by apply X). clear X U.
  assert (T : tracked node -> contains_cell node) by (by intros T).
  assert (NT : ~ tracked node -> ~ contains_cell node) by (intros N [_ T']; by apply N, T').
  assert (NP : is_call node = false -> ~ passes_cell node) by (intros N [C _]; congruence).
  assert (P : is_call node = true -> passes_cell node) by (by intros C).
  unfold contains_cell, passes_cell in *.
  unfold tracked, is_call in *. destruct (inst node); auto;
    try (match goal with |- context [decide (?v ∈ d)] => destruct (decide (v ∈ d)) as [Hv|Hv]; rewrite D in Hv end; auto).
  pose proof (existsb_derived d D indices) as Z. destruct (existsb (fun i => bool_decide (i ∈ d)) indices).
  - apply NT. intros N. destruct (proj1 Z eq_refl) as (v & Hv & Pv). by apply (N v).
  - split; [apply T; intros i Hi Pi; by discriminate (proj2 Z (ex_intro _ i (conj Hi Pi)))|by apply NP].
Qed.

Lemma escape_loop_spec (d : gset ValueId) ns : forall escape, (forall v, v ∈ d <-> pointer v) -> escape <> Unbounded ->
  (escape_loop d ns escape <> Unbounded <-> forall node, node ∈ ns -> contains_cell node) /\
  (escape_loop d ns escape = Contained <->
    escape = Contained /\ forall node, node ∈ ns -> contains_cell node /\ ~ passes_cell node).
Proof.
  induction ns as [|node ns IH]; intros escape D Ne; cbn [escape_loop].
  { split; [split; [intros _ n Hn%elem_of_nil|]; done|]. split; [intros ->|by intros [-> _]].
    split; [done|]. by intros n Hn%elem_of_nil. }
  setoid_rewrite elem_of_cons. pose proof (node_escape_spec d node D) as N. destruct (node_escape d node).
  - destruct N as [C P]. destruct (IH escape D Ne) as [A B]. rewrite A, B. split.
    + split; [intros Q n [->|Hn]; auto|auto].
    + split; [intros [-> Q]; split; [done|]; intros n [->|Hn]; auto|]. intros [-> Q]. auto.
  - destruct N as [C P]. destruct (IH IntoCallsOnly D ltac:(done)) as [A B]. rewrite A, B. split.
    + split; [intros Q n [->|Hn]; auto|auto].
    + split; [by intros [? _]|]. intros [_ Q]. by destruct (Q node (or_introl eq_refl)).
  - split; (split; [done|]).
    + intros Q. by destruct N; apply Q; left.
    + intros [_ Q]. destruct N. by apply (Q node (or_introl eq_refl)).
Qed.

Lemma classification_spec :
  (stack_alloca_escape_classification func cell <> Unbounded <->
    forall node, node ∈ nodes_of func -> contains_cell node) /\
  (stack_alloca_escape_classification func cell = Contained <->
    forall node, node ∈ nodes_of func -> contains_cell node /\ ~ passes_cell node).
Proof.
  unfold stack_alloca_escape_classification.
  destruct (escape_loop_spec (derived_pointers (nodes_of func) cell) (nodes_of func) Contained) as [A B];
    [apply derived_exact|done|]. split; [exact A|]. rewrite B. naive_solver.
Qed.

(** C27: the classification of an escape is exact.  It is not unbounded exactly when every
    instruction of the function reads known operands and uses the pointers into the cell -
    its own and those derived from it in any number of steps - only where the encoder has
    a model for them; and it is contained exactly when, besides, none goes to a call. *)
Theorem escape_exact :
  (stack_alloca_escape_classification func cell <> Unbounded <->
    forall node, node ∈ nodes_of func -> contains_cell node) /\
  (stack_alloca_escape_classification func cell = Contained <->
    forall node, node ∈ nodes_of func -> contains_cell node /\ ~ passes_cell node).
Proof. apply classification_spec. Qed.

End Escape.

(** ** The block-local lane *)

Section Local.
Context `{TrustIr} `{!EqDecision Payload} (func : Function_ Payload) (cell : ValueId) (ty : Ty.Ty Payload).
Notation Node := (InstrNode Payload).

Lemma node_parity db init (p : BlockId * Node) :
  reference_node cell ty db init p = match block_local_node Unbounded cell ty db init p with inl _ => None | inr b => Some b end.
Proof.
  destruct p as [at_ node]. unfold reference_node, block_local_node.
  destruct (inst node);
    try (destruct (collect_inst_value_uses _) as [uses|]; [|by rewrite decide_True by done];
         rewrite bool_decide_true by done; rewrite andb_true_r; by destruct (existsb _ uses)).
  - destruct (ptr =? cell)%N, (at_ =? db)%N, init, volatile, (bool_decide (is_Some align)), (bool_decide (ty0 = ty)); done.
  - destruct (ptr =? cell)%N, (at_ =? db)%N, volatile, (bool_decide (is_Some align)), (bool_decide (ty0 = ty)), (value =? cell)%N; done.
Qed.

Lemma loop_parity db nodes : forall init,
  block_local_loop Unbounded cell ty db init nodes = None <-> reference_loop cell ty db init nodes = true.
Proof.
  induction nodes as [|p nodes IH]; intros init; [done|]. cbn [block_local_loop reference_loop]. rewrite node_parity.
  by destruct (block_local_node Unbounded cell ty db init p).
Qed.

Lemma reject_parity : block_local_alloca_reject false func cell ty = None <->
  block_local_alloca_is_admissible_reference func cell ty = true.
Proof.
  unfold block_local_alloca_reject, block_local_alloca_is_admissible_reference.
  destruct (negb (is_precise_stack_scalar_ty ty) && negb (is_aggregate_cell ty)); [done|].
  destruct (find_definition_block func cell ty); [apply loop_parity|done].
Qed.

(** What the lane asks of an instruction *)
Definition node_ok (db : BlockId) (written : Prop) (p : BlockId * Node) : Prop :=
  match inst (snd p) with
  | Inst.Load aty ptr vol al => ptr = cell -> fst p = db /\ written /\ vol = false /\ al = None /\ aty = ty
  | Inst.Store aty ptr v vol al => (ptr = cell -> fst p = db /\ vol = false /\ al = None /\ aty = ty) /\ v <> cell
  | i => unread i cell
  end.

Lemma reference_node_ok db init p b : reference_node cell ty db init p = Some b ->
  node_ok db (init = true) p /\ (b = true <-> init = true \/ stores cell (snd p)).
Proof.
  assert (Sm : forall al : option N, bool_decide (is_Some al) = false -> al = None)
    by (intros [x|] Hx; [by rewrite bool_decide_true in Hx|done]).
  assert (Ex : forall uses, existsb (N.eqb cell) uses = false -> cell ∉ uses).
  { intros uses X Hin. rewrite <- not_true_iff_false in X. apply X, existsb_exists. exists cell.
    split; [by apply list_elem_of_In|apply N.eqb_refl]. }
  destruct p as [at_ node]. unfold reference_node, node_ok, stores. cbn [fst snd].
  destruct (inst node);
    try (destruct (collect_inst_value_uses _) as [uses|] eqn:U; [|done]; destruct (existsb _ uses) eqn:X; [done|];
         intros [= <-]; split; [by apply (unread_known _ _ _ U), Ex|]; naive_solver).
  - destruct (N.eqb_spec ptr cell) as [->|Np]; cbn [andb].
    + destruct (N.eqb_spec at_ db) as [->|]; [|done]. destruct init; [|done]. destruct volatile; [done|]. cbn [negb orb].
      destruct (bool_decide (is_Some align)) eqn:Al; [done|]. destruct (bool_decide_reflect (ty0 = ty)) as [->|]; [|done].
      intros [= <-]. split; [intros _; split_and!; auto|naive_solver].
    + intros [= <-]. split; [done|naive_solver].
  - destruct (N.eqb_spec ptr cell) as [->|Np]; cbn [andb].
    + destruct (N.eqb_spec at_ db) as [->|]; [|done]. destruct volatile; [done|]. cbn [negb orb].
      destruct (bool_decide (is_Some align)) eqn:Al; [done|]. destruct (bool_decide_reflect (ty0 = ty)) as [->|]; [|done].
      cbn [negb]. destruct (N.eqb_spec value cell); [done|]. intros [= <-]. split; [split; [intros _; split_and!; auto|done]|naive_solver].
    + destruct (N.eqb_spec value cell); [done|]. intros [= <-]. split; [done|naive_solver].
Qed.

Lemma reference_loop_ok db nodes : forall init, reference_loop cell ty db init nodes = true ->
  forall k p, nodes !! k = Some p ->
    node_ok db (init = true \/ exists i q, i < k /\ nodes !! i = Some q /\ stores cell (snd q)) p.
Proof.
  assert (Mono : forall db (P Q : Prop) p, (P -> Q) -> node_ok db P p -> node_ok db Q p).
  { intros d P Q p PQ. unfold node_ok. destruct (inst (snd p)); try done. intros A E. destruct (A E) as (? & ? & ?). auto. }
  induction nodes as [|q nodes IH]; intros init E k p Hk; [done|]. cbn [reference_loop] in E.
  destruct (reference_node cell ty db init q) as [b|] eqn:R; [|done]. apply reference_node_ok in R as [Ok B].
  destruct k as [|k]; [injection Hk as <-; by eapply Mono; [|exact Ok]; left|].
  eapply Mono; [|exact (IH b E k p Hk)]. intros [T|(i & r & Hi & Hr & Sr)].
  - apply B in T as [T|T]; [by left|]. right. exists 0, q. split_and!; [lia|done|done].
  - right. exists (S i), r. split_and!; [lia|done|done].
Qed.

(** ** An admitted cell *)

Definition admitted : Prop := block_local_alloca_reject false func cell ty = None.

Lemma admitted_nodes : admitted -> exists db, forall k p, placed_nodes func !! k = Some p ->
  node_ok db (exists i q, i < k /\ placed_nodes func !! i = Some q /\ stores cell (snd q)) p.
Proof.
  intros A%reject_parity. unfold block_local_alloca_is_admissible_reference in A.
  destruct (negb _ && negb _); [done|]. destruct (find_definition_block func cell ty) as [db|]; [|done].
  exists db. intros k p Hk. pose proof (reference_loop_ok db _ _ A k p Hk) as Ok. unfold node_ok in *.
  destruct (inst (snd p)); try done. intros E. destruct (Ok E) as (? & [|] & ?); [done|auto].
Qed.

Lemma nodes_placed : nodes_of func = map snd (placed_nodes func).
Proof.
  unfold nodes_of, placed_nodes. rewrite concat_map, map_map. f_equal. apply map_ext. intros b.
  rewrite map_map. symmetry. apply map_id.
Qed.

Lemma placed (node : Node) : node ∈ nodes_of func -> exists k at_, placed_nodes func !! k = Some (at_, node).
Proof.
  rewrite nodes_placed. intros ([at_ n] & -> & Hin)%list_elem_of_fmap. apply list_elem_of_lookup in Hin as [k Hk].
  by exists k, at_.
Qed.

(** The instruction accesses the cell at its type, or does not use it. *)
Definition allowed (node : Node) : Prop :=
  match inst node with
  | Inst.Load aty ptr _ _ => ptr = cell -> aty = ty
  | Inst.Store aty ptr v _ _ => (ptr = cell -> aty = ty) /\ v <> cell
  | i => unread i cell
  end.

(** An access of the cell has no qualifier. *)
Definition unqualified (node : Node) : Prop :=
  match inst node with
  | Inst.Load _ ptr volatile align | Inst.Store _ ptr _ volatile align => ptr = cell -> volatile = false /\ align = None
  | _ => True
  end.

Lemma admitted_unqualified (node : Node) : admitted -> node ∈ nodes_of func -> unqualified node.
Proof.
  intros A Hn. destruct (admitted_nodes A) as [db Ok]. destruct (placed node Hn) as (k & at_ & Hk).
  specialize (Ok k _ Hk). unfold node_ok in Ok. cbn [fst snd] in Ok. unfold unqualified.
  destruct (inst node); try done; intros E; by split; apply Ok.
Qed.

Lemma admitted_node (node : Node) : admitted -> node ∈ nodes_of func -> allowed node.
Proof.
  intros A Hn. destruct (admitted_nodes A) as [db Ok]. destruct (placed node Hn) as (k & at_ & Hk).
  specialize (Ok k _ Hk). unfold node_ok in Ok. cbn [fst snd] in Ok. unfold allowed. destruct (inst node); try done.
  - intros E. by apply Ok.
  - destruct Ok as [Ok Ne]. split; [|done]. intros E. by apply Ok.
Qed.

Lemma allowed_non_escaping : (forall node, node ∈ nodes_of func -> allowed node) ->
  stack_alloca_pointer_is_non_escaping func cell = true /\ stack_alloca_cell_accesses_match_type func cell ty = true.
Proof.
  intros A. unfold stack_alloca_pointer_is_non_escaping, stack_alloca_cell_accesses_match_type.
  split; apply forallb_forall; intros node Hn%list_elem_of_In; pose proof (A node Hn) as Ok; unfold allowed in Ok.
  - destruct (inst node); try done;
      try (apply unread_spec in Ok as (uses & -> & Nc); apply negb_true_iff, not_true_iff_false; intros (u & Hu & <-%N.eqb_eq)%existsb_exists;
           by apply Nc, list_elem_of_In).
    apply negb_true_iff, N.eqb_neq. apply Ok.
  - destruct (inst node); try done.
    + destruct (N.eqb_spec ptr cell) as [E|]; [|done]. by rewrite bool_decide_true by auto.
    + destruct (N.eqb_spec ptr cell) as [E|]; [|done]. rewrite bool_decide_true by (by apply Ok). done.
Qed.

Lemma admitted_non_escaping : admitted -> stack_alloca_pointer_is_non_escaping func cell = true /\
  stack_alloca_cell_accesses_match_type func cell ty = true.
Proof. intros A. apply allowed_non_escaping. intros node Hn. by apply admitted_node. Qed.

Lemma admitted_derives v : admitted -> derives (nodes_of func) cell v -> v = cell.
Proof.
  intros A D. induction D as [|node base result Hn B _ -> Hr]; [done|]. pose proof (admitted_node node A Hn) as Ok. unfold allowed in Ok.
  inversion B as [? ? ? E|? E|? E]; rewrite <- E in Ok; destruct Ok as [_ Nr]; destruct Nr; cbn; auto.
Qed.

Lemma admitted_contained : admitted -> stack_alloca_escape_classification func cell = Contained.
Proof.
  intros A. apply (classification_spec func cell). intros node Hn. pose proof (admitted_node node A Hn) as Ok. unfold allowed in Ok.
  assert (D : forall v, derives (nodes_of func) cell v -> v = cell) by (intros v; by apply admitted_derives).
  assert (Ur : unread (inst node) cell -> contains_cell func cell node /\ ~ passes_cell func cell node).
  { intros [No Nr]. split; [split; [done|]|intros [_ N]]; [intros (v & Hv & ->%D); done|]. destruct N as (v & Hv & ->%D). done. }
  destruct (inst node) eqn:I; try (apply Ur, Ok); unfold contains_cell, passes_cell, tracked, is_call; rewrite I;
    (split; [split; [by inversion 1|]|by intros [? _]]); [done|]. intros _ E%D. by destruct Ok.
Qed.

Lemma widened nodes escape db : forall init, block_local_loop Unbounded cell ty db init nodes = None ->
  block_local_loop escape cell ty db init nodes = None.
Proof.
  induction nodes as [|p nodes IH]; intros init; [done|]. cbn [block_local_loop].
  assert (E : forall b, block_local_node Unbounded cell ty db init p = inr b -> block_local_node escape cell ty db init p = inr b).
  { intros b. unfold block_local_node. destruct p as [at_ node]. destruct (inst node); try done;
      (destruct (collect_inst_value_uses _); [|by rewrite (decide_True (P := Unbounded = Unbounded)) by done];
       rewrite (bool_decide_true (Unbounded = Unbounded)) by done; rewrite andb_true_r; by destruct (existsb _ _)). }
  destruct (block_local_node Unbounded cell ty db init p) as [r|b]; [done|]. rewrite (E b eq_refl). apply IH.
Qed.

(** No access comes before an allocation of the cell. *)
Definition allocated_first : Prop := forall b, b ∈ blocks func -> forall j k m n,
  body b !! j = Some m -> allocates cell m -> body b !! k = Some n -> loads cell n \/ stores cell n -> j < k.

Lemma executed_prefix (nodes : list Node) : executed nodes `prefix_of` nodes.
Proof.
  induction nodes as [|node nodes IH]; [done|]. cbn [executed]. destruct (is_terminator (inst node)).
  - by exists nodes.
  - by apply prefix_cons.
Qed.

(** A load has a store before it in its block. *)
Lemma load_after_store b k n : admitted -> NoDup (map block_id (blocks func)) -> b ∈ blocks func ->
  body b !! k = Some n -> loads cell n -> exists i s, i < k /\ body b !! i = Some s /\ stores cell s.
Proof.
  intros A Nd Hb Hk Ln. destruct (admitted_nodes A) as [db Ok]. apply list_elem_of_split in Hb as (l1 & l2 & E).
  set (P := fun bs : list (Block Payload) => concat (map (fun b => map (pair (block_id b)) (body b)) bs)) in *.
  assert (EP : placed_nodes func = P l1 ++ map (pair (block_id b)) (body b) ++ P l2)
    by (unfold placed_nodes, P; by rewrite E, map_app, concat_app).
  assert (Lb : forall j, j < length (body b) -> placed_nodes func !! (length (P l1) + j) = pair (block_id b) <$> body b !! j).
  { intros j Hj. rewrite EP, lookup_app_r by lia. replace (length (P l1) + j - length (P l1)) with j by lia.
    rewrite lookup_app_l by (rewrite length_map; lia). by rewrite list_lookup_fmap. }
  pose proof (Lb k ltac:(by eapply lookup_lt_Some)) as Hp. rewrite Hk in Hp. pose proof (Ok _ _ Hp) as O. unfold node_ok in O.
  unfold loads in Ln. cbn [fst snd] in O. destruct (inst n) eqn:I; try done. destruct (O Ln) as (<- & (i & q & Hi & Hq & Sq) & _).
  destruct (decide (i < length (P l1))) as [Lt|Ge].
  - exfalso. pose proof (Ok i q Hq) as Oq. unfold node_ok in Oq. unfold stores in Sq.
    destruct (inst (snd q)) eqn:Iq; try done. destruct Oq as [Oq _]. destruct (Oq Sq) as (Eq & _).
    rewrite EP, lookup_app_l in Hq by done. apply list_elem_of_lookup_2, list_elem_of_In, in_concat in Hq as (l & Hl & Hq).
    apply in_map_iff in Hl as (c & <- & Hc). apply in_map_iff in Hq as (m & <- & _). cbn in Eq.
    rewrite E, map_app in Nd. apply NoDup_app in Nd as (_ & Nd & _). apply (Nd (block_id b)); [|left].
    rewrite <- Eq. apply list_elem_of_fmap_2. by apply list_elem_of_In.
  - assert (Li : i - length (P l1) < length (body b)) by (pose proof (lookup_lt_Some _ _ _ Hk); lia).
    pose proof (Lb _ Li) as Hq'. replace (length (P l1) + (i - length (P l1))) with i in Hq' by lia. rewrite Hq in Hq'.
    destruct (body b !! (i - length (P l1))) as [s|] eqn:Hs; [|done]. injection Hq' as ->.
    exists (i - length (P l1)), s. split_and!; [lia|done|done].
Qed.

Lemma admitted_initialised : admitted -> NoDup (map block_id (blocks func)) -> allocated_first -> initialised func cell.
Proof.
  intros A Nd First. assert (Bl : forall b, b ∈ blocks func -> checked cell (executed (body b)) false = true).
  { intros b Hb. apply checked_safe. intros k n Hk Ln. destruct (executed_prefix (body b)) as [rest Er].
    assert (Pre : forall j m, executed (body b) !! j = Some m -> body b !! j = Some m)
      by (intros j m Hj; rewrite Er; by apply lookup_app_l_Some).
    destruct (load_after_store b k n A Nd Hb (Pre k n Hk) Ln) as (i & s & Hi & Hs & Ss).
    exists i, s. split_and!; [done| |done|].
    - rewrite Er, lookup_app_l in Hs; [done|]. pose proof (lookup_lt_Some _ _ _ Hk). lia.
    - intros j m Hj Hm Am. pose proof (First b Hb j i m s (Pre j m Hm) Am Hs (or_intror Ss)). lia. }
  assert (R : forall tr b, run func tr b -> checked cell tr false = true).
  { intros tr b R. induction R as [|tr b c R IH Gt Hc]; [done|]. rewrite checked_app, IH. cbn.
    eapply checked_mono; [|apply Bl; by eapply run_in]. done. }
  intros tr b Rb. apply checked_safe. rewrite checked_app, (R tr b Rb). cbn.
  eapply checked_mono; [|apply Bl; by eapply run_in]. done.
Qed.

(** the block-local lane admits what the boolean it replaced admitted, and what it
    admits is exact: the cell does not escape and no pointer is derived from it, its
    accesses are of its type, the widened lane admits it too, and in a function with
    distinct blocks that allocates before it accesses, every run writes the cell before
    it reads it. *)
Theorem block_local_sound :
  (block_local_alloca_reject false func cell ty = None <->
    block_local_alloca_is_admissible_reference func cell ty = true) /\
  (block_local_alloca_reject false func cell ty = None ->
    stack_alloca_pointer_is_non_escaping func cell = true /\
    stack_alloca_cell_accesses_match_type func cell ty = true /\
    stack_alloca_escape_classification func cell = Contained /\
    block_local_alloca_reject true func cell ty = None /\
    (NoDup (map block_id (blocks func)) -> allocated_first -> initialised func cell)).
Proof.
  split; [apply reject_parity|]. intros A. destruct (admitted_non_escaping A). split_and!; [done|done| | |].
  - by apply admitted_contained.
  - unfold block_local_alloca_reject in *. destruct (negb _ && negb _); [done|].
    destruct (find_definition_block func cell ty); [by apply widened|done].
  - by apply admitted_initialised.
Qed.

End Local.

End StackCellsSpec.
