(* ===== verification/Aggregates.v ===== *)
(** * Aggregate types of the Horn clause encoder

    Which types trust-mc-trust-bmc/src/translate_chc.rs takes apart into fields, how many
    scalar leaves they have, which stack cells it models exactly, and the shape of the
    values it keeps for them.  The tables a type refers to ([module.structs],
    [module.types]) are read through the type class [Tables]: they belong to the external
    crate [trust_ir]. *)

From S2P Require Import Prelude AyExpr Chc AyBuild AyTry TrustIr AyEncode BmcExpr StackCells.

Module Aggregates.
Import AyBuild AyTry AyEncode TrustIr BmcExpr StackCells.

(** What is behind a type: the types of the fields of [module.structs.get(id)], of the
    components of a tuple, [module.types.get(elem_id)] and the length of an array.
    [nesting] is how deeply types contain types: a value has finitely many parts, so no
    type of a module contains itself. *)
Class Tables `{TrustIr} := {
  struct_fields : Module_ Payload -> Payload -> option (list (Ty.Ty Payload));
  tuple_fields : Payload -> list (Ty.Ty Payload);
  array_elem : Module_ Payload -> Payload -> option (Ty.Ty Payload);
  array_len : Payload -> N;
  nesting : Module_ Payload -> Ty.Ty Payload -> nat;
}.

Section Types.
Context `{Tables}.
Notation Ty := (Ty.Ty Payload).
Implicit Types (module : Module_ Payload) (ty : Ty).

Definition MAX_AGGREGATE_LEAVES : N := 4096.

(** [is_scalar_field_ty] *)
Definition is_scalar_field_ty ty : bool := bool_decide (is_Some (bit_width_with ty HOST_POINTER_BITS)).

(** [immediate_aggregate_field_tys] *)
Definition immediate_aggregate_field_tys module ty : option (list Ty) :=
  match ty with
  | Ty.Struct id => struct_fields module id
  | Ty.Tuple fields => Some (tuple_fields fields)
  | Ty.Unit => Some []
  | Ty.Array p =>
      if (array_len p <=? 256)%N then
        elem ← array_elem module p;
        Some (replicate (N.to_nat (array_len p)) elem)
      else None
  | _ => None
  end.

(** The loop over the fields, given what the recursive call says of each *)
Fixpoint count_fields (leaves : Ty -> option (option N)) (budget total : N) (fields : list Ty) : option (option N) :=
  match fields with
  | [] => Some (Some total)
  | field :: fields =>
      counted ← leaves field;
      match counted, is_scalar_field_ty field with
      | None, false => Some None
      | _, _ =>
          let total := (total + default 1 counted)%N in
          if (budget <? total)%N then Some None else count_fields leaves budget total fields
      end
  end.

(** [aggregate_leaf_count_within] with a bound on its recursion, [None] where it is not
    enough *)
Fixpoint leaf_count_steps (fuel : nat) module ty (budget : N) : option (option N) :=
  match fuel with
  | O => None
  | S fuel =>
      match immediate_aggregate_field_tys module ty with
      | None => Some None
      | Some fields => count_fields (fun field => leaf_count_steps fuel module field budget) budget 0 fields
      end
  end.
Definition aggregate_leaf_count_within module ty (budget : N) : option N :=
  default None (leaf_count_steps (S (nesting module ty)) module ty budget).

(** [aggregate_field_tys_of] *)
Definition aggregate_field_tys_of module ty : option (list Ty) :=
  _ ← aggregate_leaf_count_within module ty MAX_AGGREGATE_LEAVES;
  immediate_aggregate_field_tys module ty.

(** [enum StackCellAdmission], [classify_aggregate_stack_cell] *)
Inductive StackCellAdmission := OpaqueSafe | RequiresNonEscape | NotAggregate.
Definition classify_aggregate_stack_cell module ty : StackCellAdmission :=
  if negb (is_aggregate_cell ty) then NotAggregate
  else if bool_decide (is_Some (aggregate_field_tys_of module ty)) then RequiresNonEscape else OpaqueSafe.

(** [stack_cell_is_translator_opaque], [promotable_cell_ty] *)
Definition stack_cell_is_translator_opaque module ty : bool :=
  negb (is_precise_stack_scalar_ty ty) && bool_decide (aggregate_field_tys_of module ty = None).
Definition promotable_cell_ty module ty : bool :=
  is_precise_stack_scalar_ty ty || bool_decide (is_Some (aggregate_field_tys_of module ty)).

(** [is_call_summary_scalar_ty], [is_call_summary_value_ty] *)
Definition is_call_summary_scalar_ty ty : bool :=
  is_precise_stack_scalar_ty ty || match ty with Ty.Ptr => true | _ => false end.
Definition is_call_summary_value_ty module ty : bool :=
  is_call_summary_scalar_ty ty || bool_decide (is_Some (aggregate_field_tys_of module ty)).

(** [is_thin_pointer_ty], [is_pointer_width_unsigned_ty] *)
Definition is_thin_pointer_ty ty : bool :=
  match ty with Ty.Ptr | Ty.PtrConst _ | Ty.PtrMut _ | Ty.Ref _ | Ty.RefMut _ | Ty.Rc _ => true | _ => false end.
Definition is_pointer_width_unsigned_ty ty : bool := match ty with Ty.U64 | Ty.Usize => true | _ => false end.

(** ** Newtypes of a pointer *)

Definition POINTER_NEWTYPE_FUEL : nat := 8.

(** [is_zero_sized_newtype_pad] *)
Fixpoint is_zero_sized_newtype_pad ty module (fuel : nat) : bool :=
  match fuel with
  | O => false
  | S fuel =>
      match ty with
      | Ty.Unit => true
      | _ =>
          match aggregate_field_tys_of module ty with
          | Some fields => forallb (fun f => is_zero_sized_newtype_pad f module fuel) fields
          | None => false
          end
      end
  end.

(** The fields that are no padding, with their positions *)
Definition non_pads module (fuel : nat) (fields : list Ty) : list (nat * Ty) :=
  filter (fun p => is_zero_sized_newtype_pad p.2 module fuel = false) (zip (seq 0 (length fields)) fields).

(** [pointer_newtype_field_path] *)
Fixpoint pointer_newtype_field_path ty module (fuel : nat) : option (list nat) :=
  match fuel with
  | O => None
  | S fuel =>
      if is_thin_pointer_ty ty then Some []
      else
        field_tys ← aggregate_field_tys_of module ty;
        match non_pads module (S fuel) field_tys with
        | [(idx, inner)] =>
            path ← pointer_newtype_field_path inner module fuel;
            Some (idx :: path)
        | _ => None
        end
  end.

End Types.

(** ** Values *)

(** [enum ValueBinding] with [struct AggregateValue] *)
Inductive ValueBinding `{AyExpr} :=
  | Scalar (e : Expr)
  | Aggregate (fields : list ValueBinding).

(** [ValueBinding::flat_args] *)
Fixpoint flat_args `{AyExpr} (b : ValueBinding) : list Expr :=
  match b with
  | Scalar e => [e]
  | Aggregate fields => concat (map flat_args fields)
  end.

Section Declare.
Context `{AyEncode} `{Tables}.
Notation Ty := (Ty.Ty Payload).

(** The variables of the system, and the sorts of the relation *)
Notation Declared := (Chc.ChcVc * list Sort)%type.

(** The loop over the fields of an aggregate *)
Fixpoint declare_fields (declare : Declared -> string -> Ty -> option (ValueBinding * Declared)) (st : Declared)
    (prefix : string) (index : nat) (field_tys : list Ty) : option (list ValueBinding * Declared) :=
  match field_tys with
  | [] => Some ([], st)
  | field_ty :: field_tys =>
      '(binding, st) ← declare st (prefix +:+ "_field" +:+ pretty index) field_ty;
      '(bindings, st) ← declare_fields declare st prefix (S index) field_tys;
      Some (binding :: bindings, st)
  end.

(** [declare_relation_binding_rec]; [None] is the panic of [ty_to_sort] *)
Fixpoint declare_steps (fuel : nat) (module : Module_ Payload) (st : Declared) (prefix : string) (ty : Ty) :
    option (ValueBinding * Declared) :=
  match aggregate_field_tys_of module ty, fuel with
  | Some field_tys, S fuel =>
      '(fields, st) ← declare_fields (declare_steps fuel module) st prefix 0 field_tys;
      Some (Aggregate fields, st)
  | _, _ =>
      sort ← ty_to_sort ty;
      let '(vc, e) := Chc.declare_var (fst st) prefix sort in
      Some (Scalar e, (vc, snd st ++ [sort]))
  end.
Definition declare_relation_binding_rec (module : Module_ Payload) (vc : Chc.ChcVc) (prefix : string) (ty : Ty)
    (arg_sorts : list Sort) : option (ValueBinding * (Chc.ChcVc * list Sort)) :=
  declare_steps (S (nesting module ty)) module (vc, arg_sorts) prefix ty.

End Declare.

End Aggregates.

(** * Leaves of aggregates

    What the leaf count says ([leaf_budget_exact]) and that the columns a relation is
    declared with are those a value of the type fills ([relation_columns]).  The laws of
    the type tables are a class: types nest finitely, an aggregate has no width, and the
    types of the width of an address are integer types. *)

Module AggregatesSpec.
Import AyBuild AyTry AyEncode TrustIr BmcExpr StackCells Aggregates.

Class TablesLaws `{Tables} := {
  nested : forall m ty fields f, immediate_aggregate_field_tys m ty = Some fields -> f ∈ fields ->
    (nesting m f < nesting m ty)%nat;
  aggregate_no_width : forall m ty fields, immediate_aggregate_field_tys m ty = Some fields ->
    bit_width_with ty HOST_POINTER_BITS = None;
  address_integer : forall ty, is_pointer_width_unsigned_ty ty = true -> is_integer ty = true;
}.

Section Leaves.
Context `{TablesLaws} (m : Module_ Payload).
Notation Ty := (Ty.Ty Payload).

(** ** The recursion ends *)

Lemma count_fields_ext (f g : Ty -> option (option N)) b fields : forall total,
  (forall x, x ∈ fields -> f x = g x) -> count_fields f b total fields = count_fields g b total fields.
Proof.
  induction fields as [|x fields IH]; intros total E; cbn; [done|]. rewrite (E x) by left.
  destruct (g x) as [c|]; cbn; [|done]. destruct c, (is_scalar_field_ty x); try done;
    (destruct (b <? _)%N; [done|]; apply IH; intros y Hy; apply E; by right).
Qed.

Lemma count_fields_returns (f : Ty -> option (option N)) b fields : forall total,
  (forall x, x ∈ fields -> is_Some (f x)) -> is_Some (count_fields f b total fields).
Proof.
  induction fields as [|x fields IH]; intros total E; cbn; [by eexists|]. destruct (E x) as [c Ec]; [left|].
  rewrite Ec. cbn. destruct c, (is_scalar_field_ty x); try (by eexists);
    (destruct (b <? _)%N; [by eexists|]; apply IH; intros y Hy; apply E; by right).
Qed.

(** One more than the nesting is enough, and more changes nothing. *)
Lemma leaf_steps_enough b : forall fuel fuel' ty, (nesting m ty < fuel)%nat -> (nesting m ty < fuel')%nat ->
  is_Some (leaf_count_steps fuel m ty b) /\ leaf_count_steps fuel m ty b = leaf_count_steps fuel' m ty b.
Proof.
  induction fuel as [|fuel IH]; intros fuel' ty L L'; [lia|]. destruct fuel' as [|fuel']; [lia|]. cbn.
  destruct (immediate_aggregate_field_tys m ty) as [fields|] eqn:I; [|by split; [eexists|]].
  assert (E : forall x, x ∈ fields -> is_Some (leaf_count_steps fuel m x b) /\
    leaf_count_steps fuel m x b = leaf_count_steps fuel' m x b).
  { intros x Hx. pose proof (nested m ty fields x I Hx). apply IH; lia. }
  split; [apply count_fields_returns|apply count_fields_ext]; intros x Hx; by apply E.
Qed.

Lemma leaf_count_unfold ty b : aggregate_leaf_count_within m ty b =
  match immediate_aggregate_field_tys m ty with
  | None => None
  | Some fields => default None (count_fields (fun f => Some (aggregate_leaf_count_within m f b)) b 0 fields)
  end.
Proof.
  unfold aggregate_leaf_count_within at 1. cbn [leaf_count_steps].
  destruct (immediate_aggregate_field_tys m ty) as [fields|] eqn:I; [|done]. f_equal. apply count_fields_ext.
  intros x Hx. pose proof (nested m ty fields x I Hx) as L. unfold aggregate_leaf_count_within.
  destruct (leaf_steps_enough b (nesting m ty) (S (nesting m x)) x) as [[r E] Eq]; [lia|lia|].
  rewrite <- Eq, E. done.
Qed.

(** ** The leaves *)

(** The scalar leaves of an aggregate, from left to right *)
Inductive flattens : Ty -> list Ty -> Prop :=
  | flattens_fields ty fields leaves : immediate_aggregate_field_tys m ty = Some fields ->
      Forall2 part fields leaves -> flattens ty (concat leaves)
with part : Ty -> list Ty -> Prop :=
  | part_nested ty leaves : flattens ty leaves -> part ty leaves
  | part_scalar ty : immediate_aggregate_field_tys m ty = None -> is_scalar_field_ty ty = true -> part ty [ty].

Lemma aggregate_not_scalar ty fields : immediate_aggregate_field_tys m ty = Some fields -> is_scalar_field_ty ty = false.
Proof. intros I. unfold is_scalar_field_ty. by rewrite (aggregate_no_width m ty fields I). Qed.

(** What one field adds *)
Definition weight (b : N) (f : Ty) : option N :=
  match aggregate_leaf_count_within m f b with
  | Some k => Some k
  | None => if is_scalar_field_ty f then Some 1%N else None
  end.

Lemma count_fields_cons b total f fields :
  count_fields (fun f => Some (aggregate_leaf_count_within m f b)) b total (f :: fields) =
  match weight b f with
  | None => Some None
  | Some k =>
      if (b <? total + k)%N then Some None
      else count_fields (fun f => Some (aggregate_leaf_count_within m f b)) b (total + k) fields
  end.
Proof. unfold weight. cbn [count_fields mbind option_bind]. by destruct (aggregate_leaf_count_within m f b), (is_scalar_field_ty f). Qed.

(** Where the field is counted right *)
Definition counted (b : N) (f : Ty) : Prop := forall k,
  aggregate_leaf_count_within m f b = Some k <-> exists ls, flattens f ls /\ N.of_nat (length ls) = k /\ (k <= b)%N.

Lemma weight_spec b f k : counted b f -> (k <= b)%N ->
  weight b f = Some k <-> exists ls, part f ls /\ N.of_nat (length ls) = k.
Proof.
  intros C Lk. unfold weight. destruct (aggregate_leaf_count_within m f b) as [c|] eqn:E.
  - pose proof E as (ls & Fl & Ll & Lb)%C. split.
    + intros [= ->]. exists ls. by split; [apply part_nested|].
    + intros (ls' & Pt & <-). inversion Pt as [? ? Fl'|? I Sc]; subst; [rewrite <- E; apply C; by exists ls'|inversion Fl; congruence].
  - split.
    + destruct (is_scalar_field_ty f) eqn:Sc; [|done]. intros [= <-]. exists [f]. split; [|done].
      apply part_scalar; [|done]. destruct (immediate_aggregate_field_tys m f) eqn:I; [|done].
      apply aggregate_not_scalar in I. congruence.
    + intros (ls & Pt & <-). inversion Pt as [? ? Fl'|? I Sc]; subst; [|by rewrite Sc].
      assert (X : aggregate_leaf_count_within m f b = Some (N.of_nat (length ls))) by (apply C; by exists ls).
      congruence.
Qed.

(** The loop *)
Lemma count_fields_spec b fields : forall total n, (forall f, f ∈ fields -> counted b f) -> (total <= b)%N ->
  count_fields (fun f => Some (aggregate_leaf_count_within m f b)) b total fields = Some (Some n) <->
  exists lss, Forall2 part fields lss /\ n = (total + N.of_nat (length (concat lss)))%N /\ (n <= b)%N.
Proof.
  induction fields as [|f fields IH]; intros total n C T.
  { cbn. split.
    - intros [= <-]. exists []. cbn. split_and!; [constructor|lia|done].
    - intros (lss & F & -> & _). inversion F; subst. cbn. do 2 f_equal. lia. }
  rewrite count_fields_cons. pose proof (fun k => weight_spec b f k (C f (list_elem_of_here _ _))) as Q.
  assert (Cs : forall g, g ∈ fields -> counted b g) by (intros; apply C; by right). split.
  - destruct (weight b f) as [k|]; [|done]. destruct (N.ltb_spec b (total + k)) as [|Lk]; [done|].
    intros (lss & F & -> & Ln)%IH; [|done|done]. destruct (proj1 (Q k ltac:(lia)) eq_refl) as (ls & Pt & Ls).
    exists (ls :: lss). cbn. rewrite length_app. split_and!; [by constructor|lia|lia].
  - intros (lss & F & -> & Ln). inversion F as [|? ls ? lss' Pt F']; subst. cbn in Ln |- *. rewrite length_app in *.
    rewrite (proj2 (Q (N.of_nat (length ls)) ltac:(lia))) by (by exists ls).
    rewrite (proj2 (N.ltb_ge _ _)) by lia. apply IH; [done|lia|]. exists lss'. split_and!; [done|lia|lia].
Qed.

Lemma leaf_count_spec b : forall k ty n, (nesting m ty < k)%nat ->
  aggregate_leaf_count_within m ty b = Some n <-> exists ls, flattens ty ls /\ N.of_nat (length ls) = n /\ (n <= b)%N.
Proof.
  induction k as [|k IH]; intros ty n L; [lia|]. rewrite leaf_count_unfold.
  destruct (immediate_aggregate_field_tys m ty) as [fields|] eqn:I.
  - assert (D : forall o : option (option N), default None o = Some n <-> o = Some (Some n)) by (intros [[?|]|]; cbn; naive_solver).
    rewrite D, count_fields_spec; [|intros f Hf c; apply IH; pose proof (nested m ty fields f I Hf); lia|lia]. split.
    + intros (lss & F & -> & Ln). exists (concat lss). split_and!; [by econstructor|lia|lia].
    + intros (ls & Fl & <- & Ln). inversion Fl as [? fs lss I' F]; subst. assert (fs = fields) as -> by congruence.
      exists lss. split_and!; [done|lia|done].
  - split; [done|]. intros (ls & Fl & _). inversion Fl; congruence.
Qed.

(** The bound is on the leaves of the whole type: an aggregate with a count has this many
    scalar leaves, and no more than the budget; every other has none. *)
Lemma leaf_count_exact b ty n : aggregate_leaf_count_within m ty b = Some n <->
  exists ls, flattens ty ls /\ N.of_nat (length ls) = n /\ (n <= b)%N.
Proof. apply (leaf_count_spec b (S (nesting m ty))). lia. Qed.

(** ** Trackable types *)

Lemma tracked_fields ty fields : aggregate_field_tys_of m ty = Some fields ->
  immediate_aggregate_field_tys m ty = Some fields /\ is_scalar_field_ty ty = false /\
  (exists ls, flattens ty ls /\ (N.of_nat (length ls) <= MAX_AGGREGATE_LEAVES)%N) /\
  forall f, f ∈ fields -> (nesting m f < nesting m ty)%nat /\
    (is_scalar_field_ty f = false -> is_Some (aggregate_field_tys_of m f)).
Proof.
  unfold aggregate_field_tys_of. destruct (aggregate_leaf_count_within m ty MAX_AGGREGATE_LEAVES) as [n|] eqn:C; [|done].
  cbn [mbind option_bind]. intros I. split; [done|]. split; [by eapply aggregate_not_scalar|].
  pose proof C as (ls & Fl & Ls & Lb)%leaf_count_exact. split; [exists ls; by rewrite Ls|].
  intros f Hf. split; [by eapply nested|]. intros Sc. inversion Fl as [? fs lss I' F]; subst. assert (fs = fields) as -> by congruence.
  apply list_elem_of_lookup in Hf as [i Hi]. destruct (Forall2_lookup_l _ _ _ _ _ F Hi) as (fl & Hl & Pt).
  inversion Pt as [? ? Ff|? If Sf]; subst; [|congruence].
  assert (Lc : (length fl <= length (concat lss))%nat).
  { apply list_elem_of_split_length in Hl as (l1 & l2 & -> & _). rewrite concat_app, length_app. cbn. rewrite length_app. lia. }
  assert (aggregate_leaf_count_within m f MAX_AGGREGATE_LEAVES = Some (N.of_nat (length fl))) as -> by
    (apply leaf_count_exact; exists fl; split_and!; [done|done|lia]).
  cbn. inversion Ff as [? fs' ? If]; subst. rewrite If. by eexists.
Qed.

End Leaves.

(** ** Values of a type *)

Section Values.
Context `{AyEncode} `{TablesLaws} (m : Module_ Payload).
Notation Ty := (Ty.Ty Payload).

(** The expression is of the sort, or the variable declared at it. *)
Definition of_sort (e : Expr) (s : Sort) : Prop := sort_of e = s \/ exists n, e = expr_var n s.

(** A value has the shape of its type: fields where the type is tracked, and one
    expression where it is not. *)
Inductive shaped : Ty -> ValueBinding -> Prop :=
  | shaped_scalar ty e s : aggregate_field_tys_of m ty = None -> ty_to_sort ty = Some s -> of_sort e s -> shaped ty (Scalar e)
  | shaped_fields ty tys fields : aggregate_field_tys_of m ty = Some tys -> Forall2 shaped tys fields -> shaped ty (Aggregate fields).

(** The columns of a type *)
Inductive columns : Ty -> list Sort -> Prop :=
  | columns_scalar ty s : aggregate_field_tys_of m ty = None -> ty_to_sort ty = Some s -> columns ty [s]
  | columns_fields ty tys sss : aggregate_field_tys_of m ty = Some tys -> Forall2 columns tys sss -> columns ty (concat sss).

(** A type has one list of columns, and every value of it fills them. *)
Lemma columns_filled : forall k ty ss b, (nesting m ty < k)%nat -> columns ty ss -> shaped ty b ->
  Forall2 of_sort (flat_args b) ss.
Proof.
  induction k as [|k IH]; intros ty ss b L C Sh; [lia|].
  inversion C as [? s A T|? tys sss A F]; subst; inversion Sh as [? e s' A' T' O|? tys' fields A' F']; subst; try congruence.
  - assert (s' = s) as -> by congruence. cbn. by apply Forall2_cons.
  - assert (tys' = tys) as -> by congruence. cbn. destruct (tracked_fields m ty tys A) as (_ & _ & _ & N).
    clear A A' C Sh. revert sss fields F F'. induction tys as [|t tys IHt]; intros sss fields F F'; inversion F; inversion F'; subst; [constructor|].
    cbn. apply Forall2_app; [|apply IHt; [intros; apply N; by right|done|done]].
    eapply IH; [|done|done]. destruct (N t) as [Ln _]; [left|]. lia.
Qed.

Lemma columns_count : forall k ty ss ls, (nesting m ty < k)%nat -> columns ty ss -> flattens m ty ls ->
  (N.of_nat (length ls) <= MAX_AGGREGATE_LEAVES)%N -> length ss = length ls.
Proof.
  induction k as [|k IH]; intros ty ss ls L C Fl B; [lia|].
  inversion C as [? s A T|? tys sss A F]; subst.
  { exfalso. unfold aggregate_field_tys_of in A.
    rewrite (proj2 (leaf_count_exact m _ ty _) (ex_intro _ ls (conj Fl (conj eq_refl B)))) in A.
    inversion Fl as [? ? ? I]; subst. cbn in A. congruence. }
  destruct (tracked_fields m ty tys A) as (I & _). inversion Fl as [? tys' lss I' P]; subst.
  assert (tys' = tys) as -> by congruence. assert (N : forall t, t ∈ tys -> (nesting m t < k)%nat).
  { intros t Ht. pose proof (nested m ty tys t I Ht). lia. }
  clear A I I' C Fl L. revert sss lss F P B. induction tys as [|t tys IHt]; intros sss lss F P B; inversion F; inversion P; subst; [done|].
  cbn [concat] in *. rewrite !length_app in *. f_equal.
  - match goal with H : part m t _ |- _ => inversion H; subst end.
    + eapply IH; [apply N; left|done|done|lia].
    + match goal with H : columns t _ |- _ => inversion H as [|? ? ? Ag]; subst end; [done|].
      apply (tracked_fields m) in Ag as (? & _). congruence.
  - apply IHt; [intros; apply N; by right|done|done|lia].
Qed.

Lemma columns_bounded ty ss : columns ty ss -> (N.of_nat (length ss) <= MAX_AGGREGATE_LEAVES)%N.
Proof.
  intros C. inversion C as [|? tys sss A F]; subst; [cbn; unfold MAX_AGGREGATE_LEAVES; lia|].
  destruct (tracked_fields m ty tys A) as (_ & _ & (ls & Fl & Ls) & _).
  by rewrite (columns_count (S (nesting m ty)) ty _ ls) by (done || lia).
Qed.

(** ** The declaration of a relation *)

Notation Declared := (Chc.ChcVc * list Sort)%type.

(** What a declaration returns: a value of the type, whose columns it has added *)
Definition declared (ty : Ty) (st : Declared) (o : option (ValueBinding * Declared)) : Prop :=
  forall b st', o = Some (b, st') -> shaped ty b /\ exists ss, columns ty ss /\ snd st' = snd st ++ ss.

Lemma declare_fields_spec one tys : forall st prefix index fields st',
  (forall t st p, t ∈ tys -> declared t st (one st p t)) ->
  declare_fields one st prefix index tys = Some (fields, st') ->
  Forall2 shaped tys fields /\ exists sss, Forall2 columns tys sss /\ snd st' = snd st ++ concat sss.
Proof.
  induction tys as [|t tys IH]; intros st prefix index fields st' D E; cbn in E.
  { injection E as <- <-. split; [constructor|]. exists []. split; [constructor|]. cbn. by rewrite app_nil_r. }
  destruct (one st _ t) as [[b st1]|] eqn:E1; [|done]. cbn in E.
  destruct (declare_fields one st1 prefix (S index) tys) as [[bs st2]|] eqn:E2; [|done]. cbn in E. injection E as <- <-.
  destruct (D t _ _ ltac:(left) _ _ E1) as (Sb & ss & C & S1).
  destruct (IH _ _ _ _ _ (fun t st p Ht => D t st p (list_elem_of_further _ _ _ Ht)) E2) as (F & sss & Cs & S2).
  split; [by constructor|]. exists (ss :: sss). split; [by constructor|]. cbn. by rewrite S2, S1, app_assoc.
Qed.

Lemma declare_steps_spec : forall k ty st prefix, (nesting m ty < k)%nat -> declared ty st (declare_steps k m st prefix ty).
Proof.
  induction k as [|k IH]; intros ty st prefix L b st' E; [lia|]. cbn [declare_steps] in E.
  destruct (aggregate_field_tys_of m ty) as [tys|] eqn:A.
  - destruct (declare_fields _ st prefix 0 tys) as [[fields st1]|] eqn:E1; [|done]. cbn in E. injection E as <- <-.
    apply declare_fields_spec in E1 as (F & sss & Cs & S1).
    + split; [by econstructor|]. exists (concat sss). split; [by econstructor|done].
    + intros t st2 p Ht. apply IH. destruct (tracked_fields m ty tys A) as (_ & _ & _ & N). destruct (N t Ht). lia.
  - destruct (ty_to_sort ty) as [s|] eqn:T; [|done]. cbn in E. injection E as <- <-. split.
    + econstructor; [done|done|]. right. by eexists.
    + exists [s]. split; [by constructor|done].
Qed.

End Values.

Section Relation.
Context `{AyEncode} `{TablesLaws}.

(** C24: a relation is applied to as many arguments, of the sorts, as it is declared with.
    Declaring a value of a type adds a column for each of its scalar leaves, at most 4096
    for one that is taken apart, in the order in which every value of the type has its
    expressions, the one the declaration returns included; the leaf count by which a type
    is taken apart is the number of its leaves, and a type whose count is over the budget
    is one column. *)
Theorem relation_columns (m : Module_ Payload) vc prefix ty sorts b vc' sorts' :
  declare_relation_binding_rec m vc prefix ty sorts = Some (b, (vc', sorts')) ->
  exists ss, sorts' = sorts ++ ss /\ columns m ty ss /\ shaped m ty b /\
    (forall b', shaped m ty b' -> Forall2 of_sort (flat_args b') ss) /\
    (forall ls, flattens m ty ls -> length ss = if (N.of_nat (length ls) <=? MAX_AGGREGATE_LEAVES)%N then length ls else 1%nat) /\
    (N.of_nat (length ss) <= MAX_AGGREGATE_LEAVES)%N.
Proof.
  intros E. destruct (declare_steps_spec m (S (nesting m ty)) ty (vc, sorts) prefix ltac:(lia) _ _ E) as (Sh & ss & C & Es).
  exists ss. split_and!; [done|done|done| | |by eapply columns_bounded].
  - intros b' Sb. apply (columns_filled m (S (nesting m ty)) ty); [lia|done|done].
  - intros ls Fl. destruct (N.leb_spec (N.of_nat (length ls)) MAX_AGGREGATE_LEAVES) as [Lb|Lb].
    + apply (columns_count m (S (nesting m ty)) ty); [lia|done|done|done].
    + inversion C as [|? tys sss A]; subst; [done|]. destruct (tracked_fields m ty tys A) as (_ & _ & (ls' & Fl' & Ls') & _).
      exfalso. assert (N.of_nat (length ls) = N.of_nat (length ls')); [|lia].
      enough (Some (N.of_nat (length ls)) = Some (N.of_nat (length ls'))) by congruence.
      rewrite <- (proj2 (leaf_count_exact m (N.of_nat (length ls)) ty (N.of_nat (length ls))) (ex_intro _ ls (conj Fl (conj eq_refl (N.le_refl _))))).
      apply leaf_count_exact. exists ls'. split_and!; [done|done|lia].
Qed.

End Relation.

End AggregatesSpec.
