(* ===== verification/ChcValues.v ===== *)
(** * Values in the Horn clause encoder

    How [ChcFuncTranslator] of trust-mc-trust-bmc/src/translate_chc.rs finds the
    expressions of a value, scalar or aggregate, makes fresh ones, updates aggregates,
    lowers casts, and merges the values of the return paths of a call.  The methods are
    steps of a state monad over the fields they touch; [None] is a panic, a Rust [None]
    is a result. *)

From S2P Require Import Prelude AyExpr AyBuild AyTry AyEncode Chc TrustIr BmcExpr StackCells Aggregates.

Module ChcValues.
Import AyBuild AyTry AyEncode TrustIr BmcExpr StackCells Aggregates.

(** [trust_ir::inst::CastOp], the operators the encoder names and the others *)
Inductive CastOp := ZExt | SExt | Trunc | Bitcast | PtrToInt | IntToPtr | PtrToPtr | OtherCast.

#[export] Instance CastOp_eq_dec : EqDecision CastOp.
Proof. solve_decision. Defined.

(** [sanitize_name] *)
Fixpoint sanitize_name (s : string) : string :=
  match s with
  | String c s =>
      let n := Ascii.N_of_ascii c in
      String (if ((48 <=? n) && (n <=? 57) || (65 <=? n) && (n <=? 90) || (97 <=? n) && (n <=? 122))%N then c else "_"%char)
        (sanitize_name s)
  | EmptyString => EmptyString
  end.

(** ** The state *)

Section State.
Context `{AyEncode}.

(** The fields of [struct ChcFuncTranslator] that say what values are *)
Record ChcFuncTranslator := {
  vc : Chc.ChcVc;
  values : gmap ValueId Expr;
  aggregates : gmap ValueId (list ValueBinding);
  ptr_parts : gmap ValueId (Expr * Expr);
  ptr_metadata_syms : gmap ValueId Expr;
  next_sym_id : N;
}.

Definition M (A : Type) : Type := ChcFuncTranslator -> option (A * ChcFuncTranslator).
#[export] Instance M_ret : MRet M := fun A a s => Some (a, s).
#[export] Instance M_bind : MBind M := fun A B f m s => '(a, s') ← m s; f a s'.

Definition gets {A} (f : ChcFuncTranslator -> A) : M A := fun s => Some (f s, s).
Definition lift {A} (o : option A) : M A := fun s => a ← o; Some (a, s).
Definition modify (f : ChcFuncTranslator -> ChcFuncTranslator) : M unit := fun s => Some (tt, f s).

(** The [?] on an [Option] inside a method: what was done so far stays done. *)
Definition and_then {A B} (m : M (option A)) (f : A -> M (option B)) : M (option B) :=
  a ← m; match a with Some a => f a | None => mret None end.

Definition set_value (v : ValueId) (e : Expr) (s : ChcFuncTranslator) : ChcFuncTranslator :=
  {| vc := vc s; values := <[v := e]> (values s); aggregates := aggregates s; ptr_parts := ptr_parts s;
     ptr_metadata_syms := ptr_metadata_syms s; next_sym_id := next_sym_id s |}.
Definition set_aggregate (v : ValueId) (fields : list ValueBinding) (s : ChcFuncTranslator) : ChcFuncTranslator :=
  {| vc := vc s; values := values s; aggregates := <[v := fields]> (aggregates s); ptr_parts := ptr_parts s;
     ptr_metadata_syms := ptr_metadata_syms s; next_sym_id := next_sym_id s |}.
Definition declare (name : string) (sort : Sort) (s : ChcFuncTranslator) : ChcFuncTranslator :=
  {| vc := fst (Chc.declare_var (vc s) name sort); values := values s; aggregates := aggregates s;
     ptr_parts := ptr_parts s; ptr_metadata_syms := ptr_metadata_syms s; next_sym_id := (next_sym_id s + 1)%N |}.
(** The parts and the length of a fat pointer go from one value to another, if known. *)
Definition forward_parts (operand result : ValueId) (s : ChcFuncTranslator) : ChcFuncTranslator :=
  {| vc := vc s; values := values s; aggregates := aggregates s;
     ptr_parts := match ptr_parts s !! operand with Some parts => <[result := parts]> (ptr_parts s) | None => ptr_parts s end;
     ptr_metadata_syms :=
       match ptr_metadata_syms s !! operand with
       | Some sym => <[result := sym]> (ptr_metadata_syms s)
       | None => ptr_metadata_syms s
       end;
     next_sym_id := next_sym_id s |}.

End State.

(** ** Fresh values *)

Section Values.
Context `{AyEncode} `{Tables}.
Context (func : Function_ Payload) (module : Module_ Payload).
Notation Ty := (Ty.Ty Payload).
Notation Node := (InstrNode Payload).

Definition aggregate_field_tys (ty : Ty) : option (list Ty) := aggregate_field_tys_of module ty.

(** [fresh_symbolic] *)
Definition fresh_symbolic (prefix : string) (ty : Ty) : M Expr :=
  id ← gets next_sym_id;
  let name := sanitize_name (func_name func) +:+ "_" +:+ prefix +:+ "_" +:+ pretty id in
  sort ← lift (ty_to_sort ty);
  modify (declare name sort);;
  mret (expr_var name sort).

(** [resolve] *)
Definition resolve (value : ValueId) (ty : Ty) : M Expr :=
  known ← gets (fun s => values s !! value);
  match known with
  | Some e => mret e
  | None =>
      e ← fresh_symbolic ("v" +:+ pretty value) ty;
      modify (set_value value e);;
      mret e
  end.

(** [resolve_switch_selector] *)
Definition resolve_switch_selector (value : ValueId) : M Expr :=
  known ← gets (fun s => values s !! value);
  match known with Some e => mret e | None => resolve value Ty.I64 end.

(** The loop over the fields of an aggregate *)
Fixpoint field_bindings (one : string -> Ty -> M (option ValueBinding)) (label : string) (index : nat)
    (field_tys : list Ty) : M (option (list ValueBinding)) :=
  match field_tys with
  | [] => mret (Some [])
  | field_ty :: field_tys =>
      and_then (one (label +:+ pretty index) field_ty) (fun binding =>
      and_then (field_bindings one label (S index) field_tys) (fun bindings =>
      mret (Some (binding :: bindings))))
  end.

(** [resolve_field_binding] *)
Fixpoint resolve_field_steps (fuel : nat) (prefix : string) (ty : Ty) : M (option ValueBinding) :=
  if is_scalar_field_ty ty then e ← fresh_symbolic prefix ty; mret (Some (Scalar e))
  else
    match aggregate_field_tys ty, fuel with
    | Some field_tys, S fuel =>
        and_then (field_bindings (resolve_field_steps fuel) (prefix +:+ "_f") 0 field_tys) (fun fields =>
        mret (Some (Aggregate fields)))
    | _, _ => mret None
    end.
Definition resolve_field_binding (prefix : string) (ty : Ty) : M (option ValueBinding) :=
  resolve_field_steps (S (nesting module ty)) prefix ty.

(** [fresh_stack_cell_value] *)
Definition fresh_stack_cell_value (ty : Ty) : M (option ValueBinding) :=
  match aggregate_field_tys ty with
  | Some field_tys =>
      and_then (field_bindings resolve_field_binding "stack_init_field" 0 field_tys) (fun fields =>
      mret (Some (Aggregate fields)))
  | None =>
      if is_precise_stack_scalar_ty ty then e ← fresh_symbolic "stack_init" ty; mret (Some (Scalar e))
      else mret None
  end.

(** [fresh_call_summary_value] *)
Definition fresh_call_summary_value (prefix : string) (ty : Ty) : M (option ValueBinding) :=
  if is_call_summary_scalar_ty ty then e ← fresh_symbolic prefix ty; mret (Some (Scalar e))
  else
    match aggregate_field_tys ty with
    | Some field_tys =>
        and_then (field_bindings resolve_field_binding (prefix +:+ "_field") 0 field_tys) (fun fields =>
        mret (Some (Aggregate fields)))
    | None => mret None
    end.

(** [resolve_aggregate] *)
Definition resolve_aggregate (value : ValueId) (ty : Ty) : M (option (list ValueBinding)) :=
  known ← gets (fun s => aggregates s !! value);
  match known with
  | Some fields => mret (Some fields)
  | None =>
      match aggregate_field_tys ty with
      | Some field_tys =>
          and_then (field_bindings resolve_field_binding ("v" +:+ pretty value +:+ "_field") 0 field_tys) (fun fields =>
          modify (set_aggregate value fields);;
          mret (Some fields))
      | None => mret None
      end
  end.

(** [resolve_call_summary_argument] *)
Definition resolve_call_summary_argument (value : ValueId) (ty : Ty) : M (option ValueBinding) :=
  if is_call_summary_scalar_ty ty then e ← resolve value ty; mret (Some (Scalar e))
  else
    match aggregate_field_tys ty with
    | Some _ => and_then (resolve_aggregate value ty) (fun fields => mret (Some (Aggregate fields)))
    | None => mret None
    end.

(** [flatten_value_for_relation] *)
Definition flatten_value_for_relation (value : ValueId) (ty : Ty) : M (list Expr) :=
  fields ← resolve_aggregate value ty;
  match fields with
  | Some fields => mret (flat_args (Aggregate fields))
  | None => e ← resolve value ty; mret [e]
  end.

(** [bind_first_result], [bind_aggregate_result], [bind_call_result] *)
Definition bind_first_result (node : Node) (e : Expr) : M unit :=
  match results node with result :: _ => modify (set_value result e) | [] => mret tt end.
Definition bind_aggregate_result (node : Node) (fields : list ValueBinding) (ty : Ty) : M unit :=
  match results node with
  | result :: _ =>
      opaque ← fresh_symbolic "aggregate" ty;
      modify (set_value result opaque);;
      modify (set_aggregate result fields)
  | [] => mret tt
  end.
Definition bind_call_result (result : ValueId) (binding : ValueBinding) (ty : Ty) : M unit :=
  match binding with
  | Scalar e => modify (set_value result e)
  | Aggregate fields =>
      opaque ← fresh_symbolic "call_aggregate" ty;
      modify (set_value result opaque);;
      modify (set_aggregate result fields)
  end.

(** [bind_symbolic_call_results] *)
Fixpoint bind_symbolic_results (prefix : string) (return_tys : option (list Ty)) (index : nat) (rs : list ValueId) : M unit :=
  match rs with
  | [] => mret tt
  | result :: rs =>
      let ty := default Ty.I64 (tys ← return_tys; tys !! index) in
      binding ← fresh_call_summary_value prefix ty;
      match binding with
      | Some binding => bind_call_result result binding ty
      | None => e ← fresh_symbolic prefix ty; modify (set_value result e)
      end;;
      bind_symbolic_results prefix return_tys (S index) rs
  end.
Definition bind_symbolic_call_results (callee_name : string) (return_tys : option (list Ty)) (node : Node) : M unit :=
  bind_symbolic_results ("call_" +:+ sanitize_name callee_name) return_tys 0 (results node).

(** ** Updates of aggregates *)

(** [eval_extract_field] *)
Definition eval_extract_field (aggregate : ValueId) (field : N) : M (option ValueBinding) :=
  gets (fun s => fields ← aggregates s !! aggregate; fields !! N.to_nat field).

(** The part of an update both operations share: the lane at an index is replaced. *)
Definition replace_lane (ty : Ty) (aggregate : ValueId) (index : nat) (value : ValueId) (field_tys : list Ty) (value_ty : Ty) :
    M (option (list ValueBinding)) :=
  and_then (resolve_aggregate aggregate ty) (fun fields =>
    if negb (length fields =? length field_tys)%nat then mret None
    else if is_scalar_field_ty value_ty then
      e ← resolve value value_ty;
      mret (Some (<[index := Scalar e]> fields))
    else
      and_then (resolve_aggregate value value_ty) (fun nested =>
      mret (Some (<[index := Aggregate nested]> fields)))).

(** [eval_insert_field] *)
Definition eval_insert_field (ty : Ty) (aggregate : ValueId) (field : N) (value : ValueId) : M (option (list ValueBinding)) :=
  match aggregate_field_tys ty with
  | None => mret None
  | Some field_tys =>
      match field_tys !! N.to_nat field with
      | None => mret None
      | Some value_ty => replace_lane ty aggregate (N.to_nat field) value field_tys value_ty
      end
  end.

(** [constant_lane_index]; the number is a [usize] *)
Definition constant_lane_index (index : ValueId) : M (option nat) :=
  gets (fun s =>
    e ← values s !! index;
    match value e with
    | Const (BitVecConst value width) =>
        if (width <=? N.size (Z.to_N value))%N then None
        else if (value <? 2 ^ 64)%Z then Some (Z.to_nat value) else None
    | _ => None
    end).

(** [eval_insert_element] *)
Definition eval_insert_element (ty : Ty) (array index value : ValueId) : M (option (list ValueBinding)) :=
  match aggregate_field_tys ty with
  | None => mret None
  | Some field_tys =>
      and_then (constant_lane_index index) (fun element_index =>
        match field_tys !! element_index with
        | None => mret None
        | Some element_ty => replace_lane ty array element_index value field_tys element_ty
        end)
  end.

(** ** Newtypes of a pointer *)

(** [unwrap_pointer_newtype]: down the path to the leaf *)
Fixpoint unwrap_path (binding : ValueBinding) (path : list nat) : option Expr :=
  match path, binding with
  | [], Scalar e => Some e
  | idx :: path, Aggregate fields => binding ← fields !! idx; unwrap_path binding path
  | _, _ => None
  end.
Definition unwrap_pointer_newtype (operand : ValueId) (src_ty : Ty) (path : list nat) : M (option Expr) :=
  and_then (resolve_aggregate operand src_ty) (fun fields => mret (unwrap_path (Aggregate fields) path)).

(** [wrap_pointer_newtype]: the nested wrapping of the target field, fresh padding *)
Fixpoint wrap_fields (inner : Ty -> M (option ValueBinding)) (target i : nat) (field_tys : list Ty) : M (option (list ValueBinding)) :=
  match field_tys with
  | [] => mret (Some [])
  | field_ty :: field_tys =>
      and_then (if (i =? target)%nat then inner field_ty else fresh_call_summary_value ("newtype_pad" +:+ pretty i) field_ty)
        (fun field =>
      and_then (wrap_fields inner target (S i) field_tys) (fun fields => mret (Some (field :: fields))))
  end.
Fixpoint wrap_pointer_newtype (ptr : Expr) (dst_ty : Ty) (path : list nat) : M (option (list ValueBinding)) :=
  match aggregate_field_tys dst_ty, path with
  | Some field_tys, target :: rest =>
      wrap_fields (fun field_ty =>
        match rest with
        | [] => mret (Some (Scalar ptr))
        | _ => and_then (wrap_pointer_newtype ptr field_ty rest) (fun nested => mret (Some (Aggregate nested)))
        end) target 0 field_tys
  | _, _ => mret None
  end.

End Values.

(** ** Casts *)

Section Casts.
Context `{AyEncode} `{Tables}.
Notation Ty := (Ty.Ty Payload).
Notation Node := (InstrNode Payload).
Implicit Types (src_ty dst_ty : Ty).

Definition POINTER_WIDTH : N := 64.

(** [resize_bitvec_unsigned], [resize_bitvec_for_int_to_ptr] *)
Definition resize_bitvec_unsigned (e : Expr) (src_width dst_width : N) : Expr :=
  if (src_width =? dst_width)%N then e
  else if (src_width <? dst_width)%N then mk_unary (BvZeroExtend (dst_width - src_width)) e
  else mk_unary (BvExtract (dst_width - 1) 0) e.
Definition resize_bitvec_for_int_to_ptr (e : Expr) src_ty (src_width : N) : Expr :=
  if (src_width =? POINTER_WIDTH)%N then e
  else if (src_width <? POINTER_WIDTH)%N then
    if is_signed src_ty then mk_unary (BvSignExtend (POINTER_WIDTH - src_width)) e
    else mk_unary (BvZeroExtend (POINTER_WIDTH - src_width)) e
  else mk_unary (BvExtract (POINTER_WIDTH - 1) 0) e.

(** [cast_operand_in_src_carrier]; the outer [option] is the panic *)
Definition cast_operand_in_src_carrier src_ty (operand : Expr) : option (option Expr) :=
  coerced ← normalize_expr_to_ty operand src_ty;
  sort ← ty_to_sort src_ty;
  Some (if decide (sort_of coerced = sort) then Some coerced else None).

(** The arms of [eval_cast_expr], on the coerced operand *)
Definition cast_coerced (op : CastOp) src_ty dst_ty (operand : Expr) : option Expr :=
  if bool_decide (op ∈ [ZExt; SExt; Trunc]) && is_integer src_ty && is_integer dst_ty then
    src_width ← bit_width_with src_ty HOST_POINTER_BITS;
    dst_width ← bit_width_with dst_ty HOST_POINTER_BITS;
    if (src_width =? dst_width)%N then Some operand
    else
      match op with
      | ZExt => if (src_width <? dst_width)%N then Some (mk_unary (BvZeroExtend (dst_width - src_width)) operand) else None
      | SExt => if (src_width <? dst_width)%N then Some (mk_unary (BvSignExtend (dst_width - src_width)) operand) else None
      | Trunc => if (dst_width <? src_width)%N then Some (mk_unary (BvExtract (dst_width - 1) 0) operand) else None
      | _ => None
      end
  else if match src_ty with Ty.Bool => is_integer dst_ty | _ => false end then
    dst_width ← bit_width_with dst_ty HOST_POINTER_BITS;
    Some (ite operand (bitvec_const 1 dst_width) (bitvec_const 0 dst_width))
  else if bool_decide (op = Bitcast) && is_integer src_ty && is_integer dst_ty then
    src_width ← bit_width_with src_ty HOST_POINTER_BITS;
    dst_width ← bit_width_with dst_ty HOST_POINTER_BITS;
    if (src_width =? dst_width)%N then Some operand else None
  else if bool_decide (op = PtrToInt) && is_thin_pointer_ty src_ty && is_integer dst_ty then
    dst_width ← bit_width_with dst_ty HOST_POINTER_BITS;
    Some (resize_bitvec_unsigned operand POINTER_WIDTH dst_width)
  else if bool_decide (op = IntToPtr) && is_integer src_ty && is_thin_pointer_ty dst_ty then
    src_width ← bit_width_with src_ty HOST_POINTER_BITS;
    Some (resize_bitvec_for_int_to_ptr operand src_ty src_width)
  else if bool_decide (op ∈ [PtrToPtr; Bitcast]) && is_thin_pointer_ty src_ty && is_thin_pointer_ty dst_ty then Some operand
  else None.

(** [eval_cast_expr] *)
Definition eval_cast_expr (op : CastOp) src_ty dst_ty (operand : Expr) : option (option Expr) :=
  coerced ← cast_operand_in_src_carrier src_ty operand;
  Some (operand ← coerced; cast_coerced op src_ty dst_ty operand).

(** [eval_cast] *)
Definition eval_cast (func : Function_ Payload) (op : CastOp) src_ty dst_ty (operand : ValueId) : M (option (Expr * Expr)) :=
  raw ← resolve func operand src_ty;
  coerced ← lift (cast_operand_in_src_carrier src_ty raw);
  match coerced with
  | None => mret None
  | Some operand =>
      result ← lift (eval_cast_expr op src_ty dst_ty operand);
      mret (result ← result; Some (operand, result))
  end.

(** The condition of the lossless-narrowing obligation of [translate_node], where a cast
    has one *)
Definition lossy_condition (op : CastOp) src_ty dst_ty (src_val : Expr) : option Expr :=
  if bool_decide (op = Trunc) && is_integer src_ty && is_integer dst_ty then
    src_w ← bit_width_with src_ty HOST_POINTER_BITS;
    dst_w ← bit_width_with dst_ty HOST_POINTER_BITS;
    if (dst_w <? src_w)%N then
      let kept := mk_unary (BvExtract (dst_w - 1) 0) src_val in
      let reext :=
        if is_signed dst_ty then mk_unary (BvSignExtend (src_w - dst_w)) kept
        else mk_unary (BvZeroExtend (src_w - dst_w)) kept in
      Some (mk_unary Not (mk_eq src_val reext))
    else None
  else None.

(** How a cast was lowered: to an exact value, to one with an obligation, or to a fresh
    value with an error *)
Inductive CastOutcome := Lowered | Obliged (lossy : Expr) | UnsupportedCast.

Section Node.
Context (func : Function_ Payload) (module : Module_ Payload) (node : Node).

(** A leg that wraps or unwraps a pointer: [true] when it has bound the result *)
Definition unwrap_leg src_ty (operand : ValueId) (path : option (list nat)) : M bool :=
  match path with
  | None => mret false
  | Some path =>
      ptr ← unwrap_pointer_newtype func module operand src_ty path;
      match ptr with Some ptr => bind_first_result node ptr;; mret true | None => mret false end
  end.
Definition wrap_leg src_ty dst_ty (operand : ValueId) (path : option (list nat)) : M bool :=
  match path with
  | None => mret false
  | Some path =>
      ptr ← resolve func operand src_ty;
      agg ← wrap_pointer_newtype func module ptr dst_ty path;
      match agg with Some agg => bind_aggregate_result func node agg dst_ty;; mret true | None => mret false end
  end.
Definition non_empty (path : option (list nat)) : option (list nat) :=
  match path with Some [] => None | _ => path end.

(** The legs for newtypes, one of which is tried *)
Definition newtype_legs (op : CastOp) src_ty dst_ty (operand : ValueId) : M bool :=
  let path ty := pointer_newtype_field_path ty module POINTER_NEWTYPE_FUEL in
  if is_thin_pointer_ty dst_ty && negb (is_thin_pointer_ty src_ty) then unwrap_leg src_ty operand (path src_ty)
  else if is_thin_pointer_ty src_ty && negb (is_thin_pointer_ty dst_ty) then wrap_leg src_ty dst_ty operand (path dst_ty)
  else if bool_decide (op = Bitcast) && is_pointer_width_unsigned_ty src_ty && negb (is_thin_pointer_ty dst_ty) then
    wrap_leg src_ty dst_ty operand (non_empty (path dst_ty))
  else if bool_decide (op = Bitcast) && is_pointer_width_unsigned_ty dst_ty && negb (is_thin_pointer_ty src_ty) then
    unwrap_leg src_ty operand (non_empty (path src_ty))
  else mret false.

Definition is_fat_pointer_ty (ty : Ty) : bool := match ty with Ty.FatPtr _ => true | _ => false end.

(** The [Cast] arm of [translate_node] *)
Definition translate_cast `{!EqDecision Payload} (op : CastOp) src_ty dst_ty (operand : ValueId) : M CastOutcome :=
  bound ← newtype_legs op src_ty dst_ty operand;
  if bound : bool then mret Lowered
  else if bool_decide (op ∈ [Bitcast; PtrToPtr]) && bool_decide (src_ty = dst_ty) && is_fat_pointer_ty src_ty then
    value ← resolve func operand src_ty;
    bind_first_result node value;;
    match results node with result :: _ => modify (forward_parts operand result) | [] => mret tt end;;
    mret Lowered
  else if bool_decide (op ∈ [Bitcast; PtrToPtr]) && is_fat_pointer_ty src_ty && is_thin_pointer_ty dst_ty then
    parts ← gets (fun s => ptr_parts s !! operand);
    data ← match parts with Some (data, _) => mret data | None => resolve func operand src_ty end;
    bind_first_result node data;;
    mret Lowered
  else
    evaluated ← eval_cast func op src_ty dst_ty operand;
    match evaluated with
    | Some (src_val, result) =>
        bind_first_result node result;;
        mret (match lossy_condition op src_ty dst_ty src_val with Some lossy => Obliged lossy | None => Lowered end)
    | None =>
        result ← fresh_symbolic func "unsupported_result" dst_ty;
        bind_first_result node result;;
        mret UnsupportedCast
    end.

End Node.

(** [proof_grade_cast_is_admissible] *)
Definition proof_grade_cast_is_admissible `{!EqDecision Payload} (module : Module_ Payload) (op : CastOp) src_ty dst_ty : bool :=
  let is_newtype_struct ty :=
    negb (is_thin_pointer_ty ty) &&
    match pointer_newtype_field_path ty module POINTER_NEWTYPE_FUEL with Some (_ :: _) => true | _ => false end in
  match op with
  | Bitcast | PtrToPtr =>
      let thin_thin := is_thin_pointer_ty src_ty && is_thin_pointer_ty dst_ty in
      let fat_same := bool_decide (src_ty = dst_ty) && is_fat_pointer_ty src_ty in
      if decide (op = PtrToPtr) then thin_thin || fat_same
      else
        thin_thin || fat_same || is_thin_pointer_ty src_ty && is_newtype_struct dst_ty ||
        is_newtype_struct src_ty && is_thin_pointer_ty dst_ty ||
        is_pointer_width_unsigned_ty src_ty && is_newtype_struct dst_ty ||
        is_newtype_struct src_ty && is_pointer_width_unsigned_ty dst_ty ||
        is_integer src_ty && is_integer dst_ty &&
        match bit_width_with src_ty HOST_POINTER_BITS, bit_width_with dst_ty HOST_POINTER_BITS with
        | Some src_width, Some dst_width => (src_width =? dst_width)%N
        | _, _ => false
        end
  | PtrToInt => is_thin_pointer_ty src_ty && is_pointer_width_unsigned_ty dst_ty
  | _ => false
  end.

End Casts.

(** ** The values of a call *)

Section Summary.
Context `{AyEncode} `{Tables}.
Notation Ty := (Ty.Ty Payload).

(** [struct CallSummaryReturn] *)
Record CallSummaryReturn := { returned : list ValueBinding; path_conditions : list Expr }.

(** [call_summary_scalar], [call_summary_aggregate], [call_summary_bool],
    [call_summary_value] *)
Definition call_summary_scalar (vs : gmap ValueId ValueBinding) (value : ValueId) : option Expr :=
  match vs !! value with Some (Scalar e) => Some e | _ => None end.
Definition call_summary_aggregate (vs : gmap ValueId ValueBinding) (value : ValueId) : option (list ValueBinding) :=
  match vs !! value with Some (Aggregate fields) => Some fields | _ => None end.
Definition call_summary_bool (vs : gmap ValueId ValueBinding) (value : ValueId) : option Expr :=
  e ← call_summary_scalar vs value;
  if is_bool_sort (sort_of e) then Some e else None.
Definition call_summary_value (vs : gmap ValueId ValueBinding) (value : ValueId) (ty : Ty) : option ValueBinding :=
  if is_call_summary_scalar_ty ty then Scalar <$> call_summary_scalar vs value
  else Aggregate <$> call_summary_aggregate vs value.

(** [bind_call_summary_result] *)
Definition bind_call_summary_result (vs : gmap ValueId ValueBinding) (node : InstrNode Payload) (binding : ValueBinding) :
    option (gmap ValueId ValueBinding) :=
  match results node with result :: _ => Some (<[result := binding]> vs) | [] => None end.

(** [call_summary_path_condition], [call_summary_guarded_condition] *)
Definition call_summary_path_condition (conditions : list Expr) : Expr :=
  match conditions with [] => bool_const true | [condition] => condition | _ => and_many conditions end.
Definition call_summary_guarded_condition (conditions : list Expr) (condition : Expr) : Expr :=
  match conditions with [] => condition | _ => and_many (conditions ++ [condition]) end.

(** [combine_call_summary_binding] *)
Fixpoint combine_call_summary_binding (guard : Expr) (then_value else_value : ValueBinding) : option ValueBinding :=
  match then_value, else_value with
  | Scalar then_expr, Scalar else_expr => Scalar <$> try_ite guard then_expr else_expr
  | Aggregate thens, Aggregate elses =>
      if (length thens =? length elses)%nat then
        Aggregate <$>
        (fix merge (thens elses : list ValueBinding) : option (list ValueBinding) :=
          match thens, elses with
          | t :: thens, e :: elses =>
              field ← combine_call_summary_binding guard t e;
              fields ← merge thens elses;
              Some (field :: fields)
          | _, _ => Some []
          end) thens elses
      else None
  | _, _ => None
  end.

(** The value at an index, from the last path to the first *)
Fixpoint combine_paths (index : nat) (combined : ValueBinding) (paths : list CallSummaryReturn) : option ValueBinding :=
  match paths with
  | [] => Some combined
  | path :: paths =>
      value ← returned path !! index;
      combined ← combine_call_summary_binding (call_summary_path_condition (path_conditions path)) value combined;
      combine_paths index combined paths
  end.

(** [combine_call_summary_returns] *)
Definition combine_call_summary_returns (return_paths : list CallSummaryReturn) (return_count : nat) :
    option (list ValueBinding) :=
  match rev return_paths with
  | [] => None
  | last :: paths =>
      mapM (fun return_index => first ← returned last !! return_index; combine_paths return_index first paths)
        (seq 0 return_count)
  end.

End Summary.

End ChcValues.
