(* ===== verification/ChcValuesSpec.v ===== *)
(** * Values of the Horn clause encoder

    Three modules on [ChcValues]: [CastSpec] on casts of integers, [NewtypeSpec] on casts
    that only rename an address, [CallReturnsSpec] on the value of a summarised call.

    ** Casts of integers

    [eval_cast_expr] and the obligation of a narrowing cast against the conversions of
    SMT-LIB bit-vectors ([converted]) and the numbers they stand for. *)

From S2P Require Import Prelude AyExpr BvArith AyBuild ConstEvalSpec AyTry F64 TrustIr AyEncode BmcExpr BmcArith StackCells Aggregates ChcValues.

Module CastSpec.
Import BvArith AyBuild AyTry AyEncode TrustIr BmcExpr BmcArith Aggregates ChcValues.

(** ** The reference *)

(** The bits of a cast from [w] to [v] bits, where the operator has this direction *)
Definition converted (op : CastOp) (w v : N) (x : Z) : option Z :=
  match op with
  | ZExt => if (w <=? v)%N then Some x else None
  | SExt => if (w <=? v)%N then Some (number true w x mod card v)%Z else None
  | Trunc => if (v <=? w)%N then Some (x mod card v)%Z else None
  | Bitcast => if (w =? v)%N then Some x else None
  | _ => None
  end.

Lemma card_divides w v : (v <= w)%N -> (card v | card w)%Z.
Proof.
  intros L. exists (2 ^ (Z.of_N w - Z.of_N v))%Z. unfold card. rewrite <- Z.pow_add_r by lia. f_equal. lia.
Qed.

Lemma mod_mod_card w v z : (v <= w)%N -> ((z mod card w) mod card v = z mod card v)%Z.
Proof. intros L. symmetry. apply Znumtheory.Zmod_div_mod; [apply card_pos|apply card_pos|by apply card_divides]. Qed.

Lemma fits_wider s v w z : (0 < v)%N -> (v <= w)%N -> fits s v z = true -> fits s w z = true.
Proof.
  intros P L. unfold fits. destruct s; rewrite !andb_true_iff, !Z.leb_le, !Z.ltb_lt.
  - assert (2 ^ (Z.of_N v - 1) <= 2 ^ (Z.of_N w - 1))%Z by (apply Z.pow_le_mono_r; lia). lia.
  - assert (card v <= card w)%Z by (apply Z.pow_le_mono_r; lia). lia.
Qed.

(** A number fits in fewer bits exactly when extending its low bits gives it back. *)
Lemma kept_low_bits s w v x : (0 < v)%N -> (v <= w)%N -> in_range w x ->
  fits s v (number s w x) = true <-> (number s v (x mod card v) mod card w = x)%Z.
Proof.
  intros P L R. assert (W : (0 < w)%N) by lia. split.
  - intros F. pose proof (number_mod s w x W R) as M.
    assert (E : (number s v (x mod card v) = number s w x)%Z).
    { rewrite <- M at 1. rewrite mod_mod_card by done. by apply number_of_fitting. }
    by rewrite E.
  - intros E. pose proof (number_range s v _ P (mod_in_range v x)) as F.
    rewrite <- E. rewrite number_of_fitting; [done|done|]. by apply (fits_wider s v w).
Qed.

(** Reading the operand as the type of the result does: where that is its own number, and
    where it is not *)
Lemma reading_agrees (src dst : bool) w v x : (0 < v)%N -> (v < w)%N -> in_range w x -> src = true \/ dst = false ->
  fits dst v (number dst w x) = fits dst v (number src w x).
Proof.
  intros P L R S. destruct src, dst; try done; [|by destruct S]. unfold number. rewrite to_signed_spec by (done || lia).
  rewrite msb_spec by (done || lia). unfold in_range in R. rewrite card_double in * by lia.
  assert (card v <= 2 ^ (Z.of_N w - 1))%Z by (apply Z.pow_le_mono_r; lia). unfold fits.
  destruct (Z.leb_spec (2 ^ (Z.of_N w - 1)) x); [|done].
  destruct (Z.leb_spec 0 x), (Z.ltb_spec x (card v)), (Z.leb_spec 0 (x - 2 * 2 ^ (Z.of_N w - 1))); cbn; lia.
Qed.

(** The numbers near the end of the unsigned type are read as small negative ones. *)
Lemma reading_disagrees w v x : (0 < v)%N -> (v < w)%N -> in_range w x -> (card w - 2 ^ (Z.of_N v - 1) <= x)%Z ->
  fits true v (number true w x) = true /\ fits true v x = false.
Proof.
  intros P L R H. unfold number. rewrite to_signed_spec, msb_spec by (done || lia). unfold in_range in R.
  assert (2 ^ (Z.of_N v - 1) < 2 ^ (Z.of_N w - 1))%Z by (apply Z.pow_lt_mono_r; lia).
  assert (0 < 2 ^ (Z.of_N v - 1))%Z by (apply Z.pow_pos_nonneg; lia).
  rewrite card_double in * by lia. rewrite (proj2 (Z.leb_le (2 ^ (Z.of_N w - 1)) x)) by lia. unfold fits. split.
  - apply andb_true_iff. rewrite Z.leb_le, Z.ltb_lt. lia.
  - apply andb_false_iff. right. apply Z.ltb_ge. lia.
Qed.

(** ** The casts *)

Section Casts.
Context `{AyEncode} `{Tables} `{!TrustIrLaws} `{!AySem} `{!AyEval} `{!AyEncodeEval}.
Notation Ty := (Ty.Ty Payload).

(** An operand of an integer type and its bits *)
Record integer_operand (src_ty dst_ty : Ty) (rho : string -> val) (w v : N) (e : Expr) (x : Z) : Prop := {
  io_src : is_integer src_ty = true /\ integer_width src_ty HOST_POINTER_BITS = Some w;
  io_dst : is_integer dst_ty = true /\ integer_width dst_ty HOST_POINTER_BITS = Some v;
  io_bits : sort_of e = sort_bitvec w /\ in_range w x /\ eval rho e = bv w x;
}.

Lemma carrier (ty : Ty) w e : integer_width ty HOST_POINTER_BITS = Some w -> sort_of e = sort_bitvec w ->
  cast_operand_in_src_carrier ty e = Some (Some e).
Proof.
  intros Iw S. destruct (integer_sort ty w Iw) as [Es _]. unfold cast_operand_in_src_carrier.
  rewrite (normalize_same ty e w Iw S), Es. cbn. by rewrite decide_True.
Qed.

Lemma eval_zero_extend rho e w v x : width_ok v -> (w <= v)%N -> in_range w x -> eval rho e = bv w x ->
  eval rho (mk_unary (BvZeroExtend (v - w)) e) = bv v x.
Proof.
  intros V L R E. eapply eval_made_unary; [done|exact E| |done]. cbn. do 2 f_equal. lia.
Qed.
Lemma eval_sign_extend rho e w v x : width_ok v -> (0 < w)%N -> (w <= v)%N -> in_range w x -> eval rho e = bv w x ->
  eval rho (mk_unary (BvSignExtend (v - w)) e) = bv v (number true w x mod card v)%Z.
Proof.
  intros V P L R E. eapply eval_made_unary; [done|exact E| |done]. cbn. unfold number.
  rewrite <- ConstEvalSpec.sign_extend_spec by done. replace (w + (v - w))%N with v by lia. done.
Qed.
Lemma eval_low_bits rho e w v x : width_ok v -> (v <= w)%N -> in_range w x -> eval rho e = bv w x ->
  eval rho (mk_unary (BvExtract (v - 1) 0) e) = bv v (x mod card v)%Z.
Proof.
  intros V L R E. unfold width_ok in V. eapply eval_made_unary; [done|exact E| |done]. cbn.
  rewrite (proj2 (N.ltb_lt _ _)) by lia. rewrite (proj2 (N.leb_le _ _)) by lia. cbn. unfold bvextract, card.
  change (2 ^ Z.of_N 0)%Z with 1%Z. rewrite Z.div_1_r. replace (v - 1 - 0 + 1)%N with v by lia. done.
Qed.

Lemma cast_converts op (src_ty dst_ty : Ty) rho w v e x :
  integer_operand src_ty dst_ty rho w v e x -> op ∈ [ZExt; SExt; Trunc; Bitcast] ->
  exists r, eval_cast_expr op src_ty dst_ty e = Some r /\
  match r, converted op w v x with
  | Some e', Some y => eval rho e' = bv v y
  | None, None => True
  | _, _ => False
  end.
Proof.
  intros [[Is Ws] [Id Wd] (S & R & E)] O. unfold eval_cast_expr. rewrite (carrier src_ty w e Ws S). cbn [mbind option_bind].
  destruct (integer_sort src_ty w Ws) as [_ Wk], (integer_sort dst_ty v Wd) as [_ Vk].
  pose proof (ConstEvalSpec.width_pos w Wk) as Wp. eexists. split; [reflexivity|].
  assert (Same : (w =? v)%N = true -> (number true w x mod card v = x)%Z /\ (x mod card v = x)%Z).
  { intros <-%N.eqb_eq. split; [by apply number_mod|by apply Z.mod_small]. }
  assert (B : match src_ty with Ty.Bool => is_integer dst_ty | _ => false end = false) by (by destruct src_ty).
  unfold cast_coerced. rewrite B, Is, Id, (integer_bits src_ty _ w Ws), (integer_bits dst_ty _ v Wd), !andb_true_r. cbn [mbind option_bind].
  unfold converted. rewrite !elem_of_cons, elem_of_nil in O. destruct O as [->|[->|[->|[->|[]]]]];
    [rewrite bool_decide_true by set_solver..|rewrite bool_decide_false by set_solver; rewrite bool_decide_true by done];
    destruct (w =? v)%N eqn:Q; try (apply N.eqb_eq in Q as Q'; subst v; destruct (Same eq_refl) as [S1 S2]);
    rewrite ?N.leb_refl, ?S1, ?S2; try done; apply N.eqb_neq in Q.
  - destruct (N.ltb_spec w v), (N.leb_spec w v); try lia. by apply eval_zero_extend.
  - destruct (N.ltb_spec w v), (N.leb_spec w v); try lia. by apply eval_sign_extend.
  - destruct (N.ltb_spec v w), (N.leb_spec v w); try lia. by apply (eval_low_bits rho e w).
Qed.

(** There is an obligation exactly for a truncation to fewer bits. *)
Lemma obligation_present op (src_ty dst_ty : Ty) rho w v e x : integer_operand src_ty dst_ty rho w v e x ->
  is_Some (lossy_condition op src_ty dst_ty e) <-> op = Trunc /\ (v < w)%N.
Proof.
  intros [[Is Ws] [Id Wd] _]. unfold lossy_condition. rewrite Is, Id, !andb_true_r.
  rewrite (integer_bits src_ty _ w Ws), (integer_bits dst_ty _ v Wd). cbn [mbind option_bind].
  destruct (bool_decide_reflect (op = Trunc)) as [->|N]; [|by split; [intros [? [=]]|intros [? _]]].
  destruct (N.ltb_spec v w); [by split|]. split; [by intros [? [=]]|intros [_ ?]; lia].
Qed.

Lemma obligation_value op (src_ty dst_ty : Ty) rho w v e x l :
  integer_operand src_ty dst_ty rho w v e x -> lossy_condition op src_ty dst_ty e = Some l ->
  eval rho l = vbool (negb (fits (is_signed dst_ty) v (number (is_signed dst_ty) w x))).
Proof.
  intros Io L. destruct (proj1 (obligation_present op src_ty dst_ty rho w v e x Io) (ex_intro _ l L)) as [-> Lt].
  destruct Io as [[Is Ws] [Id Wd] (S & R & E)]. unfold lossy_condition in L. rewrite Is, Id, bool_decide_true in L by done.
  rewrite (integer_bits src_ty _ w Ws), (integer_bits dst_ty _ v Wd) in L. cbn [mbind option_bind andb] in L.
  rewrite (proj2 (N.ltb_lt v w) Lt) in L. injection L as <-.
  destruct (integer_sort src_ty w Ws) as [_ Wk], (integer_sort dst_ty v Wd) as [_ Vk].
  pose proof (ConstEvalSpec.width_pos v Vk) as Vp. pose proof (eval_low_bits rho e w v x Vk ltac:(lia) R E) as K.
  set (reext := if is_signed dst_ty then _ else _).
  assert (X : eval rho reext = bv w (number (is_signed dst_ty) v (x mod card v) mod card w)%Z).
  { subst reext. destruct (is_signed dst_ty); [by apply eval_sign_extend; [| |lia|apply mod_in_range|]|].
    cbn [number]. rewrite Z.mod_small; [by apply eval_zero_extend; [|lia|apply mod_in_range|]|].
    pose proof (Z.mod_pos_bound x (card v) (card_pos v)). assert (card v <= card w)%Z by (apply Z.pow_le_mono_r; lia). lia. }
  destruct (eval_mk_eq rho e reext) as (t & Et & Q). rewrite (eval_mk_not rho _ t Et). do 2 f_equal.
  rewrite E, X in Q. apply eq_true_iff_eq. rewrite Q, (kept_low_bits (is_signed dst_ty) w v x Vp) by (done || lia). split.
  - intros [_ Eq]%bv_inj; [done|done|apply mod_in_range].
  - by intros ->.
Qed.

(** Whether the number of the operand is lost, and whether the obligation says so: the two
    differ where an unsigned operand near the end of its range is truncated to a signed type *)
Definition unreported (src dst : bool) (w v : N) (x : Z) : Prop :=
  src = false /\ dst = true /\ (card w - 2 ^ (Z.of_N v - 1) <= x)%Z.

Lemma reading_decides (src dst : bool) w v x : (0 < v)%N -> (v < w)%N -> in_range w x ->
  (~ unreported src dst w v x -> fits dst v (number dst w x) = fits dst v (number src w x)) /\
  (unreported src dst w v x -> fits dst v (number dst w x) = true /\ fits dst v (number src w x) = false).
Proof.
  intros P L R. split; [|by intros (-> & -> & ?); apply reading_disagrees].
  intros N. destruct src; [by apply reading_agrees; [..|left]|]. destruct dst; [|done].
  assert (Lo : (x < card w - 2 ^ (Z.of_N v - 1))%Z).
  { destruct (Z.lt_ge_cases x (card w - 2 ^ (Z.of_N v - 1))); [done|]. by destruct N. }
  unfold number. rewrite to_signed_spec, msb_spec by (done || lia). unfold in_range in R.
  assert (2 ^ (Z.of_N v - 1) < 2 ^ (Z.of_N w - 1))%Z by (apply Z.pow_lt_mono_r; lia).
  assert (0 < 2 ^ (Z.of_N v - 1))%Z by (apply Z.pow_pos_nonneg; lia).
  rewrite card_double in * by lia. unfold fits. destruct (Z.leb_spec (2 ^ (Z.of_N w - 1)) x); [|done].
  transitivity false; [|symmetry].
  - apply andb_false_iff. left. apply Z.leb_gt. lia.
  - apply andb_false_iff. right. apply Z.ltb_ge. lia.
Qed.

(** The arm of the translator hands the obligation on. *)
Lemma truncation_obliged `{!EqDecision Payload} func module node (src_ty dst_ty : Ty) rho w v e x operand s l :
  integer_operand src_ty dst_ty rho w v e x -> lossy_condition Trunc src_ty dst_ty e = Some l ->
  values s !! operand = Some e ->
  fst <$> translate_cast func module node Trunc src_ty dst_ty operand s = Some (Obliged l).
Proof.
  intros Io L V. destruct (proj1 (obligation_present Trunc src_ty dst_ty rho w v e x Io) (ex_intro _ l L)) as [_ Lt].
  destruct (cast_converts Trunc src_ty dst_ty rho w v e x Io) as (r & Er & C); [set_solver|].
  cbn [converted] in C. rewrite (proj2 (N.leb_le v w)) in C by lia. destruct r as [e'|]; [|done].
  destruct Io as [[Is Ws] [Id Wd] (S & R & E)].
  assert (T : is_thin_pointer_ty src_ty = false /\ is_thin_pointer_ty dst_ty = false) by (by destruct src_ty, dst_ty).
  unfold translate_cast, newtype_legs. destruct T as [-> ->]. cbn [andb negb]. unfold mbind at 1, M_bind at 1.
  rewrite !(bool_decide_false (Trunc = Bitcast)), !(bool_decide_false (Trunc ∈ [Bitcast; PtrToPtr])) by (done || set_solver). cbn [andb].
  unfold eval_cast, resolve, gets, lift, mbind, M_bind. cbn. rewrite V. cbn. rewrite (carrier src_ty w e Ws S). cbn.
  rewrite Er. cbn. unfold bind_first_result, modify. rewrite L. by destruct (results node).
Qed.

(** C23: integer casts are exact, and a narrowing cast reports a loss but for one case.  The
    result of [eval_cast_expr] has the bits of the conversion, and there is none exactly
    where the operator does not have the direction of the widths.  There is an obligation
    exactly for a truncation to fewer bits, whatever the signs of the two types, and
    [translate_cast] hands it on; it fails exactly where the number of the operand does not
    fit the result, unless an unsigned operand is truncated to a signed type and its number
    is one of the last of its range: those do not fit and are not reported. *)
Theorem integer_cast_exact `{!EqDecision Payload} op (src_ty dst_ty : Ty) rho w v e x :
  integer_operand src_ty dst_ty rho w v e x -> op ∈ [ZExt; SExt; Trunc; Bitcast] ->
  (exists r, eval_cast_expr op src_ty dst_ty e = Some r /\
    match r, converted op w v x with
    | Some e', Some y => eval rho e' = bv v y
    | None, None => True
    | _, _ => False
    end) /\
  match lossy_condition op src_ty dst_ty e with
  | None => ~ (op = Trunc /\ (v < w)%N)
  | Some l => op = Trunc /\ (v < w)%N /\
      (forall func module node operand s, values s !! operand = Some e ->
        fst <$> translate_cast func module node op src_ty dst_ty operand s = Some (Obliged l)) /\
      exists lossy, eval rho l = vbool lossy /\
        (~ unreported (is_signed src_ty) (is_signed dst_ty) w v x ->
          lossy = negb (fits (is_signed dst_ty) v (number (is_signed src_ty) w x))) /\
        (unreported (is_signed src_ty) (is_signed dst_ty) w v x ->
          lossy = false /\ fits (is_signed dst_ty) v (number (is_signed src_ty) w x) = false)
  end.
Proof.
  intros Io O. split; [by apply cast_converts|]. pose proof (obligation_present op src_ty dst_ty rho w v e x Io) as Pr.
  destruct (lossy_condition op src_ty dst_ty e) as [l|] eqn:L; [|by intros [? [=]]%Pr].
  destruct (proj1 Pr (ex_intro _ l eq_refl)) as [-> Lt]. split; [done|]. split; [done|]. split.
  { intros. by apply (truncation_obliged func module node src_ty dst_ty rho w v e x). }
  eexists. split; [by eapply obligation_value|]. destruct Io as [[Is Ws] [Id Wd] (S & R & E)].
  destruct (integer_sort dst_ty v Wd) as [_ Vk]. pose proof (ConstEvalSpec.width_pos v Vk) as Vp.
  destruct (reading_decides (is_signed src_ty) (is_signed dst_ty) w v x Vp Lt R) as [A B]. split.
  - intros N. by rewrite A.
  - intros U. destruct (B U) as [-> ->]. done.
Qed.

End Casts.

End CastSpec.

(** * Casts that only rename an address

    The gate [proof_grade_cast_is_admissible] and the lowering [translate_cast]: what the
    one admits the other lowers to the same expression ([casts_in_lockstep]), and wrapping
    a pointer in a newtype is undone by unwrapping it ([newtype_roundtrip]). *)

Module NewtypeSpec.
Import AyBuild AyTry AyEncode TrustIr BmcExpr BmcArith StackCells Aggregates AggregatesSpec ChcValues.

(** ** Lists with one part that is not empty *)

Lemma concat_one {A B} (f : A -> list B) (l : list A) : forall i x, l !! i = Some x ->
  (forall j y, l !! j = Some y -> j <> i -> f y = []) -> concat (map f l) = f x.
Proof.
  induction l as [|y l IH]; intros i x Hi O; [done|]. destruct i as [|i]; cbn in *.
  - injection Hi as ->. enough (concat (map f l) = []) as -> by apply app_nil_r.
    clear IH. assert (O' : forall y, y ∈ l -> f y = []).
    { intros z [j Hj]%list_elem_of_lookup. by apply (O (S j)). }
    clear O. induction l as [|z l IH]; [done|]. cbn. rewrite O' by left. apply IH. intros; apply O'; by right.
  - rewrite (O 0%nat y) by done. cbn. apply (IH i x Hi). intros j z Hj N. apply (O (S j)); [done|lia].
Qed.

Lemma zip_seq_lookup {A} (l : list A) : forall k i x, (i, x) ∈ zip (seq k (length l)) l <-> (k <= i)%nat /\ l !! (i - k)%nat = Some x.
Proof.
  induction l as [|y l IH]; intros k i x; cbn.
  { split; [by intros Hx%elem_of_nil|]. by intros [_ ?]. }
  rewrite elem_of_cons, IH. split.
  - intros [[= -> ->]|[L Hi]]; [split; [done|by rewrite Nat.sub_diag]|]. split; [lia|].
    replace (i - k)%nat with (S (i - S k)) by lia. done.
  - intros [L Hi]. destruct (decide (i = k)) as [->|]; [left; rewrite Nat.sub_diag in Hi; cbn in Hi; congruence|right].
    split; [lia|]. by replace (i - k)%nat with (S (i - S k)) in Hi by lia.
Qed.

Lemma and_then_some `{AyEncode} {A B} (m : M (option A)) (f : A -> M (option B)) s a s' : m s = Some (Some a, s') ->
  and_then m f s = f a s'.
Proof. intros E. unfold and_then, mbind, M_bind. by rewrite E. Qed.

Lemma bind_some `{AyEncode} {A B} (m : M A) (f : A -> M B) s a s' : m s = Some (a, s') -> (m ≫= f) s = f a s'.
Proof. intros E. unfold mbind, M_bind. by rewrite E. Qed.

Section Newtypes.
Context `{AyEncode} `{TablesLaws} (m : Module_ Payload).
Notation Ty := (Ty.Ty Payload).

(** ** Padding *)

(** A type without scalar leaves *)
Inductive pad : Ty -> Prop :=
  | pad_fields ty fields : aggregate_field_tys_of m ty = Some fields -> (forall f, f ∈ fields -> pad f) -> pad ty.

Lemma pad_spec fuel : forall ty, is_zero_sized_newtype_pad ty m fuel = true -> pad ty.
Proof.
  induction fuel as [|fuel IH]; intros ty E; [done|]. cbn [is_zero_sized_newtype_pad] in E.
  assert (G : match aggregate_field_tys_of m ty with
    | Some fields => forallb (fun f => is_zero_sized_newtype_pad f m fuel) fields | None => false end = true -> pad ty).
  { destruct (aggregate_field_tys_of m ty) as [fields|] eqn:A; [|done]. intros F. econstructor; [done|].
    intros f Hf. apply IH. rewrite forallb_forall in F. apply F. by apply list_elem_of_In. }
  destruct ty; by apply G.
Qed.

Lemma shaped_pad ty b : pad ty -> shaped m ty b -> flat_args b = [].
Proof.
  intros P. revert b. induction P as [ty fields A _ IH]. intros b Sh.
  inversion Sh as [? e s A'|? tys bs A' F]; subst; [congruence|]. assert (tys = fields) as -> by congruence. cbn.
  clear A A' Sh. revert bs F. induction fields as [|f fields IHf]; intros bs F; inversion F; subst; [done|]. cbn.
  rewrite (IH f (list_elem_of_here _ _)) by done. apply IHf; [|done]. intros g Hg. apply IH. by right.
Qed.

Lemma aggregate_not_summary ty fields : aggregate_field_tys_of m ty = Some fields -> is_call_summary_scalar_ty ty = false.
Proof. intros (I & _)%tracked_fields. by destruct ty. Qed.

(** A fresh value of padding declares nothing. *)
Lemma pad_bindings (one : string -> Ty -> M (option ValueBinding)) (s : ChcFuncTranslator) fields : forall label i,
  (forall f p, f ∈ fields -> exists b, one p f s = Some (Some b, s) /\ shaped m f b) ->
  exists bs, field_bindings one label i fields s = Some (Some bs, s) /\ Forall2 (shaped m) fields bs.
Proof.
  induction fields as [|f fields IH]; intros label i O; [by exists []; split; [|constructor]|].
  destruct (O f (label +:+ pretty i) ltac:(left)) as (b & E & Sb).
  destruct (IH label (S i)) as (bs & Es & F); [intros; apply O; by right|].
  exists (b :: bs). split; [|by constructor]. cbn. by rewrite (and_then_some _ _ _ _ _ E), (and_then_some _ _ _ _ _ Es).
Qed.

Lemma pad_field (func : Function_ Payload) s : forall k ty prefix, (nesting m ty < k)%nat -> pad ty ->
  exists b, resolve_field_steps func m k prefix ty s = Some (Some b, s) /\ shaped m ty b.
Proof.
  induction k as [|k IH]; intros ty prefix L P; [lia|]. destruct P as [ty fields A P].
  destruct (tracked_fields m ty fields A) as (_ & Sc & _ & N). cbn [resolve_field_steps]. unfold aggregate_field_tys. rewrite Sc, A.
  destruct (pad_bindings (resolve_field_steps func m k) s fields (prefix +:+ "_f") 0) as (bs & E & F).
  { intros f p Hf. apply IH; [destruct (N f Hf); lia|by apply P]. }
  exists (Aggregate bs). split; [|by econstructor]. by rewrite (and_then_some _ _ _ _ _ E).
Qed.

Lemma pad_value (func : Function_ Payload) s ty prefix : pad ty ->
  exists b, fresh_call_summary_value func m prefix ty s = Some (Some b, s) /\ shaped m ty b.
Proof.
  intros [ty' fields A P]. unfold fresh_call_summary_value, aggregate_field_tys. rewrite (aggregate_not_summary _ _ A), A.
  destruct (pad_bindings (resolve_field_binding func m) s fields (prefix +:+ "_field") 0) as (bs & E & F).
  { intros f p Hf. apply pad_field; [lia|by apply P]. }
  exists (Aggregate bs). split; [|by econstructor]. by rewrite (and_then_some _ _ _ _ _ E).
Qed.

(** ** Paths *)

(** The path to the one address a value of the type holds *)
Inductive newtype_path : Ty -> list nat -> Prop :=
  | path_thin ty : is_thin_pointer_ty ty = true -> newtype_path ty []
  | path_field ty fields idx inner path : aggregate_field_tys_of m ty = Some fields -> fields !! idx = Some inner ->
      (forall i f, fields !! i = Some f -> i <> idx -> pad f) -> newtype_path inner path -> newtype_path ty (idx :: path).

Lemma path_spec fuel : forall ty path, pointer_newtype_field_path ty m fuel = Some path -> newtype_path ty path.
Proof.
  induction fuel as [|fuel IH]; intros ty path E; [done|]. cbn [pointer_newtype_field_path] in E.
  destruct (is_thin_pointer_ty ty) eqn:T; [injection E as <-; by constructor|].
  destruct (aggregate_field_tys_of m ty) as [fields|] eqn:A; [|done]. cbn [mbind option_bind] in E.
  destruct (non_pads m (S fuel) fields) as [|[idx inner] [|]] eqn:N; try done.
  destruct (pointer_newtype_field_path inner m fuel) as [rest|] eqn:R; [|done]. injection E as <-.
  assert (Mem : forall i f, fields !! i = Some f -> is_zero_sized_newtype_pad f m (S fuel) = false <-> (i, f) = (idx, inner)).
  { intros i f Hi. rewrite <- (list_elem_of_singleton (i, f)), <- N. unfold non_pads. rewrite list_elem_of_filter, zip_seq_lookup. cbn [snd].
    rewrite Nat.sub_0_r. split; [|tauto]. intros; split_and!; [done|lia|done]. }
  assert (Hi : fields !! idx = Some inner).
  { assert (Hin : (idx, inner) ∈ non_pads m (S fuel) fields) by (rewrite N; left). unfold non_pads in Hin.
    apply list_elem_of_filter in Hin as [_ Hin]. apply zip_seq_lookup in Hin as [_ Hin]. by rewrite Nat.sub_0_r in Hin. }
  econstructor; [done|exact Hi| |by apply IH]. intros i f Hf Ne. apply (pad_spec (S fuel)).
  apply not_false_iff_true. intros E. apply (Mem i f Hf) in E. congruence.
Qed.

Lemma thin_no_fields ty : is_thin_pointer_ty ty = true ->
  aggregate_field_tys_of m ty = None /\ ty_to_sort ty = Some (sort_bitvec 64).
Proof. intros T. unfold aggregate_field_tys_of. rewrite leaf_count_unfold. by destruct ty. Qed.

(** A value of a newtype is its address. *)
Lemma unwrap_shaped ty path : newtype_path ty path -> forall b, shaped m ty b ->
  exists e, unwrap_path b path = Some e /\ flat_args b = [e] /\ of_sort e (sort_bitvec 64).
Proof.
  induction 1 as [ty T|ty fields idx inner path A Hi P _ IH]; intros b Sh.
  - destruct (thin_no_fields ty T) as [A S]. inversion Sh as [? e s A' S' O|? ? ? A']; subst; [|congruence].
    assert (s = sort_bitvec 64) as -> by congruence. by exists e.
  - inversion Sh as [? e s A'|? tys bs A' F]; subst; [congruence|]. assert (tys = fields) as -> by congruence.
    destruct (Forall2_lookup_l _ _ _ _ _ F Hi) as (b' & Hb & Sb). destruct (IH b' Sb) as (e & U & Fl & O).
    exists e. split_and!; [cbn; by rewrite Hb|cbn|done]. rewrite (concat_one _ bs idx b' Hb); [done|].
    intros j y Hj Ne. destruct (Forall2_lookup_r _ _ _ _ _ F Hj) as (f & Hf & Sf). by apply (shaped_pad f); [apply (P j)|].
Qed.

(** Wrapping makes a value of the newtype, of the pointer given, and declares nothing. *)
Lemma wrap_fields_spec func inner ptr s target fields : forall i,
  (forall j f, fields !! j = Some f -> (i + j)%nat = target -> exists b, inner f s = Some (Some b, s) /\ shaped m f b /\ flat_args b = [ptr]) ->
  (forall j f, fields !! j = Some f -> (i + j)%nat <> target -> pad f) ->
  exists bs, wrap_fields func m inner target i fields s = Some (Some bs, s) /\ Forall2 (shaped m) fields bs /\
    forall j b, bs !! j = Some b -> (i + j)%nat = target -> flat_args b = [ptr].
Proof.
  induction fields as [|f fields IH]; intros i T P; [by exists []; split_and!; [|constructor|]|].
  destruct (IH (S i)) as (bs & E & F & Q).
  { intros j g Hj. rewrite Nat.add_succ_comm. by apply T. }
  { intros j g Hj. rewrite Nat.add_succ_comm. by apply P. }
  assert (B : exists b, (if (i =? target)%nat then inner f else fresh_call_summary_value func m ("newtype_pad" +:+ pretty i) f) s =
    Some (Some b, s) /\ shaped m f b /\ (i = target -> flat_args b = [ptr])).
  { destruct (Nat.eqb_spec i target) as [Ei|Ne].
    - destruct (T 0%nat f) as (b & Eb & Sb & Fb); [done|lia|]. by exists b.
    - destruct (pad_value func s f ("newtype_pad" +:+ pretty i)) as (b & Eb & Sb); [|by exists b; split_and!].
      apply (P 0%nat); [done|lia]. }
  destruct B as (b & Eb & Sb & Fb). exists (b :: bs). cbn [wrap_fields]. 
  rewrite (and_then_some _ _ _ _ _ Eb), (and_then_some _ _ _ _ _ E). split_and!; [done|by constructor|].
  intros [|j] x; cbn; [intros [= <-]; rewrite Nat.add_0_r; apply Fb|]. intros Hj Ej. apply (Q j); [done|lia].
Qed.

Lemma wrap_spec func ptr s ty path : newtype_path ty path -> path <> [] -> of_sort ptr (sort_bitvec 64) ->
  exists bs, wrap_pointer_newtype func m ptr ty path s = Some (Some bs, s) /\ shaped m ty (Aggregate bs) /\
    flat_args (Aggregate bs) = [ptr] /\ unwrap_path (Aggregate bs) path = Some ptr.
Proof.
  intros Np. revert ptr s. induction Np as [|ty fields idx inner path A Hi P Np IH]; intros ptr s N O; [done|].
  assert (G : exists bs, wrap_pointer_newtype func m ptr ty (idx :: path) s = Some (Some bs, s) /\
    Forall2 (shaped m) fields bs /\ forall j b, bs !! j = Some b -> (0 + j)%nat = idx -> flat_args b = [ptr]).
  { cbn [wrap_pointer_newtype]. unfold aggregate_field_tys. rewrite A. apply wrap_fields_spec.
    - intros j f Hj <-. assert (f = inner) as -> by (cbn in Hi; congruence). destruct path as [|i path].
      + inversion Np as [? T|]; subst. destruct (thin_no_fields inner T) as [An S]. exists (Scalar ptr). split_and!; [done| |done].
        by econstructor.
      + destruct (IH ptr s) as (bs & E & Sh & Fl & _); [done|done|]. exists (Aggregate bs). by rewrite (and_then_some _ _ _ _ _ E).
    - intros j f Hj Ne. by apply (P j). }
  destruct G as (bs & E & F & Q). exists bs. assert (Sh : shaped m ty (Aggregate bs)) by by econstructor.
  destruct (unwrap_shaped ty (idx :: path)) with (b := Aggregate bs) as (e & U & Fl & _); [by econstructor|done|].
  assert (e = ptr) as ->; [|done]. destruct (Forall2_lookup_l _ _ _ _ _ F Hi) as (b & Hb & _).
  enough ([e] = [ptr]) by congruence. rewrite <- Fl, <- (Q idx b Hb eq_refl). cbn. apply (concat_one _ bs idx b Hb).
  intros j y Hj Ne. destruct (Forall2_lookup_r _ _ _ _ _ F Hj) as (f & Hf & Sf). by apply (shaped_pad f); [apply (P j)|].
Qed.

End Newtypes.

(** ** The gate and the lowering *)

Section Lockstep.
Context `{AyEncode} `{TablesLaws} `{!TrustIrLaws} `{!AySem} `{!AyEval} `{!AyEncodeEval} `{!EqDecision Payload}.
Context (func : Function_ Payload) (m : Module_ Payload) (node : InstrNode Payload).
Notation Ty := (Ty.Ty Payload).

(** The value is bound to what its type asks for. *)
Definition bound (s : ChcFuncTranslator) (v : ValueId) (ty : Ty) : Prop :=
  match aggregate_field_tys_of m ty with
  | Some _ => exists fields, aggregates s !! v = Some fields /\ shaped m ty (Aggregate fields)
  | None => exists e, values s !! v = Some e /\ ty_to_sort ty = Some (sort_of e)
  end.

(** The value is this one expression. *)
Definition leaf (s : ChcFuncTranslator) (v : ValueId) (ty : Ty) (e : Expr) : Prop :=
  match aggregate_field_tys_of m ty with
  | Some _ => exists fields, aggregates s !! v = Some fields /\ flat_args (Aggregate fields) = [e]
  | None => values s !! v = Some e
  end.

(** The first result of the node is this expression. *)
Definition result_is (s : ChcFuncTranslator) (ty : Ty) (e : Expr) : Prop :=
  forall r rs, results node = r :: rs -> leaf s r ty e.

Definition is_newtype (ty : Ty) : Prop := exists idx rest,
  pointer_newtype_field_path ty m POINTER_NEWTYPE_FUEL = Some (idx :: rest) /\ is_thin_pointer_ty ty = false /\
  newtype_path m ty (idx :: rest) /\ is_Some (aggregate_field_tys_of m ty).

Lemma newtype_spec ty : negb (is_thin_pointer_ty ty) &&
    match pointer_newtype_field_path ty m POINTER_NEWTYPE_FUEL with Some (_ :: _) => true | _ => false end = true -> is_newtype ty.
Proof.
  intros [T%negb_true_iff P]%andb_true_iff. destruct (pointer_newtype_field_path ty m _) as [[|idx rest]|] eqn:E; try done.
  exists idx, rest. pose proof (path_spec m _ ty _ E) as Np. split_and!; try done. inversion Np; subst. by eexists.
Qed.

Lemma integer_plain (ty : Ty) : is_integer ty = true ->
  is_thin_pointer_ty ty = false /\ aggregate_field_tys_of m ty = None /\ is_fat_pointer_ty ty = false /\
  pointer_newtype_field_path ty m POINTER_NEWTYPE_FUEL = None.
Proof.
  intros I. destruct (integer_type ty HOST_POINTER_BITS I) as [w W].
  assert (A : aggregate_field_tys_of m ty = None) by (unfold aggregate_field_tys_of; rewrite leaf_count_unfold; by destruct ty).
  unfold POINTER_NEWTYPE_FUEL. cbn [pointer_newtype_field_path]. rewrite A. by destruct ty.
Qed.

Lemma bind_first_spec e (s : ChcFuncTranslator) ty : aggregate_field_tys_of m ty = None ->
  exists s', bind_first_result node e s = Some (tt, s') /\ result_is s' ty e.
Proof.
  intros A. unfold bind_first_result, result_is, leaf. rewrite A. destruct (results node) as [|r rs]; eexists; (split; [done|]); [done|].
  intros ? ? [= <- <-]. cbn. by simplify_map_eq.
Qed.

Lemma resolve_bound s v ty e : values s !! v = Some e -> resolve func v ty s = Some (e, s).
Proof. intros V. unfold resolve, mbind, M_bind, gets. cbn. by rewrite V. Qed.

(** An operand that is no aggregate *)
Lemma plain_bound s v ty : bound s v ty -> aggregate_field_tys_of m ty = None ->
  exists e, values s !! v = Some e /\ ty_to_sort ty = Some (sort_of e).
Proof. unfold bound. intros B A. by rewrite A in B. Qed.

Lemma unwrap_leg_spec s v src dst idx rest : bound s v src -> newtype_path m src (idx :: rest) ->
  is_Some (aggregate_field_tys_of m src) -> aggregate_field_tys_of m dst = None ->
  exists s' e, unwrap_leg func m node src v (Some (idx :: rest)) s = Some (true, s') /\ leaf s v src e /\ result_is s' dst e.
Proof.
  intros B Np [fs A] D. unfold bound in B. rewrite A in B. destruct B as (fields & L & Sh).
  destruct (unwrap_shaped m src _ Np _ Sh) as (e & U & Fl & _).
  destruct (bind_first_spec e s dst D) as (s' & Eb & R). exists s', e. split_and!; [|unfold leaf; rewrite A; by exists fields|done].
  unfold unwrap_leg, unwrap_pointer_newtype, and_then, resolve_aggregate, mbind, M_bind, gets. cbn. rewrite L. cbn. cbn in U. rewrite U. cbn. by rewrite Eb.
Qed.

Lemma aggregate_sorted ty fields : aggregate_field_tys_of m ty = Some fields -> is_Some (ty_to_sort ty).
Proof. intros (I & _)%tracked_fields. destruct ty; try done; by eexists. Qed.

Lemma wrap_leg_spec s v src dst idx rest : bound s v src -> aggregate_field_tys_of m src = None ->
  ty_to_sort src = Some (sort_bitvec 64) -> newtype_path m dst (idx :: rest) -> is_Some (aggregate_field_tys_of m dst) ->
  exists s' e, wrap_leg func m node src dst v (Some (idx :: rest)) s = Some (true, s') /\ leaf s v src e /\ result_is s' dst e.
Proof.
  intros B A S Np [fs D]. destruct (plain_bound s v src B A) as (e & V & Es).
  assert (O : of_sort e (sort_bitvec 64)) by (left; congruence).
  destruct (wrap_spec m func e s dst (idx :: rest) Np) as (bs & W & _ & Fl & _); [done|done|].
  unfold wrap_leg, mbind at 1, M_bind at 1. rewrite (resolve_bound s v src e V). cbn [mbind option_bind].
  unfold mbind at 1, M_bind at 1. rewrite W. cbn [mbind option_bind].
  unfold bind_aggregate_result, result_is, leaf. rewrite A, D. destruct (results node) as [|r rs].
  - exists s, e. split_and!; done.
  - destruct (aggregate_sorted dst fs D) as [ds Ds]. eexists. exists e. split_and!; [|done|].
    + unfold fresh_symbolic, mbind, M_bind, gets, lift, modify, mret, M_ret. cbn. rewrite Ds. cbn. reflexivity.
    + intros ? ? [= <- <-]. exists bs. split; [|done]. cbn. by simplify_map_eq.
Qed.

(** An operand of a bit-vector sort is its own carrier. *)
Lemma carrier_same (ty : Ty) w e : ty_to_sort ty = Some (sort_bitvec w) -> width_ok w -> sort_of e = sort_bitvec w ->
  cast_operand_in_src_carrier ty e = Some (Some e).
Proof.
  intros T W S. unfold cast_operand_in_src_carrier, normalize_expr_to_ty. rewrite T. cbn [mbind option_bind].
  rewrite S, (width_of w W), N.eqb_refl. cbn. by rewrite decide_True.
Qed.

Lemma eval_cast_spec s op src dst v e w : values s !! v = Some e -> ty_to_sort src = Some (sort_bitvec w) -> width_ok w ->
  sort_of e = sort_bitvec w -> cast_coerced op src dst e = Some e -> eval_cast func op src dst v s = Some (Some (e, e), s).
Proof.
  intros V T W S C. unfold eval_cast. rewrite (bind_some _ _ _ _ _ (resolve_bound s v src e V)).
  assert (L : lift (cast_operand_in_src_carrier src e) s = Some (Some e, s)) by (unfold lift; by rewrite (carrier_same src w e T W S)).
  rewrite (bind_some _ _ _ _ _ L).
  assert (L' : lift (eval_cast_expr op src dst e) s = Some (Some e, s)).
  { unfold lift, eval_cast_expr. rewrite (carrier_same src w e T W S). cbn [mbind option_bind]. by rewrite C. }
  by rewrite (bind_some _ _ _ _ _ L').
Qed.

Lemma thin_is ty : is_thin_pointer_ty ty = true -> is_fat_pointer_ty ty = false /\ is_pointer_width_unsigned_ty ty = false /\
  is_integer ty = false.
Proof.
  intros T. destruct (is_integer ty) eqn:I.
  - destruct (integer_plain ty I) as (T' & _). congruence.
  - by destruct ty.
Qed.

(** The end of the arm: no leg is for the cast, and it is the identity. *)
Lemma identity_cast s op src dst v w : bound s v src -> aggregate_field_tys_of m src = None -> aggregate_field_tys_of m dst = None ->
  is_fat_pointer_ty src = false -> ty_to_sort src = Some (sort_bitvec w) -> width_ok w -> op <> Trunc ->
  newtype_legs func m node op src dst v s = Some (false, s) -> (forall e, cast_coerced op src dst e = Some e) ->
  exists s' e, translate_cast func m node op src dst v s = Some (Lowered, s') /\ leaf s v src e /\ result_is s' dst e.
Proof.
  intros B A D F T W N L C. destruct (plain_bound s v src B A) as (e & V & Es).
  destruct (bind_first_spec e s dst D) as (s' & Eb & R). exists s', e. split_and!; [|unfold leaf; by rewrite A|done].
  unfold translate_cast, mbind at 1, M_bind at 1. rewrite L. cbn [mbind option_bind]. rewrite F, andb_false_r. cbn [andb].
  rewrite andb_false_r. cbn [andb]. unfold mbind at 1, M_bind at 1.
  rewrite (eval_cast_spec s op src dst v e w V T W) by (congruence || done). cbn [mbind option_bind].
  unfold mbind at 1, M_bind at 1. rewrite Eb. cbn. unfold lossy_condition. rewrite bool_decide_false by done. done.
Qed.

(** The lowering keeps the expression. *)
Definition kept op (src dst : Ty) v s : Prop :=
  exists s' e, translate_cast func m node op src dst v s = Some (Lowered, s') /\ leaf s v src e /\ result_is s' dst e.

Lemma address_type ty : is_pointer_width_unsigned_ty ty = true ->
  is_thin_pointer_ty ty = false /\ aggregate_field_tys_of m ty = None /\ ty_to_sort ty = Some (sort_bitvec 64) /\
  is_fat_pointer_ty ty = false /\ pointer_newtype_field_path ty m POINTER_NEWTYPE_FUEL = None /\
  bit_width_with ty HOST_POINTER_BITS = Some 64%N.
Proof.
  intros U. destruct (integer_plain ty (address_integer ty U)) as (T & A & F & P). split_and!; try done; [by destruct ty|].
  apply integer_bits. by destruct ty.
Qed.

Lemma thin_cast op src dst v s : bound s v src -> op = Bitcast \/ op = PtrToPtr ->
  is_thin_pointer_ty src = true -> is_thin_pointer_ty dst = true -> kept op src dst v s.
Proof.
  intros B O Ts Td. destruct (thin_no_fields m src Ts) as [A S], (thin_no_fields m dst Td) as [D _].
  destruct (thin_is src Ts) as (Fs & Us & Is), (thin_is dst Td) as (_ & Ud & _).
  apply (identity_cast s op src dst v 64); try done; [by destruct O as [->| ->]| |].
  - unfold newtype_legs. cbv zeta. rewrite Ts, Td, Us, Ud, !andb_false_r. done.
  - intros e. unfold cast_coerced. rewrite Ts, Td, Is, !andb_false_r. cbn [andb].
    assert (Bl : match src with Ty.Bool => is_integer dst | _ => false end = false) by (by destruct src).
    rewrite Bl. by destruct O as [->| ->].
Qed.

Lemma fat_cast op src v s : bound s v src -> op = Bitcast \/ op = PtrToPtr -> is_fat_pointer_ty src = true -> kept op src src v s.
Proof.
  intros B O F. assert (A : aggregate_field_tys_of m src = None) by (unfold aggregate_field_tys_of; rewrite leaf_count_unfold; by destruct src).
  destruct (plain_bound s v src B A) as (e & V & _). destruct (bind_first_spec e s src A) as (s1 & Eb & R).
  assert (L : newtype_legs func m node op src src v s = Some (false, s)) by
    (unfold newtype_legs; destruct src; try discriminate F; by rewrite !andb_false_r).
  assert (P : bool_decide (op ∈ [Bitcast; PtrToPtr]) = true) by (destruct O as [->| ->]; vm_compute; reflexivity).
  unfold kept, translate_cast, mbind at 1, M_bind at 1. rewrite L. cbn [mbind option_bind]. rewrite P, F, bool_decide_true by done. cbn [andb].
  unfold mbind at 1, M_bind at 1. rewrite (resolve_bound s v src e V). cbn [mbind option_bind].
  unfold mbind at 1, M_bind at 1. rewrite Eb. cbn [mbind option_bind]. unfold result_is, leaf in *. rewrite A in *.
  destruct (results node) as [|r rs]; eexists; exists e; (split_and!; [reflexivity|done|]); intros r' rs' Er; [done|]. injection Er as <- <-. by apply (R r rs).
Qed.

Lemma legs_bound op src dst v s s' : newtype_legs func m node op src dst v s = Some (true, s') ->
  translate_cast func m node op src dst v s = Some (Lowered, s').
Proof. intros L. unfold translate_cast. by rewrite (bind_some _ _ _ _ _ L). Qed.

(** The types an address is wrapped from and unwrapped to *)
Definition address_like (ty : Ty) : Prop :=
  is_thin_pointer_ty ty = true \/ is_pointer_width_unsigned_ty ty = true /\ is_thin_pointer_ty ty = false.

Lemma wrap_cast src dst v s : bound s v src -> address_like src -> is_newtype dst -> kept Bitcast src dst v s.
Proof.
  intros B Ts (idx & rest & P & Td & Np & Sd).
  assert (AT : aggregate_field_tys_of m src = None /\ ty_to_sort src = Some (sort_bitvec 64)).
  { destruct Ts as [Ts|[Us _]]; [by apply thin_no_fields|]. by destruct (address_type src Us) as (_ & ? & ? & _). }
  destruct AT as [A T]. destruct (wrap_leg_spec s v src dst idx rest B A T Np Sd) as (s' & e & W & L & R).
  exists s', e. split_and!; [apply legs_bound|done|done]. rewrite <- W. unfold newtype_legs. cbv zeta. rewrite P, Td.
  by destruct Ts as [->|[-> ->]].
Qed.

Lemma unwrap_cast src dst v s : bound s v src -> address_like dst -> is_newtype src -> kept Bitcast src dst v s.
Proof.
  intros B Td (idx & rest & P & Ts & Np & Ss).
  assert (D : aggregate_field_tys_of m dst = None).
  { destruct Td as [Td|[Ud _]]; [by apply thin_no_fields|]. by destruct (address_type dst Ud) as (_ & ? & _). }
  destruct (unwrap_leg_spec s v src dst idx rest B Np Ss D) as (s' & e & W & L & R).
  assert (Us : is_pointer_width_unsigned_ty src = false) by (destruct Ss as [fs (I & _)%tracked_fields]; by destruct src).
  exists s', e. split_and!; [apply legs_bound|done|done]. rewrite <- W. unfold newtype_legs. cbv zeta. rewrite P, Ts, Us.
  by destruct Td as [->|[-> ->]].
Qed.

(** Without a newtype the legs do nothing. *)
Lemma plain_legs op src dst v s : pointer_newtype_field_path src m POINTER_NEWTYPE_FUEL = None \/ is_thin_pointer_ty src = true ->
  pointer_newtype_field_path dst m POINTER_NEWTYPE_FUEL = None -> is_thin_pointer_ty dst = false ->
  newtype_legs func m node op src dst v s = Some (false, s).
Proof.
  intros Ps Pd Td. unfold newtype_legs. cbv zeta. rewrite Td, Pd. cbn [negb andb]. rewrite !andb_true_r.
  destruct (is_thin_pointer_ty src) eqn:Ts; [done|]. destruct Ps as [Ps|]; [|done]. rewrite Ps. cbn [non_empty unwrap_leg wrap_leg].
  by repeat match goal with |- context [if ?b then _ else _] => destruct b end.
Qed.

Lemma integer_cast src dst v s w : bound s v src -> is_integer src = true -> is_integer dst = true ->
  bit_width_with src HOST_POINTER_BITS = Some w -> bit_width_with dst HOST_POINTER_BITS = Some w -> kept Bitcast src dst v s.
Proof.
  intros B Is Id Ws Wd. destruct (integer_plain src Is) as (Ts & A & Fs & Ps), (integer_plain dst Id) as (Td & D & _ & Pd).
  destruct (integer_type src HOST_POINTER_BITS Is) as [w' W']. assert (w' = w) as -> by (apply integer_bits in W'; congruence).
  destruct (integer_sort src w W') as [S Wk]. apply (identity_cast s Bitcast src dst v w); try done; [by apply plain_legs; [left| |]|].
  intros e. unfold cast_coerced. rewrite Is, Id, Ws, Wd. cbn [mbind option_bind]. rewrite N.eqb_refl.
  by assert (match src with Ty.Bool => true | _ => false end = false) as -> by (by destruct src).
Qed.

Lemma address_cast src dst v s : bound s v src -> is_thin_pointer_ty src = true -> is_pointer_width_unsigned_ty dst = true ->
  kept PtrToInt src dst v s.
Proof.
  intros B Ts Ud. destruct (thin_no_fields m src Ts) as [A S], (thin_is src Ts) as (Fs & _ & Is).
  destruct (address_type dst Ud) as (Td & D & _ & _ & Pd & Wd).
  apply (identity_cast s PtrToInt src dst v 64); try done; [by apply plain_legs; [right| |]|].
  intros e. unfold cast_coerced. rewrite Ts, Is, (address_integer dst Ud), Wd. cbn.
  by assert (match src with Ty.Bool => true | _ => false end = false) as -> by (by destruct src).
Qed.

(** C21: the gate and the lowering of casts agree.  A cast that
    [proof_grade_cast_is_admissible] lets into a proof is lowered without an error and
    without an obligation, and its result is the very expression of the operand, inside
    the newtypes of either. *)
Theorem casts_in_lockstep op (src dst : Ty) v s :
  proof_grade_cast_is_admissible m op src dst = true -> bound s v src ->
  exists s' e, translate_cast func m node op src dst v s = Some (Lowered, s') /\ leaf s v src e /\ result_is s' dst e.
Proof.
  intros G B. change (kept op src dst v s). destruct op; try discriminate G; cbn [proof_grade_cast_is_admissible] in G.
  - rewrite decide_False in G by done. repeat (apply orb_true_iff in G as [G|G]).
    + apply andb_true_iff in G as []. by apply thin_cast; [|left| |].
    + apply andb_true_iff in G as [<-%bool_decide_eq_true F]. by apply fat_cast; [|left|].
    + apply andb_true_iff in G as [T N%newtype_spec]. by apply wrap_cast; [|left|].
    + apply andb_true_iff in G as [N%newtype_spec T]. by apply unwrap_cast; [|left|].
    + apply andb_true_iff in G as [U N%newtype_spec]. destruct (address_type src U) as [T _]. by apply wrap_cast; [|right|].
    + apply andb_true_iff in G as [N%newtype_spec U]. destruct (address_type dst U) as [T _]. by apply unwrap_cast; [|right|].
    + apply andb_true_iff in G as [[Is Id]%andb_true_iff W].
      destruct (bit_width_with src _) as [w|] eqn:Ws; [|done]. destruct (bit_width_with dst _) as [w'|] eqn:Wd; [|done].
      apply N.eqb_eq in W as ->. by eapply integer_cast.
  - apply andb_true_iff in G as [T U]. by apply address_cast.
  - rewrite decide_True in G by done. apply orb_true_iff in G as [G|G]; apply andb_true_iff in G as [T F].
    + by apply thin_cast; [|right| |].
    + apply bool_decide_eq_true in T as <-. by apply fat_cast; [|right|].
Qed.

End Lockstep.

End NewtypeSpec.

(** * The value of a summarised call

    [combine_call_summary_returns] merges the values of the return paths of a callee: the
    merged value is that of the path whose conditions hold. *)

Module CallReturnsSpec.
Import AyBuild AyTry AyEncode TrustIr Aggregates ChcValues.

Section Binding.
Context `{AyExpr}.

(** Induction on a value and its fields *)
Fixpoint binding_ind (P : ValueBinding -> Prop) (S : forall e, P (Scalar e)) (A : forall fields, List.Forall P fields -> P (Aggregate fields))
    (b : ValueBinding) : P b :=
  match b with
  | Scalar e => S e
  | Aggregate fields =>
      A fields ((fix go (l : list ValueBinding) : List.Forall P l :=
        match l with [] => List.Forall_nil P | x :: l => @List.Forall_cons _ P x l (binding_ind P S A x) (go l) end) fields)
  end.

End Binding.

Section Returns.
Context `{AyEncode} `{!AySem} `{!AyEval} `{!AyTryEval} `{!AyEncodeEval}.
Context (rho : string -> val) (Adm : admissible rho).

(** What a value means: its leaves *)
Definition meaning (b : ValueBinding) : list val := map (eval rho) (flat_args b).

(** The path is taken. *)
Definition holds (p : CallSummaryReturn) : Prop := forall c, c ∈ path_conditions p -> eval rho c = vbool true.
Definition boolean (p : CallSummaryReturn) : Prop := forall c, c ∈ path_conditions p -> is_bool_sort (sort_of c) = true.

Lemma merge_means guard g : eval rho guard = vbool g -> forall t e r,
  combine_call_summary_binding guard t e = Some r -> meaning r = if g then meaning t else meaning e.
Proof.
  intros G. induction t as [t|thens IH] using binding_ind; intros e r E; destruct e as [e|elses]; try discriminate E; cbn in E.
  - destruct (try_ite guard t e) as [i|] eqn:I; [|done]. injection E as <-.
    destruct (eval_try_ite rho guard t e i Adm I) as (b & Eb & Ei). assert (b = g) as ->.
    { rewrite G in Eb. apply eq_true_iff_eq. rewrite <- !is_true_vbool. by rewrite Eb. }
    unfold meaning. cbn. rewrite Ei. by destruct g.
  - destruct (length thens =? length elses)%nat eqn:L; [|done]. apply Nat.eqb_eq in L.
    match type of E with Aggregate <$> ?m = _ => destruct m as [fields|] eqn:Mg; [|done] end. injection E as <-.
    unfold meaning. cbn [flat_args]. revert elses fields L Mg. induction thens as [|t thens IHt]; intros [|e elses] fields L Mg; try discriminate L.
    + injection Mg as <-. by destruct g.
    + apply Forall_cons in IH as [Ht IH]. destruct (combine_call_summary_binding guard t e) as [f|] eqn:Ef; [|done]. cbn in Mg.
      match type of Mg with ?m ≫= _ = _ => destruct m as [fs|] eqn:Efs; [|done] end. injection Mg as <-.
      apply Ht in Ef. unfold meaning in Ef. cbn [map concat]. rewrite !map_app, Ef.
      rewrite (IHt IH elses fs); [by destruct g|by injection L|done].
Qed.

(** The condition of a path is that its conditions hold. *)
Lemma path_condition_means p : boolean p -> exists g, eval rho (call_summary_path_condition (path_conditions p)) = vbool g /\ (g = true <-> holds p).
Proof.
  unfold boolean, holds. intros B.
  assert (V : forall cs, (forall c, c ∈ cs -> is_bool_sort (sort_of c) = true) -> exists bs, map (eval rho) cs = map vbool bs /\
    (forallb id bs = true <-> forall c, c ∈ cs -> eval rho c = vbool true)).
  { induction cs as [|c cs IH]; intros Bs; [exists []; split; [done|]; split; [by intros _ c Hc%elem_of_nil|done]|].
    destruct IH as (bs & Eb & Hb); [intros; apply Bs; by right|].
    destruct (bool_value rho c Adm (Bs c (list_elem_of_here _ _))) as [b Ec]. exists (b :: bs). cbn. rewrite Ec, Eb. split; [done|].
    rewrite andb_true_iff, Hb. cbn. split.
    - intros [-> Q] x [->|Hx]%elem_of_cons; [done|by apply Q].
    - intros Q. split; [|intros; apply Q; by right]. apply is_true_vbool. rewrite <- Ec, (Q c (list_elem_of_here _ _)). by apply is_true_vbool. }
  destruct (V _ B) as (bs & Eb & Hb). exists (forallb id bs). split; [|done].
  destruct (path_conditions p) as [|c [|d cs]]; cbn [call_summary_path_condition].
  - destruct bs; [|done]. apply eval_bool_const, value_bool_const.
  - destruct bs as [|b [|]]; try done. cbn in Eb. injection Eb as ->. cbn. by rewrite andb_true_r.
  - by apply eval_and_many.
Qed.

(** The path a call returns by: the first one whose conditions hold, the last one where no
    other does *)
Inductive taken : list CallSummaryReturn -> CallSummaryReturn -> Prop :=
  | taken_last p : taken [p] p
  | taken_first p q ps : holds p -> taken (p :: q :: ps) p
  | taken_later p q ps r : ~ holds p -> taken (q :: ps) r -> taken (p :: q :: ps) r.

Lemma taken_holds ps r : taken ps r -> (exists p, p ∈ ps /\ holds p) -> holds r.
Proof.
  induction 1 as [p|p q ps Hp|p q ps r Np _ IH]; [|done|].
  - by intros (x & ->%list_elem_of_singleton & Hx).
  - intros (x & [->|Hx]%elem_of_cons & Hh); [done|]. apply IH. by exists x.
Qed.

Lemma taken_unique ps r q : taken ps r -> taken ps q -> r = q.
Proof.
  intros T. revert q. induction T as [p|p p' ps Hp|p p' ps r Np T IH]; intros q Q; inversion Q; subst; try done.
  by apply IH.
Qed.

Lemma taken_exists ps last : (forall p, p ∈ ps -> boolean p) -> exists r, taken (ps ++ [last]) r.
Proof.
  intros B. induction ps as [|p ps IH]; [by exists last; constructor|].
  destruct IH as [r T]; [intros; apply B; by right|]. cbn.
  destruct (ps ++ [last]) as [|q qs] eqn:Q; [by destruct ps|].
  destruct (path_condition_means p) as (g & _ & G); [apply B; left|].
  destruct g; [by exists p; constructor; apply G|]. exists r. constructor; [|done]. intros Hp%G. done.
Qed.

Lemma paths_mean i : forall paths last first v, (forall p, p ∈ paths -> boolean p) ->
  returned last !! i = Some first -> combine_paths i first paths = Some v ->
  exists r u, taken (rev paths ++ [last]) r /\ returned r !! i = Some u /\ meaning v = meaning u.
Proof.
  intros paths. induction paths as [|p paths IH] using rev_ind; intros last first v B L E.
  { injection E as <-. exists last, first. split_and!; [constructor|done|done]. }
  assert (Cs : forall ps w, combine_paths i w (ps ++ [p]) = x ← combine_paths i w ps; y ← returned p !! i;
    combine_call_summary_binding (call_summary_path_condition (path_conditions p)) y x).
  { induction ps as [|q ps IHp]; intros w; cbn.
    - destruct (returned p !! i) as [y|]; cbn; [|done]. by destruct (combine_call_summary_binding _ y w).
    - destruct (returned q !! i) as [y|]; cbn; [|done]. destruct (combine_call_summary_binding _ y w); cbn; [apply IHp|done]. }
  rewrite Cs in E. destruct (combine_paths i first paths) as [x|] eqn:Ex; [|done]. cbn in E.
  destruct (returned p !! i) as [y|] eqn:Ey; [|done]. cbn in E.
  destruct (IH last first x) as (r & u & T & U & Mx); [intros; apply B; rewrite elem_of_app; by left|done|done|].
  destruct (path_condition_means p) as (g & G & Hg); [apply B; rewrite elem_of_app; right; left|].
  apply (merge_means _ g G) in E. rewrite rev_app_distr. cbn [rev app].
  destruct (rev paths ++ [last]) as [|q ps] eqn:R; [by destruct (rev paths)|]. destruct g.
  - exists p, y. split_and!; [|done|done]. constructor. by apply Hg.
  - exists r, u. split_and!; [|done|congruence]. constructor; [|done]. intros Hp%Hg. done.
Qed.

(** C22: a summarised call returns what the callee does.  Where the merge of the return
    paths gives values, each means what the path taken returns, and a path is taken whose
    conditions hold, if there is one. *)
Theorem combined_returns_exact paths count vs : (forall p, p ∈ paths -> boolean p) ->
  combine_call_summary_returns paths count = Some vs ->
  length vs = count /\ exists r, taken paths r /\ ((exists p, p ∈ paths /\ holds p) -> holds r) /\
  forall i v, vs !! i = Some v -> exists u, returned r !! i = Some u /\ meaning v = meaning u.
Proof.
  intros B E. unfold combine_call_summary_returns in E. destruct (rev paths) as [|last ps] eqn:R; [done|].
  apply (f_equal (@rev CallSummaryReturn)) in R. rewrite rev_involutive in R. cbn in R.
  assert (Bs : forall p, p ∈ ps -> boolean p).
  { intros p Hp. apply B. rewrite R, elem_of_app, list_elem_of_In, <- in_rev, <- list_elem_of_In. by left. }
  apply mapM_Some in E. split; [by rewrite <- (Forall2_length _ _ _ E), length_seq|].
  rewrite R in *. assert (Br : forall p, p ∈ rev ps -> boolean p) by (intros p Hp; apply B; rewrite elem_of_app; by left).
  destruct (taken_exists (rev ps) last Br) as [r T]. exists r. split; [done|]. split; [by apply taken_holds|]. intros i v Hv.
  destruct (Forall2_lookup_r _ _ _ _ _ E Hv) as (j & Hj & Ej). apply lookup_seq in Hj as [-> _]. cbn in Ej.
  destruct (returned last !! i) as [first|] eqn:F; [|done]. cbn in Ej.
  destruct (paths_mean i ps last first v Bs F Ej) as (r' & u & T' & U & Mv). rewrite (taken_unique _ _ _ T T'). by exists u.
Qed.

End Returns.

End CallReturnsSpec.
