(* ===== verification/CellPromotion.v ===== *)
(** * Promotion of stack cells

    Which allocations trust-mc-trust-bmc/src/translate_chc.rs carries through the block
    relations like a value ([compute_promotable_cells_of]), the second lane by which a cell
    enters a proof ([promoted_cell_alloca_reject]), both lanes together
    ([single_cell_alloca_rejection]), and the predicates the source keeps for its tests.
    The two environment variables that widen the promotion are arguments. *)

From stdpp Require Import sorting.
From S2P Require Import Prelude TrustIr BmcExpr ChcCfg CellInit StackCells Aggregates.

Module CellPromotion.
Import TrustIr BmcExpr ChcCfg CellInit StackCells Aggregates.

(** ** Reasons *)

(** [enum PromotionBlocker] *)
Inductive PromotionBlocker :=
  | PointeeNotPreciseScalar (ty : string)
  | AccessTypeMismatch (access access_ty cell_ty : string)
  | BlockerStoredAsValue
  | BlockerOpaque (inst : string)
  | BlockerUsed (inst : string)
  | Unclassified.

(** [PromotionBlocker::kind], its [Display] *)
Definition blocker_kind (b : PromotionBlocker) : string :=
  match b with
  | PointeeNotPreciseScalar _ => "not_promotable.pointee_not_precise_scalar"
  | AccessTypeMismatch _ _ _ => "not_promotable.access_type_mismatch"
  | BlockerStoredAsValue => "not_promotable.pointer_stored_as_value"
  | BlockerOpaque _ => "not_promotable.opaque_instruction"
  | BlockerUsed _ => "not_promotable.pointer_used_by_instruction"
  | Unclassified => "not_promotable.unclassified"
  end.
Definition PromotionBlocker_fmt (b : PromotionBlocker) : string :=
  blocker_kind b +:+
  match b with
  | PointeeNotPreciseScalar ty => "(ty=" +:+ ty +:+ ")"
  | AccessTypeMismatch access access_ty cell_ty => "(" +:+ access +:+ ",access=" +:+ access_ty +:+ ",cell=" +:+ cell_ty +:+ ")"
  | BlockerOpaque inst | BlockerUsed inst => "(inst=" +:+ inst +:+ ")"
  | BlockerStoredAsValue | Unclassified => ""
  end.

(** [enum PromotedAllocaReject], its [kind] and its [Display] *)
Inductive PromotedAllocaReject :=
  | NoDefiningAlloca
  | NotPromotable (blocker : PromotionBlocker)
  | AccessVolatile
  | AccessAligned
  | NotDefinitelyInitialized.
Definition promoted_kind (r : PromotedAllocaReject) : string :=
  match r with
  | NoDefiningAlloca => "no_exact_defining_alloca"
  | NotPromotable blocker => blocker_kind blocker
  | AccessVolatile => "access_volatile"
  | AccessAligned => "access_aligned"
  | NotDefinitelyInitialized => "not_definitely_initialized"
  end.
Definition PromotedAllocaReject_fmt (r : PromotedAllocaReject) : string :=
  match r with NotPromotable blocker => PromotionBlocker_fmt blocker | other => promoted_kind other end.

(** [struct SingleCellAllocaRejection], its [kind] and its [Display] *)
Record SingleCellAllocaRejection := { block_local : BlockLocalAllocaReject; promoted : PromotedAllocaReject }.
Definition rejection_kind (r : SingleCellAllocaRejection) : string := kind (block_local r) +:+ "/" +:+ promoted_kind (promoted r).
Definition SingleCellAllocaRejection_fmt (r : SingleCellAllocaRejection) : string :=
  "block-local=" +:+ BlockLocalAllocaReject_fmt (block_local r) +:+ " promoted=" +:+ PromotedAllocaReject_fmt (promoted r).

Section Promotion.
Context `{Tables} `{!EqDecision Payload}.
Notation Ty := (Ty.Ty Payload).
Notation Node := (InstrNode Payload).
Notation Candidates := (gmap ValueId (Ty * BlockId)).

(** ** The analysis *)

(** [candidate_ty] and [def_block], which have the same keys; the tracked types are an
    argument *)
Definition candidate_node (tracked : Ty -> bool) (cands : Candidates) (at_node : BlockId * Node) : Candidates :=
  let '(at_, node) := at_node in
  match inst node, results node with
  | Inst.Alloca ty None _, result :: _ => if tracked ty then <[result := (ty, at_)]> cands else cands
  | _, _ => cands
  end.
Definition candidates (tracked : Ty -> bool) (func : Function_ Payload) : Candidates :=
  foldl (candidate_node tracked) ∅ (placed_nodes func).

(** [borrow_use_is_transparently_promotable] *)
Definition borrow_use_is_transparently_promotable (func : Function_ Payload) (i : Inst.Inst Payload) (cell : ValueId) : bool :=
  match i with
  | Inst.Borrow ptr | Inst.BorrowMut ptr =>
      (ptr =? cell)%N && negb (bool_decide (stack_alloca_escape_classification func cell = Unbounded))
  | _ => false
  end.

(** The projection in the block of the allocation that may be admitted *)
Definition def_block_local_projection (func : Function_ Payload) (i : Inst.Inst Payload) (cell : ValueId) (ty : Ty)
    (def_block at_ : BlockId) : bool :=
  match ty with Ty.Struct _ | Ty.Tuple _ | Ty.Array _ => true | _ => false end &&
  match i with Inst.GEP _ base _ => (base =? cell)%N | _ => false end &&
  (def_block =? at_)%N && negb (bool_decide (stack_alloca_escape_classification func cell = Unbounded)).

(** A candidate that is used by another instruction *)
Definition disqualify_use (projections borrows : bool) (func : Function_ Payload) (cands : Candidates) (i : Inst.Inst Payload)
    (at_ : BlockId) (disqualified : gset ValueId) (used : ValueId) : gset ValueId :=
  match cands !! used with
  | None => disqualified
  | Some (ty, def_block) =>
      if projections && def_block_local_projection func i used ty def_block at_ ||
         borrows && borrow_use_is_transparently_promotable func i used
      then disqualified else {[used]} ∪ disqualified
  end.

(** A pointer that is accessed at another type *)
Definition disqualify_access (cands : Candidates) (ptr : ValueId) (ty : Ty) (disqualified : gset ValueId) : gset ValueId :=
  match cands !! ptr with
  | Some (cell_ty, _) => if decide (cell_ty = ty) then disqualified else {[ptr]} ∪ disqualified
  | None => disqualified
  end.

Definition disqualify_node (projections borrows : bool) (func : Function_ Payload) (cands : Candidates)
    (disqualified : gset ValueId) (at_node : BlockId * Node) : gset ValueId :=
  let '(at_, node) := at_node in
  match inst node with
  | Inst.Load ty ptr _ _ => disqualify_access cands ptr ty disqualified
  | Inst.Store ty ptr value _ _ =>
      let disqualified := disqualify_access cands ptr ty disqualified in
      match cands !! value with Some _ => {[value]} ∪ disqualified | None => disqualified end
  | other =>
      match collect_inst_value_uses other with
      | None => dom cands ∪ disqualified
      | Some uses => foldl (disqualify_use projections borrows func cands other at_) disqualified uses
      end
  end.
Definition disqualified_cells (projections borrows : bool) (func : Function_ Payload) (cands : Candidates) : gset ValueId :=
  foldl (disqualify_node projections borrows func cands) ∅ (placed_nodes func).

(** The candidates in the order of a [BTreeMap] *)
Definition by_index (p q : ValueId * (Ty * BlockId)) : Prop := (p.1 <= q.1)%N.
#[export] Instance by_index_dec p q : Decision (by_index p q).
Proof. unfold by_index. apply _. Defined.

(** [compute_promotable_cells_of] *)
Definition compute_promotable_cells_of (projections borrows : bool) (module : Module_ Payload) (func : Function_ Payload) :
    list (ValueId * Ty) * gmap ValueId BlockId :=
  let cands := candidates (promotable_cell_ty module) func in
  let disqualified := disqualified_cells projections borrows func cands in
  let surviving := filter (fun p => p.1 ∉ disqualified) (merge_sort by_index (map_to_list cands)) in
  (map (fun p => (p.1, fst p.2)) surviving, list_to_map (map (fun p => (p.1, snd p.2)) surviving)).

(** ** The lane *)

Definition defines_cell (func : Function_ Payload) (result : ValueId) (ty : Ty) : bool :=
  existsb (fun b => existsb (defines_exact_cell result ty) (body b)) (blocks func).

(** The first access with a qualifier *)
Fixpoint qualified_access (result : ValueId) (nodes : list Node) : option PromotedAllocaReject :=
  match nodes with
  | [] => None
  | node :: nodes =>
      match inst node with
      | Inst.Load _ ptr volatile align | Inst.Store _ ptr _ volatile align =>
          if (ptr =? result)%N && (volatile || bool_decide (is_Some align)) then
            Some (if volatile : bool then AccessVolatile else AccessAligned)
          else qualified_access result nodes
      | _ => qualified_access result nodes
      end
  end.

(** [promotion_blocker_of] *)
Definition blocker_of_node (result : ValueId) (ty : Ty) (node : Node) : option PromotionBlocker :=
  match inst node with
  | Inst.Load access_ty ptr _ _ =>
      if (ptr =? result)%N && negb (bool_decide (access_ty = ty))
      then Some (AccessTypeMismatch "load" (show_ty access_ty) (show_ty ty)) else None
  | Inst.Store access_ty ptr value _ _ =>
      if (ptr =? result)%N && negb (bool_decide (access_ty = ty))
      then Some (AccessTypeMismatch "store" (show_ty access_ty) (show_ty ty))
      else if (value =? result)%N then Some BlockerStoredAsValue else None
  | other =>
      match collect_inst_value_uses other with
      | None => Some (BlockerOpaque (inst_variant_name other))
      | Some uses => if existsb (N.eqb result) uses then Some (BlockerUsed (inst_variant_name other)) else None
      end
  end.
Fixpoint first_blocker (result : ValueId) (ty : Ty) (nodes : list Node) : PromotionBlocker :=
  match nodes with
  | [] => Unclassified
  | node :: nodes => match blocker_of_node result ty node with Some b => b | None => first_blocker result ty nodes end
  end.
Definition promotion_blocker_of (module : Module_ Payload) (func : Function_ Payload) (result : ValueId) (ty : Ty) : PromotionBlocker :=
  if promotable_cell_ty module ty then first_blocker result ty (nodes_of func) else PointeeNotPreciseScalar (show_ty ty).

(** [promoted_cell_alloca_reject] *)
Definition is_promoted (cells : list (ValueId * Ty)) (result : ValueId) (ty : Ty) : bool :=
  existsb (fun p => (p.1 =? result)%N && bool_decide (p.2 = ty)) cells.
Definition promoted_cell_alloca_reject (projections borrows : bool) (module : Module_ Payload) (func : Function_ Payload)
    (result : ValueId) (ty : Ty) : option PromotedAllocaReject :=
  if negb (defines_cell func result ty) then Some NoDefiningAlloca
  else if negb (is_promoted (fst (compute_promotable_cells_of projections borrows module func)) result ty) then
    Some (NotPromotable (promotion_blocker_of module func result ty))
  else
    match qualified_access result (nodes_of func) with
    | Some reason => Some reason
    | None => if promoted_cell_is_definitely_initialized func result then None else Some NotDefinitelyInitialized
    end.
(** [promoted_cell_alloca_is_admissible] *)
Definition promoted_cell_alloca_is_admissible (projections borrows : bool) (module : Module_ Payload) (func : Function_ Payload)
    (result : ValueId) (ty : Ty) : bool :=
  match promoted_cell_alloca_reject projections borrows module func result ty with None => true | Some _ => false end.

(** [single_cell_alloca_rejection], [single_cell_alloca_is_admissible] *)
Definition single_cell_alloca_rejection (widen projections borrows : bool) (module : Module_ Payload) (func : Function_ Payload)
    (result : ValueId) (ty : Ty) : option SingleCellAllocaRejection :=
  block_local ← block_local_alloca_reject widen func result ty;
  promoted ← promoted_cell_alloca_reject projections borrows module func result ty;
  Some {| block_local := block_local; promoted := promoted |}.
Definition single_cell_alloca_is_admissible (widen projections borrows : bool) (module : Module_ Payload) (func : Function_ Payload)
    (result : ValueId) (ty : Ty) : bool :=
  bool_decide (single_cell_alloca_rejection widen projections borrows module func result ty = None).

(** ** The predicates of the tests *)

(** [promoted_cell_alloca_is_admissible_reference] *)
Definition promoted_cell_alloca_is_admissible_reference (projections borrows : bool) (module : Module_ Payload)
    (func : Function_ Payload) (result : ValueId) (ty : Ty) : bool :=
  defines_cell func result ty && is_promoted (fst (compute_promotable_cells_of projections borrows module func)) result ty &&
  bool_decide (qualified_access result (nodes_of func) = None) && promoted_cell_is_definitely_initialized func result.

(** [promoted_cell_alloca_is_admissible_scalar_reference] *)
Definition promoted_cell_alloca_is_admissible_scalar_reference (func : Function_ Payload) (result : ValueId) (ty : Ty) : bool :=
  let cands := candidates is_precise_stack_scalar_ty func in
  defines_cell func result ty && bool_decide (fst <$> cands !! result = Some ty) &&
  bool_decide (result ∉ disqualified_cells false false func cands) &&
  bool_decide (qualified_access result (nodes_of func) = None) && promoted_cell_is_definitely_initialized func result.

End Promotion.

End CellPromotion.

(** * What the promotion of stack cells promises

    The promoted cells are the candidates every instruction of the function uses as
    allowed; the reason given for a cell that is not is never the missing one; the lane
    differs from the one it replaced in the types it tracks; and a cell either lane admits
    is not aliased, has one type and no qualified access, and is written before it is
    read.  The optional widenings are off, as they are unless an environment variable asks
    for them. *)

Module CellPromotionSpec.
Import TrustIr BmcExpr ChcCfg ChcCfgSpec CellInit CellInitSpec StackCells StackCellsSpec Aggregates CellPromotion.

(** ** Folds of a set that only grows *)

Lemma fold_grows {A} (step : gset ValueId -> A -> gset ValueId) (adds : A -> ValueId -> Prop)
    (S : forall d x v, v ∈ step d x <-> v ∈ d \/ adds x v) (l : list A) : forall d v,
  v ∈ foldl step d l <-> v ∈ d \/ exists x, x ∈ l /\ adds x v.
Proof.
  induction l as [|x l IH]; intros d v; cbn.
  { split; [by left|]. by intros [|(? & Hx%elem_of_nil & _)]. }
  rewrite IH, S. setoid_rewrite elem_of_cons. split.
  - intros [[|Ax]|(y & Hy & Ay)]; eauto.
  - intros [|(y & [->|Hy] & Ay)]; eauto.
Qed.

Section Analysis.
Context `{Tables} `{!EqDecision Payload} (func : Function_ Payload).
Notation Ty := (Ty.Ty Payload).
Notation Node := (InstrNode Payload).
Notation Candidates := (gmap ValueId (Ty * BlockId)).

(** ** Disqualification *)

Lemma access_spec (cands : Candidates) ptr ty d v :
  v ∈ disqualify_access cands ptr ty d <-> v ∈ d \/ v = ptr /\ exists cty db, cands !! v = Some (cty, db) /\ cty <> ty.
Proof.
  unfold disqualify_access. destruct (cands !! ptr) as [[cty db]|] eqn:E.
  - destruct (decide (cty = ty)) as [->|Ne].
    + split; [by left|]. intros [|(-> & cty & db' & E' & Ne)]; [done|congruence].
    + rewrite elem_of_union, elem_of_singleton. split.
      * intros [->|]; [right; split; [done|by exists cty, db]|by left].
      * intros [|(-> & _)]; [by right|by left].
  - split; [by left|]. intros [|(-> & ? & ? & E' & _)]; [done|congruence].
Qed.

(** Without the widenings a candidate is disqualified by an instruction that does not
    allow it. *)
Definition blames (cands : Candidates) (p : BlockId * Node) (v : ValueId) : Prop :=
  exists ty db, cands !! v = Some (ty, db) /\ ~ allowed v ty (snd p).

Lemma allowed_dec v ty (node : Node) : Decision (allowed v ty node).
Proof.
  assert (U : forall i, Decision (unread i v)).
  { intros i. destruct (collect_inst_value_uses i) as [uses|] eqn:E.
    - destruct (decide (v ∈ uses)); [right; intros (us & Eu & N)%unread_spec; congruence|left; by eapply unread_known].
    - right. intros (us & Eu & _)%unread_spec. congruence. }
  unfold allowed. destruct (inst node); first [apply U|apply _].
Qed.

Lemma node_spec (cands : Candidates) d p v :
  v ∈ disqualify_node false false func cands d p <-> v ∈ d \/ blames cands p v.
Proof.
  destruct p as [at_ node]. unfold disqualify_node, blames, allowed. cbn [snd].
  assert (Uses : forall i, v ∈ (match collect_inst_value_uses i with
      | None => dom cands ∪ d
      | Some uses => foldl (disqualify_use false false func cands i at_) d uses end) <->
    v ∈ d \/ exists ty db, cands !! v = Some (ty, db) /\ ~ unread i v).
  { intros i. setoid_rewrite <- unread_spec. destruct (collect_inst_value_uses i) as [uses|].
    - rewrite (fold_grows _ (fun u v => v = u /\ is_Some (cands !! v))).
      + split; [intros [|(u & Hu & -> & [[ty db] E])]; [by left|right]; exists ty, db; split; [done|]; by intros (? & [= <-] & N)|].
        intros [|(ty & db & E & N)]; [by left|right]. exists v. split_and!; [|done|by eexists].
        destruct (decide (v ∈ uses)) as [|Nv]; [done|]. destruct N. by exists uses.
      + intros d' u w. unfold disqualify_use. destruct (cands !! u) as [[ty db]|] eqn:E; cbn [andb orb].
        * rewrite elem_of_union, elem_of_singleton. split; [intros [->|]; [right; split; [done|by rewrite E]|by left]|].
          intros [|[-> _]]; [by right|by left].
        * split; [by left|]. intros [|[-> [? ?]]]; [done|congruence].
    - rewrite elem_of_union, elem_of_dom. split.
      + intros [[[ty db] E]|]; [right; exists ty, db; split; [done|]; by intros (? & ? & _)|by left].
      + intros [|(ty & db & E & _)]; [by right|left; by rewrite E]. }
  destruct (inst node) eqn:I; try apply Uses.
  - rewrite access_spec. split; (intros [|Q]; [by left|right]).
    + destruct Q as (-> & cty & db & E & Ne). exists cty, db. split; [done|]. intros A. by apply Ne, eq_sym, A.
    + destruct Q as (cty & db & E & N). destruct (decide (ptr = v)) as [->|Np]; [|by destruct N].
      split; [done|]. exists cty, db. split; [done|]. intros ->. by apply N.
  - assert (Val : forall d' : gset ValueId, v ∈ (match cands !! value with Some _ => {[value]} ∪ d' | None => d' end : gset ValueId) <->
      v ∈ d' \/ v = value /\ is_Some (cands !! v)).
    { intros d'. destruct (cands !! value) eqn:E.
      - rewrite elem_of_union, elem_of_singleton. split; [intros [->|]; [right; split; [done|by rewrite E]|by left]|].
        intros [|[-> _]]; [by right|by left].
      - split; [by left|]. intros [|[-> [? ?]]]; [done|congruence]. }
    rewrite Val, access_spec. split.
    + intros [[|(-> & cty & db & E & Ne)]|[-> [[cty db] E]]]; [by left|right|right]; exists cty, db; (split; [done|]).
      * intros [A _]. by apply Ne, eq_sym, A.
      * by intros [_ A].
    + intros [|(cty & db & E & N)]; [by left; left|]. destruct (decide (v = value)) as [->|Nv]; [right; split; [done|by rewrite E]|].
      left; right. destruct (decide (ptr = v)) as [->|Np]; [|by destruct N]. split; [done|]. exists cty, db. split; [done|].
      intros ->. apply N. by split.
Qed.

Lemma disqualified_spec (cands : Candidates) v : v ∈ disqualified_cells false false func cands <->
  exists ty db, cands !! v = Some (ty, db) /\ exists node, node ∈ nodes_of func /\ ~ allowed v ty node.
Proof.
  unfold disqualified_cells. rewrite (fold_grows _ (blames cands)) by (intros; apply node_spec). rewrite nodes_placed. split.
  - intros [?%elem_of_empty|(p & Hp & ty & db & E & N)]; [done|]. exists ty, db. split; [done|]. exists (snd p). split; [|done].
    apply list_elem_of_fmap. by exists p.
  - intros (ty & db & E & node & (p & -> & Hp)%list_elem_of_fmap & N). right. exists p. split; [done|]. by exists ty, db.
Qed.

(** ** The promoted cells *)

Lemma promoted_spec m v ty : is_promoted (fst (compute_promotable_cells_of false false m func)) v ty = true <->
  (exists db, candidates (promotable_cell_ty m) func !! v = Some (ty, db)) /\ forall node, node ∈ nodes_of func -> allowed v ty node.
Proof.
  unfold is_promoted, compute_promotable_cells_of. cbn [fst]. set (cands := candidates _ func).
  rewrite existsb_exists. setoid_rewrite <- list_elem_of_In. setoid_rewrite list_elem_of_fmap.
  assert (P : forall p, p ∈ filter (fun p => p.1 ∉ disqualified_cells false false func cands) (merge_sort by_index (map_to_list cands)) <->
    cands !! p.1 = Some p.2 /\ p.1 ∉ disqualified_cells false false func cands).
  { intros [i x]. rewrite list_elem_of_filter, (merge_sort_Permutation by_index (map_to_list cands)), elem_of_map_to_list. tauto. }
  split.
  - intros (q & (p & -> & Hp%P) & [Ev%N.eqb_eq Et%bool_decide_eq_true]%andb_true_iff). destruct p as [i [cty db]]. cbn in *. subst i cty.
    destruct Hp as [E N]. split; [by exists db|]. intros node Hn. destruct (allowed_dec v ty node) as [|Na]; [done|].
    destruct N. apply disqualified_spec. exists ty, db. split; [done|]. by exists node.
  - intros [[db E] A]. exists (v, ty). split; [|cbn; by rewrite N.eqb_refl, bool_decide_true].
    exists (v, (ty, db)). split; [done|]. apply P. split; [done|]. cbn. rewrite disqualified_spec.
    intros (ty' & db' & E' & node & Hn & N). assert (ty' = ty) as -> by congruence. by apply N, A.
Qed.

(** ** The candidates *)

(** Every value has one definition, and an allocation defines one value. *)
Record single_definitions : Prop := {
  sd_unique : NoDup (concat (map results (nodes_of func)));
  sd_alloca : forall node, node ∈ nodes_of func -> forall ty count align, inst node = Inst.Alloca ty count align ->
    (length (results node) <= 1)%nat;
}.

Definition allocated (tracked : Ty -> bool) (v : ValueId) (ty : Ty) (db : BlockId) (p : BlockId * Node) : Prop :=
  fst p = db /\ tracked ty = true /\ (exists align, inst (snd p) = Inst.Alloca ty None align) /\ head (results (snd p)) = Some v.

Lemma candidate_node_spec tracked (cands : Candidates) p v ty db :
  (candidate_node tracked cands p !! v = Some (ty, db) ->
    allocated tracked v ty db p \/ cands !! v = Some (ty, db)) /\
  (allocated tracked v ty db p -> candidate_node tracked cands p !! v = Some (ty, db)) /\
  (v ∉ results (snd p) -> candidate_node tracked cands p !! v = cands !! v).
Proof.
  destruct p as [at_ node]. unfold candidate_node, allocated. cbn [fst snd].
  destruct (inst node) eqn:I;
    try (split_and!; [by right|by intros (_ & _ & [? ?] & _)|done]).
  destruct count; [split_and!; [by right|by intros (_ & _ & [? ?] & _)|done]|].
  destruct (results node) as [|r rs]; [split_and!; [by right|by intros (_ & _ & _ & ?)|done]|].
  rename ty0 into cty. destruct (tracked cty) eqn:T.
  - destruct (decide (r = v)) as [->|Ne].
    + rewrite lookup_insert_eq. split_and!.
      * intros [= -> ->]. left. split_and!; [done|done|by exists align|done].
      * intros (<- & _ & [? [= -> _]] & _). done.
      * intros N. destruct N. left.
    + rewrite lookup_insert_ne by done. split_and!; [by right|intros (_ & _ & _ & [= ?]); done|done].
  - split_and!; [by right|intros (_ & T' & [? [= -> _]] & _); congruence|done].
Qed.

Lemma candidates_spec tracked v ty db : single_definitions ->
  candidates tracked func !! v = Some (ty, db) <-> exists p, p ∈ placed_nodes func /\ allocated tracked v ty db p.
Proof.
  intros [U _]. rewrite nodes_placed in U. unfold candidates. revert U. generalize (placed_nodes func).
  induction l as [|p l IH] using rev_ind; intros U.
  { split; [done|]. by intros (? & Hx%elem_of_nil & _). }
  rewrite foldl_app. cbn [foldl]. rewrite !map_app, concat_app in U. cbn in U. rewrite app_nil_r in U.
  apply NoDup_app in U as (U & Disj & _). destruct (candidate_node_spec tracked (foldl (candidate_node tracked) ∅ l) p v ty db) as (F & B & K).
  setoid_rewrite elem_of_app. setoid_rewrite list_elem_of_singleton. split.
  - intros [A|E]%F; [by exists p; split; [right|]|]. apply IH in E as (q & Hq & A); [|done]. exists q. by split; [left|].
  - intros (q & [Hq| ->] & A); [|by apply B]. rewrite K; [apply IH; [done|by exists q]|].
    destruct A as (_ & _ & _ & Hd). apply Disj. apply list_elem_of_In, in_concat. exists (results (snd q)).
    split; [|by destruct (results (snd q)); [|injection Hd as ->; left]]. rewrite map_map. apply in_map_iff. exists q. split; [done|by apply list_elem_of_In].
Qed.

(** ** The exact allocation *)

Lemma defines_spec v ty : defines_cell func v ty = true <->
  exists p, p ∈ placed_nodes func /\ v ∈ results (snd p) /\ inst (snd p) = Inst.Alloca ty None None.
Proof.
  unfold defines_cell, placed_nodes. rewrite existsb_exists. setoid_rewrite existsb_exists. setoid_rewrite <- list_elem_of_In. split.
  - intros (b & Hb & node & Hn & D). exists (block_id b, node). split.
    + apply list_elem_of_In, in_concat. exists (map (pair (block_id b)) (body b)). rewrite !in_map_iff.
      split; [exists b; split; [done|by apply list_elem_of_In]|exists node; split; [done|by apply list_elem_of_In]].
    + unfold defines_exact_cell in D. apply andb_true_iff in D as [(r & Hr & <-%N.eqb_eq)%existsb_exists D].
      split; [by apply list_elem_of_In|]. cbn. destruct (inst node); try done. destruct count, align; try done.
      by apply bool_decide_eq_true in D as ->.
  - intros (p & Hp & Hv & I). apply list_elem_of_In, in_concat in Hp as (l & Hl & Hp). apply in_map_iff in Hl as (b & <- & Hb).
    apply in_map_iff in Hp as (node & <- & Hn). exists b. split; [by apply list_elem_of_In|]. exists node. split; [by apply list_elem_of_In|].
    unfold defines_exact_cell. cbn in *. rewrite I, bool_decide_true by done. apply andb_true_iff. split; [|done].
    apply existsb_exists. exists v. split; [by apply list_elem_of_In|apply N.eqb_refl].
Qed.

(** With single definitions it makes the value a candidate, at its type and no other. *)
Lemma defined_candidate tracked v ty ty' : single_definitions -> defines_cell func v ty = true ->
  (exists db, candidates tracked func !! v = Some (ty', db)) <-> ty' = ty /\ tracked ty = true.
Proof.
  intros U D%defines_spec. pose proof D as (p & Hp & Hv & I).
  assert (Hd : head (results (snd p)) = Some v).
  { assert (Hn : snd p ∈ nodes_of func) by (rewrite nodes_placed; apply list_elem_of_fmap; by exists p).
    pose proof (sd_alloca U _ Hn _ _ _ I) as L. destruct (results (snd p)) as [|r [|]]; [by apply elem_of_nil in Hv| |cbn in L; lia].
    by apply list_elem_of_singleton in Hv as ->. }
  split.
  - intros [db E]. apply candidates_spec in E as (q & Hq & _ & T & [al Iq] & Hdq); [|done].
    assert (snd q = snd p) as Eq; [|rewrite Eq in Iq; by assert (ty' = ty) as -> by congruence].
    assert (Hvq : v ∈ results (snd q)) by (by destruct (results (snd q)); [|injection Hdq as ->; left]).
    pose proof (sd_unique U) as Nd. rewrite nodes_placed in Nd. clear - Nd Hp Hq Hv Hvq. revert Nd Hp Hq.
    generalize (placed_nodes func). induction l as [|x l IH]; intros Nd Hp Hq; [by apply elem_of_nil in Hp|].
    cbn in Nd. apply NoDup_app in Nd as (_ & Disj & Nd).
    assert (In_ : forall y, y ∈ l -> v ∈ results (snd y) -> v ∈ concat (map results (map snd l))).
    { intros y Hy Hvy. apply list_elem_of_In, in_concat. exists (results (snd y)). split; [|by apply list_elem_of_In].
      rewrite map_map. apply in_map_iff. exists y. split; [done|by apply list_elem_of_In]. }
    apply elem_of_cons in Hp as [->|Hp]; apply elem_of_cons in Hq as [->|Hq]; [done| | |by apply IH].
    + exfalso. apply (Disj v Hv). by apply (In_ q).
    + exfalso. apply (Disj v Hvq). by apply (In_ p).
  - intros [-> T]. exists (fst p). apply candidates_spec; [done|]. exists p. split; [done|]. split_and!; [done|done|by exists None|done].
Qed.

(** ** Reasons *)

Lemma blocker_spec v ty node : blocker_of_node v ty node = None <-> allowed v ty node.
Proof.
  assert (U : forall i, (match collect_inst_value_uses i with
      | None => Some (BlockerOpaque (inst_variant_name i))
      | Some uses => if existsb (N.eqb v) uses then Some (BlockerUsed (inst_variant_name i)) else None end) = None <->
    unread i v).
  { intros i. rewrite <- unread_spec. destruct (collect_inst_value_uses i) as [uses|]; [|split; [done|by intros (? & ? & _)]].
    destruct (existsb (N.eqb v) uses) eqn:X.
    - apply existsb_exists in X as (u & Hu & <-%N.eqb_eq). split; [done|]. intros (us & [= <-] & N). by apply list_elem_of_In in Hu.
    - split; [|done]. intros _. exists uses. split; [done|]. intros Hv%list_elem_of_In. apply not_true_iff_false in X. apply X, existsb_exists.
      exists v. split; [done|apply N.eqb_refl]. }
  unfold blocker_of_node, allowed. destruct (inst node); try apply U.
  - destruct (N.eqb_spec ptr v), (bool_decide_reflect (ty0 = ty)); cbn; naive_solver.
  - destruct (N.eqb_spec ptr v), (bool_decide_reflect (ty0 = ty)), (N.eqb_spec value v); cbn; naive_solver.
Qed.

Lemma first_blocker_spec v ty nodes : first_blocker v ty nodes = Unclassified <-> forall node, node ∈ nodes -> allowed v ty node.
Proof.
  induction nodes as [|node nodes IH]; cbn; [split; [by intros _ ? ?%elem_of_nil|done]|]. setoid_rewrite elem_of_cons.
  destruct (blocker_of_node v ty node) as [b|] eqn:B.
  - split.
    + intros ->. unfold blocker_of_node in B. by repeat (case_match; simplify_eq).
    + intros A. assert (X : blocker_of_node v ty node = None) by (apply blocker_spec, A; by left). congruence.
  - apply blocker_spec in B. rewrite IH. split; [intros A n [->|]; auto|auto].
Qed.

Lemma qualified_spec v nodes : qualified_access v nodes = None <-> forall node, node ∈ nodes -> unqualified v node.
Proof.
  induction nodes as [|node nodes IH]; cbn; [split; [by intros _ ? ?%elem_of_nil|done]|]. setoid_rewrite elem_of_cons.
  assert (Q : forall (ptr : ValueId) (volatile : bool) (align : option N),
    (if (ptr =? v)%N && (volatile || bool_decide (is_Some align)) then Some (if volatile then AccessVolatile else AccessAligned)
     else qualified_access v nodes) = None <->
    (ptr = v -> volatile = false /\ align = None) /\ qualified_access v nodes = None).
  { intros ptr vol al. destruct (N.eqb_spec ptr v) as [->|]; cbn [andb]; [|naive_solver].
    destruct vol, al; rewrite ?bool_decide_true by done; rewrite ?bool_decide_false by (by intros []); cbn; naive_solver. }
  assert (E : unqualified v node /\ (forall n, n ∈ nodes -> unqualified v n) <-> forall n, n = node \/ n ∈ nodes -> unqualified v n)
    by (split; [intros [A B] n [->|]; auto|auto]).
  rewrite <- E, <- IH. unfold unqualified. destruct (inst node); try tauto; apply Q.
Qed.


(** ** The lanes *)

Lemma scalar_candidate m ty : is_precise_stack_scalar_ty ty = true -> promotable_cell_ty m ty = true.
Proof. unfold promotable_cell_ty. by intros ->. Qed.

(** C26: promotion is decided by the uses of the cell.  With single definitions and without
    the widenings, an allocation is promoted exactly when its type is tracked and every
    instruction accesses the cell at its type or does not use it; the reason given when it
    is not is never the missing one, and is given only then; and the lane admits what its
    scalar-only form admits and besides only tracked aggregates. *)
Theorem promotion_exact m v ty : single_definitions -> defines_cell func v ty = true ->
  (is_promoted (fst (compute_promotable_cells_of false false m func)) v ty = true <->
    promotable_cell_ty m ty = true /\ forall node, node ∈ nodes_of func -> allowed v ty node) /\
  (is_promoted (fst (compute_promotable_cells_of false false m func)) v ty = true <->
    promotion_blocker_of m func v ty = Unclassified) /\
  (promoted_cell_alloca_is_admissible_scalar_reference func v ty = true <->
    promoted_cell_alloca_is_admissible false false m func v ty = true /\ is_precise_stack_scalar_ty ty = true) /\
  (promoted_cell_alloca_is_admissible false false m func v ty = true ->
    is_precise_stack_scalar_ty ty = true \/ is_Some (aggregate_field_tys_of m ty)).
Proof.
  intros U D.
  assert (P : is_promoted (fst (compute_promotable_cells_of false false m func)) v ty = true <->
    promotable_cell_ty m ty = true /\ forall node, node ∈ nodes_of func -> allowed v ty node).
  { rewrite promoted_spec, (defined_candidate _ v ty ty U D). naive_solver. }
  assert (A : promoted_cell_alloca_is_admissible false false m func v ty = true <->
    promotable_cell_ty m ty = true /\ (forall node, node ∈ nodes_of func -> allowed v ty node) /\
    qualified_access v (nodes_of func) = None /\ promoted_cell_is_definitely_initialized func v = true).
  { unfold promoted_cell_alloca_is_admissible, promoted_cell_alloca_reject. rewrite D. cbn [negb].
    destruct (is_promoted _ v ty) eqn:I; cbn [negb].
    - destruct (proj1 P eq_refl). destruct (qualified_access v _); [naive_solver|]. destruct (promoted_cell_is_definitely_initialized func v); naive_solver.
    - split; [done|]. intros (T & Al & _). assert (false = true); [|done]. by apply P. }
  split_and!; [done| | |].
  - rewrite P. unfold promotion_blocker_of. destruct (promotable_cell_ty m ty); [rewrite first_blocker_spec; naive_solver|naive_solver].
  - rewrite A. unfold promoted_cell_alloca_is_admissible_scalar_reference. rewrite D. cbn [andb].
    rewrite !andb_true_iff, !bool_decide_eq_true, disqualified_spec.
    pose proof (defined_candidate is_precise_stack_scalar_ty v ty ty U D) as C. split.
    + intros [[[F N] Q] I]. destruct (candidates is_precise_stack_scalar_ty func !! v) as [[cty db]|] eqn:E; [|done].
      injection F as ->. destruct (proj1 C ltac:(by exists db)) as [_ T]. split_and!; try done; [by apply scalar_candidate|].
      intros node Hn. destruct (allowed_dec v ty node) as [|Na]; [done|]. destruct N. exists ty, db. split; [done|]. by exists node.
    + intros [(_ & Al & Q & I) T]. destruct (proj2 C (conj eq_refl T)) as [db E]. rewrite E. split_and!; try done.
      intros (cty & db' & [= <- <-] & node & Hn & Na). by apply Na, Al.
  - intros (T & _)%A. unfold promotable_cell_ty in T. apply orb_true_iff in T as [|T%bool_decide_eq_true]; [by left|by right].
Qed.

Lemma promoted_lane m v ty : promoted_cell_alloca_reject false false m func v ty = None ->
  defines_cell func v ty = true /\ (forall node, node ∈ nodes_of func -> allowed v ty node /\ unqualified v node) /\ initialised func v.
Proof.
  unfold promoted_cell_alloca_reject. destruct (defines_cell func v ty) eqn:D; [|done]. cbn [negb].
  destruct (is_promoted _ v ty) eqn:P; [|done]. cbn [negb]. apply promoted_spec in P as [_ A].
  destruct (qualified_access v (nodes_of func)) eqn:Q; [done|].
  destruct (promoted_cell_is_definitely_initialized func v) eqn:I; [|done]. intros _.
  split_and!; [done| |by apply accepted_initialised].
  intros node Hn. split; [by apply A|]. by apply (proj1 (qualified_spec v (nodes_of func)) Q).
Qed.

Lemma admitted_defines v ty : admitted func v ty -> defines_cell func v ty = true.
Proof.
  unfold admitted, block_local_alloca_reject. destruct (negb _ && negb _); [done|]. unfold find_definition_block, defines_cell.
  destruct (List.find _ (blocks func)) as [b|] eqn:F; [|done]. intros _. apply find_some in F as [Hb D].
  apply existsb_exists. by exists b.
Qed.

(** C20: a cell that enters a proof is exactly modelled.  Where either lane admits an
    allocation, it is an exact single-cell one, no pointer is derived from it or handed
    on, its accesses are of its type and have no qualifier, and in a function of distinct
    blocks that allocates before it accesses every run writes it before it reads it. *)
Theorem admitted_cells_exact m v ty : single_cell_alloca_is_admissible false false false m func v ty = true ->
  (exists node, node ∈ nodes_of func /\ v ∈ results node /\ inst node = Inst.Alloca ty None None) /\
  stack_alloca_pointer_is_non_escaping func v = true /\ stack_alloca_cell_accesses_match_type func v ty = true /\
  (forall node, node ∈ nodes_of func -> unqualified v node) /\
  (NoDup (map block_id (blocks func)) -> allocated_first func v -> initialised func v).
Proof.
  intros E%bool_decide_eq_true.
  assert (L : defines_cell func v ty = true /\ (forall node, node ∈ nodes_of func -> allowed v ty node /\ unqualified v node) /\
    (NoDup (map block_id (blocks func)) -> allocated_first func v -> initialised func v)).
  { unfold single_cell_alloca_rejection in E. destruct (block_local_alloca_reject false func v ty) eqn:B; cbn in E.
    - destruct (promoted_cell_alloca_reject false false m func v ty) eqn:P; [done|].
      destruct (promoted_lane m v ty P) as (D & A & I). split_and!; [done|done|by intros].
    - split_and!; [by apply admitted_defines| |by apply (admitted_initialised func v ty)].
      intros node Hn. split; [by apply (admitted_node func v ty)|by apply (admitted_unqualified func v ty)]. }
  destruct L as (D & A & I). destruct (allowed_non_escaping func v ty) as [Ne Mt]; [intros; by apply A|].
  split_and!; [|done|done|intros; by apply A|done]. apply defines_spec in D as (p & Hp & Hv & Ip).
  exists (snd p). split; [|done]. rewrite nodes_placed. apply list_elem_of_fmap. by exists p.
Qed.

End Analysis.

End CellPromotionSpec.
