(* ===== verification/LiveValues.v ===== *)
(** * The values a block relation carries

    Which values trust-mc-trust-bmc/src/translate_chc.rs threads through the relation of
    a block: the results that are used outside their block
    ([cross_block_general_results]) and, of all threaded values, those live in the block
    ([compute_live_params], a backward analysis). *)

From S2P Require Import Prelude TrustIr BmcExpr ChcCfg StackCells Aggregates.

Module LiveValues.
Import TrustIr BmcExpr ChcCfg StackCells Aggregates.

Section Live.
Context `{Tables}.
Context (func : Function_ Payload) (module : Module_ Payload).
Notation Ty := (Ty.Ty Payload).
Notation Node := (InstrNode Payload).
Notation BlockP := (Block Payload).

(** ** Results used in other blocks *)

(** [threadable_result_ty] *)
Definition threadable_result_ty (i : Inst.Inst Payload) : option Ty :=
  match i with
  | Inst.BinOp _ ty _ _ | Inst.UnOp ty _ | Inst.Overflow _ ty _ _ | Inst.Copy ty _ | Inst.Select ty _ _ _
  | Inst.Const ty _ | Inst.Load ty _ _ _ | Inst.LoadSlot ty _ | Inst.ExtractField ty _ => Some ty
  | Inst.ICmp _ _ _ _ | Inst.FCmp _ _ _ => Some Ty.Bool
  | Inst.Cast dst_ty _ => Some dst_ty
  | Inst.Call callee _ =>
      callee_func ← function_by_id module callee;
      ty ← func_types module !! func_ty callee_func;
      head (ft_returns ty)
  | _ => None
  end.

(** The type is one a relation carries. *)
Definition carryable (ty : Ty) : bool := is_precise_stack_scalar_ty ty || bool_decide (is_Some (aggregate_field_tys_of module ty)).

(** [candidate_def] *)
Definition has_own_case (i : Inst.Inst Payload) : bool :=
  match i with
  | Inst.Undef _ | Inst.InsertField _ _ _ => true
  | Inst.DialectOp op => is_thread_local_addr op
  | _ => false
  end.
Definition candidate_def (defs : gmap ValueId BlockId) (at_node : BlockId * Node) : gmap ValueId BlockId :=
  let '(at_, node) := at_node in
  if has_own_case (inst node) then defs
  else
    match threadable_result_ty (inst node), results node with
    | Some ty, result :: _ => if carryable ty then <[result := at_]> defs else defs
    | _, _ => defs
    end.
Definition candidate_defs : gmap ValueId BlockId := foldl candidate_def ∅ (placed_nodes func).

(** The reads of a block; [None] where they are not all known *)
Definition block_reads (b : BlockP) : option (list ValueId) :=
  reads ← mapM (fun node => collect_inst_value_uses (inst node)) (body b);
  Some (concat reads).

(** [cross_block_general_results] *)
Definition used_elsewhere (b : BlockP) (used : ValueId) : bool :=
  match candidate_defs !! used with Some def => negb (def =? block_id b)%N | None => false end.
Definition cross_block_uses (b : BlockP) : gset ValueId :=
  match block_reads b with
  | None => filter (fun id => used_elsewhere b id = true) (dom candidate_defs)
  | Some raw_uses => list_to_set (filter (fun id => used_elsewhere b id = true) raw_uses)
  end.
Definition cross_block_general_results : gset ValueId := foldl (fun acc b => acc ∪ cross_block_uses b) ∅ (blocks func).

(** ** Liveness *)

Context (threaded : list (ValueId * Ty)) (def_block : gmap ValueId BlockId).

Definition param_ids : gset ValueId := list_to_set (map fst threaded).

(** The parameters of a block and the threaded values defined in it *)
Definition own_ids (b : BlockP) : gset ValueId :=
  list_to_set (map fst (block_params b)) ∪ filter (fun id => def_block !! id = Some (block_id b)) param_ids.

(** The successors of a block, and whether all is known of its instructions *)
Definition block_succs (b : BlockP) : list BlockId :=
  concat (map (fun node => default [] (collect_terminator_successors (inst node))) (body b)).
Definition all_known (b : BlockP) : bool :=
  forallb (fun node => bool_decide (is_Some (collect_inst_value_uses (inst node))) &&
                       bool_decide (is_Some (collect_terminator_successors (inst node)))) (body b).

(** [direct_uses] of one block *)
Definition uses_of (b : BlockP) : gset ValueId :=
  (if all_known b then filter (fun id => id ∈ param_ids) (list_to_set (default [] (block_reads b))) else param_ids) ∖ own_ids b.

(** The maps by identifier; a later block replaces an earlier one. *)
Definition direct_uses : gmap BlockId (gset ValueId) := foldl (fun acc b => <[block_id b := uses_of b]> acc) ∅ (blocks func).
Definition successors : gmap BlockId (list BlockId) := foldl (fun acc b => <[block_id b := block_succs b]> acc) ∅ (blocks func).

Notation Live := (gmap BlockId (gset ValueId)).
Definition live_at (live : Live) (b : BlockId) : gset ValueId := default ∅ (live !! b).

(** One block of a round: its new set, and whether it changed *)
Definition next_live (live : Live) (b : BlockP) : gset ValueId :=
  foldl (fun next succ => next ∪ live_at live succ ∖ own_ids b) (default ∅ (direct_uses !! block_id b))
    (default [] (successors !! block_id b)).
Definition live_step (st : Live * bool) (b : BlockP) : Live * bool :=
  let next := next_live (fst st) b in
  if decide (live_at (fst st) (block_id b) = next) then st else (<[block_id b := next]> (fst st), true).

(** [while changed]; [None] when the rounds are not enough *)
Fixpoint live_loop (rounds : nat) (live : Live) : option Live :=
  match rounds with
  | O => None
  | S rounds =>
      let '(live, changed) := foldl live_step (live, false) (blocks func) in
      if changed : bool then live_loop rounds live else Some live
  end.
Definition nothing_live : Live := foldl (fun acc b => <[block_id b := ∅]> acc) ∅ (blocks func).

(** [compute_live_params] *)
Definition compute_live_params : option Live :=
  if decide (param_ids = ∅) then Some ∅
  else live_loop (S (length (blocks func) * size param_ids)) nothing_live.

End Live.

End LiveValues.

(** * Liveness is exact for the reads it assumes

    [compute_live_params] against walks of the control-flow graph, and that it ends. *)

Module LiveValuesSpec.
Import TrustIr BmcExpr ChcCfg ChcCfgSpec StackCells Aggregates LiveValues.

Section Live.
Context `{Tables}.
Context (func : Function_ Payload) (threaded : list (ValueId * Ty.Ty Payload)) (def_block : gmap ValueId BlockId).
Notation BlockP := (Block Payload).
Notation Live := (gmap BlockId (gset ValueId)).
Notation params := (param_ids threaded).
Notation own := (own_ids threaded def_block).
Notation uses := (uses_of threaded def_block).
Notation next := (next_live func threaded def_block).
Notation step := (live_step func threaded def_block).
Context (Unique : NoDup (map block_id (blocks func))).

(** ** The maps *)

Lemma by_id {A} (f : BlockP -> A) (bs : list BlockP) : forall (acc : gmap BlockId A), NoDup (map block_id bs) ->
  (forall b, b ∈ bs -> foldl (fun acc b => <[block_id b := f b]> acc) acc bs !! block_id b = Some (f b)) /\
  (forall i, i ∉ map block_id bs -> foldl (fun acc b => <[block_id b := f b]> acc) acc bs !! i = acc !! i).
Proof.
  induction bs as [|c bs IH]; intros acc N; cbn; [split; [by intros b Hb%elem_of_nil|done]|].
  cbn in N. apply NoDup_cons in N as [Nc N]. destruct (IH (<[block_id c := f c]> acc) N) as [Q B]. split.
  - intros b [->|Hb]%elem_of_cons; [|by apply Q]. rewrite B by done. apply lookup_insert_eq.
  - intros i Ni. rewrite B by (intros Hi; apply Ni; by right). rewrite lookup_insert_ne; [done|]. intros <-. apply Ni. left.
Qed.

Lemma direct_of b : b ∈ blocks func -> direct_uses func threaded def_block !! block_id b = Some (uses b).
Proof. by apply (by_id uses). Qed.
Lemma successors_of_block b : b ∈ blocks func -> successors func !! block_id b = Some (block_succs b).
Proof. by apply (by_id block_succs). Qed.

Lemma next_spec live b id : b ∈ blocks func ->
  id ∈ next live b <-> id ∈ uses b \/ exists s, s ∈ block_succs b /\ id ∈ live_at live s /\ id ∉ own b.
Proof.
  intros Hb. unfold next_live. rewrite (direct_of b Hb), (successors_of_block b Hb). cbn [from_option]. unfold Datatypes.id.
  generalize (uses b). induction (block_succs b) as [|s ss IH]; intros d; cbn.
  - split; [by left|]. by intros [|(? & Hs%elem_of_nil & _)].
  - rewrite IH, elem_of_union, elem_of_difference. setoid_rewrite elem_of_cons. split.
    + intros [[|[L O]]|(t & Ht & L & O)]; [by left|right; exists s; auto|right; exists t; auto].
    + intros [|(t & [->|Ht] & L & O)]; auto. right. by exists t.
Qed.

(** ** The sets as the analysis computes them *)

(** A value that is live in the second block is live in the first. *)
Definition passes (id : ValueId) (i j : BlockId) : Prop :=
  exists b, b ∈ blocks func /\ block_id b = i /\ j ∈ block_succs b /\ id ∉ own b.
Definition used_in (id : ValueId) (i : BlockId) : Prop := exists b, b ∈ blocks func /\ block_id b = i /\ id ∈ uses b.

Definition sound (live : Live) : Prop := forall i id, id ∈ live_at live i -> exists j, rtc (passes id) i j /\ used_in id j.
(** A set only grows. *)
Definition growing (live : Live) : Prop := forall b, b ∈ blocks func -> live_at live (block_id b) ⊆ next live b.
Definition inside (live : Live) : Prop := forall i, live_at live i ⊆ params.

Lemma uses_params b : uses b ⊆ params.
Proof. intros id. unfold uses_of. rewrite elem_of_difference. intros [Hu _]. destruct (all_known b); [by apply elem_of_filter in Hu as [? _]|done]. Qed.

Lemma live_at_insert (live : Live) i x j : live_at (<[i := x]> live) j = if decide (i = j) then x else live_at live j.
Proof. unfold live_at. destruct (decide (i = j)) as [->|]; [by rewrite lookup_insert_eq|by rewrite lookup_insert_ne]. Qed.

Lemma next_mono live live' b : b ∈ blocks func -> (forall i, live_at live i ⊆ live_at live' i) -> next live b ⊆ next live' b.
Proof. intros Hb L id. rewrite !next_spec by done. intros [|(s & Hs & Li & O)]; [by left|right]. exists s. split_and!; [done|by apply L|done]. Qed.

(** The total of the sets of the blocks *)
Definition total (live : Live) : nat := sum_list (map (fun b => size (live_at live (block_id b))) (blocks func)).

Record kept (live : Live) : Prop := { k_sound : sound live; k_growing : growing live; k_inside : inside live }.

Lemma step_kept live b c : b ∈ blocks func -> kept live -> let st := step (live, c) b in
  kept (fst st) /\ (snd st = false -> c = false /\ fst st = live /\ live_at live (block_id b) = next live b) /\
  (forall i, live_at live i ⊆ live_at (fst st) i) /\ (snd st = c /\ fst st = live \/ snd st = true /\ (total live < total (fst st))%nat).
Proof.
  intros Hb [So Gr In_]. unfold live_step. cbn [fst]. destruct (decide _) as [E|Ne]; cbn [fst snd].
  { split_and!; [done|by intros ->|done|by left]. }
  assert (Up : forall i, live_at live i ⊆ live_at (<[block_id b:=next live b]> live) i).
  { intros i. rewrite live_at_insert. destruct (decide (block_id b = i)) as [<-|]; [by apply Gr|done]. }
  split_and!; [|done|done|right; split; [done|]].
  - split.
    + intros i id. rewrite live_at_insert. destruct (decide (block_id b = i)) as [<-|]; [|apply So].
      rewrite next_spec by done. intros [Hu|(s & Hs & Li & O)]; [exists (block_id b); split; [done|by exists b]|].
      destruct (So s id Li) as (j & R & Rd). exists j. split; [|done]. eapply rtc_l; [|done]. by exists b.
    + intros d Hd. rewrite live_at_insert. destruct (decide (block_id b = block_id d)) as [E|].
      * assert (d = b) as ->; [|by apply next_mono]. apply list_elem_of_lookup in Hb as [i Hi], Hd as [j Hj].
        assert (i = j) as ->; [|congruence]. eapply NoDup_lookup; [exact Unique| |]; rewrite list_lookup_fmap.
        { by rewrite Hi. } { rewrite Hj. cbn. by rewrite E. }
      * etrans; [by apply Gr|by apply next_mono].
    + intros i. rewrite live_at_insert. destruct (decide (block_id b = i)); [|apply In_]. intros id. rewrite next_spec by done.
      intros [?%uses_params|(s & _ & L & _)]; [done|by apply In_ in L].
  - unfold total. assert (Sz : (size (live_at live (block_id b)) < size (next live b))%nat).
    { apply subset_size. split; [by apply Gr|]. intros Sub. apply Ne. apply set_eq. intros x. split; [apply Gr; done|apply Sub]. }
    assert (Mn : forall d : BlockP, (size (live_at live (block_id d)) <= size (live_at (<[block_id b:=next live b]> live) (block_id d)))%nat)
      by (intros; by apply subseteq_size).
    clear - Hb Sz Mn. induction (blocks func) as [|d bs IH]; [by apply elem_of_nil in Hb|]. cbn.
    apply elem_of_cons in Hb as [->|Hb].
    + rewrite (live_at_insert _ (block_id d)). rewrite decide_True by done.
      assert (sum_list (map (fun d0 => size (live_at live (block_id d0))) bs) <=
        sum_list (map (fun d0 => size (live_at (<[block_id d:=next live d]> live) (block_id d0))) bs))%nat; [|lia].
      clear - Mn. induction bs as [|x bs IH]; cbn; [done|]. specialize (Mn x). lia.
    + specialize (IH Hb). specialize (Mn d). lia.
Qed.

Lemma round_kept bs : forall live c, bs ⊆ blocks func -> kept live -> let st := foldl step (live, c) bs in
  kept (fst st) /\ (snd st = false -> c = false /\ fst st = live /\ forall b, b ∈ bs -> live_at live (block_id b) = next live b) /\
  (snd st = c /\ fst st = live \/ snd st = true /\ (total live < total (fst st))%nat).
Proof.
  induction bs as [|b bs IH]; intros live c Sub K; cbn [foldl].
  { cbn. split_and!; [done|intros ->; split_and!; [done|done|by intros ? ?%elem_of_nil]|by left]. }
  destruct (step_kept live b c) as (K1 & F1 & _ & T1); [apply Sub; left|done|].
  destruct (step (live, c) b) as [live1 c1] eqn:E1. cbn [fst snd] in *.
  destruct (IH live1 c1) as (K2 & F2 & T2); [intros x Hx; apply Sub; by right|done|]. split_and!; [done| |].
  - intros (-> & E2 & N2)%F2. destruct (F1 eq_refl) as (-> & -> & N1). split_and!; [done|done|].
    intros d [->|Hd]%elem_of_cons; [done|by apply N2].
  - destruct T1 as [[-> ->]|[-> L1]]; [done|]. right. destruct T2 as [[-> ->]|[-> L2]]; (split; [done|lia]).
Qed.

Lemma total_bound live : inside live -> (total live <= length (blocks func) * size params)%nat.
Proof.
  intros In_. unfold total. clear Unique. induction (blocks func) as [|b bs IH]; cbn; [done|].
  pose proof (subseteq_size _ _ (In_ (block_id b))). lia.
Qed.

Lemma loop_ends rounds : forall live, kept live -> (length (blocks func) * size params < rounds + total live)%nat ->
  exists live', live_loop func threaded def_block rounds live = Some live' /\ kept live' /\
    forall b, b ∈ blocks func -> live_at live' (block_id b) = next live' b.
Proof.
  induction rounds as [|rounds IH]; intros live K B.
  { pose proof (total_bound live (k_inside live K)). lia. }
  cbn [live_loop]. destruct (round_kept (blocks func) live false) as (K1 & F1 & T1); [done|done|].
  destruct (foldl step (live, false) (blocks func)) as [live1 c1]. cbn [fst snd] in *. destruct c1.
  - destruct T1 as [[? _]|[_ L]]; [done|]. apply IH; [done|lia].
  - destruct (F1 eq_refl) as (_ & -> & N). exists live. by split_and!.
Qed.

Lemma nothing_kept : kept (nothing_live func).
Proof.
  assert (E : forall i, live_at (nothing_live func) i = ∅).
  { intros i. unfold live_at, nothing_live. destruct (by_id (fun _ => ∅ : gset ValueId) (blocks func) ∅ Unique) as [A B].
    destruct (decide (i ∈ map block_id (blocks func))) as [(b & -> & Hb)%list_elem_of_fmap|Ni].
    - by rewrite A.
    - by rewrite B. }
  split.
  - intros i id. rewrite E. by intros ?%elem_of_empty.
  - intros b Hb. rewrite E. set_solver.
  - intros i. rewrite E. set_solver.
Qed.

Lemma fixed_complete live id : (forall b, b ∈ blocks func -> live_at live (block_id b) = next live b) ->
  forall i j, rtc (passes id) i j -> used_in id j -> id ∈ live_at live i.
Proof.
  intros F i j R Rd. induction R as [i|i k j (b & Hb & <- & Hk & O) _ IH].
  - destruct Rd as (b & Hb & <- & Hu). rewrite F, next_spec by done. by left.
  - rewrite F, next_spec by done. right. exists k. split_and!; [done|by apply IH|done].
Qed.

(** A value the block might read: where all is known of its instructions, one of theirs,
    and otherwise any threaded value, but not its own *)
Lemma uses_spec b id : id ∈ uses b <-> id ∈ params /\ id ∉ own b /\
  (all_known b = true -> exists node ids, node ∈ body b /\ collect_inst_value_uses (inst node) = Some ids /\ id ∈ ids).
Proof.
  unfold uses_of. rewrite elem_of_difference. destruct (all_known b) eqn:K; [|naive_solver].
  rewrite elem_of_filter, elem_of_list_to_set.
  assert (Q : id ∈ default [] (block_reads b) <-> exists node ids, node ∈ body b /\ collect_inst_value_uses (inst node) = Some ids /\ id ∈ ids).
  { unfold block_reads. destruct (mapM _ (body b)) as [reads|] eqn:M; cbn [mbind option_bind from_option]; unfold Datatypes.id.
    - apply mapM_Some in M. rewrite list_elem_of_In, in_concat. split.
      + intros (ids & Hi%list_elem_of_In%list_elem_of_lookup & Hid). destruct Hi as [k Hk].
        destruct (Forall2_lookup_r _ _ _ _ _ M Hk) as (node & Hn & C). exists node, ids. split_and!; [by eapply list_elem_of_lookup_2|done|by apply list_elem_of_In].
      + intros (node & ids & Hn & C & Hid). apply list_elem_of_lookup in Hn as [k Hk]. destruct (Forall2_lookup_l _ _ _ _ _ M Hk) as (ids' & Hi & C').
        assert (ids' = ids) as -> by congruence. exists ids. split; [by eapply list_elem_of_In, list_elem_of_lookup_2|by apply list_elem_of_In].
    - exfalso. apply mapM_None_1 in M. apply Exists_exists in M as (node & Hn & C).
      unfold all_known in K. rewrite forallb_forall in K. specialize (K node (proj1 (list_elem_of_In _ _) Hn)).
      rewrite C in K. done. }
  rewrite Q. naive_solver.
Qed.

(** ** Walks *)

(** The block computes the value itself. *)
Definition defined_in (b : BlockP) (id : ValueId) : Prop :=
  id ∈ map fst (block_params b) \/ def_block !! id = Some (block_id b).

(** Control goes from one block to the other, and the value is not computed in between. *)
Definition flows (id : ValueId) (i j : BlockId) : Prop :=
  exists b node ts, b ∈ blocks func /\ block_id b = i /\ node ∈ body b /\ branches_to (inst node) ts /\ j ∈ ts /\
    ~ defined_in b id.

(** The block is taken to read the value: an instruction of it does, or is no terminator. *)
Definition may_read (id : ValueId) (i : BlockId) : Prop :=
  exists b node, b ∈ blocks func /\ block_id b = i /\ ~ defined_in b id /\ node ∈ body b /\
    (reads (inst node) id \/ forall ts, ~ branches_to (inst node) ts).

Lemma own_spec b id : id ∈ params -> id ∈ own b <-> defined_in b id.
Proof. intros P. unfold own_ids, defined_in. rewrite elem_of_union, elem_of_list_to_set, elem_of_filter. naive_solver. Qed.

Lemma succs_spec b j : j ∈ block_succs b <-> exists node ts, node ∈ body b /\ branches_to (inst node) ts /\ j ∈ ts.
Proof.
  unfold block_succs. rewrite list_elem_of_In, in_concat. setoid_rewrite in_map_iff. split.
  - intros (l & (node & <- & Hn) & Hj). apply list_elem_of_In in Hn, Hj.
    destruct (collect_terminator_successors (inst node)) as [ts|] eqn:T; [|by apply elem_of_nil in Hj].
    exists node, ts. split_and!; [done|by apply successors_targets|done].
  - intros (node & ts & Hn & T%successors_targets & Hj). exists ts. split; [|by apply list_elem_of_In].
    exists node. rewrite T. split; [done|by apply list_elem_of_In].
Qed.

Lemma passes_flows id i j : id ∈ params -> passes id i j <-> flows id i j.
Proof. intros P. unfold passes, flows. setoid_rewrite succs_spec. setoid_rewrite (fun b => own_spec b id P). naive_solver. Qed.

Lemma unknown_spec b : all_known b = false <-> exists node, node ∈ body b /\ forall ts, ~ branches_to (inst node) ts.
Proof.
  assert (K : forall node : InstrNode Payload, bool_decide (is_Some (collect_inst_value_uses (inst node))) &&
      bool_decide (is_Some (collect_terminator_successors (inst node))) = true <-> exists ts, branches_to (inst node) ts).
  { intros node. rewrite andb_true_iff, !bool_decide_eq_true. setoid_rewrite <- successors_targets. split; [by intros [_ [ts T]]; exists ts|].
    intros [ts T]. split; [|by exists ts]. pose proof (uses_reads (inst node)) as U. destruct (collect_inst_value_uses _); [by eexists|].
    apply successors_targets in T as [_ No]. done. }
  rewrite <- not_true_iff_false. unfold all_known. rewrite forallb_forall. split.
  - intros N. set (known := fun node : InstrNode Payload => bool_decide (is_Some (collect_inst_value_uses (inst node))) &&
      bool_decide (is_Some (collect_terminator_successors (inst node))) = true).
    assert (D : ~ List.Forall known (body b)) by (by rewrite List.Forall_forall).
    apply not_Forall_Exists, Exists_exists in D as (node & Hn & Q); [|intros node; apply bool_eq_dec].
    exists node. split; [done|]. intros ts T. apply Q, K. by exists ts.
  - intros (node & Hn & Q) A. specialize (A node ltac:(by apply list_elem_of_In)). apply K in A as [ts T]. by apply (Q ts).
Qed.

Lemma used_read id i : used_in id i <-> id ∈ params /\ may_read id i.
Proof.
  unfold used_in, may_read. setoid_rewrite uses_spec. split.
  - intros (b & Hb & Eb & P & O & Q). split; [done|]. exists b. rewrite own_spec in O by done. destruct (all_known b) eqn:K.
    + destruct (Q eq_refl) as (node & ids & Hn & C & Hid). exists node. split_and!; [done|done|done|done|left].
      pose proof (uses_reads (inst node)) as U. rewrite C in U. by apply U.
    + apply unknown_spec in K as (node & Hn & N). exists node. split_and!; auto.
  - intros (P & b & node & Hb & Eb & O & Hn & Q). exists b. split_and!; [done|done|done|by rewrite own_spec|].
    intros K. destruct Q as [R|N].
    + exists node. pose proof (uses_reads (inst node)) as U. destruct (collect_inst_value_uses (inst node)) as [ids|] eqn:C.
      * exists ids. split_and!; [done|done|by apply U].
      * unfold all_known in K. rewrite forallb_forall in K. specialize (K node ltac:(by apply list_elem_of_In)).
        rewrite C in K. done.
    + assert (all_known b = false); [|congruence]. apply unknown_spec. by exists node.
Qed.

End Live.

Section Property.
Context `{Tables}.

(** C25: the values carried into a block are those a block it leads to may read.  With
    distinct blocks [compute_live_params] ends, and a threaded value is live in a block
    exactly when some way along the terminators, through blocks that do not compute the
    value, comes to a block that does not either and is taken to read it: an instruction
    of the block does, or is something else than a branch, a return or an unreachable,
    each of which counts as reading every value. *)
Theorem live_params_exact (func : Function_ Payload) threaded def_block : NoDup (map block_id (blocks func)) ->
  exists live, compute_live_params func threaded def_block = Some live /\
  forall i id, id ∈ live_at live i <->
    id ∈ map fst threaded /\ exists j, rtc (flows func def_block id) i j /\ may_read func def_block id j.
Proof.
  intros U. assert (Pm : forall id, id ∈ map fst threaded <-> id ∈ param_ids threaded)
    by (intros id; unfold param_ids; by rewrite elem_of_list_to_set).
  setoid_rewrite Pm. unfold compute_live_params. destruct (decide (param_ids threaded = ∅)) as [E|Ne].
  - exists ∅. split; [done|]. intros i id. split; [by intros ?%elem_of_empty|]. intros [P _]. set_solver.
  - destruct (loop_ends func threaded def_block U (S (length (blocks func) * size (param_ids threaded))) (nothing_live func)) as (live & L & K & F).
    { by apply nothing_kept. } { lia. }
    exists live. split; [done|]. intros i id. split.
    + intros Li. assert (P : id ∈ param_ids threaded) by (by apply (k_inside _ _ _ _ K i)). split; [done|].
      destruct (k_sound _ _ _ _ K i id Li) as (j & R & Rd%used_read). exists j. split; [|apply Rd].
      by apply (rtc_iff _ _ (fun x y => passes_flows func threaded def_block id x y P)).
    + intros (P & j & R & Rd). eapply fixed_complete; [exact U|exact F| |by apply used_read].
      by apply (rtc_iff _ _ (fun x y => passes_flows func threaded def_block id x y P)).
Qed.

End Property.

End LiveValuesSpec.
