(* ===== verification/ChcSample.v ===== *)
(** * Runs of the Horn clause encoder

    [ChcCfgSample] runs the queries on control flow and stack cells, [ChcSample] what
    takes types, values and promoted cells.

    ** Runs of the queries on functions

    The predicates of [ChcCfg], [CellInit] and [StackCells] at concrete functions, and a
    function on which the rounds of the initialisation analysis never settle. *)

From S2P Require Import Prelude AyExpr Chc BvArith AyBuild AyBuildSample AyTry F64 TrustIr AyEncode BmcExpr BmcOrder BmcWitness ChcCfg CellInit StackCells Aggregates ChcValues ChcValuesSpec CellPromotion LiveValues.

Module ChcCfgSample.
Import AyEncodeSample TrustIr BmcOrder ChcCfg CellInit CellInitSpec StackCells.

Notation P := (@Payload sample_ir).

Definition node (i : Inst.Inst P) (rs : list N) : InstrNode P := {| inst := i; results := rs; span := None |}.
Definition function (bs : list (Block P)) : Function_ P :=
  {| func_id := 0; func_name := "f"; func_ty := 0; entry := 0; blocks := bs; proofs := [] |}.
Definition block_of (i : N) (ns : list (InstrNode P)) : Block P := {| block_id := i; block_params := []; body := ns |}.

(** A cell [v7], written before a loop that reads it *)
Definition loop_blocks : list (Block P) :=
  [block_of 0 [node (Inst.Alloca Ty.I8 None None) [7%N]; node (Inst.Store Ty.I8 7 9 false None) []; node (Inst.Br 1 []) []];
   block_of 1 [node (Inst.Load Ty.I8 7 false None) [10%N]; node (Inst.CondBr 8 2 [] 3 []) []];
   block_of 2 [node (Inst.Br 1 []) []];
   block_of 3 [node (Inst.Return []) []]].

(** Two blocks that nothing leads to: one writes the cell and goes to the other, which
    goes to the head of the loop. *)
Definition stray_blocks : list (Block P) :=
  [block_of 4 [node (Inst.Store Ty.I8 7 9 false None) []; node (Inst.Br 5 []) []]; block_of 5 [node (Inst.Br 1 []) []]].

(** The members of a list that is written out *)
Ltac members Hin := first [by apply elem_of_nil in Hin|apply elem_of_cons in Hin as [->|Hin]; [|members Hin]].

(** No run enters them. *)
Lemma stray_unreached tr b : run (function (loop_blocks ++ stray_blocks)) tr b -> run (function loop_blocks) tr b.
Proof.
  intros R. induction R as [b Hb Eb|tr b c R IH G Hc].
  - constructor; [|done]. apply elem_of_app in Hb as [Hb|Hb]; [done|]. unfold stray_blocks in Hb. by members Hb.
  - constructor; [done|done|]. apply elem_of_app in Hc as [Hc|Hc]; [done|]. apply run_in in IH. exfalso.
    destruct G as (t & ts & T & C & Hin). change (b ∈ loop_blocks) in IH. unfold loop_blocks in IH. unfold stray_blocks in Hc.
    members IH; injection T as <-; inversion C; subst; members Hc; rewrite ?elem_of_cons, ?elem_of_nil in Hin; cbn in Hin; naive_solver.
Qed.

(** The successors of the six blocks, and the two answers the rounds go between *)
Definition stray : Function_ P := function (loop_blocks ++ stray_blocks).
Definition stray_successors : list (list nat) := [[1]; [2; 3]; [1]; []; [5]; [1]].
Definition head_written : list bool * list bool :=
  ([false; true; false; false; false; true], [true; false; true; true; true; true]).
Definition head_unwritten : list bool * list bool :=
  ([false; false; true; true; false; true], [true; true; false; false; true; true]).

Lemma rounds_alternate rounds :
  settle rounds stray 7 0 stray_successors (fst head_written) (snd head_written) = None /\
  settle rounds stray 7 0 stray_successors (fst head_unwritten) (snd head_unwritten) = None.
Proof.
  assert (W : flow_round stray 7 0 stray_successors (fst head_written) = head_unwritten) by (vm_compute; reflexivity).
  assert (U : flow_round stray 7 0 stray_successors (fst head_unwritten) = head_written) by (vm_compute; reflexivity).
  induction rounds as [|rounds [IHw IHu]]; [done|]. cbn [settle]. rewrite W, U.
  split; [exact IHu|exact IHw].
Qed.

(** The rounds do not settle when code that is not reached writes the cell: every run of
    the function is right, the same function without the two blocks is accepted, and the
    analysis goes between two answers whatever its bound. *)
Lemma unreached_code_unsettles :
  initialised stray 7 /\
  promoted_cell_is_definitely_initialized (function loop_blocks) 7 = true /\
  promoted_cell_is_definitely_initialized stray 7 = false /\
  cell_graph stray = Some (0, stray_successors) /\
  forall rounds, settle rounds stray 7 0 stray_successors (optimistic 6 0 stray_successors) (replicate 6 true) = None.
Proof.
  assert (Ok : promoted_cell_is_definitely_initialized (function loop_blocks) 7 = true) by (vm_compute; reflexivity).
  assert (F1 : flow_round stray 7 0 stray_successors (optimistic 6 0 stray_successors) =
    (fst head_unwritten, [true; true; true; true; true; false])) by (vm_compute; reflexivity).
  assert (F2 : flow_round stray 7 0 stray_successors (fst head_unwritten) = head_written) by (vm_compute; reflexivity).
  split_and!; [|done|vm_compute; reflexivity|vm_compute; reflexivity|].
  - intros tr b R%stray_unreached. by apply (accepted_initialised (function loop_blocks) 7 Ok).
  - intros [|[|rounds]]; [done|cbn [settle]; rewrite F1; vm_compute; reflexivity|]. cbn [settle]. rewrite F1.
    rewrite bool_decide_false by (by intros [? _]). rewrite F2. apply (rounds_alternate rounds).
Qed.

(** ** The queries *)

(** The last block of the loop comes before nothing. *)
Lemma narrowed : cfg_reaches stray 3 1 = ProvenUnreachable /\ cfg_reaches stray 4 3 = Reachable /\
  site_can_precede_target stray 4 3 = false /\ site_can_precede_target stray 2 3 = true /\
  cfg_reaches (function (block_of 0 [node Inst.Fence []] :: loop_blocks)) 0 3 = Unknown.
Proof. split_and!; vm_compute; reflexivity. Qed.

(** A cell of one block; the same with a pointer to it stored, borrowed, or handed to a call *)
Definition cell_block (uses : list (InstrNode P)) : Function_ P :=
  function [block_of 0 ([node (Inst.Alloca Ty.I8 None None) [7%N]; node (Inst.Store Ty.I8 7 9 false None) []] ++ uses ++
    [node (Inst.Load Ty.I8 7 false None) [10%N]; node (Inst.Return [10%N]) []])].

Lemma cells :
  block_local_alloca_reject false (cell_block []) 7 Ty.I8 = None /\
  BlockLocalAllocaReject_fmt <$> block_local_alloca_reject false (cell_block [node (Inst.Borrow 7) [11%N]]) 7 Ty.I8 =
    Some "pointer_used_by_instruction(at=#0,inst=Inst)" /\
  block_local_alloca_reject true (cell_block [node (Inst.Borrow 7) [11%N]]) 7 Ty.I8 = None /\
  stack_alloca_escape_classification (cell_block [node (Inst.Borrow 7) [11%N]; node (Inst.Call 0 [11%N]) []]) 7 = IntoCallsOnly /\
  stack_alloca_escape_classification (cell_block [node (Inst.Borrow 7) [11%N]; node (Inst.Store Ty.Ptr 12 11 false None) []]) 7 = Unbounded.
Proof. split_and!; vm_compute; reflexivity. Qed.

End ChcCfgSample.

(** * Runs of the Horn clause encoder's analyses

    Type tables that meet the laws, the theorems on aggregates, casts, summaries,
    promotion and liveness at concrete values, and inputs on which a recursion or a loop
    of the source does not end. *)

Module ChcSample.
Import BvArith AyBuild AyBuildSample AyTry AyTrySample AyEncode AyEncodeSample TrustIr BmcExpr BmcWitness.
Import ChcCfg CellInit CellInitSpec StackCells StackCellsSpec Aggregates AggregatesSpec ChcValues CastSpec NewtypeSpec CallReturnsSpec.
Import CellPromotion CellPromotionSpec LiveValues LiveValuesSpec.
#[local] Open Scope nat_scope.

(** ** A representation with tables *)

#[export] Instance table_ir : TrustIr := {|
  Payload := nat;
  is_integer := integer_names;
  is_signed := fun ty => match ty with Ty.I8 | Ty.I16 | Ty.I32 | Ty.I64 | Ty.I128 | Ty.Isize => true | _ => false end;
  is_float := fun ty => match ty with Ty.F16 | Ty.F32 | Ty.F64 => true | _ => false end;
  bit_width_with := fun ty p =>
    match ty with
    | Ty.Bool => Some 1%N
    | Ty.Ptr | Ty.PtrConst _ | Ty.PtrMut _ | Ty.Ref _ | Ty.RefMut _ | Ty.Rc _ => Some p
    | _ => integer_width ty p
    end;
  is_terminator := fun i =>
    match i with
    | Inst.Br _ _ | Inst.CondBr _ _ _ _ _ | Inst.Switch _ _ _ _ | Inst.Return _ | Inst.Unreachable | Inst.Invoke _ _
    | Inst.CoroSuspend | Inst.Resume => true
    | _ => false
    end;
  block := fun f i => List.find (fun b => (block_id b =? i)%N) (blocks f);
  function_by_id := fun m i => List.find (fun f => (func_id f =? i)%N) (functions m);
  debug_ty := fun _ => "ty"; debug_binop := fun _ => "op"; debug_rmw := fun _ => "rmw";
  debug_func := fun _ => "func"; show_f64 := fun _ => "f64";
  show_ty := fun _ => "ty"; debug_inst := fun _ => "Inst { .. }"; is_thread_local_addr := fun _ => false |}.

#[export] Instance table_ir_laws : TrustIrLaws.
Proof.
  split.
  - intros ty p I. by destruct ty; try discriminate I; eexists.
  - intros ty p w I. by destruct ty.
  - intros ty I. by destruct ty.
  - intros f i b E. cbn in E. apply find_some in E as [Hin E%N.eqb_eq]. by rewrite list_elem_of_In.
  - intros f i b E Hin. cbn in E. apply list_elem_of_In in Hin. by apply N.eqb_neq, (find_none _ _ E).
Qed.

Notation P := (@Payload table_ir).

(** [PhantomData], [NonNull], [Box] and a pair of a number and a nested tuple; an array of
    three, and one of 256 arrays of 17. *)
#[export] Instance tables : @Tables table_ir := {|
  struct_fields := fun _ (id : P) =>
    match id : nat with
    | 0 => Some []
    | 1 => Some [Ty.PtrConst 0; Ty.Struct 0]
    | 2 => Some [Ty.Unit; Ty.Struct 1]
    | 3 => Some [Ty.I8; Ty.Tuple 0]
    | _ => None
    end;
  tuple_fields := fun _ => [Ty.Bool; Ty.U16; Ty.Array 0];
  array_elem := fun _ (p : P) => match p : nat with 2 => Some (Ty.Array 1) | _ => Some Ty.U8 end;
  array_len := fun (p : P) => match p : nat with 0 => 3%N | 1 => 17%N | _ => 256%N end;
  nesting := fun _ ty =>
    match ty with
    | Ty.Struct 0 => 1 | Ty.Struct 1 => 2 | Ty.Struct 2 => 3 | Ty.Struct _ => 4
    | Ty.Tuple _ => 3 | Ty.Array 2 => 2 | Ty.Array _ => 1 | _ => 0
    end |}.

#[export] Instance tables_laws : @TablesLaws table_ir tables.
Proof.
  split.
  - intros m ty fields f I Hf.
    assert (F : forallb (fun f => nesting m f <? nesting m ty) fields = true).
    { destruct ty as [| | | | | | | | | | | | | | | | | |elem lanes| |p|p|p|p|p|p| | |p|p|p|p|p|p|p|p|p|p]; try discriminate I.
      - by injection I as <-.
      - destruct p as [|[|[|[|p]]]]; try discriminate I; by injection I as <-.
      - destruct p as [|[|[|p]]]; injection I as <-; reflexivity.
      - by injection I as <-. }
    rewrite forallb_forall in F. apply Nat.ltb_lt, F. by apply list_elem_of_In.
  - intros m ty fields I. by destruct ty.
  - intros ty U. by destruct ty.
Qed.

Definition the_module : Module_ P := {| module_name := "m"; functions := []; func_types := [] |}.

(** A newtype takes one column, a nested pair six, an array over the budget one. *)
Lemma columns_of_samples :
  aggregate_leaf_count_within the_module (Ty.Struct 2) MAX_AGGREGATE_LEAVES = Some 1%N /\
  aggregate_leaf_count_within the_module (Ty.Struct 3) MAX_AGGREGATE_LEAVES = Some 6%N /\
  aggregate_leaf_count_within the_module (Ty.Array 2) MAX_AGGREGATE_LEAVES = None /\
  pointer_newtype_field_path (Ty.Struct 2) the_module POINTER_NEWTYPE_FUEL = Some [1; 0].
Proof. split_and!; vm_compute; reflexivity. Qed.

(** A struct that holds itself: the count does not end, whatever its bound. *)
Definition looping_tables : @Tables table_ir := {|
  struct_fields := fun _ id => Some [Ty.Struct id]; tuple_fields := fun _ => []; array_elem := fun _ _ => None;
  array_len := fun _ => 0%N; nesting := fun _ _ => 0 |}.
Lemma self_reference_never_ends fuel : @leaf_count_steps table_ir looping_tables fuel the_module (Ty.Struct 0) MAX_AGGREGATE_LEAVES = None.
Proof. induction fuel as [|fuel IH]; [done|]. cbn in *. by rewrite IH. Qed.

(** ** Columns *)

Definition pair_ty : Ty.Ty P := Ty.Struct 3.
Definition declared_pair : ValueBinding * (Chc.ChcVc * list (@Sort terms)) :=
  default (Scalar (TBool true : @Expr terms), (Chc.ChcVc_new, []))
    (declare_relation_binding_rec the_module Chc.ChcVc_new "bb1_v2" pair_ty [SBool : @Sort terms]).

Lemma default_some {A} (o : option A) d : (if o then true else false) = true -> o = Some (default d o).
Proof. by destruct o. Qed.

Lemma relation_columns_witness :
  exists ss, snd (snd declared_pair) = [SBool : @Sort terms] ++ ss /\ columns the_module pair_ty ss /\
    shaped the_module pair_ty (fst declared_pair) /\
    (forall b', shaped the_module pair_ty b' -> Forall2 of_sort (flat_args b') ss) /\
    (forall ls, flattens the_module pair_ty ls ->
      length ss = if (N.of_nat (length ls) <=? MAX_AGGREGATE_LEAVES)%N then length ls else 1) /\
    (N.of_nat (length ss) <= MAX_AGGREGATE_LEAVES)%N.
Proof.
  apply (relation_columns the_module Chc.ChcVc_new "bb1_v2" pair_ty [SBool : @Sort terms]
    (fst declared_pair) (fst (snd declared_pair)) (snd (snd declared_pair))).
  rewrite <- !surjective_pairing. apply default_some. vm_compute. reflexivity.
Defined.

(** ** Casts *)

Definition u64 : Ty.Ty P := Ty.U64.
Definition i32 : Ty.Ty P := Ty.I32.
Definition all_ones : Z := 18446744073709551615.
Definition all_ones_expr : @Expr terms := TBv 64 all_ones.

(** [u64::MAX as i32] is [-1], and its obligation does not report the loss. *)
Lemma integer_cast_exact_witness :
  (exists r, eval_cast_expr ChcValues.Trunc u64 i32 all_ones_expr = Some r /\
    match r, converted ChcValues.Trunc 64 32 all_ones with
    | Some e', Some y => eval (choose []) e' = bv 32 y
    | None, None => True
    | _, _ => False
    end) /\
  match lossy_condition ChcValues.Trunc u64 i32 all_ones_expr with
  | None => ~ (ChcValues.Trunc = ChcValues.Trunc /\ (32 < 64)%N)
  | Some l => ChcValues.Trunc = ChcValues.Trunc /\ (32 < 64)%N /\
      (forall func module node operand s, values s !! operand = Some all_ones_expr ->
        fst <$> translate_cast func module node ChcValues.Trunc u64 i32 operand s = Some (Obliged l)) /\
      exists lossy, eval (choose []) l = vbool lossy /\
        (~ unreported (is_signed u64) (is_signed i32) 64 32 all_ones ->
          lossy = negb (fits (is_signed i32) 32 (number (is_signed u64) 64 all_ones))) /\
        (unreported (is_signed u64) (is_signed i32) 64 32 all_ones ->
          lossy = false /\ fits (is_signed i32) 32 (number (is_signed u64) 64 all_ones) = false)
  end.
Proof.
  apply (integer_cast_exact ChcValues.Trunc u64 i32 (choose []) 64 32 all_ones_expr all_ones).
  - split; [by split|by split|by split_and!].
  - do 2 apply list_elem_of_further. apply list_elem_of_here.
Defined.

Definition an_instruction (rs : list N) : InstrNode P := {| inst := Inst.Fence; results := rs; span := None |}.
Definition a_function (bs : list (Block P)) : Function_ P :=
  {| func_id := 0; func_name := "f"; func_ty := 0; entry := 0; blocks := bs; proofs := [] |}.
Definition boxed : Ty.Ty P := Ty.Struct 2.
Definition with_bits : ChcFuncTranslator :=
  {| vc := Chc.ChcVc_new; values := {[1%N := all_ones_expr]}; aggregates := ∅; ptr_parts := ∅; ptr_metadata_syms := ∅; next_sym_id := 0 |}.

Lemma casts_in_lockstep_witness : exists s' e,
  translate_cast (a_function []) the_module (an_instruction [2%N]) Bitcast u64 boxed 1 with_bits = Some (Lowered, s') /\
  leaf the_module with_bits 1 u64 e /\ result_is the_module (an_instruction [2%N]) s' boxed e.
Proof.
  apply (casts_in_lockstep (a_function []) the_module (an_instruction [2%N]) Bitcast u64 boxed 1 with_bits).
  - vm_compute. reflexivity.
  - exists all_ones_expr. split; reflexivity.
Defined.

(** ** Returns *)

Definition two_paths : list CallSummaryReturn :=
  [{| returned := [Aggregate [Scalar (TBv 8 1 : @Expr terms)]]; path_conditions := [TVar "b_c" : @Expr terms] |};
   {| returned := [Aggregate [Scalar (TBv 8 2 : @Expr terms)]]; path_conditions := [TUn Not (TVar "b_c") : @Expr terms] |}].

Lemma combined_returns_exact_witness :
  length (default [] (combine_call_summary_returns two_paths 1)) = 1 /\ exists r, taken (choose []) two_paths r /\
  ((exists p, p ∈ two_paths /\ holds (choose []) p) -> holds (choose []) r) /\
  forall i v, default [] (combine_call_summary_returns two_paths 1) !! i = Some v ->
    exists u, returned r !! i = Some u /\ meaning (choose []) v = meaning (choose []) u.
Proof.
  apply (combined_returns_exact (choose []) (choose_ok [] eq_refl) two_paths 1 (default [] (combine_call_summary_returns two_paths 1))).
  - intros p [->|[->|Hp%elem_of_nil]%elem_of_cons]%elem_of_cons c Hc; [| |done]; apply list_elem_of_singleton in Hc as ->; reflexivity.
  - apply default_some. vm_compute. reflexivity.
Defined.

(** ** Promotion *)

Definition node (i : Inst.Inst P) (rs : list N) : InstrNode P := {| inst := i; results := rs; span := None |}.
Definition block_of (i : N) (ps : list (N * Ty.Ty P)) (ns : list (InstrNode P)) : Block P := {| block_id := i; block_params := ps; body := ns |}.

(** [let k = if c { a } else { b }; k], the cell a newtype *)
Definition joined : Function_ P := a_function
  [block_of 0 [] [node (Inst.Alloca boxed None None) [7%N]; node (Inst.CondBr 1 1 [] 2 []) []];
   block_of 1 [] [node (Inst.Store boxed 7 2 false None) []; node (Inst.Br 3 []) []];
   block_of 2 [] [node (Inst.Store boxed 7 3 false None) []; node (Inst.Br 3 []) []];
   block_of 3 [] [node (Inst.Load boxed 7 false None) [8%N]; node (Inst.Return [8%N]) []]].

Lemma joined_single : single_definitions joined.
Proof.
  split.
  - change (concat (map results (nodes_of joined))) with [7%N; 8%N]. decide_now.
  - intros n Hn ty count al I. unfold joined, a_function, nodes_of in Hn. cbn in Hn.
    repeat (apply elem_of_cons in Hn as [->|Hn]; [cbn; lia|]). by apply elem_of_nil in Hn.
Qed.

Lemma promotion_exact_witness :
  (is_promoted (fst (compute_promotable_cells_of false false the_module joined)) 7 boxed = true <->
    promotable_cell_ty the_module boxed = true /\ forall n, n ∈ nodes_of joined -> allowed 7 boxed n) /\
  (is_promoted (fst (compute_promotable_cells_of false false the_module joined)) 7 boxed = true <->
    promotion_blocker_of the_module joined 7 boxed = Unclassified) /\
  (promoted_cell_alloca_is_admissible_scalar_reference joined 7 boxed = true <->
    promoted_cell_alloca_is_admissible false false the_module joined 7 boxed = true /\ is_precise_stack_scalar_ty boxed = true) /\
  (promoted_cell_alloca_is_admissible false false the_module joined 7 boxed = true ->
    is_precise_stack_scalar_ty boxed = true \/ is_Some (aggregate_field_tys_of the_module boxed)).
Proof.
  apply (promotion_exact joined the_module 7 boxed).
  - apply joined_single.
  - vm_compute. reflexivity.
Defined.

Lemma admitted_cells_exact_witness :
  (exists n, n ∈ nodes_of joined /\ 7%N ∈ results n /\ inst n = Inst.Alloca boxed None None) /\
  stack_alloca_pointer_is_non_escaping joined 7 = true /\ stack_alloca_cell_accesses_match_type joined 7 boxed = true /\
  (forall n, n ∈ nodes_of joined -> unqualified 7 n) /\
  (NoDup (map block_id (blocks joined)) -> allocated_first joined 7 -> initialised joined 7).
Proof.
  apply (admitted_cells_exact joined the_module 7 boxed). vm_compute. reflexivity.
Defined.

(** The lane of one block declines it, the promotion admits it; a pointer that is returned
    is declined by both, with their reasons. *)
Definition returned_cell : Function_ P := a_function
  [block_of 0 [] [node (Inst.Alloca Ty.U8 None None) [7%N]; node (Inst.Return [7%N]) []]].
Lemma lanes :
  kind <$> block_local_alloca_reject false joined 7 boxed = Some "store_in_other_block" /\
  single_cell_alloca_is_admissible false false false the_module joined 7 boxed = true /\
  SingleCellAllocaRejection_fmt <$> single_cell_alloca_rejection false false false the_module returned_cell 7 Ty.U8 =
    Some "block-local=pointer_used_by_instruction(at=#0,inst=Inst) promoted=not_promotable.pointer_used_by_instruction(inst=Inst)".
Proof. split_and!; vm_compute; reflexivity. Qed.

(** ** Liveness *)

Definition parameter : list (N * Ty.Ty P) := [(1%N, Ty.U8)].

(** The parameter is dead after the entry, and yet carried into the second block: a block
    with an ordinary instruction counts as one that reads everything. *)
Definition dead_after : Function_ P := a_function
  [block_of 0 parameter [node (Inst.Br 1 []) []]; block_of 1 [] [node Inst.Fence []; node (Inst.Return []) []]].

Lemma live_params_exact_witness : exists live, compute_live_params dead_after parameter {[1%N := 0%N]} = Some live /\
  forall i id, id ∈ live_at live i <-> id ∈ map fst parameter /\
    exists j, rtc (flows dead_after {[1%N := 0%N]} id) i j /\ may_read dead_after {[1%N := 0%N]} id j.
Proof. apply (live_params_exact dead_after parameter {[1%N := 0%N]}). decide_now. Defined.

Lemma ordinary_instruction_reads_all :
  (compute_live_params dead_after parameter {[1%N := 0%N]} ≫= fun live => live !! 1%N) = Some {[1%N]} /\
  forall threaded def_block (b : Block P), (exists n, n ∈ body b /\ collect_terminator_successors (inst n) = None) ->
    uses_of threaded def_block b = param_ids threaded ∖ own_ids threaded def_block b.
Proof.
  split; [vm_compute; reflexivity|]. intros threaded def_block b (n & Hn & T). unfold uses_of.
  assert (all_known b = false) as ->; [|done]. apply not_true_iff_false. intros K. unfold all_known in K. rewrite forallb_forall in K.
  specialize (K n (proj1 (list_elem_of_In _ _) Hn)). rewrite T, andb_comm in K. done.
Qed.

(** Two blocks with one identifier, of which one has the value as a parameter *)
Definition twins : Function_ P := a_function
  [block_of 0 parameter [node (Inst.Br 1 []) []]; block_of 1 parameter [node (Inst.Br 2 []) []];
   block_of 1 [] [node (Inst.Br 2 []) []]; block_of 2 [] [node Inst.Fence []; node (Inst.Return []) []]].
Definition twins_live : gmap N (gset N) := {[0%N := ∅; 1%N := {[1%N]}; 2%N := {[1%N]}]}.

(** Each takes back what the other found: the loop does not end, whatever its bound. *)
Lemma twins_never_settle rounds : live_loop twins parameter {[1%N := 0%N]} rounds (nothing_live twins) = None.
Proof.
  assert (First : foldl (live_step twins parameter {[1%N := 0%N]}) (nothing_live twins, false) (blocks twins) =
    (<[1%N := ∅]> twins_live, true)) by (vm_compute; reflexivity).
  assert (Second : foldl (live_step twins parameter {[1%N := 0%N]}) (<[1%N := ∅]> twins_live, false) (blocks twins) =
    (twins_live, true)) by (vm_compute; reflexivity).
  assert (Again : foldl (live_step twins parameter {[1%N := 0%N]}) (twins_live, false) (blocks twins) = (twins_live, true))
    by (vm_compute; reflexivity).
  destruct rounds as [|[|rounds]]; [done|cbn [live_loop]; by rewrite First|]. cbn [live_loop]. rewrite First, Second.
  induction rounds as [|rounds IH]; [done|]. cbn [live_loop]. by rewrite Again.
Qed.

End ChcSample.
